(* ===== verification/_CoqProject ===== *)
-Q . S2P
Prelude.v
Protocol.v
Common.v
Locks.v
Registry.v
XattrNames.v
FileIO.v
Attributes.v
HostDirs.v
Forks.v
Session.v
RegistryPaths.v
HostFacts.v
SessionFacts.v
SessionSafety.v
SessionSpecs.v
Gates.v
GatesFacts.v
StateFiles.v
Auth.v
AuthFacts.v
PairingFacts.v
ExportState.v
RateLimiter.v
Transport.v
ViewStream.v
Trust.v
Daemon.v
DaemonFacts.v
ServeLoop.v
ServeLoopFacts.v
ServeLoopExample.v
Startup.v
Commands.v
CacheRanges.v
FsCache.v
CacheStore.v
CacheStoreFacts.v
CacheCrash.v
CacheExample.v
CacheWriter.v
CacheWriterFacts.v
CacheBatches.v
CacheWriterExample.v
Prefetch.v
PrefetchFacts.v
Remote.v
Network.v
NetworkFacts.v
EndToEnd.v
NetworkExample.v
CachedClient.v
CachedFacts.v
CachedReads.v
CachedExample.v
Tasks.v
Deadlock.v
Resilient.v
ResilientOnce.v
ResilientLocks.v
ResilientFacts.v
ResilientPool.v
ResilientStack.v
ResilientBounds.v
LockReplay.v
ResilientExample.v
ResilientRuns.v
MacFuse.v
MacFuseOps.v
MacFuseFacts.v
MacFuseNative.v
MacFuseKernel.v
MacFuseBuffer.v
MacFusePages.v
MacFuseExample.v
