(* ===== verification/Prelude.v ===== *)
(** * quicKFS: a verification of the file server and of its client

    quicKFS exports a directory of a Linux host to macOS clients over QUIC.
    This library models the protocol, the server and the layers of the client,
    and proves what makes them correct.  Paths below are relative to [src/].

    ** The program

    - [crates/protocol] defines requests, responses, metadata and the frame
      codec that carries them; [crates/common] the limits and the validation of
      names and ranges.
    - [crates/server-core] is the server: an [Export] owns the node registry
      (stable node identifiers, the paths of each inode, a bounded working set),
      the lock table and the resource-fork store; an [ExportSession] is one
      connection's view of it, with its own working set of nodes and its open
      handles.  Every request is an operation of the session, which resolves a
      node to a descriptor without following symbolic links, checks that the
      descriptor still is that node, and acts on the descriptor.
    - [servers/linux/server-daemon] maps requests to session operations;
      [crates/auth] authenticates users; [crates/transport-quic] is the
      connection; [crates/client-core], [crates/cache] and
      [clients/macos/filesystem-macfuse] are the client.

    ** The files

    - [Prelude] (this file): [result], the state-and-error monad [SM], machine
      integers, byte strings, a sort, and the proof rules ([hoare], [sm_keeps],
      [yields]) the components share.
    - [Protocol] ([crates/protocol/src/lib.rs]): the data types with the
      constructors and fields of the source, versions and capabilities, and the
      frame codec ([encode_frame], [decode_frame]) over the serializer and the
      compressor, which are parameters.
    - [Common] ([crates/common/src/lib.rs]; [ServerError] of
      [crates/server-core/src/lib.rs]): limits, [validate_filename],
      [validate_range], [normalize_relative], [Path::components], and the
      mapping of system errors to server errors and protocol codes.
    - [Locks] (server-core): the lock table, [replace_owner_range] and
      [first_conflict]; the waiting loop of [set_lock] and its notifications as
      the step relation [lock_step].
    - [Registry] (server-core): [NodeRegistry] and [SessionNodes] with their
      permits, [remember], [reserve_node], the two evictions, [forget_nodes], and
      the updates after removal and rename.
    - [XattrNames] (server-core): the mapping between client and host names of
      extended attributes.
    - [FileIO] (server-core): descriptor input and output.  The operating system
      is the class [HostFiles], what its calls promise is [HostFilesLaws], and
      [MemFiles] is an instance.  Complete reads and writes, the server-side
      copy with its three strategies, the exchange of two files.
    - [Attributes] (server-core): [stat] to metadata, revisions, attribute
      changes, and [read_consistent] over a timeline of host states, in which
      other processes change the file between two system calls.
    - [HostDirs] (server-core): the directory calls of the system (class
      [HostDirs]) and the descriptor-relative resolution of names.  Every call
      that takes a name relative to a descriptor ([openat], [statat],
      [readlinkat], and those that change a directory) acts on the state of the
      host, so that a property of the host may depend on the names it was given.
    - [Forks] (server-core): the resource-fork store, attribute snapshots and
      the scan of one directory entry.
    - [Session] (server-core): every operation of [ExportSession] as a
      computation over the session state (registry, handles, permits, lock
      table, host).
    - [RegistryPaths], [HostFacts], [SessionFacts]: what every operation
      keeps, by composition: registry accounting, acceptable path names, the
      properties of the host that its single calls keep ([host_keeps]).
    - [SessionSafety]: the state machine of a connection ([SessionOp],
      [run_ops]) and the safety theorems over all sequences of requests.
    - [SessionSpecs]: the behaviour of single operations.
    - [Gates] (server-core, [content_operation] and [append_operation]): the locks
      that order the operations on one file, from all connections, as a system of
      events, with operations that are given up and with the two that take no
      lock (attribute changes by node, the truncation in [open]); [GatesFacts]:
      one lock for each file in use, exclusion, and progress.
    - [StateFiles], [Auth] ([crates/auth/src/lib.rs]): private state files with
      atomic replacement over a file system class, the user database, password
      verification, pairing sessions and codes, identity generations; [AuthFacts]
      and [PairingFacts] state what each command does to the stored files.
    - [ExportState] (server-core): the persistent export record and the name of
      the volume.
    - [Transport] ([crates/transport-quic/src/lib.rs]): frames as bytes on a
      stream ([wire], [read_frame]), the client's end of a connection with its
      compression and learned version, bounded files, pins, the configurations
      given to the QUIC library; QUIC itself is the class [Quic].
    - [RateLimiter], [ViewStream], [Daemon], [DaemonFacts]
      ([servers/linux/server-daemon/src/main.rs]): the limiter of authentication
      attempts, the streaming of directory views with the client's reassembly
      ([crates/client-core/src/lib.rs]), and the request handler with
      authentication, pairing and dispatch to the session.
    - [ServeLoop] (main.rs, [serve_until]): the daemon as a system of events:
      connections with their permits, requests that run at the same time, time
      limits, aborts, writes that outlive their requests, shutdown; its steps
      call [handle] of [Daemon].  A [Process] adds the references to open files
      that requests and their blocking closures hold ([clones]), and the closed
      files that such references keep ([orphans]).  [ServeLoopFacts]: the invariant of all
      reachable states; [ServeLoopExample]: runs of a small daemon.
      [Startup]: the opening of the export (server-core) and the checks before
      the loop, composed with it as [serve_until]; [Commands]: the other commands
      of the binary.
    - [Trust] ([crates/client-core/src/trust.rs]): the policies of trust and the
      database of pinned identities.
    - [CacheRanges], [FsCache] ([crates/cache/src/lib.rs]): assembly of ranges
      from segments, the hot ranges, the cache traits as the class
      [FilesystemCache] with the promise [FilesystemCacheLaws], and the cache in
      memory.
    - [CacheStore], [CacheStoreFacts], [CacheCrash], [CacheExample]: the
      persistent cache with its manifest, its invariant, and every disk state
      that a crash can leave.
    - [CacheWriter], [CacheWriterFacts], [CacheBatches], [CacheWriterExample]:
      the non-blocking cache, its queue and its writer thread as a state machine
      that interleaves with the lookups.
    - [Prefetch], [PrefetchFacts] ([crates/client-core/src/cached.rs]): the
      read-ahead controller and the permits of speculative fetches.
    - [Remote] ([crates/client-core/src/lib.rs]): the trait [RemoteFilesystem] as
      a family of calls, a class, and the promise [RemoteLaws] that answers are
      true.
    - [Network] (client-core/src/lib.rs): [NetworkFilesystem], every call as a
      request on a stream of its own, negotiation, authentication, batches, and
      the delayed layer; [NetworkFacts]: what it accepts of any peer;
      [EndToEnd]: the client over a connection whose other end is [handle] of
      [Daemon]; [NetworkExample]: a byte codec, a client of a small daemon, a
      hostile peer.
    - [CachedClient], [CachedFacts], [CachedReads], [CachedExample] (cached.rs):
      the cached layer over any remote and any cache that keep their promises;
      it keeps the same promise, so that layers compose.
    - [Tasks], [Deadlock]: programs of atomic steps with locks and requests,
      interleaved pools of them, a rely-guarantee rule, and a discipline of lock
      levels under which tasks cannot deadlock.
    - [Resilient] ([crates/client-core/src/resilient.rs]): the layer that replaces
      failed connections, every operation as a task; [ResilientOnce] (mutations),
      [ResilientLocks] (lock levels), [ResilientFacts], [ResilientPool]
      (invariant and answers under interleaving, over [NetworkLaws]),
      [ResilientStack] (the layer as a [RemoteFilesystem], below the cached
      client), [ResilientBounds] (attempts, reopening), [LockReplay] (the lock
      history against the server's lock table), [ResilientExample] and
      [ResilientRuns] (a small network).
    - [MacFuse], [MacFuseOps] ([clients/macos/filesystem-macfuse/src/lib.rs]): the
      adapter between the kernel and any remote layer: its inode table, handles,
      coalesced writes, caches and callbacks.  [MacFuseNative] (native.rs): the
      kernel's requests, the conversion of their arguments, replies and error
      numbers, directory rows, and mounting.  [MacFuseFacts]: what every callback
      keeps ([adapter_ok]), gains ([extends]) and forgets ([moves_by]);
      [MacFuseKernel]: runs of requests with the kernel's ledger of references,
      and a lookup that a forget overtakes;
      [MacFuseBuffer]: coalesced writes against a file ([direct]);
      [MacFusePages]: directories read in pages; [MacFuseExample]: a small server.

    ** What the theorems show

    - Safety of a connection, for all sequences of requests: a session without
      write permission leaves the exported tree unchanged; the host is asked
      only for single, acceptable path components (a lookup may also name the two
      dot entries of a directory), so that no request reaches
      outside the export; permits, handles, nodes and locks are accounted for
      and stay within their limits.
    - Refinement: the lock table implements a map from bytes to locks per owner,
      and no waiter sleeps through the change that would let it proceed.
    - Functional behaviour: the server-side copy is [memmove] whatever strategy
      the system supports; exchange swaps contents and resource forks; a
      consistent read returns the revision that the file had at its start and at
      its end, and the bytes of that revision unless the contents changed without
      the revision showing it; data written is data read;
      rename and removal change exactly the names below them.
    - Round trips and bounds: frames, versions, attribute names; inline budget
      of directory views; the search for a node ends.
    - The gates: operations on one file exclude each other as they should, appends
      are serialised, nothing waits for ever; this is so of the operations that
      take gates and whose requests are there: an operation that is given up, and
      an attribute change without a handle, may overlap with others.
    - Authentication: before a password is accepted nothing reaches the export,
      and every request but those that set up the connection is refused;
      each administration command refines an abstract list of accounts; pairing
      codes agree and are used once; attempts are limited.
    - The daemon as a whole: however connections and requests interleave, fail or
      are aborted, everything it hands out is accounted for and bounded, locks
      belong to connections that are there, and in the end all is free again but the
      permits of files that abandoned closures still use, until these are done;
      without an account that may write the exported tree stays as it was; a
      lost connection gives back what it held; what is exported never contains
      the private state.
    - Client and daemon together: a call over the network is the operation of the
      session it stands for, and a batch of metadata is its single lookups, when the requests
      and answers at hand fit their frames; a directory view arrives complete and
      in order, and sheds values only of entries too large for a frame; a
      hostile peer cannot make the client take more than it asked for, but for
      extended attributes; a loaded pin comes from the private, checked database.
    - The client's caches: every answer is true of the server (whatever was
      interrupted, evicted, queued or read ahead), a stored value survives, a
      crash never leaves a wrong entry, queues and speculation are bounded, a
      waited update completes.
    - The cached client: through any calls, outages and background work its
      answers are true, a read has all bytes of one revision, and it completes
      while the remote serves the file.
    - The resilient client: a mutation is sent at most once, and its outcome is
      reported as it was or as ambiguous; under every interleaving answers are
      true, handles stay on their connection, nothing deadlocks and everything
      finishes; attempts are bounded; a reopened file has its locks again, within the
      limit of the history and unless a flush released them on the server.
    - The adapter: an inode number the kernel refers to keeps its meaning and is
      not evicted while callbacks do not overlap, but a forget between the two
      halves of a lookup makes it a number of nothing; a handle with coalesced writes answers as the file itself;
      the pages of a directory are its entries, each once.

    ** Modelling choices

    Integers are [Z]; where the source uses checked, saturating or wrapping
    arithmetic the model does too, at the width of the source.  Byte strings are
    lists of [Z].  Fallible code returns [result]; code that threads state is in
    [SM], whose failures keep the state reached, as Rust's early return does.
    Ownership of a permit is explicit: a scope that would drop it on an early
    return is [holding_node] or [holding_handle].

    Loops that are not structural take fuel: the copy and read loops get the
    number of bytes, since each iteration moves at least one, and their theorems
    state the result and not only its shape when it exists; [discover_node]
    gets one step per node the export may know, which [visit_bound] shows to be
    enough.

    Parameters, not definitions: the postcard serializer, zstd, SHA-256, base64,
    the iteration order of hash sets, random handle numbers, and the operating
    system.  What a theorem needs of them is a named hypothesis or class, and
    its witness instantiates it.

    ** What is not modelled

    In [Session] an operation is what runs while it holds its gates; which of
    them may run at the same time is in [Gates], without their contents.  The
    concurrent tasks of a directory scan: entries are taken in name order.
    Scheduling, sockets, TLS and timers.
    Of the daemon: the parsing of arguments, the terminal, signals and log lines.
    In [ServeLoop] the work of a request on the shared state is one step: an
    aborted request has done all of it or none, but for a spawned write, and a
    time limit may strike at any moment, since there is no clock.  A blocking
    closure that finishes its call after its request was aborted counts as done
    before or not at all; it has no later step but the end of its reference
    ([Gates] says which operations it may then overlap with), and its buffers are
    counted by no permit, in the source as here.  Of the caches: poisoned mutexes, and the interleaving of two
    threads inside one cache operation.  Of the cached client: the interleaving of
    its calls, hence the map of running fetches and the mutation locks.  Of the
    resilient client: a task that is dropped in the middle.
    Of the macFUSE adapter: callbacks run one after the other, so that the locks
    per handle and per directory are only checked for presence; a request may
    miss its deadline ([Fate]) but a callback is not interleaved with another
    (but for that lookup).  The refinement of [MacFuseBuffer] is for one handle.
    The session's signals, the unmount watchdog and the registration probe of a
    mount are left out ([session] is a parameter of [mount]).
    Of the transport: QUIC and TLS themselves, timers, and the error text of
    libraries.  Of [EndToEnd]: lost connections, which [Resilient] models over
    the interface, and requests of one client that overlap.  The command-line
    clients, the macOS keychain, the graphical client and the vendored FUSE
    library are input and output over libraries. *)

From stdpp Require Export base list gmap strings sorting.
From Stdlib Require Export ZArith Lia Sorted Permutation.

#[global] Open Scope Z_scope.
#[global] Set Default Goal Selector "!".

(** * Results and state passing *)

Declare Scope quickfs_scope.
Delimit Scope quickfs_scope with quickfs.
#[global] Open Scope quickfs_scope.

(** Rust's [Result<A, E>]. *)
Inductive result (E A : Type) : Type :=
  | Ok (a : A)
  | Err (e : E).
Arguments Ok {E A} a.
Arguments Err {E A} e.

#[global] Instance result_eq_dec {E A} `{EqDecision E, EqDecision A} :
  EqDecision (result E A).
Proof. solve_decision. Defined.

#[global] Instance result_ret {E} : MRet (result E) := λ A, Ok.
#[global] Instance result_bind {E} : MBind (result E) := λ A B k r,
  match r with Ok a => k a | Err e => Err e end.
#[global] Instance result_fmap {E} : FMap (result E) := λ A B f r,
  match r with Ok a => Ok (f a) | Err e => Err e end.

(** [map_err]. *)
Definition map_err {E F A} (f : E → F) (r : result E A) : result F A :=
  match r with Ok a => Ok a | Err e => Err (f e) end.

(** [Option::ok_or]. *)
Definition ok_or {E A} (o : option A) (e : E) : result E A :=
  match o with Some a => Ok a | None => Err e end.

(** [Result::ok]. *)
Definition result_ok {E A} (r : result E A) : option A :=
  match r with Ok a => Some a | Err _ => None end.

Definition is_ok {E A} (r : result E A) : bool :=
  match r with Ok _ => true | Err _ => false end.

(** A computation over a mutable state [S] that can fail.  As in Rust, the
    mutations made before an early return stay in the state. *)
Definition SM (S E A : Type) : Type := S → result E A * S.

#[global] Instance sm_ret {S E} : MRet (SM S E) := λ A a s, (Ok a, s).
#[global] Instance sm_bind {S E} : MBind (SM S E) := λ A B k m s,
  match m s with
  | (Ok a, s') => k a s'
  | (Err e, s') => (Err e, s')
  end.

Definition sm_get {S E} : SM S E S := λ s, (Ok s, s).
Definition sm_put {S E} (s' : S) : SM S E unit := λ _, (Ok tt, s').
Definition sm_modify {S E} (f : S → S) : SM S E unit := λ s, (Ok tt, f s).
Definition sm_gets {S E A} (f : S → A) : SM S E A := λ s, (Ok (f s), s).
Definition sm_err {S E A} (e : E) : SM S E A := λ s, (Err e, s).
(** The [?] operator on a pure [Result]. *)
Definition sm_lift {S E A} (r : result E A) : SM S E A := λ s, (r, s).
(** Run [m] and hand its [Result] to the caller, as [match m { Ok .. Err .. }]. *)
Definition sm_try {S E A} (m : SM S E A) : SM S E (result E A) := λ s,
  let '(r, s') := m s in (Ok r, s').
(** [if !b { return Err(e) }]. *)
Definition sm_guard {S E} (b : bool) (e : E) : SM S E unit :=
  if b then mret tt else sm_err e.

(** * Machine integers *)

Definition u8_max : Z := 2 ^ 8 - 1.
Definition u16_max : Z := 2 ^ 16 - 1.
Definition u32_max : Z := 2 ^ 32 - 1.
Definition u64_max : Z := 2 ^ 64 - 1.
Definition i64_max : Z := 2 ^ 63 - 1.

Definition is_u8 (z : Z) : Prop := 0 ≤ z ≤ u8_max.
Definition is_u16 (z : Z) : Prop := 0 ≤ z ≤ u16_max.
Definition is_u32 (z : Z) : Prop := 0 ≤ z ≤ u32_max.
Definition is_u64 (z : Z) : Prop := 0 ≤ z ≤ u64_max.

(** The operations of a 64-bit unsigned integer ([u64], and [usize] on the
    64-bit targets the daemon and the client support). *)
Definition u64_checked_add (a b : Z) : option Z :=
  if a + b <=? u64_max then Some (a + b) else None.
Definition u64_checked_sub (a b : Z) : option Z :=
  if b <=? a then Some (a - b) else None.
Definition u64_checked_mul (a b : Z) : option Z :=
  if a * b <=? u64_max then Some (a * b) else None.
Definition u64_saturating_add (a b : Z) : Z := Z.min (a + b) u64_max.
Definition u64_saturating_sub (a b : Z) : Z := Z.max (a - b) 0.
Definition u64_saturating_mul (a b : Z) : Z := Z.min (a * b) u64_max.

(** Truncating casts: [x as u16], [x as u32]. *)
Definition as_u16 (z : Z) : Z := z mod 2 ^ 16.
Definition as_u32 (z : Z) : Z := z mod 2 ^ 32.

(** Bytes are integers below 256; a [Vec<u8>] is a list of them. *)
Definition bytes : Type := list Z.
Definition is_bytes (b : list Z) : Prop := Forall is_u8 b.

(** Rust byte-string and string literals (ASCII). *)
Definition lit (s : string) : list Z :=
  map (λ a, Z.of_N (Ascii.N_of_ascii a)) (String.list_ascii_of_string s).

Arguments lit _%_string_scope : simpl never.

(** The length of a slice as [usize]. *)
Definition zlen {A} (l : list A) : Z := Z.of_nat (length l).

(** [l[start..end]] for in-range bounds. *)
Definition slice {A} (l : list A) (start count : Z) : list A :=
  take (Z.to_nat count) (drop (Z.to_nat start) l).

(** [uN::to_le_bytes] for an N-byte integer. *)
Fixpoint to_le_bytes (n : nat) (z : Z) : list Z :=
  match n with
  | O => []
  | S n' => z mod 256 :: to_le_bytes n' (z / 256)
  end.
(** [uN::from_le_bytes]. *)
Fixpoint from_le_bytes (b : list Z) : Z :=
  match b with
  | [] => 0
  | x :: b' => x + 256 * from_le_bytes b'
  end.

(** Lexicographic order of byte strings: [Ord for [u8]]. *)
Fixpoint bytes_cmp (a b : list Z) : comparison :=
  match a, b with
  | [], [] => Eq
  | [], _ :: _ => Lt
  | _ :: _, [] => Gt
  | x :: a', y :: b' =>
      match x ?= y with Eq => bytes_cmp a' b' | c => c end
  end.

(** [slice::starts_with]. *)
Fixpoint starts_with (prefix l : list Z) : bool :=
  match prefix, l with
  | [], _ => true
  | p :: ps, x :: xs => (p =? x) && starts_with ps xs
  | _ :: _, [] => false
  end.

(** [slice::strip_prefix]. *)
Definition strip_prefix (prefix l : list Z) : option (list Z) :=
  if starts_with prefix l then Some (drop (length prefix) l) else None.

(** [slice::split(|byte| *byte == sep)]. *)
Fixpoint split_on (sep : Z) (l : list Z) : list (list Z) :=
  match l with
  | [] => [[]]
  | x :: l' =>
      if x =? sep then [] :: split_on sep l'
      else match split_on sep l' with
           | [] => [[x]]
           | h :: t => (x :: h) :: t
           end
  end.

(** A stable sort, [slice::sort_by] with the comparison "not greater". *)
Section stable_sort.
Context {A : Type} (leb : A → A → bool).

(** [x] stands before the elements of [l] in the input: it goes in front of
    the first element that it is not greater than. *)
Fixpoint sort_insert (x : A) (l : list A) : list A :=
  match l with
  | [] => [x]
  | y :: l' => if leb x y then x :: y :: l' else y :: sort_insert x l'
  end.

Fixpoint sort_by (l : list A) : list A :=
  match l with
  | [] => []
  | x :: l' => sort_insert x (sort_by l')
  end.
End stable_sort.

(** [Iterator::min_by_key]: the first element with the smallest key. *)
Fixpoint min_by_key {A} (key : A → Z) (l : list A) : option A :=
  match l with
  | [] => None
  | x :: l' =>
      match min_by_key key l' with
      | None => Some x
      | Some y => if key x <=? key y then Some x else Some y
      end
  end.

(** * Tactics and hint databases *)

Create HintDb quickfs.
Create HintDb sm.
Create Rewrite HintDb quickfs_rw.

(** Reflect the boolean tests of the code into propositions. *)
Ltac bool_simpl :=
  repeat match goal with
  | H : (_ && _) = true |- _ => apply andb_true_iff in H as [? ?]
  | H : (_ || _) = false |- _ => apply orb_false_iff in H as [? ?]
  | H : (_ && _) = false |- _ => apply andb_false_iff in H
  | H : (_ || _) = true |- _ => apply orb_true_iff in H
  | H : negb _ = true |- _ => apply negb_true_iff in H
  | H : negb _ = false |- _ => apply negb_false_iff in H
  | H : (_ =? _) = true |- _ => apply Z.eqb_eq in H
  | H : (_ =? _) = false |- _ => apply Z.eqb_neq in H
  | H : (_ <=? _) = true |- _ => apply Z.leb_le in H
  | H : (_ <=? _) = false |- _ => apply Z.leb_gt in H
  | H : (_ <? _) = true |- _ => apply Z.ltb_lt in H
  | H : (_ <? _) = false |- _ => apply Z.ltb_ge in H
  | H : (_ >? _) = _ |- _ => rewrite Z.gtb_ltb in H
  | H : (_ >=? _) = _ |- _ => rewrite Z.geb_leb in H
  | H : bool_decide _ = true |- _ => apply bool_decide_eq_true in H
  | H : bool_decide _ = false |- _ => apply bool_decide_eq_false in H
  end.

(** Split on the next [if] or [match] of the goal and clean up. *)
Ltac case_step :=
  case_match; bool_simpl; simplify_eq/=.

(** Unfold the state-passing combinators. *)
Ltac sm_unfold :=
  unfold mbind, mret, sm_bind, sm_ret, sm_get, sm_put, sm_modify, sm_gets,
    sm_err, sm_lift, sm_try, sm_guard in *.

(** * Preservation of a state predicate by a computation *)

(** [m] maps states satisfying [P] to states satisfying [P], whether it
    succeeds or fails. *)
Definition sm_keeps {S E A} (P : S → Prop) (m : SM S E A) : Prop :=
  ∀ s, P s → P (m s).2.

Section sm_keeps.
Context {S E : Type} (P : S → Prop).

Lemma sm_keeps_ret {A} (a : A) : sm_keeps P (mret a : SM S E A).
Proof. by intros s. Qed.

Lemma sm_keeps_err {A} (e : E) : sm_keeps P (sm_err e : SM S E A).
Proof. by intros s. Qed.

Lemma sm_keeps_lift {A} (r : result E A) : sm_keeps P (sm_lift r : SM S E A).
Proof. by intros s. Qed.

Lemma sm_keeps_get : sm_keeps P (sm_get : SM S E S).
Proof. by intros s. Qed.

Lemma sm_keeps_gets {A} (f : S → A) : sm_keeps P (sm_gets f : SM S E A).
Proof. by intros s. Qed.

Lemma sm_keeps_guard (b : bool) (e : E) : sm_keeps P (sm_guard b e : SM S E unit).
Proof. by destruct b; intros s. Qed.

Lemma sm_keeps_modify (f : S → S) :
  (∀ s, P s → P (f s)) → sm_keeps P (sm_modify f : SM S E unit).
Proof. intros Hf s Hs. by apply Hf. Qed.

Lemma sm_keeps_bind {A B} (m : SM S E A) (k : A → SM S E B) :
  sm_keeps P m → (∀ a, sm_keeps P (k a)) → sm_keeps P (mbind k m).
Proof.
  intros Hm Hk s Hs. unfold mbind, sm_bind.
  specialize (Hm s Hs). destruct (m s) as [[a|e] s']; simpl in *; [by apply Hk|done].
Qed.

Lemma sm_keeps_try {A} (m : SM S E A) : sm_keeps P m → sm_keeps P (sm_try m).
Proof.
  intros Hm s Hs. unfold sm_try. specialize (Hm s Hs). by destruct (m s).
Qed.
End sm_keeps.

#[export] Hint Resolve sm_keeps_ret sm_keeps_err sm_keeps_lift sm_keeps_get
  sm_keeps_gets sm_keeps_guard sm_keeps_bind sm_keeps_try : sm.

(** * Integers *)

Lemma u64_checked_add_Some a b c :
  u64_checked_add a b = Some c ↔ c = a + b ∧ a + b ≤ u64_max.
Proof. unfold u64_checked_add. case_match; bool_simpl; naive_solver lia. Qed.

Lemma u64_checked_add_None a b : u64_checked_add a b = None ↔ u64_max < a + b.
Proof. unfold u64_checked_add. case_match; bool_simpl; naive_solver lia. Qed.

Lemma u64_checked_sub_Some a b c :
  u64_checked_sub a b = Some c ↔ c = a - b ∧ b ≤ a.
Proof. unfold u64_checked_sub. case_match; bool_simpl; naive_solver lia. Qed.

Lemma u64_checked_sub_None a b : u64_checked_sub a b = None ↔ a < b.
Proof. unfold u64_checked_sub. case_match; bool_simpl; naive_solver lia. Qed.

Lemma u64_checked_mul_Some a b c :
  u64_checked_mul a b = Some c ↔ c = a * b ∧ a * b ≤ u64_max.
Proof. unfold u64_checked_mul. case_match; bool_simpl; naive_solver lia. Qed.

Lemma zlen_nonneg {A} (l : list A) : 0 ≤ zlen l.
Proof. unfold zlen. lia. Qed.

Lemma zlen_app {A} (l k : list A) : zlen (l ++ k) = zlen l + zlen k.
Proof. unfold zlen. rewrite length_app. lia. Qed.

Lemma zlen_cons {A} (x : A) l : zlen (x :: l) = zlen l + 1.
Proof. unfold zlen. simpl. lia. Qed.

Lemma zlen_nil {A} : zlen (@nil A) = 0.
Proof. done. Qed.

#[export] Hint Rewrite @zlen_app @zlen_cons @zlen_nil : quickfs_rw.

Lemma length_to_le_bytes n z : length (to_le_bytes n z) = n.
Proof. revert z. induction n as [|n IH]; intros z; simpl; auto. Qed.

Lemma from_to_le_bytes n z :
  0 ≤ z < 256 ^ Z.of_nat n → from_le_bytes (to_le_bytes n z) = z.
Proof.
  revert z. induction n as [|n IH]; intros z Hz; simpl.
  { simpl in Hz. lia. }
  rewrite Nat2Z.inj_succ, Z.pow_succ_r in Hz by lia.
  rewrite IH.
  - pose proof (Z.div_mod z 256). lia.
  - split; [apply Z.div_pos; lia | apply Z.div_lt_upper_bound; lia].
Qed.

(** * Lists *)

Lemma length_slice {A} (l : list A) start count :
  0 ≤ start → 0 ≤ count → zlen (slice l start count) = Z.max 0 (Z.min count (zlen l - start)).
Proof.
  intros. unfold slice, zlen. rewrite length_take, length_drop. lia.
Qed.

Lemma starts_with_app p l : starts_with p (p ++ l) = true.
Proof. induction p as [|x p IH]; simpl; [done|]. by rewrite Z.eqb_refl. Qed.

Lemma starts_with_Some p l : starts_with p l = true → ∃ k, l = p ++ k.
Proof.
  revert l. induction p as [|x p IH]; intros l; simpl.
  { intros _. by exists l. }
  destruct l as [|y l]; [done|]. intros. bool_simpl. subst.
  destruct (IH l) as [k ->]; [done|]. by exists k.
Qed.

Lemma strip_prefix_app p l : strip_prefix p (p ++ l) = Some l.
Proof. unfold strip_prefix. by rewrite starts_with_app, drop_app_length. Qed.

Lemma bytes_cmp_refl a : bytes_cmp a a = Eq.
Proof. induction a as [|x a IH]; simpl; [done|]. by rewrite Z.compare_refl. Qed.

Lemma bytes_cmp_eq a b : bytes_cmp a b = Eq ↔ a = b.
Proof.
  split; [|intros ->; apply bytes_cmp_refl].
  revert b. induction a as [|x a IH]; intros [|y b]; simpl; try done.
  destruct (Z.compare_spec x y); try done. intros. subst. f_equal. by apply IH.
Qed.

(** ** [List.filter] *)

Lemma elem_of_filter_list {A} (f : A → bool) l x :
  x ∈ List.filter f l ↔ x ∈ l ∧ f x = true.
Proof. rewrite !list_elem_of_In. apply filter_In. Qed.

Lemma filter_sublist {A} (g : A → bool) l : List.filter g l `sublist_of` l.
Proof. induction l as [|x l IH]; simpl; [constructor|]. destruct (g x); by constructor. Qed.

Lemma NoDup_filter_list {A} (f : A → bool) l : NoDup l → NoDup (List.filter f l).
Proof. intros Hl. eapply sublist_NoDup; [exact Hl|]. apply filter_sublist. Qed.

(** ** Smallest elements *)

Lemma min_by_key_None {A} (key : A → Z) l : min_by_key key l = None ↔ l = [].
Proof. destruct l as [|x l]; simpl; [done|]. repeat case_match; naive_solver. Qed.

Lemma min_by_key_Some {A} (key : A → Z) l x :
  min_by_key key l = Some x → x ∈ l ∧ ∀ y, y ∈ l → key x ≤ key y.
Proof.
  revert x. induction l as [|a l IH]; intros x; simpl; [done|].
  destruct (min_by_key key l) as [m|] eqn:E.
  - destruct (IH m eq_refl) as [Hm Hle].
    case_match; bool_simpl; intros; simplify_eq; split; try set_solver.
    + intros y [->|Hy]%elem_of_cons; [lia|]. specialize (Hle y Hy). lia.
    + intros y [->|Hy]%elem_of_cons; [lia|]. by apply Hle.
  - apply min_by_key_None in E as ->. intros; simplify_eq.
    split; [set_solver|]. intros y ->%list_elem_of_singleton. lia.
Qed.

(** ** Stable sort *)
Section stable_sort_facts.
Context {A : Type} (leb : A → A → bool).
Context (leb_total : ∀ x y, leb x y = true ∨ leb y x = true).
Context (leb_trans : ∀ x y z, leb x y = true → leb y z = true → leb x z = true).

Lemma sort_insert_perm x l : sort_insert leb x l ≡ₚ x :: l.
Proof.
  induction l as [|y l IH]; simpl; [done|].
  case_match; [done|]. rewrite IH. apply Permutation_swap.
Qed.

Lemma sort_by_perm l : sort_by leb l ≡ₚ l.
Proof.
  induction l as [|x l IH]; simpl; [done|]. by rewrite sort_insert_perm, IH.
Qed.

Lemma sort_insert_sorted x l :
  StronglySorted (λ a b, leb a b = true) l →
  StronglySorted (λ a b, leb a b = true) (sort_insert leb x l).
Proof.
  induction 1 as [|y l Hl IH Hy]; simpl; [repeat constructor|].
  destruct (leb x y) eqn:E.
  - constructor; [by constructor|]. constructor; [done|].
    eapply Forall_impl; [exact Hy|]. simpl. eauto.
  - constructor; [done|]. rewrite sort_insert_perm. constructor; [|done].
    by destruct (leb_total x y); [congruence|].
Qed.

Lemma sort_by_sorted l : StronglySorted (λ a b, leb a b = true) (sort_by leb l).
Proof.
  induction l as [|x l IH]; simpl; [constructor|]. by apply sort_insert_sorted.
Qed.
End stable_sort_facts.

Lemma length_sort_by {A} (leb : A → A → bool) l : length (sort_by leb l) = length l.
Proof. by rewrite (sort_by_perm leb l). Qed.

(** ** Sums over finite maps *)

Definition map_sum {K V} `{Countable K} (f : V → Z) (m : gmap K V) : Z :=
  map_fold (λ _ v n, f v + n) 0 m.

Section map_sum.
Context {K V : Type} `{Countable K} (f : V → Z).
Implicit Types m : gmap K V.

Lemma map_sum_empty : map_sum f (∅ : gmap K V) = 0.
Proof. apply map_fold_empty. Qed.

Lemma map_sum_insert m k v : m !! k = None → map_sum f (<[k := v]> m) = f v + map_sum f m.
Proof. intros. unfold map_sum. rewrite (map_fold_insert_L (λ _ v n, f v + n)); [done|lia|done]. Qed.

Lemma map_sum_delete m k v : m !! k = Some v → map_sum f m = f v + map_sum f (delete k m).
Proof.
  intros. rewrite <- (map_sum_insert (delete k m) k v) by apply lookup_delete_eq.
  by rewrite insert_delete_id.
Qed.

Lemma map_sum_delete_lookup m k :
  map_sum f (delete k m) = map_sum f m - match m !! k with Some v => f v | None => 0 end.
Proof.
  destruct (m !! k) as [v|] eqn:E.
  - rewrite (map_sum_delete m k v E). lia.
  - rewrite delete_id by done. lia.
Qed.

Lemma map_sum_overwrite m k v :
  map_sum f (<[k := v]> m) = f v + map_sum f m - match m !! k with Some w => f w | None => 0 end.
Proof.
  rewrite <- insert_delete_eq, map_sum_insert, map_sum_delete_lookup by apply lookup_delete_eq. lia.
Qed.

Lemma map_sum_nonneg m : (∀ k v, m !! k = Some v → 0 ≤ f v) → 0 ≤ map_sum f m.
Proof.
  induction m as [|k v m Hk IH] using map_ind; intros Hf.
  { by rewrite map_sum_empty. }
  rewrite map_sum_insert by done.
  pose proof (Hf k v (lookup_insert_eq _ _ _)). cut (0 ≤ map_sum f m); [lia|]. apply IH.
  intros k' v' Hk'. apply (Hf k'). rewrite lookup_insert_ne by naive_solver. done.
Qed.

Lemma map_sum_filter (P : K → bool) m :
  map_sum f (filter (λ kv, P kv.1 = true) m) + map_sum f (filter (λ kv, P kv.1 = false) m) =
  map_sum f m.
Proof.
  induction m as [|k v m Hk IH] using map_ind.
  { by rewrite !map_filter_empty, map_sum_empty. }
  rewrite map_sum_insert by done. destruct (P k) eqn:E.
  - rewrite map_filter_insert_True, map_filter_insert_False, delete_id by (done || simpl; congruence).
    rewrite map_sum_insert; [lia|]. apply map_lookup_filter_None. by left.
  - rewrite map_filter_insert_False, delete_id, map_filter_insert_True by (done || simpl; congruence).
    rewrite map_sum_insert; [lia|]. apply map_lookup_filter_None. by left.
Qed.

(** The sum in the order of a list of the elements. *)
Definition list_sum (l : list V) : Z := foldr (λ v n, f v + n) 0 l.

Lemma list_sum_perm l l' : l ≡ₚ l' → list_sum l = list_sum l'.
Proof. induction 1; simpl; lia. Qed.

Lemma map_sum_list m : map_sum f m = list_sum (map_to_list m).*2.
Proof.
  unfold map_sum, list_sum. rewrite map_fold_foldr. induction (map_to_list m) as [|[k v] l IH]; simpl; [done|].
  by rewrite IH.
Qed.

(** Some element weighs more than nothing when the sum does. *)
Lemma map_sum_pos m : 0 < map_sum f m → m ≠ ∅.
Proof. intros Hs ->. rewrite map_sum_empty in Hs. lia. Qed.
End map_sum.

(** ** The lexicographic order *)

Lemma bytes_cmp_antisym a b : bytes_cmp b a = CompOpp (bytes_cmp a b).
Proof.
  revert b. induction a as [|x a IH]; intros [|y b]; simpl; try done.
  rewrite (Z.compare_antisym x y). destruct (x ?= y); simpl; auto.
Qed.

Lemma bytes_cmp_le_trans a b c :
  bytes_cmp a b ≠ Gt → bytes_cmp b c ≠ Gt → bytes_cmp a c ≠ Gt.
Proof.
  revert b c. induction a as [|x a IH]; intros [|y b] [|z c]; simpl; try done.
  destruct (Z.compare_spec x y), (Z.compare_spec y z), (Z.compare_spec x z);
    subst; try done; try lia; eauto.
Qed.

(** [a <= b] for a key compared lexicographically. *)
Definition lex_leb (a b : list Z) : bool :=
  match bytes_cmp a b with Gt => false | _ => true end.

Lemma lex_leb_total a b : lex_leb a b = true ∨ lex_leb b a = true.
Proof. unfold lex_leb. rewrite (bytes_cmp_antisym a b). destruct (bytes_cmp a b); auto. Qed.

Lemma lex_leb_spec a b : lex_leb a b = true ↔ bytes_cmp a b ≠ Gt.
Proof. unfold lex_leb. destruct (bytes_cmp a b); naive_solver. Qed.

Lemma lex_leb_trans a b c : lex_leb a b = true → lex_leb b c = true → lex_leb a c = true.
Proof. rewrite !lex_leb_spec. apply bytes_cmp_le_trans. Qed.

Lemma lex_leb_cons x a b : lex_leb (x :: a) (x :: b) = lex_leb a b.
Proof. unfold lex_leb. simpl. by rewrite Z.compare_refl. Qed.

(** * Triples *)

(** From a state satisfying [P], [m] ends with a result and a state satisfying [Q]. *)
Definition hoare {S E A} (P : S → Prop) (m : SM S E A) (Q : result E A → S → Prop) : Prop :=
  ∀ s, P s → Q (m s).1 (m s).2.

Section hoare.
Context {S E : Type}.

Lemma hoare_bind {A B} (P : S → Prop) (R : A → S → Prop) (Q : result E B → S → Prop)
    (m : SM S E A) (k : A → SM S E B) :
  hoare P m (λ r s, match r with Ok a => R a s | Err e => Q (Err e) s end) →
  (∀ a, hoare (R a) (k a) Q) → hoare P (mbind k m) Q.
Proof.
  intros Hm Hk s Hs. specialize (Hm s Hs). unfold mbind, sm_bind.
  destruct (m s) as [[a|e] s']; simpl in *; [by apply Hk|done].
Qed.

Lemma hoare_ret {A} (P : S → Prop) (Q : result E A → S → Prop) a :
  (∀ s, P s → Q (Ok a) s) → hoare P (mret a) Q.
Proof. intros H s Hs. by apply H. Qed.

Lemma hoare_err {A} (P : S → Prop) (Q : result E A → S → Prop) e :
  (∀ s, P s → Q (Err e) s) → hoare P (sm_err e) Q.
Proof. intros H s Hs. by apply H. Qed.

Lemma hoare_modify (P : S → Prop) (Q : result E unit → S → Prop) f :
  (∀ s, P s → Q (Ok tt) (f s)) → hoare P (sm_modify f) Q.
Proof. intros H s Hs. by apply H. Qed.

Lemma hoare_conseq {A} (P P' : S → Prop) (Q Q' : result E A → S → Prop) (m : SM S E A) :
  hoare P' m Q' → (∀ s, P s → P' s) → (∀ r s, Q' r s → Q r s) → hoare P m Q.
Proof. intros H HP HQ s Hs. by apply HQ, H, HP. Qed.

(** A fact that does not depend on the state. *)
Lemma hoare_pure {A} (P : S → Prop) (X : Prop) (Q : result E A → S → Prop) (m : SM S E A) :
  (X → hoare P m Q) → hoare (λ s, P s ∧ X) m Q.
Proof. intros H s [Hs Hx]. by apply H. Qed.

(** Read the state and continue with its value known. *)
Lemma hoare_gets {A B} (P : S → Prop) (Q : result E B → S → Prop) (f : S → A)
    (k : A → SM S E B) :
  (∀ a, hoare (λ s, P s ∧ f s = a) (k a) Q) → hoare P (mbind k (sm_gets f)) Q.
Proof. intros H s Hs. by apply (H (f s)). Qed.

Lemma hoare_get {B} (P : S → Prop) (Q : result E B → S → Prop) (k : S → SM S E B) :
  (∀ a, hoare (λ s, P s ∧ s = a) (k a) Q) → hoare P (mbind k sm_get) Q.
Proof. intros H s Hs. by apply (H s). Qed.
End hoare.

(** * Preservation with a property of the result *)

(** [m] keeps [P], and a successful result satisfies [R]. *)
Definition yields {S E A} (P : S → Prop) (m : SM S E A) (R : A → Prop) : Prop :=
  ∀ s, P s → P (m s).2 ∧ match (m s).1 with Ok a => R a | Err _ => True end.

Section yields.
Context {S E : Type} (P : S → Prop).

Lemma yields_ret {A} (a : A) (R : A → Prop) : R a → yields P (mret a : SM S E A) R.
Proof. by intros Ha s. Qed.

Lemma yields_err {A} (e : E) (R : A → Prop) : yields P (sm_err e : SM S E A) R.
Proof. by intros s. Qed.

Lemma yields_lift {A} (r : result E A) (R : A → Prop) :
  (∀ a, r = Ok a → R a) → yields P (sm_lift r : SM S E A) R.
Proof. intros HR s Hs. split; [done|]. destruct r as [a|]; [by apply HR|done]. Qed.

Lemma yields_gets {A} (f : S → A) (R : A → Prop) :
  (∀ s, P s → R (f s)) → yields P (sm_gets f : SM S E A) R.
Proof. intros HR s Hs. split; [done|]. simpl. auto. Qed.

Lemma yields_get : yields P (sm_get : SM S E S) P.
Proof. by intros s. Qed.

Lemma yields_modify (f : S → S) :
  (∀ s, P s → P (f s)) → yields P (sm_modify f : SM S E unit) (λ _, True).
Proof. intros Hf s Hs. split; [by apply Hf|done]. Qed.

Lemma yields_bind {A B} (m : SM S E A) (k : A → SM S E B) (R : A → Prop) (R' : B → Prop) :
  yields P m R → (∀ a, R a → yields P (k a) R') → yields P (mbind k m) R'.
Proof.
  intros Hm Hk s Hs. specialize (Hm s Hs). unfold mbind, sm_bind.
  destruct (m s) as [[a|e] s']; simpl in *; destruct Hm; [by apply Hk|done].
Qed.

Lemma yields_try {A} (m : SM S E A) (R : A → Prop) :
  yields P m R → yields P (sm_try m) (λ r, match r with Ok a => R a | Err _ => True end).
Proof. intros Hm s Hs. unfold sm_try. specialize (Hm s Hs). by destruct (m s). Qed.

Lemma yields_weaken {A} (m : SM S E A) (R R' : A → Prop) :
  yields P m R → (∀ a, R a → R' a) → yields P m R'.
Proof.
  intros Hm HR s Hs. specialize (Hm s Hs) as [? Hr]. split; [done|].
  destruct (m s).1; auto.
Qed.

Lemma yields_keeps {A} (m : SM S E A) : sm_keeps P m ↔ yields P m (λ _, True).
Proof.
  split; intros Hm s Hs; [|by destruct (Hm s Hs)]. split; [by apply Hm|by destruct (m s).1].
Qed.

Lemma yields_if {A} (b : bool) (m n : SM S E A) (R : A → Prop) :
  (b = true → yields P m R) → (b = false → yields P n R) → yields P (if b then m else n) R.
Proof. destruct b; auto. Qed.
End yields.
