(* ===== verification/Protocol.v ===== *)
(** The wire protocol: [crates/protocol/src/lib.rs].

    Identifiers, metadata, directory views, requests, responses and error
    codes with the constructors and fields of the Rust types; the version
    word and the capability negotiation; the frame codec over the postcard
    serializer and the zstd compressor, which are parameters. *)

From S2P Require Import Prelude.

(** * Versions *)

Definition PROTOCOL_MAJOR : Z := 6.
Definition PROTOCOL_MINOR : Z := 4.

(** [(major << 8) | (minor & 0x00ff)] on [u16]. *)
Definition make_version (major minor : Z) : Z :=
  Z.lor (as_u16 (Z.shiftl major 8)) (Z.land minor 0xff).
Definition version_major (version : Z) : Z := Z.shiftr version 8.
Definition version_minor (version : Z) : Z := Z.land version 0xff.

Definition PROTOCOL_VERSION : Z := make_version PROTOCOL_MAJOR PROTOCOL_MINOR.

Definition ALPN_PROTOCOL : list Z := lit "quickfs/6".

Definition MINOR_FRAME_COMPRESSION : Z := 3.
Definition peer_supports_frame_compression (peer_version : Z) : bool :=
  (version_major peer_version =? PROTOCOL_MAJOR) &&
  (version_minor peer_version >=? MINOR_FRAME_COMPRESSION).

Definition MINOR_METADATA_BATCH : Z := 4.
Definition peer_supports_metadata_batch (peer_version : Z) : bool :=
  (version_major peer_version =? PROTOCOL_MAJOR) &&
  (version_minor peer_version >=? MINOR_METADATA_BATCH).

(** * Limits *)

Definition MAX_METADATA_BATCH : Z := 4096.
Definition MAX_FRAME_SIZE : Z := 1024 * 1024.
Definition FRAME_COMPRESSED_FLAG : Z := Z.shiftl 1 31.
Definition FRAME_COMPRESSION_THRESHOLD : Z := 1024.
Definition FRAME_COMPRESSION_LEVEL : Z := 3.
Definition MAX_DIRECTORY_INLINE_XATTR_SIZE : Z := 4 * 1024.
Definition MAX_DIRECTORY_INLINE_XATTR_TOTAL_SIZE : Z := 256 * 1024.
Definition MAX_DIRECTORY_ENTRIES : Z := 1024 * 1024.
Definition DIRECTORY_VIEW_CHUNK_BUDGET : Z := MAX_FRAME_SIZE - 16 * 1024.

(** * Identifiers (128-bit UUIDs as integers) *)

Record RequestId := MkRequestId { request_uuid : Z }.
Record NodeId := MkNodeId { node_uuid : Z }.
Record FileHandle := MkFileHandle { handle_uuid : Z }.

Definition ROOT_NODE : NodeId := MkNodeId 0.

#[global] Instance RequestId_eq_dec : EqDecision RequestId.
Proof. solve_decision. Defined.
#[global] Instance NodeId_eq_dec : EqDecision NodeId.
Proof. solve_decision. Defined.
#[global] Instance FileHandle_eq_dec : EqDecision FileHandle.
Proof. solve_decision. Defined.
#[global] Instance NodeId_countable : Countable NodeId.
Proof. by apply (inj_countable' node_uuid MkNodeId); intros []. Defined.
#[global] Instance FileHandle_countable : Countable FileHandle.
Proof. by apply (inj_countable' handle_uuid MkFileHandle); intros []. Defined.

(** A lossless Unix name ([Name(Vec<u8>)]). *)
Definition Name : Type := list Z.

(** [u64] revisions. *)
Definition FileRevision : Type := Z.
Definition DirectoryRevision : Type := Z.

(** * Request options *)

Module FileAccess.
Inductive FileAccess := ReadOnly | WriteOnly | ReadWrite.
End FileAccess.
Abbreviation FileAccess := FileAccess.FileAccess.
#[global] Instance FileAccess_eq_dec : EqDecision FileAccess.
Proof. solve_decision. Defined.

Definition can_read (a : FileAccess) : bool :=
  match a with FileAccess.ReadOnly | FileAccess.ReadWrite => true | _ => false end.
Definition can_write_access (a : FileAccess) : bool :=
  match a with FileAccess.WriteOnly | FileAccess.ReadWrite => true | _ => false end.

Module FileOpenOptions.
Record FileOpenOptions := Mk { access : FileAccess; truncate : bool; append : bool }.
Definition READ_ONLY : FileOpenOptions := Mk FileAccess.ReadOnly false false.
End FileOpenOptions.
Abbreviation FileOpenOptions := FileOpenOptions.FileOpenOptions.

Module RenameMode.
Inductive RenameMode := Replace | NoReplace | Exchange.
End RenameMode.
Abbreviation RenameMode := RenameMode.RenameMode.
#[global] Instance RenameMode_eq_dec : EqDecision RenameMode.
Proof. solve_decision. Defined.

Module LockKind.
Inductive LockKind := Read | Write | Unlock.
End LockKind.
Abbreviation LockKind := LockKind.LockKind.
#[global] Instance LockKind_eq_dec : EqDecision LockKind.
Proof. solve_decision. Defined.

(** An advisory lock; [end] is inclusive and [u64::MAX] means "to EOF". *)
Module FileLock.
Record FileLock := Mk {
  owner : Z; start : Z; end_ : Z; kind : LockKind; pid : Z
}.
End FileLock.
Abbreviation FileLock := FileLock.FileLock.
#[global] Instance FileLock_eq_dec : EqDecision FileLock.
Proof. solve_decision. Defined.

Module AttributeChanges.
Record AttributeChanges := Mk {
  size : option Z;
  mode : option Z;
  accessed_unix_ms : option Z;
  modified_unix_ms : option Z;
  backup_unix_ms : option Z
}.
End AttributeChanges.
Abbreviation AttributeChanges := AttributeChanges.AttributeChanges.

Module SpecialNodeKind.
Inductive SpecialNodeKind := NamedPipe | CharacterDevice | BlockDevice | Socket.
End SpecialNodeKind.
Abbreviation SpecialNodeKind := SpecialNodeKind.SpecialNodeKind.

Module XattrSetMode.
Inductive XattrSetMode := Upsert | Create | Replace.
End XattrSetMode.
Abbreviation XattrSetMode := XattrSetMode.XattrSetMode.
#[global] Instance XattrSetMode_eq_dec : EqDecision XattrSetMode.
Proof. solve_decision. Defined.

Module SeekWhence.
Inductive SeekWhence := Data | Hole.
End SeekWhence.
Abbreviation SeekWhence := SeekWhence.SeekWhence.

Module SafeIoctl.
Inductive SafeIoctl := BytesAvailable.
End SafeIoctl.
Abbreviation SafeIoctl := SafeIoctl.SafeIoctl.

Module FilesystemCapabilities.
Record FilesystemCapabilities := Mk {
  server_epoch : Z;
  writable : bool;
  supports_locks : bool;
  supports_atomic_rename : bool;
  supports_directory_sync : bool;
  supports_preallocation : bool;
  supports_symlinks : bool;
  supports_xattrs : bool;
  supports_hard_links : bool;
  supports_special_nodes : bool;
  supports_copy_file_range : bool;
  supports_seek_data_hole : bool;
  supports_safe_ioctl : bool;
  supports_poll : bool;
  supports_bmap : bool;
  supports_exchange_data : bool;
  supports_volume_rename : bool;
  supports_backup_time : bool;
  supports_readdirplus : bool;
  persistent_node_ids : bool;
  restart_lock_replay : bool;
  volume_name : list Z;
  max_read_size : Z;
  max_write_size : Z
}.
End FilesystemCapabilities.
Abbreviation FilesystemCapabilities := FilesystemCapabilities.FilesystemCapabilities.

Module FilesystemStats.
Record FilesystemStats := Mk {
  blocks : Z;
  blocks_free : Z;
  blocks_available : Z;
  files : Z;
  files_free : Z;
  block_size : Z;
  name_length : Z;
  fragment_size : Z
}.
End FilesystemStats.
Abbreviation FilesystemStats := FilesystemStats.FilesystemStats.

(** UTF-8 text and 32-byte proofs that are cleared when dropped. *)
Record SecretString := MkSecretString { secret_bytes : list Z }.
Record SecretProof := MkSecretProof { proof_bytes : list Z }.

(** * Metadata and directories *)

Module NodeKind.
Inductive NodeKind :=
  File | Directory | Symlink | NamedPipe | CharacterDevice | BlockDevice | Socket.
End NodeKind.
Abbreviation NodeKind := NodeKind.NodeKind.
#[global] Instance NodeKind_eq_dec : EqDecision NodeKind.
Proof. solve_decision. Defined.

Module ErrorCode.
Inductive ErrorCode :=
  | Unauthenticated | NotFound | PermissionDenied | AlreadyExists | NotDirectory
  | IsDirectory | NotEmpty | NoAttribute | NoData | NotTty | ReadOnly | Conflict
  | WouldBlock | NoSpace | Busy | NotSupported | Offline | InvalidNode
  | InvalidHandle | InvalidRequest | UnsupportedVersion | TooLarge | Timeout
  | Internal.
End ErrorCode.
Abbreviation ErrorCode := ErrorCode.ErrorCode.
#[global] Instance ErrorCode_eq_dec : EqDecision ErrorCode.
Proof. solve_decision. Defined.

Module ProtocolError.
Record ProtocolError := Mk { code : ErrorCode; message : list Z }.
End ProtocolError.
Abbreviation ProtocolError := ProtocolError.ProtocolError.

Module Metadata.
Record Metadata := Mk {
  node : NodeId;
  kind : NodeKind;
  size : Z;
  mode : Z;
  allocated_blocks : Z;
  revision : Z;
  accessed_unix_ms : Z;
  modified_unix_ms : Z;
  created_unix_ms : option Z;
  backup_unix_ms : option Z;
  link_count : Z;
  device_major : Z;
  device_minor : Z
}.
End Metadata.
Abbreviation Metadata := Metadata.Metadata.

Module DirectoryEntry.
Record DirectoryEntry := Mk {
  node : NodeId;
  name : Name;
  kind : NodeKind;
  metadata : Metadata
}.
End DirectoryEntry.
Abbreviation DirectoryEntry := DirectoryEntry.DirectoryEntry.

Module DirectoryViewOptions.
Record DirectoryViewOptions := Mk {
  include_xattrs : bool;
  inline_xattr_size : Z;
  inline_xattr_total_size : Z
}.
Definition NATIVE : DirectoryViewOptions :=
  Mk true MAX_DIRECTORY_INLINE_XATTR_SIZE MAX_DIRECTORY_INLINE_XATTR_TOTAL_SIZE.
Definition METADATA_ONLY : DirectoryViewOptions := Mk false 0 0.
End DirectoryViewOptions.
Abbreviation DirectoryViewOptions := DirectoryViewOptions.DirectoryViewOptions.

Module InlineXattr.
Record InlineXattr := Mk { name : Name; value : list Z }.
End InlineXattr.
Abbreviation InlineXattr := InlineXattr.InlineXattr.

Module XattrSnapshot.
Record XattrSnapshot := Mk { names : list Name; inline_values : list InlineXattr }.
End XattrSnapshot.
Abbreviation XattrSnapshot := XattrSnapshot.XattrSnapshot.

Module DirectoryViewEntry.
Record DirectoryViewEntry := Mk {
  entry : DirectoryEntry;
  xattrs : option XattrSnapshot
}.
End DirectoryViewEntry.
Abbreviation DirectoryViewEntry := DirectoryViewEntry.DirectoryViewEntry.

Module DirectoryView.
Record DirectoryView := Mk {
  revision : DirectoryRevision;
  directory : Metadata;
  parent : Metadata;
  xattrs : option XattrSnapshot;
  entries : list DirectoryViewEntry
}.
End DirectoryView.
Abbreviation DirectoryView := DirectoryView.DirectoryView.

Module BatchedMetadata.
Inductive BatchedMetadata := Found (m : Metadata) | Failed (code : ErrorCode).
End BatchedMetadata.
Abbreviation BatchedMetadata := BatchedMetadata.BatchedMetadata.

(** * Requests and responses *)

Module Request.
Inductive Request :=
  | Hello (client_name : list Z)
  | Pair (pairing_id : Z) (client_nonce : list Z) (client_proof : SecretProof)
  | Authenticate (username : list Z) (password : SecretString)
  | GetCapabilities
  | StatFilesystem
  | GetMetadata (node : NodeId)
  | ListDirectory (node : NodeId)
  | ListDirectoryView (node : NodeId) (options : DirectoryViewOptions)
  | OpenFile (node : NodeId) (options : FileOpenOptions)
  | CreateFile (parent : NodeId) (name : Name) (mode : Z) (options : FileOpenOptions)
  | CreateDirectory (parent : NodeId) (name : Name) (mode : Z)
  | CreateSymlink (parent : NodeId) (name : Name) (target : list Z)
  | RemoveNode (parent : NodeId) (name : Name) (directory : bool)
  | RenameNode (parent : NodeId) (name : Name) (new_parent : NodeId)
      (new_name : Name) (mode : RenameMode)
  | CreateHardLink (node new_parent : NodeId) (new_name : Name)
  | CreateSpecialNode (parent : NodeId) (name : Name) (kind : SpecialNodeKind)
      (mode device_major device_minor : Z)
  | ReadLink (node : NodeId)
  | SetAttributes (node : NodeId) (handle : option FileHandle)
      (changes : AttributeChanges)
  | ReadRange (handle : FileHandle) (offset length : Z)
  | WriteRange (handle : FileHandle) (offset length : Z)
  | FlushFile (handle : FileHandle) (lock_owner : option Z)
  | SyncFile (handle : FileHandle) (data_only : bool)
  | SyncDirectory (node : NodeId)
  | AllocateFile (handle : FileHandle) (offset length : Z)
  | GetXattr (node : NodeId) (name : Name) (offset length : Z)
  | SetXattr (node : NodeId) (name : Name) (mode : XattrSetMode) (position length : Z)
  | ListXattrs (node : NodeId)
  | RemoveXattr (node : NodeId) (name : Name)
  | CopyFileRange (input : FileHandle) (input_offset : Z) (output : FileHandle)
      (output_offset length : Z)
  | SeekFile (handle : FileHandle) (offset : Z) (whence : SeekWhence)
  | SafeIoctl (handle : FileHandle) (operation : SafeIoctl)
  | MapBlock (node : NodeId) (block_size block : Z)
  | ExchangeData (parent : NodeId) (name : Name) (new_parent : NodeId)
      (new_name : Name) (options : Z)
  | SetVolumeName (name : Name)
  | ForgetNodes (nodes : list NodeId)
  | GetLock (handle : FileHandle) (lock : FileLock)
  | SetLock (handle : FileHandle) (lock : FileLock) (wait : bool)
  | CloseFile (handle : FileHandle)
  | Ping (nonce : Z)
  | GetMetadataBatch (nodes : list NodeId).
End Request.
Abbreviation Request := Request.Request.

(** [Request::clear_secrets]: [Zeroize] on a [String] clears it, on a
    fixed-size array it overwrites every byte with zero. *)
Definition clear_secrets (r : Request) : Request :=
  match r with
  | Request.Pair id nonce proof =>
      Request.Pair id nonce (MkSecretProof (map (λ _, 0) (proof_bytes proof)))
  | Request.Authenticate username _ =>
      Request.Authenticate username (MkSecretString [])
  | _ => r
  end.

Module Response.
Inductive Response :=
  | HelloAck (version : Z)
  | AuthenticateAck
  | PairingProof (certificate_fingerprint : list Z) (proof : SecretProof)
  | Capabilities (c : FilesystemCapabilities)
  | FilesystemStats (s : FilesystemStats)
  | Metadata (m : Metadata)
  | DirectoryListing (revision : DirectoryRevision) (entries : list DirectoryEntry)
  | DirectoryView (v : DirectoryView)
  | DirectoryViewStart (revision : DirectoryRevision) (directory parent : Metadata)
      (xattrs : option XattrSnapshot) (entry_count : Z)
  | DirectoryViewChunk (entries : list DirectoryViewEntry)
  | DirectoryViewEnd
  | FileOpened (handle : FileHandle) (revision : FileRevision) (size : Z)
  | FileCreated (metadata : Metadata) (handle : FileHandle)
      (revision : FileRevision) (size : Z)
  | NodeCreated (m : Metadata)
  | HardLinkCreated (m : Metadata)
  | NodeRemoved
  | NodeRenamed
  | LinkTarget (target : list Z)
  | AttributesChanged (m : Metadata)
  | ReadData (revision : FileRevision) (length : Z)
  | WriteComplete (written : Z) (revision : FileRevision) (size : Z)
  | FileFlushed
  | FileSynced
  | DirectorySynced
  | FileAllocated (revision : FileRevision) (size : Z)
  | XattrData (length total_size : Z)
  | XattrSet
  | XattrNames (names : list Name)
  | XattrRemoved
  | RangeCopied (copied : Z) (revision : FileRevision) (size : Z)
  | FileSeeked (offset : Z)
  | IoctlResult (value : Z)
  | BlockMapped (block : Z)
  | DataExchanged
  | VolumeNameSet
  | NodesForgotten
  | LockStatus (conflict : option FileLock)
  | LockUpdated
  | FileClosed
  | Pong (nonce : Z)
  | Error (e : ProtocolError)
  | MetadataBatch (results : list BatchedMetadata).
End Response.
Abbreviation Response := Response.Response.

(** * Frames *)

Module Envelope.
Record Envelope (T : Type) := Mk { version : Z; request_id : RequestId; message : T }.
Arguments Mk {T} _ _ _.
Arguments version {T} _.
Arguments request_id {T} _.
Arguments message {T} _.
End Envelope.
Abbreviation Envelope := Envelope.Envelope.

(** [Envelope::new]; the fresh UUID is an argument. *)
Definition envelope_new {T} (fresh : RequestId) (message : T) : Envelope T :=
  Envelope.Mk PROTOCOL_VERSION fresh message.

Module CodecError.
Inductive CodecError :=
  | TooLarge (size : Z)
  | Malformed
  | UnsupportedVersion (version : Z)
  | Decompress.
End CodecError.
Abbreviation CodecError := CodecError.CodecError.

(** [parse_frame_header]: split the 32-bit prefix into flag and length. *)
Definition parse_frame_header (prefix : Z) : result CodecError (bool * Z) :=
  let compressed := negb (Z.land prefix FRAME_COMPRESSED_FLAG =? 0) in
  let length := Z.land prefix (Z.lxor FRAME_COMPRESSED_FLAG u32_max) in
  if length >? MAX_FRAME_SIZE then Err (CodecError.TooLarge length)
  else Ok (compressed, length).

Section codec.
(** postcard and zstd. *)
Context {T : Type}.
Context (postcard_to : T → option (list Z)) (postcard_from : list Z → option T).
Context (zstd_compress zstd_decompress : list Z → Z → option (list Z)).

Definition encode (value : T) : result CodecError (list Z) :=
  out ← ok_or (postcard_to value) CodecError.Malformed;
  if zlen out >? MAX_FRAME_SIZE then Err (CodecError.TooLarge (zlen out))
  else Ok out.

Definition encoded_len (value : T) : result CodecError Z :=
  out ← ok_or (postcard_to value) CodecError.Malformed;
  Ok (zlen out).

Definition decode (bytes : list Z) : result CodecError T :=
  if zlen bytes >? MAX_FRAME_SIZE then Err (CodecError.TooLarge (zlen bytes))
  else ok_or (postcard_from bytes) CodecError.Malformed.

Definition frame_body (payload : list Z) : Z * list Z :=
  let raw := (as_u32 (zlen payload), payload) in
  if zlen payload >=? FRAME_COMPRESSION_THRESHOLD then
    match zstd_compress payload FRAME_COMPRESSION_LEVEL with
    | Some compressed =>
        if zlen compressed <? zlen payload
        then (Z.lor (as_u32 (zlen compressed)) FRAME_COMPRESSED_FLAG, compressed)
        else raw
    | None => raw
    end
  else raw.

Definition encode_frame (value : T) (compress : bool) : result CodecError (Z * list Z) :=
  payload ← encode value;
  if compress then Ok (frame_body payload)
  else Ok (as_u32 (zlen payload), payload).

Definition decode_frame (compressed : bool) (body : list Z) : result CodecError T :=
  if compressed then
    payload ← ok_or (zstd_decompress body MAX_FRAME_SIZE) CodecError.Decompress;
    decode payload
  else decode body.
End codec.

(** [decode_request]: only a different major is a hard rejection. *)
Definition decode_request (postcard_from : list Z → option (Envelope Request))
    (bytes : list Z) : result CodecError (Envelope Request) :=
  msg ← decode postcard_from bytes;
  if negb (version_major (Envelope.version msg) =? PROTOCOL_MAJOR)
  then Err (CodecError.UnsupportedVersion (Envelope.version msg))
  else Ok msg.

(** * Version negotiation *)

Lemma version_word_split v :
  version_major v = v / 256 ∧ version_minor v = v mod 256.
Proof.
  unfold version_major, version_minor. split.
  - rewrite Z.shiftr_div_pow2 by lia. done.
  - change 0xff with (Z.ones 8). by rewrite Z.land_ones by lia.
Qed.

Lemma make_version_arith major minor :
  make_version major minor = 256 * (major mod 256) + minor mod 256.
Proof.
  unfold make_version, as_u16.
  change 0xff with (Z.ones 8). rewrite Z.land_ones by lia.
  rewrite Z.shiftl_mul_pow2 by lia.
  replace (2 ^ 16) with (2 ^ 8 * 2 ^ 8) by lia.
  rewrite Z.mul_mod_distr_r by lia. change (2 ^ 8) with 256.
  rewrite Z.mul_comm.
  rewrite <- Z.add_lor_land.
  replace (Z.land (256 * (major mod 256)) (minor mod 256)) with 0; [lia|].
  symmetry. apply Z.bits_inj'. intros n Hn.
  rewrite Z.land_spec, Z.bits_0. change 256 with (2 ^ 8).
  rewrite Z.mul_comm.
  destruct (Z.lt_ge_cases n 8).
  - by rewrite Z.mul_pow2_bits_low.
  - by rewrite (Z.mod_pow2_bits_high minor), andb_false_r by lia.
Qed.

(** The version word keeps the low byte of both components; nothing of a
    component below 256 is lost, and the high bits of a larger one are. *)
Theorem version_roundtrip major minor :
  version_major (make_version major minor) = major mod 256 ∧
  version_minor (make_version major minor) = minor mod 256.
Proof.
  rewrite make_version_arith.
  destruct (version_word_split (256 * (major mod 256) + minor mod 256)) as [-> ->].
  pose proof (Z.mod_pos_bound major 256).
  pose proof (Z.mod_pos_bound minor 256).
  split.
  - rewrite Z.mul_comm, Z.div_add_l by lia.
    rewrite (Z.div_small (minor mod 256)) by lia. lia.
  - rewrite Z.add_comm, Z.mul_comm, Z.mod_add by lia. by rewrite Z.mod_mod by lia.
Qed.

(** * The frame header *)

Lemma frame_flag_mask : Z.lxor FRAME_COMPRESSED_FLAG u32_max = Z.ones 31.
Proof. done. Qed.

Lemma flag_land_small n : 0 ≤ n < 2 ^ 31 → Z.land n FRAME_COMPRESSED_FLAG = 0.
Proof.
  intros Hn. unfold FRAME_COMPRESSED_FLAG. apply Z.bits_inj'. intros k Hk.
  rewrite Z.land_spec, Z.bits_0, Z.shiftl_1_l, Z.pow2_bits_eqb by lia.
  destruct (Z.eqb_spec 31 k) as [<-|]; [|by rewrite andb_false_r].
  rewrite andb_true_r.
  rewrite <- (Z.mod_small n (2 ^ 31)) by lia. by apply Z.mod_pow2_bits_high.
Qed.

Lemma parse_frame_header_raw n :
  0 ≤ n ≤ MAX_FRAME_SIZE → parse_frame_header (as_u32 n) = Ok (false, n).
Proof.
  intros Hn. unfold MAX_FRAME_SIZE in Hn. unfold parse_frame_header, as_u32.
  rewrite Z.mod_small by lia. rewrite flag_land_small by lia. simpl.
  rewrite frame_flag_mask, Z.land_ones, Z.mod_small by lia.
  unfold MAX_FRAME_SIZE. case_match; bool_simpl; [lia|done].
Qed.

Lemma parse_frame_header_compressed n :
  0 ≤ n ≤ MAX_FRAME_SIZE →
  parse_frame_header (Z.lor (as_u32 n) FRAME_COMPRESSED_FLAG) = Ok (true, n).
Proof.
  intros Hn. unfold MAX_FRAME_SIZE in Hn. unfold parse_frame_header, as_u32.
  rewrite (Z.mod_small n) by lia.
  rewrite !Z.land_lor_distr_l, flag_land_small by lia.
  rewrite frame_flag_mask, Z.land_ones, Z.mod_small by lia.
  change (Z.land FRAME_COMPRESSED_FLAG (Z.ones 31)) with 0.
  rewrite Z.lor_0_r. simpl. unfold MAX_FRAME_SIZE.
  case_match; bool_simpl; [lia|done].
Qed.

(** No length is accepted beyond the frame limit, whatever the peer sends. *)
Lemma parse_frame_header_bounded prefix c n :
  0 ≤ prefix → parse_frame_header prefix = Ok (c, n) → 0 ≤ n ≤ MAX_FRAME_SIZE.
Proof.
  unfold parse_frame_header. intros Hp.
  assert (0 ≤ Z.land prefix (Z.lxor FRAME_COMPRESSED_FLAG u32_max))
    by (apply Z.land_nonneg; lia).
  case_step; intros; simplify_eq. lia.
Qed.

(** * Frames *)

Section frame_facts.
Context {T : Type}.
Context (postcard_to : T → option (list Z)) (postcard_from : list Z → option T).
Context (zstd_compress zstd_decompress : list Z → Z → option (list Z)).
(** postcard decodes what it encoded. *)
Context (postcard_inverse : ∀ v b, postcard_to v = Some b → postcard_from b = Some v).
(** zstd restores a compressed payload that fits the output bound. *)
Context (zstd_inverse : ∀ p level c bound,
  zstd_compress p level = Some c → zlen p ≤ bound → zstd_decompress c bound = Some p).

Lemma encode_inv v b :
  encode postcard_to v = Ok b → postcard_to v = Some b ∧ zlen b ≤ MAX_FRAME_SIZE.
Proof.
  unfold encode. destruct (postcard_to v); simpl; [|done].
  case_step; intros; simplify_eq. done.
Qed.

Lemma decode_encoded v b :
  encode postcard_to v = Ok b → decode postcard_from b = Ok v.
Proof.
  intros [Hb Hlen]%encode_inv. unfold decode.
  case_match; bool_simpl; [lia|]. by rewrite (postcard_inverse v b).
Qed.

Lemma frame_body_roundtrip v payload prefix body :
  encode postcard_to v = Ok payload →
  frame_body zstd_compress payload = (prefix, body) →
  ∃ c, parse_frame_header prefix = Ok (c, zlen body) ∧
    decode_frame postcard_from zstd_decompress c body = Ok v.
Proof.
  intros Henc. pose proof (decode_encoded _ _ Henc) as Hdec.
  destruct (encode_inv _ _ Henc) as [_ Hlen].
  pose proof (zlen_nonneg payload).
  assert (∃ c, parse_frame_header (as_u32 (zlen payload)) = Ok (c, zlen payload) ∧
    decode_frame postcard_from zstd_decompress c payload = Ok v) as Hraw.
  { exists false. split; [by apply parse_frame_header_raw|done]. }
  unfold frame_body. case_match; [|intros; by simplify_eq].
  case_match eqn:Ez; [|intros; by simplify_eq].
  case_match; bool_simpl; intros; simplify_eq; [|done].
  exists true. pose proof (zlen_nonneg body). split.
  - apply parse_frame_header_compressed. lia.
  - unfold decode_frame. by rewrite (zstd_inverse _ _ _ _ Ez).
Qed.

(** A frame the sender emits is accepted by the receiver's header parser with
    its exact body length and decodes to the value that was sent; a sender
    that was told not to compress never sets the flag. *)
Lemma frame_roundtrip_gen v compress prefix body :
  encode_frame postcard_to zstd_compress v compress = Ok (prefix, body) →
  ∃ c, parse_frame_header prefix = Ok (c, zlen body) ∧
    decode_frame postcard_from zstd_decompress c body = Ok v ∧
    (compress = false → c = false).
Proof.
  unfold encode_frame. destruct (encode postcard_to v) as [payload|] eqn:Henc; simpl; [|done].
  destruct compress; intros; simplify_eq.
  - destruct (frame_body_roundtrip v payload prefix body) as (c & ? & ?); [done|congruence|].
    by exists c.
  - exists false. split_and!; [|by apply (decode_encoded v)|done].
    destruct (encode_inv _ _ Henc). apply parse_frame_header_raw.
    pose proof (zlen_nonneg body). lia.
Qed.

(** The body on the wire is never longer than the postcard encoding, and
    never longer than the frame limit. *)
Lemma encode_frame_bounded_gen v compress prefix body :
  encode_frame postcard_to zstd_compress v compress = Ok (prefix, body) →
  ∃ payload, postcard_to v = Some payload ∧ zlen body ≤ zlen payload ≤ MAX_FRAME_SIZE.
Proof.
  unfold encode_frame. destruct (encode postcard_to v) as [payload|] eqn:Henc; simpl; [|done].
  destruct (encode_inv _ _ Henc). intros Hf. exists payload. split_and!; [done| |done].
  destruct compress; simplify_eq/=; [|done].
  unfold frame_body in *. repeat case_match; bool_simpl; simplify_eq; lia.
Qed.
End frame_facts.

(** A frame the sender emits, compressed or not, is read back by the
    receiver: the header parser accepts its prefix with the exact body length,
    the body decodes to the value that was sent, a sender told not to compress
    never sets the flag, and no body is longer than the frame limit or than the
    uncompressed encoding. *)
Theorem frame_roundtrip {T} (postcard_to : T → option (list Z)) postcard_from
    zstd_compress zstd_decompress v compress prefix body :
  (∀ v b, postcard_to v = Some b → postcard_from b = Some v) →
  (∀ p level c bound, zstd_compress p level = Some c → zlen p ≤ bound →
     zstd_decompress c bound = Some p) →
  encode_frame postcard_to zstd_compress v compress = Ok (prefix, body) →
  ∃ c payload,
    parse_frame_header prefix = Ok (c, zlen body) ∧
    decode_frame postcard_from zstd_decompress c body = Ok v ∧
    (compress = false → c = false) ∧
    postcard_to v = Some payload ∧ zlen body ≤ zlen payload ≤ MAX_FRAME_SIZE.
Proof.
  intros Hp Hz He.
  destruct (frame_roundtrip_gen _ _ _ _ Hp Hz _ _ _ _ He) as (c & ? & ? & ?).
  destruct (encode_frame_bounded_gen _ _ _ _ _ _ He) as (payload & ? & ?).
  by exists c, payload.
Qed.

(** A codec that compresses one payload. *)
Definition ex_payload : list Z := replicate 2000 7.
Definition ex_compress (p : list Z) (_ : Z) : option (list Z) :=
  if bool_decide (p = ex_payload) then Some [7] else None.
Definition ex_decompress (c : list Z) (_ : Z) : option (list Z) :=
  if bool_decide (c = [7]) then Some ex_payload else None.

Lemma frame_roundtrip_witness :
  match encode_frame Some ex_compress ex_payload true with
  | Ok (prefix, body) =>
      body = [7] ∧ ∃ c, parse_frame_header prefix = Ok (c, 1) ∧
        decode_frame Some ex_decompress c body = Ok ex_payload
  | Err _ => False
  end.
Proof.
  destruct (encode_frame Some ex_compress ex_payload true) as [[prefix body]|] eqn:E;
    [|by vm_compute in E].
  destruct (frame_roundtrip Some Some ex_compress ex_decompress ex_payload true prefix body)
    as (c & _ & Hc & Hd & _); [by intros ? ? [= ->]| |exact E|].
  - intros p level c bound. unfold ex_compress, ex_decompress. case_match; [|done].
    intros [= <-] _. bool_simpl. by subst.
  - assert (body = [7]) as -> by (vm_compute in E; by simplify_eq). eauto.
Defined.
