(* ===== verification/Common.v ===== *)
(** Shared limits and validation ([crates/common/src/lib.rs]) and the error
    type of the server core ([crates/server-core/src/lib.rs], lines 48-178). *)

From S2P Require Import Prelude Protocol.

(** * Limits *)

Definition DEFAULT_MAX_READ_SIZE : Z := 16 * 1024 * 1024.
Definition DEFAULT_MAX_WRITE_SIZE : Z := 8 * 1024 * 1024.

Module Limits.
Record Limits := Mk {
  max_read_size : Z;
  max_write_size : Z;
  max_open_handles : Z;
  max_known_nodes : Z;
  max_total_known_nodes : Z;
  max_directory_entry_tasks : Z;
  request_timeout_ms : Z
}.
(** [impl Default for Limits]. *)
Definition default : Limits := {|
  max_read_size := DEFAULT_MAX_READ_SIZE;
  max_write_size := DEFAULT_MAX_WRITE_SIZE;
  max_open_handles := 1024;
  max_known_nodes := 131072;
  max_total_known_nodes := 524288;
  max_directory_entry_tasks := 64;
  request_timeout_ms := 30000
|}.
End Limits.
Abbreviation Limits := Limits.Limits.

Module ValidationError.
Inductive ValidationError := InvalidRange | UnsafePath | InvalidFilename.
End ValidationError.
Abbreviation ValidationError := ValidationError.ValidationError.

(** [Display for ValidationError]. *)
Definition validation_message (e : ValidationError) : list Z :=
  match e with
  | ValidationError.InvalidRange => lit "invalid byte range"
  | ValidationError.UnsafePath => lit "unsafe path component"
  | ValidationError.InvalidFilename => lit "invalid filename"
  end.

Definition validate_range (offset length maximum : Z) : result ValidationError unit :=
  if (length >? maximum) ||
     match u64_checked_add offset length with None => true | Some _ => false end
  then Err ValidationError.InvalidRange
  else Ok tt.

(** * Paths *)

Definition SLASH : Z := 47.
Definition DOT : list Z := [46].
Definition DOTDOT : list Z := [46; 46].

(** [std::path::Component] on Unix. *)
Module Component.
Inductive Component := RootDir | CurDir | ParentDir | Normal (name : list Z).
End Component.
Abbreviation Component := Component.Component.
#[global] Instance Component_eq_dec : EqDecision Component.
Proof. solve_decision. Defined.

(** One slash-separated part: empty parts and inner ["."] disappear. *)
Definition path_part (part : list Z) : option Component :=
  if bool_decide (part = []) then None
  else if bool_decide (part = DOT) then None
  else if bool_decide (part = DOTDOT) then Some Component.ParentDir
  else Some (Component.Normal part).

(** [Path::components] of the Unix path with these bytes. *)
Definition path_components (p : list Z) : list Component :=
  let parts := split_on SLASH p in
  (if starts_with [SLASH] p then [Component.RootDir]
   else match parts with
        | first :: _ => if bool_decide (first = DOT) then [Component.CurDir] else []
        | [] => []
        end)
  ++ omap path_part parts.

(** A relative path inside the export: the sequence of its components.
    [PathBuf] values of the server are built by [join] from the empty path,
    and Rust compares and orders paths by component. *)
Definition RelPath : Type := list Name.

Definition path_join (p : list Name) (name : Name) : list Name := p ++ [name].

(** The loop of [normalize_relative] over the components. *)
Fixpoint normalize_components (cs : list Component) (out : list Name)
    : result ValidationError (list Name) :=
  match cs with
  | [] => Ok out
  | Component.Normal v :: cs' => normalize_components cs' (path_join out v)
  | Component.CurDir :: cs' => normalize_components cs' out
  | _ :: _ => Err ValidationError.UnsafePath
  end.
Definition normalize_relative (path : list Z) : result ValidationError (list Name) :=
  normalize_components (path_components path) [].

Definition validate_filename (name : list Z) : result ValidationError unit :=
  if bool_decide (name = []) || bool_decide (name = DOT) || bool_decide (name = DOTDOT)
     || bool_decide (SLASH ∈ name) || bool_decide (0 ∈ name)
  then Err ValidationError.InvalidFilename
  else Ok tt.

(** * I/O errors *)

(** The error numbers the server distinguishes (on Linux [NOTSUP] and
    [OPNOTSUPP] are one number). *)
Module Errno.
Inductive Errno :=
  | NOENT | ACCESS | PERM | LOOP | EXIST | NOTDIR | ISDIR | NOTEMPTY | NODATA
  | NXIO | NOTTY | ROFS | NOSPC | BUSY | NOTSUP | AGAIN | RANGE | XDEV | INVAL
  | NOSYS | Other (raw : Z).
End Errno.
Abbreviation Errno := Errno.Errno.
#[global] Instance Errno_eq_dec : EqDecision Errno.
Proof. solve_decision. Defined.

(** [std::io::ErrorKind], the kinds the code tests for or constructs. *)
Module IoKind.
Inductive IoKind :=
  | NotFound | PermissionDenied | AlreadyExists | InvalidInput | InvalidData
  | WriteZero | Other.
End IoKind.
Abbreviation IoKind := IoKind.IoKind.
#[global] Instance IoKind_eq_dec : EqDecision IoKind.
Proof. solve_decision. Defined.

(** [std::io::Error]: an operating-system error or one the code builds. *)
Module IoError.
Inductive IoError := Os (e : Errno) | Custom (k : IoKind) (message : list Z).
End IoError.
Abbreviation IoError := IoError.IoError.
#[global] Instance IoError_eq_dec : EqDecision IoError.
Proof. solve_decision. Defined.

Definition raw_os_error (e : IoError) : option Errno :=
  match e with IoError.Os n => Some n | IoError.Custom _ _ => None end.

(** [std::io::Error::kind]. *)
Definition io_kind (e : IoError) : IoKind :=
  match e with
  | IoError.Os Errno.NOENT => IoKind.NotFound
  | IoError.Os (Errno.ACCESS | Errno.PERM) => IoKind.PermissionDenied
  | IoError.Os Errno.EXIST => IoKind.AlreadyExists
  | IoError.Os Errno.INVAL => IoKind.InvalidInput
  | IoError.Os _ => IoKind.Other
  | IoError.Custom k _ => k
  end.

Module ServerError.
Inductive ServerError :=
  | NotFound | PermissionDenied | AlreadyExists | NotDirectory | IsDirectory
  | NotEmpty | NoAttribute | NoData | NotTty | ReadOnly | Conflict | WouldBlock
  | NoSpace | Busy | NotSupported | InvalidNode | InvalidHandle
  | InvalidRequest (message : list Z)
  | TooManyHandles | TooManyNodes | TooManyLocks | DirectoryTooLarge
  | StateUnavailable | TaskFailed
  | Io (e : IoError).
End ServerError.
Abbreviation ServerError := ServerError.ServerError.
#[global] Instance ServerError_eq_dec : EqDecision ServerError.
Proof. solve_decision. Defined.

(** [From<std::io::Error> for ServerError] on Linux. *)
Definition server_error_from_io (error : IoError) : ServerError :=
  match raw_os_error error with
  | Some errno =>
      match errno with
      | Errno.NOENT => ServerError.NotFound
      | Errno.ACCESS | Errno.PERM | Errno.LOOP => ServerError.PermissionDenied
      | Errno.EXIST => ServerError.AlreadyExists
      | Errno.NOTDIR => ServerError.NotDirectory
      | Errno.ISDIR => ServerError.IsDirectory
      | Errno.NOTEMPTY => ServerError.NotEmpty
      | Errno.NODATA => ServerError.NoAttribute
      | Errno.NXIO => ServerError.NoData
      | Errno.NOTTY => ServerError.NotTty
      | Errno.ROFS => ServerError.ReadOnly
      | Errno.NOSPC => ServerError.NoSpace
      | Errno.BUSY => ServerError.Busy
      | Errno.NOTSUP => ServerError.NotSupported
      | Errno.AGAIN => ServerError.WouldBlock
      | _ => ServerError.Io error
      end
  | None =>
      match io_kind error, error with
      | IoKind.NotFound, _ => ServerError.NotFound
      | IoKind.PermissionDenied, _ => ServerError.PermissionDenied
      | IoKind.AlreadyExists, _ => ServerError.AlreadyExists
      | IoKind.InvalidInput, IoError.Custom _ message => ServerError.InvalidRequest message
      | _, _ => ServerError.Io error
      end
  end.

(** [Display for ServerError] (the [thiserror] attributes); the text of an
    operating-system error is not modelled, it never leaves the server. *)
Definition server_error_message (e : ServerError) : list Z :=
  match e with
  | ServerError.NotFound => lit "not found"
  | ServerError.PermissionDenied => lit "permission denied"
  | ServerError.AlreadyExists => lit "already exists"
  | ServerError.NotDirectory => lit "not a directory"
  | ServerError.IsDirectory => lit "is a directory"
  | ServerError.NotEmpty => lit "directory is not empty"
  | ServerError.NoAttribute => lit "extended attribute does not exist"
  | ServerError.NoData => lit "no data exists at or after the requested offset"
  | ServerError.NotTty => lit "inappropriate ioctl for this object"
  | ServerError.ReadOnly => lit "the export is read-only"
  | ServerError.Conflict => lit "the object changed during the operation"
  | ServerError.WouldBlock => lit "the requested lock would block"
  | ServerError.NoSpace => lit "no space is available"
  | ServerError.Busy => lit "resource is busy"
  | ServerError.NotSupported => lit "operation is not supported"
  | ServerError.InvalidNode => lit "invalid node"
  | ServerError.InvalidHandle => lit "invalid handle"
  | ServerError.InvalidRequest m => lit "invalid request: " ++ m
  | ServerError.TooManyHandles => lit "too many handles"
  | ServerError.TooManyNodes => lit "too many known nodes"
  | ServerError.TooManyLocks => lit "too many advisory locks"
  | ServerError.DirectoryTooLarge => lit "directory listing exceeds the control-frame limit"
  | ServerError.StateUnavailable => lit "server state is unavailable"
  | ServerError.TaskFailed => lit "filesystem task failed"
  | ServerError.Io _ => lit "I/O: "
  end.

(** [ServerError::protocol]. *)
Definition server_error_code (e : ServerError) : ErrorCode :=
  match e with
  | ServerError.NotFound => ErrorCode.NotFound
  | ServerError.PermissionDenied => ErrorCode.PermissionDenied
  | ServerError.AlreadyExists => ErrorCode.AlreadyExists
  | ServerError.NotDirectory => ErrorCode.NotDirectory
  | ServerError.IsDirectory => ErrorCode.IsDirectory
  | ServerError.NotEmpty => ErrorCode.NotEmpty
  | ServerError.NoAttribute => ErrorCode.NoAttribute
  | ServerError.NoData => ErrorCode.NoData
  | ServerError.NotTty => ErrorCode.NotTty
  | ServerError.ReadOnly => ErrorCode.ReadOnly
  | ServerError.Conflict => ErrorCode.Conflict
  | ServerError.WouldBlock => ErrorCode.WouldBlock
  | ServerError.NoSpace => ErrorCode.NoSpace
  | ServerError.Busy => ErrorCode.Busy
  | ServerError.NotSupported => ErrorCode.NotSupported
  | ServerError.InvalidNode => ErrorCode.InvalidNode
  | ServerError.InvalidHandle => ErrorCode.InvalidHandle
  | ServerError.InvalidRequest _ => ErrorCode.InvalidRequest
  | ServerError.TooManyHandles | ServerError.TooManyNodes
  | ServerError.TooManyLocks | ServerError.DirectoryTooLarge => ErrorCode.TooLarge
  | ServerError.StateUnavailable | ServerError.TaskFailed
  | ServerError.Io _ => ErrorCode.Internal
  end.
Definition server_error_protocol (e : ServerError) : ProtocolError :=
  ProtocolError.Mk (server_error_code e)
    (match e with
     | ServerError.StateUnavailable | ServerError.TaskFailed | ServerError.Io _ =>
         lit "internal server error"
     | _ => server_error_message e
     end).

(** [io::Error::from(errno).into()]. *)
Definition of_errno (e : Errno) : ServerError := server_error_from_io (IoError.Os e).

(** * Facts *)

Lemma validate_range_ok offset length maximum :
  validate_range offset length maximum = Ok tt ↔
  length ≤ maximum ∧ offset + length ≤ u64_max.
Proof.
  unfold validate_range, u64_checked_add.
  repeat case_match; bool_simpl; simpl in *; naive_solver lia.
Qed.

Lemma split_on_no_sep sep l : sep ∉ l → split_on sep l = [l].
Proof.
  induction l as [|x l IH]; simpl; [done|].
  intros Hn. apply not_elem_of_cons in Hn as [? ?].
  case_match; bool_simpl; [congruence|]. by rewrite IH.
Qed.

Lemma split_on_parts sep l p : p ∈ split_on sep l → sep ∉ p.
Proof.
  revert p. induction l as [|x l IH]; intros p; simpl.
  { intros ->%list_elem_of_singleton. apply not_elem_of_nil. }
  case_match; bool_simpl.
  - intros [->|Hp]%elem_of_cons; [apply not_elem_of_nil|by apply IH].
  - destruct (split_on sep l) as [|h t] eqn:E.
    + intros ->%list_elem_of_singleton. set_solver.
    + intros [->|Hp]%elem_of_cons.
      * pose proof (IH h). set_solver.
      * apply IH. set_solver.
Qed.

Lemma path_part_normal part v :
  path_part part = Some (Component.Normal v) →
  part = v ∧ v ≠ [] ∧ v ≠ DOT ∧ v ≠ DOTDOT.
Proof. unfold path_part. repeat case_bool_decide; naive_solver. Qed.

(** A normal component of any path is a single file name: no separator, not
    empty, not ["."] and not [".."]. *)
Lemma path_components_normal p v :
  Component.Normal v ∈ path_components p →
  v ≠ [] ∧ v ≠ DOT ∧ v ≠ DOTDOT ∧ SLASH ∉ v.
Proof.
  unfold path_components. intros [H|H]%elem_of_app.
  { exfalso. repeat case_match; set_solver. }
  apply list_elem_of_omap in H as (part & Hpart & H).
  apply split_on_parts in Hpart. apply path_part_normal in H. naive_solver.
Qed.

Lemma validate_filename_ok name :
  validate_filename name = Ok tt ↔
  name ≠ [] ∧ name ≠ DOT ∧ name ≠ DOTDOT ∧ SLASH ∉ name ∧ 0 ∉ name.
Proof.
  unfold validate_filename. repeat case_bool_decide; simpl; naive_solver.
Qed.

(** [validate_filename] accepts a byte string exactly when it contains no
    NUL byte and is, as a path, the single normal component with those bytes:
    joining an accepted name to a directory names an entry of that directory. *)
Theorem validate_filename_single_component name :
  validate_filename name = Ok tt ↔
  path_components name = [Component.Normal name] ∧ 0 ∉ name.
Proof.
  rewrite validate_filename_ok. split.
  - intros (Hne & Hd & Hdd & Hs & H0). split; [|done].
    unfold path_components. rewrite split_on_no_sep by done.
    replace (starts_with [SLASH] name) with false.
    + rewrite bool_decide_false by done. simpl. unfold path_part.
      by rewrite !bool_decide_false.
    + destruct name as [|x name]; [done|].
      change (starts_with [SLASH] (x :: name)) with ((SLASH =? x) && true).
      rewrite andb_true_r. symmetry. apply Z.eqb_neq. set_solver.
  - intros [Hc H0].
    destruct (path_components_normal name name) as (? & ? & ? & ?); [|done].
    rewrite Hc. by left.
Qed.

Lemma normalize_components_spec cs out r :
  normalize_components cs out = Ok r ↔
  (Component.RootDir ∉ cs ∧ Component.ParentDir ∉ cs) ∧
  r = out ++ omap (λ c, match c with Component.Normal v => Some v | _ => None end) cs.
Proof.
  revert out. induction cs as [|c cs IH]; intros out; simpl.
  { rewrite app_nil_r. pose proof (not_elem_of_nil (A := Component)). naive_solver. }
  destruct c; rewrite ?IH; try set_solver.
  unfold path_join. rewrite <- app_assoc. simpl. set_solver.
Qed.

(** [normalize_relative] never leaves the directory it is resolved in: it
    succeeds exactly when the path has neither a root nor a [".."] component,
    and then every component of its result is a plain file name. *)
Theorem normalize_relative_confined path :
  ((∃ out, normalize_relative path = Ok out) ↔
     Component.RootDir ∉ path_components path ∧
     Component.ParentDir ∉ path_components path) ∧
  (∀ out v, normalize_relative path = Ok out → v ∈ out →
     v ≠ [] ∧ v ≠ DOT ∧ v ≠ DOTDOT ∧ SLASH ∉ v).
Proof.
  unfold normalize_relative. split.
  - setoid_rewrite normalize_components_spec. naive_solver.
  - intros out v [_ ->]%normalize_components_spec Hv. simpl in Hv.
    apply list_elem_of_omap in Hv as (c & Hc & Hv).
    destruct c; simplify_eq. by apply path_components_normal in Hc.
Qed.
