(* ===== verification/Locks.v ===== *)
(** Advisory byte-range locks ([crates/server-core/src/lib.rs]): the lock
    table of an export, conflict detection, range replacement with splitting
    and merging, and the waiting loop of [set_lock] with its notifications.

    The abstract specification gives each owner a map from byte offsets to the
    lock it holds there ([lock_at]); the table refines it. *)

From S2P Require Import Prelude Protocol Common.

(** * Data *)

Record FileIdentity := MkIdentity { device : Z; inode : Z }.
#[global] Instance FileIdentity_eq_dec : EqDecision FileIdentity.
Proof. solve_decision. Defined.
#[global] Instance FileIdentity_countable : Countable FileIdentity.
Proof.
  by apply (inj_countable' (λ i, (device i, inode i)) (λ p, MkIdentity p.1 p.2)); intros [].
Defined.

Module LockRecord.
Record LockRecord := Mk { identity : FileIdentity; session : Z; lock : FileLock }.
End LockRecord.
Abbreviation LockRecord := LockRecord.LockRecord.
#[global] Instance LockRecord_eq_dec : EqDecision LockRecord.
Proof. solve_decision. Defined.

Definition MAX_LOCK_RECORDS : Z := 65536.

(** * Operations on the table *)

Definition validate_lock (lock : FileLock) (allow_unlock : bool) : result ServerError unit :=
  if (FileLock.start lock >? FileLock.end_ lock) ||
     (negb allow_unlock && bool_decide (FileLock.kind lock = LockKind.Unlock))
  then Err (ServerError.InvalidRequest (lit "invalid advisory lock"))
  else Ok tt.

Definition validate_lock_access (access : FileAccess) (kind : LockKind)
    : result ServerError unit :=
  match kind with
  | LockKind.Read => if can_read access then Ok tt else Err ServerError.PermissionDenied
  | LockKind.Write =>
      if can_write_access access then Ok tt else Err ServerError.PermissionDenied
  | LockKind.Unlock => Ok tt
  end.

Definition ranges_overlap (left right : FileLock) : bool :=
  (FileLock.start left <=? FileLock.end_ right) &&
  (FileLock.start right <=? FileLock.end_ left).

(** The filter of [first_conflict]. *)
Definition conflicts_with (identity : FileIdentity) (session : Z) (requested : FileLock)
    (record : LockRecord) : bool :=
  bool_decide (LockRecord.identity record = identity) &&
  negb ((LockRecord.session record =? session) &&
        (FileLock.owner (LockRecord.lock record) =? FileLock.owner requested)) &&
  ranges_overlap (LockRecord.lock record) requested &&
  (bool_decide (FileLock.kind (LockRecord.lock record) = LockKind.Write) ||
   bool_decide (FileLock.kind requested = LockKind.Write)).

Definition first_conflict (locks : list LockRecord) (identity : FileIdentity)
    (session : Z) (requested : FileLock) : option LockRecord :=
  min_by_key (λ record, FileLock.start (LockRecord.lock record))
    (List.filter (conflicts_with identity session requested) locks).

Definition with_end (r : LockRecord) (e : Z) : LockRecord :=
  let l := LockRecord.lock r in
  LockRecord.Mk (LockRecord.identity r) (LockRecord.session r)
    (FileLock.Mk (FileLock.owner l) (FileLock.start l) e (FileLock.kind l) (FileLock.pid l)).
Definition with_start (r : LockRecord) (s : Z) : LockRecord :=
  let l := LockRecord.lock r in
  LockRecord.Mk (LockRecord.identity r) (LockRecord.session r)
    (FileLock.Mk (FileLock.owner l) s (FileLock.end_ l) (FileLock.kind l) (FileLock.pid l)).

(** What one iteration of the loop of [replace_owner_range] pushes. *)
Definition cut_record (identity : FileIdentity) (session : Z) (requested : FileLock)
    (record : LockRecord) : list LockRecord :=
  let lock := LockRecord.lock record in
  if negb (bool_decide (LockRecord.identity record = identity)) ||
     negb (LockRecord.session record =? session) ||
     negb (FileLock.owner lock =? FileLock.owner requested) ||
     negb (ranges_overlap lock requested)
  then [record]
  else
    (if FileLock.start lock <? FileLock.start requested
     then [with_end record (FileLock.start requested - 1)] else []) ++
    (if FileLock.end_ lock >? FileLock.end_ requested
     then [with_start record (u64_saturating_add (FileLock.end_ requested) 1)] else []).

(** [record.lock.kind as u8]. *)
Definition kind_rank (k : LockKind) : Z :=
  match k with LockKind.Read => 0 | LockKind.Write => 1 | LockKind.Unlock => 2 end.

(** The sort key of [merge_owner_locks], a tuple compared lexicographically. *)
Definition lock_sort_key (r : LockRecord) : list Z :=
  [device (LockRecord.identity r); inode (LockRecord.identity r);
   LockRecord.session r; FileLock.owner (LockRecord.lock r);
   kind_rank (FileLock.kind (LockRecord.lock r)); FileLock.start (LockRecord.lock r)].

Definition mergeable (previous record : LockRecord) : bool :=
  let p := LockRecord.lock previous in
  let r := LockRecord.lock record in
  bool_decide (LockRecord.identity previous = LockRecord.identity record) &&
  (LockRecord.session previous =? LockRecord.session record) &&
  (FileLock.owner p =? FileLock.owner r) &&
  bool_decide (FileLock.kind p = FileLock.kind r) &&
  (FileLock.pid p =? FileLock.pid r) &&
  (u64_saturating_add (FileLock.end_ p) 1 >=? FileLock.start r).

(** The merging loop; [merged] is kept with its last element first. *)
Fixpoint merge_loop (merged l : list LockRecord) : list LockRecord :=
  match l with
  | [] => reverse merged
  | record :: l' =>
      match merged with
      | previous :: rest =>
          if mergeable previous record then
            merge_loop
              (with_end previous
                 (Z.max (FileLock.end_ (LockRecord.lock previous))
                        (FileLock.end_ (LockRecord.lock record))) :: rest) l'
          else merge_loop (record :: merged) l'
      | [] => merge_loop [record] l'
      end
  end.

Definition merge_owner_locks (locks : list LockRecord) : list LockRecord :=
  merge_loop [] (sort_by (λ a b, lex_leb (lock_sort_key a) (lock_sort_key b)) locks).

(** [replace_owner_range]: the new table, or [TooManyLocks] with the table
    left as it was. *)
Definition replace_owner_range (locks : list LockRecord) (identity : FileIdentity)
    (session : Z) (requested : FileLock) (insert : bool)
    : result ServerError (list LockRecord) :=
  let next := flat_map (cut_record identity session requested) locks in
  let next := if insert then next ++ [LockRecord.Mk identity session requested] else next in
  let next := merge_owner_locks next in
  if zlen next >? MAX_LOCK_RECORDS then Err ServerError.TooManyLocks else Ok next.

(** [remove_locks]: the retained records and whether any was removed (waiters
    are notified then). *)
Definition remove_locks (locks : list LockRecord) (remove : LockRecord → bool)
    : bool * list LockRecord :=
  let kept := List.filter (λ record, negb (remove record)) locks in
  (negb (zlen locks =? zlen kept), kept).

(** The outcome of one iteration of the loop in [set_lock], under the mutex. *)
Inductive LockAttempt :=
  | Updated (locks : list LockRecord)
  | AttemptFailed (e : ServerError)
  | Blocked.

Definition set_lock_attempt (locks : list LockRecord) (identity : FileIdentity)
    (session : Z) (requested : FileLock) : LockAttempt :=
  let update insert :=
    match replace_owner_range locks identity session requested insert with
    | Ok locks' => Updated locks'
    | Err e => AttemptFailed e
    end in
  if bool_decide (FileLock.kind requested = LockKind.Unlock) then update false
  else match first_conflict locks identity session requested with
       | None => update true
       | Some _ => Blocked
       end.

(** * The abstract specification *)

(** The owner of a lock: the file, the connection and the owner number. *)
Definition lock_key (r : LockRecord) : FileIdentity * Z * Z :=
  (LockRecord.identity r, LockRecord.session r, FileLock.owner (LockRecord.lock r)).
Definition lock_value (r : LockRecord) : LockKind * Z :=
  (FileLock.kind (LockRecord.lock r), FileLock.pid (LockRecord.lock r)).
Definition covers (r : LockRecord) (b : Z) : Prop :=
  FileLock.start (LockRecord.lock r) ≤ b ≤ FileLock.end_ (LockRecord.lock r).
#[global] Instance covers_dec r b : Decision (covers r b).
Proof. unfold covers. apply _. Defined.

(** The lock an owner holds on a byte. *)
Fixpoint lock_at (locks : list LockRecord) (key : FileIdentity * Z * Z) (b : Z)
    : option (LockKind * Z) :=
  match locks with
  | [] => None
  | r :: locks' =>
      if decide (lock_key r = key ∧ covers r b) then Some (lock_value r)
      else lock_at locks' key b
  end.

(** Setting a range of one owner in the abstract map. *)
Definition abs_set (f : FileIdentity * Z * Z → Z → option (LockKind * Z))
    (key : FileIdentity * Z * Z) (lo hi : Z) (v : option (LockKind * Z))
    : FileIdentity * Z * Z → Z → option (LockKind * Z) :=
  λ k b, if decide (k = key ∧ lo ≤ b ≤ hi) then v else f k b.

(** Records of the table are non-empty ranges of 64-bit offsets and are never
    "unlock" records. *)
Definition wf_lock (l : FileLock) : Prop :=
  0 ≤ FileLock.start l ≤ FileLock.end_ l ∧ FileLock.end_ l ≤ u64_max.
Definition wf_record (r : LockRecord) : Prop :=
  wf_lock (LockRecord.lock r) ∧ FileLock.kind (LockRecord.lock r) ≠ LockKind.Unlock.

(** [holds]: some record gives the owner this lock on this byte. *)
Definition rec_holds (r : LockRecord) (key : FileIdentity * Z * Z) (v : LockKind * Z)
    (b : Z) : Prop := lock_key r = key ∧ lock_value r = v ∧ covers r b.
Definition holds (locks : list LockRecord) (key : FileIdentity * Z * Z)
    (v : LockKind * Z) (b : Z) : Prop := ∃ r, r ∈ locks ∧ rec_holds r key v b.

(** The table invariant: well-formed, bounded, one lock per owner and byte, and
    no byte on which two different owners conflict. *)
Record lock_inv (locks : list LockRecord) : Prop := {
  inv_wf : Forall wf_record locks;
  inv_bounded : zlen locks ≤ MAX_LOCK_RECORDS;
  inv_unique : ∀ key v1 v2 b, holds locks key v1 b → holds locks key v2 b → v1 = v2;
  inv_exclusive : ∀ id s1 o1 s2 o2 v1 v2 b,
    (s1, o1) ≠ (s2, o2) →
    holds locks (id, s1, o1) v1 b → holds locks (id, s2, o2) v2 b →
    v1.1 = LockKind.Read ∧ v2.1 = LockKind.Read
}.

(** * The waiting loop of [set_lock] *)

(** A call of [set_lock] between its loop iterations.  [Armed g]: the future
    [notified()] was created when the notification counter was [g] and the
    table has not been looked at yet.  [Asleep g]: the call found a conflict
    and awaits that future. *)
Inductive WaitPhase := Armed (generation : nat) | Asleep (generation : nat).
Module Waiter.
Record Waiter := Mk {
  identity : FileIdentity; session : Z; request : FileLock; wait : bool;
  phase : WaitPhase
}.
End Waiter.
Abbreviation Waiter := Waiter.Waiter.

Definition waiter_attempt (locks : list LockRecord) (w : Waiter) : LockAttempt :=
  set_lock_attempt locks (Waiter.identity w) (Waiter.session w) (Waiter.request w).
Definition set_phase (w : Waiter) (p : WaitPhase) : Waiter :=
  Waiter.Mk (Waiter.identity w) (Waiter.session w) (Waiter.request w) (Waiter.wait w) p.

(** The shared lock table with its [Notify]: [generation] counts the calls of
    [notify_waiters]; [pending] counts the threads that have changed the table
    and released the mutex but not called [notify_waiters] yet. *)
Record LockSystem := MkLockSystem {
  sys_locks : list LockRecord;
  sys_generation : nat;
  sys_pending : nat;
  sys_waiters : gmap nat Waiter
}.

Inductive lock_step : LockSystem → LockSystem → Prop :=
  (** A call enters the loop: [let notified = lock_notify.notified();]. *)
  | step_arrive locks gen pend ws wid id s req wait :
      ws !! wid = None → validate_lock req true = Ok tt → wf_lock req →
      lock_step (MkLockSystem locks gen pend ws)
        (MkLockSystem locks gen pend
           (<[wid := Waiter.Mk id s req wait (Armed gen)]> ws))
  (** It takes the mutex and updates the table; the notification follows. *)
  | step_granted locks gen pend ws wid w g locks' :
      ws !! wid = Some w → Waiter.phase w = Armed g →
      waiter_attempt locks w = Updated locks' →
      lock_step (MkLockSystem locks gen pend ws)
        (MkLockSystem locks' gen (S pend) (delete wid ws))
  (** [replace_owner_range(..)?] failed: the call returns the error. *)
  | step_failed locks gen pend ws wid w g e :
      ws !! wid = Some w → Waiter.phase w = Armed g →
      waiter_attempt locks w = AttemptFailed e →
      lock_step (MkLockSystem locks gen pend ws)
        (MkLockSystem locks gen pend (delete wid ws))
  (** A conflict: [if !wait { return Err(WouldBlock) }]. *)
  | step_would_block locks gen pend ws wid w g :
      ws !! wid = Some w → Waiter.phase w = Armed g → Waiter.wait w = false →
      waiter_attempt locks w = Blocked →
      lock_step (MkLockSystem locks gen pend ws)
        (MkLockSystem locks gen pend (delete wid ws))
  (** A conflict: [notified.await]. *)
  | step_sleep locks gen pend ws wid w g :
      ws !! wid = Some w → Waiter.phase w = Armed g → Waiter.wait w = true →
      waiter_attempt locks w = Blocked →
      lock_step (MkLockSystem locks gen pend ws)
        (MkLockSystem locks gen pend (<[wid := set_phase w (Asleep g)]> ws))
  (** The awaited future completes; the next iteration creates a new one. *)
  | step_wake locks gen pend ws wid w g :
      ws !! wid = Some w → Waiter.phase w = Asleep g → (g < gen)%nat →
      lock_step (MkLockSystem locks gen pend ws)
        (MkLockSystem locks gen pend (<[wid := set_phase w (Armed gen)]> ws))
  (** The request is cancelled (its stream is gone). *)
  | step_cancel locks gen pend ws wid :
      lock_step (MkLockSystem locks gen pend ws)
        (MkLockSystem locks gen pend (delete wid ws))
  (** [remove_locks] by [flush], [close] or the end of a session. *)
  | step_remove locks gen pend ws remove changed kept :
      remove_locks locks remove = (changed, kept) →
      lock_step (MkLockSystem locks gen pend ws)
        (MkLockSystem kept gen (if changed then S pend else pend) ws)
  (** [lock_notify.notify_waiters()]. *)
  | step_notify locks gen pend ws :
      lock_step (MkLockSystem locks gen (S pend) ws)
        (MkLockSystem locks (S gen) pend ws).

Definition lock_system_init : LockSystem := MkLockSystem [] 0 0 ∅.

(** * Conflict detection *)

Lemma first_conflict_None locks id s req :
  first_conflict locks id s req = None ↔
  ∀ r, r ∈ locks → conflicts_with id s req r = false.
Proof.
  unfold first_conflict. rewrite min_by_key_None. split.
  - intros H r Hr. apply not_true_iff_false. intros Hc.
    assert (r ∈ List.filter (conflicts_with id s req) locks) as Hin
      by (by apply elem_of_filter_list).
    rewrite H in Hin. by apply not_elem_of_nil in Hin.
  - intros H. apply elem_of_nil_inv. intros r [Hr Hc]%elem_of_filter_list.
    rewrite H in Hc; done.
Qed.

Lemma conflicts_with_spec id s req r :
  conflicts_with id s req r = true ↔
  LockRecord.identity r = id ∧
  (LockRecord.session r, FileLock.owner (LockRecord.lock r)) ≠ (s, FileLock.owner req) ∧
  (FileLock.start (LockRecord.lock r) ≤ FileLock.end_ req ∧
   FileLock.start req ≤ FileLock.end_ (LockRecord.lock r)) ∧
  (FileLock.kind (LockRecord.lock r) = LockKind.Write ∨ FileLock.kind req = LockKind.Write).
Proof.
  unfold conflicts_with, ranges_overlap.
  rewrite !andb_true_iff, negb_true_iff, andb_false_iff, orb_true_iff,
    !bool_decide_eq_true, !Z.eqb_neq, !Z.leb_le.
  split; [naive_solver|].
  intros (-> & Hne & [? ?] & ?). split_and!; auto.
  destruct (decide (LockRecord.session r = s)) as [Es|]; [|by left].
  right. intros E. apply Hne. by rewrite E, Es.
Qed.

(** * Sorting and merging keep what is held *)

Lemma holds_app l k key v b :
  holds (l ++ k) key v b ↔ holds l key v b ∨ holds k key v b.
Proof. unfold holds. set_solver. Qed.

Lemma holds_nil key v b : ¬ holds [] key v b.
Proof. intros (r & Hr & _). by apply not_elem_of_nil in Hr. Qed.

Lemma holds_cons r l key v b :
  holds (r :: l) key v b ↔ rec_holds r key v b ∨ holds l key v b.
Proof. unfold holds. set_solver. Qed.

#[global] Instance holds_proper :
  Proper ((≡ₚ) ==> (=) ==> (=) ==> (=) ==> iff) holds.
Proof. intros l k Hp ? ? -> ? ? -> ? ? ->. unfold holds. by setoid_rewrite Hp. Qed.

(** The part of the sort key that has to agree before two records can merge. *)
Definition same_class (p r : LockRecord) : Prop :=
  lock_key p = lock_key r ∧
  FileLock.kind (LockRecord.lock p) = FileLock.kind (LockRecord.lock r).

Lemma sort_key_start p r :
  same_class p r → lex_leb (lock_sort_key p) (lock_sort_key r) = true →
  FileLock.start (LockRecord.lock p) ≤ FileLock.start (LockRecord.lock r).
Proof.
  unfold same_class, lock_key, lock_sort_key. intros [Hk Hkind].
  destruct p as [pi ps pl], r as [ri rs rl]; simpl in *.
  injection Hk as -> -> Ho. rewrite Ho, Hkind, !lex_leb_cons. unfold lex_leb. simpl.
  destruct (Z.compare_spec (FileLock.start pl) (FileLock.start rl)); simpl; try lia.
Qed.

Lemma mergeable_spec p r :
  mergeable p r = true →
  same_class p r ∧ lock_value p = lock_value r ∧
  FileLock.start (LockRecord.lock r) ≤ u64_saturating_add (FileLock.end_ (LockRecord.lock p)) 1.
Proof.
  unfold mergeable, same_class, lock_key, lock_value. cbv zeta. intros.
  bool_simpl. split_and!; try congruence.
Qed.

Lemma rec_holds_merge p r key v b :
  wf_record p → wf_record r →
  mergeable p r = true →
  FileLock.start (LockRecord.lock p) ≤ FileLock.start (LockRecord.lock r) →
  rec_holds (with_end p (Z.max (FileLock.end_ (LockRecord.lock p))
                               (FileLock.end_ (LockRecord.lock r)))) key v b ↔
  rec_holds p key v b ∨ rec_holds r key v b.
Proof.
  intros [Hp _] [Hr _] ([Hk Hkind] & Hv & Hend)%mergeable_spec Hle.
  unfold rec_holds. destruct p as [pi ps pl], r as [ri rs rl].
  unfold lock_key, lock_value, covers, wf_lock, with_end, u64_saturating_add in *; simpl in *.
  simplify_eq. split.
  - intros (<- & <- & ?).
    destruct (decide (b ≤ FileLock.end_ pl)); [left|right]; split_and!;
      try congruence; lia.
  - intros [(<- & <- & ?)|(<- & <- & ?)]; split_and!; try congruence; lia.
Qed.

Lemma wf_with_end p r :
  wf_record p → wf_record r →
  wf_record (with_end p (Z.max (FileLock.end_ (LockRecord.lock p))
                               (FileLock.end_ (LockRecord.lock r)))).
Proof. unfold wf_record, wf_lock. simpl. intros [? ?] [? ?]. split; [lia|done]. Qed.

(** [merged] is at most as far as the records still to come. *)
Definition merge_front (merged l : list LockRecord) : Prop :=
  match merged with
  | [] => True
  | p :: _ => Forall (λ r, same_class p r →
      FileLock.start (LockRecord.lock p) ≤ FileLock.start (LockRecord.lock r)) l
  end.

Lemma merge_loop_spec l merged :
  StronglySorted (λ a b, lex_leb (lock_sort_key a) (lock_sort_key b) = true) l →
  Forall wf_record merged → Forall wf_record l → merge_front merged l →
  Forall wf_record (merge_loop merged l) ∧
  ∀ key v b, holds (merge_loop merged l) key v b ↔ holds (merged ++ l) key v b.
Proof.
  revert merged. induction l as [|r l IH]; intros merged Hs Hm Hl Hf; simpl.
  { rewrite reverse_Permutation. split; [done|]. intros. rewrite app_nil_r.
    by rewrite reverse_Permutation. }
  inversion Hs as [|? ? Hs' Hr]; subst. inversion Hl as [|? ? Hwr Hl']; subst.
  assert (merge_front [r] l) as Hfr.
  { simpl. eapply Forall_impl; [exact Hr|]. simpl. intros. by apply sort_key_start. }
  destruct merged as [|p rest].
  { apply IH; auto. }
  inversion Hm as [|? ? Hwp Hm']; subst. simpl in Hf. inversion Hf as [|? ? Hpr Hf']; subst.
  destruct (mergeable p r) eqn:E.
  - pose proof (mergeable_spec _ _ E) as (Hc & _ & _).
    destruct (IH (with_end p (Z.max (FileLock.end_ (LockRecord.lock p))
      (FileLock.end_ (LockRecord.lock r))) :: rest)) as [Hwf Hh];
      [done|constructor; [by apply wf_with_end|done]|done|done|].
    split; [done|]. intros key v b. rewrite Hh.
    rewrite <- !app_comm_cons, !holds_cons, rec_holds_merge by auto.
    rewrite (Permutation_app_comm rest (r :: l)). simpl. rewrite holds_cons.
    rewrite (Permutation_app_comm l rest). naive_solver.
  - destruct (IH (r :: p :: rest)) as [Hwf Hh]; auto.
    split; [done|]. intros key v b. rewrite Hh. simpl.
    rewrite !holds_cons, !holds_app, !holds_cons. naive_solver.
Qed.

Lemma merge_owner_locks_spec l :
  Forall wf_record l →
  Forall wf_record (merge_owner_locks l) ∧
  ∀ key v b, holds (merge_owner_locks l) key v b ↔ holds l key v b.
Proof.
  intros Hl. unfold merge_owner_locks.
  set (leb := λ a b, lex_leb (lock_sort_key a) (lock_sort_key b)).
  assert (sort_by leb l ≡ₚ l) as Hp by apply sort_by_perm.
  destruct (merge_loop_spec (sort_by leb l) []) as [Hwf Hh]; simpl; auto.
  - apply (sort_by_sorted leb).
    + intros. apply lex_leb_total.
    + intros ? ? ?. apply lex_leb_trans.
  - by rewrite Hp.
  - split; [done|]. intros. rewrite Hh. simpl. by rewrite Hp.
Qed.

(** * Range replacement *)

Definition req_key (id : FileIdentity) (s : Z) (req : FileLock) : FileIdentity * Z * Z :=
  (id, s, FileLock.owner req).
Definition in_range (req : FileLock) (b : Z) : Prop :=
  FileLock.start req ≤ b ≤ FileLock.end_ req.
#[global] Instance in_range_dec req b : Decision (in_range req b).
Proof. unfold in_range. apply _. Defined.

Lemma cut_record_untouched id s req r :
  lock_key r ≠ req_key id s req ∨ ranges_overlap (LockRecord.lock r) req = false →
  cut_record id s req r = [r].
Proof.
  unfold cut_record, lock_key, req_key. cbv zeta. intros [Hne|Ho].
  - case_match; [done|]. bool_simpl. congruence.
  - rewrite Ho. simpl. by rewrite !orb_true_r.
Qed.

Lemma cut_record_spec id s req r :
  wf_record r → wf_lock req →
  Forall wf_record (cut_record id s req r) ∧
  ∀ key v b, holds (cut_record id s req r) key v b ↔
    rec_holds r key v b ∧ ¬ (key = req_key id s req ∧ in_range req b).
Proof.
  intros Hr Hreq.
  destruct (decide (lock_key r ≠ req_key id s req ∨
                    ranges_overlap (LockRecord.lock r) req = false)) as [Hun|Hin].
  { rewrite cut_record_untouched by done. split; [by constructor|].
    intros key v b. rewrite holds_cons. split.
    - intros [Hh|Hh]; [|by apply holds_nil in Hh]. split; [done|].
      destruct Hh as (Hk & Hv & Hc). intros [-> Hb].
      destruct Hun as [Hne|Ho]; [done|].
      unfold ranges_overlap, covers, in_range in *. bool_simpl. destruct Ho; bool_simpl; lia.
    - intros [Hh _]. by left. }
  apply Decidable.not_or in Hin as [Hk Ho].
  assert (lock_key r = req_key id s req) as Hkey by (destruct (decide (lock_key r = req_key id s req)); naive_solver).
  apply not_false_is_true in Ho. clear Hk.
  destruct r as [ri rs rl]. unfold lock_key, req_key in Hkey. simpl in *.
  injection Hkey as -> -> Hown.
  unfold cut_record, ranges_overlap in *. cbv zeta. simpl.
  rewrite bool_decide_true by done. rewrite !Z.eqb_refl, Hown, Z.eqb_refl, Ho. simpl.
  bool_simpl. destruct Hr as [Hwf Hkind]. unfold wf_record, wf_lock, in_range, req_key in *. simpl in *.
  unfold with_end, with_start, u64_saturating_add. simpl.
  split.
  - repeat case_match; bool_simpl; repeat constructor; simpl; try done; lia.
  - intros key v b.
    assert (∀ lo hi, rec_holds (LockRecord.Mk id s (FileLock.Mk (FileLock.owner rl) lo hi
        (FileLock.kind rl) (FileLock.pid rl))) key v b ↔
        (id, s, FileLock.owner rl) = key ∧ lock_value (LockRecord.Mk id s rl) = v ∧ lo ≤ b ≤ hi)
      as Hrec by done.
    unfold rec_holds at 1, covers, lock_key; simpl. rewrite Hown in *.
    repeat case_match; bool_simpl; simpl; rewrite ?holds_cons, ?Hrec;
      split; intros Hx; try (destruct Hx as [Hx|Hx]); try (by apply holds_nil in Hx);
      try (destruct Hx as [Hx|Hx]); try (by apply holds_nil in Hx).
    all: try (destruct Hx as (<- & <- & ?); split_and!; auto; lia).
    all: try (destruct Hx as ((<- & <- & ?) & Hn); exfalso; apply Hn; split; [done|lia]).
    all: destruct Hx as ((<- & <- & ?) & Hn).
    all: destruct (decide (b < FileLock.start req)); [|destruct (decide (b > FileLock.end_ req))].
    all: try (exfalso; apply Hn; split; [done|lia]).
    all: try lia.
    all: try (left; split_and!; done || lia).
    all: try (right; left; split_and!; done || lia).
Qed.

Lemma holds_flat_map (f : LockRecord → list LockRecord) l key v b :
  holds (flat_map f l) key v b ↔ ∃ r, r ∈ l ∧ holds (f r) key v b.
Proof.
  induction l as [|r l IH]; simpl.
  { split; [intros Hh; by apply holds_nil in Hh|].
    intros (r & Hr & _). by apply not_elem_of_nil in Hr. }
  rewrite holds_app, IH. set_solver.
Qed.

Lemma cut_all_spec id s req locks :
  Forall wf_record locks → wf_lock req →
  Forall wf_record (flat_map (cut_record id s req) locks) ∧
  ∀ key v b, holds (flat_map (cut_record id s req) locks) key v b ↔
    holds locks key v b ∧ ¬ (key = req_key id s req ∧ in_range req b).
Proof.
  intros Hl Hreq. rewrite Forall_forall in Hl. split.
  - apply Forall_flat_map, Forall_forall. intros r Hr.
    by apply cut_record_spec; [apply Hl|].
  - intros key v b. rewrite holds_flat_map. unfold holds at 2. split.
    + intros (r & Hr & Hh). apply cut_record_spec in Hh; [|by apply Hl|done]. naive_solver.
    + intros ((r & Hr & Hh) & Hn). exists r. split; [done|].
      apply cut_record_spec; [by apply Hl|done|done].
Qed.

(** What every owner holds after a successful replacement. *)
Lemma replace_owner_range_holds locks id s req insert locks' :
  Forall wf_record locks → wf_lock req →
  (insert = true → FileLock.kind req ≠ LockKind.Unlock) →
  replace_owner_range locks id s req insert = Ok locks' →
  (Forall wf_record locks' ∧ zlen locks' ≤ MAX_LOCK_RECORDS) ∧
  ∀ key v b, holds locks' key v b ↔
    if decide (key = req_key id s req ∧ in_range req b)
    then insert = true ∧ v = (FileLock.kind req, FileLock.pid req)
    else holds locks key v b.
Proof.
  intros Hl Hreq Hins. unfold replace_owner_range.
  destruct (cut_all_spec id s req locks Hl Hreq) as [Hwf Hh].
  set (next := if insert then _ else _).
  assert (Forall wf_record next ∧ ∀ key v b, holds next key v b ↔
    if decide (key = req_key id s req ∧ in_range req b)
    then insert = true ∧ v = (FileLock.kind req, FileLock.pid req)
    else holds locks key v b) as [Hnwf Hnh].
  { subst next. destruct insert.
    - split.
      + apply Forall_app. split; [done|]. constructor; [|done]. split; [done|by apply Hins].
      + intros key v b. rewrite holds_app, Hh, holds_cons.
        unfold rec_holds, covers, lock_key, lock_value; simpl.
        pose proof (holds_nil key v b). unfold req_key, in_range.
        case_decide; naive_solver.
    - split; [done|]. intros key v b. rewrite Hh. case_decide; naive_solver. }
  destruct (merge_owner_locks_spec next Hnwf) as [Hmwf Hmh].
  case_match; bool_simpl; intros; simplify_eq.
  split_and!; [done|lia|]. intros. by rewrite Hmh.
Qed.

(** * Refinement of the per-byte specification *)

Definition locks_unique (locks : list LockRecord) : Prop :=
  ∀ key v1 v2 b, holds locks key v1 b → holds locks key v2 b → v1 = v2.

Lemma lock_at_Some locks key b v : lock_at locks key b = Some v → holds locks key v b.
Proof.
  induction locks as [|r locks IH]; simpl; [done|]. rewrite holds_cons.
  case_decide; intros; simplify_eq; [left; unfold rec_holds; naive_solver|auto].
Qed.

Lemma lock_at_None locks key b : lock_at locks key b = None ↔ ∀ v, ¬ holds locks key v b.
Proof.
  induction locks as [|r locks IH]; simpl.
  { split; [|done]. intros _ v. apply holds_nil. }
  case_decide as Hd.
  - split; [done|]. intros Hn. exfalso. apply (Hn (lock_value r)).
    rewrite holds_cons. left. unfold rec_holds. naive_solver.
  - rewrite IH. setoid_rewrite holds_cons. unfold rec_holds. naive_solver.
Qed.

Lemma lock_at_holds locks key b v :
  locks_unique locks → lock_at locks key b = Some v ↔ holds locks key v b.
Proof.
  intros Hu. split; [apply lock_at_Some|]. intros Hh.
  destruct (lock_at locks key b) as [v'|] eqn:E.
  - f_equal. by apply (Hu key v' v b); [apply lock_at_Some|].
  - by apply lock_at_None with (v := v) in E.
Qed.

Lemma replace_owner_range_unique locks id s req insert locks' :
  Forall wf_record locks → locks_unique locks → wf_lock req →
  (insert = true → FileLock.kind req ≠ LockKind.Unlock) →
  replace_owner_range locks id s req insert = Ok locks' → locks_unique locks'.
Proof.
  intros Hl Hu Hreq Hins Hok key v1 v2 b.
  destruct (replace_owner_range_holds _ _ _ _ _ _ Hl Hreq Hins Hok) as [_ Hh].
  rewrite !Hh. case_decide; [naive_solver|apply Hu].
Qed.

Lemma replace_owner_range_lock_at locks id s req insert locks' :
  Forall wf_record locks → locks_unique locks → wf_lock req →
  (insert = true → FileLock.kind req ≠ LockKind.Unlock) →
  replace_owner_range locks id s req insert = Ok locks' →
  ∀ key b, lock_at locks' key b =
    abs_set (lock_at locks) (req_key id s req) (FileLock.start req) (FileLock.end_ req)
      (if insert then Some (FileLock.kind req, FileLock.pid req) else None) key b.
Proof.
  intros Hl Hu Hreq Hins Hok key b.
  pose proof (replace_owner_range_unique _ _ _ _ _ _ Hl Hu Hreq Hins Hok) as Hu'.
  destruct (replace_owner_range_holds _ _ _ _ _ _ Hl Hreq Hins Hok) as [_ Hh].
  apply option_eq. intros v. rewrite lock_at_holds, Hh by done.
  unfold abs_set.
  destruct (decide (key = req_key id s req ∧ in_range req b)) as [Hd|Hd].
  - rewrite decide_True by done. destruct insert; split; try done.
    + by intros [_ ->].
    + by intros [= <-].
    + by intros [? _].
  - rewrite decide_False by done. by rewrite lock_at_holds.
Qed.

(** * The invariant *)

Lemma lock_inv_nil : lock_inv [].
Proof.
  split.
  - done.
  - done.
  - intros key v1 v2 b Hh. by apply holds_nil in Hh.
  - intros id s1 o1 s2 o2 v1 v2 b _ Hh. by apply holds_nil in Hh.
Qed.

Lemma no_conflict_reads locks id s req s' o' v b :
  Forall wf_record locks → FileLock.kind req ≠ LockKind.Unlock →
  first_conflict locks id s req = None → in_range req b →
  (s', o') ≠ (s, FileLock.owner req) → holds locks (id, s', o') v b →
  v.1 = LockKind.Read ∧ FileLock.kind req = LockKind.Read.
Proof.
  intros Hl Hk Hc Hb Hne (r & Hr & Hkey & <- & Hcov).
  rewrite first_conflict_None in Hc. specialize (Hc r Hr).
  apply not_true_iff_false in Hc. rewrite conflicts_with_spec in Hc.
  rewrite Forall_forall in Hl. destruct (Hl r Hr) as [_ Hrk].
  unfold lock_key in Hkey. injection Hkey as <- <- <-.
  unfold covers, in_range in *. simpl.
  assert (¬ (FileLock.kind (LockRecord.lock r) = LockKind.Write ∨
             FileLock.kind req = LockKind.Write)) as Hw.
  { intros Hw. apply Hc. split_and!; try done; lia. }
  destruct (FileLock.kind (LockRecord.lock r)), (FileLock.kind req); naive_solver.
Qed.

Lemma set_lock_attempt_Updated locks id s req locks' :
  set_lock_attempt locks id s req = Updated locks' →
  ∃ insert, replace_owner_range locks id s req insert = Ok locks' ∧
    (insert = true →
       FileLock.kind req ≠ LockKind.Unlock ∧ first_conflict locks id s req = None) ∧
    (insert = false → FileLock.kind req = LockKind.Unlock).
Proof.
  unfold set_lock_attempt. intros H.
  destruct (decide (FileLock.kind req = LockKind.Unlock)) as [Hk|Hk].
  - rewrite bool_decide_true in H by done. exists false.
    destruct (replace_owner_range locks id s req false); simplify_eq. done.
  - rewrite bool_decide_false in H by done. exists true.
    destruct (first_conflict locks id s req); [done|].
    destruct (replace_owner_range locks id s req true); simplify_eq. done.
Qed.

Lemma set_lock_attempt_inv locks id s req locks' :
  lock_inv locks → wf_lock req →
  set_lock_attempt locks id s req = Updated locks' → lock_inv locks'.
Proof.
  intros [Hl Hb Hu Hx] Hreq (insert & Hok & Hins & _)%set_lock_attempt_Updated.
  assert (insert = true → FileLock.kind req ≠ LockKind.Unlock) as Hku
    by (intros E; by apply Hins).
  destruct (replace_owner_range_holds locks id s req insert locks') as [[Hwf Hlen] Hh];
    [done..|].
  split; [done|done|by apply (replace_owner_range_unique locks id s req insert)|].
  intros id' s1 o1 s2 o2 v1 v2 b Hne. rewrite !Hh. unfold req_key.
  case_decide as H1; case_decide as H2.
  - destruct H1 as [? _], H2 as [? _]. simplify_eq.
  - intros [-> ->] Hh2. destruct H1 as [[= -> -> ->] Hb1]. destruct Hins as [Hk Hc]; [done|].
    destruct (no_conflict_reads locks id s req s2 o2 v2 b) as [? ?]; auto.
  - intros Hh1 [-> ->]. destruct H2 as [[= -> -> ->] Hb2]. destruct Hins as [Hk Hc]; [done|].
    destruct (no_conflict_reads locks id s req s1 o1 v1 b) as [? ?]; auto.
  - by apply Hx.
Qed.

(** Every record belongs to a session that [owner] accepts. *)
Definition owned (owner : Z → Prop) (locks : list LockRecord) : Prop :=
  ∀ r, r ∈ locks → owner (LockRecord.session r).

Lemma set_lock_attempt_owned owner locks id s req locks' :
  lock_inv locks → owned owner locks → wf_lock req → owner s →
  set_lock_attempt locks id s req = Updated locks' → owned owner locks'.
Proof.
  intros [Hl Hb Hu Hx] Ho Hreq Hs (insert & Hok & Hins & _)%set_lock_attempt_Updated r Hr.
  assert (insert = true → FileLock.kind req ≠ LockKind.Unlock) as Hku by (intros E; by apply Hins).
  destruct (replace_owner_range_holds locks id s req insert locks') as [[Hwf _] Hh]; [done..|].
  rewrite Forall_forall in Hwf. destruct (Hwf r Hr) as [[Hr1 _] _].
  assert (holds locks' (lock_key r) (lock_value r) (FileLock.start (LockRecord.lock r))) as Hold.
  { exists r. split; [done|]. split_and!; [done|done|]. unfold covers. lia. }
  rewrite Hh in Hold. case_decide as Hk.
  - destruct Hk as [Hk _]. unfold lock_key, req_key in Hk. by injection Hk as _ <- _.
  - destruct Hold as (r' & Hr' & Hk' & _). unfold lock_key in Hk'. injection Hk' as _ <- _. by apply Ho.
Qed.

Lemma remove_locks_owned owner locks remove :
  owned owner locks → owned owner (remove_locks locks remove).2.
Proof. intros Ho r [Hr _]%elem_of_filter_list. by apply Ho. Qed.

Lemma holds_mono (l k : list LockRecord) key v b :
  (∀ r, r ∈ l → r ∈ k) → holds l key v b → holds k key v b.
Proof. intros Hs (r & Hr & Hh). exists r. auto. Qed.

Lemma length_filter_le' {A} (f : A → bool) l : (length (List.filter f l) ≤ length l)%nat.
Proof. induction l as [|x l IH]; simpl; [lia|]. case_match; simpl; lia. Qed.

Lemma remove_locks_inv locks remove :
  lock_inv locks → lock_inv (remove_locks locks remove).2.
Proof.
  intros [Hl Hb Hu Hx]. unfold remove_locks. simpl.
  set (kept := List.filter _ _).
  assert (∀ r, r ∈ kept → r ∈ locks) as Hs by (intros r [? _]%elem_of_filter_list; done).
  split.
  - rewrite Forall_forall in *. auto.
  - subst kept. unfold zlen in *. pose proof (length_filter_le' (λ r, negb (remove r)) locks). lia.
  - intros ? ? ? ? H1 H2. eapply Hu; eauto using holds_mono.
  - intros ? ? ? ? ? ? ? ? ? H1 H2. eapply Hx; eauto using holds_mono.
Qed.

Lemma filter_same_length {A} (f : A → bool) l :
  length (List.filter f l) = length l → List.filter f l = l.
Proof.
  induction l as [|x l IH]; simpl; [done|].
  case_match; simpl; intros Hlen.
  - f_equal. apply IH. lia.
  - pose proof (length_filter_le' f l). lia.
Qed.

(** When [remove_locks] reports no change, the table did not change. *)
Lemma remove_locks_unchanged locks remove :
  (remove_locks locks remove).1 = false → (remove_locks locks remove).2 = locks.
Proof.
  unfold remove_locks. simpl. intros. bool_simpl. apply filter_same_length.
  unfold zlen in *. lia.
Qed.

(** * Properties *)

(** C24: Setting or clearing a range of one owner ([replace_owner_range], with
    its splitting, sorting and merging of records) changes exactly the bytes
    of that range for exactly that owner: the table refines the per-byte
    specification [abs_set]. *)
Theorem replace_owner_range_refines locks id s req insert locks' :
  lock_inv locks → wf_lock req →
  (insert = true → FileLock.kind req ≠ LockKind.Unlock) →
  replace_owner_range locks id s req insert = Ok locks' →
  ∀ key b, lock_at locks' key b =
    abs_set (lock_at locks) (id, s, FileLock.owner req)
      (FileLock.start req) (FileLock.end_ req)
      (if insert then Some (FileLock.kind req, FileLock.pid req) else None) key b.
Proof. intros [Hl _ Hu _]. by apply replace_owner_range_lock_at. Qed.

(** C36: Every way the server changes the lock table (a granted lock, an
    unlock, and removal by flush, close or the end of a session) preserves the
    table invariant: at most [MAX_LOCK_RECORDS] well-formed records, one lock
    per owner and byte, and no byte on which two owners hold locks unless both
    are read locks. *)
Theorem lock_table_invariant locks :
  lock_inv locks →
  (∀ id s req locks', wf_lock req →
     set_lock_attempt locks id s req = Updated locks' → lock_inv locks') ∧
  (∀ remove, lock_inv (remove_locks locks remove).2).
Proof.
  intros Hinv. split.
  - intros id s req locks' Hreq. by apply set_lock_attempt_inv.
  - intros remove. by apply remove_locks_inv.
Qed.

(** A lock request is refused with a conflict exactly when it is not an
    unlock and some byte of its range is held by another owner with a write
    lock on either side. *)
Theorem set_lock_blocked_iff locks id s req :
  lock_inv locks → wf_lock req →
  set_lock_attempt locks id s req = Blocked ↔
  FileLock.kind req ≠ LockKind.Unlock ∧
  ∃ s' o' b kind pid, (s', o') ≠ (s, FileLock.owner req) ∧
    FileLock.start req ≤ b ≤ FileLock.end_ req ∧
    lock_at locks (id, s', o') b = Some (kind, pid) ∧
    (kind = LockKind.Write ∨ FileLock.kind req = LockKind.Write).
Proof.
  intros [Hl _ Hu _] Hreq.
  assert (set_lock_attempt locks id s req = Blocked ↔
    FileLock.kind req ≠ LockKind.Unlock ∧ first_conflict locks id s req ≠ None) as ->.
  { unfold set_lock_attempt.
    destruct (decide (FileLock.kind req = LockKind.Unlock)).
    - rewrite bool_decide_true by done. case_match; naive_solver.
    - rewrite bool_decide_false by done. case_match; [naive_solver|].
      case_match; naive_solver. }
  apply and_iff_compat_l. split.
  - intros Hc. destruct (first_conflict locks id s req) as [r|] eqn:E; [|done].
    unfold first_conflict in E. apply min_by_key_Some in E as [[Hr Hcf]%elem_of_filter_list _].
    apply conflicts_with_spec in Hcf as (Hid & Hne & Ho & Hw).
    rewrite Forall_forall in Hl. destruct (Hl r Hr) as [[? ?] _].
    destruct Hreq as [? ?].
    exists (LockRecord.session r), (FileLock.owner (LockRecord.lock r)),
      (Z.max (FileLock.start (LockRecord.lock r)) (FileLock.start req)),
      (FileLock.kind (LockRecord.lock r)), (FileLock.pid (LockRecord.lock r)).
    split_and!; [done|lia|lia| |done].
    rewrite lock_at_holds by done. exists r. split; [done|].
    unfold rec_holds, lock_key, covers. rewrite Hid. split_and!; try done; lia.
  - intros (s' & o' & b & kind & pid & Hne & Hb & Hat & Hw) Hc.
    rewrite lock_at_holds in Hat by done. destruct Hat as (r & Hr & Hk & Hv & Hcov).
    rewrite first_conflict_None in Hc. specialize (Hc r Hr).
    apply not_true_iff_false in Hc. apply Hc. apply conflicts_with_spec.
    unfold lock_key, lock_value, covers in *. simplify_eq. split_and!; try done; lia.
Qed.

(** The lock reported by [get_lock] ([first_conflict]) is one of the
    conflicting records and no conflicting record starts before it; nothing is
    reported exactly when no record conflicts. *)
Theorem first_conflict_least locks id s req :
  match first_conflict locks id s req with
  | Some r => r ∈ locks ∧ conflicts_with id s req r = true ∧
      ∀ r', r' ∈ locks → conflicts_with id s req r' = true →
        FileLock.start (LockRecord.lock r) ≤ FileLock.start (LockRecord.lock r')
  | None => ∀ r, r ∈ locks → conflicts_with id s req r = false
  end.
Proof.
  destruct (first_conflict locks id s req) as [r|] eqn:E.
  - unfold first_conflict in E. apply min_by_key_Some in E as [Hr Hmin].
    apply elem_of_filter_list in Hr as [? ?]. split_and!; [done..|].
    intros r' ? ?. apply Hmin. by apply elem_of_filter_list.
  - by apply first_conflict_None.
Qed.

(** The invariant of the waiting protocol. *)
Record lock_sys_inv (y : LockSystem) : Prop := {
  sys_table : lock_inv (sys_locks y);
  sys_requests : ∀ wid w, sys_waiters y !! wid = Some w → wf_lock (Waiter.request w);
  sys_generations : ∀ wid w g, sys_waiters y !! wid = Some w →
    (Waiter.phase w = Armed g ∨ Waiter.phase w = Asleep g) → (g ≤ sys_generation y)%nat;
  sys_asleep : ∀ wid w g, sys_waiters y !! wid = Some w → Waiter.phase w = Asleep g →
    g = sys_generation y → sys_pending y = 0%nat →
    waiter_attempt (sys_locks y) w = Blocked
}.

Lemma lock_sys_inv_waiters locks gen pend ws ws' :
  (∀ wid w, ws' !! wid = Some w → ws !! wid = Some w) →
  lock_sys_inv (MkLockSystem locks gen pend ws) →
  lock_sys_inv (MkLockSystem locks gen pend ws').
Proof. intros Hsub [? ? ? ?]; split; simpl in *; eauto. Qed.

Lemma lock_sys_inv_insert locks gen pend ws wid w :
  lock_sys_inv (MkLockSystem locks gen pend ws) →
  wf_lock (Waiter.request w) →
  (∀ g, Waiter.phase w = Armed g ∨ Waiter.phase w = Asleep g → (g ≤ gen)%nat) →
  (∀ g, Waiter.phase w = Asleep g → waiter_attempt locks w = Blocked) →
  lock_sys_inv (MkLockSystem locks gen pend (<[wid := w]> ws)).
Proof.
  intros [H1 H2 H3 H4] Hr Hg Ha. split; simpl in *; [done| | |].
  - intros wid' w'. rewrite lookup_insert_Some. naive_solver.
  - intros wid' w' g'. rewrite lookup_insert_Some. naive_solver.
  - intros wid' w' g'. rewrite lookup_insert_Some. naive_solver.
Qed.

Lemma lock_sys_inv_changed locks gen pend ws locks' :
  lock_inv locks' → lock_sys_inv (MkLockSystem locks gen pend ws) →
  lock_sys_inv (MkLockSystem locks' gen (S pend) ws).
Proof. intros Hl [? ? ? ?]; split; simpl in *; eauto. done. Qed.

Lemma delete_sub {A} (ws : gmap nat A) wid i w :
  delete wid ws !! i = Some w → ws !! i = Some w.
Proof. by intros [_ ?]%lookup_delete_Some. Qed.

Lemma lock_step_inv y y' : lock_step y y' → lock_sys_inv y → lock_sys_inv y'.
Proof.
  destruct 1 as [ | |locks gen pend ws wid|locks gen pend ws wid| | |
    |locks gen pend ws rm ch kept Hrm|]; intros Hinv; pose proof Hinv as [Ht Hq Hg Ha]; simpl in *.
  - apply lock_sys_inv_insert; naive_solver.
  - eapply lock_sys_inv_waiters; [apply delete_sub|].
    apply lock_sys_inv_changed with locks; [|done].
    eapply set_lock_attempt_inv; [exact Ht| |done]. eauto.
  - eapply lock_sys_inv_waiters; [apply delete_sub|done].
  - eapply lock_sys_inv_waiters; [apply delete_sub|done].
  - apply lock_sys_inv_insert; simpl; [done|eauto| |done].
    intros g' [?|?]; simplify_eq. eauto.
  - apply lock_sys_inv_insert; simpl; [done|eauto| |done].
    intros g' [?|?]; by simplify_eq.
  - eapply lock_sys_inv_waiters; [apply delete_sub|done].
  - destruct ch.
    + apply lock_sys_inv_changed with locks; [|done].
      pose proof (remove_locks_inv locks rm Ht) as Hk. by rewrite Hrm in Hk.
    + pose proof (remove_locks_unchanged locks rm) as Hk. rewrite Hrm in Hk. simpl in Hk.
      by rewrite Hk.
  - split; simpl; [done|done| |].
    + intros wid w g Hw Hp. specialize (Hg wid w g Hw Hp). lia.
    + intros wid w g Hw Hp -> _. specialize (Hg wid w (S gen) Hw (or_intror Hp)). lia.
Qed.

Lemma lock_reachable_inv y : rtc lock_step lock_system_init y → lock_sys_inv y.
Proof.
  assert (lock_sys_inv lock_system_init) as Hinit by (split; simpl; [apply lock_inv_nil|set_solver..]).
  intros Hr. revert Hinit. induction Hr as [y|y y' y'' Hs _ IH]; [done|].
  intros Hinv. apply IH. by apply (lock_step_inv y).
Qed.

(** C25: No wake-up is lost.  In every state reachable by any interleaving of
    lock requests, unlocks, removals, cancellations and notifications, a
    [set_lock] call that sleeps on a notification that has not been sent, with
    no notification outstanding, really is blocked by the current table; and
    the table always satisfies its invariant. *)
Theorem no_lost_wakeup y :
  rtc lock_step lock_system_init y →
  lock_inv (sys_locks y) ∧
  ∀ wid w g, sys_waiters y !! wid = Some w → Waiter.phase w = Asleep g →
    (sys_generation y ≤ g)%nat → sys_pending y = 0%nat →
    set_lock_attempt (sys_locks y) (Waiter.identity w) (Waiter.session w)
      (Waiter.request w) = Blocked.
Proof.
  intros [Ht _ Hg Ha]%lock_reachable_inv. split; [done|].
  intros wid w g Hw Hp Hle Hpend. apply (Ha wid w g); [done..| |done].
  specialize (Hg wid w g Hw (or_intror Hp)). lia.
Qed.

(** * Witnesses *)

Definition ex_id : FileIdentity := MkIdentity 1 2.
Definition ex_write : FileLock := FileLock.Mk 1 0 100 LockKind.Write 40.
Definition ex_unlock : FileLock := FileLock.Mk 1 10 20 LockKind.Unlock 40.
Definition ex_read : FileLock := FileLock.Mk 9 50 60 LockKind.Read 41.
Definition ex_table : list LockRecord := [LockRecord.Mk ex_id 7 ex_write].
Definition ex_split : list LockRecord :=
  [LockRecord.Mk ex_id 7 (FileLock.Mk 1 0 9 LockKind.Write 40);
   LockRecord.Mk ex_id 7 (FileLock.Mk 1 21 100 LockKind.Write 40)].

Lemma ex_table_inv : lock_inv ex_table.
Proof.
  apply (set_lock_attempt_inv [] ex_id 7 ex_write ex_table lock_inv_nil).
  - unfold wf_lock, u64_max. simpl. lia.
  - by vm_compute.
Qed.

Lemma replace_owner_range_refines_witness :
  replace_owner_range ex_table ex_id 7 ex_unlock false = Ok ex_split ∧
  lock_at ex_split (ex_id, 7, 1) 15 = None ∧
  lock_at ex_split (ex_id, 7, 1) 9 = Some (LockKind.Write, 40).
Proof.
  assert (replace_owner_range ex_table ex_id 7 ex_unlock false = Ok ex_split) as E
    by (by vm_compute).
  pose proof (replace_owner_range_refines ex_table ex_id 7 ex_unlock false ex_split
    ex_table_inv) as H.
  split; [exact E|].
  rewrite !H; [by vm_compute|unfold wf_lock, u64_max; simpl; lia|discriminate|exact E
    |unfold wf_lock, u64_max; simpl; lia|discriminate|exact E].
Defined.

Lemma lock_table_invariant_witness :
  lock_inv (remove_locks ex_table (λ r, LockRecord.session r =? 7)).2 ∧ lock_inv ex_split.
Proof.
  destruct (lock_table_invariant ex_table ex_table_inv) as [Hset Hrm].
  split; [apply Hrm|].
  apply (Hset ex_id 7 ex_unlock); [unfold wf_lock, u64_max; simpl; lia|by vm_compute].
Defined.

Lemma set_lock_blocked_iff_witness :
  set_lock_attempt ex_table ex_id 8 ex_read = Blocked.
Proof.
  apply (set_lock_blocked_iff ex_table ex_id 8 ex_read ex_table_inv).
  - unfold wf_lock, u64_max; simpl; lia.
  - split; [discriminate|]. exists 7, 1, 55, LockKind.Write, 40.
    split_and!; [discriminate|simpl; lia|simpl; lia|by vm_compute|by left].
Defined.

(** One session holds a write lock, another one asks for an overlapping read
    lock and goes to sleep: the sleeping call is indeed blocked. *)
Lemma no_lost_wakeup_witness :
  ∃ y w, rtc lock_step lock_system_init y ∧ sys_waiters y !! 1%nat = Some w ∧
    Waiter.phase w = Asleep 1 ∧ sys_generation y = 1%nat ∧
    set_lock_attempt (sys_locks y) (Waiter.identity w) (Waiter.session w)
      (Waiter.request w) = Blocked.
Proof.
  assert (∀ l, l = ex_write ∨ l = ex_read → wf_lock l) as Hwf
    by (intros l [->| ->]; unfold wf_lock, u64_max; simpl; lia).
  set (w0 := Waiter.Mk ex_id 7 ex_write true (Armed 0)).
  set (w1 := Waiter.Mk ex_id 8 ex_read true (Armed 1)).
  set (w2 := set_phase w1 (Asleep 1)).
  set (ws := <[1%nat := w1]> (delete 0%nat (<[0%nat := w0]> ∅)) : gmap nat Waiter).
  assert (rtc lock_step lock_system_init (MkLockSystem ex_table 1 0 (<[1%nat := w2]> ws))) as Hr.
  { eapply rtc_l.
    { apply (step_arrive [] 0 0 ∅ 0 ex_id 7 ex_write true); [done|done|auto]. }
    eapply rtc_l.
    { apply (step_granted [] 0 0 _ 0 w0 0 ex_table); [done|done|by vm_compute]. }
    eapply rtc_l; [apply step_notify|].
    eapply rtc_l.
    { apply (step_arrive ex_table 1 0 _ 1 ex_id 8 ex_read true); [done|done|auto]. }
    eapply rtc_l; [|apply rtc_refl].
    apply (step_sleep ex_table 1 0 ws 1 w1 1); [done|done|done|by vm_compute]. }
  exists (MkLockSystem ex_table 1 0 (<[1%nat := w2]> ws)), w2. split_and!; [done|done|done|done|].
  destruct (no_lost_wakeup _ Hr) as [_ Hn]. by apply (Hn 1%nat w2 1%nat).
Defined.
