(* ===== verification/Registry.v ===== *)
(** The node registry of an export ([crates/server-core/src/lib.rs]): stable
    node identifiers, the paths under which an inode is known, the bounded
    working sets of the export and of one connection (counting semaphores and
    eviction), and the registry updates of removal and rename. *)

From S2P Require Import Prelude Protocol Common Locks.

(** * Paths *)

(** [Path::strip_prefix] on component lists. *)
Fixpoint path_strip_prefix (prefix path : list Name) : option (list Name) :=
  match prefix, path with
  | [], _ => Some path
  | p :: prefix', x :: path' =>
      if bool_decide (p = x) then path_strip_prefix prefix' path' else None
  | _ :: _, [] => None
  end.

Definition is_path_or_descendant (candidate prefix : list Name) : bool :=
  bool_decide (candidate = prefix) ||
  match path_strip_prefix prefix candidate with Some _ => true | None => false end.

Definition replace_prefix (path old new : list Name) : list Name :=
  match path_strip_prefix old path with
  | Some suffix => new ++ suffix
  | None => path
  end.

(** [Ord for Path]: lexicographic by component. *)
Fixpoint path_cmp (a b : list Name) : comparison :=
  match a, b with
  | [], [] => Eq
  | [], _ :: _ => Lt
  | _ :: _, [] => Gt
  | x :: a', y :: b' => match bytes_cmp x y with Eq => path_cmp a' b' | c => c end
  end.

(** [BTreeSet<PathBuf>]: an ordered list without duplicates. *)
Fixpoint pathset_insert (p : list Name) (s : list (list Name)) : list (list Name) :=
  match s with
  | [] => [p]
  | q :: s' =>
      match path_cmp p q with
      | Eq => s
      | Lt => p :: s
      | Gt => q :: pathset_insert p s'
      end
  end.
Definition pathset_collect (l : list (list Name)) : list (list Name) :=
  fold_left (λ s p, pathset_insert p s) l [].

(** * State *)

Definition MAX_FORGET_NODES : Z := 65536.
Definition usize_max : Z := u64_max.

Module KnownNode.
Record KnownNode := Mk {
  identity : FileIdentity;
  paths : list (list Name);
  session_references : Z;
  global_permit : bool
}.
End KnownNode.
Abbreviation KnownNode := KnownNode.KnownNode.

Module NodeSnapshot.
Record NodeSnapshot := Mk { identity : FileIdentity; paths : list (list Name) }.
End NodeSnapshot.
Abbreviation NodeSnapshot := NodeSnapshot.NodeSnapshot.

(** An open file; [file] names the host descriptor. *)
Module OpenFile.
Record OpenFile := Mk {
  file : Z;
  node : NodeId;
  identity : FileIdentity;
  access : FileAccess;
  append : bool
}.
End OpenFile.
Abbreviation OpenFile := OpenFile.OpenFile.

(** The shared registry ([NodeRegistry] and [ExportShared::node_permits]). *)
Record NodeRegistry := MkNodeRegistry {
  by_node : gmap NodeId KnownNode;
  by_identity : gmap FileIdentity NodeId;
  node_permits : Z
}.

(** The registry part of a session ([ExportSession::known_nodes] with whether
    the entry holds a permit, [ExportSession::node_permits] and the handles). *)
Record SessionNodes := MkSessionNodes {
  known_nodes : gmap NodeId bool;
  session_permits : Z;
  handles : gmap FileHandle OpenFile
}.

Record RegState := MkRegState { registry : NodeRegistry; session_nodes : SessionNodes }.

Definition RM (A : Type) : Type := SM RegState ServerError A.

Definition upd_registry (f : NodeRegistry → NodeRegistry) (s : RegState) : RegState :=
  MkRegState (f (registry s)) (session_nodes s).
Definition upd_session (f : SessionNodes → SessionNodes) (s : RegState) : RegState :=
  MkRegState (registry s) (f (session_nodes s)).
Definition set_by_node (m : gmap NodeId KnownNode) (r : NodeRegistry) : NodeRegistry :=
  MkNodeRegistry m (by_identity r) (node_permits r).
Definition add_node_permits (d : Z) (r : NodeRegistry) : NodeRegistry :=
  MkNodeRegistry (by_node r) (by_identity r) (node_permits r + d).
Definition set_known (m : gmap NodeId bool) (s : SessionNodes) : SessionNodes :=
  MkSessionNodes m (session_permits s) (handles s).
Definition add_session_permits (d : Z) (s : SessionNodes) : SessionNodes :=
  MkSessionNodes (known_nodes s) (session_permits s + d) (handles s).

(** [Export::new_with_optional_state]: the registry of a fresh export. *)
Definition registry_new (limits : Limits) (root_identity : FileIdentity) : NodeRegistry :=
  MkNodeRegistry
    {[ROOT_NODE := KnownNode.Mk root_identity [[]] usize_max false]}
    {[root_identity := ROOT_NODE]}
    (u64_saturating_sub (Limits.max_total_known_nodes limits) 1).

(** [Export::session_with_writes]: the working set of a fresh session. *)
Definition session_nodes_new (limits : Limits) : SessionNodes :=
  MkSessionNodes {[ROOT_NODE := false]}
    (u64_saturating_sub (Limits.max_known_nodes limits) 1) ∅.

(** Dropping an [OwnedSemaphorePermit]. *)
Definition drop_session_permit : RM unit := sm_modify (upd_session (add_session_permits 1)).
Definition drop_global_permit : RM unit := sm_modify (upd_registry (add_node_permits 1)).

(** Removing an entry of [by_node] and of [by_identity]; the [KnownNode] is
    dropped with its permit. *)
Definition registry_remove (r : NodeRegistry) (e : NodeId * FileIdentity) : NodeRegistry :=
  let permit :=
    match by_node r !! e.1 with
    | Some known => Z.b2z (KnownNode.global_permit known)
    | None => 0
    end in
  MkNodeRegistry (delete e.1 (by_node r)) (delete e.2 (by_identity r))
    (node_permits r + permit).

(** [known.remove(&node)] on the session map: the entry is dropped with its permit. *)
Definition session_remove (node : NodeId) (s : SessionNodes) : SessionNodes :=
  match known_nodes s !! node with
  | Some permit =>
      MkSessionNodes (delete node (known_nodes s))
        (session_permits s + Z.b2z permit) (handles s)
  | None => s
  end.

Section operations.
(** The iteration order of a [HashMap] with these keys. *)
Context (hash_order : gset NodeId → list NodeId).
(** [stable_node_id] of this export's key (a keyed SHA-256 digest). *)
Context (stable_node_id : FileIdentity → NodeId).

(** * Working sets *)

Definition pinned_nodes (s : SessionNodes) : list NodeId :=
  (λ e : FileHandle * OpenFile, OpenFile.node e.2) <$> map_to_list (handles s).

Definition evict_unreferenced_session_node : RM bool :=
  s ← sm_gets session_nodes;
  let victim := List.find
    (λ node, negb (bool_decide (node = ROOT_NODE)) &&
             negb (bool_decide (node ∈ pinned_nodes s)))
    (hash_order (dom (known_nodes s))) in
  match victim with
  | None => mret false
  | Some node =>
      _ ← sm_modify (upd_session (session_remove node));
      _ ← sm_modify (upd_registry (λ r,
            match by_node r !! node with
            | Some shared =>
                set_by_node
                  (<[node := KnownNode.Mk (KnownNode.identity shared)
                       (KnownNode.paths shared)
                       (u64_saturating_sub (KnownNode.session_references shared) 1)
                       (KnownNode.global_permit shared)]> (by_node r)) r
            | None => r
            end));
      mret true
  end.

Definition evict_unreferenced_global_node : RM bool :=
  r ← sm_gets registry;
  let candidate := List.find
    (λ node, negb (bool_decide (node = ROOT_NODE)) &&
       match by_node r !! node with
       | Some known => KnownNode.session_references known =? 0
       | None => false
       end)
    (hash_order (dom (by_node r))) in
  match candidate with
  | None => mret false
  | Some node =>
      match by_node r !! node with
      | Some known =>
          _ ← sm_modify (upd_registry (λ r, registry_remove r (node, KnownNode.identity known)));
          mret true
      | None => mret false
      end
  end.

(** The loop of [acquire_session_permit]; the fuel is the number of
    evictions it may make. *)
Fixpoint acquire_session_loop (fuel : nat) : RM unit :=
  s ← sm_gets session_nodes;
  if 0 <? session_permits s then
    sm_modify (upd_session (add_session_permits (-1)))
  else
    evicted ← evict_unreferenced_session_node;
    if (evicted : bool) then
      match fuel with
      | O => sm_err ServerError.TaskFailed
      | S fuel' => acquire_session_loop fuel'
      end
    else sm_err ServerError.TooManyNodes.

Definition acquire_session_permit : RM unit :=
  s ← sm_gets session_nodes;
  acquire_session_loop (size (known_nodes s)).

(** [reserve_node]: one permit of each pool; the session permit is dropped
    when the global pool cannot serve the request. *)
Definition reserve_node : RM unit :=
  _ ← acquire_session_permit;
  r ← sm_gets registry;
  if 0 <? node_permits r then sm_modify (upd_registry (add_node_permits (-1)))
  else
    evicted ← evict_unreferenced_global_node;
    if (evicted : bool) then
      r' ← sm_gets registry;
      if 0 <? node_permits r' then sm_modify (upd_registry (add_node_permits (-1)))
      else (_ ← drop_session_permit; sm_err ServerError.TooManyNodes)
    else (_ ← drop_session_permit; sm_err ServerError.TooManyNodes).

(** * Registering nodes *)

(** [track_node_with_permit] consumes one session permit. *)
Definition track_node_with_permit (node : NodeId) : RM unit :=
  st ← sm_get;
  match known_nodes (session_nodes st) !! node with
  | Some _ => drop_session_permit
  | None =>
      match by_node (registry st) !! node with
      | None => _ ← drop_session_permit; sm_err ServerError.InvalidNode
      | Some shared =>
          match u64_checked_add (KnownNode.session_references shared) 1 with
          | None => _ ← drop_session_permit; sm_err ServerError.StateUnavailable
          | Some references =>
              _ ← sm_modify (upd_registry (λ r,
                    set_by_node
                      (<[node := KnownNode.Mk (KnownNode.identity shared)
                           (KnownNode.paths shared) references
                           (KnownNode.global_permit shared)]> (by_node r)) r));
              sm_modify (upd_session (λ s, set_known (<[node := true]> (known_nodes s)) s))
          end
      end
  end.

Definition track_node (node : NodeId) : RM unit :=
  st ← sm_get;
  match known_nodes (session_nodes st) !! node with
  | Some _ => mret tt
  | None => _ ← acquire_session_permit; track_node_with_permit node
  end.

Definition add_known_path (path : list Name) (known : KnownNode) : KnownNode :=
  KnownNode.Mk (KnownNode.identity known)
    (pathset_insert path (KnownNode.paths known))
    (KnownNode.session_references known) (KnownNode.global_permit known).

(** [remember_reserved] consumes one session and one global permit. *)
Definition remember_reserved (identity : FileIdentity) (path : list Name) : RM NodeId :=
  st ← sm_get;
  let nodes := registry st in
  match by_identity nodes !! identity with
  | Some node =>
      _ ← sm_modify (upd_registry (λ r, set_by_node (alter (add_known_path path) node (by_node r)) r));
      _ ← drop_global_permit;
      _ ← track_node_with_permit node;
      mret node
  | None =>
      let node := stable_node_id identity in
      if bool_decide (node = ROOT_NODE) ||
         match by_node nodes !! node with
         | Some known => negb (bool_decide (KnownNode.identity known = identity))
         | None => false
         end
      then
        _ ← drop_session_permit;
        _ ← drop_global_permit;
        sm_err ServerError.StateUnavailable
      else
        let replaced :=
          match by_node nodes !! node with
          | Some known => Z.b2z (KnownNode.global_permit known)
          | None => 0
          end in
        _ ← sm_modify (upd_registry (λ r,
              MkNodeRegistry
                (<[node := KnownNode.Mk identity [path] 0 true]> (by_node r))
                (<[identity := node]> (by_identity r))
                (node_permits r + replaced)));
        _ ← track_node_with_permit node;
        mret node
  end.

Definition remember (identity : FileIdentity) (path : list Name) : RM NodeId :=
  st ← sm_get;
  match by_identity (registry st) !! identity with
  | Some node =>
      _ ← sm_modify (upd_registry (λ r, set_by_node (alter (add_known_path path) node (by_node r)) r));
      _ ← track_node node;
      mret node
  | None =>
      _ ← reserve_node;
      remember_reserved identity path
  end.

(** * Releasing nodes *)

Definition release_node_reference (node : NodeId) : RM unit :=
  if bool_decide (node = ROOT_NODE) then mret tt
  else
    r ← sm_gets registry;
    match by_node r !! node with
    | Some known =>
        if KnownNode.session_references known >? 0 then
          sm_modify (upd_registry (set_by_node
            (<[node := KnownNode.Mk (KnownNode.identity known) (KnownNode.paths known)
                 (KnownNode.session_references known - 1)
                 (KnownNode.global_permit known)]> (by_node r))))
        else sm_err ServerError.StateUnavailable
    | None => mret tt
    end.

Fixpoint release_all (nodes : list NodeId) : RM unit :=
  match nodes with
  | [] => mret tt
  | node :: nodes' => _ ← release_node_reference node; release_all nodes'
  end.

(** The iterator that removes the requested nodes from the session and keeps
    those that were known. *)
Fixpoint forget_known (requested : list NodeId) : RM (list NodeId) :=
  match requested with
  | [] => mret []
  | node :: requested' =>
      if bool_decide (node = ROOT_NODE) then forget_known requested'
      else
        s ← sm_gets session_nodes;
        match known_nodes s !! node with
        | Some _ =>
            _ ← sm_modify (upd_session (session_remove node));
            released ← forget_known requested';
            mret (node :: released)
        | None => forget_known requested'
        end
  end.

Definition forget_nodes (requested : list NodeId) : RM unit :=
  if zlen requested >? MAX_FORGET_NODES then
    sm_err (ServerError.InvalidRequest (lit "too many nodes in one forget request"))
  else
    released ← forget_known (hash_order (list_to_set requested));
    release_all released.

(** [Drop for ExportSession]: release every node except the root; errors are
    ignored. *)
Fixpoint release_all_ignoring (nodes : list NodeId) : RM unit :=
  match nodes with
  | [] => mret tt
  | node :: nodes' => _ ← sm_try (release_node_reference node); release_all_ignoring nodes'
  end.
Definition drop_session_nodes : RM unit :=
  s ← sm_gets session_nodes;
  let nodes := List.filter (λ n, negb (bool_decide (n = ROOT_NODE)))
                 (hash_order (dom (known_nodes s))) in
  _ ← sm_modify (upd_session (λ s, foldr session_remove s (hash_order (dom (known_nodes s)))));
  release_all_ignoring nodes.

(** * Removal and rename *)

(** Dropping the entries whose last path is gone. *)
Definition drop_pathless (r : NodeRegistry) : NodeRegistry :=
  let empty := omap (λ node,
      match by_node r !! node with
      | Some known =>
          if negb (bool_decide (node = ROOT_NODE)) && bool_decide (KnownNode.paths known = [])
          then Some (node, KnownNode.identity known) else None
      | None => None
      end) (hash_order (dom (by_node r))) in
  fold_left registry_remove empty r.

Definition set_paths (known : KnownNode) (paths : list (list Name)) : KnownNode :=
  KnownNode.Mk (KnownNode.identity known) paths
    (KnownNode.session_references known) (KnownNode.global_permit known).

Definition remove_registry_path (path : list Name) (descendants : bool) : RM unit :=
  sm_modify (upd_registry (λ r,
    drop_pathless (set_by_node
      (map_imap (λ node known,
         Some (if bool_decide (node = ROOT_NODE) then known
               else set_paths known
                 (List.filter (λ candidate,
                    if descendants then negb (is_path_or_descendant candidate path)
                    else negb (bool_decide (candidate = path)))
                   (KnownNode.paths known)))) (by_node r)) r))).

(** The new name of one path under a rename. *)
Definition rename_path (old new : list Name) (mode : RenameMode) (path : list Name)
    : list Name :=
  match mode with
  | RenameMode.Exchange =>
      if is_path_or_descendant path old then replace_prefix path old new
      else if is_path_or_descendant path new then replace_prefix path new old
      else path
  | _ => if is_path_or_descendant path old then replace_prefix path old new else path
  end.

(** A replacing rename takes the target's paths from every other node. *)
Definition drop_replaced (new : list Name) (source_identity : FileIdentity)
    (known : KnownNode) : KnownNode :=
  if bool_decide (KnownNode.identity known = source_identity) then known
  else set_paths known
    (List.filter (λ candidate, negb (is_path_or_descendant candidate new))
       (KnownNode.paths known)).

Definition rename_known (old new : list Name) (mode : RenameMode) (known : KnownNode)
    : KnownNode :=
  set_paths known (pathset_collect (map (rename_path old new mode) (KnownNode.paths known))).

Definition update_registry_after_rename (old new : list Name) (mode : RenameMode)
    (source_identity : FileIdentity) (destination_identity : option FileIdentity) : RM unit :=
  if bool_decide (destination_identity = Some source_identity) then mret tt
  else sm_modify (upd_registry (λ r,
    let m :=
      if bool_decide (mode = RenameMode.Replace)
      then drop_replaced new source_identity <$> by_node r
      else by_node r in
    drop_pathless (set_by_node (rename_known old new mode <$> m) r))).
End operations.

(** * Path sets *)

Lemma pathset_insert_nonempty p s : pathset_insert p s ≠ [].
Proof. destruct s; simpl; [done|]. by case_match. Qed.

Lemma elem_of_pathset_insert p q s : q ∈ s → q ∈ pathset_insert p s.
Proof.
  induction s as [|r s IH]; simpl; [set_solver|].
  intros Hq. case_match; [done|set_solver|].
  apply elem_of_cons in Hq as [->|Hq]; [by left|right; auto].
Qed.

Lemma path_strip_prefix_app p q : path_strip_prefix p (p ++ q) = Some q.
Proof. induction p as [|x p IH]; simpl; [done|]. by rewrite bool_decide_true. Qed.

Lemma path_strip_prefix_Some p l q : path_strip_prefix p l = Some q ↔ l = p ++ q.
Proof.
  split; [|intros ->; apply path_strip_prefix_app].
  revert l. induction p as [|x p IH]; intros [|y l]; simpl; try naive_solver.
  case_bool_decide; [|done]. intros. subst. f_equal. by apply IH.
Qed.

Lemma is_path_or_descendant_spec c p :
  is_path_or_descendant c p = true ↔ ∃ q, c = p ++ q.
Proof.
  unfold is_path_or_descendant. rewrite orb_true_iff, bool_decide_eq_true. split.
  - intros [->|H]; [exists []; by rewrite app_nil_r|].
    case_match eqn:E; [|done]. apply path_strip_prefix_Some in E. eauto.
  - intros [q ->]. right. by rewrite path_strip_prefix_app.
Qed.

Lemma root_not_descendant p : p ≠ [] → is_path_or_descendant [] p = false.
Proof.
  intros Hp. apply not_true_iff_false. rewrite is_path_or_descendant_spec.
  intros [q Hq]. symmetry in Hq. by apply app_nil in Hq as [? _].
Qed.

Lemma rename_path_root old new mode : old ≠ [] → new ≠ [] → rename_path old new mode [] = [].
Proof.
  intros. unfold rename_path. rewrite !root_not_descendant by done. by destruct mode.
Qed.

Lemma elem_of_pathset_insert_self p s : p ∈ pathset_insert p s.
Proof.
  induction s as [|q s IH]; simpl; [set_solver|].
  case_match eqn:E; [|set_solver|set_solver].
  assert (p = q) as ->; [|by left].
  clear IH. revert q E. induction p as [|x p IH]; intros [|y q]; simpl; try done.
  destruct (bytes_cmp x y) eqn:Exy; try done. apply bytes_cmp_eq in Exy as ->.
  intros. f_equal. auto.
Qed.

Lemma elem_of_pathset_collect p l : p ∈ l → p ∈ pathset_collect l.
Proof.
  unfold pathset_collect. generalize ([] : list (list Name)).
  assert (∀ l s, p ∈ s → p ∈ fold_left (λ s p, pathset_insert p s) l s) as Hkeep.
  { clear l. intros l. induction l as [|q l IH]; intros s Hs; simpl; [done|].
    apply IH. by apply elem_of_pathset_insert. }
  induction l as [|q l IH]; intros s; simpl; [by intros ?%not_elem_of_nil|].
  intros [->|Hp]%elem_of_cons; [|by apply IH].
  apply Hkeep, elem_of_pathset_insert_self.
Qed.

Lemma NoDup_omap_fst {A B} (f : A → option (A * B)) l :
  (∀ n e, f n = Some e → e.1 = n) → NoDup l → NoDup (omap f l).*1.
Proof.
  intros Hf. induction 1 as [|n l Hn Hnd IH]; simpl; [constructor|].
  destruct (f n) as [e|] eqn:E; simpl; [|done]. constructor; [|done].
  intros (e' & He & (m & Hml & Hmm)%list_elem_of_omap)%list_elem_of_fmap.
  apply Hf in E. apply Hf in Hmm. congruence.
Qed.

Lemma elem_of_pathset_insert_iff p q s : q ∈ pathset_insert p s ↔ q = p ∨ q ∈ s.
Proof.
  split; [|intros [->|?]; [apply elem_of_pathset_insert_self|by apply elem_of_pathset_insert]].
  induction s as [|r s IH]; simpl; [set_solver|]. case_match; set_solver.
Qed.

Lemma elem_of_pathset_collect_iff p l : p ∈ pathset_collect l ↔ p ∈ l.
Proof.
  split; [|apply elem_of_pathset_collect]. unfold pathset_collect.
  assert (∀ s, p ∈ fold_left (λ s p, pathset_insert p s) l s → p ∈ l ∨ p ∈ s) as H.
  { induction l as [|q l IH]; intros s; simpl; [by right|].
    intros [?|?%elem_of_pathset_insert_iff]%IH; set_solver. }
  intros Hp. destruct (H [] Hp) as [?|Hn]; [done|]. by apply not_elem_of_nil in Hn.
Qed.

(** * Invariants *)

Section invariants.
Context (hash_order : gset NodeId → list NodeId).
Context (stable_node_id : FileIdentity → NodeId).
Context (limits : Limits).
(** A [HashMap] iterates over each of its keys once, in some order. *)
Context (hash_order_perm : ∀ s, hash_order s ≡ₚ elements s).

(** The maps of the registry: [by_node] and [by_identity] are inverse to each
    other, identifiers are the stable ones, and every node but the root holds a
    permit of the export. *)
Record registry_maps (r : NodeRegistry) : Prop := {
  rm_forward : ∀ n k, by_node r !! n = Some k → by_identity r !! KnownNode.identity k = Some n;
  rm_backward : ∀ i n, by_identity r !! i = Some n →
    ∃ k, by_node r !! n = Some k ∧ KnownNode.identity k = i;
  rm_stable : ∀ n k, by_node r !! n = Some k → n ≠ ROOT_NODE →
    n = stable_node_id (KnownNode.identity k) ∧ KnownNode.global_permit k = true;
  rm_root : ∃ k, by_node r !! ROOT_NODE = Some k ∧
    KnownNode.global_permit k = false ∧ [] ∈ KnownNode.paths k
}.

(** Permit accounting of the export with [held] permits outside the registry. *)
Definition global_budget (held : Z) (r : NodeRegistry) : Prop :=
  0 ≤ node_permits r ∧
  node_permits r + Z.of_nat (size (by_node r)) + held = Limits.max_total_known_nodes limits.

Definition registry_paths (r : NodeRegistry) : Prop :=
  ∀ n k, by_node r !! n = Some k → KnownNode.paths k ≠ [].

Record session_ok (held : Z) (s : SessionNodes) : Prop := {
  so_root : known_nodes s !! ROOT_NODE = Some false;
  so_known : ∀ n p, known_nodes s !! n = Some p → n ≠ ROOT_NODE → p = true;
  so_nonneg : 0 ≤ session_permits s;
  so_budget : session_permits s + Z.of_nat (size (known_nodes s)) + held =
    Limits.max_known_nodes limits
}.

(** The registry invariant with [hs] session permits and [hg] export permits
    held by the running operation. *)
Definition reg_inv (hs hg : Z) (st : RegState) : Prop :=
  registry_maps (registry st) ∧ registry_paths (registry st) ∧
  global_budget hg (registry st) ∧ session_ok hs (session_nodes st).

(** ** Local updates *)

Lemma registry_update r n k k' :
  by_node r !! n = Some k →
  KnownNode.identity k' = KnownNode.identity k →
  KnownNode.global_permit k' = KnownNode.global_permit k →
  (n = ROOT_NODE → [] ∈ KnownNode.paths k') →
  registry_maps r → registry_maps (set_by_node (<[n := k']> (by_node r)) r).
Proof.
  intros Hn Hi Hg Hp [Hf Hb Hs (kr & Hr & Hrg & Hrp)]. split; simpl.
  - intros m km. rewrite lookup_insert_Some. intros [[<- <-]|[_ ?]]; [rewrite Hi|]; eauto.
  - intros i m Hm. destruct (Hb i m Hm) as (km & Hkm & <-).
    destruct (decide (n = m)) as [->|].
    + exists k'. rewrite lookup_insert_eq. simplify_eq. by rewrite Hi.
    + exists km. by rewrite lookup_insert_ne.
  - intros m km. rewrite lookup_insert_Some.
    intros [[<- <-]|[_ ?]] Hne; [rewrite Hi, Hg|]; eauto.
  - destruct (decide (n = ROOT_NODE)) as [->|].
    + exists k'. rewrite lookup_insert_eq. simplify_eq. rewrite Hg. auto.
    + exists kr. by rewrite lookup_insert_ne.
Qed.

Lemma registry_update_paths r n k' :
  KnownNode.paths k' ≠ [] → registry_paths r →
  registry_paths (set_by_node (<[n := k']> (by_node r)) r).
Proof.
  intros Hne Hp m km. simpl. rewrite lookup_insert_Some. intros [[<- <-]|[_ ?]]; eauto.
Qed.

Lemma registry_update_budget held r n k k' :
  by_node r !! n = Some k → global_budget held r →
  global_budget held (set_by_node (<[n := k']> (by_node r)) r).
Proof.
  intros Hn [? ?]. split; simpl; [done|]. by rewrite map_size_insert_Some by eauto.
Qed.

(** Changing only the reference count of a node. *)
Lemma reg_inv_references hs hg st n k c :
  reg_inv hs hg st → by_node (registry st) !! n = Some k →
  reg_inv hs hg (upd_registry (set_by_node
    (<[n := KnownNode.Mk (KnownNode.identity k) (KnownNode.paths k) c
              (KnownNode.global_permit k)]> (by_node (registry st)))) st).
Proof.
  intros (Hm & Hp & Hb & Hs) Hn. split_and!; simpl.
  - eapply registry_update; try done. simpl. intros ->.
    destruct Hm as [_ _ _ (kr & ? & ? & ?)]. by simplify_eq.
  - apply registry_update_paths; [simpl; eauto|done].
  - by eapply registry_update_budget.
  - done.
Qed.

(** Adding a path to a node. *)
Lemma reg_inv_add_path hs hg st n path :
  reg_inv hs hg st →
  reg_inv hs hg (upd_registry (λ r, set_by_node (alter (add_known_path path) n (by_node r)) r) st).
Proof.
  intros (Hm & Hp & Hb & Hs).
  destruct (by_node (registry st) !! n) as [k|] eqn:Hn.
  - assert (alter (add_known_path path) n (by_node (registry st)) =
      <[n := add_known_path path k]> (by_node (registry st))) as E.
    { apply map_eq. intros m. destruct (decide (n = m)) as [->|].
      - by rewrite lookup_alter_eq, lookup_insert_eq, Hn.
      - by rewrite lookup_alter_ne, lookup_insert_ne. }
    unfold upd_registry. rewrite E. split_and!; simpl.
    + eapply registry_update; try done. intros ->. simpl. apply elem_of_pathset_insert.
      destruct Hm as [_ _ _ (kr & ? & ? & ?)]. by simplify_eq.
    + apply registry_update_paths; [apply pathset_insert_nonempty|done].
    + by eapply registry_update_budget.
    + done.
  - assert (alter (add_known_path path) n (by_node (registry st)) = by_node (registry st)) as E.
    { apply map_eq. intros m. destruct (decide (n = m)) as [->|].
      - by rewrite lookup_alter_eq, Hn.
      - by rewrite lookup_alter_ne. }
    unfold upd_registry. rewrite E. destruct st as [[] ?]. by split_and!.
Qed.

(** ** Removing entries *)

Lemma registry_remove_maps r n k :
  n ≠ ROOT_NODE → by_node r !! n = Some k →
  registry_maps r → registry_maps (registry_remove r (n, KnownNode.identity k)).
Proof.
  intros Hne Hn [Hf Hb Hs (kr & Hr & Hrg & Hrp)]. split; simpl.
  - intros m km [Hnm Hm]%lookup_delete_Some.
    rewrite lookup_delete_ne; [by apply Hf|].
    intros E. apply Hf in Hm. apply Hf in Hn. rewrite E in Hn. congruence.
  - intros i m [Hi Hm]%lookup_delete_Some. destruct (Hb i m Hm) as (km & Hkm & <-).
    exists km. split; [|done]. rewrite lookup_delete_ne; [done|]. congruence.
  - intros m km [_ Hm]%lookup_delete_Some. by apply Hs.
  - exists kr. by rewrite lookup_delete_ne.
Qed.

Lemma registry_remove_budget held r n k :
  n ≠ ROOT_NODE → by_node r !! n = Some k → registry_maps r →
  global_budget held r → global_budget held (registry_remove r (n, KnownNode.identity k)).
Proof.
  intros Hne Hn [_ _ Hs _] [Hp Hsum]. unfold registry_remove, global_budget. simpl.
  rewrite Hn. destruct (Hs n k Hn Hne) as [_ ->]. simpl.
  rewrite map_size_delete_Some by eauto.
  assert (size (by_node r) ≠ 0%nat) by (rewrite map_size_ne_0_lookup; eauto). lia.
Qed.

Lemma session_remove_ok held s n p :
  known_nodes s !! n = Some p → n ≠ ROOT_NODE → session_ok held s →
  session_ok held (session_remove n s) ∧
  session_permits (session_remove n s) = session_permits s + 1.
Proof.
  intros Hn Hne [Hr Hk Hp Hb]. unfold session_remove. rewrite Hn.
  rewrite (Hk n p Hn Hne). simpl. split; [|done]. split; simpl.
  - by rewrite lookup_delete_ne.
  - intros m q [_ ?]%lookup_delete_Some. by apply Hk.
  - lia.
  - rewrite map_size_delete_Some by eauto.
    assert (size (known_nodes s) ≠ 0%nat) by (rewrite map_size_ne_0_lookup; eauto). lia.
Qed.

Lemma find_hash_Some (f : NodeId → bool) (s : gset NodeId) n :
  List.find f (hash_order s) = Some n → f n = true ∧ n ∈ s.
Proof.
  intros [Hin Hf]%find_some. split; [done|].
  apply list_elem_of_In in Hin. rewrite hash_order_perm in Hin. set_solver.
Qed.

Lemma find_hash_None (f : NodeId → bool) (s : gset NodeId) :
  List.find f (hash_order s) = None → ∀ n, n ∈ s → f n = false.
Proof.
  intros Hn n Hin. apply (find_none _ _ Hn). apply list_elem_of_In.
  rewrite hash_order_perm. set_solver.
Qed.

(** ** The working sets *)

Lemma evict_session_spec hs hg :
  hoare (reg_inv hs hg) (evict_unreferenced_session_node hash_order)
    (λ r st, match r with
             | Ok evicted => reg_inv hs hg st ∧
                 (evicted = true → 0 < session_permits (session_nodes st))
             | Err _ => False
             end).
Proof.
  intros st Hinv. unfold evict_unreferenced_session_node. sm_unfold. simpl.
  destruct (List.find _ _) as [n|] eqn:E; simpl; [|done].
  apply find_hash_Some in E as [Hf Hin]. bool_simpl.
  apply elem_of_dom in Hin as [p Hin].
  destruct Hinv as (Hm & Hp & Hb & Hs).
  destruct (session_remove_ok hs _ _ _ Hin ltac:(done) Hs) as [Hs' Hperm].
  assert (reg_inv hs hg (upd_session (session_remove n) st)) as Hinv' by by split_and!.
  split; [|intros _; rewrite Hperm; destruct Hs; lia].
  unfold upd_registry at 1. simpl.
  destruct (by_node (registry st) !! n) as [k|] eqn:En; [|done].
  by apply (reg_inv_references hs hg (upd_session (session_remove n) st) n k).
Qed.

Lemma take_session hs hg st :
  0 < session_permits (session_nodes st) → reg_inv hs hg st →
  reg_inv (hs + 1) hg (upd_session (add_session_permits (-1)) st).
Proof.
  intros Hpos (Hm & Hp & Hb & [Hr Hk Hn Hbud]). split_and!; try done.
  split; simpl; try done; lia.
Qed.

(** What [acquire_session_permit] promises. *)
Definition acquired (hs hg : Z) (r : result ServerError unit) (st : RegState) : Prop :=
  match r with
  | Ok _ => reg_inv (hs + 1) hg st
  | Err e => reg_inv hs hg st ∧ e = ServerError.TooManyNodes
  end.

Lemma acquire_session_loop_free fuel hs hg :
  hoare (λ st, reg_inv hs hg st ∧ 0 < session_permits (session_nodes st))
    (acquire_session_loop hash_order fuel) (acquired hs hg).
Proof.
  destruct fuel; simpl; apply hoare_gets; intros s; case_match eqn:E; bool_simpl.
  all: try (apply hoare_modify; intros st [[Hinv Hpos] <-]; by apply take_session).
  all: intros st [[_ Hpos] <-]; lia.
Qed.

Lemma acquire_session_loop_spec fuel hs hg :
  hoare (reg_inv hs hg) (acquire_session_loop hash_order (S fuel)) (acquired hs hg).
Proof.
  simpl. apply hoare_gets. intros s. case_match eqn:E; bool_simpl.
  { apply hoare_modify. intros st [Hinv <-]. by apply take_session. }
  eapply hoare_bind; [eapply hoare_conseq; [apply evict_session_spec|by intros st [H _]|]|].
  { intros [?|e] st H; [exact H|done]. }
  intros [|].
  - eapply hoare_conseq; [apply (acquire_session_loop_free fuel)| |done].
    intros st [Hinv Hpos]. auto.
  - apply hoare_err. by intros st [? _].
Qed.

Lemma acquire_session_spec hs hg :
  hoare (reg_inv hs hg) (acquire_session_permit hash_order) (acquired hs hg).
Proof.
  apply hoare_gets. intros s st [Hinv <-].
  assert (size (known_nodes (session_nodes st)) ≠ 0%nat) as Hsize.
  { destruct Hinv as (_ & _ & _ & [Hr _ _ _]). rewrite map_size_ne_0_lookup. eauto. }
  destruct (size (known_nodes (session_nodes st))) as [|n]; [done|].
  by apply acquire_session_loop_spec.
Qed.

Lemma drop_session_spec hs hg :
  hoare (reg_inv (hs + 1) hg) drop_session_permit (λ r st, r = Ok tt ∧ reg_inv hs hg st).
Proof.
  intros st (Hm & Hp & Hb & [Hr Hk Hn Hbud]). split; [done|]. split_and!; try done.
  split; simpl; try done; lia.
Qed.

Lemma drop_global_spec hs hg :
  hoare (reg_inv hs (hg + 1)) drop_global_permit (λ r st, r = Ok tt ∧ reg_inv hs hg st).
Proof.
  intros st (Hm & Hp & [Hn Hb] & Hs). split; [done|]. split_and!; try done.
  - destruct Hm. by split.
  - split; simpl; lia.
Qed.

Lemma take_global hs hg st :
  0 < node_permits (registry st) → reg_inv hs hg st →
  reg_inv hs (hg + 1) (upd_registry (add_node_permits (-1)) st).
Proof.
  intros Hpos (Hm & Hp & [Hn Hb] & Hs). split_and!; try done.
  - destruct Hm. by split.
  - split; simpl; lia.
Qed.

Lemma evict_global_spec hs hg :
  hoare (reg_inv hs hg) (evict_unreferenced_global_node hash_order)
    (λ r st, match r with
             | Ok evicted => reg_inv hs hg st ∧
                 (evicted = true → 0 < node_permits (registry st))
             | Err _ => False
             end).
Proof.
  intros st Hinv. unfold evict_unreferenced_global_node. sm_unfold. simpl.
  destruct (List.find _ _) as [n|] eqn:E; simpl; [|done].
  apply find_hash_Some in E as [Hf Hin]. bool_simpl.
  destruct (by_node (registry st) !! n) as [k|] eqn:Hn; [|done]. simpl.
  destruct Hinv as (Hm & Hp & Hb & Hs). split.
  - split_and!; simpl.
    + by apply registry_remove_maps.
    + intros m km Hkm. simpl in Hkm. apply lookup_delete_Some in Hkm as [_ Hkm].
      by apply (Hp m).
    + by apply registry_remove_budget.
    + done.
  - intros _. rewrite Hn. destruct Hm as [_ _ Hst _].
    destruct (Hst n k Hn) as [_ ->]; [done|]. destruct Hb. simpl. lia.
Qed.

Lemma reserve_node_spec hs hg :
  hoare (reg_inv hs hg) (reserve_node hash_order)
    (λ r st, match r with
             | Ok _ => reg_inv (hs + 1) (hg + 1) st
             | Err e => reg_inv hs hg st ∧ e = ServerError.TooManyNodes
             end).
Proof.
  unfold reserve_node.
  eapply hoare_bind; [eapply hoare_conseq; [apply acquire_session_spec|done|]|].
  { intros [?|e] st H; [exact H|done]. }
  intros []. apply hoare_gets. intros r. case_match eqn:E; bool_simpl.
  { apply hoare_modify. intros st [Hinv <-]. by apply take_global. }
  eapply hoare_bind; [eapply hoare_conseq; [apply evict_global_spec|by intros st [H _]|]|].
  { intros [?|e] st H; [exact H|done]. }
  assert (hoare (λ st, reg_inv (hs + 1) hg st)
    (drop_session_permit ≫= λ _, sm_err ServerError.TooManyNodes : RM unit)
    (λ r st, match r with
             | Ok _ => reg_inv (hs + 1) (hg + 1) st
             | Err e => reg_inv hs hg st ∧ e = ServerError.TooManyNodes
             end)) as Hfail.
  { apply (hoare_bind _ (λ _, reg_inv hs hg)).
    - eapply hoare_conseq; [apply (drop_session_spec hs hg)|done|]. by intros r' st [-> H].
    - intros []. by apply hoare_err. }
  intros [|].
  - apply hoare_gets. intros r'. case_match eqn:E'; bool_simpl.
    + apply hoare_modify. intros st [[Hinv _] <-]. by apply take_global.
    + eapply hoare_conseq; [exact Hfail|by intros st [[? _] _]|done].
  - eapply hoare_conseq; [exact Hfail|by intros st [? _]|done].
Qed.

(** ** Registering and releasing nodes *)

Lemma track_with_permit_spec hs hg node :
  hoare (reg_inv (hs + 1) hg) (track_node_with_permit node)
    (λ r st, reg_inv hs hg st ∧
       (r = Ok tt → is_Some (known_nodes (session_nodes st) !! node))).
Proof.
  intros st Hinv. pose proof (drop_session_spec hs hg st Hinv) as [_ Hdrop].
  unfold track_node_with_permit. sm_unfold. simpl.
  destruct (known_nodes (session_nodes st) !! node) as [p|] eqn:Hk; simpl; [by eauto|].
  destruct (by_node (registry st) !! node) as [k|] eqn:Hn; simpl; [|done].
  destruct (u64_checked_add _ _) as [c|]; simpl; [|done].
  destruct (reg_inv_references _ _ _ _ _ c Hinv Hn) as (Hm & Hp & Hb & [Hr Hkn Hnn Hbud]).
  assert (node ≠ ROOT_NODE) as Hne by (intros ->; simpl in Hr; congruence).
  split; [|intros _; simpl; rewrite lookup_insert_eq; eauto].
  split_and!; try done. simpl in *. split; simpl; [| |done|].
  - by rewrite lookup_insert_ne.
  - intros n p. rewrite lookup_insert_Some. intros [[_ <-]|[_ ?]]; eauto.
  - rewrite map_size_insert_None by done. lia.
Qed.

Lemma track_node_spec hs hg node :
  hoare (reg_inv hs hg) (track_node hash_order node)
    (λ r st, reg_inv hs hg st ∧
       (r = Ok tt → is_Some (known_nodes (session_nodes st) !! node))).
Proof.
  apply hoare_get. intros st0.
  destruct (known_nodes (session_nodes st0) !! node) eqn:E.
  { apply hoare_ret. intros st [? ->]. eauto. }
  eapply hoare_bind; [eapply hoare_conseq; [apply acquire_session_spec|by intros st [H _]|]|].
  { intros [?|e] st H; [exact H|]. by destruct H. }
  intros []. apply track_with_permit_spec.
Qed.

(** Inserting a new node under a permit that was held. *)
Lemma reg_inv_insert hs hg st identity path :
  by_identity (registry st) !! identity = None →
  by_node (registry st) !! stable_node_id identity = None →
  stable_node_id identity ≠ ROOT_NODE →
  reg_inv hs (hg + 1) st →
  reg_inv hs hg (upd_registry (λ r, MkNodeRegistry
    (<[stable_node_id identity := KnownNode.Mk identity [path] 0 true]> (by_node r))
    (<[identity := stable_node_id identity]> (by_identity r)) (node_permits r + 0)) st).
Proof.
  intros Hi Hn Hne ([Hf Hb Hst (kr & Hr & Hrg & Hrp)] & Hp & [Hnn Hbud] & Hs).
  split_and!; [split; simpl| |split; simpl|done].
  - intros n k. rewrite lookup_insert_Some. intros [[<- <-]|[Hne' Hk]]; simpl.
    + apply lookup_insert_eq.
    + apply Hf in Hk. rewrite lookup_insert_ne; [done|]. congruence.
  - intros i n. rewrite lookup_insert_Some. intros [[<- <-]|[Hne' Hin]].
    + eexists. by rewrite lookup_insert_eq.
    + destruct (Hb i n Hin) as (k & Hk & <-). exists k.
      rewrite lookup_insert_ne; [done|]. congruence.
  - intros n k. rewrite lookup_insert_Some. intros [[<- <-]|[_ Hk]]; [done|eauto].
  - exists kr. rewrite lookup_insert_ne; [done|]. congruence.
  - intros n k. simpl. rewrite lookup_insert_Some. intros [[_ <-]|[_ Hk]]; [done|eauto].
  - lia.
  - rewrite map_size_insert_None by done. lia.
Qed.

(** The node a file identity is registered under. *)
Definition node_for (r : NodeRegistry) (identity : FileIdentity) (n : NodeId) : Prop :=
  by_identity r !! identity = Some n ∨
  by_identity r !! identity = None ∧ n = stable_node_id identity.

Lemma remember_reserved_spec hs hg identity path :
  hoare (reg_inv (hs + 1) (hg + 1)) (remember_reserved stable_node_id identity path)
    (λ r st, reg_inv hs hg st ∧
       ∀ n, r = Ok n → is_Some (known_nodes (session_nodes st) !! n)).
Proof.
  assert (∀ n : NodeId, hoare (reg_inv (hs + 1) hg)
    (track_node_with_permit n ≫= λ _, mret n)
    (λ r st, reg_inv hs hg st ∧
       ∀ n', r = Ok n' → is_Some (known_nodes (session_nodes st) !! n'))) as Htrack.
  { intros n. apply (hoare_bind _ (λ _ st, reg_inv hs hg st ∧
      is_Some (known_nodes (session_nodes st) !! n))).
    - eapply hoare_conseq; [apply (track_with_permit_spec hs hg n)|done|].
      intros [[]|e] st [? ?]; auto. by split.
    - intros []. apply hoare_ret. intros st [? ?]. split; [done|]. by intros n' [= <-]. }
  apply hoare_get. intros st0. simpl.
  destruct (by_identity (registry st0) !! identity) as [n|] eqn:Hi.
  - apply (hoare_bind _ (λ _, reg_inv (hs + 1) (hg + 1))).
    { apply hoare_modify. intros st [Hinv _]. by apply reg_inv_add_path. }
    intros []. apply (hoare_bind _ (λ _, reg_inv (hs + 1) hg)).
    { eapply hoare_conseq; [apply drop_global_spec|done|]. by intros r st [-> ?]. }
    intros []. apply Htrack.
  - case_match eqn:Hc.
    + apply (hoare_bind _ (λ _, reg_inv hs (hg + 1))).
      { eapply hoare_conseq; [apply drop_session_spec|by intros st [H _]|]. by intros r st [-> ?]. }
      intros []. apply (hoare_bind _ (λ _, reg_inv hs hg)).
      { eapply hoare_conseq; [apply drop_global_spec|done|]. by intros r st [-> ?]. }
      intros []. by apply hoare_err.
    + bool_simpl. apply (hoare_bind _ (λ _, reg_inv (hs + 1) hg)); [|intros []; apply Htrack].
      apply hoare_modify. intros st [Hinv <-].
      assert (by_node (registry st) !! stable_node_id identity = None) as Hn.
      { destruct (by_node (registry st) !! stable_node_id identity) as [k|] eqn:Ek; [|done].
        bool_simpl. subst. destruct Hinv as ([Hf _ _ _] & _).
        apply Hf in Ek. congruence. }
      rewrite Hn. by apply reg_inv_insert.
Qed.

Lemma remember_spec hs hg identity path :
  hoare (reg_inv hs hg) (remember hash_order stable_node_id identity path)
    (λ r st, reg_inv hs hg st ∧
       ∀ n, r = Ok n → is_Some (known_nodes (session_nodes st) !! n)).
Proof.
  apply hoare_get. intros st0.
  destruct (by_identity (registry st0) !! identity) as [n|] eqn:Hi.
  - apply (hoare_bind _ (λ _, reg_inv hs hg)).
    { apply hoare_modify. intros st [Hinv _]. by apply reg_inv_add_path. }
    intros []. apply (hoare_bind _ (λ _ st, reg_inv hs hg st ∧
      is_Some (known_nodes (session_nodes st) !! n))).
    { eapply hoare_conseq; [apply (track_node_spec hs hg n)|done|].
      intros [[]|e] st [? ?]; auto. split; [done|]. done. }
    intros []. apply hoare_ret. intros st [? ?]. split; [done|]. by intros n' [= <-].
  - eapply hoare_bind; [eapply hoare_conseq; [apply reserve_node_spec|by intros st [H _]|]|].
    { intros [?|e] st H; [exact H|]. by destruct H. }
    intros []. apply remember_reserved_spec.
Qed.

Lemma release_reference_spec hs hg node :
  hoare (reg_inv hs hg) (release_node_reference node) (λ _ st, reg_inv hs hg st).
Proof.
  intros st Hinv. unfold release_node_reference. case_match; [done|].
  sm_unfold. simpl. destruct (by_node (registry st) !! node) as [k|] eqn:Hk; [|done].
  case_match; [|done]. by apply reg_inv_references.
Qed.

Lemma release_all_spec hs hg nodes :
  hoare (reg_inv hs hg) (release_all nodes) (λ _ st, reg_inv hs hg st).
Proof.
  induction nodes as [|n nodes IH]; simpl; [by apply hoare_ret|].
  eapply hoare_bind; [|intros; exact IH].
  eapply hoare_conseq; [apply (release_reference_spec hs hg n)|done|]. by intros [] st.
Qed.

Lemma reg_inv_session_remove hs hg st n p :
  known_nodes (session_nodes st) !! n = Some p → n ≠ ROOT_NODE →
  reg_inv hs hg st → reg_inv hs hg (upd_session (session_remove n) st).
Proof.
  intros Hn Hne (Hm & Hp & Hb & Hs). split_and!; try done.
  by apply (session_remove_ok hs _ _ _ Hn Hne Hs).
Qed.

Lemma forget_known_spec hs hg nodes :
  hoare (reg_inv hs hg) (forget_known nodes)
    (λ r st, reg_inv hs hg st ∧ ∃ released, r = Ok released).
Proof.
  induction nodes as [|n nodes IH]; simpl.
  { apply hoare_ret. eauto. }
  case_match; bool_simpl; [done|].
  apply hoare_gets. intros s. destruct (known_nodes s !! n) as [p|] eqn:Hn.
  - apply (hoare_bind _ (λ _, reg_inv hs hg)).
    { apply hoare_modify. intros st [Hinv <-]. by eapply reg_inv_session_remove. }
    intros []. apply (hoare_bind _ (λ _, reg_inv hs hg)).
    { eapply hoare_conseq; [apply IH|done|]. by intros r st [? [? ->]]. }
    intros released. apply hoare_ret. eauto.
  - eapply hoare_conseq; [apply IH|by intros st [? _]|done].
Qed.

Lemma forget_nodes_spec hs hg nodes :
  hoare (reg_inv hs hg) (forget_nodes hash_order nodes) (λ _ st, reg_inv hs hg st).
Proof.
  unfold forget_nodes. case_match; [by apply hoare_err|].
  apply (hoare_bind _ (λ _, reg_inv hs hg)).
  - eapply hoare_conseq; [apply forget_known_spec|done|]. by intros r st [? [? ->]].
  - intros. apply release_all_spec.
Qed.

(** ** Removal and rename *)

(** Entries that can be dropped from the registry. *)
Definition removable (r : NodeRegistry) (e : NodeId * FileIdentity) : Prop :=
  e.1 ≠ ROOT_NODE ∧ ∃ k, by_node r !! e.1 = Some k ∧ e.2 = KnownNode.identity k.

Lemma registry_remove_all es hg r :
  Forall (removable r) es → NoDup es.*1 → registry_maps r → global_budget hg r →
  registry_maps (fold_left registry_remove es r) ∧
  global_budget hg (fold_left registry_remove es r) ∧
  ∀ n k, by_node (fold_left registry_remove es r) !! n = Some k →
    by_node r !! n = Some k ∧ n ∉ es.*1.
Proof.
  revert r. induction es as [|[n i] es IH]; intros r Hes Hnd Hm Hb; simpl.
  { split_and!; [done..|]. intros. split; [done|]. apply not_elem_of_nil. }
  inversion Hes as [|? ? (Hne & k & Hk & Hi) Hes']; subst. simpl in *. subst i.
  apply NoDup_cons in Hnd as [Hnin Hnd].
  destruct (IH (registry_remove r (n, KnownNode.identity k))) as (Hm' & Hb' & Hl).
  - rewrite Forall_forall in *. intros e He. destruct (Hes' e He) as (? & k' & Hk' & ?).
    split; [done|]. exists k'. simpl. rewrite lookup_delete_ne; [done|].
    intros E. apply Hnin. rewrite E. by apply list_elem_of_fmap_2.
  - done.
  - by apply registry_remove_maps.
  - by apply registry_remove_budget.
  - split_and!; [done..|]. intros m km Hkm. destruct (Hl m km Hkm) as [Hkm' ?].
    simpl in Hkm'. apply lookup_delete_Some in Hkm' as [? ?].
    split; [done|]. rewrite not_elem_of_cons. auto.
Qed.

Lemma drop_pathless_spec hg r :
  registry_maps r → global_budget hg r →
  registry_maps (drop_pathless hash_order r) ∧
  registry_paths (drop_pathless hash_order r) ∧
  global_budget hg (drop_pathless hash_order r).
Proof.
  intros Hm Hb. unfold drop_pathless. set (es := omap _ _).
  assert (∀ e, e ∈ es ↔ e.1 ≠ ROOT_NODE ∧ ∃ k, by_node r !! e.1 = Some k ∧
    KnownNode.paths k = [] ∧ e.2 = KnownNode.identity k) as Hes.
  { intros [n i]. subst es. rewrite list_elem_of_omap. simpl. split.
    - intros (m & Hin & Hm'). repeat case_match; bool_simpl; simplify_eq. eauto.
    - intros (Hne & k & Hk & Hp & ->). exists n. rewrite Hk. split.
      + rewrite hash_order_perm. apply elem_of_elements, elem_of_dom. eauto.
      + by rewrite bool_decide_false, bool_decide_true. }
  destruct (registry_remove_all es hg r) as (Hm' & Hb' & Hl); [| |done|done|].
  - apply Forall_forall. intros e (? & k & ? & ? & ?)%Hes. split; eauto.
  - assert (NoDup (hash_order (dom (by_node r)))) as Hnd
      by (rewrite hash_order_perm; apply NoDup_elements).
    subst es. apply NoDup_omap_fst; [|done].
    intros n e. repeat case_match; intros; by simplify_eq.
  - split_and!; [done| |done]. intros n k Hk Hp. destruct (Hl n k Hk) as [Hk' Hn].
    apply Hn. apply list_elem_of_fmap. exists (n, KnownNode.identity k). split; [done|].
    apply Hes. simpl. split; [|eauto]. intros ->.
    destruct Hm as [_ _ _ (kr & Hr & _ & Hin)]. simplify_eq. rewrite Hp in Hin.
    by apply not_elem_of_nil in Hin.
Qed.

(** A map update that only changes the paths of the nodes. *)
Lemma registry_map_paths hg r m (f : NodeId → KnownNode → list (list Name)) :
  (∀ n, m !! n = (λ k, set_paths k (f n k)) <$> by_node r !! n) →
  (∀ k, [] ∈ KnownNode.paths k → [] ∈ f ROOT_NODE k) →
  registry_maps r → global_budget hg r →
  registry_maps (set_by_node m r) ∧ global_budget hg (set_by_node m r).
Proof.
  intros Hm Hroot [Hf Hb Hs (kr & Hr & Hrg & Hrp)] [Hn Hbud].
  split; [split; simpl|split; simpl; [done|]].
  - intros n k. rewrite Hm, fmap_Some. intros (k0 & Hk & ->). simpl. by apply Hf.
  - intros i n Hi. destruct (Hb i n Hi) as (k & Hk & <-).
    exists (set_paths k (f n k)). by rewrite Hm, Hk.
  - intros n k. rewrite Hm, fmap_Some. intros (k0 & Hk & ->) Hne. simpl. by apply Hs.
  - exists (set_paths kr (f ROOT_NODE kr)). rewrite Hm, Hr. split_and!; [done..|]. by apply Hroot.
  - assert (dom m = dom (by_node r)) as Hdom.
    { apply set_eq. intros n. rewrite !elem_of_dom, Hm. by rewrite fmap_is_Some. }
    rewrite <- (size_dom m), Hdom, size_dom. done.
Qed.

Lemma remove_registry_path_spec hs hg path descendants :
  hoare (reg_inv hs hg) (remove_registry_path hash_order path descendants)
    (λ _ st, reg_inv hs hg st).
Proof.
  apply hoare_modify. intros st (Hm & Hp & Hb & Hs).
  set (r := registry st) in *.
  unfold upd_registry. fold r. set (m := map_imap (B := KnownNode) _ (by_node r)).
  destruct (registry_map_paths hg r m (λ n known,
    if bool_decide (n = ROOT_NODE) then KnownNode.paths known
    else List.filter (λ candidate,
           if descendants then negb (is_path_or_descendant candidate path)
           else negb (bool_decide (candidate = path))) (KnownNode.paths known)))
    as [Hm' Hb']; [| |done|done|].
  - intros n. subst m. rewrite map_lookup_imap.
    destruct (by_node r !! n) as [[? ? ? ?]|]; simpl; [|done]. by case_bool_decide.
  - intros k Hk. by rewrite bool_decide_true.
  - destruct (drop_pathless_spec hg _ Hm' Hb') as (? & ? & ?). by split_and!.
Qed.

Lemma update_after_rename_spec hs hg old new mode source destination :
  old ≠ [] → new ≠ [] →
  hoare (reg_inv hs hg)
    (update_registry_after_rename hash_order old new mode source destination)
    (λ _ st, reg_inv hs hg st).
Proof.
  intros Hold Hnew. unfold update_registry_after_rename. case_match; [by apply hoare_ret|].
  apply hoare_modify. intros st (Hm & Hp & Hb & Hs).
  set (r := registry st) in *. unfold upd_registry. fold r. cbv zeta.
  set (keep := λ known : KnownNode,
    if bool_decide (mode = RenameMode.Replace)
    then KnownNode.paths (drop_replaced new source known) else KnownNode.paths known).
  destruct (registry_map_paths hg r
    (rename_known old new mode <$>
      (if bool_decide (mode = RenameMode.Replace)
       then drop_replaced new source <$> by_node r else by_node r))
    (λ _ known, pathset_collect (map (rename_path old new mode) (keep known))))
    as [Hm' Hb']; [| |done|done|].
  - intros n. rewrite lookup_fmap.
    subst keep. simpl. unfold rename_known, drop_replaced.
    repeat case_bool_decide; try rewrite lookup_fmap;
      destruct (by_node r !! n); simpl; try done; by case_bool_decide.
  - intros k Hk. apply elem_of_pathset_collect.
    rewrite <- (rename_path_root old new mode Hold Hnew).
    apply (list_elem_of_fmap_2 (rename_path old new mode)).
    subst keep. unfold drop_replaced. simpl. repeat case_bool_decide; try done.
    simpl. apply elem_of_filter_list. split; [done|]. by rewrite root_not_descendant.
  - destruct (drop_pathless_spec hg _ Hm' Hb') as (? & ? & ?). by split_and!.
Qed.

Lemma reg_inv_bounds st :
  reg_inv 0 0 st →
  Z.of_nat (size (by_node (registry st))) ≤ Limits.max_total_known_nodes limits ∧
  Z.of_nat (size (known_nodes (session_nodes st))) ≤ Limits.max_known_nodes limits.
Proof. intros (_ & _ & [? ?] & [_ _ ? ?]). lia. Qed.
End invariants.

(** * What the registry promises *)

Section promises.
Context (hash_order : gset NodeId → list NodeId).
Context (stable_node_id : FileIdentity → NodeId).
Context (limits : Limits).
Context (hash_order_perm : ∀ s, hash_order s ≡ₚ elements s).

Abbreviation reg_inv := (reg_inv stable_node_id limits).

Lemma registered_stable hs hg st identity n :
  reg_inv hs hg st → by_identity (registry st) !! identity = Some n →
  n = stable_node_id identity ∨ n = ROOT_NODE.
Proof.
  intros ([_ Hb Hs _] & _) Hi. destruct (Hb _ _ Hi) as (k & Hk & <-).
  destruct (decide (n = ROOT_NODE)); [by right|]. left. by apply Hs.
Qed.

Lemma remember_reserved_id hs hg st identity path n :
  reg_inv hs hg st → (remember_reserved stable_node_id identity path st).1 = Ok n →
  n = stable_node_id identity ∨ n = ROOT_NODE.
Proof.
  intros Hinv. unfold remember_reserved. unfold mbind, sm_bind at 1, sm_get at 1.
  destruct (by_identity (registry st) !! identity) as [m|] eqn:Hi.
  - unfold sm_bind, sm_modify, drop_global_permit, sm_modify, mret, sm_ret. simpl.
    destruct (track_node_with_permit m _) as [[[]|e] st']; simpl; [|done].
    intros [= <-]. by eapply registered_stable.
  - case_match; [by simpl|].
    unfold sm_bind, sm_modify, mret, sm_ret. simpl.
    destruct (track_node_with_permit _ _) as [[[]|e] st']; simpl; [|done].
    intros [= <-]. by left.
Qed.

Lemma remember_id hs hg st identity path n :
  reg_inv hs hg st → (remember hash_order stable_node_id identity path st).1 = Ok n →
  n = stable_node_id identity ∨ n = ROOT_NODE.
Proof.
  intros Hinv. unfold remember. unfold mbind, sm_bind at 1, sm_get at 1.
  destruct (by_identity (registry st) !! identity) as [m|] eqn:Hi.
  - unfold sm_bind, sm_modify, mret, sm_ret. simpl.
    destruct (track_node hash_order m _) as [[[]|e] st']; simpl; [|done].
    intros [= <-]. by eapply registered_stable.
  - unfold sm_bind. pose proof (reserve_node_spec hash_order stable_node_id limits
      hash_order_perm hs hg st Hinv) as Hr.
    destruct (reserve_node hash_order st) as [[[]|e] st']; simpl in *; [|done].
    by eapply remember_reserved_id.
Qed.

(** Sessions keep what they must not lose. *)
Definition must_keep (s : SessionNodes) (n : NodeId) : Prop :=
  n = ROOT_NODE ∨ ∃ h o, handles s !! h = Some o ∧ OpenFile.node o = n.

Lemma must_keep_pinned s n : must_keep s n → n = ROOT_NODE ∨ n ∈ pinned_nodes s.
Proof.
  intros [->|(h & o & Ho & <-)]; [by left|right].
  unfold pinned_nodes. apply list_elem_of_fmap. exists (h, o). split; [done|].
  by apply elem_of_map_to_list.
Qed.

Lemma evict_session_keeps st n :
  must_keep (session_nodes st) n →
  let st' := (evict_unreferenced_session_node hash_order st).2 in
  handles (session_nodes st') = handles (session_nodes st) ∧
  known_nodes (session_nodes st') !! n = known_nodes (session_nodes st) !! n.
Proof.
  intros Hk%must_keep_pinned. unfold evict_unreferenced_session_node. sm_unfold. simpl.
  destruct (List.find _ _) as [v|] eqn:E; simpl; [|done].
  apply (find_hash_Some hash_order hash_order_perm) in E as [Hf _]. bool_simpl.
  unfold session_remove. case_match; simpl; [|done]. split; [done|].
  rewrite lookup_delete_ne; [done|]. intros ->. naive_solver.
Qed.

Lemma acquire_loop_keeps fuel st n :
  must_keep (session_nodes st) n →
  known_nodes (session_nodes (acquire_session_loop hash_order fuel st).2) !! n =
  known_nodes (session_nodes st) !! n.
Proof.
  revert st. induction fuel as [|fuel IH]; intros st Hk; simpl; unfold mbind, sm_bind, sm_gets at 1.
  all: case_match; [done|]; unfold sm_bind.
  all: pose proof (evict_session_keeps st n Hk) as [Hh Hn].
  all: destruct (evict_unreferenced_session_node hash_order st) as [[[|]|] st']; simpl in *; try done.
  rewrite IH; [done|]. unfold must_keep in *. by rewrite Hh.
Qed.

End promises.

(** The names under which the registry knows a node. *)
Definition names (r : NodeRegistry) (p : list Name) (n : NodeId) : Prop :=
  ∃ k, by_node r !! n = Some k ∧ p ∈ KnownNode.paths k.

Lemma registry_remove_lookup es r n k :
  by_node (fold_left registry_remove es r) !! n = Some k ↔
  by_node r !! n = Some k ∧ n ∉ es.*1.
Proof.
  revert r. induction es as [|[m i] es IH]; intros r; simpl.
  { pose proof (not_elem_of_nil n). naive_solver. }
  rewrite IH. simpl. rewrite lookup_delete_Some, not_elem_of_cons. naive_solver.
Qed.

Lemma drop_pathless_names hash_order r p n : names (drop_pathless hash_order r) p n ↔ names r p n.
Proof.
  unfold names, drop_pathless. setoid_rewrite registry_remove_lookup.
  split; [naive_solver|]. intros (k & Hk & Hp). exists k. split_and!; [done| |done].
  intros (e & -> & (m & Hm & He)%list_elem_of_omap)%list_elem_of_fmap.
  repeat case_match; bool_simpl; simplify_eq/=. rewrite H1 in Hp.
  by apply not_elem_of_nil in Hp.
Qed.


(** * Properties *)

(** C34: The registry of an export and the working set of a connection keep
    their invariant under every operation, whether it succeeds or fails: the
    two maps stay inverse to each other, every node carries its stable
    identifier, no permit is lost or duplicated, and so the configured bounds
    on known nodes hold. *)
Theorem registry_invariant hash_order stable_node_id limits st :
  (∀ s, hash_order s ≡ₚ elements s) →
  reg_inv stable_node_id limits 0 0 st →
  let ok := reg_inv stable_node_id limits 0 0 in
  (∀ identity path, ok (remember hash_order stable_node_id identity path st).2) ∧
  (∀ node, ok (track_node hash_order node st).2) ∧
  (∀ nodes, ok (forget_nodes hash_order nodes st).2) ∧
  (∀ path descendants, ok (remove_registry_path hash_order path descendants st).2) ∧
  (∀ old new mode source destination, old ≠ [] → new ≠ [] →
     ok (update_registry_after_rename hash_order old new mode source destination st).2) ∧
  (Z.of_nat (size (by_node (registry st))) ≤ Limits.max_total_known_nodes limits ∧
   Z.of_nat (size (known_nodes (session_nodes st))) ≤ Limits.max_known_nodes limits).
Proof.
  intros Hperm Hinv ok. split_and!; intros.
  - by apply (remember_spec hash_order stable_node_id limits Hperm 0 0).
  - by apply (track_node_spec hash_order stable_node_id limits Hperm 0 0).
  - by apply (forget_nodes_spec hash_order stable_node_id limits 0 0).
  - by apply (remove_registry_path_spec hash_order stable_node_id limits Hperm 0 0).
  - by apply (update_after_rename_spec hash_order stable_node_id limits Hperm 0 0).
  - by apply (reg_inv_bounds stable_node_id limits).
  - by apply (reg_inv_bounds stable_node_id limits).
Qed.

(** [reserve_node], the gate of every node-creating operation, takes
    exactly one permit of each pool when it succeeds and none when it fails;
    its eviction loops always terminate and the only error is [TooManyNodes]. *)
Theorem reserve_node_permits hash_order stable_node_id limits hs hg st :
  (∀ s, hash_order s ≡ₚ elements s) →
  reg_inv stable_node_id limits hs hg st →
  match reserve_node hash_order st with
  | (Ok _, st') => reg_inv stable_node_id limits (hs + 1) (hg + 1) st'
  | (Err e, st') => reg_inv stable_node_id limits hs hg st' ∧ e = ServerError.TooManyNodes
  end.
Proof.
  intros Hperm Hinv.
  pose proof (reserve_node_spec hash_order stable_node_id limits Hperm hs hg st Hinv) as H.
  by destruct (reserve_node hash_order st) as [[?|?] st'].
Qed.

(** Making room in a connection's working set never evicts the root or a
    node that backs an open handle. *)
Theorem session_eviction_keeps_pinned hash_order st n :
  (∀ s, hash_order s ≡ₚ elements s) →
  n = ROOT_NODE ∨ (∃ h o, handles (session_nodes st) !! h = Some o ∧ OpenFile.node o = n) →
  known_nodes (session_nodes (acquire_session_permit hash_order st).2) !! n =
  known_nodes (session_nodes st) !! n.
Proof. intros Hperm Hk. by apply (acquire_loop_keeps hash_order Hperm). Qed.

(** Node identifiers are stable: whatever was evicted, renamed or
    remembered before, an inode other than the root is always registered under
    the keyed digest of its device and inode numbers. *)
Theorem remember_stable_id hash_order stable_node_id limits hs hg st identity path n :
  (∀ s, hash_order s ≡ₚ elements s) →
  reg_inv stable_node_id limits hs hg st →
  (remember hash_order stable_node_id identity path st).1 = Ok n →
  n = stable_node_id identity ∨ n = ROOT_NODE.
Proof. intros Hperm Hinv. by apply (remember_id hash_order stable_node_id limits Hperm hs hg). Qed.

(** After a rename the registry knows each node under exactly the renamed
    paths: entries below the old path move with it, an exchange swaps the two
    subtrees, and a replacing rename takes the target path away from the node
    it named before. *)
Theorem rename_moves_names hash_order old new mode source destination st p' n :
  destination ≠ Some source →
  let st' := (update_registry_after_rename hash_order old new mode source destination st).2 in
  names (registry st') p' n ↔
  ∃ k p, by_node (registry st) !! n = Some k ∧ p ∈ KnownNode.paths k ∧
    p' = rename_path old new mode p ∧
    (mode = RenameMode.Replace →
       KnownNode.identity k = source ∨ is_path_or_descendant p new = false).
Proof.
  intros Hdest. unfold update_registry_after_rename.
  rewrite bool_decide_false by done. unfold sm_modify, upd_registry. cbn [snd registry].
  rewrite drop_pathless_names. unfold names. simpl.
  setoid_rewrite lookup_fmap_Some. unfold rename_known, drop_replaced.
  case_bool_decide as Hmode.
  - setoid_rewrite lookup_fmap_Some. split.
    + intros (k2 & (k1 & <- & (k & <- & Hk)) & Hp). simpl in Hp.
      apply elem_of_pathset_collect_iff, list_elem_of_fmap in Hp as (p & -> & Hp).
      exists k, p. case_bool_decide; simpl in Hp; [naive_solver|].
      apply elem_of_filter_list in Hp as [? ?%negb_true_iff]. naive_solver.
    + intros (k & p & Hk & Hp & -> & Hm). eexists. split; [eauto|]. simpl.
      apply elem_of_pathset_collect, list_elem_of_fmap. exists p. split; [done|].
      case_bool_decide; [done|]. simpl. apply elem_of_filter_list. split; [done|].
      destruct (Hm Hmode) as [?|Hd]; [done|]. by rewrite Hd.
  - split.
    + intros (k2 & (k & <- & Hk) & Hp). simpl in Hp.
      apply elem_of_pathset_collect_iff, list_elem_of_fmap in Hp as (p & -> & Hp).
      exists k, p. naive_solver.
    + intros (k & p & Hk & Hp & -> & _). eexists. split; [eauto|]. simpl.
      apply elem_of_pathset_collect, list_elem_of_fmap. by exists p.
Qed.

(** After removing a directory entry the registry no longer knows the
    removed path (nor, for a directory, anything below it), and it still knows
    every other name of every node. *)
Theorem remove_path_names hash_order path descendants st p n :
  n ≠ ROOT_NODE →
  let st' := (remove_registry_path hash_order path descendants st).2 in
  names (registry st') p n ↔
  names (registry st) p n ∧
  (if descendants then is_path_or_descendant p path = false else p ≠ path).
Proof.
  intros Hn. unfold remove_registry_path, sm_modify, upd_registry. cbn [snd registry].
  rewrite drop_pathless_names. unfold names. simpl.
  setoid_rewrite map_lookup_imap. setoid_rewrite bind_Some.
  rewrite bool_decide_false by done. split.
  - intros (k' & (k & Hk & [= <-]) & Hp). simpl in Hp.
    apply elem_of_filter_list in Hp as [Hp Hf]. split; [eauto|].
    destruct descendants; [by apply negb_true_iff|].
    apply negb_true_iff, bool_decide_eq_false in Hf. done.
  - intros [(k & Hk & Hp) Hd]. eexists. split; [eauto|]. simpl.
    apply elem_of_filter_list. split; [done|].
    destruct descendants; [by rewrite Hd|]. by rewrite bool_decide_false.
Qed.

(** ** A run of the registry *)

Definition ex_limits : Limits := Limits.Mk 16 8 4 3 5 2 1000.
Definition ex_stable (i : FileIdentity) : NodeId := MkNodeId (1 + 1000 * device i + inode i).
Definition ex_order (s : gset NodeId) : list NodeId := elements s.
Definition ex_state : RegState :=
  MkRegState (registry_new ex_limits (MkIdentity 1 2)) (session_nodes_new ex_limits).
Definition ex_node_a : NodeId := ex_stable (MkIdentity 1 7).
Definition ex_with_a : RegState := (remember ex_order ex_stable (MkIdentity 1 7) [lit "a"] ex_state).2.

(** ** Reuse of an inode number *)

(** Removal of the only name of a node. *)
Lemma unlink_only_name hash_order stable_node_id limits st n k path :
  (∀ s, hash_order s ≡ₚ elements s) → reg_inv stable_node_id limits 0 0 st →
  by_node (registry st) !! n = Some k → n ≠ ROOT_NODE → KnownNode.paths k = [path] →
  let st' := (remove_registry_path hash_order path false st).2 in
  by_node (registry st') !! n = None ∧ by_identity (registry st') !! KnownNode.identity k = None ∧
  session_nodes st' = session_nodes st.
Proof.
  intros Hperm Hinv Hk Hn Hp st'.
  destruct (remove_registry_path_spec hash_order stable_node_id limits Hperm 0 0 path false st Hinv)
    as ([Hf' Hb' _ _] & Hpaths & _). fold st' in Hf', Hb', Hpaths.
  assert (∀ m km, by_node (registry st') !! m = Some km → ∃ km0, by_node (registry st) !! m = Some km0 ∧
    KnownNode.identity km = KnownNode.identity km0 ∧
    (m ≠ ROOT_NODE → ∀ p, p ∈ KnownNode.paths km → p ∈ KnownNode.paths km0 ∧ p ≠ path)) as Hold.
  { intros m km Hm. subst st'. unfold remove_registry_path, sm_modify, upd_registry, drop_pathless in Hm.
    cbn [snd registry] in Hm. apply registry_remove_lookup in Hm as [Hm _]. simpl in Hm.
    rewrite map_lookup_imap in Hm. apply bind_Some in Hm as (km0 & Hm0 & [= <-]). exists km0.
    split; [done|]. case_bool_decide; [by split|]. split; [done|]. intros _ q. simpl.
    intros [? Hq%negb_true_iff%bool_decide_eq_false]%elem_of_filter_list. done. }
  assert (by_node (registry st') !! n = None) as Hnone.
  { destruct (by_node (registry st') !! n) as [kn|] eqn:E; [|done]. destruct (Hpaths n kn E).
    destruct (Hold n kn E) as (k0 & Hk0 & _ & Hq). simplify_eq. destruct (KnownNode.paths kn) as [|q l]; [done|].
    destruct (Hq Hn q) as [Hin Hne]; [by left|]. rewrite Hp, list_elem_of_singleton in Hin. done. }
  split_and!; [done| |done]. destruct (by_identity (registry st') !! KnownNode.identity k) as [m|] eqn:E; [|done].
  destruct (Hb' _ _ E) as (km & Hkm & Hid). destruct (Hold m km Hkm) as (k0 & Hk0 & Hid0 & _).
  destruct Hinv as ([Hf _ _ _] & _). apply Hf in Hk0. apply Hf in Hk. rewrite <- Hid0, Hid, Hk in Hk0.
  injection Hk0 as ->. by rewrite Hnone in Hkm.
Qed.

(** With free permits nothing is evicted. *)
Lemma reserve_node_free hash_order st :
  0 < session_permits (session_nodes st) → 0 < node_permits (registry st) →
  reserve_node hash_order st = (Ok tt, upd_registry (add_node_permits (-1)) (upd_session (add_session_permits (-1)) st)).
Proof.
  intros Hs Hg. unfold reserve_node, acquire_session_permit. sm_unfold. simpl.
  destruct (size (known_nodes (session_nodes st))) as [|fuel]; cbn [acquire_session_loop]; sm_unfold; simpl;
    rewrite (proj2 (Z.ltb_lt _ _) Hs); simpl; by rewrite (proj2 (Z.ltb_lt _ _) Hg).
Qed.

(** Reuse of an inode number breaks the reference count of the registry.
    A file that a connection knows loses its only name, and a new file gets its
    inode number, while both working sets have room.  Registering the new file
    gives the old node, with a reference count of zero although the connection
    has it in its working set, so that the export may evict it while it is in use;
    and when the client forgets it, the export fails with [StateUnavailable]. *)
Theorem inode_reuse_loses_reference hash_order stable_node_id limits st n k path path' :
  (∀ s, hash_order s ≡ₚ elements s) → reg_inv stable_node_id limits 0 0 st →
  by_node (registry st) !! n = Some k → n ≠ ROOT_NODE → KnownNode.paths k = [path] →
  is_Some (known_nodes (session_nodes st) !! n) →
  let removed := (remove_registry_path hash_order path false st).2 in
  0 < session_permits (session_nodes removed) → 0 < node_permits (registry removed) →
  ∃ st', remember hash_order stable_node_id (KnownNode.identity k) path' removed = (Ok n, st') ∧
    is_Some (known_nodes (session_nodes st') !! n) ∧
    KnownNode.session_references <$> by_node (registry st') !! n = Some 0 ∧
    (forget_nodes hash_order [n] st').1 = Err ServerError.StateUnavailable.
Proof.
  intros Hperm Hinv Hk Hn Hp Hknown removed Hs Hg.
  destruct (unlink_only_name hash_order stable_node_id limits st n k path) as (Hnone & Hid & Hses); [done..|].
  fold removed in Hnone, Hid, Hses. destruct Hinv as ([_ _ Hst _] & _). destruct (Hst n k Hk Hn) as [En _].
  destruct Hknown as [p Hknown]. rewrite <- Hses in Hknown. clearbody removed.
  assert (∃ st', remember hash_order stable_node_id (KnownNode.identity k) path' removed = (Ok n, st') ∧
    known_nodes (session_nodes st') !! n = Some p ∧
    by_node (registry st') !! n = Some (KnownNode.Mk (KnownNode.identity k) [path'] 0 true)) as (st' & Hrun & Hp' & Hk').
  { unfold remember. sm_unfold. rewrite Hid, (reserve_node_free _ _ Hs Hg). unfold remember_reserved. sm_unfold.
    cbn [registry upd_registry add_node_permits by_identity by_node upd_session]. rewrite Hid, <- En, Hnone.
    rewrite bool_decide_false by done. cbn [orb]. unfold track_node_with_permit. sm_unfold.
    simpl. rewrite Hknown. simpl. eexists. split; [done|]. simpl. by rewrite lookup_insert_eq. }
  exists st'. rewrite Hp', Hk'. split_and!; [done|by eexists|done|].
  unfold forget_nodes. simpl. assert (hash_order ({[n]} ∪ ∅) = [n]) as ->.
  { apply Permutation_singleton_r. rewrite Hperm, union_empty_r_L. by rewrite elements_singleton. }
  sm_unfold. cbn [forget_known]. rewrite bool_decide_false by done. sm_unfold. rewrite Hp'. simpl.
  unfold release_node_reference. rewrite bool_decide_false by done. sm_unfold. simpl. by rewrite Hk'.
Qed.

(** ** Witnesses *)

(** A fresh export and a fresh session satisfy the invariant. *)
Lemma reg_inv_new stable_node_id limits root_identity :
  1 ≤ Limits.max_known_nodes limits → 1 ≤ Limits.max_total_known_nodes limits →
  reg_inv stable_node_id limits 0 0
    (MkRegState (registry_new limits root_identity) (session_nodes_new limits)).
Proof.
  intros Hk Ht. unfold registry_new, session_nodes_new, u64_saturating_sub.
  split_and!; [split; simpl| |split; simpl|split; simpl].
  - intros n k [<- <-]%lookup_singleton_Some. apply lookup_singleton_eq.
  - intros i n [<- <-]%lookup_singleton_Some. eexists. by rewrite lookup_singleton_eq.
  - by intros n k [<- _]%lookup_singleton_Some.
  - eexists. rewrite lookup_singleton_eq. split_and!; [done..|]. by left.
  - intros n k Hk'. simpl in Hk'. by apply lookup_singleton_Some in Hk' as [_ <-].
  - lia.
  - rewrite map_size_singleton. lia.
  - apply lookup_singleton_eq.
  - by intros n p [<- _]%lookup_singleton_Some.
  - lia.
  - rewrite map_size_singleton. lia.
Qed.

Lemma ex_order_perm s : ex_order s ≡ₚ elements s.
Proof. done. Qed.

Lemma ex_state_inv : reg_inv ex_stable ex_limits 0 0 ex_state.
Proof. apply reg_inv_new; simpl; lia. Qed.

Lemma registry_invariant_witness :
  reg_inv ex_stable ex_limits 0 0 ex_with_a ∧
  Z.of_nat (size (by_node (registry ex_with_a))) = 2.
Proof.
  split; [|by vm_compute].
  destruct (registry_invariant ex_order ex_stable ex_limits ex_state ex_order_perm
    ex_state_inv) as [H _]. apply H.
Defined.

Lemma reserve_node_permits_witness :
  (reserve_node ex_order ex_state).1 = Ok tt ∧
  reg_inv ex_stable ex_limits 1 1 (reserve_node ex_order ex_state).2.
Proof.
  split; [by vm_compute|].
  pose proof (reserve_node_permits ex_order ex_stable ex_limits 0 0 ex_state ex_order_perm
    ex_state_inv) as H.
  assert ((reserve_node ex_order ex_state).1 = Ok tt) as E by (by vm_compute).
  destruct (reserve_node ex_order ex_state) as [[?|?] st']; [exact H|discriminate E].
Defined.

(** A session whose two slots are taken by an open file and one other node. *)
Definition ex_open : OpenFile :=
  OpenFile.Mk 3 ex_node_a (MkIdentity 1 7) FileAccess.ReadOnly false.
Definition ex_full : RegState :=
  let st := (remember ex_order ex_stable (MkIdentity 1 8) [lit "c"] ex_with_a).2 in
  upd_session (λ s, MkSessionNodes (known_nodes s) (session_permits s)
    {[MkFileHandle 9 := ex_open]}) st.

Lemma session_eviction_keeps_pinned_witness :
  session_permits (session_nodes ex_full) = 0 ∧
  (acquire_session_permit ex_order ex_full).1 = Ok tt ∧
  known_nodes (session_nodes (acquire_session_permit ex_order ex_full).2) !! ex_node_a =
  known_nodes (session_nodes ex_full) !! ex_node_a.
Proof.
  split_and!; [by vm_compute|by vm_compute|].
  apply (session_eviction_keeps_pinned ex_order ex_full ex_node_a ex_order_perm).
  right. exists (MkFileHandle 9), ex_open. by vm_compute.
Defined.

Lemma remember_stable_id_witness :
  ex_node_a = ex_stable (MkIdentity 1 7) ∨ ex_node_a = ROOT_NODE.
Proof.
  apply (remember_stable_id ex_order ex_stable ex_limits 0 0 ex_state (MkIdentity 1 7)
    [lit "a"] ex_node_a ex_order_perm ex_state_inv). by vm_compute.
Defined.

Lemma rename_moves_names_witness :
  names (registry (update_registry_after_rename ex_order [lit "a"] [lit "b"]
    RenameMode.Replace (MkIdentity 1 7) None ex_with_a).2) [lit "b"] ex_node_a.
Proof.
  apply (rename_moves_names ex_order [lit "a"] [lit "b"] RenameMode.Replace
    (MkIdentity 1 7) None ex_with_a [lit "b"] ex_node_a); [discriminate|].
  exists (KnownNode.Mk (MkIdentity 1 7) [[lit "a"]] 1 true), [lit "a"].
  split_and!; [by vm_compute|by left|by vm_compute|by left].
Defined.

Lemma remove_path_names_witness :
  ¬ names (registry (remove_registry_path ex_order [lit "a"] false ex_with_a).2)
      [lit "a"] ex_node_a.
Proof.
  intros H.
  apply (remove_path_names ex_order [lit "a"] false ex_with_a [lit "a"] ex_node_a) in H
    as [_ Hne]; [by apply Hne|by vm_compute].
Defined.

(** A file is removed, and its inode number used again for another. *)
Lemma inode_reuse_loses_reference_witness :
  ∃ st', remember ex_order ex_stable (MkIdentity 1 7) [lit "b"] (remove_registry_path ex_order [lit "a"] false ex_with_a).2 =
      (Ok ex_node_a, st') ∧
    (forget_nodes ex_order [ex_node_a] ex_with_a).1 = Ok tt ∧
    (forget_nodes ex_order [ex_node_a] st').1 = Err ServerError.StateUnavailable.
Proof.
  assert (reg_inv ex_stable ex_limits 0 0 ex_with_a) as Hinv.
  { apply (remember_spec ex_order ex_stable ex_limits ex_order_perm 0 0), ex_state_inv. }
  destruct (inode_reuse_loses_reference ex_order ex_stable ex_limits ex_with_a ex_node_a
    (KnownNode.Mk (MkIdentity 1 7) [[lit "a"]] 1 true) [lit "a"] [lit "b"] ex_order_perm Hinv)
    as (st' & Hrun & _ & _ & Hforget);
    [vm_compute; reflexivity|discriminate|reflexivity|eexists; vm_compute; reflexivity|vm_compute; reflexivity|
     vm_compute; reflexivity|].
  exists st'. split; [exact Hrun|]. split; [vm_compute; reflexivity|exact Hforget].
Defined.
