(* ===== verification/XattrNames.v ===== *)
(** Extended-attribute names ([crates/server-core/src/lib.rs], lines
    3147-3160 and 3282-3325): the mapping between the names a client uses and
    the names stored on the Linux host, with the base64url codec as parameter. *)

From S2P Require Import Prelude Protocol Common.

Definition MAX_XATTR_SIZE : Z := 64 * 1024 * 1024.
Definition BACKUP_TIME_XATTR : list Z := lit "user.quickfs.backup-time".
Definition RESOURCE_FORK : Name := lit "com.apple.ResourceFork".
Definition MAC_PREFIX : list Z := lit "user.quickfs.mac.".

Definition validate_xattr_name (name : Name) : result ServerError unit :=
  if bool_decide (name = []) || (zlen name >? 255) || bool_decide (0 ∈ name)
  then Err (ServerError.InvalidRequest (lit "invalid extended-attribute name"))
  else Ok tt.

Definition is_resource_fork (name : Name) : bool := bool_decide (name = RESOURCE_FORK).

Section names.
(** base64 URL_SAFE_NO_PAD. *)
Context (b64_encode : list Z → list Z) (b64_decode : list Z → option (list Z)).

Definition logical_xattr_name (name : Name) : result ServerError (list Z) :=
  _ ← validate_xattr_name name;
  if starts_with (lit "user.") name && negb (starts_with (lit "user.quickfs.") name)
  then Ok name
  else
    let encoded := MAC_PREFIX ++ b64_encode name in
    if zlen encoded >? 255 then
      Err (ServerError.InvalidRequest
        (lit "extended-attribute name is too large for the server filesystem"))
    else Ok encoded.

Definition host_xattr_name (name : list Z) : option Name :=
  if bool_decide (name = BACKUP_TIME_XATTR) then None
  else
    match strip_prefix MAC_PREFIX name with
    | Some encoded => b64_decode encoded
    | None => if starts_with (lit "user.") name then Some name else None
    end.

(** [Ord for Name] as a boolean, and [Vec::dedup]. *)
Definition name_leb (a b : Name) : bool := lex_leb a b.
Fixpoint dedup_names (l : list Name) : list Name :=
  match l with
  | [] => []
  | x :: l' =>
      match dedup_names l' with
      | [] => [x]
      | y :: r => if bool_decide (x = y) then y :: r else x :: y :: r
      end
  end.

(** The conversion at the end of [list_fd_xattrs]: the NUL-separated list the
    host returned becomes the sorted list of client names without duplicates. *)
Definition parse_xattr_list (bytes : list Z) : list Name :=
  dedup_names (sort_by name_leb
    (omap host_xattr_name
       (List.filter (λ name, negb (bool_decide (name = []))) (split_on 0 bytes)))).

(** * Facts *)

Context (b64_inverse : ∀ b, b64_decode (b64_encode b) = Some b).

Lemma starts_with_trans p q l :
  starts_with (p ++ q) l = true → starts_with p l = true.
Proof.
  intros [k ->]%starts_with_Some. rewrite <- app_assoc. apply starts_with_app.
Qed.

Lemma logical_xattr_name_inv name host :
  logical_xattr_name name = Ok host →
  validate_xattr_name name = Ok tt ∧ zlen host ≤ 255 ∧
  (host = name ∧ starts_with (lit "user.") name = true ∧
     starts_with (lit "user.quickfs.") name = false ∨
   host = MAC_PREFIX ++ b64_encode name).
Proof.
  unfold logical_xattr_name. destruct (validate_xattr_name name) as [[]|] eqn:Hv; [|done].
  unfold mbind, result_bind.
  destruct (_ && negb _) eqn:Hp; bool_simpl.
  - intros [= <-]. split_and!; [done| |by left].
    unfold validate_xattr_name in Hv.
    destruct (zlen name >? 255) eqn:Hz; bool_simpl; [|lia].
    by rewrite orb_true_r in Hv.
  - destruct (_ >? _) eqn:Hz; [done|]. bool_simpl. intros [= <-].
    split_and!; [done|exact Hz|by right].
Qed.

Lemma strip_prefix_starts p l k : strip_prefix p l = Some k → starts_with p l = true.
Proof. unfold strip_prefix. by case_match. Qed.

Lemma host_logical_inverse name host :
  logical_xattr_name name = Ok host →
  host_xattr_name host = Some name ∧ host ≠ BACKUP_TIME_XATTR.
Proof.
  intros (_ & _ & [(-> & Hu & Hq)| ->])%logical_xattr_name_inv.
  - assert (name ≠ BACKUP_TIME_XATTR) as Hne by (intros ->; by vm_compute in Hq).
    split; [|done]. unfold host_xattr_name. rewrite bool_decide_false by done.
    destruct (strip_prefix MAC_PREFIX name) as [k|] eqn:Es; [|by rewrite Hu].
    apply strip_prefix_starts in Es.
    change MAC_PREFIX with (lit "user.quickfs." ++ lit "mac.") in Es.
    apply starts_with_trans in Es. congruence.
  - assert (MAC_PREFIX ++ b64_encode name ≠ BACKUP_TIME_XATTR) as Hne.
    { intros E. apply (f_equal (starts_with MAC_PREFIX)) in E.
      rewrite starts_with_app in E. by vm_compute in E. }
    split; [|done]. unfold host_xattr_name. rewrite bool_decide_false by done.
    by rewrite strip_prefix_app.
Qed.
End names.

(** A client attribute name and its host name determine each other: the
    host name of a valid name is translated back to that name, two different
    client names never share a host name, the host name fits the 255-byte
    limit of Linux and lies in the [user.] name space, and no client name
    reaches the attribute in which the server keeps the backup time. *)
Theorem xattr_name_roundtrip b64_encode b64_decode name host :
  (∀ b, b64_decode (b64_encode b) = Some b) →
  logical_xattr_name b64_encode name = Ok host →
  host_xattr_name b64_decode host = Some name ∧
  (∀ name', logical_xattr_name b64_encode name' = Ok host → name' = name) ∧
  zlen host ≤ 255 ∧ starts_with (lit "user.") host = true ∧
  host ≠ BACKUP_TIME_XATTR.
Proof.
  intros Hinv Hl.
  destruct (host_logical_inverse _ _ Hinv _ _ Hl) as [Hh Hne].
  split_and!; [done| | | |done].
  - intros name' Hl'. destruct (host_logical_inverse _ _ Hinv _ _ Hl') as [Hh' _]. congruence.
  - by apply logical_xattr_name_inv in Hl as (_ & ? & _).
  - apply logical_xattr_name_inv in Hl as (_ & _ & [(-> & ? & _)| ->]); [done|].
    change MAC_PREFIX with (lit "user." ++ lit "quickfs.mac."). rewrite <- app_assoc.
    apply starts_with_app.
Qed.

Lemma xattr_name_roundtrip_witness :
  host_xattr_name Some (MAC_PREFIX ++ lit "com.apple.FinderInfo") =
    Some (lit "com.apple.FinderInfo").
Proof.
  apply (xattr_name_roundtrip (λ b, b) Some (lit "com.apple.FinderInfo")
    (MAC_PREFIX ++ lit "com.apple.FinderInfo")); [done|by vm_compute].
Defined.
