(* ===== verification/FileIO.v ===== *)
(** Descriptor-level file input and output of the server core
    ([crates/server-core/src/lib.rs], lines 3579-4082): consistent reads,
    complete positioned writes, the server-side range copy with its reflink,
    [copy_file_range] and buffered paths, and the content exchange of two
    files.  The operating system is the interface [HostFiles]; its documented
    behaviour is [HostFilesLaws], and [MemFiles] is an implementation that
    satisfies it. *)

From S2P Require Import Prelude Protocol Common Locks XattrNames.

(** * The operating system *)

(** The fields of [stat] the server uses. *)
Module Stat.
Record Stat := Mk {
  st_dev : Z; st_ino : Z; st_size : Z; st_blocks : Z; st_mode : Z; st_nlink : Z;
  st_rdev : Z;
  st_atime : Z; st_atime_nsec : Z;
  st_mtime : Z; st_mtime_nsec : Z;
  st_ctime : Z; st_ctime_nsec : Z
}.
End Stat.
Abbreviation Stat := Stat.Stat.

(** [identity] and [identity_from_stat]. *)
Definition identity_from_stat (stat : Stat) : FileIdentity :=
  MkIdentity (Stat.st_dev stat) (Stat.st_ino stat).

(** System calls on open descriptors, over a host state [H]. *)
Class HostFiles (H : Type) := {
  (** the bytes and attributes behind a descriptor *)
  file_data : H → Z → list Z;
  file_identity : H → Z → FileIdentity;
  file_xattrs : H → Z → gmap (list Z) (list Z);
  fstat : H → Z → result IoError Stat;
  pread : H → Z → Z → Z → result IoError (list Z);
  pwrite : H → Z → Z → list Z → result IoError Z * H;
  (** [write] on a descriptor opened with [O_APPEND] *)
  append_write : H → Z → list Z → result IoError Z * H;
  ftruncate : H → Z → Z → result IoError unit * H;
  fsync : H → Z → result IoError unit * H;
  (** [ioctl(FICLONE)]: destination, source *)
  ficlone : H → Z → Z → result Errno unit * H;
  copy_file_range_sys : H → Z → Z → Z → Z → Z → result Errno Z * H;
  fgetxattr : H → Z → list Z → Z → result Errno (list Z);
  fsetxattr : H → Z → list Z → list Z → result Errno unit * H;
  fremovexattr : H → Z → list Z → result Errno unit * H
}.

(** Writing [data] at [offset]: a hole before it is filled with zeros, and a
    write of no bytes changes nothing. *)
Definition write_bytes (c : list Z) (offset : Z) (data : list Z) : list Z :=
  match data with
  | [] => c
  | _ => resize (Z.to_nat offset) 0 c ++ data ++ drop (Z.to_nat offset + length data) c
  end.

(** A call that may change only the file behind [f]. *)
Definition only_file `{HostFiles H} (h h' : H) (f : Z) : Prop :=
  (∀ g, file_identity h' g = file_identity h g) ∧
  (∀ g, file_identity h g ≠ file_identity h f →
     file_data h' g = file_data h g ∧ file_xattrs h' g = file_xattrs h g).
Definition same_xattrs `{HostFiles H} (h h' : H) : Prop :=
  ∀ g, file_xattrs h' g = file_xattrs h g.
Definition same_data `{HostFiles H} (h h' : H) : Prop :=
  ∀ g, file_data h' g = file_data h g.

(** The documented behaviour of these calls.  Two descriptors with the same
    device and inode numbers denote the same file. *)
Class HostFilesLaws (H : Type) `{HostFiles H} := {
  law_alias : ∀ h f g, file_identity h f = file_identity h g →
    file_data h f = file_data h g ∧ file_xattrs h f = file_xattrs h g;
  law_fstat : ∀ h f st, fstat h f = Ok st →
    identity_from_stat st = file_identity h f ∧ Stat.st_size st = zlen (file_data h f);
  law_pread : ∀ h f offset n b, 0 ≤ offset → 0 ≤ n → pread h f offset n = Ok b →
    zlen b ≤ n ∧ b = slice (file_data h f) offset (zlen b) ∧
    (b = [] → n ≤ 0 ∨ zlen (file_data h f) ≤ offset);
  law_pwrite : ∀ h f offset data r h', 0 ≤ offset → pwrite h f offset data = (r, h') →
    only_file h h' f ∧ same_xattrs h h' ∧
    match r with
    | Ok w => 0 ≤ w ≤ zlen data ∧
        file_data h' f = write_bytes (file_data h f) offset (take (Z.to_nat w) data)
    | Err _ => True
    end;
  law_append : ∀ h f data r h', append_write h f data = (r, h') →
    only_file h h' f ∧ same_xattrs h h' ∧
    match r with
    | Ok w => 0 ≤ w ≤ zlen data ∧
        file_data h' f = file_data h f ++ take (Z.to_nat w) data
    | Err _ => True
    end;
  law_ftruncate : ∀ h f n r h', 0 ≤ n → ftruncate h f n = (r, h') →
    only_file h h' f ∧ same_xattrs h h' ∧
    (r = Ok tt → file_data h' f = resize (Z.to_nat n) 0 (file_data h f));
  law_fsync : ∀ h f r h', fsync h f = (r, h') →
    only_file h h' f ∧ same_xattrs h h' ∧ same_data h h';
  law_ficlone : ∀ h dst src r h', ficlone h dst src = (r, h') →
    only_file h h' dst ∧ same_xattrs h h' ∧
    match r with
    | Ok _ => file_data h' dst = file_data h src
    | Err _ => same_data h h'
    end;
  law_copy_range : ∀ h src soff dst doff n r h', 0 ≤ soff → 0 ≤ doff → 0 ≤ n →
    copy_file_range_sys h src soff dst doff n = (r, h') →
    only_file h h' dst ∧ same_xattrs h h' ∧
    match r with
    | Ok k => 0 ≤ k ≤ n ∧ k ≤ Z.max 0 (zlen (file_data h src) - soff) ∧
        file_data h' dst =
          write_bytes (file_data h dst) doff (slice (file_data h src) soff k)
    | Err _ => same_data h h'
    end;
  law_fgetxattr : ∀ h f name cap, 1 ≤ cap →
    match fgetxattr h f name cap with
    | Ok v => file_xattrs h f !! name = Some v ∧ zlen v ≤ cap
    | Err Errno.NODATA => file_xattrs h f !! name = None
    | Err Errno.RANGE => ∃ v, file_xattrs h f !! name = Some v ∧ cap < zlen v
    | Err _ => True
    end;
  law_fsetxattr : ∀ h f name v r h', fsetxattr h f name v = (r, h') →
    only_file h h' f ∧ same_data h h' ∧
    match r with
    | Ok _ => file_xattrs h' f = <[name := v]> (file_xattrs h f)
    | Err _ => same_xattrs h h'
    end;
  law_fremovexattr : ∀ h f name r h', fremovexattr h f name = (r, h') →
    only_file h h' f ∧ same_data h h' ∧
    match r with
    | Ok _ => file_xattrs h' f = delete name (file_xattrs h f)
    | Err Errno.NODATA => file_xattrs h f !! name = None ∧ same_xattrs h h'
    | Err _ => same_xattrs h h'
    end
}.

(** A host on which the calls used by the copy routines do not fail. *)
Record reliable (H : Type) `{HostFiles H} : Prop := {
  rel_fstat : ∀ h f, ∃ st, fstat h f = Ok st;
  rel_pread : ∀ h f offset n, ∃ b, pread h f offset n = Ok b;
  rel_pwrite : ∀ h f offset data, data ≠ [] →
    ∃ w h', pwrite h f offset data = (Ok w, h') ∧ 0 < w;
  rel_ftruncate : ∀ h f n, ∃ h', ftruncate h f n = (Ok tt, h');
  rel_fsync : ∀ h f, ∃ h', fsync h f = (Ok tt, h');
  rel_copy_range : ∀ h src soff dst doff n, ∃ r h',
    copy_file_range_sys h src soff dst doff n = (r, h') ∧
    match r with
    | Err e => e ∈ [Errno.XDEV; Errno.INVAL; Errno.NOSYS; Errno.NOTSUP]
    | Ok _ => True
    end;
  rel_fgetxattr : ∀ h f name cap, 1 ≤ cap →
    match fgetxattr h f name cap with
    | Ok _ | Err Errno.NODATA => True
    | Err Errno.RANGE => True
    | Err _ => False
    end;
  rel_fsetxattr : ∀ h f name v, ∃ h', fsetxattr h f name v = (Ok tt, h');
  rel_fremovexattr : ∀ h f name, ∃ r h', fremovexattr h f name = (r, h') ∧
    (r = Ok tt ∨ r = Err Errno.NODATA)
}.

Section fileio.
Context {H : Type} `{HF : HostFiles H}.

Definition FM (A : Type) : Type := SM H ServerError A.

Definition lift_io {A} (r : result IoError A) : FM A := sm_lift (map_err server_error_from_io r).
Definition run_io {A} (call : H → result IoError A * H) : FM A := λ h,
  let '(r, h') := call h in (map_err server_error_from_io r, h').
Definition run_sys {A} (call : H → result Errno A * H) : FM A := λ h,
  let '(r, h') := call h in (map_err of_errno r, h').

(** A call whose error the code inspects. *)
Definition try_sys {A} (call : H → result Errno A * H) : FM (result Errno A) := λ h,
  let '(r, h') := call h in (Ok r, h').
(** A call that only reads the host. *)
Definition ask_sys {A} (call : H → result Errno A) : FM (result Errno A) := λ h,
  (Ok (call h), h).

(** [file.metadata()?]. *)
Definition metadata_of (f : Z) : FM Stat := h ← sm_get; lift_io (fstat h f).
(** [file.metadata()?.len()]. *)
Definition file_len (f : Z) : FM Z := st ← metadata_of f; mret (Stat.st_size st).

(** [read_all_at]; [acc] is the part of the buffer already filled. *)
Fixpoint read_all_loop (fuel : nat) (f offset n : Z) (acc : list Z) : FM (list Z) :=
  if zlen acc <? n then
    match fuel with
    | O => sm_err ServerError.TaskFailed
    | S fuel' =>
        h ← sm_get;
        b ← lift_io (pread h f (offset + zlen acc) (n - zlen acc));
        if bool_decide (b = []) then sm_err ServerError.Conflict
        else read_all_loop fuel' f offset n (acc ++ b)
    end
  else mret acc.
Definition read_all_at (f offset n : Z) : FM (list Z) :=
  read_all_loop (Z.to_nat n) f offset n [].

Definition write_zero : ServerError :=
  server_error_from_io (IoError.Custom IoKind.WriteZero (lit "file write returned zero bytes")).

(** The loop of [write_all_at] over the positioned write. *)
Fixpoint write_all_loop (fuel : nat) (f offset : Z) (data : list Z) (consumed : Z) : FM unit :=
  if consumed <? zlen data then
    match fuel with
    | O => sm_err ServerError.TaskFailed
    | S fuel' =>
        written ← run_io (λ h, pwrite h f (u64_saturating_add offset consumed)
                                 (drop (Z.to_nat consumed) data));
        if written =? 0 then sm_err write_zero
        else write_all_loop fuel' f offset data (u64_saturating_add consumed written)
    end
  else mret tt.

(** [Write::write_all] on the append descriptor. *)
Fixpoint append_all_loop (fuel : nat) (f : Z) (data : list Z) : FM unit :=
  match data with
  | [] => mret tt
  | _ :: _ =>
      match fuel with
      | O => sm_err ServerError.TaskFailed
      | S fuel' =>
          written ← run_io (λ h, append_write h f data);
          if written =? 0
          then sm_err (server_error_from_io
                 (IoError.Custom IoKind.WriteZero (lit "failed to write whole buffer")))
          else append_all_loop fuel' f (drop (Z.to_nat written) data)
      end
  end.

Definition write_all_at (f offset : Z) (data : list Z) (append : bool) : FM unit :=
  if append then append_all_loop (length data) f data
  else write_all_loop (length data) f offset data 0.

(** * Range copies *)

Definition COPY_CHUNK : Z := 1024 * 1024.

Fixpoint copy_range_buffered_loop (fuel : nat) (input input_offset output output_offset length : Z)
    : FM unit :=
  if 0 <? length then
    match fuel with
    | O => sm_err ServerError.TaskFailed
    | S fuel' =>
        let amount := Z.min length COPY_CHUNK in
        buffer ← read_all_at input input_offset amount;
        _ ← write_all_at output output_offset buffer false;
        copy_range_buffered_loop fuel' input (input_offset + amount)
          output (output_offset + amount) (length - amount)
    end
  else mret tt.
Definition copy_range_buffered (input input_offset output output_offset length : Z) : FM unit :=
  copy_range_buffered_loop (Z.to_nat length) input input_offset output output_offset length.

(** The backward loop of [copy_range_buffered_overlap]. *)
Fixpoint copy_backward_loop (fuel : nat) (input input_offset output output_offset remaining : Z)
    : FM unit :=
  if 0 <? remaining then
    match fuel with
    | O => sm_err ServerError.TaskFailed
    | S fuel' =>
        let amount := Z.min remaining COPY_CHUNK in
        let source := input_offset + remaining - amount in
        let destination := output_offset + remaining - amount in
        buffer ← read_all_at input source amount;
        _ ← write_all_at output destination buffer false;
        copy_backward_loop fuel' input input_offset output output_offset (remaining - amount)
    end
  else mret tt.
Definition copy_range_buffered_overlap (input input_offset output output_offset length : Z)
    : FM unit :=
  if output_offset <=? input_offset
  then copy_range_buffered input input_offset output output_offset length
  else copy_backward_loop (Z.to_nat length) input input_offset output output_offset length.

(** The [copy_file_range] loop: the bytes copied when it stops. *)
Fixpoint copy_kernel_loop (fuel : nat) (input input_offset output output_offset amount copied : Z)
    : FM Z :=
  if copied <? amount then
    match fuel with
    | O => sm_err ServerError.TaskFailed
    | S fuel' =>
        let chunk := Z.min (amount - copied) u64_max in
        r ← try_sys (λ h, copy_file_range_sys h input (input_offset + copied)
                                output (output_offset + copied) chunk);
        match r with
        | Ok written =>
            if written =? 0 then mret copied
            else copy_kernel_loop fuel' input input_offset output output_offset amount
                   (u64_saturating_add copied written)
        | Err (Errno.XDEV | Errno.INVAL | Errno.NOSYS | Errno.NOTSUP) => mret copied
        | Err e => sm_err (of_errno e)
        end
    end
  else mret copied.

(** The condition of the reflink shortcut of [copy_range_server], evaluated
    from left to right: the whole of [input] goes to an empty [output]. *)
Definition try_reflink (input input_offset output output_offset amount : Z) : FM bool :=
  if (input_offset =? 0) && (output_offset =? 0) then
    ilen ← file_len input;
    if amount =? ilen then
      olen ← file_len output;
      if olen =? 0 then
        r ← try_sys (λ h, ficlone h output input);
        mret (is_ok r)
      else mret false
    else mret false
  else mret false.

Definition copy_range_server (input input_offset output output_offset length : Z) : FM Z :=
  len ← file_len input;
  let available := u64_saturating_sub len input_offset in
  let amount := Z.min length available in
  if amount =? 0 then mret 0
  else
    cloned ← try_reflink input input_offset output output_offset amount;
    if (cloned : bool) then mret amount
    else
      im ← metadata_of input;
      om ← metadata_of output;
      if bool_decide (identity_from_stat im = identity_from_stat om)
         && (input_offset <? u64_saturating_add output_offset amount)
         && (output_offset <? u64_saturating_add input_offset amount)
      then
        _ ← copy_range_buffered_overlap input input_offset output output_offset amount;
        mret amount
      else
        copied ← copy_kernel_loop (Z.to_nat amount) input input_offset output output_offset amount 0;
        if copied =? amount then mret copied
        else
          _ ← copy_range_buffered input (input_offset + copied) output (output_offset + copied)
                (amount - copied);
          mret amount.

Definition EXCHANGE_CHUNK : Z := 8 * 1024 * 1024.

Fixpoint copy_in_chunks_loop (fuel : nat) (input output offset length : Z) : FM unit :=
  if 0 <? length then
    match fuel with
    | O => sm_err ServerError.TaskFailed
    | S fuel' =>
        let chunk := Z.min length EXCHANGE_CHUNK in
        copied ← copy_range_server input offset output offset chunk;
        if copied =? 0 then sm_err ServerError.Conflict
        else copy_in_chunks_loop fuel' input output (offset + copied) (length - copied)
    end
  else mret tt.
Definition copy_range_in_chunks (input output length : Z) : FM unit :=
  copy_in_chunks_loop (Z.to_nat length) input output 0 length.

(** * Extended attributes of a descriptor *)

(** The retry loop of [read_fd_xattr]: the capacity doubles until the value
    fits; 64 doublings pass any [usize]. *)
Fixpoint read_xattr_loop (fuel : nat) (f : Z) (name : list Z) (maximum capacity : Z) : FM (list Z) :=
  r ← ask_sys (λ h, fgetxattr h f name capacity);
  match r with
  | Ok value => mret value
  | Err Errno.RANGE =>
      if capacity <? maximum then
        match fuel with
        | O => sm_err ServerError.TaskFailed
        | S fuel' =>
            read_xattr_loop fuel' f name maximum
              (Z.min (u64_saturating_mul capacity 2) maximum)
        end
      else sm_err (of_errno Errno.RANGE)
  | Err e => sm_err (of_errno e)
  end.
Definition read_fd_xattr (f : Z) (name : list Z) (maximum : Z) : FM (list Z) :=
  read_xattr_loop 64 f name maximum (Z.min 256 (Z.max maximum 1)).

Definition replace_optional_xattr (f : Z) (name : list Z) (value : option (list Z)) : FM unit :=
  match value with
  | Some v => run_sys (λ h, fsetxattr h f name v)
  | None =>
      r ← try_sys (λ h, fremovexattr h f name);
      match r with
      | Ok _ => mret tt
      | Err error =>
          let mapped := of_errno error in
          if bool_decide (mapped = ServerError.NoAttribute) then mret tt else sm_err mapped
      end
  end.

Definition write_backup_time (f : Z) (value : option Z) : FM unit :=
  match value with
  | Some v => run_sys (λ h, fsetxattr h f BACKUP_TIME_XATTR (to_le_bytes 8 v))
  | None => mret tt
  end.

Definition read_fd_backup_time (f : Z) : FM (option Z) :=
  r ← sm_try (read_fd_xattr f BACKUP_TIME_XATTR 8);
  match r with
  | Ok b => if zlen b =? 8 then mret (Some (from_le_bytes b))
            else sm_err ServerError.StateUnavailable
  | Err ServerError.NoAttribute => mret None
  | Err error => sm_err error
  end.

(** [match read_fd_xattr(..) { Ok(value) => Some(value), Err(NoAttribute) => None, .. }]. *)
Definition read_optional_xattr (f : Z) (name : list Z) : FM (option (list Z)) :=
  r ← sm_try (read_fd_xattr f name MAX_XATTR_SIZE);
  match r with
  | Ok value => mret (Some value)
  | Err ServerError.NoAttribute => mret None
  | Err error => sm_err error
  end.

Definition exchange_file_contents (b64_encode : list Z → list Z) (left right temporary : Z)
    : FM unit :=
  left_size ← file_len left;
  right_size ← file_len right;
  _ ← run_io (λ h, ftruncate h temporary 0);
  _ ← copy_range_in_chunks left temporary left_size;
  _ ← run_io (λ h, ftruncate h left 0);
  _ ← copy_range_in_chunks right left right_size;
  _ ← run_io (λ h, ftruncate h right 0);
  _ ← copy_range_in_chunks temporary right left_size;
  resource_name ← sm_lift (logical_xattr_name b64_encode RESOURCE_FORK);
  left_resource ← read_optional_xattr left resource_name;
  right_resource ← read_optional_xattr right resource_name;
  _ ← replace_optional_xattr left resource_name right_resource;
  _ ← replace_optional_xattr right resource_name left_resource;
  _ ← run_io (λ h, fsync h left);
  run_io (λ h, fsync h right).
End fileio.

(** * Facts on byte ranges *)

Lemma slice_app_slice {A} (l : list A) s a b :
  0 ≤ s → 0 ≤ a → 0 ≤ b → slice l s a ++ slice l (s + a) b = slice l s (a + b).
Proof.
  intros. unfold slice. rewrite !Z2Nat.inj_add by lia.
  rewrite <- drop_drop. apply take_take_drop.
Qed.

Lemma zlen_slice {A} (l : list A) s n :
  0 ≤ s → 0 ≤ n → s + n ≤ zlen l → zlen (slice l s n) = n.
Proof. intros. rewrite length_slice; lia. Qed.

Lemma slice_full {A} (l : list A) : slice l 0 (zlen l) = l.
Proof. unfold slice, zlen. rewrite drop_0, take_ge by lia. done. Qed.

Lemma slice_nil {A} (l : list A) s : slice l s 0 = [].
Proof. done. Qed.

(** A non-empty write over [nat] positions. *)
Definition overwrite (c : list Z) (n : nat) (data : list Z) : list Z :=
  resize n 0 c ++ data ++ drop (n + length data) c.

Lemma overwrite_app c n a b :
  overwrite (overwrite c n a) (n + length a) b = overwrite c n (a ++ b).
Proof.
  unfold overwrite. rewrite !(app_assoc (resize n 0 c)).
  rewrite (resize_app _ (drop _ _)) by (rewrite length_app, length_resize; done).
  rewrite drop_app_ge by (rewrite length_app, length_resize; lia).
  rewrite drop_drop, length_app, length_app, length_resize, <- !app_assoc.
  do 4 f_equal. lia.
Qed.

Lemma overwrite_app_rev c n a b :
  overwrite (overwrite c (n + length a) b) n a = overwrite c n (a ++ b).
Proof.
  unfold overwrite.
  rewrite resize_app_le by (rewrite length_resize; lia). rewrite resize_resize by lia.
  rewrite drop_app_length' by (rewrite length_resize; done).
  rewrite length_app, <- !app_assoc. do 4 f_equal. lia.
Qed.

Lemma overwrite_before c n d m :
  (m ≤ n)%nat → (m ≤ length c)%nat → take m (overwrite c n d) = take m c.
Proof.
  intros. unfold overwrite. rewrite take_app_le by (rewrite length_resize; lia).
  rewrite take_resize_le by lia. by apply resize_le.
Qed.

Lemma overwrite_after c n d m :
  (n + length d ≤ m)%nat → drop m (overwrite c n d) = drop m c.
Proof.
  intros. unfold overwrite.
  rewrite app_assoc, drop_app_ge by (rewrite length_app, length_resize; lia).
  rewrite drop_drop, length_app, length_resize. f_equal. lia.
Qed.

Lemma length_overwrite c n d :
  length (overwrite c n d) = Nat.max (n + length d) (length c).
Proof. unfold overwrite. rewrite !length_app, length_resize, length_drop. lia. Qed.

Lemma write_bytes_overwrite c o d :
  d ≠ [] → write_bytes c o d = overwrite c (Z.to_nat o) d.
Proof. by destruct d. Qed.

Lemma write_bytes_nil c o : write_bytes c o [] = c.
Proof. done. Qed.

Lemma write_bytes_app c o a b :
  0 ≤ o → write_bytes (write_bytes c o a) (o + zlen a) b = write_bytes c o (a ++ b).
Proof.
  intros Ho. destruct (decide (a = [])) as [->|Ha].
  { by rewrite zlen_nil, Z.add_0_r. }
  destruct (decide (b = [])) as [->|Hb]; [by rewrite app_nil_r|].
  rewrite !write_bytes_overwrite by (done || by destruct a).
  unfold zlen. rewrite Z2Nat.inj_add, Nat2Z.id by lia. apply overwrite_app.
Qed.

Lemma write_bytes_app_rev c o a b :
  0 ≤ o → write_bytes (write_bytes c (o + zlen a) b) o a = write_bytes c o (a ++ b).
Proof.
  intros Ho. destruct (decide (a = [])) as [->|Ha].
  { by rewrite zlen_nil, Z.add_0_r. }
  destruct (decide (b = [])) as [->|Hb]; [by rewrite app_nil_r|].
  rewrite !write_bytes_overwrite by (done || by destruct a).
  unfold zlen. rewrite Z2Nat.inj_add, Nat2Z.id by lia. apply overwrite_app_rev.
Qed.

(** A write does not change a range of the file that it does not meet. *)
Lemma slice_write_bytes c o d s n :
  0 ≤ o → 0 ≤ s → 0 ≤ n → s + n ≤ zlen c → s + n ≤ o ∨ o + zlen d ≤ s →
  slice (write_bytes c o d) s n = slice c s n.
Proof.
  intros Ho Hs Hn Hl Hd. destruct (decide (d = [])) as [->|Hne]; [done|].
  rewrite write_bytes_overwrite by done. unfold slice, zlen in *.
  destruct Hd as [Hd|Hd].
  - rewrite !take_drop_commute. f_equal. apply overwrite_before; lia.
  - f_equal. apply overwrite_after. lia.
Qed.

Lemma zlen_write_bytes c o d : zlen c ≤ zlen (write_bytes c o d).
Proof.
  destruct (decide (d = [])) as [->|Hne]; [done|].
  rewrite write_bytes_overwrite by done. unfold zlen. rewrite length_overwrite. lia.
Qed.

Lemma write_bytes_empty d : write_bytes [] 0 d = d.
Proof. destruct d as [|x d]; [done|]. simpl. by rewrite app_nil_r. Qed.

(** * Specifications *)

Section specs.
Context {H : Type} `{HL : HostFilesLaws H}.

(** [m] run in [h] keeps the frame [F], and its result satisfies [R] or is an
    error, which a reliable host rules out. *)
Definition fm_spec {A} (m : FM A) (h : H) (F : H → Prop) (R : A → H → Prop) : Prop :=
  F (m h).2 ∧
  match (m h).1 with Ok a => R a (m h).2 | Err _ => ¬ reliable H end.

Lemma fm_spec_bind {A B} (m : FM A) (k : A → FM B) h F R R' :
  fm_spec m h F R → (∀ a h', F h' → R a h' → fm_spec (k a) h' F R') →
  fm_spec (mbind k m) h F R'.
Proof.
  unfold fm_spec, mbind, sm_bind. intros [HF' HR] Hk.
  destruct (m h) as [[a|e] h']; simpl in *; [by apply Hk|done].
Qed.

Lemma fm_spec_ret {A} (a : A) h (F : H → Prop) (R : A → H → Prop) :
  F h → R a h → fm_spec (mret a) h F R.
Proof. done. Qed.

Lemma fm_spec_weaken {A} (m : FM A) h (F F' : H → Prop) (R R' : A → H → Prop) :
  fm_spec m h F R → (∀ h', F h' → F' h') → (∀ a h', F h' → R a h' → R' a h') →
  fm_spec m h F' R'.
Proof.
  unfold fm_spec. intros [HF' HR] Hf Hr.
  destruct (m h) as [[a|e] h']; simpl in *; auto.
Qed.

(** The frame of an operation on [f] that only changes its bytes. *)
Definition data_frame (h : H) (f : Z) (h' : H) : Prop := only_file h h' f ∧ same_xattrs h h'.

Lemma only_file_refl h f : only_file h h f.
Proof. done. Qed.

Lemma only_file_trans h h1 h2 f : only_file h h1 f → only_file h1 h2 f → only_file h h2 f.
Proof.
  intros [I1 D1] [I2 D2]. split; [intros g; by rewrite I2|].
  intros g Hg. destruct (D2 g) as [-> ->]; [by rewrite !I1|]. by apply D1.
Qed.

Lemma data_frame_refl h f : data_frame h f h.
Proof. done. Qed.

Lemma data_frame_trans h h1 h2 f :
  data_frame h f h1 → data_frame h1 f h2 → data_frame h f h2.
Proof.
  intros [O1 X1] [O2 X2]. split; [by eapply only_file_trans|].
  intros g. by rewrite X2.
Qed.

Lemma metadata_of_spec h f F :
  F h → fm_spec (metadata_of f) h F
    (λ st h', h' = h ∧ identity_from_stat st = file_identity h f ∧
              Stat.st_size st = zlen (file_data h f)).
Proof.
  intros HFh. unfold fm_spec, metadata_of, lift_io. sm_unfold. simpl.
  destruct (fstat h f) as [st|e] eqn:E; simpl.
  - by apply law_fstat in E as [? ?].
  - split; [done|]. intros Hrel. destruct (rel_fstat _ Hrel h f) as [? ?]. congruence.
Qed.

Lemma file_len_spec h f F :
  F h → fm_spec (file_len f) h F (λ n h', h' = h ∧ n = zlen (file_data h f)).
Proof.
  intros HFh. eapply fm_spec_bind; [by apply metadata_of_spec|].
  intros st h' ? (-> & _ & ->). by apply fm_spec_ret.
Qed.

Lemma read_all_loop_spec h f offset n fuel acc :
  0 ≤ offset → offset + n ≤ zlen (file_data h f) → zlen acc ≤ n →
  acc = slice (file_data h f) offset (zlen acc) → n - zlen acc ≤ Z.of_nat fuel →
  fm_spec (read_all_loop fuel f offset n acc) h (λ h', h' = h)
    (λ b h', b = slice (file_data h f) offset n ∧ zlen b = n).
Proof.
  intros Ho Hn. revert acc. induction fuel as [|fuel IH]; intros acc Hacc Heq Hfuel; simpl.
  all: destruct (Z.ltb_spec (zlen acc) n).
  1: lia.
  1,3: apply fm_spec_ret; [done|]; assert (zlen acc = n) as <- by lia; done.
  pose proof (zlen_nonneg acc). unfold fm_spec, lift_io. sm_unfold. simpl.
  destruct (pread _ _ _ _) as [b|e] eqn:E; simpl.
  2:{ split; [done|]. intros Hrel. destruct (rel_pread _ Hrel h f (offset + zlen acc) (n - zlen acc)).
      congruence. }
  apply law_pread in E as (Hb & Heqb & Hnil); [|lia|lia].
  destruct (bool_decide (b = [])) eqn:Eb; bool_simpl.
  { destruct (Hnil Eb); lia. }
  apply IH.
  - rewrite zlen_app. lia.
  - rewrite zlen_app, <- slice_app_slice by auto using zlen_nonneg. by rewrite <- Heq, <- Heqb.
  - rewrite zlen_app. destruct b; [done|]. rewrite zlen_cons. pose proof (zlen_nonneg b). lia.
Qed.

Lemma read_all_at_spec h f offset n :
  0 ≤ offset → 0 ≤ n → offset + n ≤ zlen (file_data h f) →
  fm_spec (read_all_at f offset n) h (λ h', h' = h)
    (λ b h', b = slice (file_data h f) offset n ∧ zlen b = n).
Proof.
  intros. apply read_all_loop_spec; [done|done|rewrite zlen_nil; lia|done|rewrite zlen_nil; lia].
Qed.

Lemma pwrite_spec h f offset data :
  0 ≤ offset → data ≠ [] →
  fm_spec (run_io (λ h, pwrite h f offset data)) h (data_frame h f)
    (λ w h', 0 ≤ w ≤ zlen data ∧ (reliable H → 0 < w) ∧
       file_data h' f = write_bytes (file_data h f) offset (take (Z.to_nat w) data)).
Proof.
  intros Ho Hne. unfold fm_spec, run_io.
  destruct (pwrite h f offset data) as [r h'] eqn:E. simpl.
  pose proof (law_pwrite _ _ _ _ _ _ Ho E) as (Ho' & Hx & Hr).
  split; [done|].
  destruct r as [w|e]; simpl.
  - destruct Hr. split_and!; [lia|lia| |done]. intros Hrel.
    destruct (rel_pwrite _ Hrel h f offset data Hne) as (w' & h'' & E' & ?).
    rewrite E in E'. by simplify_eq.
  - intros Hrel. destruct (rel_pwrite _ Hrel h f offset data Hne) as (w' & h'' & E' & ?).
    congruence.
Qed.

Lemma write_all_loop_spec h f offset data fuel consumed :
  0 ≤ offset → offset + zlen data ≤ u64_max → 0 ≤ consumed ≤ zlen data →
  zlen data - consumed ≤ Z.of_nat fuel →
  fm_spec (write_all_loop fuel f offset data consumed) h (data_frame h f)
    (λ _ h', file_data h' f =
       write_bytes (file_data h f) (offset + consumed) (drop (Z.to_nat consumed) data)).
Proof.
  intros Ho Hn. revert h consumed. induction fuel as [|fuel IH]; intros h consumed Hc Hfuel; simpl.
  all: destruct (Z.ltb_spec consumed (zlen data)).
  1: lia.
  1,3: apply fm_spec_ret; [done|]; rewrite drop_ge by (unfold zlen in *; lia); done.
  assert (drop (Z.to_nat consumed) data ≠ []) as Hne.
  { intros E%(f_equal length). rewrite length_drop in E. unfold zlen in *. simpl in E. lia. }
  assert (u64_saturating_add offset consumed = offset + consumed) as ->
    by (unfold u64_saturating_add; lia).
  eapply fm_spec_bind; [apply pwrite_spec; [lia|done]|]. simpl.
  intros w h1 Hf1 (Hw & Hpos & Hdata).
  assert (zlen (drop (Z.to_nat consumed) data) = zlen data - consumed) as Hlen
    by (unfold zlen in *; rewrite length_drop; lia).
  destruct (Z.eqb_spec w 0) as [->|Hw0].
  { split; [done|]. simpl. intros Hrel. apply Hpos in Hrel. lia. }
  assert (u64_saturating_add consumed w = consumed + w) as ->
    by (unfold u64_saturating_add; lia).
  eapply fm_spec_weaken; [apply IH; lia| |].
  - intros h' Hf'. by eapply data_frame_trans.
  - simpl. intros _ h' Hf' ->. rewrite Hdata.
    assert (zlen (take (Z.to_nat w) (drop (Z.to_nat consumed) data)) = w) as Hz
      by (unfold zlen in *; rewrite length_take; lia).
    rewrite <- Hz at 2. rewrite Z.add_assoc, write_bytes_app by lia. f_equal.
    rewrite Z2Nat.inj_add, <- drop_drop by lia. apply take_drop.
Qed.

Lemma write_all_at_spec h f offset data :
  0 ≤ offset → offset + zlen data ≤ u64_max →
  fm_spec (write_all_at f offset data false) h (data_frame h f)
    (λ _ h', file_data h' f = write_bytes (file_data h f) offset data).
Proof.
  intros. eapply fm_spec_weaken; [apply (write_all_loop_spec _ _ _ _ _ 0)| |].
  - done.
  - done.
  - pose proof (zlen_nonneg data). lia.
  - unfold zlen. lia.
  - done.
  - simpl. intros _ h' _ ->. by rewrite Z.add_0_r, drop_0.
Qed.

(** ** Copies *)

(** [h'] is [h] after the range of [i] was copied into [o]. *)
Definition copied_to (h h' : H) (i ioff o ooff n : Z) : Prop :=
  data_frame h o h' ∧
  file_data h' o = write_bytes (file_data h o) ooff (slice (file_data h i) ioff n).

(** After the range was copied into [o], the rest of the source is unchanged. *)
Lemma copied_to_source h h' i ioff o ooff n s m :
  copied_to h h' i ioff o ooff n → 0 ≤ ioff → 0 ≤ n → 0 ≤ ooff → 0 ≤ s → 0 ≤ m →
  s + m ≤ zlen (file_data h i) → ioff + n ≤ zlen (file_data h i) →
  file_identity h i ≠ file_identity h o ∨ s + m ≤ ooff ∨ ooff + n ≤ s →
  slice (file_data h' i) s m = slice (file_data h i) s m ∧
  zlen (file_data h i) ≤ zlen (file_data h' i).
Proof.
  intros [[[Hid Hoth] _] Hd] ?????? Hlen Hdis.
  destruct (decide (file_identity h i = file_identity h o)) as [Heq|Hne].
  - assert (file_data h' i = write_bytes (file_data h i) ooff (slice (file_data h i) ioff n)) as ->.
    { destruct (law_alias h i o Heq) as [Ha _].
      destruct (law_alias h' i o) as [Hb _]; [by rewrite !Hid|].
      by rewrite Hb, Hd, Ha. }
    split; [|apply zlen_write_bytes].
    apply slice_write_bytes; [done|done|done|done|].
    rewrite zlen_slice by done. by destruct Hdis.
  - by destruct (Hoth i Hne) as [-> _].
Qed.

(** Copying front to back gives the whole range when the destination does not
    run over the part of the source still to be read. *)
Definition forward_safe (h : H) (i ioff o ooff n : Z) : Prop :=
  file_identity h i ≠ file_identity h o ∨ ooff ≤ ioff ∨ ioff + n ≤ ooff.

Lemma forward_safe_next h h' i ioff o ooff a b :
  0 ≤ a → data_frame h o h' → forward_safe h i ioff o ooff (a + b) →
  forward_safe h' i (ioff + a) o (ooff + a) b.
Proof. intros ? [[Hid _] _] Hs. unfold forward_safe in *. rewrite !Hid.
  destruct Hs as [?|?]; [by left|right; lia].
Qed.

Lemma copied_to_forward h h1 h2 i ioff o ooff a b :
  0 ≤ ioff → 0 ≤ ooff → 0 ≤ a → 0 ≤ b → ioff + (a + b) ≤ zlen (file_data h i) →
  forward_safe h i ioff o ooff (a + b) →
  copied_to h h1 i ioff o ooff a → copied_to h1 h2 i (ioff + a) o (ooff + a) b →
  copied_to h h2 i ioff o ooff (a + b).
Proof.
  intros ????? Hs Hc1 Hc2.
  destruct (copied_to_source h h1 i ioff o ooff a (ioff + a) b Hc1) as [Hsl _]; try lia.
  { destruct Hs as [?|?]; [by left|right; lia]. }
  destruct Hc1 as [F1 D1], Hc2 as [F2 D2].
  split; [by eapply data_frame_trans|].
  rewrite D2, D1, Hsl, <- (slice_app_slice _ ioff a b) by lia.
  rewrite <- write_bytes_app, zlen_slice by lia. done.
Qed.

Lemma copied_to_backward h h1 h2 i ioff o ooff a b :
  0 ≤ ioff → ioff ≤ ooff → 0 ≤ a → 0 ≤ b → ioff + (a + b) ≤ zlen (file_data h i) →
  copied_to h h1 i (ioff + a) o (ooff + a) b → copied_to h1 h2 i ioff o ooff a →
  copied_to h h2 i ioff o ooff (a + b).
Proof.
  intros ????? Hc1 Hc2.
  destruct (copied_to_source h h1 i (ioff + a) o (ooff + a) b ioff a Hc1) as [Hsl _]; try lia.
  destruct Hc1 as [F1 D1], Hc2 as [F2 D2].
  split; [by eapply data_frame_trans|].
  rewrite D2, D1, Hsl, <- (slice_app_slice _ ioff a b) by lia.
  rewrite <- write_bytes_app_rev, zlen_slice by lia. done.
Qed.

Lemma copied_to_nothing h i ioff o ooff : copied_to h h i ioff o ooff 0.
Proof. done. Qed.

(** One buffered step: read a block, then write it. *)
Lemma copy_block_spec h i ioff o ooff n :
  0 ≤ ioff → 0 ≤ ooff → 0 ≤ n → ioff + n ≤ zlen (file_data h i) → ooff + n ≤ u64_max →
  fm_spec (buffer ← read_all_at i ioff n; write_all_at o ooff buffer false) h
    (data_frame h o) (λ _ h', copied_to h h' i ioff o ooff n).
Proof.
  intros ?????.
  apply (fm_spec_bind _ _ _ _
    (λ b h', h' = h ∧ b = slice (file_data h i) ioff n ∧ zlen b = n)).
  { eapply fm_spec_weaken; [apply (read_all_at_spec h i ioff n); lia| |].
    - by intros h' ->.
    - intros b h' -> Hb. by split. }
  simpl. intros b h' _ (-> & -> & Hlen).
  eapply fm_spec_weaken; [apply write_all_at_spec; [done|rewrite Hlen; lia]|done|].
  simpl. intros _ h'' Hf Hd. by split.
Qed.

Lemma fm_bind_assoc {A B C} (m : FM A) (k : A → FM B) (l : B → FM C) (h : H) :
  (b ← (a ← m; k a); l b) h = (a ← m; b ← k a; l b) h.
Proof. unfold mbind, sm_bind. by destruct (m h) as [[a|e] h']. Qed.

Lemma fm_spec_ext {A} (m m' : FM A) h F R :
  m h = m' h → fm_spec m' h F R → fm_spec m h F R.
Proof. unfold fm_spec. by intros ->. Qed.

Lemma copy_range_buffered_loop_spec h i ioff o ooff n fuel :
  0 ≤ ioff → 0 ≤ ooff → 0 ≤ n ≤ Z.of_nat fuel → ioff + n ≤ zlen (file_data h i) →
  ooff + n ≤ u64_max → forward_safe h i ioff o ooff n →
  fm_spec (copy_range_buffered_loop fuel i ioff o ooff n) h (data_frame h o)
    (λ _ h', copied_to h h' i ioff o ooff n).
Proof.
  revert h ioff ooff n. induction fuel as [|fuel IH]; intros h ioff ooff n ? ? ? ? ? Hs; simpl.
  all: destruct (Z.ltb_spec 0 n).
  1: lia.
  1,3: apply fm_spec_ret; [done|]; assert (n = 0) as -> by lia; apply copied_to_nothing.
  set (a := Z.min n COPY_CHUNK).
  assert (0 < a ≤ n) as Ha by (unfold a, COPY_CHUNK; lia).
  eapply fm_spec_ext; [symmetry; apply fm_bind_assoc|].
  eapply fm_spec_bind; [apply copy_block_spec; lia|].
  simpl. intros _ h1 Hf1 Hc1.
  destruct (copied_to_source _ _ _ _ _ _ _ (ioff + a) (n - a) Hc1) as [Hsl Hlen]; try lia.
  { destruct Hs as [?|?]; [by left|right; lia]. }
  eapply fm_spec_weaken; [apply IH; try lia| |].
  - eapply forward_safe_next; [lia|done|]. by replace (a + (n - a)) with n by lia.
  - intros h' Hf'. by eapply data_frame_trans.
  - simpl. intros _ h' Hf' Hc2. replace n with (a + (n - a)) by lia.
    eapply copied_to_forward; try done; try lia. by replace (a + (n - a)) with n by lia.
Qed.

Lemma copy_range_buffered_spec h i ioff o ooff n :
  0 ≤ ioff → 0 ≤ ooff → 0 ≤ n → ioff + n ≤ zlen (file_data h i) →
  ooff + n ≤ u64_max → forward_safe h i ioff o ooff n →
  fm_spec (copy_range_buffered i ioff o ooff n) h (data_frame h o)
    (λ _ h', copied_to h h' i ioff o ooff n).
Proof. intros. apply copy_range_buffered_loop_spec; try done; lia. Qed.

Lemma copy_backward_loop_spec h i ioff o ooff n fuel :
  0 ≤ ioff → ioff ≤ ooff → 0 ≤ n ≤ Z.of_nat fuel → ioff + n ≤ zlen (file_data h i) →
  ooff + n ≤ u64_max →
  fm_spec (copy_backward_loop fuel i ioff o ooff n) h (data_frame h o)
    (λ _ h', copied_to h h' i ioff o ooff n).
Proof.
  revert h n. induction fuel as [|fuel IH]; intros h n ? ? ? ? ?; simpl.
  all: destruct (Z.ltb_spec 0 n).
  1: lia.
  1,3: apply fm_spec_ret; [done|]; assert (n = 0) as -> by lia; apply copied_to_nothing.
  set (a := Z.min n COPY_CHUNK).
  assert (0 < a ≤ n) as Ha by (unfold a, COPY_CHUNK; lia).
  eapply fm_spec_ext; [symmetry; apply fm_bind_assoc|].
  eapply fm_spec_bind; [apply copy_block_spec; lia|].
  simpl. intros _ h1 Hf1 Hc1.
  destruct (copied_to_source _ _ _ _ _ _ _ ioff (n - a) Hc1) as [Hsl Hlen]; try lia.
  eapply fm_spec_weaken; [apply IH; try lia| |].
  - intros h' Hf'. by eapply data_frame_trans.
  - simpl. intros _ h' Hf' Hc2. replace n with ((n - a) + a) by lia.
    eapply copied_to_backward; try done; try lia.
    by rewrite !Z.add_sub_assoc.
Qed.

Lemma copy_overlap_spec h i ioff o ooff n :
  0 ≤ ioff → 0 ≤ ooff → 0 ≤ n → ioff + n ≤ zlen (file_data h i) → ooff + n ≤ u64_max →
  fm_spec (copy_range_buffered_overlap i ioff o ooff n) h (data_frame h o)
    (λ _ h', copied_to h h' i ioff o ooff n).
Proof.
  intros. unfold copy_range_buffered_overlap. destruct (Z.leb_spec ooff ioff).
  - apply copy_range_buffered_spec; try done. right. by left.
  - apply copy_backward_loop_spec; lia.
Qed.

Lemma copy_file_range_spec h i ioff o ooff n :
  0 ≤ ioff → 0 ≤ ooff → 0 < n → ioff + n ≤ zlen (file_data h i) →
  fm_spec (try_sys (λ h, copy_file_range_sys h i ioff o ooff n)) h (data_frame h o)
    (λ r h', match r with
             | Ok k => 0 ≤ k ≤ n ∧ copied_to h h' i ioff o ooff k
             | Err e => copied_to h h' i ioff o ooff 0 ∧
                 (reliable H → e ∈ [Errno.XDEV; Errno.INVAL; Errno.NOSYS; Errno.NOTSUP])
             end).
Proof.
  intros Hi Ho Hn Hl. unfold fm_spec, try_sys.
  destruct (copy_file_range_sys h i ioff o ooff n) as [r h'] eqn:E. simpl.
  pose proof (law_copy_range _ _ _ _ _ _ _ _ Hi Ho (Z.lt_le_incl _ _ Hn) E) as (Hof & Hx & Hr).
  split; [done|]. destruct r as [k|e].
  - destruct Hr as (? & ? & ?). by split.
  - split; [split; [done|apply Hr]|]. intros Hrel.
    destruct (rel_copy_range _ Hrel h i ioff o ooff n) as (r' & h'' & E' & Hr').
    rewrite E in E'. by simplify_eq.
Qed.

Lemma copy_kernel_loop_spec h i ioff o ooff amount copied fuel :
  0 ≤ ioff → 0 ≤ ooff → 0 ≤ copied ≤ amount → amount - copied ≤ Z.of_nat fuel →
  ioff + amount ≤ zlen (file_data h i) → amount ≤ u64_max →
  forward_safe h i (ioff + copied) o (ooff + copied) (amount - copied) →
  fm_spec (copy_kernel_loop fuel i ioff o ooff amount copied) h (data_frame h o)
    (λ k h', copied ≤ k ≤ amount ∧
             copied_to h h' i (ioff + copied) o (ooff + copied) (k - copied)).
Proof.
  revert h copied. induction fuel as [|fuel IH]; intros h copied ? ? ? ? ? ? Hs; simpl.
  all: destruct (Z.ltb_spec copied amount).
  1: lia.
  1,3: apply fm_spec_ret; [done|]; assert (copied = amount) as -> by lia; rewrite Z.sub_diag;
    split; [lia|apply copied_to_nothing].
  assert (Z.min (amount - copied) u64_max = amount - copied) as -> by lia.
  eapply fm_spec_bind; [apply copy_file_range_spec; lia|].
  simpl. intros [k|e] h1 Hf1 Hk.
  - destruct Hk as [Hk Hc1]. destruct (Z.eqb_spec k 0) as [->|Hk0].
    { apply fm_spec_ret; [done|]. rewrite Z.sub_diag. split; [lia|done]. }
    assert (u64_saturating_add copied k = copied + k) as ->
      by (unfold u64_saturating_add; lia).
    destruct (copied_to_source _ _ _ _ _ _ _ (ioff + (copied + k)) (amount - (copied + k)) Hc1)
      as [Hsl Hlen]; try lia.
    { destruct Hs as [?|?]; [by left|right; lia]. }
    eapply fm_spec_weaken; [apply IH; try lia| |].
    + rewrite !Z.add_assoc. eapply forward_safe_next; [lia|done|].
      by replace (k + (amount - (copied + k))) with (amount - copied) by lia.
    + intros h' Hf'. by eapply data_frame_trans.
    + simpl. intros k' h' _ [Hk' Hc2]. split; [lia|].
      replace (k' - copied) with (k + (k' - (copied + k))) by lia.
      rewrite !Z.add_assoc in Hc2.
      eapply copied_to_forward; try done; try lia.
      destruct Hs as [?|?]; [by left|right; lia].
  - destruct Hk as [Hc0 Hrel].
    assert (copied ≤ copied ≤ amount ∧
      copied_to h h1 i (ioff + copied) o (ooff + copied) (copied - copied)) as Hdone.
    { rewrite Z.sub_diag. split; [lia|done]. }
    assert (¬ (e ∈ [Errno.XDEV; Errno.INVAL; Errno.NOSYS; Errno.NOTSUP]) → ¬ reliable H) as Hbad
      by auto.
    destruct e; try (by apply fm_spec_ret); split; try done; simpl; apply Hbad;
      by rewrite !elem_of_cons, elem_of_nil; intuition discriminate.
Qed.

(** The reflink attempt in front of the copy. *)
Lemma ficlone_spec h i o :
  file_data h o = [] →
  fm_spec (r ← try_sys (λ h, ficlone h o i); mret (is_ok r)) h (data_frame h o)
    (λ cloned h', if cloned then copied_to h h' i 0 o 0 (zlen (file_data h i))
                  else same_data h h').
Proof.
  intros Hempty. unfold fm_spec, try_sys. sm_unfold.
  destruct (ficlone h o i) as [r h'] eqn:E. simpl.
  pose proof (law_ficlone _ _ _ _ _ E) as (Hof & Hx & Hr).
  split; [done|]. destruct r as [[]|e]; simpl; [|done].
  split; [done|]. by rewrite Hr, Hempty, slice_full, write_bytes_empty.
Qed.

Lemma copied_to_same_data h h1 h2 i ioff o ooff n :
  data_frame h o h1 → same_data h h1 → copied_to h1 h2 i ioff o ooff n →
  copied_to h h2 i ioff o ooff n.
Proof.
  intros Hf Hd [Hf2 Hd2]. split; [by eapply data_frame_trans|].
  by rewrite Hd2, !Hd.
Qed.

Lemma zlen_zero_nil {A} (l : list A) : zlen l = 0 → l = [].
Proof. destruct l; [done|]. rewrite zlen_cons. pose proof (zlen_nonneg l). lia. Qed.

Lemma try_reflink_spec h i ioff o ooff amount :
  fm_spec (try_reflink i ioff o ooff amount) h (data_frame h o)
    (λ cloned h', if cloned then copied_to h h' i ioff o ooff amount else same_data h h').
Proof.
  unfold try_reflink. destruct (_ && _) eqn:E; [|by apply fm_spec_ret].
  bool_simpl. subst.
  eapply fm_spec_bind; [by apply file_len_spec|]. simpl. intros ilen h1 _ [-> ->].
  destruct (Z.eqb_spec amount (zlen (file_data h i))) as [->|]; [|by apply fm_spec_ret].
  eapply fm_spec_bind; [by apply file_len_spec|]. simpl. intros olen h1 _ [-> ->].
  destruct (Z.eqb_spec (zlen (file_data h o)) 0) as [E|]; [|by apply fm_spec_ret].
  apply ficlone_spec. by apply zlen_zero_nil.
Qed.

(** The bytes a copy of [length] bytes from [ioff] can take from the source. *)
Definition copy_amount (h : H) (i ioff length : Z) : Z :=
  Z.min length (Z.max 0 (zlen (file_data h i) - ioff)).

(** The [copy_file_range] loop, completed by the buffered copy. *)
Lemma copy_kernel_then_buffered h h1 i ioff o ooff amount :
  0 ≤ ioff → 0 ≤ ooff → 0 ≤ amount ≤ u64_max → ooff + amount ≤ u64_max →
  ioff + amount ≤ zlen (file_data h1 i) → forward_safe h1 i ioff o ooff amount →
  (∀ h', data_frame h1 o h' → data_frame h o h') →
  (∀ h', copied_to h1 h' i ioff o ooff amount → copied_to h h' i ioff o ooff amount) →
  fm_spec
    (copied ← copy_kernel_loop (Z.to_nat amount) i ioff o ooff amount 0;
     if copied =? amount then mret copied
     else _ ← copy_range_buffered i (ioff + copied) o (ooff + copied) (amount - copied);
          mret amount) h1 (data_frame h o)
    (λ n h', n = amount ∧ copied_to h h' i ioff o ooff n).
Proof.
  intros ????? Hs Hfr Hcp.
  eapply fm_spec_weaken; [|exact Hfr|].
  2:{ intros n h' _ Hn. exact Hn. }
  eapply fm_spec_bind; [apply copy_kernel_loop_spec; try lia|].
  { by rewrite !Z.add_0_r, Z.sub_0_r. }
  simpl. intros k h2 Hf2 [Hk Hc1]. rewrite !Z.add_0_r, Z.sub_0_r in Hc1.
  destruct (Z.eqb_spec k amount) as [->|Hne].
  { apply fm_spec_ret; [done|]. split; [done|]. by apply Hcp. }
  destruct (copied_to_source _ _ _ _ _ _ _ (ioff + k) (amount - k) Hc1) as [_ Hlen]; try lia.
  { destruct Hs as [?|?]; [by left|right; lia]. }
  eapply fm_spec_bind.
  { eapply fm_spec_weaken; [apply copy_range_buffered_spec; try lia| |].
    - eapply forward_safe_next; [lia|done|]. by replace (k + (amount - k)) with amount by lia.
    - intros h' Hf'. by eapply data_frame_trans.
    - simpl. intros a h' _ Hc2. exact Hc2. }
  simpl. intros _ h3 Hf3 Hc2. apply fm_spec_ret; [done|]. split; [done|]. apply Hcp.
  replace amount with (k + (amount - k)) by lia.
  eapply copied_to_forward; try done; try lia. by replace (k + (amount - k)) with amount by lia.
Qed.

Lemma copy_range_server_spec h i ioff o ooff length :
  0 ≤ ioff → 0 ≤ ooff → 0 ≤ length → zlen (file_data h i) ≤ u64_max →
  ooff + length ≤ u64_max →
  fm_spec (copy_range_server i ioff o ooff length) h (data_frame h o)
    (λ n h', n = copy_amount h i ioff length ∧ copied_to h h' i ioff o ooff n).
Proof.
  intros Hi Ho Hlen Hu Hou. unfold copy_range_server.
  eapply fm_spec_bind; [by apply file_len_spec|]. simpl. intros len h1 _ [-> ->].
  change (Z.min length (u64_saturating_sub (zlen (file_data h i)) ioff))
    with (Z.min length (Z.max (zlen (file_data h i) - ioff) 0)).
  rewrite (Z.max_comm _ 0). fold (copy_amount h i ioff length).
  set (amount := copy_amount h i ioff length).
  assert (0 ≤ amount ≤ length ∧ (amount ≠ 0 → ioff + amount ≤ zlen (file_data h i)))
    as [Ham Hend] by (unfold amount, copy_amount; lia).
  destruct (Z.eqb_spec amount 0) as [E0|Hne]; [by apply fm_spec_ret|].
  specialize (Hend Hne).
  eapply fm_spec_bind; [apply try_reflink_spec|]. simpl.
  intros [] h1 Hf1 H1c; [by apply fm_spec_ret|].
  eapply fm_spec_bind; [by apply metadata_of_spec|]. simpl. intros im h2 _ (-> & Him & _).
  eapply fm_spec_bind; [by apply metadata_of_spec|]. simpl. intros om h2 _ (-> & Hom & _).
  assert (∀ x, 0 ≤ x → x + amount ≤ u64_max → u64_saturating_add x amount = x + amount) as Hsat
    by (unfold u64_saturating_add; lia).
  rewrite !Hsat, Him, Hom by lia.
  assert (ioff + amount ≤ zlen (file_data h1 i)) as Hend1 by (by rewrite H1c).
  assert (∀ h', data_frame h1 o h' → data_frame h o h') as Hfr.
  { intros h' ?. by eapply data_frame_trans. }
  assert (∀ h', copied_to h1 h' i ioff o ooff amount → copied_to h h' i ioff o ooff amount) as Hcp.
  { intros h' ?. by eapply copied_to_same_data. }
  destruct (_ && _) eqn:Eov.
  - eapply fm_spec_bind.
    { eapply fm_spec_weaken; [apply (copy_overlap_spec h1 i ioff o ooff amount); lia|exact Hfr|].
      intros a h' _ Hc. exact (Hcp _ Hc). }
    simpl. intros _ h2 ? Hc. by apply fm_spec_ret.
  - assert (forward_safe h1 i ioff o ooff amount) as Hsafe.
    { unfold forward_safe. bool_simpl.
      destruct Eov as [[Eid|Eo]%andb_false_iff|Eo]; bool_simpl; [by left|right; lia|right; lia]. }
    apply copy_kernel_then_buffered; try done; lia.
Qed.

Lemma copy_in_chunks_loop_spec h i o offset n fuel :
  file_identity h i ≠ file_identity h o → 0 ≤ offset → 0 ≤ n ≤ Z.of_nat fuel →
  offset + n ≤ zlen (file_data h i) → zlen (file_data h i) ≤ u64_max →
  fm_spec (copy_in_chunks_loop fuel i o offset n) h (data_frame h o)
    (λ _ h', copied_to h h' i offset o offset n).
Proof.
  revert h offset n. induction fuel as [|fuel IH]; intros h offset n Hne ? ? ? ?; simpl.
  all: destruct (Z.ltb_spec 0 n).
  1: lia.
  1,3: apply fm_spec_ret; [done|]; assert (n = 0) as -> by lia; apply copied_to_nothing.
  set (chunk := Z.min n EXCHANGE_CHUNK).
  assert (0 < chunk ≤ n) as Hch by (unfold chunk, EXCHANGE_CHUNK; lia).
  eapply fm_spec_bind; [apply copy_range_server_spec; lia|].
  simpl. intros k h1 Hf1 [-> Hc1].
  assert (copy_amount h i offset chunk = chunk) as Hamt by (unfold copy_amount; lia).
  rewrite Hamt in *. destruct (Z.eqb_spec chunk 0); [lia|].
  destruct (Hf1) as [[Hid Hoth] _].
  assert (file_data h1 i = file_data h i) as Hdi by (by apply Hoth).
  eapply fm_spec_weaken; [apply IH; rewrite ?Hdi, ?Hid; try lia; done| |].
  - intros h' Hf'. by eapply data_frame_trans.
  - simpl. intros _ h' _ Hc2. replace n with (chunk + (n - chunk)) by lia.
    eapply copied_to_forward; try done; try lia. by left.
Qed.

(** Copying a whole file over an empty one. *)
Lemma copy_whole_spec h i o :
  file_identity h i ≠ file_identity h o → zlen (file_data h i) ≤ u64_max →
  file_data h o = [] →
  fm_spec (copy_range_in_chunks i o (zlen (file_data h i))) h (data_frame h o)
    (λ _ h', file_data h' o = file_data h i).
Proof.
  intros Hne Hu Hempty. pose proof (zlen_nonneg (file_data h i)).
  eapply fm_spec_weaken; [apply copy_in_chunks_loop_spec; try done; lia|done|].
  simpl. intros _ h' _ [_ ->]. by rewrite Hempty, slice_full, write_bytes_empty.
Qed.

Lemma truncate_spec h f :
  fm_spec (run_io (λ h, ftruncate h f 0)) h (data_frame h f) (λ _ h', file_data h' f = []).
Proof.
  unfold fm_spec, run_io. destruct (ftruncate h f 0) as [r h'] eqn:E. simpl.
  pose proof (law_ftruncate _ _ _ _ _ (Z.le_refl 0) E) as (Hof & Hx & Hr).
  split; [done|]. destruct r as [[]|e]; simpl.
  - rewrite Hr by done. by rewrite resize_0.
  - intros Hrel. destruct (rel_ftruncate _ Hrel h f 0) as [? ?]. congruence.
Qed.

Lemma fsync_spec h f :
  fm_spec (run_io (λ h, fsync h f)) h (data_frame h f) (λ _ h', same_data h h').
Proof.
  unfold fm_spec, run_io. destruct (fsync h f) as [r h'] eqn:E. simpl.
  pose proof (law_fsync _ _ _ _ E) as (Hof & Hx & Hr).
  split; [done|]. destruct r as [[]|e]; simpl; [done|].
  intros Hrel. destruct (rel_fsync _ Hrel h f) as [? ?]. congruence.
Qed.

(** ** Extended attributes *)

Lemma of_errno_no_attribute e : of_errno e = ServerError.NoAttribute ↔ e = Errno.NODATA.
Proof. destruct e; unfold of_errno; simpl; naive_solver. Qed.

Lemma read_xattr_loop_spec h f name maximum fuel capacity :
  1 ≤ capacity ≤ maximum → maximum ≤ u64_max → maximum ≤ capacity * 2 ^ Z.of_nat fuel →
  let '(r, h') := read_xattr_loop fuel f name maximum capacity h in
  h' = h ∧
  match r with
  | Ok v => file_xattrs h f !! name = Some v ∧ zlen v ≤ maximum
  | Err ServerError.NoAttribute => file_xattrs h f !! name = None
  | Err _ => reliable H → ∃ v, file_xattrs h f !! name = Some v ∧ maximum < zlen v
  end.
Proof.
  intros Hcap Hu. revert capacity Hcap.
  induction fuel as [|fuel IH]; intros capacity Hcap Hfuel; cbn [read_xattr_loop].
  all: unfold ask_sys; sm_unfold.
  all: pose proof (law_fgetxattr h f name capacity ltac:(lia)) as Hlaw.
  all: assert (reliable H → match fgetxattr h f name capacity with
    | Ok _ | Err Errno.NODATA => True | Err Errno.RANGE => True | Err _ => False end) as Hrel
    by (intros Hr; apply (rel_fgetxattr _ Hr); lia).
  all: destruct (fgetxattr h f name capacity) as [v|e].
  1,3: split; [done|]; destruct Hlaw; split; [done|lia].
  all: destruct e; simpl; try (split; [done|]; try done; intros ?; by apply Hrel).
  - simpl in Hfuel. destruct (Z.ltb_spec capacity maximum); [lia|].
    split; [done|]. intros _. destruct Hlaw as (v & ? & ?). exists v. split; [done|lia].
  - destruct (Z.ltb_spec capacity maximum).
    + apply IH; unfold u64_saturating_mul; [lia|].
      rewrite Nat2Z.inj_succ, Z.pow_succ_r in Hfuel by lia.
      pose proof (Z.pow_pos_nonneg 2 (Z.of_nat fuel)). nia.
    + split; [done|]. intros _. destruct Hlaw as (v & ? & ?). exists v. split; [done|lia].
Qed.

Lemma read_optional_xattr_spec h f name :
  (∀ v, file_xattrs h f !! name = Some v → zlen v ≤ MAX_XATTR_SIZE) →
  fm_spec (read_optional_xattr f name) h (λ h', h' = h)
    (λ o h', o = file_xattrs h f !! name).
Proof.
  intros Hfit. unfold fm_spec, read_optional_xattr, read_fd_xattr. sm_unfold.
  change (Z.min 256 (Z.max MAX_XATTR_SIZE 1)) with 256.
  pose proof (read_xattr_loop_spec h f name MAX_XATTR_SIZE 64 256) as Hspec.
  destruct (read_xattr_loop _ _ _ _ _ _) as [r h'].
  destruct Hspec as [-> Hr]; [done|done|done|].
  destruct r as [v|e]; simpl; [by destruct Hr as [-> _]|].
  assert (file_xattrs h f !! name = None ∨ ¬ reliable H) as Hor.
  { destruct e; try (by left); right; intros Hrel; destruct (Hr Hrel) as (v & Hv & ?);
      apply Hfit in Hv; lia. }
  destruct e; simpl; try (split; [done|]; intros Hrel; destruct (Hr Hrel) as (v & Hv & ?);
      apply Hfit in Hv; lia).
  by rewrite Hr.
Qed.

(** The frame of an operation on [f] that only changes its attributes. *)
Definition xattr_frame (h : H) (f : Z) (h' : H) : Prop := only_file h h' f ∧ same_data h h'.

Lemma replace_optional_xattr_spec h f name value :
  fm_spec (replace_optional_xattr f name value) h (xattr_frame h f)
    (λ _ h', file_xattrs h' f = partial_alter (λ _, value) name (file_xattrs h f)).
Proof.
  unfold fm_spec, replace_optional_xattr, run_sys, try_sys. destruct value as [v|]; sm_unfold.
  - destruct (fsetxattr h f name v) as [r h'] eqn:E. simpl.
    pose proof (law_fsetxattr _ _ _ _ _ _ E) as (Hof & Hd & Hr).
    split; [done|]. destruct r as [[]|e]; simpl; [done|].
    intros Hrel. destruct (rel_fsetxattr _ Hrel h f name v) as [? ?]. congruence.
  - destruct (fremovexattr h f name) as [r h'] eqn:E. simpl.
    pose proof (law_fremovexattr _ _ _ _ _ E) as (Hof & Hd & Hr).
    destruct r as [[]|e]; simpl; [done|].
    destruct (bool_decide _) eqn:Eb; bool_simpl; simpl.
    + apply of_errno_no_attribute in Eb as ->. destruct Hr as [Hn Hx].
      split; [done|]. rewrite Hx. change (file_xattrs h f = delete name (file_xattrs h f)).
      by rewrite delete_id.
    + split; [done|]. intros Hrel.
      destruct (rel_fremovexattr _ Hrel h f name) as (r & h'' & E' & [-> | ->]); [congruence|].
      rewrite E in E'. by simplify_eq.
Qed.

(** ** Exchange *)

(** The state of an exchange of [l] and [r] through [t] started in [h]:
    the contents reached so far; nothing else has changed. *)
Definition exchange_state (h : H) (l r t : Z) (dl dr dt : list Z) (h' : H) : Prop :=
  (∀ g, file_identity h' g = file_identity h g) ∧ same_xattrs h h' ∧
  file_data h' l = dl ∧ file_data h' r = dr ∧ file_data h' t = dt ∧
  (∀ g, file_identity h g ∉ [file_identity h l; file_identity h r; file_identity h t] →
     file_data h' g = file_data h g).

Definition exchange_distinct (h : H) (l r t : Z) : Prop :=
  file_identity h l ≠ file_identity h r ∧ file_identity h l ≠ file_identity h t ∧
  file_identity h r ≠ file_identity h t.

(** A step that rewrites the contents of one of the three files. *)
Lemma exchange_step_l h l r t dl dr dt d h1 h2 :
  exchange_distinct h l r t → exchange_state h l r t dl dr dt h1 →
  data_frame h1 l h2 → file_data h2 l = d → exchange_state h l r t d dr dt h2.
Proof.
  intros (D1 & D2 & D3) (Hid & Hx & Hl & Hr & Ht & Hg) [[Hid2 Hoth] Hx2] Hd.
  unfold exchange_state, same_xattrs in *. split_and!; try done.
  - intros g. by rewrite Hid2.
  - intros g. by rewrite Hx2.
  - rewrite <- Hr. apply Hoth. rewrite !Hid. congruence.
  - rewrite <- Ht. apply Hoth. rewrite !Hid. congruence.
  - intros g Hg'. rewrite <- Hg by done. apply Hoth. rewrite !Hid.
    intros E. apply Hg'. rewrite E. left.
Qed.

(** The roles of the three files are interchangeable in the state. *)
Lemma exchange_state_swap h l r t dl dr dt h' :
  exchange_state h l r t dl dr dt h' → exchange_state h r l t dr dl dt h'.
Proof.
  intros (Hid & Hx & Hl & Hr & Ht & Hg). split_and!; try done.
  intros g Hg'. apply Hg. set_solver.
Qed.

Lemma exchange_state_rot h l r t dl dr dt h' :
  exchange_state h l r t dl dr dt h' → exchange_state h t l r dt dl dr h'.
Proof.
  intros (Hid & Hx & Hl & Hr & Ht & Hg). split_and!; try done.
  intros g Hg'. apply Hg. set_solver.
Qed.

Lemma exchange_truncate h l r t dl dr dt h1 :
  exchange_distinct h l r t → exchange_state h l r t dl dr dt h1 →
  fm_spec (run_io (λ h, ftruncate h l 0)) h1 (λ _, True)
    (λ _ h', exchange_state h l r t [] dr dt h').
Proof.
  intros HD HS. eapply fm_spec_weaken; [apply truncate_spec|done|].
  simpl. intros _ h' Hf Hd. by eapply exchange_step_l.
Qed.

Lemma exchange_copy h l r t dr dt h1 :
  exchange_distinct h l r t → exchange_state h l r t [] dr dt h1 → zlen dr ≤ u64_max →
  fm_spec (copy_range_in_chunks r l (zlen dr)) h1 (λ _, True)
    (λ _ h', exchange_state h l r t dr dr dt h').
Proof.
  intros HD HS Hu. pose proof HS as (Hid & _ & Hl & Hr & _).
  eapply fm_spec_weaken; [rewrite <- Hr in *; apply copy_whole_spec|done|].
  - rewrite !Hid. destruct HD. congruence.
  - done.
  - done.
  - simpl. intros _ h' Hf Hd. rewrite Hr in *. by eapply exchange_step_l.
Qed.

Lemma exchange_data_phase {A} (k : FM A) (R : A → H → Prop) h l r t :
  exchange_distinct h l r t →
  (∀ h', exchange_state h l r t (file_data h r) (file_data h l) (file_data h l) h' →
     fm_spec k h' (λ _, True) R) →
  zlen (file_data h l) ≤ u64_max → zlen (file_data h r) ≤ u64_max →
  let ls := zlen (file_data h l) in
  let rs := zlen (file_data h r) in
  fm_spec
    (_ ← run_io (λ h, ftruncate h t 0);
     _ ← copy_range_in_chunks l t ls;
     _ ← run_io (λ h, ftruncate h l 0);
     _ ← copy_range_in_chunks r l rs;
     _ ← run_io (λ h, ftruncate h r 0);
     _ ← copy_range_in_chunks t r ls;
     k) h (λ _, True) R.
Proof.
  intros HD Hk Hlu Hru ls rs. pose proof HD as (D1 & D2 & D3).
  assert (exchange_distinct h t l r) as HD2 by (split_and!; congruence).
  assert (exchange_distinct h r l t) as HD3 by (split_and!; congruence).
  assert (exchange_distinct h r t l) as HD4 by (split_and!; congruence).
  assert (exchange_state h l r t (file_data h l) (file_data h r) (file_data h t) h) as HS0
    by (split_and!; done).
  eapply fm_spec_bind; [eapply exchange_truncate, exchange_state_rot; [apply HD2|apply HS0]|].
  simpl. intros _ h1 _ HS1.
  eapply fm_spec_bind; [eapply exchange_copy; [apply HD2|apply HS1|done]|].
  simpl. intros _ h2 _ HS2. do 2 apply exchange_state_rot in HS2.
  eapply fm_spec_bind; [eapply exchange_truncate; [apply HD|apply HS2]|].
  simpl. intros _ h3 _ HS3.
  eapply fm_spec_bind; [eapply exchange_copy; [apply HD|apply HS3|done]|].
  simpl. intros _ h4 _ HS4. apply exchange_state_swap in HS4.
  eapply fm_spec_bind; [eapply exchange_truncate; [apply HD3|apply HS4]|].
  simpl. intros _ h5 _ HS5. apply exchange_state_rot, exchange_state_swap in HS5.
  eapply fm_spec_bind; [eapply exchange_copy; [apply HD4|apply HS5|done]|].
  simpl. intros _ h6 _ HS6. apply exchange_state_rot in HS6. by apply Hk.
Qed.

(** What an exchange leaves behind: contents and resource attribute of [l]
    and [r] have changed places; the other attributes, and every file that is
    none of the three, are as before. *)
Definition exchanged (h : H) (name : list Z) (l r t : Z) (h' : H) : Prop :=
  file_data h' l = file_data h r ∧ file_data h' r = file_data h l ∧
  file_xattrs h' l = partial_alter (λ _, file_xattrs h r !! name) name (file_xattrs h l) ∧
  file_xattrs h' r = partial_alter (λ _, file_xattrs h l !! name) name (file_xattrs h r) ∧
  (∀ g, file_identity h g ∉ [file_identity h l; file_identity h r; file_identity h t] →
     file_data h' g = file_data h g ∧ file_xattrs h' g = file_xattrs h g).

Lemma exchange_xattr_phase h h1 name l r t dt :
  exchange_distinct h l r t →
  (∀ f v, file_xattrs h f !! name = Some v → zlen v ≤ MAX_XATTR_SIZE) →
  exchange_state h l r t (file_data h r) (file_data h l) dt h1 →
  fm_spec
    (left_resource ← read_optional_xattr l name;
     right_resource ← read_optional_xattr r name;
     _ ← replace_optional_xattr l name right_resource;
     _ ← replace_optional_xattr r name left_resource;
     _ ← run_io (λ h, fsync h l);
     run_io (λ h, fsync h r)) h1 (λ _, True) (λ _ h', exchanged h name l r t h').
Proof.
  intros (D1 & D2 & D3) Hfit (Hid & Hx & Hl & Hr & Ht & Hg).
  assert (∀ f, fm_spec (read_optional_xattr f name) h1 (λ _, True)
    (λ o h', h' = h1 ∧ o = file_xattrs h f !! name)) as Hread.
  { intros f. eapply fm_spec_weaken; [apply read_optional_xattr_spec|done|].
    - intros v. rewrite Hx. apply Hfit.
    - simpl. intros o h' -> ->. by rewrite Hx. }
  eapply fm_spec_bind; [apply Hread|]. simpl. intros lv h2 _ [-> ->].
  eapply fm_spec_bind; [apply Hread|]. simpl. intros rv h2 _ [-> ->].
  eapply fm_spec_bind.
  { eapply fm_spec_weaken; [apply replace_optional_xattr_spec|done|].
    intros a h' Hf Hd. exact (conj Hf Hd). }
  simpl. intros _ h2 _ [[[Hid2 Ho2] Hs2] Hx2].
  eapply fm_spec_bind.
  { eapply fm_spec_weaken; [apply replace_optional_xattr_spec|done|].
    intros a h' Hf Hd. exact (conj Hf Hd). }
  simpl. intros _ h3 _ [[[Hid3 Ho3] Hs3] Hx3].
  assert (exchanged h name l r t h3) as Hex.
  { unfold exchanged, same_data, same_xattrs in *. split_and!.
    - by rewrite Hs3, Hs2.
    - by rewrite Hs3, Hs2.
    - destruct (Ho3 l) as [_ ->]; [rewrite !Hid2, !Hid; congruence|]. by rewrite Hx2, Hx.
    - rewrite Hx3. destruct (Ho2 r) as [_ ->]; [rewrite !Hid; congruence|]. by rewrite Hx.
    - intros g Hng. split; [rewrite Hs3, Hs2; by apply Hg|].
      destruct (Ho3 g) as [_ ->]; [rewrite !Hid2, !Hid; set_solver|].
      destruct (Ho2 g) as [_ ->]; [rewrite !Hid; set_solver|]. by rewrite Hx. }
  eapply fm_spec_bind.
  { eapply fm_spec_weaken; [apply fsync_spec|done|]. intros a h' Hf Hd. exact (conj Hf Hd). }
  simpl. intros _ h4 _ [[_ Hx4] Hs4].
  eapply fm_spec_weaken; [apply fsync_spec|done|].
  simpl. intros _ h5 [_ Hx5] Hs5.
  unfold exchanged, same_data, same_xattrs in *.
  setoid_rewrite Hx5. setoid_rewrite Hx4. setoid_rewrite Hs5. setoid_rewrite Hs4. done.
Qed.
End specs.

(** * A host in memory *)

(** Descriptors [10 * i .. 10 * i + 9] denote the file [i]; reads return at
    most three bytes, writes accept at most two, and the kernel copy takes two
    bytes at a time and refuses overlapping ranges of one file. *)
Module MemFiles.
Record Mem := Mk {
  contents : gmap Z (list Z);
  attributes : gmap Z (gmap (list Z) (list Z))
}.

Definition inode (f : Z) : Z := f / 10.
Definition data (m : Mem) (f : Z) : list Z := default [] (contents m !! inode f).
Definition xattrs (m : Mem) (f : Z) : gmap (list Z) (list Z) :=
  default ∅ (attributes m !! inode f).
Definition identity (m : Mem) (f : Z) : FileIdentity := MkIdentity 1 (inode f).
Definition set_data (m : Mem) (f : Z) (d : list Z) : Mem :=
  Mk (<[inode f := d]> (contents m)) (attributes m).
Definition set_xattrs (m : Mem) (f : Z) (x : gmap (list Z) (list Z)) : Mem :=
  Mk (contents m) (<[inode f := x]> (attributes m)).
Definition stat (m : Mem) (f : Z) : Stat :=
  Stat.Mk 1 (inode f) (zlen (data m f)) 1 0 1 0 0 0 0 0 0 0.

Definition copy_range (m : Mem) (src soff dst doff n : Z) : result Errno Z * Mem :=
  let k := Z.min 2 (Z.min n (Z.max 0 (zlen (data m src) - soff))) in
  if bool_decide (inode src = inode dst) && (soff <? doff + n) && (doff <? soff + n)
  then (Err Errno.INVAL, m)
  else (Ok k, set_data m dst (write_bytes (data m dst) doff (slice (data m src) soff k))).

#[global] Instance mem_files : HostFiles Mem := {
  file_data := data;
  file_identity := identity;
  file_xattrs := xattrs;
  fstat m f := Ok (stat m f);
  pread m f offset n := Ok (slice (data m f) offset (Z.min n 3));
  pwrite m f offset d :=
    (Ok (zlen (take 2 d)), set_data m f (write_bytes (data m f) offset (take 2 d)));
  append_write m f d := (Ok (zlen (take 2 d)), set_data m f (data m f ++ take 2 d));
  ftruncate m f n := (Ok tt, set_data m f (resize (Z.to_nat n) 0 (data m f)));
  fsync m f := (Ok tt, m);
  ficlone m dst src := (Err Errno.NOTSUP, m);
  copy_file_range_sys := copy_range;
  fgetxattr m f name cap :=
    match xattrs m f !! name with
    | Some v => if zlen v <=? cap then Ok v else Err Errno.RANGE
    | None => Err Errno.NODATA
    end;
  fsetxattr m f name v := (Ok tt, set_xattrs m f (<[name := v]> (xattrs m f)));
  fremovexattr m f name :=
    match xattrs m f !! name with
    | Some _ => (Ok tt, set_xattrs m f (delete name (xattrs m f)))
    | None => (Err Errno.NODATA, m)
    end
}.

Lemma set_data_same m f d : data (set_data m f d) f = d.
Proof. unfold data, set_data. simpl. by rewrite lookup_insert_eq. Qed.

Lemma set_data_frame m f d : only_file m (set_data m f d) f ∧ same_xattrs m (set_data m f d).
Proof.
  split; [split; [done|]|done]. intros g Hg. split; [|done].
  unfold file_data; simpl. unfold data; simpl. rewrite lookup_insert_ne; [done|].
  intros E. apply Hg. simpl. unfold identity. by rewrite E.
Qed.

Lemma set_xattrs_same m f x : xattrs (set_xattrs m f x) f = x.
Proof. unfold xattrs, set_xattrs. simpl. by rewrite lookup_insert_eq. Qed.

Lemma set_xattrs_frame m f x : only_file m (set_xattrs m f x) f ∧ same_data m (set_xattrs m f x).
Proof.
  split; [split; [done|]|done]. intros g Hg. split; [done|].
  unfold file_xattrs; simpl. unfold xattrs; simpl. rewrite lookup_insert_ne; [done|].
  intros E. apply Hg. simpl. unfold identity. by rewrite E.
Qed.

Lemma slice_self {A} (l : list A) s n : slice l s n = slice l s (zlen (slice l s n)).
Proof.
  unfold slice, zlen. rewrite Nat2Z.id, length_take.
  destruct (decide (Z.to_nat n ≤ length (drop (Z.to_nat s) l))%nat).
  - by rewrite Nat.min_l.
  - by rewrite Nat.min_r, !take_ge by lia.
Qed.

#[global] Instance mem_laws : HostFilesLaws Mem.
Proof.
  split.
  - intros h f g [= E]. unfold file_data, file_xattrs; simpl. unfold data, xattrs. by rewrite E.
  - intros h f st [= <-]. done.
  - intros h f offset n b Ho Hn [= <-]. split_and!.
    + rewrite length_slice by lia. lia.
    + apply slice_self.
    + intros E. apply (f_equal zlen) in E. rewrite length_slice in E by lia.
      change (zlen []) with 0 in E. simpl. lia.
  - intros h f offset d r h' Ho [= <- <-].
    destruct (set_data_frame h f (write_bytes (data h f) offset (take 2 d))). split_and!; try done.
    + apply zlen_nonneg.
    + unfold zlen. rewrite length_take. lia.
    + simpl. rewrite set_data_same. f_equal. unfold zlen. rewrite Nat2Z.id, length_take.
      destruct (decide (2 ≤ length d)%nat); [by rewrite Nat.min_l by lia|].
      by rewrite Nat.min_r, !take_ge by lia.
  - intros h f d r h' [= <- <-].
    destruct (set_data_frame h f (data h f ++ take 2 d)). split_and!; try done.
    + apply zlen_nonneg.
    + unfold zlen. rewrite length_take. lia.
    + simpl. rewrite set_data_same. f_equal. unfold zlen. rewrite Nat2Z.id, length_take.
      destruct (decide (2 ≤ length d)%nat); [by rewrite Nat.min_l by lia|].
      by rewrite Nat.min_r, !take_ge by lia.
  - intros h f n r h' Hn [= <- <-].
    destruct (set_data_frame h f (resize (Z.to_nat n) 0 (data h f))). split_and!; try done.
    intros _. simpl. by rewrite set_data_same.
  - by intros h f r h' [= <- <-].
  - by intros h dst src r h' [= <- <-].
  - intros h src soff dst doff n r h' Hs Hd Hn. simpl. unfold copy_range.
    destruct (_ && _); intros [= <- <-]; [done|].
    match goal with |- only_file _ (set_data _ _ ?d) _ ∧ _ =>
      destruct (set_data_frame h dst d) end.
    split_and!; try done; try lia. simpl. by rewrite set_data_same.
  - intros h f name cap Hcap. simpl. destruct (xattrs h f !! name) as [v|] eqn:E; [|done].
    destruct (Z.leb_spec (zlen v) cap); simpl; [done|]. by exists v.
  - intros h f name v r h' [= <- <-].
    destruct (set_xattrs_frame h f (<[name:=v]> (xattrs h f))). split_and!; try done.
    simpl. by rewrite set_xattrs_same.
  - intros h f name r h'. simpl. destruct (xattrs h f !! name) eqn:E; intros [= <- <-]; [|done].
    destruct (set_xattrs_frame h f (delete name (xattrs h f))). split_and!; try done.
    simpl. by rewrite set_xattrs_same.
Qed.

Lemma mem_reliable : reliable Mem.
Proof.
  split; try (intros; simpl; by eauto).
  - intros h f offset d Hd. simpl. eexists _, _. split; [done|].
    destruct d; [done|]. simpl. rewrite zlen_cons. pose proof (zlen_nonneg (take 1 d)). lia.
  - intros h src soff dst doff n. simpl. unfold copy_range.
    destruct (_ && _); eexists _, _; (split; [done|]); [|done]. set_solver.
  - intros h f name cap _. simpl. destruct (xattrs h f !! name); [|done].
    by destruct (_ <=? _).
  - intros h f name. simpl. destruct (xattrs h f !! name); eauto.
Qed.
End MemFiles.

(** C9: The server-side copy has the effect of [memmove], whatever path it
    takes (reflink, directional buffered copy for overlapping ranges of one
    file, [copy_file_range] completed by the buffered copy) and however short
    the single reads and writes are: on success the number of bytes reported is
    the part of the request that the source holds, and the destination file is
    its old contents with the source's old range written at the destination
    offset; the copy succeeds whenever the host does not fail; and in every
    case no other file and no extended attribute changes. *)
Theorem copy_range_server_memmove {H} `{HL : HostFilesLaws H} (h h' : H)
    input input_offset output output_offset length r :
  0 ≤ input_offset → 0 ≤ output_offset → 0 ≤ length →
  zlen (file_data h input) ≤ u64_max → output_offset + length ≤ u64_max →
  copy_range_server input input_offset output output_offset length h = (r, h') →
  only_file h h' output ∧ same_xattrs h h' ∧
  match r with
  | Ok n =>
      n = Z.min length (Z.max 0 (zlen (file_data h input) - input_offset)) ∧
      file_data h' output =
        write_bytes (file_data h output) output_offset
          (slice (file_data h input) input_offset n)
  | Err _ => ¬ reliable H
  end.
Proof.
  intros Hi Ho Hl Hu Hou E.
  pose proof (copy_range_server_spec h input input_offset output output_offset length
    Hi Ho Hl Hu Hou) as [[Hof Hx] Hr].
  rewrite E in *. simpl in *. split_and!; [done|done|].
  destruct r; [|done]. by destruct Hr as [? [_ ?]].
Qed.

(** Descriptors 10 and 11 are one file; the ranges overlap and the copy runs
    backward in short reads and writes. *)
Lemma copy_range_server_memmove_witness :
  let m := MemFiles.Mk {[ 1 := [1;2;3;4;5;6;7;8] ]} ∅ in
  match copy_range_server 10 1 11 3 6 m with
  | (Ok n, m') => n = 6 ∧ MemFiles.data m' 11 = [1;2;3;2;3;4;5;6;7]
  | (Err _, _) => False
  end.
Proof.
  intros m.
  destruct (copy_range_server 10 1 11 3 6 m) as [r m'] eqn:E.
  destruct (copy_range_server_memmove m m' 10 1 11 3 6 r) as (_ & _ & Hr);
    [done|done|done|done|done|exact E|].
  destruct r as [n|e]; [|by apply Hr, MemFiles.mem_reliable].
  destruct Hr as [-> Hd]. split; [done|]. by vm_compute in Hd |- *.
Defined.

(** C33: Exchanging two files through a temporary file swaps their contents and
    their resource-fork attributes and keeps every other attribute and every
    other file; it succeeds whenever the host does not fail. *)
Theorem exchange_file_contents_swaps {H} `{HL : HostFilesLaws H} b64_encode (h h' : H)
    left right temporary name r :
  exchange_distinct h left right temporary →
  zlen (file_data h left) ≤ u64_max → zlen (file_data h right) ≤ u64_max →
  logical_xattr_name b64_encode RESOURCE_FORK = Ok name →
  (∀ f v, file_xattrs h f !! name = Some v → zlen v ≤ MAX_XATTR_SIZE) →
  exchange_file_contents b64_encode left right temporary h = (r, h') →
  match r with
  | Ok _ => exchanged h name left right temporary h'
  | Err _ => ¬ reliable H
  end.
Proof.
  intros HD Hl Hr Hname Hfit E.
  assert (fm_spec (exchange_file_contents b64_encode left right temporary) h (λ _, True)
    (λ _ h', exchanged h name left right temporary h')) as [_ Hspec].
  { unfold exchange_file_contents.
    eapply fm_spec_bind; [by apply file_len_spec|]. intros ls h1 _ [-> ->].
    eapply fm_spec_bind; [by apply file_len_spec|]. intros rs h1 _ [-> ->].
    apply exchange_data_phase; [done| |done|done]. intros h1 HS.
    rewrite Hname. by eapply exchange_xattr_phase. }
  rewrite E in Hspec. by destruct r.
Qed.

Lemma exchange_file_contents_swaps_witness :
  let name := MAC_PREFIX ++ RESOURCE_FORK in
  let m := MemFiles.Mk {[ 1 := [1;2;3]; 2 := [9;8]; 3 := [7] ]}
             {[ 1 := {[ name := [5] ]} ]} in
  match exchange_file_contents (λ b, b) 10 20 30 m with
  | (Ok _, m') =>
      MemFiles.data m' 10 = [9;8] ∧ MemFiles.data m' 20 = [1;2;3] ∧
      MemFiles.xattrs m' 20 !! name = Some [5] ∧ MemFiles.xattrs m' 10 !! name = None
  | (Err _, _) => False
  end.
Proof.
  intros name m.
  destruct (exchange_file_contents (λ b, b) 10 20 30 m) as [r m'] eqn:E.
  assert (∀ f v, file_xattrs m f !! name = Some v → zlen v ≤ MAX_XATTR_SIZE) as Hfit.
  { intros f v. unfold file_xattrs; simpl. unfold MemFiles.xattrs, m. simpl.
    intros Hv. destruct (decide (MemFiles.inode f = 1)) as [Ei|Ei].
    - rewrite Ei, lookup_singleton_eq in Hv. simpl in Hv.
      rewrite lookup_singleton_eq in Hv. injection Hv as <-. by vm_compute.
    - by rewrite lookup_singleton_ne in Hv by done. }
  pose proof (exchange_file_contents_swaps (λ b, b) m m' 10 20 30 name r
    ltac:(by split_and!) ltac:(by vm_compute) ltac:(by vm_compute) ltac:(by vm_compute)
    Hfit E) as Hex.
  destruct r as [[]|e]; [|by apply Hex, MemFiles.mem_reliable].
  destruct Hex as (Hdl & Hdr & Hl & Hr & _).
  change (MemFiles.xattrs m') with (file_xattrs m').
  rewrite Hl, Hr, !lookup_partial_alter_eq.
  split_and!; [exact Hdl|exact Hdr|by vm_compute|by vm_compute].
Defined.
