(* ===== verification/Attributes.v ===== *)
(** Node attributes and consistent reads of the server core
    ([crates/server-core/src/lib.rs], lines 3548-3824 and 4165-4198): the
    conversion of [stat] results into protocol metadata, the revision of a
    file, attribute changes, and the read that notices concurrent writers. *)

From S2P Require Import Prelude Protocol Common Locks FileIO.

(** * File types *)

(** [S_IFMT] and the file types in [st_mode]. *)
Definition S_IFMT : Z := 61440.
Definition S_IFREG : Z := 32768.
Definition S_IFDIR : Z := 16384.
Definition S_IFLNK : Z := 40960.
Definition S_IFIFO : Z := 4096.
Definition S_IFCHR : Z := 8192.
Definition S_IFBLK : Z := 24576.
Definition S_IFSOCK : Z := 49152.

Definition file_type (mode : Z) : Z := Z.land mode S_IFMT.

(** [node_kind], on [std::fs::FileType]. *)
Definition node_kind (stat : Stat) : NodeKind :=
  let t := file_type (Stat.st_mode stat) in
  if t =? S_IFDIR then NodeKind.Directory
  else if t =? S_IFREG then NodeKind.File
  else if t =? S_IFLNK then NodeKind.Symlink
  else if t =? S_IFIFO then NodeKind.NamedPipe
  else if t =? S_IFCHR then NodeKind.CharacterDevice
  else if t =? S_IFBLK then NodeKind.BlockDevice
  else if t =? S_IFSOCK then NodeKind.Socket
  else NodeKind.Symlink.

(** [node_kind_from_mode], on [rustix::fs::FileType]. *)
Definition node_kind_from_mode (mode : Z) : result ServerError NodeKind :=
  let t := file_type mode in
  if t =? S_IFREG then Ok NodeKind.File
  else if t =? S_IFDIR then Ok NodeKind.Directory
  else if t =? S_IFLNK then Ok NodeKind.Symlink
  else if t =? S_IFIFO then Ok NodeKind.NamedPipe
  else if t =? S_IFCHR then Ok NodeKind.CharacterDevice
  else if t =? S_IFBLK then Ok NodeKind.BlockDevice
  else if t =? S_IFSOCK then Ok NodeKind.Socket
  else Err ServerError.NotSupported.

(** * Times *)

Definition unix_timestamp_millis (seconds nanoseconds : Z) : option Z :=
  if (seconds <? 0) || negb ((0 <=? nanoseconds) && (nanoseconds <? 1000000000)) then None
  else if u64_max <? seconds then None
  else Some (u64_saturating_add (u64_saturating_mul seconds 1000) (nanoseconds / 1000000)).

(** A [SystemTime]: seconds and nanoseconds since the epoch, the latter in
    [0, 10^9). *)
Record SystemTime := MkTime { tv_sec : Z; tv_nsec : Z }.

(** [system_time_millis]: [None] before the epoch. *)
Definition system_time_millis (time : SystemTime) : option Z :=
  if tv_sec time <? 0 then None
  else Some (Z.min (tv_sec time * 1000 + tv_nsec time / 1000000) u64_max).

(** [UNIX_EPOCH.checked_add(Duration::from_millis(value))]; the seconds of a
    Linux [SystemTime] are an [i64], which no [u64] of milliseconds exceeds. *)
Definition system_time_from_millis (value : Z) : result ServerError SystemTime :=
  if value / 1000 <=? i64_max
  then Ok (MkTime (value / 1000) (value mod 1000 * 1000000))
  else Err (ServerError.InvalidRequest (lit "timestamp is too large")).

Definition UTIME_OMIT : Z := 1073741822.

(** [rustix_timestamp]: the argument of [utimensat]. *)
Definition rustix_timestamp (time : option SystemTime) : result ServerError (Z * Z) :=
  match time with
  | None => Ok (0, UTIME_OMIT)
  | Some t =>
      if tv_sec t <? 0
      then Err (ServerError.InvalidRequest (lit "timestamp predates the Unix epoch"))
      else if i64_max <? tv_sec t
      then Err (ServerError.InvalidRequest (lit "timestamp is too large"))
      else Ok (tv_sec t, tv_nsec t)
  end.

Section metadata.
(** SHA-256, and [rustix::fs::major]/[minor]. *)
Context (sha256 : list Z → list Z) (major minor : Z → Z).

(** [i64::to_le_bytes]. *)
Definition i64_le_bytes (z : Z) : list Z := to_le_bytes 8 (z mod 2 ^ 64).

(** The bytes hashed by [revision]. *)
Definition revision_input (stat : Stat) : list Z :=
  to_le_bytes 8 (Stat.st_dev stat) ++ to_le_bytes 8 (Stat.st_ino stat) ++
  to_le_bytes 8 (Stat.st_size stat) ++
  i64_le_bytes (Stat.st_mtime stat) ++ i64_le_bytes (Stat.st_mtime_nsec stat) ++
  i64_le_bytes (Stat.st_ctime stat) ++ i64_le_bytes (Stat.st_ctime_nsec stat) ++
  to_le_bytes 4 (Stat.st_mode stat) ++ to_le_bytes 8 (Stat.st_nlink stat) ++
  to_le_bytes 8 (Stat.st_rdev stat).
Definition revision (stat : Stat) : Z := from_le_bytes (take 8 (sha256 (revision_input stat))).

(** [revision_from_stat]: the same fields, negative ones clamped. *)
Definition revision_from_stat (stat : Stat) : Z :=
  from_le_bytes (take 8 (sha256
    (to_le_bytes 8 (Stat.st_dev stat) ++ to_le_bytes 8 (Stat.st_ino stat) ++
     to_le_bytes 8 (Z.max (Stat.st_size stat) 0) ++
     i64_le_bytes (Stat.st_mtime stat) ++ i64_le_bytes (Stat.st_mtime_nsec stat) ++
     i64_le_bytes (Stat.st_ctime stat) ++ i64_le_bytes (Stat.st_ctime_nsec stat) ++
     to_le_bytes 4 (Stat.st_mode stat) ++ to_le_bytes 8 (Z.max (Stat.st_nlink stat) 0) ++
     to_le_bytes 8 (Z.max (Stat.st_rdev stat) 0)))).

Definition metadata_mode (stat : Stat) : Z := Z.land (Stat.st_mode stat) 4095.
Definition metadata_link_count (stat : Stat) : Z :=
  if Stat.st_nlink stat <=? u32_max then Stat.st_nlink stat else u32_max.
Definition metadata_device (stat : Stat) : Z * Z :=
  (major (Stat.st_rdev stat), minor (Stat.st_rdev stat)).

(** [to_metadata]; [birth] is the creation time, where the file system has one. *)
Definition to_metadata (node : NodeId) (stat : Stat) (birth : option SystemTime) : Metadata :=
  {| Metadata.node := node;
     Metadata.kind := node_kind stat;
     Metadata.size := Stat.st_size stat;
     Metadata.mode := metadata_mode stat;
     Metadata.allocated_blocks := Stat.st_blocks stat;
     Metadata.revision := revision stat;
     Metadata.accessed_unix_ms :=
       default 0 (system_time_millis (MkTime (Stat.st_atime stat) (Stat.st_atime_nsec stat)));
     Metadata.modified_unix_ms :=
       default 0 (system_time_millis (MkTime (Stat.st_mtime stat) (Stat.st_mtime_nsec stat)));
     Metadata.created_unix_ms := birth ≫= system_time_millis;
     Metadata.backup_unix_ms := None;
     Metadata.link_count := metadata_link_count stat;
     Metadata.device_major := (metadata_device stat).1;
     Metadata.device_minor := (metadata_device stat).2 |}.

(** [to_metadata_from_stat] on Linux, where [stat] has no creation time. *)
Definition to_metadata_from_stat (node : NodeId) (stat : Stat) : result ServerError Metadata :=
  kind ← node_kind_from_mode (Stat.st_mode stat);
  Ok {| Metadata.node := node;
     Metadata.kind := kind;
     Metadata.size := Z.max (Stat.st_size stat) 0;
     Metadata.mode := Z.land (Stat.st_mode stat) 4095;
     Metadata.allocated_blocks := Z.max (Stat.st_blocks stat) 0;
     Metadata.revision := revision_from_stat stat;
     Metadata.accessed_unix_ms :=
       default 0 (unix_timestamp_millis (Stat.st_atime stat) (Stat.st_atime_nsec stat));
     Metadata.modified_unix_ms :=
       default 0 (unix_timestamp_millis (Stat.st_mtime stat) (Stat.st_mtime_nsec stat));
     Metadata.created_unix_ms := None;
     Metadata.backup_unix_ms := None;
     Metadata.link_count :=
       if Z.max (Stat.st_nlink stat) 0 <=? u32_max then Z.max (Stat.st_nlink stat) 0 else u32_max;
     Metadata.device_major := major (Stat.st_rdev stat);
     Metadata.device_minor := minor (Stat.st_rdev stat) |}.
End metadata.

(** * Consistent reads *)

(** The other users of the file run between the system calls of a read: the
    [n]-th call sees the host state [timeline n]. *)
Section consistent.
Context (sha256 : list Z → list Z).
Context {H : Type} `{HostFiles H} (timeline : nat → H) (file : Z).

(** The state is the number of system calls made so far. *)
Definition TM (A : Type) : Type := SM nat ServerError A.

Definition at_time {A} (call : H → result IoError A) : TM A := λ n,
  (map_err server_error_from_io (call (timeline n)), S n).

Fixpoint consistent_loop (fuel : nat) (offset size : Z) (data : list Z) : TM (list Z) :=
  if zlen data <? size then
    match fuel with
    | O => sm_err ServerError.TaskFailed
    | S fuel' =>
        b ← at_time (λ h, pread h file (u64_saturating_add offset (zlen data)) (size - zlen data));
        if bool_decide (b = []) then mret data
        else consistent_loop fuel' offset size (data ++ b)
    end
  else mret data.

Definition read_consistent (offset length : Z) : TM (Z * list Z) :=
  before ← at_time (λ h, fstat h file);
  let before_revision := revision sha256 before in
  let amount := Z.min length (u64_saturating_sub (Stat.st_size before) offset) in
  data ← consistent_loop (Z.to_nat amount) offset amount [];
  after ← at_time (λ h, fstat h file);
  let after_revision := revision sha256 after in
  if negb (before_revision =? after_revision) then sm_err ServerError.Conflict
  else mret (after_revision, data).
End consistent.

(** * Facts *)

Lemma node_kind_agrees stat k :
  node_kind_from_mode (Stat.st_mode stat) = Ok k → node_kind stat = k.
Proof.
  unfold node_kind, node_kind_from_mode. generalize (file_type (Stat.st_mode stat)). intros t.
  destruct (Z.eqb_spec t S_IFREG) as [->|]; [by intros [= <-]|].
  by destruct (t =? S_IFDIR), (t =? S_IFLNK), (t =? S_IFIFO), (t =? S_IFCHR), (t =? S_IFBLK),
    (t =? S_IFSOCK); intros [= <-].
Qed.

(** The two ways in which the server obtains the attributes of a node, from
    an open descriptor and from a [stat] of its name, agree on every field the
    client caches, the revision included, for every kind of node: only the
    creation time, which Linux [stat] does not have, is missing from the second. *)
Theorem metadata_sources_agree sha256 major minor node stat birth m :
  0 ≤ Stat.st_size stat ≤ i64_max → 0 ≤ Stat.st_blocks stat → 0 ≤ Stat.st_nlink stat →
  0 ≤ Stat.st_rdev stat →
  0 ≤ Stat.st_atime_nsec stat < 1000000000 → 0 ≤ Stat.st_mtime_nsec stat < 1000000000 →
  Stat.st_atime stat ≤ i64_max → Stat.st_mtime stat ≤ i64_max →
  to_metadata_from_stat sha256 major minor node stat = Ok m →
  to_metadata sha256 major minor node stat birth =
    {| Metadata.node := Metadata.node m; Metadata.kind := Metadata.kind m;
       Metadata.size := Metadata.size m; Metadata.mode := Metadata.mode m;
       Metadata.allocated_blocks := Metadata.allocated_blocks m;
       Metadata.revision := Metadata.revision m;
       Metadata.accessed_unix_ms := Metadata.accessed_unix_ms m;
       Metadata.modified_unix_ms := Metadata.modified_unix_ms m;
       Metadata.created_unix_ms := birth ≫= system_time_millis;
       Metadata.backup_unix_ms := Metadata.backup_unix_ms m;
       Metadata.link_count := Metadata.link_count m;
       Metadata.device_major := Metadata.device_major m;
       Metadata.device_minor := Metadata.device_minor m |}.
Proof.
  intros Hs Hb Hn Hr Ha Hm Hat Hmt.
  unfold to_metadata_from_stat, mbind, result_bind.
  destruct (node_kind_from_mode (Stat.st_mode stat)) as [k|] eqn:Ek; [|done].
  intros [= <-]. unfold to_metadata. simpl.
  assert (node_kind stat = k) as ->.
  { by apply node_kind_agrees. }
  assert (∀ s n, 0 ≤ n < 1000000000 → s ≤ i64_max →
    system_time_millis (MkTime s n) = unix_timestamp_millis s n) as Ht.
  { intros s n Hns Hss. unfold system_time_millis, unix_timestamp_millis. simpl.
    destruct (Z.ltb_spec s 0); [done|]. simpl.
    destruct (Z.leb_spec 0 n); [|lia]. destruct (Z.ltb_spec n 1000000000); [|lia]. simpl.
    unfold i64_max, u64_max in *. destruct (Z.ltb_spec (2 ^ 64 - 1) s); [lia|].
    f_equal. unfold u64_saturating_add, u64_saturating_mul, u64_max.
    assert (0 ≤ n / 1000000 < 1000) by (split; [apply Z.div_pos|apply Z.div_lt_upper_bound]; lia).
    lia. }
  unfold metadata_link_count, revision, revision_from_stat, revision_input, metadata_mode,
    metadata_device. simpl.
  rewrite !Ht by lia. by rewrite !(Z.max_l _ 0) by lia.
Qed.

Lemma metadata_sources_agree_witness :
  Metadata.kind (to_metadata (λ b, b) (λ d, d / 256) (λ d, d mod 256) (MkNodeId 5)
    (Stat.Mk 1 2 10 1 33188 1 0 5 0 7 250000000 7 0) None) = NodeKind.File.
Proof.
  by rewrite (metadata_sources_agree (λ b, b) (λ d, d / 256) (λ d, d mod 256) (MkNodeId 5)
    (Stat.Mk 1 2 10 1 33188 1 0 5 0 7 250000000 7 0) None _
    ltac:(by vm_compute) ltac:(by vm_compute) ltac:(by vm_compute) ltac:(by vm_compute)
    ltac:(by vm_compute) ltac:(by vm_compute) ltac:(by vm_compute) ltac:(by vm_compute)
    eq_refl).
Defined.

Section consistent_facts.
Context (sha256 : list Z → list Z).
Context {H : Type} `{HL : HostFilesLaws H} (timeline : nat → H) (file : Z).

(** A system call of an attempt, from the [n]-th on and before the [n']-th, that
    failed with the error [e]. *)
Definition call_failed (n n' : nat) (e : ServerError) : Prop :=
  ∃ k io, (n ≤ k < n')%nat ∧ e = server_error_from_io io ∧
    (fstat (timeline k) file = Err io ∨ ∃ offset size, pread (timeline k) file offset size = Err io).

(** The [i]-th byte was the byte of the file at [offset + i] at one of the
    system calls from the [n]-th on and before the [n']-th. *)
Definition bytes_seen (n n' : nat) (offset : Z) (data : list Z) : Prop :=
  ∀ i x, data !! i = Some x →
    ∃ k, (n ≤ k < n')%nat ∧ file_data (timeline k) file !! (Z.to_nat offset + i)%nat = Some x.

Lemma call_failed_mono n m n' e : (n ≤ m)%nat → call_failed m n' e → call_failed n n' e.
Proof. intros ? (k & io & ? & ?). exists k, io. split; [lia|done]. Qed.

Lemma consistent_loop_runs fuel offset size data n :
  size ≤ Z.of_nat fuel + zlen data →
  (n ≤ (consistent_loop timeline file fuel offset size data n).2)%nat ∧
  match (consistent_loop timeline file fuel offset size data n).1 with
  | Ok _ => True
  | Err e => call_failed n (consistent_loop timeline file fuel offset size data n).2 e
  end.
Proof.
  revert data n. induction fuel as [|fuel IH]; intros data n Hf; simpl.
  all: destruct (Z.ltb_spec (zlen data) size); [|done].
  1: lia.
  unfold at_time. sm_unfold. destruct (pread _ _ _ _) as [b|e] eqn:E; simpl.
  2:{ split; [lia|]. exists n, e. split; [lia|]. split; [done|]. right. by eexists _, _. }
  destruct (bool_decide (b = [])) eqn:Eb; bool_simpl; simpl; [split; [lia|done]|].
  destruct (IH (data ++ b) (S n)) as [Hle Hne].
  - rewrite zlen_app. destruct b; [done|]. rewrite zlen_cons. pose proof (zlen_nonneg b). lia.
  - split; [lia|]. destruct (consistent_loop _ _ _ _ _ _ _).1; [done|].
    apply (call_failed_mono n (S n)); [lia|done].
Qed.

Lemma consistent_loop_bytes fuel offset size data n m b n' :
  0 ≤ offset → zlen data ≤ size → offset + size ≤ u64_max → (m ≤ n)%nat →
  bytes_seen m n offset data →
  consistent_loop timeline file fuel offset size data n = (Ok b, n') →
  bytes_seen m n' offset b ∧ zlen b ≤ size ∧ (n ≤ n')%nat.
Proof.
  intros Ho. revert data n. induction fuel as [|fuel IH]; intros data n Hd Hu Hm Hb; simpl.
  all: destruct (Z.ltb_spec (zlen data) size).
  1: done.
  1,3: by intros [= <- <-].
  pose proof (zlen_nonneg data).
  assert (u64_saturating_add offset (zlen data) = offset + zlen data) as ->
    by (unfold u64_saturating_add; lia).
  unfold at_time. sm_unfold. destruct (pread _ _ _ _) as [c|e] eqn:E; simpl; [|done].
  apply law_pread in E as (Hc & Heqc & _); [|lia|lia].
  destruct (bool_decide (c = [])).
  { intros [= <- <-]. split_and!; [|done|lia]. intros i x (k & ? & ?)%Hb. exists k. split; [lia|done]. }
  intros Hrun. apply IH in Hrun as (? & ? & ?); [split_and!; [done|done|lia]| | |lia|].
  - rewrite zlen_app. lia.
  - done.
  - intros i x [Hi|[Hlen Hi]]%lookup_app_Some.
    + destruct (Hb i x Hi) as (k & ? & ?). exists k. split; [lia|done].
    + exists n. split; [lia|]. rewrite Heqc in Hi. unfold slice in Hi.
      apply lookup_take_Some in Hi as [Hi _]. rewrite lookup_drop in Hi. rewrite <- Hi. f_equal.
      unfold zlen. lia.
Qed.

Lemma consistent_loop_stable fuel offset size data n b n' d :
  0 ≤ offset → size ≤ Z.of_nat fuel + zlen data → zlen data ≤ size →
  offset + size ≤ u64_max → offset + size ≤ zlen d → data = slice d offset (zlen data) →
  consistent_loop timeline file fuel offset size data n = (Ok b, n') →
  (∀ k, (n ≤ k < n')%nat → file_data (timeline k) file = d) → b = slice d offset size.
Proof.
  intros Ho. revert data n. induction fuel as [|fuel IH]; intros data n Hf Hd Hu Hl Heq; simpl.
  all: destruct (Z.ltb_spec (zlen data) size).
  1: lia.
  1,3: intros [= <- <-] _; by replace size with (zlen data) by lia.
  pose proof (zlen_nonneg data).
  assert (u64_saturating_add offset (zlen data) = offset + zlen data) as ->
    by (unfold u64_saturating_add; lia).
  unfold at_time. sm_unfold.
  destruct (pread _ _ _ _) as [c|e] eqn:E; simpl; [|done].
  apply law_pread in E as (Hb & Heqb & Hnil); [|lia|lia].
  destruct (bool_decide (c = [])) eqn:Eb; bool_simpl.
  { intros [= <- <-] Hst. rewrite (Hst n) in Hnil by lia. destruct (Hnil Eb); lia. }
  assert (size ≤ Z.of_nat fuel + zlen (data ++ c)) as Hf'.
  { rewrite zlen_app. destruct c; [done|]. rewrite zlen_cons. pose proof (zlen_nonneg c). lia. }
  intros Hrun Hst.
  assert (S n ≤ n')%nat as Hn'.
  { destruct (consistent_loop_runs fuel offset size (data ++ c) (S n) Hf') as [Hle _].
    by rewrite Hrun in Hle. }
  apply (IH (data ++ c) (S n)); try done.
  - rewrite zlen_app. lia.
  - rewrite zlen_app, <- slice_app_slice by auto using zlen_nonneg.
    rewrite <- Heq. f_equal. rewrite <- (Hst n) by lia. done.
  - intros k Hk. apply Hst. lia.
Qed.
End consistent_facts.

(** A range that reaches past the end of the file. *)
Lemma slice_clip {A} (l : list A) s n m :
  0 ≤ s → 0 ≤ n → m = Z.min n (Z.max (zlen l - s) 0) → slice l s m = slice l s n.
Proof.
  intros Hs Hn ->. unfold slice, zlen.
  destruct (Z.le_gt_cases n (Z.of_nat (length l) - s)).
  - do 2 f_equal. lia.
  - rewrite !take_ge; [done| |]; rewrite length_drop; lia.
Qed.

(** What an attempt that began at the [n]-th system call and ended before the
    [n']-th returns: its two revisions agree and its bytes are the range of the
    file as it was at the start, unless the file was changed in between; or they
    differ; or a system call failed. *)
Definition read_outcome (sha256 : list Z → list Z) {H} `{HL : HostFilesLaws H} (timeline : nat → H)
    (file offset length : Z) (n n' : nat) (r : result ServerError (Z * list Z)) : Prop :=
  match r with
  | Ok (rev, data) =>
      (∃ st st', fstat (timeline n) file = Ok st ∧ fstat (timeline (pred n')) file = Ok st' ∧
         rev = revision sha256 st ∧ rev = revision sha256 st') ∧
      zlen data ≤ length ∧ bytes_seen timeline file n n' offset data ∧
      (data = slice (file_data (timeline n) file) offset length ∨
       ∃ k, (n < k < n')%nat ∧ file_data (timeline k) file ≠ file_data (timeline n) file)
  | Err e =>
      (e = ServerError.Conflict ∧
       ∃ st st', fstat (timeline n) file = Ok st ∧ fstat (timeline (pred n')) file = Ok st' ∧
         revision sha256 st ≠ revision sha256 st') ∨
      call_failed timeline file n n' e
  end.

(** Either the file is the same at all the moments of an attempt or there is one
    at which it differs from the first. *)
Lemma changed_or_not {H} `{HL : HostFilesLaws H} (timeline : nat → H) file (n n' : nat) :
  (∀ k, (n ≤ k < n')%nat → file_data (timeline k) file = file_data (timeline n) file) ∨
  (∃ k, (n < k < n')%nat ∧ file_data (timeline k) file ≠ file_data (timeline n) file).
Proof.
  induction n' as [|n' [IH|(k & ? & ?)]].
  - left. lia.
  - destruct (decide (n < n')%nat).
    + destruct (decide (file_data (timeline n') file = file_data (timeline n) file)) as [E|E].
      * left. intros k Hk. destruct (decide (k = n')) as [->|]; [done|]. apply IH. lia.
      * right. exists n'. split; [lia|done].
    + left. intros k Hk. assert (k = n) as -> by lia. done.
  - right. exists k. split; [lia|done].
Qed.

Lemma read_consistent_sound {H} `{HL : HostFilesLaws H} sha256 (timeline : nat → H) file
    offset length n n' r :
  0 ≤ offset → 0 ≤ length →
  (∀ k st, fstat (timeline k) file = Ok st → Stat.st_size st ≤ i64_max) →
  read_consistent sha256 timeline file offset length n = (r, n') →
  read_outcome sha256 timeline file offset length n n' r.
Proof.
  intros Ho Hlen Hsize. unfold read_consistent, at_time. sm_unfold.
  destruct (fstat (timeline n) file) as [st|e] eqn:Est; simpl.
  2:{ intros [= <- <-]. right. exists n, e. split; [lia|]. auto. }
  destruct (law_fstat _ _ _ Est) as [_ Hsz]. pose proof (Hsize _ _ Est) as Hmax.
  unfold u64_saturating_sub. set (amount := Z.min length (Z.max (Stat.st_size st - offset) 0)).
  unfold i64_max in Hmax.
  assert (offset < Stat.st_size st ∨ amount = 0 ∧ Stat.st_size st ≤ offset) as Hin by lia.
  destruct (consistent_loop_runs timeline file (Z.to_nat amount) offset amount [] (S n))
    as [Hn1 Htask]; [rewrite zlen_nil; lia|].
  destruct (consistent_loop _ _ _ _ _ _ _) as [[data|e] n1] eqn:Eloop; simpl in *.
  2:{ intros [= <- <-]. right. by apply (call_failed_mono _ _ n (S n)); [lia|]. }
  destruct (fstat (timeline n1) file) as [st'|e] eqn:Est'; simpl.
  2:{ intros [= <- <-]. right. exists n1, e. split; [lia|]. auto. }
  destruct (Z.eqb_spec (revision sha256 st) (revision sha256 st')) as [Erev|]; simpl;
    intros [= <- <-]; unfold read_outcome; simpl.
  2:{ left. split; [done|]. by exists st, st'. }
  split; [by exists st, st'|].
  destruct Hin as [Hin|[E0 Hend]].
  - destruct (consistent_loop_bytes timeline file (Z.to_nat amount) offset amount [] (S n) n data n1)
      as (Hb & Hl & ?); rewrite ?zlen_nil; unfold u64_max; try lia; [done|done|].
    split; [lia|]. split.
    { intros i x (k & ? & ?)%Hb. exists k. split; [lia|done]. }
    destruct (changed_or_not timeline file n (S n1)) as [Hsame|]; [left|by right].
    trans (slice (file_data (timeline n) file) offset amount); [|apply slice_clip; lia].
    apply (consistent_loop_stable timeline file _ _ _ _ _ _ _ (file_data (timeline n) file)
      Ho) in Eloop; rewrite ?zlen_nil; try done; unfold u64_max; try lia.
    intros k Hk. apply Hsame. lia.
  - rewrite E0 in Eloop. simpl in Eloop. injection Eloop as <- <-. split; [done|]. split; [done|].
    left. unfold slice. rewrite drop_ge, take_nil; [done|]. unfold zlen in Hsz. lia.
Qed.

Lemma consistent_loop_quiet {H} `{HL : HostFilesLaws H} (h : H) file fuel offset size data n :
  reliable H → size ≤ Z.of_nat fuel + zlen data →
  ∃ b n', consistent_loop (λ _, h) file fuel offset size data n = (Ok b, n').
Proof.
  intros Hrel. revert data n. induction fuel as [|fuel IH]; intros data n Hf; simpl.
  all: destruct (Z.ltb_spec (zlen data) size); [|by eauto].
  1: lia.
  unfold at_time. sm_unfold.
  destruct (rel_pread _ Hrel h file (u64_saturating_add offset (zlen data)) (size - zlen data))
    as [b ->]. simpl.
  destruct (bool_decide (b = [])) eqn:Eb; bool_simpl; [by eauto|].
  apply IH. rewrite zlen_app. destruct b; [done|]. rewrite zlen_cons. pose proof (zlen_nonneg b). lia.
Qed.

Lemma read_consistent_quiet {H} `{HL : HostFilesLaws H} sha256 (h : H) file offset length :
  0 ≤ offset → 0 ≤ length → reliable H → zlen (file_data h file) ≤ i64_max →
  ∃ rev, (read_consistent sha256 (λ _, h) file offset length 0%nat).1 =
    Ok (rev, slice (file_data h file) offset length).
Proof.
  intros Ho Hl Hrel Hbig.
  destruct (read_consistent sha256 (λ _, h) file offset length 0%nat) as [r n'] eqn:E.
  pose proof E as Hs. apply read_consistent_sound in Hs; [|done|done|].
  2:{ intros _ st [_ ->]%law_fstat. done. }
  simpl. unfold read_consistent, at_time in E. sm_unfold.
  destruct (rel_fstat _ Hrel h file) as [st Hst]. rewrite Hst in E. simpl in E.
  match type of E with context [consistent_loop _ _ ?f ?o ?sz [] ?n] =>
    destruct (consistent_loop_quiet h file f o sz [] n Hrel) as (b & n1 & Hb) end.
  { rewrite zlen_nil. lia. }
  rewrite Hb in E. simpl in E. rewrite Z.eqb_refl in E. simpl in E. simplify_eq.
  destruct Hs as (_ & _ & _ & [->|(k & _ & Hk)]); [eauto|by destruct Hk].
Qed.

(** C32: A read under other users of the file.  The timeline gives the host
    state at every system call of the attempt and is arbitrary.  When the read
    succeeds, the revision it returns was the one of the file both at its first
    and at its last system call, it returns at most [length] bytes, each of them
    was the byte of the file at its offset at one of the system calls, and the
    bytes are exactly the range of the file as it was when the read began,
    unless the contents of the file changed during the attempt without its
    revision showing it.  It fails with [Conflict] exactly when the two
    revisions differ, and otherwise only with the error of one of its system
    calls. *)
Theorem read_consistent_snapshot {H} `{HL : HostFilesLaws H} sha256 (timeline : nat → H) file
    offset length n n' r :
  0 ≤ offset → 0 ≤ length →
  (∀ k st, fstat (timeline k) file = Ok st → Stat.st_size st ≤ i64_max) →
  read_consistent sha256 timeline file offset length n = (r, n') →
  match r with
  | Ok (rev, data) =>
      (∃ st st', fstat (timeline n) file = Ok st ∧ fstat (timeline (pred n')) file = Ok st' ∧
         rev = revision sha256 st ∧ rev = revision sha256 st') ∧
      zlen data ≤ length ∧ bytes_seen timeline file n n' offset data ∧
      (data = slice (file_data (timeline n) file) offset length ∨
       ∃ k, (n < k < n')%nat ∧ file_data (timeline k) file ≠ file_data (timeline n) file)
  | Err e =>
      (e = ServerError.Conflict ∧
       ∃ st st', fstat (timeline n) file = Ok st ∧ fstat (timeline (pred n')) file = Ok st' ∧
         revision sha256 st ≠ revision sha256 st') ∨
      call_failed timeline file n n' e
  end.
Proof. apply read_consistent_sound. Qed.

(** A file that another process extends, and one whose sixth byte it changes,
    while the range is being read. *)
Lemma read_consistent_snapshot_witness :
  let m k := MemFiles.Mk {[ 1 := if (k <? 1)%nat then [1;2;3;4;5;6;7;8] else [1;2;3;4;5;6;7;8;9] ]} ∅ in
  let w k := MemFiles.Mk {[ 1 := if (k <? 1)%nat then [1;2;3;4;5;6;7;8] else [1;2;3;4;5;0;7;8] ]} ∅ in
  match read_consistent (λ b, b) w 10 2 4 0%nat with
  | (Ok (_, data), _) => bytes_seen w 10 0 4 2 data
  | (Err _, _) => False
  end ∧
  match read_consistent (drop 16) m 10 2 4 0%nat with
  | (Ok (_, data), _) => False
  | (Err e, _) => e = ServerError.Conflict
  end.
Proof.
  intros m w. split.
  - destruct (read_consistent (λ b, b) w 10 2 4 0%nat) as [r n'] eqn:E.
    pose proof (read_consistent_snapshot (λ b, b) w 10 2 4 0%nat n' r ltac:(lia) ltac:(lia)) as Hr.
    destruct r as [[rev data]|e]; [|by vm_compute in E].
    assert (n' = 4%nat) as -> by (apply (f_equal snd) in E; vm_compute in E; exact (eq_sym E)).
    apply Hr; [|exact E]. intros [|k] st [= <-]; vm_compute; discriminate.
  - destruct (read_consistent (drop 16) m 10 2 4 0%nat) as [r n'] eqn:E.
    vm_compute in E. injection E as <- <-. done.
Defined.
