(* ===== verification/HostDirs.v ===== *)
(** Descriptor-relative name operations of the server core
    ([crates/server-core/src/lib.rs]): the directory and path calls of the
    operating system as the interface [HostDirs], and the walk that opens a known
    node from the export root without following symbolic links. *)

From S2P Require Import Prelude Protocol Common Locks Registry XattrNames FileIO Attributes.

(** * The operating system *)

(** The open flags the server uses; [O_CLOEXEC] is always set. *)
Record OFlags := MkFlags {
  of_access : FileAccess;
  of_append : bool;
  of_create : bool;
  of_excl : bool;
  of_directory : bool;
  of_nofollow : bool;
  of_nonblock : bool
}.

Definition RDONLY : OFlags := MkFlags FileAccess.ReadOnly false false false false false false.
Definition RDONLY_DIRECTORY : OFlags :=
  MkFlags FileAccess.ReadOnly false false false true false false.
Definition RDONLY_NONBLOCK : OFlags :=
  MkFlags FileAccess.ReadOnly false false false false false true.
(** [flags | OFlags::NOFOLLOW]. *)
Definition with_nofollow (f : OFlags) : OFlags :=
  MkFlags (of_access f) (of_append f) (of_create f) (of_excl f) (of_directory f) true
    (of_nonblock f).
(** [flags | OFlags::CREATE | OFlags::EXCL]. *)
Definition with_create_excl (f : OFlags) : OFlags :=
  MkFlags (of_access f) (of_append f) true true (of_directory f) (of_nofollow f)
    (of_nonblock f).

Definition open_flags (access : FileAccess) (append : bool) : OFlags :=
  MkFlags access append false false false false false.

(** The calls on directories and names, over a host state [H].  Names are given
    relative to a directory descriptor; [statat], [chmodat] and [utimensat]
    never follow a final symbolic link.  Every call that is given a name returns
    a host state, also those that only look, so that a property of the host
    state can speak of all the names it was given.  The files of the
    resource-fork directory, outside the export, are addressed by their node. *)
Class HostDirs (H : Type) := {
  dup_fd : H → Z → result Errno Z * H;
  openat : H → Z → Name → OFlags → Z → result Errno Z * H;
  statat : H → Z → Name → result Errno Stat * H;
  read_dir : H → Z → result Errno (list (result Errno Name));
  readlinkat : H → Z → Name → result Errno (list Z) * H;
  mkdirat : H → Z → Name → Z → result Errno unit * H;
  symlinkat : H → list Z → Z → Name → result Errno unit * H;
  linkat : H → Z → Name → Z → Name → result Errno unit * H;
  mknodat : H → Z → Name → SpecialNodeKind → Z → Z → Z → result Errno unit * H;
  unlinkat : H → Z → Name → bool → result Errno unit * H;
  renameat : H → Z → Name → Z → Name → RenameMode → result Errno unit * H;
  chmodat : H → Z → Name → Z → result Errno unit * H;
  utimensat : H → Z → Name → Z * Z → Z * Z → result Errno unit * H;
  (** on descriptors *)
  birth_time : H → Z → option SystemTime;
  fchmod : H → Z → Z → result IoError unit * H;
  futimens : H → Z → option SystemTime → option SystemTime → result IoError unit * H;
  fdatasync : H → Z → result IoError unit * H;
  fallocate : H → Z → Z → Z → result Errno unit * H;
  lseek : H → Z → Z → SeekWhence → result Errno Z;
  flistxattr : H → Z → Z → result Errno (list Z);
  fstatvfs : H → Z → result Errno FilesystemStats;
  (** on the resource-fork directory *)
  fork_lstat : H → NodeId → result IoError Stat;
  (** following a symbolic link *)
  fork_stat : H → NodeId → result IoError Stat;
  fork_open : H → NodeId → bool → bool → result Errno Z * H;
  fork_unlink : H → NodeId → result IoError unit * H
}.

(** * Walking from the export root *)

Section dirs.
Context {H : Type} `{HF : HostFiles H} `{HD : HostDirs H}.
(** The hash and the base64url codec of the libraries, [rustix::fs::major] and
    [minor], and [stable_node_id] of the export's key. *)
Context (sha256 : list Z → list Z) (b64_encode : list Z → list Z)
  (b64_decode : list Z → option (list Z)) (major minor : Z → Z)
  (stable_node_id : FileIdentity → NodeId).

(** A read-only call followed by [?]. *)
Definition ask {A} (call : H → result Errno A) : FM A := λ h, (map_err of_errno (call h), h).

Fixpoint walk_directory (current : Z) (path : list Name) : FM Z :=
  match path with
  | [] => mret current
  | name :: path' =>
      fd ← run_sys (λ h, openat h current name (with_nofollow RDONLY_DIRECTORY) 0);
      walk_directory fd path'
  end.
Definition open_directory (root : Z) (path : list Name) : FM Z :=
  current ← run_sys (λ h, dup_fd h root);
  walk_directory current path.

(** [Path::file_name] and [Path::parent]. *)
Definition file_name (path : list Name) : option Name := last path.
Definition parent_path (path : list Name) : list Name := removelast path.

Definition open_parent (root : Z) (path : list Name) : FM (Z * Name) :=
  name ← sm_lift (ok_or (file_name path)
                    (ServerError.InvalidRequest (lit "root has no parent entry")));
  parent ← open_directory root (parent_path path);
  mret (parent, name).

Definition open_relative (root : Z) (path : list Name) (flags : OFlags)
    : FM (Z * list Name * Stat) :=
  if bool_decide (path = []) then
    file ← run_sys (λ h, dup_fd h root);
    metadata ← metadata_of file;
    mret (file, [], metadata)
  else
    pn ← open_parent root path;
    fd ← run_sys (λ h, openat h pn.1 pn.2 (with_nofollow flags) 0);
    metadata ← metadata_of fd;
    mret (fd, path, metadata).

Definition secure_lstat (root : Z) (path : list Name) : FM Stat :=
  if bool_decide (path = []) then metadata_of root
  else
    pn ← open_parent root path;
    run_sys (λ h, statat h pn.1 pn.2).

Definition kind_mismatch (expected : NodeKind) : ServerError :=
  match expected with
  | NodeKind.Directory => ServerError.NotDirectory
  | NodeKind.File => ServerError.IsDirectory
  | NodeKind.Symlink => ServerError.InvalidRequest (lit "node is not a symbolic link")
  | _ => ServerError.InvalidRequest (lit "node has a different special-file type")
  end.

(** The loop of [open_snapshot] and [open_node_snapshot]: the first known path
    that still leads to the node. *)
Fixpoint open_paths (root : Z) (identity : FileIdentity) (flags : OFlags)
    (expected : option NodeKind) (paths : list (list Name)) (first_error : option ServerError)
    : FM (Z * list Name * Stat) :=
  match paths with
  | [] => sm_err (default ServerError.NotFound first_error)
  | path :: paths' =>
      r ← sm_try (open_relative root path flags);
      match r with
      | Err (ServerError.NotFound | ServerError.NotDirectory) =>
          open_paths root identity flags expected paths' first_error
      | Err error =>
          open_paths root identity flags expected paths'
            (match first_error with None => Some error | Some e => Some e end)
      | Ok (file, opened_path, metadata) =>
          if negb (bool_decide (identity_from_stat metadata = identity)) then
            open_paths root identity flags expected paths' first_error
          else
            match expected with
            | Some kind =>
                if negb (bool_decide (node_kind metadata = kind)) then sm_err (kind_mismatch kind)
                else mret (file, opened_path, metadata)
            | None => mret (file, opened_path, metadata)
            end
      end
  end.
Definition open_node_snapshot (root : Z) (snapshot : NodeSnapshot) (flags : OFlags)
    (expected : option NodeKind) : FM (Z * list Name * Stat) :=
  open_paths root (NodeSnapshot.identity snapshot) flags expected
    (NodeSnapshot.paths snapshot) None.

(** The loop of [path_stat]. *)
Fixpoint stat_paths (root : Z) (identity : FileIdentity) (paths : list (list Name))
    (first_error : option ServerError) : FM (option Stat) :=
  match paths with
  | [] => match first_error with Some error => sm_err error | None => mret None end
  | path :: paths' =>
      r ← sm_try (secure_lstat root path);
      match r with
      | Err (ServerError.NotFound | ServerError.NotDirectory) =>
          stat_paths root identity paths' first_error
      | Err error =>
          stat_paths root identity paths'
            (match first_error with None => Some error | Some e => Some e end)
      | Ok stat =>
          if negb (bool_decide (identity_from_stat stat = identity)) then
            stat_paths root identity paths' first_error
          else mret (Some stat)
      end
  end.
Definition path_stat (root : Z) (snapshot : NodeSnapshot) : FM (option Stat) :=
  if existsb (λ path, bool_decide (path = [])) (NodeSnapshot.paths snapshot) then
    stat ← metadata_of root;
    mret (if bool_decide (identity_from_stat stat = NodeSnapshot.identity snapshot)
          then Some stat else None)
  else stat_paths root (NodeSnapshot.identity snapshot) (NodeSnapshot.paths snapshot) None.

Definition open_xattr_file (root : Z) (snapshot : NodeSnapshot) : FM Z :=
  stat ← path_stat root snapshot;
  kind ← sm_lift (match stat with
                  | Some st => node_kind_from_mode (Stat.st_mode st)
                  | None => Err ServerError.NotFound
                  end);
  if bool_decide (kind = NodeKind.Symlink) then sm_err ServerError.NotSupported
  else
    opened ← open_node_snapshot root snapshot
      (if bool_decide (kind = NodeKind.Directory) then RDONLY_DIRECTORY else RDONLY_NONBLOCK)
      None;
    mret opened.1.1.

(** The loop of [set_path_attributes]. *)
Fixpoint set_paths_attributes (root : Z) (identity : FileIdentity) (mode : option Z)
    (times : bool) (last_access last_modification : Z * Z) (paths : list (list Name)) : FM unit :=
  match paths with
  | [] => sm_err ServerError.NotFound
  | path :: paths' =>
      let next := set_paths_attributes root identity mode times last_access last_modification paths' in
      r ← sm_try (secure_lstat root path);
      match r with
      | Err _ => next
      | Ok stat =>
          if negb (bool_decide (identity_from_stat stat = identity)) then next
          else
            kind ← (match mode with
                    | Some _ => sm_lift (node_kind_from_mode (Stat.st_mode stat))
                    | None => mret NodeKind.File
                    end);
            if bool_decide (kind = NodeKind.Symlink) then sm_err ServerError.NotSupported
            else
              pn ← open_parent root path;
              _ ← (match mode with
                   | Some m => run_sys (λ h, chmodat h pn.1 pn.2 (Z.land m 4095))
                   | None => mret tt
                   end);
              if (times : bool) then
                run_sys (λ h, utimensat h pn.1 pn.2 last_access last_modification)
              else mret tt
      end
  end.
Definition set_path_attributes (root : Z) (snapshot : NodeSnapshot) (mode : option Z)
    (accessed modified : option SystemTime) : FM unit :=
  last_access ← sm_lift (rustix_timestamp accessed);
  last_modification ← sm_lift (rustix_timestamp modified);
  set_paths_attributes root (NodeSnapshot.identity snapshot) mode
    (bool_decide (is_Some accessed) || bool_decide (is_Some modified))
    last_access last_modification (NodeSnapshot.paths snapshot).

Definition apply_file_changes (file : Z) (changes : AttributeChanges)
    (accessed modified : option SystemTime) : FM Stat :=
  _ ← (match AttributeChanges.size changes with
       | Some size => run_io (λ h, ftruncate h file size)
       | None => mret tt
       end);
  _ ← (match AttributeChanges.mode changes with
       | Some mode => run_io (λ h, fchmod h file (Z.land mode 4095))
       | None => mret tt
       end);
  _ ← (if bool_decide (is_Some accessed) || bool_decide (is_Some modified)
       then run_io (λ h, futimens h file accessed modified)
       else mret tt);
  metadata_of file.
End dirs.
