(* ===== verification/Forks.v ===== *)
(** Resource forks and attribute snapshots of the server core
    ([crates/server-core/src/lib.rs], lines 2821-3052, 3158-3281 and
    3326-3369): the side store that keeps resource forks outside the exported
    tree, the bounded attribute reads, and the inline-attribute budget of
    directory views. *)

From S2P Require Import Prelude Protocol Common Locks Registry XattrNames FileIO Attributes HostDirs.

Section forks.
Context {H : Type} `{HF : HostFiles H} `{HD : HostDirs H}.
Context (sha256 : list Z → list Z) (b64_encode : list Z → list Z)
  (b64_decode : list Z → option (list Z)) (major minor : Z → Z)
  (stable_node_id : FileIdentity → NodeId).

Definition is_file (stat : Stat) : bool := file_type (Stat.st_mode stat) =? S_IFREG.
Definition is_dir (stat : Stat) : bool := file_type (Stat.st_mode stat) =? S_IFDIR.

(** * The resource-fork store *)

Definition open_resource_fork (path : NodeId) (write create : bool) : FM Z :=
  file ← run_sys (λ h, fork_open h path write create);
  metadata ← metadata_of file;
  if negb (is_file metadata) then sm_err ServerError.StateUnavailable else mret file.

Definition read_resource_fork_range (path : NodeId) (offset length : Z) : FM (Z * list Z) :=
  r ← sm_try (open_resource_fork path false false);
  match r with
  | Ok file =>
      total ← file_len file;
      let amount := Z.min length (u64_saturating_sub total offset) in
      data ← read_all_at file offset amount;
      mret (total, data)
  | Err ServerError.NotFound => sm_err ServerError.NoAttribute
  | Err error => sm_err error
  end.

(** The [exists] test of [write_resource_fork]. *)
Definition fork_exists (path : NodeId) : FM bool := λ h,
  (match fork_lstat h path with
   | Ok metadata => if is_file metadata then Ok true else Err ServerError.StateUnavailable
   | Err error =>
       if bool_decide (io_kind error = IoKind.NotFound) then Ok false
       else Err (server_error_from_io error)
   end, h).

(** [match (mode, exists)]: the creation and replacement modes. *)
Definition check_set_mode (mode : XattrSetMode) (exists_ : bool) : result ServerError unit :=
  match mode, exists_ with
  | XattrSetMode.Create, true => Err ServerError.AlreadyExists
  | XattrSetMode.Replace, false => Err ServerError.NoAttribute
  | _, _ => Ok tt
  end.

Definition write_resource_fork (path : NodeId) (value : list Z) (mode : XattrSetMode)
    (position : Z) : FM unit :=
  exists_ ← fork_exists path;
  _ ← sm_lift (check_set_mode mode exists_);
  end_ ← sm_lift (ok_or (u64_checked_add position (zlen value))
                    (ServerError.InvalidRequest (lit "resource-fork range overflow")));
  if end_ >? MAX_XATTR_SIZE then
    sm_err (ServerError.InvalidRequest (lit "resource fork is too large"))
  else
    file ← open_resource_fork path true (negb exists_);
    _ ← (if position =? 0 then run_io (λ h, ftruncate h file 0) else mret tt);
    write_all_at file position value false.

Definition remove_resource_fork (path : NodeId) : FM unit :=
  h ← sm_get;
  match fork_lstat h path with
  | Ok metadata =>
      if is_file metadata then run_io (λ h, fork_unlink h path)
      else sm_err ServerError.StateUnavailable
  | Err error =>
      if bool_decide (io_kind error = IoKind.NotFound) then sm_err ServerError.NoAttribute
      else sm_err (server_error_from_io error)
  end.

Definition optional_resource_fork (path : NodeId) : FM (option (list Z)) :=
  r ← sm_try (read_resource_fork_range path 0 MAX_XATTR_SIZE);
  match r with
  | Ok (_, value) => mret (Some value)
  | Err ServerError.NoAttribute => mret None
  | Err error => sm_err error
  end.

Definition replace_resource_fork (path : NodeId) (value : option (list Z)) : FM unit :=
  match value with
  | Some value => write_resource_fork path value XattrSetMode.Upsert 0
  | None =>
      r ← sm_try (remove_resource_fork path);
      match r with
      | Ok _ | Err ServerError.NoAttribute => mret tt
      | Err error => sm_err error
      end
  end.

Definition exchange_resource_forks (left right : NodeId) : FM unit :=
  left_value ← optional_resource_fork left;
  right_value ← optional_resource_fork right;
  _ ← replace_resource_fork left right_value;
  r ← sm_try (replace_resource_fork right left_value);
  match r with
  | Err error => _ ← sm_try (replace_resource_fork left left_value); sm_err error
  | Ok _ => mret tt
  end.

(** [enrich_resource_fork_revision_at]: the revision of a node with a fork
    covers the size and the modification time of the fork. *)
Definition set_revision (m : Metadata) (r : Z) : Metadata :=
  Metadata.Mk (Metadata.node m) (Metadata.kind m) (Metadata.size m) (Metadata.mode m)
    (Metadata.allocated_blocks m) r (Metadata.accessed_unix_ms m) (Metadata.modified_unix_ms m)
    (Metadata.created_unix_ms m) (Metadata.backup_unix_ms m) (Metadata.link_count m)
    (Metadata.device_major m) (Metadata.device_minor m).
Definition set_backup (m : Metadata) (b : option Z) : Metadata :=
  Metadata.Mk (Metadata.node m) (Metadata.kind m) (Metadata.size m) (Metadata.mode m)
    (Metadata.allocated_blocks m) (Metadata.revision m) (Metadata.accessed_unix_ms m)
    (Metadata.modified_unix_ms m) (Metadata.created_unix_ms m) b (Metadata.link_count m)
    (Metadata.device_major m) (Metadata.device_minor m).
Definition set_node (m : Metadata) (n : NodeId) : Metadata :=
  Metadata.Mk n (Metadata.kind m) (Metadata.size m) (Metadata.mode m)
    (Metadata.allocated_blocks m) (Metadata.revision m) (Metadata.accessed_unix_ms m)
    (Metadata.modified_unix_ms m) (Metadata.created_unix_ms m) (Metadata.backup_unix_ms m)
    (Metadata.link_count m) (Metadata.device_major m) (Metadata.device_minor m).

Definition enrich_resource_fork_revision_at (resource_forks : bool) (node : NodeId)
    (metadata : Metadata) : FM Metadata := λ h,
  if resource_forks then
    match fork_stat h node with
    | Ok sidecar =>
        let input :=
          lit "quickfs resource fork revision v1" ++
          to_le_bytes 8 (Metadata.revision metadata) ++
          to_le_bytes 8 (Stat.st_size sidecar) ++
          (if Stat.st_mtime sidecar <? 0 then []
           else to_le_bytes 16 (Stat.st_mtime sidecar * 1000000000 + Stat.st_mtime_nsec sidecar)) in
        (Ok (set_revision metadata (from_le_bytes (take 8 (sha256 input)))), h)
    | Err _ => (Ok metadata, h)
    end
  else (Ok metadata, h).

(** * Attribute lists and snapshots *)

(** The retry loop of [list_fd_xattrs]; the capacity doubles up to
    [MAX_FRAME_SIZE]. *)
Fixpoint list_xattr_loop (fuel : nat) (file capacity : Z) : FM (list Z) :=
  r ← ask_sys (λ h, flistxattr h file capacity);
  match r with
  | Ok bytes => mret bytes
  | Err Errno.RANGE =>
      if capacity <? MAX_FRAME_SIZE then
        match fuel with
        | O => sm_err ServerError.TaskFailed
        | S fuel' =>
            list_xattr_loop fuel' file (Z.min (u64_saturating_mul capacity 2) MAX_FRAME_SIZE)
        end
      else sm_err (of_errno Errno.RANGE)
  | Err error => sm_err (of_errno error)
  end.
Definition list_fd_xattrs (file : Z) : FM (list Name) :=
  bytes ← list_xattr_loop 64 file 1024;
  mret (parse_xattr_list b64_decode bytes).

(** [read_fd_xattr_bounded]: [None] for a value larger than [maximum]. *)
Fixpoint read_bounded_loop (fuel : nat) (file : Z) (name : list Z) (maximum capacity : Z)
    : FM (option (list Z)) :=
  r ← ask_sys (λ h, fgetxattr h file name capacity);
  match r with
  | Ok value => mret (Some value)
  | Err Errno.RANGE =>
      if capacity <? maximum then
        match fuel with
        | O => sm_err ServerError.TaskFailed
        | S fuel' =>
            read_bounded_loop fuel' file name maximum
              (Z.min (u64_saturating_mul capacity 2) maximum)
        end
      else mret None
  | Err error => sm_err (of_errno error)
  end.
Definition read_fd_xattr_bounded (file : Z) (name : list Z) (maximum : Z)
    : FM (option (list Z)) :=
  if maximum =? 0 then mret None
  else read_bounded_loop 64 file name maximum (Z.max (Z.min 256 maximum) 1).

(** [claim_inline_budget] on the shared counter: whether the claim succeeds,
    and the counter after it. *)
Definition claim_inline_budget (remaining amount : Z) : bool * Z :=
  match u64_checked_sub remaining amount with
  | Some rest => (true, rest)
  | None => (false, remaining)
  end.

(** [.ok()] on a fallible step. *)
Definition fm_ok {A} (m : FM (H:=H) A) : FM (H:=H) (option A) :=
  r ← sm_try m; mret (result_ok r).

(** The candidate value of one attribute in [xattr_snapshot_for_open_file]. *)
Definition inline_candidate (file : Z) (resource_fork : option NodeId) (inline_maximum : Z)
    (name : Name) : FM (option (list Z)) :=
  if is_resource_fork name then
    match resource_fork with
    | None => mret None
    | Some path =>
        r ← fm_ok (read_resource_fork_range path 0 inline_maximum);
        mret (match r with
              | Some (total, value) => if total <=? inline_maximum then Some value else None
              | None => None
              end)
    end
  else
    match logical_xattr_name b64_encode name with
    | Ok host_name =>
        r ← fm_ok (read_fd_xattr_bounded file host_name inline_maximum);
        mret (match r with Some v => v | None => None end)
    | Err _ => mret None
    end.

(** The loop over the names; [remaining] is the shared inline budget. *)
Fixpoint inline_values_loop (file : Z) (resource_fork : option NodeId) (inline_maximum : Z)
    (names : list Name) (remaining : Z) (inline_values : list InlineXattr)
    : FM (list InlineXattr * Z) :=
  match names with
  | [] => mret (inline_values, remaining)
  | name :: names' =>
      value ← inline_candidate file resource_fork inline_maximum name;
      match value with
      | Some v =>
          let '(claimed, remaining') := claim_inline_budget remaining (zlen v) in
          inline_values_loop file resource_fork inline_maximum names' remaining'
            (if claimed then inline_values ++ [InlineXattr.Mk name v] else inline_values)
      | None =>
          inline_values_loop file resource_fork inline_maximum names' remaining inline_values
      end
  end.

(** [xattr_snapshot_for_open_file]: the snapshot and the budget left. *)
Definition xattr_snapshot_for_open_file (file : Z) (node : NodeId) (resource_forks : bool)
    (inline_maximum remaining : Z) : FM (XattrSnapshot * Z) :=
  names ← list_fd_xattrs file;
  h ← sm_get;
  let has_fork := resource_forks &&
    match fork_stat h node with Ok st => is_file st | Err _ => false end in
  let names :=
    if has_fork && negb (existsb is_resource_fork names)
    then sort_by name_leb (names ++ [RESOURCE_FORK]) else names in
  if 0 <? inline_maximum then
    vr ← inline_values_loop file (if resource_forks then Some node else None) inline_maximum
           names remaining [];
    mret (XattrSnapshot.Mk names vr.1, vr.2)
  else mret (XattrSnapshot.Mk names [], remaining).

(** * Directory scans *)

Definition validate_directory_view_options (options : DirectoryViewOptions)
    : result ServerError unit :=
  if (DirectoryViewOptions.inline_xattr_size options >? MAX_DIRECTORY_INLINE_XATTR_SIZE)
     || (DirectoryViewOptions.inline_xattr_total_size options >?
           MAX_DIRECTORY_INLINE_XATTR_TOTAL_SIZE)
     || (negb (DirectoryViewOptions.include_xattrs options) &&
         (negb (DirectoryViewOptions.inline_xattr_size options =? 0)
          || negb (DirectoryViewOptions.inline_xattr_total_size options =? 0)))
  then Err (ServerError.InvalidRequest
              (lit "directory xattr projection exceeds the protocol budget"))
  else Ok tt.

(** The name loop of [prepare_directory_scan]. *)
Fixpoint collect_names (stream : list (result Errno Name)) (names : list Name)
    : result ServerError (list Name) :=
  match stream with
  | [] => Ok names
  | Err error :: _ => Err (of_errno error)
  | Ok name :: stream' =>
      if bool_decide (name = DOT) || bool_decide (name = DOTDOT) then collect_names stream' names
      else if zlen names >=? MAX_DIRECTORY_ENTRIES then Err ServerError.DirectoryTooLarge
      else collect_names stream' (names ++ [name])
  end.

Record PreparedDirectoryScan := MkPrepared {
  directory : Z;
  relative : list Name;
  before : Stat;
  scan_names : list Name
}.

Definition prepare_directory_scan (root : Z) (snapshot : NodeSnapshot)
    : FM PreparedDirectoryScan :=
  opened ← open_node_snapshot root snapshot RDONLY_DIRECTORY (Some NodeKind.Directory);
  let '(dir, relative, before) := opened in
  stream ← ask (λ h, read_dir h dir);
  names ← sm_lift (collect_names stream []);
  mret (MkPrepared dir relative before names).

Record ScannedDirectoryEntry := MkScanned {
  scanned_identity : FileIdentity;
  scanned_relative : list Name;
  scanned_entry : DirectoryEntry;
  scanned_xattrs : option XattrSnapshot
}.

Definition open_directory_entry_for_xattrs (dir : Z) (name : Name) (kind : NodeKind) : FM Z :=
  run_sys (λ h, openat h dir name
    (with_nofollow (if bool_decide (kind = NodeKind.Directory) then RDONLY_DIRECTORY
                    else RDONLY_NONBLOCK)) 0).

(** [scan_directory_entry]: the entry and the inline budget left. *)
Definition scan_directory_entry (dir : Z) (parent : list Name) (name : Name)
    (resource_forks : bool) (options : DirectoryViewOptions) (remaining : Z)
    : FM (ScannedDirectoryEntry * Z) :=
  stat ← run_sys (λ h, statat h dir name);
  let identity := identity_from_stat stat in
  let node := stable_node_id identity in
  kind ← sm_lift (node_kind_from_mode (Stat.st_mode stat));
  metadata ← sm_lift (to_metadata_from_stat sha256 major minor node stat);
  let base_revision := Metadata.revision metadata in
  mxr ← (if DirectoryViewOptions.include_xattrs options &&
            negb (bool_decide (kind = NodeKind.Symlink)) then
           opened ← sm_try (open_directory_entry_for_xattrs dir name kind);
           match opened with
           | Ok file =>
               backup ← fm_ok (read_fd_backup_time file);
               let metadata := set_backup metadata (match backup with Some b => b | None => None end) in
               snapshot ← fm_ok (xattr_snapshot_for_open_file file node resource_forks
                                   (DirectoryViewOptions.inline_xattr_size options) remaining);
               st ← metadata_of file;
               if negb (revision sha256 st =? base_revision) then sm_err ServerError.Conflict
               else mret (metadata,
                          match snapshot with Some (x, _) => Some x | None => None end,
                          match snapshot with Some (_, rest) => rest | None => remaining end)
           | Err _ => mret (metadata, None, remaining)
           end
         else mret (metadata, None, remaining));
  let '(metadata, xattrs, remaining) := mxr in
  metadata ← enrich_resource_fork_revision_at resource_forks node metadata;
  mret (MkScanned identity (parent ++ [name])
          (DirectoryEntry.Mk node name kind metadata) xattrs, remaining).
End forks.
