(* ===== verification/Session.v ===== *)
(** One connection's view of an export ([crates/server-core/src/lib.rs],
    [ExportSession]): every operation of the session over the registry, the
    handle table, the lock table and the operating system, with the permits an
    operation holds while it runs.

    The gates that serialise operations on one file are not part of the state:
    an operation here is what runs while its gates are held ([Gates]).  The entry
    tasks of a directory scan, which run concurrently, are taken in name order. *)

From S2P Require Import Prelude Protocol Common Locks Registry XattrNames FileIO Attributes HostDirs Forks.

Definition MAX_SYMLINK_TARGET_SIZE : Z := 16 * 1024.

(** The fields of [ExportShared] and [ExportSession] that do not change. *)
Record ExportConfig := MkConfig {
  limits : Limits;
  writable : bool;
  epoch : Z;
  persistent : bool;
  root_file : Z;
  session_id : Z
}.

(** The mutable state an operation works on. *)
Record Session (H : Type) := MkSession {
  nodes : RegState;
  handle_permits : Z;
  locks : list LockRecord;
  volume_name : list Z;
  write_authorized : bool;
  host : H
}.
Arguments MkSession {H} _ _ _ _ _ _.
Arguments nodes {H} _.
Arguments handle_permits {H} _.
Arguments locks {H} _.
Arguments volume_name {H} _.
Arguments write_authorized {H} _.
Arguments host {H} _.

(** * Validation *)

Definition validate_limits (limits : Limits) (max_permits : Z) : result ServerError unit :=
  if (Limits.max_read_size limits =? 0) || (Limits.max_write_size limits =? 0) then
    Err (ServerError.InvalidRequest (lit "maximum read and write sizes must be greater than zero"))
  else if (Limits.max_open_handles limits =? 0) || (Limits.max_open_handles limits >? max_permits) then
    Err (ServerError.InvalidRequest (lit "maximum open handles must fit the runtime semaphore limit"))
  else if (Limits.max_known_nodes limits =? 0) || (Limits.max_known_nodes limits >? max_permits) then
    Err (ServerError.InvalidRequest (lit "maximum known nodes must fit the runtime semaphore limit"))
  else if (Limits.max_total_known_nodes limits =? 0)
          || (Limits.max_total_known_nodes limits >? max_permits)
          || (Limits.max_known_nodes limits >? Limits.max_total_known_nodes limits) then
    Err (ServerError.InvalidRequest
      (lit "total known-node capacity must cover one connection and fit the runtime limit"))
  else if (Limits.max_directory_entry_tasks limits =? 0)
          || (Limits.max_directory_entry_tasks limits >? max_permits) then
    Err (ServerError.InvalidRequest
      (lit "maximum directory entry tasks must fit the runtime semaphore limit"))
  else Ok tt.

Definition validate_open_options (options : FileOpenOptions) (writable : bool)
    : result ServerError unit :=
  if (FileOpenOptions.truncate options || FileOpenOptions.append options)
     && negb (can_write_access (FileOpenOptions.access options)) then
    Err (ServerError.InvalidRequest (lit "truncate and append require write access"))
  else if can_write_access (FileOpenOptions.access options) && negb writable then
    Err ServerError.ReadOnly
  else Ok tt.

Definition validate_name (name : list Z) : result ServerError unit :=
  map_err (λ e, ServerError.InvalidRequest (validation_message e)) (validate_filename name).

(** The component loop of [validate_symlink_target]. *)
Fixpoint check_target (components : list Component) (normal : bool) : result ServerError bool :=
  match components with
  | [] => Ok normal
  | Component.Normal _ :: cs => check_target cs true
  | Component.CurDir :: cs => check_target cs normal
  | _ :: _ => Err ServerError.PermissionDenied
  end.
Definition validate_symlink_target (target : list Z) : result ServerError unit :=
  if bool_decide (target = []) || (zlen target >? MAX_SYMLINK_TARGET_SIZE)
     || bool_decide (0 ∈ target)
  then Err (ServerError.InvalidRequest (lit "invalid symbolic-link target"))
  else
    normal ← check_target (path_components target) false;
    if (normal : bool) then Ok tt
    else Err (ServerError.InvalidRequest
                (lit "symbolic-link target must name an in-export object")).

(** [validate_range(..).map_err(..)]. *)
Definition validate_request_range (offset length maximum : Z) : result ServerError unit :=
  map_err (λ e, ServerError.InvalidRequest (validation_message e))
    (validate_range offset length maximum).

Section session.
Context {H : Type} `{HF : HostFiles H} `{HD : HostDirs H}.
Context (sha256 : list Z → list Z) (b64_encode : list Z → list Z)
  (b64_decode : list Z → option (list Z)) (major minor : Z → Z)
  (stable_node_id : FileIdentity → NodeId).
(** The iteration order of the hash maps, and the outcome of the loop in
    [insert_handle]: a random handle that is not in use. *)
Context (hash_order : gset NodeId → list NodeId)
  (fresh_handle : gset FileHandle → FileHandle).
Context (cfg : ExportConfig).

Definition SS (A : Type) : Type := SM (Session H) ServerError A.

Definition set_nodes (r : RegState) (s : Session H) : Session H :=
  MkSession r (handle_permits s) (locks s) (volume_name s) (write_authorized s) (host s).
Definition add_handle_permits (d : Z) (s : Session H) : Session H :=
  MkSession (nodes s) (handle_permits s + d) (locks s) (volume_name s) (write_authorized s) (host s).
Definition set_locks (l : list LockRecord) (s : Session H) : Session H :=
  MkSession (nodes s) (handle_permits s) l (volume_name s) (write_authorized s) (host s).
Definition set_host (h : H) (s : Session H) : Session H :=
  MkSession (nodes s) (handle_permits s) (locks s) (volume_name s) (write_authorized s) h.
Definition set_handles (m : gmap FileHandle OpenFile) (s : Session H) : Session H :=
  set_nodes (upd_session (λ n, MkSessionNodes (known_nodes n) (session_permits n) m) (nodes s)) s.

(** Run a registry operation, or a host operation. *)
Definition reg {A} (m : RM A) : SS A := λ s,
  let '(r, n) := m (nodes s) in (r, set_nodes n s).
Definition sys {A} (m : FM A) : SS A := λ s,
  let '(r, h) := m (host s) in (r, set_host h s).

Definition can_write (s : Session H) : bool := writable cfg && write_authorized s.
Definition require_writable : SS unit :=
  s ← sm_get; if can_write s then mret tt else sm_err ServerError.ReadOnly.
Definition set_write_authorized (authorized : bool) : SS unit :=
  sm_modify (λ s, MkSession (nodes s) (handle_permits s) (locks s) (volume_name s) authorized
    (host s)).

(** * Handles and permits *)

Definition open_handle (handle : FileHandle) : SS OpenFile :=
  s ← sm_get;
  sm_lift (ok_or (handles (session_nodes (nodes s)) !! handle) ServerError.InvalidHandle).

Definition insert_handle (opened : OpenFile) : SS FileHandle :=
  s ← sm_get;
  let table := handles (session_nodes (nodes s)) in
  let handle := fresh_handle (dom table) in
  _ ← sm_modify (set_handles (<[handle := opened]> table));
  mret handle.

(** [handle_permits.try_acquire_owned()]. *)
Definition acquire_handle_permit : SS unit :=
  s ← sm_get;
  if 0 <? handle_permits s then sm_modify (add_handle_permits (-1))
  else sm_err ServerError.TooManyHandles.
(** A scope that holds a handle permit: an early return drops it, and at the
    end the inserted [OpenFile] owns it. *)
Definition holding_handle {A} (body : SS A) : SS A :=
  r ← sm_try body;
  match r with
  | Ok a => mret a
  | Err e => _ ← sm_modify (add_handle_permits 1); sm_err e
  end.
(** A scope that holds the two permits of [reserve_node]: an early return
    drops them, and at the end [remember_reserved] takes them. *)
Definition holding_node {A} (body : SS A) : SS A :=
  r ← sm_try body;
  match r with
  | Ok a => mret a
  | Err e => _ ← reg drop_session_permit; _ ← reg drop_global_permit; sm_err e
  end.

(** * Nodes *)

(** One directory level of [discover_node]: the entries with their stats. *)
Fixpoint stat_entries (dir : Z) (stream : list (result Errno Name)) : FM (list (Name * Stat)) :=
  match stream with
  | [] => mret []
  | Err error :: _ => sm_err (of_errno error)
  | Ok name :: stream' =>
      stat ← run_sys (λ h, statat h dir name);
      rest ← stat_entries dir stream';
      mret ((name, stat) :: rest)
  end.

(** The entry loop: [inl] when the node was found, otherwise the directories
    to visit and the number of entries seen. *)
Fixpoint discover_entries (requested : NodeId) (relative : list Name)
    (entries : list (Name * Stat)) (visited : Z) (pending : list (list Name))
    : SS (unit + list (list Name) * Z) :=
  match entries with
  | [] => mret (inr (pending, visited))
  | (name, stat) :: entries' =>
      if bool_decide (name = DOT) || bool_decide (name = DOTDOT) then
        discover_entries requested relative entries' visited pending
      else
        let visited := u64_saturating_add visited 1 in
        if visited >? Limits.max_total_known_nodes (limits cfg) then sm_err ServerError.TooManyNodes
        else
          let child := relative ++ [name] in
          let file_identity := identity_from_stat stat in
          if bool_decide (stable_node_id file_identity = requested) then
            remembered ← reg (remember hash_order stable_node_id file_identity child);
            if bool_decide (remembered = requested) then mret (inl tt)
            else sm_err ServerError.StateUnavailable
          else
            kind ← sm_lift (node_kind_from_mode (Stat.st_mode stat));
            discover_entries requested relative entries' visited
              (if bool_decide (kind = NodeKind.Directory) then child :: pending else pending)
  end.

(** The walk; [pending] is the stack.  Every directory on the stack but the
    first was counted in [visited], so the fuel [max_total_known_nodes + 1]
    covers every pop. *)
Fixpoint discover_loop (fuel : nat) (requested : NodeId) (pending : list (list Name))
    (visited : Z) : SS unit :=
  match pending with
  | [] => sm_err ServerError.InvalidNode
  | relative :: pending' =>
      match fuel with
      | O => sm_err ServerError.TaskFailed
      | S fuel' =>
          dir ← sys (open_directory (root_file cfg) relative);
          stream ← sys (ask (λ h, read_dir h dir));
          entries ← sys (stat_entries dir stream);
          r ← discover_entries requested relative entries visited pending';
          match r with
          | inl _ => mret tt
          | inr (pending, visited) => discover_loop fuel' requested pending visited
          end
      end
  end.
Definition discover_node (requested : NodeId) : SS unit :=
  if bool_decide (requested = ROOT_NODE) then mret tt
  else discover_loop (S (Z.to_nat (Limits.max_total_known_nodes (limits cfg)))) requested [[]] 0.

Definition node_snapshot (node : NodeId) : SS NodeSnapshot :=
  s ← sm_get;
  _ ← (match by_node (registry (nodes s)) !! node with
       | Some _ => mret tt
       | None => discover_node node
       end);
  s ← sm_get;
  match by_node (registry (nodes s)) !! node with
  | None => sm_err ServerError.InvalidNode
  | Some known =>
      let snapshot := NodeSnapshot.Mk (KnownNode.identity known) (KnownNode.paths known) in
      _ ← reg (track_node hash_order node);
      mret snapshot
  end.

(** [open_snapshot]: the same loop as [open_node_snapshot], from the export root. *)
Definition open_snapshot (snapshot : NodeSnapshot) (flags : OFlags) (expected : option NodeKind)
    : SS (Z * list Name * Stat) :=
  sys (open_node_snapshot (root_file cfg) snapshot flags expected).

(** Open a directory node for a name operation. *)
Definition open_parent_node (parent : NodeId) : SS (Z * list Name) :=
  snapshot ← node_snapshot parent;
  opened ← open_snapshot snapshot RDONLY_DIRECTORY (Some NodeKind.Directory);
  mret (opened.1.1, opened.1.2).

Definition resource_fork_path (node : NodeId) : option NodeId :=
  if persistent cfg then Some node else None.

Definition read_backup_time (snapshot : NodeSnapshot) : FM (option Z) :=
  r ← sm_try (open_xattr_file (root_file cfg) snapshot);
  match r with
  | Ok file => read_fd_backup_time file
  | Err ServerError.NotSupported => mret None
  | Err error => sm_err error
  end.

(** [.ok().flatten()]. *)
Definition ok_flatten {A} (m : FM (H:=H) (option A)) : FM (H:=H) (option A) :=
  r ← fm_ok m; mret (match r with Some o => o | None => None end).

Definition metadata (node : NodeId) : SS Metadata :=
  snapshot ← node_snapshot node;
  stat ← sys (path_stat (root_file cfg) snapshot);
  match stat with
  | Some st =>
      m ← sm_lift (to_metadata_from_stat sha256 major minor node st);
      backup ← sys (ok_flatten (read_backup_time snapshot));
      sys (enrich_resource_fork_revision_at sha256 (persistent cfg) node (set_backup m backup))
  | None => sm_err ServerError.NotFound
  end.

(** * Directories *)

(** The entry tasks of [scan_directory], with the shared inline budget. *)
Fixpoint scan_entries (dir : Z) (parent : list Name) (options : DirectoryViewOptions)
    (names : list Name) (remaining : Z) (entries : list ScannedDirectoryEntry)
    : FM (list ScannedDirectoryEntry * Z) :=
  match names with
  | [] => mret (entries, remaining)
  | name :: names' =>
      er ← scan_directory_entry sha256 b64_encode b64_decode major minor stable_node_id
             dir parent name (persistent cfg) options remaining;
      scan_entries dir parent options names' er.2 (entries ++ [er.1])
  end.

(** Register the scanned entries and put the registered identifiers in. *)
Fixpoint remember_entries (entries : list ScannedDirectoryEntry)
    : SS (list ScannedDirectoryEntry) :=
  match entries with
  | [] => mret []
  | scanned :: entries' =>
      remembered ← reg (remember hash_order stable_node_id (scanned_identity scanned)
                          (scanned_relative scanned));
      rest ← remember_entries entries';
      let e := scanned_entry scanned in
      mret (MkScanned (scanned_identity scanned) (scanned_relative scanned)
              (DirectoryEntry.Mk remembered (DirectoryEntry.name e) (DirectoryEntry.kind e)
                 (set_node (DirectoryEntry.metadata e) remembered))
              (scanned_xattrs scanned) :: rest)
  end.

Definition scanned_leb (a b : ScannedDirectoryEntry) : bool :=
  name_leb (DirectoryEntry.name (scanned_entry a)) (DirectoryEntry.name (scanned_entry b)).

(** [scan_directory]: revision, prepared scan, entries in name order, and the
    inline budget left. *)
Definition scan_directory (node : NodeId) (options : DirectoryViewOptions) (remaining : Z)
    : SS (DirectoryRevision * PreparedDirectoryScan * list ScannedDirectoryEntry * Z) :=
  snapshot ← node_snapshot node;
  prepared ← sys (prepare_directory_scan (root_file cfg) snapshot);
  er ← sys (scan_entries (directory prepared) (relative prepared) options
              (scan_names prepared) remaining []);
  after ← sys (metadata_of (directory prepared));
  let after_revision := revision sha256 after in
  if negb (revision sha256 (before prepared) =? after_revision) then sm_err ServerError.Conflict
  else
    entries ← remember_entries er.1;
    mret (after_revision, prepared, sort_by scanned_leb entries, er.2).

Definition list_with_revision (node : NodeId) : SS (DirectoryRevision * list DirectoryEntry) :=
  r ← scan_directory node DirectoryViewOptions.METADATA_ONLY 0;
  let '(rev, _, entries, _) := r in
  mret (rev, scanned_entry <$> entries).

Definition list_directory (node : NodeId) : SS (list DirectoryEntry) :=
  r ← list_with_revision node; mret r.2.

(** The metadata of the parent of a scanned directory in [directory_view]. *)
Definition view_parent (relative : list Name) (dir_metadata : Metadata) : SS Metadata :=
  if bool_decide (relative = []) then mret dir_metadata
  else
    let path := parent_path relative in
    stat ← sys (secure_lstat (root_file cfg) path);
    let identity := identity_from_stat stat in
    let parent_node := stable_node_id identity in
    m ← sm_lift (to_metadata_from_stat sha256 major minor parent_node stat);
    m ← sys (enrich_resource_fork_revision_at sha256 (persistent cfg) parent_node m);
    remembered ← reg (remember hash_order stable_node_id identity path);
    mret (set_node m remembered).

Definition directory_view (node : NodeId) (options : DirectoryViewOptions) : SS DirectoryView :=
  _ ← sm_lift (validate_directory_view_options options);
  r ← scan_directory node options (DirectoryViewOptions.inline_xattr_total_size options);
  let '(view_revision, prepared, entries, remaining) := r in
  h ← sm_gets host;
  backup ← sys (ok_flatten (read_fd_backup_time (directory prepared)));
  dir ← sys (enrich_resource_fork_revision_at sha256 (persistent cfg) node
               (set_backup (to_metadata sha256 major minor node (before prepared)
                              (birth_time h (directory prepared))) backup));
  xattrs ← (if DirectoryViewOptions.include_xattrs options then
              xr ← sys (xattr_snapshot_for_open_file b64_encode b64_decode (directory prepared)
                          node (persistent cfg) (DirectoryViewOptions.inline_xattr_size options)
                          remaining);
              mret (Some xr.1)
            else mret None);
  parent ← view_parent (relative prepared) dir;
  final ← sys (metadata_of (directory prepared));
  if negb (revision sha256 final =? view_revision) then sm_err ServerError.Conflict
  else
    mret (DirectoryView.Mk view_revision dir parent xattrs
            ((λ e, DirectoryViewEntry.Mk (scanned_entry e) (scanned_xattrs e)) <$> entries)).

(** * Opening and creating *)

Definition open (node : NodeId) (options : FileOpenOptions) : SS (FileHandle * Z * Z) :=
  s ← sm_get;
  _ ← sm_lift (validate_open_options options (can_write s));
  _ ← acquire_handle_permit;
  holding_handle (
    snapshot ← node_snapshot node;
    opened ← open_snapshot snapshot
      (open_flags (FileOpenOptions.access options) (FileOpenOptions.append options))
      (Some NodeKind.File);
    let file := opened.1.1 in
    _ ← (if FileOpenOptions.truncate options then sys (run_io (λ h, ftruncate h file 0))
         else mret tt);
    st ← sys (metadata_of file);
    handle ← insert_handle (OpenFile.Mk file node (NodeSnapshot.identity snapshot)
      (FileOpenOptions.access options) (FileOpenOptions.append options));
    mret (handle, revision sha256 st, Stat.st_size st)).

Definition create_file (parent : NodeId) (name : Name) (mode : Z) (options : FileOpenOptions)
    : SS (Metadata * FileHandle * Z * Z) :=
  _ ← require_writable;
  _ ← sm_lift (validate_name name);
  _ ← sm_lift (validate_open_options options true);
  _ ← acquire_handle_permit;
  holding_handle (
    _ ← reg (reserve_node hash_order);
    created ← holding_node (
      dp ← open_parent_node parent;
      file ← sys (run_sys (λ h, openat h dp.1 name
        (with_nofollow (with_create_excl (open_flags (FileOpenOptions.access options)
                                            (FileOpenOptions.append options))))
        (Z.land mode 4095)));
      st ← sys (metadata_of file);
      h ← sm_gets host;
      mret (file, dp.2 ++ [name], st, birth_time h file));
    let '(file, path, st, birth) := created in
    let file_identity := identity_from_stat st in
    node ← reg (remember_reserved stable_node_id file_identity path);
    handle ← insert_handle (OpenFile.Mk file node file_identity
      (FileOpenOptions.access options) (FileOpenOptions.append options));
    mret (to_metadata sha256 major minor node st birth, handle, revision sha256 st,
          Stat.st_size st)).

Definition create_directory (parent : NodeId) (name : Name) (mode : Z) : SS Metadata :=
  _ ← require_writable;
  _ ← sm_lift (validate_name name);
  _ ← reg (reserve_node hash_order);
  created ← holding_node (
    dp ← open_parent_node parent;
    _ ← sys (run_sys (λ h, mkdirat h dp.1 name (Z.land mode 4095)));
    let path := dp.2 ++ [name] in
    child ← sys (open_relative (root_file cfg) path RDONLY_DIRECTORY);
    h ← sm_gets host;
    mret (path, child.2, birth_time h child.1.1));
  let '(path, st, birth) := created in
  node ← reg (remember_reserved stable_node_id (identity_from_stat st) path);
  mret (to_metadata sha256 major minor node st birth).

(** The common end of [create_symlink] and [create_special_node]. *)
Definition create_by_name (parent : NodeId) (name : Name)
    (create : Z → FM (H:=H) unit) : SS Metadata :=
  _ ← reg (reserve_node hash_order);
  created ← holding_node (
    dp ← open_parent_node parent;
    _ ← sys (create dp.1);
    let path := dp.2 ++ [name] in
    stat ← sys (secure_lstat (root_file cfg) path);
    mret (path, stat));
  let '(path, stat) := created in
  node ← reg (remember_reserved stable_node_id (identity_from_stat stat) path);
  metadata node.

Definition create_symlink (parent : NodeId) (name : Name) (target : list Z) : SS Metadata :=
  _ ← require_writable;
  _ ← sm_lift (validate_name name);
  _ ← sm_lift (validate_symlink_target target);
  create_by_name parent name (λ dir, run_sys (λ h, symlinkat h target dir name)).

Definition create_special_node (parent : NodeId) (name : Name) (kind : SpecialNodeKind)
    (mode device_major device_minor : Z) : SS Metadata :=
  _ ← require_writable;
  _ ← sm_lift (validate_name name);
  create_by_name parent name
    (λ dir, run_sys (λ h, mknodat h dir name kind (Z.land mode 4095) device_major device_minor)).

(** The loop of [create_hard_link] over the names of the source: the source's
    identity was checked, and the link made. *)
Fixpoint link_paths (source : FileIdentity) (new_directory : Z) (new_name : Name)
    (paths : list (list Name)) : FM unit :=
  match paths with
  | [] => sm_err ServerError.NotFound
  | path :: paths' =>
      if bool_decide (path = []) then sm_err ServerError.PermissionDenied
      else
        r ← sm_try (secure_lstat (root_file cfg) path);
        match r with
        | Err _ => link_paths source new_directory new_name paths'
        | Ok stat =>
            if negb (bool_decide (identity_from_stat stat = source)) then
              link_paths source new_directory new_name paths'
            else
              kind ← sm_lift (node_kind_from_mode (Stat.st_mode stat));
              if bool_decide (kind = NodeKind.Directory) then sm_err ServerError.PermissionDenied
              else
                pn ← open_parent (root_file cfg) path;
                run_sys (λ h, linkat h pn.1 pn.2 new_directory new_name)
        end
  end.

Definition create_hard_link (node new_parent : NodeId) (new_name : Name) : SS Metadata :=
  _ ← require_writable;
  _ ← sm_lift (validate_name new_name);
  source ← node_snapshot node;
  dp ← open_parent_node new_parent;
  _ ← sys (link_paths (NodeSnapshot.identity source) dp.1 new_name (NodeSnapshot.paths source));
  _ ← reg (remember hash_order stable_node_id (NodeSnapshot.identity source) (dp.2 ++ [new_name]));
  metadata node.

(** * Removing and renaming *)

Definition remove_node (parent : NodeId) (name : Name) (dir : bool) : SS unit :=
  _ ← require_writable;
  _ ← sm_lift (validate_name name);
  dp ← open_parent_node parent;
  stat ← sys (run_sys (λ h, statat h dp.1 name));
  actual_kind ← sm_lift (node_kind_from_mode (Stat.st_mode stat));
  let removed_node := stable_node_id (identity_from_stat stat) in
  let final_link := Stat.st_nlink stat <=? 1 in
  if dir && negb (bool_decide (actual_kind = NodeKind.Directory)) then
    sm_err ServerError.NotDirectory
  else if negb dir && bool_decide (actual_kind = NodeKind.Directory) then
    sm_err ServerError.IsDirectory
  else
    _ ← sys (run_sys (λ h, unlinkat h dp.1 name dir));
    _ ← reg (remove_registry_path hash_order (dp.2 ++ [name]) dir);
    match resource_fork_path removed_node with
    | Some fork =>
        if final_link then _ ← sm_try (sys (remove_resource_fork fork)); mret tt else mret tt
    | None => mret tt
    end.

Definition rename_node (parent : NodeId) (name : Name) (new_parent : NodeId) (new_name : Name)
    (mode : RenameMode) : SS unit :=
  _ ← require_writable;
  _ ← sm_lift (validate_name name);
  _ ← sm_lift (validate_name new_name);
  old_snapshot ← node_snapshot parent;
  new_snapshot ← node_snapshot new_parent;
  old ← open_snapshot old_snapshot RDONLY_DIRECTORY (Some NodeKind.Directory);
  new ← open_snapshot new_snapshot RDONLY_DIRECTORY (Some NodeKind.Directory);
  let '(old_directory, old_parent_path, _) := old in
  let '(new_directory, new_parent_path, _) := new in
  source ← sys (run_sys (λ h, statat h old_directory name));
  let source_identity := identity_from_stat source in
  found ← sys (try_sys (λ h, statat h new_directory new_name));
  destination_identity ← sm_lift (match found with
    | Ok stat => Ok (Some (identity_from_stat stat))
    | Err Errno.NOENT => Ok None
    | Err error => Err (of_errno error)
    end);
  _ ← sys (run_sys (λ h, renameat h old_directory name new_directory new_name mode));
  reg (update_registry_after_rename hash_order (old_parent_path ++ [name])
         (new_parent_path ++ [new_name]) mode source_identity destination_identity).

(** The loop of [read_link]. *)
Fixpoint link_target (identity : FileIdentity) (paths : list (list Name)) : FM (list Z) :=
  match paths with
  | [] => sm_err ServerError.NotFound
  | path :: paths' =>
      r ← sm_try (secure_lstat (root_file cfg) path);
      match r with
      | Err _ => link_target identity paths'
      | Ok stat =>
          if negb (bool_decide (identity_from_stat stat = identity)) then link_target identity paths'
          else
            kind ← sm_lift (node_kind_from_mode (Stat.st_mode stat));
            if negb (bool_decide (kind = NodeKind.Symlink)) then link_target identity paths'
            else
              pn ← open_parent (root_file cfg) path;
              target ← run_sys (λ h, readlinkat h pn.1 pn.2);
              _ ← sm_lift (validate_symlink_target target);
              mret target
      end
  end.
Definition read_link (node : NodeId) : SS (list Z) :=
  snapshot ← node_snapshot node;
  sys (link_target (NodeSnapshot.identity snapshot) (NodeSnapshot.paths snapshot)).

(** * Extended attributes *)

Definition get_xattr (node : NodeId) (name : Name) (offset length : Z) : SS (Z * list Z) :=
  _ ← sm_lift (validate_xattr_name name);
  _ ← sm_lift (validate_request_range offset length (Limits.max_read_size (limits cfg)));
  match (if is_resource_fork name then resource_fork_path node else None) with
  | Some path =>
      _ ← node_snapshot node;
      sys (read_resource_fork_range path offset length)
  | None =>
      snapshot ← node_snapshot node;
      file ← sys (open_xattr_file (root_file cfg) snapshot);
      host_name ← sm_lift (logical_xattr_name b64_encode name);
      value ← sys (read_fd_xattr file host_name MAX_XATTR_SIZE);
      let total := zlen value in
      let start := Z.min offset total in
      let end_ := Z.min (u64_saturating_add offset length) total in
      mret (total, slice value start (end_ - start))
  end.

Definition list_xattrs (node : NodeId) : SS (list Name) :=
  snapshot ← node_snapshot node;
  file ← sys (open_xattr_file (root_file cfg) snapshot);
  names ← sys (list_fd_xattrs b64_decode file);
  h ← sm_gets host;
  let has_fork := match resource_fork_path node with
    | Some path => match fork_stat h path with Ok st => is_file st | Err _ => false end
    | None => false
    end in
  mret (if has_fork && negb (existsb is_resource_fork names)
        then sort_by name_leb (names ++ [RESOURCE_FORK]) else names).

(** The value [set_xattr] stores: the whole value, or the existing one with
    [value] copied in at [position]. *)
Definition merge_xattr (existing : option (list Z)) (value : list Z) (position : Z)
    : result ServerError (list Z) :=
  if position =? 0 then Ok value
  else
    end_ ← ok_or (u64_checked_add position (zlen value))
             (ServerError.InvalidRequest (lit "xattr range overflow"));
    if end_ >? MAX_XATTR_SIZE
    then Err (ServerError.InvalidRequest (lit "extended attribute is too large"))
    else
      let merged := default [] existing in
      let merged := if zlen merged <? end_ then resize (Z.to_nat end_) 0 merged else merged in
      Ok (take (Z.to_nat position) merged ++ value ++ drop (Z.to_nat end_) merged).

Definition set_xattr (node : NodeId) (name : Name) (value : list Z) (mode : XattrSetMode)
    (position : Z) : SS unit :=
  _ ← require_writable;
  _ ← sm_lift (validate_xattr_name name);
  if zlen value >? MAX_XATTR_SIZE then
    sm_err (ServerError.InvalidRequest (lit "extended attribute is too large"))
  else
    match (if is_resource_fork name then resource_fork_path node else None) with
    | Some path =>
        _ ← node_snapshot node;
        sys (write_resource_fork path value mode position)
    | None =>
        snapshot ← node_snapshot node;
        file ← sys (open_xattr_file (root_file cfg) snapshot);
        host_name ← sm_lift (logical_xattr_name b64_encode name);
        existing ← sys (read_optional_xattr file host_name);
        _ ← sm_lift (check_set_mode mode (bool_decide (is_Some existing)));
        value ← sm_lift (merge_xattr existing value position);
        sys (run_sys (λ h, fsetxattr h file host_name value))
    end.

Definition remove_xattr (node : NodeId) (name : Name) : SS unit :=
  _ ← require_writable;
  _ ← sm_lift (validate_xattr_name name);
  match (if is_resource_fork name then resource_fork_path node else None) with
  | Some path =>
      _ ← node_snapshot node;
      sys (remove_resource_fork path)
  | None =>
      snapshot ← node_snapshot node;
      file ← sys (open_xattr_file (root_file cfg) snapshot);
      host_name ← sm_lift (logical_xattr_name b64_encode name);
      sys (run_sys (λ h, fremovexattr h file host_name))
  end.

(** * Attributes *)

(** [Option::map(system_time_from_millis).transpose()]. *)
Definition time_option (value : option Z) : result ServerError (option SystemTime) :=
  match value with
  | None => Ok None
  | Some v => t ← system_time_from_millis v; Ok (Some t)
  end.

(** The host side of both descriptor paths of [set_attributes]. *)
Definition change_file (file : Z) (changes : AttributeChanges)
    (accessed modified : option SystemTime) : FM Stat :=
  st ← apply_file_changes file changes accessed modified;
  _ ← write_backup_time file (AttributeChanges.backup_unix_ms changes);
  mret st.

Definition no_changes (changes : AttributeChanges) : bool :=
  bool_decide (AttributeChanges.size changes = None) &&
  bool_decide (AttributeChanges.mode changes = None) &&
  bool_decide (AttributeChanges.accessed_unix_ms changes = None) &&
  bool_decide (AttributeChanges.modified_unix_ms changes = None) &&
  bool_decide (AttributeChanges.backup_unix_ms changes = None).

Definition set_attributes (node : NodeId) (handle : option FileHandle)
    (changes : AttributeChanges) : SS Metadata :=
  if no_changes changes then metadata node
  else
    _ ← require_writable;
    accessed ← sm_lift (time_option (AttributeChanges.accessed_unix_ms changes));
    modified ← sm_lift (time_option (AttributeChanges.modified_unix_ms changes));
    let resizing := bool_decide (is_Some (AttributeChanges.size changes)) in
    match handle with
    | Some handle =>
        opened ← open_handle handle;
        if negb (bool_decide (OpenFile.node opened = node)) then
          sm_err (ServerError.InvalidRequest (lit "attribute handle does not belong to the node"))
        else if resizing && negb (can_write_access (OpenFile.access opened)) then
          sm_err ServerError.PermissionDenied
        else
          st ← sys (change_file (OpenFile.file opened) changes accessed modified);
          h ← sm_gets host;
          let result := to_metadata sha256 major minor node st
                          (birth_time h (OpenFile.file opened)) in
          backup ← (match AttributeChanges.backup_unix_ms changes with
                    | Some b => mret (Some b)
                    | None => sys (ok_flatten (read_fd_backup_time (OpenFile.file opened)))
                    end);
          mret (set_backup result backup)
    | None =>
        snapshot ← node_snapshot node;
        r ← sm_try (open_snapshot snapshot
                      (if resizing then open_flags FileAccess.WriteOnly false else RDONLY) None);
        match r with
        | Ok (file, _, st) =>
            if resizing && is_dir st then sm_err ServerError.IsDirectory
            else
              st ← sys (change_file file changes accessed modified);
              h ← sm_gets host;
              mret (set_backup (to_metadata sha256 major minor node st (birth_time h file))
                      (AttributeChanges.backup_unix_ms changes))
        | Err error =>
            if resizing then sm_err error
            else
              _ ← sys (set_path_attributes (root_file cfg) snapshot
                         (AttributeChanges.mode changes) accessed modified);
              metadata node
        end
    end.

(** * Contents *)

(** [read]: the gate of the file keeps the operations of this server out, so
    the host state does not change between its calls here; concurrent writers
    of other processes are the subject of [read_consistent] itself. *)
Definition read (handle : FileHandle) (offset length : Z) : SS (Z * list Z) :=
  _ ← sm_lift (validate_request_range offset length (Limits.max_read_size (limits cfg)));
  opened ← open_handle handle;
  if negb (can_read (OpenFile.access opened)) then sm_err ServerError.PermissionDenied
  else
    h ← sm_gets host;
    sm_lift (read_consistent sha256 (λ _, h) (OpenFile.file opened) offset length 0%nat).1.

Definition write_owned (handle : FileHandle) (offset : Z) (data : list Z) : SS (Z * Z * Z) :=
  _ ← require_writable;
  let length := zlen data in
  _ ← sm_lift (validate_request_range offset length (Limits.max_write_size (limits cfg)));
  opened ← open_handle handle;
  if negb (can_write_access (OpenFile.access opened)) then sm_err ServerError.PermissionDenied
  else
    _ ← sys (write_all_at (OpenFile.file opened) offset data (OpenFile.append opened));
    st ← sys (metadata_of (OpenFile.file opened));
    mret (length, revision sha256 st, Stat.st_size st).

Definition remove_session_locks (remove : LockRecord → bool) : SS unit :=
  sm_modify (λ s, set_locks (remove_locks (locks s) remove).2 s).

Definition flush (handle : FileHandle) (lock_owner : option Z) : SS unit :=
  opened ← open_handle handle;
  match lock_owner with
  | Some owner =>
      remove_session_locks (λ record,
        (LockRecord.session record =? session_id cfg) &&
        bool_decide (LockRecord.identity record = OpenFile.identity opened) &&
        (FileLock.owner (LockRecord.lock record) =? owner))
  | None => mret tt
  end.

Definition sync (handle : FileHandle) (data_only : bool) : SS unit :=
  opened ← open_handle handle;
  sys (run_io (λ h, if data_only then fdatasync h (OpenFile.file opened)
                    else fsync h (OpenFile.file opened))).

Definition sync_directory (node : NodeId) : SS unit :=
  dp ← open_parent_node node;
  sys (run_io (λ h, fsync h dp.1)).

Definition allocate (handle : FileHandle) (offset length : Z) : SS (Z * Z) :=
  _ ← require_writable;
  if (length =? 0) || match u64_checked_add offset length with None => true | _ => false end then
    sm_err (ServerError.InvalidRequest (lit "invalid allocation range"))
  else
    opened ← open_handle handle;
    if negb (can_write_access (OpenFile.access opened)) then sm_err ServerError.PermissionDenied
    else
      _ ← sys (run_sys (λ h, fallocate h (OpenFile.file opened) offset length));
      st ← sys (metadata_of (OpenFile.file opened));
      mret (revision sha256 st, Stat.st_size st).

Definition copy_file_range (input : FileHandle) (input_offset : Z) (output : FileHandle)
    (output_offset length : Z) : SS (Z * Z * Z) :=
  _ ← require_writable;
  if match u64_checked_add input_offset length with None => true | _ => false end
     || match u64_checked_add output_offset length with None => true | _ => false end then
    sm_err (ServerError.InvalidRequest (lit "copy range overflows the file-offset space"))
  else
    input ← open_handle input;
    output ← open_handle output;
    if negb (can_read (OpenFile.access input)) || negb (can_write_access (OpenFile.access output))
    then sm_err ServerError.PermissionDenied
    else
      copied ← sys (copy_range_server (OpenFile.file input) input_offset
                      (OpenFile.file output) output_offset length);
      st ← sys (metadata_of (OpenFile.file output));
      mret (copied, revision sha256 st, Stat.st_size st).

Definition seek_file (handle : FileHandle) (offset : Z) (whence : SeekWhence) : SS Z :=
  opened ← open_handle handle;
  if negb (can_read (OpenFile.access opened)) then sm_err ServerError.PermissionDenied
  else sys (ask (λ h, lseek h (OpenFile.file opened) offset whence)).

Definition safe_ioctl (handle : FileHandle) (operation : SafeIoctl) : SS Z :=
  opened ← open_handle handle;
  match operation with
  | SafeIoctl.BytesAvailable =>
      if negb (can_read (OpenFile.access opened)) then sm_err ServerError.PermissionDenied
      else sys (file_len (OpenFile.file opened))
  end.

Definition map_block (node : NodeId) (block_size block : Z) : SS Z :=
  if block_size =? 0 then
    sm_err (ServerError.InvalidRequest (lit "block size must be nonzero"))
  else
    offset ← sm_lift (ok_or (u64_checked_mul block block_size)
                        (ServerError.InvalidRequest (lit "block offset overflow")));
    snapshot ← node_snapshot node;
    opened ← open_snapshot snapshot RDONLY (Some NodeKind.File);
    data ← sys (ask (λ h, lseek h opened.1.1 offset SeekWhence.Data));
    if data <? u64_saturating_add offset block_size then mret block
    else sm_err ServerError.NoData.

Definition find_entry (entries : list DirectoryEntry) (name : Name) : result ServerError DirectoryEntry :=
  ok_or (List.find (λ entry, bool_decide (DirectoryEntry.name entry = name)) entries)
    ServerError.NotFound.

(** [exchange_data]; [temporary_name] is the random name of the temporary file. *)
Definition exchange_data (temporary_name : Name) (parent : NodeId) (name : Name)
    (new_parent : NodeId) (new_name : Name) (options : Z) : SS unit :=
  _ ← require_writable;
  _ ← sm_lift (validate_name name);
  _ ← sm_lift (validate_name new_name);
  if negb (options =? 0) then sm_err ServerError.NotSupported
  else
    entries ← list_directory parent;
    left ← sm_lift (find_entry entries name);
    entries ← list_directory (if bool_decide (parent = new_parent) then parent else new_parent);
    right ← sm_lift (find_entry entries new_name);
    if negb (bool_decide (DirectoryEntry.kind left = NodeKind.File))
       || negb (bool_decide (DirectoryEntry.kind right = NodeKind.File)) then
      sm_err (ServerError.InvalidRequest (lit "exchangedata requires two regular files"))
    else if bool_decide (DirectoryEntry.node left = DirectoryEntry.node right) then mret tt
    else
      left_snapshot ← node_snapshot (DirectoryEntry.node left);
      right_snapshot ← node_snapshot (DirectoryEntry.node right);
      left_file ← open_snapshot left_snapshot (open_flags FileAccess.ReadWrite false)
                    (Some NodeKind.File);
      right_file ← open_snapshot right_snapshot (open_flags FileAccess.ReadWrite false)
                     (Some NodeKind.File);
      temporary ← sys (run_sys (λ h, openat h (root_file cfg) temporary_name
        (with_create_excl (open_flags FileAccess.ReadWrite false)) 384));
      root ← sys (run_sys (λ h, dup_fd h (root_file cfg)));
      result ← sm_try (
        _ ← sys (exchange_file_contents b64_encode left_file.1.1 right_file.1.1 temporary);
        match resource_fork_path (DirectoryEntry.node left),
              resource_fork_path (DirectoryEntry.node right) with
        | Some left_fork, Some right_fork => sys (exchange_resource_forks left_fork right_fork)
        | _, _ => mret tt
        end);
      remove ← sm_try (sys (run_sys (λ h, unlinkat h root temporary_name false)));
      sm_lift (match result with Ok _ => remove | Err e => Err e end).

(** * Locks and the end of a handle *)

Definition get_lock (handle : FileHandle) (requested : FileLock) : SS (option FileLock) :=
  _ ← sm_lift (validate_lock requested false);
  opened ← open_handle handle;
  _ ← sm_lift (validate_lock_access (OpenFile.access opened) (FileLock.kind requested));
  s ← sm_get;
  mret (LockRecord.lock <$>
          first_conflict (locks s) (OpenFile.identity opened) (session_id cfg) requested).

(** One pass of the loop in [set_lock]: [true] when it returned, [false] when
    it waits for the next notification. *)
Definition set_lock (handle : FileHandle) (requested : FileLock) (wait : bool) : SS bool :=
  _ ← sm_lift (validate_lock requested true);
  _ ← (if bool_decide (FileLock.kind requested = LockKind.Write) then require_writable
       else mret tt);
  opened ← open_handle handle;
  _ ← sm_lift (validate_lock_access (OpenFile.access opened) (FileLock.kind requested));
  s ← sm_get;
  match set_lock_attempt (locks s) (OpenFile.identity opened) (session_id cfg) requested with
  | Updated l => _ ← sm_modify (set_locks l); mret true
  | AttemptFailed e => sm_err e
  | Blocked => if (wait : bool) then mret false else sm_err ServerError.WouldBlock
  end.

Definition close (handle : FileHandle) : SS unit :=
  opened ← open_handle handle;
  _ ← sm_modify (λ s, add_handle_permits 1
        (set_handles (delete handle (handles (session_nodes (nodes s)))) s));
  remove_session_locks (λ record,
    (LockRecord.session record =? session_id cfg) &&
    bool_decide (LockRecord.identity record = OpenFile.identity opened)).

Definition cleanup_locks : SS unit :=
  remove_session_locks (λ record, LockRecord.session record =? session_id cfg).

(** [Drop for ExportSession], with the handles dropped after it. *)
Definition drop_session : SS unit :=
  _ ← sm_try cleanup_locks;
  _ ← sm_try (reg (drop_session_nodes hash_order));
  sm_modify (λ s, add_handle_permits (Z.of_nat (size (handles (session_nodes (nodes s)))))
    (set_handles ∅ s)).

Definition capabilities (s : Session H) : FilesystemCapabilities :=
  {| FilesystemCapabilities.server_epoch := epoch cfg;
     FilesystemCapabilities.writable := can_write s;
     FilesystemCapabilities.supports_locks := true;
     FilesystemCapabilities.supports_atomic_rename := true;
     FilesystemCapabilities.supports_directory_sync := true;
     FilesystemCapabilities.supports_preallocation := true;
     FilesystemCapabilities.supports_symlinks := true;
     FilesystemCapabilities.supports_xattrs := true;
     FilesystemCapabilities.supports_hard_links := true;
     FilesystemCapabilities.supports_special_nodes := true;
     FilesystemCapabilities.supports_copy_file_range := true;
     FilesystemCapabilities.supports_seek_data_hole := true;
     FilesystemCapabilities.supports_safe_ioctl := true;
     FilesystemCapabilities.supports_poll := true;
     FilesystemCapabilities.supports_bmap := true;
     FilesystemCapabilities.supports_exchange_data := true;
     FilesystemCapabilities.supports_volume_rename := true;
     FilesystemCapabilities.supports_backup_time := true;
     FilesystemCapabilities.supports_readdirplus := true;
     FilesystemCapabilities.persistent_node_ids := persistent cfg;
     FilesystemCapabilities.restart_lock_replay := persistent cfg;
     FilesystemCapabilities.volume_name := volume_name s;
     FilesystemCapabilities.max_read_size := Limits.max_read_size (limits cfg);
     FilesystemCapabilities.max_write_size := Limits.max_write_size (limits cfg) |}.

Definition u32_or_max (z : Z) : Z := if z <=? u32_max then z else u32_max.
Definition stat_filesystem : SS FilesystemStats :=
  stats ← sys (ask (λ h, fstatvfs h (root_file cfg)));
  mret (FilesystemStats.Mk (FilesystemStats.blocks stats) (FilesystemStats.blocks_free stats)
    (FilesystemStats.blocks_available stats) (FilesystemStats.files stats)
    (FilesystemStats.files_free stats)
    (u32_or_max (FilesystemStats.block_size stats))
    (u32_or_max (FilesystemStats.name_length stats))
    (u32_or_max (FilesystemStats.fragment_size stats))).

(** A new session of the export ([session_with_writes]). *)
Definition session_with_writes (r : NodeRegistry) (permits : Z) (l : list LockRecord)
    (name : list Z) (authorized : bool) (h : H) : Session H :=
  MkSession (MkRegState r (session_nodes_new (limits cfg))) permits l name authorized h.
End session.
