(* ===== verification/RegistryPaths.v ===== *)
(** Facts on the node registry that hold beside its permit accounting: every
    path it stores consists of acceptable names, and no registry operation
    touches the handle table of the session. *)

From S2P Require Import Prelude Protocol Common Locks Registry.

Section paths.
Context (hash_order : gset NodeId → list NodeId).
Context (stable_node_id : FileIdentity → NodeId).
Context (V : Name → Prop) (table : gmap FileHandle OpenFile).

Definition path_ok (path : list Name) : Prop := Forall V path.
Definition paths_ok (r : NodeRegistry) : Prop :=
  ∀ n k, by_node r !! n = Some k → Forall path_ok (KnownNode.paths k).

(** The registry part of a state with acceptable paths and this handle table. *)
Definition side (st : RegState) : Prop :=
  paths_ok (registry st) ∧ handles (session_nodes st) = table.

Lemma paths_ok_insert r n k :
  Forall path_ok (KnownNode.paths k) → paths_ok r →
  paths_ok (set_by_node (<[n := k]> (by_node r)) r).
Proof.
  intros Hk Hr m km. simpl. rewrite lookup_insert_Some. intros [[<- <-]|[_ ?]]; eauto.
Qed.

Lemma paths_ok_remove r e : paths_ok r → paths_ok (registry_remove r e).
Proof. intros Hr m km. simpl. rewrite lookup_delete_Some. intros [_ ?]. eauto. Qed.

Lemma paths_ok_remove_all es r : paths_ok r → paths_ok (fold_left registry_remove es r).
Proof. revert r. induction es as [|e es IH]; intros r Hr; simpl; [done|]. by apply IH, paths_ok_remove. Qed.

Lemma pathset_insert_ok p s :
  path_ok p → Forall path_ok s → Forall path_ok (pathset_insert p s).
Proof.
  rewrite !Forall_forall. intros Hp Hs q [->|?]%elem_of_pathset_insert_iff; eauto.
Qed.

Lemma handles_session_remove n s : handles (session_remove n s) = handles s.
Proof. unfold session_remove. by case_match. Qed.

Lemma side_registry f :
  (∀ r, paths_ok r → paths_ok (f r)) → ∀ st, side st → side (upd_registry f st).
Proof. intros Hf st [Hp Ht]. split; [by apply Hf|done]. Qed.

Lemma side_session f :
  (∀ s, handles (f s) = handles s) → ∀ st, side st → side (upd_session f st).
Proof. intros Hf st [Hp Ht]. split; [done|]. simpl. by rewrite Hf. Qed.

Lemma keeps_drop_session : sm_keeps side drop_session_permit.
Proof. apply sm_keeps_modify, side_session. done. Qed.

Lemma keeps_drop_global : sm_keeps side drop_global_permit.
Proof. apply sm_keeps_modify, side_registry. done. Qed.

Lemma keeps_evict_session : sm_keeps side (evict_unreferenced_session_node hash_order).
Proof.
  apply sm_keeps_bind; [apply sm_keeps_gets|]. intros s. cbv zeta.
  destruct (List.find _ _) as [n|]; [|apply sm_keeps_ret].
  apply sm_keeps_bind; [apply sm_keeps_modify, side_session; intros; apply handles_session_remove|].
  intros []. apply sm_keeps_bind; [|intros; apply sm_keeps_ret].
  apply sm_keeps_modify, side_registry. intros r Hr.
  destruct (by_node r !! n) eqn:Hn; [|done]. apply paths_ok_insert; [|done]. simpl. eauto.
Qed.

Lemma keeps_evict_global : sm_keeps side (evict_unreferenced_global_node hash_order).
Proof.
  apply sm_keeps_bind; [apply sm_keeps_gets|]. intros r. cbv zeta.
  destruct (List.find _ _) as [n|]; [|apply sm_keeps_ret].
  destruct (by_node r !! n); [|apply sm_keeps_ret].
  apply sm_keeps_bind; [|intros; apply sm_keeps_ret].
  apply sm_keeps_modify, side_registry. intros r' Hr. by apply paths_ok_remove.
Qed.

Lemma keeps_acquire_loop fuel : sm_keeps side (acquire_session_loop hash_order fuel).
Proof.
  induction fuel as [|fuel IH]; simpl.
  all: apply sm_keeps_bind; [apply sm_keeps_gets|]; intros s; case_match;
    [apply sm_keeps_modify, side_session; done|].
  all: apply sm_keeps_bind; [apply keeps_evict_session|]; intros []; auto with sm.
Qed.

Lemma keeps_acquire : sm_keeps side (acquire_session_permit hash_order).
Proof. apply sm_keeps_bind; [apply sm_keeps_gets|]. intros s. apply keeps_acquire_loop. Qed.

Lemma keeps_reserve : sm_keeps side (reserve_node hash_order).
Proof.
  assert (sm_keeps side (sm_modify (upd_registry (add_node_permits (-1))) : RM unit)) as Htake.
  { apply sm_keeps_modify, side_registry. done. }
  assert (sm_keeps side ((_ ← drop_session_permit; sm_err ServerError.TooManyNodes) : RM unit)) as Hno.
  { apply sm_keeps_bind; [apply keeps_drop_session|intros; apply sm_keeps_err]. }
  apply sm_keeps_bind; [apply keeps_acquire|]. intros [].
  apply sm_keeps_bind; [apply sm_keeps_gets|]. intros r. case_match; [done|].
  apply sm_keeps_bind; [apply keeps_evict_global|]. intros []; [|done].
  apply sm_keeps_bind; [apply sm_keeps_gets|]. intros r'. by case_match.
Qed.

Lemma keeps_track_with_permit node : sm_keeps side (track_node_with_permit node).
Proof.
  intros st Hst. unfold track_node_with_permit. sm_unfold. simpl.
  pose proof (keeps_drop_session st Hst) as Hdrop.
  destruct (known_nodes (session_nodes st) !! node); [done|].
  destruct (by_node (registry st) !! node) as [k|] eqn:Hk; [|done].
  destruct (u64_checked_add _ _); [|done]. simpl.
  destruct Hst as [Hp Ht]. split; [|done].
  apply paths_ok_insert; [|done]. simpl. eauto.
Qed.

Lemma keeps_track node : sm_keeps side (track_node hash_order node).
Proof.
  apply sm_keeps_bind; [apply sm_keeps_get|]. intros st. case_match; [apply sm_keeps_ret|].
  apply sm_keeps_bind; [apply keeps_acquire|]. intros. apply keeps_track_with_permit.
Qed.

Lemma side_add_path path node st :
  path_ok path → side st →
  side (upd_registry (λ r, set_by_node (alter (add_known_path path) node (by_node r)) r) st).
Proof.
  intros Hpath. apply side_registry. intros r Hr n k. simpl.
  rewrite lookup_alter_Some. intros [(-> & k' & Hk & ->)|[_ ?]]; [|eauto].
  simpl. apply pathset_insert_ok; eauto.
Qed.

Lemma keeps_remember_reserved identity path :
  path_ok path → sm_keeps side (remember_reserved stable_node_id identity path).
Proof.
  intros Hpath. apply sm_keeps_bind; [apply sm_keeps_get|]. intros st0. cbv zeta. case_match.
  - apply sm_keeps_bind; [apply sm_keeps_modify; intros; by apply side_add_path|]. intros [].
    apply sm_keeps_bind; [apply keeps_drop_global|]. intros [].
    apply sm_keeps_bind; [apply keeps_track_with_permit|]. intros. apply sm_keeps_ret.
  - cbv zeta. case_match.
    { apply sm_keeps_bind; [apply keeps_drop_session|]. intros [].
      apply sm_keeps_bind; [apply keeps_drop_global|]. intros. apply sm_keeps_err. }
    apply sm_keeps_bind.
    { apply sm_keeps_modify, side_registry. intros r Hr m km. simpl.
      rewrite lookup_insert_Some. intros [[<- <-]|[_ ?]]; [by repeat constructor|eauto]. }
    intros []. apply sm_keeps_bind; [apply keeps_track_with_permit|]. intros. apply sm_keeps_ret.
Qed.

Lemma keeps_remember identity path :
  path_ok path → sm_keeps side (remember hash_order stable_node_id identity path).
Proof.
  intros Hpath. apply sm_keeps_bind; [apply sm_keeps_get|]. intros st0. cbv zeta. case_match.
  - apply sm_keeps_bind; [apply sm_keeps_modify; intros; by apply side_add_path|]. intros [].
    apply sm_keeps_bind; [apply keeps_track|]. intros. apply sm_keeps_ret.
  - apply sm_keeps_bind; [apply keeps_reserve|]. intros. by apply keeps_remember_reserved.
Qed.

Lemma keeps_release node : sm_keeps side (release_node_reference node).
Proof.
  intros st Hst. unfold release_node_reference. case_match; [done|]. sm_unfold. simpl.
  destruct (by_node (registry st) !! node) as [k|] eqn:Hk; [|done]. case_match; [|done].
  destruct Hst as [Hp Ht]. split; [|done]. apply paths_ok_insert; [|done]. simpl. eauto.
Qed.

Lemma keeps_forget_known l : sm_keeps side (forget_known l).
Proof.
  induction l as [|n l IH]; simpl; [apply sm_keeps_ret|]. case_match; [done|].
  apply sm_keeps_bind; [apply sm_keeps_gets|]. intros s. case_match; [|done].
  apply sm_keeps_bind; [apply sm_keeps_modify, side_session; intros; apply handles_session_remove|].
  intros []. apply sm_keeps_bind; [done|]. intros. apply sm_keeps_ret.
Qed.

Lemma keeps_forget l : sm_keeps side (forget_nodes hash_order l).
Proof.
  unfold forget_nodes. case_match; [apply sm_keeps_err|].
  apply sm_keeps_bind; [apply keeps_forget_known|]. intros released.
  induction released as [|n ns IH]; simpl; [apply sm_keeps_ret|].
  apply sm_keeps_bind; [apply keeps_release|]. done.
Qed.

Lemma Forall_filter_list {A} (P : A → Prop) (f : A → bool) l :
  Forall P l → Forall P (List.filter f l).
Proof. induction 1; simpl; [done|]. case_match; [by constructor|done]. Qed.

Lemma keeps_remove_path path descendants :
  sm_keeps side (remove_registry_path hash_order path descendants).
Proof.
  apply sm_keeps_modify, side_registry. intros r Hr. apply paths_ok_remove_all.
  intros n k. simpl. rewrite map_lookup_imap. destruct (by_node r !! n) as [k'|] eqn:Hk'; [|done].
  simpl. intros [= <-]. case_match; [eauto|]. simpl. apply Forall_filter_list. eauto.
Qed.

Lemma replace_prefix_ok p old new :
  path_ok p → path_ok new → path_ok (replace_prefix p old new).
Proof.
  intros Hp Hnew. unfold replace_prefix. destruct (path_strip_prefix old p) as [s|] eqn:E; [|done].
  apply path_strip_prefix_Some in E as ->. apply Forall_app in Hp as [_ Hs].
  by apply Forall_app.
Qed.

Lemma rename_path_ok old new mode p :
  path_ok old → path_ok new → path_ok p → path_ok (rename_path old new mode p).
Proof.
  intros. unfold rename_path. repeat case_match; auto using replace_prefix_ok.
Qed.

Lemma keeps_rename old new mode source destination :
  path_ok old → path_ok new →
  sm_keeps side (update_registry_after_rename hash_order old new mode source destination).
Proof.
  intros Ho Hn. unfold update_registry_after_rename. case_match; [apply sm_keeps_ret|].
  apply sm_keeps_modify, side_registry. intros r Hr. apply paths_ok_remove_all.
  assert (∀ k, Forall path_ok (KnownNode.paths k) →
    Forall path_ok (KnownNode.paths (rename_known old new mode k))) as Hren.
  { intros k Hk. simpl. apply Forall_forall. intros p Hp.
    apply elem_of_pathset_collect_iff, list_elem_of_fmap in Hp as (q & -> & Hq).
    apply rename_path_ok; try done. rewrite Forall_forall in Hk. by apply Hk. }
  intros n k. simpl. rewrite lookup_fmap_Some. intros (k' & <- & Hk').
  apply Hren. case_match; [|eauto].
  apply lookup_fmap_Some in Hk' as (k'' & <- & Hk''). unfold drop_replaced.
  case_match; [eauto|]. simpl. apply Forall_filter_list. eauto.
Qed.
End paths.
