(* ===== verification/HostFacts.v ===== *)
(** What the server asks of the operating system: the host calls of the
    descriptor-relative operations and of the resource-fork store keep every
    host property that the single calls keep, when the calls get single-component
    names and, for mutating calls, when writing is permitted. *)

From S2P Require Import Prelude Protocol Common Locks Registry XattrNames FileIO Attributes HostDirs Forks Session RegistryPaths.

(** A name that denotes an entry of a directory. *)
Definition valid_name (name : Name) : Prop := validate_filename name = Ok tt.

(** [I] is kept by the host calls: by the reading ones always, by the mutating
    ones when [rw] holds.  Names are single components, but that a [statat] may
    also get the entries of a directory for itself and its parent; an [openat]
    follows no symbolic link, and a symbolic link gets a target inside the export.
    [hk_read_dir] is the one fact about results: a directory stream yields the
    dot entries and single components. *)
Record host_keeps (H : Type) `{HostFiles H} `{HostDirs H} (I : H → Prop) (rw : bool) : Prop := {
  hk_dup : ∀ h f, I h → I (dup_fd h f).2;
  hk_openat : ∀ h d name flags mode, I h → valid_name name →
    of_nofollow flags || of_excl flags = true →
    (of_create flags = true → rw = true) →
    (can_write_access (of_access flags) = true → rw = true) →
    I (openat h d name flags mode).2;
  hk_read_dir : ∀ h d l name, I h → read_dir h d = Ok l → Ok name ∈ l →
    name = DOT ∨ name = DOTDOT ∨ valid_name name;
  hk_statat : ∀ h d name, I h → name = DOT ∨ name = DOTDOT ∨ valid_name name → I (statat h d name).2;
  hk_readlinkat : ∀ h d name, I h → valid_name name → I (readlinkat h d name).2;
  hk_fsync : ∀ h f, I h → I (fsync h f).2;
  hk_fdatasync : ∀ h f, I h → I (fdatasync h f).2;
  hk_fork_read : ∀ h n, I h → I (fork_open h n false false).2;
  hk_fork_open : ∀ h n w c, rw = true → I h → I (fork_open h n w c).2;
  hk_fork_unlink : ∀ h n, rw = true → I h → I (fork_unlink h n).2;
  hk_mkdirat : ∀ h d name m, rw = true → I h → valid_name name → I (mkdirat h d name m).2;
  hk_symlinkat : ∀ h t d name, rw = true → I h → valid_name name →
    validate_symlink_target t = Ok tt → I (symlinkat h t d name).2;
  hk_linkat : ∀ h d name d' name', rw = true → I h → valid_name name → valid_name name' →
    I (linkat h d name d' name').2;
  hk_mknodat : ∀ h d name k m a b, rw = true → I h → valid_name name →
    I (mknodat h d name k m a b).2;
  hk_unlinkat : ∀ h d name r, rw = true → I h → valid_name name → I (unlinkat h d name r).2;
  hk_renameat : ∀ h d name d' name' m, rw = true → I h → valid_name name → valid_name name' →
    I (renameat h d name d' name' m).2;
  hk_chmodat : ∀ h d name m, rw = true → I h → valid_name name → I (chmodat h d name m).2;
  hk_utimensat : ∀ h d name a m, rw = true → I h → valid_name name → I (utimensat h d name a m).2;
  hk_fchmod : ∀ h f m, rw = true → I h → I (fchmod h f m).2;
  hk_futimens : ∀ h f a m, rw = true → I h → I (futimens h f a m).2;
  hk_fallocate : ∀ h f o n, rw = true → I h → I (fallocate h f o n).2;
  hk_ftruncate : ∀ h f n, rw = true → I h → I (ftruncate h f n).2;
  hk_pwrite : ∀ h f o d, rw = true → I h → I (pwrite h f o d).2;
  hk_append : ∀ h f d, rw = true → I h → I (append_write h f d).2;
  hk_ficlone : ∀ h d s, rw = true → I h → I (ficlone h d s).2;
  hk_copy_range : ∀ h s so d o n, rw = true → I h → I (copy_file_range_sys h s so d o n).2;
  hk_fsetxattr : ∀ h f n v, rw = true → I h → I (fsetxattr h f n v).2;
  hk_fremovexattr : ∀ h f n, rw = true → I h → I (fremovexattr h f n).2
}.

(** Split a bind of the goal. *)
Ltac ybind := eapply yields_bind.

#[local] Arguments write_all_at : simpl never.
#[local] Arguments read_all_at : simpl never.
#[local] Arguments copy_range_server : simpl never.

Section host_facts.
Context {H : Type} `{HF : HostFiles H} `{HD : HostDirs H}.
Context (sha256 : list Z → list Z) (b64_encode : list Z → list Z)
  (b64_decode : list Z → option (list Z)) (major minor : Z → Z)
  (stable_node_id : FileIdentity → NodeId).
Context (I : H → Prop) (rw : bool) (HK : host_keeps H I rw).

Abbreviation keeps m := (yields I m (λ _, True)).

(** ** Single calls *)

Lemma y_run_io {A} (call : H → result IoError A * H) :
  (∀ h, I h → I (call h).2) → keeps (run_io call).
Proof.
  intros Hc h Hh. unfold run_io. specialize (Hc h Hh).
  destruct (call h) as [[]]; by split.
Qed.

Lemma y_run_sys {A} (call : H → result Errno A * H) :
  (∀ h, I h → I (call h).2) → keeps (run_sys call).
Proof.
  intros Hc h Hh. unfold run_sys. specialize (Hc h Hh).
  destruct (call h) as [[]]; by split.
Qed.

Lemma y_try_sys {A} (call : H → result Errno A * H) :
  (∀ h, I h → I (call h).2) → keeps (try_sys call).
Proof. intros Hc h Hh. unfold try_sys. specialize (Hc h Hh). by destruct (call h). Qed.

Lemma y_statat d name :
  name = DOT ∨ name = DOTDOT ∨ valid_name name → keeps (run_sys (λ h, statat h d name)).
Proof. intros. apply y_run_sys. intros. by apply (hk_statat _ _ _ HK). Qed.
Lemma y_statat_name d name : valid_name name → keeps (run_sys (λ h, statat h d name)).
Proof. intros. apply y_statat. auto. Qed.

Lemma y_ask {A} (call : H → result Errno A) (R : A → Prop) :
  (∀ h a, I h → call h = Ok a → R a) → yields I (ask call) R.
Proof.
  intros Hc h Hh. split; [done|]. simpl. destruct (call h) eqn:E; simpl; [by eapply Hc|done].
Qed.

Lemma y_ask_sys {A} (call : H → result Errno A) : keeps (ask_sys call).
Proof. by intros h Hh. Qed.

Lemma y_metadata_of f : keeps (metadata_of f).
Proof. intros h Hh. split; [done|]. unfold metadata_of, lift_io. sm_unfold. simpl. by destruct (fstat h f). Qed.

Lemma y_file_len f : keeps (file_len f).
Proof. ybind; [apply y_metadata_of|]. intros. by apply yields_ret. Qed.

(** ** The walk *)

Lemma y_walk current path : path_ok valid_name path → keeps (walk_directory current path).
Proof.
  intros Hp. revert current. induction Hp as [|name path Hn Hp IH]; intros current; simpl.
  { by apply yields_ret. }
  ybind; [apply y_run_sys; intros h Hh; by apply (hk_openat _ _ _ HK)|]. intros. apply IH.
Qed.

Lemma y_dup f : keeps (run_sys (λ h, dup_fd h f)).
Proof. apply y_run_sys. intros. by apply (hk_dup _ _ _ HK). Qed.

Lemma y_open_directory root path : path_ok valid_name path → keeps (open_directory root path).
Proof. intros. ybind; [apply y_dup|]. intros. by apply y_walk. Qed.

Lemma removelast_ok path : path_ok valid_name path → path_ok valid_name (removelast path).
Proof.
  intros Hp. destruct (decide (path = [])) as [->|Hne]; [done|].
  rewrite (app_removelast_last [] Hne) in Hp. by apply Forall_app in Hp as [? _].
Qed.

Lemma y_open_parent root path :
  path_ok valid_name path →
  yields I (open_parent root path) (λ pn, valid_name pn.2).
Proof.
  intros Hp. eapply (yields_bind _ _ _ valid_name).
  { apply yields_lift. intros name Hn. unfold file_name, ok_or in Hn.
    destruct (last path) as [l|] eqn:Hl; [|done]. simplify_eq.
    apply last_Some in Hl as [q ->]. apply Forall_app in Hp as [_ Hp]. by inversion Hp. }
  intros name Hn. ybind; [by apply y_open_directory, removelast_ok|].
  intros. by apply yields_ret.
Qed.

(** Flags of a descriptor opened for a known node. *)
Definition flags_ok (flags : OFlags) : Prop :=
  (of_create flags = true → rw = true) ∧ (can_write_access (of_access flags) = true → rw = true).

Lemma y_open_relative root path flags :
  path_ok valid_name path → flags_ok flags →
  yields I (open_relative root path flags) (λ o, o.1.2 = path).
Proof.
  intros Hp [Hc Hw]. apply yields_if; intros E; bool_simpl.
  - subst. ybind; [apply y_dup|]. intros. ybind; [apply y_metadata_of|]. intros. by apply yields_ret.
  - ybind; [by apply y_open_parent|]. intros [d name] Hn. simpl.
    ybind; [apply y_run_sys; intros h Hh; by apply (hk_openat _ _ _ HK)|]. intros.
    ybind; [apply y_metadata_of|]. intros. by apply yields_ret.
Qed.

Lemma y_secure_lstat root path : path_ok valid_name path → keeps (secure_lstat root path).
Proof.
  intros Hp. apply yields_if; intros E; [apply y_metadata_of|].
  ybind; [by apply y_open_parent|]. intros [d name] Hn.
  by apply y_statat_name.
Qed.

Lemma y_open_paths root identity flags expected paths first_error :
  Forall (path_ok valid_name) paths → flags_ok flags →
  yields I (open_paths root identity flags expected paths first_error)
    (λ o, path_ok valid_name o.1.2).
Proof.
  intros Hps Hf. revert first_error. induction Hps as [|p ps Hp Hps IH]; intros fe; simpl.
  { apply yields_err. }
  ybind; [apply yields_try; by apply y_open_relative|].
  intros [[[file q] st]|e] Hr; simpl in Hr; [|destruct e; apply IH].
  subst. apply yields_if; intros E; [apply IH|].
  destruct expected as [kind|]; [|by apply yields_ret].
  apply yields_if; intros; [apply yields_err|by apply yields_ret].
Qed.

(** The snapshots an operation works with. *)
Definition snapshot_ok (s : NodeSnapshot) : Prop :=
  Forall (path_ok valid_name) (NodeSnapshot.paths s).

Lemma y_open_node_snapshot root snapshot flags expected :
  snapshot_ok snapshot → flags_ok flags →
  yields I (open_node_snapshot root snapshot flags expected) (λ o, path_ok valid_name o.1.2).
Proof. intros. by apply y_open_paths. Qed.

Lemma y_stat_paths root identity paths first_error :
  Forall (path_ok valid_name) paths → keeps (stat_paths root identity paths first_error).
Proof.
  intros Hps. revert first_error. induction Hps as [|p ps Hp Hps IH]; intros fe; simpl.
  { case_match; [apply yields_err|by apply yields_ret]. }
  ybind; [apply yields_try; by apply y_secure_lstat|].
  intros [st|e] _; [|destruct e; apply IH].
  apply yields_if; intros; [apply IH|by apply yields_ret].
Qed.

Lemma y_path_stat root snapshot : snapshot_ok snapshot → keeps (path_stat root snapshot).
Proof.
  intros Hs. apply yields_if; intros; [|by apply y_stat_paths].
  ybind; [apply y_metadata_of|]. intros. by apply yields_ret.
Qed.

Lemma flags_ok_rdonly : flags_ok RDONLY ∧ flags_ok RDONLY_DIRECTORY ∧ flags_ok RDONLY_NONBLOCK.
Proof. by split_and!; split. Qed.

Lemma y_open_xattr_file root snapshot : snapshot_ok snapshot → keeps (open_xattr_file root snapshot).
Proof.
  intros Hs. ybind; [by apply y_path_stat|]. intros stat _.
  ybind; [by apply (yields_lift _ _ (λ _, True))|]. intros kind _.
  apply yields_if; intros; [apply yields_err|].
  ybind; [apply y_open_node_snapshot; [done|case_match; apply flags_ok_rdonly]|].
  intros. by apply yields_ret.
Qed.

Lemma y_set_paths_attributes root identity mode times la lm paths :
  rw = true → Forall (path_ok valid_name) paths →
  keeps (set_paths_attributes root identity mode times la lm paths).
Proof.
  intros Hrw Hps. induction Hps as [|p ps Hp Hps IH]; simpl; [apply yields_err|].
  ybind; [apply yields_try; by apply y_secure_lstat|].
  intros [st|e] _; [|apply IH]. apply yields_if; intros; [apply IH|].
  eapply (yields_bind _ _ _ (λ _, True)).
  { destruct mode; [by apply yields_lift|by apply yields_ret]. }
  intros kind _. apply yields_if; intros; [apply yields_err|].
  ybind; [by apply y_open_parent|]. intros [d name] Hn. simpl.
  eapply (yields_bind _ _ _ (λ _, True)).
  { destruct mode; [|by apply yields_ret]. apply y_run_sys. intros h Hh. by apply (hk_chmodat _ _ _ HK). }
  intros _ _. apply yields_if; intros; [|by apply yields_ret].
  apply y_run_sys. intros h Hh. by apply (hk_utimensat _ _ _ HK).
Qed.

Lemma y_set_path_attributes root snapshot mode accessed modified :
  rw = true → snapshot_ok snapshot →
  keeps (set_path_attributes root snapshot mode accessed modified).
Proof.
  intros. ybind; [by apply (yields_lift _ _ (λ _, True))|]. intros la _.
  ybind; [by apply (yields_lift _ _ (λ _, True))|]. intros lm _. by apply y_set_paths_attributes.
Qed.

Lemma y_apply_file_changes file changes accessed modified :
  rw = true → keeps (apply_file_changes file changes accessed modified).
Proof.
  intros Hrw. unfold apply_file_changes.
  eapply (yields_bind _ _ _ (λ _, True)).
  { case_match; [|by apply yields_ret]. apply y_run_io. intros. by apply (hk_ftruncate _ _ _ HK). }
  intros _ _. eapply (yields_bind _ _ _ (λ _, True)).
  { case_match; [|by apply yields_ret]. apply y_run_io. intros. by apply (hk_fchmod _ _ _ HK). }
  intros _ _. eapply (yields_bind _ _ _ (λ _, True)).
  { apply yields_if; intros; [|by apply yields_ret]. apply y_run_io. intros. by apply (hk_futimens _ _ _ HK). }
  intros _ _. apply y_metadata_of.
Qed.

(** ** Contents *)

Lemma y_pread f o n : keeps (h ← sm_get; lift_io (pread h f o n)).
Proof. intros h Hh. unfold lift_io. sm_unfold. simpl. by destruct (pread h f o n). Qed.

Lemma y_read_all_loop fuel f offset n acc : keeps (read_all_loop fuel f offset n acc).
Proof.
  revert acc. induction fuel as [|fuel IH]; intros acc; simpl;
    (apply yields_if; intros; [|by apply yields_ret]); [apply yields_err|].
  ybind; [apply yields_get|]. intros h _.
  ybind; [by apply (yields_lift _ _ (λ _, True))|]. intros b _.
  apply yields_if; intros; [apply yields_err|apply IH].
Qed.

Lemma y_read_all_at f offset n : keeps (read_all_at f offset n).
Proof. apply y_read_all_loop. Qed.

Lemma y_write_all_loop fuel f offset data consumed :
  rw = true → keeps (write_all_loop fuel f offset data consumed).
Proof.
  intros Hrw. revert consumed. induction fuel as [|fuel IH]; intros consumed; simpl;
    (apply yields_if; intros; [|by apply yields_ret]); [apply yields_err|].
  ybind; [apply y_run_io; intros; by apply (hk_pwrite _ _ _ HK)|]. intros w _.
  apply yields_if; intros; [apply yields_err|apply IH].
Qed.

Lemma y_append_all_loop fuel f data : rw = true → keeps (append_all_loop fuel f data).
Proof.
  intros Hrw. revert data. induction fuel as [|fuel IH]; intros data; simpl;
    (destruct data; [by apply yields_ret|]); [apply yields_err|].
  ybind; [apply y_run_io; intros; by apply (hk_append _ _ _ HK)|]. intros w _.
  apply yields_if; intros; [apply yields_err|apply IH].
Qed.

Lemma y_write_all_at f offset data append : rw = true → keeps (write_all_at f offset data append).
Proof. intros. apply yields_if; intros; [by apply y_append_all_loop|by apply y_write_all_loop]. Qed.

Lemma y_copy_buffered_loop fuel i io o oo n :
  rw = true → keeps (copy_range_buffered_loop fuel i io o oo n).
Proof.
  intros Hrw. revert io oo n. induction fuel as [|fuel IH]; intros io oo n; simpl;
    (apply yields_if; intros; [|by apply yields_ret]); [apply yields_err|].
  ybind; [apply y_read_all_at|]. intros b _.
  ybind; [by apply y_write_all_at|]. intros. apply IH.
Qed.

Lemma y_copy_backward_loop fuel i io o oo n :
  rw = true → keeps (copy_backward_loop fuel i io o oo n).
Proof.
  intros Hrw. revert n. induction fuel as [|fuel IH]; intros n; simpl;
    (apply yields_if; intros; [|by apply yields_ret]); [apply yields_err|].
  ybind; [apply y_read_all_at|]. intros b _.
  ybind; [by apply y_write_all_at|]. intros. apply IH.
Qed.

Lemma y_copy_kernel_loop fuel i io o oo amount copied :
  rw = true → keeps (copy_kernel_loop fuel i io o oo amount copied).
Proof.
  intros Hrw. revert copied. induction fuel as [|fuel IH]; intros copied; simpl;
    (apply yields_if; intros; [|by apply yields_ret]); [apply yields_err|].
  ybind; [apply y_try_sys; intros; by apply (hk_copy_range _ _ _ HK)|]. intros [w|e] _.
  - apply yields_if; intros; [by apply yields_ret|apply IH].
  - destruct e; (by apply yields_ret) || apply yields_err.
Qed.

Lemma y_try_reflink i io o oo amount : rw = true → keeps (try_reflink i io o oo amount).
Proof.
  intros Hrw. apply yields_if; intros; [|by apply yields_ret].
  ybind; [apply y_file_len|]. intros. apply yields_if; intros; [|by apply yields_ret].
  ybind; [apply y_file_len|]. intros. apply yields_if; intros; [|by apply yields_ret].
  ybind; [apply y_try_sys; intros; by apply (hk_ficlone _ _ _ HK)|]. intros. by apply yields_ret.
Qed.

Lemma y_copy_range_server i io o oo n : rw = true → keeps (copy_range_server i io o oo n).
Proof.
  intros Hrw. ybind; [apply y_file_len|]. intros len _. cbv zeta.
  apply yields_if; intros; [by apply yields_ret|].
  ybind; [by apply y_try_reflink|]. intros [] _; [by apply yields_ret|].
  ybind; [apply y_metadata_of|]. intros im _. ybind; [apply y_metadata_of|]. intros om _.
  apply yields_if; intros.
  - ybind; [|intros; by apply yields_ret].
    apply yields_if; intros; [by apply y_copy_buffered_loop|by apply y_copy_backward_loop].
  - ybind; [by apply y_copy_kernel_loop|]. intros copied _.
    apply yields_if; intros; [by apply yields_ret|].
    ybind; [by apply y_copy_buffered_loop|]. intros. by apply yields_ret.
Qed.

Lemma y_copy_in_chunks_loop fuel i o off len :
  rw = true → keeps (copy_in_chunks_loop fuel i o off len).
Proof.
  intros Hrw. revert off len. induction fuel as [|fuel IH]; intros off len; simpl;
    (apply yields_if; intros; [|by apply yields_ret]); [apply yields_err|].
  ybind; [by apply y_copy_range_server|]. intros copied _.
  apply yields_if; intros; [apply yields_err|apply IH].
Qed.

Lemma y_copy_in_chunks i o n : rw = true → keeps (copy_range_in_chunks i o n).
Proof. intros. by apply y_copy_in_chunks_loop. Qed.

(** ** Extended attributes *)

Lemma y_read_xattr_loop fuel f name maximum capacity :
  keeps (read_xattr_loop fuel f name maximum capacity).
Proof.
  revert capacity. induction fuel as [|fuel IH]; intros capacity; simpl.
  all: ybind; [apply y_ask_sys|]; intros [v|e] _; [by apply yields_ret|].
  all: destruct e; try apply yields_err.
  all: apply yields_if; intros; try apply yields_err. apply IH.
Qed.

Lemma y_read_fd_xattr f name maximum : keeps (read_fd_xattr f name maximum).
Proof. apply y_read_xattr_loop. Qed.

Lemma y_read_optional_xattr f name : keeps (read_optional_xattr f name).
Proof.
  ybind; [apply yields_try, y_read_fd_xattr|]. intros [v|e] _; [by apply yields_ret|].
  destruct e; (by apply yields_ret) || apply yields_err.
Qed.

Lemma y_read_fd_backup_time f : keeps (read_fd_backup_time f).
Proof.
  ybind; [apply yields_try, y_read_fd_xattr|]. intros [v|e] _.
  - apply yields_if; intros; [by apply yields_ret|apply yields_err].
  - destruct e; (by apply yields_ret) || apply yields_err.
Qed.

Lemma y_write_backup_time f value : rw = true → keeps (write_backup_time f value).
Proof.
  intros. unfold write_backup_time. case_match; [|by apply yields_ret].
  apply y_run_sys. intros. by apply (hk_fsetxattr _ _ _ HK).
Qed.

Lemma y_replace_optional_xattr f name value :
  rw = true → keeps (replace_optional_xattr f name value).
Proof.
  intros Hrw. unfold replace_optional_xattr. case_match.
  { apply y_run_sys. intros. by apply (hk_fsetxattr _ _ _ HK). }
  ybind; [apply y_try_sys; intros; by apply (hk_fremovexattr _ _ _ HK)|].
  intros [v|e] _; [by apply yields_ret|].
  apply yields_if; intros; [by apply yields_ret|apply yields_err].
Qed.

Lemma y_truncate f n : rw = true → keeps (run_io (λ h, ftruncate h f n)).
Proof. intros. apply y_run_io. intros. by apply (hk_ftruncate _ _ _ HK). Qed.

Lemma y_exchange_file_contents l r t : rw = true → keeps (exchange_file_contents b64_encode l r t).
Proof.
  intros Hrw. unfold exchange_file_contents.
  ybind; [apply y_file_len|]. intros ls _. ybind; [apply y_file_len|]. intros rs _.
  ybind; [by apply y_truncate|]. intros _ _. ybind; [by apply y_copy_in_chunks|]. intros _ _.
  ybind; [by apply y_truncate|]. intros _ _. ybind; [by apply y_copy_in_chunks|]. intros _ _.
  ybind; [by apply y_truncate|]. intros _ _. ybind; [by apply y_copy_in_chunks|]. intros _ _.
  ybind; [by apply (yields_lift _ _ (λ _, True))|]. intros name _.
  ybind; [apply y_read_optional_xattr|]. intros lv _.
  ybind; [apply y_read_optional_xattr|]. intros rv _.
  ybind; [by apply y_replace_optional_xattr|]. intros _ _.
  ybind; [by apply y_replace_optional_xattr|]. intros _ _.
  ybind; [apply y_run_io; intros; by apply (hk_fsync _ _ _ HK)|]. intros _ _.
  apply y_run_io. intros. by apply (hk_fsync _ _ _ HK).
Qed.

(** ** Resource forks *)

Lemma y_open_fork path w c :
  (w || c = true → rw = true) → keeps (open_resource_fork path w c).
Proof.
  intros Hrw. ybind.
  { apply y_run_sys. intros h Hh. destruct (w || c) eqn:E.
    - apply (hk_fork_open _ _ _ HK); auto.
    - apply orb_false_iff in E as [-> ->]. by apply (hk_fork_read _ _ _ HK). }
  intros file _. ybind; [apply y_metadata_of|]. intros.
  apply yields_if; intros; [apply yields_err|by apply yields_ret].
Qed.

Lemma y_read_fork path offset length : keeps (read_resource_fork_range path offset length).
Proof.
  ybind; [by apply yields_try, y_open_fork|]. intros [file|e] _.
  - ybind; [apply y_file_len|]. intros. ybind; [apply y_read_all_at|]. intros. by apply yields_ret.
  - destruct e; apply yields_err.
Qed.

Lemma y_write_fork path value mode position :
  rw = true → keeps (write_resource_fork path value mode position).
Proof.
  intros Hrw. eapply (yields_bind _ _ _ (λ _, True)).
  { intros h Hh. split; [done|]. by destruct (fork_exists path h).1. }
  intros ex _. ybind; [by apply (yields_lift _ _ (λ _, True))|]. intros _ _.
  ybind; [by apply (yields_lift _ _ (λ _, True))|]. intros end_ _.
  apply yields_if; intros; [apply yields_err|].
  ybind; [by apply y_open_fork|]. intros file _.
  eapply (yields_bind _ _ _ (λ _, True)).
  { apply yields_if; intros; [by apply y_truncate|by apply yields_ret]. }
  intros _ _. by apply y_write_all_at.
Qed.

Lemma y_remove_fork path : rw = true → keeps (remove_resource_fork path).
Proof.
  intros Hrw. ybind; [apply yields_get|]. intros h _. case_match.
  - apply yields_if; intros; [|apply yields_err].
    apply y_run_io. intros. by apply (hk_fork_unlink _ _ _ HK).
  - apply yields_if; intros; apply yields_err.
Qed.

Lemma y_replace_fork path value : rw = true → keeps (replace_resource_fork path value).
Proof.
  intros Hrw. unfold replace_resource_fork. case_match; [by apply y_write_fork|].
  ybind; [by apply yields_try, y_remove_fork|]. intros [v|e] _; [by apply yields_ret|].
  destruct e; (by apply yields_ret) || apply yields_err.
Qed.

Lemma y_optional_fork path : keeps (optional_resource_fork path).
Proof.
  ybind; [apply yields_try, y_read_fork|]. intros [[t v]|e] _; [by apply yields_ret|].
  destruct e; (by apply yields_ret) || apply yields_err.
Qed.

Lemma y_exchange_forks l r : rw = true → keeps (exchange_resource_forks l r).
Proof.
  intros Hrw. ybind; [apply y_optional_fork|]. intros lv _.
  ybind; [apply y_optional_fork|]. intros rv _.
  ybind; [by apply y_replace_fork|]. intros _ _.
  ybind; [by apply yields_try, y_replace_fork|]. intros [v|e] _; [by apply yields_ret|].
  ybind; [by apply yields_try, y_replace_fork|]. intros. apply yields_err.
Qed.

Lemma y_enrich forks node m : keeps (enrich_resource_fork_revision_at sha256 forks node m).
Proof.
  intros h Hh. unfold enrich_resource_fork_revision_at.
  destruct forks; [|done]. by destruct (fork_stat h node).
Qed.

Lemma y_fm_ok {A} (m : FM (H:=H) A) : keeps m → keeps (fm_ok m).
Proof. intros. ybind; [by apply yields_try|]. intros. by apply yields_ret. Qed.

(** ** Snapshots and scans *)

Lemma y_list_fd_xattrs f : keeps (list_fd_xattrs b64_decode f).
Proof.
  apply (yields_bind _ _ _ (λ _, True)); [|intros; by apply yields_ret].
  generalize 64%nat as fuel, 1024 as capacity.
  induction fuel as [|fuel IH]; intros capacity; simpl.
  all: ybind; [apply y_ask_sys|]; intros [v|e] _; [by apply yields_ret|].
  all: destruct e; try apply yields_err.
  all: apply yields_if; intros; try apply yields_err. apply IH.
Qed.

Lemma y_read_bounded f name maximum : keeps (read_fd_xattr_bounded f name maximum).
Proof.
  apply yields_if; intros; [by apply yields_ret|].
  generalize 64%nat as fuel, (Z.max (Z.min 256 maximum) 1) as capacity.
  induction fuel as [|fuel IH]; intros capacity; simpl.
  all: ybind; [apply y_ask_sys|]; intros [v|e] _; [by apply yields_ret|].
  all: destruct e; try apply yields_err.
  all: apply yields_if; intros; try apply yields_err; try by apply yields_ret. apply IH.
Qed.

Lemma y_inline_candidate f fork maximum name :
  keeps (inline_candidate b64_encode f fork maximum name).
Proof.
  unfold inline_candidate. apply yields_if; intros; (case_match; [|by apply yields_ret]).
  - ybind; [apply y_fm_ok, y_read_fork|]. intros. by apply yields_ret.
  - ybind; [apply y_fm_ok, y_read_bounded|]. intros. by apply yields_ret.
Qed.

Lemma y_inline_loop f fork maximum names remaining values :
  keeps (inline_values_loop b64_encode f fork maximum names remaining values).
Proof.
  revert remaining values. induction names as [|name names IH]; intros remaining values; simpl.
  { by apply yields_ret. }
  ybind; [apply y_inline_candidate|]. intros [v|] _; [|apply IH].
  destruct (claim_inline_budget _ _). apply IH.
Qed.

Lemma y_xattr_snapshot f node forks maximum remaining :
  keeps (xattr_snapshot_for_open_file b64_encode b64_decode f node forks maximum remaining).
Proof.
  ybind; [apply y_list_fd_xattrs|]. intros names _. ybind; [apply yields_get|]. intros h _.
  cbv zeta. apply yields_if; intros; [|by apply yields_ret].
  ybind; [apply y_inline_loop|]. intros. by apply yields_ret.
Qed.

Lemma collect_names_ok stream names names' :
  (∀ name, Ok name ∈ stream → name = DOT ∨ name = DOTDOT ∨ valid_name name) →
  Forall valid_name names → collect_names stream names = Ok names' → Forall valid_name names'.
Proof.
  revert names. induction stream as [|[name|e] stream IH]; intros names Hs Hn; simpl.
  - by intros [= <-].
  - case_match; bool_simpl; [apply IH; [set_solver|done]|]. case_match; [done|].
    apply IH; [set_solver|]. apply Forall_app. split; [done|]. constructor; [|done].
    destruct (Hs name) as [?|[?|?]]; [left|..]; naive_solver.
  - done.
Qed.

Lemma y_prepare root snapshot :
  snapshot_ok snapshot →
  yields I (prepare_directory_scan root snapshot)
    (λ p, path_ok valid_name (relative p) ∧ Forall valid_name (scan_names p)).
Proof.
  intros Hs. ybind; [apply y_open_node_snapshot; [done|apply flags_ok_rdonly]|].
  intros [[dir rel] st] Hrel. simpl in Hrel.
  eapply (yields_bind _ _ _ (λ l, ∀ name, Ok name ∈ l → name = DOT ∨ name = DOTDOT ∨ valid_name name)).
  { apply y_ask. intros h l Hh Hl name. by eapply (hk_read_dir _ _ _ HK). }
  intros stream Hst. eapply (yields_bind _ _ _ (Forall valid_name)).
  { apply yields_lift. intros names. by apply collect_names_ok. }
  intros. by apply yields_ret.
Qed.

Lemma y_scan_entry dir parent name forks options remaining :
  valid_name name → path_ok valid_name parent →
  yields I (scan_directory_entry sha256 b64_encode b64_decode major minor stable_node_id
              dir parent name forks options remaining)
    (λ er, path_ok valid_name (scanned_relative er.1)).
Proof.
  intros Hn Hp. eapply (yields_bind _ _ _ (λ _, True)); [by apply y_statat_name|]. intros stat _. cbv zeta.
  ybind; [by apply (yields_lift _ _ (λ _, True))|]. intros kind _.
  ybind; [by apply (yields_lift _ _ (λ _, True))|]. intros m _.
  eapply (yields_bind _ _ _ (λ _, True)).
  { apply yields_if; intros; [|by apply yields_ret].
    ybind; [apply yields_try, y_run_sys; intros h Hh;
            apply (hk_openat _ _ _ HK); try done; by case_match|].
    intros [file|e] _; [|by apply yields_ret].
    ybind; [apply y_fm_ok, y_read_fd_backup_time|]. intros b _.
    ybind; [apply y_fm_ok, y_xattr_snapshot|]. intros x _.
    ybind; [apply y_metadata_of|]. intros st _.
    apply yields_if; intros; [apply yields_err|by apply yields_ret]. }
  intros [[m' x] rem] _. ybind; [apply y_enrich|]. intros. apply yields_ret. simpl.
  apply Forall_app. split; [done|by constructor].
Qed.
End host_facts.
