(* ===== verification/SessionFacts.v ===== *)
(** Every operation of a session keeps the state invariant: the registry and its
    permits, the accounting of open handles, the lock table, acceptable path
    names, and any property of the host that the host calls keep. *)

From S2P Require Import Prelude Protocol Common Locks Registry XattrNames FileIO Attributes HostDirs Forks Session RegistryPaths HostFacts.

(** [m] ends in [Q] when it succeeds and in [E] when it fails. *)
Definition trip {S Er A} (P : S → Prop) (m : SM S Er A) (Q : A → S → Prop) (E : S → Prop) : Prop :=
  ∀ s, P s → match m s with (Ok a, s') => Q a s' | (Err _, s') => E s' end.

Section trip.
Context {S Er : Type}.

Lemma trip_bind {A B} (P : S → Prop) (m : SM S Er A) (k : A → SM S Er B) Q Q' E :
  trip P m Q E → (∀ a, trip (Q a) (k a) Q' E) → trip P (mbind k m) Q' E.
Proof.
  intros Hm Hk s Hs. specialize (Hm s Hs). unfold mbind, sm_bind.
  destruct (m s) as [[a|e] s']; [by apply Hk|done].
Qed.

Lemma yields_trip {A} (P : S → Prop) (m : SM S Er A) (R : A → Prop) :
  yields P m R ↔ trip P m (λ a s, P s ∧ R a) P.
Proof.
  split; intros Hm s Hs; specialize (Hm s Hs); destruct (m s) as [[a|e] s']; naive_solver.
Qed.

Lemma trip_yields {A B} (P : S → Prop) (m : SM S Er A) (k : A → SM S Er B) R Q E :
  yields P m R → (∀ s, P s → E s) → (∀ a, R a → trip P (k a) Q E) → trip P (mbind k m) Q E.
Proof.
  intros Hm HE Hk s Hs. specialize (Hm s Hs) as [Hp Hr]. unfold mbind, sm_bind.
  destruct (m s) as [[a|e] s']; simpl in *; [by apply Hk|by apply HE].
Qed.

Lemma trip_ret {A} (P : S → Prop) (a : A) (Q : A → S → Prop) E :
  (∀ s, P s → Q a s) → trip (Er:=Er) P (mret a) Q E.
Proof. intros H s Hs. by apply H. Qed.

Lemma trip_weaken {A} (P P' : S → Prop) (m : SM S Er A) (Q Q' : A → S → Prop) (E E' : S → Prop) :
  trip P' m Q' E' → (∀ s, P s → P' s) → (∀ a s, Q' a s → Q a s) → (∀ s, E' s → E s) →
  trip P m Q E.
Proof.
  intros Hm HP HQ HE s Hs. specialize (Hm s (HP s Hs)).
  destruct (m s) as [[a|e] s']; auto.
Qed.
End trip.

Section facts.
Context {H : Type} `{HF : HostFiles H} `{HD : HostDirs H}.
Context (sha256 : list Z → list Z) (b64_encode : list Z → list Z)
  (b64_decode : list Z → option (list Z)) (major minor : Z → Z)
  (stable_node_id : FileIdentity → NodeId).
Context (hash_order : gset NodeId → list NodeId) (fresh_handle : gset FileHandle → FileHandle).
Context (cfg : ExportConfig) (I : H → Prop) (rw : bool) (owner : Z → Prop) (others : Z).
(** A hash map iterates once over each key; a fresh handle is not in use. *)
Context (hash_order_perm : ∀ s, hash_order s ≡ₚ elements s)
  (fresh_handle_new : ∀ s, fresh_handle s ∉ s)
  (HK : host_keeps H I rw).

(** The table of locks keeps its invariant, and every lock in it belongs to a
    session that [owner] accepts. *)
Definition table_ok (t : list LockRecord) : Prop := lock_inv t ∧ owned owner t.

(** The invariant with [hs], [hg] and [hp] permits of the session, of the export
    and of the handle pool held by the running operation; [others] counts the
    handles of other sessions. *)
Record sess_inv (hs hg hp : Z) (s : Session H) : Prop := {
  si_registry : reg_inv stable_node_id (limits cfg) hs hg (nodes s);
  si_paths : paths_ok valid_name (registry (nodes s));
  si_permits : 0 ≤ handle_permits s;
  si_handles : handle_permits s + Z.of_nat (size (handles (session_nodes (nodes s)))) + hp + others =
    Limits.max_open_handles (limits cfg);
  si_locks : table_ok (locks s);
  si_grant : can_write cfg s = true → rw = true;
  si_host : I (host s)
}.

Abbreviation inv := sess_inv.

(** ** Lifting *)

Lemma ys_sys {A} hs hg hp (m : FM (H:=H) A) (R : A → Prop) :
  yields I m R → yields (inv hs hg hp) (sys m) R.
Proof.
  intros Hm s [? ? ? ? ? ? Hh]. specialize (Hm (host s) Hh) as [HI HR].
  unfold sys. destruct (m (host s)) as [r h']. simpl in *. split; [by split|done].
Qed.

(** A registry operation that moves the held permits from [hs, hg] to
    [hs', hg'] on success and to [hs'', hg''] on failure. *)
Lemma trip_reg {A} hs hg hp hs' hg' hs'' hg'' (m : RM A) :
  (∀ st, reg_inv stable_node_id (limits cfg) hs hg st →
     match m st with
     | (Ok _, st') => reg_inv stable_node_id (limits cfg) hs' hg' st'
     | (Err _, st') => reg_inv stable_node_id (limits cfg) hs'' hg'' st'
     end) →
  (∀ table, sm_keeps (side valid_name table) m) →
  trip (inv hs hg hp) (reg m) (λ _, inv hs' hg' hp) (inv hs'' hg'' hp).
Proof.
  intros Hm Hside s [Hr Hp ? Hh ? ? ?]. specialize (Hm _ Hr).
  destruct (Hside (handles (session_nodes (nodes s))) (nodes s)) as [Hp' Ht]; [done|].
  unfold reg. destruct (m (nodes s)) as [[a|e] st']; simpl in *; split; simpl; try done;
    by rewrite Ht.
Qed.

Lemma ys_reg {A} hs hg hp (m : RM A) :
  hoare (reg_inv stable_node_id (limits cfg) hs hg) m
    (λ _ st, reg_inv stable_node_id (limits cfg) hs hg st) →
  (∀ table, sm_keeps (side valid_name table) m) →
  yields (inv hs hg hp) (reg m) (λ _, True).
Proof.
  intros Hm Hside. apply yields_trip.
  eapply trip_weaken; [apply (trip_reg hs hg hp hs hg hs hg m)|..]; try done.
  intros st Hst. specialize (Hm st Hst). by destruct (m st) as [[]].
Qed.

Lemma ys_require_writable hs hg hp :
  yields (inv hs hg hp) (require_writable cfg) (λ _, rw = true).
Proof.
  intros s Hs. unfold require_writable. sm_unfold. simpl.
  destruct (can_write cfg s) eqn:E; [|done]. split; [done|]. simpl. by apply (si_grant _ _ _ _ Hs).
Qed.

Lemma ys_open_handle hs hg hp handle : yields (inv hs hg hp) (open_handle handle) (λ _, True).
Proof.
  intros s Hs. unfold open_handle. sm_unfold. simpl. split; [done|].
  by destruct (ok_or _ _).
Qed.

Lemma ys_lift {A} hs hg hp (r : result ServerError A) :
  yields (inv hs hg hp) (sm_lift r) (λ _, True).
Proof. by apply yields_lift. Qed.

Lemma ys_get hs hg hp : yields (inv hs hg hp) (sm_get : SS _) (inv hs hg hp).
Proof. apply yields_get. Qed.

Lemma ys_gets {A} hs hg hp (f : Session H → A) :
  yields (inv hs hg hp) (sm_gets f : SS A) (λ _, True).
Proof. by apply yields_gets. Qed.

(** ** Registry operations *)

Lemma ys_remember hs hg hp identity path :
  path_ok valid_name path →
  yields (inv hs hg hp) (reg (remember hash_order stable_node_id identity path)) (λ _, True).
Proof.
  intros Hp. apply ys_reg; [|intros; by apply keeps_remember].
  eapply hoare_conseq; [by apply remember_spec|done|]. by intros r st [? _].
Qed.

Lemma ys_track hs hg hp node :
  yields (inv hs hg hp) (reg (track_node hash_order node)) (λ _, True).
Proof.
  apply ys_reg; [|intros; apply keeps_track].
  eapply hoare_conseq; [by apply track_node_spec|done|]. by intros r st [? _].
Qed.

Lemma trip_reserve hs hg hp :
  trip (inv hs hg hp) (reg (reserve_node hash_order)) (λ _, inv (hs + 1) (hg + 1) hp)
    (inv hs hg hp).
Proof.
  apply trip_reg; [|intros; apply keeps_reserve].
  intros st Hst. pose proof (reserve_node_spec hash_order stable_node_id (limits cfg)
    hash_order_perm hs hg st Hst) as Hr.
  destruct (reserve_node hash_order st) as [[]]; [done|by destruct Hr].
Qed.

Lemma trip_remember_reserved hs hg hp identity path :
  path_ok valid_name path →
  trip (inv (hs + 1) (hg + 1) hp) (reg (remember_reserved stable_node_id identity path))
    (λ _, inv hs hg hp) (inv hs hg hp).
Proof.
  intros Hp. apply trip_reg; [|intros; by apply keeps_remember_reserved].
  intros st Hst. pose proof (remember_reserved_spec stable_node_id (limits cfg) hs hg
    identity path st Hst) as [Hr _].
  by destruct (remember_reserved stable_node_id identity path st) as [[]].
Qed.

(** ** Permit scopes *)

Lemma trip_holding_node {A} hs hg hp (body : SS A) (R : A → Prop) :
  yields (inv (hs + 1) (hg + 1) hp) body R →
  trip (inv (hs + 1) (hg + 1) hp) (holding_node body)
    (λ a s, inv (hs + 1) (hg + 1) hp s ∧ R a) (inv hs hg hp).
Proof.
  intros Hb s Hs. specialize (Hb s Hs) as [Hs' Hr]. unfold holding_node. sm_unfold.
  destruct (body s) as [[a|e] s']; simpl in *; [done|].
  assert (trip (inv (hs + 1) (hg + 1) hp) (reg drop_session_permit)
    (λ _, inv hs (hg + 1) hp) (inv hs (hg + 1) hp)) as Hd1.
  { apply trip_reg; [|intros; apply keeps_drop_session].
    intros st Hst. by destruct (drop_session_spec stable_node_id (limits cfg) hs (hg + 1) st Hst). }
  assert (trip (inv hs (hg + 1) hp) (reg drop_global_permit)
    (λ _, inv hs hg hp) (inv hs hg hp)) as Hd2.
  { apply trip_reg; [|intros; apply keeps_drop_global].
    intros st Hst. by destruct (drop_global_spec stable_node_id (limits cfg) hs hg st Hst). }
  specialize (Hd1 s' Hs'). simpl in Hd1. by specialize (Hd2 _ Hd1).
Qed.

Lemma trip_acquire_handle hs hg hp :
  trip (inv hs hg hp) (acquire_handle_permit : SS unit) (λ _, inv hs hg (hp + 1)) (inv hs hg hp).
Proof.
  intros s Hs. unfold acquire_handle_permit. sm_unfold. simpl.
  destruct (Z.ltb_spec 0 (handle_permits s)); [|done].
  destruct Hs. split; simpl; try done; lia.
Qed.

Lemma trip_holding_handle {A} hs hg hp (body : SS A) :
  trip (inv hs hg (hp + 1)) body (λ _, inv hs hg hp) (inv hs hg (hp + 1)) →
  trip (inv hs hg (hp + 1)) (holding_handle body) (λ _, inv hs hg hp) (inv hs hg hp).
Proof.
  intros Hb s Hs. specialize (Hb s Hs). unfold holding_handle. sm_unfold.
  destruct (body s) as [[a|e] s']; simpl; [done|].
  destruct Hb. split; simpl; try done; lia.
Qed.

Lemma trip_insert_handle hs hg hp opened :
  trip (inv hs hg (hp + 1)) (insert_handle fresh_handle opened) (λ _, inv hs hg hp)
    (inv hs hg (hp + 1)).
Proof.
  intros s [(Hm & Hp & Hb & [? ? ? ?]) ? ? Hh ? ? ?]. unfold insert_handle. sm_unfold. simpl.
  split; simpl; try done.
  rewrite map_size_insert_None; [lia|]. apply not_elem_of_dom, fresh_handle_new.
Qed.

(** ** Nodes *)

Lemma y_stat_entries dir stream :
  (∀ name, Ok name ∈ stream → name = DOT ∨ name = DOTDOT ∨ valid_name name) →
  yields I (stat_entries dir stream) (λ l, ∀ name st, (name, st) ∈ l → Ok name ∈ stream).
Proof.
  induction stream as [|[name|e] stream IH]; intros Hs; simpl.
  - apply yields_ret. set_solver.
  - ybind; [eapply y_statat; [done|apply Hs; by left]|]. intros st _.
    ybind; [apply IH; intros n Hn; apply Hs; by right|].
    intros l Hl. apply yields_ret. intros n' st' [[= -> ->]|Hin]%elem_of_cons; [left|].
    right. by eapply Hl.
  - apply yields_err.
Qed.

Lemma ys_discover_entries hs hg hp requested relative entries visited pending :
  path_ok valid_name relative →
  (∀ name st, (name, st) ∈ entries → name = DOT ∨ name = DOTDOT ∨ valid_name name) →
  Forall (path_ok valid_name) pending →
  yields (inv hs hg hp)
    (discover_entries stable_node_id hash_order cfg requested relative entries visited pending)
    (λ r, match r with inl _ => True | inr (p, _) => Forall (path_ok valid_name) p end).
Proof.
  intros Hrel. revert visited pending.
  induction entries as [|[name st] entries IH]; intros visited pending He Hpend; simpl.
  { by apply yields_ret. }
  assert (∀ v p, Forall (path_ok valid_name) p → yields (inv hs hg hp)
    (discover_entries stable_node_id hash_order cfg requested relative entries v p)
    (λ r, match r with inl _ => True | inr (p, _) => Forall (path_ok valid_name) p end)) as Hnext.
  { intros. apply IH; [|done]. intros n' st' Hin. apply (He n' st'). by right. }
  apply yields_if; intros E; [by apply Hnext|]. bool_simpl.
  assert (path_ok valid_name (relative ++ [name])) as Hchild.
  { apply Forall_app. split; [done|]. constructor; [|done].
    destruct (He name st) as [?|[?|?]]; [left|..]; naive_solver. }
  apply yields_if; intros; [apply yields_err|].
  apply yields_if; intros.
  - ybind; [by apply ys_remember|]. intros.
    apply yields_if; intros; [by apply yields_ret|apply yields_err].
  - ybind; [apply ys_lift|]. intros kind _. apply Hnext. by case_match; [constructor|].
Qed.

Lemma ys_discover_loop hs hg hp fuel requested pending visited :
  Forall (path_ok valid_name) pending →
  yields (inv hs hg hp)
    (discover_loop stable_node_id hash_order cfg fuel requested pending visited) (λ _, True).
Proof.
  revert pending visited. induction fuel as [|fuel IH]; intros pending visited Hp; simpl.
  all: destruct pending as [|rel pending]; [apply yields_err|].
  1: apply yields_err.
  inversion Hp as [|? ? Hrel Hpend]; subst.
  ybind; [apply ys_sys; by eapply y_open_directory|]. intros dir _.
  eapply (yields_bind _ _ _ (λ l, ∀ name, Ok name ∈ l → name = DOT ∨ name = DOTDOT ∨ valid_name name)).
  { apply ys_sys, y_ask. intros h l Hh Hl name. by eapply (hk_read_dir _ _ _ HK). }
  intros stream Hst. ybind; [by apply ys_sys, y_stat_entries|]. intros entries He.
  ybind; [apply ys_discover_entries; [done| |done]|].
  { intros name st Hin. apply Hst. by eapply He. }
  intros [[]|[p v]] Hr; [by apply yields_ret|by apply IH].
Qed.

Lemma ys_node_snapshot hs hg hp node :
  yields (inv hs hg hp) (node_snapshot stable_node_id hash_order cfg node) snapshot_ok.
Proof.
  unfold node_snapshot. ybind; [apply ys_get|]. intros s0 _.
  eapply (yields_bind _ _ _ (λ _, True)).
  { case_match; [by apply yields_ret|]. apply yields_if; intros; [by apply yields_ret|].
    apply ys_discover_loop. by repeat constructor. }
  intros _ _. ybind; [apply ys_get|]. intros s1 Hs1.
  destruct (by_node _ !! node) as [k|] eqn:Hk; [|apply yields_err].
  ybind; [apply ys_track|]. intros. apply yields_ret.
  by apply (si_paths _ _ _ _ Hs1) in Hk.
Qed.

Lemma ys_open_snapshot hs hg hp snapshot flags expected :
  snapshot_ok snapshot → flags_ok rw flags →
  yields (inv hs hg hp) (open_snapshot cfg snapshot flags expected)
    (λ o, path_ok valid_name o.1.2).
Proof. intros. by apply ys_sys, y_open_node_snapshot with (rw := rw). Qed.

Lemma ys_open_parent_node hs hg hp node :
  yields (inv hs hg hp) (open_parent_node stable_node_id hash_order cfg node)
    (λ dp, path_ok valid_name dp.2).
Proof.
  ybind; [apply ys_node_snapshot|]. intros snap Hs.
  ybind; [apply ys_open_snapshot; [done|apply flags_ok_rdonly]|]. intros. by apply yields_ret.
Qed.

Lemma y_ok_flatten {A} (m : FM (H:=H) (option A)) :
  yields I m (λ _, True) → yields I (ok_flatten m) (λ _, True).
Proof. intros. ybind; [by apply y_fm_ok|]. intros. by apply yields_ret. Qed.

Lemma y_read_backup_time snapshot :
  snapshot_ok snapshot → yields I (read_backup_time cfg snapshot) (λ _, True).
Proof.
  intros. ybind; [apply yields_try; by eapply y_open_xattr_file|].
  intros [f|e] _; [apply y_read_fd_backup_time|].
  destruct e; (by apply yields_ret) || apply yields_err.
Qed.

Lemma ys_metadata hs hg hp node :
  yields (inv hs hg hp)
    (metadata sha256 major minor stable_node_id hash_order cfg node) (λ _, True).
Proof.
  ybind; [apply ys_node_snapshot|]. intros snap Hs.
  ybind; [apply ys_sys; by eapply y_path_stat|]. intros [st|] _; [|apply yields_err].
  ybind; [apply ys_lift|]. intros m _.
  ybind; [by apply ys_sys, y_ok_flatten, y_read_backup_time|]. intros b _.
  apply ys_sys, y_enrich.
Qed.

(** ** Directories *)

Lemma y_scan_entries dir parent options names remaining entries :
  path_ok valid_name parent → Forall valid_name names →
  Forall (λ e, path_ok valid_name (scanned_relative e)) entries →
  yields I (scan_entries sha256 b64_encode b64_decode major minor stable_node_id cfg
              dir parent options names remaining entries)
    (λ er, Forall (λ e, path_ok valid_name (scanned_relative e)) er.1).
Proof.
  intros Hp Hns. revert remaining entries.
  induction Hns as [|name names Hn Hns IH]; intros remaining entries He; simpl.
  { by apply yields_ret. }
  ybind; [by eapply y_scan_entry|]. intros er Her. apply IH.
  apply Forall_app. split; [done|by constructor].
Qed.

Lemma ys_remember_entries hs hg hp entries :
  Forall (λ e, path_ok valid_name (scanned_relative e)) entries →
  yields (inv hs hg hp) (remember_entries stable_node_id hash_order entries) (λ _, True).
Proof.
  induction 1 as [|e entries He Hes IH]; simpl; [by apply yields_ret|].
  ybind; [by apply ys_remember|]. intros. ybind; [apply IH|]. intros. by apply yields_ret.
Qed.

Lemma ys_scan_directory hs hg hp node options remaining :
  yields (inv hs hg hp)
    (scan_directory sha256 b64_encode b64_decode major minor stable_node_id hash_order cfg
       node options remaining)
    (λ r, path_ok valid_name (relative r.1.1.2)).
Proof.
  ybind; [apply ys_node_snapshot|]. intros snap Hs.
  ybind; [apply ys_sys; by eapply y_prepare|]. intros prep [Hrel Hns].
  ybind; [apply ys_sys; by apply y_scan_entries|]. intros er Her.
  ybind; [apply ys_sys, y_metadata_of|]. intros st _. cbv zeta.
  apply yields_if; intros; [apply yields_err|].
  ybind; [by apply ys_remember_entries|]. intros. by apply yields_ret.
Qed.

Lemma ys_list_with_revision hs hg hp node :
  yields (inv hs hg hp)
    (list_with_revision sha256 b64_encode b64_decode major minor stable_node_id hash_order cfg node)
    (λ _, True).
Proof.
  ybind; [apply ys_scan_directory|]. intros [[[rev prep] es] rem] _. by apply yields_ret.
Qed.

Lemma ys_list_directory hs hg hp node :
  yields (inv hs hg hp)
    (list_directory sha256 b64_encode b64_decode major minor stable_node_id hash_order cfg node)
    (λ _, True).
Proof. ybind; [apply ys_list_with_revision|]. intros. by apply yields_ret. Qed.

Lemma ys_view_parent hs hg hp rel m :
  path_ok valid_name rel →
  yields (inv hs hg hp)
    (view_parent sha256 major minor stable_node_id hash_order cfg rel m) (λ _, True).
Proof.
  intros Hrel. apply yields_if; intros; [by apply yields_ret|].
  assert (path_ok valid_name (parent_path rel)) by by apply removelast_ok.
  ybind; [apply ys_sys; by eapply y_secure_lstat|]. intros st _. cbv zeta.
  ybind; [apply ys_lift|]. intros m1 _. ybind; [apply ys_sys, y_enrich|]. intros m2 _.
  ybind; [by apply ys_remember|]. intros. by apply yields_ret.
Qed.

Lemma ys_directory_view hs hg hp node options :
  yields (inv hs hg hp)
    (directory_view sha256 b64_encode b64_decode major minor stable_node_id hash_order cfg
       node options) (λ _, True).
Proof.
  ybind; [apply ys_lift|]. intros _ _.
  ybind; [apply ys_scan_directory|]. intros [[[rev prep] es] rem] Hrel. simpl in Hrel.
  ybind; [apply ys_gets|]. intros h _.
  ybind; [apply ys_sys, y_ok_flatten, y_read_fd_backup_time|]. intros b _.
  ybind; [apply ys_sys, y_enrich|]. intros dir _.
  eapply (yields_bind _ _ _ (λ _, True)).
  { apply yields_if; intros; [|by apply yields_ret].
    ybind; [apply ys_sys; by eapply y_xattr_snapshot|]. intros. by apply yields_ret. }
  intros x _. ybind; [by apply ys_view_parent|]. intros parent _.
  ybind; [apply ys_sys, y_metadata_of|]. intros.
  apply yields_if; intros; [apply yields_err|by apply yields_ret].
Qed.

(** ** Opening and creating *)

Lemma trip_to_yields {A} hs hg hp (m : SS (H:=H) A) :
  trip (inv hs hg hp) m (λ _, inv hs hg hp) (inv hs hg hp) ↔
  yields (inv hs hg hp) m (λ _, True).
Proof.
  rewrite yields_trip. split; intros Hm s Hs; specialize (Hm s Hs);
    destruct (m s) as [[]]; naive_solver.
Qed.

Lemma validate_name_ok name : validate_name name = Ok tt → valid_name name.
Proof. unfold validate_name, valid_name. by destruct (validate_filename name) as [[]|]. Qed.

Lemma ys_validate_name hs hg hp name :
  yields (inv hs hg hp) (sm_lift (validate_name name)) (λ _, valid_name name).
Proof. apply yields_lift. intros [] ?. by apply validate_name_ok. Qed.

Lemma validate_open_options_ok options writable :
  validate_open_options options writable = Ok tt →
  (FileOpenOptions.truncate options = true → can_write_access (FileOpenOptions.access options) = true) ∧
  (can_write_access (FileOpenOptions.access options) = true → writable = true).
Proof.
  unfold validate_open_options.
  destruct (FileOpenOptions.truncate options), (can_write_access _), writable; simpl;
    intros; split; (done || (case_match; done)).
Qed.

Lemma ys_truncate hs hg hp file n :
  rw = true → yields (inv hs hg hp) (sys (run_io (λ h, ftruncate h file n))) (λ _, True).
Proof. intros. by apply ys_sys, y_truncate with (rw := rw). Qed.

Lemma open_body_spec hs hg hp node options writable :
  (writable = true → rw = true) →
  validate_open_options options writable = Ok tt →
  trip (inv hs hg (hp + 1))
    (snapshot ← node_snapshot stable_node_id hash_order cfg node;
     opened ← open_snapshot cfg snapshot
       (open_flags (FileOpenOptions.access options) (FileOpenOptions.append options))
       (Some NodeKind.File);
     let file := opened.1.1 in
     _ ← (if FileOpenOptions.truncate options then sys (run_io (λ h, ftruncate h file 0))
          else mret tt);
     st ← sys (metadata_of file);
     handle ← insert_handle fresh_handle (OpenFile.Mk file node (NodeSnapshot.identity snapshot)
       (FileOpenOptions.access options) (FileOpenOptions.append options));
     mret (handle, revision sha256 st, Stat.st_size st))
    (λ _, inv hs hg hp) (inv hs hg (hp + 1)).
Proof.
  intros Hw [Ht Ha]%validate_open_options_ok.
  eapply trip_yields; [apply ys_node_snapshot|done|]. intros snap Hs.
  eapply trip_yields; [apply ys_open_snapshot; [done|split; [done|by auto]]|done|].
  intros opened _. cbv zeta.
  eapply (trip_yields _ _ _ (λ _, True)); [|done|].
  { apply yields_if; intros; [apply ys_truncate; auto|by apply yields_ret]. }
  intros _ _. eapply trip_yields; [apply ys_sys, y_metadata_of|done|]. intros st _.
  eapply trip_bind; [apply trip_insert_handle|]. intros h. by apply trip_ret.
Qed.

Lemma ys_open hs hg hp node options :
  yields (inv hs hg hp)
    (open sha256 stable_node_id hash_order fresh_handle cfg node options) (λ _, True).
Proof.
  apply trip_to_yields. eapply trip_yields; [apply ys_get|done|]. intros s0 Hs0.
  eapply trip_yields; [apply (yields_lift _ _ (λ _, validate_open_options options
    (can_write cfg s0) = Ok tt)); by intros []|done|]. intros [] Hv.
  eapply trip_bind; [apply trip_acquire_handle|]. intros ?; cbv beta.
  apply trip_holding_handle. eapply open_body_spec; [|done]. apply (si_grant _ _ _ _ Hs0).
Qed.

Lemma path_ok_snoc path name :
  path_ok valid_name path → valid_name name → path_ok valid_name (path ++ [name]).
Proof. intros. apply Forall_app. split; [done|by constructor]. Qed.

Lemma ys_create_file hs hg hp parent name mode options :
  yields (inv hs hg hp)
    (create_file sha256 major minor stable_node_id hash_order fresh_handle cfg
       parent name mode options) (λ _, True).
Proof.
  apply trip_to_yields. eapply trip_yields; [apply ys_require_writable|done|]. intros ? Hrw; cbv beta in Hrw.
  eapply trip_yields; [apply ys_validate_name|done|]. intros ? Hn; cbv beta in Hn.
  eapply trip_yields; [apply ys_lift|done|]. intros _ _.
  eapply trip_bind; [apply trip_acquire_handle|]. intros ?; cbv beta. apply trip_holding_handle.
  eapply trip_bind; [apply trip_reserve|]. intros ?; cbv beta.
  eapply trip_bind.
  { apply (trip_holding_node _ _ _ _ (λ c, path_ok valid_name c.1.1.2)).
    ybind; [apply ys_open_parent_node|]. intros dp Hdp.
    ybind; [apply ys_sys, y_run_sys; intros h Hh; by apply (hk_openat _ _ _ HK)|]. intros file _.
    ybind; [apply ys_sys, y_metadata_of|]. intros st _. ybind; [apply ys_gets|]. intros h _.
    apply yields_ret. by apply path_ok_snoc. }
  intros [[[file path] st] birth]. cbv zeta. intros s [Hs Hp]. revert s Hs. simpl in Hp.
  change (trip (inv (hs + 1) (hg + 1) (hp + 1))
    (node ← reg (remember_reserved stable_node_id (identity_from_stat st) path);
     handle ← insert_handle fresh_handle (OpenFile.Mk file node (identity_from_stat st)
       (FileOpenOptions.access options) (FileOpenOptions.append options));
     mret (to_metadata sha256 major minor node st birth, handle, revision sha256 st,
           Stat.st_size st)) (λ _, inv hs hg hp) (inv hs hg (hp + 1))).
  eapply trip_bind; [by apply trip_remember_reserved|]. intros node.
  eapply trip_bind; [apply trip_insert_handle|]. intros. by apply trip_ret.
Qed.

Lemma ys_create_directory hs hg hp parent name mode :
  yields (inv hs hg hp)
    (create_directory sha256 major minor stable_node_id hash_order cfg parent name mode)
    (λ _, True).
Proof.
  apply trip_to_yields. eapply trip_yields; [apply ys_require_writable|done|]. intros ? Hrw; cbv beta in Hrw.
  eapply trip_yields; [apply ys_validate_name|done|]. intros ? Hn; cbv beta in Hn.
  eapply trip_bind; [apply trip_reserve|]. intros ?; cbv beta.
  eapply trip_bind.
  { apply (trip_holding_node _ _ _ _ (λ c, path_ok valid_name c.1.1)).
    ybind; [apply ys_open_parent_node|]. intros dp Hdp.
    ybind; [apply ys_sys, y_run_sys; intros h Hh; by apply (hk_mkdirat _ _ _ HK)|]. intros _ _. cbv zeta.
    assert (path_ok valid_name (dp.2 ++ [name])) by by apply path_ok_snoc.
    ybind; [apply ys_sys; eapply y_open_relative; [done|done|apply flags_ok_rdonly]|].
    intros child _. ybind; [apply ys_gets|]. intros h _. by apply yields_ret. }
  intros [[path st] birth] s [Hs Hp]. revert s Hs. simpl in Hp.
  change (trip (inv (hs + 1) (hg + 1) hp)
    (node ← reg (remember_reserved stable_node_id (identity_from_stat st) path);
     mret (to_metadata sha256 major minor node st birth)) (λ _, inv hs hg hp) (inv hs hg hp)).
  eapply trip_bind; [by apply trip_remember_reserved|]. intros. by apply trip_ret.
Qed.

Lemma ys_create_by_name hs hg hp parent name create :
  valid_name name → (∀ dir, yields I (create dir) (λ _, True)) →
  yields (inv hs hg hp)
    (create_by_name sha256 major minor stable_node_id hash_order cfg parent name create)
    (λ _, True).
Proof.
  intros Hn Hc. apply trip_to_yields. eapply trip_bind; [apply trip_reserve|]. intros ?; cbv beta.
  eapply trip_bind.
  { apply (trip_holding_node _ _ _ _ (λ c, path_ok valid_name c.1)).
    ybind; [apply ys_open_parent_node|]. intros dp Hdp.
    ybind; [by apply ys_sys|]. intros _ _. cbv zeta.
    assert (path_ok valid_name (dp.2 ++ [name])) by by apply path_ok_snoc.
    ybind; [apply ys_sys; by eapply y_secure_lstat|]. intros st _. by apply yields_ret. }
  intros [path st] s [Hs Hp]. revert s Hs. simpl in Hp.
  change (trip (inv (hs + 1) (hg + 1) hp)
    (node ← reg (remember_reserved stable_node_id (identity_from_stat st) path);
     metadata sha256 major minor stable_node_id hash_order cfg node)
    (λ _, inv hs hg hp) (inv hs hg hp)).
  eapply trip_bind; [by apply trip_remember_reserved|]. intros node.
  apply trip_to_yields, ys_metadata.
Qed.

Lemma ys_create_symlink hs hg hp parent name target :
  yields (inv hs hg hp)
    (create_symlink sha256 major minor stable_node_id hash_order cfg parent name target)
    (λ _, True).
Proof.
  ybind; [apply ys_require_writable|]. intros ? Hrw; cbv beta in Hrw.
  ybind; [apply ys_validate_name|]. intros ? Hn; cbv beta in Hn.
  eapply (yields_bind _ _ _ (λ _, validate_symlink_target target = Ok tt)).
  { apply yields_lift. by intros []. }
  intros ? Ht; cbv beta in Ht. apply ys_create_by_name; [done|]. intros dir.
  apply y_run_sys. intros h Hh. by apply (hk_symlinkat _ _ _ HK).
Qed.

Lemma ys_create_special hs hg hp parent name kind mode dmaj dmin :
  yields (inv hs hg hp)
    (create_special_node sha256 major minor stable_node_id hash_order cfg parent name kind mode
       dmaj dmin) (λ _, True).
Proof.
  ybind; [apply ys_require_writable|]. intros ? Hrw; cbv beta in Hrw.
  ybind; [apply ys_validate_name|]. intros ? Hn; cbv beta in Hn.
  apply ys_create_by_name; [done|]. intros dir.
  apply y_run_sys. intros h Hh. by apply (hk_mknodat _ _ _ HK).
Qed.

Lemma y_link_paths source dir name paths :
  rw = true → valid_name name → Forall (path_ok valid_name) paths →
  yields I (link_paths cfg source dir name paths) (λ _, True).
Proof.
  intros Hrw Hn. induction 1 as [|p ps Hp Hps IH]; simpl; [apply yields_err|].
  apply yields_if; intros; [apply yields_err|].
  ybind; [apply yields_try; by eapply y_secure_lstat|]. intros [st|e] _; [|apply IH].
  apply yields_if; intros; [apply IH|].
  ybind; [by apply (yields_lift _ _ (λ _, True))|]. intros kind _.
  apply yields_if; intros; [apply yields_err|].
  ybind; [by eapply y_open_parent|]. intros [d n] Hdn.
  apply y_run_sys. intros h Hh. by apply (hk_linkat _ _ _ HK).
Qed.

Lemma ys_create_hard_link hs hg hp node new_parent new_name :
  yields (inv hs hg hp)
    (create_hard_link sha256 major minor stable_node_id hash_order cfg node new_parent new_name)
    (λ _, True).
Proof.
  ybind; [apply ys_require_writable|]. intros ? Hrw; cbv beta in Hrw.
  ybind; [apply ys_validate_name|]. intros ? Hn; cbv beta in Hn.
  ybind; [apply ys_node_snapshot|]. intros snap Hs.
  ybind; [apply ys_open_parent_node|]. intros dp Hdp.
  ybind; [apply ys_sys; by apply y_link_paths|]. intros _ _.
  ybind; [apply ys_remember; by apply path_ok_snoc|]. intros. apply ys_metadata.
Qed.

(** ** Removing and renaming *)

Lemma ys_remove_node hs hg hp parent name dir :
  yields (inv hs hg hp) (remove_node stable_node_id hash_order cfg parent name dir) (λ _, True).
Proof.
  ybind; [apply ys_require_writable|]. intros ? Hrw.
  ybind; [apply ys_validate_name|]. intros ? Hn.
  ybind; [apply ys_open_parent_node|]. intros dp Hdp.
  ybind; [apply ys_sys; by eapply y_statat_name|]. intros st _.
  ybind; [apply ys_lift|]. intros kind _. cbv zeta.
  apply yields_if; intros; [apply yields_err|]. apply yields_if; intros; [apply yields_err|].
  ybind; [apply ys_sys, y_run_sys; intros h Hh; by apply (hk_unlinkat _ _ _ HK)|]. intros _ _.
  ybind; [apply ys_reg; [by apply remove_registry_path_spec|intros; apply keeps_remove_path]|].
  intros _ _. case_match; [|by apply yields_ret]. apply yields_if; intros; [|by apply yields_ret].
  ybind; [apply yields_try, ys_sys; by eapply y_remove_fork|]. intros. by apply yields_ret.
Qed.

Lemma ys_rename_node hs hg hp parent name new_parent new_name mode :
  yields (inv hs hg hp)
    (rename_node stable_node_id hash_order cfg parent name new_parent new_name mode) (λ _, True).
Proof.
  ybind; [apply ys_require_writable|]. intros ? Hrw.
  ybind; [apply ys_validate_name|]. intros ? Hn.
  ybind; [apply ys_validate_name|]. intros ? Hn'.
  ybind; [apply ys_node_snapshot|]. intros so Hso.
  ybind; [apply ys_node_snapshot|]. intros sn Hsn.
  ybind; [apply ys_open_snapshot; [done|apply flags_ok_rdonly]|]. intros [[od op] ost] Ho.
  ybind; [apply ys_open_snapshot; [done|apply flags_ok_rdonly]|]. intros [[nd np] nst] Hnp.
  simpl in Ho, Hnp.
  ybind; [apply ys_sys; by eapply y_statat_name|]. intros src _. cbv zeta.
  ybind; [apply ys_sys, y_try_sys; intros h Hh; apply (hk_statat _ _ _ HK); auto|]. intros found _. ybind; [apply ys_lift|]. intros dst _.
  ybind; [apply ys_sys, y_run_sys; intros h Hh; by apply (hk_renameat _ _ _ HK)|]. intros _ _.
  apply ys_reg.
  - apply update_after_rename_spec; [done|..]; intros E; apply app_nil in E as [_ E]; discriminate E.
  - intros. apply keeps_rename; by apply path_ok_snoc.
Qed.

Lemma y_link_target identity paths :
  Forall (path_ok valid_name) paths → yields I (link_target cfg identity paths) (λ _, True).
Proof.
  induction 1 as [|p ps Hp Hps IH]; simpl; [apply yields_err|].
  ybind; [apply yields_try; by eapply y_secure_lstat|]. intros [st|e] _; [|apply IH].
  apply yields_if; intros; [apply IH|].
  ybind; [by apply (yields_lift _ _ (λ _, True))|]. intros kind _.
  apply yields_if; intros; [apply IH|].
  ybind; [by eapply y_open_parent|]. intros pn Hn; cbv beta in Hn.
  ybind; [apply y_run_sys; intros h Hh; by apply (hk_readlinkat _ _ _ HK)|]. intros t _.
  ybind; [by apply (yields_lift _ _ (λ _, True))|]. intros. by apply yields_ret.
Qed.

Lemma ys_read_link hs hg hp node :
  yields (inv hs hg hp) (read_link stable_node_id hash_order cfg node) (λ _, True).
Proof. ybind; [apply ys_node_snapshot|]. intros. by apply ys_sys, y_link_target. Qed.

(** ** Extended attributes *)

Lemma ys_open_xattr hs hg hp snapshot :
  snapshot_ok snapshot →
  yields (inv hs hg hp) (sys (open_xattr_file (root_file cfg) snapshot)) (λ _, True).
Proof. intros. apply ys_sys. by eapply y_open_xattr_file. Qed.

Lemma ys_get_xattr hs hg hp node name offset length :
  yields (inv hs hg hp)
    (get_xattr b64_encode stable_node_id hash_order cfg node name offset length) (λ _, True).
Proof.
  ybind; [apply ys_lift|]. intros _ _. ybind; [apply ys_lift|]. intros _ _. case_match.
  - ybind; [apply ys_node_snapshot|]. intros. apply ys_sys. by eapply y_read_fork.
  - ybind; [apply ys_node_snapshot|]. intros snap Hs.
    ybind; [by apply ys_open_xattr|]. intros f _. ybind; [apply ys_lift|]. intros hn _.
    ybind; [apply ys_sys, y_read_fd_xattr|]. intros. by apply yields_ret.
Qed.

Lemma ys_list_xattrs hs hg hp node :
  yields (inv hs hg hp) (list_xattrs b64_decode stable_node_id hash_order cfg node) (λ _, True).
Proof.
  ybind; [apply ys_node_snapshot|]. intros snap Hs.
  ybind; [by apply ys_open_xattr|]. intros f _.
  ybind; [apply ys_sys, y_list_fd_xattrs|]. intros names _.
  ybind; [apply ys_gets|]. intros. by apply yields_ret.
Qed.

Lemma ys_set_xattr hs hg hp node name value mode position :
  yields (inv hs hg hp)
    (set_xattr b64_encode stable_node_id hash_order cfg node name value mode position) (λ _, True).
Proof.
  ybind; [apply ys_require_writable|]. intros ? Hrw. ybind; [apply ys_lift|]. intros _ _.
  apply yields_if; intros; [apply yields_err|]. case_match.
  - ybind; [apply ys_node_snapshot|]. intros. apply ys_sys. by eapply y_write_fork.
  - ybind; [apply ys_node_snapshot|]. intros snap Hs.
    ybind; [by apply ys_open_xattr|]. intros f _. ybind; [apply ys_lift|]. intros hn _.
    ybind; [apply ys_sys, y_read_optional_xattr|]. intros ex _.
    ybind; [apply ys_lift|]. intros _ _. ybind; [apply ys_lift|]. intros v _.
    apply ys_sys, y_run_sys. intros. by apply (hk_fsetxattr _ _ _ HK).
Qed.

Lemma ys_remove_xattr hs hg hp node name :
  yields (inv hs hg hp) (remove_xattr b64_encode stable_node_id hash_order cfg node name)
    (λ _, True).
Proof.
  ybind; [apply ys_require_writable|]. intros ? Hrw. ybind; [apply ys_lift|]. intros _ _.
  case_match.
  - ybind; [apply ys_node_snapshot|]. intros. apply ys_sys. by eapply y_remove_fork.
  - ybind; [apply ys_node_snapshot|]. intros snap Hs.
    ybind; [by apply ys_open_xattr|]. intros f _. ybind; [apply ys_lift|]. intros hn _.
    apply ys_sys, y_run_sys. intros. by apply (hk_fremovexattr _ _ _ HK).
Qed.

(** ** Attributes *)

Lemma ys_change_file hs hg hp file changes accessed modified :
  rw = true →
  yields (inv hs hg hp) (sys (change_file file changes accessed modified)) (λ _, True).
Proof.
  intros Hrw. apply ys_sys. ybind; [by eapply y_apply_file_changes|]. intros st _.
  ybind; [by eapply y_write_backup_time|]. intros. by apply yields_ret.
Qed.

Lemma ys_set_attributes hs hg hp node handle changes :
  yields (inv hs hg hp)
    (set_attributes sha256 major minor stable_node_id hash_order cfg node handle changes)
    (λ _, True).
Proof.
  apply yields_if; intros; [apply ys_metadata|].
  ybind; [apply ys_require_writable|]. intros ? Hrw; cbv beta in Hrw.
  ybind; [apply ys_lift|]. intros acc _. ybind; [apply ys_lift|]. intros modi _. cbv zeta.
  destruct handle as [handle|].
  - ybind; [apply ys_open_handle|]. intros opened _.
    apply yields_if; intros; [apply yields_err|]. apply yields_if; intros; [apply yields_err|].
    ybind; [by apply ys_change_file|]. intros st _. ybind; [apply ys_gets|]. intros h _.
    eapply (yields_bind _ _ _ (λ _, True)); [|intros; by apply yields_ret].
    case_match; [by apply yields_ret|]. apply ys_sys, y_ok_flatten, y_read_fd_backup_time.
  - ybind; [apply ys_node_snapshot|]. intros snap Hs.
    ybind; [apply yields_try, ys_open_snapshot; [done|split; by case_match]|].
    intros [[[f p] st]|e] _.
    + apply yields_if; intros; [apply yields_err|].
      ybind; [by apply ys_change_file|]. intros st' _. ybind; [apply ys_gets|]. intros.
      by apply yields_ret.
    + apply yields_if; intros; [apply yields_err|].
      ybind; [apply ys_sys; by eapply y_set_path_attributes|]. intros. apply ys_metadata.
Qed.

(** ** Contents *)

Lemma ys_read hs hg hp handle offset length :
  yields (inv hs hg hp) (read sha256 cfg handle offset length) (λ _, True).
Proof.
  ybind; [apply ys_lift|]. intros _ _. ybind; [apply ys_open_handle|]. intros opened _.
  apply yields_if; intros; [apply yields_err|]. ybind; [apply ys_gets|]. intros. apply ys_lift.
Qed.

Lemma ys_write_owned hs hg hp handle offset data :
  yields (inv hs hg hp) (write_owned sha256 cfg handle offset data) (λ _, True).
Proof.
  ybind; [apply ys_require_writable|]. intros ? Hrw; cbv beta in Hrw. cbv zeta.
  ybind; [apply ys_lift|]. intros _ _. ybind; [apply ys_open_handle|]. intros opened _.
  apply yields_if; intros; [apply yields_err|].
  ybind; [apply ys_sys; by eapply y_write_all_at|]. intros _ _.
  ybind; [apply ys_sys, y_metadata_of|]. intros. by apply yields_ret.
Qed.

Lemma table_ok_remove t remove : table_ok t → table_ok (remove_locks t remove).2.
Proof. intros [? ?]. split; [by apply remove_locks_inv|by apply remove_locks_owned]. Qed.

Lemma ys_remove_locks hs hg hp remove :
  yields (inv hs hg hp) (remove_session_locks remove) (λ _, True).
Proof.
  apply yields_modify. intros s []. split; simpl; try done. by apply table_ok_remove.
Qed.

Lemma ys_flush hs hg hp handle lock_owner : yields (inv hs hg hp) (flush cfg handle lock_owner) (λ _, True).
Proof.
  ybind; [apply ys_open_handle|]. intros opened _. case_match; [apply ys_remove_locks|].
  by apply yields_ret.
Qed.

Lemma ys_sync hs hg hp handle data_only : yields (inv hs hg hp) (sync handle data_only) (λ _, True).
Proof.
  ybind; [apply ys_open_handle|]. intros opened _. apply ys_sys, y_run_io. intros h Hh.
  destruct data_only; [by apply (hk_fdatasync _ _ _ HK)|by apply (hk_fsync _ _ _ HK)].
Qed.

Lemma ys_sync_directory hs hg hp node :
  yields (inv hs hg hp) (sync_directory stable_node_id hash_order cfg node) (λ _, True).
Proof.
  ybind; [apply ys_open_parent_node|]. intros dp _. apply ys_sys, y_run_io. intros.
  by apply (hk_fsync _ _ _ HK).
Qed.

Lemma ys_allocate hs hg hp handle offset length :
  yields (inv hs hg hp) (allocate sha256 cfg handle offset length) (λ _, True).
Proof.
  ybind; [apply ys_require_writable|]. intros ? Hrw; cbv beta in Hrw.
  apply yields_if; intros; [apply yields_err|].
  ybind; [apply ys_open_handle|]. intros opened _. apply yields_if; intros; [apply yields_err|].
  ybind; [apply ys_sys, y_run_sys; intros; by apply (hk_fallocate _ _ _ HK)|]. intros _ _.
  ybind; [apply ys_sys, y_metadata_of|]. intros. by apply yields_ret.
Qed.

Lemma ys_copy_file_range hs hg hp i io o oo n :
  yields (inv hs hg hp) (copy_file_range sha256 cfg i io o oo n) (λ _, True).
Proof.
  ybind; [apply ys_require_writable|]. intros ? Hrw; cbv beta in Hrw.
  apply yields_if; intros; [apply yields_err|].
  ybind; [apply ys_open_handle|]. intros fi _. ybind; [apply ys_open_handle|]. intros fo _.
  apply yields_if; intros; [apply yields_err|].
  ybind; [apply ys_sys; by eapply y_copy_range_server|]. intros c _.
  ybind; [apply ys_sys, y_metadata_of|]. intros. by apply yields_ret.
Qed.

Lemma ys_seek hs hg hp handle offset whence :
  yields (inv hs hg hp) (seek_file handle offset whence) (λ _, True).
Proof.
  ybind; [apply ys_open_handle|]. intros opened _. apply yields_if; intros; [apply yields_err|].
  by apply ys_sys, y_ask.
Qed.

Lemma ys_ioctl hs hg hp handle operation :
  yields (inv hs hg hp) (safe_ioctl handle operation) (λ _, True).
Proof.
  ybind; [apply ys_open_handle|]. intros opened _. destruct operation.
  apply yields_if; intros; [apply yields_err|]. apply ys_sys, y_file_len.
Qed.

Lemma ys_map_block hs hg hp node size block :
  yields (inv hs hg hp) (map_block stable_node_id hash_order cfg node size block) (λ _, True).
Proof.
  apply yields_if; intros; [apply yields_err|]. ybind; [apply ys_lift|]. intros off _.
  ybind; [apply ys_node_snapshot|]. intros snap Hs.
  ybind; [apply ys_open_snapshot; [done|apply flags_ok_rdonly]|]. intros opened _.
  ybind; [by apply ys_sys, (y_ask _ _ (λ _, True))|]. intros data _.
  apply yields_if; intros; [by apply yields_ret|apply yields_err].
Qed.

Lemma ys_exchange_data hs hg hp temporary parent name new_parent new_name options :
  valid_name temporary →
  yields (inv hs hg hp)
    (exchange_data sha256 b64_encode b64_decode major minor stable_node_id hash_order cfg
       temporary parent name new_parent new_name options) (λ _, True).
Proof.
  intros Ht. ybind; [apply ys_require_writable|]. intros ? Hrw; cbv beta in Hrw.
  ybind; [apply ys_validate_name|]. intros _ _. ybind; [apply ys_validate_name|]. intros _ _.
  apply yields_if; intros; [apply yields_err|].
  ybind; [apply ys_list_directory|]. intros e1 _. ybind; [apply ys_lift|]. intros left _.
  ybind; [apply ys_list_directory|]. intros e2 _. ybind; [apply ys_lift|]. intros right _.
  apply yields_if; intros; [apply yields_err|]. apply yields_if; intros; [by apply yields_ret|].
  ybind; [apply ys_node_snapshot|]. intros sl Hsl. ybind; [apply ys_node_snapshot|]. intros sr Hsr.
  ybind; [apply ys_open_snapshot; [done|by split]|]. intros lf _.
  ybind; [apply ys_open_snapshot; [done|by split]|]. intros rf _.
  ybind; [apply ys_sys, y_run_sys; intros h Hh; by apply (hk_openat _ _ _ HK)|]. intros t _.
  ybind; [apply ys_sys; by eapply y_dup|]. intros root _.
  eapply (yields_bind _ _ _ (λ _, True)).
  { eapply yields_weaken; [apply (yields_try _ _ (λ _, True))|by intros []].
    ybind; [apply ys_sys; by eapply y_exchange_file_contents|]. intros _ _.
    repeat case_match; try by apply yields_ret. apply ys_sys. by eapply y_exchange_forks. }
  intros r _. eapply (yields_bind _ _ _ (λ _, True)); [|intros; apply ys_lift].
  eapply yields_weaken; [apply (yields_try _ _ (λ _, True))|by intros []].
  apply ys_sys, y_run_sys. intros h Hh. by apply (hk_unlinkat _ _ _ HK).
Qed.

(** ** Locks, handles, forgotten nodes *)

Lemma ys_get_lock hs hg hp handle requested :
  yields (inv hs hg hp) (get_lock cfg handle requested) (λ _, True).
Proof.
  ybind; [apply ys_lift|]. intros _ _. ybind; [apply ys_open_handle|]. intros opened _.
  ybind; [apply ys_lift|]. intros _ _. ybind; [apply ys_get|]. intros. by apply yields_ret.
Qed.

Lemma validate_lock_wf lock allow :
  0 ≤ FileLock.start lock → FileLock.end_ lock ≤ u64_max →
  validate_lock lock allow = Ok tt → wf_lock lock.
Proof.
  unfold validate_lock. intros ? ?. case_match; [done|]. bool_simpl. intros _. split; lia.
Qed.

(** Only a new lock needs that the session may own locks. *)
Context (owner_self : owner (session_id cfg)).

Lemma ys_set_lock hs hg hp handle requested wait :
  0 ≤ FileLock.start requested → FileLock.end_ requested ≤ u64_max →
  yields (inv hs hg hp) (set_lock cfg handle requested wait) (λ _, True).
Proof.
  intros H0 H1. eapply (yields_bind _ _ _ (λ _, wf_lock requested)).
  { apply yields_lift. intros [] Hv. by eapply validate_lock_wf. }
  intros ? Hwf; cbv beta in Hwf. eapply (yields_bind _ _ _ (λ _, True)).
  { apply yields_if; intros; [|by apply yields_ret].
    eapply yields_weaken; [apply ys_require_writable|done]. }
  intros _ _. ybind; [apply ys_open_handle|]. intros opened _. ybind; [apply ys_lift|]. intros _ _.
  intros s Hs. sm_unfold. simpl.
  destruct (set_lock_attempt _ _ _ _) as [l|e|] eqn:E; simpl; [|done|by destruct wait].
  split; [|done]. destruct Hs as [? ? ? ? [Hl Ho] ? ?]. split; simpl; try done.
  split; [by eapply set_lock_attempt_inv|by eapply set_lock_attempt_owned].
Qed.

Lemma ys_close hs hg hp handle : yields (inv hs hg hp) (close cfg handle) (λ _, True).
Proof.
  intros s Hs. unfold close, open_handle. sm_unfold. simpl.
  destruct (handles (session_nodes (nodes s)) !! handle) as [opened|] eqn:Hh; simpl; [|done].
  split; [|done]. destruct Hs as [(? & ? & ? & [? ? ? ?]) ? ? Hbud ? ? ?].
  assert (size (handles (session_nodes (nodes s))) ≠ 0%nat) as Hsz
    by (rewrite map_size_ne_0_lookup; eauto).
  split; simpl; try done; try lia.
  - rewrite map_size_delete_Some by eauto. lia.
  - by apply table_ok_remove.
Qed.

Lemma ys_forget hs hg hp l : yields (inv hs hg hp) (reg (forget_nodes hash_order l)) (λ _, True).
Proof.
  apply ys_reg; [|intros; apply keeps_forget]. by apply forget_nodes_spec.
Qed.
End facts.
