(* ===== verification/SessionSafety.v ===== *)
(** The state machine of a connection: the operations a client can request in
    any order, and the safety theorems over all their sequences. *)

From S2P Require Import Prelude Protocol Common Locks Registry XattrNames FileIO Attributes HostDirs Forks Session RegistryPaths HostFacts SessionFacts.

(** The operations of [ExportSession] a connection can invoke. *)
Inductive SessionOp :=
  | OpStatFilesystem
  | OpMetadata (node : NodeId)
  | OpList (node : NodeId)
  | OpDirectoryView (node : NodeId) (options : DirectoryViewOptions)
  | OpOpen (node : NodeId) (options : FileOpenOptions)
  | OpCreateFile (parent : NodeId) (name : Name) (mode : Z) (options : FileOpenOptions)
  | OpCreateDirectory (parent : NodeId) (name : Name) (mode : Z)
  | OpCreateSymlink (parent : NodeId) (name : Name) (target : list Z)
  | OpCreateHardLink (node new_parent : NodeId) (new_name : Name)
  | OpCreateSpecialNode (parent : NodeId) (name : Name) (kind : SpecialNodeKind)
      (mode device_major device_minor : Z)
  | OpRemoveNode (parent : NodeId) (name : Name) (directory : bool)
  | OpRenameNode (parent : NodeId) (name : Name) (new_parent : NodeId) (new_name : Name)
      (mode : RenameMode)
  | OpReadLink (node : NodeId)
  | OpGetXattr (node : NodeId) (name : Name) (offset length : Z)
  | OpListXattrs (node : NodeId)
  | OpSetXattr (node : NodeId) (name : Name) (value : list Z) (mode : XattrSetMode) (position : Z)
  | OpRemoveXattr (node : NodeId) (name : Name)
  | OpSetAttributes (node : NodeId) (handle : option FileHandle) (changes : AttributeChanges)
  | OpRead (handle : FileHandle) (offset length : Z)
  | OpWrite (handle : FileHandle) (offset : Z) (data : list Z)
  | OpFlush (handle : FileHandle) (lock_owner : option Z)
  | OpSync (handle : FileHandle) (data_only : bool)
  | OpSyncDirectory (node : NodeId)
  | OpAllocate (handle : FileHandle) (offset length : Z)
  | OpCopyFileRange (input : FileHandle) (input_offset : Z) (output : FileHandle)
      (output_offset length : Z)
  | OpSeek (handle : FileHandle) (offset : Z) (whence : SeekWhence)
  | OpIoctl (handle : FileHandle) (operation : SafeIoctl)
  | OpMapBlock (node : NodeId) (block_size block : Z)
  | OpExchangeData (temporary_name : Name) (parent : NodeId) (name : Name)
      (new_parent : NodeId) (new_name : Name) (options : Z)
  | OpGetLock (handle : FileHandle) (requested : FileLock)
  | OpSetLock (handle : FileHandle) (requested : FileLock) (wait : bool)
  | OpClose (handle : FileHandle)
  | OpForgetNodes (requested : list NodeId)
  | OpCleanupLocks.

(** What the decoder and the server guarantee of an operation: lock ranges are
    64-bit unsigned, and the random name of a temporary file is one component. *)
Definition wf_op (op : SessionOp) : Prop :=
  match op with
  | OpSetLock _ requested _ =>
      0 ≤ FileLock.start requested ∧ FileLock.end_ requested ≤ u64_max
  | OpExchangeData temporary_name _ _ _ _ _ => valid_name temporary_name
  | _ => True
  end.

Section machine.
Context {H : Type} `{HF : HostFiles H} `{HD : HostDirs H}.
Context (sha256 : list Z → list Z) (b64_encode : list Z → list Z)
  (b64_decode : list Z → option (list Z)) (major minor : Z → Z)
  (stable_node_id : FileIdentity → NodeId).
Context (hash_order : gset NodeId → list NodeId) (fresh_handle : gset FileHandle → FileHandle).
Context (cfg : ExportConfig).

(** Run an operation and drop its response. *)
Definition drop_result {A} (m : SS (H:=H) A) : SS (H:=H) unit := _ ← m; mret tt.

Definition run_op (op : SessionOp) : SS unit :=
  match op with
  | OpStatFilesystem => drop_result (stat_filesystem cfg)
  | OpMetadata node =>
      drop_result (metadata sha256 major minor stable_node_id hash_order cfg node)
  | OpList node =>
      drop_result (list_with_revision sha256 b64_encode b64_decode major minor stable_node_id
        hash_order cfg node)
  | OpDirectoryView node options =>
      drop_result (directory_view sha256 b64_encode b64_decode major minor stable_node_id
        hash_order cfg node options)
  | OpOpen node options =>
      drop_result (open sha256 stable_node_id hash_order fresh_handle cfg node options)
  | OpCreateFile parent name mode options =>
      drop_result (create_file sha256 major minor stable_node_id hash_order fresh_handle cfg
        parent name mode options)
  | OpCreateDirectory parent name mode =>
      drop_result (create_directory sha256 major minor stable_node_id hash_order cfg
        parent name mode)
  | OpCreateSymlink parent name target =>
      drop_result (create_symlink sha256 major minor stable_node_id hash_order cfg
        parent name target)
  | OpCreateHardLink node new_parent new_name =>
      drop_result (create_hard_link sha256 major minor stable_node_id hash_order cfg
        node new_parent new_name)
  | OpCreateSpecialNode parent name kind mode dmaj dmin =>
      drop_result (create_special_node sha256 major minor stable_node_id hash_order cfg
        parent name kind mode dmaj dmin)
  | OpRemoveNode parent name dir => remove_node stable_node_id hash_order cfg parent name dir
  | OpRenameNode parent name new_parent new_name mode =>
      rename_node stable_node_id hash_order cfg parent name new_parent new_name mode
  | OpReadLink node => drop_result (read_link stable_node_id hash_order cfg node)
  | OpGetXattr node name offset length =>
      drop_result (get_xattr b64_encode stable_node_id hash_order cfg node name offset length)
  | OpListXattrs node => drop_result (list_xattrs b64_decode stable_node_id hash_order cfg node)
  | OpSetXattr node name value mode position =>
      set_xattr b64_encode stable_node_id hash_order cfg node name value mode position
  | OpRemoveXattr node name => remove_xattr b64_encode stable_node_id hash_order cfg node name
  | OpSetAttributes node handle changes =>
      drop_result (set_attributes sha256 major minor stable_node_id hash_order cfg
        node handle changes)
  | OpRead handle offset length => drop_result (read sha256 cfg handle offset length)
  | OpWrite handle offset data => drop_result (write_owned sha256 cfg handle offset data)
  | OpFlush handle lock_owner => flush cfg handle lock_owner
  | OpSync handle data_only => sync handle data_only
  | OpSyncDirectory node => sync_directory stable_node_id hash_order cfg node
  | OpAllocate handle offset length => drop_result (allocate sha256 cfg handle offset length)
  | OpCopyFileRange i io o oo n => drop_result (copy_file_range sha256 cfg i io o oo n)
  | OpSeek handle offset whence => drop_result (seek_file handle offset whence)
  | OpIoctl handle operation => drop_result (safe_ioctl handle operation)
  | OpMapBlock node size block =>
      drop_result (map_block stable_node_id hash_order cfg node size block)
  | OpExchangeData temporary parent name new_parent new_name options =>
      exchange_data sha256 b64_encode b64_decode major minor stable_node_id hash_order cfg
        temporary parent name new_parent new_name options
  | OpGetLock handle requested => drop_result (get_lock cfg handle requested)
  | OpSetLock handle requested wait => drop_result (set_lock cfg handle requested wait)
  | OpClose handle => close cfg handle
  | OpForgetNodes requested => reg (forget_nodes hash_order requested)
  | OpCleanupLocks => cleanup_locks cfg
  end.

(** The state after a sequence of requests, whether they succeed or fail. *)
Definition run_ops (ops : list SessionOp) (s : Session H) : Session H :=
  fold_left (λ s op, (run_op op s).2) ops s.

Context (I : H → Prop) (rw : bool) (owner : Z → Prop) (others : Z).
Context (hash_order_perm : ∀ s, hash_order s ≡ₚ elements s)
  (fresh_handle_new : ∀ s, fresh_handle s ∉ s)
  (HK : host_keeps H I rw) (owner_self : owner (session_id cfg)).

Abbreviation inv := (sess_inv stable_node_id cfg I rw owner others 0 0 0).

Lemma ys_drop_result {A} (m : SS (H:=H) A) (R : A → Prop) :
  yields inv m R → yields inv (drop_result m) (λ _, True).
Proof. intros. ybind; [done|]. intros. by apply yields_ret. Qed.

Lemma run_op_inv op : wf_op op → yields inv (run_op op) (λ _, True).
Proof.
  destruct op; simpl; intros Hwf; try eapply ys_drop_result.
  - ybind; [by apply ys_sys, (y_ask _ _ (λ _, True))|]. intros. by apply (yields_ret _ _ (λ _, True)).
  - by eapply ys_metadata.
  - by eapply ys_list_with_revision.
  - by eapply ys_directory_view.
  - by eapply ys_open.
  - by eapply ys_create_file.
  - by eapply ys_create_directory.
  - by eapply ys_create_symlink.
  - by eapply ys_create_hard_link.
  - by eapply ys_create_special.
  - by eapply ys_remove_node.
  - by eapply ys_rename_node.
  - by eapply ys_read_link.
  - by eapply ys_get_xattr.
  - by eapply ys_list_xattrs.
  - by eapply ys_set_xattr.
  - by eapply ys_remove_xattr.
  - by eapply ys_set_attributes.
  - by eapply ys_read.
  - by eapply ys_write_owned.
  - by eapply ys_flush.
  - by eapply ys_sync.
  - by eapply ys_sync_directory.
  - by eapply ys_allocate.
  - by eapply ys_copy_file_range.
  - by eapply ys_seek.
  - by eapply ys_ioctl.
  - by eapply ys_map_block.
  - by eapply ys_exchange_data.
  - by eapply ys_get_lock.
  - destruct Hwf. by eapply ys_set_lock.
  - by eapply ys_close.
  - by eapply ys_forget.
  - by eapply ys_remove_locks.
Qed.

Lemma run_ops_inv ops s : Forall wf_op ops → inv s → inv (run_ops ops s).
Proof.
  intros Hops. revert s. induction Hops as [|op ops Hop Hops IH]; intros s Hs; simpl; [done|].
  apply IH. by apply run_op_inv.
Qed.
End machine.

(** A directory stream yields the dot entries and names of one component. *)
Definition honest_streams (H : Type) `{HostDirs H} : Prop :=
  ∀ (h : H) d l name, read_dir h d = Ok l → Ok name ∈ l →
    name = DOT ∨ name = DOTDOT ∨ valid_name name.

(** The first session of a fresh export. *)
Definition new_session {H} (cfg : ExportConfig) (root_identity : FileIdentity)
    (authorized : bool) (h : H) : Session H :=
  session_with_writes cfg (registry_new (limits cfg) root_identity)
    (Limits.max_open_handles (limits cfg)) [] (lit "quicKFS") authorized h.

Lemma new_session_inv {H} stable_node_id cfg (I : H → Prop) rw owner root_identity authorized h :
  1 ≤ Limits.max_known_nodes (limits cfg) → 1 ≤ Limits.max_total_known_nodes (limits cfg) →
  0 ≤ Limits.max_open_handles (limits cfg) →
  (writable cfg && authorized = true → rw = true) → I h →
  sess_inv stable_node_id cfg I rw owner 0 0 0 0 (new_session cfg root_identity authorized h).
Proof.
  intros Hk Ht Ho Hw Hh. split; simpl; try done.
  - by apply reg_inv_new.
  - intros n k Hn. simpl in Hn. apply lookup_singleton_Some in Hn as [<- <-].
    by repeat constructor.
  - rewrite map_size_empty. lia.
  - split; [apply lock_inv_nil|]. by intros r ?%not_elem_of_nil.
Qed.

(** Resource accounting of a connection.  After any sequence of requests,
    failed ones included, every permit is where it belongs: the free handle
    permits and the open handles add up to [max_open_handles], the node permits
    of the connection and of the export add up with the registered nodes, so
    the configured bounds hold; the registry maps are consistent, and the lock
    table satisfies its exclusion invariant. *)
Theorem session_accounting {H} `{HF : HostFiles H} `{HD : HostDirs H}
    sha256 b64_encode b64_decode major minor stable_node_id hash_order fresh_handle cfg
    root_identity authorized (h : H) ops :
  (∀ s, hash_order s ≡ₚ elements s) → (∀ s, fresh_handle s ∉ s) → honest_streams H →
  1 ≤ Limits.max_known_nodes (limits cfg) → 1 ≤ Limits.max_total_known_nodes (limits cfg) →
  0 ≤ Limits.max_open_handles (limits cfg) → Forall wf_op ops →
  let s := run_ops sha256 b64_encode b64_decode major minor stable_node_id hash_order
             fresh_handle cfg ops (new_session cfg root_identity authorized h) in
  let open_files := Z.of_nat (size (handles (session_nodes (nodes s)))) in
  0 ≤ handle_permits s ∧
  handle_permits s + open_files = Limits.max_open_handles (limits cfg) ∧
  reg_inv stable_node_id (limits cfg) 0 0 (nodes s) ∧
  Z.of_nat (size (by_node (registry (nodes s)))) ≤ Limits.max_total_known_nodes (limits cfg) ∧
  Z.of_nat (size (known_nodes (session_nodes (nodes s)))) ≤ Limits.max_known_nodes (limits cfg) ∧
  lock_inv (locks s).
Proof.
  intros Hperm Hfresh Hdir Hk Ht Ho Hops s open_files.
  assert (host_keeps H (λ _, True) true) as HK by (split; try done; intros; by eapply Hdir).
  destruct (run_ops_inv sha256 b64_encode b64_decode major minor stable_node_id hash_order
    fresh_handle cfg (λ _, True) true (λ _, True) 0 Hperm Hfresh HK Logic.I ops
    (new_session cfg root_identity authorized h)) as [Hreg _ Hp Hh [Hl _] _ _].
  { done. }
  { by apply new_session_inv. }
  destruct (reg_inv_bounds stable_node_id (limits cfg) _ Hreg). subst s open_files.
  split_and!; try done. lia.
Qed.

(** [tree] is an observation of the exported files and of the resource-fork
    store that the reading calls leave alone: opening without create and without
    write access, looking up a name, reading a link, duplicating, syncing. *)
Record unaffected_by_reads {H T} `{HF : HostFiles H} `{HD : HostDirs H} (tree : H → T) : Prop := {
  ur_dup : ∀ h f, tree (dup_fd h f).2 = tree h;
  ur_open : ∀ h d name flags mode, of_create flags = false →
    can_write_access (of_access flags) = false → tree (openat h d name flags mode).2 = tree h;
  ur_statat : ∀ h d name, tree (statat h d name).2 = tree h;
  ur_readlinkat : ∀ h d name, tree (readlinkat h d name).2 = tree h;
  ur_fsync : ∀ h f, tree (fsync h f).2 = tree h;
  ur_fdatasync : ∀ h f, tree (fdatasync h f).2 = tree h;
  ur_fork : ∀ h n, tree (fork_open h n false false).2 = tree h
}.

Lemma tree_host_keeps {H T} `{HF : HostFiles H} `{HD : HostDirs H} (tree : H → T) (h : H) :
  honest_streams H → unaffected_by_reads tree → host_keeps H (λ h', tree h' = tree h) false.
Proof.
  intros Hdir [Hdup Hopen Hstat Hlink Hsync Hdsync Hfork]. split; try done.
  - intros h' f <-. apply Hdup.
  - intros h' d name flags mode <- _ _ Hc Hw. apply Hopen.
    + destruct (of_create flags); [by discriminate Hc|done].
    + destruct (can_write_access _); [by discriminate Hw|done].
  - intros. by eapply Hdir.
  - intros h' d name <- _. apply Hstat.
  - intros h' d name <- _. apply Hlink.
  - intros h' f <-. apply Hsync.
  - intros h' f <-. apply Hdsync.
  - intros h' n <-. apply Hfork.
Qed.

(** C1: A connection without a write grant, or on a read-only export, cannot
    change anything: for every observation [tree] of the exported files and of
    the resource-fork store that the reading calls leave alone, every sequence
    of requests leaves [tree] as it was. *)
Theorem read_only_session_changes_nothing {H T} `{HF : HostFiles H} `{HD : HostDirs H}
    sha256 b64_encode b64_decode major minor stable_node_id hash_order fresh_handle cfg
    root_identity authorized (tree : H → T) (h : H) ops :
  (∀ s, hash_order s ≡ₚ elements s) → (∀ s, fresh_handle s ∉ s) → honest_streams H →
  unaffected_by_reads tree →
  1 ≤ Limits.max_known_nodes (limits cfg) → 1 ≤ Limits.max_total_known_nodes (limits cfg) →
  0 ≤ Limits.max_open_handles (limits cfg) → Forall wf_op ops →
  writable cfg && authorized = false →
  tree (host (run_ops sha256 b64_encode b64_decode major minor stable_node_id hash_order
                fresh_handle cfg ops (new_session cfg root_identity authorized h))) = tree h.
Proof.
  intros Hperm Hfresh Hdir Htree Hk Ht Ho Hops Hro.
  pose proof (tree_host_keeps tree h Hdir Htree) as HK.
  apply (run_ops_inv sha256 b64_encode b64_decode major minor stable_node_id hash_order
    fresh_handle cfg (λ h', tree h' = tree h) false (λ _, True) 0 Hperm Hfresh HK Logic.I ops
    (new_session cfg root_identity authorized h)); [done|].
  apply new_session_inv; try done. by rewrite Hro.
Qed.

(** C5: Every name the server hands to the operating system relative to a
    directory of the export is one component of a path below the export root;
    only looking a name up ([statat]) may also get [.] and [..], the entries that
    a directory stream yields besides components.  Whatever property [I] of the
    host state is kept by all the calls when they get such names, when no
    [openat] follows a symbolic link, and when new symbolic links stay inside
    the export, is kept by every sequence of requests with arbitrary names,
    identifiers and handles: [I] can be a statement on the log of all names that
    [openat], [statat], [readlinkat], [mkdirat], [symlinkat], [linkat], [mknodat],
    [unlinkat], [renameat], [chmodat] and [utimensat] were given, or that
    nothing outside the exported tree was touched. *)
Theorem host_sees_only_components {H} `{HF : HostFiles H} `{HD : HostDirs H}
    sha256 b64_encode b64_decode major minor stable_node_id hash_order fresh_handle cfg
    root_identity authorized (I : H → Prop) (h : H) ops :
  (∀ s, hash_order s ≡ₚ elements s) → (∀ s, fresh_handle s ∉ s) → host_keeps H I true →
  1 ≤ Limits.max_known_nodes (limits cfg) → 1 ≤ Limits.max_total_known_nodes (limits cfg) →
  0 ≤ Limits.max_open_handles (limits cfg) → Forall wf_op ops → I h →
  I (host (run_ops sha256 b64_encode b64_decode major minor stable_node_id hash_order
             fresh_handle cfg ops (new_session cfg root_identity authorized h))).
Proof.
  intros Hperm Hfresh HK Hk Ht Ho Hops Hh.
  apply (run_ops_inv sha256 b64_encode b64_decode major minor stable_node_id hash_order
    fresh_handle cfg I true (λ _, True) 0 Hperm Hfresh HK Logic.I ops
    (new_session cfg root_identity authorized h)); [done|].
  by apply new_session_inv.
Qed.

(** * A host that records *)

(** A host with one file [f] in its root directory that records the names it is
    given, those of [statat] apart, and counts the mutating calls. *)
Module LogHost.
Record Log := Mk { names : list Name; looked : list Name; writes : nat }.

Definition used (h : Log) (l : list Name) : Log := Mk (names h ++ l) (looked h) (writes h).
Definition wrote {A} (h : Log) (l : list Name) (a : A) : A * Log :=
  (a, Mk (names h ++ l) (looked h) (S (writes h))).

Definition dir_stat : Stat := Stat.Mk 1 1 0 0 16877 2 0 0 0 0 0 0 0.
Definition file_stat : Stat := Stat.Mk 1 7 0 0 33188 1 0 0 0 0 0 0 0.

#[global] Instance log_files : HostFiles Log := {
  file_data _ _ := [];
  file_identity _ f := MkIdentity 1 (if f =? 1 then 1 else 7);
  file_xattrs _ _ := ∅;
  fstat _ f := Ok (if f =? 1 then dir_stat else file_stat);
  pread _ _ _ _ := Ok [];
  pwrite h _ _ d := wrote h [] (Ok (zlen d));
  append_write h _ d := wrote h [] (Ok (zlen d));
  ftruncate h _ _ := wrote h [] (Ok tt);
  fsync h _ := (Ok tt, h);
  ficlone h _ _ := wrote h [] (Err Errno.NOTSUP);
  copy_file_range_sys h _ _ _ _ _ := wrote h [] (Err Errno.NOSYS);
  fgetxattr _ _ _ _ := Err Errno.NODATA;
  fsetxattr h _ _ _ := wrote h [] (Ok tt);
  fremovexattr h _ _ := wrote h [] (Err Errno.NODATA)
}.

#[global] Instance log_dirs : HostDirs Log := {
  dup_fd h _ := (Ok 1, h);
  openat h _ name flags _ :=
    let h := used h [name] in
    (Ok (if of_directory flags then 1 else 2),
     if of_create flags then Mk (names h) (looked h) (S (writes h)) else h);
  statat h _ name :=
    (if bool_decide (name = lit "f") then Ok file_stat
     else if bool_decide (name = DOT) || bool_decide (name = DOTDOT) then Ok dir_stat
     else Err Errno.NOENT, Mk (names h) (looked h ++ [name]) (writes h));
  read_dir _ _ := Ok [Ok DOT; Ok DOTDOT; Ok (lit "f")];
  readlinkat h _ name := (Err Errno.INVAL, used h [name]);
  mkdirat h _ name _ := wrote h [name] (Ok tt);
  symlinkat h _ _ name := wrote h [name] (Ok tt);
  linkat h _ name _ name' := wrote h [name; name'] (Ok tt);
  mknodat h _ name _ _ _ _ := wrote h [name] (Ok tt);
  unlinkat h _ name _ := wrote h [name] (Ok tt);
  renameat h _ name _ name' _ := wrote h [name; name'] (Ok tt);
  chmodat h _ name _ := wrote h [name] (Ok tt);
  utimensat h _ name _ _ := wrote h [name] (Ok tt);
  birth_time _ _ := None;
  fchmod h _ _ := wrote h [] (Ok tt);
  futimens h _ _ _ := wrote h [] (Ok tt);
  fdatasync h _ := (Ok tt, h);
  fallocate h _ _ _ := wrote h [] (Ok tt);
  lseek _ _ o _ := Ok o;
  flistxattr _ _ _ := Ok [];
  fstatvfs _ _ := Err Errno.NOSYS;
  fork_lstat _ _ := Err (IoError.Os Errno.NOENT);
  fork_stat _ _ := Err (IoError.Os Errno.NOENT);
  fork_open h _ w c := if w || c then wrote h [] (Ok 2) else (Err Errno.NOENT, h);
  fork_unlink h _ := wrote h [] (Ok tt)
}.

Definition looks_at (name : Name) : Prop := name = DOT ∨ name = DOTDOT ∨ valid_name name.
Definition confined (h : Log) : Prop := Forall valid_name (names h) ∧ Forall looks_at (looked h).

Lemma confined_used h l w :
  confined h → Forall valid_name l → confined (Mk (names h ++ l) (looked h) w).
Proof. intros [? ?] ?. split; [by apply Forall_app|done]. Qed.

Lemma log_streams : honest_streams Log.
Proof.
  intros h d l name [= <-]. rewrite !elem_of_cons, elem_of_nil.
  intros [[= ->]|[[= ->]|[[= ->]|[]]]]; [by left|by right; left|]. by right; right; vm_compute.
Qed.

Lemma log_keeps : host_keeps Log confined true.
Proof.
  split; try done;
    try (intros; apply confined_used; [done|]; repeat (constructor; try done)).
  - intros h d name flags mode Hh Hn _ _ _. simpl. case_match; by apply confined_used; [|constructor].
  - intros. by eapply log_streams.
  - intros h d name [? ?] Hn. split; [done|]. apply Forall_app. split; [done|]. by apply Forall_singleton.
  - intros h n w c _ Hh. simpl. case_match; [by apply confined_used|done].
Qed.

Definition cfg : ExportConfig := MkConfig ex_limits true 5 true 1 9.
Definition fresh (s : gset FileHandle) : FileHandle :=
  MkFileHandle (fresh (set_map (C:=gset FileHandle) (D:=gset Z) handle_uuid s)).

Lemma fresh_new s : fresh s ∉ s.
Proof.
  unfold fresh. intros Hin. apply (is_fresh (set_map (C:=gset FileHandle) (D:=gset Z) handle_uuid s)).
  apply elem_of_map. eexists. split; [|exact Hin]. done.
Qed.

Definition root_identity : FileIdentity := MkIdentity 1 1.
Definition node_f : NodeId := ex_stable (MkIdentity 1 7).
(** List the root, open the file for reading, try names that are not
    components, create, write through the handle, rename and remove, and look
    for a node that is not known. *)
Definition requests : list SessionOp :=
  [OpList ROOT_NODE; OpOpen node_f FileOpenOptions.READ_ONLY;
   OpCreateFile ROOT_NODE (lit "../x") 420 FileOpenOptions.READ_ONLY;
   OpCreateFile ROOT_NODE (lit "g") 420 (FileOpenOptions.Mk FileAccess.ReadWrite true false);
   OpCreateDirectory ROOT_NODE (lit "d") 493;
   OpRenameNode ROOT_NODE (lit "f") ROOT_NODE (lit "h") RenameMode.Replace;
   OpRemoveNode ROOT_NODE (lit "..") true; OpMetadata (MkNodeId 999)].

Lemma requests_wf : Forall wf_op requests.
Proof. by repeat constructor. Qed.

Definition run (authorized : bool) : Session Log :=
  run_ops (λ b, b) (λ b, b) Some (λ d, d) (λ d, d) ex_stable ex_order fresh cfg requests
    (new_session cfg root_identity authorized (Mk [] [] 0)).
(** The number of writes is such an observation. *)
Lemma log_reads : unaffected_by_reads writes.
Proof. split; try done. intros h d name flags mode Hc _. simpl. by rewrite Hc. Qed.
End LogHost.

Lemma session_accounting_witness :
  handle_permits (LogHost.run true) = 2 ∧
  Z.of_nat (size (handles (session_nodes (nodes (LogHost.run true))))) = 2.
Proof.
  destruct (session_accounting (λ b, b) (λ b, b) Some (λ d, d) (λ d, d) ex_stable ex_order
    LogHost.fresh LogHost.cfg LogHost.root_identity true (LogHost.Mk [] [] 0) LogHost.requests
    ex_order_perm LogHost.fresh_new LogHost.log_streams ltac:(done) ltac:(done) ltac:(done)
    LogHost.requests_wf) as (_ & Hsum & _).
  assert (handle_permits (LogHost.run true) = 2) as Hp by (by vm_compute).
  split; [exact Hp|]. unfold LogHost.run in *.
  change (Limits.max_open_handles (limits LogHost.cfg)) with 4 in Hsum. lia.
Defined.

Lemma read_only_session_changes_nothing_witness :
  LogHost.writes (host (LogHost.run false)) = 0%nat ∧
  LogHost.writes (host (LogHost.run true)) ≠ 0%nat.
Proof.
  split; [|by vm_compute].
  apply (read_only_session_changes_nothing (λ b, b) (λ b, b) Some (λ d, d) (λ d, d) ex_stable
    ex_order LogHost.fresh LogHost.cfg LogHost.root_identity false LogHost.writes
    (LogHost.Mk [] [] 0) LogHost.requests ex_order_perm LogHost.fresh_new LogHost.log_streams
    LogHost.log_reads); try done. exact LogHost.requests_wf.
Defined.

Lemma host_sees_only_components_witness :
  LogHost.confined (host (LogHost.run true)) ∧
  lit "g" ∈ LogHost.names (host (LogHost.run true)) ∧ DOTDOT ∈ LogHost.looked (host (LogHost.run true)).
Proof.
  split; [|by vm_compute; repeat constructor].
  apply (host_sees_only_components (λ b, b) (λ b, b) Some (λ d, d) (λ d, d) ex_stable
    ex_order LogHost.fresh LogHost.cfg LogHost.root_identity true LogHost.confined
    (LogHost.Mk [] [] 0) LogHost.requests ex_order_perm LogHost.fresh_new LogHost.log_keeps);
    try done. exact LogHost.requests_wf.
Defined.
