(* ===== verification/SessionSpecs.v ===== *)
(** Functional behaviour of single session operations: the search for a node
    ends, an opened descriptor is the requested node, symbolic links stay below
    their directory, directory views respect their inline budget, data written
    is data read, and closing a handle releases what it held. *)

From S2P Require Import Prelude Protocol Common Locks Registry XattrNames FileIO Attributes HostDirs Forks Session SessionSafety.

(** * The search for a node *)

Section discover.
Context {H : Type} `{HF : HostFiles H} `{HD : HostDirs H}.
Context (stable_node_id : FileIdentity → NodeId) (hash_order : gset NodeId → list NodeId)
  (cfg : ExportConfig).

Abbreviation total := (Limits.max_total_known_nodes (limits cfg)).

Lemma discover_entries_measure requested rel entries visited pending (s s' : Session H) p v :
  0 ≤ visited ≤ total → total < u64_max →
  discover_entries stable_node_id hash_order cfg requested rel entries visited pending s =
    (Ok (inr (p, v)), s') →
  visited ≤ v ≤ total ∧ zlen p + (total - v) ≤ zlen pending + (total - visited).
Proof.
  revert visited pending s.
  induction entries as [|[name st] entries IH]; intros visited pending s Hv Hu; simpl.
  { intros [= -> -> ->]. lia. }
  case_match; [by apply IH|].
  assert (u64_saturating_add visited 1 = Z.min (visited + 1) u64_max) as Hadd by done.
  destruct (_ >? total) eqn:Et; [done|]. bool_simpl.
  case_match.
  { sm_unfold. destruct (reg _ s) as [[n|e] s1]; [|done]. by case_match. }
  sm_unfold. destruct (node_kind_from_mode _) as [k|]; [|done].
  intros Hrun. apply IH in Hrun as [? ?]; [|lia|done].
  rewrite Hadd in *. destruct (bool_decide (k = NodeKind.Directory)); rewrite ?zlen_cons in *; lia.
Qed.

Lemma discover_loop_fuel fuel extra requested pending visited (s : Session H) :
  0 ≤ visited ≤ total → total < u64_max → zlen pending + (total - visited) ≤ Z.of_nat fuel →
  discover_loop stable_node_id hash_order cfg (fuel + extra) requested pending visited s =
  discover_loop stable_node_id hash_order cfg fuel requested pending visited s.
Proof.
  revert pending visited s. induction fuel as [|fuel IH]; intros pending visited s Hv Hu Hf.
  { destruct pending as [|rel pending].
    - by destruct extra.
    - rewrite zlen_cons in Hf. pose proof (zlen_nonneg pending). lia. }
  destruct pending as [|rel pending]; [done|]. simpl. sm_unfold.
  destruct (sys (open_directory _ _) s) as [[dir|e] s1]; [|done].
  destruct (sys (ask _) s1) as [[stream|e] s2]; [|done].
  destruct (sys (stat_entries _ _) s2) as [[entries|e] s3]; [|done].
  destruct (discover_entries _ _ _ _ _ _ _ _ s3) as [[[[]|[p v]]|e] s4] eqn:E; try done.
  apply discover_entries_measure in E as [? ?]; [|done|done].
  rewrite zlen_cons in Hf. apply IH; lia.
Qed.
End discover.

(** The directories the walk can visit: one per node the export may know, and
    the root. *)
Definition visit_bound (l : Limits) : nat := S (Z.to_nat (Limits.max_total_known_nodes l)).

(** The search for an unknown node identifier terminates: the fuel given to
    the walk, one step per registered-node slot and one for the root, is never
    the reason it stops.  With any larger bound the walk gives the same result
    and the same state, because every directory put on the stack was counted
    against [max_total_known_nodes] before. *)
Theorem discover_node_terminates {H} `{HF : HostFiles H} `{HD : HostDirs H}
    stable_node_id hash_order cfg requested extra (s : Session H) :
  0 ≤ Limits.max_total_known_nodes (limits cfg) < u64_max → requested ≠ ROOT_NODE →
  discover_node stable_node_id hash_order cfg requested s =
  discover_loop stable_node_id hash_order cfg
    (visit_bound (limits cfg) + extra) requested [[]] 0 s.
Proof.
  intros Ht Hne. unfold discover_node, visit_bound. rewrite bool_decide_false by done.
  symmetry. apply discover_loop_fuel; [lia|lia|]. rewrite zlen_cons, zlen_nil. lia.
Qed.

Lemma discover_node_terminates_witness :
  let s := new_session LogHost.cfg LogHost.root_identity false (LogHost.Mk [] [] 0) in
  discover_node ex_stable ex_order LogHost.cfg LogHost.node_f s =
  discover_loop ex_stable ex_order LogHost.cfg 1000 LogHost.node_f [[]] 0 s ∧
  (discover_node ex_stable ex_order LogHost.cfg LogHost.node_f s).1 = Ok tt.
Proof.
  intros s. split; [|by vm_compute].
  apply (discover_node_terminates ex_stable ex_order LogHost.cfg LogHost.node_f 994 s);
    [split; by vm_compute|by vm_compute].
Defined.

(** * Opening a node *)

Section open_paths.
Context {H : Type} `{HF : HostFiles H} `{HD : HostDirs H}.

Lemma open_relative_result root path flags (h h' : H) file opened st :
  open_relative root path flags h = (Ok (file, opened, st), h') →
  opened = path ∧ fstat h' file = Ok st.
Proof.
  assert (∀ f h st (h1 : H), metadata_of f h = (Ok st, h1) → h1 = h ∧ fstat h f = Ok st) as Hmeta.
  { intros f h0 st0 h1. unfold metadata_of, lift_io. sm_unfold. simpl.
    destruct (fstat h0 f); simpl; [|done]. by intros [= -> ->]. }
  unfold open_relative. case_match; bool_simpl; sm_unfold.
  - destruct (run_sys _ h) as [[f|e] h1]; [|done].
    destruct (metadata_of f h1) as [[st1|e] h2] eqn:E; [|done].
    intros [= -> <- -> ->]. apply Hmeta in E as [-> ?]. done.
  - destruct (open_parent root path h) as [[pn|e] h1]; [|done].
    destruct (run_sys _ h1) as [[f|e] h2]; [|done].
    destruct (metadata_of f h2) as [[st1|e] h3] eqn:E; [|done].
    intros [= -> <- -> ->]. by apply Hmeta in E as [-> ?].
Qed.

Lemma open_paths_result root identity flags expected paths first_error (h h' : H) file opened st :
  open_paths root identity flags expected paths first_error h = (Ok (file, opened, st), h') →
  opened ∈ paths ∧ fstat h' file = Ok st ∧ identity_from_stat st = identity ∧
  (∀ kind, expected = Some kind → node_kind st = kind).
Proof.
  revert first_error h. induction paths as [|p ps IH]; intros fe h; simpl; [done|].
  sm_unfold. destruct (open_relative root p flags h) as [[[[f q] st1]|e] h1] eqn:E.
  2:{ destruct e; intros Hrun; apply IH in Hrun as (? & ?); (split; [by right|done]). }
  case_match eqn:Eid; bool_simpl.
  { intros Hrun. apply IH in Hrun as (? & ?). split; [by right|done]. }
  apply open_relative_result in E as [-> Hst].
  destruct expected as [kind|].
  - case_match; bool_simpl; [done|]. intros [= -> <- -> ->].
    split_and!; [by left|done|done|]. by intros k [= <-].
  - intros [= -> <- -> ->]. split_and!; [by left|done|done|done].
Qed.
End open_paths.

(** The descriptor is open on the object with the identity [id]. *)
Definition descriptor_of {H} `{HostFiles H} (h : H) (file : Z) (id : FileIdentity) (st : Stat) : Prop :=
  fstat h file = Ok st ∧ identity_from_stat st = id.

(** A descriptor opened for a node is that node.  Whatever the names of the
    node have come to mean on the host since they were recorded, the descriptor
    [open_snapshot] returns has the device and inode numbers of the node and
    the expected kind, and was reached by one of its recorded paths; otherwise
    the result is an error. *)
Theorem open_snapshot_right_node {H} `{HF : HostFiles H} `{HD : HostDirs H} cfg snapshot flags
    expected (s s' : Session H) file path st :
  open_snapshot cfg snapshot flags expected s = (Ok (file, path, st), s') →
  path ∈ NodeSnapshot.paths snapshot ∧
  descriptor_of (host s') file (NodeSnapshot.identity snapshot) st ∧
  (∀ kind, expected = Some kind → node_kind st = kind).
Proof.
  unfold open_snapshot, sys. destruct (open_node_snapshot _ _ _ _ (host s)) as [r h'] eqn:E.
  intros [= -> <-]. apply open_paths_result in E as (? & ? & ? & ?). by repeat split.
Qed.

Lemma open_snapshot_right_node_witness :
  let s := new_session LogHost.cfg LogHost.root_identity false (LogHost.Mk [] [] 0) in
  identity_from_stat LogHost.file_stat = MkIdentity 1 7 ∧
  is_ok (open_snapshot LogHost.cfg (NodeSnapshot.Mk (MkIdentity 1 8) [[lit "f"]])
    RDONLY (Some NodeKind.File) s).1 = false.
Proof.
  intros s. split; [|by vm_compute].
  apply (open_snapshot_right_node LogHost.cfg (NodeSnapshot.Mk (MkIdentity 1 7) [[lit "f"]])
    RDONLY (Some NodeKind.File) s (set_host (LogHost.Mk [lit "f"] [] 0) s) 2 [lit "f"]
    LogHost.file_stat). by vm_compute.
Defined.

(** * Symbolic links *)

(** Resolving a relative path lexically from [depth] levels below a directory:
    the depth reached, or [None] when it leaves the directory. *)
Fixpoint lexical_depth (depth : Z) (components : list Component) : option Z :=
  match components with
  | [] => Some depth
  | Component.Normal _ :: cs => lexical_depth (depth + 1) cs
  | Component.CurDir :: cs => lexical_depth depth cs
  | Component.ParentDir :: cs => if depth <=? 0 then None else lexical_depth (depth - 1) cs
  | Component.RootDir :: _ => None
  end.

Lemma check_target_depth cs normal r depth :
  check_target cs normal = Ok r → 0 ≤ depth →
  ∃ d, lexical_depth depth cs = Some d ∧ depth ≤ d ∧ (normal = false → r = true → depth < d).
Proof.
  revert normal depth. induction cs as [|c cs IH]; intros normal depth; simpl.
  { intros [= <-] ?. exists depth. split_and!; [done|lia|by intros ->]. }
  destruct c; try done; intros Hc Hd.
  - destruct (IH normal depth Hc Hd) as (d & ? & ? & ?). eauto.
  - destruct (IH true (depth + 1) Hc) as (d & ? & ? & ?); [lia|].
    exists d. split_and!; [done|lia|lia].
Qed.

(** A symbolic link the server creates, and one whose target it reports,
    points to an object strictly below the directory that contains it: resolved
    component by component from that directory the target never steps above it,
    is not absolute, and names at least one entry. *)
Theorem symlink_target_stays_below target :
  validate_symlink_target target = Ok tt →
  zlen target ≤ MAX_SYMLINK_TARGET_SIZE ∧ 0 ∉ target ∧
  ∃ d, lexical_depth 0 (path_components target) = Some d ∧ 0 < d.
Proof.
  unfold validate_symlink_target. case_match eqn:E; bool_simpl; [done|].
  unfold mbind, result_bind.
  destruct (check_target _ false) as [normal|] eqn:Ec; [|done]. destruct normal; [|done].
  intros _. split_and!; [lia|done|].
  destruct (check_target_depth _ _ _ 0 Ec) as (d & ? & ? & ?); [done|]. exists d. split; [done|]. auto.
Qed.

Lemma symlink_target_stays_below_witness :
  ∃ d, lexical_depth 0 (path_components (lit "a/./b")) = Some d ∧ 0 < d.
Proof. apply (symlink_target_stays_below (lit "a/./b")). by vm_compute. Defined.

(** * The inline budget of directory views *)

Definition inline_bytes (values : list InlineXattr) : Z :=
  foldr (λ v n, zlen (InlineXattr.value v) + n) 0 values.

Lemma inline_bytes_app a b : inline_bytes (a ++ b) = inline_bytes a + inline_bytes b.
Proof. induction a as [|x a IH]; simpl; [done|]. rewrite IH. lia. Qed.

Lemma inline_bytes_nonneg l : 0 ≤ inline_bytes l.
Proof. induction l as [|x l IH]; simpl; [lia|]. pose proof (zlen_nonneg (InlineXattr.value x)). lia. Qed.

Section inline.
Context {H : Type} `{HF : HostFiles H} `{HD : HostDirs H}.
Context (sha256 : list Z → list Z) (b64_encode : list Z → list Z)
  (b64_decode : list Z → option (list Z)) (major minor : Z → Z)
  (stable_node_id : FileIdentity → NodeId) (cfg : ExportConfig).

Definition snapshot_bytes (x : option XattrSnapshot) : Z :=
  match x with Some x => inline_bytes (XattrSnapshot.inline_values x) | None => 0 end.
Definition scan_bytes (entries : list ScannedDirectoryEntry) : Z :=
  foldr (λ e n, snapshot_bytes (scanned_xattrs e) + n) 0 entries.

Lemma scan_bytes_app a b : scan_bytes (a ++ b) = scan_bytes a + scan_bytes b.
Proof. induction a as [|x a IH]; simpl; [done|]. rewrite IH. lia. Qed.

Lemma inline_loop_budget f fork maximum names remaining values (h h' : H) vs rest :
  0 ≤ remaining →
  inline_values_loop b64_encode f fork maximum names remaining values h = (Ok (vs, rest), h') →
  0 ≤ rest ∧ inline_bytes vs + rest = inline_bytes values + remaining.
Proof.
  revert remaining values h. induction names as [|name names IH]; intros remaining values h Hr; simpl.
  { intros [= <- <- <-]. lia. }
  sm_unfold. destruct (inline_candidate _ _ _ _ _ h) as [[[v|]|e] h1]; [| |done].
  2:{ by apply IH. }
  unfold claim_inline_budget. destruct (u64_checked_sub remaining (zlen v)) as [r|] eqn:Es.
  - apply u64_checked_sub_Some in Es as [-> ?]. intros Hrun.
    apply IH in Hrun as [? Heq]; [|lia]. rewrite inline_bytes_app in Heq. simpl in Heq. lia.
  - by apply IH.
Qed.

Lemma xattr_snapshot_budget f node forks maximum remaining (h h' : H) x rest :
  0 ≤ remaining →
  xattr_snapshot_for_open_file b64_encode b64_decode f node forks maximum remaining h =
    (Ok (x, rest), h') →
  0 ≤ rest ∧ inline_bytes (XattrSnapshot.inline_values x) + rest = remaining.
Proof.
  intros Hr. unfold xattr_snapshot_for_open_file. sm_unfold.
  destruct (list_fd_xattrs _ f h) as [[names|e] h1]; [|done]. case_match.
  - destruct (inline_values_loop _ _ _ _ _ _ _ h1) as [[[vs r]|e] h2] eqn:E; [|done].
    intros [= <- <- <-]. by apply inline_loop_budget in E.
  - intros [= <- <- <-]. simpl. lia.
Qed.

Lemma scan_entry_budget dir parent name forks options remaining (h h' : H) e rest :
  0 ≤ remaining →
  scan_directory_entry sha256 b64_encode b64_decode major minor stable_node_id
    dir parent name forks options remaining h = (Ok (e, rest), h') →
  0 ≤ rest ∧ snapshot_bytes (scanned_xattrs e) + rest = remaining.
Proof.
  intros Hr. unfold scan_directory_entry, fm_ok. sm_unfold.
  destruct (run_sys _ h) as [[st|?] h1]; [|done].
  destruct (node_kind_from_mode _) as [kind|]; [|done].
  destruct (to_metadata_from_stat _ _ _ _ _) as [m|]; [|done].
  destruct (_ && _).
  2:{ destruct (enrich_resource_fork_revision_at _ _ _ _ h1) as [[m'|] h2]; [|done].
      intros [= <- <- <-]. simpl. lia. }
  destruct (open_directory_entry_for_xattrs _ _ _ h1) as [[file|?] h2].
  2:{ destruct (enrich_resource_fork_revision_at _ _ _ _ h2) as [[m'|] h3]; [|done].
      intros [= <- <- <-]. simpl. lia. }
  destruct (read_fd_backup_time file h2) as [b h3].
  destruct (xattr_snapshot_for_open_file _ _ _ _ _ _ _ h3) as [[[x r]|?] h4] eqn:E; simpl.
  all: destruct (fstat h4 file) as [st'|?]; simpl; [|done].
  all: destruct (negb (revision sha256 st' =? Metadata.revision m)); [done|].
  all: destruct (enrich_resource_fork_revision_at _ _ _ _ h4) as [[m'|] h5]; [|done].
  all: intros [= <- <- <-]; simpl.
  - by apply xattr_snapshot_budget in E.
  - lia.
Qed.

Lemma scan_entries_budget dir parent options names remaining entries (h h' : H) es rest :
  0 ≤ remaining →
  scan_entries sha256 b64_encode b64_decode major minor stable_node_id cfg
    dir parent options names remaining entries h = (Ok (es, rest), h') →
  0 ≤ rest ∧ scan_bytes es + rest = scan_bytes entries + remaining.
Proof.
  revert remaining entries h. induction names as [|name names IH]; intros remaining entries h Hr; simpl.
  { intros [= <- <- <-]. lia. }
  sm_unfold. destruct (scan_directory_entry _ _ _ _ _ _ _ _ _ _ _ _ h) as [[[e r]|?] h1] eqn:E; [|done].
  apply scan_entry_budget in E as [? ?]; [|done]. simpl. intros Hrun.
  apply IH in Hrun as [? Heq]; [|done]. rewrite scan_bytes_app in Heq. simpl in Heq. lia.
Qed.
End inline.

(** The attribute values inlined in one directory scan never exceed the
    budget of the request: the bytes of all inlined values and the budget that
    is left add up to the budget at the start. *)
Theorem scan_respects_inline_budget {H} `{HF : HostFiles H} `{HD : HostDirs H}
    sha256 b64_encode b64_decode major minor stable_node_id cfg dir parent options names
    (h h' : H) entries rest :
  0 ≤ DirectoryViewOptions.inline_xattr_total_size options →
  scan_entries sha256 b64_encode b64_decode major minor stable_node_id cfg dir parent options
    names (DirectoryViewOptions.inline_xattr_total_size options) [] h = (Ok (entries, rest), h') →
  scan_bytes entries + rest = DirectoryViewOptions.inline_xattr_total_size options ∧ 0 ≤ rest.
Proof.
  intros Hb Hrun. apply scan_entries_budget in Hrun as [? ?]; [|done]. simpl in *. lia.
Qed.

Lemma scan_respects_inline_budget_witness :
  ∃ entries rest h', scan_entries (λ b, b) (λ b, b) Some (λ d, d) (λ d, d) ex_stable LogHost.cfg
    1 [] DirectoryViewOptions.NATIVE [lit "f"]
    (DirectoryViewOptions.inline_xattr_total_size DirectoryViewOptions.NATIVE) []
    (LogHost.Mk [] [] 0) = (Ok (entries, rest), h') ∧ length entries = 1%nat ∧ 0 ≤ rest.
Proof.
  eexists _, _, _. split; [by vm_compute|]. split; [done|].
  eapply (scan_respects_inline_budget (λ b, b) (λ b, b) Some (λ d, d) (λ d, d) ex_stable
    LogHost.cfg 1 [] DirectoryViewOptions.NATIVE [lit "f"] (LogHost.Mk [] [] 0));
    [done|by vm_compute].
Defined.

(** * Contents *)

(** The range just written. *)
Lemma slice_written c o d : 0 ≤ o → slice (write_bytes c o d) o (zlen d) = d.
Proof.
  intros. destruct (decide (d = [])) as [->|Hne]; [done|].
  rewrite write_bytes_overwrite by done. unfold slice, overwrite, zlen.
  rewrite drop_app_length' by (by rewrite length_resize).
  by rewrite Nat2Z.id, take_app_length.
Qed.

(** [handle] is open for reading and positioned writing, as [opened]. *)
Definition open_for_positioned_io {H} (s : Session H) (handle : FileHandle) (opened : OpenFile) : Prop :=
  handles (session_nodes (nodes s)) !! handle = Some opened ∧
  OpenFile.append opened = false ∧ can_read (OpenFile.access opened) = true.

(** C40: Data written through a handle is the data read back: after a successful
    write of non-append mode, a read of the same range through the same handle
    returns exactly the bytes written, provided the host reads and writes as
    documented; and the write reports its length and the new file size. *)
Theorem write_read_roundtrip {H} `{HL : HostFilesLaws H} `{HD : HostDirs H} sha256 cfg
    (s s' : Session H) handle opened offset data length rev size :
  open_for_positioned_io s handle opened → 0 ≤ offset → zlen data ≤ Limits.max_read_size (limits cfg) →
  reliable H → zlen (file_data (host s') (OpenFile.file opened)) ≤ i64_max →
  write_owned sha256 cfg handle offset data s = (Ok (length, rev, size), s') →
  length = zlen data ∧
  size = zlen (file_data (host s') (OpenFile.file opened)) ∧
  ∃ rev', read sha256 cfg handle offset (zlen data) s' = (Ok (rev', data), s').
Proof.
  intros (Hh & Happ & Hread) Ho Hmax Hrel Hbig. unfold write_owned, open_handle, require_writable.
  sm_unfold. simpl. destruct (can_write cfg s); [|done].
  destruct (validate_request_range _ _ _) as [[]|] eqn:Hv; [|done]. simpl.
  rewrite Hh. simpl. destruct (negb _); [done|]. rewrite Happ.
  assert (offset + zlen data ≤ u64_max) as Hu.
  { unfold validate_request_range in Hv. destruct (validate_range _ _ _) as [[]|] eqn:Er; [|done].
    by apply validate_range_ok in Er as [_ ?]. }
  unfold sys. destruct (write_all_at_spec (host s) (OpenFile.file opened) offset data Ho Hu) as [_ Hw].
  destruct (write_all_at _ _ _ _ (host s)) as [[[]|e] h1]; simpl in *; [|done].
  destruct (fstat h1 (OpenFile.file opened)) as [st|e] eqn:Hst; simpl; [|done].
  apply law_fstat in Hst as [_ Hsize].
  intros [= <- <- <- <-]. simpl in Hbig. split_and!; [done|done|].
  unfold read, open_handle. sm_unfold. simpl.
  assert (validate_request_range offset (zlen data) (Limits.max_read_size (limits cfg)) = Ok tt)
    as -> by (unfold validate_request_range; by rewrite (proj2 (validate_range_ok _ _ _))).
  simpl. rewrite Hh. simpl. rewrite Hread. simpl.
  destruct (read_consistent_quiet sha256 h1 (OpenFile.file opened) offset (zlen data)) as [rev' ->];
    try done; [apply zlen_nonneg|].
  exists rev'. do 3 f_equal. rewrite Hw. by apply slice_written.
Qed.


(** A host without directories, for examples on open files. *)
Definition null_dirs (H : Type) : HostDirs H := {|
  dup_fd h _ := (Err Errno.NOSYS, h);
  openat h _ _ _ _ := (Err Errno.NOSYS, h);
  statat h _ _ := (Err Errno.NOSYS, h);
  read_dir _ _ := Err Errno.NOSYS;
  readlinkat h _ _ := (Err Errno.NOSYS, h);
  mkdirat h _ _ _ := (Err Errno.NOSYS, h);
  symlinkat h _ _ _ := (Err Errno.NOSYS, h);
  linkat h _ _ _ _ := (Err Errno.NOSYS, h);
  mknodat h _ _ _ _ _ _ := (Err Errno.NOSYS, h);
  unlinkat h _ _ _ := (Err Errno.NOSYS, h);
  renameat h _ _ _ _ _ := (Err Errno.NOSYS, h);
  chmodat h _ _ _ := (Err Errno.NOSYS, h);
  utimensat h _ _ _ _ := (Err Errno.NOSYS, h);
  birth_time _ _ := None;
  fchmod h _ _ := (Err (IoError.Os Errno.NOSYS), h);
  futimens h _ _ _ := (Err (IoError.Os Errno.NOSYS), h);
  fdatasync h _ := (Err (IoError.Os Errno.NOSYS), h);
  fallocate h _ _ _ := (Err Errno.NOSYS, h);
  lseek _ _ _ _ := Err Errno.NOSYS;
  flistxattr _ _ _ := Err Errno.NOSYS;
  fstatvfs _ _ := Err Errno.NOSYS;
  fork_lstat _ _ := Err (IoError.Os Errno.NOSYS);
  fork_stat _ _ := Err (IoError.Os Errno.NOSYS);
  fork_open h _ _ _ := (Err Errno.NOSYS, h);
  fork_unlink h _ := (Err (IoError.Os Errno.NOSYS), h)
|}.

Definition ex_handle : FileHandle := MkFileHandle 77.
Definition ex_opened : OpenFile :=
  OpenFile.Mk 10 (MkNodeId 3) (MkIdentity 1 1) FileAccess.ReadWrite false.
(** A session with one open file of three bytes. *)
Definition ex_session : Session MemFiles.Mem :=
  set_handles {[ ex_handle := ex_opened ]}
    (new_session LogHost.cfg LogHost.root_identity true (MemFiles.Mk {[ 1 := [1;2;3] ]} ∅)).

Lemma write_read_roundtrip_witness :
  match write_owned (λ b, b) LogHost.cfg ex_handle 5 [7;8;9] ex_session with
  | (Ok _, s') => ∃ rev', read (λ b, b) LogHost.cfg ex_handle 5 3 s' = (Ok (rev', [7;8;9]), s')
  | (Err _, _) => False
  end.
Proof.
  assert (is_ok (write_owned (λ b, b) LogHost.cfg ex_handle 5 [7;8;9] ex_session).1 = true) as Hok
    by (vm_compute; reflexivity).
  assert ((zlen (file_data (host (write_owned (λ b, b) LogHost.cfg ex_handle 5 [7;8;9]
    ex_session).2) 10) <=? i64_max) = true) as Hsz by (vm_compute; reflexivity).
  destruct (write_owned (λ b, b) LogHost.cfg ex_handle 5 [7;8;9] ex_session) as [r s1] eqn:E.
  destruct r as [[[len rev] size]|]; [|discriminate Hok].
  refine (proj2 (proj2 (write_read_roundtrip (HD := null_dirs MemFiles.Mem) (λ b, b) LogHost.cfg
    ex_session s1 ex_handle ex_opened 5 [7;8;9] len rev size _ _ _ MemFiles.mem_reliable _ E))).
  - split; [vm_compute; reflexivity|split; reflexivity].
  - lia.
  - vm_compute; discriminate.
  - by apply Z.leb_le.
Defined.

(** * Closing *)

(** The locks the connection [session] holds on the file [id]. *)
Definition owned_lock (session : Z) (id : FileIdentity) (record : LockRecord) : Prop :=
  LockRecord.session record = session ∧ LockRecord.identity record = id.

(** Closing a handle releases what it held and nothing else: the handle is
    gone, its permit is free again, this connection's locks on the file are
    removed, and every other handle and every other lock (of other connections,
    or on other files) stays. *)
Theorem close_releases {H} cfg (s s' : Session H) handle :
  close cfg handle s = (Ok tt, s') →
  ∃ opened,
    handles (session_nodes (nodes s)) !! handle = Some opened ∧
    handles (session_nodes (nodes s')) = delete handle (handles (session_nodes (nodes s))) ∧
    handle_permits s' = handle_permits s + 1 ∧
    (∀ record, record ∈ locks s' ↔
       record ∈ locks s ∧ ¬ owned_lock (session_id cfg) (OpenFile.identity opened) record) ∧
    registry (nodes s') = registry (nodes s) ∧ host s' = host s.
Proof.
  unfold close, open_handle. sm_unfold. simpl.
  destruct (handles (session_nodes (nodes s)) !! handle) as [opened|]; simpl; [|done].
  intros [= <-]. exists opened. split_and!; try done.
  intros record. simpl. rewrite elem_of_filter_list, negb_true_iff. split.
  - intros [Hin Hf]. split; [done|]. intros [E1 E2].
    by rewrite E1, E2, Z.eqb_refl, bool_decide_true in Hf.
  - intros [Hin Hn]. split; [done|]. apply andb_false_iff.
    destruct (Z.eqb_spec (LockRecord.session record) (session_id cfg)); [|by left].
    right. apply bool_decide_eq_false. unfold owned_lock in Hn. naive_solver.
Qed.

Lemma close_releases_witness :
  ∃ s', close LogHost.cfg ex_handle ex_session = (Ok tt, s') ∧
    handles (session_nodes (nodes s')) = delete ex_handle {[ ex_handle := ex_opened ]}.
Proof.
  eexists. split; [reflexivity|].
  edestruct (close_releases LogHost.cfg ex_session _ ex_handle eq_refl) as (o & _ & Hd & _).
  exact Hd.
Defined.
