(* ===== verification/Gates.v ===== *)
(** The gates of an export ([crates/server-core/src/lib.rs], [content_operation]
    and [append_operation]): read-write locks that order the operations on one
    file, of all connections.

    An operation finds the gates of its files, takes them one after the other,
    does its work on a blocking thread, and drops them.  Operations interleave in
    any order; an event is a step of one of them.  Waiting is in turn, as tokio's
    fair locks do.  An operation is dropped when its request ends early
    ([GaveUp]); then its guards are gone, but work that a thread has begun goes
    on ([Abandoned]).  Writes and attribute values run in a task of their own,
    which is not dropped. *)

From S2P Require Import Prelude Protocol Common Locks Registry.

(** * The tables of gates *)

(** [Ord] of [FileIdentity]. *)
Definition identity_lt (a b : FileIdentity) : bool :=
  (device a <? device b) || ((device a =? device b) && (inode a <? inode b)).
Definition identity_le (a b : FileIdentity) : bool := negb (identity_lt b a).

(** A map of [Weak] references; locks are named by numbers, [next] is new. *)
Record GateTable := MkGateTable { entries : gmap FileIdentity nat; next : nat }.

(** The body of [content_operation] and [append_operation]; [strong] tells
    whether a lock still has an owner. *)
Definition operation_of (max_total_known_nodes : Z) (strong : nat → bool) (i : FileIdentity) (t : GateTable)
    : nat * GateTable :=
  let create :=
    let kept :=
      if max_total_known_nodes <=? Z.of_nat (size (entries t)) then
        filter (λ e, strong e.2 = true) (entries t)
      else entries t in
    (next t, MkGateTable (<[i := next t]> kept) (S (next t))) in
  match entries t !! i with
  | Some gate => if strong gate then (gate, t) else create
  | None => create
  end.

(** * The state *)

(** What [OpenFile] holds for its operations. *)
Module Opened.
Record Opened := Mk {
  identity : FileIdentity;
  access : FileAccess;
  append : bool;
  operation_gate : nat;
  append_operation : nat
}.
End Opened.
Abbreviation Opened := Opened.Opened.

Inductive Gate := Content (n : nat) | Append (n : nat).
#[global] Instance Gate_eq_dec : EqDecision Gate.
Proof. solve_decision. Defined.

(** [read()] and [write()] of a [RwLock]; [lock()] of a mutex is exclusive. *)
Inductive GateMode := Shared | Exclusive.
#[global] Instance GateMode_eq_dec : EqDecision GateMode.
Proof. solve_decision. Defined.

(** A guard that an operation takes. *)
Module Guard.
Record Guard := Mk { gate : Gate; mode : GateMode; file : FileIdentity }.
End Guard.
Abbreviation Guard := Guard.Guard.

(** The operations on the content and the attributes of files: on handles (of
    any connection), on the identity of a node, and [exchange_data] on two
    nodes.  [SetNodeAttributes] is [set_attributes] without a handle and
    [OpenTruncate] the truncation in [open]; these two take no gate. *)
Module GatedOp.
Inductive GatedOp :=
  | Read (handle : nat)
  | SeekFile (handle : nat)
  | Write (handle : nat)
  | Sync (handle : nat)
  | Allocate (handle : nat)
  | SetAttributes (handle : nat) (resize : bool)
  | CopyFileRange (input output : nat)
  | GetXattr (snapshot : FileIdentity)
  | ListXattrs (snapshot : FileIdentity)
  | MapBlock (snapshot : FileIdentity)
  | SetXattr (snapshot : FileIdentity)
  | RemoveXattr (snapshot : FileIdentity)
  | ExchangeData (left right : NodeId * FileIdentity)
  | SetNodeAttributes (snapshot : FileIdentity)
  | OpenTruncate (snapshot : FileIdentity).
End GatedOp.
Abbreviation GatedOp := GatedOp.GatedOp.

(** Between two steps; in the queue of a gate; the closure runs; it runs without
    its guards. *)
Inductive Phase := Ready | Queued | Working | Abandoned.
#[global] Instance Phase_eq_dec : EqDecision Phase.
Proof. solve_decision. Defined.

(** A running operation: the open files it has cloned, the guards it takes in
    this order, and how many of them it has. *)
Module GatedTask.
Record GatedTask := Mk {
  op : GatedOp;
  opened : list Opened;
  guards : list Guard;
  held : nat;
  phase : Phase
}.
End GatedTask.
Abbreviation GatedTask := GatedTask.GatedTask.

(** [waiting] has the queued operations in the order of their arrival. *)
Record Gates := MkGates {
  content : GateTable;
  append : GateTable;
  open_files : gmap nat Opened;
  tasks : gmap nat GatedTask;
  waiting : list nat
}.

Definition no_gates : Gates := MkGates (MkGateTable ∅ 0) (MkGateTable ∅ 0) ∅ ∅ [].

(** ** Owners of locks *)

Definition guard_content (g : Guard) : list nat := match Guard.gate g with Content n => [n] | Append _ => [] end.
(** The guards of an abandoned operation are gone; its open files are not. *)
Definition task_contents (t : GatedTask) : list nat :=
  (Opened.operation_gate <$> GatedTask.opened t) ++
  (if decide (GatedTask.phase t = Abandoned) then [] else GatedTask.guards t ≫= guard_content).
Definition live_contents (s : Gates) : list nat :=
  (Opened.operation_gate <$> (map_to_list (open_files s)).*2) ++ ((map_to_list (tasks s)).*2 ≫= task_contents).
Definition live_appends (s : Gates) : list nat :=
  (Opened.append_operation <$> (map_to_list (open_files s)).*2) ++
  ((map_to_list (tasks s)).*2 ≫= λ t, Opened.append_operation <$> GatedTask.opened t).

Definition strong_in (live : list nat) (n : nat) : bool := bool_decide (n ∈ live).

(** [held] are locks that the caller itself owns already. *)
Definition content_operation (limit : Z) (held : list nat) (i : FileIdentity) (s : Gates) : nat * Gates :=
  let '(n, t) := operation_of limit (strong_in (held ++ live_contents s)) i (content s) in
  (n, MkGates t (append s) (open_files s) (tasks s) (waiting s)).
Definition append_operation (limit : Z) (i : FileIdentity) (s : Gates) : nat * Gates :=
  let '(n, t) := operation_of limit (strong_in (live_appends s)) i (append s) in
  (n, MkGates (content s) t (open_files s) (tasks s) (waiting s)).

(** * Events *)

Inductive GateEvent :=
  | FileOpened (handle : nat) (i : FileIdentity) (access : FileAccess) (append : bool)
  | FileClosed (handle : nat)
  | Started (t : nat) (op : GatedOp)
  | Asked (t : nat)
  | Granted (t : nat)
  | WorkBegan (t : nat)
  | Done (t : nat)
  | GaveUp (t : nat).

Section gates.
Context (limit : Z).

(** The end of [open] and of [create_file]. *)
Definition file_opened (handle : nat) (i : FileIdentity) (access : FileAccess) (append : bool) (s : Gates)
    : option Gates :=
  match open_files s !! handle with
  | Some _ => None
  | None =>
      let '(gate, s) := content_operation limit [] i s in
      let '(append_gate, s) := append_operation limit i s in
      Some (MkGates (content s) (Gates.append s)
        (<[handle := Opened.Mk i access append gate append_gate]> (open_files s)) (tasks s) (waiting s))
  end.

Definition file_closed (handle : nat) (s : Gates) : option Gates :=
  _ ← open_files s !! handle;
  Some (MkGates (content s) (append s) (delete handle (open_files s)) (tasks s) (waiting s)).

(** ** The start of an operation *)

Definition content_guard (mode : GateMode) (o : Opened) : Guard :=
  Guard.Mk (Content (Opened.operation_gate o)) mode (Opened.identity o).
Definition append_guard (o : Opened) : Guard :=
  Guard.Mk (Append (Opened.append_operation o)) Exclusive (Opened.identity o).

(** [open_handle] with the check of the access, and the guards for it. *)
Definition on_handle (allowed : FileAccess → bool) (guards : Opened → list Guard) (handle : nat) (s : Gates)
    : option (list Opened * list Guard * Gates) :=
  o ← open_files s !! handle;
  if allowed (Opened.access o) then Some ([o], guards o, s) else None.
(** [node_snapshot] and [content_operation]. *)
Definition on_node (mode : GateMode) (i : FileIdentity) (s : Gates) : option (list Opened * list Guard * Gates) :=
  let '(gate, s) := content_operation limit [] i s in
  Some ([], [Guard.Mk (Content gate) mode i], s).

Definition write_guards (o : Opened) : list Guard :=
  content_guard Shared o :: (if Opened.append o then [append_guard o] else []).

Definition copy_guards (input output : Opened) : list Guard :=
  let same_gate := bool_decide (Opened.operation_gate input = Opened.operation_gate output) in
  let '(first, second) :=
    if identity_le (Opened.identity input) (Opened.identity output) then (input, output) else (output, input) in
  content_guard Exclusive first :: (if same_gate then [] else [content_guard Exclusive second]).

(** The clones, the guards to take and the tables; [None] when the operation
    ends before it takes a gate or touches the file. *)
Definition begin (op : GatedOp) (s : Gates) : option (list Opened * list Guard * Gates) :=
  match op with
  | GatedOp.Read h | GatedOp.SeekFile h => on_handle can_read (λ o, [content_guard Shared o]) h s
  | GatedOp.Write h => on_handle can_write_access write_guards h s
  | GatedOp.Sync h => on_handle (λ _, true) (λ o, [content_guard Exclusive o]) h s
  | GatedOp.Allocate h => on_handle can_write_access (λ o, [content_guard Exclusive o]) h s
  | GatedOp.SetAttributes h resize =>
      on_handle (λ a, negb resize || can_write_access a) (λ o, [content_guard Exclusive o]) h s
  | GatedOp.CopyFileRange i o =>
      input ← open_files s !! i;
      output ← open_files s !! o;
      if can_read (Opened.access input) && can_write_access (Opened.access output) then
        Some ([input; output], copy_guards input output, s)
      else None
  | GatedOp.GetXattr i | GatedOp.ListXattrs i | GatedOp.MapBlock i => on_node Shared i s
  | GatedOp.SetXattr i | GatedOp.RemoveXattr i => on_node Exclusive i s
  | GatedOp.ExchangeData l r =>
      if bool_decide (l.1 = r.1) then None
      else
        let '(left_gate, s) := content_operation limit [] l.2 s in
        let '(right_gate, s) := content_operation limit [left_gate] r.2 s in
        let left_guard := Guard.Mk (Content left_gate) Exclusive l.2 in
        let right_guard := Guard.Mk (Content right_gate) Exclusive r.2 in
        Some ([], if identity_le l.2 r.2 then [left_guard; right_guard] else [right_guard; left_guard], s)
  | GatedOp.SetNodeAttributes _ | GatedOp.OpenTruncate _ => Some ([], [], s)
  end.

Definition with_tasks (f : gmap nat GatedTask → gmap nat GatedTask) (waiting : list nat) (s : Gates) : Gates :=
  MkGates (content s) (append s) (open_files s) (f (tasks s)) waiting.
Definition set_phase (held : nat) (p : Phase) (t : GatedTask) : GatedTask :=
  GatedTask.Mk (GatedTask.op t) (GatedTask.opened t) (GatedTask.guards t) held p.

Definition started (t : nat) (op : GatedOp) (s : Gates) : option Gates :=
  match tasks s !! t with
  | Some _ => None
  | None =>
      '(opened, guards, s) ← begin op s;
      Some (with_tasks (<[t := GatedTask.Mk op opened guards 0 Ready]>) (waiting s) s)
  end.

(** ** Guards *)

(** The guard that an operation takes next. *)
Definition wanted (t : GatedTask) : option Guard := GatedTask.guards t !! GatedTask.held t.
Definition holding (t : GatedTask) : list Guard := take (GatedTask.held t) (GatedTask.guards t).

Definition compatible (a b : Guard) : bool :=
  negb (bool_decide (Guard.gate a = Guard.gate b)) ||
  (bool_decide (Guard.mode a = Shared) && bool_decide (Guard.mode b = Shared)).

(** Who waits for this gate, in turn. *)
Definition queue_of (gate : Gate) (s : Gates) : list nat :=
  filter (λ t, (Guard.gate <$> (tasks s !! t ≫= wanted)) = Some gate) (waiting s).
(** No operation has a guard that excludes it; the one that asks counts too,
    since a lock is not given twice to one task. *)
Definition free_for (g : Guard) (s : Gates) : bool :=
  bool_decide (map_Forall (λ _ task, Forall (λ b, compatible g b = true) (holding task)) (tasks s)).

(** [gate.read().await] and the like: into the queue, ... *)
Definition asked (t : nat) (s : Gates) : option Gates :=
  task ← tasks s !! t;
  _ ← wanted task;
  if decide (GatedTask.phase task = Ready) then
    Some (with_tasks (<[t := set_phase (GatedTask.held task) Queued task]>) (waiting s ++ [t]) s)
  else None.
(** ... and the guard, for the first in the queue when no one has it who
    excludes it. *)
Definition granted (t : nat) (s : Gates) : option Gates :=
  task ← tasks s !! t;
  g ← wanted task;
  if decide (GatedTask.phase task = Queued) then
    if bool_decide (head (queue_of (Guard.gate g) s) = Some t) && free_for g s then
      Some (with_tasks (<[t := set_phase (S (GatedTask.held task)) Ready task]>)
        (filter (λ u, u ≠ t) (waiting s)) s)
    else None
  else None.

(** [blocking]: the closure runs, and ends. *)
Definition work_began (t : nat) (s : Gates) : option Gates :=
  task ← tasks s !! t;
  if decide (GatedTask.phase task = Ready ∧ wanted task = None) then
    Some (with_tasks (<[t := set_phase (GatedTask.held task) Working task]>) (waiting s) s)
  else None.
Definition finished (t : nat) (s : Gates) : option Gates :=
  task ← tasks s !! t;
  match GatedTask.phase task with
  | Working | Abandoned => Some (with_tasks (delete t) (waiting s) s)
  | _ => None
  end.

(** The operations that go on when their request is dropped: the daemon's arms
    for writes and attribute values run them in a task of their own, and [open]
    truncates without awaiting anything. *)
Definition spawned (op : GatedOp) : bool :=
  match op with GatedOp.Write _ | GatedOp.SetXattr _ | GatedOp.OpenTruncate _ => true | _ => false end.

(** The request's future is dropped. *)
Definition gave_up (t : nat) (s : Gates) : option Gates :=
  task ← tasks s !! t;
  if spawned (GatedTask.op task) then None
  else
    match GatedTask.phase task with
    | Abandoned => None
    | Working => Some (with_tasks (<[t := set_phase 0 Abandoned task]>) (waiting s) s)
    | _ => Some (with_tasks (delete t) (filter (λ u, u ≠ t) (waiting s)) s)
    end.

Definition gate_step (e : GateEvent) (s : Gates) : option Gates :=
  match e with
  | FileOpened h i access append => file_opened h i access append s
  | FileClosed h => file_closed h s
  | Started t op => started t op s
  | Asked t => asked t s
  | Granted t => granted t s
  | WorkBegan t => work_began t s
  | Done t => finished t s
  | GaveUp t => gave_up t s
  end.

Fixpoint run_gates (events : list GateEvent) (s : Gates) : option Gates :=
  match events with
  | [] => Some s
  | e :: events' => s' ← gate_step e s; run_gates events' s'
  end.
End gates.
