(* ===== verification/GatesFacts.v ===== *)
(** The gates of an export: one lock for each file in use, exclusion, and
    progress; and what they do not exclude: operations that were given up
    ([abandoned_operation_overlaps]) and the two that take no gate
    ([ungated_change_overlaps]). *)

From S2P Require Import Prelude Protocol Common Locks Registry Gates.

(** * The order of identities and of guards *)

Lemma identity_lt_irrefl a : identity_lt a a = false.
Proof. unfold identity_lt. rewrite !Z.ltb_irrefl. by rewrite andb_false_r. Qed.
Lemma identity_lt_trans a b c : identity_lt a b = true → identity_lt b c = true → identity_lt a c = true.
Proof. unfold identity_lt. rewrite !orb_true_iff, !andb_true_iff, !Z.ltb_lt, !Z.eqb_eq. lia. Qed.
Lemma identity_lt_total a b : a ≠ b → identity_lt a b = true ∨ identity_lt b a = true.
Proof.
  unfold identity_lt. rewrite !orb_true_iff, !andb_true_iff, !Z.ltb_lt, !Z.eqb_eq.
  destruct a as [d i], b as [d' i']. simpl. intros Hne.
  destruct (decide (d = d')) as [->|]; [|lia]. destruct (decide (i = i')) as [->|]; [done|lia].
Qed.

(** The order in which operations take their guards: gates by the identity of
    their files, then the locks of appends. *)
Definition below (a b : Guard) : bool :=
  match Guard.gate a, Guard.gate b with
  | Content _, Append _ => true
  | Append _, Content _ => false
  | _, _ => identity_lt (Guard.file a) (Guard.file b)
  end.

Lemma below_irrefl a : below a a = false.
Proof. unfold below. destruct (Guard.gate a); apply identity_lt_irrefl. Qed.
Lemma below_trans a b c : below a b = true → below b c = true → below a c = true.
Proof. unfold below. destruct (Guard.gate a), (Guard.gate b), (Guard.gate c); try done; apply identity_lt_trans. Qed.

Lemma exists_maximal {A} (R : A → A → bool) (l : list A) :
  (∀ a, R a a = false) → (∀ a b c, R a b = true → R b c = true → R a c = true) → l ≠ [] →
  ∃ a, a ∈ l ∧ ∀ b, b ∈ l → R a b = false.
Proof.
  intros Hirr Htr. induction l as [|a l IH]; [done|]. intros _. destruct (decide (l = [])) as [->|Hl].
  - exists a. split; [by left|]. intros b Hb. apply list_elem_of_singleton in Hb as ->. apply Hirr.
  - destruct (IH Hl) as (m & Hm & Hmax). destruct (R m a) eqn:E.
    + exists a. split; [by left|]. intros b [->|Hb]%elem_of_cons; [apply Hirr|]. apply not_true_iff_false.
      intros Hab. pose proof (Htr _ _ _ E Hab) as Hmb. by rewrite (Hmax b Hb) in Hmb.
    + exists m. split; [by right|]. intros b [->|Hb]%elem_of_cons; [done|auto].
Qed.

Lemma sorted_before {A} (R : A → A → Prop) l i a b :
  StronglySorted R l → l !! i = Some b → a ∈ take i l → R a b.
Proof.
  intros Hs. revert i. induction Hs as [|x l Hs IH Hx]; intros [|i] Hb Ha; simpl in *; try done.
  - by apply not_elem_of_nil in Ha.
  - apply elem_of_cons in Ha as [->|Ha]; [|by eapply IH]. rewrite Forall_forall in Hx.
    apply Hx. by eapply list_elem_of_lookup_2.
Qed.

(** * Tables *)

(** The table answers for every lock in use, and not the same for two files. *)
Record table_ok (used : nat → FileIdentity → Prop) (t : GateTable) : Prop := {
  tk_used : ∀ n i, used n i → entries t !! i = Some n;
  tk_inj : ∀ i j n, entries t !! i = Some n → entries t !! j = Some n → i = j;
  tk_next : ∀ i n, entries t !! i = Some n → (n < next t)%nat
}.

Lemma table_ok_weaken used used' t :
  table_ok used t → (∀ n i, used' n i → used n i) → table_ok used' t.
Proof. intros [] Hu. split; auto. Qed.

Lemma operation_of_ok limit strong used i t n t' :
  table_ok used t → (∀ m j, used m j → strong m = true) → operation_of limit strong i t = (n, t') →
  table_ok (λ m j, used m j ∨ (m = n ∧ j = i)) t'.
Proof.
  intros [Hu Hi Hn] Hs. unfold operation_of.
  set (kept := if limit <=? _ then _ else _).
  assert (∀ j m, kept !! j = Some m → entries t !! j = Some m) as Hsub.
  { intros j m. subst kept. destruct (limit <=? _); [|done]. by intros [? _]%map_lookup_filter_Some. }
  assert (∀ j m, entries t !! j = Some m → strong m = true → kept !! j = Some m) as Hkeep.
  { intros j m. subst kept. destruct (limit <=? _); [|done]. intros ? ?. by apply map_lookup_filter_Some. }
  clearbody kept.
  assert (∀ n t', (∀ m, entries t !! i = Some m → strong m = false) →
    (next t, MkGateTable (<[i:=next t]> kept) (S (next t))) = (n, t') →
    table_ok (λ m j, used m j ∨ (m = n ∧ j = i)) t') as Hcreate.
  { intros m' t'' Hdead [= <- <-]. split; simpl.
    - intros m j [Hm|[-> ->]]; [|apply lookup_insert_eq]. rewrite lookup_insert_ne; [eauto|].
      intros ->. pose proof (Hdead _ (Hu _ _ Hm)) as Hd. by rewrite (Hs _ _ Hm) in Hd.
    - intros j k m [[<- <-]|[_ Hj]]%lookup_insert_Some [[<- E]|[_ Hk]]%lookup_insert_Some; [done| | |by eapply Hi; apply Hsub].
      + apply Hsub, Hn in Hk. lia.
      + subst. apply Hsub, Hn in Hj. lia.
    - intros j m [[<- <-]|[_ Hj]]%lookup_insert_Some; [lia|]. apply Hsub, Hn in Hj. lia. }
  destruct (entries t !! i) as [m|] eqn:E; [|by apply Hcreate].
  destruct (strong m) eqn:Em; [|apply Hcreate; by intros ? [= <-]].
  intros [= <- <-]. split; [|done..]. intros k j [?|[-> ->]]; auto.
Qed.

(** The table stays within the limit unless more locks than that are in use. *)
Lemma operation_of_bounded limit live used i t :
  table_ok used t →
  Z.of_nat (size (entries (operation_of limit (strong_in live) i t).2)) ≤
    Z.max (Z.of_nat (size (entries t))) (Z.max limit (Z.of_nat (length live) + 1)).
Proof.
  intros [_ Hi _]. unfold operation_of. set (kept := if limit <=? _ then _ else _).
  assert (Z.of_nat (size (<[i := next t]> kept)) ≤ Z.max limit (Z.of_nat (length live) + 1)) as Hb.
  { assert (Z.of_nat (size kept) + 1 ≤ Z.max limit (Z.of_nat (length live) + 1)) as Hk.
    { subst kept. destruct (limit <=? _) eqn:E; [|lia]. set (m := filter _ _).
      assert (NoDup (map_to_list m).*2) as Hnd.
      { apply (NoDup_fmap_2_strong snd); [|apply NoDup_map_to_list].
        intros [j n] [j' n'] [Hj _]%elem_of_map_to_list%map_lookup_filter_Some
          [Hj' _]%elem_of_map_to_list%map_lookup_filter_Some En. simpl in *. subst n'. f_equal. eauto. }
      assert ((map_to_list m).*2 ⊆ live) as Hsub.
      { intros n ((j & n') & -> & [_ Hs]%elem_of_map_to_list%map_lookup_filter_Some)%list_elem_of_fmap. simpl in *.
        by apply bool_decide_eq_true_1 in Hs. }
      pose proof (submseteq_length _ _ (NoDup_submseteq _ _ Hnd Hsub)) as Hlen. rewrite length_fmap in Hlen.
      rewrite length_map_to_list in Hlen. lia. }
    rewrite map_size_insert. destruct (kept !! i); simpl; lia. }
  destruct (entries t !! i) as [n|]; [destruct (strong_in live n)|]; simpl; lia.
Qed.

(** * The invariant *)

(** The locks in use, and the files they belong to. *)
Definition opened_contents (l : list Opened) (n : nat) (i : FileIdentity) : Prop :=
  ∃ o, o ∈ l ∧ Opened.operation_gate o = n ∧ Opened.identity o = i.
Definition opened_appends (l : list Opened) (n : nat) (i : FileIdentity) : Prop :=
  ∃ o, o ∈ l ∧ Opened.append_operation o = n ∧ Opened.identity o = i.
Definition guarded (l : list Guard) (n : nat) (i : FileIdentity) : Prop :=
  ∃ g, g ∈ l ∧ Guard.gate g = Content n ∧ Guard.file g = i.

Definition task_uses (t : GatedTask) (n : nat) (i : FileIdentity) : Prop :=
  opened_contents (GatedTask.opened t) n i ∨ (GatedTask.phase t ≠ Abandoned ∧ guarded (GatedTask.guards t) n i).
Definition used_contents (s : Gates) (n : nat) (i : FileIdentity) : Prop :=
  (∃ h o, open_files s !! h = Some o ∧ opened_contents [o] n i) ∨ ∃ t task, tasks s !! t = Some task ∧ task_uses task n i.
Definition used_appends (s : Gates) (n : nat) (i : FileIdentity) : Prop :=
  (∃ h o, open_files s !! h = Some o ∧ opened_appends [o] n i) ∨
  ∃ t task, tasks s !! t = Some task ∧ opened_appends (GatedTask.opened task) n i.

Lemma used_contents_live s n i : used_contents s n i → n ∈ live_contents s.
Proof.
  unfold live_contents. rewrite elem_of_app, list_elem_of_fmap, list_elem_of_bind.
  intros [(h & o & Hh & o' & ->%list_elem_of_singleton & <- & _)|(t & task & Ht & Hu)].
  - left. exists o. split; [done|]. apply list_elem_of_fmap. exists (h, o). by rewrite elem_of_map_to_list.
  - right. exists task. split; [|apply list_elem_of_fmap; exists (t, task); by rewrite elem_of_map_to_list].
    unfold task_contents. apply elem_of_app. destruct Hu as [(o & Ho & <- & _)|(Hp & g & Hg & En & _)].
    + left. apply list_elem_of_fmap. eauto.
    + right. rewrite decide_False by done. apply list_elem_of_bind. exists g. split; [|done].
      unfold guard_content. rewrite En. by left.
Qed.

Lemma used_appends_live s n i : used_appends s n i → n ∈ live_appends s.
Proof.
  unfold live_appends. rewrite elem_of_app, list_elem_of_fmap, list_elem_of_bind.
  intros [(h & o & Hh & o' & ->%list_elem_of_singleton & <- & _)|(t & task & Ht & o & Ho & <- & _)].
  - left. exists o. split; [done|]. apply list_elem_of_fmap. exists (h, o). by rewrite elem_of_map_to_list.
  - right. exists task. split; [|apply list_elem_of_fmap; exists (t, task); by rewrite elem_of_map_to_list].
    apply list_elem_of_fmap. eauto.
Qed.

(** The files that an operation works on, changing their content or not, and
    those that it appends to. *)
Definition touches (op : GatedOp) (opened : list Opened) : list (FileIdentity * GateMode) :=
  match op with
  | GatedOp.Read _ | GatedOp.SeekFile _ | GatedOp.Write _ => (λ o, (Opened.identity o, Shared)) <$> opened
  | GatedOp.Sync _ | GatedOp.Allocate _ | GatedOp.SetAttributes _ _ | GatedOp.CopyFileRange _ _ =>
      (λ o, (Opened.identity o, Exclusive)) <$> opened
  | GatedOp.GetXattr i | GatedOp.ListXattrs i | GatedOp.MapBlock i => [(i, Shared)]
  | GatedOp.SetXattr i | GatedOp.RemoveXattr i => [(i, Exclusive)]
  | GatedOp.ExchangeData l r => [(l.2, Exclusive); (r.2, Exclusive)]
  | GatedOp.SetNodeAttributes i | GatedOp.OpenTruncate i => [(i, Exclusive)]
  end.
(** The operations that take gates. *)
Definition gated (op : GatedOp) : Prop :=
  match op with GatedOp.SetNodeAttributes _ | GatedOp.OpenTruncate _ => False | _ => True end.
Definition appends_to (op : GatedOp) (opened : list Opened) : list FileIdentity :=
  match op with
  | GatedOp.Write _ => Opened.identity <$> filter (λ o, Opened.append o = true) opened
  | _ => []
  end.

Definition covers (op : GatedOp) (opened : list Opened) (guards : list Guard) : Prop :=
  (gated op → ∀ i m, (i, m) ∈ touches op opened → ∃ n, Guard.Mk (Content n) m i ∈ guards) ∧
  (∀ i, i ∈ appends_to op opened → ∃ n, Guard.Mk (Append n) Exclusive i ∈ guards).

Record task_ok (t : GatedTask) : Prop := {
  gt_held : (GatedTask.held t ≤ length (GatedTask.guards t))%nat;
  gt_covers : covers (GatedTask.op t) (GatedTask.opened t) (GatedTask.guards t);
  gt_order : StronglySorted (λ a b, below a b = true) (GatedTask.guards t);
  gt_appends : ∀ g n, g ∈ GatedTask.guards t → Guard.gate g = Append n →
    Guard.mode g = Exclusive ∧ opened_appends (GatedTask.opened t) n (Guard.file g);
  gt_queued : GatedTask.phase t = Queued → is_Some (wanted t);
  gt_working : GatedTask.phase t = Working → wanted t = None;
  gt_abandoned : GatedTask.phase t = Abandoned → GatedTask.held t = 0%nat
}.

Record gates_ok (s : Gates) : Prop := {
  go_contents : table_ok (used_contents s) (content s);
  go_appends : table_ok (used_appends s) (append s);
  go_tasks : map_Forall (λ _, task_ok) (tasks s);
  go_waiting : ∀ t, t ∈ waiting s ↔ ∃ task, tasks s !! t = Some task ∧ GatedTask.phase task = Queued;
  go_excluded : ∀ t u task task' a b, tasks s !! t = Some task → tasks s !! u = Some task' → t ≠ u →
    a ∈ holding task → b ∈ holding task' → compatible a b = true
}.

Lemma compatible_comm a b : compatible a b = compatible b a.
Proof. unfold compatible. repeat case_bool_decide; simpl; congruence. Qed.

(** A task that is there takes a step. *)
Lemma gates_ok_task s t task held p w :
  gates_ok s → tasks s !! t = Some task → GatedTask.phase task ≠ Abandoned →
  let task' := set_phase held p task in
  task_ok task' →
  (∀ u, u ∈ w ↔ (u = t ∧ p = Queued) ∨ (u ≠ t ∧ u ∈ waiting s)) →
  (∀ u other a b, tasks s !! u = Some other → u ≠ t → a ∈ holding task' → b ∈ holding other → compatible a b = true) →
  gates_ok (with_tasks (<[t := task']>) w s).
Proof.
  intros [Hc Ha Ht Hw He] Htask Hp task' Hok Hwait Hexcl. split; cbn [with_tasks content append tasks waiting].
  - eapply table_ok_weaken; [exact Hc|]. intros n i [?|(u & other & Hu & Huses)]; [by left|]. right. simpl in Hu.
    apply lookup_insert_Some in Hu as [[<- <-]|[_ Hu]]; [|by exists u, other]. exists t, task. split; [done|].
    destruct Huses as [?|[_ ?]]; [by left|]. by right.
  - eapply table_ok_weaken; [exact Ha|]. intros n i [?|(u & other & Hu & Huses)]; [by left|]. right. simpl in Hu.
    apply lookup_insert_Some in Hu as [[<- <-]|[_ Hu]]; [|by exists u, other]. by exists t, task.
  - by apply map_Forall_insert_2.
  - intros u. rewrite Hwait, Hw. setoid_rewrite lookup_insert_Some. split.
    + intros [[-> ->]|[Hne (other & Hu & Hq)]]; [exists task'; by split; [left|]|].
      exists other. by split; [right|].
    + intros (other & [[<- <-]|[Hne Hu]] & Hq); [by left|]. right. split; [done|]. eauto.
  - intros u v x y a b [[<- <-]|[Hu Hx]]%lookup_insert_Some [[<- <-]|[Hv Hy]]%lookup_insert_Some Hne Hina Hinb;
      [done|exact (Hexcl _ _ _ _ Hy (not_eq_sym Hv) Hina Hinb)| |exact (He _ _ _ _ _ _ Hx Hy Hne Hina Hinb)].
    rewrite compatible_comm. exact (Hexcl _ _ _ _ Hx (not_eq_sym Hu) Hinb Hina).
Qed.

(** A task goes, or a file is closed: less is used. *)
Lemma gates_ok_delete s t w :
  gates_ok s → (∀ u, u ∈ w ↔ u ≠ t ∧ u ∈ waiting s) → gates_ok (with_tasks (delete t) w s).
Proof.
  intros [Hc Ha Ht Hw He] Hwait. split; cbn [with_tasks content append tasks waiting].
  - eapply table_ok_weaken; [exact Hc|]. intros n i [?|(u & other & Hu & Huses)]; [by left|].
    simpl in Hu. apply lookup_delete_Some in Hu as [_ Hu]. right. by exists u, other.
  - eapply table_ok_weaken; [exact Ha|]. intros n i [?|(u & other & Hu & Huses)]; [by left|].
    simpl in Hu. apply lookup_delete_Some in Hu as [_ Hu]. right. by exists u, other.
  - by apply map_Forall_delete.
  - intros u. rewrite Hwait, Hw. setoid_rewrite lookup_delete_Some. naive_solver.
  - intros u v x y a b [_ Hx]%lookup_delete_Some [_ Hy]%lookup_delete_Some. exact (He _ _ _ _ _ _ Hx Hy).
Qed.

Lemma file_closed_ok h s s' : file_closed h s = Some s' → gates_ok s → gates_ok s'.
Proof.
  unfold file_closed. destruct (open_files s !! h) as [o|]; [|done]. intros [= <-] [Hc Ha Ht Hw He].
  split; cbn [content append tasks waiting]; [| |done..].
  - eapply table_ok_weaken; [exact Hc|]. intros n i [(j & o' & Hj & Hu)|?]; [|by right].
    simpl in Hj. apply lookup_delete_Some in Hj as [_ Hj]. left. by exists j, o'.
  - eapply table_ok_weaken; [exact Ha|]. intros n i [(j & o' & Hj & Hu)|?]; [|by right].
    simpl in Hj. apply lookup_delete_Some in Hj as [_ Hj]. left. by exists j, o'.
Qed.

(** ** The start of an operation *)

Section start.
Context (limit : Z).

(** A state with its table replaced, in which [more] is used too. *)
Lemma content_operation_ok held i s n s' more :
  table_ok (λ m j, used_contents s m j ∨ more m j) (content s) → (∀ m j, more m j → m ∈ held) →
  content_operation limit held i s = (n, s') →
  table_ok (λ m j, used_contents s m j ∨ more m j ∨ (m = n ∧ j = i)) (content s') ∧
  append s' = append s ∧ open_files s' = open_files s ∧ tasks s' = tasks s ∧ waiting s' = waiting s.
Proof.
  intros Ht Hh. unfold content_operation. destruct (operation_of _ _ _ _) as [m t] eqn:E. intros [= <- <-].
  split; [|done]. eapply table_ok_weaken; [eapply operation_of_ok; [exact Ht| |exact E]|].
  - intros k j Hu. apply bool_decide_eq_true_2, elem_of_app. destruct Hu as [Hu|Hu]; [right|left; eauto].
    by eapply used_contents_live.
  - intros k j. cbn [content]. tauto.
Qed.

Lemma used_same s s' : open_files s' = open_files s → tasks s' = tasks s →
  (∀ n i, used_contents s' n i ↔ used_contents s n i) ∧ (∀ n i, used_appends s' n i ↔ used_appends s n i).
Proof. intros Ho Ht. unfold used_contents, used_appends. by rewrite Ho, Ht. Qed.

(** An identifier of a node other than the root is a function of its identity
    ([registry_maps]). *)
Context (stable_node_id : FileIdentity → NodeId).
Definition wf_gated (op : GatedOp) : Prop :=
  match op with
  | GatedOp.ExchangeData l r => l.1 = stable_node_id l.2 ∧ r.1 = stable_node_id r.2
  | _ => True
  end.

(** What an operation that starts brings with it. *)
Record begun_ok (s s' : Gates) (opened : list Opened) (guards : list Guard) : Prop := {
  bo_same : append s' = append s ∧ open_files s' = open_files s ∧ tasks s' = tasks s ∧ waiting s' = waiting s;
  bo_opened : ∀ o, o ∈ opened → ∃ h, open_files s !! h = Some o;
  bo_table : table_ok (λ n i, used_contents s n i ∨ guarded guards n i) (content s');
  bo_order : StronglySorted (λ a b, below a b = true) guards;
  bo_appends : ∀ g n, g ∈ guards → Guard.gate g = Append n →
    Guard.mode g = Exclusive ∧ opened_appends opened n (Guard.file g)
}.

Lemma open_used s h o n i : open_files s !! h = Some o → opened_contents [o] n i → used_contents s n i.
Proof. intros Hh Ho. left. by exists h, o. Qed.

(** Guards of files that are open need no new lock. *)
Lemma begun_on_handles s opened guards :
  gates_ok s → (∀ o, o ∈ opened → ∃ h, open_files s !! h = Some o) →
  (∀ g n, g ∈ guards → Guard.gate g = Content n → opened_contents opened n (Guard.file g)) →
  (∀ g n, g ∈ guards → Guard.gate g = Append n → Guard.mode g = Exclusive ∧ opened_appends opened n (Guard.file g)) →
  StronglySorted (λ a b, below a b = true) guards → begun_ok s s opened guards.
Proof.
  intros Hs Ho Hc Ha Hsort. split; try done. eapply table_ok_weaken; [apply Hs|].
  intros n i [?|(g & Hg & En & <-)]; [done|]. destruct (Hc _ _ Hg En) as (o & Hin & En' & Ei).
  destruct (Ho o Hin) as [h Hh]. eapply open_used; [exact Hh|]. exists o. by split; [left|].
Qed.

Lemma on_handle_ok allowed f h s opened guards s' :
  gates_ok s → (∀ o, f o = [content_guard Shared o] ∨ f o = [content_guard Exclusive o] ∨ f o = write_guards o) →
  on_handle allowed f h s = Some (opened, guards, s') → begun_ok s s' opened guards.
Proof.
  intros Hs Hf. unfold on_handle. destruct (open_files s !! h) as [o|] eqn:Hh; [|done]. cbn [mbind option_bind].
  destruct (allowed _); [|done]. intros [= <- <- <-]. unfold write_guards in Hf.
  assert (f o = [content_guard Shared o] ∨ f o = [content_guard Exclusive o] ∨
    f o = [content_guard Shared o; append_guard o]) as Hfo.
  { destruct (Hf o) as [?|[?|E]]; [by left|by right; left|]. destruct (Opened.append o); auto. }
  clear Hf. apply begun_on_handles; [done|..].
  - intros o' ->%list_elem_of_singleton. by exists h.
  - intros g n Hg En. exists o. split; [by left|].
    destruct Hfo as [E|[E|E]]; rewrite E in Hg; repeat (apply elem_of_cons in Hg as [->|Hg]);
      try (by apply not_elem_of_nil in Hg); simpl in En; simplify_eq; done.
  - intros g n Hg En. destruct Hfo as [E|[E|E]]; rewrite E in Hg; repeat (apply elem_of_cons in Hg as [->|Hg]);
      try (by apply not_elem_of_nil in Hg); simpl in En; simplify_eq. split; [done|]. exists o. by split; [left|].
  - destruct Hfo as [->|[->| ->]]; repeat constructor.
Qed.

Lemma on_node_ok mode i s opened guards s' :
  gates_ok s → on_node limit mode i s = Some (opened, guards, s') → begun_ok s s' opened guards.
Proof.
  intros Hs. unfold on_node. destruct (content_operation limit [] i s) as [n s1] eqn:E. intros [= <- <- <-].
  apply (content_operation_ok [] i s n s1 (λ _ _, False)) in E as (Ht & Hsame); [| |done].
  - split; try done.
    + by intros o ?%not_elem_of_nil.
    + eapply table_ok_weaken; [exact Ht|]. intros m j [?|(g & ->%list_elem_of_singleton & [= <-] & <-)]; [by left|].
      right. by right.
    + repeat constructor.
    + by intros g m ->%list_elem_of_singleton.
  - eapply table_ok_weaken; [apply Hs|]. tauto.
Qed.

Lemma identity_le_lt a b : a ≠ b → if identity_le a b then identity_lt a b = true else identity_lt b a = true.
Proof.
  intros Hne. unfold identity_le. destruct (identity_lt b a) eqn:E; simpl; [done|].
  destruct (identity_lt_total a b Hne) as [?|?]; congruence.
Qed.

Lemma copy_guards_ok s h h' input output :
  gates_ok s → open_files s !! h = Some input → open_files s !! h' = Some output →
  begun_ok s s [input; output] (copy_guards input output).
Proof.
  intros Hs Hi Ho.
  assert (∀ h o, open_files s !! h = Some o → entries (content s) !! Opened.identity o = Some (Opened.operation_gate o)) as Hent.
  { intros k o Hk. apply (tk_used _ _ (go_contents _ Hs)). eapply open_used; [exact Hk|]. exists o. by split; [left|]. }
  apply begun_on_handles; [done|..].
  - intros o [->|[->|[]%not_elem_of_nil]%elem_of_cons]%elem_of_cons; eauto.
  - intros g n. unfold copy_guards. destruct (identity_le _ _), (bool_decide _); cbn [fst snd];
      rewrite ?elem_of_cons, elem_of_nil; unfold opened_contents; setoid_rewrite elem_of_cons; setoid_rewrite elem_of_cons;
      intros Hg En; destruct_or! Hg; try done; subst g; simpl in *; simplify_eq; eauto 8.
  - intros g n. unfold copy_guards. destruct (identity_le _ _), (bool_decide _); cbn [fst snd];
      rewrite ?elem_of_cons, elem_of_nil; intros Hg En; destruct_or! Hg; try done; by subst g.
  - unfold copy_guards. case_bool_decide as Eg; [destruct (identity_le _ _); repeat constructor|].
    assert (Opened.identity input ≠ Opened.identity output) as Hne.
    { intros E. apply Eg. pose proof (Hent _ _ Hi) as H1. pose proof (Hent _ _ Ho) as H2. rewrite E in H1. congruence. }
    apply identity_le_lt in Hne. destruct (identity_le _ _); repeat constructor; done.
Qed.

Lemma exchange_ok l r s opened guards s' :
  gates_ok s → wf_gated (GatedOp.ExchangeData l r) → begin limit (GatedOp.ExchangeData l r) s = Some (opened, guards, s') →
  begun_ok s s' opened guards.
Proof.
  intros Hs [Hl Hr]. simpl. case_bool_decide as Hne; [done|].
  assert (l.2 ≠ r.2) as Hne' by congruence. apply identity_le_lt in Hne'.
  destruct (content_operation limit [] l.2 s) as [n s1] eqn:E1. destruct (content_operation limit [n] r.2 s1) as [m s2] eqn:E2.
  intros [= <- <- <-].
  apply (content_operation_ok [] l.2 s n s1 (λ _ _, False)) in E1 as (H1 & Ha1 & Ho1 & Ht1 & Hw1); [| |done].
  2: { eapply table_ok_weaken; [apply Hs|]. tauto. }
  destruct (used_same s s1) as [Hu _]; [done..|].
  apply (content_operation_ok [n] r.2 s1 m s2 (λ k j, k = n ∧ j = l.2)) in E2 as (H2 & Ha2 & Ho2 & Ht2 & Hw2).
  - split; [split_and!; congruence|by intros o ?%not_elem_of_nil| | |].
    + eapply table_ok_weaken; [exact H2|]. intros k j; cbv beta; rewrite Hu. intros [?|(g & Hg & En & <-)]; [by left|]. right.
      destruct (identity_le _ _); apply elem_of_cons in Hg as [ -> | ->%list_elem_of_singleton ]; injection En as <-; auto.
    + destruct (identity_le _ _); repeat constructor; done.
    + intros g k Hg En. destruct (identity_le _ _); apply elem_of_cons in Hg as [ -> | ->%list_elem_of_singleton ]; done.
  - eapply table_ok_weaken; [exact H1|]. intros k j; cbv beta; rewrite Hu. tauto.
  - intros k j [-> _]. by left.
Qed.

Lemma begun_on_nothing s : gates_ok s → begun_ok s s [] [].
Proof. intros Hs. apply begun_on_handles; [done|..|constructor]; by intros ? ?%not_elem_of_nil || intros ? ? ?%not_elem_of_nil. Qed.

Lemma begin_ok op s opened guards s' :
  gates_ok s → wf_gated op → begin limit op s = Some (opened, guards, s') → begun_ok s s' opened guards.
Proof.
  intros Hs Hwf. destruct op; simpl; try (by apply on_node_ok); try (by apply on_handle_ok; auto).
  - destruct (open_files s !! input) as [i|] eqn:Hi; [|done]. cbn [mbind option_bind].
    destruct (open_files s !! output) as [o|] eqn:Ho; [|done]. cbn [mbind option_bind].
    destruct (_ && _); [|done]. intros [= <- <- <-]. by eapply copy_guards_ok.
  - by apply exchange_ok.
  - intros [= <- <- <-]. by apply begun_on_nothing.
  - intros [= <- <- <-]. by apply begun_on_nothing.
Qed.

Lemma on_handle_inv allowed f h s opened guards s' :
  on_handle allowed f h s = Some (opened, guards, s') → ∃ o, opened = [o] ∧ guards = f o.
Proof.
  unfold on_handle. destruct (open_files s !! h) as [o|]; [|done]. cbn [mbind option_bind].
  destruct (allowed _); [|done]. intros [= <- <- <-]. by exists o.
Qed.

Lemma on_node_inv mode i s opened guards s' :
  on_node limit mode i s = Some (opened, guards, s') → ∃ n, guards = [Guard.Mk (Content n) mode i].
Proof. unfold on_node. destruct (content_operation _ _ _ _) as [n s1]. intros [= <- <- <-]. by exists n. Qed.

Lemma begin_covers op s opened guards s' :
  gates_ok s → begin limit op s = Some (opened, guards, s') → covers op opened guards.
Proof.
  intros Hs. destruct op; simpl;
    try (intros (o & -> & ->)%on_handle_inv; split;
         [intros _ i m [= -> ->]%list_elem_of_singleton; eexists; by left|simpl; try (by intros i ?%not_elem_of_nil)]);
    try (intros [n ->]%on_node_inv; split;
         [intros _ i m [= -> ->]%list_elem_of_singleton; exists n; by left|by intros i ?%not_elem_of_nil]);
    try (intros _; by split; [|intros ? ?%not_elem_of_nil]).
  - intros i (o' & -> & [Ha ->%list_elem_of_singleton]%list_elem_of_filter)%list_elem_of_fmap.
    unfold write_guards. rewrite Ha. eexists. right. by left.
  - destruct (open_files s !! input) as [i|] eqn:Hi; [|done]. cbn [mbind option_bind].
    destruct (open_files s !! output) as [o|] eqn:Ho; [|done]. cbn [mbind option_bind].
    destruct (_ && _); [|done]. intros [= <- <- <-]. split; [|by intros ? ?%not_elem_of_nil].
    assert (Opened.operation_gate i = Opened.operation_gate o → Opened.identity i = Opened.identity o) as Heq.
    { intros E. apply (tk_inj _ _ (go_contents _ Hs) _ _ (Opened.operation_gate i)).
      - apply (tk_used _ _ (go_contents _ Hs)). eapply open_used; [exact Hi|]. exists i. by split; [left|].
      - apply (tk_used _ _ (go_contents _ Hs)). eapply open_used; [exact Ho|]. exists o. by split; [left|]. }
    unfold copy_guards. case_bool_decide as Eg; destruct (identity_le _ _); simpl;
      intros _ j m [[= -> ->]|[= -> ->]%list_elem_of_singleton]%elem_of_cons; eexists;
      rewrite ?(Heq Eg); try (by left); try (right; by left); rewrite <- ?(Heq Eg); by left.
  - case_bool_decide; [done|]. destruct (content_operation _ _ _ _) as [n s1].
    destruct (content_operation _ _ _ _) as [m s2]. intros [= <- <- <-]. split; [|by intros ? ?%not_elem_of_nil].
    intros _ i k [[= -> ->]|[= -> ->]%list_elem_of_singleton]%elem_of_cons; destruct (identity_le _ _);
      eexists; try (by left); right; by left.
Qed.

Lemma started_ok t op s s' : wf_gated op → started limit t op s = Some s' → gates_ok s → gates_ok s'.
Proof.
  intros Hwf. unfold started. destruct (tasks s !! t) eqn:Ht; [done|].
  destruct (begin limit op s) as [[[opened guards] s1]|] eqn:E; [|done]. cbn [mbind option_bind]. intros [= <-] Hs.
  pose proof (begin_covers _ _ _ _ _ Hs E) as Hcov.
  apply begin_ok in E as [(Ea & Eo & Et & Ew) Hopen Htab Hord Happ]; [|done|done].
  pose proof Hs as [Hc Ha Htasks Hw He]. unfold with_tasks.
  split; cbn [content append tasks waiting]; rewrite ?Et, ?Ew.
  - eapply table_ok_weaken; [exact Htab|]. intros n i [(h & o & Hh & Hu)|(u & task & Hu & Huse)]; cbn in *.
    + rewrite ?Eo in Hh. left. by eapply open_used.
    + rewrite ?Et in Hu. apply lookup_insert_Some in Hu as [[<- <-]|[_ Hu]]; [|left; right; by exists u, task].
      destruct Huse as [(o & Hino & En & Ei)|[_ Hg]]; [left|by right]. destruct (Hopen o Hino) as [h Hh].
      eapply open_used; [exact Hh|]. exists o. by split; [left|].
  - rewrite Ea. eapply table_ok_weaken; [exact Ha|]. intros n i [(h & o & Hh & Hu)|(u & task & Hu & Huse)]; cbn in *.
    + rewrite ?Eo in Hh. left. by exists h, o.
    + rewrite ?Et in Hu. apply lookup_insert_Some in Hu as [[<- <-]|[_ Hu]]; [|right; by exists u, task].
      destruct Huse as (o & Hino & En & Ei). destruct (Hopen o Hino) as [h Hh]. left. exists h, o. split; [done|].
      exists o. by split; [left|].
  - apply map_Forall_insert_2; [|done]. split; simpl; done || lia.
  - intros u. rewrite Hw. setoid_rewrite lookup_insert_Some. split.
    + intros (task & Hu & Hq). exists task. split; [|done]. right. split; [|done]. intros ->. congruence.
    + intros (task & [[<- <-]|[_ Hu]] & Hq); [done|eauto].
  - intros u v x y a b Hx Hy Hne Hina Hinb.
    apply lookup_insert_Some in Hx as [[<- <-]|[_ Hx]]; [by apply not_elem_of_nil in Hina|].
    apply lookup_insert_Some in Hy as [[<- <-]|[_ Hy]]; [by apply not_elem_of_nil in Hinb|].
    exact (He _ _ _ _ _ _ Hx Hy Hne Hina Hinb).
Qed.

Lemma file_opened_ok h i access app s s' : file_opened limit h i access app s = Some s' → gates_ok s → gates_ok s'.
Proof.
  unfold file_opened. destruct (open_files s !! h) eqn:Hh; [done|].
  destruct (content_operation limit [] i s) as [n s1] eqn:E1. unfold append_operation.
  destruct (operation_of _ _ i (append s1)) as [m ta] eqn:E2. cbn [content append open_files tasks waiting].
  intros [= <-] Hs. pose proof Hs as [Hc Ha Ht Hw He].
  apply (content_operation_ok [] i s n s1 (λ _ _, False)) in E1 as (H1 & Ea & Eo & Et & Ew); [| |done].
  2: { eapply table_ok_weaken; [exact Hc|]. tauto. }
  destruct (used_same s s1) as [_ Hu]; [done..|].
  assert (table_ok (λ k j, used_appends s k j ∨ (k = m ∧ j = i)) ta) as H2.
  { apply (operation_of_ok _ _ (used_appends s) _ _ _ _) in E2; [done|by rewrite Ea|].
    intros k j Hk. apply bool_decide_eq_true_2. eapply used_appends_live. by apply Hu. }
  split; cbn [content append tasks waiting]; rewrite ?Et, ?Ew; try done.
  - eapply table_ok_weaken; [exact H1|]. intros k j [(h' & o & Hh' & Hin)|?]; [|by left; right].
    simpl in Hh'. rewrite ?Eo in Hh'. apply lookup_insert_Some in Hh' as [[<- <-]|[_ Hh']]; [|left; left; by exists h', o].
    destruct Hin as (o & ->%list_elem_of_singleton & <- & <-). right. by right.
  - eapply table_ok_weaken; [exact H2|]. intros k j [(h' & o & Hh' & Hin)|?]; [|by left; right].
    simpl in Hh'. rewrite ?Eo in Hh'. apply lookup_insert_Some in Hh' as [[<- <-]|[_ Hh']]; [|left; left; by exists h', o].
    destruct Hin as (o & ->%list_elem_of_singleton & <- & <-). by right.
Qed.
End start.

(** ** The other steps *)

Lemma gate_asked_ok t s s' : asked t s = Some s' → gates_ok s → gates_ok s'.
Proof.
  unfold asked. destruct (tasks s !! t) as [task|] eqn:Ht; [|done]. cbn [mbind option_bind].
  destruct (wanted task) as [g|] eqn:Hg; [|done]. cbn [mbind option_bind].
  destruct (decide _) as [Hp|]; [|done]. intros [= <-] Hs. pose proof (go_tasks _ Hs _ _ Ht) as [].
  eapply gates_ok_task; [done|exact Ht|congruence|split; try done; by eexists| |].
  - intros u. rewrite elem_of_app, list_elem_of_singleton. destruct (decide (u = t)); tauto.
  - intros u other a b Hu Hne Hina Hinb. eapply (go_excluded _ Hs); [exact Ht|exact Hu|congruence|done|done].
Qed.

Lemma holding_next t g : wanted t = Some g → ∀ a p, a ∈ holding (set_phase (S (GatedTask.held t)) p t) → a ∈ holding t ∨ a = g.
Proof.
  unfold wanted, holding. simpl. intros Hg a _. rewrite (take_S_r _ _ _ Hg), elem_of_app, list_elem_of_singleton. done.
Qed.

Lemma granted_ok t s s' : granted t s = Some s' → gates_ok s → gates_ok s'.
Proof.
  unfold granted. destruct (tasks s !! t) as [task|] eqn:Ht; [|done]. cbn [mbind option_bind].
  destruct (wanted task) as [g|] eqn:Hg; [|done]. cbn [mbind option_bind].
  destruct (decide _) as [Hp|]; [|done]. destruct (_ && _) eqn:E; [|done]. unfold free_for in E.
  bool_simpl. intros [= <-] Hs. pose proof (go_tasks _ Hs _ _ Ht) as [].
  eapply gates_ok_task; [done|exact Ht|congruence|split; simpl; try done; by apply lookup_lt_Some in Hg| |].
  - intros u. rewrite list_elem_of_filter. split; [by right|by intros [[_ ?]|?]].
  - intros u other a b Hu Hne [Hina| ->]%(holding_next _ _ Hg) Hinb.
    + eapply (go_excluded _ Hs); [exact Ht|exact Hu|congruence|done|done].
    + match goal with F : map_Forall _ _ |- _ => specialize (F _ _ Hu); rewrite Forall_forall in F end. auto.
Qed.

Lemma work_began_ok t s s' : work_began t s = Some s' → gates_ok s → gates_ok s'.
Proof.
  unfold work_began. destruct (tasks s !! t) as [task|] eqn:Ht; [|done]. cbn [mbind option_bind].
  destruct (decide _) as [[Hp Hn]|]; [|done]. intros [= <-] Hs. pose proof (go_tasks _ Hs _ _ Ht) as [].
  eapply gates_ok_task; [done|exact Ht|congruence|by split| |].
  - intros u. rewrite (go_waiting _ Hs). split; [|by intros [[_ ?]|[_ ?]]]. intros (x & Hx & Hq). right.
    split; [intros ->; congruence|eauto].
  - intros u other a b Hu Hne Hina Hinb. eapply (go_excluded _ Hs); [exact Ht|exact Hu|congruence|done|done].
Qed.

Lemma not_waiting s t task : gates_ok s → tasks s !! t = Some task → GatedTask.phase task ≠ Queued → t ∉ waiting s.
Proof. intros Hs Ht Hp (x & Hx & Hq)%(go_waiting _ Hs). congruence. Qed.

Lemma finished_ok t s s' : finished t s = Some s' → gates_ok s → gates_ok s'.
Proof.
  unfold finished. destruct (tasks s !! t) as [task|] eqn:Ht; [|done]. cbn [mbind option_bind]. intros Hrun Hs.
  assert (t ∉ waiting s → gates_ok (with_tasks (delete t) (waiting s) s)) as Hok.
  { intros Hn. apply gates_ok_delete; [done|]. intros u. split; [|tauto]. intros Hu. split; [|done]. by intros ->. }
  destruct (GatedTask.phase task) eqn:Hp; simplify_eq; apply Hok; eapply not_waiting; eauto; congruence.
Qed.

Lemma gave_up_ok t s s' : gave_up t s = Some s' → gates_ok s → gates_ok s'.
Proof.
  unfold gave_up. destruct (tasks s !! t) as [task|] eqn:Ht; [|done]. cbn [mbind option_bind].
  destruct (spawned _); [done|]. intros Hrun Hs. pose proof (go_tasks _ Hs _ _ Ht) as [].
  destruct (GatedTask.phase task) eqn:Hp; simplify_eq.
  - apply gates_ok_delete; [done|]. intros u. by rewrite list_elem_of_filter.
  - apply gates_ok_delete; [done|]. intros u. by rewrite list_elem_of_filter.
  - eapply gates_ok_task; [done|exact Ht|congruence|split; simpl; done || lia| |].
    + intros u. split; [|by intros [[_ ?]|[_ ?]]]. intros Hu. right. split; [|done]. intros ->.
      eapply not_waiting; [exact Hs|exact Ht|congruence|done].
    + by intros u other a b _ _ ?%not_elem_of_nil.
Qed.

Lemma no_gates_ok : gates_ok no_gates.
Proof.
  assert (∀ P, (∀ n i, ¬ P n i) → table_ok P (MkGateTable ∅ 0)) as Hempty.
  { intros P HP. split; simpl; [intros n i Hn; by apply HP in Hn|by intros i j n ?%lookup_empty_Some|by intros i n ?%lookup_empty_Some]. }
  split; simpl.
  - apply Hempty. intros n i [(h & o & Hh & _)|(t & x & Hh & _)]; simpl in Hh; by rewrite lookup_empty in Hh.
  - apply Hempty. intros n i [(h & o & Hh & _)|(t & x & Hh & _)]; simpl in Hh; by rewrite lookup_empty in Hh.
  - by apply map_Forall_empty.
  - intros t. split; [by intros ?%not_elem_of_nil|]. intros (x & Hx & _). by rewrite lookup_empty in Hx.
  - intros t u x y a b Hx. simpl in Hx. by rewrite lookup_empty in Hx.
Qed.

Lemma working_holds_all t : GatedTask.phase t = Working → task_ok t → holding t = GatedTask.guards t.
Proof.
  intros Hp []. unfold holding. apply take_ge. apply lookup_ge_None. by apply gt_working0.
Qed.

Lemma same_lock used t i n m : table_ok used t → used n i → used m i → n = m.
Proof. intros [Hu _ _] Hn%Hu Hm%Hu. congruence. Qed.

(** ** Progress *)

(** Locks and files determine each other, for guards of operations that are there. *)
Lemma guard_files s t u x y a b :
  gates_ok s → tasks s !! t = Some x → tasks s !! u = Some y →
  GatedTask.phase x ≠ Abandoned → GatedTask.phase y ≠ Abandoned →
  a ∈ GatedTask.guards x → b ∈ GatedTask.guards y → Guard.gate a = Guard.gate b → Guard.file a = Guard.file b.
Proof.
  intros Hs Ht Hu Hx Hy Ha Hb E. destruct (Guard.gate a) as [n|n] eqn:Ea; symmetry in E.
  - apply (tk_inj _ _ (go_contents _ Hs) _ _ n); apply (tk_used _ _ (go_contents _ Hs)); right.
    + exists t, x. split; [done|]. right. split; [done|]. by exists a.
    + exists u, y. split; [done|]. right. split; [done|]. by exists b.
  - apply (tk_inj _ _ (go_appends _ Hs) _ _ n); apply (tk_used _ _ (go_appends _ Hs)); right.
    + exists t, x. split; [done|]. by eapply (gt_appends _ (go_tasks _ Hs _ _ Ht)).
    + exists u, y. split; [done|]. by eapply (gt_appends _ (go_tasks _ Hs _ _ Hu)).
Qed.

Lemma below_same a b c : Guard.gate a = Guard.gate b → Guard.file a = Guard.file b → below a c = below b c.
Proof. unfold below. by intros -> ->. Qed.

(** The gates that the queued operations wait for. *)
Definition awaited (s : Gates) : list Guard :=
  omap wanted (filter (λ y, GatedTask.phase y = Queued) (map_to_list (tasks s)).*2).

Lemma elem_of_awaited s g :
  g ∈ awaited s ↔ ∃ u y, tasks s !! u = Some y ∧ GatedTask.phase y = Queued ∧ wanted y = Some g.
Proof.
  unfold awaited. rewrite list_elem_of_omap. setoid_rewrite list_elem_of_filter. setoid_rewrite list_elem_of_fmap. split.
  - intros (y & (Hp & (u & y') & -> & Hu%elem_of_map_to_list) & Hg). exists u. eauto.
  - intros (u & y & Hu & Hp & Hg). exists y. split; [|done]. split; [done|]. exists (u, y). by rewrite elem_of_map_to_list.
Qed.

(** When all that are not abandoned wait, the first who waits for the highest
    gate can have it. *)
Lemma someone_granted s u0 y0 :
  gates_ok s → tasks s !! u0 = Some y0 → GatedTask.phase y0 = Queued →
  map_Forall (λ _ task, GatedTask.phase task = Queued ∨ GatedTask.phase task = Abandoned) (tasks s) →
  ∃ t s', granted t s = Some s'.
Proof.
  intros Hs Hu0 Hp0 Hq.
  assert (∀ u y, tasks s !! u = Some y → GatedTask.phase y = Queued → is_Some (wanted y)) as Hwant.
  { intros u y Hu. apply (gt_queued _ (go_tasks _ Hs _ _ Hu)). }
  destruct (Hwant _ _ Hu0 Hp0) as [g0 Hg0].
  destruct (exists_maximal below (awaited s) below_irrefl below_trans) as (g & Hg & Hmax).
  { intros E. apply (not_elem_of_nil g0). rewrite <- E. apply elem_of_awaited. eauto. }
  apply elem_of_awaited in Hg as (u1 & y1 & Hu1 & Hp1 & Hg1).
  assert (u1 ∈ queue_of (Guard.gate g) s) as Hin.
  { apply list_elem_of_filter. split; [by rewrite Hu1; simpl; rewrite Hg1|]. apply (go_waiting _ Hs). eauto. }
  destruct (queue_of (Guard.gate g) s) as [|t q] eqn:Eq; [by apply not_elem_of_nil in Hin|].
  assert (t ∈ queue_of (Guard.gate g) s) as [Ht Htw]%list_elem_of_filter by (rewrite Eq; by left).
  apply (go_waiting _ Hs) in Htw as (x & Hx & Hxq). rewrite Hx in Ht. simpl in Ht.
  destruct (wanted x) as [a|] eqn:Ha; [|done]. injection Ht as Eg.
  exists t. unfold granted. rewrite Hx. cbn [mbind option_bind]. rewrite Ha. cbn [mbind option_bind].
  rewrite decide_True by done. rewrite Eg, Eq, (bool_decide_eq_true_2 (head (t :: q) = Some t)) by done.
  unfold free_for. rewrite bool_decide_eq_true_2; [eauto|].
  intros u y Hu. apply Forall_forall. intros b Hb.
  apply not_false_iff_true. unfold compatible. intros Hc%orb_false_iff. destruct Hc as [Hc _]. bool_simpl.
  assert (GatedTask.phase y = Queued) as Hyq.
  { destruct (Hq _ _ Hu) as [?|Hab]; [done|]. unfold holding in Hb.
    rewrite (gt_abandoned _ (go_tasks _ Hs _ _ Hu) Hab) in Hb. by apply not_elem_of_nil in Hb. }
  destruct (Hwant _ _ Hu Hyq) as [w Hw].
  pose proof (sorted_before _ _ _ _ _ (gt_order _ (go_tasks _ Hs _ _ Hu)) Hw Hb) as Hbelow. simpl in Hbelow.
  assert (b ∈ GatedTask.guards y) as Hby.
  { apply elem_of_take in Hb as (k & Hk & _). by eapply list_elem_of_lookup_2. }
  assert (∀ v z c, tasks s !! v = Some z → GatedTask.phase z = Queued → c ∈ GatedTask.guards z →
    Guard.gate a = Guard.gate c → Guard.file a = Guard.file c) as Hfile.
  { intros v z c Hv Hz. apply (guard_files s t v x z); try done; [congruence|congruence|].
    by eapply list_elem_of_lookup_2. }
  assert (below g w = true) as Hgw; [|rewrite Hmax in Hgw; [done|apply elem_of_awaited; eauto]].
  rewrite (below_same g b); [done|by rewrite <- Eg|].
  rewrite <- (Hfile u1 y1 g), <- (Hfile u y b); try done. by eapply list_elem_of_lookup_2.
Qed.

Section runs.
Context (limit : Z) (stable_node_id : FileIdentity → NodeId).

Definition wf_gate_event (e : GateEvent) : Prop :=
  match e with Started _ op => wf_gated stable_node_id op | _ => True end.

Lemma gate_step_ok e s s' : wf_gate_event e → gate_step limit e s = Some s' → gates_ok s → gates_ok s'.
Proof.
  destruct e; simpl; eauto using file_opened_ok, file_closed_ok, started_ok, gate_asked_ok, granted_ok, work_began_ok,
    finished_ok, gave_up_ok.
Qed.

Lemma run_gates_ok events s s' :
  Forall wf_gate_event events → run_gates limit events s = Some s' → gates_ok s → gates_ok s'.
Proof.
  intros Hwf. revert s. induction Hwf as [|e events He Hwf IH]; intros s; simpl; [by intros [= <-]|].
  destruct (gate_step limit e s) as [s1|] eqn:E; [|done]. cbn [mbind option_bind]. eauto using gate_step_ok.
Qed.

(** What an operation has left to do. *)
Definition steps_left (t : GatedTask) : Z :=
  3 * (zlen (GatedTask.guards t) - Z.of_nat (GatedTask.held t)) +
  match GatedTask.phase t with Ready => 3 | _ => 2 end.

(** An operation that is not given up, and no new one. *)
Definition proceeds (e : GateEvent) : Prop :=
  match e with Asked _ | Granted _ | WorkBegan _ | Done _ => True | _ => False end.

Lemma wanted_left t g : wanted t = Some g → Z.of_nat (GatedTask.held t) + 1 ≤ zlen (GatedTask.guards t).
Proof. unfold wanted, zlen. intros Hg%lookup_lt_Some. lia. Qed.
Lemma steps_left_positive t : task_ok t → 0 < steps_left t.
Proof. intros []. unfold steps_left, zlen. case_match; lia. Qed.

Lemma proceeding_decreases e s s' :
  gates_ok s → proceeds e → gate_step limit e s = Some s' →
  map_sum steps_left (tasks s') < map_sum steps_left (tasks s).
Proof.
  intros Hs. destruct e as [| | |t|t|t|t|]; try done; intros _; simpl; unfold asked, granted, work_began, finished;
    destruct (tasks s !! t) as [task|] eqn:Ht; try done; cbn [mbind option_bind].
  - destruct (wanted task) as [g|] eqn:Hg; [|done]. cbn [mbind option_bind].
    destruct (decide _) as [Hp|]; [|done]. intros [= <-]. simpl. rewrite map_sum_overwrite, Ht.
    unfold steps_left. simpl. rewrite Hp. lia.
  - destruct (wanted task) as [g|] eqn:Hg; [|done]. cbn [mbind option_bind].
    destruct (decide _) as [Hp|]; [|done]. destruct (_ && _); [|done]. intros [= <-]. simpl. rewrite map_sum_overwrite, Ht.
    apply wanted_left in Hg. unfold steps_left. cbn [set_phase GatedTask.guards GatedTask.held GatedTask.phase]. rewrite Hp. lia.
  - destruct (decide _) as [[Hp _]|]; [|done]. intros [= <-]. simpl. rewrite map_sum_overwrite, Ht.
    unfold steps_left. simpl. rewrite Hp. lia.
  - pose proof (steps_left_positive _ (go_tasks _ Hs _ _ Ht)).
    destruct (GatedTask.phase task); intros E; simplify_eq; simpl; rewrite map_sum_delete_lookup, Ht; lia.
Qed.

Lemma gate_progress s : gates_ok s → tasks s ≠ ∅ → ∃ e s', proceeds e ∧ gate_step limit e s = Some s'.
Proof.
  intros Hs Hne. destruct (decide (map_Forall (λ _ task, GatedTask.phase task = Queued) (tasks s))) as [Hq|Hq].
  - destruct (map_choose _ Hne) as (u & y & Hu).
    destruct (someone_granted s u y Hs Hu (Hq _ _ Hu)) as (t & s' & Hg); [|by exists (Granted t), s'].
    intros v z Hv. left. by apply (Hq v).
  - apply map_not_Forall in Hq as (t & task & Ht & Hq); [|apply _]. destruct (GatedTask.phase task) eqn:Hp; [|done|..].
    + destruct (wanted task) as [g|] eqn:Hg.
      * exists (Asked t). simpl. unfold asked. rewrite Ht. cbn [mbind option_bind]. rewrite Hg. cbn [mbind option_bind].
        rewrite decide_True by done. eauto.
      * exists (WorkBegan t). simpl. unfold work_began. rewrite Ht. cbn [mbind option_bind]. rewrite decide_True by done. eauto.
    + exists (Done t). simpl. unfold finished. rewrite Ht. cbn [mbind option_bind]. rewrite Hp. eauto.
    + exists (Done t). simpl. unfold finished. rewrite Ht. cbn [mbind option_bind]. rewrite Hp. eauto.
Qed.

(** * Theorems *)

(** C26: Operations on one file exclude each other as they should.
    Whatever operations of whatever connections start, wait, are given up or end
    in any order: take two whose requests are still there and that work on the
    same file at the same time, other than attribute changes by node and
    truncations in [open], which take no gate.  Then both only read its content
    or write a range of it, so that syncing, allocating, copying between files,
    attributes through a handle or by name and exchanges have the file for
    themselves among these; and appends to one file never overlap. *)
Theorem operations_exclude events s t u x y :
  Forall wf_gate_event events → run_gates limit events no_gates = Some s →
  tasks s !! t = Some x → tasks s !! u = Some y → t ≠ u →
  GatedTask.phase x = Working → GatedTask.phase y = Working →
  gated (GatedTask.op x) → gated (GatedTask.op y) →
  (∀ i m m', (i, m) ∈ touches (GatedTask.op x) (GatedTask.opened x) →
     (i, m') ∈ touches (GatedTask.op y) (GatedTask.opened y) → m = Shared ∧ m' = Shared) ∧
  (∀ i, i ∈ appends_to (GatedTask.op x) (GatedTask.opened x) → i ∉ appends_to (GatedTask.op y) (GatedTask.opened y)).
Proof.
  intros Hwf Hrun Ht Hu Hne Hx Hy Hgx Hgy.
  pose proof (run_gates_ok _ _ _ Hwf Hrun no_gates_ok) as Hs. clear Hwf Hrun.
  pose proof (go_tasks _ Hs _ _ Ht) as Hxok. pose proof (go_tasks _ Hs _ _ Hu) as Hyok.
  destruct (gt_covers _ Hxok) as [Hcx Hax], (gt_covers _ Hyok) as [Hcy Hay].
  specialize (Hcx Hgx). specialize (Hcy Hgy).
  assert (∀ a b, a ∈ GatedTask.guards x → b ∈ GatedTask.guards y → Guard.gate a = Guard.gate b →
    Guard.mode a = Shared ∧ Guard.mode b = Shared) as Hcomp.
  { intros a b Ha Hb E. pose proof (go_excluded _ Hs t u x y a b Ht Hu Hne) as Hc.
    rewrite (working_holds_all x), (working_holds_all y) in Hc by auto. specialize (Hc Ha Hb).
    unfold compatible in Hc. rewrite bool_decide_eq_true_2 in Hc by done. simpl in Hc. by bool_simpl. }
  split.
  - intros i m m' (n & Hn)%Hcx (n' & Hn')%Hcy.
    apply (Hcomp (Guard.Mk (Content n) m i) (Guard.Mk (Content n') m' i)); [done..|]. simpl. f_equal.
    apply (same_lock (used_contents s) (content s) i); [apply Hs|..]; right.
    + exists t, x. split; [done|]. right. split; [congruence|]. by eexists.
    + exists u, y. split; [done|]. right. split; [congruence|]. by eexists.
  - intros i (n & Hn)%Hax (n' & Hn')%Hay.
    destruct (Hcomp (Guard.Mk (Append n) Exclusive i) (Guard.Mk (Append n') Exclusive i)) as [? _]; [done..| |done].
    simpl. f_equal. apply (same_lock (used_appends s) (append s) i); [apply Hs|..]; right.
    + exists t, x. split; [done|]. exact (proj2 (gt_appends _ Hxok _ _ Hn eq_refl)).
    + exists u, y. split; [done|]. exact (proj2 (gt_appends _ Hyok _ _ Hn' eq_refl)).
Qed.

(** C27: No operation waits for ever.
    Whatever has happened, if nothing new starts then every operation that is
    there gets its gates, in turn, and ends: two gates are always taken in the
    order of their files, and the lock of appends last. *)
Theorem gated_operations_finish events s :
  Forall wf_gate_event events → run_gates limit events no_gates = Some s →
  ∃ more s', Forall proceeds more ∧ run_gates limit more s = Some s' ∧ tasks s' = ∅.
Proof.
  intros Hwf Hrun. pose proof (run_gates_ok _ _ _ Hwf Hrun no_gates_ok) as Hs. clear Hwf Hrun.
  remember (Z.to_nat (map_sum steps_left (tasks s))) as n eqn:En. revert s Hs En.
  induction n as [n IH] using lt_wf_ind. intros s Hs ->.
  destruct (decide (tasks s = ∅)) as [E|Hne]; [by exists [], s|].
  destruct (gate_progress s Hs Hne) as (e & s1 & He & Hstep).
  pose proof (proceeding_decreases _ _ _ Hs He Hstep) as Hlt.
  assert (gates_ok s1) as Hs1 by (eapply (gate_step_ok e); [by destruct e|done|done]).
  pose proof (map_sum_nonneg steps_left (tasks s1) ltac:(intros k v Hk; pose proof (steps_left_positive _ (go_tasks _ Hs1 _ _ Hk)); lia)).
  destruct (IH (Z.to_nat (map_sum steps_left (tasks s1)))) with (s := s1) as (more & s' & Hm & Hrun & Hend); [lia|done|done|].
  exists (e :: more), s'. split_and!; [by constructor| |done]. simpl. by rewrite Hstep.
Qed.
(** ** Without a gate *)

(** An operation after steps of its own. *)
Definition advanced (y y' : GatedTask) : Prop :=
  GatedTask.op y' = GatedTask.op y ∧ GatedTask.opened y' = GatedTask.opened y ∧
  (GatedTask.phase y = Abandoned → y' = y) ∧ (GatedTask.phase y ≠ Abandoned → GatedTask.phase y' ≠ Abandoned).

Lemma advanced_refl y : advanced y y.
Proof. by split_and!. Qed.
Lemma advanced_trans y1 y2 y3 : advanced y1 y2 → advanced y2 y3 → advanced y1 y3.
Proof.
  intros (E1 & E2 & H1 & H2) (E3 & E4 & H3 & H4). split_and!; [congruence|congruence| |auto].
  intros H. rewrite <- (H1 H). apply H3. by rewrite (H1 H).
Qed.

(** A step of the others and of the operation itself, other than its end. *)
Lemma proceeding_advances e s s' u y :
  proceeds e → e ≠ Done u → gate_step limit e s = Some s' → tasks s !! u = Some y →
  ∃ y', tasks s' !! u = Some y' ∧ advanced y y'.
Proof.
  assert (∀ v task held p w, tasks s !! v = Some task → GatedTask.phase task ≠ Abandoned → p ≠ Abandoned →
    tasks s !! u = Some y →
    ∃ y', tasks (with_tasks (<[v := set_phase held p task]>) w s) !! u = Some y' ∧ advanced y y') as Hset.
  { intros v task held p w Hv Hp Hp' Hu. simpl. destruct (decide (v = u)) as [->|Hne].
    - rewrite lookup_insert_eq. eexists. split; [done|]. rewrite Hv in Hu. injection Hu as <-. by split_and!.
    - rewrite lookup_insert_ne by done. eexists. split; [done|apply advanced_refl]. }
  destruct e as [| | |t|t|t|t|]; try done; intros _ Hne; simpl; unfold asked, granted, work_began, finished;
    destruct (tasks s !! t) as [task|] eqn:Ht; try done; cbn [mbind option_bind].
  - destruct (wanted task); [|done]. cbn [mbind option_bind]. destruct (decide _) as [Hp|]; [|done].
    intros [= <-]. eapply Hset; congruence.
  - destruct (wanted task); [|done]. cbn [mbind option_bind]. destruct (decide _) as [Hp|]; [|done].
    destruct (_ && _); [|done]. intros [= <-]. eapply Hset; congruence.
  - destruct (decide _) as [[Hp _]|]; [|done]. intros [= <-]. eapply Hset; congruence.
  - intros E Hu. exists y. split; [|apply advanced_refl].
    destruct (GatedTask.phase task); simplify_eq; simpl; rewrite lookup_delete_ne; congruence.
Qed.

(** Unless an operation works, something else than the end of an abandoned one
    can happen. *)
Lemma others_progress s t t' xa y :
  gates_ok s → tasks s !! t = Some xa → GatedTask.phase xa = Abandoned → tasks s !! t' = Some y →
  GatedTask.phase y ≠ Abandoned → GatedTask.phase y ≠ Working →
  ∃ e s', proceeds e ∧ e ≠ Done t ∧ e ≠ Done t' ∧ gate_step limit e s = Some s'.
Proof.
  intros Hs Ht Hta Hy Hya Hyw.
  destruct (decide (map_Forall (λ u z, u = t ∨ GatedTask.phase z = Queued ∨ GatedTask.phase z = Abandoned) (tasks s)))
    as [Hq|Hq].
  - destruct (someone_granted s t' y Hs Hy) as (v & s' & Hg).
    + destruct (Hq _ _ Hy) as [->|[?|?]]; [congruence|done|done].
    + intros v z Hv. destruct (Hq _ _ Hv) as [->|?]; [right; congruence|done].
    + by exists (Granted v), s'.
  - apply map_not_Forall in Hq as (u & z & Hu & Hz); [|apply _].
    apply Decidable.not_or in Hz as [Hut Hz]. apply Decidable.not_or in Hz as [Hz1 Hz2].
    destruct (GatedTask.phase z) eqn:Hp; [|done| |done].
    + destruct (wanted z) as [g|] eqn:Hg.
      * exists (Asked u). simpl. unfold asked. rewrite Hu. cbn [mbind option_bind]. rewrite Hg. cbn [mbind option_bind].
        rewrite decide_True by done. eauto.
      * exists (WorkBegan u). simpl. unfold work_began. rewrite Hu. cbn [mbind option_bind]. rewrite decide_True by done. eauto.
    + exists (Done u). simpl. unfold finished. rewrite Hu. cbn [mbind option_bind]. rewrite Hp.
      eexists. split_and!; [done|congruence|congruence|done].
Qed.

Lemma others_proceed s t t' xa y :
  gates_ok s → tasks s !! t = Some xa → GatedTask.phase xa = Abandoned → tasks s !! t' = Some y →
  GatedTask.phase y ≠ Abandoned →
  ∃ more s' y', Forall (λ e, proceeds e ∧ e ≠ Done t) more ∧ run_gates limit more s = Some s' ∧
    tasks s' !! t = Some xa ∧ tasks s' !! t' = Some y' ∧ advanced y y' ∧ GatedTask.phase y' = Working.
Proof.
  remember (Z.to_nat (map_sum steps_left (tasks s))) as n eqn:En. revert s y En.
  induction n as [n IH] using lt_wf_ind. intros s y -> Hs Ht Hta Hy Hya.
  destruct (decide (GatedTask.phase y = Working)) as [Hyw|Hyw].
  { exists [], s, y. split_and!; [constructor|done..|apply advanced_refl|done]. }
  destruct (others_progress s t t' xa y) as (e & s1 & He & Het & Het' & Hstep); [done..|].
  pose proof (proceeding_decreases _ _ _ Hs He Hstep) as Hlt.
  assert (gates_ok s1) as Hs1 by (eapply (gate_step_ok e); [by destruct e|done|done]).
  pose proof (map_sum_nonneg steps_left (tasks s1) ltac:(intros k v Hk; pose proof (steps_left_positive _ (go_tasks _ Hs1 _ _ Hk)); lia)).
  destruct (proceeding_advances e s s1 t xa) as (xa' & Ht1 & _ & _ & Hsame & _); [done..|].
  rewrite (Hsame Hta) in Ht1.
  destruct (proceeding_advances e s s1 t' y) as (y1 & Hy1 & Hadv); [done..|].
  destruct (IH (Z.to_nat (map_sum steps_left (tasks s1)))) with (s := s1) (y := y1)
    as (more & s' & y' & Hm & Hrun & Ht' & Hy' & Hadv' & Hw); [lia|done|done|done|done|done| |].
  { by apply Hadv. }
  exists (e :: more), s', y'. split_and!; [by constructor| |done|done|by eapply advanced_trans|done].
  simpl. by rewrite Hstep.
Qed.

(** An operation that is given up loses its gates before its work has ended.
    Take any operation that has its file alone and works on it, an exchange or a
    copy for instance, and that does not run in a task of its own.  When its
    request is over time, or its connection is lost, and then a write through a
    handle of that file arrives, there is a way on, whatever else is queued, in
    which the write begins its work on the file while the blocking thread of
    the first operation is still working on it. *)
Theorem abandoned_operation_overlaps events s t t' x h o :
  Forall wf_gate_event events → run_gates limit events no_gates = Some s →
  tasks s !! t = Some x → GatedTask.phase x = Working → spawned (GatedTask.op x) = false →
  (Opened.identity o, Exclusive) ∈ touches (GatedTask.op x) (GatedTask.opened x) →
  open_files s !! h = Some o → can_write_access (Opened.access o) = true → tasks s !! t' = None →
  ∃ more s' y, Forall (λ e, proceeds e ∧ e ≠ Done t) more ∧
    run_gates limit (GaveUp t :: Started t' (GatedOp.Write h) :: more) s = Some s' ∧
    tasks s' !! t = Some (set_phase 0 Abandoned x) ∧ tasks s' !! t' = Some y ∧ GatedTask.phase y = Working ∧
    (Opened.identity o, Shared) ∈ touches (GatedTask.op y) (GatedTask.opened y).
Proof.
  intros Hwf Hrun Ht Hp Hspawn _ Ho Hw Hnew. pose proof (run_gates_ok _ _ _ Hwf Hrun no_gates_ok) as Hs.
  assert (t ≠ t') as Hne by congruence.
  set (s1 := with_tasks (<[t := set_phase 0 Abandoned x]>) (waiting s) s).
  assert (gate_step limit (GaveUp t) s = Some s1) as E1.
  { simpl. unfold gave_up. rewrite Ht. cbn [mbind option_bind]. by rewrite Hspawn, Hp. }
  pose proof (gate_step_ok (GaveUp t) s s1 Logic.I E1 Hs) as Hs1.
  set (y := GatedTask.Mk (GatedOp.Write h) [o] (write_guards o) 0 Ready).
  set (s2 := with_tasks (<[t' := y]>) (waiting s1) s1).
  assert (gate_step limit (Started t' (GatedOp.Write h)) s1 = Some s2) as E2.
  { simpl. unfold started. subst s1. cbn [with_tasks tasks]. rewrite lookup_insert_ne, Hnew by done.
    simpl. unfold on_handle. cbn [open_files with_tasks]. rewrite Ho. cbn [mbind option_bind]. by rewrite Hw. }
  pose proof (gate_step_ok (Started t' (GatedOp.Write h)) s1 s2 Logic.I E2 Hs1) as Hs2.
  destruct (others_proceed s2 t t' (set_phase 0 Abandoned x) y) as (more & s' & y' & Hm & Hr & Ht' & Hy' & Hadv & Hyw);
    [done| |done| |done|].
  { subst s2 s1. cbn [with_tasks tasks]. rewrite lookup_insert_ne by done. apply lookup_insert_eq. }
  { subst s2. cbn [with_tasks tasks]. apply lookup_insert_eq. }
  exists more, s', y'. split_and!; [done| |done|done|done|].
  - cbn [run_gates]. rewrite E1. cbn [mbind option_bind]. by rewrite E2.
  - destruct Hadv as (-> & -> & _). simpl. by left.
Qed.

(** The operations without gates wait for nobody: a change of attributes by node
    or a truncation by [open] begins at once, whatever has the file for itself. *)
Lemma ungated_change_overlaps s t t' x i op :
  tasks s !! t = Some x → tasks s !! t' = None → op = GatedOp.SetNodeAttributes i ∨ op = GatedOp.OpenTruncate i →
  ∃ s' y, run_gates limit [Started t' op; WorkBegan t'] s = Some s' ∧ tasks s' !! t = Some x ∧
    tasks s' !! t' = Some y ∧ GatedTask.phase y = Working ∧ (i, Exclusive) ∈ touches (GatedTask.op y) (GatedTask.opened y).
Proof.
  intros Ht Hnew Hop. assert (t ≠ t') as Hne by congruence.
  set (y := GatedTask.Mk op [] [] 0 Ready).
  assert (started limit t' op s = Some (with_tasks (<[t' := y]>) (waiting s) s)) as E1.
  { unfold started. rewrite Hnew. by destruct Hop as [->| ->]. }
  assert (work_began t' (with_tasks (<[t' := y]>) (waiting s) s) =
    Some (with_tasks (<[t' := set_phase 0 Working y]>) (waiting s) (with_tasks (<[t' := y]>) (waiting s) s))) as E2.
  { unfold work_began. cbn [with_tasks tasks]. rewrite lookup_insert_eq. cbn [mbind option_bind].
    by rewrite decide_True. }
  eexists _, _. cbn [run_gates gate_step]. rewrite E1. cbn [mbind option_bind]. rewrite E2. cbn [mbind option_bind].
  split; [done|]. cbn [with_tasks tasks]. rewrite !lookup_insert_ne by done. split; [done|].
  rewrite lookup_insert_eq. split_and!; [done|done|]. destruct Hop as [->| ->]; by left.
Qed.
End runs.

(** * Examples *)

Module GatesExample.
Definition file_a : FileIdentity := MkIdentity 1 10.
Definition file_b : FileIdentity := MkIdentity 1 20.
Definition node_of (i : FileIdentity) : NodeId := MkNodeId (inode i).

(** An operation gets its guards and begins its work. *)
Definition take_guards (t : nat) (op : GatedOp) (guards : nat) : list GateEvent :=
  Started t op :: mjoin (replicate guards [Asked t; Granted t]) ++ [WorkBegan t].

(** A read and an append work at the same time; a sync waits, and a read behind
    it; a second append waits for the first. *)
Definition events : list GateEvent :=
  [FileOpened 0 file_a FileAccess.ReadWrite false; FileOpened 1 file_a FileAccess.WriteOnly true;
   FileOpened 2 file_b FileAccess.ReadOnly false] ++
  take_guards 0 (GatedOp.Read 0) 1 ++ take_guards 1 (GatedOp.Write 1) 2 ++
  [Started 2 (GatedOp.Write 1); Asked 2; Granted 2; Asked 2; Started 3 (GatedOp.Sync 0); Asked 3;
   Started 4 (GatedOp.Read 0); Asked 4].

Definition phases (s : Gates) : list Phase := (λ e, GatedTask.phase e.2) <$> map_to_list (tasks s).

Lemma events_reach : match run_gates 100 events no_gates with
  | Some s => (λ x, (GatedTask.op x, GatedTask.phase x)) <$> tasks s !! 0%nat = Some (GatedOp.Read 0, Working) ∧
      (λ x, (GatedTask.op x, GatedTask.phase x)) <$> tasks s !! 1%nat = Some (GatedOp.Write 1, Working) ∧
      granted 2 s = None ∧ granted 3 s = None ∧ granted 4 s = None
  | None => False
  end.
Proof. vm_compute. repeat split. Qed.

Lemma gate_events_wf : Forall (wf_gate_event node_of) events.
Proof. unfold events, take_guards. simpl. repeat constructor. Qed.

(** Two copies in opposite directions take the gates in the same order. *)
Definition crossing_copies : list GateEvent :=
  [FileOpened 0 file_a FileAccess.ReadWrite false; FileOpened 1 file_b FileAccess.ReadWrite false;
   Started 0 (GatedOp.CopyFileRange 0 1); Started 1 (GatedOp.CopyFileRange 1 0);
   Asked 0; Asked 1; Granted 0; Asked 0; Granted 0; WorkBegan 0].
Example crossing_copy_waits :
  match run_gates 100 crossing_copies no_gates with
  | Some s => granted 1 s = None ∧ is_Some (finished 0 s ≫= granted 1)
  | None => False
  end.
Proof. vm_compute. split; [reflexivity|by eexists]. Qed.

(** A file that is closed and opened again may get another gate; a full table
    keeps only those in use. *)
Example gates_forgotten :
  (λ s, (map_to_list (entries (content s)), next (content s))) <$>
    run_gates 1 [FileOpened 0 file_a FileAccess.ReadOnly false; FileClosed 0;
                 FileOpened 1 file_b FileAccess.ReadOnly false] no_gates =
  Some ([(file_b, 1%nat)], 2%nat).
Proof. vm_compute. reflexivity. Qed.

(** An exchange begins its work; an append and a sync of one of its files wait. *)
Definition exchanging : list GateEvent :=
  [FileOpened 0 file_a FileAccess.ReadWrite false; FileOpened 1 file_a FileAccess.WriteOnly true] ++
  take_guards 0 (GatedOp.ExchangeData (node_of file_a, file_a) (node_of file_b, file_b)) 2 ++
  [Started 2 (GatedOp.Write 1); Asked 2; Started 3 (GatedOp.Sync 0); Asked 3].
Lemma exchanging_wf : Forall (wf_gate_event node_of) exchanging.
Proof. unfold exchanging, take_guards. simpl. repeat constructor. Qed.
End GatesExample.
Import GatesExample.

Lemma operations_exclude_witness :
  ∃ s x y, run_gates 100 events no_gates = Some s ∧ tasks s !! 0%nat = Some x ∧ tasks s !! 1%nat = Some y ∧
    ∀ i m m', (i, m) ∈ touches (GatedTask.op x) (GatedTask.opened x) →
      (i, m') ∈ touches (GatedTask.op y) (GatedTask.opened y) → m = Shared ∧ m' = Shared.
Proof.
  pose proof events_reach as Hr. destruct (run_gates 100 events no_gates) as [s|] eqn:E; [|destruct Hr].
  destruct Hr as (H0 & H1 & _). destruct (tasks s !! 0%nat) as [x|] eqn:Hx; [|discriminate H0].
  destruct (tasks s !! 1%nat) as [y|] eqn:Hy; [|discriminate H1]. injection H0 as Ho0 H0. injection H1 as Ho1 H1.
  exists s, x, y. split; [reflexivity|]. split; [exact Hx|]. split; [exact Hy|].
  apply (operations_exclude 100 node_of events s 0%nat 1%nat x y gate_events_wf E Hx Hy ltac:(discriminate) H0 H1);
    [rewrite Ho0; exact I|rewrite Ho1; exact I].
Defined.

Lemma gated_operations_finish_witness :
  ∃ s more s', run_gates 100 events no_gates = Some s ∧ run_gates 100 more s = Some s' ∧ tasks s' = ∅.
Proof.
  pose proof events_reach as Hr. destruct (run_gates 100 events no_gates) as [s|] eqn:E; [|destruct Hr].
  destruct (gated_operations_finish 100 node_of events s gate_events_wf E) as (more & s' & _ & Hrun & Hend).
  exists s, more, s'. split; [reflexivity|]. split; [exact Hrun|exact Hend].
Defined.

Lemma abandoned_operation_overlaps_witness :
  ∃ s more s' y, run_gates 100 exchanging no_gates = Some s ∧
    run_gates 100 (GaveUp 0 :: Started 9 (GatedOp.Write 0) :: more) s = Some s' ∧
    tasks s' !! 9%nat = Some y ∧ GatedTask.phase y = Working.
Proof.
  assert (match run_gates 100 exchanging no_gates with
    | Some s => (λ x, (GatedTask.op x, GatedTask.opened x, GatedTask.phase x)) <$> tasks s !! 0%nat =
          Some (GatedOp.ExchangeData (node_of file_a, file_a) (node_of file_b, file_b), [], Working) ∧
        open_files s !! 0%nat = Some (Opened.Mk file_a FileAccess.ReadWrite false 0 0) ∧ tasks s !! 9%nat = None
    | None => False
    end) as Hr by (vm_compute; repeat split).
  destruct (run_gates 100 exchanging no_gates) as [s|] eqn:E; [|destruct Hr].
  destruct Hr as (H0 & Ho & H9). destruct (tasks s !! 0%nat) as [x|] eqn:Hx; [|discriminate H0].
  injection H0 as Hop Hopened Hp.
  destruct (abandoned_operation_overlaps 100 node_of exchanging s 0%nat 9%nat x 0%nat
    (Opened.Mk file_a FileAccess.ReadWrite false 0 0) exchanging_wf E Hx Hp) as (more & s' & y & _ & Hrun & _ & Hy & Hyp & _).
  - rewrite Hop. reflexivity.
  - rewrite Hop. simpl. by left.
  - exact Ho.
  - reflexivity.
  - exact H9.
  - exists s, more, s', y. split; [reflexivity|]. split; [exact Hrun|]. split; [exact Hy|exact Hyp].
Defined.
