(* ===== verification/StateFiles.v ===== *)
(** Private state files.  The file-system calls with which the server keeps its
    authentication state and its export record, as the interface [StateFs] with
    its laws, the text functions of the standard library used on their contents,
    and the atomic replacement of a file by [write_private]
    ([crates/auth/src/lib.rs], lines 748-835 and 955-985). *)

From S2P Require Import Prelude Protocol Common.

(** * Text *)

(** A continuation byte of UTF-8. *)
Definition utf8_tail (b : Z) : bool := (128 <=? b) && (b <=? 191).

(** [str::from_utf8(..).is_ok()]. *)
Fixpoint utf8_valid (l : list Z) : bool :=
  match l with
  | [] => true
  | a :: l1 =>
      if a <? 128 then utf8_valid l1
      else match l1 with
      | [] => false
      | b :: l2 =>
          if (194 <=? a) && (a <=? 223) then utf8_tail b && utf8_valid l2
          else match l2 with
          | [] => false
          | c :: l3 =>
              if (224 <=? a) && (a <=? 239) then
                utf8_tail b && utf8_tail c &&
                (if a =? 224 then 160 <=? b else true) &&
                (if a =? 237 then b <=? 159 else true) && utf8_valid l3
              else match l3 with
              | [] => false
              | d :: l4 =>
                  (240 <=? a) && (a <=? 244) && utf8_tail b && utf8_tail c && utf8_tail d &&
                  (if a =? 240 then 144 <=? b else true) &&
                  (if a =? 244 then b <=? 143 else true) && utf8_valid l4
              end
          end
      end
  end.

(** The number of bytes of a [White_Space] character at the front of a UTF-8
    string, 0 when the string starts with another character. *)
Definition white_space_front (l : list Z) : nat :=
  match l with
  | a :: l1 =>
      if ((9 <=? a) && (a <=? 13)) || (a =? 32) then 1%nat
      else match l1 with
      | b :: l2 =>
          if (a =? 194) && ((b =? 133) || (b =? 160)) then 2%nat
          else match l2 with
          | c :: _ =>
              if ((a =? 225) && (b =? 154) && (c =? 128)) ||
                 ((a =? 226) && (b =? 128) &&
                    (((128 <=? c) && (c <=? 138)) || (c =? 168) || (c =? 169) || (c =? 175))) ||
                 ((a =? 226) && (b =? 129) && (c =? 159)) ||
                 ((a =? 227) && (b =? 128) && (c =? 128))
              then 3%nat else 0%nat
          | [] => 0%nat
          end
      | [] => 0%nat
      end
  | [] => 0%nat
  end.

(** The same at the end, on the reversed string. *)
Definition white_space_back (r : list Z) : nat :=
  match r with
  | c :: r1 =>
      if ((9 <=? c) && (c <=? 13)) || (c =? 32) then 1%nat
      else match r1 with
      | b :: r2 =>
          if (b =? 194) && ((c =? 133) || (c =? 160)) then 2%nat
          else match r2 with
          | a :: _ => if (white_space_front [a; b; c] =? 3)%nat then 3%nat else 0%nat
          | [] => 0%nat
          end
      | [] => 0%nat
      end
  | [] => 0%nat
  end.

(** Drop characters from the front while [measure] finds one. *)
Fixpoint drop_while_front (fuel : nat) (measure : list Z → nat) (l : list Z) : list Z :=
  match fuel, measure l with
  | S fuel', S n => drop_while_front fuel' measure (drop (S n) l)
  | _, _ => l
  end.

(** [str::trim]: every step drops at least one byte. *)
Definition trim (l : list Z) : list Z :=
  let front := drop_while_front (length l) white_space_front l in
  rev (drop_while_front (length front) white_space_back (rev front)).

(** * The file system *)

Abbreviation Path := (list Name).

Module FKind.
Inductive FKind := Regular | Dir | Link | Special.
End FKind.
Abbreviation FKind := FKind.FKind.
#[global] Instance FKind_eq_dec : EqDecision FKind.
Proof. solve_decision. Defined.

(** [fs::Metadata]. *)
Module FileMeta.
Record FileMeta := Mk { kind : FKind; mode : Z; uid : Z; len : Z }.
End FileMeta.
Abbreviation FileMeta := FileMeta.FileMeta.

(** [std::fs] as the server uses it.  [st_view] is the contents of the regular
    files; a directory entry the iterator could not read is an error in
    [read_dir]. *)
Class StateFs (F : Type) := {
  st_view : F → gmap Path (list Z);
  symlink_metadata : F → Path → result IoError FileMeta;
  (** [File::open] and [file.metadata()] *)
  open_metadata : F → Path → result IoError FileMeta;
  (** [file.take(limit).read_to_end()] *)
  read_limited : F → Path → Z → result IoError (list Z);
  st_read_dir : F → Path → result IoError (list (result IoError Name));
  geteuid : F → Z;
  (** [rustix::fs::open] with [O_NOFOLLOW], and [file.metadata()] *)
  open_nofollow_metadata : F → Path → result IoError FileMeta;
  (** [OpenOptions::new().create_new(true).write(true).mode(mode).open()] *)
  create_new : F → Path → Z → result IoError unit * F;
  (** [file.write_all()] on a file just created *)
  st_write_all : F → Path → list Z → result IoError unit * F;
  sync_all : F → Path → result IoError unit * F;
  (** [File::open(directory)] and [sync_all] *)
  sync_directory_file : F → Path → result IoError unit * F;
  st_rename : F → Path → Path → result IoError unit * F;
  remove_file : F → Path → result IoError unit * F;
  create_dir_all : F → Path → result IoError unit * F;
  create_dir : F → Path → result IoError unit * F;
  remove_dir : F → Path → result IoError unit * F;
  set_permissions : F → Path → Z → result IoError unit * F
}.

(** There is nothing at [p]. *)
Definition missing {F} `{StateFs F} (f : F) (p : Path) : Prop :=
  symlink_metadata f p = Err (IoError.Os Errno.NOENT).

(** What the documentation of these calls promises about file contents. *)
Class StateFsLaws (F : Type) `{StateFs F} := {
  law_read_limited : ∀ f p n b, read_limited f p n = Ok b →
    ∃ data, st_view f !! p = Some data ∧ b = take (Z.to_nat n) data;
  law_create_new : ∀ f p m r f', create_new f p m = (r, f') →
    match r with
    | Ok _ => st_view f !! p = None ∧ st_view f' = <[p := []]> (st_view f)
    | Err _ => st_view f' = st_view f
    end;
  law_write_all : ∀ f p b r f', st_view f !! p = Some [] → st_write_all f p b = (r, f') →
    match r with
    | Ok _ => st_view f' = <[p := b]> (st_view f)
    | Err _ => ∃ b', st_view f' = <[p := b']> (st_view f)
    end;
  law_sync_all : ∀ f p, st_view (sync_all f p).2 = st_view f;
  law_sync_directory : ∀ f p, st_view (sync_directory_file f p).2 = st_view f;
  law_rename : ∀ f p q b r f', st_view f !! p = Some b → st_rename f p q = (r, f') →
    match r with
    | Ok _ => st_view f' = <[q := b]> (delete p (st_view f))
    | Err _ => st_view f' = st_view f
    end;
  law_remove_file : ∀ f p r f', remove_file f p = (r, f') →
    match r with
    | Ok _ => st_view f' = delete p (st_view f) ∧ missing f' p
    | Err _ => st_view f' = st_view f
    end;
  law_remove_missing : ∀ f p, missing f p → remove_file f p = (Err (IoError.Os Errno.NOENT), f);
  law_open_missing : ∀ f p, missing f p → open_metadata f p = Err (IoError.Os Errno.NOENT);
  law_create_dir_all : ∀ f p, st_view (create_dir_all f p).2 = st_view f;
  law_create_dir : ∀ f p, st_view (create_dir f p).2 = st_view f;
  law_remove_dir : ∀ f p, st_view (remove_dir f p).2 = st_view f;
  law_set_permissions : ∀ f p m, st_view (set_permissions f p m).2 = st_view f
}.

(** * Errors *)

Module AuthError.
Inductive AuthError :=
  | Io (e : IoError)
  | InvalidData (message : list Z)
  | UserExists (username : list Z)
  | UserNotFound (username : list Z)
  | PairingNotFound
  | PairingExpired
  | Crypto.
End AuthError.
Abbreviation AuthError := AuthError.AuthError.
#[global] Instance AuthError_eq_dec : EqDecision AuthError.
Proof. solve_decision. Defined.

Definition invalid_data {A} (message : string) : result AuthError A :=
  Err (AuthError.InvalidData (lit message)).

(** [Path::display]. *)
Definition display (p : Path) : list Z := mjoin (map (λ name, lit "/" ++ name) p).

(** * Private files and directories *)

Section private.
Context {F : Type} `{SF : StateFs F}.

Definition AM : Type → Type := SM F AuthError.

(** A call of the file system with [?]. *)
Definition fs_do {A} (call : F → result IoError A * F) : AM A := λ f,
  let '(r, f') := call f in (map_err AuthError.Io r, f').
(** The same with the result ignored: [let _ = ..]. *)
Definition fs_ignore {A} (call : F → result IoError A * F) : AM unit := λ f,
  (Ok tt, (call f).2).
(** A reading call with [?]. *)
Definition fs_ask {A} (call : F → result IoError A) : AM A := λ f,
  (map_err AuthError.Io (call f), f).

Definition path_exists (p : Path) : AM bool := λ f,
  match symlink_metadata f p with
  | Ok _ => (Ok true, f)
  | Err e => if bool_decide (io_kind e = IoKind.NotFound) then (Ok false, f)
             else (Err (AuthError.Io e), f)
  end.

Definition validate_current_owner (p : Path) (metadata : FileMeta) : AM unit :=
  euid ← sm_gets geteuid;
  if negb (FileMeta.uid metadata =? euid) then
    sm_err (AuthError.InvalidData (lit "private state path '" ++ display p ++
      lit "' must be owned by the effective server user"))
  else mret tt.

Definition secure_directory (p : Path) : AM unit :=
  metadata ← fs_ask (λ f, symlink_metadata f p);
  if negb (bool_decide (FileMeta.kind metadata = FKind.Dir)) then
    sm_err (AuthError.InvalidData (lit "private state directory '" ++ display p ++
      lit "' is not a real directory"))
  else
    _ ← validate_current_owner p metadata;
    fs_do (λ f, set_permissions f p 448).

Definition validate_private_directory (p : Path) : AM unit :=
  metadata ← fs_ask (λ f, symlink_metadata f p);
  if negb (bool_decide (FileMeta.kind metadata = FKind.Dir)) then
    sm_err (AuthError.InvalidData (lit "private state directory '" ++ display p ++
      lit "' is not a real directory"))
  else
    _ ← validate_current_owner p metadata;
    if negb (Z.land (FileMeta.mode metadata) 63 =? 0) then
      sm_err (AuthError.InvalidData (lit "private state directory '" ++ display p ++
        lit "' must not be accessible by group or other users"))
    else mret tt.

Definition validate_private_file (p : Path) : AM unit :=
  metadata ← fs_ask (λ f, symlink_metadata f p);
  if negb (bool_decide (FileMeta.kind metadata = FKind.Regular)) then
    sm_err (AuthError.InvalidData (lit "private state file '" ++ display p ++
      lit "' is not a regular file"))
  else
    _ ← validate_current_owner p metadata;
    if negb (Z.land (FileMeta.mode metadata) 63 =? 0) then
      sm_err (AuthError.InvalidData (lit "private state file '" ++ display p ++
        lit "' must not be accessible by group or other users"))
    else mret tt.

(** [read_json] without the parser: the bytes of a state file. *)
Definition read_state_bytes (p : Path) (maximum : Z) : AM (list Z) :=
  metadata ← fs_ask (λ f, open_metadata f p);
  if negb (bool_decide (FileMeta.kind metadata = FKind.Regular)) ||
     (maximum <? FileMeta.len metadata) then
    sm_err (AuthError.InvalidData (lit "private state file '" ++ display p ++
      lit "' is not regular or exceeds its safety limit"))
  else
    b ← fs_ask (λ f, read_limited f p (u64_saturating_add maximum 1));
    if zlen b >? maximum then
      sm_err (AuthError.InvalidData (lit "private state file '" ++ display p ++
        lit "' exceeds its safety limit"))
    else mret b.

(** [serde_json::from_slice] is [from_json], with the text of its error. *)
Definition read_json {T} (from_json : list Z → result (list Z) T) (p : Path) (maximum : Z) : AM T :=
  b ← read_state_bytes p maximum;
  sm_lift (map_err AuthError.InvalidData (from_json b)).

(** [Path::parent]. *)
Definition parent (p : Path) : option Path :=
  match p with [] => None | _ => Some (removelast p) end.

(** Replace a file through a temporary one in the same directory; [temporary]
    is the text of the fresh UUID in its name. *)
Definition temporary_path (dir : Path) (temporary : list Z) : Path :=
  dir ++ [lit ".quickfs-" ++ temporary ++ lit ".tmp"].

Definition write_private (temporary : list Z) (p : Path) (b : list Z) : AM unit :=
  dir ← sm_lift (ok_or (parent p)
          (AuthError.InvalidData (lit "state file has no parent directory")));
  let temp := temporary_path dir temporary in
  r ← sm_try (_ ← fs_do (λ f, create_new f temp 384);
              _ ← fs_do (λ f, st_write_all f temp b);
              _ ← fs_do (λ f, sync_all f temp);
              fs_do (λ f, st_rename f temp p));
  match r with
  | Ok _ => mret tt
  | Err e => _ ← fs_ignore (λ f, remove_file f temp); sm_err e
  end.
End private.

(** * Contents *)

(** [v] and [w] agree except at [temp]. *)
Definition same_but (temp : Path) (v w : gmap Path (list Z)) : Prop :=
  ∀ p, p ≠ temp → v !! p = w !! p.

(** The temporary file with which [p] is replaced. *)
Definition temp_of (p : Path) (temporary : list Z) : Path :=
  temporary_path (removelast p) temporary.

Lemma temp_of_ne p name temporary :
  starts_with (lit ".quickfs-") name = false → temp_of (p ++ [name]) temporary ≠ p ++ [name].
Proof.
  unfold temp_of, temporary_path. rewrite removelast_last. intros Hn E. apply app_inj_tail in E as [_ <-].
  by rewrite starts_with_app in Hn.
Qed.

Section contents.
Context {F : Type} `{SL : StateFsLaws F}.

(** [m] does not change the state. *)
Definition reads {A} (m : AM (F:=F) A) : Prop := ∀ f, (m f).2 = f.
(** [m] does not change the contents of any file. *)
Definition keeps_view {A} (m : AM (F:=F) A) : Prop := ∀ f, st_view (m f).2 = st_view f.

Lemma reads_ret {A} (a : A) : reads (mret a).
Proof. done. Qed.
Lemma reads_err {A} (e : AuthError) : reads (sm_err (A:=A) e).
Proof. done. Qed.
Lemma reads_lift {A} (r : result AuthError A) : reads (sm_lift r).
Proof. done. Qed.
Lemma reads_gets {A} (g : F → A) : reads (sm_gets g).
Proof. done. Qed.
Lemma reads_ask {A} (call : F → result IoError A) : reads (fs_ask call).
Proof. done. Qed.
Lemma reads_bind {A B} (m : AM A) (k : A → AM B) :
  reads m → (∀ a, reads (k a)) → reads (mbind k m).
Proof.
  intros Hm Hk f. unfold mbind, sm_bind. specialize (Hm f).
  destruct (m f) as [[a|e] f']; simpl in *; subst; [apply Hk|done].
Qed.
Lemma reads_if {A} (b : bool) (m n : AM A) : reads m → reads n → reads (if b then m else n).
Proof. by destruct b. Qed.
Lemma reads_exists p : reads (path_exists p).
Proof. intros f. unfold path_exists. by repeat case_match. Qed.

Lemma reads_keeps {A} (m : AM A) : reads m → keeps_view m.
Proof. intros Hm f. by rewrite Hm. Qed.
Lemma keeps_view_bind {A B} (m : AM A) (k : A → AM B) :
  keeps_view m → (∀ a, keeps_view (k a)) → keeps_view (mbind k m).
Proof.
  intros Hm Hk f. unfold mbind, sm_bind. specialize (Hm f).
  destruct (m f) as [[a|e] f']; simpl in *; [by rewrite Hk|done].
Qed.
Lemma keeps_view_do {A} (call : F → result IoError A * F) :
  (∀ f, st_view (call f).2 = st_view f) → keeps_view (fs_do call).
Proof. intros Hc f. specialize (Hc f). unfold fs_do. by destruct (call f). Qed.

(** A computation that only reads leaves the state to its continuation. *)
Lemma reads_run {A B} (m : AM A) (k : A → AM B) f r :
  reads m → mbind k m f = r →
  (∃ a, m f = (Ok a, f) ∧ k a f = r) ∨ (∃ e, m f = (Err e, f) ∧ r = (Err e, f)).
Proof.
  intros Hm. unfold mbind, sm_bind. specialize (Hm f).
  destruct (m f) as [[a|e] f'] eqn:E; simpl in *; subst; eauto.
Qed.
End contents.

#[export] Hint Resolve reads_ret reads_err reads_lift reads_gets reads_ask reads_bind reads_if
  reads_exists : sm.
#[export] Hint Resolve reads_keeps keeps_view_bind : sm.

Section write.
Context {F : Type} `{SL : StateFsLaws F}.

Lemma reads_validate_owner p m : reads (F:=F) (validate_current_owner p m).
Proof. unfold validate_current_owner. auto 6 with sm. Qed.
#[local] Hint Resolve reads_validate_owner : sm.

Lemma reads_validate_directory p : reads (F:=F) (validate_private_directory p).
Proof. unfold validate_private_directory. auto 10 with sm. Qed.

Lemma reads_validate_file p : reads (F:=F) (validate_private_file p).
Proof. unfold validate_private_file. auto 10 with sm. Qed.

Lemma reads_state_bytes p n : reads (F:=F) (read_state_bytes p n).
Proof. unfold read_state_bytes. auto 10 with sm. Qed.
#[local] Hint Resolve reads_state_bytes : sm.

Lemma reads_read_json {T} (from_json : list Z → result (list Z) T) p n :
  reads (F:=F) (read_json from_json p n).
Proof. unfold read_json. auto 10 with sm. Qed.

Lemma keeps_secure_directory p : keeps_view (F:=F) (secure_directory p).
Proof.
  unfold secure_directory. apply keeps_view_bind; [auto with sm|]. intros m.
  destruct (negb _); [auto with sm|]. apply keeps_view_bind; [auto with sm|]. intros _.
  apply keeps_view_do. intros f. apply law_set_permissions.
Qed.

(** What a successful read returns is the whole file. *)
Lemma read_state_bytes_view p n f b f' :
  0 ≤ n < u64_max → read_state_bytes p n f = (Ok b, f') → st_view f !! p = Some b ∧ f' = f.
Proof.
  intros Hn. unfold read_state_bytes, fs_ask. sm_unfold.
  destruct (open_metadata f p) as [m|]; simpl; [|done].
  destruct (_ || _); [done|].
  destruct (read_limited f p _) as [c|] eqn:Er; simpl; [|done].
  destruct (zlen c >? n) eqn:Hl; [done|]. intros [= -> <-]. bool_simpl.
  apply law_read_limited in Er as (data & Hv & ->). split; [|done]. rewrite Hv. f_equal.
  unfold zlen, u64_saturating_add in Hl. rewrite length_take in Hl.
  rewrite take_ge by (unfold u64_saturating_add; lia). done.
Qed.

(** The replacement is atomic: either the file has the new contents and
    nothing else changed, or nothing but the temporary file changed. *)
Lemma write_private_spec temporary p b f r f' :
  temp_of p temporary ≠ p → write_private temporary p b f = (r, f') →
  match r with
  | Ok _ => st_view f' = <[p := b]> (st_view f)
  | Err _ => same_but (temp_of p temporary) (st_view f') (st_view f)
  end.
Proof.
  intros Hne. unfold write_private.
  destruct (parent p) as [dir|] eqn:Hp; [|by intros [= <- <-]].
  assert (temporary_path dir temporary = temp_of p temporary) as Ht
    by (by destruct p; simplify_eq/=).
  simpl. sm_unfold. simpl. rewrite Ht. clear Ht Hp dir. set (temp := temp_of p temporary) in *.
  assert (∀ g, same_but temp (st_view g) (st_view f) →
    same_but temp (st_view (remove_file g temp).2) (st_view f)) as Hrm.
  { intros g Hg. destruct (remove_file g temp) as [rr g'] eqn:Er. apply law_remove_file in Er.
    intros q Hq. simpl. destruct rr; [destruct Er as [Er _]|]; rewrite Er;
      [rewrite lookup_delete_ne by done|]; by apply Hg. }
  unfold fs_do. destruct (create_new f temp 384) as [r1 f1] eqn:E1.
  apply law_create_new in E1. destruct r1 as [[]|e1]; simpl.
  2: { pose proof (Hrm f1) as Hr. ospecialize (Hr _); [by intros q _; rewrite E1|]. by intros [= <- <-]. }
  destruct E1 as [Hnone E1].
  destruct (st_write_all f1 temp b) as [r2 f2] eqn:E2.
  apply law_write_all in E2; [|by rewrite E1, lookup_insert_eq]. destruct r2 as [[]|e2]; simpl.
  2: { destruct E2 as [b' E2]. pose proof (Hrm f2) as Hr. ospecialize (Hr _); [|by intros [= <- <-]].
       intros q Hq. by rewrite E2, E1, !lookup_insert_ne. }
  pose proof (law_sync_all f2 temp) as E3.
  destruct (sync_all f2 temp) as [[[]|e3] f3]; simpl in *.
  2: { pose proof (Hrm f3) as Hr. ospecialize (Hr _); [|by intros [= <- <-]].
       intros q Hq. by rewrite E3, E2, E1, !lookup_insert_ne. }
  destruct (st_rename f3 temp p) as [r4 f4] eqn:E4.
  eapply law_rename in E4; [|by rewrite E3, E2, lookup_insert_eq].
  destruct r4 as [[]|e4]; simpl.
  2: { pose proof (Hrm f4) as Hr. ospecialize (Hr _); [|by intros [= <- <-]].
       intros q Hq. by rewrite E4, E3, E2, E1, !lookup_insert_ne. }
  intros [= <- <-]. rewrite E4, E3, E2, E1, insert_insert_eq, delete_insert_id; done.
Qed.
End write.

#[export] Hint Resolve reads_validate_owner reads_validate_directory reads_validate_file
  reads_state_bytes reads_read_json keeps_secure_directory : sm.

(** * An implementation *)

(** A file system in memory: the files and the directories, all private to the
    server user. *)
Module MemState.
Record Mem := Mk { files : gmap Path (list Z); dirs : gset Path }.

Definition stat (m : Mem) (p : Path) : result IoError FileMeta :=
  match files m !! p with
  | Some b => Ok (FileMeta.Mk FKind.Regular 384 0 (zlen b))
  | None => if bool_decide (p ∈ dirs m) then Ok (FileMeta.Mk FKind.Dir 448 0 0)
            else Err (IoError.Os Errno.NOENT)
  end.

Definition child (p q : Path) : option (result IoError Name) :=
  match last q with
  | Some name => if bool_decide (removelast q = p) then Some (Ok name) else None
  | None => None
  end.

#[global] Instance mem_state : StateFs Mem := {|
  st_view := files;
  symlink_metadata := stat;
  open_metadata := stat;
  open_nofollow_metadata := stat;
  read_limited m p n :=
    match files m !! p with
    | Some b => Ok (if zlen b <=? n then b else take (Z.to_nat n) b)
    | None => Err (IoError.Os Errno.NOENT)
    end;
  st_read_dir m p :=
    if bool_decide (p ∈ dirs m)
    then Ok (omap (child p) (elements (dom (files m)) ++ elements (dirs m)))
    else Err (IoError.Os Errno.NOENT);
  geteuid _ := 0;
  create_new m p _ :=
    match files m !! p with
    | Some _ => (Err (IoError.Os Errno.EXIST), m)
    | None => (Ok tt, Mk (<[p := []]> (files m)) (dirs m))
    end;
  st_write_all m p b := (Ok tt, Mk (<[p := b]> (files m)) (dirs m));
  sync_all m _ := (Ok tt, m);
  sync_directory_file m _ := (Ok tt, m);
  st_rename m p q :=
    match files m !! p with
    | Some b => (Ok tt, Mk (<[q := b]> (delete p (files m))) (dirs m))
    | None => (Err (IoError.Os Errno.NOENT), m)
    end;
  remove_file m p :=
    match files m !! p with
    | Some _ => (Ok tt, Mk (delete p (files m)) (dirs m ∖ {[p]}))
    | None => (Err (IoError.Os Errno.NOENT), m)
    end;
  create_dir_all m p := (Ok tt, Mk (files m) (dirs m ∪ {[p]}));
  create_dir m p :=
    if bool_decide (p ∈ dirs m) then (Err (IoError.Os Errno.EXIST), m)
    else (Ok tt, Mk (files m) (dirs m ∪ {[p]}));
  remove_dir m p := (Ok tt, Mk (files m) (dirs m ∖ {[p]}));
  set_permissions m _ _ := (Ok tt, m)
|}.

Lemma stat_missing m p :
  stat m p = Err (IoError.Os Errno.NOENT) → files m !! p = None ∧ p ∉ dirs m.
Proof. unfold stat. case_match; [done|]. case_bool_decide; done. Qed.

#[global] Instance mem_state_laws : StateFsLaws Mem.
Proof.
  split; simpl; unfold missing; simpl.
  - intros m p n b. case_match; [|done]. intros [= <-]. eexists. split; [done|].
    case_match; bool_simpl; [|done]. unfold zlen in *. rewrite take_ge; [done|lia].
  - intros m p _ r f'. case_match; by intros [= <- <-].
  - intros m p b r f' _. by intros [= <- <-].
  - done.
  - done.
  - intros m p q b r f' E. rewrite E. by intros [= <- <-].
  - intros m p r f'. destruct (files m !! p) eqn:E; intros [= <- <-]; [|done]. split; [done|].
    unfold stat. simpl. rewrite lookup_delete_eq, bool_decide_false; [done|]. set_solver.
  - intros m p [E _]%stat_missing. by rewrite E.
  - done.
  - done.
  - intros m p. by case_match.
  - done.
  - done.
Qed.
End MemState.
