(* ===== verification/Auth.v ===== *)
(** Authentication state of the server ([crates/auth/src/lib.rs]): the user
    database and its administration, the verification of credentials, pairing
    codes and pairing records, and the identity generations.  Argon2, HMAC,
    JSON, base64 and UUID texts are parameters; random values and the clock are
    arguments of the operations that draw them. *)

From S2P Require Import Prelude Protocol Common StateFiles.

Definition USERS_FILE : Name := lit "users.json".
Definition USERS_LOCK_FILE : Name := lit ".users.lock".
Definition PAIRINGS_DIR : Name := lit "pairings".
Definition CERT_FILE : Name := lit "server.crt".
Definition KEY_FILE : Name := lit "server.key".
Definition IDENTITIES_DIR : Name := lit "identities".
Definition ACTIVE_IDENTITY_FILE : Name := lit "active-identity".
Definition IDENTITY_LOCK_FILE : Name := lit ".identity.lock".
Definition MAX_IDENTITY_GENERATIONS : Z := 128.
Definition PAIRING_SECRET_LENGTH : Z := 20.
Definition PAIRING_CLIENT_PROOF_DOMAIN : list Z := lit "quickfs pairing client proof v1" ++ [0].
Definition PAIRING_SERVER_PROOF_DOMAIN : list Z := lit "quickfs pairing server proof v1" ++ [0].
Definition MAX_CERTIFICATE_PEM_SIZE : Z := 4 * 1024 * 1024.
Definition MAX_PRIVATE_KEY_PEM_SIZE : Z := 64 * 1024.
Definition MAX_USER_DATABASE_SIZE : Z := 16 * 1024 * 1024.
Definition MAX_PAIRING_RECORD_SIZE : Z := 4 * 1024.
Definition MAX_USERS : Z := 65536.
Definition MAX_PASSWORD_HASH_LENGTH : Z := 256.
Definition MIN_PASSWORD_LENGTH : Z := 12.
Definition MAX_PASSWORD_LENGTH : Z := 1024.
(** In seconds. *)
Definition MAX_PAIRING_LIFETIME : Z := 60 * 60.

(** * Data *)

Module StatePaths.
Record StatePaths := Mk { root : Path; certificate : Path; private_key : Path }.
Definition new (root : Path) : StatePaths := Mk root (root ++ [CERT_FILE]) (root ++ [KEY_FILE]).
End StatePaths.
Abbreviation StatePaths := StatePaths.StatePaths.

Module UserRecord.
Record UserRecord := Mk {
  username : list Z;
  password_hash : list Z;
  enabled : bool;
  writable : bool
}.
End UserRecord.
Abbreviation UserRecord := UserRecord.UserRecord.

Module UserAuthorization.
Record UserAuthorization := Mk { writable : bool }.
End UserAuthorization.
Abbreviation UserAuthorization := UserAuthorization.UserAuthorization.

Record UserDatabase := MkUserDatabase { users : list UserRecord }.

Module PairingRecord.
Record PairingRecord := Mk { id : Z; secret : list Z; expires_unix_seconds : Z }.
End PairingRecord.
Abbreviation PairingRecord := PairingRecord.PairingRecord.

Record PairingSecret := MkPairingSecret { secret_key : list Z }.

Module NewPairing.
Record NewPairing := Mk { id : Z; code : list Z; expires_unix_seconds : Z }.
End NewPairing.
Abbreviation NewPairing := NewPairing.NewPairing.

(** * Argon2 *)

Module ArgonParams.
Record ArgonParams := Mk { m_cost : Z; t_cost : Z; p_cost : Z; output_len : option Z }.
End ArgonParams.
Abbreviation ArgonParams := ArgonParams.ArgonParams.
#[global] Instance ArgonParams_eq_dec : EqDecision ArgonParams.
Proof. solve_decision. Defined.

(** [PasswordHash], with [Params::try_from] of it. *)
Module PasswordHash.
Record PasswordHash := Mk {
  algorithm : list Z;
  version : option Z;
  parameters : option ArgonParams;
  has_salt : bool;
  has_hash : bool
}.
End PasswordHash.
Abbreviation PasswordHash := PasswordHash.PasswordHash.

Class Argon2 := {
  (** [PasswordHash::new] *)
  phc_parse : list Z → option PasswordHash;
  (** [Params::new] of the default costs *)
  default_params : option ArgonParams;
  (** [SaltString::encode_b64] *)
  salt_encode : list Z → option (list Z);
  (** [Argon2::default().hash_password(password, salt)], as text *)
  argon2_hash : list Z → list Z → option (list Z);
  (** [Argon2::default().verify_password(password, hash).is_ok()] *)
  argon2_verify : list Z → list Z → bool
}.

(** * Base64 *)

(** [URL_SAFE_NO_PAD] and [base64::encoded_len(_, false)]. *)
Class Base64Url := {
  b64url_encode : list Z → list Z;
  b64url_decode : list Z → option (list Z);
  b64url_encoded_len : Z → option Z
}.

(** The 64 characters of the URL-safe alphabet. *)
Definition b64url_char (b : Z) : bool :=
  ((48 <=? b) && (b <=? 57)) || ((65 <=? b) && (b <=? 90)) || ((97 <=? b) && (b <=? 122)) ||
  (b =? 45) || (b =? 95).

(** Its documented behaviour (RFC 4648, section 5, without padding). *)
Class Base64UrlLaws `{Base64Url} := {
  law_b64_decode : ∀ b, is_bytes b → b64url_decode (b64url_encode b) = Some b;
  law_b64_length : ∀ b, zlen (b64url_encode b) = (4 * zlen b + 2) / 3;
  law_b64_chars : ∀ b, is_bytes b → Forall (λ c, b64url_char c = true) (b64url_encode b);
  law_b64_encoded_len : ∀ n, 0 ≤ n < u32_max → b64url_encoded_len n = Some ((4 * n + 2) / 3)
}.

(** * Names and passwords *)

Definition is_ascii_alphanumeric (b : Z) : bool :=
  ((48 <=? b) && (b <=? 57)) || ((65 <=? b) && (b <=? 90)) || ((97 <=? b) && (b <=? 122)).

Definition validate_username (username : list Z) : result AuthError unit :=
  if (1 <=? zlen username) && (zlen username <=? 64) &&
     forallb (λ b, is_ascii_alphanumeric b || (b =? 95) || (b =? 45) || (b =? 46)) username
  then Ok tt
  else invalid_data "username must be 1-64 ASCII letters, digits, '.', '_' or '-'".

Definition validate_new_password (password : list Z) : result AuthError unit :=
  if zlen password <? MIN_PASSWORD_LENGTH then
    invalid_data "password must contain at least 12 bytes"
  else if zlen password >? MAX_PASSWORD_LENGTH then
    invalid_data "password must contain at most 1024 bytes"
  else Ok tt.

Definition validate_identity_pem (certificate_pem private_key_pem : list Z) : result AuthError unit :=
  if bool_decide (certificate_pem = []) || (zlen certificate_pem >? MAX_CERTIFICATE_PEM_SIZE) then
    invalid_data "certificate PEM is empty or exceeds the safety limit"
  else if bool_decide (private_key_pem = []) || (zlen private_key_pem >? MAX_PRIVATE_KEY_PEM_SIZE)
  then invalid_data "private-key PEM is empty or exceeds the safety limit"
  else Ok tt.

(** * Pairing codes *)

(** [encoded.chunks(4)] joined with hyphens. *)
Fixpoint format_code (encoded : list Z) : list Z :=
  match encoded with
  | a :: b :: c :: d :: ((_ :: _) as rest) => a :: b :: c :: d :: 45 :: format_code rest
  | _ => encoded
  end.

(** [String::push(char::from(byte))]: bytes from 128 take two bytes in UTF-8. *)
Definition char_from (b : Z) : list Z :=
  if b <? 128 then [b] else [192 + b / 64; 128 + b mod 64].

Fixpoint ungroup (index : Z) (code : list Z) : result AuthError (list Z) :=
  match code with
  | [] => Ok []
  | byte :: code' =>
      if index mod 5 =? 4 then
        if negb (byte =? 45) then invalid_data "invalid pairing code grouping"
        else ungroup (index + 1) code'
      else
        rest ← ungroup (index + 1) code';
        Ok (char_from byte ++ rest)
  end.

Definition normalize_pairing_code `{Base64Url} (code : list Z) : result AuthError (list Z) :=
  let code := trim code in
  encoded_length ← ok_or (b64url_encoded_len PAIRING_SECRET_LENGTH) AuthError.Crypto;
  if zlen code =? encoded_length then Ok code
  else
    let separator_count := u64_saturating_sub encoded_length 1 / 4 in
    if negb (zlen code =? encoded_length + separator_count) then
      invalid_data "invalid pairing code length"
    else ungroup 0 code.

Definition parse_pairing_code `{Base64Url} (code : list Z) : result AuthError PairingSecret :=
  normalized ← normalize_pairing_code code;
  match b64url_decode normalized with
  | None => invalid_data "invalid pairing code"
  | Some b => if negb (zlen b =? PAIRING_SECRET_LENGTH) then invalid_data "invalid pairing code length"
              else Ok (MkPairingSecret b)
  end.

(** * Pairing proofs *)

Section proofs.
(** [Hmac::<Sha256>] of a key and a message ([None]: [new_from_slice] failed),
    and the 16 bytes of a UUID. *)
Context (hmac_sha256 : list Z → list Z → option (list Z)) (uuid_bytes : Z → list Z).

Definition proof_message (domain : list Z) (pairing_id : Z)
    (certificate_fingerprint client_nonce : list Z) : list Z :=
  domain ++ uuid_bytes pairing_id ++ certificate_fingerprint ++ client_nonce.

(** [PairingSecret::proof]. *)
Definition secret_proof (secret : PairingSecret) (domain : list Z) (pairing_id : Z)
    (certificate_fingerprint client_nonce : list Z) : result AuthError (list Z) :=
  ok_or (hmac_sha256 (secret_key secret)
           (proof_message domain pairing_id certificate_fingerprint client_nonce)) AuthError.Crypto.

(** [verify_slice] compares the whole tag. *)
Definition verify_proof (secret : PairingSecret) (domain : list Z) (pairing_id : Z)
    (certificate_fingerprint client_nonce proof : list Z) : bool :=
  match hmac_sha256 (secret_key secret)
          (proof_message domain pairing_id certificate_fingerprint client_nonce) with
  | None => false
  | Some mac => bool_decide (mac = proof)
  end.

Definition client_proof (secret : PairingSecret) := secret_proof secret PAIRING_CLIENT_PROOF_DOMAIN.
Definition verify_client_proof (secret : PairingSecret) :=
  verify_proof secret PAIRING_CLIENT_PROOF_DOMAIN.
Definition server_proof (secret : PairingSecret) := secret_proof secret PAIRING_SERVER_PROOF_DOMAIN.
Definition verify_server_proof (secret : PairingSecret) :=
  verify_proof secret PAIRING_SERVER_PROOF_DOMAIN.
End proofs.

(** * State operations *)

Section state.
Context {F : Type} `{SF : StateFs F} `{AR : Argon2} `{B64 : Base64Url}.
(** The JSON of the user database and of a pairing record, and UUID texts. *)
Context (users_to_json : UserDatabase → result (list Z) (list Z))
  (users_from_json : list Z → result (list Z) UserDatabase)
  (pairing_to_json : PairingRecord → result (list Z) (list Z))
  (pairing_from_json : list Z → result (list Z) PairingRecord)
  (uuid_text : Z → list Z) (uuid_parse : list Z → option Z).

(** ** Passwords *)

(** [salt] is what [getrandom::fill] gave. *)
Definition hash_password (salt : option (list Z)) (password : list Z) : result AuthError (list Z) :=
  salt_bytes ← ok_or salt AuthError.Crypto;
  encoded ← ok_or (salt_encode salt_bytes) AuthError.Crypto;
  ok_or (argon2_hash password encoded) AuthError.Crypto.

Definition parse_password_hash (value : list Z) : result AuthError PasswordHash :=
  if zlen value >? MAX_PASSWORD_HASH_LENGTH then
    invalid_data "password hash exceeds its safety limit"
  else
    parsed ← ok_or (phc_parse value) (AuthError.InvalidData (lit "password hash is malformed"));
    if negb (bool_decide (PasswordHash.algorithm parsed = lit "argon2id")) ||
       negb (bool_decide (PasswordHash.version parsed = Some 19)) then
      invalid_data "password hash uses an unsupported algorithm or version"
    else
      parameters ← ok_or (PasswordHash.parameters parsed)
                     (AuthError.InvalidData (lit "password hash parameters are invalid"));
      expected ← ok_or default_params AuthError.Crypto;
      if negb (bool_decide (parameters = expected)) || negb (PasswordHash.has_salt parsed) ||
         negb (PasswordHash.has_hash parsed) then
        invalid_data "password hash parameters exceed the supported policy"
      else Ok parsed.

(** ** Identity generations *)

(** [StatePaths::resolve]. *)
Definition resolve (root : Path) : AM StatePaths :=
  let active := root ++ [ACTIVE_IDENTITY_FILE] in
  present ← path_exists active;
  if negb present then mret (StatePaths.new root)
  else
    _ ← validate_private_file active;
    value ← fs_ask (λ f, read_limited f active u64_max);
    if zlen value >? 64 then sm_lift (invalid_data "active identity selector is too large")
    else if negb (utf8_valid value) then
      sm_lift (invalid_data "active identity selector is not UTF-8")
    else
      match uuid_parse (trim value) with
      | None => sm_lift (invalid_data "active identity selector is invalid")
      | Some generation =>
          let generation_root := root ++ [IDENTITIES_DIR; uuid_text generation] in
          mret (StatePaths.Mk root (generation_root ++ [CERT_FILE]) (generation_root ++ [KEY_FILE]))
      end.

Fixpoint validate_generations (identities : Path) (count : Z)
    (entries : list (result IoError Name)) : AM unit :=
  match entries with
  | [] => mret tt
  | entry :: entries' =>
      name ← sm_lift (map_err AuthError.Io entry);
      let count := u64_saturating_add count 1 in
      if count >? MAX_IDENTITY_GENERATIONS then
        sm_lift (invalid_data "identity generation limit of 128 exceeded")
      else if negb (utf8_valid name) then
        sm_lift (invalid_data "identity generation name is not UTF-8")
      else
        match uuid_parse name with
        | None => sm_lift (invalid_data "identity generation name is invalid")
        | Some _ =>
            let generation := identities ++ [name] in
            _ ← validate_private_directory generation;
            _ ← validate_private_file (generation ++ [CERT_FILE]);
            _ ← validate_private_file (generation ++ [KEY_FILE]);
            validate_generations identities count entries'
        end
  end.

Definition validate_identity_generations (root : Path) : AM unit :=
  let identities := root ++ [IDENTITIES_DIR] in
  present ← path_exists identities;
  if negb present then mret tt
  else
    _ ← validate_private_directory identities;
    entries ← fs_ask (λ f, st_read_dir f identities);
    validate_generations identities 0 entries.

Definition validate_server_state (root : Path) : AM unit :=
  _ ← validate_private_directory root;
  _ ← validate_private_directory (root ++ [PAIRINGS_DIR]);
  _ ← validate_private_file (root ++ [CERT_FILE]);
  _ ← validate_private_file (root ++ [KEY_FILE]);
  _ ← validate_private_file (root ++ [USERS_FILE]);
  _ ← validate_identity_generations root;
  active ← resolve root;
  _ ← validate_private_file (StatePaths.certificate active);
  validate_private_file (StatePaths.private_key active).

(** ** Users *)

(** Every record is valid and no name occurs twice. *)
Fixpoint check_users (seen : list (list Z)) (l : list UserRecord) : result AuthError unit :=
  match l with
  | [] => Ok tt
  | user :: l' =>
      _ ← validate_username (UserRecord.username user);
      _ ← parse_password_hash (UserRecord.password_hash user);
      if bool_decide (UserRecord.username user ∈ seen) then
        invalid_data "user database contains a duplicate username"
      else check_users (UserRecord.username user :: seen) l'
  end.

Definition read_user_database (p : Path) : AM UserDatabase :=
  database ← read_json users_from_json p MAX_USER_DATABASE_SIZE;
  if zlen (users database) >? MAX_USERS then
    sm_lift (invalid_data "user database contains too many accounts")
  else
    _ ← sm_lift (check_users [] (users database));
    mret database.

(** [write_json] of the user database. *)
Definition write_users (temporary : list Z) (p : Path) (database : UserDatabase) : AM unit :=
  b ← sm_lift (map_err AuthError.InvalidData (users_to_json database));
  if zlen b >? MAX_USER_DATABASE_SIZE then
    sm_lift (invalid_data "user database exceeds its safety limit")
  else write_private temporary p b.

(** [lock_user_database] and [lock_identity]: create the lock file, run the
    body, and remove the file when the guard is dropped. *)
Definition with_lock_file {A} (p : Path) (held : string) (body : AM A) : AM A :=
  r ← sm_try (fs_do (λ f, create_new f p 384));
  match r with
  | Err (AuthError.Io e) =>
      if bool_decide (io_kind e = IoKind.AlreadyExists) then sm_lift (invalid_data held)
      else sm_err (AuthError.Io e)
  | Err e => sm_err e
  | Ok _ =>
      result ← sm_try body;
      _ ← fs_ignore (λ f, remove_file f p);
      sm_lift result
  end.

Definition with_users_lock {A} (root : Path) : AM A → AM A :=
  with_lock_file (root ++ [USERS_LOCK_FILE])
    "another user-database administration operation is in progress".

(** [database.users.iter_mut().find(..)] and the change of what it found. *)
Fixpoint update_user (username : list Z) (change : UserRecord → UserRecord)
    (l : list UserRecord) : option (list UserRecord) :=
  match l with
  | [] => None
  | user :: l' =>
      if bool_decide (UserRecord.username user = username) then Some (change user :: l')
      else l'' ← update_user username change l'; Some (user :: l'')
  end.

Definition set_password_hash (h : list Z) (u : UserRecord) : UserRecord :=
  UserRecord.Mk (UserRecord.username u) h (UserRecord.enabled u) (UserRecord.writable u).
Definition set_enabled (b : bool) (u : UserRecord) : UserRecord :=
  UserRecord.Mk (UserRecord.username u) (UserRecord.password_hash u) b (UserRecord.writable u).
Definition set_writable (b : bool) (u : UserRecord) : UserRecord :=
  UserRecord.Mk (UserRecord.username u) (UserRecord.password_hash u) (UserRecord.enabled u) b.

(** [temporary] is the text of the UUID [write_private] draws. *)
Definition add_user (salt : option (list Z)) (temporary : list Z) (root : Path)
    (username password : list Z) : AM unit :=
  _ ← validate_server_state root;
  _ ← sm_lift (validate_username username);
  _ ← sm_lift (validate_new_password password);
  with_users_lock root (
    let p := root ++ [USERS_FILE] in
    database ← read_user_database p;
    if existsb (λ u, bool_decide (UserRecord.username u = username)) (users database) then
      sm_err (AuthError.UserExists username)
    else if zlen (users database) >=? MAX_USERS then
      sm_lift (invalid_data "user database has reached its account limit")
    else
      h ← sm_lift (hash_password salt password);
      write_users temporary p
        (MkUserDatabase (users database ++ [UserRecord.Mk username h true false]))).

Definition change_password (salt : option (list Z)) (temporary : list Z) (root : Path)
    (username password : list Z) : AM unit :=
  _ ← validate_server_state root;
  _ ← sm_lift (validate_username username);
  _ ← sm_lift (validate_new_password password);
  with_users_lock root (
    let p := root ++ [USERS_FILE] in
    database ← read_user_database p;
    _ ← sm_lift (ok_or (update_user username id (users database)) (AuthError.UserNotFound username));
    h ← sm_lift (hash_password salt password);
    l ← sm_lift (ok_or (update_user username (set_password_hash h) (users database))
           (AuthError.UserNotFound username));
    write_users temporary p (MkUserDatabase l)).

Definition set_user_enabled (temporary : list Z) (root : Path) (username : list Z) (enabled : bool)
    : AM unit :=
  _ ← validate_server_state root;
  _ ← sm_lift (validate_username username);
  with_users_lock root (
    let p := root ++ [USERS_FILE] in
    database ← read_user_database p;
    l ← sm_lift (ok_or (update_user username (set_enabled enabled) (users database))
           (AuthError.UserNotFound username));
    write_users temporary p (MkUserDatabase l)).

Definition set_user_writable (temporary : list Z) (root : Path) (username : list Z) (writable : bool)
    : AM unit :=
  _ ← validate_server_state root;
  _ ← sm_lift (validate_username username);
  with_users_lock root (
    let p := root ++ [USERS_FILE] in
    database ← read_user_database p;
    l ← sm_lift (ok_or (update_user username (set_writable writable) (users database))
           (AuthError.UserNotFound username));
    write_users temporary p (MkUserDatabase l)).

Definition remove_user (temporary : list Z) (root : Path) (username : list Z) : AM unit :=
  _ ← validate_server_state root;
  _ ← sm_lift (validate_username username);
  with_users_lock root (
    let p := root ++ [USERS_FILE] in
    database ← read_user_database p;
    let previous := zlen (users database) in
    let l := List.filter (λ u, negb (bool_decide (UserRecord.username u = username)))
               (users database) in
    if zlen l =? previous then sm_err (AuthError.UserNotFound username)
    else write_users temporary p (MkUserDatabase l)).

Definition verify_user_authorization (root : Path) (username password : list Z)
    : AM (option UserAuthorization) :=
  if negb (is_ok (validate_username username)) || (zlen password >? MAX_PASSWORD_LENGTH) then
    mret None
  else
    let users_path := root ++ [USERS_FILE] in
    _ ← validate_private_file users_path;
    database ← read_user_database users_path;
    match List.find (λ u, bool_decide (UserRecord.username u = username) && UserRecord.enabled u)
            (users database) with
    | None =>
        (* the salt of the equalising hash, whose result is dropped *)
        _ ← sm_lift (ok_or (salt_encode (lit "quickfs-unknown-user-salt")) AuthError.Crypto);
        mret None
    | Some user =>
        _ ← sm_lift (map_err (λ _, AuthError.InvalidData
               (lit "invalid password hash for user '" ++ username ++ lit "'"))
               (parse_password_hash (UserRecord.password_hash user)));
        if argon2_verify password (UserRecord.password_hash user)
        then mret (Some (UserAuthorization.Mk (UserRecord.writable user)))
        else mret None
    end.

Definition verify_user (root : Path) (username password : list Z) : AM bool :=
  r ← verify_user_authorization root username password;
  mret (bool_decide (is_Some r)).

(** ** Pairings *)

Definition pairing_path (root : Path) (id : Z) : Path :=
  root ++ [PAIRINGS_DIR; uuid_text id ++ lit ".json"].

(** [now] is [now_seconds()]; [lifetime] is in nanoseconds. *)
Definition create_pairing (id : Z) (random : option (list Z)) (now : result AuthError Z)
    (temporary : list Z) (root : Path) (lifetime : Z) : AM NewPairing :=
  _ ← validate_server_state root;
  let as_secs := lifetime / 10 ^ 9 in
  if as_secs =? 0 then sm_lift (invalid_data "pairing lifetime must be at least one second")
  else if lifetime >? MAX_PAIRING_LIFETIME * 10 ^ 9 then
    sm_lift (invalid_data "pairing lifetime must not exceed one hour")
  else
    secret ← sm_lift (ok_or random AuthError.Crypto);
    let encoded := b64url_encode secret in
    let code := format_code encoded in
    seconds ← sm_lift now;
    let expires := u64_saturating_add seconds as_secs in
    let record := PairingRecord.Mk id encoded expires in
    _ ← fs_do (λ f, create_dir_all f (root ++ [PAIRINGS_DIR]));
    _ ← secure_directory (root ++ [PAIRINGS_DIR]);
    serialized ← sm_lift (map_err AuthError.InvalidData (pairing_to_json record));
    _ ← write_private temporary (pairing_path root id) serialized;
    mret (NewPairing.Mk id code expires).

(** [map_err] of a missing file to [PairingNotFound]. *)
Definition missing_is_not_found {A} (m : AM (F:=F) A) : AM (F:=F) A := λ f,
  match m f with
  | (Err (AuthError.Io e), f') =>
      (Err (if bool_decide (io_kind e = IoKind.NotFound) then AuthError.PairingNotFound
            else AuthError.Io e), f')
  | r => r
  end.

Definition load_pairing (now : result AuthError Z) (root : Path) (id : Z) : AM PairingSecret :=
  let p := pairing_path root id in
  _ ← missing_is_not_found (validate_private_file p);
  record ← missing_is_not_found (read_json pairing_from_json p MAX_PAIRING_RECORD_SIZE);
  if negb (PairingRecord.id record =? id) then
    sm_lift (invalid_data "pairing identifier mismatch")
  else
    seconds ← sm_lift now;
    if PairingRecord.expires_unix_seconds record <=? seconds then
      _ ← fs_ignore (λ f, remove_file f p);
      sm_err AuthError.PairingExpired
    else
      match b64url_decode (PairingRecord.secret record) with
      | None => sm_lift (invalid_data "invalid pairing secret")
      | Some b => if negb (zlen b =? PAIRING_SECRET_LENGTH)
                  then sm_lift (invalid_data "invalid pairing secret length")
                  else mret (MkPairingSecret b)
      end.

Definition consume_pairing (root : Path) (id : Z) : AM unit :=
  missing_is_not_found (fs_do (λ f, remove_file f (pairing_path root id))).

(** ** Initialisation and identities *)

(** [temporaries] are the texts of the UUIDs the three [write_private] draw. *)
Definition initialize_with_identity (temporaries : list Z * list Z * list Z) (root : Path)
    (certificate_pem private_key_pem : list Z) : AM StatePaths :=
  _ ← sm_lift (validate_identity_pem certificate_pem private_key_pem);
  _ ← fs_do (λ f, create_dir_all f root);
  _ ← secure_directory root;
  let paths := StatePaths.new root in
  let users_path := root ++ [USERS_FILE] in
  let pairings := root ++ [PAIRINGS_DIR] in
  let active_identity := root ++ [ACTIVE_IDENTITY_FILE] in
  let identities := root ++ [IDENTITIES_DIR] in
  certificate_present ← path_exists (StatePaths.certificate paths);
  key_present ← (if (certificate_present : bool) then mret true
                 else path_exists (StatePaths.private_key paths));
  users_present ← (if (key_present : bool) then mret true else path_exists users_path);
  if (users_present : bool) then
    sm_err (AuthError.InvalidData (lit "server state files already exist in '" ++ display root ++
      lit "'"))
  else
    pairings_present ← path_exists pairings;
    pairing_records ←
      (if (pairings_present : bool) then
         entries ← fs_ask (λ f, st_read_dir f pairings);
         match entries with
         | [] => mret false
         | entry :: _ => _ ← sm_lift (map_err AuthError.Io entry); mret true
         end
       else mret false);
    if (pairing_records : bool) then
      sm_lift (invalid_data "pairing records already exist in the state directory")
    else
      active_present ← path_exists active_identity;
      identities_present ← (if (active_present : bool) then mret true else path_exists identities);
      if (identities_present : bool) then
        sm_lift (invalid_data "identity generations already exist in the state directory")
      else
        _ ← fs_do (λ f, create_dir_all f pairings);
        _ ← secure_directory pairings;
        _ ← write_private temporaries.1.1 (StatePaths.private_key paths) private_key_pem;
        _ ← write_private temporaries.1.2 (StatePaths.certificate paths) certificate_pem;
        _ ← write_users temporaries.2 users_path (MkUserDatabase []);
        mret paths.

(** [self_signed] is [rcgen::generate_simple_self_signed] with the PEM texts of
    the certificate and of its key. *)
Definition initialize (self_signed : list (list Z) → result (list Z) (list Z * list Z))
    (temporaries : list Z * list Z * list Z) (root : Path) (server_names : list (list Z))
    : AM StatePaths :=
  if bool_decide (server_names = []) then
    sm_lift (invalid_data "at least one server name is required")
  else
    pem ← sm_lift (map_err AuthError.InvalidData (self_signed server_names));
    initialize_with_identity temporaries root pem.1 pem.2.

(** The [try_fold] that counts the generations. *)
Fixpoint count_entries (count : Z) (entries : list (result IoError Name)) : result AuthError Z :=
  match entries with
  | [] => Ok count
  | entry :: entries' =>
      _ ← map_err AuthError.Io entry;
      count_entries (u64_saturating_add count 1) entries'
  end.

(** [generation] is [Uuid::new_v4()]. *)
Definition install_identity (generation : Z) (temporaries : list Z * list Z * list Z)
    (root : Path) (certificate_pem private_key_pem : list Z) : AM StatePaths :=
  _ ← sm_lift (validate_identity_pem certificate_pem private_key_pem);
  _ ← validate_server_state root;
  with_lock_file (root ++ [IDENTITY_LOCK_FILE]) "another identity installation is in progress" (
    let identities := root ++ [IDENTITIES_DIR] in
    _ ← fs_do (λ f, create_dir_all f identities);
    _ ← secure_directory identities;
    entries ← fs_ask (λ f, st_read_dir f identities);
    existing ← sm_lift (count_entries 0 entries);
    if existing >=? MAX_IDENTITY_GENERATIONS then
      sm_lift (invalid_data "identity generation limit of 128 reached")
    else
      let generation_root := root ++ [IDENTITIES_DIR; uuid_text generation] in
      _ ← fs_do (λ f, create_dir f generation_root);
      _ ← secure_directory generation_root;
      let paths := StatePaths.Mk root (generation_root ++ [CERT_FILE])
                     (generation_root ++ [KEY_FILE]) in
      result ← sm_try (
        _ ← write_private temporaries.1.1 (StatePaths.private_key paths) private_key_pem;
        _ ← write_private temporaries.1.2 (StatePaths.certificate paths) certificate_pem;
        write_private temporaries.2 (root ++ [ACTIVE_IDENTITY_FILE]) (uuid_text generation));
      match result with
      | Ok _ => mret paths
      | Err e =>
          _ ← fs_ignore (λ f, remove_file f (StatePaths.certificate paths));
          _ ← fs_ignore (λ f, remove_file f (StatePaths.private_key paths));
          _ ← fs_ignore (λ f, remove_dir f generation_root);
          sm_err e
      end).
End state.
