(* ===== verification/AuthFacts.v ===== *)
(** Theorems on the authentication state: user administration refines updates
    of a map of accounts and replaces the database atomically, verification
    grants exactly what the stored account grants, pairing codes and records
    agree, a pairing is used at most once, and the installation of an identity
    is atomic. *)

From S2P Require Import Prelude Protocol Common StateFiles Auth.

(** * The abstract user database *)

(** The accounts of a database, by name. *)
Definition accounts (db : UserDatabase) : gmap (list Z) UserRecord :=
  list_to_map (map (λ u, (UserRecord.username u, u)) (users db)).

(** What an account grants for a password. *)
Definition authorization `{Argon2} (m : gmap (list Z) UserRecord) (username password : list Z)
    : option UserAuthorization :=
  match m !! username with
  | Some u => if UserRecord.enabled u && argon2_verify password (UserRecord.password_hash u)
              then Some (UserAuthorization.Mk (UserRecord.writable u)) else None
  | None => None
  end.

(** The requests of the administrator; a new password comes with its salt. *)
Inductive AdminOp :=
  | AddUser (salt : option (list Z)) (username password : list Z)
  | ChangePassword (salt : option (list Z)) (username password : list Z)
  | SetEnabled (username : list Z) (enabled : bool)
  | SetWritable (username : list Z) (writable : bool)
  | RemoveUser (username : list Z).

(** Their effect on the accounts. *)
Definition admin_step `{Argon2} (op : AdminOp) (m m' : gmap (list Z) UserRecord) : Prop :=
  match op with
  | AddUser salt u password =>
      m !! u = None ∧ ∃ h, hash_password salt password = Ok h ∧
        m' = <[u := UserRecord.Mk u h true false]> m
  | ChangePassword salt u password =>
      ∃ r h, m !! u = Some r ∧ hash_password salt password = Ok h ∧
        m' = <[u := set_password_hash h r]> m
  | SetEnabled u b => ∃ r, m !! u = Some r ∧ m' = <[u := set_enabled b r]> m
  | SetWritable u b => ∃ r, m !! u = Some r ∧ m' = <[u := set_writable b r]> m
  | RemoveUser u => is_Some (m !! u) ∧ m' = delete u m
  end.

(** Every record can be read back, and names are unique. *)
Definition valid_users `{Argon2} (db : UserDatabase) : Prop :=
  Forall (λ u, validate_username (UserRecord.username u) = Ok tt ∧
               is_ok (parse_password_hash (UserRecord.password_hash u)) = true) (users db) ∧
  NoDup (map UserRecord.username (users db)) ∧ zlen (users db) ≤ MAX_USERS.

(** Argon2 hashes with its default parameters, which the policy accepts, and
    verifies the password it hashed. *)
Class Argon2Laws `{Argon2} := {
  law_argon2_policy : ∀ password salt h, argon2_hash password salt = Some h →
    is_ok (parse_password_hash h) = true;
  law_argon2_verify : ∀ password salt h, argon2_hash password salt = Some h →
    argon2_verify password h = true
}.

(** * Lists of accounts *)

Lemma sublist_map {A B} (g : A → B) l k : l `sublist_of` k → map g l `sublist_of` map g k.
Proof. induction 1; simpl; by constructor. Qed.

Section users.
Context `{AR : Argon2}.

Lemma check_users_ok seen l :
  check_users seen l = Ok tt ↔
  Forall (λ u, validate_username (UserRecord.username u) = Ok tt ∧
               is_ok (parse_password_hash (UserRecord.password_hash u)) = true) l ∧
  NoDup (map UserRecord.username l) ∧ ∀ u, u ∈ l → UserRecord.username u ∉ seen.
Proof.
  revert seen. induction l as [|u l IH]; intros seen; simpl.
  { split; [|done]. intros _. split_and!; [constructor|constructor|set_solver]. }
  unfold mbind, result_bind. rewrite Forall_cons, NoDup_cons.
  destruct (validate_username (UserRecord.username u)) as [[]|] eqn:E1; [|naive_solver].
  destruct (parse_password_hash (UserRecord.password_hash u)) as [h|] eqn:E2; [|naive_solver].
  case_match; bool_simpl.
  - split; [done|]. intros (_ & _ & Hs). by destruct (Hs u); [left|].
  - rewrite IH. setoid_rewrite elem_of_cons.
    assert (UserRecord.username u ∉ map UserRecord.username l ↔
            ∀ v, v ∈ l → UserRecord.username v ≠ UserRecord.username u) as Hmap.
    { rewrite list_elem_of_fmap. naive_solver. }
    rewrite Hmap. split; [naive_solver|]. intros (? & ? & ?). split_and!; naive_solver.
Qed.

Lemma accounts_lookup db u r :
  NoDup (map UserRecord.username (users db)) →
  accounts db !! u = Some r ↔ r ∈ users db ∧ UserRecord.username r = u.
Proof.
  intros Hd. unfold accounts. rewrite <- elem_of_list_to_map.
  - rewrite list_elem_of_fmap. naive_solver.
  - by rewrite <- list_fmap_compose.
Qed.

Lemma accounts_None db u :
  accounts db !! u = None ↔ ∀ r, r ∈ users db → UserRecord.username r ≠ u.
Proof.
  unfold accounts. rewrite <- not_elem_of_list_to_map, <- list_fmap_compose, list_elem_of_fmap.
  naive_solver.
Qed.

(** The enabled account of a name is the account of that name, if enabled. *)
Lemma find_enabled db username :
  NoDup (map UserRecord.username (users db)) →
  List.find (λ u, bool_decide (UserRecord.username u = username) && UserRecord.enabled u) (users db) =
  match accounts db !! username with
  | Some u => if UserRecord.enabled u then Some u else None
  | None => None
  end.
Proof.
  intros Hd. destruct (List.find _ _) as [u|] eqn:E.
  - apply List.find_some in E as [Hin Hu]. bool_simpl.
    rewrite (proj2 (accounts_lookup db username u Hd)); [|by rewrite <- list_elem_of_In in Hin].
    by case_match.
  - destruct (accounts db !! username) as [u|] eqn:Ea; [|done].
    apply accounts_lookup in Ea as [Hin Hu]; [|done].
    pose proof (List.find_none _ _ E u) as Hn. rewrite <- list_elem_of_In in Hn.
    specialize (Hn Hin). simpl in Hn. rewrite bool_decide_true in Hn by done. simpl in Hn.
    by rewrite Hn.
Qed.

Lemma update_user_names username change l l' :
  (∀ u, UserRecord.username (change u) = UserRecord.username u) →
  update_user username change l = Some l' →
  map UserRecord.username l' = map UserRecord.username l.
Proof.
  intros Hc. revert l'. induction l as [|u l IH]; intros l'; simpl; [done|].
  case_match; [intros [= <-]; simpl; by rewrite Hc|].
  destruct (update_user username change l) as [l1|]; [|done]. intros [= <-]. simpl.
  by rewrite (IH l1).
Qed.

Lemma update_user_Forall (P : UserRecord → Prop) username change l l' :
  (∀ u, P u → P (change u)) → update_user username change l = Some l' → Forall P l → Forall P l'.
Proof.
  intros Hc. revert l'. induction l as [|u l IH]; intros l'; simpl; [done|].
  rewrite Forall_cons. case_match; [intros [= <-] []; constructor; auto|].
  destruct (update_user username change l) as [l1|]; [|done].
  intros [= <-] []. constructor; auto.
Qed.

Lemma update_user_accounts username change l l' :
  (∀ u, UserRecord.username (change u) = UserRecord.username u) →
  update_user username change l = Some l' →
  ∃ r, accounts (MkUserDatabase l) !! username = Some r ∧
       accounts (MkUserDatabase l') = <[username := change r]> (accounts (MkUserDatabase l)).
Proof.
  intros Hc. unfold accounts. simpl. revert l'.
  induction l as [|u l IH]; intros l'; simpl; [done|].
  case_match; bool_simpl.
  - intros [= <-]. exists u. simpl. rewrite Hc. subst username.
    by rewrite lookup_insert_eq, insert_insert_eq.
  - destruct (update_user username change l) as [l1|]; [|done]. intros [= <-]. simpl.
    destruct (IH l1 eq_refl) as (r & Hr & ->). exists r. split.
    + by rewrite lookup_insert_ne.
    + by rewrite insert_insert_ne.
Qed.

Lemma accounts_snoc l u :
  accounts (MkUserDatabase l) !! UserRecord.username u = None →
  accounts (MkUserDatabase (l ++ [u])) =
  <[UserRecord.username u := u]> (accounts (MkUserDatabase l)).
Proof.
  unfold accounts. simpl. intros Hn. rewrite map_app, list_to_map_app. simpl.
  rewrite insert_empty, insert_union_singleton_l. symmetry. apply map_union_comm.
  by apply map_disjoint_singleton_l.
Qed.

Lemma accounts_filter l username :
  accounts (MkUserDatabase
    (List.filter (λ u, negb (bool_decide (UserRecord.username u = username))) l)) =
  delete username (accounts (MkUserDatabase l)).
Proof.
  unfold accounts. simpl. induction l as [|u l IH]; simpl; [by rewrite delete_empty|].
  case_bool_decide as E; simpl.
  - subst. by rewrite delete_insert_eq.
  - by rewrite IH, delete_insert_ne.
Qed.
End users.

(** * Updates of the stored database *)

Section admin.
Context {F : Type} `{SL : StateFsLaws F} `{AR : Argon2} {AL : Argon2Laws}.
Context (users_to_json : UserDatabase → result (list Z) (list Z))
  (users_from_json : list Z → result (list Z) UserDatabase)
  (uuid_text : Z → list Z) (uuid_parse : list Z → option Z).
Hypothesis users_json : ∀ db b, users_to_json db = Ok b → users_from_json b = Ok db.

Abbreviation read_user_database := (read_user_database users_from_json).
Abbreviation write_users := (write_users users_to_json).

(** The database file of [root] holds [db]. *)
Definition stores (f : F) (root : Path) (db : UserDatabase) : Prop :=
  ∃ b, st_view f !! (root ++ [USERS_FILE]) = Some b ∧ users_from_json b = Ok db.

Lemma reads_read_users p : reads (F:=F) (read_user_database p).
Proof. unfold Auth.read_user_database. auto 10 with sm. Qed.

Lemma read_users_stores root f db f' :
  read_user_database (root ++ [USERS_FILE]) f = (Ok db, f') →
  f' = f ∧ stores f root db ∧ valid_users db.
Proof.
  unfold Auth.read_user_database, read_json. sm_unfold.
  destruct (read_state_bytes _ _ f) as [[b|] f1] eqn:E; [|done].
  apply read_state_bytes_view in E as [Hv ->]; [|done].
  destruct (users_from_json b) as [d|] eqn:Ej; simpl; [|done].
  destruct (_ >? _) eqn:Hn; [done|]. destruct (check_users [] (users d)) as [[]|] eqn:Ec; [|done].
  intros [= -> <-]. apply check_users_ok in Ec as (? & ? & _). bool_simpl.
  split_and!; [done| |done]. by exists b.
Qed.

Lemma write_users_spec temporary root db f r f' :
  write_users temporary (root ++ [USERS_FILE]) db f = (r, f') →
  match r with
  | Ok _ => stores f' root db ∧ ∀ p, p ≠ root ++ [USERS_FILE] → st_view f' !! p = st_view f !! p
  | Err _ => same_but (temp_of (root ++ [USERS_FILE]) temporary) (st_view f') (st_view f)
  end.
Proof.
  unfold Auth.write_users. sm_unfold.
  destruct (users_to_json db) as [b|] eqn:Ej; simpl; [|by intros [= <- <-]].
  destruct (_ >? _); [by intros [= <- <-]|].
  intros Hw. apply write_private_spec in Hw; [|by apply temp_of_ne].
  destruct r; [|done]. split.
  - exists b. rewrite Hw, lookup_insert_eq. auto.
  - intros p Hp. by rewrite Hw, lookup_insert_ne.
Qed.

(** The part of an administration request that runs under the lock: read the
    database, compute the new list of users, write it back. *)
Definition edit_users (temporary : list Z) (p : Path)
    (g : UserDatabase → result AuthError (list UserRecord)) : AM (F:=F) unit :=
  database ← read_user_database p;
  l ← sm_lift (g database);
  write_users temporary p (MkUserDatabase l).

(** What a request changed: the database when it succeeded, and temporary and
    lock files. *)
Definition edit_outcome (temporary : list Z) (root : Path)
    (g : UserDatabase → result AuthError (list UserRecord)) (r : result AuthError unit) (f f' : F) : Prop :=
  match r with
  | Ok _ => ∃ db l, stores f root db ∧ valid_users db ∧ g db = Ok l ∧ stores f' root (MkUserDatabase l)
  | Err _ => st_view f' !! (root ++ [USERS_FILE]) = st_view f !! (root ++ [USERS_FILE])
  end ∧
  ∀ p, p ≠ root ++ [USERS_FILE] → p ≠ root ++ [USERS_LOCK_FILE] →
    p ≠ temp_of (root ++ [USERS_FILE]) temporary → st_view f' !! p = st_view f !! p.

Lemma edit_users_spec temporary root g f r f' :
  edit_users temporary (root ++ [USERS_FILE]) g f = (r, f') → edit_outcome temporary root g r f f'.
Proof.
  unfold edit_users. sm_unfold.
  pose proof (reads_read_users (root ++ [USERS_FILE]) f) as Hr.
  destruct (read_user_database _ f) as [[db|e] f1] eqn:E; simpl in Hr; subst.
  2: { by intros [= <- <-]. }
  apply read_users_stores in E as (_ & Hst & Hval).
  destruct (g db) as [l|] eqn:Eg; [|by intros [= <- <-]].
  intros Hw. apply write_users_spec in Hw. unfold edit_outcome. destruct r.
  - destruct Hw as [? Hsame]. split; [by exists db, l|]. intros p ? ? ?. by apply Hsame.
  - split; [apply Hw; apply not_eq_sym; by apply temp_of_ne|]. intros p ? ? ?. by apply Hw.
Qed.

Lemma stores_view (f f' : F) root db :
  st_view f' !! (root ++ [USERS_FILE]) = st_view f !! (root ++ [USERS_FILE]) →
  stores f root db ↔ stores f' root db.
Proof. intros E. unfold stores. by rewrite E. Qed.

Lemma with_lock_file_spec {A} lock held (body : AM (F:=F) A) f r f' :
  with_lock_file lock held body f = (r, f') →
  (is_ok r = false ∧ st_view f' = st_view f) ∨
  ∃ f1 f2, (∀ p, p ≠ lock → st_view f1 !! p = st_view f !! p) ∧ body f1 = (r, f2) ∧
    ∀ p, p ≠ lock → st_view f' !! p = st_view f2 !! p.
Proof.
  unfold with_lock_file, fs_do. sm_unfold.
  destruct (create_new f _ _) as [rc f1] eqn:Ec. apply law_create_new in Ec.
  destruct rc as [[]|e]; simpl.
  2: { case_match; intros [= <- <-]; by left. }
  destruct Ec as [_ Ec]. destruct (body f1) as [rb f2] eqn:Eb.
  unfold fs_ignore. destruct (remove_file f2 _) as [rr f3] eqn:Er. apply law_remove_file in Er.
  simpl. intros [= <- <-]. right. exists f1, f2. split_and!; [|done|].
  - intros p Hp. by rewrite Ec, lookup_insert_ne.
  - intros p Hp. destruct rr; [destruct Er as [-> _]|by rewrite Er]. by rewrite lookup_delete_ne.
Qed.

Lemma with_users_lock_spec temporary root g (body : AM unit) f r f' :
  (∀ f, body f = edit_users temporary (root ++ [USERS_FILE]) g f) →
  with_users_lock root body f = (r, f') → edit_outcome temporary root g r f f'.
Proof.
  intros Hbody [[Hr Hv]|(f1 & f2 & H1 & E & H3)]%with_lock_file_spec.
  { split; [|intros; by rewrite Hv]. destruct r; [done|]. by rewrite Hv. }
  rewrite Hbody in E. apply edit_users_spec in E as [Hmain Hframe].
  assert (root ++ [USERS_FILE] ≠ root ++ [USERS_LOCK_FILE]) as Hne by (by intros [_ ?]%app_inj_tail).
  split.
  - destruct r as [[]|e].
    + destruct Hmain as (db & l & Hs & Hv & Hg & Hs'). exists db, l. split_and!; try done.
      * by apply (stores_view f f1); [apply H1|].
      * by apply (stores_view f' f2); [symmetry; apply H3|].
    + by rewrite H3, Hmain, H1.
  - intros p ? ? ?. by rewrite H3, Hframe, H1.
Qed.

Lemma reads_resolve root : reads (F:=F) (resolve uuid_text uuid_parse root).
Proof.
  unfold resolve. apply reads_bind; [auto with sm|]. intros present.
  destruct (negb present); [auto with sm|]. apply reads_bind; [auto with sm|]. intros _.
  apply reads_bind; [auto with sm|]. intros value. repeat case_match; auto with sm.
Qed.

Lemma reads_validate_generations identities count entries :
  reads (F:=F) (validate_generations uuid_parse identities count entries).
Proof.
  revert count. induction entries as [|e es IH]; intros count; simpl; [auto with sm|].
  apply reads_bind; [auto with sm|]. intros name. repeat case_match; auto 10 with sm.
Qed.

Lemma reads_validate_identities root :
  reads (F:=F) (validate_identity_generations uuid_parse root).
Proof.
  unfold validate_identity_generations. apply reads_bind; [auto with sm|]. intros present.
  destruct (negb present); [auto with sm|]. apply reads_bind; [auto with sm|]. intros _.
  apply reads_bind; [auto with sm|]. intros es. apply reads_validate_generations.
Qed.

#[local] Hint Resolve reads_resolve reads_validate_identities : sm.

Lemma reads_validate_state root : reads (F:=F) (validate_server_state uuid_text uuid_parse root).
Proof. unfold validate_server_state. auto 30 with sm. Qed.

(** The administration requests. *)
Definition run_admin (temporary : list Z) (root : Path) (op : AdminOp) : AM (F:=F) unit :=
  match op with
  | AddUser salt u password =>
      add_user users_to_json users_from_json uuid_text uuid_parse salt temporary root u password
  | ChangePassword salt u password =>
      change_password users_to_json users_from_json uuid_text uuid_parse salt temporary root u password
  | SetEnabled u b =>
      set_user_enabled users_to_json users_from_json uuid_text uuid_parse temporary root u b
  | SetWritable u b =>
      set_user_writable users_to_json users_from_json uuid_text uuid_parse temporary root u b
  | RemoveUser u => remove_user users_to_json users_from_json uuid_text uuid_parse temporary root u
  end.

(** The change of the user list a request makes. *)
Definition admin_edit (op : AdminOp) (db : UserDatabase) : result AuthError (list UserRecord) :=
  match op with
  | AddUser salt u password =>
      if existsb (λ r, bool_decide (UserRecord.username r = u)) (users db) then
        Err (AuthError.UserExists u)
      else if zlen (users db) >=? MAX_USERS then
        invalid_data "user database has reached its account limit"
      else h ← hash_password salt password; Ok (users db ++ [UserRecord.Mk u h true false])
  | ChangePassword salt u password =>
      _ ← ok_or (update_user u id (users db)) (AuthError.UserNotFound u);
      h ← hash_password salt password;
      ok_or (update_user u (set_password_hash h) (users db)) (AuthError.UserNotFound u)
  | SetEnabled u b => ok_or (update_user u (set_enabled b) (users db)) (AuthError.UserNotFound u)
  | SetWritable u b => ok_or (update_user u (set_writable b) (users db)) (AuthError.UserNotFound u)
  | RemoveUser u =>
      let l := List.filter (λ r, negb (bool_decide (UserRecord.username r = u))) (users db) in
      if zlen l =? zlen (users db) then Err (AuthError.UserNotFound u) else Ok l
  end.

Definition admin_name (op : AdminOp) : list Z :=
  match op with
  | AddUser _ u _ | ChangePassword _ u _ | SetEnabled u _ | SetWritable u _ | RemoveUser u => u
  end.

(** A request validates the state, the name and the password, and then edits
    the database under the lock. *)
Lemma run_admin_edit temporary root op f r f' :
  run_admin temporary root op f = (r, f') →
  (f' = f ∧ is_ok r = false) ∨
  (validate_username (admin_name op) = Ok tt ∧ edit_outcome temporary root (admin_edit op) r f f').
Proof.
  assert (∀ (k : unit → AM unit),
    (_ ← validate_server_state uuid_text uuid_parse root;
     x ← sm_lift (validate_username (admin_name op)); k x) f = (r, f') →
    (f' = f ∧ is_ok r = false) ∨ (validate_username (admin_name op) = Ok tt ∧ k tt f = (r, f')))
    as Hpre.
  { intros k H0. apply reads_run in H0 as [([] & _ & H0)|(e & _ & H0)];
      [|simplify_eq; auto|apply reads_validate_state].
    revert H0. sm_unfold. destruct (validate_username _) as [[]|]; [auto|]. intros [= <- <-]. auto. }
  destruct op as [salt u pw|salt u pw|u b|u b|u]; simpl;
    unfold add_user, change_password, set_user_enabled, set_user_writable, remove_user;
    (intros [?|[Hu Hrun]]%Hpre; [by left|]).
  - revert Hrun. sm_unfold. destruct (validate_new_password pw) as [[]|]; [|intros [= <- <-]; auto].
    intros Hrun. right. split; [done|]. eapply with_users_lock_spec; [|exact Hrun].
    intros g. unfold edit_users. sm_unfold. destruct (read_user_database _ g) as [[db|] g1]; [|done].
    unfold admin_edit, mbind, result_bind. destruct (existsb _ _); [done|].
    destruct (_ >=? _); [done|]. by destruct (hash_password salt pw).
  - revert Hrun. sm_unfold. destruct (validate_new_password pw) as [[]|]; [|intros [= <- <-]; auto].
    intros Hrun. right. split; [done|]. eapply with_users_lock_spec; [|exact Hrun].
    intros g. unfold edit_users. sm_unfold. destruct (read_user_database _ g) as [[db|] g1]; [|done].
    unfold admin_edit, mbind, result_bind. destruct (update_user u id _); [|done]. simpl. by destruct (hash_password salt pw).
  - right. split; [done|]. eapply with_users_lock_spec; [|exact Hrun]. done.
  - right. split; [done|]. eapply with_users_lock_spec; [|exact Hrun]. done.
  - right. split; [done|]. eapply with_users_lock_spec; [|exact Hrun].
    intros g. unfold edit_users. sm_unfold. destruct (read_user_database _ g) as [[db|] g1]; [|done].
    unfold admin_edit. by destruct (_ =? _).
Qed.

Lemma hash_password_valid salt password h :
  hash_password salt password = Ok h →
  is_ok (parse_password_hash h) = true ∧ argon2_verify password h = true.
Proof.
  unfold hash_password, mbind, result_bind. destruct salt as [sb|]; [|done]. simpl.
  destruct (salt_encode sb) as [enc|]; [|done]. simpl.
  destruct (argon2_hash password enc) as [h'|] eqn:E; [|done]. intros [= <-].
  eauto using law_argon2_policy, law_argon2_verify.
Qed.

(** Changing one record in place keeps the database valid. *)
Lemma update_user_valid username change l l' :
  (∀ u, UserRecord.username (change u) = UserRecord.username u) →
  (∀ u, is_ok (parse_password_hash (UserRecord.password_hash u)) = true →
        is_ok (parse_password_hash (UserRecord.password_hash (change u))) = true) →
  update_user username change l = Some l' → valid_users (MkUserDatabase l) →
  valid_users (MkUserDatabase l').
Proof.
  intros Hn Hh Hu (Hf & Hd & Hl). pose proof (update_user_names _ _ _ _ Hn Hu) as E.
  split_and!; simpl in *.
  - eapply update_user_Forall; [|done|done]. intros u [? ?]. rewrite Hn. auto.
  - by rewrite E.
  - unfold zlen in *. apply (f_equal length) in E. rewrite !length_map in E. by rewrite E.
Qed.

Lemma admin_edit_step op db l :
  valid_users db → validate_username (admin_name op) = Ok tt → admin_edit op db = Ok l →
  admin_step op (accounts db) (accounts (MkUserDatabase l)) ∧ valid_users (MkUserDatabase l).
Proof.
  destruct db as [l0]. intros Hv Hu. unfold admin_edit, mbind, result_bind. simpl.
  destruct op as [salt u pw|salt u pw|u b|u b|u]; simpl in *.
  - destruct (existsb _ _) eqn:Ex; [done|]. destruct (_ >=? _) eqn:Hn; [done|]. bool_simpl.
    destruct (hash_password salt pw) as [h|] eqn:Eh; [|done]. intros [= <-].
    assert (accounts (MkUserDatabase l0) !! u = None) as Hnone.
    { apply accounts_None. intros r Hr E. apply not_true_iff_false in Ex. apply Ex.
      apply existsb_exists. exists r. rewrite <- list_elem_of_In, bool_decide_true; done. }
    split; [split; [done|]; exists h; split; [done|]; by apply accounts_snoc|].
    destruct Hv as (Hf & Hd & Hl). split_and!; simpl in *.
    + apply Forall_app. split; [done|]. constructor; [|done]. split; [done|].
      by apply hash_password_valid in Eh as [? _].
    + rewrite map_app. apply NoDup_app. split_and!; [done| |apply NoDup_singleton].
      intros x (r & -> & Hr)%list_elem_of_fmap. simpl. rewrite list_elem_of_singleton.
      by eapply accounts_None in Hnone.
    + unfold MAX_USERS in *. autorewrite with quickfs_rw. lia.
  - destruct (update_user u id l0); [|done]. simpl.
    destruct (hash_password salt pw) as [h|] eqn:Eh; [|done].
    destruct (update_user _ _ _) as [l2|] eqn:E; [|done]. intros [= <-]. split.
    + eapply update_user_accounts in E as (r & ? & ?); [by exists r, h|done].
    + eapply update_user_valid; [| |done|done]; [done|]. intros v _.
      by apply hash_password_valid in Eh as [? _].
  - destruct (update_user _ _ _) as [l2|] eqn:E; [|done]. intros [= <-]. split.
    + by eapply update_user_accounts in E.
    + by eapply update_user_valid; [| |done|done].
  - destruct (update_user _ _ _) as [l2|] eqn:E; [|done]. intros [= <-]. split.
    + by eapply update_user_accounts in E.
    + by eapply update_user_valid; [| |done|done].
  - destruct (_ =? _) eqn:En; [done|]. intros [= <-]. bool_simpl. rewrite accounts_filter. split.
    + split; [|done]. destruct (accounts _ !! u) eqn:Ea; [done|]. exfalso. apply En.
      rewrite forallb_filter_id; [done|]. apply forallb_forall. intros r Hr.
      apply negb_true_iff, bool_decide_eq_false.
      eapply accounts_None in Ea; [done|]. by apply list_elem_of_In.
    + destruct Hv as (Hf & Hd & Hl). pose proof (filter_sublist (λ r, negb (bool_decide
        (UserRecord.username r = u))) l0) as Hsub. split_and!; simpl in *.
      * rewrite Forall_forall in *. intros r Hr. by apply Hf; eapply elem_of_sublist.
      * eapply sublist_NoDup; [done|]. by apply sublist_map.
      * apply sublist_length in Hsub. unfold zlen in *. lia.
Qed.

(** * Verification of credentials *)

Lemma validate_file_ok p f f' : validate_private_file p f = (Ok tt, f') → f' = f.
Proof. intros E. pose proof (reads_validate_file p f) as Hr. by rewrite E in Hr. Qed.

(** Verification decides as the stored account says. *)
Lemma verify_result root username password f x f' :
  verify_user_authorization users_from_json root username password f = (Ok x, f') →
  validate_username username = Ok tt → zlen password ≤ MAX_PASSWORD_LENGTH →
  ∃ db, stores f root db ∧ valid_users db ∧ x = authorization (accounts db) username password.
Proof.
  intros Hrun Hu Hp. revert Hrun. unfold verify_user_authorization. rewrite Hu. simpl.
  destruct (_ >? _) eqn:Hlen; [bool_simpl; lia|]. sm_unfold.
  destruct (validate_private_file _ f) as [[[]|] f1] eqn:E1; [|done].
  apply validate_file_ok in E1 as ->.
  destruct (read_user_database _ f) as [[db|] f2] eqn:E2; [|done].
  apply read_users_stores in E2 as (-> & Hst & Hval).
  rewrite find_enabled by apply Hval.
  unfold authorization. destruct (accounts db !! username) as [u|] eqn:Ea.
  - destruct (UserRecord.enabled u) eqn:En; simpl.
    + destruct (parse_password_hash _); simpl; [|done].
      destruct (argon2_verify _ _) eqn:Ev; intros [= <- <-]; exists db; by rewrite Ea, En, Ev.
    + destruct (salt_encode _); simpl; [|done]. intros [= <- <-]. exists db. by rewrite Ea, En.
  - destruct (salt_encode _); simpl; [|done]. intros [= <- <-]. exists db. by rewrite Ea.
Qed.

Lemma accounts_invalid_name db username :
  valid_users db → validate_username username ≠ Ok tt → accounts db !! username = None.
Proof.
  intros (Hf & _ & _) Hu. apply accounts_None. intros r Hr <-.
  rewrite Forall_forall in Hf. by apply Hf in Hr as [? _].
Qed.
End admin.

Section auth_theorems.
Context {F : Type} `{SL : StateFsLaws F} `{AR : Argon2}.
Context (users_to_json : UserDatabase → result (list Z) (list Z))
  (users_from_json : list Z → result (list Z) UserDatabase)
  (uuid_text : Z → list Z) (uuid_parse : list Z → option Z).

(** C6: User administration is an atomic update of a map of accounts.  Whatever
    the file system answers, a request that succeeds replaced the stored
    database by one the server accepts whose accounts are those of before with
    exactly the requested change (a new account starts enabled and without
    write permission), and a request that fails left the stored database as it
    was; no other file than the database, its lock and its temporary changes. *)
Theorem user_administration_refines {AL : Argon2Laws} temporary root op (f f' : F) r :
  (∀ db b, users_to_json db = Ok b → users_from_json b = Ok db) →
  run_admin users_to_json users_from_json uuid_text uuid_parse temporary root op f = (r, f') →
  match r with
  | Ok _ => ∃ db db', stores users_from_json f root db ∧ stores users_from_json f' root db' ∧
      admin_step op (accounts db) (accounts db') ∧ valid_users db'
  | Err _ => st_view f' !! (root ++ [USERS_FILE]) = st_view f !! (root ++ [USERS_FILE])
  end ∧
  ∀ p, p ≠ root ++ [USERS_FILE] → p ≠ root ++ [USERS_LOCK_FILE] →
    p ≠ temp_of (root ++ [USERS_FILE]) temporary → st_view f' !! p = st_view f !! p.
Proof.
  intros Hj Hrun. eapply run_admin_edit in Hrun as [[-> Hr]|[Hu [Hmain Hframe]]]; [| |done].
  - by destruct r.
  - split; [|done]. destruct r as [[]|]; [|done].
    destruct Hmain as (db & l & Hs & Hv & Hg & Hs').
    exists db, (MkUserDatabase l). split_and!; try done; by eapply admin_edit_step in Hg as [].
Qed.

(** C8: Verification grants exactly what the stored account grants.  When the
    credentials are accepted, the stored database has an enabled account of
    that name whose hash verifies the password, and the granted write
    permission is that account's; and when the database can be read, the
    answer for every name and every password of acceptable length is the one
    the account map gives, so that unknown, disabled and wrong-password users
    are refused; and then nothing is changed. *)
Theorem verification_exact root username password (f : F) :
  (∀ a f', verify_user_authorization users_from_json root username password f = (Ok (Some a), f') →
     ∃ db, stores users_from_json f root db ∧
       authorization (accounts db) username password = Some a) ∧
  (∀ db, validate_private_file (root ++ [USERS_FILE]) f = (Ok tt, f) →
     Auth.read_user_database users_from_json (root ++ [USERS_FILE]) f = (Ok db, f) →
     is_Some (salt_encode (lit "quickfs-unknown-user-salt")) →
     zlen password ≤ MAX_PASSWORD_LENGTH →
     verify_user_authorization users_from_json root username password f =
       (Ok (authorization (accounts db) username password), f)).
Proof.
  split.
  - intros a f' Hrun. destruct (decide (validate_username username = Ok tt)) as [Hu|Hu].
    2: { revert Hrun. unfold verify_user_authorization. by destruct (validate_username username) as [[]|]. }
    destruct (decide (zlen password ≤ MAX_PASSWORD_LENGTH)) as [Hp|Hp].
    + eapply verify_result in Hrun as (db & ? & _ & ?); [by exists db|done|done].
    + revert Hrun. unfold verify_user_authorization. rewrite Hu. simpl.
      destruct (_ >? _) eqn:E; [done|]. bool_simpl. lia.
  - intros db Hfile Hread [salt Hsalt] Hp.
    pose proof (read_users_stores _ _ _ _ _ Hread) as (_ & Hst & Hval).
    unfold verify_user_authorization, authorization.
    destruct (validate_username username) as [[]|] eqn:Hu; simpl.
    2: { rewrite accounts_invalid_name; [done|done|]. by rewrite Hu. }
    destruct (_ >? _) eqn:Hlen; [bool_simpl; lia|]. sm_unfold. rewrite Hfile, Hread.
    rewrite find_enabled by apply Hval.
    destruct (accounts db !! username) as [u|] eqn:Ea; simpl; [|by rewrite Hsalt].
    destruct (UserRecord.enabled u) eqn:En; simpl; [|by rewrite Hsalt].
    apply accounts_lookup in Ea as [Hin _]; [|apply Hval].
    destruct Hval as (Hf & _ & _). rewrite Forall_forall in Hf. apply Hf in Hin as [_ Hh].
    destruct (parse_password_hash _); [|done]. simpl. by destruct (argon2_verify _ _).
Qed.
End auth_theorems.

(** * Examples *)

Module AuthExample.
(** A hash that keeps eight bytes of the password. *)
#[export] Instance argon : Argon2 := {|
  phc_parse _ := Some (PasswordHash.Mk (lit "argon2id") (Some 19)
    (Some (ArgonParams.Mk 1 1 1 None)) true true);
  default_params := Some (ArgonParams.Mk 1 1 1 None);
  salt_encode s := Some s;
  argon2_hash password _ := Some (take 8 password);
  argon2_verify password h := bool_decide (take 8 password = h)
|}.

#[export] Instance argon_laws : Argon2Laws.
Proof.
  split; simpl.
  - intros p s h [= <-]. unfold parse_password_hash.
    destruct (_ >? _) eqn:E; [|done]. bool_simpl. unfold zlen, MAX_PASSWORD_HASH_LENGTH in E.
    rewrite length_take in E. lia.
  - intros p s h [= <-]. by apply bool_decide_eq_true.
Qed.

Definition record_tuple (u : UserRecord) : list Z * list Z * bool * bool :=
  (UserRecord.username u, UserRecord.password_hash u, UserRecord.enabled u, UserRecord.writable u).
Definition tuple_record (t : list Z * list Z * bool * bool) : UserRecord :=
  UserRecord.Mk t.1.1.1 t.1.1.2 t.1.2 t.2.

(** A text of one symbol per database. *)
Definition to_json (db : UserDatabase) : result (list Z) (list Z) :=
  Ok [Z.pos (countable.encode (map record_tuple (users db)))].
Definition from_json (b : list Z) : result (list Z) UserDatabase :=
  match b with
  | [Z.pos p] =>
      match countable.decode p with
      | Some l => Ok (MkUserDatabase (map tuple_record l))
      | None => Err []
      end
  | _ => Err []
  end.

Lemma users_json_roundtrip db b : to_json db = Ok b → from_json b = Ok db.
Proof.
  intros [= <-]. unfold from_json. rewrite decode_encode. destruct db as [l]. simpl.
  do 2 f_equal. rewrite map_map. rewrite <- (map_id l) at 2. apply map_ext. by intros [].
Qed.

Definition uuid_text (n : Z) : list Z := [48 + n mod 10].
Definition uuid_parse (l : list Z) : option Z := c ← head l; Some (c - 48).

Definition root : Path := [lit "state"].
Definition empty_users : list Z :=
  Eval vm_compute in [Z.pos (countable.encode (map record_tuple []))].
Definition fresh_state : MemState.Mem :=
  MemState.Mk
    (list_to_map [(root ++ [CERT_FILE], lit "cert"); (root ++ [KEY_FILE], lit "key");
                  (root ++ [USERS_FILE], empty_users)])
    {[ root; root ++ [PAIRINGS_DIR] ]}.

Definition alice : list Z := lit "alice".
Definition password : list Z := lit "correct horse battery".
Definition add_alice : AdminOp := AddUser (Some (lit "salt")) alice password.
Definition after_add : MemState.Mem :=
  (run_admin to_json from_json uuid_text uuid_parse (lit "t1") root add_alice fresh_state).2.
End AuthExample.

Import AuthExample.

Lemma user_administration_refines_witness :
  ∃ db db', stores from_json fresh_state root db ∧
    stores from_json after_add root db' ∧
    admin_step add_alice (accounts db) (accounts db') ∧ valid_users db'.
Proof.
  assert (run_admin to_json from_json uuid_text
    uuid_parse (lit "t1") root add_alice
    fresh_state = (Ok tt, after_add)) as E by (vm_compute; reflexivity).
  exact (proj1 (user_administration_refines to_json from_json
    uuid_text uuid_parse (lit "t1") root add_alice
    fresh_state after_add (Ok tt) users_json_roundtrip E)).
Defined.

Lemma verification_exact_witness :
  ∃ db, verify_user_authorization from_json root alice
      (lit "wrong password") after_add =
    (Ok (authorization (accounts db) alice (lit "wrong password")),
     after_add) ∧
    authorization (accounts db) alice (lit "wrong password") = None.
Proof.
  eexists. split.
  - apply (verification_exact from_json root alice
      (lit "wrong password") after_add).
    + vm_compute; reflexivity.
    + vm_compute; reflexivity.
    + by eexists.
    + vm_compute; discriminate.
  - vm_compute; reflexivity.
Defined.
