(* ===== verification/PairingFacts.v ===== *)
(** Theorems on pairing and identities: the code shown to the user and the
    record kept by the server give the same secret, a pairing expires and is
    used at most once, and a new identity is selected atomically. *)

From S2P Require Import Prelude Protocol Common StateFiles Auth AuthFacts.

(** * Codes *)

(** ASCII characters that are neither white space nor control characters. *)
Definition printable (c : Z) : Prop := 33 ≤ c ≤ 126.

Lemma white_space_front_printable l : Forall printable l → white_space_front l = 0%nat.
Proof.
  unfold printable. destruct l as [|a [|b [|c l]]]; rewrite ?Forall_cons; intros Hl; simpl;
    repeat (case_match; bool_simpl; try done); lia.
Qed.

Lemma white_space_back_printable l : Forall printable l → white_space_back l = 0%nat.
Proof.
  intros Hl. unfold white_space_back. destruct l as [|c [|b [|a l]]]; [done|..];
    pose proof Hl as Hl'; unfold printable in Hl'; rewrite ?Forall_cons in Hl';
    repeat (case_match; bool_simpl; try done); try lia.
  rewrite white_space_front_printable in *; [done|]. rewrite !Forall_cons in *. naive_solver.
Qed.

Lemma drop_while_none n measure l : measure l = 0%nat → drop_while_front n measure l = l.
Proof. destruct n; simpl; [done|]. by intros ->. Qed.

Lemma trim_printable l : Forall printable l → trim l = l.
Proof.
  intros Hl. unfold trim. rewrite (drop_while_none _ white_space_front) by
    (by apply white_space_front_printable).
  rewrite drop_while_none, rev_involutive; [done|].
  apply white_space_back_printable. by apply Forall_rev.
Qed.

Lemma b64url_char_printable c : b64url_char c = true → printable c.
Proof. unfold b64url_char, printable. intros. bool_simpl. lia. Qed.

(** Induction on the groups of four characters of a code. *)
Lemma groups_ind (P : list Z → Prop) :
  (∀ l, (length l ≤ 4)%nat → P l) →
  (∀ a b c d l, l ≠ [] → P l → P (a :: b :: c :: d :: l)) → ∀ l, P l.
Proof.
  intros Hsmall Hstep l. remember (length l) as n eqn:Hn. revert l Hn.
  induction n as [n IH] using lt_wf_ind. intros l ->.
  destruct (decide (length l ≤ 4)%nat); [by apply Hsmall|].
  destruct l as [|a [|b [|c [|d l]]]]; simpl in *; try lia.
  apply Hstep; [by destruct l; simpl in *; [lia|]|]. eapply IH; [|done]. simpl. lia.
Qed.

Lemma format_code_step a b c d l :
  l ≠ [] → format_code (a :: b :: c :: d :: l) = a :: b :: c :: d :: 45 :: format_code l.
Proof. by destruct l. Qed.

Lemma format_code_small l : (length l ≤ 4)%nat → format_code l = l.
Proof. destruct l as [|a [|b [|c [|d [|e l]]]]]; simpl; try done. lia. Qed.

Lemma format_code_length l : l ≠ [] → zlen (format_code l) = zlen l + (zlen l - 1) / 4.
Proof.
  induction l as [l Hl|a b c d l Hne IH] using groups_ind; intros Hl0.
  - rewrite format_code_small by done. unfold zlen. destruct l; [done|]. simpl length in *.
    rewrite Z.div_small; lia.
  - rewrite format_code_step by done. rewrite !zlen_cons, IH by done.
    replace (zlen l + 1 + 1 + 1 + 1 - 1) with (zlen l - 1 + 1 * 4) by lia.
    rewrite Z.div_add by lia. lia.
Qed.

Lemma format_code_printable l : Forall printable l → Forall printable (format_code l).
Proof.
  induction l as [l Hl|a b c d l Hne IH] using groups_ind; intros Hp.
  - by rewrite format_code_small.
  - rewrite format_code_step by done. rewrite !Forall_cons in *. unfold printable at 5.
    naive_solver lia.
Qed.

(** The reader of the grouped code undoes the grouping. *)
Lemma ungroup_format k l :
  0 ≤ k → Forall printable l → ungroup (5 * k) (format_code l) = Ok l.
Proof.
  assert (∀ b rest i, i mod 5 ≠ 4 → printable b →
    ungroup i (b :: rest) = (r ← ungroup (i + 1) rest; Ok (b :: r))) as Hchar.
  { intros b rest i Hi [? ?]. simpl. rewrite (proj2 (Z.eqb_neq _ _)) by done.
    unfold char_from. by rewrite (proj2 (Z.ltb_lt _ _)) by lia. }
  revert k. induction l as [l Hl|a b c d l Hne IH] using groups_ind; intros k Hk Hp.
  - rewrite format_code_small by done.
    destruct l as [|a [|b [|c [|d [|e l]]]]]; rewrite ?Forall_cons in Hp; try done;
      [..|simpl in Hl; lia];
      repeat (rewrite Hchar; [|Z.div_mod_to_equations; lia|naive_solver]); done.
  - rewrite format_code_step by done. rewrite !Forall_cons in Hp.
    do 4 (rewrite Hchar; [|Z.div_mod_to_equations; lia|naive_solver]).
    replace (ungroup _ (45 :: format_code l)) with (ungroup (5 * (k + 1)) (format_code l)).
    + rewrite IH; [done|lia|naive_solver].
    + simpl. rewrite (proj2 (Z.eqb_eq _ _)) by (Z.div_mod_to_equations; lia). f_equal. lia.
Qed.

Lemma pairing_code_parses `{Base64UrlLaws} secret :
  is_bytes secret → zlen secret = PAIRING_SECRET_LENGTH →
  parse_pairing_code (format_code (b64url_encode secret)) = Ok (MkPairingSecret secret).
Proof.
  intros Hb Hlen. pose proof (law_b64_length secret) as Hn. rewrite Hlen in Hn.
  assert (Forall printable (b64url_encode secret)) as Hp.
  { eapply Forall_impl; [by apply law_b64_chars|apply b64url_char_printable]. }
  unfold parse_pairing_code, normalize_pairing_code. unfold mbind, result_bind.
  rewrite trim_printable by (by apply format_code_printable).
  rewrite law_b64_encoded_len by done. simpl.
  rewrite format_code_length by (intros E; by rewrite E in Hn). rewrite Hn. simpl.
  change (ungroup 0) with (ungroup (5 * 0)). rewrite ungroup_format by done.
  rewrite law_b64_decode, Hlen by done. done.
Qed.

(** * Pairing records *)

Section pairing.
Context {F : Type} `{SL : StateFsLaws F} `{BL : Base64UrlLaws}.
Context (pairing_to_json : PairingRecord → result (list Z) (list Z))
  (pairing_from_json : list Z → result (list Z) PairingRecord)
  (uuid_text : Z → list Z) (uuid_parse : list Z → option Z).
Hypothesis pairing_json : ∀ r b, pairing_to_json r = Ok b → pairing_from_json b = Ok r.
(** The text of a UUID consists of hexadecimal digits and hyphens. *)
Hypothesis uuid_plain : ∀ id, 46 ∉ uuid_text id.

Abbreviation pairing_path := (pairing_path uuid_text).

(** The state keeps the record of the pairing [id]. *)
Definition keeps_pairing (f : F) (root : Path) (record : PairingRecord) : Prop :=
  ∃ b, st_view f !! pairing_path root (PairingRecord.id record) = Some b ∧
       pairing_from_json b = Ok record.

Lemma pairing_temp_ne root id temporary :
  temp_of (pairing_path root id) temporary ≠ pairing_path root id.
Proof.
  unfold Auth.pairing_path. change (root ++ [?a; ?b]) with (root ++ [a] ++ [b]).
  rewrite app_assoc. apply temp_of_ne. pose proof (uuid_plain id) as Hp.
  destruct (uuid_text id) as [|x l]; [reflexivity|]. change (lit ".quickfs-") with (46 :: lit "quickfs-").
  change (((46 =? x) && starts_with (lit "quickfs-") (l ++ lit ".json")) = false).
  rewrite (proj2 (Z.eqb_neq 46 x)); [done|]. set_solver.
Qed.

Lemma create_pairing_record id secret now temporary root lifetime f np f' :
  0 ≤ lifetime →
  create_pairing pairing_to_json uuid_text uuid_parse id (Some secret) (Ok now) temporary root
    lifetime f = (Ok np, f') →
  let record := PairingRecord.Mk id (b64url_encode secret)
                  (u64_saturating_add now (lifetime / 10 ^ 9)) in
  np = NewPairing.Mk id (format_code (b64url_encode secret))
         (PairingRecord.expires_unix_seconds record) ∧
  1 ≤ lifetime / 10 ^ 9 ≤ MAX_PAIRING_LIFETIME ∧ keeps_pairing f' root record.
Proof.
  intros Hl Hrun. unfold create_pairing in Hrun.
  apply reads_run in Hrun as [([] & _ & Hrun)|(e & _ & Hrun)]; [|done|apply reads_validate_state].
  revert Hrun. destruct (_ =? 0) eqn:Hz; [done|]. destruct (_ >? _) eqn:Hm; [done|]. bool_simpl.
  sm_unfold. simpl.
  destruct (fs_do _ f) as [[[]|] f1]; [|done].
  destruct (secure_directory _ f1) as [[[]|] f2]; [|done].
  destruct (pairing_to_json _) as [b|] eqn:Ej; simpl; [|done].
  destruct (write_private _ _ _ f2) as [[[]|] f3] eqn:Ew; [|done]. intros [= <- <-].
  apply write_private_spec in Ew; [|apply pairing_temp_ne]. split_and!; [done|..].
  - assert (0 ≤ lifetime / 10 ^ 9) by (by apply Z.div_pos). lia.
  - apply Z.div_le_upper_bound; unfold MAX_PAIRING_LIFETIME in *; lia.
  - exists b. rewrite Ew. simpl. rewrite lookup_insert_eq. auto.
Qed.

Lemma missing_not_found_Ok {A} (m : AM (F:=F) A) f a f' :
  missing_is_not_found m f = (Ok a, f') → m f = (Ok a, f').
Proof. unfold missing_is_not_found. destruct (m f) as [[|[]] ?]; congruence. Qed.

(** Loading succeeds only on an unexpired record of that identifier. *)
Lemma load_pairing_inv now root id f s f' :
  load_pairing pairing_from_json uuid_text (Ok now) root id f = (Ok s, f') →
  ∃ record, keeps_pairing f root record ∧ PairingRecord.id record = id ∧
    now < PairingRecord.expires_unix_seconds record ∧
    b64url_decode (PairingRecord.secret record) = Some (secret_key s) ∧
    zlen (secret_key s) = PAIRING_SECRET_LENGTH.
Proof.
  unfold load_pairing. sm_unfold.
  destruct (missing_is_not_found (validate_private_file _) f) as [[[]|] f1] eqn:E1; [|done].
  apply missing_not_found_Ok, validate_file_ok in E1 as ->.
  destruct (missing_is_not_found (read_json _ _ _) f) as [[record|] f2] eqn:E2; [|done].
  apply missing_not_found_Ok in E2. revert E2. unfold read_json. sm_unfold.
  destruct (read_state_bytes _ _ f) as [[b|] f3] eqn:E3; [|done].
  apply read_state_bytes_view in E3 as [Hv ->]; [|done].
  destruct (pairing_from_json b) as [r|] eqn:Ej; simpl; [|done]. intros [= -> <-].
  destruct (negb _) eqn:Hid; [done|]. destruct (_ <=? _) eqn:Hexp; [done|]. bool_simpl.
  destruct (b64url_decode _) as [c|] eqn:Ed; [|done].
  destruct (negb _) eqn:Hlen; [done|]. intros [= <- <-]. bool_simpl. exists record.
  split_and!; [|done..]. subst id. by exists b.
Qed.

Lemma keeps_pairing_unique f root r1 r2 :
  keeps_pairing f root r1 → keeps_pairing f root r2 → PairingRecord.id r1 = PairingRecord.id r2 →
  r1 = r2.
Proof. intros (b1 & H1 & E1) (b2 & H2 & E2) E. rewrite E in H1. congruence. Qed.

(** And it does succeed when the record can be read. *)
Lemma load_pairing_succeeds now root id secret expires f :
  is_bytes secret → zlen secret = PAIRING_SECRET_LENGTH →
  keeps_pairing f root (PairingRecord.Mk id (b64url_encode secret) expires) → now < expires →
  validate_private_file (pairing_path root id) f = (Ok tt, f) →
  is_ok (read_state_bytes (pairing_path root id) MAX_PAIRING_RECORD_SIZE f).1 = true →
  load_pairing pairing_from_json uuid_text (Ok now) root id f = (Ok (MkPairingSecret secret), f).
Proof.
  intros Hb Hlen (b & Hv & Ej) Hexp Hval Hread. simpl in Hv.
  destruct (read_state_bytes _ _ f) as [[b'|] f1] eqn:E; [|done].
  pose proof E as E'. apply read_state_bytes_view in E' as [Hv' ->]; [|done]. rewrite Hv in Hv'. injection Hv' as <-.
  unfold load_pairing, missing_is_not_found. sm_unfold. rewrite Hval. unfold read_json. sm_unfold.
  rewrite E, Ej. simpl. rewrite Z.eqb_refl. simpl. rewrite (proj2 (Z.leb_gt _ _)) by done.
  by rewrite law_b64_decode, Hlen by done.
Qed.

Lemma missing_fails f root id now :
  missing f (pairing_path root id) →
  (load_pairing pairing_from_json uuid_text now root id f).1 = Err AuthError.PairingNotFound.
Proof.
  intros Hm. unfold load_pairing. sm_unfold.
  replace (missing_is_not_found (validate_private_file (pairing_path root id)) f)
    with (Err (A:=unit) AuthError.PairingNotFound, f); [done|].
  unfold missing_is_not_found, validate_private_file, fs_ask. sm_unfold. by rewrite Hm.
Qed.
End pairing.

Section pairing_theorems.
Context {F : Type} `{SL : StateFsLaws F} `{BL : Base64UrlLaws}.
Context (pairing_to_json : PairingRecord → result (list Z) (list Z))
  (pairing_from_json : list Z → result (list Z) PairingRecord)
  (uuid_text : Z → list Z) (uuid_parse : list Z → option Z).

(** C38: The code given to the user and the record kept by the server carry the
    same secret.  After a successful [create_pairing], the code parses to the
    secret that was drawn; in every later state that still keeps the record's
    file, loading the pairing gives that secret before the expiry, if the file
    can be read, and fails from then on; the expiry lies one second to one hour
    after the creation. *)
Theorem pairing_code_agrees id secret now temporary root lifetime (f f' : F) np :
  (∀ r b, pairing_to_json r = Ok b → pairing_from_json b = Ok r) →
  (∀ id, 46 ∉ uuid_text id) → is_bytes secret → zlen secret = PAIRING_SECRET_LENGTH →
  0 ≤ lifetime → 0 ≤ now ≤ u64_max - MAX_PAIRING_LIFETIME →
  create_pairing pairing_to_json uuid_text uuid_parse id (Some secret) (Ok now) temporary root
    lifetime f = (Ok np, f') →
  parse_pairing_code (NewPairing.code np) = Ok (MkPairingSecret secret) ∧
  now < NewPairing.expires_unix_seconds np ≤ now + MAX_PAIRING_LIFETIME ∧
  ∀ t (g : F),
    st_view g !! pairing_path uuid_text root id = st_view f' !! pairing_path uuid_text root id →
    (∀ s g', load_pairing pairing_from_json uuid_text (Ok t) root id g = (Ok s, g') →
       s = MkPairingSecret secret ∧ t < NewPairing.expires_unix_seconds np) ∧
    (t < NewPairing.expires_unix_seconds np →
       validate_private_file (pairing_path uuid_text root id) g = (Ok tt, g) →
       is_ok (read_state_bytes (pairing_path uuid_text root id) MAX_PAIRING_RECORD_SIZE g).1 = true →
       load_pairing pairing_from_json uuid_text (Ok t) root id g = (Ok (MkPairingSecret secret), g)).
Proof.
  intros Hj Hu Hb Hlen Hl Hnow Hrun.
  eapply create_pairing_record in Hrun as (-> & Hlife & Hkeep); [|done..]. simpl in *.
  assert (u64_saturating_add now (lifetime / 10 ^ 9) = now + lifetime / 10 ^ 9) as Hsat
    by (unfold u64_saturating_add; lia). rewrite Hsat in Hkeep |- *.
  split_and!; [by apply pairing_code_parses|lia|lia|].
  intros t g Hview.
  assert (keeps_pairing pairing_from_json uuid_text g root
    (PairingRecord.Mk id (b64url_encode secret) (now + lifetime / 10 ^ 9))) as Hg.
  { destruct Hkeep as (b & Hv & E). exists b. simpl in *. by rewrite Hview. }
  split; [intros s g' Hload|intros Ht Hval Hread; by eapply load_pairing_succeeds].
  apply load_pairing_inv in Hload as (record & Hrec & Hid & Ht & Hdec & _).
  assert (record = PairingRecord.Mk id (b64url_encode secret) (now + lifetime / 10 ^ 9)) as ->.
  { by eapply (keeps_pairing_unique pairing_from_json uuid_text g root). }
  simpl in *. split; [|done]. rewrite law_b64_decode in Hdec by done.
  destruct s. by simplify_eq/=.
Qed.

(** No file holds the pairing [id]. *)
Definition no_pairing (root : Path) (id : Z) (g : F) : Prop :=
  missing g (pairing_path uuid_text root id).

(** A pairing is consumed at most once.  After a request consumed the
    pairing, and as long as no file appears at its path, every other request
    for it fails: one that has yet to load it, at any time, and one that had
    already loaded it when it tries to consume it. *)
Theorem pairing_single_use root id (f f' : F) :
  consume_pairing uuid_text root id f = (Ok tt, f') →
  no_pairing root id f' ∧
  ∀ g : F, no_pairing root id g →
    consume_pairing uuid_text root id g = (Err AuthError.PairingNotFound, g) ∧
    ∀ now, (load_pairing pairing_from_json uuid_text now root id g).1 =
             Err AuthError.PairingNotFound.
Proof.
  intros Hrun. apply missing_not_found_Ok in Hrun. split.
  - revert Hrun. unfold fs_do. destruct (remove_file f _) as [r g] eqn:E.
    destruct r as [[]|]; simpl; [|done]. intros [= <-]. by apply law_remove_file in E as [_ ?].
  - intros g Hm. split.
    + unfold consume_pairing, missing_is_not_found, fs_do. by rewrite law_remove_missing.
    + intros now. by apply missing_fails.
Qed.
End pairing_theorems.

(** * Identities *)

(** Paths below the same directory differ when the rest differs. *)
Ltac path_ne := let E := fresh in intros E; apply app_inv_head in E; vm_compute in E; congruence.

Section identity.
Context {F : Type} `{SL : StateFsLaws F}.
Context (uuid_text : Z → list Z) (uuid_parse : list Z → option Z).

(** The files of a generation. *)
Definition generation_paths (root : Path) (generation : Z) : StatePaths :=
  let generation_root := root ++ [IDENTITIES_DIR; uuid_text generation] in
  StatePaths.Mk root (generation_root ++ [CERT_FILE]) (generation_root ++ [KEY_FILE]).

(** A private path of the installation: lock, temporaries, the new generation. *)
Definition install_scratch (root : Path) (generation : Z) (temporaries : list Z * list Z * list Z)
    (p : Path) : Prop :=
  let paths := generation_paths root generation in
  p ∈ [root ++ [IDENTITY_LOCK_FILE]; StatePaths.certificate paths; StatePaths.private_key paths;
       temp_of (StatePaths.private_key paths) temporaries.1.1;
       temp_of (StatePaths.certificate paths) temporaries.1.2;
       temp_of (root ++ [ACTIVE_IDENTITY_FILE]) temporaries.2].

Lemma remove_file_frame p f q : q ≠ p → st_view (remove_file f p).2 !! q = st_view f !! q.
Proof.
  intros Hq. destruct (remove_file f p) as [r f'] eqn:E. apply law_remove_file in E. simpl.
  destruct r; [destruct E as [-> _]|by rewrite E]. by rewrite lookup_delete_ne.
Qed.

(** The three writes of an installation. *)
(** The selector, the two files of a generation and the scratch paths differ. *)
Lemma generation_key root generation :
  StatePaths.private_key (generation_paths root generation) =
  root ++ [IDENTITIES_DIR; uuid_text generation; KEY_FILE].
Proof. simpl. by rewrite <- app_assoc. Qed.

Lemma generation_certificate root generation :
  StatePaths.certificate (generation_paths root generation) =
  root ++ [IDENTITIES_DIR; uuid_text generation; CERT_FILE].
Proof. simpl. by rewrite <- app_assoc. Qed.

Lemma temp_of_deep root a b c t :
  temp_of (root ++ [a; b; c]) t = root ++ [a; b; lit ".quickfs-" ++ t ++ lit ".tmp"].
Proof.
  unfold temp_of, temporary_path. change [a; b; c] with ([a; b] ++ [c]).
  rewrite app_assoc, removelast_last, <- app_assoc. done.
Qed.

Lemma temp_of_flat root a t : temp_of (root ++ [a]) t = root ++ [lit ".quickfs-" ++ t ++ lit ".tmp"].
Proof. unfold temp_of, temporary_path. by rewrite removelast_last. Qed.

(** The three writes of an installation. *)
Lemma install_writes root generation temporaries certificate_pem private_key_pem (f : F) r f' :
  let paths := generation_paths root generation in
  (_ ← write_private temporaries.1.1 (StatePaths.private_key paths) private_key_pem;
   _ ← write_private temporaries.1.2 (StatePaths.certificate paths) certificate_pem;
   write_private temporaries.2 (root ++ [ACTIVE_IDENTITY_FILE]) (uuid_text generation)) f = (r, f') →
  (∀ p, ¬ install_scratch root generation temporaries p → p ≠ root ++ [ACTIVE_IDENTITY_FILE] →
     st_view f' !! p = st_view f !! p) ∧
  match r with
  | Ok _ => st_view f' !! StatePaths.private_key paths = Some private_key_pem ∧
      st_view f' !! StatePaths.certificate paths = Some certificate_pem ∧
      st_view f' !! (root ++ [ACTIVE_IDENTITY_FILE]) = Some (uuid_text generation)
  | Err _ => st_view f' !! (root ++ [ACTIVE_IDENTITY_FILE]) = st_view f !! (root ++ [ACTIVE_IDENTITY_FILE])
  end.
Proof.
  unfold install_scratch. simpl. sm_unfold.
  destruct temporaries as [[t1 t2] t3]. simpl. rewrite <- !app_assoc. simpl.
  rewrite !temp_of_deep, temp_of_flat.
  set (u := uuid_text generation). set (key := root ++ [_; _; KEY_FILE]).
  set (cert := root ++ [_; _; CERT_FILE]). set (active := root ++ [ACTIVE_IDENTITY_FILE]).
  assert (active ≠ key) by path_ne. assert (active ≠ cert) by path_ne. assert (key ≠ cert) by path_ne.
  destruct (write_private t1 key _ f) as [[[]|e] f1] eqn:E1;
    (apply write_private_spec in E1; [|unfold key; rewrite temp_of_deep; path_ne]);
    unfold key in E1 at 1; rewrite ?temp_of_deep in E1; fold key in E1.
  2: { intros [= <- <-]. split; [|apply E1; path_ne].
       intros p Hp _. apply E1. set_solver. }
  destruct (write_private t2 cert _ f1) as [[[]|e] f2] eqn:E2;
    (apply write_private_spec in E2; [|unfold cert; rewrite temp_of_deep; path_ne]);
    unfold cert in E2 at 1; rewrite ?temp_of_deep in E2; fold cert in E2.
  2: { intros [= <- <-]. split.
       - intros p Hp _. rewrite E2 by set_solver. rewrite E1, lookup_insert_ne; [done|set_solver].
       - rewrite E2 by path_ne. by rewrite E1, lookup_insert_ne. }
  intros E3. apply write_private_spec in E3; [|unfold active; rewrite temp_of_flat; path_ne].
  destruct r as [[]|e].
  - split; [|split_and!].
    + intros p Hp Ha. rewrite E3, E2, E1, !lookup_insert_ne by set_solver. done.
    + rewrite E3, lookup_insert_ne by done.
      rewrite E2, lookup_insert_ne by done. by rewrite E1, lookup_insert_eq.
    + rewrite E3, lookup_insert_ne by done. by rewrite E2, lookup_insert_eq.
    + by rewrite E3, lookup_insert_eq.
  - unfold active in E3. rewrite temp_of_flat in E3. split.
    + intros p Hp Ha. rewrite E3 by set_solver. rewrite E2, E1, !lookup_insert_ne by set_solver. done.
    + rewrite E3 by path_ne. by rewrite E2, E1, !lookup_insert_ne.
Qed.

(** What an installation changed. *)
Definition install_outcome (root : Path) (generation : Z) (temporaries : list Z * list Z * list Z)
    (certificate_pem private_key_pem : list Z) (r : result AuthError StatePaths) (f f' : F) : Prop :=
  let paths := generation_paths root generation in
  (∀ p, ¬ install_scratch root generation temporaries p → p ≠ root ++ [ACTIVE_IDENTITY_FILE] →
     st_view f' !! p = st_view f !! p) ∧
  match r with
  | Ok p => p = paths ∧ st_view f' !! StatePaths.private_key paths = Some private_key_pem ∧
      st_view f' !! StatePaths.certificate paths = Some certificate_pem ∧
      st_view f' !! (root ++ [ACTIVE_IDENTITY_FILE]) = Some (uuid_text generation)
  | Err _ => st_view f' !! (root ++ [ACTIVE_IDENTITY_FILE]) = st_view f !! (root ++ [ACTIVE_IDENTITY_FILE])
  end.

Lemma install_outcome_keep root generation temporaries cert key r (f f1 f' : F) :
  st_view f1 = st_view f → install_outcome root generation temporaries cert key r f1 f' →
  install_outcome root generation temporaries cert key r f f'.
Proof. intros E. unfold install_outcome. by rewrite E. Qed.

Lemma install_outcome_Err root generation temporaries cert key e (f f' : F) :
  st_view f' = st_view f → install_outcome root generation temporaries cert key (Err e) f f'.
Proof. intros E. unfold install_outcome. by rewrite E. Qed.

Lemma keeps_view_run {A} (m : AM (F:=F) A) (k : A → AM (F:=F) StatePaths) root generation
    temporaries cert key f r f' :
  keeps_view m → mbind k m f = (r, f') →
  (∀ a f1, k a f1 = (r, f') → install_outcome root generation temporaries cert key r f1 f') →
  install_outcome root generation temporaries cert key r f f'.
Proof.
  intros Hm. unfold mbind, sm_bind. specialize (Hm f). destruct (m f) as [[a|e] f1]; simpl in Hm.
  - intros E Hk. apply (install_outcome_keep _ _ _ _ _ _ _ f1); [done|]. by eapply Hk.
  - intros [= <- <-] _. by apply install_outcome_Err.
Qed.

(** The part of [install_identity] that runs when the generation's directory
    exists. *)
Lemma install_finish root generation temporaries cert key (f : F) r f' :
  (result ← sm_try (
     _ ← write_private temporaries.1.1 (StatePaths.private_key (generation_paths root generation)) key;
     _ ← write_private temporaries.1.2 (StatePaths.certificate (generation_paths root generation)) cert;
     write_private temporaries.2 (root ++ [ACTIVE_IDENTITY_FILE]) (uuid_text generation));
   match result with
   | Ok _ => mret (generation_paths root generation)
   | Err e =>
       _ ← fs_ignore (λ f, remove_file f (StatePaths.certificate (generation_paths root generation)));
       _ ← fs_ignore (λ f, remove_file f (StatePaths.private_key (generation_paths root generation)));
       _ ← fs_ignore (λ f, remove_dir f (root ++ [IDENTITIES_DIR; uuid_text generation]));
       sm_err e
   end) f = (r, f') →
  install_outcome root generation temporaries cert key r f f'.
Proof.
  intros Hrun. unfold mbind at 1, sm_bind at 1, sm_try in Hrun.
  destruct ((_ ← write_private _ _ _; _) f) as [rw f1] eqn:Ew.
  apply install_writes in Ew as [Hframe Hmain]. destruct rw as [[]|e].
  - injection Hrun as <- <-. split; [done|]. split; [done|exact Hmain].
  - sm_unfold. unfold fs_ignore in Hrun. injection Hrun as <- <-.
    assert (∀ p, p ≠ StatePaths.certificate (generation_paths root generation) →
      p ≠ StatePaths.private_key (generation_paths root generation) →
      st_view (remove_dir (remove_file (remove_file f1
        (StatePaths.certificate (generation_paths root generation))).2
        (StatePaths.private_key (generation_paths root generation))).2
        (root ++ [IDENTITIES_DIR; uuid_text generation])).2 !! p = st_view f1 !! p) as Hrm.
    { intros p Hc Hk. by rewrite law_remove_dir, !remove_file_frame. }
    split.
    + intros p Hp Ha. rewrite Hrm, Hframe; [done|done|done|..];
        intros ->; apply Hp; unfold install_scratch; set_solver.
    + rewrite Hrm; [done|..]; rewrite ?generation_certificate, ?generation_key; path_ne.
Qed.

Lemma install_identity_outcome generation temporaries root cert key (f : F) r f' :
  install_identity uuid_text uuid_parse generation temporaries root cert key f = (r, f') →
  install_outcome root generation temporaries cert key r f f'.
Proof.
  unfold install_identity. intros Hrun. eapply keeps_view_run; [|exact Hrun|]; [auto with sm|].
  intros [] f1 H1. eapply keeps_view_run; [|exact H1|]; [apply reads_keeps, reads_validate_state|].
  intros [] f2 [[Hr Hv]|(g1 & g2 & Hg1 & Hbody & Hg2)]%with_lock_file_spec.
  { destruct r; [done|]. by apply install_outcome_Err. }
  assert (install_outcome root generation temporaries cert key r g1 g2) as [Hframe Hmain].
  { eapply keeps_view_run; [|exact Hbody|]; [apply keeps_view_do; intros; apply law_create_dir_all|].
    intros [] f3 H3. eapply keeps_view_run; [|exact H3|]; [auto with sm|].
    intros [] f4 H4. eapply keeps_view_run; [|exact H4|]; [auto with sm|].
    intros es f5 H5. eapply keeps_view_run; [|exact H5|]; [auto with sm|].
    intros n f6 H6. cbv beta in H6. destruct (_ >=? _).
    { injection H6 as <- <-. by apply install_outcome_Err. }
    eapply keeps_view_run; [|exact H6|]; [apply keeps_view_do; intros; apply law_create_dir|].
    intros [] f7 H7. eapply keeps_view_run; [|exact H7|]; [auto with sm|].
    intros [] f8 H8. by apply install_finish. }
  assert (∀ x, x ≠ IDENTITY_LOCK_FILE → root ++ [x] ≠ root ++ [IDENTITY_LOCK_FILE]) as Hl.
  { by intros x Hx [_ ?]%app_inj_tail. }
  split.
  - intros p Hp Ha. assert (p ≠ root ++ [IDENTITY_LOCK_FILE])
      by (intros ->; apply Hp; unfold install_scratch; set_solver).
    by rewrite Hg2, Hframe, Hg1.
  - destruct r as [paths|e].
    + destruct Hmain as (-> & Hk & Hc & Ha). rewrite !Hg2; [done|by apply Hl|..];
        rewrite ?generation_certificate, ?generation_key; path_ne.
    + rewrite Hg2, Hmain, Hg1; [done|..]; by apply Hl.
Qed.
End identity.

(** C39: The installation of an identity is atomic.  When it succeeds, the
    selector names the new generation, whose files hold the given certificate
    and key, and resolving the identity afterwards gives exactly these files;
    when it fails at any point, the selector is what it was, so that the
    identity in use stays in use.  No file outside the new generation, the
    selector, the lock and the temporaries changes. *)
Theorem install_identity_atomic {F} `{SL : StateFsLaws F} uuid_text uuid_parse generation temporaries
    root certificate_pem private_key_pem (f f' : F) r :
  install_identity uuid_text uuid_parse generation temporaries root certificate_pem private_key_pem f
    = (r, f') →
  install_outcome uuid_text root generation temporaries certificate_pem private_key_pem r f f' ∧
  (is_ok r = true → uuid_parse (trim (uuid_text generation)) = Some generation →
   ∀ paths f'', path_exists (root ++ [ACTIVE_IDENTITY_FILE]) f' = (Ok true, f') →
     resolve uuid_text uuid_parse root f' = (Ok paths, f'') →
     paths = generation_paths uuid_text root generation).
Proof.
  intros Hrun. apply install_identity_outcome in Hrun as Hout. split; [done|].
  intros Hr Hparse paths f'' Hex. destruct r as [p|]; [|done]. destruct Hout as (_ & _ & _ & _ & Ha).
  unfold resolve. sm_unfold. rewrite Hex. simpl.
  destruct (validate_private_file _ f') as [[[]|] f1] eqn:Ev; [|done].
  apply validate_file_ok in Ev as ->. unfold fs_ask.
  destruct (read_limited f' _ _) as [value|] eqn:Er; simpl; [|done].
  apply law_read_limited in Er as (data & Hv & ->). rewrite Ha in Hv. injection Hv as <-.
  destruct (_ >? _) eqn:Hlen; [done|]. bool_simpl.
  rewrite take_ge by (unfold zlen in Hlen; rewrite length_take in Hlen;
    assert (64 < u64_max) by done; lia).
  destruct (negb _); [done|]. rewrite Hparse. by intros [= <- <-].
Qed.

(** * Examples *)

Module PairingExample.
(** Base64 in the URL-safe alphabet, without padding. *)
Definition symbol (n : Z) : Z :=
  if n <? 26 then 65 + n
  else if n <? 52 then 97 + (n - 26)
  else if n <? 62 then 48 + (n - 52)
  else if n =? 62 then 45 else 95.
Definition value (c : Z) : Z :=
  if (65 <=? c) && (c <=? 90) then c - 65
  else if (97 <=? c) && (c <=? 122) then c - 97 + 26
  else if (48 <=? c) && (c <=? 57) then c - 48 + 52
  else if c =? 45 then 62 else 63.

Fixpoint encode64 (l : list Z) : list Z :=
  match l with
  | a :: b :: c :: l' =>
      symbol (a / 4) :: symbol (a mod 4 * 16 + b / 16) :: symbol (b mod 16 * 4 + c / 64) ::
      symbol (c mod 64) :: encode64 l'
  | [a; b] => [symbol (a / 4); symbol (a mod 4 * 16 + b / 16); symbol (b mod 16 * 4)]
  | [a] => [symbol (a / 4); symbol (a mod 4 * 16)]
  | [] => []
  end.
Fixpoint decode64 (l : list Z) : list Z :=
  match l with
  | w :: x :: y :: z :: l' =>
      (value w * 4 + value x / 16) :: (value x mod 16 * 16 + value y / 4) ::
      (value y mod 4 * 64 + value z) :: decode64 l'
  | [w; x; y] => [value w * 4 + value x / 16; value x mod 16 * 16 + value y / 4]
  | [w; x] => [value w * 4 + value x / 16]
  | _ => []
  end.

#[export] Instance base64 : Base64Url := {|
  b64url_encode := encode64;
  b64url_decode l := Some (decode64 l);
  b64url_encoded_len n := Some ((4 * n + 2) / 3)
|}.

Lemma triples_ind (P : list Z → Prop) :
  P [] → (∀ a, P [a]) → (∀ a b, P [a; b]) → (∀ a b c l, P l → P (a :: b :: c :: l)) → ∀ l, P l.
Proof.
  intros H0 H1 H2 H3. fix IH 1. intros [|a [|b [|c l]]]; [done|apply H1|apply H2|apply H3, IH].
Qed.

Lemma value_symbol n : 0 ≤ n < 64 → value (symbol n) = n.
Proof. intros Hn. unfold symbol, value. repeat (case_match; bool_simpl); lia. Qed.

Lemma symbol_char n : 0 ≤ n < 64 → b64url_char (symbol n) = true.
Proof.
  intros Hn. unfold symbol, b64url_char.
  repeat (case_match; bool_simpl); rewrite ?orb_true_iff, ?andb_true_iff, ?Z.leb_le, ?Z.eqb_eq; lia.
Qed.

#[export] Instance base64_laws : Base64UrlLaws.
Proof.
  split; simpl.
  - intros l Hl. f_equal. unfold is_bytes, is_u8, u8_max in Hl.
    induction l as [|a|a b|a b c l IH] using triples_ind; rewrite ?Forall_cons in Hl; simpl;
      rewrite ?value_symbol by (Z.div_mod_to_equations; lia); [done|..];
      repeat f_equal; try (Z.div_mod_to_equations; lia). apply IH. naive_solver.
  - intros l. induction l as [|a|a b|a b c l IH] using triples_ind; simpl; try done.
    rewrite !zlen_cons, IH. Z.div_mod_to_equations. lia.
  - intros l Hl. unfold is_bytes, is_u8, u8_max in Hl.
    induction l as [|a|a b|a b c l IH] using triples_ind; rewrite ?Forall_cons in Hl; simpl;
      repeat constructor; try (apply symbol_char; Z.div_mod_to_equations; lia).
    apply IH. naive_solver.
  - done.
Qed.

Definition record_code (r : PairingRecord) : list Z :=
  PairingRecord.id r :: PairingRecord.expires_unix_seconds r :: PairingRecord.secret r.
Definition to_json (r : PairingRecord) : result (list Z) (list Z) := Ok (record_code r).
Definition from_json (b : list Z) : result (list Z) PairingRecord :=
  match b with id :: expires :: secret => Ok (PairingRecord.Mk id secret expires) | _ => Err [] end.

Lemma pairing_json_roundtrip r b : to_json r = Ok b → from_json b = Ok r.
Proof. intros [= <-]. by destruct r. Qed.

Lemma uuid_plain id : 46 ∉ AuthExample.uuid_text id.
Proof.
  unfold AuthExample.uuid_text. rewrite list_elem_of_singleton.
  pose proof (Z.mod_pos_bound id 10). lia.
Qed.

Definition secret : list Z := map Z.of_nat (seq 7 20).
Definition created : result AuthError NewPairing * MemState.Mem :=
  create_pairing to_json AuthExample.uuid_text AuthExample.uuid_parse 5 (Some secret) (Ok 1000)
    (lit "t") AuthExample.root (300 * 10 ^ 9) AuthExample.fresh_state.
Definition pairing : NewPairing := NewPairing.Mk 5 (format_code (encode64 secret)) 1300.
End PairingExample.

Import PairingExample.

Lemma pairing_code_agrees_witness :
  parse_pairing_code (NewPairing.code pairing) = Ok (MkPairingSecret secret) ∧
  load_pairing PairingExample.from_json AuthExample.uuid_text (Ok 1299) AuthExample.root 5 created.2 =
    (Ok (MkPairingSecret secret), created.2).
Proof.
  assert (created = (Ok pairing, created.2)) as E by (vm_compute; reflexivity).
  pose proof (pairing_code_agrees PairingExample.to_json PairingExample.from_json
    AuthExample.uuid_text AuthExample.uuid_parse 5 secret 1000 (lit "t") AuthExample.root
    (300 * 10 ^ 9) AuthExample.fresh_state created.2 pairing PairingExample.pairing_json_roundtrip
    uuid_plain) as Ht.
  destruct Ht as (Hcode & _ & Hload).
  - apply Forall_forall. intros x. unfold secret, is_u8, u8_max.
    rewrite list_elem_of_fmap. intros (n & -> & Hn%elem_of_seq). lia.
  - reflexivity.
  - lia.
  - unfold MAX_PAIRING_LIFETIME, u64_max. lia.
  - exact E.
  - split; [exact Hcode|]. apply (Hload 1299 created.2 eq_refl); vm_compute; reflexivity.
Defined.

Lemma pairing_single_use_witness :
  let consumed := (consume_pairing AuthExample.uuid_text AuthExample.root 5 created.2).2 in
  consume_pairing AuthExample.uuid_text AuthExample.root 5 consumed =
    (Err AuthError.PairingNotFound, consumed).
Proof.
  intros consumed.
  pose proof (pairing_single_use (SL := MemState.mem_state_laws) PairingExample.from_json
    AuthExample.uuid_text AuthExample.root 5 created.2 consumed) as Ht.
  destruct Ht as [Hm Hnext]; [vm_compute; reflexivity|]. exact (proj1 (Hnext consumed Hm)).
Defined.

Lemma install_identity_atomic_witness :
  let r := install_identity AuthExample.uuid_text AuthExample.uuid_parse 3
    (lit "t1", lit "t2", lit "t3") AuthExample.root (lit "new cert") (lit "new key")
    AuthExample.fresh_state in
  is_ok r.1 = true ∧
  install_outcome AuthExample.uuid_text AuthExample.root 3 (lit "t1", lit "t2", lit "t3")
    (lit "new cert") (lit "new key") r.1 AuthExample.fresh_state r.2.
Proof.
  intros r. split; [vm_compute; reflexivity|].
  apply (install_identity_atomic AuthExample.uuid_text AuthExample.uuid_parse 3
    (lit "t1", lit "t2", lit "t3") AuthExample.root (lit "new cert") (lit "new key")
    AuthExample.fresh_state r.2 r.1). unfold r. apply surjective_pairing.
Defined.
