(* ===== verification/ExportState.v ===== *)
(** The persistent record of an export ([crates/server-core/src/lib.rs], lines
    275-289, 530-550 and 2678-2800): the epoch, the key of the stable node
    identifiers and the volume name, which survive restarts of the daemon. *)

From S2P Require Import Prelude Protocol Common StateFiles Locks Registry XattrNames FileIO Attributes HostDirs Forks Session.

Module PersistentExportRecord.
Record PersistentExportRecord := Mk {
  version : Z;
  marker : list Z;
  epoch : Z;
  node_key : list Z;
  volume_name : list Z
}.
End PersistentExportRecord.
Abbreviation PersistentExportRecord := PersistentExportRecord.PersistentExportRecord.

(** [PersistentExportState], with what [ExportShared] keeps of the record. *)
Module PersistentExportState.
Record PersistentExportState := Mk { path : Path; marker : list Z }.
End PersistentExportState.
Abbreviation PersistentExportState := PersistentExportState.PersistentExportState.

(** [uN::from_be_bytes]. *)
Definition from_be_bytes (b : list Z) : Z := from_le_bytes (rev b).

(** The identifier of an inode under a key. *)
Definition stable_node_id (sha256 : list Z → list Z) (key : list Z) (identity : FileIdentity) : NodeId :=
  let digest := sha256 (lit "quickfs stable node v1" ++ key ++ to_le_bytes 8 (device identity) ++
                        to_le_bytes 8 (inode identity)) in
  let b := take 16 digest in
  let b := <[6%nat := Z.lor (Z.land (nth 6 b 0) 15) 80]> b in
  let b := <[8%nat := Z.lor (Z.land (nth 8 b 0) 63) 128]> b in
  MkNodeId (from_be_bytes b).

Definition export_marker (sha256 hex_encode : list Z → list Z) (root : list Z)
    (root_identity : FileIdentity) : list Z :=
  hex_encode (sha256 (lit "quickfs export identity v1" ++ root ++
    to_le_bytes 8 (device root_identity) ++ to_le_bytes 8 (inode root_identity))).

Section record.
Context {F : Type} `{SF : StateFs F}.
Context (hex_encode : list Z → list Z) (hex_decode : list Z → option (list Z)).
Context (record_to_json : PersistentExportRecord → option (list Z))
  (record_from_json : list Z → option PersistentExportRecord).

(** Computations on the state directory with server errors. *)
Definition EM : Type → Type := SM F ServerError.

Definition es_do {A} (call : F → result IoError A * F) : EM A := λ f,
  let '(r, f') := call f in (map_err server_error_from_io r, f').

Definition decode_node_key (encoded : list Z) : result ServerError (list Z) :=
  decoded ← ok_or (hex_decode encoded) ServerError.StateUnavailable;
  if zlen decoded =? 32 then Ok decoded else Err ServerError.StateUnavailable.

Definition read_export_record (f : F) (p : Path) : result IoError (list Z) :=
  metadata ← open_nofollow_metadata f p;
  if negb (bool_decide (FileMeta.kind metadata = FKind.Regular)) ||
     (FileMeta.len metadata >? 64 * 1024) then
    Err (IoError.Custom IoKind.InvalidData (lit "invalid export state file"))
  else read_limited f p u64_max.

(** [temporary] is the text of the UUID in the temporary name. *)
Definition export_temporary (dir : Path) (temporary : list Z) : Path :=
  dir ++ [lit ".quickfs-export-" ++ temporary ++ lit ".tmp"].

Definition save_export_record (temporary : list Z) (p : Path) (record : PersistentExportRecord)
    : EM unit :=
  b ← sm_lift (ok_or (record_to_json record) ServerError.StateUnavailable);
  dir ← sm_lift (ok_or (parent p) ServerError.StateUnavailable);
  let temp := export_temporary dir temporary in
  _ ← es_do (λ f, create_new f temp 384);
  r ← sm_try (_ ← es_do (λ f, st_write_all f temp b);
              _ ← es_do (λ f, sync_all f temp);
              _ ← es_do (λ f, st_rename f temp p);
              es_do (λ f, sync_directory_file f dir));
  match r with
  | Ok _ => mret tt
  | Err e => _ ← (λ f, (Ok tt, (remove_file f temp).2)); sm_err e
  end.

(** [fresh_epoch] and [fresh_key] are drawn when there is no record. *)
Definition load_or_create_export_record (fresh_epoch : Z) (fresh_key temporary : list Z) (p : Path)
    (marker : list Z) : EM PersistentExportRecord :=
  f ← sm_get;
  match read_export_record f p with
  | Ok b =>
      if zlen b >? 64 * 1024 then sm_err ServerError.StateUnavailable
      else
        record ← sm_lift (ok_or (record_from_json b) ServerError.StateUnavailable);
        if negb (PersistentExportRecord.version record =? 1) ||
           negb (bool_decide (PersistentExportRecord.marker record = marker)) then
          sm_err ServerError.StateUnavailable
        else
          _ ← sm_lift (decode_node_key (PersistentExportRecord.node_key record));
          mret record
  | Err e =>
      if bool_decide (io_kind e = IoKind.NotFound) then
        let record := PersistentExportRecord.Mk 1 marker fresh_epoch (hex_encode fresh_key)
                        (lit "quicKFS") in
        _ ← save_export_record temporary p record;
        mret record
      else sm_err (server_error_from_io e)
  end.

(** ** The volume name *)

Definition valid_volume_name (value : list Z) : bool :=
  negb (bool_decide (value = [])) && (zlen value <=? 255) &&
  forallb (λ b, negb ((b =? 47) || (b =? 58) || (b =? 44) || (b =? 0))) value.

Context {H : Type} (cfg : ExportConfig) (node_key : list Z).

(** [ExportSession::set_volume_name]; [persistence] is the record's place. *)
Definition set_volume_name (persistence : option PersistentExportState) (temporary : list Z)
    (name : Name) : SM (Session H * F) ServerError unit :=
  s ← sm_get;
  if negb (can_write cfg s.1) then sm_err ServerError.ReadOnly
  else if negb (utf8_valid name) then
    sm_err (ServerError.InvalidRequest (lit "volume name must be UTF-8"))
  else if negb (valid_volume_name name) then
    sm_err (ServerError.InvalidRequest (lit "invalid volume name"))
  else
    _ ← match persistence with
        | None => mret tt
        | Some p => λ s,
            let record := PersistentExportRecord.Mk 1 (PersistentExportState.marker p) (epoch cfg)
                            (hex_encode node_key) name in
            let '(r, f) := save_export_record temporary (PersistentExportState.path p) record s.2 in
            (r, (s.1, f))
        end;
    sm_modify (λ s, (MkSession (nodes s.1) (handle_permits s.1) (locks s.1) name
                       (write_authorized s.1) (host s.1), s.2)).
End record.

(** * Facts *)

Section facts.
Context {F : Type} `{SL : StateFsLaws F}.
Context (hex_encode : list Z → list Z) (hex_decode : list Z → option (list Z)).
Context (record_to_json : PersistentExportRecord → option (list Z))
  (record_from_json : list Z → option PersistentExportRecord).
Hypothesis record_json : ∀ r b, record_to_json r = Some b → record_from_json b = Some r.

(** The temporary file of a save. *)
Definition export_temp (p : Path) (temporary : list Z) : Path :=
  export_temporary (removelast p) temporary.

(** The file at [p] holds [record]. *)
Definition holds_record (f : F) (p : Path) (record : PersistentExportRecord) : Prop :=
  ∃ b, st_view f !! p = Some b ∧ record_from_json b = Some record.

Lemma save_record_spec temporary p record f r f' :
  export_temp p temporary ≠ p →
  save_export_record record_to_json temporary p record f = (r, f') →
  match r with
  | Ok _ => holds_record f' p record ∧ ∀ q, q ≠ p → st_view f' !! q = st_view f !! q
  | Err _ => (st_view f' !! p = st_view f !! p ∨ holds_record f' p record) ∧
      ∀ q, q ≠ p → q ≠ export_temp p temporary → st_view f' !! q = st_view f !! q
  end.
Proof.
  intros Hne. unfold save_export_record. sm_unfold.
  destruct (record_to_json record) as [b|] eqn:Ej; simpl; [|intros [= <- <-]; auto].
  destruct (parent p) as [dir|] eqn:Hp; simpl; [|intros [= <- <-]; auto].
  assert (export_temporary dir temporary = export_temp p temporary) as -> by (by destruct p; simplify_eq/=).
  set (temp := export_temp p temporary) in *. unfold es_do.
  assert (∀ g q, q ≠ temp → st_view (remove_file g temp).2 !! q = st_view g !! q) as Hrm.
  { intros g q Hq. destruct (remove_file g temp) as [rr g'] eqn:Er. apply law_remove_file in Er.
    simpl. destruct rr; [destruct Er as [-> _]; by rewrite lookup_delete_ne|by rewrite Er]. }
  destruct (create_new f temp 384) as [[[]|e1] f1] eqn:E1; apply law_create_new in E1; simpl.
  2: { intros [= <- <-]. by rewrite E1; auto. }
  destruct E1 as [Hnone E1].
  assert (∀ g : F, (∀ q, q ≠ temp → st_view g !! q = st_view f !! q) →
    (st_view (remove_file g temp).2 !! p = st_view f !! p ∨ holds_record (remove_file g temp).2 p record) ∧
    ∀ q, q ≠ p → q ≠ temp → st_view (remove_file g temp).2 !! q = st_view f !! q) as Hundo.
  { intros g Hg. split; [left|intros q ? ?]; by rewrite Hrm, Hg. }
  destruct (st_write_all f1 temp b) as [[[]|e2] f2] eqn:E2;
    (apply law_write_all in E2; [|by rewrite E1, lookup_insert_eq]); simpl.
  2: { intros [= <- <-]. apply Hundo. destruct E2 as [b' E2]. intros q Hq.
       by rewrite E2, E1, !lookup_insert_ne. }
  pose proof (law_sync_all f2 temp) as E3. destruct (sync_all f2 temp) as [[[]|e3] f3]; simpl in *.
  2: { intros [= <- <-]. apply Hundo. intros q Hq. by rewrite E3, E2, E1, !lookup_insert_ne. }
  destruct (st_rename f3 temp p) as [[[]|e4] f4] eqn:E4;
    (eapply law_rename in E4; [|by rewrite E3, E2, lookup_insert_eq]); simpl.
  2: { intros [= <- <-]. apply Hundo. intros q Hq. by rewrite E4, E3, E2, E1, !lookup_insert_ne. }
  rewrite E3, E2, E1, insert_insert_eq, delete_insert_id in E4 by done.
  pose proof (law_sync_directory f4 dir) as E5.
  destruct (sync_directory_file f4 dir) as [[[]|e5] f5]; simpl in *; intros [= <- <-].
  - split; [exists b; rewrite E5, E4, lookup_insert_eq; auto|].
    intros q Hq. by rewrite E5, E4, lookup_insert_ne.
  - split; [right; exists b; rewrite Hrm, E5, E4, lookup_insert_eq by done; auto|].
    intros q Hq ?. by rewrite Hrm, E5, E4, lookup_insert_ne.
Qed.

(** What reading a small record returns. *)
Lemma read_record_bytes (f : F) p b :
  read_export_record f p = Ok b → zlen b ≤ 64 * 1024 → st_view f !! p = Some b.
Proof.
  unfold read_export_record, mbind, result_bind.
  destruct (open_nofollow_metadata f p); [|done]. destruct (_ || _); [done|].
  intros (data & Hd & ->)%law_read_limited Hsize. rewrite Hd. f_equal.
  rewrite take_ge; [done|]. unfold zlen in Hsize. rewrite length_take in Hsize.
  assert (64 * 1024 < u64_max) by done. lia.
Qed.

(** A record this export accepts. *)
Definition acceptable (marker : list Z) (record : PersistentExportRecord) : Prop :=
  PersistentExportRecord.version record = 1 ∧ PersistentExportRecord.marker record = marker ∧
  is_ok (decode_node_key hex_decode (PersistentExportRecord.node_key record)) = true.

(** A stored acceptable record is loaded as it is. *)
Lemma load_stored fresh_epoch fresh_key temporary p marker (f : F) record b :
  holds_record f p record → acceptable marker record →
  read_export_record f p = Ok b → zlen b ≤ 64 * 1024 →
  load_or_create_export_record hex_encode hex_decode record_to_json record_from_json
    fresh_epoch fresh_key temporary p marker f = (Ok record, f).
Proof.
  intros (c & Hv & Hj) (Hver & Hmark & Hkey) Hread Hsize.
  pose proof (read_record_bytes _ _ _ Hread Hsize) as Hb. rewrite Hv in Hb. injection Hb as ->.
  unfold load_or_create_export_record. sm_unfold. rewrite Hread.
  destruct (_ >? _) eqn:E; [bool_simpl; lia|]. rewrite Hj. simpl.
  rewrite Hver, bool_decide_true by done. simpl. by destruct (decode_node_key _ _).
Qed.

(** What [load_or_create_export_record] returns is stored and acceptable. *)
Lemma load_result fresh_epoch fresh_key temporary p marker (f : F) record f' :
  (∀ k, hex_decode (hex_encode k) = Some k) → zlen fresh_key = 32 → export_temp p temporary ≠ p →
  load_or_create_export_record hex_encode hex_decode record_to_json record_from_json
    fresh_epoch fresh_key temporary p marker f = (Ok record, f') →
  holds_record f' p record ∧ acceptable marker record.
Proof.
  intros Hhex Hk Hne. unfold load_or_create_export_record. sm_unfold.
  destruct (read_export_record f p) as [b|e] eqn:Er.
  - destruct (_ >? _) eqn:Hsize; [done|]. bool_simpl.
    destruct (record_from_json b) as [r|] eqn:Ej; simpl; [|done].
    destruct (_ || _) eqn:Hc; [done|]. destruct (decode_node_key _ _) eqn:Ek; [|done].
    intros [= <- <-]. bool_simpl. split; [exists b; split; [by apply read_record_bytes|done]|].
    split_and!; [done|done|by rewrite Ek].
  - destruct (bool_decide _); [|done].
    destruct (save_export_record _ _ _ _ f) as [[[]|] f1] eqn:Es; [|done].
    apply save_record_spec in Es as [Hs _]; [|done]. intros [= <- <-]. split; [done|].
    split_and!; [done|done|]. simpl. unfold decode_node_key. rewrite Hhex. simpl. by rewrite Hk.
Qed.
End facts.

Section state_theorems.
Context {F : Type} `{SL : StateFsLaws F}.
Context (hex_encode : list Z → list Z) (hex_decode : list Z → option (list Z)).
Context (record_to_json : PersistentExportRecord → option (list Z))
  (record_from_json : list Z → option PersistentExportRecord).

(** The identity of an export survives restarts.  Once a start of the daemon
    has loaded or created the record, every later start that finds the same
    readable file gets the same record, whatever epoch and key it would have
    drawn itself, and writes nothing: the epoch, the volume name and, through
    the key, every stable node identifier are those of before. *)
Theorem export_record_survives fresh_epoch fresh_key temporary p marker (f f' : F) record :
  (∀ r b, record_to_json r = Some b → record_from_json b = Some r) →
  (∀ k, hex_decode (hex_encode k) = Some k) → zlen fresh_key = 32 → export_temp p temporary ≠ p →
  load_or_create_export_record hex_encode hex_decode record_to_json record_from_json
    fresh_epoch fresh_key temporary p marker f = (Ok record, f') →
  ∀ epoch' key' temporary' (g : F) b,
    st_view g !! p = st_view f' !! p → read_export_record g p = Ok b → zlen b ≤ 64 * 1024 →
    load_or_create_export_record hex_encode hex_decode record_to_json record_from_json
      epoch' key' temporary' p marker g = (Ok record, g).
Proof.
  intros Hj Hhex Hk Hne Hrun epoch' key' temporary' g b Hview Hread Hsize.
  apply load_result in Hrun as [(c & Hv & Hc) Hacc]; [|done..].
  eapply load_stored; [|done|done|done]. exists c. by rewrite Hview.
Qed.

(** A change of the volume name is durable and keeps the identity of the
    export.  When it succeeds, capabilities report the new name and the record
    on disk has it, with the epoch and the node key unchanged; when it fails,
    the reported name is the old one, and the record on disk is the old one or
    (when only the final directory sync failed) the new one.  A session that
    may not write changes neither. *)
Theorem volume_name_durable {Host} (cfg : ExportConfig) node_key st temporary name
    (s s' : Session Host) (f f' : F) r :
  (∀ r b, record_to_json r = Some b → record_from_json b = Some r) →
  export_temp (PersistentExportState.path st) temporary ≠ PersistentExportState.path st →
  set_volume_name hex_encode record_to_json cfg node_key (Some st) temporary name (s, f) =
    (r, (s', f')) →
  let p := PersistentExportState.path st in
  let record := PersistentExportRecord.Mk 1 (PersistentExportState.marker st) (epoch cfg)
                  (hex_encode node_key) name in
  match r with
  | Ok _ => can_write cfg s = true ∧ valid_volume_name name = true ∧
      volume_name s' = name ∧ holds_record record_from_json f' p record
  | Err _ => s' = s ∧
      (st_view f' !! p = st_view f !! p ∨ can_write cfg s = true ∧ holds_record record_from_json f' p record)
  end.
Proof.
  intros Hj Hne. unfold set_volume_name. sm_unfold. simpl.
  destruct (can_write cfg s) eqn:Hw; simpl; [|intros [= <- <- <-]; auto].
  destruct (utf8_valid name); simpl; [|intros [= <- <- <-]; auto].
  destruct (valid_volume_name name) eqn:Hn; simpl; [|intros [= <- <- <-]; auto].
  destruct (save_export_record _ _ _ _ f) as [[[]|e] f1] eqn:Es;
    (eapply save_record_spec in Es as [Hs _]; [|exact Hj|exact Hne]); intros [= <- <- <-].
  - by split_and!.
  - split; [done|]. destruct Hs; auto.
Qed.
End state_theorems.

(** * Examples *)

Module ExportExample.
Definition to_json (r : PersistentExportRecord) : option (list Z) :=
  Some (PersistentExportRecord.version r :: PersistentExportRecord.epoch r ::
    zlen (PersistentExportRecord.marker r) :: zlen (PersistentExportRecord.node_key r) ::
    PersistentExportRecord.marker r ++ PersistentExportRecord.node_key r ++
    PersistentExportRecord.volume_name r).
Definition from_json (b : list Z) : option PersistentExportRecord :=
  match b with
  | version :: epoch :: m :: k :: rest =>
      Some (PersistentExportRecord.Mk version (slice rest 0 m) epoch (slice rest m k)
        (drop (Z.to_nat (m + k)) rest))
  | _ => None
  end.

Lemma record_json_roundtrip r b : to_json r = Some b → from_json b = Some r.
Proof.
  intros [= <-]. destruct r as [v m e k n]. simpl. unfold slice, zlen. do 2 f_equal.
  - rewrite Nat2Z.id. simpl. by rewrite drop_0, take_app_length.
  - by rewrite !Nat2Z.id, drop_app_length, take_app_length.
  - rewrite Z2Nat.inj_add, !Nat2Z.id by lia. by rewrite <- drop_drop, !drop_app_length.
Qed.

Definition path : Path := [lit "state"; lit "filesystem-export.json"].
Definition key : list Z := repeat 7 32.
Definition empty_state : MemState.Mem := MemState.Mk ∅ {[ [lit "state"] ]}.
Definition first_start : result ServerError PersistentExportRecord * MemState.Mem :=
  load_or_create_export_record id Some to_json from_json 42 key (lit "t") path (lit "m") empty_state.
Definition first_record : PersistentExportRecord :=
  PersistentExportRecord.Mk 1 (lit "m") 42 key (lit "quicKFS").
End ExportExample.
Import ExportExample.

Lemma export_record_survives_witness :
  load_or_create_export_record id Some ExportExample.to_json ExportExample.from_json
    99 (repeat 1 32) (lit "u") path (lit "m") first_start.2 = (Ok first_record, first_start.2).
Proof.
  refine (export_record_survives id Some ExportExample.to_json ExportExample.from_json
    42 key (lit "t") path (lit "m") empty_state first_start.2 first_record
    ExportExample.record_json_roundtrip (λ k, eq_refl) eq_refl _ _ 99 (repeat 1 32) (lit "u")
    first_start.2 _ eq_refl _ _).
  - vm_compute. discriminate.
  - vm_compute. reflexivity.
  - vm_compute. reflexivity.
  - vm_compute. discriminate.
Defined.

Definition example_config : ExportConfig :=
  MkConfig (Limits.Mk 100 100 4 4 8 2 1000) true 42 true 0 1.
Definition example_session : Session unit :=
  MkSession (MkRegState (MkNodeRegistry ∅ ∅ 0) (MkSessionNodes ∅ 0 ∅)) 4 [] (lit "quicKFS") true tt.

Lemma volume_name_durable_witness :
  let r := set_volume_name (H:=unit) id ExportExample.to_json example_config key
    (Some (PersistentExportState.Mk path (lit "m"))) (lit "u") (lit "Media")
    (example_session, first_start.2) in
  is_ok r.1 = true ∧ volume_name r.2.1 = lit "Media" ∧
  holds_record ExportExample.from_json r.2.2 path
    (PersistentExportRecord.Mk 1 (lit "m") 42 key (lit "Media")).
Proof.
  intros r.
  assert (r = (Ok tt, (r.2.1, r.2.2))) as E by (vm_compute; reflexivity).
  pose proof (volume_name_durable id ExportExample.to_json ExportExample.from_json example_config key
    (PersistentExportState.Mk path (lit "m")) (lit "u") (lit "Media") example_session r.2.1
    first_start.2 r.2.2 (Ok tt) ExportExample.record_json_roundtrip) as Ht.
  destruct Ht as (_ & _ & Hn & Hr); [vm_compute; discriminate|exact E|].
  split; [vm_compute; reflexivity|]. split; [exact Hn|exact Hr].
Defined.
