(* ===== verification/RateLimiter.v ===== *)
(** The limiter of authentication attempts of the daemon
    ([servers/linux/server-daemon/src/main.rs], lines 680-722). *)

From S2P Require Import Prelude.

(** Instants and durations in nanoseconds. *)
Definition AUTH_RATE_WINDOW : Z := 60 * 10 ^ 9.
Definition MAX_AUTH_RATE_BUCKETS : Z := 4096.

(** [Instant::checked_sub]: the seconds of an instant are a signed 64-bit
    number. *)
Definition instant_checked_sub (now duration : Z) : option Z :=
  if - 2 ^ 63 * 10 ^ 9 <=? now - duration then Some (now - duration) else None.

(** [IpAddr]. *)
Inductive IpAddr := V4 (address : Z) | V6 (address : Z).
#[global] Instance IpAddr_eq_dec : EqDecision IpAddr.
Proof. solve_decision. Defined.
#[global] Instance IpAddr_countable : Countable IpAddr.
Proof.
  apply (inj_countable' (λ a, match a with V4 x => inl x | V6 x => inr x end)
    (λ s, match s with inl x => V4 x | inr x => V6 x end)). by intros [].
Defined.

(** The attempts of a peer are a queue, oldest first. *)
Record AuthRateLimiter := MkLimiter {
  attempts_per_peer : gmap IpAddr (list Z);
  maximum_attempts : Z
}.

Definition limiter_new (maximum_attempts : Z) : AuthRateLimiter := MkLimiter ∅ maximum_attempts.

(** [while attempts.front().is_some_and(|attempt| *attempt <= cutoff) { pop_front }]. *)
Fixpoint pop_expired (cutoff : Z) (attempts : list Z) : list Z :=
  match attempts with
  | a :: rest => if a <=? cutoff then pop_expired cutoff rest else attempts
  | [] => []
  end.

(** [retain] with the closure of [allow]. *)
Definition retain_live (cutoff : Z) (m : gmap IpAddr (list Z)) : gmap IpAddr (list Z) :=
  omap (λ attempts, match pop_expired cutoff attempts with [] => None | l => Some l end) m.

Definition allow (now : Z) (peer : IpAddr) (limiter : AuthRateLimiter) : bool * AuthRateLimiter :=
  let cutoff := default now (instant_checked_sub now AUTH_RATE_WINDOW) in
  let max := maximum_attempts limiter in
  let m := attempts_per_peer limiter in
  let full := bool_decide (m !! peer = None) && (Z.of_nat (size m) >=? MAX_AUTH_RATE_BUCKETS) in
  let m := if full then retain_live cutoff m else m in
  if full && (Z.of_nat (size m) >=? MAX_AUTH_RATE_BUCKETS) then (false, MkLimiter m max)
  else
    let attempts := pop_expired cutoff (default [] (m !! peer)) in
    if zlen attempts >=? max then (false, MkLimiter (<[peer := attempts]> m) max)
    else (true, MkLimiter (<[peer := attempts ++ [now]]> m) max).

(** * Facts *)

(** The calls of [allow], in order: their times and peers. *)
Fixpoint run_limiter (calls : list (Z * IpAddr)) (limiter : AuthRateLimiter)
    : list (Z * IpAddr) * AuthRateLimiter :=
  match calls with
  | [] => ([], limiter)
  | (now, peer) :: calls' =>
      let '(granted, l) := allow now peer limiter in
      let '(rest, l') := run_limiter calls' l in
      ((if granted then [(now, peer)] else []) ++ rest, l')
  end.

(** The granted attempts of [peer] in the window that ends at [t]. *)
Definition in_window (peer : IpAddr) (t : Z) (log : list (Z * IpAddr)) : list (Z * IpAddr) :=
  filter (λ g, g.2 = peer ∧ t - AUTH_RATE_WINDOW < g.1 ≤ t) log.

(** The attempts of a queue in the window that ends at [t]. *)
Definition queued (t : Z) (attempts : list Z) : list Z :=
  filter (λ a, t - AUTH_RATE_WINDOW < a ≤ t) attempts.

(** [log] are the granted attempts so far, in order, up to [now]: from now on
    the queue of a peer has its attempts of every window, and the limit was
    kept in every window. *)
Record limiter_inv (now : Z) (log : list (Z * IpAddr)) (l : AuthRateLimiter) : Prop := {
  li_queue : ∀ peer t, now ≤ t →
    zlen (in_window peer t log) ≤ zlen (queued t (default [] (attempts_per_peer l !! peer)));
  li_length : ∀ peer, zlen (default [] (attempts_per_peer l !! peer)) ≤ maximum_attempts l;
  li_bound : ∀ peer t, zlen (in_window peer t log) ≤ maximum_attempts l;
  li_size : Z.of_nat (size (attempts_per_peer l)) ≤ MAX_AUTH_RATE_BUCKETS
}.

Lemma zlen_queued t l : zlen (queued t l) ≤ zlen l.
Proof. unfold zlen, queued. pose proof (length_filter (λ a, t - AUTH_RATE_WINDOW < a ≤ t) l). lia. Qed.

Lemma queued_pop now t l : now ≤ t → queued t (pop_expired (now - AUTH_RATE_WINDOW) l) = queued t l.
Proof.
  intros Ht. induction l as [|a l IH]; simpl; [done|]. case_match; bool_simpl; [|done].
  rewrite IH. unfold queued. rewrite filter_cons_False; [done|]. lia.
Qed.

Lemma zlen_pop cutoff l : zlen (pop_expired cutoff l) ≤ zlen l.
Proof.
  induction l as [|a l IH]; simpl; [done|]. case_match; [|done]. rewrite zlen_cons. lia.
Qed.

Lemma pop_idempotent cutoff l : pop_expired cutoff (pop_expired cutoff l) = pop_expired cutoff l.
Proof.
  induction l as [|a l IH]; simpl; [done|]. destruct (a <=? cutoff) eqn:E; [done|]. simpl. by rewrite E.
Qed.

Lemma retain_lookup cutoff m peer :
  default [] (retain_live cutoff m !! peer) = pop_expired cutoff (default [] (m !! peer)).
Proof.
  unfold retain_live. rewrite lookup_omap. destruct (m !! peer) as [l|]; [|done]. simpl.
  by destruct (pop_expired cutoff l).
Qed.

Lemma retain_size cutoff m : (size (retain_live cutoff m) ≤ size m)%nat.
Proof.
  rewrite <- !size_dom. apply subseteq_size. apply dom_omap_subseteq.
Qed.

Lemma in_window_snoc peer t log now p :
  zlen (in_window peer t (log ++ [(now, p)])) =
  zlen (in_window peer t log) +
  (if decide (p = peer ∧ t - AUTH_RATE_WINDOW < now ≤ t) then 1 else 0).
Proof.
  unfold in_window. rewrite filter_app, zlen_app. f_equal.
  destruct (decide _); [by rewrite filter_cons_True|by rewrite filter_cons_False].
Qed.

Lemma queued_snoc t l now :
  zlen (queued t (l ++ [now])) =
  zlen (queued t l) + (if decide (t - AUTH_RATE_WINDOW < now ≤ t) then 1 else 0).
Proof.
  unfold queued. rewrite filter_app, zlen_app. f_equal.
  destruct (decide _); [by rewrite filter_cons_True|by rewrite filter_cons_False].
Qed.

(** Forgetting expired attempts keeps the invariant. *)
Lemma limiter_inv_pop now now' log l m :
  limiter_inv now log l → now ≤ now' → Z.of_nat (size m) ≤ MAX_AUTH_RATE_BUCKETS →
  (∀ peer, default [] (m !! peer) = default [] (attempts_per_peer l !! peer) ∨
     default [] (m !! peer) =
       pop_expired (now' - AUTH_RATE_WINDOW) (default [] (attempts_per_peer l !! peer))) →
  limiter_inv now' log (MkLimiter m (maximum_attempts l)).
Proof.
  intros [Hq Hl Hb Hs] Hnow Hsize Hm. split; simpl.
  - intros peer t Ht. destruct (Hm peer) as [-> | ->]; [|rewrite queued_pop by done]; apply Hq; lia.
  - intros peer. specialize (Hl peer). destruct (Hm peer) as [-> | ->]; [done|].
    etrans; [apply zlen_pop|done].
  - done.
  - done.
Qed.

(** Recording a granted attempt keeps it. *)
Lemma limiter_inv_grant now log l peer :
  limiter_inv now log l →
  let queue := default [] (attempts_per_peer l !! peer) in
  zlen queue < maximum_attempts l →
  Z.of_nat (size (<[peer := queue ++ [now]]> (attempts_per_peer l))) ≤ MAX_AUTH_RATE_BUCKETS →
  limiter_inv now (log ++ [(now, peer)])
    (MkLimiter (<[peer := queue ++ [now]]> (attempts_per_peer l)) (maximum_attempts l)).
Proof.
  intros [Hq Hl Hb Hs] queue Hlt Hsize.
  assert (∀ p t, now ≤ t → zlen (in_window p t (log ++ [(now, peer)])) ≤
    zlen (queued t (default [] (<[peer := queue ++ [now]]> (attempts_per_peer l) !! p)))) as Hq'.
  { intros p t Ht. specialize (Hq p t Ht). rewrite in_window_snoc.
    destruct (decide (peer = p)) as [->|Hne].
    - rewrite lookup_insert_eq. simpl. rewrite queued_snoc. unfold queue.
      repeat case_decide; naive_solver lia.
    - rewrite lookup_insert_ne by done. case_decide; [naive_solver|]. lia. }
  assert (∀ p, zlen (default [] (<[peer := queue ++ [now]]> (attempts_per_peer l) !! p)) ≤
    maximum_attempts l) as Hl'.
  { intros p. destruct (decide (peer = p)) as [->|Hne].
    - rewrite lookup_insert_eq. simpl. rewrite zlen_app. change (zlen [now]) with 1. lia.
    - rewrite lookup_insert_ne by done. apply Hl. }
  split; simpl; [done|done| |done].
  intros p t. destruct (decide (now ≤ t)) as [Ht|Ht].
  - etrans; [by apply Hq'|]. etrans; [apply zlen_queued|apply Hl'].
  - rewrite in_window_snoc. case_decide; [lia|]. specialize (Hb p t). lia.
Qed.

Lemma allow_inv now now' log l peer granted l' :
  limiter_inv now log l → 0 ≤ now ≤ now' → allow now' peer l = (granted, l') →
  limiter_inv now' (log ++ if granted then [(now', peer)] else []) l' ∧
  maximum_attempts l' = maximum_attempts l.
Proof.
  intros Hinv Hnow. unfold allow.
  assert (default now' (instant_checked_sub now' AUTH_RATE_WINDOW) = now' - AUTH_RATE_WINDOW) as ->.
  { unfold instant_checked_sub. rewrite (proj2 (Z.leb_le _ _)); [done|].
    unfold AUTH_RATE_WINDOW. lia. }
  set (full := bool_decide _ && _).
  set (m := if full then retain_live (now' - AUTH_RATE_WINDOW) (attempts_per_peer l) 
            else attempts_per_peer l).
  assert (∀ p, default [] (m !! p) = default [] (attempts_per_peer l !! p) ∨ default [] (m !! p) =
    pop_expired (now' - AUTH_RATE_WINDOW) (default [] (attempts_per_peer l !! p))) as Hm.
  { intros p. unfold m. destruct full; [right; apply retain_lookup|by left]. }
  assert (Z.of_nat (size m) ≤ MAX_AUTH_RATE_BUCKETS) as Hsize.
  { destruct Hinv as [_ _ _ Hs]. unfold m. destruct full; [|done].
    pose proof (retain_size (now' - AUTH_RATE_WINDOW) (attempts_per_peer l)). lia. }
  destruct (full && _) eqn:Hfull.
  { intros [= <- <-]. rewrite app_nil_r. split; [|done].
    apply (limiter_inv_pop now); [done|lia|done|done]. }
  assert (∀ q, Z.of_nat (size (<[peer := q]> m)) ≤ MAX_AUTH_RATE_BUCKETS) as Hins.
  { intros q. destruct (m !! peer) eqn:Ep; [by rewrite map_size_insert_Some|].
    rewrite map_size_insert_None by done. apply andb_false_iff in Hfull as [Hf|Hf].
    - unfold m in Ep |- *. rewrite Hf in Ep |- *. unfold full in Hf.
      rewrite bool_decide_true in Hf by done. simpl in Hf. bool_simpl. lia.
    - bool_simpl. lia. }
  set (queue := pop_expired _ (default [] (m !! peer))).
  assert (limiter_inv now' log (MkLimiter (<[peer := queue]> m) (maximum_attempts l))) as Hpop.
  { apply (limiter_inv_pop now); [done|lia|apply Hins|]. intros p.
    destruct (decide (peer = p)) as [<-|Hne]; [|by rewrite lookup_insert_ne].
    rewrite lookup_insert_eq. right. simpl. unfold queue.
    destruct (Hm peer) as [-> | ->]; [done|apply pop_idempotent]. }
  case_match; bool_simpl; intros [= <- <-]; (split; [|done]); [by rewrite app_nil_r|].
  pose proof (limiter_inv_grant now' log _ peer Hpop) as Hg. simpl in Hg.
  rewrite lookup_insert_eq, insert_insert_eq in Hg. by apply Hg.
Qed.

Lemma run_limiter_inv now log calls l :
  limiter_inv now log l → 0 ≤ now →
  StronglySorted Z.le (now :: map fst calls) →
  let '(granted, l') := run_limiter calls l in
  (∃ now', limiter_inv now' (log ++ granted) l') ∧ maximum_attempts l' = maximum_attempts l.
Proof.
  revert now log l. induction calls as [|[t peer] calls IH]; intros now log l Hinv Hnow Hs; simpl.
  { rewrite app_nil_r. split; [by exists now|done]. }
  inversion Hs as [|? ? Hs' Hall]; subst. simpl in Hs', Hall. apply Forall_cons in Hall as [Hle _].
  destruct (allow t peer l) as [granted l1] eqn:E.
  eapply allow_inv in E as [Hinv1 Hmax]; [|done|lia].
  specialize (IH t _ l1 Hinv1 ltac:(lia) Hs').
  destruct (run_limiter calls l1) as [rest l']. rewrite app_assoc. destruct IH as [? ->]. done.
Qed.

(** C29: The limiter keeps its promise whatever the calls are.  In every window of
    a minute, at most [maximum_attempts] attempts of one peer are granted, also
    when other peers fill the table in between, and the table never has more
    than [MAX_AUTH_RATE_BUCKETS] peers. *)
Theorem attempts_limited maximum calls peer t :
  0 ≤ maximum → StronglySorted Z.le (0 :: map fst calls) →
  let '(granted, l) := run_limiter calls (limiter_new maximum) in
  zlen (in_window peer t granted) ≤ maximum ∧
  Z.of_nat (size (attempts_per_peer l)) ≤ MAX_AUTH_RATE_BUCKETS.
Proof.
  intros Hmax Hs. pose proof (run_limiter_inv 0 [] calls (limiter_new maximum)) as Hrun.
  destruct (run_limiter calls _) as [granted l]. simpl in Hrun.
  destruct Hrun as [[now [_ _ Hb Hsize]] Em]; [|done|done|].
  - split; simpl; [done| | |]; intros; rewrite ?lookup_empty; try done.
  - rewrite Em in Hb. split; [apply Hb|done].
Qed.

Lemma attempts_limited_witness :
  let minute := 60 * 10 ^ 9 in
  let calls := [(1, V4 7); (2, V4 7); (3, V4 7); (4, V4 8); (minute + 1, V4 7)] in
  let '(granted, l) := run_limiter calls (limiter_new 2) in
  granted = [(1, V4 7); (2, V4 7); (4, V4 8); (minute + 1, V4 7)] ∧
  zlen (in_window (V4 7) minute granted) ≤ 2.
Proof.
  intros minute calls.
  pose proof (attempts_limited 2 calls (V4 7) minute) as Ht.
  assert (StronglySorted Z.le (0 :: map fst calls)) as Hs.
  { apply Sorted_StronglySorted; [intros x y z; lia|]. simpl. unfold minute. repeat constructor; lia. }
  specialize (Ht ltac:(lia) Hs). vm_compute in Ht. vm_compute. split; [reflexivity|apply Ht].
Defined.
