(* ===== verification/Transport.v ===== *)
(** The QUIC transport ([crates/transport-quic/src/lib.rs]): its errors and
    limits, frames on a stream of bytes, the client's connection with the
    version it has learned and its choice to compress, the bounded loading of
    certificates and keys, the verification of a pinned certificate, the
    configurations given to the QUIC library, and the pairing request.

    QUIC, TLS and the PEM parser are parameters: the class [Quic] is a
    connection whose streams can be opened, written and finished, and whose
    answers arrive as bytes followed by the error that a read beyond them gets.
    Any of its calls may fail with [TransportError.Timeout], which is how a call
    that exceeds the deadline of its phase ends. *)

From S2P Require Import Prelude Protocol Common StateFiles.

(** * Errors and limits *)

(** The errors of the QUIC library are kept without their contents. *)
Module TransportError.
Inductive TransportError :=
  | Io (e : IoError)
  | Connection
  | Write
  | Read
  | Closed
  | Codec (e : CodecError)
  | Tls (message : list Z)
  | Protocol (message : list Z)
  | Timeout.
End TransportError.
Abbreviation TransportError := TransportError.TransportError.

Definition MAX_CERTIFICATE_BUNDLE_SIZE : Z := 4 * 1024 * 1024.
Definition MAX_PRIVATE_KEY_SIZE : Z := 64 * 1024.
Definition MAX_CERTIFICATES_PER_BUNDLE : Z := 4096.
Definition FILESYSTEM_IDLE_TIMEOUT_MILLIS : Z := 5 * 60 * 1000.
Definition CLIENT_KEEP_ALIVE_INTERVAL_MILLIS : Z := 10 * 1000.
Definition STREAM_RECEIVE_WINDOW : Z := 32 * 1024 * 1024.
Definition CONNECTION_RECEIVE_WINDOW : Z := 128 * 1024 * 1024.
Definition CONNECTION_SEND_WINDOW : Z := 128 * 1024 * 1024.
Definition SERVER_CONCURRENT_BIDI_STREAMS : Z := 256.

Definition tls {A} (message : string) : result TransportError A := Err (TransportError.Tls (lit message)).

(** * Frames on a stream of bytes *)

(** [u32::to_be_bytes] and [u32::from_be_bytes] for [n] bytes. *)
Definition to_be_bytes (n : nat) (z : Z) : list Z := rev (to_le_bytes n z).
Definition from_be_bytes (b : list Z) : Z := from_le_bytes (rev b).

(** A frame: its 32-bit prefix and its body. *)
Definition Frame : Type := Z * list Z.
Definition frame_bytes (f : Frame) : list Z := to_be_bytes 4 f.1 ++ f.2.
Arguments to_be_bytes : simpl never.
Arguments frame_bytes : simpl never.
(** The bytes of a sequence of frames. *)
Definition wire (frames : list Frame) : list Z := mjoin (map frame_bytes frames).

(** What arrives on a stream: the bytes, and the error of a read past them. *)
Module Incoming.
Record Incoming := Mk { arrived : list Z; ended : TransportError }.
End Incoming.
Abbreviation Incoming := Incoming.Incoming.

Definition RM : Type → Type := SM Incoming TransportError.

(** [RecvStream::read_exact]. *)
Definition read_exact (count : Z) : RM (list Z) := λ s,
  let data := Incoming.arrived s in
  if count <=? zlen data
  then (Ok (take (Z.to_nat count) data), Incoming.Mk (drop (Z.to_nat count) data) (Incoming.ended s))
  else (Err (Incoming.ended s), Incoming.Mk [] (Incoming.ended s)).

Section frames.
Context {T : Type} (postcard_to : T → option (list Z)) (postcard_from : list Z → option T)
  (zstd_compress zstd_decompress : list Z → Z → option (list Z)).

Definition read_frame : RM T :=
  prefix ← read_exact 4;
  header ← sm_lift (map_err TransportError.Codec (parse_frame_header (from_be_bytes prefix)));
  body ← read_exact header.2;
  sm_lift (map_err TransportError.Codec (decode_frame postcard_from zstd_decompress header.1 body)).
End frames.

(** * Connections *)

(** A QUIC connection of the library; streams are named by their numbers. *)
Class Quic (Q : Type) := {
  open_bi : SM Q TransportError Z;
  write_all : Z → list Z → SM Q TransportError unit;
  finish : Z → SM Q TransportError unit;
  (** all that the peer sends on the stream before it ends *)
  incoming : Q → Z → Incoming * Q;
  (** no certificate, an identity of another type, or the chain *)
  peer_identity : Q → option (option (list (list Z)));
  close_connection : Q → Q
}.

(** [QuicClient]; its deadline is part of the connection's behaviour. *)
Module QuicClient.
Record QuicClient (Q : Type) := Mk { connection : Q; compression : bool; server_version : Z }.
Arguments Mk {Q} _ _ _.
Arguments connection {Q} _.
Arguments compression {Q} _.
Arguments server_version {Q} _.
End QuicClient.
Abbreviation QuicClient := QuicClient.QuicClient.

Section client.
Context {Q : Type} `{Quic Q}.
Context (zstd_compress : list Z → Z → option (list Z)).

Definition CM : Type → Type := SM (QuicClient Q) TransportError.

Definition with_connection (q : Q) (c : QuicClient Q) : QuicClient Q :=
  QuicClient.Mk q (QuicClient.compression c) (QuicClient.server_version c).
Definition on_connection {A} (m : SM Q TransportError A) : CM A := λ c,
  let '(r, q) := m (QuicClient.connection c) in (r, with_connection q c).

Definition set_compression (enabled : bool) (c : QuicClient Q) : QuicClient Q :=
  QuicClient.Mk (QuicClient.connection c) enabled (QuicClient.server_version c).
Definition set_server_version (version : Z) (c : QuicClient Q) : QuicClient Q :=
  QuicClient.Mk (QuicClient.connection c) (QuicClient.compression c) version.

Definition stream : CM Z := on_connection open_bi.

Definition write_frame {T} (postcard_to : T → option (list Z)) (send : Z) (value : T) (compress : bool)
    : SM Q TransportError unit :=
  frame ← sm_lift (map_err TransportError.Codec (encode_frame postcard_to zstd_compress value compress));
  _ ← write_all send (to_be_bytes 4 frame.1);
  write_all send frame.2.

Definition send_frame {T} (postcard_to : T → option (list Z)) (send : Z) (value : T) : CM unit :=
  c ← sm_get;
  on_connection (write_frame postcard_to send value (QuicClient.compression c)).
Definition send_all (send : Z) (data : list Z) : CM unit := on_connection (write_all send data).
Definition finish_stream (send : Z) : CM unit := on_connection (finish send).

(** The answer on the stream, for [receive_frame] and [receive_exact]. *)
Definition receive (recv : Z) : CM Incoming := λ c,
  let '(i, q) := incoming (QuicClient.connection c) recv in (Ok i, with_connection q c).

Definition close (c : QuicClient Q) : QuicClient Q :=
  with_connection (close_connection (QuicClient.connection c)) c.

Definition certificate_sha256 (sha256 : list Z → list Z) (certificate : list Z) : list Z := sha256 certificate.

Definition peer_certificate_fingerprint (sha256 : list Z → list Z) (c : QuicClient Q)
    : result TransportError (list Z) :=
  identity ← ok_or (peer_identity (QuicClient.connection c))
               (TransportError.Tls (lit "server did not present a certificate"));
  certificates ← ok_or identity (TransportError.Tls (lit "unexpected server identity type"));
  certificate ← ok_or (head certificates) (TransportError.Tls (lit "server certificate chain is empty"));
  Ok (certificate_sha256 sha256 certificate).
End client.

(** * Configuration *)

Module TransportConfig.
Record TransportConfig := Mk {
  max_idle_timeout : Z;
  stream_receive_window : Z;
  receive_window : Z;
  send_window : Z;
  keep_alive_interval : option Z;
  max_concurrent_bidi_streams : option Z
}.
End TransportConfig.
Abbreviation TransportConfig := TransportConfig.TransportConfig.

Definition filesystem_transport_config (client_keep_alive accept_filesystem_streams : bool)
    : TransportConfig :=
  TransportConfig.Mk FILESYSTEM_IDLE_TIMEOUT_MILLIS STREAM_RECEIVE_WINDOW CONNECTION_RECEIVE_WINDOW
    CONNECTION_SEND_WINDOW
    (if client_keep_alive then Some CLIENT_KEEP_ALIVE_INTERVAL_MILLIS else None)
    (if accept_filesystem_streams then Some SERVER_CONCURRENT_BIDI_STREAMS else None).

(** How the certificate of the server is judged. *)
Module Verification.
Inductive Verification :=
  | RootCertificates (authorities : list (list Z))
  | Platform
  | Fingerprint (expected : option (list Z)).
End Verification.
Abbreviation Verification := Verification.Verification.

(** [FingerprintVerifier::verify_server_cert]. *)
Definition verify_server_cert (sha256 : list Z → list Z) (expected : option (list Z)) (end_entity : list Z)
    : result (list Z) unit :=
  match expected with
  | Some fingerprint =>
      if bool_decide (sha256 end_entity = fingerprint) then Ok tt
      else Err (lit "server certificate does not match the pinned identity")
  | None => Ok tt
  end.

Module ClientConfig.
Record ClientConfig := Mk {
  verification : Verification;
  alpn_protocols : list (list Z);
  transport : TransportConfig
}.
End ClientConfig.
Abbreviation ClientConfig := ClientConfig.ClientConfig.

Section connect.
(** The QUIC library: the network [E], a connection attempt (the address, the
    name and the configuration), the root store and the platform's verifier,
    which report an error by its text. *)
Context {E Q : Type} (Address : Type).
Context (connect_endpoint : Address → list Z → ClientConfig → SM E TransportError Q)
  (root_error : list Z → option (list Z)) (platform_error : option (list Z)).

Definition connect_with_crypto (server : Address) (server_name : list Z) (crypto : Verification)
    : SM E TransportError (QuicClient Q) :=
  connection ← connect_endpoint server server_name
    (ClientConfig.Mk crypto [ALPN_PROTOCOL] (filesystem_transport_config true false));
  mret (QuicClient.Mk connection false 0).

(** The loop that adds the authorities to the root store. *)
Fixpoint add_roots (authorities : list (list Z)) : result TransportError unit :=
  match authorities with
  | [] => Ok tt
  | a :: authorities' =>
      match root_error a with
      | Some message => Err (TransportError.Tls message)
      | None => add_roots authorities'
      end
  end.

Definition connect_with_ca (server : Address) (server_name : list Z) (authorities : list (list Z))
    : SM E TransportError (QuicClient Q) :=
  if bool_decide (authorities = []) then sm_lift (tls "certificate-authority bundle is empty")
  else if zlen authorities >? MAX_CERTIFICATES_PER_BUNDLE then
    sm_lift (tls "certificate-authority bundle contains too many certificates")
  else
    _ ← sm_lift (add_roots authorities);
    connect_with_crypto server server_name (Verification.RootCertificates authorities).

Definition connect (server : Address) (server_name certificate : list Z)
    : SM E TransportError (QuicClient Q) := connect_with_ca server server_name [certificate].

Definition connect_with_system_roots (server : Address) (server_name : list Z)
    : SM E TransportError (QuicClient Q) :=
  match platform_error with
  | Some message => sm_err (TransportError.Tls message)
  | None => connect_with_crypto server server_name Verification.Platform
  end.

Definition connect_with_verifier (server : Address) (server_name : list Z) (fingerprint : option (list Z))
    : SM E TransportError (QuicClient Q) :=
  connect_with_crypto server server_name (Verification.Fingerprint fingerprint).
Definition connect_pinned (server : Address) (server_name fingerprint : list Z)
    : SM E TransportError (QuicClient Q) := connect_with_verifier server server_name (Some fingerprint).
End connect.

(** The server's identity; [single_cert] is the check of the TLS library that
    the key fits the chain and [quic_error] that QUIC accepts it. *)
Module ServerConfig.
Record ServerConfig := Mk {
  certificates : list (list Z);
  key : list Z;
  alpn_protocols : list (list Z)
}.
End ServerConfig.
Abbreviation ServerConfig := ServerConfig.ServerConfig.

Section server_config.
Context (single_cert : list (list Z) → list Z → option (list Z))
  (quic_error : ServerConfig → option (list Z)).

Definition server_crypto_config (certificates : list (list Z)) (key : list Z)
    : result TransportError ServerConfig :=
  if bool_decide (certificates = []) then tls "server certificate chain is empty"
  else if zlen certificates >? MAX_CERTIFICATES_PER_BUNDLE then
    tls "server certificate chain contains too many certificates"
  else match single_cert certificates key with
       | Some message => Err (TransportError.Tls message)
       | None => Ok (ServerConfig.Mk certificates key [ALPN_PROTOCOL])
       end.

Definition validate_server_identity (certificates : list (list Z)) (key : list Z)
    : result TransportError unit :=
  crypto ← server_crypto_config certificates key;
  match quic_error crypto with
  | Some message => Err (TransportError.Tls message)
  | None => Ok tt
  end.

(** [bind] is [Endpoint::server]. *)
Definition server_endpoint {A E} (bind : ServerConfig → TransportConfig → A → result IoError E) (address : A)
    (certificates : list (list Z)) (key : list Z) : result TransportError E :=
  crypto ← server_crypto_config certificates key;
  match quic_error crypto with
  | Some message => Err (TransportError.Tls message)
  | None => map_err TransportError.Io (bind crypto (filesystem_transport_config false true) address)
  end.
End server_config.

(** * Certificate and key files *)

Section files.
Context {F : Type} `{StateFs F}.
(** The decimal text of a number, [fs::metadata], which follows links, and the
    PEM parser. *)
Context (decimal : Z → list Z) (fs_metadata : F → Path → result IoError FileMeta)
  (pem_certificates : list Z → result (list Z) (list (list Z)))
  (pem_private_key : list Z → result (list Z) (list Z)).

Definition validate_declared_size (size maximum : Z) (label : list Z) : result TransportError unit :=
  if size =? 0 then Err (TransportError.Tls (label ++ lit " is empty"))
  else if size >? maximum then
    Err (TransportError.Tls (label ++ lit " exceeds the " ++ decimal maximum ++ lit "-byte safety limit"))
  else Ok tt.

(** The length of a buffer fits [u64] on a 64-bit target. *)
Definition validate_buffer_size (data_len maximum : Z) (label : list Z) : result TransportError unit :=
  if data_len >? u64_max then Err (TransportError.Tls (label ++ lit " size does not fit u64"))
  else if data_len =? 0 then Err (TransportError.Tls (label ++ lit " is empty"))
  else if data_len >? maximum then
    Err (TransportError.Tls (label ++ lit " exceeds the " ++ decimal maximum ++ lit "-byte safety limit"))
  else Ok tt.

Definition read_bounded_file (f : F) (path : Path) (maximum : Z) (label : list Z)
    : result TransportError (list Z) :=
  let not_regular := TransportError.Tls (label ++ lit " is not a regular file") in
  initial ← map_err TransportError.Io (fs_metadata f path);
  if negb (bool_decide (FileMeta.kind initial = FKind.Regular)) then Err not_regular
  else
    _ ← validate_declared_size (FileMeta.len initial) maximum label;
    opened ← map_err TransportError.Io (open_metadata f path);
    if negb (bool_decide (FileMeta.kind opened = FKind.Regular)) then Err not_regular
    else
      _ ← validate_declared_size (FileMeta.len opened) maximum label;
      data ← map_err TransportError.Io (read_limited f path (u64_saturating_add maximum 1));
      _ ← validate_buffer_size (zlen data) maximum label;
      Ok data.

Definition certificate_label : list Z := lit "certificate bundle".
Definition key_label : list Z := lit "private key".

Definition parse_certificates_pem (pem : list Z) : result TransportError (list (list Z)) :=
  _ ← validate_buffer_size (zlen pem) MAX_CERTIFICATE_BUNDLE_SIZE certificate_label;
  certificates ← map_err TransportError.Tls (pem_certificates pem);
  if bool_decide (certificates = []) then tls "certificate bundle is empty"
  else if zlen certificates >? MAX_CERTIFICATES_PER_BUNDLE then
    tls "certificate bundle contains too many certificates"
  else Ok certificates.

Definition load_certificate_pem (f : F) (path : Path) : result TransportError (list Z) :=
  read_bounded_file f path MAX_CERTIFICATE_BUNDLE_SIZE certificate_label.
Definition load_certificates (f : F) (path : Path) : result TransportError (list (list Z)) :=
  pem ← load_certificate_pem f path;
  parse_certificates_pem pem.
Definition load_certificate (f : F) (path : Path) : result TransportError (list Z) :=
  certificates ← load_certificates f path;
  ok_or (head certificates) (TransportError.Tls (lit "certificate bundle is empty")).

Definition load_private_key_pem (f : F) (path : Path) : result TransportError (list Z) :=
  read_bounded_file f path MAX_PRIVATE_KEY_SIZE key_label.
Definition parse_private_key_pem (pem : list Z) : result TransportError (list Z) :=
  _ ← validate_buffer_size (zlen pem) MAX_PRIVATE_KEY_SIZE key_label;
  map_err TransportError.Tls (pem_private_key pem).
Definition load_private_key (f : F) (path : Path) : result TransportError (list Z) :=
  pem ← load_private_key_pem f path;
  parse_private_key_pem pem.
End files.

(** * Pairing *)

Section pairing.
Context {Q : Type} `{Quic Q}.
Context (request_to : Envelope Request → option (list Z))
  (response_from : list Z → option (Envelope Response))
  (zstd_compress zstd_decompress : list Z → Z → option (list Z)) (decimal : Z → list Z).

(** [PairingClient::pair]; [fresh] is the new request identifier.  The secrets
    of the request are cleared after it was sent. *)
Definition pair (fresh : RequestId) (pairing_id : Z) (client_nonce client_proof : list Z)
    : CM (Q:=Q) Response :=
  let request := envelope_new fresh (Request.Pair pairing_id client_nonce (MkSecretProof client_proof)) in
  s ← stream;
  _ ← send_frame zstd_compress request_to s request;
  _ ← finish_stream s;
  i ← receive s;
  response ← sm_lift (read_frame response_from zstd_decompress i).1;
  if negb (version_major (Envelope.version response) =? PROTOCOL_MAJOR) then
    sm_err (TransportError.Protocol (lit "unsupported response protocol major version " ++
      decimal (version_major (Envelope.version response))))
  else if negb (bool_decide (Envelope.request_id response = Envelope.request_id request)) then
    sm_err (TransportError.Protocol (lit "pairing response request identifier did not match"))
  else mret (Envelope.message response).
End pairing.

(** * Facts *)

Lemma from_to_be_bytes n z : 0 ≤ z < 256 ^ Z.of_nat n → from_be_bytes (to_be_bytes n z) = z.
Proof. intros. unfold from_be_bytes, to_be_bytes. rewrite rev_involutive. by apply from_to_le_bytes. Qed.

Lemma zlen_to_be_bytes n z : zlen (to_be_bytes n z) = Z.of_nat n.
Proof. unfold zlen, to_be_bytes. by rewrite length_rev, length_to_le_bytes. Qed.

Lemma wire_cons f frames : wire (f :: frames) = frame_bytes f ++ wire frames.
Proof. done. Qed.

Lemma wire_one f : wire [f] = frame_bytes f.
Proof. unfold wire. simpl. by rewrite app_nil_r. Qed.

Lemma length_wire frames : (length frames ≤ length (wire frames))%nat.
Proof.
  induction frames as [|f frames IH]; [done|]. rewrite wire_cons, length_app.
  assert (0 < length (frame_bytes f))%nat.
  { unfold frame_bytes. rewrite length_app. pose proof (zlen_to_be_bytes 4 f.1) as H4. unfold zlen in H4. lia. }
  simpl. lia.
Qed.

Lemma read_exact_app a b e n :
  zlen a = n → read_exact n (Incoming.Mk (a ++ b) e) = (Ok a, Incoming.Mk b e).
Proof.
  intros <-. unfold read_exact. simpl. rewrite zlen_app. pose proof (zlen_nonneg b).
  case_match; bool_simpl; [|lia]. unfold zlen. by rewrite Nat2Z.id, take_app_length, drop_app_length.
Qed.

(** A read delivers what it asked for, and nothing is lost or repeated. *)
Lemma read_exact_spec n i d i' :
  0 ≤ n → read_exact n i = (Ok d, i') →
  zlen d = n ∧ Incoming.arrived i = d ++ Incoming.arrived i' ∧ Incoming.ended i' = Incoming.ended i.
Proof.
  unfold read_exact. intros Hn. case_match; bool_simpl; [|done]. intros [= <- <-]. simpl.
  split_and!; [|by rewrite take_drop|done]. unfold zlen in *. rewrite length_take. lia.
Qed.

Lemma lor_u32 a b : is_u32 a → is_u32 b → is_u32 (Z.lor a b).
Proof.
  unfold is_u32, u32_max. intros Ha Hb. assert (0 ≤ Z.lor a b) as H0 by (apply Z.lor_nonneg; lia).
  split; [done|]. destruct (decide (Z.lor a b = 0)) as [->|]; [lia|].
  cut (Z.lor a b < 2 ^ 32); [lia|]. apply Z.log2_lt_pow2; [lia|]. rewrite Z.log2_lor by lia.
  apply Z.max_lub_lt.
  - destruct (decide (a = 0)) as [->|]; [done|]. apply Z.log2_lt_pow2; lia.
  - destruct (decide (b = 0)) as [->|]; [done|]. apply Z.log2_lt_pow2; lia.
Qed.

Lemma as_u32_range z : is_u32 (as_u32 z).
Proof. unfold is_u32, as_u32, u32_max. pose proof (Z.mod_pos_bound z (2 ^ 32)). lia. Qed.

Section frame_facts.
Context {T : Type} (postcard_to : T → option (list Z)) (postcard_from : list Z → option T)
  (zstd_compress zstd_decompress : list Z → Z → option (list Z)).

Lemma encode_frame_prefix v compress f :
  encode_frame postcard_to zstd_compress v compress = Ok f → is_u32 f.1.
Proof.
  pose proof as_u32_range. assert (is_u32 FRAME_COMPRESSED_FLAG) by done.
  unfold encode_frame. destruct (encode postcard_to v) as [payload|]; simpl; [|done].
  destruct compress; intros [= <-]; [|apply as_u32_range].
  unfold frame_body. repeat case_match; simpl; auto using lor_u32.
Qed.

Context (postcard_inverse : ∀ v b, postcard_to v = Some b → postcard_from b = Some v).
Context (zstd_inverse : ∀ p level c bound,
  zstd_compress p level = Some c → zlen p ≤ bound → zstd_decompress c bound = Some p).

(** A frame is read back from the bytes of the stream, and what follows it is
    left to the next read. *)
Lemma read_frame_written v compress f rest e :
  encode_frame postcard_to zstd_compress v compress = Ok f →
  read_frame postcard_from zstd_decompress (Incoming.Mk (frame_bytes f ++ rest) e) =
    (Ok v, Incoming.Mk rest e).
Proof.
  intros Hf. pose proof (encode_frame_prefix v compress f Hf) as [Hp1 Hp2].
  destruct f as [prefix body]. cbn [fst snd] in *.
  destruct (frame_roundtrip_gen _ _ _ _ postcard_inverse zstd_inverse _ _ _ _ Hf) as (c & Hh & Hd & _).
  unfold read_frame, frame_bytes. sm_unfold. cbn [fst snd]. rewrite <- app_assoc.
  rewrite read_exact_app by apply zlen_to_be_bytes.
  rewrite from_to_be_bytes by (unfold u32_max in *; simpl; lia). rewrite Hh. simpl.
  rewrite read_exact_app by done. by rewrite Hd.
Qed.
End frame_facts.

(** A file that was loaded is complete, not empty and within its limit, also
    when it changed its size between the checks. *)
Lemma read_bounded_file_complete {F} `{StateFs F, !StateFsLaws F} decimal fs_metadata f path maximum label data :
  0 ≤ maximum < u64_max →
  read_bounded_file decimal fs_metadata f path maximum label = Ok data →
  st_view f !! path = Some data ∧ 0 < zlen data ≤ maximum.
Proof.
  intros Hm. unfold read_bounded_file.
  destruct (fs_metadata f path) as [initial|]; simpl; [|done].
  destruct (negb _); [done|]. destruct (validate_declared_size _ _ _); simpl; [|done].
  destruct (open_metadata f path) as [opened|]; simpl; [|done].
  destruct (negb _); [done|]. destruct (validate_declared_size _ _ _); simpl; [|done].
  destruct (read_limited f path _) as [b|] eqn:Hr; simpl; [|done].
  destruct (validate_buffer_size _ _ _) eqn:Hv; simpl; [|done]. intros [= ->].
  apply law_read_limited in Hr as (contents & Hc & Hd).
  unfold validate_buffer_size in Hv.
  destruct (zlen data >? u64_max); [done|]. destruct (zlen data =? 0) eqn:H0; [done|].
  destruct (zlen data >? maximum) eqn:H1; [done|]. bool_simpl.
  pose proof (zlen_nonneg data). split; [|lia]. rewrite Hc. f_equal.
  unfold u64_saturating_add in Hd. rewrite Z.min_l in Hd by lia.
  subst data. rewrite take_ge; [done|]. unfold zlen in *. rewrite length_take in *. lia.
Qed.

(** With a pin, only a certificate with that fingerprint is accepted. *)
Lemma pinned_certificate sha256 fingerprint certificate :
  verify_server_cert sha256 (Some fingerprint) certificate = Ok tt ↔ sha256 certificate = fingerprint.
Proof. unfold verify_server_cert. case_bool_decide; split; congruence. Qed.
