(* ===== verification/ViewStream.v ===== *)
(** Streaming of directory views: the daemon sends a view in one frame or as a
    sequence of bounded chunks ([servers/linux/server-daemon/src/main.rs], lines
    1395-1576), the client puts it together again
    ([crates/client-core/src/lib.rs], lines 403-464). *)

From S2P Require Import Prelude Protocol Common StateFiles Transport.

(** * Client errors *)

Module ClientError.
Inductive ClientError :=
  | Transport (e : TransportError)
  | Server (code : ErrorCode) (message : list Z)
  | UnexpectedResponse
  | ReadTooLarge (limit : Z)
  | WriteTooLarge (limit : Z)
  | StaleRevision
  | Offline
  | OfflineCacheMiss
  | AmbiguousMutation.
End ClientError.
Abbreviation ClientError := ClientError.ClientError.

Definition response_error (r : Response) : ClientError :=
  match r with
  | Response.Error e => ClientError.Server (ProtocolError.code e) (ProtocolError.message e)
  | _ => ClientError.UnexpectedResponse
  end.

Section stream.
(** postcard for responses and for single entries, and zstd. *)
Context (response_to : Envelope Response → option (list Z))
  (response_from : list Z → option (Envelope Response))
  (entry_to : DirectoryViewEntry → option (list Z))
  (zstd_compress zstd_decompress : list Z → Z → option (list Z)).

(** * The server side *)

(** Computations that write frames to the stream of a request; the state is
    what has been written. *)
Definition WM : Type → Type := SM (list Frame) CodecError.

Definition write_response (id : RequestId) (message : Response) (compress : bool) : WM unit :=
  frame ← sm_lift (encode_frame response_to zstd_compress
            (Envelope.Mk PROTOCOL_VERSION id message) compress);
  sm_modify (λ frames, frames ++ [frame]).

(** An entry as it is sent and its length: one that exceeds the budget alone
    loses its inline values and then its attribute snapshot. *)
Definition clear_inline (e : DirectoryViewEntry) : DirectoryViewEntry :=
  DirectoryViewEntry.Mk (DirectoryViewEntry.entry e)
    (match DirectoryViewEntry.xattrs e with
     | Some x => Some (XattrSnapshot.Mk (XattrSnapshot.names x) [])
     | None => None
     end).
Definition without_xattrs (e : DirectoryViewEntry) : DirectoryViewEntry :=
  DirectoryViewEntry.Mk (DirectoryViewEntry.entry e) None.

Definition fit_entry (e : DirectoryViewEntry) : result CodecError (DirectoryViewEntry * Z) :=
  len ← encoded_len entry_to e;
  if len >? DIRECTORY_VIEW_CHUNK_BUDGET then
    let e := clear_inline e in
    len ← encoded_len entry_to e;
    if len >? DIRECTORY_VIEW_CHUNK_BUDGET then
      let e := without_xattrs e in
      len ← encoded_len entry_to e;
      Ok (e, len)
    else Ok (e, len)
  else Ok (e, len).

(** The loop over the entries with the chunk under construction. *)
Fixpoint chunk_loop (id : RequestId) (compress : bool) (entries chunk : list DirectoryViewEntry)
    (chunk_bytes : Z) : WM unit :=
  match entries with
  | [] =>
      if bool_decide (chunk = []) then mret tt
      else write_response id (Response.DirectoryViewChunk chunk) compress
  | e :: entries' =>
      fitted ← sm_lift (fit_entry e);
      if negb (bool_decide (chunk = [])) &&
         (chunk_bytes + fitted.2 >? DIRECTORY_VIEW_CHUNK_BUDGET) then
        _ ← write_response id (Response.DirectoryViewChunk chunk) compress;
        chunk_loop id compress entries' [fitted.1] fitted.2
      else chunk_loop id compress entries' (chunk ++ [fitted.1]) (chunk_bytes + fitted.2)
  end.

Definition stream_directory_view (id : RequestId) (view : DirectoryView) (compress : bool) : WM unit :=
  _ ← write_response id
        (Response.DirectoryViewStart (DirectoryView.revision view) (DirectoryView.directory view)
           (DirectoryView.parent view) (DirectoryView.xattrs view)
           (zlen (DirectoryView.entries view))) compress;
  _ ← chunk_loop id compress (DirectoryView.entries view) [] 0;
  write_response id Response.DirectoryViewEnd compress.

Definition write_directory_view (id : RequestId) (view : DirectoryView) (compress : bool) : WM unit :=
  match encode_frame response_to zstd_compress
          (Envelope.Mk PROTOCOL_VERSION id (Response.DirectoryView view)) compress with
  | Ok frame => sm_modify (λ frames, frames ++ [frame])
  | Err (CodecError.TooLarge _) => stream_directory_view id view compress
  | Err e => sm_err e
  end.

(** * The client side *)

(** [?] on an error of the transport. *)
Definition from_transport {S A} (m : SM S TransportError A) : SM S ClientError A := λ s,
  let '(r, s') := m s in (map_err ClientError.Transport r, s').

(** [QuicClient::receive_frame] of a response. *)
Definition receive_frame : SM Incoming ClientError (Envelope Response) :=
  from_transport (read_frame response_from zstd_decompress).

Definition expected_envelope (id : RequestId) (e : Envelope Response) : bool :=
  (version_major (Envelope.version e) =? PROTOCOL_MAJOR) &&
  bool_decide (Envelope.request_id e = id).

(** The loop that collects the chunks; every iteration reads a frame. *)
Fixpoint collect_chunks (fuel : nat) (id : RequestId) (entries : list DirectoryViewEntry)
    : SM Incoming ClientError (list DirectoryViewEntry) :=
  match fuel with
  | O => i ← sm_get; sm_err (ClientError.Transport (Incoming.ended i))
  | S fuel' =>
      frame ← receive_frame;
      if negb (expected_envelope id frame) then sm_err ClientError.UnexpectedResponse
      else match Envelope.message frame with
           | Response.DirectoryViewChunk chunk =>
               if u64_saturating_add (zlen entries) (zlen chunk) >? MAX_DIRECTORY_ENTRIES
               then sm_err ClientError.UnexpectedResponse
               else collect_chunks fuel' id (entries ++ chunk)
           | Response.DirectoryViewEnd => mret entries
           | response => sm_err (response_error response)
           end
  end.

(** The part of [list_directory_view_streamed] after the request was sent. *)
Definition receive_directory_view (id : RequestId) : SM Incoming ClientError DirectoryView :=
  first ← receive_frame;
  if negb (expected_envelope id first) then sm_err ClientError.UnexpectedResponse
  else match Envelope.message first with
       | Response.DirectoryView view => mret view
       | Response.DirectoryViewStart revision directory parent xattrs _ =>
           i ← sm_get;
           entries ← collect_chunks (S (length (Incoming.arrived i))) id [];
           mret (DirectoryView.Mk revision directory parent xattrs entries)
       | response => sm_err (response_error response)
       end.
End stream.

(** * Delivery *)

Section delivery.
Context (response_to : Envelope Response → option (list Z))
  (response_from : list Z → option (Envelope Response))
  (entry_to : DirectoryViewEntry → option (list Z))
  (zstd_compress zstd_decompress : list Z → Z → option (list Z)).

Definition entry_len (e : DirectoryViewEntry) : Z :=
  match entry_to e with Some b => zlen b | None => 0 end.

Fixpoint entries_len (l : list DirectoryViewEntry) : Z :=
  match l with [] => 0 | e :: l' => entry_len e + entries_len l' end.

(** What the stream needs of the serializer and the compressor: they are
    inverted by the receiver, the parts of a view can be serialized, and a
    chunk takes at most 16 KiB more than its entries. *)
Record view_codec (id : RequestId) : Prop := {
  vc_response : ∀ v b, response_to v = Some b → response_from b = Some v;
  vc_zstd : ∀ p level c bound, zstd_compress p level = Some c → zlen p ≤ bound →
    zstd_decompress c bound = Some p;
  vc_entry : ∀ e, is_Some (entry_to e);
  vc_view : ∀ v, is_Some (response_to (Envelope.Mk PROTOCOL_VERSION id (Response.DirectoryView v)));
  vc_chunk : ∀ l, ∃ b,
    response_to (Envelope.Mk PROTOCOL_VERSION id (Response.DirectoryViewChunk l)) = Some b ∧
    zlen b ≤ entries_len l + 16 * 1024;
  vc_end : ∃ b, response_to (Envelope.Mk PROTOCOL_VERSION id Response.DirectoryViewEnd) = Some b ∧
    zlen b ≤ MAX_FRAME_SIZE
}.

Definition fits (e : DirectoryViewEntry) : bool := entry_len e <=? DIRECTORY_VIEW_CHUNK_BUDGET.

(** What is left of an entry in a chunk: everything when it fits the chunk
    budget by itself, else everything but the inline attribute values when that
    fits, and only else no attribute snapshot. *)
Definition shed (e e' : DirectoryViewEntry) : Prop :=
  DirectoryViewEntry.entry e' = DirectoryViewEntry.entry e ∧
  DirectoryViewEntry.xattrs e' =
    match DirectoryViewEntry.xattrs e with
    | None => None
    | Some x =>
        let names_only := Some (XattrSnapshot.Mk (XattrSnapshot.names x) []) in
        if fits e then Some x
        else if fits (DirectoryViewEntry.Mk (DirectoryViewEntry.entry e) names_only) then names_only
        else None
    end.

(** An entry arrives as it was or as a chunk leaves it. *)
Definition delivered (e e' : DirectoryViewEntry) : Prop := e' = e ∨ shed e e'.

(** The view can be sent in one frame. *)
Definition one_frame_view (id : RequestId) (view : DirectoryView) : bool :=
  match response_to (Envelope.Mk PROTOCOL_VERSION id (Response.DirectoryView view)) with
  | Some b => zlen b <=? MAX_FRAME_SIZE
  | None => false
  end.

Context (id : RequestId) (HC : view_codec id).

(** The frames carry the messages, and every body is within the limit. *)
Definition carries (frame : Frame) (m : Response) : Prop :=
  zlen frame.2 ≤ MAX_FRAME_SIZE ∧
  ∀ rest e, receive_frame response_from zstd_decompress (Incoming.Mk (frame_bytes frame ++ rest) e) =
    (Ok (Envelope.Mk PROTOCOL_VERSION id m), Incoming.Mk rest e).

Lemma expected_ours m : expected_envelope id (Envelope.Mk PROTOCOL_VERSION id m) = true.
Proof. unfold expected_envelope. simpl. by rewrite bool_decide_true. Qed.

Lemma encode_carries m compress frame :
  encode_frame response_to zstd_compress (Envelope.Mk PROTOCOL_VERSION id m) compress = Ok frame →
  carries frame m.
Proof.
  intros He.
  destruct frame as [prefix body]. destruct (encode_frame_bounded_gen _ _ _ _ _ _ He) as (payload & _ & Hb).
  split; [simpl; lia|]. intros rest e. unfold receive_frame, from_transport.
  by rewrite (read_frame_written _ _ _ _ (vc_response _ HC) (vc_zstd _ HC) _ _ _ rest e He).
Qed.

Lemma encode_fits m compress b :
  response_to (Envelope.Mk PROTOCOL_VERSION id m) = Some b → zlen b ≤ MAX_FRAME_SIZE →
  ∃ frame, encode_frame response_to zstd_compress (Envelope.Mk PROTOCOL_VERSION id m) compress
             = Ok frame.
Proof.
  intros Hb Hl. unfold encode_frame, encode. rewrite Hb. simpl.
  destruct (_ >? _) eqn:E; [bool_simpl; lia|]. simpl. destruct compress; eauto.
Qed.

Lemma write_response_carries m compress b frames :
  response_to (Envelope.Mk PROTOCOL_VERSION id m) = Some b → zlen b ≤ MAX_FRAME_SIZE →
  ∃ frame, write_response response_to zstd_compress id m compress frames = (Ok tt, frames ++ [frame]) ∧
    carries frame m.
Proof.
  intros Hb Hl. destruct (encode_fits m compress b Hb Hl) as [frame Hf]. exists frame.
  unfold write_response. sm_unfold. rewrite Hf. split; [done|]. by eapply encode_carries.
Qed.

Lemma write_chunk compress l frames :
  entries_len l ≤ DIRECTORY_VIEW_CHUNK_BUDGET →
  ∃ frame, write_response response_to zstd_compress id (Response.DirectoryViewChunk l) compress frames
      = (Ok tt, frames ++ [frame]) ∧ carries frame (Response.DirectoryViewChunk l).
Proof.
  intros Hl. destruct (vc_chunk _ HC l) as (b & Hb & Hlen).
  eapply write_response_carries; [done|]. unfold DIRECTORY_VIEW_CHUNK_BUDGET in Hl. lia.
Qed.

Lemma entries_len_app l k : entries_len (l ++ k) = entries_len l + entries_len k.
Proof. induction l as [|e l IH]; simpl; lia. Qed.

Lemma entry_len_nonneg e : 0 ≤ entry_len e.
Proof. unfold entry_len. case_match; [apply zlen_nonneg|done]. Qed.

Lemma entries_len_nonneg l : 0 ≤ entries_len l.
Proof. induction l as [|e l IH]; simpl; [done|]. pose proof (entry_len_nonneg e). lia. Qed.

Lemma fit_entry_spec e :
  entry_len (without_xattrs e) ≤ DIRECTORY_VIEW_CHUNK_BUDGET →
  ∃ e', fit_entry entry_to e = Ok (e', entry_len e') ∧ shed e e' ∧
    entry_len e' ≤ DIRECTORY_VIEW_CHUNK_BUDGET.
Proof.
  intros Hbare. assert (∀ e', encoded_len entry_to e' = Ok (entry_len e')) as Hlen.
  { intros e'. unfold encoded_len, entry_len. by destruct (vc_entry _ HC e') as [b ->]. }
  unfold fit_entry. rewrite !Hlen. cbn [mbind result_bind].
  destruct (entry_len e >? _) eqn:H1; bool_simpl.
  2: { exists e. split_and!; [done| |done]. split; [done|].
       assert (fits e = true) as -> by (unfold fits; lia). by destruct (DirectoryViewEntry.xattrs e). }
  assert (fits e = false) as Hf by (unfold fits; lia).
  destruct (entry_len (clear_inline e) >? _) eqn:H2; bool_simpl.
  - change (without_xattrs (clear_inline e)) with (without_xattrs e).
    exists (without_xattrs e). split_and!; [done| |done]. split; [done|]. cbn.
    destruct e as [entry [x|]]; [|done]. cbn. rewrite Hf.
    assert (fits (clear_inline (DirectoryViewEntry.Mk entry (Some x))) = false) as Hc
      by (unfold fits; lia). unfold clear_inline in Hc. cbn in Hc. by rewrite Hc.
  - exists (clear_inline e). split_and!; [done| |done]. split; [done|].
    destruct e as [entry [x|]]; [|done]. cbn. rewrite Hf.
    assert (fits (clear_inline (DirectoryViewEntry.Mk entry (Some x))) = true) as Hc
      by (unfold fits; lia). unfold clear_inline in Hc. cbn in Hc. by rewrite Hc.
Qed.

Lemma chunk_loop_spec compress l chunk frames :
  entries_len chunk ≤ DIRECTORY_VIEW_CHUNK_BUDGET →
  Forall (λ e, entry_len (without_xattrs e) ≤ DIRECTORY_VIEW_CHUNK_BUDGET) l →
  ∃ chunks new l',
    chunk_loop response_to entry_to zstd_compress id compress l chunk (entries_len chunk) frames =
      (Ok tt, frames ++ new) ∧
    Forall2 (λ f c, carries f (Response.DirectoryViewChunk c)) new chunks ∧
    mjoin chunks = chunk ++ l' ∧ Forall2 shed l l'.
Proof.
  intros Hc Hl. revert chunk frames Hc. induction Hl as [|e l He Hl IH]; intros chunk frames Hc; simpl.
  { case_bool_decide as Hn.
    - subst. exists [], [], []. rewrite app_nil_r. by repeat constructor.
    - destruct (write_chunk compress chunk frames Hc) as (frame & -> & Hf).
      exists [chunk], [frame], []. split_and!; [done|by constructor; [|constructor]| |constructor].
      simpl. by rewrite !app_nil_r. }
  destruct (fit_entry_spec e He) as (e' & Hfit & Hdel & Hlen). sm_unfold. rewrite Hfit. simpl.
  destruct (_ && _) eqn:Hfull; bool_simpl.
  - destruct (write_chunk compress chunk frames Hc) as (frame & -> & Hf).
    destruct (IH [e'] (frames ++ [frame])) as (chunks & new & l' & Hrun & Hcar & Hjoin & Hd).
    { simpl. lia. }
    simpl in Hrun. rewrite Z.add_0_r in Hrun. rewrite Hrun.
    exists (chunk :: chunks), (frame :: new), (e' :: l'). split_and!.
    + by rewrite <- app_assoc.
    + by constructor.
    + simpl. by rewrite Hjoin.
    + by constructor.
  - assert (entries_len (chunk ++ [e']) = entries_len chunk + entry_len e') as Hsum
      by (rewrite entries_len_app; simpl; lia).
    assert (entries_len (chunk ++ [e']) ≤ DIRECTORY_VIEW_CHUNK_BUDGET) as Hle.
    { rewrite Hsum. destruct Hfull as [Hempty|Hs]; bool_simpl; [subst; simpl; lia|lia]. }
    destruct (IH (chunk ++ [e']) frames Hle) as (chunks & new & l' & Hrun & Hcar & Hjoin & Hd).
    rewrite Hsum in Hrun. rewrite Hrun. exists chunks, new, (e' :: l'). split_and!; [done|done| |].
    + by rewrite Hjoin, <- app_assoc.
    + by constructor.
Qed.

Lemma collect_chunks_spec new chunks last acc fuel rest e :
  Forall2 (λ f c, carries f (Response.DirectoryViewChunk c)) new chunks →
  carries last Response.DirectoryViewEnd → (length new < fuel)%nat →
  zlen (acc ++ mjoin chunks) ≤ MAX_DIRECTORY_ENTRIES →
  collect_chunks response_from zstd_decompress fuel id acc
      (Incoming.Mk (wire (new ++ [last]) ++ rest) e) =
    (Ok (acc ++ mjoin chunks), Incoming.Mk rest e).
Proof.
  intros Hcar Hlast. revert acc fuel. induction Hcar as [|f c new chunks [_ Hf] Hcar IH];
    intros acc fuel Hfuel Hlen; (destruct fuel; [simpl in *; lia|]).
  - destruct Hlast as [_ Hlast]. cbn [collect_chunks app]. rewrite wire_one. sm_unfold. rewrite Hlast, expected_ours. simpl. by rewrite app_nil_r.
  - cbn [collect_chunks app]. rewrite wire_cons, <- app_assoc. sm_unfold.
    rewrite Hf, expected_ours. cbn [negb Envelope.message]. simpl in Hlen.
    destruct (_ >? _) eqn:E.
    + bool_simpl. unfold u64_saturating_add in E. rewrite !zlen_app in Hlen.
      pose proof (zlen_nonneg (mjoin chunks)). lia.
    + rewrite IH; [by rewrite <- app_assoc|simpl in Hfuel; lia|by rewrite <- app_assoc].
Qed.

(** The frames of a view, and the view that they deliver. *)
Inductive view_frames (view : DirectoryView) : list Frame → list DirectoryViewEntry → Prop :=
  | one_frame f : carries f (Response.DirectoryView view) → view_frames view [f] (DirectoryView.entries view)
  | chunked first new chunks last :
      carries first (Response.DirectoryViewStart (DirectoryView.revision view) (DirectoryView.directory view)
        (DirectoryView.parent view) (DirectoryView.xattrs view) (zlen (DirectoryView.entries view))) →
      Forall2 (λ f c, carries f (Response.DirectoryViewChunk c)) new chunks →
      carries last Response.DirectoryViewEnd → zlen (mjoin chunks) ≤ MAX_DIRECTORY_ENTRIES →
      view_frames view (first :: new ++ [last]) (mjoin chunks).

Definition with_entries (view : DirectoryView) (entries : list DirectoryViewEntry) : DirectoryView :=
  DirectoryView.Mk (DirectoryView.revision view) (DirectoryView.directory view)
    (DirectoryView.parent view) (DirectoryView.xattrs view) entries.

Lemma view_frames_bounded view frames entries :
  view_frames view frames entries → Forall (λ f, zlen f.2 ≤ MAX_FRAME_SIZE) frames.
Proof.
  destruct 1 as [f [Hf _]|first new chunks last [Hf _] Hnew [Hl _] _]; [by repeat constructor|].
  constructor; [done|]. apply Forall_app. split; [|by repeat constructor].
  clear -Hnew. induction Hnew as [|f c new chunks [Hf _] _ IH]; by constructor.
Qed.

Lemma view_received view frames entries rest e :
  view_frames view frames entries →
  receive_directory_view response_from zstd_decompress id (Incoming.Mk (wire frames ++ rest) e) =
    (Ok (with_entries view entries), Incoming.Mk rest e).
Proof.
  destruct 1 as [f [_ Hf]|first new chunks last [_ Hf] Hnew Hl Hlen];
    unfold receive_directory_view.
  - rewrite wire_one. sm_unfold. rewrite Hf, expected_ours. simpl. by destruct view.
  - rewrite wire_cons, <- app_assoc. sm_unfold. rewrite Hf, expected_ours.
    cbn [negb Envelope.message Incoming.arrived].
    rewrite (collect_chunks_spec new chunks last []); [done..| |done].
    pose proof (length_wire (new ++ [last])) as Hw. rewrite length_app in *. simpl in Hw. lia.
Qed.

(** What the daemon writes for a view. *)
Lemma view_sent view compress start :
  response_to (Envelope.Mk PROTOCOL_VERSION id
    (Response.DirectoryViewStart (DirectoryView.revision view) (DirectoryView.directory view)
       (DirectoryView.parent view) (DirectoryView.xattrs view)
       (zlen (DirectoryView.entries view)))) = Some start → zlen start ≤ MAX_FRAME_SIZE →
  Forall (λ e, entry_len (without_xattrs e) ≤ DIRECTORY_VIEW_CHUNK_BUDGET) (DirectoryView.entries view) →
  zlen (DirectoryView.entries view) ≤ MAX_DIRECTORY_ENTRIES →
  ∃ frames entries,
    write_directory_view response_to entry_to zstd_compress id view compress [] = (Ok tt, frames) ∧
    view_frames view frames entries ∧
    if one_frame_view id view then entries = DirectoryView.entries view
    else Forall2 shed (DirectoryView.entries view) entries.
Proof.
  intros Hstart Hsl Hbare Hcount. unfold write_directory_view, one_frame_view.
  destruct (vc_view _ HC view) as [vb Hvb]. rewrite Hvb.
  destruct (Z.leb_spec (zlen vb) MAX_FRAME_SIZE) as [Hfit|Hbig].
  - destruct (encode_fits _ compress vb Hvb Hfit) as [frame He]. rewrite He.
    exists [frame], (DirectoryView.entries view). split_and!; [done| |done].
    constructor. by eapply encode_carries.
  - assert (∃ n, encode_frame response_to zstd_compress
        (Envelope.Mk PROTOCOL_VERSION id (Response.DirectoryView view)) compress
        = Err (CodecError.TooLarge n)) as [n ->].
    { unfold encode_frame, encode. rewrite Hvb. cbn. destruct (Z.gtb_spec (zlen vb) MAX_FRAME_SIZE);
        [cbn; eauto|lia]. }
    unfold stream_directory_view. sm_unfold.
    destruct (write_response_carries _ compress _ [] Hstart Hsl) as (f1 & -> & Hf1).
    destruct (chunk_loop_spec compress (DirectoryView.entries view) [] ([] ++ [f1]))
      as (chunks & new & l' & Hrun & Hcar & Hjoin & Hd); [done|done|].
    simpl in Hrun, Hjoin. simpl. rewrite Hrun.
    destruct (vc_end _ HC) as (b & Hb & Hlen).
    destruct (write_response_carries _ compress _ (f1 :: new) Hb Hlen) as (f2 & -> & Hf2).
    exists (f1 :: new ++ [f2]), l'. split_and!; [done| |done]. rewrite <- Hjoin.
    constructor; [done..|]. rewrite Hjoin. apply Forall2_length in Hd. unfold zlen in *. lia.
Qed.
End delivery.

(** C31: A directory view reaches the client.  For every view whose entries
    without attributes fit a chunk, the daemon sends it completely, in frames
    within the frame limit, and the client puts together a view with the same
    revision, directory, parent and attributes and with the same entries in
    the same order.  A view that fits one frame arrives unchanged.  In one that
    does not, every entry that fits the chunk budget by itself arrives
    unchanged; a larger one arrives with its metadata and the names of its
    attributes but without the inline values if that fits the budget, and only
    if that does not fit either without its attribute snapshot. *)
Theorem view_stream_delivers response_to response_from entry_to zstd_compress zstd_decompress
    id view compress start :
  view_codec response_to response_from entry_to zstd_compress zstd_decompress id →
  response_to (Envelope.Mk PROTOCOL_VERSION id
    (Response.DirectoryViewStart (DirectoryView.revision view) (DirectoryView.directory view)
       (DirectoryView.parent view) (DirectoryView.xattrs view)
       (zlen (DirectoryView.entries view)))) = Some start → zlen start ≤ MAX_FRAME_SIZE →
  Forall (λ e, entry_len entry_to (without_xattrs e) ≤ DIRECTORY_VIEW_CHUNK_BUDGET)
    (DirectoryView.entries view) →
  zlen (DirectoryView.entries view) ≤ MAX_DIRECTORY_ENTRIES →
  ∃ frames entries,
    write_directory_view response_to entry_to zstd_compress id view compress [] = (Ok tt, frames) ∧
    Forall (λ f, zlen f.2 ≤ MAX_FRAME_SIZE) frames ∧
    (∀ rest e, receive_directory_view response_from zstd_decompress id (Incoming.Mk (wire frames ++ rest) e) =
      (Ok (DirectoryView.Mk (DirectoryView.revision view) (DirectoryView.directory view)
             (DirectoryView.parent view) (DirectoryView.xattrs view) entries), Incoming.Mk rest e)) ∧
    (if one_frame_view response_to id view then entries = DirectoryView.entries view
     else Forall2 (shed entry_to) (DirectoryView.entries view) entries).
Proof.
  intros HC Hstart Hsl Hbare Hcount.
  destruct (view_sent _ _ _ _ _ _ HC view compress start) as (frames & entries & Hw & Hf & Hd); [done..|].
  exists frames, entries. split_and!; [done|by eapply view_frames_bounded| |done].
  intros rest e. by apply (view_received response_from zstd_decompress id view).
Qed.

(** * Example *)

(** A codec that sends a view as one number, in a frame that is too large, so
    that every view is streamed. *)
Module ViewExample.
Definition kind_code (k : NodeKind) : Z :=
  match k with
  | NodeKind.File => 0 | NodeKind.Directory => 1 | NodeKind.Symlink => 2 | NodeKind.NamedPipe => 3
  | NodeKind.CharacterDevice => 4 | NodeKind.BlockDevice => 5 | NodeKind.Socket => 6
  end.
Definition code_kind (z : Z) : NodeKind :=
  match z with
  | 0 => NodeKind.File | 1 => NodeKind.Directory | 2 => NodeKind.Symlink | 3 => NodeKind.NamedPipe
  | 4 => NodeKind.CharacterDevice | 5 => NodeKind.BlockDevice | _ => NodeKind.Socket
  end.

Definition MetaT : Type := Z * Z * list Z * option Z * option Z.
Definition meta_tuple (m : Metadata) : MetaT :=
  (node_uuid (Metadata.node m), kind_code (Metadata.kind m),
   [Metadata.size m; Metadata.mode m; Metadata.allocated_blocks m; Metadata.revision m;
    Metadata.accessed_unix_ms m; Metadata.modified_unix_ms m; Metadata.link_count m;
    Metadata.device_major m; Metadata.device_minor m],
   Metadata.created_unix_ms m, Metadata.backup_unix_ms m).
Definition tuple_meta (t : MetaT) : Metadata :=
  let '(n, k, l, c, b) := t in
  Metadata.Mk (MkNodeId n) (code_kind k) (nth 0 l 0) (nth 1 l 0) (nth 2 l 0) (nth 3 l 0)
    (nth 4 l 0) (nth 5 l 0) c b (nth 6 l 0) (nth 7 l 0) (nth 8 l 0).

Definition SnapT : Type := list Name * list (Name * list Z).
Definition snap_tuple (x : XattrSnapshot) : SnapT :=
  (XattrSnapshot.names x,
   map (λ i, (InlineXattr.name i, InlineXattr.value i)) (XattrSnapshot.inline_values x)).
Definition tuple_snap (t : SnapT) : XattrSnapshot :=
  XattrSnapshot.Mk t.1 (map (λ p, InlineXattr.Mk p.1 p.2) t.2).

Definition EntryT : Type := Z * Name * Z * MetaT * option SnapT.
Definition entry_tuple (e : DirectoryViewEntry) : EntryT :=
  let d := DirectoryViewEntry.entry e in
  (node_uuid (DirectoryEntry.node d), DirectoryEntry.name d, kind_code (DirectoryEntry.kind d),
   meta_tuple (DirectoryEntry.metadata d), snap_tuple <$> DirectoryViewEntry.xattrs e).
Definition tuple_entry (t : EntryT) : DirectoryViewEntry :=
  let '(n, name, k, m, x) := t in
  DirectoryViewEntry.Mk (DirectoryEntry.Mk (MkNodeId n) name (code_kind k) (tuple_meta m))
    (tuple_snap <$> x).

Definition HeadT : Type := Z * MetaT * MetaT * option SnapT.
Definition MessageT : Type := (HeadT * list EntryT) + ((HeadT * Z) + (list EntryT + unit)).

Definition message_tuple (r : Response) : option MessageT :=
  match r with
  | Response.DirectoryView v =>
      Some (inl ((DirectoryView.revision v, meta_tuple (DirectoryView.directory v),
                  meta_tuple (DirectoryView.parent v), snap_tuple <$> DirectoryView.xattrs v),
                 map entry_tuple (DirectoryView.entries v)))
  | Response.DirectoryViewStart revision directory parent xattrs n =>
      Some (inr (inl ((revision, meta_tuple directory, meta_tuple parent, snap_tuple <$> xattrs), n)))
  | Response.DirectoryViewChunk l => Some (inr (inr (inl (map entry_tuple l))))
  | Response.DirectoryViewEnd => Some (inr (inr (inr tt)))
  | _ => None
  end.
Definition tuple_message (t : MessageT) : Response :=
  match t with
  | inl ((r, d, p, x), l) =>
      Response.DirectoryView (DirectoryView.Mk r (tuple_meta d) (tuple_meta p) (tuple_snap <$> x)
        (map tuple_entry l))
  | inr (inl ((r, d, p, x), n)) =>
      Response.DirectoryViewStart r (tuple_meta d) (tuple_meta p) (tuple_snap <$> x) n
  | inr (inr (inl l)) => Response.DirectoryViewChunk (map tuple_entry l)
  | inr (inr (inr _)) => Response.DirectoryViewEnd
  end.

Definition padding : list Z := replicate (Z.to_nat MAX_FRAME_SIZE) 0.
#[local] Opaque padding.

Definition response_to (e : Envelope Response) : option (list Z) :=
  t ← message_tuple (Envelope.message e);
  Some (Z.pos (countable.encode (Envelope.version e, request_uuid (Envelope.request_id e), t)) ::
        match t with inl _ => padding | _ => [] end).
Definition response_from (b : list Z) : option (Envelope Response) :=
  match b with
  | Z.pos p :: _ =>
      t ← countable.decode (A := Z * Z * MessageT) p;
      Some (Envelope.Mk t.1.1 (MkRequestId t.1.2) (tuple_message t.2))
  | _ => None
  end.
(** An entry with an inline value exceeds the budget of a chunk. *)
Definition large : list Z := replicate (Z.to_nat DIRECTORY_VIEW_CHUNK_BUDGET) 0.
#[local] Opaque large.
Definition entry_to (e : DirectoryViewEntry) : option (list Z) :=
  Some (0 :: match DirectoryViewEntry.xattrs e with
             | Some (XattrSnapshot.Mk _ (_ :: _)) => large
             | _ => []
             end).

Lemma meta_inverse m : tuple_meta (meta_tuple m) = m.
Proof. by destruct m as [[] []]. Qed.

Lemma snap_inverse x : tuple_snap (snap_tuple x) = x.
Proof.
  destruct x as [names l]. unfold tuple_snap, snap_tuple. simpl. f_equal.
  rewrite map_map. rewrite <- (map_id l) at 2. apply map_ext. by intros [].
Qed.

Lemma snaps_inverse (x : option XattrSnapshot) : tuple_snap <$> (snap_tuple <$> x) = x.
Proof. destruct x; simpl; [by rewrite snap_inverse|done]. Qed.

Lemma entry_inverse e : tuple_entry (entry_tuple e) = e.
Proof.
  destruct e as [[[] name k m] x]. unfold tuple_entry, entry_tuple.
  cbn -[tuple_meta meta_tuple fmap]. rewrite meta_inverse, snaps_inverse. by destruct k.
Qed.

Lemma entries_inverse l : map tuple_entry (map entry_tuple l) = l.
Proof. rewrite map_map. rewrite <- (map_id l) at 2. apply map_ext. apply entry_inverse. Qed.

Lemma message_inverse r t : message_tuple r = Some t → tuple_message t = r.
Proof.
  destruct r; try done; cbn -[tuple_meta meta_tuple fmap map]; intros [= <-];
    cbn -[tuple_meta meta_tuple fmap map];
    rewrite ?meta_inverse, ?snaps_inverse, ?entries_inverse; [|done..].
  by destruct v.
Qed.

Lemma codec id : view_codec response_to response_from entry_to (λ _ _, None) (λ _ _, None) id.
Proof.
  split.
  - intros [v [i] m] b. unfold response_to. simpl. destruct (message_tuple m) as [t|] eqn:E; [|done].
    simpl. intros [= <-]. unfold response_from. rewrite decode_encode. simpl.
    by rewrite (message_inverse m t).
  - done.
  - intros e. by eexists.
  - intros v. by eexists.
  - intros l. eexists. split; [reflexivity|]. unfold zlen. simpl.
    pose proof (entries_len_nonneg entry_to l). lia.
  - eexists. split; [reflexivity|]. unfold zlen, MAX_FRAME_SIZE. simpl. lia.
Qed.

Definition meta (n : Z) : Metadata :=
  Metadata.Mk (MkNodeId n) NodeKind.File 5 420 8 1 0 0 None None 1 0 0.
(** A view of two entries; the second has one attribute, inline or not. *)
Definition view (inline : list InlineXattr) : DirectoryView :=
  DirectoryView.Mk 9 (meta 1) (meta 1) None
    [DirectoryViewEntry.Mk (DirectoryEntry.Mk (MkNodeId 2) (lit "a") NodeKind.File (meta 2)) None;
     DirectoryViewEntry.Mk (DirectoryEntry.Mk (MkNodeId 3) (lit "b") NodeKind.File (meta 3))
       (Some (XattrSnapshot.Mk [lit "n"] inline))].
Definition big_view : DirectoryView := view [InlineXattr.Mk (lit "n") [1]].
End ViewExample.
Import ViewExample.

(** The second entry is too large for a chunk: it arrives with the name of its
    attribute and without the value. *)
Lemma view_stream_delivers_witness :
  ∃ frames, write_directory_view response_to entry_to (λ _ _, None) (MkRequestId 4) big_view true [] =
      (Ok tt, frames) ∧
    receive_directory_view response_from (λ _ _, None) (MkRequestId 4)
      (Incoming.Mk (wire frames) TransportError.Read) = (Ok (view []), Incoming.Mk [] TransportError.Read).
Proof.
  destruct (view_stream_delivers response_to response_from entry_to (λ _ _, None) (λ _ _, None)
    (MkRequestId 4) big_view true _ (codec (MkRequestId 4)) eq_refl) as (frames & l & Hw & _ & Hr & Hd).
  - unfold zlen, MAX_FRAME_SIZE. simpl length. lia.
  - repeat constructor; vm_compute; discriminate.
  - vm_compute. discriminate.
  - exists frames. split; [exact Hw|]. specialize (Hr [] TransportError.Read). rewrite app_nil_r in Hr.
    rewrite Hr. f_equal. f_equal.
    assert (one_frame_view response_to (MkRequestId 4) big_view = false) as E
      by (unfold one_frame_view; cbn; vm_compute; reflexivity).
    rewrite E in Hd. assert (l = DirectoryView.entries (view [])) as ->; [|reflexivity].
    clear -Hd. unfold big_view, view in *. cbn [DirectoryView.entries] in *.
    inversion Hd as [|? [e1 x1] ? ? [He1 Hx1] Hd1]; subst.
    inversion Hd1 as [|? [e2 x2] ? ? [He2 Hx2] Hd2]; subst. inversion Hd2; subst.
    cbn in He1, Hx1, He2. cbn [DirectoryViewEntry.xattrs] in Hx2.
    vm_compute in Hx2. subst. reflexivity.
Defined.
