(* ===== verification/Trust.v ===== *)
(** The trust of the client in its server
    ([crates/client-core/src/trust.rs]): the policies by which a server is
    verified, and the database of pinned identities.

    JSON and hexadecimal text are parameters, and so is the type of socket
    addresses with its equality. *)

From S2P Require Import Prelude Protocol Common StateFiles Transport.

Definition MAX_TRUST_DATABASE_SIZE : Z := 4 * 1024 * 1024.
Definition MAX_TRUSTED_SERVERS : Z := 4096.

(** * Policies *)

Module ServerTrust.
Inductive ServerTrust :=
  | Pinned (fingerprint : list Z)
  | EnterpriseCa (authorities : list (list Z))
  | SystemRoots.
End ServerTrust.
Abbreviation ServerTrust := ServerTrust.ServerTrust.

Section connect.
Context {E Q : Type} (Address : Type).
Context (connect_endpoint : Address → list Z → ClientConfig → SM E TransportError Q)
  (root_error : list Z → option (list Z)) (platform_error : option (list Z)).

Definition trust_connect (trust : ServerTrust) (server : Address) (server_name : list Z)
    : SM E TransportError (QuicClient Q) :=
  match trust with
  | ServerTrust.Pinned fingerprint => connect_pinned Address connect_endpoint server server_name fingerprint
  | ServerTrust.EnterpriseCa authorities =>
      connect_with_ca Address connect_endpoint root_error server server_name authorities
  | ServerTrust.SystemRoots =>
      connect_with_system_roots Address connect_endpoint platform_error server server_name
  end.
End connect.

(** [ServerTrust::description]. *)
Definition description (trust : ServerTrust) : list Z :=
  match trust with
  | ServerTrust.Pinned _ => lit "the configured exact certificate pin"
  | ServerTrust.EnterpriseCa _ => lit "the configured enterprise CA bundle and server name"
  | ServerTrust.SystemRoots => lit "the operating-system trust policy and server name"
  end.

(** * The database *)

Module TrustStoreError.
Inductive TrustStoreError :=
  | Io (e : IoError)
  | Malformed (message : list Z)
  | Invalid (message : list Z)
  | NoPinnedIdentity.
End TrustStoreError.
Abbreviation TrustStoreError := TrustStoreError.TrustStoreError.

Definition invalid {A} (message : string) : result TrustStoreError A :=
  Err (TrustStoreError.Invalid (lit message)).

Section database.
Context (Address : Type) `{EqDecision Address}.

Record TrustedServer := MkTrusted {
  address : Address;
  server_name : list Z;
  certificate_sha256 : list Z
}.
Record TrustDatabase := MkDatabase { servers : list TrustedServer }.

Definition is_ascii_hexdigit (b : Z) : bool :=
  ((48 <=? b) && (b <=? 57)) || ((65 <=? b) && (b <=? 70)) || ((97 <=? b) && (b <=? 102)).

(** The loop over the records, with the set of the identities seen. *)
Fixpoint validate_records (records : list TrustedServer) (identities : list (Address * list Z))
    : result TrustStoreError unit :=
  match records with
  | [] => Ok tt
  | record :: records' =>
      if bool_decide (server_name record = []) || (zlen (server_name record) >? 253) then
        invalid "client trust database contains an invalid server name"
      else if negb (zlen (certificate_sha256 record) =? 64) ||
              negb (forallb is_ascii_hexdigit (certificate_sha256 record)) then
        invalid "client trust database contains an invalid certificate fingerprint"
      else if bool_decide ((address record, server_name record) ∈ identities) then
        invalid "client trust database contains a duplicate server identity"
      else validate_records records' ((address record, server_name record) :: identities)
  end.

Definition validate_database (database : TrustDatabase) : result TrustStoreError unit :=
  if zlen (servers database) >? MAX_TRUSTED_SERVERS then
    invalid "client trust database contains too many servers"
  else validate_records (servers database) [].

Context {F : Type} `{StateFs F}.
Context (from_json : list Z → result (list Z) TrustDatabase) (hex_decode : list Z → option (list Z)).

Definition validate_trust_store (f : F) (root path : Path) : result TrustStoreError unit :=
  root_metadata ← map_err TrustStoreError.Io (symlink_metadata f root);
  if negb (bool_decide (FileMeta.kind root_metadata = FKind.Dir)) then
    invalid "client state path is not a real directory"
  else
    file_metadata ← map_err TrustStoreError.Io (symlink_metadata f path);
    if negb (bool_decide (FileMeta.kind file_metadata = FKind.Regular)) then
      invalid "client trust database is not a regular file"
    else
      let effective_uid := geteuid f in
      if negb (FileMeta.uid root_metadata =? effective_uid) ||
         negb (FileMeta.uid file_metadata =? effective_uid) then
        invalid "private client state must be owned by the effective client user"
      else if negb (Z.land (FileMeta.mode root_metadata) 63 =? 0) then
        invalid "client state directory must not be accessible by group or other users"
      else if negb (Z.land (FileMeta.mode file_metadata) 63 =? 0) then
        invalid "client trust database must not be accessible by group or other users"
      else Ok tt.

Definition matching (a : Address) (name : list Z) (record : TrustedServer) : bool :=
  bool_decide (address record = a) && bool_decide (server_name record = name).

Definition load_trusted_server_pin (f : F) (root : Path) (a : Address) (name : list Z)
    : result TrustStoreError (list Z) :=
  let path := root ++ [lit "trusted-servers.json"] in
  _ ← validate_trust_store f root path;
  metadata ← map_err TrustStoreError.Io (open_metadata f path);
  if negb (bool_decide (FileMeta.kind metadata = FKind.Regular)) ||
     (FileMeta.len metadata >? MAX_TRUST_DATABASE_SIZE) then
    invalid "client trust database is not regular or exceeds its safety limit"
  else
    bytes ← map_err TrustStoreError.Io (read_limited f path (u64_saturating_add MAX_TRUST_DATABASE_SIZE 1));
    if zlen bytes >? MAX_TRUST_DATABASE_SIZE then
      invalid "client trust database exceeds its safety limit"
    else
      database ← map_err TrustStoreError.Malformed (from_json bytes);
      _ ← validate_database database;
      record ← ok_or (List.find (matching a name) (servers database)) TrustStoreError.NoPinnedIdentity;
      decoded ← ok_or (hex_decode (certificate_sha256 record))
                  (TrustStoreError.Invalid (lit "pinned certificate fingerprint is malformed"));
      if zlen decoded =? 32 then Ok decoded
      else invalid "pinned certificate fingerprint has the wrong length".

(** * The pin *)

Lemma validate_records_unique records identities :
  validate_records records identities = Ok tt →
  NoDup (map (λ r, (address r, server_name r)) records) ∧
  ∀ r, r ∈ records → (address r, server_name r) ∉ identities.
Proof.
  revert identities. induction records as [|r records IH]; intros identities; simpl.
  { intros _. split; [constructor|]. intros r Hr. by apply not_elem_of_nil in Hr. }
  destruct (_ || _); [done|]. destruct (_ || _); [done|]. case_bool_decide as Hd; [done|].
  intros (Hnd & Hnew)%IH. split.
  - constructor; [|done]. intros (r' & E & Hr')%list_elem_of_In%in_map_iff.
    apply list_elem_of_In in Hr'. destruct (Hnew r' Hr'). rewrite E. by left.
  - intros r' [->|Hr']%elem_of_cons; [done|]. specialize (Hnew r' Hr'). set_solver.
Qed.

Lemma NoDup_map_inj {A B} (g : A → B) l x y : NoDup (map g l) → x ∈ l → y ∈ l → g x = g y → x = y.
Proof.
  induction l as [|z l IH]; simpl; intros Hn Hx Hy E; [by apply not_elem_of_nil in Hx|].
  apply NoDup_cons in Hn as [Hz Hn].
  assert (∀ w, w ∈ l → g w ∈ map g l) as Hin.
  { intros w Hw. apply list_elem_of_In, in_map. by apply list_elem_of_In. }
  apply elem_of_cons in Hx as [->|Hx], Hy as [->|Hy]; auto.
  - destruct Hz. rewrite E. auto.
  - destruct Hz. rewrite <- E. auto.
Qed.

(** C12: A pin is trusted only when the private database names it and nothing else.
    When the pin of a server is loaded, the state directory and the file belong
    to the user and are closed to everybody else, the whole file is within its
    limit and is the database that was checked, the database has exactly one
    record for the address and the name, and the pin is the 32 bytes that this
    record spells. *)
Theorem loaded_pin_is_trusted `{!StateFsLaws F} f root a name pin :
  load_trusted_server_pin f root a name = Ok pin →
  let path := root ++ [lit "trusted-servers.json"] in
  (∀ p, p = root ∨ p = path → ∃ meta, symlink_metadata f p = Ok meta ∧
     FileMeta.uid meta = geteuid f ∧ Z.land (FileMeta.mode meta) 63 = 0) ∧
  ∃ contents database record,
    st_view f !! path = Some contents ∧ zlen contents ≤ MAX_TRUST_DATABASE_SIZE ∧
    from_json contents = Ok database ∧
    (∀ r, r ∈ servers database ∧ address r = a ∧ server_name r = name ↔ r = record) ∧
    hex_decode (certificate_sha256 record) = Some pin ∧ zlen pin = 32.
Proof.
  intros Hload path. unfold load_trusted_server_pin in Hload. cbv zeta in Hload. fold path in Hload.
  destruct (validate_trust_store f root path) as [[]|] eqn:Hst; [|done]. cbn [mbind result_bind] in Hload.
  split.
  - unfold validate_trust_store in Hst.
    destruct (symlink_metadata f root) as [m1|] eqn:E1; simpl in Hst; [|done].
    destruct (negb (bool_decide (FileMeta.kind m1 = FKind.Dir))); [done|]. destruct (symlink_metadata f path) as [m2|] eqn:E2; simpl in Hst; [|done].
    destruct (negb (bool_decide (FileMeta.kind m2 = FKind.Regular))); [done|]. destruct (_ || _) eqn:Hu; [done|].
    destruct (negb (Z.land (FileMeta.mode m1) 63 =? 0)) eqn:Hm1; [done|].
    destruct (negb (Z.land (FileMeta.mode m2) 63 =? 0)) eqn:Hm2; [done|]. bool_simpl.
    intros p [->| ->]; eauto.
  - destruct (open_metadata f path) as [meta|]; simpl in Hload; [|done]. destruct (_ || _); [done|].
    destruct (read_limited f path _) as [b|] eqn:Hr; simpl in Hload; [|done].
    destruct (zlen b >? _) eqn:Hlen; [done|]. bool_simpl.
    destruct (from_json b) as [database|] eqn:Hj; simpl in Hload; [|done].
    destruct (validate_database database) as [[]|] eqn:Hv; simpl in Hload; [|done].
    destruct (List.find _ _) as [record|] eqn:Hf; simpl in Hload; [|done].
    destruct (hex_decode _) as [d|] eqn:Hh; simpl in Hload; [|done].
    destruct (zlen d =? 32) eqn:Hd; [|done]. bool_simpl. injection Hload as ->.
    apply law_read_limited in Hr as (contents & Hc & Hb).
    assert (b = contents) as <-.
    { subst b. unfold u64_saturating_add, MAX_TRUST_DATABASE_SIZE, u64_max in *.
      apply take_ge. unfold zlen in Hlen. rewrite length_take in Hlen. lia. }
    apply List.find_some in Hf as [Hin Hm]. unfold matching in Hm. bool_simpl.
    apply list_elem_of_In in Hin.
    exists b, database, record. split_and!; [done|done|done| |done|done].
    intros r. split; [|intros ->; by split_and!].
    intros (Hr & Ha & Hn). unfold validate_database in Hv. destruct (_ >? _); [done|].
    apply validate_records_unique in Hv as [Hnd _].
    eapply NoDup_map_inj; [exact Hnd|done|done|]. simpl. congruence.
Qed.
End database.

(** * Example *)

Module TrustExample.
Definition root : Path := [lit "state"].
Definition path : Path := root ++ [lit "trusted-servers.json"].
Definition record (a : Z) (byte : Z) : TrustedServer Z := MkTrusted Z a (lit "server") (replicate 64 byte).

(** The text "1" stands for a database with two servers. *)
Definition from_json (b : list Z) : result (list Z) (TrustDatabase Z) :=
  if bool_decide (b = lit "1") then Ok (MkDatabase Z [record 1 48; record 2 49]) else Err (lit "malformed").
Definition hex_decode (b : list Z) : option (list Z) := Some (map (λ z, z - 48) (take 32 b)).
Definition files : MemState.Mem := MemState.Mk {[path := lit "1"]} {[root]}.
End TrustExample.
Import TrustExample.

Lemma loaded_pin_is_trusted_witness :
  load_trusted_server_pin Z from_json hex_decode files TrustExample.root 2 (lit "server") = Ok (replicate 32 1) ∧
  ∃ database record, from_json (lit "1") = Ok database ∧ record ∈ servers Z database ∧ address Z record = 2.
Proof.
  assert (load_trusted_server_pin Z from_json hex_decode files TrustExample.root 2 (lit "server") =
    Ok (replicate 32 1)) as E by (vm_compute; reflexivity).
  split; [exact E|].
  destruct (loaded_pin_is_trusted Z from_json hex_decode files TrustExample.root 2 (lit "server") _ E)
    as (_ & contents & database & record & Hc & _ & Hj & Hu & _).
  exists database, record. vm_compute in Hc. injection Hc as <-. split; [exact Hj|].
  destruct (proj2 (Hu record) eq_refl) as (? & ? & ?). split; assumption.
Defined.
