(* ===== verification/Daemon.v ===== *)
(** The request handler of the daemon
    ([servers/linux/server-daemon/src/main.rs], lines 660-678 and 724-1465):
    the version check, the authentication gate, pairing and authentication, the
    mapping of every request to an operation of the session, the byte budgets of
    reads and writes, and the framing of the answer; and the validation of the
    configuration (lines 582-659).

    A request runs here without interleaving with other requests of the same
    connection.  Permits taken by a request are back when it ends, so that they
    appear as guards on the capacity that other requests leave.  A task that
    panics is modelled only for the verification of a password, which has no
    effect on the state. *)

From S2P Require Import Prelude Protocol Common StateFiles Auth RateLimiter Transport ViewStream Locks Registry XattrNames FileIO Attributes HostDirs Forks Session ExportState.

Module ConnectionAuth.
Record ConnectionAuth := Mk { authenticated : bool; failed_attempts : Z }.
Definition default : ConnectionAuth := Mk false 0.
End ConnectionAuth.
Abbreviation ConnectionAuth := ConnectionAuth.ConnectionAuth.

(** [u8::saturating_add(1)] on the failed attempts. *)
Definition add_failure (a : ConnectionAuth) : ConnectionAuth :=
  ConnectionAuth.Mk (ConnectionAuth.authenticated a)
    (Z.min (ConnectionAuth.failed_attempts a + 1) u8_max).

(** The mutable part of [RequestContext]; [auth_root] is the state directory. *)
Record RequestContext (H F : Type) := MkContext {
  export : Session H;
  auth_root : F;
  auth_state : ConnectionAuth;
  auth_limiter : AuthRateLimiter;
  auth_permits : Z;
  read_permits : Z;
  write_permits : Z;
  connection_write_permits : Z
}.
Arguments MkContext {H F} _ _ _ _ _ _ _ _.
Arguments export {H F} _.
Arguments auth_root {H F} _.
Arguments auth_state {H F} _.
Arguments auth_limiter {H F} _.
Arguments auth_permits {H F} _.
Arguments read_permits {H F} _.
Arguments write_permits {H F} _.
Arguments connection_write_permits {H F} _.

(** Why a request ends without an answer: a frame could not be encoded, the
    body of a write did not arrive, or it waits until the request timeout. *)
Module HandleError.
Inductive HandleError := Codec (e : CodecError) | Body | TimedOut.
End HandleError.
Abbreviation HandleError := HandleError.HandleError.

(** What a request draws from its environment: the clocks, the text of the UUIDs
    of temporary files, the temporary name of an exchange, and whether the
    verification task ends normally. *)
Module Draws.
Record Draws := Mk {
  now : Z;
  now_seconds : result AuthError Z;
  temporary : list Z;
  exchange_name : Name;
  task_ok : bool
}.
End Draws.
Abbreviation Draws := Draws.Draws.

(** The answer to a request: a response, perhaps with raw data after it, or a
    directory view, which may take several frames. *)
Inductive Answer :=
  | Reply (response : Response) (raw : option (list Z))
  | StreamView (view : DirectoryView).

Definition error_reply (code : ErrorCode) (message : string) : Response :=
  Response.Error (ProtocolError.Mk code (lit message)).
Definition authentication_error (message : string) : Response :=
  error_reply ErrorCode.Unauthenticated message.
Definition internal_error : Response := error_reply ErrorCode.Internal "internal server error".

(** Requests that need no authentication. *)
Definition allowed_before_authentication (r : Request) : bool :=
  match r with
  | Request.Hello _ | Request.Pair _ _ _ | Request.Authenticate _ _ | Request.Ping _ => true
  | _ => false
  end.

Section handler.
Context {H : Type} `{HF : HostFiles H} `{HD : HostDirs H}.
Context {F : Type} `{SF : StateFs F} `{AR : Argon2} `{B64 : Base64Url}.
(** The parameters of the session operations. *)
Context (sha256 : list Z → list Z) (b64_encode : list Z → list Z)
  (b64_decode : list Z → option (list Z)) (major minor : Z → Z)
  (stable_node_id : FileIdentity → NodeId)
  (hash_order : gset NodeId → list NodeId) (fresh_handle : gset FileHandle → FileHandle).
Context (cfg : ExportConfig).
(** The parameters of authentication and of the export record. *)
Context (users_from_json : list Z → result (list Z) UserDatabase)
  (pairing_from_json : list Z → result (list Z) PairingRecord)
  (hmac_sha256 : list Z → list Z → option (list Z)) (uuid_bytes uuid_text : Z → list Z)
  (hex_encode : list Z → list Z) (record_to_json : PersistentExportRecord → option (list Z))
  (node_key : list Z) (persistence : option PersistentExportState)
  (root : Path) (fingerprint : list Z) (peer_ip : IpAddr).
(** The codecs of the frames. *)
Context (response_to : Envelope Response → option (list Z))
  (entry_to : DirectoryViewEntry → option (list Z))
  (zstd_compress : list Z → Z → option (list Z)).
(** [format!("{}", nodes.len())] *)
Context (decimal : Z → list Z).

Abbreviation Context_ := (RequestContext H F).
Definition DM : Type → Type := SM Context_ HandleError.

Definition set_export (s : Session H) (c : Context_) : Context_ :=
  MkContext s (auth_root c) (auth_state c) (auth_limiter c) (auth_permits c) (read_permits c)
    (write_permits c) (connection_write_permits c).
Definition set_root (f : F) (c : Context_) : Context_ :=
  MkContext (export c) f (auth_state c) (auth_limiter c) (auth_permits c) (read_permits c)
    (write_permits c) (connection_write_permits c).
Definition set_auth (a : ConnectionAuth) (c : Context_) : Context_ :=
  MkContext (export c) (auth_root c) a (auth_limiter c) (auth_permits c) (read_permits c)
    (write_permits c) (connection_write_permits c).
Definition set_limiter (l : AuthRateLimiter) (c : Context_) : Context_ :=
  MkContext (export c) (auth_root c) (auth_state c) l (auth_permits c) (read_permits c)
    (write_permits c) (connection_write_permits c).

(** An operation of the session, of the state directory, or of both. *)
Definition on_export {A} (m : SS (H:=H) A) : DM (result ServerError A) := λ c,
  let '(r, s) := m (export c) in (Ok r, set_export s c).
Definition on_state {A} (m : AM (F:=F) A) : DM (result AuthError A) := λ c,
  let '(r, f) := m (auth_root c) in (Ok r, set_root f c).
Definition on_both {A} (m : SM (Session H * F) ServerError A) : DM (result ServerError A) := λ c,
  let '(r, sf) := m (export c, auth_root c) in (Ok r, set_root sf.2 (set_export sf.1 c)).

Definition reply (r : Response) : DM Answer := mret (Reply r None).

(** [.map(f).unwrap_or_else(|error| Response::Error(error.protocol()))]. *)
Definition answer {A} (m : SS (H:=H) A) (f : A → Response) : DM Answer :=
  r ← on_export m;
  reply (match r with Ok a => f a | Err e => Response.Error (server_error_protocol e) end).

(** ** Pairing and authentication *)

Definition handle_pair (d : Draws) (pairing_id : Z) (client_nonce : list Z)
    (client_proof : SecretProof) : DM Answer :=
  loaded ← on_state (load_pairing pairing_from_json uuid_text (Draws.now_seconds d) root pairing_id);
  match loaded with
  | Ok secret =>
      if verify_client_proof hmac_sha256 uuid_bytes secret pairing_id fingerprint client_nonce
           (proof_bytes client_proof) then
        match server_proof hmac_sha256 uuid_bytes secret pairing_id fingerprint client_nonce with
        | Ok proof =>
            consumed ← on_state (consume_pairing uuid_text root pairing_id);
            match consumed with
            | Ok _ => reply (Response.PairingProof fingerprint (MkSecretProof proof))
            | Err _ => reply (authentication_error "pairing session is unavailable")
            end
        | Err _ => reply internal_error
        end
      else reply (authentication_error "pairing code was not accepted")
  | Err _ => reply (authentication_error "pairing session is unavailable")
  end.

Definition handle_authenticate (d : Draws) (username : list Z) (password : SecretString) : DM Answer :=
  c ← sm_get;
  let state := auth_state c in
  let password := secret_bytes password in
  if ConnectionAuth.authenticated state then
    reply (error_reply ErrorCode.InvalidRequest "connection is already authenticated")
  else if 5 <=? ConnectionAuth.failed_attempts state then
    reply (authentication_error "too many failed authentication attempts; reconnect to try again")
  else if negb (is_ok (validate_username username)) || bool_decide (password = []) ||
          (zlen password >? MAX_PASSWORD_LENGTH) then
    _ ← sm_modify (set_auth (add_failure state));
    reply (authentication_error "invalid username or password")
  else
    let '(granted, limiter) := allow (Draws.now d) peer_ip (auth_limiter c) in
    _ ← sm_modify (set_limiter limiter);
    if negb granted then
      reply (authentication_error "authentication rate limit exceeded; retry later")
    else if auth_permits c <=? 0 then
      reply (error_reply ErrorCode.Timeout "authentication capacity is busy; retry later")
    else if negb (Draws.task_ok d) then reply internal_error
    else
      verified ← on_state (verify_user_authorization users_from_json root username password);
      match verified with
      | Ok (Some authorization) =>
          _ ← on_export (set_write_authorized (UserAuthorization.writable authorization));
          _ ← sm_modify (λ c, set_auth (ConnectionAuth.Mk true
                 (ConnectionAuth.failed_attempts (auth_state c))) c);
          reply Response.AuthenticateAck
      | Ok None =>
          _ ← sm_modify (λ c, set_auth (add_failure (auth_state c)) c);
          reply (authentication_error "invalid username or password")
      | Err _ => reply internal_error
      end.

(** ** Reads and writes *)

(** A read of at most [length] bytes within the limits; [too_long] and
    [too_wide] are the two messages of the range checks. *)
Definition bounded_read {A} (offset length : Z) (too_long too_wide : string) (m : SS (H:=H) A)
    (f : A → Response * list Z) : DM Answer :=
  if (Limits.max_read_size (limits cfg) <? length) ||
     bool_decide (u64_checked_add offset length = None) then
    reply (error_reply ErrorCode.TooLarge too_long)
  else if length >? u32_max then reply (error_reply ErrorCode.TooLarge too_wide)
  else
    c ← sm_get;
    if read_permits c <? length then sm_err HandleError.TimedOut
    else
      r ← on_export m;
      match r with
      | Ok a => mret (Reply (f a).1 (Some (f a).2))
      | Err e => reply (Response.Error (server_error_protocol e))
      end.

(** A write of [length] bytes of [body] within the limits; [in_range] is the
    check of the offset, where there is one. *)
Definition bounded_write {A} (in_range : bool) (length : Z) (body : list Z) (too_long too_wide : string)
    (m : list Z → SS (H:=H) A) (f : A → Response) : DM Answer :=
  c ← sm_get;
  if negb (can_write cfg (export c)) then
    reply (error_reply ErrorCode.ReadOnly "the export is read-only")
  else if (Limits.max_write_size (limits cfg) <? length) || negb in_range then
    reply (error_reply ErrorCode.TooLarge too_long)
  else if length >? u32_max then reply (error_reply ErrorCode.TooLarge too_wide)
  else if write_permits c <? length then
    reply (error_reply ErrorCode.Busy "server write capacity is busy; retry later")
  else if connection_write_permits c <? length then
    reply (error_reply ErrorCode.Busy "connection write capacity is busy; retry later")
  else if zlen body <? length then sm_err HandleError.Body
  else answer (m (take (Z.to_nat length) body)) f.

(** ** The dispatcher *)

Fixpoint metadata_batch (nodes : list NodeId) : DM (list BatchedMetadata) :=
  match nodes with
  | [] => mret []
  | node :: nodes' =>
      r ← on_export (metadata sha256 major minor stable_node_id hash_order cfg node);
      rest ← metadata_batch nodes';
      mret (match r with
            | Ok m => BatchedMetadata.Found m
            | Err e => BatchedMetadata.Failed (ProtocolError.code (server_error_protocol e))
            end :: rest)
  end.

Definition directory_listing_response (id : RequestId) (revision : DirectoryRevision)
    (entries : list DirectoryEntry) : Response :=
  let message := Response.DirectoryListing revision entries in
  if is_ok (encode response_to (Envelope.Mk PROTOCOL_VERSION id message)) then message
  else error_reply ErrorCode.TooLarge "directory listing exceeds the control-frame limit".

(** The arms of the [match] of [handle] from [ListDirectory] to [SetAttributes]. *)
Definition node_request (id : RequestId) (message : Request) : option (DM Answer) :=
  match message with
  | Request.ListDirectory node => Some (
      answer (list_with_revision sha256 b64_encode b64_decode major minor stable_node_id hash_order
                cfg node) (λ r, directory_listing_response id r.1 r.2))
  | Request.ListDirectoryView node options => Some (
      r ← on_export (directory_view sha256 b64_encode b64_decode major minor stable_node_id
                       hash_order cfg node options);
      match r with
      | Ok view => mret (StreamView view)
      | Err e => reply (Response.Error (server_error_protocol e))
      end)
  | Request.OpenFile node options => Some (
      answer (open sha256 stable_node_id hash_order fresh_handle cfg node options)
        (λ r, Response.FileOpened r.1.1 r.1.2 r.2))
  | Request.CreateFile parent name mode options => Some (
      answer (create_file sha256 major minor stable_node_id hash_order fresh_handle cfg parent name
                mode options) (λ r, Response.FileCreated r.1.1.1 r.1.1.2 r.1.2 r.2))
  | Request.CreateDirectory parent name mode => Some (
      answer (create_directory sha256 major minor stable_node_id hash_order cfg parent name mode)
        Response.NodeCreated)
  | Request.CreateSymlink parent name target => Some (
      answer (create_symlink sha256 major minor stable_node_id hash_order cfg parent name target)
        Response.NodeCreated)
  | Request.RemoveNode parent name directory => Some (
      answer (remove_node stable_node_id hash_order cfg parent name directory)
        (λ _, Response.NodeRemoved))
  | Request.RenameNode parent name new_parent new_name mode => Some (
      answer (rename_node stable_node_id hash_order cfg parent name new_parent new_name mode)
        (λ _, Response.NodeRenamed))
  | Request.CreateHardLink node new_parent new_name => Some (
      answer (create_hard_link sha256 major minor stable_node_id hash_order cfg node new_parent
                new_name) Response.HardLinkCreated)
  | Request.CreateSpecialNode parent name kind mode device_major device_minor => Some (
      answer (create_special_node sha256 major minor stable_node_id hash_order cfg parent name kind
                mode device_major device_minor) Response.NodeCreated)
  | Request.ReadLink node => Some (answer (read_link stable_node_id hash_order cfg node) Response.LinkTarget)
  | Request.SetAttributes node handle changes => Some (
      answer (set_attributes sha256 major minor stable_node_id hash_order cfg node handle changes)
        Response.AttributesChanged)
  | _ => None
  end.

(** The arms from [FlushFile] to [CloseFile] but for the attribute values. *)
Definition file_request (d : Draws) (message : Request) : option (DM Answer) :=
  match message with
  | Request.FlushFile handle lock_owner => Some (
      answer (flush cfg handle lock_owner) (λ _, Response.FileFlushed))
  | Request.SyncFile handle data_only => Some (answer (sync handle data_only) (λ _, Response.FileSynced))
  | Request.SyncDirectory node => Some (
      answer (sync_directory stable_node_id hash_order cfg node) (λ _, Response.DirectorySynced))
  | Request.AllocateFile handle offset length => Some (
      answer (allocate sha256 cfg handle offset length) (λ r, Response.FileAllocated r.1 r.2))
  | Request.ListXattrs node => Some (
      answer (list_xattrs b64_decode stable_node_id hash_order cfg node) Response.XattrNames)
  | Request.RemoveXattr node name => Some (
      answer (remove_xattr b64_encode stable_node_id hash_order cfg node name)
        (λ _, Response.XattrRemoved))
  | Request.CopyFileRange input input_offset output output_offset length => Some (
      answer (copy_file_range sha256 cfg input input_offset output output_offset length)
        (λ r, Response.RangeCopied r.1.1 r.1.2 r.2))
  | Request.SeekFile handle offset whence => Some (
      answer (seek_file handle offset whence) Response.FileSeeked)
  | Request.SafeIoctl handle operation => Some (answer (safe_ioctl handle operation) Response.IoctlResult)
  | Request.MapBlock node block_size block => Some (
      answer (map_block stable_node_id hash_order cfg node block_size block) Response.BlockMapped)
  | Request.ExchangeData parent name new_parent new_name options => Some (
      answer (exchange_data sha256 b64_encode b64_decode major minor stable_node_id hash_order cfg
                (Draws.exchange_name d) parent name new_parent new_name options)
        (λ _, Response.DataExchanged))
  | Request.SetVolumeName name => Some (
      r ← on_both (set_volume_name hex_encode record_to_json cfg node_key persistence
                     (Draws.temporary d) name);
      reply (match r with
             | Ok _ => Response.VolumeNameSet
             | Err e => Response.Error (server_error_protocol e)
             end))
  | Request.ForgetNodes nodes => Some (
      answer (reg (forget_nodes hash_order nodes)) (λ _, Response.NodesForgotten))
  | Request.GetLock handle lock => Some (answer (get_lock cfg handle lock) Response.LockStatus)
  | Request.SetLock handle lock wait => Some (
      r ← on_export (set_lock cfg handle lock wait);
      match r with
      | Ok true => reply Response.LockUpdated
      | Ok false => sm_err HandleError.TimedOut
      | Err e => reply (Response.Error (server_error_protocol e))
      end)
  | Request.CloseFile handle => Some (answer (close cfg handle) (λ _, Response.FileClosed))
  | _ => None
  end.

(** The [match] of [handle]; [body] are the bytes after the request frame.  The
    last case is not reached: the two functions have all the other arms. *)
Definition dispatch (d : Draws) (id : RequestId) (message : Request) (body : list Z) : DM Answer :=
  match message with
  | Request.Hello _ => reply (Response.HelloAck PROTOCOL_VERSION)
  | Request.Pair pairing_id client_nonce client_proof =>
      handle_pair d pairing_id client_nonce client_proof
  | Request.Authenticate username password => handle_authenticate d username password
  | Request.GetCapabilities =>
      c ← sm_get; reply (Response.Capabilities (capabilities cfg (export c)))
  | Request.StatFilesystem => answer (stat_filesystem cfg) Response.FilesystemStats
  | Request.GetMetadata node =>
      answer (metadata sha256 major minor stable_node_id hash_order cfg node) Response.Metadata
  | Request.GetMetadataBatch nodes =>
      if zlen nodes >? MAX_METADATA_BATCH then
        reply (Response.Error (ProtocolError.Mk ErrorCode.TooLarge
          (lit "metadata batch of " ++ decimal (zlen nodes) ++ lit " exceeds the 4096 limit")))
      else
        results ← metadata_batch nodes;
        reply (Response.MetadataBatch results)
  | Request.ReadRange handle offset length =>
      bounded_read offset length "read range exceeds the configured limit"
        "read length exceeds the supported range" (read sha256 cfg handle offset length)
        (λ r, (Response.ReadData r.1 (zlen r.2), r.2))
  | Request.WriteRange handle offset length =>
      bounded_write (bool_decide (u64_checked_add offset length ≠ None)) length body
        "write range exceeds the configured limit" "write length exceeds the supported range"
        (write_owned sha256 cfg handle offset) (λ r, Response.WriteComplete r.1.1 r.1.2 r.2)
  | Request.GetXattr node name offset length =>
      bounded_read offset length "xattr read exceeds the configured limit"
        "xattr read exceeds the supported range"
        (get_xattr b64_encode stable_node_id hash_order cfg node name offset length)
        (λ r, (Response.XattrData (zlen r.2) r.1, r.2))
  | Request.SetXattr node name mode position length =>
      bounded_write true length body "xattr write exceeds the configured limit"
        "xattr write exceeds the supported range"
        (λ data, set_xattr b64_encode stable_node_id hash_order cfg node name data mode position)
        (λ _, Response.XattrSet)
  | Request.Ping nonce => reply (Response.Pong nonce)
  | message =>
      match node_request id message, file_request d message with
      | Some answered, _ | None, Some answered => answered
      | None, None => reply internal_error
      end
  end.

(** Send an answer: the frames and the raw data written to the stream. *)
Definition send_answer (id : RequestId) (compress : bool) (a : Answer)
    : DM (list Frame * list Z) := λ c,
  match a with
  | Reply response raw =>
      match write_response response_to zstd_compress id response compress [] with
      | (Ok _, frames) => (Ok (frames, default [] raw), c)
      | (Err e, _) => (Err (HandleError.Codec e), c)
      end
  | StreamView view =>
      match write_directory_view response_to entry_to zstd_compress id view compress [] with
      | (Ok _, frames) => (Ok (frames, []), c)
      | (Err e, _) => (Err (HandleError.Codec e), c)
      end
  end.

Definition handle (d : Draws) (request : Envelope Request) (body : list Z)
    : DM (list Frame * list Z) :=
  let id := Envelope.request_id request in
  let peer_version := Envelope.version request in
  if negb (version_major peer_version =? PROTOCOL_MAJOR) then
    send_answer id false (Reply (error_reply ErrorCode.UnsupportedVersion
      "unsupported protocol major version") None)
  else
    let compress := peer_supports_frame_compression peer_version in
    c ← sm_get;
    if negb (allowed_before_authentication (Envelope.message request) ||
             ConnectionAuth.authenticated (auth_state c)) then
      send_answer id compress (Reply (error_reply ErrorCode.Unauthenticated "authenticate first") None)
    else
      a ← dispatch d id (Envelope.message request) body;
      send_answer id compress a.

(** ** Connections *)

(** A request as it arrives, with what it draws. *)
Definition Input : Type := Envelope Request * list Z * Draws.

(** The state of a connection after a sequence of requests. *)
Definition run_requests (inputs : list Input) (c : Context_) : Context_ :=
  fold_left (λ c i, (handle i.2 i.1.1 i.1.2 c).2) inputs c.
End handler.

(** * Configuration *)

(** The numbers of [Serve]. *)
Module Serve.
Record Serve := Mk {
  allow_writes : bool;
  max_read_size : Z;
  max_write_size : Z;
  max_open_handles : Z;
  max_known_nodes_per_connection : Z;
  max_total_known_nodes : Z;
  max_directory_entry_tasks : Z;
  request_timeout_ms : Z;
  max_concurrent_requests : Z;
  max_concurrent_connections : Z;
  max_concurrent_auth : Z;
  max_in_flight_read_bytes : Z;
  max_in_flight_write_bytes : Z;
  max_in_flight_write_bytes_per_connection : Z;
  auth_attempts_per_minute : Z
}.
End Serve.
Abbreviation Serve := Serve.Serve.

(** [max_permits] is [Semaphore::MAX_PERMITS]. *)
Definition validate_configuration (max_permits : Z) (c : Serve) : result (list Z) unit :=
  if Serve.max_read_size c =? 0 then Err (lit "maximum read size must be greater than zero")
  else if Serve.max_write_size c =? 0 then
    Err (lit "maximum write size must be greater than zero")
  else if Serve.max_open_handles c =? 0 then
    Err (lit "maximum open handles must be greater than zero")
  else if Serve.max_known_nodes_per_connection c =? 0 then
    Err (lit "maximum known nodes per connection must be greater than zero")
  else if (Serve.max_total_known_nodes c =? 0) ||
          (u64_saturating_sub (Serve.max_known_nodes_per_connection c) 1 >?
             Serve.max_total_known_nodes c) then
    Err (lit "total known-node capacity must cover at least one connection")
  else if Serve.request_timeout_ms c =? 0 then
    Err (lit "request timeout must be greater than zero milliseconds")
  else if Serve.max_directory_entry_tasks c =? 0 then
    Err (lit "maximum directory entry tasks must be greater than zero")
  else if Serve.max_concurrent_requests c =? 0 then
    Err (lit "maximum concurrent requests must be greater than zero")
  else if Serve.max_in_flight_read_bytes c =? 0 then
    Err (lit "maximum in-flight read bytes must be greater than zero")
  else if (Serve.max_in_flight_write_bytes c =? 0) ||
          (Serve.max_in_flight_write_bytes_per_connection c =? 0) then
    Err (lit "global and per-connection in-flight write-byte budgets must be greater than zero")
  else if (Serve.max_read_size c >? u32_max) ||
          (Serve.max_read_size c >? Serve.max_in_flight_read_bytes c) then
    Err (lit "maximum read size must fit within the configured in-flight read-byte budget and u32")
  else if (Serve.max_write_size c >? u32_max) ||
          (Serve.max_write_size c >? Serve.max_in_flight_write_bytes c) ||
          (Serve.max_write_size c >? Serve.max_in_flight_write_bytes_per_connection c) then
    Err (lit "maximum write size must fit within both in-flight write-byte budgets and u32")
  else if Serve.max_in_flight_write_bytes_per_connection c >? Serve.max_in_flight_write_bytes c then
    Err (lit "per-connection write-byte budget must not exceed the global write-byte budget")
  else if existsb (λ n, n >? max_permits)
            [Serve.max_open_handles c; Serve.max_known_nodes_per_connection c;
             Serve.max_total_known_nodes c; Serve.max_directory_entry_tasks c;
             Serve.max_concurrent_requests c; Serve.max_concurrent_connections c;
             Serve.max_concurrent_auth c; Serve.max_in_flight_read_bytes c;
             Serve.max_in_flight_write_bytes c; Serve.max_in_flight_write_bytes_per_connection c] then
    Err (lit "configured concurrency exceeds the runtime semaphore limit")
  else if Serve.max_concurrent_connections c =? 0 then
    Err (lit "maximum concurrent connections must be greater than zero")
  else if Serve.max_concurrent_auth c =? 0 then
    Err (lit "maximum concurrent authentication tasks must be greater than zero")
  else if Serve.auth_attempts_per_minute c =? 0 then
    Err (lit "authentication attempts per minute must be greater than zero")
  else if Serve.auth_attempts_per_minute c >? 1000 then
    Err (lit "authentication attempts per minute must not exceed 1000")
  else Ok tt.

(** The [Limits] that [serve_until] gives to the export. *)
Definition serve_limits (c : Serve) : Limits :=
  Limits.Mk (Serve.max_read_size c) (Serve.max_write_size c) (Serve.max_open_handles c)
    (Serve.max_known_nodes_per_connection c) (Serve.max_total_known_nodes c)
    (Serve.max_directory_entry_tasks c) (Serve.request_timeout_ms c).

(** The context of a new connection while no other request is running. *)
Definition connection_context {H F} (c : Serve) (s : Session H) (f : F) : RequestContext H F :=
  MkContext s f ConnectionAuth.default (limiter_new (Serve.auth_attempts_per_minute c))
    (Serve.max_concurrent_auth c) (Serve.max_in_flight_read_bytes c)
    (Serve.max_in_flight_write_bytes c) (Serve.max_in_flight_write_bytes_per_connection c).
