(* ===== verification/DaemonFacts.v ===== *)
(** Theorems on the request handler: before authentication nothing of the
    export is reachable, write access comes from a verified account only, and a
    connection without it leaves the exported tree alone. *)

From S2P Require Import Prelude Protocol Common StateFiles Auth AuthFacts RateLimiter Transport ViewStream Locks Registry XattrNames FileIO Attributes HostDirs Forks Session RegistryPaths HostFacts SessionFacts SessionSafety ExportState Daemon.

(** The requests that set a connection up. *)
Inductive setup_request : Request → Prop :=
  | setup_hello h : setup_request (Request.Hello h)
  | setup_pair id nonce proof : setup_request (Request.Pair id nonce proof)
  | setup_authenticate u p : setup_request (Request.Authenticate u p)
  | setup_ping n : setup_request (Request.Ping n).

(** What is sent for a request that is refused before authentication: one
    response with an error, and no data. *)
Definition refusal (response_to : Envelope Response → option (list Z))
    (zstd_compress : list Z → Z → option (list Z)) (request : Envelope Request)
    : result HandleError (list Frame * list Z) :=
  let sent := if version_major (Envelope.version request) =? PROTOCOL_MAJOR
    then write_response response_to zstd_compress (Envelope.request_id request)
           (Response.Error (ProtocolError.Mk ErrorCode.Unauthenticated (lit "authenticate first")))
           (peer_supports_frame_compression (Envelope.version request)) []
    else write_response response_to zstd_compress (Envelope.request_id request)
           (Response.Error (ProtocolError.Mk ErrorCode.UnsupportedVersion
              (lit "unsupported protocol major version"))) false [] in
  match sent with
  | (Ok _, frames) => Ok (frames, [])
  | (Err e, _) => Err (HandleError.Codec e)
  end.

Section facts.
Context {H : Type} `{HF : HostFiles H} `{HD : HostDirs H}.
Context {F : Type} `{SF : StateFs F} `{AR : Argon2} `{B64 : Base64Url}.
Context (sha256 : list Z → list Z) (b64_encode : list Z → list Z)
  (b64_decode : list Z → option (list Z)) (major minor : Z → Z)
  (stable_node_id : FileIdentity → NodeId)
  (hash_order : gset NodeId → list NodeId) (fresh_handle : gset FileHandle → FileHandle).
Context (cfg : ExportConfig).
Context (users_from_json : list Z → result (list Z) UserDatabase)
  (pairing_from_json : list Z → result (list Z) PairingRecord)
  (hmac_sha256 : list Z → list Z → option (list Z)) (uuid_bytes uuid_text : Z → list Z)
  (hex_encode : list Z → list Z) (record_to_json : PersistentExportRecord → option (list Z))
  (node_key : list Z) (persistence : option PersistentExportState)
  (root : Path) (fingerprint : list Z) (peer_ip : IpAddr).
Context (response_to : Envelope Response → option (list Z))
  (entry_to : DirectoryViewEntry → option (list Z))
  (zstd_compress : list Z → Z → option (list Z)) (decimal : Z → list Z).

Abbreviation dispatch := (dispatch sha256 b64_encode b64_decode major minor stable_node_id hash_order
  fresh_handle cfg users_from_json pairing_from_json hmac_sha256 uuid_bytes uuid_text hex_encode
  record_to_json node_key persistence root fingerprint peer_ip response_to decimal).
Abbreviation handle := (handle sha256 b64_encode b64_decode major minor stable_node_id hash_order
  fresh_handle cfg users_from_json pairing_from_json hmac_sha256 uuid_bytes uuid_text hex_encode
  record_to_json node_key persistence root fingerprint peer_ip response_to entry_to zstd_compress
  decimal).
Abbreviation run_requests := (run_requests sha256 b64_encode b64_decode major minor stable_node_id
  hash_order fresh_handle cfg users_from_json pairing_from_json hmac_sha256 uuid_bytes uuid_text
  hex_encode record_to_json node_key persistence root fingerprint peer_ip response_to entry_to
  zstd_compress decimal).
Abbreviation Ctx := (RequestContext H F).

(** * State predicates *)

(** [P] does not look at what the operations on the left change. *)
Lemma keeps_on_export {A} (P : Ctx → Prop) (m : SS A) :
  (∀ c, P c → P (set_export (m (export c)).2 c)) → sm_keeps P (on_export (F:=F) m).
Proof. intros Hm c Hc. specialize (Hm c Hc). unfold on_export. by destruct (m (export c)). Qed.

Lemma keeps_on_state {A} (P : Ctx → Prop) (m : AM (F:=F) A) :
  (∀ c f, P c → P (set_root f c)) → sm_keeps P (on_state m).
Proof. intros Hm c Hc. unfold on_state. destruct (m (auth_root c)). by apply Hm. Qed.

Lemma keeps_reply (P : Ctx → Prop) r : sm_keeps P (reply r).
Proof. by intros c. Qed.

Lemma keeps_answer {A} (P : Ctx → Prop) (m : SS A) (f : A → Response) :
  (∀ c, P c → P (set_export (m (export c)).2 c)) → sm_keeps P (answer (F:=F) m f).
Proof.
  intros Hm. unfold answer. apply sm_keeps_bind; [by apply keeps_on_export|]. intros. apply keeps_reply.
Qed.

Lemma keeps_bounded_read {A} (P : Ctx → Prop) offset length long wide (m : SS A) f :
  (∀ c, P c → P (set_export (m (export c)).2 c)) →
  sm_keeps P (bounded_read (F:=F) cfg offset length long wide m f).
Proof.
  intros Hm. unfold bounded_read. destruct (_ || _); [apply keeps_reply|].
  destruct (_ >? _); [apply keeps_reply|]. apply sm_keeps_bind; [auto with sm|]. intros c.
  destruct (_ <? _); [auto with sm|]. apply sm_keeps_bind; [by apply keeps_on_export|].
  intros []; [auto with sm|apply keeps_reply].
Qed.

Lemma keeps_bounded_write {A} (P : Ctx → Prop) in_range length body long wide (m : list Z → SS A) f :
  (∀ data c, P c → P (set_export (m data (export c)).2 c)) →
  sm_keeps P (bounded_write (F:=F) cfg in_range length body long wide m f).
Proof.
  intros Hm. unfold bounded_write. apply sm_keeps_bind; [auto with sm|]. intros c.
  repeat (destruct (_ : bool); [auto using keeps_reply with sm|]).
  apply keeps_answer. auto.
Qed.

Lemma keeps_pair (P : Ctx → Prop) d pairing_id nonce proof :
  (∀ c f, P c → P (set_root f c)) →
  sm_keeps P (handle_pair (H:=H) pairing_from_json hmac_sha256 uuid_bytes uuid_text root fingerprint
    d pairing_id nonce proof).
Proof.
  intros Hf. assert (∀ A (m : AM (F:=F) A), sm_keeps P (on_state m)) as Hst.
  { intros A m. apply keeps_on_state. auto. }
  pose proof (keeps_reply P) as Hr.
  unfold handle_pair. apply sm_keeps_bind; [auto|]. intros [secret|]; [|auto].
  destruct (verify_client_proof _ _ _ _ _ _ _); [|auto].
  destruct (server_proof _ _ _ _ _ _); [|auto].
  apply sm_keeps_bind; [auto|]. intros []; auto.
Qed.

Lemma authenticate_dec (m : Request) :
  {up | m = Request.Authenticate up.1 up.2} + {∀ u p, m ≠ Request.Authenticate u p}.
Proof. destruct m; try by right. left. by exists (username, password). Qed.

(** [handle_authenticate] is the only step that looks at or changes [auth_state];
    everything else keeps what does not depend on the session. *)
Lemma keeps_dispatch (P : Ctx → Prop) d id message body :
  (∀ c s, P c → P (set_export s c)) → (∀ c f, P c → P (set_root f c)) →
  (∀ u p, message ≠ Request.Authenticate u p) → sm_keeps P (dispatch d id message body).
Proof.
  intros Hs Hf Hna.
  assert (∀ A (m : SS A) f, sm_keeps P (answer (F:=F) m f)) as Ha.
  { intros A m f. apply keeps_answer. auto. }
  assert (∀ A (m : SS A), sm_keeps P (on_export (F:=F) m)) as He.
  { intros A m. apply keeps_on_export. auto. }
  assert (∀ A (m : AM (F:=F) A), sm_keeps P (on_state m)) as Hst.
  { intros A m. apply keeps_on_state. auto. }
  pose proof (keeps_reply P) as Hr.
  destruct message; simpl; auto with sm.
  - by apply keeps_pair.
  - by edestruct Hna.
  - apply sm_keeps_bind; [auto|]. intros [view|]; [|auto]. auto with sm.
  - apply keeps_bounded_read. auto.
  - apply keeps_bounded_write. auto.
  - apply keeps_bounded_read. auto.
  - apply keeps_bounded_write. auto.
  - apply sm_keeps_bind; [|auto]. intros c Hc. unfold on_both. destruct (set_volume_name _ _ _ _ _ _ _ _) as [r sf].
    simpl. auto.
  - apply sm_keeps_bind; [auto|]. intros [[]|]; auto with sm.
  - destruct (_ >? _); [auto|]. apply sm_keeps_bind; [|auto].
    clear Hna. induction nodes as [|n ns IH]; simpl; [auto with sm|].
    apply sm_keeps_bind; [auto|]. intros r. apply sm_keeps_bind; [auto|]. auto with sm.
Qed.

Lemma send_answer_state id compress a (c : Ctx) :
  (send_answer response_to entry_to zstd_compress id compress a c).2 = c.
Proof. unfold send_answer. repeat case_match; done. Qed.

(** * Authentication *)

(** The account verified for a request, in the state in which it is handled. *)
Definition verifies (c : Ctx) (i : Input) (a : UserAuthorization) : Prop :=
  ∃ u p f, Envelope.message i.1.1 = Request.Authenticate u p ∧
    verify_user_authorization users_from_json root u (secret_bytes p) (auth_root c) = (Ok (Some a), f).

(** The effect of an accepted password. *)
Definition grant (a : UserAuthorization) (s : Session H) : Session H :=
  (set_write_authorized (UserAuthorization.writable a) s).2.

Lemma authenticate_effect d u p (c : Ctx) :
  let c' := (handle_authenticate users_from_json root peer_ip d u p c).2 in
  (ConnectionAuth.authenticated (auth_state c') = ConnectionAuth.authenticated (auth_state c) ∧
   export c' = export c) ∨
  (ConnectionAuth.authenticated (auth_state c) = false ∧
   ConnectionAuth.failed_attempts (auth_state c) < 5 ∧
   ConnectionAuth.authenticated (auth_state c') = true ∧
   ∃ a f, verify_user_authorization users_from_json root u (secret_bytes p) (auth_root c) = (Ok (Some a), f) ∧
     export c' = grant a (export c)).
Proof.
  unfold handle_authenticate. sm_unfold. simpl.
  destruct (ConnectionAuth.authenticated (auth_state c)) eqn:Ea; [left; by rewrite <- Ea|].
  destruct (5 <=? _) eqn:E5; [left; by rewrite <- Ea|].
  destruct (_ || _); [left; by rewrite <- Ea|].
  destruct (allow _ _ _) as [granted l]. simpl.
  destruct (negb granted); [left; by rewrite <- Ea|].
  destruct (_ <=? 0); [left; by rewrite <- Ea|].
  destruct (negb (Draws.task_ok d)); [left; by rewrite <- Ea|].
  unfold on_state. simpl. destruct (verify_user_authorization _ _ _ _ _) as [[[a|]|e] f] eqn:Ev; simpl.
  - right. bool_simpl. split_and!; [done|lia|done|]. by exists a, f.
  - left. simpl. by rewrite <- Ea.
  - left. by rewrite <- Ea.
Qed.

(** Every request keeps the export out of reach of a connection that is not
    authenticated, except the one that authenticates it. *)
Lemma handle_effect i (c : Ctx) :
  let c' := (handle i.2 i.1.1 i.1.2 c).2 in
  (ConnectionAuth.authenticated (auth_state c') = ConnectionAuth.authenticated (auth_state c) ∧
   (ConnectionAuth.authenticated (auth_state c) = false → export c' = export c)) ∨
  (ConnectionAuth.authenticated (auth_state c) = false ∧
   ConnectionAuth.failed_attempts (auth_state c) < 5 ∧
   ConnectionAuth.authenticated (auth_state c') = true ∧
   ∃ a, verifies c i a ∧ export c' = grant a (export c)).
Proof.
  destruct i as [[request body] d]. unfold Daemon.handle. cbn [fst snd].
  destruct (negb _); [left; by rewrite send_answer_state|]. sm_unfold.
  destruct (negb (_ || _)) eqn:Hgate; [left; by rewrite send_answer_state|].
  assert (∀ r : result HandleError Answer * Ctx, (let (x, s') := r in
    match x with Ok a => send_answer response_to entry_to zstd_compress
      (Envelope.request_id request) (peer_supports_frame_compression (Envelope.version request)) a s'
    | Err e => (Err e, s') end).2 = r.2) as Hsend.
  { intros [[a|e] c']; [apply send_answer_state|done]. }
  rewrite Hsend. bool_simpl.
  destruct (authenticate_dec (Envelope.message request)) as [[[u p] Em]|Hna].
  { rewrite Em. simpl in *. destruct (authenticate_effect d u p c) as [[? ?]|(? & ? & ? & a & f & ? & ?)].
    - left. auto.
    - right. split_and!; [done|done|done|]. exists a. split; [|done]. exists u, p, f. done. }
  left. split.
  - apply (keeps_dispatch (λ c', ConnectionAuth.authenticated (auth_state c') =
      ConnectionAuth.authenticated (auth_state c))); [done|done|done|done].
  - intros Hun. destruct Hgate as [Hgate|Hgate]; [|congruence].
    destruct (Envelope.message request) eqn:Em; try done; [|by edestruct Hna].
    simpl. by apply (keeps_pair (λ c', export c' = export c)).
Qed.

(** Every other request of such a connection is refused without an effect. *)
Lemma refused_before_authentication d request body (c : Ctx) :
  ConnectionAuth.authenticated (auth_state c) = false →
  ¬ setup_request (Envelope.message request) →
  handle d request body c = (refusal response_to zstd_compress request, c).
Proof.
  intros Hun Hno. unfold Daemon.handle, refusal, error_reply.
  destruct (version_major (Envelope.version request) =? PROTOCOL_MAJOR);
    [|by cbn; destruct (write_response _ _ _ _ _ _) as [[] ?]].
  cbn [negb]. sm_unfold. cbv beta iota. rewrite Hun, orb_false_r.
  destruct (allowed_before_authentication (Envelope.message request)) eqn:Ea.
  - destruct Hno. destruct (Envelope.message request); try discriminate Ea; constructor.
  - cbn. by destruct (write_response _ _ _ _ _ _) as [[] ?].
Qed.

Lemma run_requests_snoc inputs i c :
  run_requests (inputs ++ [i]) c = (handle i.2 i.1.1 i.1.2 (run_requests inputs c)).2.
Proof. unfold Daemon.run_requests. by rewrite fold_left_app. Qed.

(** Where the authentication of a connection came from. *)
Definition authenticated_by (c : Ctx) (inputs : list Input) : Prop :=
  ∃ before i after a, inputs = before ++ i :: after ∧
    let c1 := run_requests before c in
    verifies c1 i a ∧ ConnectionAuth.failed_attempts (auth_state c1) < 5 ∧
    export (run_requests (before ++ [i]) c) = grant a (export c).

Lemma authentication_invariant inputs (c : Ctx) :
  ConnectionAuth.authenticated (auth_state c) = false →
  let c' := run_requests inputs c in
  (ConnectionAuth.authenticated (auth_state c') = false → export c' = export c) ∧
  (ConnectionAuth.authenticated (auth_state c') = true → authenticated_by c inputs).
Proof.
  intros Hc. induction inputs as [|i inputs IH] using rev_ind; simpl; [split; [done|congruence]|].
  destruct IH as [IH1 IH2]. rewrite run_requests_snoc.
  destruct (handle_effect i (run_requests inputs c)) as [[Ha He]|(Hu & Hf & Ha & a & Hv & He)].
  - rewrite Ha. split; [intros Hn; rewrite He by done; by apply IH1|].
    intros (before & i' & after & a & -> & Hrest)%IH2.
    exists before, i', (after ++ [i]), a. by rewrite <- app_assoc.
  - rewrite Ha. split; [done|]. intros _. exists inputs, i, [], a.
    split; [done|]. simpl. split; [done|]. split; [done|].
    rewrite run_requests_snoc, He. by rewrite IH1.
Qed.

(** * Session invariant *)

(** What the decoder and the daemon guarantee of a request: lock ranges are
    64-bit unsigned, and the temporary name of an exchange is one component. *)
Definition wf_input (i : Input) : Prop :=
  valid_name (Draws.exchange_name i.2) ∧
  match Envelope.message i.1.1 with
  | Request.SetLock _ lock _ => 0 ≤ FileLock.start lock ∧ FileLock.end_ lock ≤ u64_max
  | _ => True
  end.

Context (I : H → Prop) (rw : bool) (owner : Z → Prop) (others : Z).
Context (hash_order_perm : ∀ s, hash_order s ≡ₚ elements s)
  (fresh_handle_new : ∀ s, fresh_handle s ∉ s)
  (HK : host_keeps H I rw) (owner_self : owner (session_id cfg)).

Abbreviation inv := (sess_inv stable_node_id cfg I rw owner others 0 0 0).
Abbreviation run_op := (run_op sha256 b64_encode b64_decode major minor stable_node_id hash_order
  fresh_handle cfg).

Lemma drop_result_state {A} (m : SS (H:=H) A) s : (drop_result m s).2 = (m s).2.
Proof. unfold drop_result. sm_unfold. by destruct (m s) as [[]]. Qed.

(** A request whose operation is [op] keeps the invariant. *)
Lemma op_keeps {A} (m : SS (H:=H) A) op :
  wf_op op → (∀ s, (m s).2 = (run_op op s).2) →
  ∀ c : Ctx, inv (export c) → inv (export (set_export (m (export c)).2 c)).
Proof. intros Hwf Hm c Hc. simpl. rewrite Hm. by apply run_op_inv. Qed.

Lemma volume_name_keeps d name (c : Ctx) :
  inv (export c) →
  inv (set_volume_name hex_encode record_to_json cfg node_key persistence (Draws.temporary d) name
         (export c, auth_root c)).2.1.
Proof.
  intros Hc. unfold set_volume_name. sm_unfold. simpl.
  destruct (negb _); [done|]. destruct (negb _); [done|]. destruct (negb _); [done|].
  destruct persistence as [p|]; simpl.
  - destruct (save_export_record _ _ _ _ _) as [[]]; simpl; [|done]. by destruct Hc.
  - by destruct Hc.
Qed.

Ltac by_op op := first
  [ apply keeps_answer | apply keeps_bounded_read | apply keeps_bounded_write; intros ?
  | apply keeps_on_export ]; apply (op_keeps _ op); [done|]; intros ?;
  first [done | symmetry; apply drop_result_state].

Lemma dispatch_inv d id message body :
  (∀ u p, message ≠ Request.Authenticate u p) → valid_name (Draws.exchange_name d) →
  (∀ h lock w, message = Request.SetLock h lock w →
     0 ≤ FileLock.start lock ∧ FileLock.end_ lock ≤ u64_max) →
  sm_keeps (λ c, inv (export c)) (dispatch d id message body).
Proof.
  intros Hna Hname Hlock. pose proof (keeps_reply (λ c, inv (export c))) as Hr.
  destruct message; simpl; auto with sm.
  - by apply keeps_pair.
  - by edestruct Hna.
  - by_op OpStatFilesystem.
  - by_op (OpMetadata node).
  - by_op (OpList node).
  - apply sm_keeps_bind; [by_op (OpDirectoryView node options)|]. intros []; [auto with sm|auto].
  - by_op (OpOpen node options).
  - by_op (OpCreateFile parent name mode options).
  - by_op (OpCreateDirectory parent name mode).
  - by_op (OpCreateSymlink parent name target).
  - by_op (OpRemoveNode parent name directory).
  - by_op (OpRenameNode parent name new_parent new_name mode).
  - by_op (OpCreateHardLink node new_parent new_name).
  - by_op (OpCreateSpecialNode parent name kind mode device_major device_minor).
  - by_op (OpReadLink node).
  - by_op (OpSetAttributes node handle changes).
  - by_op (OpRead handle offset length).
  - apply keeps_bounded_write. intros data. apply (op_keeps _ (OpWrite handle offset data)); [done|].
    intros s. symmetry. apply drop_result_state.
  - by_op (OpFlush handle lock_owner).
  - by_op (OpSync handle data_only).
  - by_op (OpSyncDirectory node).
  - by_op (OpAllocate handle offset length).
  - by_op (OpGetXattr node name offset length).
  - apply keeps_bounded_write. intros data. by apply (op_keeps _ (OpSetXattr node name data mode position)).
  - by_op (OpListXattrs node).
  - by_op (OpRemoveXattr node name).
  - by_op (OpCopyFileRange input input_offset output output_offset length).
  - by_op (OpSeek handle offset whence).
  - by_op (OpIoctl handle operation).
  - by_op (OpMapBlock node block_size block).
  - by_op (OpExchangeData (Draws.exchange_name d) parent name new_parent new_name options).
  - apply sm_keeps_bind; [|auto]. intros c Hc. unfold on_both.
    pose proof (volume_name_keeps d name c Hc) as Hv.
    destruct (set_volume_name _ _ _ _ _ _ _ _) as [r [s f]]. exact Hv.
  - by_op (OpForgetNodes nodes).
  - by_op (OpGetLock handle lock).
  - apply sm_keeps_bind.
    + apply keeps_on_export. apply (op_keeps _ (OpSetLock handle lock wait)); [by eapply Hlock|].
      intros s. symmetry. apply drop_result_state.
    + intros [[]|]; auto with sm.
  - by_op (OpClose handle).
  - destruct (_ >? _); [auto|]. apply sm_keeps_bind; [|auto].
    clear Hna Hlock. induction nodes as [|n ns IH]; simpl; [auto with sm|].
    apply sm_keeps_bind; [by_op (OpMetadata n)|]. intros r. apply sm_keeps_bind; [auto|]. auto with sm.
Qed.

Lemma grant_inv a s :
  inv s → (writable cfg = true → UserAuthorization.writable a = true → rw = true) → inv (grant a s).
Proof.
  intros [] Ha. split; try done. unfold can_write. simpl. intros [? ?]%andb_true_iff. auto.
Qed.

Lemma handle_inv i (c : Ctx) :
  wf_input i → inv (export c) →
  (∀ a, verifies c i a → writable cfg = true → UserAuthorization.writable a = true → rw = true) →
  inv (export (handle i.2 i.1.1 i.1.2 c).2).
Proof.
  destruct i as [[request body] d]. intros [Hname Hlock] Hc Hgrant. cbn [fst snd] in *.
  unfold Daemon.handle. destruct (negb _); [by rewrite send_answer_state|]. sm_unfold.
  destruct (negb (_ || _)); [by rewrite send_answer_state|].
  assert (∀ r : result HandleError Answer * Ctx, (let (x, s') := r in
    match x with Ok a => send_answer response_to entry_to zstd_compress
      (Envelope.request_id request) (peer_supports_frame_compression (Envelope.version request)) a s'
    | Err e => (Err e, s') end).2 = r.2) as Hsend.
  { intros [[a|e] c']; [apply send_answer_state|done]. }
  rewrite Hsend.
  destruct (authenticate_dec (Envelope.message request)) as [[[u p] Em]|Hna].
  - rewrite Em. simpl in *. destruct (authenticate_effect d u p c) as [[_ ->]|(_ & _ & _ & a & f & Hv & ->)];
      [done|]. apply grant_inv; [done|]. apply Hgrant. by exists u, p, f.
  - apply (dispatch_inv d (Envelope.request_id request) (Envelope.message request) body); [done|done| |done].
    intros h lock w E. by rewrite E in Hlock.
Qed.

Lemma run_requests_inv inputs (c : Ctx) :
  Forall wf_input inputs → inv (export c) →
  (∀ before i after a, inputs = before ++ i :: after → verifies (run_requests before c) i a →
     writable cfg = true → UserAuthorization.writable a = true → rw = true) →
  inv (export (run_requests inputs c)).
Proof.
  intros Hwf Hc. induction inputs as [|i inputs IH] using rev_ind; intros Hg; [done|].
  apply Forall_app in Hwf as [Hwf [Hi _]%Forall_cons]. rewrite run_requests_snoc.
  apply handle_inv; [done| |].
  - apply IH; [done|]. intros before j after a ->. apply Hg with (after := after ++ [i]).
    by rewrite <- app_assoc.
  - intros a. by apply (Hg inputs i []).
Qed.
End facts.

(** * Theorems *)

Section theorems.
Context {H : Type} `{HF : HostFiles H} `{HD : HostDirs H}.
Context {F : Type} `{SF : StateFs F} `{AR : Argon2} `{B64 : Base64Url}.
Context (sha256 : list Z → list Z) (b64_encode : list Z → list Z)
  (b64_decode : list Z → option (list Z)) (major minor : Z → Z)
  (stable_node_id : FileIdentity → NodeId)
  (hash_order : gset NodeId → list NodeId) (fresh_handle : gset FileHandle → FileHandle).
Context (cfg : ExportConfig).
Context (users_from_json : list Z → result (list Z) UserDatabase)
  (pairing_from_json : list Z → result (list Z) PairingRecord)
  (hmac_sha256 : list Z → list Z → option (list Z)) (uuid_bytes uuid_text : Z → list Z)
  (hex_encode : list Z → list Z) (record_to_json : PersistentExportRecord → option (list Z))
  (node_key : list Z) (persistence : option PersistentExportState)
  (root : Path) (fingerprint : list Z) (peer_ip : IpAddr).
Context (response_to : Envelope Response → option (list Z))
  (entry_to : DirectoryViewEntry → option (list Z))
  (zstd_compress : list Z → Z → option (list Z)) (decimal : Z → list Z).

Abbreviation run_requests := (run_requests sha256 b64_encode b64_decode major minor stable_node_id
  hash_order fresh_handle cfg users_from_json pairing_from_json hmac_sha256 uuid_bytes uuid_text
  hex_encode record_to_json node_key persistence root fingerprint peer_ip response_to entry_to
  zstd_compress decimal).
Abbreviation handle := (handle sha256 b64_encode b64_decode major minor stable_node_id hash_order
  fresh_handle cfg users_from_json pairing_from_json hmac_sha256 uuid_bytes uuid_text hex_encode
  record_to_json node_key persistence root fingerprint peer_ip response_to entry_to zstd_compress
  decimal).
Abbreviation verifies := (verifies (H:=H) users_from_json root).

(** C2: A connection that has not authenticated cannot reach the export.  After
    any sequence of requests on a new connection, either it is not
    authenticated and the whole session state (nodes, handles, locks, host) is
    what it was, or one of the requests authenticated with a name and a
    password that the user database accepted when it was handled, with fewer
    than five failures before it; until then the session was untouched, and
    that request gave the session exactly the account's write permission.  And
    as long as the connection is not authenticated, every request other than
    [Hello], [Pair], [Authenticate] and [Ping] changes nothing at all, not even
    the state directory, and is answered with one error: that the protocol
    version is not supported, when its major version is another, and
    otherwise that the connection has to authenticate first. *)
Theorem no_access_before_authentication inputs (c : RequestContext H F) :
  ConnectionAuth.authenticated (auth_state c) = false →
  let c' := run_requests inputs c in
  ((ConnectionAuth.authenticated (auth_state c') = false ∧ export c' = export c) ∨
   (ConnectionAuth.authenticated (auth_state c') = true ∧
    ∃ before i after a, inputs = before ++ i :: after ∧ verifies (run_requests before c) i a ∧
      ConnectionAuth.failed_attempts (auth_state (run_requests before c)) < 5 ∧
      export (run_requests (before ++ [i]) c) = grant a (export c))) ∧
  (∀ before request body d after, inputs = before ++ (request, body, d) :: after →
     ConnectionAuth.authenticated (auth_state (run_requests before c)) = false →
     ¬ setup_request (Envelope.message request) →
     handle d request body (run_requests before c) =
       (refusal response_to zstd_compress request, run_requests before c)).
Proof.
  intros Hc c'. split; [|intros; by apply refused_before_authentication].
  pose proof (authentication_invariant sha256 b64_encode b64_decode major minor
    stable_node_id hash_order fresh_handle cfg users_from_json pairing_from_json hmac_sha256
    uuid_bytes uuid_text hex_encode record_to_json node_key persistence root fingerprint peer_ip
    response_to entry_to zstd_compress decimal inputs c Hc) as [Hn Ha].
  destruct (ConnectionAuth.authenticated (auth_state c')) eqn:E.
  - right. split; [done|by apply Ha].
  - left. split; [done|by apply Hn].
Qed.

(** An account without write permission cannot change the exported tree.  On
    a new connection, if every account the connection authenticates with has no
    write permission (or the export is read-only), then no sequence of requests
    of any kind, authentication, pairing and malformed ones included, changes
    an observation of the tree that reading leaves alone. *)
Theorem read_only_account_changes_nothing {T} (tree : H → T) inputs (c : RequestContext H F)
    root_identity h :
  (∀ s, hash_order s ≡ₚ elements s) → (∀ s, fresh_handle s ∉ s) → honest_streams H →
  unaffected_by_reads tree →
  1 ≤ Limits.max_known_nodes (limits cfg) → 1 ≤ Limits.max_total_known_nodes (limits cfg) →
  0 ≤ Limits.max_open_handles (limits cfg) → Forall wf_input inputs →
  export c = new_session cfg root_identity false h →
  (∀ before i after a, inputs = before ++ i :: after → verifies (run_requests before c) i a →
     writable cfg = true → UserAuthorization.writable a = false) →
  tree (host (export (run_requests inputs c))) = tree h.
Proof.
  intros Hperm Hfresh Hdir Htree Hk Ht Ho Hwf Hc Hro.
  apply (run_requests_inv sha256 b64_encode b64_decode major minor stable_node_id hash_order
    fresh_handle cfg users_from_json pairing_from_json hmac_sha256 uuid_bytes uuid_text hex_encode
    record_to_json node_key persistence root fingerprint peer_ip response_to entry_to zstd_compress
    decimal (λ h', tree h' = tree h) false (λ _, True) 0 Hperm Hfresh (tree_host_keeps tree h Hdir Htree) Logic.I);
    [done| |].
  - rewrite Hc. apply new_session_inv; try done. by rewrite andb_false_r.
  - intros before i after a E Hv Hw Ha. rewrite (Hro before i after a E Hv Hw) in Ha. done.
Qed.
End theorems.

(** No request runs: every permit of the configuration is free. *)
Record idle {H F} (c : Serve) (ctx : RequestContext H F) : Prop := {
  idle_reads : read_permits ctx = Serve.max_in_flight_read_bytes c;
  idle_writes : write_permits ctx = Serve.max_in_flight_write_bytes c;
  idle_connection : connection_write_permits ctx = Serve.max_in_flight_write_bytes_per_connection c
}.

(** An accepted configuration can serve every request within its limits.
    When no other request is running, a read within [max_read_size] is performed
    and never waits for read capacity, and a write within [max_write_size] whose
    body arrives is performed and never refused as busy: only the range, the
    write permission and a missing body stop it. *)
Theorem idle_server_has_capacity {H F A} max_permits c cfg (ctx : RequestContext H F)
    (offset length : Z) in_range body long wide (m : SS (H:=H) A) (w : list Z → SS (H:=H) A)
    (f : A → Response * list Z) (g : A → Response) :
  validate_configuration max_permits c = Ok tt → limits cfg = serve_limits c →
  idle c ctx →
  bounded_read cfg offset length long wide m f ctx =
    (if bool_decide (length ≤ Serve.max_read_size c ∧ is_Some (u64_checked_add offset length)) then
       r ← on_export m;
       match r with
       | Ok a => mret (Reply (f a).1 (Some (f a).2))
       | Err e => reply (Response.Error (server_error_protocol e))
       end
     else reply (error_reply ErrorCode.TooLarge long)) ctx ∧
  bounded_write cfg in_range length body long wide w g ctx =
    (if negb (can_write cfg (export ctx)) then
       reply (error_reply ErrorCode.ReadOnly "the export is read-only")
     else if bool_decide (length ≤ Serve.max_write_size c) && in_range then
       if zlen body <? length then sm_err HandleError.Body
       else answer (w (take (Z.to_nat length) body)) g
     else reply (error_reply ErrorCode.TooLarge long)) ctx.
Proof.
  intros Hv Hl [Hr Hw Hcw]. unfold validate_configuration in Hv.
  repeat (case_match; bool_simpl; [done|]). clear Hv.
  unfold bounded_read, bounded_write. rewrite Hl. simpl. split.
  - destruct (u64_checked_add offset length) as [e|] eqn:Eo.
    + rewrite (bool_decide_false (Some e = None)), orb_false_r by done.
      destruct (_ <? length) eqn:E; bool_simpl.
      * rewrite bool_decide_false; [done|]. lia.
      * rewrite bool_decide_true by (split; [lia|done]).
        destruct (length >? u32_max) eqn:E2; [bool_simpl; lia|]. sm_unfold. simpl. rewrite Hr.
        destruct (_ <? length) eqn:E3; [bool_simpl; lia|]. done.
    + rewrite (bool_decide_true (None = None)), orb_true_r by done.
      rewrite bool_decide_false; [done|]. intros [_ [? [=]]].
  - sm_unfold. destruct (negb (can_write cfg _)); [done|].
    destruct (_ <? length) eqn:E; bool_simpl; simpl.
    + rewrite bool_decide_false by lia. done.
    + rewrite bool_decide_true by lia. destruct in_range; simpl; [|done].
      destruct (length >? u32_max) eqn:E2; [bool_simpl; lia|]. rewrite Hw, Hcw.
      destruct (Serve.max_in_flight_write_bytes c <? length) eqn:E3; [bool_simpl; lia|].
      destruct (Serve.max_in_flight_write_bytes_per_connection c <? length) eqn:E4; [bool_simpl; lia|].
      done.
Qed.

(** * Examples *)

Module DaemonExample.
#[local] Existing Instance AuthExample.argon.
#[local] Instance base64 : Base64Url := {|
  b64url_encode b := b; b64url_decode := Some; b64url_encoded_len := Some
|}.

Definition serve : Serve :=
  Serve.Mk true 100 100 4 4 6 2 1000 8 8 2 1000 1000 500 10.
Definition context : RequestContext LogHost.Log MemState.Mem :=
  connection_context serve
    (new_session LogHost.cfg LogHost.root_identity false (LogHost.Mk [] [] 0)) AuthExample.after_add.

Definition draws : Draws := Draws.Mk (10 ^ 9) (Ok 1000) (lit "t") (lit ".tmp") true.
Definition request (m : Request) : Input :=
  (Envelope.Mk PROTOCOL_VERSION (MkRequestId 1) m, [], draws).
Definition login : Input :=
  request (Request.Authenticate AuthExample.alice (MkSecretString AuthExample.password)).
Definition remove : Input := request (Request.RemoveNode ROOT_NODE (lit "f") false).
Definition create : Input := request (Request.CreateDirectory ROOT_NODE (lit "d") 493).

Definition run (inputs : list Input) : RequestContext LogHost.Log MemState.Mem :=
  run_requests (λ b, b) (λ b, b) Some (λ d, d) (λ d, d) ex_stable ex_order LogHost.fresh LogHost.cfg
    AuthExample.from_json (λ _, Err []) (λ k m, Some (k ++ m)) (λ u, [u]) AuthExample.uuid_text
    (λ b, b) (λ _, None) [] None AuthExample.root (lit "fp") (V4 1) (λ _, Some []) (λ _, Some [])
    (λ _ _, None) (λ n, [n]) inputs context.
Definition answered (i : Input) (c : RequestContext LogHost.Log MemState.Mem) :=
  handle (λ b, b) (λ b, b) Some (λ d, d) (λ d, d) ex_stable ex_order LogHost.fresh LogHost.cfg
    AuthExample.from_json (λ _, Err []) (λ k m, Some (k ++ m)) (λ u, [u]) AuthExample.uuid_text
    (λ b, b) (λ _, None) [] None AuthExample.root (lit "fp") (V4 1) (λ _, Some []) (λ _, Some [])
    (λ _ _, None) (λ n, [n]) i.2 i.1.1 i.1.2 c.
End DaemonExample.
Import DaemonExample.

#[local] Existing Instance AuthExample.argon.
#[local] Existing Instance DaemonExample.base64.

Lemma no_access_before_authentication_witness :
  (export (run [remove; create]) = export context ∧
   answered remove (run []) = (refusal (λ _, Some []) (λ _ _, None) remove.1.1, context)) ∧
  ConnectionAuth.authenticated (auth_state (run [remove; login])) = true.
Proof.
  split; [|vm_compute; reflexivity].
  destruct (no_access_before_authentication (λ b, b) (λ b, b) Some (λ d, d) (λ d, d) ex_stable
    ex_order LogHost.fresh LogHost.cfg
    AuthExample.from_json (λ _, Err []) (λ k m, Some (k ++ m)) (λ u, [u]) AuthExample.uuid_text
    (λ b, b) (λ _, None) [] None AuthExample.root (lit "fp") (V4 1) (λ _, Some []) (λ _, Some [])
    (λ _ _, None) (λ n, [n]) [remove; create] context) as [[[_ E]|[E _]] Hrefused].
  - reflexivity.
  - split; [exact E|]. apply (Hrefused [] _ _ _ [create]); [reflexivity|reflexivity|].
    intros Hsetup. inversion Hsetup.
  - exfalso. revert E. vm_compute. discriminate.
Defined.

Lemma read_only_account_changes_nothing_witness :
  LogHost.writes (host (export (run [login; create]))) = 0%nat ∧
  ConnectionAuth.authenticated (auth_state (run [login])) = true.
Proof.
  split; [|vm_compute; reflexivity].
  apply (read_only_account_changes_nothing (λ b, b) (λ b, b) Some (λ d, d) (λ d, d) ex_stable
    ex_order LogHost.fresh LogHost.cfg
    AuthExample.from_json (λ _, Err []) (λ k m, Some (k ++ m)) (λ u, [u]) AuthExample.uuid_text
    (λ b, b) (λ _, None) [] None AuthExample.root (lit "fp") (V4 1) (λ _, Some []) (λ _, Some [])
    (λ _ _, None) (λ n, [n]) LogHost.writes [login; create] context LogHost.root_identity
    (LogHost.Mk [] [] 0) ex_order_perm LogHost.fresh_new LogHost.log_streams LogHost.log_reads).
  - vm_compute. discriminate.
  - vm_compute. discriminate.
  - vm_compute. discriminate.
  - repeat constructor.
  - reflexivity.
  - intros [|x [|y before]] i after a E (u & p & f & Em & Hv) _.
    + injection E as <- _. injection Em as <- <-.
      vm_compute in Hv. injection Hv as <- _. reflexivity.
    + injection E as _ <- _. discriminate Em.
    + injection E as _ _ E. by destruct before.
Defined.

Lemma idle_server_has_capacity_witness :
  bounded_read (F:=MemState.Mem) (MkConfig (serve_limits serve) true 42 true 0 1) 5 90 "" "" (mret tt : SS (H:=unit) unit)
    (λ _, (Response.FileSynced, [])) (connection_context serve example_session AuthExample.after_add) =
  (Ok (Reply Response.FileSynced (Some [])),
   connection_context serve example_session AuthExample.after_add).
Proof.
  refine (proj1 (idle_server_has_capacity 1000000 serve
    (MkConfig (serve_limits serve) true 42 true 0 1)
    (connection_context serve example_session AuthExample.after_add) 5 90 true [] "" ""
    (mret tt) (λ _, mret tt) (λ _, (Response.FileSynced, [])) (λ _, Response.FileSynced)
    _ eq_refl _)).
  - vm_compute. reflexivity.
  - by constructor.
Defined.
