(* ===== verification/ServeLoop.v ===== *)
(** The accept loop of the daemon
    ([servers/linux/server-daemon/src/main.rs], [serve_until], lines 470-580):
    the connections with their permits, the requests that run at the same time,
    time limits, the end of a connection and the shutdown.

    The loop, the connections and the requests are tasks that interleave.  An
    event is a step of one of them; [step] gives the state after it, when it can
    happen.  The work of a request on the shared state happens in one event
    ([Handled]); before it the request may hold the permits for its bytes; those
    of a write are free after it, those of a read when the data has been sent.

    A request whose time is over, or that is aborted with its connection, ends
    without an answer ([RequestEnded]).  The file system work of a write is a
    task of its own, which goes on when the request has ended, even after its
    connection ([detached], [DetachedDone]): it keeps its permits and its session
    until it is done.

    An open file lives as long as a reference to it ([Arc<OpenFile>]).  The table
    of its session has one; a request that works on it has another, and so has the
    closure that it gives to [spawn_blocking], which runs on when the request is
    aborted.  The permits for the bytes of a read belong to the request, which
    gives them back when it is aborted, although its closure may still be reading.
    A [Process] is the server with these references ([clones]): a file
    that is closed, or whose session is dropped, keeps its handle permit until the
    last of them is gone ([orphans]). *)

From S2P Require Import Prelude Protocol Common StateFiles Auth RateLimiter Transport ViewStream Locks Registry XattrNames FileIO Attributes HostDirs Forks Session ExportState Daemon.

(** * The state *)

(** Read and write bytes that a request holds permits for. *)
Module Budget.
Record Budget := Mk { reads : Z; writes : Z }.
Definition none : Budget := Mk 0 0.
End Budget.
Abbreviation Budget := Budget.Budget.
#[global] Instance Budget_eq_dec : EqDecision Budget.
Proof. solve_decision. Defined.

(** A spawned request with its permits; [answer] is what [handle] writes to the
    stream, once it has run. *)
Module RequestTask.
Record RequestTask := Mk {
  request : Envelope Request;
  body : list Z;
  budget : Budget;
  answer : option (result HandleError (list Frame * list Z))
}.
End RequestTask.
Abbreviation RequestTask := RequestTask.RequestTask.

(** What belongs to one connection: the private part of its session and of its
    [RequestContext], the stream accepted last while it waits for a permit, the
    [JoinSet] of its requests, and the writes whose requests have ended. *)
Module Connection.
Record Connection := Mk {
  session : Z;
  peer_ip : IpAddr;
  nodes : SessionNodes;
  write_authorized : bool;
  auth : ConnectionAuth;
  write_permits : Z;
  accepted : option (Envelope Request * list Z);
  request_tasks : gmap nat RequestTask;
  detached : gmap nat RequestTask
}.
End Connection.
Abbreviation Connection := Connection.Connection.

(** A connection task: [incoming.await], then the loop over its streams.  After
    its end a session with detached writes is drained. *)
Inductive ConnectionTask := Handshake | Established (c : Connection) | Draining (c : Connection).

Definition connection_of (t : ConnectionTask) : option Connection :=
  match t with Handshake => None | Established cn | Draining cn => Some cn end.
Definition with_connection (t : ConnectionTask) (cn : Connection) : ConnectionTask :=
  match t with Handshake => Handshake | Established _ => Established cn | Draining _ => Draining cn end.

(** The state that connections share: the export and the state directory. *)
Module Shared.
Record Shared (H F : Type) := Mk {
  registry : NodeRegistry;
  handle_permits : Z;
  locks : list LockRecord;
  volume_name : list Z;
  host : H;
  auth_root : F;
  auth_limiter : AuthRateLimiter
}.
End Shared.
Abbreviation Shared := Shared.Shared.
Arguments Shared.Mk {H F} _ _ _ _ _ _ _.
Arguments Shared.registry {H F} _.
Arguments Shared.handle_permits {H F} _.
Arguments Shared.locks {H F} _.
Arguments Shared.volume_name {H F} _.
Arguments Shared.host {H F} _.
Arguments Shared.auth_root {H F} _.
Arguments Shared.auth_limiter {H F} _.

(** The free permits of the semaphores. *)
Module Permits.
Record Permits := Mk { requests : Z; connections : Z; reads : Z; writes : Z }.
End Permits.
Abbreviation Permits := Permits.Permits.

Record Server (H F : Type) := MkServer {
  shared : Shared H F;
  permits : Permits;
  listening : bool;
  connections : gmap nat ConnectionTask
}.
Arguments MkServer {H F} _ _ _ _.
Arguments shared {H F} _.
Arguments permits {H F} _.
Arguments listening {H F} _.
Arguments connections {H F} _.

(** [Uuid::new_v4()] gives every session an identifier that no other has. *)
Definition session_in_use {H F} (session : Z) (sv : Server H F) : Prop :=
  map_Exists (λ _ t, match connection_of t with Some cn => Connection.session cn = session | None => False end)
    (connections sv).
#[global] Instance session_in_use_dec {H F} session (sv : Server H F) : Decision (session_in_use session sv).
Proof. apply map_Exists_dec. intros k [|cn|cn]; apply _. Defined.

(** * Events *)

(** Connections and requests are named by numbers of their own. *)
Inductive Event :=
  | Arrived (k : nat)
  | HandshakeFailed (k : nat)
  | HandshakeDone (k : nat) (peer : IpAddr) (session : Z)
  | StreamAccepted (k : nat) (request : Envelope Request) (body : list Z)
  | PermitAcquired (k r : nat)
  | PermitTimedOut (k : nat)
  | BytesAcquired (k r : nat)
  | BytesReleased (k r : nat)
  | Handled (k r : nat) (d : Draws) (verifying : Z)
  | RequestEnded (k r : nat) (spawned : bool)
  | DetachedDone (k r : nat)
  | ConnectionEnded (k : nat)
  | Shutdown.

(** A step of the loop, or of the references to an open file. *)
Inductive ProcessEvent :=
  | Loop (e : Event)
  | Cloned (k r : nat) (handle : FileHandle) (clone : nat)
  | CloneDropped (clone : nat).

(** References to open files, by the connection and the handle that they were
    opened with, and the references to each of the files that no table holds. *)
Record Process (H F : Type) := MkProcess {
  server : Server H F;
  clones : gmap nat (nat * FileHandle);
  orphans : list (gset nat)
}.
Arguments MkProcess {H F} _ _ _.
Arguments server {H F} _.
Arguments clones {H F} _.
Arguments orphans {H F} _.

(** The handles that the methods of [ExportSession] give to [open_handle]. *)
Definition handles_named (m : Request) : list FileHandle :=
  match m with
  | Request.SetAttributes _ (Some handle) _ | Request.ReadRange handle _ _ | Request.WriteRange handle _ _
  | Request.FlushFile handle _ | Request.SyncFile handle _ | Request.AllocateFile handle _ _
  | Request.SeekFile handle _ _ | Request.SafeIoctl handle _ | Request.GetLock handle _
  | Request.SetLock handle _ _ => [handle]
  | Request.CopyFileRange input _ output _ _ => [input; output]
  | _ => []
  end.

Section serve.
Context {H : Type} `{HF : HostFiles H} `{HD : HostDirs H}.
Context {F : Type} `{SF : StateFs F} `{AR : Argon2} `{B64 : Base64Url}.
Context (sha256 : list Z → list Z) (b64_encode : list Z → list Z)
  (b64_decode : list Z → option (list Z)) (major minor : Z → Z)
  (stable_node_id : FileIdentity → NodeId)
  (hash_order : gset NodeId → list NodeId) (fresh_handle : gset FileHandle → FileHandle).
Context (users_from_json : list Z → result (list Z) UserDatabase)
  (pairing_from_json : list Z → result (list Z) PairingRecord)
  (hmac_sha256 : list Z → list Z → option (list Z)) (uuid_bytes uuid_text : Z → list Z)
  (hex_encode : list Z → list Z) (record_to_json : PersistentExportRecord → option (list Z))
  (node_key : list Z) (persistence : option PersistentExportState)
  (root : Path) (fingerprint : list Z).
Context (response_to : Envelope Response → option (list Z))
  (entry_to : DirectoryViewEntry → option (list Z))
  (zstd_compress : list Z → Z → option (list Z)) (decimal : Z → list Z).
(** The configuration, and what the export got when it was opened. *)
Context (c : Serve) (export_epoch export_root : Z).

(** The configuration of the export as a session sees it. *)
Definition export_config (session : Z) : ExportConfig :=
  MkConfig (serve_limits c) (Serve.allow_writes c) export_epoch true export_root session.

Abbreviation Server_ := (Server H F).

(** The state when the loop is entered. *)
Definition serve_start (root_identity : FileIdentity) (name : list Z) (h : H) (f : F) : Server_ :=
  MkServer
    (Shared.Mk (registry_new (serve_limits c) root_identity) (Serve.max_open_handles c) [] name h f
       (limiter_new (Serve.auth_attempts_per_minute c)))
    (Permits.Mk (Serve.max_concurrent_requests c) (Serve.max_concurrent_connections c)
       (Serve.max_in_flight_read_bytes c) (Serve.max_in_flight_write_bytes c))
    true ∅.

(** ** Connections *)

Definition set_connection (k : nat) (t : ConnectionTask) (sv : Server_) : Server_ :=
  MkServer (shared sv) (permits sv) (listening sv) (<[k := t]> (connections sv)).

(** [endpoint.accept()]: a connection without a permit is refused. *)
Definition accept_incoming (k : nat) (sv : Server_) : option Server_ :=
  if negb (listening sv) then None
  else
    match connections sv !! k with
    | Some _ => None
    | None =>
        let p := permits sv in
        if Permits.connections p <=? 0 then Some sv
        else
          Some (MkServer (shared sv)
            (Permits.Mk (Permits.requests p) (Permits.connections p - 1) (Permits.reads p) (Permits.writes p))
            (listening sv) (<[k := Handshake]> (connections sv)))
    end.

Definition handshake_failed (k : nat) (sv : Server_) : option Server_ :=
  match connections sv !! k with
  | Some Handshake =>
      let p := permits sv in
      Some (MkServer (shared sv)
        (Permits.Mk (Permits.requests p) (Permits.connections p + 1) (Permits.reads p) (Permits.writes p))
        (listening sv) (delete k (connections sv)))
  | _ => None
  end.

Definition handshake_done (k : nat) (peer : IpAddr) (session : Z) (sv : Server_) : option Server_ :=
  match connections sv !! k with
  | Some Handshake =>
      if decide (session_in_use session sv) then None
      else
        Some (set_connection k (Established (Connection.Mk session peer
          (session_nodes_new (serve_limits c)) false ConnectionAuth.default
          (Serve.max_in_flight_write_bytes_per_connection c) None ∅ ∅)) sv)
  | _ => None
  end.

Definition established (sv : Server_) (k : nat) : option Connection :=
  match connections sv !! k with Some (Established cn) => Some cn | _ => None end.

Definition set_accepted (a : option (Envelope Request * list Z)) (cn : Connection) : Connection :=
  Connection.Mk (Connection.session cn) (Connection.peer_ip cn) (Connection.nodes cn)
    (Connection.write_authorized cn) (Connection.auth cn) (Connection.write_permits cn) a
    (Connection.request_tasks cn) (Connection.detached cn).
Definition set_tasks (writes : Z) (tasks : gmap nat RequestTask) (cn : Connection) : Connection :=
  Connection.Mk (Connection.session cn) (Connection.peer_ip cn) (Connection.nodes cn)
    (Connection.write_authorized cn) (Connection.auth cn) writes (Connection.accepted cn) tasks
    (Connection.detached cn).

(** [connection.accept_bi()]; the loop takes the next stream only when the
    request of the last one has its permit or was given up. *)
Definition accept_stream (k : nat) (request : Envelope Request) (body : list Z) (sv : Server_)
    : option Server_ :=
  cn ← established sv k;
  match Connection.accepted cn with
  | Some _ => None
  | None => Some (set_connection k (Established (set_accepted (Some (request, body)) cn)) sv)
  end.

(** [permits.acquire_owned()] within the request timeout, and [request_tasks.spawn]. *)
Definition acquire_permit (k r : nat) (sv : Server_) : option Server_ :=
  cn ← established sv k;
  match Connection.accepted cn, Connection.request_tasks cn !! r, Connection.detached cn !! r with
  | Some (request, body), None, None =>
      let p := permits sv in
      if Permits.requests p <=? 0 then None
      else
        let task := RequestTask.Mk request body Budget.none None in
        let tasks := <[r := task]> (Connection.request_tasks cn) in
        Some (MkServer (shared sv)
          (Permits.Mk (Permits.requests p - 1) (Permits.connections p) (Permits.reads p) (Permits.writes p))
          (listening sv)
          (<[k := Established (set_accepted None (set_tasks (Connection.write_permits cn) tasks cn))]>
             (connections sv)))
  | _, _, _ => None
  end.

Definition permit_timed_out (k : nat) (sv : Server_) : option Server_ :=
  cn ← established sv k;
  match Connection.accepted cn with
  | Some _ => Some (set_connection k (Established (set_accepted None cn)) sv)
  | None => None
  end.

(** ** Requests *)

Definition session_of (sv : Server_) (cn : Connection) : Session H :=
  let s := shared sv in
  MkSession (MkRegState (Shared.registry s) (Connection.nodes cn)) (Shared.handle_permits s)
    (Shared.locks s) (Shared.volume_name s) (Connection.write_authorized cn) (Shared.host s).

(** The bytes of a read, or of a write, that passes the checks of [handle] before
    it takes the permits for them. *)
Definition read_length (cn : Connection) (e : Envelope Request) : option Z :=
  match Envelope.message e with
  | Request.ReadRange _ offset length | Request.GetXattr _ _ offset length =>
      if negb (ConnectionAuth.authenticated (Connection.auth cn)) || (Serve.max_read_size c <? length) ||
         bool_decide (u64_checked_add offset length = None) || (length >? u32_max) then None
      else Some length
  | _ => None
  end.
Definition write_length (cn : Connection) (e : Envelope Request) : option Z :=
  let refused := negb (ConnectionAuth.authenticated (Connection.auth cn)) ||
    negb (Serve.allow_writes c && Connection.write_authorized cn) in
  match Envelope.message e with
  | Request.WriteRange _ offset length =>
      if refused || (Serve.max_write_size c <? length) || bool_decide (u64_checked_add offset length = None) ||
         (length >? u32_max) then None
      else Some length
  | Request.SetXattr _ _ _ _ length =>
      if refused || (Serve.max_write_size c <? length) || (length >? u32_max) then None else Some length
  | _ => None
  end.
Definition bytes_needed (cn : Connection) (e : Envelope Request) : Budget :=
  if negb (version_major (Envelope.version e) =? PROTOCOL_MAJOR) then Budget.none
  else Budget.Mk (default 0 (read_length cn e)) (default 0 (write_length cn e)).

(** The free permits are enough for [b]. *)
Definition enough (p : Permits) (cn : Connection) (b : Budget) : bool :=
  (Budget.reads b <=? Permits.reads p) && (Budget.writes b <=? Permits.writes p) &&
  (Budget.writes b <=? Connection.write_permits cn).

Definition take_bytes (b : Budget) (p : Permits) : Permits :=
  Permits.Mk (Permits.requests p) (Permits.connections p) (Permits.reads p - Budget.reads b)
    (Permits.writes p - Budget.writes b).

Definition set_budget (b : Budget) (t : RequestTask) : RequestTask :=
  RequestTask.Mk (RequestTask.request t) (RequestTask.body t) b (RequestTask.answer t).

(** [acquire_many_owned] of the read permits, or [try_acquire_many_owned] of both
    kinds of write permits. *)
Definition acquire_bytes (k r : nat) (sv : Server_) : option Server_ :=
  cn ← established sv k;
  t ← Connection.request_tasks cn !! r;
  let b := bytes_needed cn (RequestTask.request t) in
  if bool_decide (RequestTask.budget t = Budget.none) && bool_decide (RequestTask.answer t = None) &&
     enough (permits sv) cn b then
    Some (MkServer (shared sv) (take_bytes b (permits sv)) (listening sv)
      (<[k := Established (set_tasks (Connection.write_permits cn - Budget.writes b)
                (<[r := set_budget b t]> (Connection.request_tasks cn)) cn)]> (connections sv)))
  else None.

(** The requests that may be verifying a password. *)
Definition authenticating (t : RequestTask) : Z :=
  match Envelope.message (RequestTask.request t), RequestTask.answer t with
  | Request.Authenticate _ _, None => 1
  | _, _ => 0
  end.
Definition connection_sum (f : Connection → Z) (t : ConnectionTask) : Z :=
  match connection_of t with None => 0 | Some cn => f cn end.
Definition server_sum (f : Connection → Z) (sv : Server_) : Z := map_sum (connection_sum f) (connections sv).
Definition task_sum (f : RequestTask → Z) (cn : Connection) : Z := map_sum f (Connection.request_tasks cn).

(** The context of a request, with the permits that no other request holds;
    [verifying] passwords are being verified by others. *)
Definition request_context (sv : Server_) (cn : Connection) (b : Budget) (verifying : Z) : RequestContext H F :=
  MkContext (session_of sv cn) (Shared.auth_root (shared sv)) (Connection.auth cn)
    (Shared.auth_limiter (shared sv)) (Serve.max_concurrent_auth c - verifying)
    (Permits.reads (permits sv) + Budget.reads b) (Permits.writes (permits sv) + Budget.writes b)
    (Connection.write_permits cn + Budget.writes b).

(** The shared state and the connection after a request. *)
Definition shared_after (x : RequestContext H F) : Shared H F :=
  let s := export x in
  Shared.Mk (registry (Session.nodes s)) (handle_permits s) (locks s) (volume_name s) (host s)
    (auth_root x) (auth_limiter x).
Definition connection_after (x : RequestContext H F) (writes : Z) (tasks : gmap nat RequestTask) (cn : Connection)
    : Connection :=
  Connection.Mk (Connection.session cn) (Connection.peer_ip cn) (session_nodes (Session.nodes (export x)))
    (write_authorized (export x)) (auth_state x) writes (Connection.accepted cn) tasks (Connection.detached cn).

Abbreviation handle session peer_ip := (handle sha256 b64_encode b64_decode major minor stable_node_id
  hash_order fresh_handle (export_config session) users_from_json pairing_from_json hmac_sha256
  uuid_bytes uuid_text hex_encode record_to_json node_key persistence root fingerprint peer_ip
  response_to entry_to zstd_compress decimal).

(** A request runs.  When the permits for its bytes are free it takes them first;
    without them [handle] refuses a write and waits with a read.  The permits of
    a write are dropped with the arm of the [match]. *)
Definition handled (k r : nat) (d : Draws) (verifying : Z) (sv : Server_) : option Server_ :=
  let sv := default sv (acquire_bytes k r sv) in
  cn ← established sv k;
  t ← Connection.request_tasks cn !! r;
  if bool_decide (RequestTask.answer t = None) && (0 <=? verifying) &&
     (verifying <=? server_sum (task_sum authenticating) sv - authenticating t) then
    let '(outcome, x) :=
      handle (Connection.session cn) (Connection.peer_ip cn) d (RequestTask.request t) (RequestTask.body t)
        (request_context sv cn (RequestTask.budget t) verifying) in
    let b := RequestTask.budget t in
    let t := RequestTask.Mk (RequestTask.request t) (RequestTask.body t) (Budget.Mk (Budget.reads b) 0) (Some outcome) in
    Some (MkServer (shared_after x) (take_bytes (Budget.Mk 0 (- Budget.writes b)) (permits sv)) (listening sv)
      (<[k := Established (connection_after x (Connection.write_permits cn + Budget.writes b)
                (<[r := t]> (Connection.request_tasks cn)) cn)]> (connections sv)))
  else None.

(** A read that failed has dropped its permit; one that succeeded keeps it in
    [read_permit] until the data is sent. *)
Definition release_bytes (k r : nat) (sv : Server_) : option Server_ :=
  cn ← established sv k;
  t ← Connection.request_tasks cn !! r;
  match RequestTask.answer t with
  | Some (Ok (_, [])) | Some (Err _) =>
      let b := RequestTask.budget t in
      Some (MkServer (shared sv) (take_bytes (Budget.Mk (- Budget.reads b) (- Budget.writes b)) (permits sv)) (listening sv)
        (<[k := Established (set_tasks (Connection.write_permits cn + Budget.writes b)
                  (<[r := set_budget Budget.none t]> (Connection.request_tasks cn)) cn)]> (connections sv)))
  | _ => None
  end.

(** ** The end of a request *)

(** The body of the write has arrived, with the permits for it, and its task is
    spawned. *)
Definition write_spawned (cn : Connection) (t : RequestTask) : bool :=
  match write_length cn (RequestTask.request t), RequestTask.answer t with
  | Some length, None =>
      (version_major (Envelope.version (RequestTask.request t)) =? PROTOCOL_MAJOR) &&
      bool_decide (RequestTask.budget t = Budget.Mk 0 length) && (length <=? zlen (RequestTask.body t))
  | _, _ => false
  end.

Definition set_detached (tasks : gmap nat RequestTask) (cn : Connection) : Connection :=
  Connection.Mk (Connection.session cn) (Connection.peer_ip cn) (Connection.nodes cn)
    (Connection.write_authorized cn) (Connection.auth cn) (Connection.write_permits cn) (Connection.accepted cn)
    (Connection.request_tasks cn) tasks.

Definition release_task (b : Budget) (p : Permits) : Permits :=
  Permits.Mk (Permits.requests p + 1) (Permits.connections p) (Permits.reads p + Budget.reads b)
    (Permits.writes p + Budget.writes b).

(** The task ends: its answer is sent, it failed, the request timeout is over, or
    [abort_all].  With [spawned] its write goes on without it. *)
Definition end_request (k r : nat) (spawned : bool) (sv : Server_) : option Server_ :=
  cn ← established sv k;
  t ← Connection.request_tasks cn !! r;
  let tasks := delete r (Connection.request_tasks cn) in
  if spawned then
    if write_spawned cn t then
      Some (MkServer (shared sv) (release_task Budget.none (permits sv)) (listening sv)
        (<[k := Established (set_detached (<[r := t]> (Connection.detached cn))
                  (set_tasks (Connection.write_permits cn) tasks cn))]> (connections sv)))
    else None
  else
    let b := RequestTask.budget t in
    Some (MkServer (shared sv) (release_task b (permits sv)) (listening sv)
      (<[k := Established (set_tasks (Connection.write_permits cn + Budget.writes b) tasks cn)]>
         (connections sv))).

(** ** The end of a session *)

Definition with_session (s : Session H) (sh : Shared H F) : Shared H F :=
  Shared.Mk (registry (Session.nodes s)) (handle_permits s) (locks s) (volume_name s) (host s)
    (Shared.auth_root sh) (Shared.auth_limiter sh).

(** The last reference to the session is dropped. *)
Definition drop_drained (k : nat) (cn : Connection) (sv : Server_) : Server_ :=
  let s := (drop_session hash_order (export_config (Connection.session cn)) (session_of sv cn)).2 in
  MkServer (with_session s (shared sv)) (permits sv) (listening sv) (delete k (connections sv)).

(** [export.write_owned] or [export.set_xattr] of a spawned write. *)
Definition spawned_write (cfg : ExportConfig) (t : RequestTask) : SS (H:=H) unit :=
  let data length := take (Z.to_nat length) (RequestTask.body t) in
  match Envelope.message (RequestTask.request t) with
  | Request.WriteRange handle offset length =>
      _ ← write_owned sha256 cfg handle offset (data length); mret tt
  | Request.SetXattr node name mode position length =>
      set_xattr b64_encode stable_node_id hash_order cfg node name (data length) mode position
  | _ => mret tt
  end.

(** A detached write is done: its memory and its session are dropped. *)
Definition finish_detached (k r : nat) (sv : Server_) : option Server_ :=
  task ← connections sv !! k;
  cn ← connection_of task;
  t ← Connection.detached cn !! r;
  let s := (spawned_write (export_config (Connection.session cn)) t (session_of sv cn)).2 in
  let b := RequestTask.budget t in
  let cn := Connection.Mk (Connection.session cn) (Connection.peer_ip cn) (session_nodes (Session.nodes s))
    (Connection.write_authorized cn) (Connection.auth cn) (Connection.write_permits cn + Budget.writes b)
    (Connection.accepted cn) (Connection.request_tasks cn) (delete r (Connection.detached cn)) in
  let sv := MkServer (with_session s (shared sv)) (take_bytes (Budget.Mk 0 (- Budget.writes b)) (permits sv))
    (listening sv) (<[k := with_connection task cn]> (connections sv)) in
  match task with
  | Draining _ => Some (if bool_decide (Connection.detached cn = ∅) then drop_drained k cn sv else sv)
  | _ => Some sv
  end.

(** [accept_bi] failed: when the requests are aborted and joined, [cleanup_locks];
    the connection permit and the session are dropped. *)
Definition end_connection (k : nat) (sv : Server_) : option Server_ :=
  cn ← established sv k;
  match Connection.accepted cn with
  | Some _ => None
  | None =>
      if negb (bool_decide (Connection.request_tasks cn = ∅)) then None
      else
        let s := (cleanup_locks (export_config (Connection.session cn)) (session_of sv cn)).2 in
        let p := permits sv in
        let sv := MkServer (with_session s (shared sv))
          (Permits.Mk (Permits.requests p) (Permits.connections p + 1) (Permits.reads p) (Permits.writes p))
          (listening sv) (<[k := Draining cn]> (connections sv)) in
        Some (if bool_decide (Connection.detached cn = ∅) then drop_drained k cn sv else sv)
  end.

(** [shutdown]: the endpoint is closed; the connections end ([ConnectionEnded])
    while [wait_idle] waits for them. *)
Definition shut_down (sv : Server_) : option Server_ :=
  if listening sv then Some (MkServer (shared sv) (permits sv) false (connections sv)) else None.

(** ** Runs *)

Definition step (e : Event) (sv : Server_) : option Server_ :=
  match e with
  | Arrived k => accept_incoming k sv
  | HandshakeFailed k => handshake_failed k sv
  | HandshakeDone k peer session => handshake_done k peer session sv
  | StreamAccepted k request body => accept_stream k request body sv
  | PermitAcquired k r => acquire_permit k r sv
  | PermitTimedOut k => permit_timed_out k sv
  | BytesAcquired k r => acquire_bytes k r sv
  | BytesReleased k r => release_bytes k r sv
  | Handled k r d verifying => handled k r d verifying sv
  | RequestEnded k r spawned => end_request k r spawned sv
  | DetachedDone k r => finish_detached k r sv
  | ConnectionEnded k => end_connection k sv
  | Shutdown => shut_down sv
  end.

Fixpoint run (events : list Event) (sv : Server_) : option Server_ :=
  match events with
  | [] => Some sv
  | e :: events' => sv' ← step e sv; run events' sv'
  end.

(** ** Open files *)

Abbreviation Process_ := (Process H F).

Definition process_start (root_identity : FileIdentity) (name : list Z) (h : H) (f : F) : Process_ :=
  MkProcess (serve_start root_identity name h f) ∅ [].

(** [ExportSession::handles]. *)
Definition file_table (sv : Server_) (k : nat) : gmap FileHandle OpenFile :=
  match connections sv !! k ≫= connection_of with
  | Some cn => handles (Connection.nodes cn)
  | None => ∅
  end.

(** What a request, or a write without its request, has still to do. *)
Definition unanswered (sv : Server_) (k r : nat) : option Request :=
  task ← connections sv !! k;
  cn ← connection_of task;
  t ← match Connection.request_tasks cn !! r with
      | Some t => Some t
      | None => Connection.detached cn !! r
      end;
  match RequestTask.answer t with
  | None => Some (Envelope.message (RequestTask.request t))
  | Some _ => None
  end.

(** [entry.clone()] of [open_handle], [opened.clone()] for a closure. *)
Definition clone_file (k r : nat) (handle : FileHandle) (clone : nat) (p : Process_) : option Process_ :=
  message ← unanswered (server p) k r;
  if bool_decide (handle ∈ handles_named message) && bool_decide (handle ∈ dom (file_table (server p) k)) &&
     bool_decide (clone ∉ dom (clones p) ∪ ⋃ orphans p) then
    Some (MkProcess (server p) (<[clone := (k, handle)]> (clones p)) (orphans p))
  else None.

Definition add_permits (n : Z) (sv : Server_) : Server_ :=
  let s := shared sv in
  MkServer (Shared.Mk (Shared.registry s) (Shared.handle_permits s + n) (Shared.locks s) (Shared.volume_name s)
    (Shared.host s) (Shared.auth_root s) (Shared.auth_limiter s)) (permits sv) (listening sv) (connections sv).

(** The groups of references without [clone]; a file without one is dropped. *)
Definition without_clone (clone : nat) (files : list (gset nat)) : list (gset nat) :=
  filter (λ file, file ≠ ∅) ((λ file, file ∖ {[clone]}) <$> files).

(** The end of a closure, or of a request: [Drop] of its reference. *)
Definition drop_clone (clone : nat) (p : Process_) : option Process_ :=
  if decide (clone ∈ dom (clones p)) then
    Some (MkProcess (server p) (delete clone (clones p)) (orphans p))
  else if decide (clone ∈ ⋃ orphans p) then
    let rest := without_clone clone (orphans p) in
    Some (MkProcess (add_permits (zlen (orphans p) - zlen rest) (server p)) (clones p) rest)
  else None.

(** The files that an event takes out of their table: by [close], or with the
    session. *)
Definition closed_files (e : Event) (sv sv' : Server_) : list (nat * FileHandle) :=
  match e with
  | Handled k r _ _ =>
      match unanswered sv k r with
      | Some (Request.CloseFile handle) =>
          if decide (handle ∈ dom (file_table sv k) ∖ dom (file_table sv' k)) then [(k, handle)] else []
      | _ => []
      end
  | ConnectionEnded k | DetachedDone k _ =>
      if decide (connections sv' !! k = None) then (λ handle, (k, handle)) <$> elements (dom (file_table sv k))
      else []
  | _ => []
  end.

(** A closed file to which there are references keeps its permit. *)
Definition references (p : Process_) (file : nat * FileHandle) : gset nat :=
  dom (filter (λ clone, clone.2 = file) (clones p)).
Definition keep_referenced (closed : list (nat * FileHandle)) (p : Process_) (sv' : Server_) : Process_ :=
  let kept := filter (λ file, file ≠ ∅) (references p <$> closed) in
  MkProcess (add_permits (- zlen kept) sv') (filter (λ clone, clone.2 ∉ closed) (clones p)) (kept ++ orphans p).

Definition process_step (e : ProcessEvent) (p : Process_) : option Process_ :=
  match e with
  | Loop e =>
      sv' ← step e (server p);
      Some (keep_referenced (closed_files e (server p) sv') p sv')
  | Cloned k r handle clone => clone_file k r handle clone p
  | CloneDropped clone => drop_clone clone p
  end.

Fixpoint process_run (events : list ProcessEvent) (p : Process_) : option Process_ :=
  match events with
  | [] => Some p
  | e :: events' => p' ← process_step e p; process_run events' p'
  end.
End serve.
