(* ===== verification/ServeLoopFacts.v ===== *)
(** What holds in every state that the daemon's loop reaches, however its
    connections and requests interleave, time out or are aborted. *)

From S2P Require Import Prelude Protocol Common StateFiles Auth AuthFacts RateLimiter Transport ViewStream Locks Registry XattrNames FileIO Attributes HostDirs Forks Session RegistryPaths HostFacts SessionFacts SessionSafety ExportState Daemon DaemonFacts ServeLoop.

(** * The end of a session *)

Section registry.
Context (stable_node_id : FileIdentity → NodeId) (limits : Limits) (hash_order : gset NodeId → list NodeId).

(** The part of the registry invariant that sessions share. *)
Record registry_ok (r : NodeRegistry) : Prop := {
  ro_maps : registry_maps stable_node_id r;
  ro_paths : registry_paths r;
  ro_budget : global_budget limits 0 r;
  ro_names : paths_ok valid_name r
}.

Lemma registry_ok_reg r n :
  registry_ok r ∧ session_ok limits 0 n ↔
  reg_inv stable_node_id limits 0 0 (MkRegState r n) ∧ paths_ok valid_name r.
Proof.
  split; [intros [[] ?]; by split_and!|].
  intros [(? & ? & ? & ?) ?]. split; [by split|done].
Qed.

(** Releasing a reference needs nothing of the session. *)
Lemma release_keeps n node :
  sm_keeps (λ st, registry_ok (registry st) ∧ session_nodes st = n) (release_node_reference node).
Proof.
  intros st [Hr Hn]. unfold release_node_reference. case_match; [done|]. sm_unfold. simpl.
  destruct (by_node (registry st) !! node) as [k|] eqn:Hk; [|done]. case_match; [|done]. simpl.
  split; [|done]. destruct Hr as [Hm Hp Hb Hv]. split.
  - eapply registry_update; try done. simpl. intros ->.
    destruct Hm as [_ _ _ (kr & ? & ? & ?)]. by simplify_eq.
  - apply registry_update_paths; [simpl; eauto|done].
  - by eapply registry_update_budget.
  - apply paths_ok_insert; [|done]. simpl. eauto.
Qed.

Lemma release_all_ignoring_keeps n l :
  sm_keeps (λ st, registry_ok (registry st) ∧ session_nodes st = n) (release_all_ignoring l).
Proof.
  induction l as [|node l IH]; simpl; [auto with sm|].
  apply sm_keeps_bind; [apply sm_keeps_try, release_keeps|done].
Qed.

Lemma handles_remove_all l s : handles (foldr session_remove s l) = handles s.
Proof. induction l as [|n l IH]; simpl; [done|]. by rewrite handles_session_remove. Qed.

Lemma drop_session_nodes_effect st :
  registry_ok (registry st) →
  let st' := (drop_session_nodes hash_order st).2 in
  registry_ok (registry st') ∧ handles (session_nodes st') = handles (session_nodes st).
Proof.
  intros Hr. unfold drop_session_nodes. sm_unfold. unfold upd_session. cbn [fst snd].
  match goal with |- context [release_all_ignoring ?l ?x] =>
    destruct (release_all_ignoring_keeps (session_nodes x) l x) as [Hr' Hn]; [done|] end.
  split; [exact Hr'|]. rewrite Hn. apply handles_remove_all.
Qed.

(** [Drop] of a session gives its handles back; it leaves files alone. *)
Lemma drop_session_effect {H} (cfg : ExportConfig) (s : Session H) :
  registry_ok (registry (nodes s)) →
  let s' := (drop_session hash_order cfg s).2 in
  registry_ok (registry (nodes s')) ∧
  handle_permits s' = handle_permits s + Z.of_nat (size (handles (session_nodes (nodes s)))) ∧
  locks s' = (remove_locks (locks s) (λ record, LockRecord.session record =? session_id cfg)).2 ∧
  host s' = host s.
Proof.
  intros Hr. unfold drop_session, cleanup_locks, remove_session_locks. sm_unfold. simpl.
  destruct (drop_session_nodes_effect (nodes s) Hr) as [Hr' Hh].
  unfold reg. destruct (drop_session_nodes hash_order _) as [x st]. simpl in *.
  split_and!; [done|by rewrite Hh|done|done].
Qed.

Lemma cleanup_locks_effect {H} (cfg : ExportConfig) (s : Session H) :
  let s' := (cleanup_locks cfg s).2 in
  nodes s' = nodes s ∧ handle_permits s' = handle_permits s ∧ host s' = host s ∧
  locks s' = (remove_locks (locks s) (λ record, LockRecord.session record =? session_id cfg)).2.
Proof. by split_and!. Qed.

Lemma remove_session_spec session l r :
  r ∈ (remove_locks l (λ record, LockRecord.session record =? session)).2 ↔
  r ∈ l ∧ LockRecord.session r ≠ session.
Proof. unfold remove_locks. simpl. rewrite elem_of_filter_list, negb_true_iff, Z.eqb_neq. tauto. Qed.
End registry.

(** * The invariant *)

(** Numbers as the decoder yields them, and names that [handle] draws. *)
Definition wf_request (m : Request) : Prop :=
  match m with
  | Request.SetLock _ lock _ => 0 ≤ FileLock.start lock ∧ FileLock.end_ lock ≤ u64_max
  | Request.ReadRange _ _ length | Request.GetXattr _ _ _ length
  | Request.WriteRange _ _ length | Request.SetXattr _ _ _ _ length => 0 ≤ length
  | _ => True
  end.
Definition wf_event (e : Event) : Prop :=
  match e with
  | StreamAccepted _ request _ => wf_request (Envelope.message request)
  | Handled _ _ d _ => valid_name (Draws.exchange_name d)
  | _ => True
  end.

(** The session of some established connection. *)
Definition live (conns : gmap nat ConnectionTask) (session : Z) : Prop :=
  ∃ k cn, conns !! k = Some (Established cn) ∧ Connection.session cn = session.

(** What a connection holds of the shared permits. *)
Definition open_handles (cn : Connection) : Z := Z.of_nat (size (handles (Connection.nodes cn))).
Definition running (cn : Connection) : Z := task_sum (λ _, 1) cn.
Definition held_reads (cn : Connection) : Z := task_sum (λ t, Budget.reads (RequestTask.budget t)) cn.
Definition task_writes (t : RequestTask) : Z := Budget.writes (RequestTask.budget t).
Definition held_writes (cn : Connection) : Z :=
  task_sum task_writes cn + map_sum task_writes (Connection.detached cn).
(** A connection that only drains has no permit of its own. *)
Definition connection_permit (t : ConnectionTask) : Z :=
  match t with Draining _ => 0 | _ => 1 end.

Lemma sum_update {V f} {conns : gmap nat V} {k t} t' :
  conns !! k = Some t → map_sum f (<[k := t']> conns) = map_sum f conns - f t + f t'.
Proof. intros Hk. rewrite map_sum_overwrite, Hk. lia. Qed.

Lemma connection_of_with t cn cn' : connection_of t = Some cn → connection_of (with_connection t cn') = Some cn'.
Proof. by destruct t. Qed.
Lemma sum_of f t cn : connection_of t = Some cn → connection_sum f t = f cn.
Proof. unfold connection_sum. by intros ->. Qed.
Lemma permit_with t cn' : connection_permit (with_connection t cn') = connection_permit t.
Proof. by destruct t. Qed.

Lemma live_with conns k t cn cn' s :
  conns !! k = Some t → connection_of t = Some cn → Connection.session cn' = Connection.session cn →
  live conns s → live (<[k := with_connection t cn']> conns) s.
Proof.
  intros Hk Ht Hs (j & cj & Hj & <-). destruct (decide (k = j)) as [->|].
  - simplify_eq. simpl in Ht. simplify_eq. exists j, cn'. split; [apply lookup_insert_eq|done].
  - exists j, cj. by rewrite lookup_insert_ne.
Qed.

Section invariant.
Context {H F : Type} (stable_node_id : FileIdentity → NodeId) (c : Serve) (I : H → Prop) (rw : bool).

(** The handle permits that are free or belong to a file in a table. *)
Context (total : Z).

(** Of the shared state: the registry, the locks, which all belong to a live
    session, the handles. *)
Record shared_ok (sh : Shared H F) (conns : gmap nat ConnectionTask) : Prop := {
  sk_registry : registry_ok stable_node_id (serve_limits c) (Shared.registry sh);
  sk_locks : lock_inv (Shared.locks sh);
  sk_owned : owned (live conns) (Shared.locks sh);
  sk_host : I (Shared.host sh);
  sk_permits : 0 ≤ Shared.handle_permits sh;
  sk_handles : Shared.handle_permits sh + map_sum (connection_sum open_handles) conns = total
}.

(** Of the semaphores: every permit is free or held by a task that is there. *)
Record permits_ok (p : Permits) (conns : gmap nat ConnectionTask) : Prop := {
  pk_free : 0 ≤ Permits.requests p ∧ 0 ≤ Permits.connections p ∧ 0 ≤ Permits.reads p ∧ 0 ≤ Permits.writes p;
  pk_requests : Permits.requests p + map_sum (connection_sum running) conns = Serve.max_concurrent_requests c;
  pk_connections : Permits.connections p + map_sum connection_permit conns = Serve.max_concurrent_connections c;
  pk_reads : Permits.reads p + map_sum (connection_sum held_reads) conns = Serve.max_in_flight_read_bytes c;
  pk_writes : Permits.writes p + map_sum (connection_sum held_writes) conns = Serve.max_in_flight_write_bytes c
}.

Definition task_ok (t : RequestTask) : Prop :=
  wf_request (Envelope.message (RequestTask.request t)) ∧
  0 ≤ Budget.reads (RequestTask.budget t) ∧ 0 ≤ Budget.writes (RequestTask.budget t).
Definition tasks_ok (tasks : gmap nat RequestTask) : Prop := map_Forall (λ _, task_ok) tasks.

(** Of one connection. *)
Record connection_ok (cn : Connection) : Prop := {
  ck_nodes : session_ok (serve_limits c) 0 (Connection.nodes cn);
  ck_grant : Serve.allow_writes c && Connection.write_authorized cn = true → rw = true;
  ck_free : 0 ≤ Connection.write_permits cn;
  ck_writes : Connection.write_permits cn + held_writes cn = Serve.max_in_flight_write_bytes_per_connection c;
  ck_accepted : ∀ request body, Connection.accepted cn = Some (request, body) → wf_request (Envelope.message request);
  ck_tasks : tasks_ok (Connection.request_tasks cn);
  ck_detached : tasks_ok (Connection.detached cn);
  ck_names : Connection.request_tasks cn ##ₘ Connection.detached cn
}.

Record connections_ok (conns : gmap nat ConnectionTask) : Prop := {
  ck_each : ∀ k t cn, conns !! k = Some t → connection_of t = Some cn → connection_ok cn;
  ck_distinct : ∀ k k' t t' cn cn', conns !! k = Some t → conns !! k' = Some t' →
    connection_of t = Some cn → connection_of t' = Some cn' → Connection.session cn = Connection.session cn' → k = k';
  ck_drained : ∀ k cn, conns !! k = Some (Draining cn) → Connection.request_tasks cn = ∅
}.

Record server_ok (sv : Server H F) : Prop := {
  vk_shared : shared_ok (shared sv) (connections sv);
  vk_permits : permits_ok (permits sv) (connections sv);
  vk_connections : connections_ok (connections sv)
}.

(** ** Changes of one connection *)

Lemma shared_ok_with {sh conns k t cn} cn' :
  conns !! k = Some t → connection_of t = Some cn → Connection.session cn' = Connection.session cn →
  open_handles cn' = open_handles cn → shared_ok sh conns → shared_ok sh (<[k := with_connection t cn']> conns).
Proof.
  intros Hk Ht Hs Hh []. split; try done.
  - intros r Hr. eapply live_with; eauto.
  - rewrite (sum_update _ Hk), (sum_of _ _ _ Ht), (sum_of _ _ _ (connection_of_with _ _ cn' Ht)). lia.
Qed.

Lemma connections_ok_with {conns k t cn} cn' :
  conns !! k = Some t → connection_of t = Some cn → Connection.session cn' = Connection.session cn →
  (Connection.request_tasks cn = ∅ → Connection.request_tasks cn' = ∅) ∨ t = Established cn →
  connection_ok cn' → connections_ok conns → connections_ok (<[k := with_connection t cn']> conns).
Proof.
  intros Hk Ht Hs Hd Hcn' [He Hdist Hdr]. pose proof (connection_of_with _ _ cn' Ht) as Ht'. split.
  - intros j tj cj [[<- <-]|[_ Hj]]%lookup_insert_Some Hcj; [by simplify_eq|by eapply He].
  - intros i j ti tj ci cj [[<- <-]|[? Hi]]%lookup_insert_Some [[<- <-]|[? Hj]]%lookup_insert_Some Hci Hcj E;
      [done|..|by eapply Hdist]; simplify_eq; rewrite Hs in E; by eapply Hdist.
  - intros j cj [[<- E]|[_ Hj]]%lookup_insert_Some; [|by eapply Hdr].
    destruct t as [| |d]; simpl in E; try done. simpl in Ht. simplify_eq. destruct Hd as [Hd|]; [|done].
    by apply Hd, (Hdr k).
Qed.

(** A change that moves [dr] requests, [dx] read bytes and [dw] write bytes from
    the semaphores to the connection. *)
Lemma permits_ok_with dr dx dw {p conns k t cn} p' cn' :
  conns !! k = Some t → connection_of t = Some cn → running cn' = running cn + dr →
  held_reads cn' = held_reads cn + dx → held_writes cn' = held_writes cn + dw →
  p' = Permits.Mk (Permits.requests p - dr) (Permits.connections p) (Permits.reads p - dx) (Permits.writes p - dw) →
  0 ≤ Permits.requests p - dr → 0 ≤ Permits.reads p - dx → 0 ≤ Permits.writes p - dw →
  permits_ok p conns → permits_ok p' (<[k := with_connection t cn']> conns).
Proof.
  intros Hk Ht Hr Hx Hw -> ? ? ? [(? & ? & ? & ?) ? ? ? ?].
  pose proof (sum_of running _ _ Ht). pose proof (sum_of held_reads _ _ Ht). pose proof (sum_of held_writes _ _ Ht).
  pose proof (connection_of_with _ _ cn' Ht) as Ht'.
  split; cbn [Permits.requests Permits.connections Permits.reads Permits.writes]; [by split_and!|..];
    rewrite (sum_update _ Hk), ?permit_with, ?(sum_of _ _ _ Ht'); lia.
Qed.

(** Nothing of the permits moves. *)
Lemma server_ok_with {sv : Server H F} {k t cn} cn' :
  connections sv !! k = Some t → connection_of t = Some cn → Connection.session cn' = Connection.session cn →
  open_handles cn' = open_handles cn → Connection.request_tasks cn' = Connection.request_tasks cn →
  Connection.detached cn' = Connection.detached cn → (connection_ok cn → connection_ok cn') →
  server_ok sv → server_ok (set_connection k (with_connection t cn') sv).
Proof.
  intros Hk Ht Hs Hh Hr Hd Hcn [Hsh Hp Hc]. split; cbn [set_connection shared permits connections].
  - by eapply shared_ok_with.
  - pose proof (pk_free _ _ Hp) as (? & ? & ? & ?). eapply (permits_ok_with 0 0 0 _ _ Hk Ht); [..|exact Hp]; try done; try lia;
      unfold running, held_reads, held_writes, task_sum; rewrite ?Hr, ?Hd; try lia.
    destruct (permits sv); simpl; f_equal; lia.
  - eapply connections_ok_with; eauto; [left; by rewrite Hr|]. by eapply Hcn, ck_each.
Qed.

(** ** Events of the loop *)

Lemma established_lookup (sv : Server H F) k cn :
  established sv k = Some cn ↔ connections sv !! k = Some (Established cn).
Proof. unfold established. destruct (connections sv !! k) as [[]|]; naive_solver. Qed.

(** A task without a connection comes or goes. *)
Lemma server_ok_handshake (sv : Server H F) k (conns : gmap nat ConnectionTask) n :
  (∀ j t, t ≠ Handshake → conns !! j = Some t ↔ connections sv !! j = Some t) →
  (∀ g, g Handshake = 0 → map_sum g conns = map_sum g (connections sv)) →
  map_sum connection_permit conns = map_sum connection_permit (connections sv) + n →
  n ≤ Permits.connections (permits sv) → server_ok sv →
  server_ok (MkServer (shared sv)
    (Permits.Mk (Permits.requests (permits sv)) (Permits.connections (permits sv) - n)
       (Permits.reads (permits sv)) (Permits.writes (permits sv))) k conns).
Proof.
  intros Hj Hsum Hn Hle [[] [(? & ? & ? & ?) ? ? ? ?] [He Hd Hdr]].
  split; [split| |split]; simpl; try done; rewrite ?Hsum by done; try done.
  - intros r (j & cj & Hcj & Hs)%sk_owned0. exists j, cj. by rewrite Hj.
  - split; simpl; rewrite ?Hsum by done; lia.
  - intros j [|cn|cn] cj E; [done|..]; rewrite Hj in E by done; by eapply He.
  - intros i j ti tj ci cj Hi Hj' Hci Hcj. rewrite Hj in Hi by (by intros ->). rewrite Hj in Hj' by (by intros ->).
    by eapply Hd.
  - intros j cj E. rewrite Hj in E by done. by eapply Hdr.
Qed.

Lemma accept_incoming_ok k sv sv' : accept_incoming k sv = Some sv' → server_ok sv → server_ok sv'.
Proof.
  unfold accept_incoming. destruct (negb _); [done|].
  destruct (connections sv !! k) as [t|] eqn:Hk; [done|]. destruct (_ <=? 0) eqn:E; [by intros [= <-]|].
  bool_simpl. intros [= <-] Hsv. apply (server_ok_handshake sv); [| | |lia|done].
  - intros j t Ht. rewrite lookup_insert_Some. split; [by intros [[_ ?]|[_ ?]]|]. intros Hj. right.
    split; [by intros ->; rewrite Hk in Hj|done].
  - intros g Hg. by rewrite map_sum_insert, Hg.
  - rewrite map_sum_insert by done. simpl. lia.
Qed.

Lemma handshake_failed_ok k sv sv' : handshake_failed k sv = Some sv' → server_ok sv → server_ok sv'.
Proof.
  unfold handshake_failed. destruct (connections sv !! k) as [[| |]|] eqn:Hk; try done.
  intros [= <-] Hsv. replace (Permits.connections (permits sv) + 1) with (Permits.connections (permits sv) - (-1)) by lia.
  pose proof (pk_free _ _ (vk_permits _ Hsv)).
  apply (server_ok_handshake sv); [| | |lia|done].
  - intros j t Ht. rewrite lookup_delete_Some. split; [by intros [_ ?]|]. intros Hj.
    split; [intros ->; rewrite Hk in Hj; by injection Hj as <-|done].
  - intros g Hg. rewrite map_sum_delete_lookup, Hk, Hg. lia.
  - rewrite map_sum_delete_lookup, Hk. simpl. lia.
Qed.

Lemma shut_down_ok (sv sv' : Server H F) : shut_down sv = Some sv' → server_ok sv → server_ok sv'.
Proof. unfold shut_down. destruct (listening sv); [|done]. by intros [= <-] []. Qed.

Context (known_positive : 1 ≤ Serve.max_known_nodes_per_connection c)
  (writes_positive : 0 ≤ Serve.max_in_flight_write_bytes_per_connection c).

Lemma session_nodes_new_ok : session_ok (serve_limits c) 0 (session_nodes_new (serve_limits c)).
Proof.
  unfold session_nodes_new, u64_saturating_sub. split; simpl.
  - apply lookup_singleton_eq.
  - by intros n p [<- _]%lookup_singleton_Some.
  - lia.
  - rewrite map_size_singleton. lia.
Qed.

Lemma handshake_done_ok k peer session sv sv' :
  handshake_done c k peer session sv = Some sv' → server_ok sv → server_ok sv'.
Proof.
  unfold handshake_done. destruct (connections sv !! k) as [[| |]|] eqn:Hk; try done.
  destruct (decide _) as [|Hnew]; [done|]. set (fresh := Connection.Mk _ _ _ _ _ _ _ _ _).
  intros [= <-] [[] [(? & ? & ? & ?) ? ? ? ?] [He Hd Hdr]]. unfold set_connection.
  assert (∀ g, g (Established fresh) = g Handshake → map_sum g (<[k := Established fresh]> (connections sv)) =
    map_sum g (connections sv)) as Hsum.
  { intros g Hg. rewrite (sum_update _ Hk), Hg. lia. }
  assert (∀ j tj cj, connections sv !! j = Some tj → connection_of tj = Some cj → Connection.session cj ≠ session) as Hother.
  { intros j tj cj Hj Htj E. destruct Hnew. exists j, tj. by rewrite Htj. }
  split; [split| |split]; simpl; try done; rewrite ?Hsum by done; try done.
  - intros r (j & cj & Hcj & Hs)%sk_owned0. exists j, cj. rewrite lookup_insert_ne; [done|].
    intros ->. by rewrite Hk in Hcj.
  - split; simpl; rewrite ?Hsum by done; try done.
  - intros j tj cj [[<- <-]|[_ Hj]]%lookup_insert_Some Hcj; [|by eapply He]. injection Hcj as <-. split; simpl; try done.
    + apply session_nodes_new_ok.
    + by rewrite andb_false_r.
    + unfold held_writes, task_sum. simpl. rewrite !map_sum_empty. lia.
  - intros i j ti tj ci cj [[<- <-]|[? Hi]]%lookup_insert_Some [[<- <-]|[? Hj]]%lookup_insert_Some Hci Hcj E;
      [done|..|by eapply Hd].
    + injection Hci as <-. by destruct (Hother _ _ _ Hj Hcj).
    + injection Hcj as <-. by destruct (Hother _ _ _ Hi Hci).
  - intros j cj [[_ ?]|[_ Hj]]%lookup_insert_Some; [done|by eapply Hdr].
Qed.

(** ** Events of a request *)

Lemma accept_stream_ok k request body (sv sv' : Server H F) :
  wf_request (Envelope.message request) →
  accept_stream k request body sv = Some sv' → server_ok sv → server_ok sv'.
Proof.
  intros Hwf. unfold accept_stream. destruct (established sv k) as [cn|] eqn:Hk; [|done].
  apply established_lookup in Hk. cbn [mbind option_bind]. destruct (Connection.accepted cn); [done|].
  intros [= <-]. apply (server_ok_with (set_accepted (Some (request, body)) cn) Hk eq_refl); try done.
  intros []. split; try done. by intros ? ? [= <- <-].
Qed.

Lemma permit_timed_out_ok k (sv sv' : Server H F) :
  permit_timed_out k sv = Some sv' → server_ok sv → server_ok sv'.
Proof.
  unfold permit_timed_out. destruct (established sv k) as [cn|] eqn:Hk; [|done].
  apply established_lookup in Hk. cbn [mbind option_bind]. destruct (Connection.accepted cn); [|done].
  intros [= <-]. apply (server_ok_with (set_accepted None cn) Hk eq_refl); try done. by intros [].
Qed.

Lemma tasks_ok_insert tasks r t : task_ok t → tasks_ok tasks → tasks_ok (<[r := t]> tasks).
Proof. intros Ht Hts. by apply map_Forall_insert_2. Qed.
Lemma tasks_ok_delete tasks r : tasks_ok tasks → tasks_ok (delete r tasks).
Proof. intros Hts. by apply map_Forall_delete. Qed.
Lemma task_wf cn r t : connection_ok cn → Connection.request_tasks cn !! r = Some t → task_ok t.
Proof. intros Hcn Hr. by eapply (ck_tasks _ Hcn). Qed.

(** What [set_tasks] leaves of a connection's invariant to show, [w] permits
    later. *)
Lemma connection_ok_tasks {cn} tasks w :
  connection_ok cn → tasks_ok tasks → tasks ##ₘ Connection.detached cn →
  map_sum task_writes tasks = task_sum task_writes cn + w → 0 ≤ Connection.write_permits cn - w →
  connection_ok (set_tasks (Connection.write_permits cn - w) tasks cn).
Proof. intros [] ? ? Hw ?. split; try done. unfold held_writes, task_sum in *. simpl. lia. Qed.

(** [set_tasks] moves permits between the semaphores and the tasks. *)
Lemma server_ok_tasks {sv : Server H F} {k cn} a tasks dr dx dw p' :
  connections sv !! k = Some (Established cn) → a = Connection.accepted cn ∨ a = None →
  tasks_ok tasks → tasks ##ₘ Connection.detached cn →
  map_sum (λ _, 1) tasks = running cn + dr →
  map_sum (λ t, Budget.reads (RequestTask.budget t)) tasks = held_reads cn + dx →
  map_sum task_writes tasks = task_sum task_writes cn + dw →
  p' = Permits.Mk (Permits.requests (permits sv) - dr) (Permits.connections (permits sv))
    (Permits.reads (permits sv) - dx) (Permits.writes (permits sv) - dw) →
  0 ≤ Permits.requests (permits sv) - dr → 0 ≤ Permits.reads (permits sv) - dx →
  0 ≤ Permits.writes (permits sv) - dw → 0 ≤ Connection.write_permits cn - dw →
  server_ok sv →
  server_ok (MkServer (shared sv) p' (listening sv)
    (<[k := Established (set_accepted a (set_tasks (Connection.write_permits cn - dw) tasks cn))]> (connections sv))).
Proof.
  intros Hk Ha Ht Hdisj Hr Hx Hw -> ? ? ? ? [Hs Hp Hc].
  set (cn' := set_accepted a _). split; cbn [shared permits connections].
  - by apply (shared_ok_with cn' Hk eq_refl).
  - eapply (permits_ok_with dr dx dw _ cn' Hk eq_refl); [..|exact Hp]; try done.
    unfold held_writes, task_sum in *. simpl. lia.
  - apply (connections_ok_with cn' Hk eq_refl); [done|by right| |done].
    pose proof (ck_each _ Hc _ _ _ Hk eq_refl) as Hcn.
    destruct (connection_ok_tasks tasks dw Hcn) as []; try done. split; try done.
    intros ? ? E. destruct Ha as [->| ->]; [by eapply ck_accepted|done].
Qed.

Lemma acquire_permit_ok k r (sv sv' : Server H F) :
  acquire_permit k r sv = Some sv' → server_ok sv → server_ok sv'.
Proof.
  unfold acquire_permit. destruct (established sv k) as [cn|] eqn:Hk; [|done]. apply established_lookup in Hk.
  cbn [mbind option_bind]. destruct (Connection.accepted cn) as [[request body]|] eqn:Ha; [|done].
  destruct (Connection.request_tasks cn !! r) eqn:Hr; [done|].
  destruct (Connection.detached cn !! r) eqn:Hd; [done|]. destruct (_ <=? 0) eqn:Hfree; [done|]. bool_simpl.
  intros [= <-] Hsv. pose proof (pk_free _ _ (vk_permits _ Hsv)) as (? & ? & ? & ?).
  pose proof (ck_each _ (vk_connections _ Hsv) _ _ _ Hk eq_refl) as Hcn. pose proof (ck_free _ Hcn).
  rewrite <- (Z.sub_0_r (Connection.write_permits cn)).
  apply (server_ok_tasks None _ 1 0 0 _ Hk); try lia; try done.
  - by right.
  - apply tasks_ok_insert; [|apply Hcn]. split; [|done]. by eapply (ck_accepted _ Hcn).
  - apply map_disjoint_insert_l_2; [done|apply Hcn].
  - rewrite map_sum_insert by done. unfold running, task_sum. lia.
  - rewrite map_sum_insert by done. unfold held_reads, task_sum. simpl. lia.
  - rewrite map_sum_insert by done. unfold task_sum, task_writes. simpl. lia.
  - by rewrite !Z.sub_0_r.
Qed.

(** Taking bytes changes one budget, and nothing that is shared. *)
Lemma acquire_bytes_effect k r (sv sv' : Server H F) :
  acquire_bytes c k r sv = Some sv' →
  ∃ cn t, established sv k = Some cn ∧ Connection.request_tasks cn !! r = Some t ∧
    RequestTask.budget t = Budget.none ∧ RequestTask.answer t = None ∧
    let b := bytes_needed c cn (RequestTask.request t) in
    enough (permits sv) cn b = true ∧
    sv' = MkServer (shared sv) (take_bytes b (permits sv)) (listening sv)
      (<[k := Established (set_tasks (Connection.write_permits cn - Budget.writes b)
                (<[r := set_budget b t]> (Connection.request_tasks cn)) cn)]> (connections sv)).
Proof.
  unfold acquire_bytes. destruct (established sv k) as [cn|]; [|done]. cbn [mbind option_bind].
  destruct (Connection.request_tasks cn !! r) as [t|] eqn:Hr; [|done]. cbn [mbind option_bind].
  destruct (_ && _) eqn:E; [|done]. bool_simpl. intros [= <-]. exists cn, t. by split_and!.
Qed.

Lemma bytes_needed_nonneg cn e : wf_request (Envelope.message e) →
  0 ≤ Budget.reads (bytes_needed c cn e) ∧ 0 ≤ Budget.writes (bytes_needed c cn e).
Proof.
  intros Hwf. unfold bytes_needed. destruct (negb _); [done|]. unfold read_length, write_length.
  destruct (Envelope.message e); simpl in *; try done; destruct (_ : bool); simpl; lia.
Qed.

(** A task gets another budget: [dx] read bytes and [dw] write bytes more. *)
Lemma server_ok_budget {sv : Server H F} {k cn r t} t' dx dw p' :
  connections sv !! k = Some (Established cn) → Connection.request_tasks cn !! r = Some t →
  RequestTask.request t' = RequestTask.request t →
  Budget.reads (RequestTask.budget t') = Budget.reads (RequestTask.budget t) + dx →
  Budget.writes (RequestTask.budget t') = Budget.writes (RequestTask.budget t) + dw →
  0 ≤ Budget.reads (RequestTask.budget t') → 0 ≤ Budget.writes (RequestTask.budget t') →
  p' = take_bytes (Budget.Mk dx dw) (permits sv) →
  0 ≤ Permits.reads (permits sv) - dx → 0 ≤ Permits.writes (permits sv) - dw →
  0 ≤ Connection.write_permits cn - dw → server_ok sv →
  server_ok (MkServer (shared sv) p' (listening sv)
    (<[k := Established (set_tasks (Connection.write_permits cn - dw)
              (<[r := t']> (Connection.request_tasks cn)) cn)]> (connections sv))).
Proof.
  intros Hk Hr Et Hx Hw ? ? -> ? ? ? Hsv. pose proof (pk_free _ _ (vk_permits _ Hsv)) as (? & ? & ? & ?).
  pose proof (ck_each _ (vk_connections _ Hsv) _ _ _ Hk eq_refl) as Hcn.
  pose proof (task_wf _ _ _ Hcn Hr) as (Hwf & ? & ?).
  epose proof (server_ok_tasks (Connection.accepted cn) (<[r := t']> (Connection.request_tasks cn)) 0 dx dw _ Hk)
    as Hok. apply Hok; try done; try lia.
  - by left.
  - apply tasks_ok_insert; [|apply Hcn]. by rewrite <- Et in Hwf.
  - apply map_disjoint_insert_l_2; [|apply Hcn]. by eapply map_disjoint_Some_l; [apply Hcn|].
  - rewrite (sum_update _ Hr). unfold running, task_sum. simpl. lia.
  - rewrite (sum_update _ Hr). unfold held_reads, task_sum. simpl in *. lia.
  - rewrite (sum_update _ Hr). unfold task_sum, task_writes. simpl in *. lia.
  - unfold take_bytes. simpl. by rewrite Z.sub_0_r.
Qed.

Lemma acquire_bytes_ok k r (sv sv' : Server H F) :
  acquire_bytes c k r sv = Some sv' → server_ok sv → server_ok sv'.
Proof.
  intros (cn & t & Hk & Hr & Hb & Ha & He & ->)%acquire_bytes_effect Hsv. apply established_lookup in Hk.
  pose proof (ck_each _ (vk_connections _ Hsv) _ _ _ Hk eq_refl) as Hcn.
  pose proof (bytes_needed_nonneg cn _ (proj1 (task_wf _ _ _ Hcn Hr))) as [? ?].
  set (b := bytes_needed _ _ _) in *. clearbody b. unfold enough in He. bool_simpl.
  apply (server_ok_budget (set_budget b t) (Budget.reads b) (Budget.writes b) _ Hk Hr); simpl; rewrite ?Hb; simpl; try lia; try done.
Qed.

Lemma release_bytes_ok k r (sv sv' : Server H F) :
  release_bytes k r sv = Some sv' → server_ok sv → server_ok sv'.
Proof.
  unfold release_bytes. destruct (established sv k) as [cn|] eqn:Hk; [|done]. apply established_lookup in Hk.
  cbn [mbind option_bind]. destruct (Connection.request_tasks cn !! r) as [t|] eqn:Hr; [|done].
  cbn [mbind option_bind]. intros Hrun Hsv. pose proof (ck_each _ (vk_connections _ Hsv) _ _ _ Hk eq_refl) as Hcn.
  pose proof (task_wf _ _ _ Hcn Hr) as (Hwf & ? & ?). pose proof (pk_free _ _ (vk_permits _ Hsv)) as (? & ? & ? & ?).
  pose proof (ck_free _ Hcn). rewrite <- (Z.sub_opp_r (Connection.write_permits cn)) in Hrun.
  epose proof (server_ok_budget (set_budget Budget.none t) (- Budget.reads (RequestTask.budget t))
    (- Budget.writes (RequestTask.budget t)) _ Hk Hr) as Hok.
  repeat case_match; simplify_eq; apply Hok; simpl; try lia; done.
Qed.

Lemma end_request_ok k r spawned (sv sv' : Server H F) :
  end_request c k r spawned sv = Some sv' → server_ok sv → server_ok sv'.
Proof.
  unfold end_request. destruct (established sv k) as [cn|] eqn:Hk; [|done]. apply established_lookup in Hk.
  cbn [mbind option_bind]. destruct (Connection.request_tasks cn !! r) as [t|] eqn:Hr; [|done]. cbn [mbind option_bind].
  intros Hrun Hsv. pose proof (ck_each _ (vk_connections _ Hsv) _ _ _ Hk eq_refl) as Hcn.
  pose proof (task_wf _ _ _ Hcn Hr) as Ht. pose proof Ht as (_ & ? & ?).
  pose proof (pk_free _ _ (vk_permits _ Hsv)) as (? & ? & ? & ?). pose proof (ck_free _ Hcn).
  pose proof (tasks_ok_delete _ r (ck_tasks _ Hcn)) as Hrest.
  assert (∀ g, map_sum g (delete r (Connection.request_tasks cn)) = task_sum g cn - g t) as Hsum.
  { intros g. by rewrite map_sum_delete_lookup, Hr. }
  destruct spawned.
  - destruct (write_spawned c cn t) eqn:Hw; [|done]. injection Hrun as <-. set (cn' := set_detached _ _).
    pose proof (map_disjoint_Some_l _ _ _ _ (ck_names _ Hcn) Hr) as Hd.
    assert (held_writes cn' = held_writes cn) as Hheld.
    { unfold held_writes, task_sum at 1. simpl. rewrite Hsum, map_sum_insert by done. lia. }
    assert (Budget.reads (RequestTask.budget t) = 0) as Hno.
    { unfold write_spawned in Hw. repeat case_match; try done. bool_simpl.
      by match goal with E : RequestTask.budget t = _ |- _ => rewrite E end. }
    destruct Hsv as [Hs Hp Hc]. split; cbn [shared permits connections].
    + by apply (shared_ok_with cn' Hk eq_refl).
    + eapply (permits_ok_with (-1) 0 0 _ cn' Hk eq_refl); [..|exact Hp]; try lia.
      * unfold running, task_sum at 1. simpl. rewrite Hsum. lia.
      * unfold held_reads, task_sum at 1. simpl. rewrite Hsum. lia.
      * unfold release_task. simpl. f_equal; lia.
    + apply (connections_ok_with cn' Hk eq_refl); [done|by right| |done]. destruct Hcn. split; try done.
      * by rewrite Hheld.
      * by apply tasks_ok_insert.
      * simpl. apply map_disjoint_insert_r_2; [apply lookup_delete_eq|by apply map_disjoint_delete_l].
  - injection Hrun as <-. rewrite <- (Z.sub_opp_r (Connection.write_permits cn)).
    epose proof (server_ok_tasks (Connection.accepted cn) (delete r (Connection.request_tasks cn)) (-1)
      (- Budget.reads (RequestTask.budget t)) (- Budget.writes (RequestTask.budget t)) _ Hk) as Hok.
    apply Hok; try done; try lia.
    + by left.
    + apply map_disjoint_delete_l, Hcn.
    + unfold release_task. f_equal; lia.
Qed.

(** ** The end of a connection *)

Context (hash_order : gset NodeId → list NodeId) (export_epoch export_root : Z).

(** Locks of other sessions still have their owners when connection [k] is no
    longer established. *)
Lemma owned_others (conns conns' : gmap nat ConnectionTask) k t cn l :
  conns !! k = Some t → connection_of t = Some cn → (∀ j, j ≠ k → conns' !! j = conns !! j) →
  owned (live conns) l →
  owned (live conns') (remove_locks l (λ record, LockRecord.session record =? Connection.session cn)).2.
Proof.
  intros Hk Ht Hj Ho r [Hr Hne]%remove_session_spec. destruct (Ho r Hr) as (j & cj & Hcj & Hs).
  exists j, cj. rewrite Hj; [done|]. intros ->. simplify_eq. simpl in Ht. by simplify_eq.
Qed.

Lemma drop_drained_ok k cn (sv : Server H F) :
  connections sv !! k = Some (Draining cn) → Connection.detached cn = ∅ → server_ok sv →
  server_ok (drop_drained hash_order c export_epoch export_root k cn sv).
Proof.
  intros Hk Hd [Hs Hp Hc]. pose proof (ck_drained _ Hc _ _ Hk) as Hr. destruct Hs, Hp, Hc.
  destruct (drop_session_effect stable_node_id (serve_limits c) hash_order
    (export_config c export_epoch export_root (Connection.session cn)) (session_of sv cn)) as (Hreg & Hper & Hlocks & Hhost);
    [done|].
  assert (∀ g, map_sum g (delete k (connections sv)) = map_sum g (connections sv) - g (Draining cn)) as Hsum.
  { intros g. by rewrite map_sum_delete_lookup, Hk. }
  assert (∀ g : Connection → Z, g cn = 0 → map_sum (connection_sum g) (delete k (connections sv)) =
    map_sum (connection_sum g) (connections sv)) as Hsum0.
  { intros g Hg. rewrite Hsum. unfold connection_sum at 2. simpl. lia. }
  unfold drop_drained. set (s := (drop_session _ _ _).2) in *. clearbody s.
  cbn [session_of locks handle_permits host export_config session_id] in *.
  split; [split| |split]; cbn [shared permits connections with_session Shared.registry Shared.locks Shared.host
    Shared.handle_permits]; try done.
  - rewrite Hlocks. by apply remove_locks_inv.
  - rewrite Hlocks. apply (owned_others (connections sv) _ k (Draining cn)); try done.
    intros j Hj. by rewrite lookup_delete_ne.
  - by rewrite Hhost.
  - rewrite Hper. lia.
  - rewrite Hsum, Hper. change (connection_sum open_handles (Draining cn)) with (open_handles cn).
    unfold open_handles at 2. simpl in *. lia.
  - split; rewrite ?Hsum0; try done; unfold running, held_reads, held_writes, task_sum; rewrite ?Hr, ?Hd; try apply map_sum_empty.
    rewrite Hsum. simpl. lia.
  - intros j tj cj [_ Hj]%lookup_delete_Some. eauto.
  - intros i j ti tj ci cj [_ Hi]%lookup_delete_Some [_ Hj]%lookup_delete_Some. eauto.
  - intros j cj [_ Hj]%lookup_delete_Some. eauto.
Qed.

Lemma end_connection_ok k (sv sv' : Server H F) :
  end_connection hash_order c export_epoch export_root k sv = Some sv' → server_ok sv → server_ok sv'.
Proof.
  unfold end_connection. destruct (established sv k) as [cn|] eqn:Hk; [|done]. apply established_lookup in Hk.
  cbn [mbind option_bind]. destruct (Connection.accepted cn); [done|]. destruct (negb _) eqn:Hr; [done|].
  bool_simpl. intros Hrun Hsv.
  destruct (cleanup_locks_effect (export_config c export_epoch export_root (Connection.session cn)) (session_of sv cn))
    as (Hn & Hper & Hhost & Hlocks).
  set (s := (cleanup_locks _ _).2) in *. clearbody s. cbn [session_of nodes locks handle_permits host export_config session_id] in *.
  set (sv1 := MkServer _ _ _ _) in Hrun.
  assert (server_ok sv1) as Hsv1.
  { subst sv1. destruct Hsv as [[] [(? & ? & ? & ?) ? ? ? ?] Hc].
    assert (∀ g : Connection → Z, map_sum (connection_sum g) (<[k := Draining cn]> (connections sv)) =
      map_sum (connection_sum g) (connections sv)) as Hsum.
    { intros g. rewrite (sum_update _ Hk). unfold connection_sum at 2 3. simpl. lia. }
    split; [split|split|]; cbn [shared permits connections with_session Shared.registry Shared.locks Shared.host
      Shared.handle_permits Permits.requests Permits.connections Permits.reads Permits.writes]; rewrite ?Hsum; try done.
    - by rewrite Hn.
    - rewrite Hlocks. by apply remove_locks_inv.
    - rewrite Hlocks. apply (owned_others (connections sv) _ k (Established cn)); try done.
      intros j Hj. by rewrite lookup_insert_ne.
    - by rewrite Hhost.
    - lia.
    - lia.
    - lia.
    - rewrite (sum_update _ Hk). simpl. lia.
    - destruct Hc as [He Hd Hdr]. split.
      + intros j tj cj [[<- <-]|[_ Hj]]%lookup_insert_Some Hcj; [injection Hcj as <-; by eapply (He k)|by eapply He].
      + intros i j ti tj ci cj [[<- <-]|[? Hi]]%lookup_insert_Some [[<- <-]|[? Hj]]%lookup_insert_Some Hci Hcj E;
          [done|..|by eapply Hd].
        * injection Hci as <-. by eapply Hd.
        * injection Hcj as <-. by eapply Hd.
      + intros j cj [[<- [= <-]]|[_ Hj]]%lookup_insert_Some; [done|by eapply Hdr]. }
  destruct (bool_decide _) eqn:E; injection Hrun as <-; [|done].
  apply drop_drained_ok; [|by apply bool_decide_eq_true_1 in E|done]. apply lookup_insert_eq.
Qed.

(** A request finds itself as it was before it took its bytes. *)
Lemma acquired_same k r (sv : Server H F) :
  let sv' := default sv (acquire_bytes c k r sv) in
  shared sv' = shared sv ∧ (server_ok sv → server_ok sv') ∧
  ∀ cn' t', established sv' k = Some cn' → Connection.request_tasks cn' !! r = Some t' →
    ∃ cn t, established sv k = Some cn ∧ Connection.request_tasks cn !! r = Some t ∧
      RequestTask.request t = RequestTask.request t'.
Proof.
  destruct (acquire_bytes c k r sv) as [sv'|] eqn:E; simpl; [|split_and!; [done|done|by eauto 6]].
  split_and!; [|by eapply acquire_bytes_ok|].
  - by apply acquire_bytes_effect in E as (cn & t & _ & _ & _ & _ & _ & ->).
  - apply acquire_bytes_effect in E as (cn & t & Hk & Hr & _ & _ & _ & ->).
    intros cn' t'. rewrite established_lookup. cbn [connections]. rewrite lookup_insert_eq. intros [= <-].
    simpl. rewrite lookup_insert_eq. intros [= <-]. by exists cn, t.
Qed.
End invariant.

(** * Runs *)

Section runs.
Context {H : Type} `{HF : HostFiles H} `{HD : HostDirs H}.
Context {F : Type} `{SF : StateFs F} `{AR : Argon2} `{B64 : Base64Url}.
Context (sha256 : list Z → list Z) (b64_encode : list Z → list Z)
  (b64_decode : list Z → option (list Z)) (major minor : Z → Z)
  (stable_node_id : FileIdentity → NodeId)
  (hash_order : gset NodeId → list NodeId) (fresh_handle : gset FileHandle → FileHandle).
Context (users_from_json : list Z → result (list Z) UserDatabase)
  (pairing_from_json : list Z → result (list Z) PairingRecord)
  (hmac_sha256 : list Z → list Z → option (list Z)) (uuid_bytes uuid_text : Z → list Z)
  (hex_encode : list Z → list Z) (record_to_json : PersistentExportRecord → option (list Z))
  (node_key : list Z) (persistence : option PersistentExportState)
  (root : Path) (fingerprint : list Z).
Context (response_to : Envelope Response → option (list Z))
  (entry_to : DirectoryViewEntry → option (list Z))
  (zstd_compress : list Z → Z → option (list Z)) (decimal : Z → list Z).
Context (c : Serve) (export_epoch export_root : Z).

Abbreviation step := (step sha256 b64_encode b64_decode major minor stable_node_id hash_order
  fresh_handle users_from_json pairing_from_json hmac_sha256 uuid_bytes uuid_text hex_encode
  record_to_json node_key persistence root fingerprint response_to entry_to zstd_compress decimal c
  export_epoch export_root).
Abbreviation run := (run sha256 b64_encode b64_decode major minor stable_node_id hash_order
  fresh_handle users_from_json pairing_from_json hmac_sha256 uuid_bytes uuid_text hex_encode
  record_to_json node_key persistence root fingerprint response_to entry_to zstd_compress decimal c
  export_epoch export_root).
Abbreviation process_step := (process_step sha256 b64_encode b64_decode major minor stable_node_id hash_order
  fresh_handle users_from_json pairing_from_json hmac_sha256 uuid_bytes uuid_text hex_encode
  record_to_json node_key persistence root fingerprint response_to entry_to zstd_compress decimal c
  export_epoch export_root).
Abbreviation process_run := (process_run sha256 b64_encode b64_decode major minor stable_node_id hash_order
  fresh_handle users_from_json pairing_from_json hmac_sha256 uuid_bytes uuid_text hex_encode
  record_to_json node_key persistence root fingerprint response_to entry_to zstd_compress decimal c
  export_epoch export_root).
Abbreviation handled := (handled sha256 b64_encode b64_decode major minor stable_node_id hash_order
  fresh_handle users_from_json pairing_from_json hmac_sha256 uuid_bytes uuid_text hex_encode
  record_to_json node_key persistence root fingerprint response_to entry_to zstd_compress decimal c
  export_epoch export_root).

(** The account whose password request [r] of connection [k] shows, if it runs now. *)
Definition accepted_account (sv : Server H F) (k r : nat) (a : UserAuthorization) : Prop :=
  ∃ cn t u p f, established sv k = Some cn ∧ Connection.request_tasks cn !! r = Some t ∧
    Envelope.message (RequestTask.request t) = Request.Authenticate u p ∧
    verify_user_authorization users_from_json root u (secret_bytes p) (Shared.auth_root (shared sv)) =
      (Ok (Some a), f).

Section invariant.
Context (I : H → Prop) (rw : bool) (total : Z).
Context (hash_order_perm : ∀ s, hash_order s ≡ₚ elements s)
  (fresh_handle_new : ∀ s, fresh_handle s ∉ s) (HK : host_keeps H I rw).
Context (known_positive : 1 ≤ Serve.max_known_nodes_per_connection c)
  (writes_positive : 0 ≤ Serve.max_in_flight_write_bytes_per_connection c).

Abbreviation ok := (server_ok stable_node_id c I rw total).
Abbreviation inv session owner others :=
  (sess_inv stable_node_id (export_config c export_epoch export_root session) I rw owner others 0 0 0).

(** The session of a connection satisfies the invariant of a session, the other
    connections holding the rest of the handles. *)
Lemma session_of_inv (sv : Server H F) k t cn :
  ok sv → connections sv !! k = Some t → connection_of t = Some cn →
  inv (Connection.session cn) (live (connections sv))
    (map_sum (connection_sum open_handles) (connections sv) - open_handles cn + (Serve.max_open_handles c - total))
    (session_of sv cn).
Proof.
  intros [[] _ Hc] Hk Ht. destruct (ck_each _ _ _ Hc _ _ _ Hk Ht). split; simpl; try done.
  - by apply registry_ok_reg.
  - by destruct sk_registry0.
  - unfold open_handles in *. lia.
Qed.

Lemma wf_request_input request body d :
  wf_request (Envelope.message request) → valid_name (Draws.exchange_name d) → wf_input (request, body, d).
Proof. intros Hwf Hd. split; [done|]. cbn [fst snd]. by destruct (Envelope.message request). Qed.

(** The other way round: the work of connection [k] on the shared state left its
    session [s] and the permits [p'], with [dw] write bytes given back. *)
Lemma server_ok_worked (sv : Server H F) k t cn cn' (s : Session H) (sh' : Shared H F) p' dw :
  ok sv → connections sv !! k = Some t → connection_of t = Some cn →
  inv (Connection.session cn) (live (connections sv))
    (map_sum (connection_sum open_handles) (connections sv) - open_handles cn + (Serve.max_open_handles c - total)) s →
  (Shared.registry sh', Shared.handle_permits sh', Shared.locks sh', Shared.host sh') =
    (registry (nodes s), handle_permits s, locks s, host s) →
  Connection.session cn' = Connection.session cn → Connection.nodes cn' = session_nodes (nodes s) →
  (Serve.allow_writes c && Connection.write_authorized cn' = true → rw = true) →
  (Connection.request_tasks cn = ∅ → Connection.request_tasks cn' = ∅) ∨ t = Established cn →
  running cn' = running cn → held_reads cn' = held_reads cn → held_writes cn' = held_writes cn - dw →
  p' = take_bytes (Budget.Mk 0 (- dw)) (permits sv) → 0 ≤ dw →
  Connection.write_permits cn' = Connection.write_permits cn + dw →
  Connection.accepted cn' = Connection.accepted cn →
  tasks_ok (Connection.request_tasks cn') → tasks_ok (Connection.detached cn') →
  Connection.request_tasks cn' ##ₘ Connection.detached cn' →
  ok (MkServer sh' p' (listening sv) (<[k := with_connection t cn']> (connections sv))).
Proof.
  intros [_ Hp Hc] Hk Ht [Hreg Hnames ? Hh [Hl Ho] Hg ?] [= Er Eh El Eho] Hs Hn Hw Hd Hrun Hx Hhw -> ? Hwp Ha ? ? ?.
  pose proof (pk_free _ _ _ Hp) as (? & ? & ? & ?). pose proof (ck_each _ _ _ Hc _ _ _ Hk Ht) as [].
  assert (registry_ok stable_node_id (serve_limits c) (registry (nodes s)) ∧
    session_ok (serve_limits c) 0 (session_nodes (nodes s))) as [Hr Hsn].
  { apply registry_ok_reg. by destruct (nodes s). }
  split; cbn [shared permits connections].
  - split; rewrite ?Er, ?Eh, ?El, ?Eho; try done.
    + intros r Hr'%Ho. by eapply live_with.
    + rewrite (sum_update _ Hk), (sum_of _ _ _ Ht), (sum_of _ _ _ (connection_of_with _ _ cn' Ht)).
      unfold open_handles in *. rewrite Hn. simpl in Hh. lia.
  - eapply (permits_ok_with c 0 0 (- dw) _ cn' Hk Ht); [..|exact Hp]; simpl; try lia. unfold take_bytes. simpl. f_equal; lia.
  - apply (connections_ok_with c rw cn' Hk Ht); try done. split; try done.
    + by rewrite Hn.
    + rewrite Hwp. lia.
    + rewrite Hwp, Hhw. lia.
    + by rewrite Ha.
Qed.

Lemma handled_ok k r d verifying (sv sv' : Server H F) :
  valid_name (Draws.exchange_name d) →
  (∀ a, accepted_account sv k r a → Serve.allow_writes c = true → UserAuthorization.writable a = true → rw = true) →
  handled k r d verifying sv = Some sv' → ok sv → ok sv'.
Proof.
  intros Hd Hgrant. unfold ServeLoop.handled. destruct (acquired_same stable_node_id c I rw total k r sv) as (Esh & Hok & Hsame).
  set (sv1 := default sv (acquire_bytes c k r sv)) in *. clearbody sv1.
  destruct (established sv1 k) as [cn|] eqn:Hk; [|done]. cbn [mbind option_bind].
  destruct (Connection.request_tasks cn !! r) as [t|] eqn:Hr; [|done]. cbn [mbind option_bind].
  destruct (_ && _); [|done]. intros Hrun Hsv. specialize (Hok Hsv).
  destruct (Hsame cn t) as (cn0 & t0 & Hk0 & Hr0 & Et); [done..|].
  apply established_lookup in Hk. pose proof (session_of_inv sv1 k _ cn Hok Hk eq_refl) as Hinv.
  pose proof (ck_each _ _ _ (vk_connections _ _ _ _ _ _ Hok) _ _ _ Hk eq_refl) as Hcn.
  pose proof (task_wf _ _ _ _ _ Hcn Hr) as (Hwf & Hb1 & Hb2).
  set (x0 := request_context c sv1 cn (RequestTask.budget t) verifying) in Hrun.
  epose proof (handle_inv sha256 b64_encode b64_decode major minor stable_node_id hash_order fresh_handle
    (export_config c export_epoch export_root (Connection.session cn)) users_from_json pairing_from_json hmac_sha256
    uuid_bytes uuid_text hex_encode record_to_json node_key persistence root fingerprint (Connection.peer_ip cn)
    response_to entry_to zstd_compress decimal I rw (live (connections sv1)) _ hash_order_perm fresh_handle_new HK
    ltac:(by exists k, cn) (RequestTask.request t, RequestTask.body t, d) x0) as Hafter.
  cbn [fst snd] in Hafter. destruct (Daemon.handle _ _ _ _ _ _ _ _ _ _ _ _ _ _ _ _ _ _ _ _ _ _ _ _ _ _ _ _ _) as [outcome x].
  specialize (Hafter (wf_request_input _ _ _ Hwf Hd) Hinv).
  assert (inv (Connection.session cn) (live (connections sv1))
    (map_sum (connection_sum open_handles) (connections sv1) - open_handles cn + (Serve.max_open_handles c - total))
    (export x)) as Hx.
  { apply Hafter. intros a (u & p & f & Em & Hv) Hw Ha. apply (Hgrant a); [|done|done].
    exists cn0, t0, u, p, f. rewrite Et, <- Esh. by split_and!. }
  injection Hrun as <-. set (tasks := <[r := _]> _). set (dw := Budget.writes (RequestTask.budget t)) in *.
  eapply (server_ok_worked sv1 k (Established cn) cn (connection_after x (Connection.write_permits cn + dw) tasks cn) _ _ _ dw);
    [exact Hok|exact Hk|reflexivity|exact Hx|try done..]; try by right.
  - apply (si_grant _ _ _ _ _ _ _ _ _ _ Hx).
  - unfold running, task_sum, tasks. simpl. rewrite (sum_update _ Hr). lia.
  - unfold held_reads, task_sum, tasks. simpl. rewrite (sum_update _ Hr). simpl. lia.
  - unfold held_writes, task_sum, tasks. simpl. rewrite (sum_update _ Hr). unfold task_writes. simpl. lia.
  - apply tasks_ok_insert; [by split|apply Hcn].
  - apply Hcn.
  - apply map_disjoint_insert_l_2; [|apply Hcn]. by eapply map_disjoint_Some_l; [apply Hcn|].
Qed.

(** A write that outlived its request stays within what its connection may do. *)
Lemma spawned_write_inv session owner others t s :
  inv session owner others s →
  inv session owner others (spawned_write sha256 b64_encode stable_node_id hash_order
    (export_config c export_epoch export_root session) t s).2.
Proof.
  intros Hs. assert (yields (inv session owner others)
    (spawned_write sha256 b64_encode stable_node_id hash_order
       (export_config c export_epoch export_root session) t) (λ _, True)) as Hy; [|by apply Hy].
  unfold spawned_write. destruct (Envelope.message (RequestTask.request t)); try by apply yields_ret.
  - ybind; [eapply ys_write_owned; exact HK|]. intros. by apply yields_ret.
  - by eapply ys_set_xattr.
Qed.

Lemma finish_detached_ok k r (sv sv' : Server H F) :
  finish_detached sha256 b64_encode stable_node_id hash_order c export_epoch export_root k r sv = Some sv' →
  ok sv → ok sv'.
Proof.
  unfold finish_detached. destruct (connections sv !! k) as [task|] eqn:Hk; [|done]. cbn [mbind option_bind].
  destruct (connection_of task) as [cn|] eqn:Ht; [|done]. cbn [mbind option_bind].
  destruct (Connection.detached cn !! r) as [t|] eqn:Hr; [|done]. cbn [mbind option_bind].
  intros Hrun Hsv. pose proof (session_of_inv sv k _ cn Hsv Hk Ht) as Hinv.
  pose proof (ck_each _ _ _ (vk_connections _ _ _ _ _ _ Hsv) _ _ _ Hk Ht) as Hcn.
  pose proof (ck_detached _ _ _ Hcn _ _ Hr) as (_ & _ & Hb).
  apply (spawned_write_inv _ _ _ t) in Hinv. set (s := (spawned_write _ _ _ _ _ _ _).2) in *. clearbody s.
  set (dw := Budget.writes (RequestTask.budget t)) in *. set (cn' := Connection.Mk _ _ _ _ _ _ _ _ _) in *.
  set (sv1 := MkServer _ _ _ _) in *.
  assert (ok sv1) as Hok.
  { eapply (server_ok_worked sv k task cn cn' s _ _ dw); [exact Hsv|exact Hk|exact Ht|exact Hinv|try done..].
    - apply Hcn.
    - by left.
    - unfold held_writes, task_sum. simpl. rewrite map_sum_delete_lookup, Hr. unfold task_writes at 3. lia.
    - apply Hcn.
    - apply tasks_ok_delete, Hcn.
    - apply map_disjoint_delete_r, Hcn. }
  destruct task as [|e|e]; [done|by injection Hrun as <-|].
  destruct (bool_decide _) eqn:E; injection Hrun as <-; [|done]. bool_simpl.
  apply drop_drained_ok; [apply lookup_insert_eq|done|done].
Qed.

(** [rw] allows what the event grants. *)
Definition grant_allowed (e : Event) (sv : Server H F) : Prop :=
  match e with
  | Handled k r _ _ => ∀ a, accepted_account sv k r a → Serve.allow_writes c = true →
      UserAuthorization.writable a = true → rw = true
  | _ => True
  end.

Lemma serve_step_ok e (sv sv' : Server H F) :
  wf_event e → grant_allowed e sv → step e sv = Some sv' → ok sv → ok sv'.
Proof.
  destruct e; simpl; intros Hwf Hg Hstep;
    eauto using accept_incoming_ok, handshake_failed_ok, handshake_done_ok, accept_stream_ok,
      acquire_permit_ok, permit_timed_out_ok, acquire_bytes_ok, release_bytes_ok, handled_ok, end_request_ok,
      finish_detached_ok, end_connection_ok, shut_down_ok.
Qed.

End invariant.

(** ** The start *)

(** The numbers of the configuration are unsigned. *)
Definition unsigned : Prop :=
  Forall (λ n, 0 ≤ n) [Serve.max_open_handles c; Serve.max_known_nodes_per_connection c;
    Serve.max_total_known_nodes c; Serve.max_concurrent_requests c; Serve.max_concurrent_connections c;
    Serve.max_in_flight_read_bytes c; Serve.max_in_flight_write_bytes c;
    Serve.max_in_flight_write_bytes_per_connection c].

Lemma serve_start_ok max_permits I rw root_identity name (h : H) (f : F) :
  validate_configuration max_permits c = Ok tt → unsigned → I h →
  1 ≤ Serve.max_known_nodes_per_connection c ∧ 0 ≤ Serve.max_in_flight_write_bytes_per_connection c ∧
  server_ok stable_node_id c I rw (Serve.max_open_handles c) (serve_start c root_identity name h f).
Proof.
  intros Hv Hu Hh. unfold validate_configuration in Hv.
  repeat match type of Hv with (if ?b then _ else _) = _ => destruct b eqn:?; [done|] end. clear Hv. bool_simpl.
  unfold unsigned in Hu. rewrite !Forall_cons in Hu. destruct Hu as (? & ? & ? & ? & ? & ? & ? & ? & _).
  destruct (reg_inv_new stable_node_id (serve_limits c) root_identity) as (Hm & Hp & Hb & _); [simpl; lia..|].
  split_and!; [lia|lia|]. split; simpl.
  - split; simpl; rewrite ?map_sum_empty; try done; try lia.
    + split; try done. intros n k Hn. simpl in Hn. apply lookup_singleton_Some in Hn as [<- <-]. by repeat constructor.
    + apply lock_inv_nil.
    + by intros r ?%not_elem_of_nil.
  - split; simpl; rewrite ?map_sum_empty, ?map_size_empty; lia.
  - split; intros *; by rewrite lookup_empty.
Qed.

(** ** Open files *)

Definition open_files (sv : Server H F) : Z := map_sum (connection_sum open_handles) (connections sv).

(** [CloseFile] takes one handle out of the table of its session, or none. *)
Lemma close_request_handles session peer d request handle body (x : RequestContext H F) :
  Envelope.message request = Request.CloseFile handle →
  let x' := (Daemon.handle sha256 b64_encode b64_decode major minor stable_node_id hash_order fresh_handle
    (export_config c export_epoch export_root session) users_from_json pairing_from_json hmac_sha256 uuid_bytes
    uuid_text hex_encode record_to_json node_key persistence root fingerprint peer response_to entry_to zstd_compress
    decimal d request body x).2 in
  handles (session_nodes (nodes (export x'))) = handles (session_nodes (nodes (export x))) ∨
  handles (session_nodes (nodes (export x'))) = delete handle (handles (session_nodes (nodes (export x)))).
Proof.
  intros Em. unfold Daemon.handle. rewrite Em. sm_unfold.
  destruct (negb _); [left; by rewrite send_answer_state|].
  destruct (negb _); [left; by rewrite send_answer_state|].
  cbn [dispatch node_request file_request]. unfold answer, on_export, close, open_handle. sm_unfold.
  destruct (handles (session_nodes (nodes (export x))) !! handle) as [opened|]; cbn -[send_answer]; rewrite send_answer_state; [by right|by left].
Qed.

Lemma acquired_files k r (sv : Server H F) :
  let sv' := default sv (acquire_bytes c k r sv) in
  file_table sv' k = file_table sv k ∧ open_files sv' = open_files sv ∧ unanswered sv' k r = unanswered sv k r.
Proof.
  destruct (acquire_bytes c k r sv) as [sv'|] eqn:E; [|done]. cbn [default].
  apply acquire_bytes_effect in E as (cn & t & Hk%established_lookup & Hr & _ & _ & _ & ->).
  unfold id, file_table, open_files, unanswered. cbn [connections]. rewrite (sum_update _ Hk), lookup_insert_eq, Hk.
  cbn [mbind option_bind connection_of set_tasks Connection.request_tasks Connection.nodes].
  rewrite lookup_insert_eq, Hr. split_and!; [done| |done]. by rewrite Z.sub_simpl_r.
Qed.

Lemma close_handled_count k r d verifying handle (sv sv' : Server H F) :
  unanswered sv k r = Some (Request.CloseFile handle) →
  handle ∈ dom (file_table sv k) ∖ dom (file_table sv' k) →
  handled k r d verifying sv = Some sv' →
  open_files sv' + 1 ≤ open_files sv.
Proof.
  unfold ServeLoop.handled. destruct (acquired_files k r sv) as (Ef & Eo & Eu). rewrite <- Ef, <- Eo, <- Eu.
  set (sv1 := default sv (acquire_bytes c k r sv)) in *. clearbody sv1. clear sv Ef Eo Eu.
  intros Hu Hout. destruct (established sv1 k) as [cn|] eqn:Hk; [|done]. cbn [mbind option_bind].
  destruct (Connection.request_tasks cn !! r) as [t|] eqn:Hr; [|done]. cbn [mbind option_bind].
  destruct (_ && _); [|done]. apply established_lookup in Hk.
  assert (Envelope.message (RequestTask.request t) = Request.CloseFile handle) as Em.
  { unfold unanswered in Hu. rewrite Hk in Hu. cbn [mbind option_bind connection_of] in Hu. rewrite Hr in Hu.
    cbn [mbind option_bind] in Hu. destruct (RequestTask.answer t); [done|by injection Hu]. }
  pose proof (close_request_handles (Connection.session cn) (Connection.peer_ip cn) d _ handle (RequestTask.body t)
    (request_context c sv1 cn (RequestTask.budget t) verifying) Em) as Hh.
  destruct (Daemon.handle _ _ _ _ _ _ _ _ _ _ _ _ _ _ _ _ _ _ _ _ _ _ _ _ _ _ _ _ _) as [outcome x].
  cbn [snd request_context export session_of nodes session_nodes] in Hh. intros [= <-].
  unfold file_table, open_files in *. cbn [connections] in *. rewrite (sum_update _ Hk).
  rewrite lookup_insert_eq, Hk in Hout. cbn [mbind option_bind connection_of connection_after Connection.nodes] in Hout.
  apply elem_of_difference in Hout as [Hin Hout]. change (connection_sum open_handles (Established ?x)) with (open_handles x).
  unfold open_handles. cbn [connection_after Connection.nodes]. destruct Hh as [Hh|Hh]; rewrite Hh in *; [done|].
  apply elem_of_dom in Hin as [file Hin]. rewrite map_size_delete, Hin.
  assert (size (handles (Connection.nodes cn)) ≠ 0%nat); [|lia].
  rewrite map_size_non_empty_iff. intros E. by rewrite E, lookup_empty in Hin.
Qed.

Lemma connection_ended_deletes k (sv sv' : Server H F) :
  end_connection hash_order c export_epoch export_root k sv = Some sv' → connections sv' !! k = None →
  connections sv' = delete k (connections sv).
Proof.
  unfold end_connection. destruct (established sv k) as [cn|]; [|done]. cbn [mbind option_bind].
  destruct (Connection.accepted cn); [done|]. destruct (negb _); [done|].
  destruct (bool_decide _); intros [= <-]; cbn [connections drop_drained].
  - by rewrite delete_insert_eq.
  - by rewrite lookup_insert_eq.
Qed.

Lemma detached_done_deletes k r (sv sv' : Server H F) :
  finish_detached sha256 b64_encode stable_node_id hash_order c export_epoch export_root k r sv = Some sv' →
  connections sv' !! k = None → connections sv' = delete k (connections sv).
Proof.
  unfold finish_detached. destruct (connections sv !! k) as [task|]; [|done]. cbn [mbind option_bind].
  destruct (connection_of task) as [cn|]; [|done]. cbn [mbind option_bind].
  destruct (Connection.detached cn !! r) as [t|]; [|done]. cbn [mbind option_bind].
  destruct task as [|e|e]; try destruct (bool_decide _); intros [= <-]; cbn [connections drop_drained];
    rewrite ?lookup_insert_eq, ?delete_insert_eq; done.
Qed.

(** What an event closes was open before it, and is not after it. *)
Lemma closed_files_count e (sv sv' : Server H F) :
  step e sv = Some sv' →
  closed_files e sv sv' = [] ∨ open_files sv' + zlen (closed_files e sv sv') ≤ open_files sv.
Proof.
  assert (∀ k, connections sv' = delete k (connections sv) →
    open_files sv' + zlen ((λ handle, (k, handle)) <$> elements (dom (file_table sv k))) ≤ open_files sv) as Hgone.
  { intros k E. unfold open_files, file_table, zlen. rewrite E, map_sum_delete_lookup, length_fmap.
    destruct (connections sv !! k) as [t|]; cbn [mbind option_bind]; [|rewrite dom_empty_L, elements_empty; simpl; lia].
    unfold connection_sum at 2. destruct (connection_of t) as [cn|]; [|rewrite dom_empty_L, elements_empty; simpl; lia].
    change (length (elements ?X)) with (size X). rewrite size_dom. unfold open_handles. lia. }
  intros Hstep. unfold closed_files. destruct e; try by left.
  - simpl in Hstep. destruct (unanswered sv k r) as [[]|] eqn:Eu; try by left.
    destruct (decide _) as [Hout|]; [|by left]. right.
    by eapply close_handled_count.
  - destruct (decide _) as [E|]; [|by left]. right. apply Hgone. by apply (detached_done_deletes k r).
  - destruct (decide _) as [E|]; [|by left]. right. apply Hgone. by apply connection_ended_deletes.
Qed.

(** The invariant of the server, whose open files share the permits that the
    closed ones do not keep. *)
Definition process_ok (I : H → Prop) (rw : bool) (p : Process H F) : Prop :=
  server_ok stable_node_id c I rw (Serve.max_open_handles c - zlen (orphans p)) (server p) ∧
  Forall (λ file, file ≠ ∅) (orphans p).

Lemma server_ok_permits I rw total n (sv : Server H F) :
  server_ok stable_node_id c I rw total sv → 0 ≤ Shared.handle_permits (shared sv) + n →
  server_ok stable_node_id c I rw (total + n) (add_permits n sv).
Proof. intros [[] Hp Hc] Hn. split; [|done|done]. split; simpl in *; try done. lia. Qed.

Lemma without_clone_length clone (files : list (gset nat)) : zlen (without_clone clone files) ≤ zlen files.
Proof.
  unfold without_clone, zlen. etrans; [apply Nat2Z.inj_le, length_filter|]. by rewrite length_fmap.
Qed.

Lemma keep_referenced_ok I rw e (p : Process H F) sv' :
  step e (server p) = Some sv' → process_ok I rw p →
  server_ok stable_node_id c I rw (Serve.max_open_handles c - zlen (orphans p)) sv' →
  process_ok I rw (keep_referenced (closed_files e (server p) sv') p sv').
Proof.
  intros Hstep [Hsv Ho] Hsv'. pose proof (closed_files_count _ _ _ Hstep) as Hcount.
  unfold keep_referenced. set (closed := closed_files e (server p) sv') in *.
  set (kept := filter _ _). assert (zlen kept ≤ zlen closed) as Hle.
  { unfold kept, zlen. etrans; [apply Nat2Z.inj_le, length_filter|]. by rewrite length_fmap. }
  split; cbn [server orphans].
  - replace (Serve.max_open_handles c - zlen (kept ++ orphans p))
      with (Serve.max_open_handles c - zlen (orphans p) + - zlen kept) by (unfold zlen; rewrite length_app; lia).
    apply server_ok_permits; [done|].
    pose proof (sk_permits _ _ _ _ _ _ (vk_shared _ _ _ _ _ _ Hsv')). pose proof (sk_handles _ _ _ _ _ _ (vk_shared _ _ _ _ _ _ Hsv')).
    pose proof (sk_permits _ _ _ _ _ _ (vk_shared _ _ _ _ _ _ Hsv)). pose proof (sk_handles _ _ _ _ _ _ (vk_shared _ _ _ _ _ _ Hsv)).
    destruct Hcount as [E|Hcount]; [rewrite E in Hle; unfold zlen in *; simpl in *; lia|]. unfold open_files in *. lia.
  - apply Forall_app. split; [|done]. apply Forall_forall. intros file [? _]%list_elem_of_filter. done.
Qed.

Section process_runs.
Context (I : H → Prop) (rw : bool).
Context (hash_order_perm : ∀ s, hash_order s ≡ₚ elements s)
  (fresh_handle_new : ∀ s, fresh_handle s ∉ s) (HK : host_keeps H I rw).
Context (known_positive : 1 ≤ Serve.max_known_nodes_per_connection c)
  (writes_positive : 0 ≤ Serve.max_in_flight_write_bytes_per_connection c).

Definition wf_process_event (e : ProcessEvent) : Prop :=
  match e with Loop e => wf_event e | _ => True end.
Definition process_grant_allowed (e : ProcessEvent) (p : Process H F) : Prop :=
  match e with Loop e => grant_allowed rw e (server p) | _ => True end.

Lemma process_step_ok e (p p' : Process H F) :
  wf_process_event e → process_grant_allowed e p → process_step e p = Some p' → process_ok I rw p → process_ok I rw p'.
Proof.
  intros Hwf Hg Hstep Hp. destruct e as [e|k r handle clone|clone]; simpl in Hstep.
  - destruct (step e (server p)) as [sv'|] eqn:E; [|done]. injection Hstep as <-.
    apply keep_referenced_ok; [done|done|]. destruct Hp as [Hsv _]. by eapply serve_step_ok.
  - unfold clone_file in Hstep. destruct (unanswered (server p) k r) as [message|]; [|done].
    cbn [mbind option_bind] in Hstep. destruct (_ && _); [|done]. by injection Hstep as <-.
  - unfold drop_clone in Hstep. destruct (decide _); [by injection Hstep as <-|]. destruct (decide _); [|done].
    injection Hstep as <-. destruct Hp as [Hsv Ho]. pose proof (without_clone_length clone (orphans p)) as Hle.
    split; cbn [server orphans].
    + replace (Serve.max_open_handles c - zlen (without_clone clone (orphans p))) with
        (Serve.max_open_handles c - zlen (orphans p) + (zlen (orphans p) - zlen (without_clone clone (orphans p)))) by lia.
      apply server_ok_permits; [done|]. pose proof (sk_permits _ _ _ _ _ _ (vk_shared _ _ _ _ _ _ Hsv)). lia.
    + apply Forall_forall. intros file [? _]%list_elem_of_filter. done.
Qed.

Lemma process_run_ok events (p p' : Process H F) :
  Forall wf_process_event events →
  (∀ before e after p1, events = before ++ e :: after → process_run before p = Some p1 → process_grant_allowed e p1) →
  process_run events p = Some p' → process_ok I rw p → process_ok I rw p'.
Proof.
  intros Hwf. revert p. induction Hwf as [|e events He Hwf IH]; intros p Hg; simpl; [by intros [= <-]|].
  destruct (process_step e p) as [p1|] eqn:E; [|done]. cbn [mbind option_bind]. intros Hrun Hok.
  apply (IH p1); [|done|].
  - intros before e' after p2 -> Hb. apply (Hg (e :: before) e' after); [done|]. simpl. by rewrite E.
  - eapply process_step_ok; [done| |done|done]. by apply (Hg [] e events).
Qed.
End process_runs.
End runs.

(** * Theorems *)

(** The peer is gone: the wait for a permit, if there is one, ends first, then
    the requests are aborted. *)
Definition hang_up_requests (k : nat) (cn : Connection) : list Event :=
  match Connection.accepted cn with Some _ => [PermitTimedOut k] | None => [] end ++
  map (λ r, RequestEnded k r false) (elements (dom (Connection.request_tasks cn))).

Lemma hang_up_closes {H F} k cn : Forall (λ e, ∀ sv sv' : Server H F, closed_files e sv sv' = []) (hang_up_requests k cn).
Proof.
  unfold hang_up_requests. apply Forall_app. split; [destruct (Connection.accepted cn); by repeat constructor|].
  apply Forall_map, Forall_true. done.
Qed.

Lemma filter_reject_all {A} (P : A → Prop) `{∀ x, Decision (P x)} l : (∀ x, x ∈ l → ¬ P x) → filter P l = [].
Proof.
  induction l as [|x l IH]; intros Hl; [done|]. rewrite filter_cons_False by (apply Hl; by left).
  apply IH. intros y Hy. apply Hl. by right.
Qed.

Section theorems.
Context {H : Type} `{HF : HostFiles H} `{HD : HostDirs H}.
Context {F : Type} `{SF : StateFs F} `{AR : Argon2} `{B64 : Base64Url}.
Context (sha256 : list Z → list Z) (b64_encode : list Z → list Z)
  (b64_decode : list Z → option (list Z)) (major minor : Z → Z)
  (stable_node_id : FileIdentity → NodeId)
  (hash_order : gset NodeId → list NodeId) (fresh_handle : gset FileHandle → FileHandle).
Context (users_from_json : list Z → result (list Z) UserDatabase)
  (pairing_from_json : list Z → result (list Z) PairingRecord)
  (hmac_sha256 : list Z → list Z → option (list Z)) (uuid_bytes uuid_text : Z → list Z)
  (hex_encode : list Z → list Z) (record_to_json : PersistentExportRecord → option (list Z))
  (node_key : list Z) (persistence : option PersistentExportState)
  (root : Path) (fingerprint : list Z).
Context (response_to : Envelope Response → option (list Z))
  (entry_to : DirectoryViewEntry → option (list Z))
  (zstd_compress : list Z → Z → option (list Z)) (decimal : Z → list Z).
Context (c : Serve) (export_epoch export_root : Z).

Abbreviation step := (step sha256 b64_encode b64_decode major minor stable_node_id hash_order
  fresh_handle users_from_json pairing_from_json hmac_sha256 uuid_bytes uuid_text hex_encode
  record_to_json node_key persistence root fingerprint response_to entry_to zstd_compress decimal c
  export_epoch export_root).
Abbreviation run := (run sha256 b64_encode b64_decode major minor stable_node_id hash_order
  fresh_handle users_from_json pairing_from_json hmac_sha256 uuid_bytes uuid_text hex_encode
  record_to_json node_key persistence root fingerprint response_to entry_to zstd_compress decimal c
  export_epoch export_root).
Abbreviation process_run := (process_run sha256 b64_encode b64_decode major minor stable_node_id hash_order
  fresh_handle users_from_json pairing_from_json hmac_sha256 uuid_bytes uuid_text hex_encode
  record_to_json node_key persistence root fingerprint response_to entry_to zstd_compress decimal c
  export_epoch export_root).

(** A hash map iterates once over each key, a new handle is not in use, and
    directory streams yield names of one component. *)
Context (hash_order_perm : ∀ s, hash_order s ≡ₚ elements s)
  (fresh_handle_new : ∀ s, fresh_handle s ∉ s) (Hdir : honest_streams H).

Lemma serve_run_app l l' (sv : Server H F) : run (l ++ l') sv = run l sv ≫= run l'.
Proof. revert sv. induction l as [|e l IH]; intros sv; simpl; [done|]. rewrite option_bind_assoc.
  apply option_bind_ext_fun. apply IH.
Qed.

Lemma reachable_ok max_permits events root_identity name h (f : F) p :
  validate_configuration max_permits c = Ok tt → unsigned c → Forall wf_process_event events →
  process_run events (process_start c root_identity name h f) = Some p →
  process_ok stable_node_id c (λ _, True) true p.
Proof.
  intros Hv Hu Hwf Hrun.
  destruct (serve_start_ok stable_node_id c max_permits (λ _, True) true root_identity name h f Hv Hu Logic.I)
    as (Hk & Hw & Hstart).
  assert (host_keeps H (λ _, True) true) as HK by (split; try done; intros; by eapply Hdir).
  eapply (process_run_ok sha256 b64_encode b64_decode major minor stable_node_id hash_order fresh_handle); try done.
  - intros before e after p1 _ _. by destruct e as [[]| |].
  - split; [|by constructor]. cbn [process_start server orphans]. by replace (_ - zlen []) with (Serve.max_open_handles c) by (unfold zlen; simpl; lia).
Qed.

Lemma without_clone_union clone (files : list (gset nat)) : ⋃ without_clone clone files = ⋃ files ∖ {[clone]}.
Proof.
  apply set_eq. intros b. unfold without_clone. rewrite elem_of_difference, !elem_of_union_list. split.
  - intros (file & [_ Hf]%list_elem_of_filter & Hb). apply list_elem_of_fmap in Hf as (file' & -> & Hf). set_solver.
  - intros [(file & Hf & Hb) Hn]. exists (file ∖ {[clone]}). split; [|set_solver].
    apply list_elem_of_filter. split; [set_solver|]. apply list_elem_of_fmap. eauto.
Qed.

(** When the tasks that refer to open files end, no closed file is left. *)
Lemma clones_end n (p : Process H F) :
  (size (clones p) + size (⋃ orphans p))%nat = n → Forall (λ file, file ≠ ∅) (orphans p) →
  ∃ drops p', process_run (CloneDropped <$> drops) p = Some p' ∧ clones p' = ∅ ∧ orphans p' = [] ∧
    server p' = add_permits (zlen (orphans p)) (server p).
Proof.
  revert p. induction (lt_wf n) as [n _ IH]. intros p Hn Ho.
  assert (∀ clone p1, drop_clone clone p = Some p1 →
    (size (clones p1) + size (⋃ orphans p1) < n)%nat → Forall (λ file, file ≠ ∅) (orphans p1) →
    add_permits (zlen (orphans p1)) (server p1) = add_permits (zlen (orphans p)) (server p) →
    ∃ drops p', process_run (CloneDropped <$> drops) p = Some p' ∧ clones p' = ∅ ∧ orphans p' = [] ∧
      server p' = add_permits (zlen (orphans p)) (server p)) as Hstep.
  { intros clone p1 Hd Hlt Ho1 <-. destruct (IH _ Hlt p1 eq_refl Ho1) as (drops & p' & Hrun & Hrest).
    exists (clone :: drops), p'. split; [|done]. cbn [fmap list_fmap ServeLoop.process_run ServeLoop.process_step].
    rewrite Hd. exact Hrun. }
  destruct (map_choose_or_empty (clones p)) as [(clone & file & Hc)|Hc].
  - apply (Hstep clone (MkProcess (server p) (delete clone (clones p)) (orphans p))); [| |done|done].
    + unfold drop_clone. rewrite decide_True by by eapply elem_of_dom_2. done.
    + simpl. rewrite map_size_delete, Hc. assert (size (clones p) ≠ 0%nat); [|lia].
      rewrite map_size_non_empty_iff. intros E. by rewrite E, lookup_empty in Hc.
  - destruct (orphans p) as [|file files] eqn:Eo.
    + exists [], p. split_and!; try done. destruct p as [[[] ? ? ?] ? ?]. unfold add_permits. simpl.
      by rewrite Z.add_0_r.
    + apply Forall_cons in Ho as [Hf Ho]. destruct (set_choose_L file Hf) as [clone Hin].
      assert (clone ∈ ⋃ orphans p) as Hu by (rewrite Eo; set_solver).
      apply (Hstep clone (MkProcess (add_permits (zlen (orphans p) - zlen (without_clone clone (orphans p))) (server p))
        (clones p) (without_clone clone (orphans p)))); cbn [clones orphans server].
      * unfold drop_clone. rewrite Hc, dom_empty_L, decide_False by set_solver. by rewrite decide_True.
      * rewrite without_clone_union. assert (size (⋃ orphans p ∖ {[clone]}) < size (⋃ orphans p))%nat; [|rewrite Eo in *; lia].
        apply subset_size. set_solver.
      * apply Forall_forall. intros g [? _]%list_elem_of_filter. done.
      * rewrite <- Eo. destruct p as [[[] ? ? ?] ? ?]. unfold add_permits. simpl. do 2 f_equal. lia.
Qed.

(** C7: The daemon accounts for everything it hands out.
    After any sequence of events of any connections, whatever arrives, however
    requests interleave, fail, time out or are aborted, and whatever goes on
    without them: the connections, the requests that run, and the bytes that they
    hold permits for, of one connection and of all, stay within the configured
    limits; the free handle permits, the open handles and the files that are
    closed but still referred to by a task add up to [max_open_handles]; the
    registry and every working set stay within theirs; locks exclude each other and
    every lock belongs to an established connection.  When no connection is left,
    every permit of the loop is free and no lock remains, and the handle permits
    that are not free belong to files that a task still refers to; they are free
    when these tasks have ended. *)
Theorem daemon_accounting max_permits events root_identity name h (f : F) p :
  validate_configuration max_permits c = Ok tt → unsigned c → Forall wf_process_event events →
  process_run events (process_start c root_identity name h f) = Some p →
  let conns := connections (server p) in
  let sh := shared (server p) in
  (map_sum connection_permit conns ≤ Serve.max_concurrent_connections c ∧
   map_sum (connection_sum running) conns ≤ Serve.max_concurrent_requests c ∧
   map_sum (connection_sum held_reads) conns ≤ Serve.max_in_flight_read_bytes c ∧
   map_sum (connection_sum held_writes) conns ≤ Serve.max_in_flight_write_bytes c) ∧
  (0 ≤ Shared.handle_permits sh ∧
   Shared.handle_permits sh + map_sum (connection_sum open_handles) conns + zlen (orphans p) = Serve.max_open_handles c ∧
   Forall (λ file, file ≠ ∅) (orphans p) ∧
   Z.of_nat (size (by_node (Shared.registry sh))) ≤ Serve.max_total_known_nodes c) ∧
  (∀ k t cn, conns !! k = Some t → connection_of t = Some cn →
     held_writes cn ≤ Serve.max_in_flight_write_bytes_per_connection c ∧
     Z.of_nat (size (known_nodes (Connection.nodes cn))) ≤ Serve.max_known_nodes_per_connection c) ∧
  (lock_inv (Shared.locks sh) ∧
   ∀ record, record ∈ Shared.locks sh → live conns (LockRecord.session record)) ∧
  (conns = ∅ →
     permits (server p) = Permits.Mk (Serve.max_concurrent_requests c) (Serve.max_concurrent_connections c)
       (Serve.max_in_flight_read_bytes c) (Serve.max_in_flight_write_bytes c) ∧
     Shared.locks sh = [] ∧
     ∃ drops p', process_run (CloneDropped <$> drops) p = Some p' ∧ orphans p' = [] ∧
       Shared.handle_permits (shared (server p')) = Serve.max_open_handles c).
Proof.
  intros Hv Hu Hwf Hrun conns sh. pose proof (reachable_ok _ _ _ _ _ _ _ Hv Hu Hwf Hrun) as [[Hs Hp Hc] Hor].
  destruct Hs as [[_ _ [Hb0 Hb] _] Hl Ho _ Hp0 Hh], Hp as [(? & ? & ? & ?) Hr Hn Hx Hw]. subst conns sh.
  simpl in Hb. split_and!; try done; try lia.
  - intros k t cn Hk Ht. destruct (ck_each _ _ _ Hc _ _ _ Hk Ht) as [[_ _ ? Hbud] _ ? ? _ _ _ _]. simpl in Hbud. lia.
  - intros E. rewrite E, map_sum_empty in Hr, Hx, Hw, Hh, Hn.
    split_and!; [destruct (permits (server p)); simpl in *; f_equal; lia| |].
    + destruct (Shared.locks _) as [|r l]; [done|]. destruct (Ho r) as (k & cn & Hk & _); [by left|].
      by rewrite E, lookup_empty in Hk.
    + destruct (clones_end _ p eq_refl Hor) as (drops & p' & Hd & _ & Ho' & Es).
      exists drops, p'. split_and!; [done|done|]. rewrite Es. simpl. lia.
Qed.

(** C4: A daemon whose users may not write leaves the exported tree alone.
    Whatever connections do at the same time, if the export is not writable, or
    every account that a request authenticates with, in the state in which it
    runs, may not write, then an observation of the tree that reading leaves
    alone is in the end what it was at the start. *)
Theorem daemon_read_only {T} (tree : H → T) max_permits events root_identity name h (f : F) p :
  unaffected_by_reads tree →
  validate_configuration max_permits c = Ok tt → unsigned c → Forall wf_process_event events →
  (∀ before k r d verifying after p1 a, events = before ++ Loop (Handled k r d verifying) :: after →
     process_run before (process_start c root_identity name h f) = Some p1 →
     accepted_account users_from_json root (server p1) k r a →
     Serve.allow_writes c = true → UserAuthorization.writable a = false) →
  process_run events (process_start c root_identity name h f) = Some p →
  tree (Shared.host (shared (server p))) = tree h.
Proof.
  intros Htree Hv Hu Hwf Hro Hrun.
  destruct (serve_start_ok stable_node_id c max_permits (λ h', tree h' = tree h) false root_identity name h f Hv Hu eq_refl)
    as (Hk & Hw & Hstart).
  assert (process_ok stable_node_id c (λ h', tree h' = tree h) false p) as [[Hs _ _] _]; [|by destruct Hs].
  eapply (process_run_ok sha256 b64_encode b64_decode major minor stable_node_id hash_order fresh_handle);
    [done|done|by apply tree_host_keeps|done|done|done| |done|].
  - intros before e after p1 E Hb. destruct e as [e| |]; [|done|done]. destruct e; try done. intros a Ha Hwr Hwa.
    rewrite (Hro _ _ _ _ _ _ _ _ E Hb Ha Hwr) in Hwa. done.
  - split; [|by constructor]. cbn [process_start server orphans]. by replace (_ - zlen []) with (Serve.max_open_handles c) by (unfold zlen; simpl; lia).
Qed.

(** Aborted requests give back what they hold. *)
Lemma abort_all_effect k l (sv : Server H F) cn :
  established sv k = Some cn → NoDup l → (∀ r, r ∈ l ↔ r ∈ dom (Connection.request_tasks cn)) →
  ∃ sv', run (map (λ r, RequestEnded k r false) l) sv = Some sv' ∧
    shared sv' = shared sv ∧ listening sv' = listening sv ∧
    permits sv' = Permits.Mk (Permits.requests (permits sv) + running cn) (Permits.connections (permits sv))
      (Permits.reads (permits sv) + held_reads cn) (Permits.writes (permits sv) + task_sum task_writes cn) ∧
    connections sv' = <[k := Established (set_tasks (Connection.write_permits cn + task_sum task_writes cn) ∅ cn)]>
      (connections sv).
Proof.
  intros Hk Hl. revert sv cn Hk. induction Hl as [|r l Hr Hl IH]; intros sv cn Hk Hdom; simpl.
  - assert (Connection.request_tasks cn = ∅) as E.
    { apply map_empty. intros r. apply not_elem_of_dom. rewrite <- Hdom. apply not_elem_of_nil. }
    exists sv. unfold running, held_reads, task_sum. rewrite E, !map_sum_empty, !Z.add_0_r.
    split_and!; [done..|by destruct (permits sv)|]. symmetry. apply insert_id. apply established_lookup in Hk.
    rewrite Hk. destruct cn. simpl in *. by subst.
  - destruct (Connection.request_tasks cn !! r) as [t|] eqn:Ht; [|by apply not_elem_of_dom in Ht; destruct Ht; apply Hdom; left].
    unfold end_request at 1. rewrite Hk. cbn [mbind option_bind]. rewrite Ht. cbn [mbind option_bind].
    set (cn1 := set_tasks _ _ cn). set (sv1 := MkServer _ _ _ _).
    destruct (IH sv1 cn1) as (sv' & Hrun & Esh & El & Ep & Ec).
    + apply established_lookup, lookup_insert_eq.
    + intros j. subst cn1. simpl. rewrite dom_delete, elem_of_difference, not_elem_of_singleton.
      specialize (Hdom j). rewrite elem_of_cons in Hdom. split; [|naive_solver].
      intros Hj. split; [apply Hdom; by right|]. by intros ->.
    + exists sv'. split; [exact Hrun|]. rewrite Esh, El, Ep, Ec. subst sv1 cn1.
      cbn [shared listening permits connections]. rewrite insert_insert_eq.
      assert (∀ g w, task_sum g (set_tasks w (delete r (Connection.request_tasks cn)) cn) = task_sum g cn - g t) as Hsum.
      { intros. unfold task_sum. simpl. by rewrite map_sum_delete_lookup, Ht. }
      unfold running, held_reads. rewrite !Hsum. unfold release_task. change (task_writes t) with (Budget.writes (RequestTask.budget t)). simpl.
      split_and!; [done|done|f_equal; lia|]. do 2 f_equal. unfold set_tasks. simpl. f_equal. lia.
Qed.

(** The end of a connection without requests or writes of its own. *)
Lemma end_connection_effect (sv : Server H F) k cn :
  registry_ok stable_node_id (serve_limits c) (Shared.registry (shared sv)) →
  established sv k = Some cn → Connection.accepted cn = None → Connection.request_tasks cn = ∅ →
  Connection.detached cn = ∅ →
  ∃ sv', end_connection hash_order c export_epoch export_root k sv = Some sv' ∧
    connections sv' = delete k (connections sv) ∧
    permits sv' = Permits.Mk (Permits.requests (permits sv)) (Permits.connections (permits sv) + 1)
      (Permits.reads (permits sv)) (Permits.writes (permits sv)) ∧
    Shared.handle_permits (shared sv') = Shared.handle_permits (shared sv) + open_handles cn ∧
    (∀ record, record ∈ Shared.locks (shared sv') ↔
       record ∈ Shared.locks (shared sv) ∧ LockRecord.session record ≠ Connection.session cn) ∧
    Shared.host (shared sv') = Shared.host (shared sv) ∧ Shared.auth_root (shared sv') = Shared.auth_root (shared sv).
Proof.
  intros Hreg Hk Ha Ht Hd. unfold end_connection. rewrite Hk. cbn [mbind option_bind]. rewrite Ha.
  rewrite !bool_decide_eq_true_2 by done. cbn [negb].
  destruct (cleanup_locks_effect (export_config c export_epoch export_root (Connection.session cn)) (session_of sv cn))
    as (Hn & Hper & Hhost & Hlocks).
  set (s := (cleanup_locks _ _).2) in *. clearbody s. unfold drop_drained.
  set (sv1 := MkServer (with_session s _) _ _ _).
  destruct (drop_session_effect stable_node_id (serve_limits c) hash_order
    (export_config c export_epoch export_root (Connection.session cn)) (session_of sv1 cn))
    as (_ & Hper' & Hlocks' & Hhost').
  { change (registry_ok stable_node_id (serve_limits c) (registry (nodes s))). by rewrite Hn. }
  set (s' := (drop_session _ _ _).2) in *. clearbody s'.
  eexists. split; [reflexivity|]. subst sv1. cbn [connections shared permits with_session Shared.handle_permits Shared.locks
    Shared.host Shared.auth_root session_of handle_permits locks host Shared.registry] in *.
  rewrite delete_insert_eq, Hper', Hper, Hlocks', Hlocks, Hhost', Hhost.
  split_and!; try done. intros r. rewrite !remove_session_spec. simpl. tauto.
Qed.

(** The events before the last leave the open files alone. *)
Lemma process_run_loops events (p : Process H F) sv' :
  Forall (λ e, ∀ sv sv' : Server H F, closed_files e sv sv' = []) events → run events (server p) = Some sv' →
  process_run (Loop <$> events) p = Some (MkProcess sv' (clones p) (orphans p)).
Proof.
  intros Hc. revert p. induction Hc as [|e events He Hc IH]; intros p; cbn [ServeLoop.run].
  - intros [= <-]. by destruct p.
  - destruct (step e (server p)) as [sv1|] eqn:E; [|done].
    cbn [mbind option_bind]. intros Hrun.
    cbn [fmap list_fmap ServeLoop.process_run ServeLoop.process_step]. rewrite E. cbn [mbind option_bind].
    rewrite He. unfold keep_referenced. cbn [fmap list_fmap filter list_filter app].
    replace (filter _ (clones p)) with (clones p)
      by (symmetry; apply map_filter_id; intros ? ? _; apply not_elem_of_nil).
    replace (add_permits _ sv1) with sv1
      by (destruct sv1 as [[] ? ? ?]; unfold add_permits; simpl; by rewrite Z.add_0_r).
    apply (IH (MkProcess sv1 (clones p) (orphans p))). exact Hrun.
Qed.

Lemma process_run_app l l' (p : Process H F) : process_run (l ++ l') p = process_run l p ≫= process_run l'.
Proof. revert p. induction l as [|e l IH]; intros p; simpl; [done|]. rewrite option_bind_assoc.
  apply option_bind_ext_fun. apply IH.
Qed.

(** The requests of a connection end, then the connection. *)
Lemma hang_up_effect (sv : Server H F) k cn :
  registry_ok stable_node_id (serve_limits c) (Shared.registry (shared sv)) → established sv k = Some cn →
  Connection.detached cn = ∅ →
  ∃ sv2 sv', run (hang_up_requests k cn) sv = Some sv2 ∧ run [ConnectionEnded k] sv2 = Some sv' ∧
    connections sv' = delete k (connections sv) ∧
    permits sv' = Permits.Mk (Permits.requests (permits sv) + running cn) (Permits.connections (permits sv) + 1)
      (Permits.reads (permits sv) + held_reads cn) (Permits.writes (permits sv) + held_writes cn) ∧
    Shared.handle_permits (shared sv') = Shared.handle_permits (shared sv) + open_handles cn ∧
    (∀ record, record ∈ Shared.locks (shared sv') ↔
       record ∈ Shared.locks (shared sv) ∧ LockRecord.session record ≠ Connection.session cn) ∧
    Shared.host (shared sv') = Shared.host (shared sv) ∧ Shared.auth_root (shared sv') = Shared.auth_root (shared sv).
Proof.
  intros Hreg Hk Hd. unfold hang_up_requests. rewrite serve_run_app.
  assert (∃ sv1, run (match Connection.accepted cn with Some _ => [PermitTimedOut k] | None => [] end) sv = Some sv1 ∧
    shared sv1 = shared sv ∧ permits sv1 = permits sv ∧
    connections sv1 = <[k := Established (set_accepted None cn)]> (connections sv)) as (sv1 & -> & Esh & Ep & Ec).
  { destruct (Connection.accepted cn) eqn:Ea; simpl.
    - unfold permit_timed_out. rewrite Hk. cbn [mbind option_bind]. rewrite Ea. by eexists.
    - exists sv. split_and!; try done. symmetry. apply insert_id. apply established_lookup in Hk.
      rewrite Hk. destruct cn. simpl in Ea. by subst. }
  cbn [mbind option_bind].
  destruct (abort_all_effect k (elements (dom (Connection.request_tasks cn))) sv1 (set_accepted None cn))
    as (sv2 & Hrun2 & Esh2 & _ & Ep2 & Ec2).
  { apply established_lookup. rewrite Ec. apply lookup_insert_eq. }
  { apply NoDup_elements. }
  { intros r. apply elem_of_elements. }
  set (cn2 := set_tasks _ _ _) in Ec2. rewrite Ec, insert_insert_eq in Ec2.
  destruct (end_connection_effect sv2 k cn2) as (sv3 & Hend & Ec3 & Ep3 & Hrest); try done.
  { by rewrite Esh2, Esh. }
  { apply established_lookup. rewrite Ec2. apply lookup_insert_eq. }
  exists sv2, sv3. split; [exact Hrun2|]. split; [cbn [ServeLoop.run ServeLoop.step]; by rewrite Hend|]. rewrite Ec3, Ec2, delete_insert_eq, Ep3, Ep2, Ep. rewrite Esh2, Esh in Hrest.
  split_and!; try apply Hrest; [done|]. simpl. f_equal. unfold held_writes. by rewrite Hd, map_sum_empty, Z.add_0_r.
Qed.

(** A lost connection holds nothing back.
    In every state that the daemon reaches, whatever the other connections and
    its own requests are doing, the loss of a connection ends it: its requests
    are aborted and give back their permits, and, when none of its writes goes
    on without a request, its handle permits are free, or with the files that
    tasks still refer to (none, when there are no references to its files); its
    locks are gone and no others, and neither the other connections, the exported
    files nor the state directory are touched. *)
Theorem connection_end_releases max_permits events root_identity name h (f : F) p k cn :
  validate_configuration max_permits c = Ok tt → unsigned c → Forall wf_process_event events →
  process_run events (process_start c root_identity name h f) = Some p → established (server p) k = Some cn →
  Connection.detached cn = ∅ →
  let sv := server p in
  ∃ p', process_run (Loop <$> hang_up_requests k cn ++ [ConnectionEnded k]) p = Some p' ∧
    connections (server p') = delete k (connections sv) ∧
    permits (server p') = Permits.Mk (Permits.requests (permits sv) + running cn) (Permits.connections (permits sv) + 1)
      (Permits.reads (permits sv) + held_reads cn) (Permits.writes (permits sv) + held_writes cn) ∧
    Shared.handle_permits (shared (server p')) + zlen (orphans p') =
      Shared.handle_permits (shared sv) + zlen (orphans p) + open_handles cn ∧
    ((∀ clone handle, clones p !! clone ≠ Some (k, handle)) → orphans p' = orphans p) ∧
    (∀ record, record ∈ Shared.locks (shared (server p')) ↔
       record ∈ Shared.locks (shared sv) ∧ LockRecord.session record ≠ Connection.session cn) ∧
    Shared.host (shared (server p')) = Shared.host (shared sv) ∧
    Shared.auth_root (shared (server p')) = Shared.auth_root (shared sv).
Proof.
  intros Hv Hu Hwf Hrun Hk Hd sv. pose proof (reachable_ok _ _ _ _ _ _ _ Hv Hu Hwf Hrun) as [[Hs _ _] _].
  destruct (hang_up_effect sv k cn) as (sv2 & sv3 & Hrun2 & Hrun3 & Ec & Ep & Eh & Hl & Eho & Ea); [by destruct Hs|done|done|].
  cbn [ServeLoop.run ServeLoop.step] in Hrun3. destruct (end_connection _ _ _ _ _ _) as [sv4|] eqn:E; [|done].
  injection Hrun3 as ->. rewrite fmap_app, process_run_app.
  rewrite (process_run_loops (hang_up_requests k cn) p sv2); [|apply hang_up_closes|exact Hrun2].
  cbn [mbind option_bind fmap list_fmap ServeLoop.process_run ServeLoop.process_step server ServeLoop.step]. rewrite E.
  cbn [mbind option_bind]. eexists. split; [done|]. unfold keep_referenced. cbn [server orphans clones connections shared permits
    add_permits Shared.handle_permits Shared.locks Shared.host Shared.auth_root].
  split_and!; try done.
  - unfold zlen. rewrite length_app. lia.
  - intros Hno. cbn [closed_files]. rewrite filter_reject_all; [done|].
    intros file (file' & -> & Hin)%list_elem_of_fmap. destruct (decide _); [|by apply not_elem_of_nil in Hin].
    apply list_elem_of_fmap in Hin as (handle & -> & _). intros Hne. apply Hne. unfold references.
    cbn [clones]. apply dom_empty_iff_L, map_empty. intros clone. apply map_lookup_filter_None. right.
    intros file Hc Hf. simpl in Hf. subst. by eapply Hno.
Qed.
End theorems.
