(* ===== verification/ServeLoopExample.v ===== *)
(** The loop of the small daemon of [DaemonExample] with two connections. *)

From S2P Require Import Prelude Protocol Common StateFiles Auth AuthFacts RateLimiter Transport ViewStream Locks Registry XattrNames FileIO Attributes HostDirs Forks Session RegistryPaths HostFacts SessionFacts SessionSafety ExportState Daemon DaemonFacts ServeLoop ServeLoopFacts.
Import DaemonExample.

#[local] Existing Instance AuthExample.argon.
#[local] Existing Instance DaemonExample.base64.

Module LoopExample.
Definition start : Process LogHost.Log MemState.Mem :=
  process_start serve LogHost.root_identity (lit "quicKFS") (LogHost.Mk [] [] 0) AuthExample.after_add.

Abbreviation with_daemon f :=
  (f (λ b, b) (λ b, b) Some (λ d, d) (λ d, d) ex_stable ex_order LogHost.fresh AuthExample.from_json
    (λ _, Err []) (λ k m, Some (k ++ m)) (λ u, [u]) AuthExample.uuid_text (λ b, b) (λ _, None) [] None
    AuthExample.root (lit "fp") (λ _, Some []) (λ _, Some []) (λ _ _, None) (λ n, [n]) serve 7 1).

Definition request_event (k : nat) (i : Input) : Event := StreamAccepted k i.1.1 i.1.2.

(** A request runs from its stream to its answer. *)
Definition complete (k r : nat) (i : Input) : list Event :=
  [request_event k i; PermitAcquired k r; Handled k r i.2 0; RequestEnded k r false].

Definition read_lock : Request :=
  Request.SetLock (MkFileHandle 0) (FileLock.Mk 3 0 9 LockKind.Read 1) false.
Definition open_root_file : Request := Request.OpenFile LogHost.node_f FileOpenOptions.READ_ONLY.

(** Of three connections the first authenticates, lists the directory, opens a
    file and locks a part of it; the second asks for a directory without having
    authenticated, while the first one's password is being verified; the third
    fails its handshake.  In the end a read holds its permits, and a stream waits. *)
Definition events : list Event :=
  [Arrived 0; HandshakeDone 0 (V4 1) 100; Arrived 1; HandshakeDone 1 (V4 2) 101; Arrived 2;
   request_event 0 login; PermitAcquired 0 0; request_event 1 create; PermitAcquired 1 0;
   Handled 1 0 draws 1; Handled 0 0 draws 0; HandshakeFailed 2; RequestEnded 1 0 false; RequestEnded 0 0 false] ++
  complete 0 1 (request (Request.ListDirectory ROOT_NODE)) ++
  complete 0 2 (request open_root_file) ++
  complete 0 3 create ++
  complete 0 5 (request read_lock) ++
  [request_event 0 (request (Request.ReadRange (MkFileHandle 0) 0 10)); PermitAcquired 0 4;
   BytesAcquired 0 4; request_event 0 create].

Definition reached : option (Process LogHost.Log MemState.Mem) :=
  with_daemon ServeLoop.process_run (Loop <$> events) start.

(** Only an account without write permission, and what it may not do. *)
Definition read_only_events : list ProcessEvent :=
  Loop <$> [Arrived 0; HandshakeDone 0 (V4 1) 100; request_event 0 login; PermitAcquired 0 0; Handled 0 0 draws 0;
   request_event 0 create; PermitAcquired 0 1; Handled 0 1 draws 0].

Lemma handled_positions before k r d v after :
  read_only_events = before ++ Loop (Handled k r d v) :: after →
  (before = take 4 read_only_events ∧ k = 0%nat ∧ r = 0%nat) ∨
  (before = take 7 read_only_events ∧ k = 0%nat ∧ r = 1%nat).
Proof.
  unfold read_only_events, request_event. cbn [fmap list_fmap]. generalize login.1.1, login.1.2, create.1.1, create.1.2, draws.
  intros r1 b1 r2 b2 d0 Ee.
  do 4 (destruct before as [|? before]; [discriminate Ee|injection Ee as <- Ee]).
  destruct before as [|? before]; [injection Ee as <- <- _ _ _; by left|injection Ee as <- Ee].
  do 2 (destruct before as [|? before]; [discriminate Ee|injection Ee as <- Ee]).
  destruct before as [|? before]; [injection Ee as <- <- _ _ _; by right|injection Ee as <- Ee; by destruct before].
Qed.

(** The two requests that run, and the account of the first. *)
Lemma first_handled :
  match with_daemon ServeLoop.process_run (take 4 read_only_events) start with
  | Some p =>
      match established (server p) 0 with
      | Some cn =>
          match Connection.request_tasks cn !! 0%nat with
          | Some t => Envelope.message (RequestTask.request t) =
                Request.Authenticate AuthExample.alice (MkSecretString AuthExample.password) ∧
              match verify_user_authorization AuthExample.from_json AuthExample.root AuthExample.alice
                      AuthExample.password (Shared.auth_root (shared (server p))) with
              | (Ok (Some a), _) => UserAuthorization.writable a = false
              | _ => False
              end
          | None => False
          end
      | None => False
      end
  | None => False
  end.
Proof. vm_compute. split; reflexivity. Qed.

Lemma second_handled :
  match with_daemon ServeLoop.process_run (take 7 read_only_events) start with
  | Some p =>
      match established (server p) 0 with
      | Some cn =>
          match Connection.request_tasks cn !! 1%nat with
          | Some t => Envelope.message (RequestTask.request t) = Request.CreateDirectory ROOT_NODE (lit "d") 493
          | None => False
          end
      | None => False
      end
  | None => False
  end.
Proof. vm_compute. reflexivity. Qed.

Lemma read_only_reached : is_Some (with_daemon ServeLoop.process_run read_only_events start).
Proof. apply (bool_decide_eq_true_1 _). vm_compute. reflexivity. Qed.

Lemma serve_unsigned : unsigned serve.
Proof. repeat constructor; vm_compute; discriminate. Qed.
Lemma events_wf : Forall wf_process_event (Loop <$> events).
Proof. repeat constructor; vm_compute; discriminate. Qed.

(** A connection that may write opens the file and sends three bytes; its request
    is out of time when the write has been spawned, and the connection is lost. *)
Definition open_file : Request :=
  Request.OpenFile LogHost.node_f (FileOpenOptions.Mk FileAccess.ReadWrite false false).
Definition write_input : Input :=
  ((request (Request.WriteRange (MkFileHandle 0) 0 3)).1.1, [1; 2; 3], draws).
Definition grant (p : Process LogHost.Log MemState.Mem) : option (Process LogHost.Log MemState.Mem) :=
  cn ← established (server p) 0;
  Some (MkProcess (set_connection 0 (Established (Connection.Mk (Connection.session cn) (Connection.peer_ip cn) (Connection.nodes cn)
    true (Connection.auth cn) (Connection.write_permits cn) (Connection.accepted cn) (Connection.request_tasks cn)
    (Connection.detached cn))) (server p)) (clones p) (orphans p)).

Definition drained : option (Process LogHost.Log MemState.Mem) :=
  p ← with_daemon ServeLoop.process_run (Loop <$> [Arrived 0; HandshakeDone 0 (V4 1) 100] ++ complete 0 0 login) start;
  p ← grant p;
  with_daemon ServeLoop.process_run (Loop <$> complete 0 1 (request (Request.ListDirectory ROOT_NODE)) ++
    complete 0 2 (request open_file) ++
    [request_event 0 write_input; PermitAcquired 0 3; BytesAcquired 0 3; RequestEnded 0 3 true; ConnectionEnded 0]) p.

(** The connection permit is free; the session, its handle and the bytes of the
    write are not, until the write is done. *)
Example detached_write_held :
  match server <$> drained with
  | Some sv => (size (connections sv), established sv 0, permits sv, LogHost.writes (Shared.host (shared sv))) =
      (1%nat, None, Permits.Mk 8 8 1000 997, 0%nat)
  | None => False
  end.
Proof. vm_compute. reflexivity. Qed.

Example detached_write_done :
  match server <$> (drained ≫= with_daemon ServeLoop.process_run [Loop (DetachedDone 0 3)]) with
  | Some sv => (size (connections sv), permits sv, LogHost.writes (Shared.host (shared sv)),
      Shared.handle_permits (shared sv)) = (0%nat, Permits.Mk 8 8 1000 1000, 1%nat, Serve.max_open_handles serve)
  | None => False
  end.
Proof. vm_compute. reflexivity. Qed.

(** A read is aborted while its closure reads the file; its connection ends.  The
    permit of the file is not free before the closure is done. *)
Definition abandoned_read : list ProcessEvent :=
  Loop <$> [Arrived 0; HandshakeDone 0 (V4 1) 100] ++ complete 0 0 login ++
    complete 0 1 (request (Request.ListDirectory ROOT_NODE)) ++ complete 0 2 (request open_root_file) ++
    [request_event 0 (request (Request.ReadRange (MkFileHandle 0) 0 10)); PermitAcquired 0 3; BytesAcquired 0 3].
Definition abandoned_read_lost : list ProcessEvent :=
  abandoned_read ++ [Cloned 0 3 (MkFileHandle 0) 7; Loop (RequestEnded 0 3 false); Loop (ConnectionEnded 0)].

Definition handles_free (p : Process LogHost.Log MemState.Mem) : nat * Z * Z :=
  (length (orphans p), Permits.reads (permits (server p)), Shared.handle_permits (shared (server p))).

Example abandoned_read_holds_its_file :
  handles_free <$> with_daemon ServeLoop.process_run abandoned_read_lost start =
    Some (1%nat, 1000, Serve.max_open_handles serve - 1) ∧
  handles_free <$> with_daemon ServeLoop.process_run (abandoned_read_lost ++ [CloneDropped 7]) start =
    Some (0%nat, 1000, Serve.max_open_handles serve).
Proof. vm_compute. split; reflexivity. Qed.
End LoopExample.
Import LoopExample.

Lemma abandoned_read_wf : Forall wf_process_event abandoned_read_lost.
Proof. repeat constructor; vm_compute; discriminate. Qed.

Lemma daemon_accounting_witness :
  (∃ p, reached = Some p ∧ Shared.locks (shared (server p)) ≠ [] ∧ Permits.reads (permits (server p)) = 990 ∧
    map_sum (connection_sum held_reads) (connections (server p)) ≤ 1000) ∧
  ∃ p drops p', with_daemon ServeLoop.process_run abandoned_read_lost start = Some p ∧
    Shared.handle_permits (shared (server p)) < Serve.max_open_handles serve ∧
    with_daemon ServeLoop.process_run (CloneDropped <$> drops) p = Some p' ∧
    Shared.handle_permits (shared (server p')) = Serve.max_open_handles serve.
Proof.
  split.
  - assert (match reached with
            | Some p => Shared.locks (shared (server p)) ≠ [] ∧ Permits.reads (permits (server p)) = 990
            | None => False end) as Hp by (vm_compute; split; [discriminate|reflexivity]).
    destruct reached as [p|] eqn:E; [|destruct Hp]. unfold reached, start in E. exists p. split; [reflexivity|].
    split; [apply Hp|]. split; [apply Hp|].
    refine (proj1 (proj2 (proj2 (proj1 (with_daemon daemon_accounting ex_order_perm LogHost.fresh_new
      LogHost.log_streams 1000000 (Loop <$> events) LogHost.root_identity (lit "quicKFS") (LogHost.Mk [] [] 0)
      AuthExample.after_add p eq_refl serve_unsigned events_wf E))))).
  - assert (match with_daemon ServeLoop.process_run abandoned_read_lost start with
            | Some p => bool_decide (connections (server p) = ∅) &&
                (Shared.handle_permits (shared (server p)) <? Serve.max_open_handles serve) = true
            | None => False end) as Hp by (vm_compute; reflexivity).
    destruct (with_daemon ServeLoop.process_run abandoned_read_lost start) as [p|] eqn:E; [|destruct Hp].
    apply andb_true_iff in Hp as [Hc%bool_decide_eq_true_1 Hlt%Z.ltb_lt]. unfold start in E.
    destruct (with_daemon daemon_accounting ex_order_perm LogHost.fresh_new LogHost.log_streams 1000000
      abandoned_read_lost LogHost.root_identity (lit "quicKFS") (LogHost.Mk [] [] 0) AuthExample.after_add p
      eq_refl serve_unsigned abandoned_read_wf E) as (_ & _ & _ & _ & Hend).
    destruct (Hend Hc) as (_ & _ & drops & p' & Hd & _ & Hper). exists p, drops, p'.
    split; [reflexivity|]. split; [exact Hlt|]. split; [exact Hd|exact Hper].
Defined.

Lemma connection_end_releases_witness :
  ∃ p cn p', reached = Some p ∧ established (server p) 0 = Some cn ∧ Shared.locks (shared (server p)) ≠ [] ∧
    with_daemon ServeLoop.process_run (Loop <$> hang_up_requests 0 cn ++ [ConnectionEnded 0]) p = Some p' ∧
    connections (server p') = delete 0%nat (connections (server p)).
Proof.
  assert (match reached with
          | Some p => Shared.locks (shared (server p)) ≠ [] ∧
              match established (server p) 0 with Some cn => Connection.detached cn = ∅ | None => False end
          | None => False end) as Hp by (vm_compute; split; [discriminate|reflexivity]).
  destruct reached as [p|] eqn:E; [|destruct Hp]. unfold reached, start in E. destruct Hp as [Hl Hd].
  destruct (established (server p) 0) as [cn|] eqn:Hcn; [|destruct Hd].
  destruct (with_daemon connection_end_releases ex_order_perm LogHost.fresh_new
    LogHost.log_streams 1000000 (Loop <$> events) LogHost.root_identity (lit "quicKFS") (LogHost.Mk [] [] 0)
    AuthExample.after_add p 0%nat cn eq_refl serve_unsigned events_wf E Hcn Hd) as (p' & Hrun & Hconns & _).
  exists p, cn, p'. split; [reflexivity|]. split; [exact Hcn|]. split; [exact Hl|]. split; [exact Hrun|exact Hconns].
Defined.

Lemma daemon_read_only_witness :
  ∃ p, with_daemon ServeLoop.process_run read_only_events start = Some p ∧
    LogHost.writes (Shared.host (shared (server p))) = 0%nat.
Proof.
  destruct read_only_reached as [p E].
  exists p. split; [exact E|].
  refine (with_daemon daemon_read_only ex_order_perm LogHost.fresh_new LogHost.log_streams LogHost.writes 1000000
    read_only_events LogHost.root_identity (lit "quicKFS") (LogHost.Mk [] [] 0) AuthExample.after_add p
    LogHost.log_reads eq_refl serve_unsigned _ _ E).
  - repeat constructor; vm_compute; discriminate.
  - intros before k r d v after p1 a Ee Hb (cn & t & u & w & f & Hk & Hr & Em & Hv) _.
    change (process_start serve _ _ _ _) with start in Hb.
    apply handled_positions in Ee as [(-> & -> & ->)|(-> & -> & ->)].
    + pose proof first_handled as Hc. rewrite Hb, Hk, Hr in Hc. destruct Hc as [Hm Hf].
      rewrite Em in Hm. injection Hm as -> ->. cbn [secret_bytes] in Hv. rewrite Hv in Hf. exact Hf.
    + pose proof second_handled as Hc. rewrite Hb, Hk, Hr, Em in Hc. discriminate Hc.
Defined.
