(* ===== verification/Startup.v ===== *)
(** The start of the daemon: [Export::new_with_optional_state]
    ([crates/server-core/src/lib.rs]) and what [serve_until] does before it
    listens ([servers/linux/server-daemon/src/main.rs], lines 396-481). *)

From S2P Require Import Prelude Protocol Common StateFiles Auth AuthFacts RateLimiter Transport ViewStream Locks Registry XattrNames FileIO Attributes HostDirs Forks Session ExportState Daemon DaemonFacts ServeLoop.

(** What [ExportShared] keeps of the opened export besides the semaphores and the
    tables; [root_file] is the descriptor of its root directory. *)
Module ExportShared.
Record ExportShared := Mk {
  root_file : Z;
  root_identity : FileIdentity;
  epoch : Z;
  node_key : list Z;
  volume_name : list Z;
  persistence : option PersistentExportState;
  resource_forks : option Path
}.
End ExportShared.
Abbreviation ExportShared := ExportShared.ExportShared.

(** The errors of [serve_until] by the context that it adds to them. *)
Module StartError.
Inductive StartError :=
  | Configuration (message : list Z)
  | StateDirectory (e : IoError)
  | ExportRoot (e : IoError)
  | Overlap
  | UnsafeState (e : AuthError)
  | ActiveIdentity (e : AuthError)
  | Certificates (e : TransportError)
  | EmptyChain
  | PrivateKey (e : TransportError)
  | OpenExport (e : ServerError)
  | Endpoint (e : TransportError).
End StartError.
Abbreviation StartError := StartError.StartError.

Module Started.
Record Started (E : Type) := Mk {
  state_root : Path;
  export_root : Path;
  fingerprint : list Z;
  export : ExportShared;
  endpoint : E
}.
End Started.
Abbreviation Started := Started.Started.
Arguments Started.Mk {E} _ _ _ _ _.
Arguments Started.state_root {E} _.
Arguments Started.export_root {E} _.
Arguments Started.fingerprint {E} _.
Arguments Started.export {E} _.
Arguments Started.endpoint {E} _.

(** [Path::starts_with]. *)
Definition starts_with (path base : Path) : bool := bool_decide (base `prefix_of` path).

(** A computation on the state directory with its errors put into a context. *)
Definition with_context {F E E' A} (g : E → E') (m : SM F E A) : SM F E' A := λ f,
  let '(r, f') := m f in (map_err g r, f').

Section startup.
Context {F : Type} `{SF : StateFs F} {A E : Type}.
Context (sha256 : list Z → list Z) (hex_encode : list Z → list Z) (hex_decode : list Z → option (list Z))
  (record_to_json : PersistentExportRecord → option (list Z))
  (record_from_json : list Z → option PersistentExportRecord)
  (uuid_text : Z → list Z) (uuid_parse : list Z → option Z).
(** [fs::canonicalize], [fs::metadata] of a directory with its identity, the
    opened directory that is no link, the identity behind a descriptor,
    [DirBuilder] with a mode, and the bytes of a path. *)
Context (canonicalize : F → Path → result IoError Path)
  (root_metadata : F → Path → result IoError (FKind * FileIdentity))
  (open_directory : F → Path → result IoError Z) (descriptor_identity : F → Z → result IoError FileIdentity)
  (create_dir_mode : F → Path → Z → result IoError unit * F) (path_bytes : Path → list Z).

Definition es_ask {B} (call : F → result IoError B) : EM (F:=F) B := λ f,
  (map_err server_error_from_io (call f), f).

Definition open_root (path : Path) : EM (F:=F) Z := es_ask (λ f, open_directory f path).

Definition prepare_resource_fork_directory (state_file : Path) : EM (F:=F) Path :=
  dir ← sm_lift (ok_or (parent state_file) ServerError.StateUnavailable);
  let path := dir ++ [lit "filesystem-resource-forks"] in
  f ← sm_get;
  match symlink_metadata f path with
  | Ok metadata =>
      if bool_decide (FileMeta.kind metadata = FKind.Dir) then mret path
      else sm_err ServerError.StateUnavailable
  | Err e =>
      if bool_decide (io_kind e = IoKind.NotFound) then
        _ ← es_do (λ f, create_dir_mode f path 448);
        mret path
      else sm_err (server_error_from_io e)
  end.

(** [fresh_epoch], [fresh_key] and [temporary] are drawn when they are needed. *)
Definition new_with_optional_state (max_permits : Z) (root : Path) (limits : Limits)
    (state_file : option Path) (fresh_epoch : Z) (fresh_key temporary : list Z) : EM (F:=F) ExportShared :=
  _ ← sm_lift (validate_limits limits max_permits);
  root ← es_ask (λ f, canonicalize f root);
  metadata ← es_ask (λ f, root_metadata f root);
  if negb (bool_decide (metadata.1 = FKind.Dir)) then
    sm_err (ServerError.InvalidRequest (lit "export root is not a directory"))
  else
    root_file ← open_root root;
    opened ← es_ask (λ f, descriptor_identity f root_file);
    if negb (bool_decide (opened = metadata.2)) then sm_err ServerError.Conflict
    else
      let marker := export_marker sha256 hex_encode (path_bytes root) opened in
      match state_file with
      | Some path =>
          record ← load_or_create_export_record hex_encode hex_decode record_to_json record_from_json
                     fresh_epoch fresh_key temporary path marker;
          key ← sm_lift (decode_node_key hex_decode (PersistentExportRecord.node_key record));
          resource_forks ← prepare_resource_fork_directory path;
          mret (ExportShared.Mk root_file opened (PersistentExportRecord.epoch record) key
                  (PersistentExportRecord.volume_name record)
                  (Some (PersistentExportState.Mk path marker)) (Some resource_forks))
      | None =>
          mret (ExportShared.Mk root_file opened fresh_epoch fresh_key (lit "quicKFS") None None)
      end.

(** [Export::new_persistent_with_writes]. *)
Definition new_persistent_with_writes (max_permits : Z) (root state_file : Path) (limits : Limits)
    (fresh_epoch : Z) (fresh_key temporary : list Z) : EM (F:=F) ExportShared :=
  new_with_optional_state max_permits root limits (Some state_file) fresh_epoch fresh_key temporary.

(** ** [serve_until] before its loop *)

Context (decimal : Z → list Z) (fs_metadata : F → Path → result IoError FileMeta)
  (pem_certificates : list Z → result (list Z) (list (list Z)))
  (pem_private_key : list Z → result (list Z) (list Z))
  (single_cert : list (list Z) → list Z → option (list Z)) (quic_error : ServerConfig → option (list Z))
  (bind : ServerConfig → TransportConfig → A → result IoError E).
Context (c : Serve) (state_dir export_dir : Path) (address : A).

Definition startup (max_permits fresh_epoch : Z) (fresh_key temporary : list Z)
    : SM F StartError (Started E) :=
  _ ← sm_lift (map_err StartError.Configuration (validate_configuration max_permits c));
  f ← sm_get;
  state_root ← sm_lift (map_err StartError.StateDirectory (canonicalize f state_dir));
  export_root ← sm_lift (map_err StartError.ExportRoot (canonicalize f export_dir));
  if starts_with state_root export_root || starts_with export_root state_root then
    sm_err StartError.Overlap
  else
    _ ← with_context StartError.UnsafeState (validate_server_state uuid_text uuid_parse state_root);
    state_paths ← with_context StartError.ActiveIdentity (resolve uuid_text uuid_parse state_root);
    f ← sm_get;
    certificates ← sm_lift (map_err StartError.Certificates
      (load_certificates decimal fs_metadata pem_certificates f (StatePaths.certificate state_paths)));
    leaf ← sm_lift (ok_or (head certificates) StartError.EmptyChain);
    key ← sm_lift (map_err StartError.PrivateKey
      (load_private_key decimal fs_metadata pem_private_key f (StatePaths.private_key state_paths)));
    export ← with_context StartError.OpenExport
      (new_persistent_with_writes max_permits export_root (state_root ++ [lit "filesystem-export.json"])
         (serve_limits c) fresh_epoch fresh_key temporary);
    endpoint ← sm_lift (map_err StartError.Endpoint (server_endpoint single_cert quic_error bind address certificates key));
    mret (Started.Mk state_root export_root (sha256 leaf) export endpoint).

(** ** [serve_until] *)

Context {H : Type} `{HF : HostFiles H} `{HD : HostDirs H} `{AR : Argon2} `{B64 : Base64Url}.
Context (b64_encode : list Z → list Z) (b64_decode : list Z → option (list Z)) (major minor : Z → Z)
  (hash_order : gset NodeId → list NodeId) (fresh_handle : gset FileHandle → FileHandle)
  (users_from_json : list Z → result (list Z) UserDatabase)
  (pairing_from_json : list Z → result (list Z) PairingRecord)
  (hmac_sha256 : list Z → list Z → option (list Z)) (uuid_bytes : Z → list Z)
  (response_to : Envelope Response → option (list Z)) (entry_to : DirectoryViewEntry → option (list Z))
  (zstd_compress : list Z → Z → option (list Z)).

(** The start, and then the events of the loop; [h] is the exported tree. *)
Definition serve_until (max_permits fresh_epoch : Z) (fresh_key temporary : list Z) (events : list Event) (h : H)
    : SM F StartError (Started E * option (Server H F)) :=
  s ← startup max_permits fresh_epoch fresh_key temporary;
  f ← sm_get;
  let e := Started.export s in
  mret (s, run sha256 b64_encode b64_decode major minor (stable_node_id sha256 (ExportShared.node_key e)) hash_order
    fresh_handle users_from_json pairing_from_json hmac_sha256 uuid_bytes uuid_text hex_encode record_to_json
    (ExportShared.node_key e) (ExportShared.persistence e) (Started.state_root s) (Started.fingerprint s)
    response_to entry_to zstd_compress decimal c (ExportShared.epoch e) (ExportShared.root_file e) events
    (serve_start c (ExportShared.root_identity e) (ExportShared.volume_name e) h f)).

(** * The export and the private state *)

Lemma starts_with_disjoint p q rest rest' :
  starts_with p q || starts_with q p = false → p ++ rest ≠ q ++ rest'.
Proof.
  unfold starts_with. intros Hs Heq. apply orb_false_iff in Hs as [H1 H2]. bool_simpl.
  destruct (prefix_weak_total p q (p ++ rest)) as [?|?]; [by apply prefix_app_r|rewrite Heq; by apply prefix_app_r|done|done].
Qed.

Lemma with_context_ok {E1 E2 B} (g : E1 → E2) (m : SM F E1 B) f b f' :
  with_context g m f = (Ok b, f') ↔ m f = (Ok b, f').
Proof. unfold with_context. destruct (m f) as [[?|?] ?]; simpl; split; congruence. Qed.

(** What the opened export is. *)
Lemma new_with_state_ok max_permits root limits path fresh_epoch fresh_key temporary f e f' :
  new_persistent_with_writes max_permits root path limits fresh_epoch fresh_key temporary f = (Ok e, f') →
  ∃ root' dir, canonicalize f root = Ok root' ∧
    root_metadata f root' = Ok (FKind.Dir, ExportShared.root_identity e) ∧
    descriptor_identity f (ExportShared.root_file e) = Ok (ExportShared.root_identity e) ∧
    (∃ marker, ExportShared.persistence e = Some (PersistentExportState.Mk path marker)) ∧
    parent path = Some dir ∧ ExportShared.resource_forks e = Some (dir ++ [lit "filesystem-resource-forks"]).
Proof.
  unfold new_persistent_with_writes, new_with_optional_state, open_root, es_ask. sm_unfold.
  destruct (validate_limits limits max_permits); [|done].
  destruct (canonicalize f root) as [root'|] eqn:Ec; [|done]. simpl.
  destruct (root_metadata f root') as [[kind identity]|] eqn:Em; [|done]. simpl.
  destruct (negb _) eqn:Ek; [done|]. destruct (open_directory f root') as [fd|]; [|done]. simpl.
  destruct (descriptor_identity f fd) as [opened|] eqn:Eo; [|done]. simpl.
  destruct (negb (bool_decide (opened = identity))) eqn:Ei; [done|]. bool_simpl.
  destruct (load_or_create_export_record _ _ _ _ _ _ _ _ _ f) as [[record|] f1]; [|done].
  destruct (decode_node_key _ _) as [key|]; [|done].
  unfold prepare_resource_fork_directory, es_do. sm_unfold. destruct (parent path) as [dir|]; [|done]. simpl.
  intros Hrun. exists root', dir.
  assert (e = ExportShared.Mk fd identity (PersistentExportRecord.epoch record) key
    (PersistentExportRecord.volume_name record)
    (Some (PersistentExportState.Mk path (export_marker sha256 hex_encode (path_bytes root') identity)))
    (Some (dir ++ [lit "filesystem-resource-forks"]))) as ->.
  { repeat case_match; simplify_eq/=; done. }
  simpl. simpl in Ek. subst kind opened. by split_and!; [..|by eexists| |].
Qed.

(** C13: The exported tree never contains the server's private state.
    When the daemon starts, the configuration is valid, the state directory and
    every private file in it belong to the server and are closed to others, the
    two directories, with all links resolved, have no path in common, what is
    exported is the directory that was found at its path and not one that
    replaced it, and everything that the export stores outside the exported tree
    (its record, its resource forks) is in the state directory. *)
Theorem started_state_private max_permits fresh_epoch fresh_key temporary f s f' :
  startup max_permits fresh_epoch fresh_key temporary f = (Ok s, f') →
  (∀ path real, canonicalize f path = Ok real → canonicalize f real = Ok real) →
  let e := Started.export s in
  validate_configuration max_permits c = Ok tt ∧
  canonicalize f state_dir = Ok (Started.state_root s) ∧ canonicalize f export_dir = Ok (Started.export_root s) ∧
  (∀ rest rest', Started.state_root s ++ rest ≠ Started.export_root s ++ rest') ∧
  (validate_server_state uuid_text uuid_parse (Started.state_root s) f).1 = Ok tt ∧
  root_metadata f (Started.export_root s) = Ok (FKind.Dir, ExportShared.root_identity e) ∧
  descriptor_identity f (ExportShared.root_file e) = Ok (ExportShared.root_identity e) ∧
  (∃ marker, ExportShared.persistence e =
     Some (PersistentExportState.Mk (Started.state_root s ++ [lit "filesystem-export.json"]) marker)) ∧
  ExportShared.resource_forks e = Some (Started.state_root s ++ [lit "filesystem-resource-forks"]).
Proof.
  intros Hrun Hcanon. unfold startup in Hrun. revert Hrun. sm_unfold.
  destruct (validate_configuration max_permits c) as [[]|] eqn:Hv; simpl; [|done].
  destruct (canonicalize f state_dir) as [state_root|] eqn:Es; simpl; [|done].
  destruct (canonicalize f export_dir) as [export_root|] eqn:Ee; simpl; [|done].
  destruct (_ || _) eqn:Ho; [done|].
  destruct (with_context _ (validate_server_state _ _ _) f) as [[[]|] f1] eqn:Evs; [|done].
  apply with_context_ok in Evs.
  pose proof (reads_validate_state uuid_text uuid_parse state_root f) as Hf1. rewrite Evs in Hf1. simpl in Hf1. subst f1.
  destruct (with_context _ (resolve _ _ _) f) as [[state_paths|] f1] eqn:Er; [|done].
  apply with_context_ok in Er.
  pose proof (reads_resolve uuid_text uuid_parse state_root f) as Hf1. rewrite Er in Hf1. simpl in Hf1. subst f1.
  destruct (load_certificates _ _ _ _ _) as [certificates|]; simpl; [|done].
  destruct (head certificates) as [leaf|]; simpl; [|done].
  destruct (load_private_key _ _ _ _ _) as [key|]; simpl; [|done].
  destruct (with_context _ (new_persistent_with_writes _ _ _ _ _ _ _) f) as [[e|] f2] eqn:En; [|done].
  apply with_context_ok in En. apply new_with_state_ok in En as (root' & dir & Hc & Hm & Hd & Hp & Hdir & Hforks).
  destruct (server_endpoint _ _ _ _ _ _) as [endpoint|]; simpl; [|done]. intros [= <- <-]. simpl in *.
  rewrite (Hcanon _ _ Ee) in Hc. injection Hc as <-.
  assert (parent (state_root ++ [lit "filesystem-export.json"]) = Some state_root) as Hparent.
  { unfold parent. rewrite removelast_last. by destruct state_root. }
  rewrite Hparent in Hdir. injection Hdir as <-.
  split_and!; try done; [|by rewrite Evs].
  intros rest rest'. exact (starts_with_disjoint _ _ rest rest' Ho).
Qed.
End startup.

(** * Example *)

Module StartExample.
Definition identity : FileIdentity := MkIdentity 1 2.
Definition exported : Path := [lit "export"].
Definition root_metadata (_ : MemState.Mem) (p : Path) : result IoError (FKind * FileIdentity) :=
  if bool_decide (p = exported) then Ok (FKind.Dir, identity) else Err (IoError.Os Errno.NOENT).

Definition start (export_dir : Path) : result StartError (Started unit) * MemState.Mem :=
  startup (A:=Z) (λ b, take 32 b) id Some ExportExample.to_json ExportExample.from_json AuthExample.uuid_text
    AuthExample.uuid_parse (λ _ p, Ok p) root_metadata (λ _ _, Ok 3) (λ _ _, Ok identity)
    (λ f p _, create_dir f p) (λ p, concat p) (λ n, [n]) MemState.stat (λ b, Ok [b]) Ok (λ _ _, None)
    (λ _, None) (λ _ _ _, Ok tt) DaemonExample.serve AuthExample.root export_dir 0 1000000 42
    ExportExample.key (lit "t") AuthExample.after_add.

(** The state directory cannot be exported, nor a directory in it. *)
Example state_not_exported :
  (start AuthExample.root).1 = Err StartError.Overlap ∧
  (start (AuthExample.root ++ [lit "x"])).1 = Err StartError.Overlap.
Proof. split; vm_compute; reflexivity. Qed.

Lemma start_succeeds : is_ok (start exported).1 = true.
Proof. vm_compute. reflexivity. Qed.
End StartExample.
Import StartExample.

Lemma started_state_private_witness :
  ∃ s f', start exported = (Ok s, f') ∧ Started.export_root s = exported ∧
    ExportShared.resource_forks (Started.export s) = Some (Started.state_root s ++ [lit "filesystem-resource-forks"]).
Proof.
  pose proof start_succeeds as Hok. destruct (start exported) as [[s|e] f'] eqn:E; [|discriminate Hok].
  exists s, f'. split; [reflexivity|]. unfold start in E.
  destruct (started_state_private (A:=Z) (λ b, take 32 b) id Some ExportExample.to_json ExportExample.from_json AuthExample.uuid_text
    AuthExample.uuid_parse (λ _ p, Ok p) root_metadata (λ _ _, Ok 3) (λ _ _, Ok identity)
    (λ f p _, create_dir f p) (λ p, concat p) (λ n, [n]) MemState.stat (λ b, Ok [b]) Ok (λ _ _, None)
    (λ _, None) (λ _ _ _, Ok tt) DaemonExample.serve AuthExample.root exported 0 1000000 42
    ExportExample.key (lit "t") AuthExample.after_add s f' E) as (_ & _ & He & _ & _ & _ & _ & _ & Hf).
  - intros path real _. reflexivity.
  - injection He as <-. split; [reflexivity|exact Hf].
Defined.
