(* ===== verification/Commands.v ===== *)
(** The commands of the daemon's binary
    ([servers/linux/server-daemon/src/main.rs], lines 20-394): the default
    configuration, the external identities that are accepted, and what each
    command asks of the state directory.  A command answers the lines that it
    prints. *)

From S2P Require Import Prelude Protocol Common StateFiles Auth AuthFacts RateLimiter Transport Locks Registry Session Daemon DaemonFacts.

(** The default values of [Serve]. *)
Definition default_serve (allow_writes : bool) : Serve :=
  Serve.Mk allow_writes DEFAULT_MAX_READ_SIZE DEFAULT_MAX_WRITE_SIZE 1024 131072 524288 64 120000 128 256 4
    (128 * 1024 * 1024) (64 * 1024 * 1024) (16 * 1024 * 1024) 30.

Module Init.
Record Init := Mk {
  state_dir : Path;
  server_names : list (list Z);
  certificate : option Path;
  private_key : option Path
}.
End Init.
Abbreviation Init := Init.Init.

Module UserSubcommand.
Inductive UserSubcommand :=
  | Add (state_dir : Path) (username : list Z)
  | Password (state_dir : Path) (username : list Z)
  | Enable (state_dir : Path) (username : list Z)
  | Disable (state_dir : Path) (username : list Z)
  | Delete (state_dir : Path) (username : list Z)
  | GrantWrite (state_dir : Path) (username : list Z)
  | RevokeWrite (state_dir : Path) (username : list Z).
End UserSubcommand.
Abbreviation UserSubcommand := UserSubcommand.UserSubcommand.

Module PairSubcommand.
Inductive PairSubcommand := Create (state_dir : Path) (expires_seconds : Z).
End PairSubcommand.
Abbreviation PairSubcommand := PairSubcommand.PairSubcommand.

Module IdentitySubcommand.
Inductive IdentitySubcommand := Install (state_dir certificate private_key : Path).
End IdentitySubcommand.
Abbreviation IdentitySubcommand := IdentitySubcommand.IdentitySubcommand.

(** [Serve], whose numbers are [Daemon.Serve], is answered by [Startup]. *)
Module Command.
Inductive Command :=
  | Init (c : Init)
  | User (c : UserSubcommand)
  | Pair (c : PairSubcommand)
  | Identity (c : IdentitySubcommand).
End Command.
Abbreviation Command := Command.Command.

(** The errors of a command, by where they come from. *)
Module CommandError.
Inductive CommandError :=
  | State (e : AuthError)
  | File (e : TransportError)
  | Prompt (e : IoError)
  | Message (m : list Z).
End CommandError.
Abbreviation CommandError := CommandError.CommandError.

Section commands.
Context {F : Type} `{SF : StateFs F} `{AR : Argon2} `{B64 : Base64Url}.
Context (users_to_json : UserDatabase → result (list Z) (list Z))
  (users_from_json : list Z → result (list Z) UserDatabase)
  (pairing_to_json : PairingRecord → result (list Z) (list Z))
  (uuid_text : Z → list Z) (uuid_parse : list Z → option Z).
Context (decimal : Z → list Z) (fs_metadata : F → Path → result IoError FileMeta)
  (pem_certificates : list Z → result (list Z) (list (list Z)))
  (pem_private_key : list Z → result (list Z) (list Z))
  (single_cert : list (list Z) → list Z → option (list Z)) (quic_error : ServerConfig → option (list Z))
  (self_signed : list (list Z) → result (list Z) (list Z * list Z)).
(** [Path::display], the UUID as text, and the two answers of the terminal. *)
Context (display : Path → list Z).
Context (prompts : result IoError (list Z) * result IoError (list Z)).
(** What the commands draw: salts, identifiers, names of temporary files, random
    bytes and the time. *)
Context (salt : option (list Z)) (temporary : list Z) (temporaries : list Z * list Z * list Z)
  (fresh : Z) (random : option (list Z)) (now : result AuthError Z).

Definition CM : Type → Type := SM F CommandError.

Definition on_auth {B} (m : AM (F:=F) B) : CM B := λ f,
  let '(r, f') := m f in (map_err CommandError.State r, f').
Definition on_files {B} (call : F → result TransportError B) : CM B := λ f,
  (map_err CommandError.File (call f), f).

Definition load_external_identity (certificate private_key : Path) : CM (list Z * list Z) :=
  certificate_pem ← on_files (λ f, load_certificate_pem decimal fs_metadata f certificate);
  private_key_pem ← on_files (λ f, load_private_key_pem decimal fs_metadata f private_key);
  certificates ← on_files (λ _, parse_certificates_pem decimal pem_certificates certificate_pem);
  key ← on_files (λ _, parse_private_key_pem decimal pem_private_key private_key_pem);
  _ ← on_files (λ _, validate_server_identity single_cert quic_error certificates key);
  mret (certificate_pem, private_key_pem).

Definition manage_identity (command : IdentitySubcommand) : CM (list (list Z)) :=
  match command with
  | IdentitySubcommand.Install state_dir certificate private_key =>
      pem ← load_external_identity certificate private_key;
      paths ← on_auth (install_identity uuid_text uuid_parse fresh temporaries state_dir pem.1 pem.2);
      mret [lit "Installed and selected a new server identity generation:";
            lit "  certificate: " ++ display (StatePaths.certificate paths);
            lit "  private key: " ++ display (StatePaths.private_key paths);
            lit "Restart the daemon to begin presenting the new certificate."]
  end.

Definition init (command : Init) : CM (list (list Z)) :=
  paths ← match Init.certificate command, Init.private_key command with
          | Some certificate, Some private_key =>
              pem ← load_external_identity certificate private_key;
              on_auth (initialize_with_identity users_to_json temporaries (Init.state_dir command) pem.1 pem.2)
          | None, None =>
              on_auth (initialize users_to_json self_signed temporaries (Init.state_dir command)
                         (Init.server_names command))
          | _, _ =>
              sm_err (CommandError.Message (lit "--certificate and --private-key must be supplied together"))
          end;
  mret [lit "Initialized quicKFS server state:";
        lit "  certificate: " ++ display (StatePaths.certificate paths);
        lit "  private key: " ++ display (StatePaths.private_key paths);
        lit "Next, add a user with `server-daemon user add <USERNAME>`."].

Definition prompt_new_password : result CommandError (list Z) :=
  password ← map_err CommandError.Prompt prompts.1;
  confirmation ← map_err CommandError.Prompt prompts.2;
  if negb (bool_decide (password = confirmation)) then
    Err (CommandError.Message (lit "passwords do not match"))
  else Ok password.

Definition quoted (before : string) (username : list Z) (after : string) : list (list Z) :=
  [lit before ++ username ++ lit after].

Definition manage_user (command : UserSubcommand) : CM (list (list Z)) :=
  match command with
  | UserSubcommand.Add state_dir username =>
      password ← sm_lift prompt_new_password;
      _ ← on_auth (add_user users_to_json users_from_json uuid_text uuid_parse salt temporary state_dir username password);
      mret (quoted "Added user '" username "'.")
  | UserSubcommand.Password state_dir username =>
      password ← sm_lift prompt_new_password;
      _ ← on_auth (change_password users_to_json users_from_json uuid_text uuid_parse salt temporary state_dir
                     username password);
      mret (quoted "Changed password for '" username "'.")
  | UserSubcommand.Enable state_dir username =>
      _ ← on_auth (set_user_enabled users_to_json users_from_json uuid_text uuid_parse temporary state_dir username true);
      mret (quoted "Enabled user '" username "'.")
  | UserSubcommand.Disable state_dir username =>
      _ ← on_auth (set_user_enabled users_to_json users_from_json uuid_text uuid_parse temporary state_dir username false);
      mret (quoted "Disabled user '" username "'. Existing authenticated connections are not revoked.")
  | UserSubcommand.Delete state_dir username =>
      _ ← on_auth (remove_user users_to_json users_from_json uuid_text uuid_parse temporary state_dir username);
      mret (quoted "Deleted user '" username "'. Existing authenticated connections are not revoked.")
  | UserSubcommand.GrantWrite state_dir username =>
      _ ← on_auth (set_user_writable users_to_json users_from_json uuid_text uuid_parse temporary state_dir username true);
      mret (quoted "Granted write access to '" username "'. The daemon must also be started with --allow-writes.")
  | UserSubcommand.RevokeWrite state_dir username =>
      _ ← on_auth (set_user_writable users_to_json users_from_json uuid_text uuid_parse temporary state_dir username false);
      mret (quoted "Revoked write access from '" username "'. Existing authenticated connections are not revoked.")
  end.

(** [Duration::from_secs] counts in nanoseconds in [create_pairing]. *)
Definition manage_pairing (command : PairSubcommand) : CM (list (list Z)) :=
  match command with
  | PairSubcommand.Create state_dir expires_seconds =>
      pairing ← on_auth (create_pairing pairing_to_json uuid_text uuid_parse fresh random now temporary state_dir
                           (expires_seconds * 10 ^ 9));
      mret [lit "Pairing ID: " ++ uuid_text (NewPairing.id pairing);
            lit "Pairing code: " ++ NewPairing.code pairing;
            lit "Expires at Unix time: " ++ decimal (NewPairing.expires_unix_seconds pairing);
            lit "The code is single-use. Transfer it to the client through a trusted channel."]
  end.

(** [main] but for [serve]. *)
Definition run_command (command : Command) : CM (list (list Z)) :=
  match command with
  | Command.Init c => init c
  | Command.User c => manage_user c
  | Command.Pair c => manage_pairing c
  | Command.Identity c => manage_identity c
  end.

(** * Facts *)

(** Only an identity that the daemon can present is accepted. *)
Lemma external_identity_usable certificate private_key f pem f' :
  load_external_identity certificate private_key f = (Ok pem, f') →
  f' = f ∧ ∃ certificates key config, certificates ≠ [] ∧
    parse_certificates_pem decimal pem_certificates pem.1 = Ok certificates ∧
    parse_private_key_pem decimal pem_private_key pem.2 = Ok key ∧
    server_crypto_config single_cert certificates key = Ok config ∧ quic_error config = None.
Proof.
  unfold load_external_identity, on_files. sm_unfold.
  destruct (load_certificate_pem _ _ f certificate) as [cert|]; simpl; [|done].
  destruct (load_private_key_pem _ _ f private_key) as [keypem|]; simpl; [|done].
  destruct (parse_certificates_pem _ _ cert) as [certificates|] eqn:Ec; simpl; [|done].
  destruct (parse_private_key_pem _ _ keypem) as [key|] eqn:Ek; simpl; [|done].
  destruct (validate_server_identity _ _ _ _) as [[]|] eqn:Ev; simpl; [|done]. intros [= <- <-].
  split; [done|]. unfold validate_server_identity in Ev.
  destruct (server_crypto_config single_cert certificates key) as [config|] eqn:Es; simpl in Ev; [|done].
  destruct (quic_error config) eqn:Eq; [done|]. exists certificates, key, config. split_and!; try done.
  unfold server_crypto_config in Es. case_bool_decide; [done|]. done.
Qed.
End commands.

(** The default configuration is accepted, with and without writes. *)
Example default_configuration_valid :
  validate_configuration (2 ^ 61 - 1) (default_serve false) = Ok tt ∧
  validate_configuration (2 ^ 61 - 1) (default_serve true) = Ok tt.
Proof. split; vm_compute; reflexivity. Qed.
