(* ===== verification/CacheRanges.v ===== *)
(** Cached byte ranges ([crates/cache/src/lib.rs]): the keys of the cache, the
    assembly of a range from stored segments, the bounded least-recently-used
    cache of hot ranges, and the unbounded in-memory cache.

    A mutex is held for a whole operation, so an operation is a function on the
    state it guards; [HashMap] iteration follows the order [map_order], of which
    only the elements matter. *)

From S2P Require Import Prelude Protocol.

(** * Keys *)

Module RevisionKey.
Record RevisionKey := Mk { node : NodeId; revision : Z }.
End RevisionKey.
Abbreviation RevisionKey := RevisionKey.RevisionKey.
#[global] Instance RevisionKey_eq_dec : EqDecision RevisionKey.
Proof. solve_decision. Defined.
#[global] Instance RevisionKey_countable : Countable RevisionKey.
Proof.
  apply (inj_countable' (λ k, (RevisionKey.node k, RevisionKey.revision k))
           (λ p, RevisionKey.Mk p.1 p.2)). by intros [].
Defined.

Module RangeKey.
Record RangeKey := Mk { file : RevisionKey; offset : Z; length : Z }.
End RangeKey.
Abbreviation RangeKey := RangeKey.RangeKey.
#[global] Instance RangeKey_eq_dec : EqDecision RangeKey.
Proof. solve_decision. Defined.
#[global] Instance RangeKey_countable : Countable RangeKey.
Proof.
  apply (inj_countable' (λ k, (RangeKey.file k, RangeKey.offset k, RangeKey.length k))
           (λ p, RangeKey.Mk p.1.1 p.1.2 p.2)). by intros [].
Defined.

(** The values of a key are [u64]. *)
Definition wf_range (k : RangeKey) : Prop :=
  is_u64 (RangeKey.offset k) ∧ is_u64 (RangeKey.length k).

(** The end of a range, [offset.checked_add(length)]. *)
Definition range_end (k : RangeKey) : option Z :=
  u64_checked_add (RangeKey.offset k) (RangeKey.length k).

Definition valid_range_payload (key : RangeKey) (value : list Z) : bool :=
  bool_decide (is_Some (range_end key)) && (RangeKey.length key =? zlen value).

Definition ranges_overlap (left right : RangeKey) : bool :=
  match range_end left, range_end right with
  | Some left_end, Some right_end =>
      (RangeKey.offset left <? right_end) && (RangeKey.offset right <? left_end)
  | _, _ => false
  end.

(** [slice::get(start..end)]. *)
Definition get_slice {A} (l : list A) (start end_ : Z) : option (list A) :=
  if (start <=? end_) && (end_ <=? zlen l) then Some (slice l start (end_ - start)) else None.

(** * Assembly *)

Module Segment.
Record Segment (K : Type) := Mk { key : K; offset : Z; data : list Z }.
Arguments Mk {K} _ _ _.
Arguments key {K} _.
Arguments offset {K} _.
Arguments data {K} _.
End Segment.
Abbreviation Segment := Segment.Segment.

(** The closure of [segments.retain]. *)
Definition segment_touches {K} (requested : RangeKey) (requested_end : Z) (s : Segment K) : bool :=
  match u64_checked_add (Segment.offset s) (zlen (Segment.data s)) with
  | Some e => (Segment.offset s <? requested_end) && (RangeKey.offset requested <? e)
  | None => false
  end.

(** The order of [segments.sort_by]: by offset, the longer one first. *)
Definition segment_leb {K} (left right : Segment K) : bool :=
  match Segment.offset left ?= Segment.offset right with
  | Lt => true
  | Eq => zlen (Segment.data right) <=? zlen (Segment.data left)
  | Gt => false
  end.

(** The loop of [assemble_range]. *)
Fixpoint assemble_loop {K} (requested_end : Z) (segments : list (Segment K)) (cursor : Z)
    (data : list Z) (used_keys : list K) : option (list Z * list K) :=
  match segments with
  | [] => None
  | segment :: segments' =>
      if cursor <? Segment.offset segment then None
      else
        segment_end ← u64_checked_add (Segment.offset segment) (zlen (Segment.data segment));
        if segment_end <=? cursor then assemble_loop requested_end segments' cursor data used_keys
        else
          let copy_end := Z.min segment_end requested_end in
          source_start ← u64_checked_sub cursor (Segment.offset segment);
          source_end ← u64_checked_sub copy_end (Segment.offset segment);
          copied ← get_slice (Segment.data segment) source_start source_end;
          let data := data ++ copied in
          let used_keys := used_keys ++ [Segment.key segment] in
          if copy_end =? requested_end then Some (data, used_keys)
          else assemble_loop requested_end segments' copy_end data used_keys
  end.

Definition assemble_range {K} (requested : RangeKey) (segments : list (Segment K))
    : option (list Z * list K) :=
  requested_end ← range_end requested;
  let retained := List.filter (segment_touches requested requested_end) segments in
  assemble_loop requested_end (sort_by segment_leb retained) (RangeKey.offset requested) [] [].

(** * Hot ranges *)

Definition DEFAULT_HOT_RANGE_BYTES : Z := 256 * 1024 * 1024.

Record HotRangeState := MkHot {
  entries : gmap RangeKey (list Z);
  least_recently_used : list RangeKey;
  bytes : Z
}.

Definition hot_default : HotRangeState := MkHot ∅ [] 0.

(** [Iterator::max_by_key]: the last element with the largest key. *)
Fixpoint max_by_key {A} (key : A → Z) (l : list A) : option A :=
  match l with
  | [] => None
  | x :: l' =>
      match max_by_key key l' with
      | None => Some x
      | Some y => if key x <=? key y then Some y else Some x
      end
  end.

Section hot.
Context (map_order : gset RangeKey → list RangeKey).
Context (maximum_bytes : Z).

(** The [filter_map] of [HotRangeCache::get]. *)
Definition hot_candidate (key : RangeKey) (position : Z) (candidate : RangeKey)
    : option (RangeKey * Z) :=
  e ← range_end candidate;
  if bool_decide (RangeKey.file candidate = RangeKey.file key) &&
     (RangeKey.offset candidate <=? position) && (position <? e)
  then Some (candidate, e) else None.

(** The [while] loop; every iteration advances the position. *)
Fixpoint hot_loop (fuel : nat) (s : HotRangeState) (key : RangeKey) (request_end position : Z)
    (output : list Z) (used : list RangeKey) : option (list Z * list RangeKey) :=
  if request_end <=? position then Some (output, used)
  else
    match fuel with
    | O => None
    | S fuel' =>
        candidate ← max_by_key snd (omap (hot_candidate key position) (map_order (dom (entries s))));
        data ← entries s !! candidate.1;
        let copy_end := Z.min candidate.2 request_end in
        start ← u64_checked_sub position (RangeKey.offset candidate.1);
        end_ ← u64_checked_sub copy_end (RangeKey.offset candidate.1);
        copied ← get_slice data start end_;
        hot_loop fuel' s key request_end copy_end (output ++ copied) (used ++ [candidate.1])
    end.

(** Move a used key to the back of the queue. *)
Definition touch_hot (s : HotRangeState) (k : RangeKey) : HotRangeState :=
  MkHot (entries s)
    (List.filter (λ c, negb (bool_decide (c = k))) (least_recently_used s) ++ [k]) (bytes s).

Definition hot_get (key : RangeKey) (s : HotRangeState) : option (list Z) * HotRangeState :=
  match range_end key with
  | None => (None, s)
  | Some request_end =>
      if RangeKey.length key =? 0 then (Some [], s)
      else
        match hot_loop (Z.to_nat (RangeKey.length key)) s key request_end (RangeKey.offset key) [] [] with
        | None => (None, s)
        | Some (output, used) =>
            (Some output, fold_left touch_hot (map_order (list_to_set used)) s)
        end
  end.

(** The eviction loop of [insert]. *)
Fixpoint hot_evict (m : gmap RangeKey (list Z)) (lru : list RangeKey) (b : Z) : HotRangeState :=
  if maximum_bytes <? b then
    match lru with
    | [] => MkHot m [] b
    | evicted :: lru' =>
        match m !! evicted with
        | Some value => hot_evict (delete evicted m) lru' (u64_saturating_sub b (zlen value))
        | None => hot_evict m lru' b
        end
    end
  else MkHot m lru b.

Definition hot_insert (key : RangeKey) (value : list Z) (s : HotRangeState) : HotRangeState :=
  if negb (valid_range_payload key value) || bool_decide (value = []) ||
     (maximum_bytes <? zlen value) then s
  else
    let b := match entries s !! key with
             | Some previous => u64_saturating_sub (bytes s) (zlen previous)
             | None => bytes s
             end in
    let lru := List.filter (λ c, negb (bool_decide (c = key))) (least_recently_used s) ++ [key] in
    hot_evict (<[key := value]> (entries s)) lru (u64_saturating_add b (zlen value)).

Definition of_node (node : NodeId) (k : RangeKey) : bool :=
  bool_decide (RevisionKey.node (RangeKey.file k) = node).

(** The sum of the lengths of the values of a map. *)
Definition total_length {K} `{Countable K} (m : gmap K (list Z)) : Z :=
  map_sum zlen m.

Definition hot_invalidate (node : NodeId) (s : HotRangeState) : HotRangeState :=
  let removed_bytes := total_length (filter (λ kv, of_node node kv.1 = true) (entries s)) in
  MkHot (filter (λ kv, of_node node kv.1 = false) (entries s))
    (List.filter (λ k, negb (of_node node k)) (least_recently_used s))
    (u64_saturating_sub (bytes s) removed_bytes).
End hot.

(** * File contents *)

(** The [n] bytes at [o] of a file whose byte at [p] is [c p]. *)
Definition content_range (c : Z → Z) (o n : Z) : list Z := c <$> seqZ o n.

Lemma zlen_content_range c o n : 0 ≤ n → zlen (content_range c o n) = n.
Proof. intros. unfold zlen, content_range. rewrite length_fmap, length_seqZ. lia. Qed.

Lemma content_range_app c o a b :
  0 ≤ a → 0 ≤ b → content_range c o a ++ content_range c (o + a) b = content_range c o (a + b).
Proof. intros. unfold content_range. by rewrite seqZ_app, fmap_app. Qed.

Lemma content_range_nil c o : content_range c o 0 = [].
Proof. done. Qed.

Lemma slice_content_range c o l a n :
  0 ≤ a → 0 ≤ n → a + n ≤ l → slice (content_range c o l) a n = content_range c (o + a) n.
Proof.
  intros. replace l with (a + (n + (l - a - n))) by lia.
  rewrite <- !content_range_app by lia. unfold slice.
  rewrite drop_app_length', take_app_length'; [done| |].
  - pose proof (zlen_content_range c (o + a) n). unfold zlen in *. lia.
  - pose proof (zlen_content_range c o a). unfold zlen in *. lia.
Qed.

Lemma get_slice_content c o l a e :
  0 ≤ a → a ≤ e → e ≤ l → get_slice (content_range c o l) a e = Some (content_range c (o + a) (e - a)).
Proof.
  intros. unfold get_slice. rewrite zlen_content_range by lia.
  rewrite (proj2 (Z.leb_le a e)), (proj2 (Z.leb_le e l)) by lia. simpl.
  by rewrite slice_content_range by lia.
Qed.

(** * Assembly returns the covered range *)

Section assembly.
Context {K : Type} (c : Z → Z).

(** A segment holds the bytes of the file at its offset. *)
Record segment_ok (s : Segment K) : Prop := {
  so_data : Segment.data s = content_range c (Segment.offset s) (zlen (Segment.data s));
  so_offset : 0 ≤ Segment.offset s;
  so_end : Segment.offset s + zlen (Segment.data s) ≤ u64_max
}.

Definition segment_covers (p : Z) (s : Segment K) : Prop :=
  Segment.offset s ≤ p < Segment.offset s + zlen (Segment.data s).

Lemma segment_leb_offset (x y : Segment K) :
  segment_leb x y = true → Segment.offset x ≤ Segment.offset y.
Proof.
  unfold segment_leb. destruct (Z.compare_spec (Segment.offset x) (Segment.offset y)); naive_solver lia.
Qed.

Lemma segment_leb_total (x y : Segment K) : segment_leb x y = true ∨ segment_leb y x = true.
Proof.
  unfold segment_leb. rewrite (Z.compare_antisym (Segment.offset x)).
  destruct (_ ?= _); simpl; rewrite ?Z.leb_le; auto; lia.
Qed.

Lemma segment_leb_trans (x y z : Segment K) :
  segment_leb x y = true → segment_leb y z = true → segment_leb x z = true.
Proof.
  unfold segment_leb.
  destruct (Z.compare_spec (Segment.offset x) (Segment.offset y)),
    (Z.compare_spec (Segment.offset y) (Segment.offset z)),
    (Z.compare_spec (Segment.offset x) (Segment.offset z)); rewrite ?Z.leb_le; done || lia.
Qed.

(** One copy of the loop. *)
Lemma assemble_copy s cursor copy_end :
  segment_ok s → Segment.offset s ≤ cursor ≤ copy_end →
  copy_end ≤ Segment.offset s + zlen (Segment.data s) →
  get_slice (Segment.data s) (cursor - Segment.offset s) (copy_end - Segment.offset s) =
    Some (content_range c cursor (copy_end - cursor)).
Proof.
  intros Hs ? ?. rewrite (so_data s Hs), get_slice_content by lia. do 2 f_equal; lia.
Qed.

Lemma assemble_loop_spec o e segments cursor used :
  o ≤ cursor < e → Forall segment_ok segments →
  StronglySorted (λ x y, segment_leb x y = true) segments →
  match assemble_loop e segments cursor (content_range c o (cursor - o)) used with
  | Some (d, u) => d = content_range c o (e - o) ∧
      (∀ k, k ∈ u → k ∈ used ∨ ∃ s, s ∈ segments ∧ k = Segment.key s) ∧
      ∀ p, cursor ≤ p < e → Exists (segment_covers p) segments
  | None => ∃ p, cursor ≤ p < e ∧ Forall (λ s, ¬ segment_covers p s) segments
  end.
Proof.
  revert cursor used. induction segments as [|s l IH]; intros cursor used Hc Hok Hs; simpl.
  { exists cursor. split; [lia|constructor]. }
  apply Forall_cons in Hok as [Hs1 Hok]. apply StronglySorted_inv in Hs as [Hs Hle].
  assert (Forall (λ y, Segment.offset s ≤ Segment.offset y) l) as Hle'.
  { eapply Forall_impl; [exact Hle|]. intros y. apply segment_leb_offset. }
  destruct (cursor <? Segment.offset s) eqn:E; bool_simpl.
  { exists cursor. split; [lia|]. unfold segment_covers. constructor; [lia|].
    eapply Forall_impl; [exact Hle'|]. simpl. lia. }
  destruct (u64_checked_add _ _) as [e1|] eqn:Ee; simpl.
  2: { apply u64_checked_add_None in Ee. pose proof (so_end s Hs1). lia. }
  apply u64_checked_add_Some in Ee as [-> _].
  destruct (_ <=? cursor) eqn:E1; bool_simpl.
  { specialize (IH cursor used Hc Hok Hs). destruct (assemble_loop _ _ _ _ _) as [[d u]|].
    - destruct IH as (? & Hu & Hcov). split; [done|]. split; [set_solver|].
      intros p Hp. apply Exists_cons. right. auto.
    - destruct IH as (p & ? & ?). exists p. split; [done|]. constructor; [unfold segment_covers; lia|done]. }
  destruct (u64_checked_sub cursor _) as [a|] eqn:Ea; simpl;
    [apply u64_checked_sub_Some in Ea as [-> _]|apply u64_checked_sub_None in Ea; lia].
  destruct (u64_checked_sub (Z.min _ _) _) as [b|] eqn:Eb; simpl;
    [apply u64_checked_sub_Some in Eb as [-> _]|apply u64_checked_sub_None in Eb; lia].
  rewrite assemble_copy by (done || lia). simpl.
  replace (content_range c o (cursor - o) ++ _) with
    (content_range c o (Z.min (Segment.offset s + zlen (Segment.data s)) e - o)).
  2: { replace cursor with (o + (cursor - o)) at 2 by lia. rewrite content_range_app by lia.
       f_equal. lia. }
  destruct (_ =? e) eqn:E2; bool_simpl.
  - rewrite E2. split; [done|]. split.
    + intros k [Hk|Hk%list_elem_of_singleton]%elem_of_app; [by left|]. right. exists s. set_solver.
    + intros p Hp. apply Exists_cons. left. unfold segment_covers. lia.
  - assert (Segment.offset s + zlen (Segment.data s) < e) by lia. rewrite Z.min_l in * by lia.
    specialize (IH (Segment.offset s + zlen (Segment.data s)) (used ++ [Segment.key s])
      ltac:(lia) Hok Hs).
    destruct (assemble_loop _ _ _ _ _) as [[d u]|].
    + destruct IH as (? & Hu & Hcov). split; [done|]. split.
      * intros k Hk. destruct (Hu k Hk) as [[?|Hk']%elem_of_app|(s' & ? & ?)]; [by left| |right; exists s'; set_solver].
        apply list_elem_of_singleton in Hk'. right. exists s. set_solver.
      * intros p Hp. apply Exists_cons.
        destruct (decide (p < Segment.offset s + zlen (Segment.data s))).
        { left. unfold segment_covers. lia. }
        right. apply Hcov. lia.
    + destruct IH as (p & ? & ?). exists p. split; [lia|].
      constructor; [unfold segment_covers; lia|done].
Qed.

(** What [assemble_range] returns, for a range that is not empty. *)
Lemma assemble_range_spec (requested : RangeKey) e segments :
  wf_range requested → 0 < RangeKey.length requested → range_end requested = Some e →
  Forall segment_ok segments →
  match assemble_range requested segments with
  | Some (d, u) =>
      d = content_range c (RangeKey.offset requested) (RangeKey.length requested) ∧
      (∀ k, k ∈ u → ∃ s, s ∈ segments ∧ k = Segment.key s) ∧
      ∀ p, RangeKey.offset requested ≤ p < e → Exists (segment_covers p) segments
  | None => ∃ p, RangeKey.offset requested ≤ p < e ∧ ¬ Exists (segment_covers p) segments
  end.
Proof.
  intros [[Ho _] _] Hl He Hok. unfold assemble_range. rewrite He. simpl.
  apply u64_checked_add_Some in He as [-> He]. set (o := RangeKey.offset requested) in *.
  set (n := RangeKey.length requested) in *.
  pose proof (sort_by_perm segment_leb (List.filter (segment_touches requested (o + n)) segments)) as Hp.
  set (l := sort_by _ _) in *.
  assert (∀ s, s ∈ l → s ∈ segments) as Hsub.
  { intros s. rewrite Hp, !list_elem_of_In, filter_In. naive_solver. }
  assert (Forall segment_ok l) as Hokl.
  { apply Forall_forall. rewrite Forall_forall in Hok. auto. }
  pose proof (assemble_loop_spec o (o + n) l o [] ltac:(lia) Hokl
    (sort_by_sorted _ segment_leb_total segment_leb_trans _)) as Hloop.
  replace (content_range c o (o - o)) with (@nil Z) in Hloop by (by rewrite Z.sub_diag).
  destruct (assemble_loop _ _ _ _ _) as [[d u]|]; destruct Hloop as (A & B).
  - split; [by replace n with (o + n - o) by lia|]. destruct B as [B C]. split.
    + intros k Hk. destruct (B k Hk) as [?|(s & ? & ?)]; [set_solver|eauto].
    + intros p Hp'. destruct (proj1 (Exists_exists _ _) (C p Hp')) as (s & Hs & ?).
      apply Exists_exists. eauto.
  - destruct B as [B C]. exists A. split; [done|]. intros (s & Hs & Hcov)%Exists_exists.
    rewrite Forall_forall in C, Hok. apply (C s); [|done]. rewrite Hp, list_elem_of_In, filter_In.
    split; [by apply list_elem_of_In|]. unfold segment_touches, segment_covers in *.
    destruct (Hok s Hs) as [_ ? Hend]. destruct (u64_checked_add _ _) eqn:E.
    + apply u64_checked_add_Some in E as [-> _]. fold o. rewrite andb_true_iff, !Z.ltb_lt. lia.
    + apply u64_checked_add_None in E. lia.
Qed.
End assembly.

(** * The hot-range cache *)

Section hot_facts.
Context (map_order : gset RangeKey → list RangeKey).
Context (map_order_perm : ∀ s, map_order s ≡ₚ elements s).
Context (maximum_bytes : Z) (maximum_ok : 0 ≤ maximum_bytes ≤ DEFAULT_HOT_RANGE_BYTES).
(** The contents of every revision of every file. *)
Context (content : RevisionKey → Z → Z).

(** The bytes of a range. *)
Definition range_content (k : RangeKey) : list Z :=
  content_range (content (RangeKey.file k)) (RangeKey.offset k) (RangeKey.length k).

Record hot_inv (s : HotRangeState) : Prop := {
  hi_nodup : NoDup (least_recently_used s);
  hi_queue : ∀ k, k ∈ least_recently_used s ↔ is_Some (entries s !! k);
  hi_bytes : bytes s = total_length (entries s);
  hi_bound : bytes s ≤ maximum_bytes;
  hi_valid : ∀ k v, entries s !! k = Some v →
    wf_range k ∧ valid_range_payload k v = true ∧ v ≠ []
}.

(** Every entry holds bytes of its file. *)
Definition hot_true (s : HotRangeState) : Prop :=
  ∀ k v, entries s !! k = Some v → v = range_content k.

(** Some entry of the file holds the byte at [p]. *)
Definition hot_covers (s : HotRangeState) (file : RevisionKey) (p : Z) : Prop :=
  ∃ k v, entries s !! k = Some v ∧ RangeKey.file k = file ∧
    RangeKey.offset k ≤ p < RangeKey.offset k + RangeKey.length k.

Lemma max_by_key_Some {A} (key : A → Z) l x : max_by_key key l = Some x → x ∈ l.
Proof.
  revert x. induction l as [|a l IH]; intros x; simpl; [done|].
  destruct (max_by_key key l) as [y|]; [destruct (_ <=? _)|]; intros; simplify_eq; set_solver.
Qed.

Lemma max_by_key_None {A} (key : A → Z) l : max_by_key key l = None → l = [].
Proof. destruct l as [|a l]; simpl; [done|]. destruct (max_by_key key l); [destruct (_ <=? _)|]; done. Qed.

Lemma hot_candidate_Some key position k k' e :
  hot_candidate key position k = Some (k', e) ↔
  k' = k ∧ range_end k = Some e ∧ RangeKey.file k = RangeKey.file key ∧ RangeKey.offset k ≤ position < e.
Proof.
  unfold hot_candidate. destruct (range_end k) as [e'|] eqn:E; simpl; [|naive_solver].
  destruct (_ && _) eqn:E1; bool_simpl.
  - naive_solver.
  - split; [done|]. intros (-> & [= ->] & Hf & ?).
    rewrite !andb_false_iff, bool_decide_eq_false, Z.leb_gt, Z.ltb_ge in E1. naive_solver lia.
Qed.

Lemma valid_payload_inv k v :
  valid_range_payload k v = true →
  RangeKey.length k = zlen v ∧ range_end k = Some (RangeKey.offset k + RangeKey.length k).
Proof.
  unfold valid_range_payload. intros. bool_simpl. split; [done|].
  match goal with H : is_Some _ |- _ => destruct H as [e He] end.
  rewrite He. unfold range_end in He. by apply u64_checked_add_Some in He as [-> _].
Qed.

(** The elements the candidate search sees. *)
Lemma elem_of_hot_keys s k : k ∈ map_order (dom (entries s)) ↔ is_Some (entries s !! k).
Proof. by rewrite map_order_perm, elem_of_elements, elem_of_dom. Qed.

Lemma hot_loop_spec s key o e fuel position used :
  hot_inv s → hot_true s → o ≤ position ≤ e → e - position ≤ Z.of_nat fuel →
  match hot_loop map_order fuel s key e position
          (content_range (content (RangeKey.file key)) o (position - o)) used with
  | Some (d, u) => d = content_range (content (RangeKey.file key)) o (e - o) ∧
      (∀ k, k ∈ u → k ∈ used ∨ is_Some (entries s !! k)) ∧
      ∀ p, position ≤ p < e → hot_covers s (RangeKey.file key) p
  | None => ∃ p, position ≤ p < e ∧ ¬ hot_covers s (RangeKey.file key) p
  end.
Proof.
  intros Hi Ht. revert position used. induction fuel as [|fuel IH]; intros position used Hp Hf; simpl.
  { rewrite (proj2 (Z.leb_le e position)) by lia. replace position with e by lia.
    split; [done|]. split; [auto|]. lia. }
  destruct (e <=? position) eqn:E; bool_simpl.
  { replace position with e by lia. split; [done|]. split; [auto|]. lia. }
  destruct (max_by_key _ _) as [[k ke]|] eqn:Em; simpl.
  2: { apply max_by_key_None in Em. exists position. split; [lia|]. intros (k & v & Hk & Hfile & Hr).
       destruct (hi_valid s Hi k v Hk) as (_ & Hv & _). apply valid_payload_inv in Hv as [_ He].
       assert ((k, RangeKey.offset k + RangeKey.length k) ∈
         omap (hot_candidate key position) (map_order (dom (entries s)))) as Hin; [|by rewrite Em in Hin; apply not_elem_of_nil in Hin].
       apply list_elem_of_omap. exists k. split; [by apply elem_of_hot_keys; eauto|].
       apply hot_candidate_Some. naive_solver. }
  apply max_by_key_Some, list_elem_of_omap in Em as (k' & Hk' & (-> & He & Hfile & Hr)%hot_candidate_Some).
  apply elem_of_hot_keys in Hk' as [v Hv]. rewrite Hv. simpl.
  destruct (hi_valid s Hi k' v Hv) as ([[Hko _] _] & Hp' & _). apply valid_payload_inv in Hp' as [Hlen He'].
  rewrite He in He'. injection He' as ->.
  destruct (u64_checked_sub position _) as [a|] eqn:Ea; simpl;
    [apply u64_checked_sub_Some in Ea as [-> _]|apply u64_checked_sub_None in Ea; lia].
  destruct (u64_checked_sub (Z.min _ _) _) as [b|] eqn:Eb; simpl;
    [apply u64_checked_sub_Some in Eb as [-> _]|apply u64_checked_sub_None in Eb; lia].
  rewrite (Ht k' v Hv). unfold range_content. rewrite get_slice_content by lia. simpl. rewrite Hfile.
  set (ce := Z.min _ _). replace (content_range _ o _ ++ _) with
    (content_range (content (RangeKey.file key)) o (ce - o)).
  2: { replace (RangeKey.offset k' + (position - RangeKey.offset k')) with (o + (position - o)) by lia.
       rewrite content_range_app by lia. f_equal. lia. }
  specialize (IH ce (used ++ [k']) ltac:(lia) ltac:(lia)).
  destruct (hot_loop _ _ _ _ _ _ _ _) as [[d u]|].
  - destruct IH as (? & Hu & Hcov). split; [done|]. split.
    + intros k Hk. destruct (Hu k Hk) as [[?|Hk1%list_elem_of_singleton]%elem_of_app|?]; naive_solver.
    + intros p Hp1. destruct (decide (ce ≤ p)); [apply Hcov; lia|]. exists k', v. naive_solver lia.
  - destruct IH as (p & ? & ?). exists p. split; [lia|done].
Qed.

Lemma hot_inv_default : hot_inv hot_default.
Proof.
  split; simpl; [constructor| | |lia|]; [|unfold total_length; by rewrite map_sum_empty|done].
  intros k. rewrite lookup_empty. split; [by intros ?%not_elem_of_nil|by intros []].
Qed.

(** ** The queue *)

(** The queue with [k] moved to the back. *)
Definition requeue (k : RangeKey) (lru : list RangeKey) : list RangeKey :=
  List.filter (λ c, negb (bool_decide (c = k))) lru ++ [k].

Lemma elem_of_requeue k lru x : x ∈ requeue k lru ↔ x = k ∨ x ∈ lru.
Proof.
  unfold requeue. rewrite elem_of_app, elem_of_filter_list, list_elem_of_singleton, negb_true_iff,
    bool_decide_eq_false. destruct (decide (x = k)); naive_solver.
Qed.

Lemma NoDup_requeue k lru : NoDup lru → NoDup (requeue k lru).
Proof.
  intros Hl. apply NoDup_app. split; [by apply NoDup_filter_list|]. split; [|apply NoDup_singleton].
  intros x [_ Hx]%elem_of_filter_list ->%list_elem_of_singleton. by rewrite bool_decide_true in Hx.
Qed.

Lemma touch_hot_inv s k : hot_inv s → is_Some (entries s !! k) → hot_inv (touch_hot s k).
Proof.
  intros [Hn Hq Hb Hm Hv] Hk. split; simpl; try done; [by apply (NoDup_requeue k)|].
  intros x. fold (requeue k (least_recently_used s)). rewrite elem_of_requeue, Hq. naive_solver.
Qed.

Lemma touch_all_inv ks s :
  hot_inv s → Forall (λ k, is_Some (entries s !! k)) ks →
  hot_inv (fold_left touch_hot ks s) ∧ entries (fold_left touch_hot ks s) = entries s.
Proof.
  revert s. induction ks as [|k ks IH]; intros s Hi Hks; simpl; [done|].
  apply Forall_cons in Hks as [Hk Hks]. apply (IH (touch_hot s k)); [by apply touch_hot_inv|done].
Qed.

(** The parts of the invariant that hold while entries are being evicted. *)
Definition hot_full (s : HotRangeState) : Prop :=
  NoDup (least_recently_used s) ∧ (∀ k, k ∈ least_recently_used s ↔ is_Some (entries s !! k)) ∧
  bytes s = total_length (entries s) ∧
  ∀ k v, entries s !! k = Some v → wf_range k ∧ valid_range_payload k v = true ∧ v ≠ [].

Lemma hot_full_inv s : hot_full s → bytes s ≤ maximum_bytes → hot_inv s.
Proof. intros (? & ? & ? & ?) ?. by split. Qed.

Lemma hot_full_pop m k lru b v :
  hot_full (MkHot m (k :: lru) b) → m !! k = Some v →
  hot_full (MkHot (delete k m) lru (u64_saturating_sub b (zlen v))).
Proof.
  intros (Hn & Hq & Hb & Hv) Hk; simpl in *. apply NoDup_cons in Hn as [Hk' Hn].
  unfold hot_full; simpl. split; [done|]. split; [|split].
  - intros x. rewrite lookup_delete_is_Some, <- Hq, elem_of_cons.
    destruct (decide (k = x)) as [->|]; naive_solver.
  - subst. unfold total_length in *. rewrite map_sum_delete_lookup, Hk. unfold u64_saturating_sub.
    pose proof (map_sum_nonneg zlen (delete k m) (λ _ _ _, zlen_nonneg _)).
    rewrite map_sum_delete_lookup, Hk in *. lia.
  - intros x w [_ Hx]%lookup_delete_Some. by apply Hv.
Qed.

(** Eviction stops within the bound; what it keeps is the back of the queue. *)
Lemma hot_evict_spec m lru b :
  hot_full (MkHot m lru b) →
  let s := hot_evict maximum_bytes m lru b in
  hot_inv s ∧ (∃ evicted, lru = evicted ++ least_recently_used s ∧
    ∀ k v, entries s !! k = Some v ↔ m !! k = Some v ∧ k ∉ evicted).
Proof.
  revert m b. induction lru as [|k lru IH]; intros m b Hf; simpl.
  - destruct (maximum_bytes <? b) eqn:E; bool_simpl.
    2: { split; [by apply hot_full_inv|]. exists []. split; [done|]. set_solver. }
    exfalso. destruct Hf as (_ & Hq & Hb & _). simpl in *.
    assert (0 < map_sum zlen m) as Hm%map_sum_pos by (unfold total_length in *; lia).
    apply map_choose in Hm as (k & v & Hk). destruct (not_elem_of_nil k). apply Hq. eauto.
  - destruct (maximum_bytes <? b) eqn:E; bool_simpl.
    2: { split; [by apply hot_full_inv|]. exists []. split; [done|]. set_solver. }
    assert (is_Some (m !! k)) as [v Hk]. { destruct Hf as (_ & Hq & _). apply Hq. simpl. set_solver. }
    rewrite Hk. destruct (IH _ _ (hot_full_pop m k lru b v Hf Hk)) as [Hi (ev & Hev & He)].
    split; [done|]. exists (k :: ev). split; [simpl; by rewrite <- Hev|].
    intros x w. rewrite He, lookup_delete_Some. set_solver.
Qed.

(** The newest entry fits and is never evicted. *)
Lemma hot_evict_keeps_last m lru key b v :
  hot_full (MkHot m (lru ++ [key]) b) → m !! key = Some v → zlen v ≤ maximum_bytes →
  entries (hot_evict maximum_bytes m (lru ++ [key]) b) !! key = Some v.
Proof.
  revert m b. induction lru as [|k lru IH]; intros m b Hf Hk Hl; simpl.
  - destruct (maximum_bytes <? b) eqn:E; bool_simpl; [|done]. exfalso.
    destruct Hf as (_ & Hq & Hb & _). simpl in *.
    unfold total_length in Hb. rewrite (map_sum_delete zlen m key v Hk) in Hb.
    assert (delete key m = ∅) as Hd.
    { apply map_empty. intros x. apply eq_None_not_Some. rewrite lookup_delete_is_Some.
      intros [Hne Hx]. apply Hq in Hx. set_solver. }
    rewrite Hd, map_sum_empty in Hb. lia.
  - destruct (maximum_bytes <? b) eqn:E; bool_simpl; [|done].
    assert (is_Some (m !! k)) as [w Hk']. { destruct Hf as (_ & Hq & _). apply Hq. simpl. set_solver. }
    rewrite Hk'. apply IH; [by apply hot_full_pop| |done].
    rewrite lookup_delete_ne; [done|]. destruct Hf as (Hn & _). simpl in Hn.
    apply NoDup_cons in Hn as [Hn _]. set_solver.
Qed.

(** ** Insertion and invalidation *)

(** The checks at the start of [insert]. *)
Definition hot_accepts (key : RangeKey) (value : list Z) : Prop :=
  valid_range_payload key value = true ∧ value ≠ [] ∧ zlen value ≤ maximum_bytes.

Lemma hot_insert_accepted key value s :
  hot_inv s → wf_range key → hot_accepts key value →
  ∃ b, hot_insert maximum_bytes key value s =
         hot_evict maximum_bytes (<[key := value]> (entries s)) (requeue key (least_recently_used s)) b ∧
    hot_full (MkHot (<[key := value]> (entries s)) (requeue key (least_recently_used s)) b).
Proof.
  intros [Hn Hq Hb Hm Hv] Hwf (Hval & Hne & Hlen). unfold hot_insert.
  rewrite Hval, bool_decide_false, (proj2 (Z.ltb_ge _ _) Hlen) by done. simpl.
  eexists. split; [done|]. unfold hot_full; simpl. split; [by apply NoDup_requeue|]. split; [|split].
  - intros k. rewrite elem_of_requeue, Hq. destruct (decide (key = k)) as [->|].
    + rewrite lookup_insert_eq. naive_solver.
    + rewrite lookup_insert_ne by done. naive_solver.
  - unfold total_length in *. rewrite map_sum_overwrite. unfold u64_saturating_add, u64_saturating_sub.
    unfold DEFAULT_HOT_RANGE_BYTES, u64_max in *. pose proof (zlen_nonneg value).
    pose proof (map_sum_nonneg zlen (delete key (entries s)) (λ _ _ _, zlen_nonneg _)) as Hd.
    rewrite map_sum_delete_lookup in Hd. destruct (entries s !! key) as [w|]; [|lia].
    pose proof (zlen_nonneg w). lia.
  - intros k v. destruct (decide (key = k)) as [->|].
    + rewrite lookup_insert_eq. intros; simplify_eq. done.
    + rewrite lookup_insert_ne by done. apply Hv.
Qed.

Lemma hot_insert_refused key value s : ¬ hot_accepts key value → hot_insert maximum_bytes key value s = s.
Proof.
  intros Hn. unfold hot_insert. destruct (_ || _) eqn:E; [done|]. bool_simpl. by destruct Hn.
Qed.

Lemma hot_accepts_dec key value : hot_accepts key value ∨ ¬ hot_accepts key value.
Proof.
  unfold hot_accepts. destruct (valid_range_payload key value), (decide (value = [])),
    (decide (zlen value ≤ maximum_bytes)); naive_solver.
Qed.

Lemma hot_invalidate_inv node s : hot_inv s → hot_inv (hot_invalidate node s).
Proof.
  intros [Hn Hq Hb Hm Hv].
  assert (bytes (hot_invalidate node s) = total_length (entries (hot_invalidate node s))) as Hb'.
  { simpl. unfold total_length in *. rewrite Hb.
    pose proof (map_sum_filter zlen (of_node node) (entries s)) as Hs.
    pose proof (map_sum_nonneg zlen (filter (λ kv, of_node node kv.1 = false) (entries s))
      (λ _ _ _, zlen_nonneg _)). unfold u64_saturating_sub. lia. }
  split; simpl; [by apply NoDup_filter_list| |done| |].
  - intros k. rewrite elem_of_filter_list, Hq, negb_true_iff. unfold is_Some.
    setoid_rewrite map_lookup_filter_Some. naive_solver.
  - pose proof (map_sum_nonneg zlen (filter (λ kv, of_node node kv.1 = true) (entries s))
      (λ _ _ _, zlen_nonneg _)). unfold u64_saturating_sub, total_length. lia.
  - intros k v [Hk _]%map_lookup_filter_Some. by apply Hv.
Qed.

(** ** Lookup *)

Lemma hot_get_spec key s :
  hot_inv s → hot_true s → wf_range key →
  (∀ d, (hot_get map_order key s).1 = Some d ↔
     d = range_content key ∧ is_Some (range_end key) ∧
     ∀ p, RangeKey.offset key ≤ p < RangeKey.offset key + RangeKey.length key →
       hot_covers s (RangeKey.file key) p) ∧
  hot_inv (hot_get map_order key s).2 ∧ entries (hot_get map_order key s).2 = entries s.
Proof.
  intros Hi Ht [[Ho _] [Hl _]]. unfold hot_get.
  destruct (range_end key) as [e|] eqn:Ee; simpl.
  2: { split; [|done]. split; [done|]. intros (_ & [? ?] & _). done. }
  unfold range_end in Ee. apply u64_checked_add_Some in Ee as [-> _].
  destruct (RangeKey.length key =? 0) eqn:E; bool_simpl; simpl.
  { split; [|done]. intros d. unfold range_content. rewrite E, content_range_nil.
    split; [intros [= <-]|by intros [-> _]]. split; [done|]. split; [eauto|lia]. }
  pose proof (hot_loop_spec s key (RangeKey.offset key) (RangeKey.offset key + RangeKey.length key)
    (Z.to_nat (RangeKey.length key)) (RangeKey.offset key) [] Hi Ht ltac:(lia) ltac:(lia)) as Hloop.
  rewrite Z.sub_diag, content_range_nil in Hloop.
  destruct (hot_loop _ _ _ _ _ _ _ _) as [[d u]|]; simpl.
  - destruct Hloop as (-> & Hu & Hcov). rewrite Z.add_simpl_l. fold (range_content key). split.
    { intros d. split; [intros [= <-]|by intros [-> _]]. split; [done|]. split; [eauto|done]. }
    apply touch_all_inv; [done|]. apply Forall_forall. intros k Hk.
    rewrite map_order_perm, elem_of_elements, elem_of_list_to_set in Hk.
    destruct (Hu k Hk) as [?%not_elem_of_nil|?]; done.
  - destruct Hloop as (p & ? & Hp). split; [|done]. intros d. split; [done|].
    intros (_ & _ & Hcov). destruct Hp. by apply Hcov.
Qed.

(** ** Sequences of operations *)

Inductive HotOp :=
  | HotGet (key : RangeKey)
  | HotInsert (key : RangeKey) (value : list Z)
  | HotInvalidate (node : NodeId).

Definition hot_step (s : HotRangeState) (op : HotOp) : HotRangeState :=
  match op with
  | HotGet key => (hot_get map_order key s).2
  | HotInsert key value => hot_insert maximum_bytes key value s
  | HotInvalidate node => hot_invalidate node s
  end.

(** Keys are pairs of [u64], and what is inserted are bytes of the file. *)
Definition hot_op_ok (op : HotOp) : Prop :=
  match op with
  | HotGet key => wf_range key
  | HotInsert key value => wf_range key ∧ (valid_range_payload key value = true → value = range_content key)
  | HotInvalidate _ => True
  end.

Lemma hot_step_inv s op : hot_inv s → hot_true s → hot_op_ok op → hot_inv (hot_step s op) ∧ hot_true (hot_step s op).
Proof.
  intros Hi Ht Hop. destruct op as [key|key value|node]; simpl in *.
  - destruct (hot_get_spec key s Hi Ht Hop) as (_ & Hi' & He). split; [done|]. unfold hot_true. by rewrite He.
  - destruct Hop as [Hwf Hv]. destruct (hot_accepts_dec key value) as [Ha|Hn];
      [|by rewrite hot_insert_refused].
    destruct (hot_insert_accepted key value s Hi Hwf Ha) as (b & -> & Hf).
    destruct (hot_evict_spec _ _ _ Hf) as [Hi' (ev & _ & He)]. split; [done|].
    intros k w Hk. apply He in Hk as [Hk _]. destruct (decide (key = k)) as [->|].
    + rewrite lookup_insert_eq in Hk. simplify_eq. apply Hv, Ha.
    + rewrite lookup_insert_ne in Hk by done. by apply Ht.
  - split; [by apply hot_invalidate_inv|]. intros k v [Hk _]%map_lookup_filter_Some. by apply Ht.
Qed.

Lemma hot_run_inv ops s :
  hot_inv s → hot_true s → Forall hot_op_ok ops →
  hot_inv (fold_left hot_step ops s) ∧ hot_true (fold_left hot_step ops s).
Proof.
  revert s. induction ops as [|op ops IH]; intros s Hi Ht Hops; simpl; [done|].
  apply Forall_cons in Hops as [Hop Hops]. destruct (hot_step_inv s op Hi Ht Hop). by apply IH.
Qed.

(** An accepted range is answered by the next lookup. *)
Lemma hot_insert_then_get key value s :
  hot_inv s → hot_true s → wf_range key → hot_accepts key value → value = range_content key →
  (hot_get map_order key (hot_insert maximum_bytes key value s)).1 = Some value.
Proof.
  intros Hi Ht Hwf Ha Hv.
  destruct (hot_step_inv s (HotInsert key value) Hi Ht (conj Hwf (λ _, Hv))) as [Hi' Ht']. simpl in Hi', Ht'.
  apply (hot_get_spec key _ Hi' Ht' Hwf). split; [done|].
  destruct (hot_insert_accepted key value s Hi Hwf Ha) as (b & Hs' & Hf).
  destruct Ha as (Hval & _ & Hlen). destruct (valid_payload_inv _ _ Hval) as [Hl Hr].
  rewrite Hr. split; [eauto|]. intros p Hp. exists key, value. split; [|done].
  rewrite Hs'. apply hot_evict_keeps_last; [done|by rewrite lookup_insert_eq|done].
Qed.

(** The cache of hot ranges is exact and bounded.  After any sequence of
    lookups, insertions and invalidations, its payload stays within the
    configured bytes; a lookup answers exactly when every byte of the range is
    held by entries of the same file revision, with the bytes of the file; an
    accepted insertion is returned by the next lookup, and what it evicts is the
    least recently used front of the queue; an invalidated node has no bytes left. *)
Theorem hot_ranges_exact ops :
  Forall hot_op_ok ops →
  let s := fold_left hot_step ops hot_default in
  (bytes s = total_length (entries s) ∧ bytes s ≤ maximum_bytes) ∧
  (∀ key d, wf_range key →
     ((hot_get map_order key s).1 = Some d ↔
      d = range_content key ∧ is_Some (range_end key) ∧
      ∀ p, RangeKey.offset key ≤ p < RangeKey.offset key + RangeKey.length key →
        hot_covers s (RangeKey.file key) p)) ∧
  (∀ key value, wf_range key → hot_accepts key value → value = range_content key →
     let s' := hot_insert maximum_bytes key value s in
     (hot_get map_order key s').1 = Some value ∧
     ∃ evicted, requeue key (least_recently_used s) = evicted ++ least_recently_used s' ∧
       ∀ k, is_Some (entries s' !! k) ↔ (k = key ∨ is_Some (entries s !! k)) ∧ k ∉ evicted) ∧
  (∀ node file p, RevisionKey.node file = node → ¬ hot_covers (hot_invalidate node s) file p).
Proof.
  intros Hops s. destruct (hot_run_inv ops hot_default hot_inv_default ltac:(done) Hops) as [Hi Ht].
  fold s in Hi, Ht. split; [split; [apply Hi|apply Hi]|]. split; [|split].
  - intros key d Hwf. by apply hot_get_spec.
  - intros key value Hwf Ha Hv s'.
    destruct (hot_insert_accepted key value s Hi Hwf Ha) as (b & Hs' & Hf).
    destruct (hot_evict_spec _ _ _ Hf) as [_ (ev & Hev & He)]. rewrite <- Hs' in Hev, He. fold s' in Hev, He.
    split; [by apply hot_insert_then_get|].
    exists ev. split; [done|]. intros k. unfold is_Some. setoid_rewrite He.
    destruct (decide (key = k)) as [->|].
    + rewrite lookup_insert_eq. naive_solver.
    + rewrite lookup_insert_ne by done. naive_solver.
  - intros node file p <- (k & v & [Hk Hn]%map_lookup_filter_Some & <- & _). simpl in Hn.
    unfold of_node in Hn. by rewrite bool_decide_true in Hn.
Qed.
End hot_facts.

(** ** Example *)

Module HotExample.
Definition file : RevisionKey := RevisionKey.Mk (MkNodeId 1) 7.
Definition part (o n : Z) : HotOp :=
  HotInsert (RangeKey.Mk file o n) (map (λ i, Z.of_nat i + o) (seq 0 (Z.to_nat n))).
(** Room for eight bytes: the third insertion evicts the first entry. *)
Definition ops : list HotOp := [part 0 4; part 4 3; part 6 3].
End HotExample.

Lemma hot_ranges_exact_witness :
  let s := fold_left (hot_step elements 8) HotExample.ops hot_default in
  bytes s ≤ 8 ∧
  (hot_get elements (RangeKey.Mk HotExample.file 4 5) s).1 = Some [4; 5; 6; 7; 8] ∧
  (hot_get elements (RangeKey.Mk HotExample.file 0 4) s).1 = None.
Proof.
  assert (Forall (hot_op_ok (λ _ p, p)) HotExample.ops) as Hops
    by (repeat constructor; vm_compute; done).
  destruct (hot_ranges_exact elements ltac:(done) 8 ltac:(vm_compute; done) (λ _ p, p)
    HotExample.ops Hops) as ([_ Hb] & Hget & _).
  intros s. split; [exact Hb|]. split; [|vm_compute; reflexivity].
  apply Hget; [repeat constructor; vm_compute; done|]. split; [vm_compute; reflexivity|].
  split; [by eexists|]. simpl. intros p Hp. destruct (decide (p < 7)).
  - exists (RangeKey.Mk HotExample.file 4 3), [4; 5; 6]. split; [vm_compute; reflexivity|]. simpl. split; [done|lia].
  - exists (RangeKey.Mk HotExample.file 6 3), [6; 7; 8]. split; [vm_compute; reflexivity|]. simpl. split; [done|lia].
Defined.
