(* ===== verification/FsCache.v ===== *)
(** The caches of the client as an interface, and the cache in memory
    ([crates/cache/src/lib.rs]: the traits [MetadataCache], [DirectoryCache],
    [RangeCache], [FilesystemStateCache] and [NodeCacheInvalidation], and
    [MemoryCache]).

    The laws say what a client may rely on: every answer of a cache is true,
    when everything stored in it is. *)

From S2P Require Import Prelude Protocol CacheRanges.

(** * The interface *)

Class FilesystemCache (C : Type) := {
  metadata_get : NodeId → C → option Metadata * C;
  metadata_insert : Metadata → C → C;
  metadata_store_readthrough : Metadata → C → C;
  metadata_invalidate : NodeId → C → C;
  directory_get : RevisionKey → C → option (list DirectoryEntry) * C;
  directory_insert : RevisionKey → list DirectoryEntry → C → C;
  directory_store_readthrough : RevisionKey → list DirectoryEntry → C → C;
  directory_invalidate : NodeId → C → C;
  directory_invalidate_containing : NodeId → C → C;
  range_get : RangeKey → C → option (list Z) * C;
  range_insert : RangeKey → list Z → C → C;
  range_store_readthrough : RangeKey → list Z → C → C;
  range_invalidate : NodeId → C → C;
  stats_get : C → option FilesystemStats * C;
  stats_insert : FilesystemStats → C → C;
  stats_store_readthrough : FilesystemStats → C → C;
  invalidate_node_state : NodeId → C → C;
  invalidate_node_memory : NodeId → C → C
}.

(** What is true of a remote file system: the bytes of every file revision, and
    the metadata, directory snapshots and statistics it has reported. *)
Module Truth.
Record Truth := Mk {
  content : RevisionKey → Z → Z;
  metadata : Metadata → Prop;
  directory : RevisionKey → list DirectoryEntry → Prop;
  statistics : FilesystemStats → Prop
}.
End Truth.
Abbreviation Truth := Truth.Truth.

(** The metadata in a true snapshot is true, and belongs to its entry. *)
Definition truth_ok (T : Truth) : Prop :=
  ∀ key value e, Truth.directory T key value → e ∈ value →
    Truth.metadata T (DirectoryEntry.metadata e) ∧
    Metadata.node (DirectoryEntry.metadata e) = DirectoryEntry.node e.

(** A range and bytes that may be stored for it. *)
Definition true_range (T : Truth) (key : RangeKey) (value : list Z) : Prop :=
  wf_range key ∧ (valid_range_payload key value = true → value = range_content (Truth.content T) key).

(** The updates of a cache. *)
Inductive CacheUpdate :=
  | UpMetadata (readthrough : bool) (value : Metadata)
  | UpDirectory (readthrough : bool) (key : RevisionKey) (value : list DirectoryEntry)
  | UpRange (readthrough : bool) (key : RangeKey) (value : list Z)
  | UpStats (readthrough : bool) (value : FilesystemStats)
  | UpForgetMetadata (node : NodeId)
  | UpForgetDirectory (node : NodeId)
  | UpForgetContaining (node : NodeId)
  | UpForgetRanges (node : NodeId)
  | UpForgetNode (memory_only : bool) (node : NodeId).

Definition cache_update {C} `{FilesystemCache C} (u : CacheUpdate) : C → C :=
  match u with
  | UpMetadata false v => metadata_insert v
  | UpMetadata true v => metadata_store_readthrough v
  | UpDirectory false k v => directory_insert k v
  | UpDirectory true k v => directory_store_readthrough k v
  | UpRange false k v => range_insert k v
  | UpRange true k v => range_store_readthrough k v
  | UpStats false v => stats_insert v
  | UpStats true v => stats_store_readthrough v
  | UpForgetMetadata n => metadata_invalidate n
  | UpForgetDirectory n => directory_invalidate n
  | UpForgetContaining n => directory_invalidate_containing n
  | UpForgetRanges n => range_invalidate n
  | UpForgetNode false n => invalidate_node_state n
  | UpForgetNode true n => invalidate_node_memory n
  end.

(** The stored value of an update is true. *)
Definition true_update (T : Truth) (u : CacheUpdate) : Prop :=
  match u with
  | UpMetadata _ v => Truth.metadata T v
  | UpDirectory _ k v => Truth.directory T k v
  | UpRange _ k v => true_range T k v
  | UpStats _ v => Truth.statistics T v
  | _ => True
  end.

(** [cache_true T c]: everything the cache can answer is true. *)
Class FilesystemCacheLaws (C : Type) `{FilesystemCache C} := {
  cache_true : Truth → C → Prop;
  law_metadata_get : ∀ T c n, truth_ok T → cache_true T c → cache_true T (metadata_get n c).2 ∧
    ∀ m, (metadata_get n c).1 = Some m → Truth.metadata T m ∧ Metadata.node m = n;
  law_directory_get : ∀ T c k, truth_ok T → cache_true T c → cache_true T (directory_get k c).2 ∧
    ∀ d, (directory_get k c).1 = Some d → Truth.directory T k d;
  law_range_get : ∀ T c k, truth_ok T → wf_range k → cache_true T c → cache_true T (range_get k c).2 ∧
    ∀ d, (range_get k c).1 = Some d → d = range_content (Truth.content T) k;
  law_stats_get : ∀ T c, truth_ok T → cache_true T c → cache_true T (stats_get c).2 ∧
    ∀ v, (stats_get c).1 = Some v → Truth.statistics T v;
  law_update : ∀ T c u, truth_ok T → cache_true T c → true_update T u → cache_true T (cache_update u c)
}.

(** * The cache in memory *)

Module MemoryCache.
Record MemoryCache := Mk {
  metadata : gmap NodeId Metadata;
  directories : gmap RevisionKey (list DirectoryEntry);
  ranges : gmap RangeKey (list Z);
  statistics : option FilesystemStats
}.
Definition default : MemoryCache := Mk ∅ ∅ ∅ None.
End MemoryCache.
Abbreviation MemoryCache := MemoryCache.MemoryCache.

(** [entries.iter().any(|entry| entry.node == node)]. *)
Definition mentions (node : NodeId) (entries : list DirectoryEntry) : bool :=
  existsb (λ e, bool_decide (DirectoryEntry.node e = node)) entries.

Section memory.
Context (map_order : gset RangeKey → list RangeKey).

Definition memory_metadata_get (node : NodeId) (c : MemoryCache) : option Metadata :=
  MemoryCache.metadata c !! node.
Definition memory_metadata_insert (value : Metadata) (c : MemoryCache) : MemoryCache :=
  MemoryCache.Mk (<[Metadata.node value := value]> (MemoryCache.metadata c))
    (MemoryCache.directories c) (MemoryCache.ranges c) (MemoryCache.statistics c).
Definition memory_metadata_invalidate (node : NodeId) (c : MemoryCache) : MemoryCache :=
  MemoryCache.Mk (delete node (MemoryCache.metadata c))
    (MemoryCache.directories c) (MemoryCache.ranges c) (MemoryCache.statistics c).

Definition memory_directory_get (key : RevisionKey) (c : MemoryCache) : option (list DirectoryEntry) :=
  MemoryCache.directories c !! key.
Definition memory_directory_insert (key : RevisionKey) (value : list DirectoryEntry) (c : MemoryCache)
    : MemoryCache :=
  MemoryCache.Mk (MemoryCache.metadata c) (<[key := value]> (MemoryCache.directories c))
    (MemoryCache.ranges c) (MemoryCache.statistics c).
Definition memory_store_snapshot (key : RevisionKey) (value : list DirectoryEntry) (c : MemoryCache)
    : MemoryCache :=
  let m := fold_left (λ m e, <[DirectoryEntry.node e := DirectoryEntry.metadata e]> m) value
             (MemoryCache.metadata c) in
  MemoryCache.Mk m (<[key := value]> (MemoryCache.directories c)) (MemoryCache.ranges c)
    (MemoryCache.statistics c).
Definition memory_retain_directories (f : RevisionKey → list DirectoryEntry → bool) (c : MemoryCache)
    : MemoryCache :=
  MemoryCache.Mk (MemoryCache.metadata c)
    (filter (λ kv, f kv.1 kv.2 = true) (MemoryCache.directories c)) (MemoryCache.ranges c)
    (MemoryCache.statistics c).
Definition memory_directory_invalidate (node : NodeId) : MemoryCache → MemoryCache :=
  memory_retain_directories (λ key _, negb (bool_decide (RevisionKey.node key = node))).
Definition memory_invalidate_containing (node : NodeId) : MemoryCache → MemoryCache :=
  memory_retain_directories (λ _ entries, negb (mentions node entries)).

(** The segments of a file. *)
Definition memory_segments (key : RangeKey) (ranges : gmap RangeKey (list Z)) : list (Segment RangeKey) :=
  omap (λ k, if bool_decide (RangeKey.file k = RangeKey.file key)
             then data ← ranges !! k; Some (Segment.Mk k (RangeKey.offset k) data)
             else None) (map_order (dom ranges)).

Definition memory_range_get (key : RangeKey) (c : MemoryCache) : option (list Z) :=
  if RangeKey.length key =? 0 then _ ← range_end key; Some []
  else fst <$> assemble_range key (memory_segments key (MemoryCache.ranges c)).
Definition memory_range_insert (key : RangeKey) (value : list Z) (c : MemoryCache) : MemoryCache :=
  if valid_range_payload key value && negb (bool_decide (value = [])) then
    MemoryCache.Mk (MemoryCache.metadata c) (MemoryCache.directories c)
      (<[key := value]> (MemoryCache.ranges c)) (MemoryCache.statistics c)
  else c.
Definition memory_range_invalidate (node : NodeId) (c : MemoryCache) : MemoryCache :=
  MemoryCache.Mk (MemoryCache.metadata c) (MemoryCache.directories c)
    (filter (λ kv, of_node node kv.1 = false) (MemoryCache.ranges c)) (MemoryCache.statistics c).

Definition memory_invalidate_node (node : NodeId) (c : MemoryCache) : MemoryCache :=
  memory_range_invalidate node
    (memory_retain_directories
       (λ key entries, negb (bool_decide (RevisionKey.node key = node)) && negb (mentions node entries))
       (memory_metadata_invalidate node c)).

Definition memory_stats_insert (value : FilesystemStats) (c : MemoryCache) : MemoryCache :=
  MemoryCache.Mk (MemoryCache.metadata c) (MemoryCache.directories c) (MemoryCache.ranges c)
    (Some value).

(** The methods a trait gives a default are [insert] and
    [invalidate_node_state]. *)
Definition memory_cache : FilesystemCache MemoryCache := {|
  metadata_get n c := (memory_metadata_get n c, c);
  metadata_insert := memory_metadata_insert;
  metadata_store_readthrough := memory_metadata_insert;
  metadata_invalidate := memory_metadata_invalidate;
  directory_get k c := (memory_directory_get k c, c);
  directory_insert := memory_directory_insert;
  directory_store_readthrough := memory_store_snapshot;
  directory_invalidate := memory_directory_invalidate;
  directory_invalidate_containing := memory_invalidate_containing;
  range_get k c := (memory_range_get k c, c);
  range_insert := memory_range_insert;
  range_store_readthrough := memory_range_insert;
  range_invalidate := memory_range_invalidate;
  stats_get c := (MemoryCache.statistics c, c);
  stats_insert := memory_stats_insert;
  stats_store_readthrough := memory_stats_insert;
  invalidate_node_state := memory_invalidate_node;
  invalidate_node_memory := memory_invalidate_node
|}.
End memory.

(** * The cache in memory keeps its promise *)

Section memory_facts.
Context (map_order : gset RangeKey → list RangeKey).
Context (map_order_perm : ∀ s, map_order s ≡ₚ elements s).

Record memory_true (T : Truth) (c : MemoryCache) : Prop := {
  mt_metadata : ∀ n m, MemoryCache.metadata c !! n = Some m → Truth.metadata T m ∧ Metadata.node m = n;
  mt_directory : ∀ k d, MemoryCache.directories c !! k = Some d → Truth.directory T k d;
  mt_range : ∀ k v, MemoryCache.ranges c !! k = Some v →
    wf_range k ∧ valid_range_payload k v = true ∧ v = range_content (Truth.content T) k;
  mt_stats : ∀ v, MemoryCache.statistics c = Some v → Truth.statistics T v
}.

(** An entry of the file holds the byte at [p]. *)
Definition memory_covers (c : MemoryCache) (file : RevisionKey) (p : Z) : Prop :=
  ∃ k v, MemoryCache.ranges c !! k = Some v ∧ RangeKey.file k = file ∧
    RangeKey.offset k ≤ p < RangeKey.offset k + RangeKey.length k.

Lemma memory_true_default T : memory_true T MemoryCache.default.
Proof. split; simpl; try (intros ?; try intros ?; rewrite lookup_empty; done). done. Qed.

Lemma elem_of_segments key ranges s :
  s ∈ memory_segments map_order key ranges ↔
  RangeKey.file (Segment.key s) = RangeKey.file key ∧
  ranges !! Segment.key s = Some (Segment.data s) ∧ Segment.offset s = RangeKey.offset (Segment.key s).
Proof.
  unfold memory_segments. rewrite list_elem_of_omap. split.
  - intros (k & Hk & Hs). destruct (bool_decide _) eqn:E; [|done]. bool_simpl.
    destruct (ranges !! k) as [d|] eqn:Ed; [|done]. simpl in Hs. by simplify_eq/=.
  - intros (Hf & Hr & Ho). exists (Segment.key s).
    rewrite map_order_perm, elem_of_elements, elem_of_dom, bool_decide_true, Hr by done.
    split; [eauto|]. simpl. destruct s as [k o d]. simpl in *. by subst.
Qed.

Lemma memory_segments_ok T c key :
  memory_true T c →
  Forall (segment_ok (Truth.content T (RangeKey.file key)))
    (memory_segments map_order key (MemoryCache.ranges c)).
Proof.
  intros Ht. apply Forall_forall. intros s (Hf & Hr & Ho)%elem_of_segments.
  destruct (mt_range T c Ht _ _ Hr) as ([[Hk _] _] & Hv & Hd). apply valid_payload_inv in Hv as [Hl He].
  unfold range_end in He. apply u64_checked_add_Some in He as [_ He].
  split; [|lia|lia]. rewrite Ho, Hd at 1. unfold range_content. by rewrite Hf, Hl.
Qed.

Lemma memory_covers_segments T c key p :
  memory_true T c →
  Exists (segment_covers p) (memory_segments map_order key (MemoryCache.ranges c)) ↔
  memory_covers c (RangeKey.file key) p.
Proof.
  intros Ht. rewrite Exists_exists. split.
  - intros (s & (Hf & Hr & Ho)%elem_of_segments & Hp). exists (Segment.key s), (Segment.data s).
    destruct (mt_range T c Ht _ _ Hr) as (_ & Hv & _). apply valid_payload_inv in Hv as [Hl _].
    unfold segment_covers in Hp. rewrite Hl, <- Ho. done.
  - intros (k & v & Hr & Hf & Hp). exists (Segment.Mk k (RangeKey.offset k) v).
    split; [by apply elem_of_segments|].
    destruct (mt_range T c Ht _ _ Hr) as (_ & Hv & _). apply valid_payload_inv in Hv as [Hl _].
    unfold segment_covers. simpl. lia.
Qed.

Lemma memory_range_spec T c key d :
  memory_true T c → wf_range key →
  memory_range_get map_order key c = Some d ↔
  d = range_content (Truth.content T) key ∧ is_Some (range_end key) ∧
  ∀ p, RangeKey.offset key ≤ p < RangeKey.offset key + RangeKey.length key →
    memory_covers c (RangeKey.file key) p.
Proof.
  intros Ht Hwf. pose proof Hwf as [_ [Hl _]]. unfold memory_range_get, range_content.
  destruct (RangeKey.length key =? 0) eqn:E; bool_simpl.
  { rewrite E. destruct (range_end key) as [e|] eqn:Ee; simpl; [|naive_solver].
    split; [intros [= <-]; split; [done|]; split; [eauto|lia]|by intros [-> _]]. }
  destruct (range_end key) as [e|] eqn:Ee.
  2: { unfold assemble_range. rewrite Ee. simpl. naive_solver. }
  pose proof (assemble_range_spec (Truth.content T (RangeKey.file key)) key e
    (memory_segments map_order key (MemoryCache.ranges c)) Hwf ltac:(lia) Ee (memory_segments_ok T c key Ht)) as Hs.
  unfold range_end in Ee. apply u64_checked_add_Some in Ee as [-> _].
  destruct (assemble_range _ _) as [[d' u]|]; simpl.
  - destruct Hs as (-> & _ & Hcov). split; [intros [= <-]|by intros [-> _]].
    split; [done|]. split; [eauto|]. intros p Hp. by eapply memory_covers_segments, Hcov.
  - destruct Hs as (p & Hp & Hn). split; [done|]. intros (_ & _ & Hcov).
    destruct Hn. eapply memory_covers_segments; [done|]. by apply Hcov.
Qed.

Lemma memory_snapshot_true T c key value :
  truth_ok T → memory_true T c → Truth.directory T key value →
  memory_true T (memory_store_snapshot key value c).
Proof.
  intros Hok [Hm Hd Hr Hst] Hv. split; simpl; try done.
  - assert (∀ e, e ∈ value → Truth.metadata T (DirectoryEntry.metadata e) ∧
      Metadata.node (DirectoryEntry.metadata e) = DirectoryEntry.node e) as He by (intros e; by apply (Hok key)).
    clear Hv Hd Hr Hst. revert He Hm. generalize (MemoryCache.metadata c).
    induction value as [|e l IH]; intros m He Hm; simpl; [done|].
    apply IH; [set_solver|]. intros n x [[<- <-]|[_ Hx]]%lookup_insert_Some; [apply He; set_solver|by apply Hm].
  - intros k d [[<- <-]|[_ Hk]]%lookup_insert_Some; [done|by apply Hd].
Qed.

Lemma memory_update_true T c u :
  truth_ok T → memory_true T c → true_update T u →
  memory_true T (cache_update (H:=memory_cache map_order) u c).
Proof.
  intros Hok Ht Hu. pose proof Ht as [Hm Hd Hr Hst].
  assert (∀ v, Truth.metadata T v → memory_true T (memory_metadata_insert v c)) as Hins.
  { intros v Hv. split; simpl; try done.
    intros n m [[<- <-]|[_ Hn]]%lookup_insert_Some; [done|by apply Hm]. }
  assert (∀ k v, true_range T k v → memory_true T (memory_range_insert k v c)) as Hrange.
  { intros k v [Hwf Hv]. unfold memory_range_insert. destruct (_ && _) eqn:E; [|done]. bool_simpl.
    split; simpl; try done. intros k' v' [[<- <-]|[_ Hn]]%lookup_insert_Some; [|by apply Hr].
    split; [done|]. split; [done|]. by apply Hv. }
  destruct u as [[] v|[] k v|[] k v|[] v|n|n|n|n|[] n]; simpl in *; auto using memory_snapshot_true.
  all: split; simpl; try done; try (by intros ? [= <-]).
  all: try (intros ? ? [? _]%map_lookup_filter_Some; by eauto).
  all: try (intros ? ? [_ ?]%lookup_delete_Some; by eauto).
  intros k' d [[<- <-]|[_ Hk]]%lookup_insert_Some; [done|by apply Hd].
Qed.

#[refine] Instance memory_cache_laws : FilesystemCacheLaws MemoryCache (H:=memory_cache map_order) := {|
  cache_true := memory_true
|}.
Proof.
  - intros T c n _ Hc. split; [done|]. intros m. apply (mt_metadata T c Hc).
  - intros T c k _ Hc. split; [done|]. intros d. apply (mt_directory T c Hc).
  - intros T c k _ Hwf Hc. split; [done|]. intros d Hd. by apply (memory_range_spec T c k d Hc Hwf) in Hd as [-> _].
  - intros T c _ Hc. split; [done|]. intros v. apply (mt_stats T c Hc).
  - intros T c u Hok Hc Hu. by apply memory_update_true.
Defined.
End memory_facts.

(** The cache in memory answers a range exactly when entries of the same
    file revision hold all of it, however the pieces overlap, and with the bytes
    of the file: after any sequence of stores of true values and invalidations. *)
Theorem memory_ranges_exact map_order T updates key d :
  (∀ s, map_order s ≡ₚ elements s) → truth_ok T → Forall (true_update T) updates → wf_range key →
  let c := fold_left (λ c u, cache_update (H:=memory_cache map_order) u c) updates MemoryCache.default in
  memory_range_get map_order key c = Some d ↔
  d = range_content (Truth.content T) key ∧ is_Some (range_end key) ∧
  ∀ p, RangeKey.offset key ≤ p < RangeKey.offset key + RangeKey.length key →
    memory_covers c (RangeKey.file key) p.
Proof.
  intros Hperm Hok Hu Hwf c. apply memory_range_spec; [done| |done].
  assert (∀ c0, memory_true T c0 → memory_true T
    (fold_left (λ c u, cache_update (H:=memory_cache map_order) u c) updates c0)) as Hrun.
  { induction Hu as [|u l Hu _ IH]; intros c0 Hc; simpl; [done|]. by apply IH, memory_update_true. }
  apply Hrun, memory_true_default.
Qed.

Lemma memory_ranges_exact_witness :
  let file := RevisionKey.Mk (MkNodeId 1) 7 in
  let part o n := UpRange true (RangeKey.Mk file o n) (map (λ i, Z.of_nat i + o) (seq 0 (Z.to_nat n))) in
  memory_range_get elements (RangeKey.Mk file 2 5)
    (fold_left (λ c u, cache_update (H:=memory_cache elements) u c) [part 4 6; part 0 5] MemoryCache.default)
    = Some [2; 3; 4; 5; 6].
Proof.
  intros file part.
  apply (memory_ranges_exact elements
    (Truth.Mk (λ _ p, p) (λ _, False) (λ _ _, False) (λ _, False)) [part 4 6; part 0 5]).
  - done.
  - intros ? ? ? [].
  - repeat constructor; vm_compute; done.
  - repeat constructor; vm_compute; done.
  - split; [done|]. split; [by eexists|]. simpl. intros p Hp.
    destruct (decide (p < 5)).
    + exists (RangeKey.Mk file 0 5), [0; 1; 2; 3; 4]. split; [by vm_compute|]. simpl. split; [done|lia].
    + exists (RangeKey.Mk file 4 6), [4; 5; 6; 7; 8; 9]. split; [by vm_compute|]. simpl. split; [done|lia].
Defined.
