(* ===== verification/CacheStore.v ===== *)
(** The persistent cache ([crates/cache/src/lib.rs], [PersistentCache]): payload
    files and a manifest in a private directory, replaced atomically, bounded by
    evicting the least recently used entries, with deferred commits for batches.

    The state mutex makes every operation a function on the cache's state and
    the disk.  JSON, SHA-256 and hexadecimal text are the class [CacheCodec];
    [HashMap] iteration follows [entry_order]. *)

From S2P Require Import Prelude Protocol Common StateFiles CacheRanges FsCache.

(** * Data *)

Definition CACHE_FORMAT_VERSION : Z := 2.
Definition MAX_MANIFEST_SIZE : Z := 32 * 1024 * 1024.
Definition MAX_MANIFEST_ENTRIES : Z := 100000.
Definition MAX_NAMESPACE_COMPONENT_LENGTH : Z := 1024.
Definition MANIFEST_FILE : Name := lit "manifest.json".
Definition LOCK_FILE : Name := lit ".cache.lock".

Module CacheNamespace.
Record CacheNamespace := Mk {
  server_identity_sha256 : list Z;
  export_id : list Z;
  authorization_scope : list Z
}.
End CacheNamespace.
Abbreviation CacheNamespace := CacheNamespace.CacheNamespace.
#[global] Instance CacheNamespace_eq_dec : EqDecision CacheNamespace.
Proof. solve_decision. Defined.

Module CacheError.
Inductive CacheError :=
  | Io (e : IoError)
  | Serialization (message : list Z)
  | InvalidNamespace
  | UnsafeStorage
  | CacheInUse
  | InvalidSizeLimit
  | InvalidRange
  | EntryTooLarge
  | InvalidManifest
  | NamespaceMismatch
  | CorruptEntry
  | StateUnavailable.
End CacheError.
Abbreviation CacheError := CacheError.CacheError.

Module CacheStats.
Record CacheStats := Mk { entries : Z; payload_bytes : Z; maximum_payload_bytes : Z }.
End CacheStats.
Abbreviation CacheStats := CacheStats.CacheStats.

Module EntryKey.
Inductive EntryKey :=
  | Metadata (node : NodeId)
  | Directory (key : RevisionKey)
  | Range (key : RangeKey)
  | FilesystemStats.
End EntryKey.
Abbreviation EntryKey := EntryKey.EntryKey.
#[global] Instance EntryKey_eq_dec : EqDecision EntryKey.
Proof. solve_decision. Defined.
#[global] Instance EntryKey_countable : Countable EntryKey.
Proof.
  apply (inj_countable'
    (λ k, match k with
          | EntryKey.Metadata n => inl (inl n)
          | EntryKey.Directory k => inl (inr k)
          | EntryKey.Range k => inr (inl k)
          | EntryKey.FilesystemStats => inr (inr tt)
          end)
    (λ s, match s with
          | inl (inl n) => EntryKey.Metadata n
          | inl (inr k) => EntryKey.Directory k
          | inr (inl k) => EntryKey.Range k
          | inr (inr _) => EntryKey.FilesystemStats
          end)). by intros [].
Defined.

Definition entry_node (k : EntryKey) : option NodeId :=
  match k with
  | EntryKey.Metadata n => Some n
  | EntryKey.Directory k => Some (RevisionKey.node k)
  | EntryKey.Range k => Some (RevisionKey.node (RangeKey.file k))
  | EntryKey.FilesystemStats => None
  end.

Module DiskEntry.
Record DiskEntry := Mk {
  key : EntryKey;
  file_name : list Z;
  stored_length : Z;
  sha256 : list Z;
  last_access : Z
}.
End DiskEntry.
Abbreviation DiskEntry := DiskEntry.DiskEntry.

Module Manifest.
Record Manifest := Mk {
  format_version : Z;
  namespace : CacheNamespace;
  clock : Z;
  entries : list DiskEntry
}.
End Manifest.
Abbreviation Manifest := Manifest.Manifest.

Module PersistentState.
Record PersistentState := Mk {
  clock : Z;
  payload_bytes : Z;
  entries : gmap EntryKey DiskEntry
}.
Definition default : PersistentState := Mk 0 0 ∅.
End PersistentState.
Abbreviation PersistentState := PersistentState.PersistentState.

Module DeferredCommits.
Record DeferredCommits := Mk { active : bool; dirty : bool; pending_removals : list (list Z) }.
Definition default : DeferredCommits := Mk false false [].
End DeferredCommits.
Abbreviation DeferredCommits := DeferredCommits.DeferredCommits.

(** [PreparedEntry]: the disk entry but for its access time, and the bytes. *)
Module PreparedEntry.
Record PreparedEntry := Mk {
  key : EntryKey; bytes : list Z; file_name : list Z; digest : list Z; stored_length : Z
}.
End PreparedEntry.
Abbreviation PreparedEntry := PreparedEntry.PreparedEntry.

(** The immutable fields of [PersistentCache]. *)
Module CacheConfig.
Record CacheConfig := Mk { namespace : CacheNamespace; directory : Path; maximum_payload_bytes : Z }.
End CacheConfig.
Abbreviation CacheConfig := CacheConfig.CacheConfig.

(** The mutable ones, with the disk and the counter of temporary files. *)
Record Store (F : Type) := MkStore {
  disk : F;
  counter : Z;
  state : PersistentState;
  deferred : DeferredCommits;
  manifest_writes : Z
}.
Arguments MkStore {F} _ _ _ _ _.
Arguments disk {F} _.
Arguments counter {F} _.
Arguments state {F} _.
Arguments deferred {F} _.
Arguments manifest_writes {F} _.

(** ** Libraries *)

(** [serde_json], [sha2], [hex] and the text of a number; a failed
    serialization gives the text of its error. *)
Class CacheCodec := {
  sha256 : list Z → list Z;
  hex_encode : list Z → list Z;
  key_to_json : EntryKey → result (list Z) (list Z);
  namespace_to_json : CacheNamespace → result (list Z) (list Z);
  metadata_to_json : Metadata → result (list Z) (list Z);
  metadata_from_json : list Z → option Metadata;
  directory_to_json : list DirectoryEntry → result (list Z) (list Z);
  directory_from_json : list Z → option (list DirectoryEntry);
  stats_to_json : FilesystemStats → result (list Z) (list Z);
  stats_from_json : list Z → option FilesystemStats;
  manifest_to_json : Manifest → result (list Z) (list Z);
  manifest_from_json : list Z → option Manifest;
  (** [format!(".tmp-{}-{sequence}", std::process::id())] without the prefix *)
  temporary_suffix : Z → list Z
}.

(** What the cache uses of the file system beyond [StateFs]. *)
Class CacheFs (F : Type) `{StateFs F} := {
  (** the device and inode of [symlink_metadata] are those of the opened file *)
  same_identity : F → Path → bool;
  (** [DirBuilder::new().mode(mode).create()] *)
  create_dir_mode : F → Path → Z → result IoError unit * F;
  (** [OpenOptions] with [read], [write] and [create], and [file.metadata()] *)
  open_or_create : F → Path → Z → result IoError FileMeta * F;
  (** [flock] with [NonBlockingLockExclusive] *)
  try_flock : F → Path → result IoError unit * F
}.

(** * Pure helpers *)

Definition validate_namespace_component (value : list Z) : result CacheError unit :=
  if bool_decide (value = []) || (MAX_NAMESPACE_COMPONENT_LENGTH <? zlen value) ||
     existsb (λ b, b =? 0) value then Err CacheError.InvalidNamespace
  else Ok tt.

Definition validate_namespace (n : CacheNamespace) : result CacheError unit :=
  _ ← validate_namespace_component (CacheNamespace.export_id n);
  validate_namespace_component (CacheNamespace.authorization_scope n).

Definition is_ascii_hexdigit (b : Z) : bool :=
  ((48 <=? b) && (b <=? 57)) || ((97 <=? b) && (b <=? 102)) || ((65 <=? b) && (b <=? 70)).

Definition valid_cache_file_name (name : list Z) : bool :=
  (zlen name =? 68) && bool_decide (drop 64 name = lit ".bin") &&
  forallb is_ascii_hexdigit (take 64 name).

Definition validate_private_ownership_and_mode (euid : Z) (m : FileMeta) : result CacheError unit :=
  if negb (FileMeta.uid m =? euid) || negb (Z.land (FileMeta.mode m) 63 =? 0)
  then Err CacheError.UnsafeStorage else Ok tt.

Definition validate_private_directory_metadata (euid : Z) (m : FileMeta) : result CacheError unit :=
  if negb (bool_decide (FileMeta.kind m = FKind.Dir)) then Err CacheError.UnsafeStorage
  else validate_private_ownership_and_mode euid m.

Definition validate_private_file_metadata (euid : Z) (m : FileMeta) : result CacheError unit :=
  if negb (bool_decide (FileMeta.kind m = FKind.Regular)) then Err CacheError.UnsafeStorage
  else validate_private_ownership_and_mode euid m.

(** [next_clock]: the tick and the state with the advanced clock. *)
Definition next_clock (s : PersistentState) : Z * PersistentState :=
  let tick := u64_saturating_add (PersistentState.clock s) 1 in
  (tick, PersistentState.Mk tick (PersistentState.payload_bytes s) (PersistentState.entries s)).

Definition set_access (tick : Z) (e : DiskEntry) : DiskEntry :=
  DiskEntry.Mk (DiskEntry.key e) (DiskEntry.file_name e) (DiskEntry.stored_length e)
    (DiskEntry.sha256 e) tick.

Definition touch_entry (s : PersistentState) (k : EntryKey) : PersistentState :=
  let '(tick, s) := next_clock s in
  PersistentState.Mk (PersistentState.clock s) (PersistentState.payload_bytes s)
    (alter (set_access tick) k (PersistentState.entries s)).
Definition touch_entries (s : PersistentState) (keys : list EntryKey) : PersistentState :=
  fold_left touch_entry keys s.

(** Remove an entry and its bytes from the account. *)
Definition remove_entry (s : PersistentState) (k : EntryKey) : result CacheError PersistentState :=
  match PersistentState.entries s !! k with
  | None => Ok s
  | Some e =>
      b ← ok_or (u64_checked_sub (PersistentState.payload_bytes s) (DiskEntry.stored_length e))
            CacheError.InvalidManifest;
      Ok (PersistentState.Mk (PersistentState.clock s) b (delete k (PersistentState.entries s)))
  end.

Fixpoint remove_entries (s : PersistentState) (keys : list EntryKey) : result CacheError PersistentState :=
  match keys with
  | [] => Ok s
  | k :: keys' => s' ← remove_entry s k; remove_entries s' keys'
  end.

Section order.
Context (entry_order : gmap EntryKey DiskEntry → list (EntryKey * DiskEntry)).

(** The order of [min_by] in [evict_to_budget]. *)
Definition older (l r : EntryKey * DiskEntry) : bool :=
  match DiskEntry.last_access l.2 ?= DiskEntry.last_access r.2 with
  | Lt => true
  | Eq => lex_leb (DiskEntry.file_name l.2) (DiskEntry.file_name r.2)
  | Gt => false
  end.

(** [Iterator::min_by]: the first of the smallest elements. *)
Fixpoint min_by {A} (leb : A → A → bool) (l : list A) : option A :=
  match l with
  | [] => None
  | x :: l' => match min_by leb l' with
               | None => Some x
               | Some y => if leb x y then Some x else Some y
               end
  end.

(** The loop removes an entry per iteration. *)
Fixpoint evict_loop (fuel : nat) (s : PersistentState) (maximum : Z) : result CacheError PersistentState :=
  if PersistentState.payload_bytes s <=? maximum then Ok s
  else
    match fuel with
    | O => Err CacheError.InvalidManifest
    | S fuel' =>
        oldest ← ok_or (min_by older (entry_order (PersistentState.entries s))) CacheError.InvalidManifest;
        _ ← ok_or (PersistentState.entries s !! oldest.1) CacheError.InvalidManifest;
        s' ← remove_entry s oldest.1;
        evict_loop fuel' s' maximum
    end.

Definition evict_to_budget (s : PersistentState) (maximum : Z) : result CacheError PersistentState :=
  evict_loop (size (PersistentState.entries s)) s maximum.
End order.

(** * The disk *)

Section store.
Context {F : Type} `{SF : StateFs F} `{!CacheFs F} `{CC : CacheCodec}.
Context (entry_order : gmap EntryKey DiskEntry → list (EntryKey * DiskEntry)).

Definition CM : Type → Type := SM (Store F) CacheError.

Definition set_disk (f : F) (s : Store F) : Store F :=
  MkStore f (counter s) (state s) (deferred s) (manifest_writes s).
Definition set_state (p : PersistentState) (s : Store F) : Store F :=
  MkStore (disk s) (counter s) p (deferred s) (manifest_writes s).
Definition set_deferred (d : DeferredCommits) (s : Store F) : Store F :=
  MkStore (disk s) (counter s) (state s) d (manifest_writes s).

(** A call of the file system with [?], one whose error is inspected, one whose
    result is ignored, and a reading one. *)
Definition cd_try {A} (call : F → result IoError A * F) : CM (result IoError A) := λ s,
  let '(r, f) := call (disk s) in (Ok r, set_disk f s).
Definition cd_do {A} (call : F → result IoError A * F) : CM A :=
  r ← cd_try call; sm_lift (map_err CacheError.Io r).
Definition cd_ignore {A} (call : F → result IoError A * F) : CM unit :=
  _ ← cd_try call; mret tt.
Definition cd_ask {A} (call : F → result IoError A) : CM A := λ s,
  (map_err CacheError.Io (call (disk s)), s).

Definition check_directory (m : FileMeta) : CM unit := λ s,
  (validate_private_directory_metadata (geteuid (disk s)) m, s).
Definition check_file (m : FileMeta) : CM unit := λ s,
  (validate_private_file_metadata (geteuid (disk s)) m, s).

Definition ensure_private_directory (p : Path) : CM unit :=
  f ← sm_gets disk;
  match symlink_metadata f p with
  | Ok m => check_directory m
  | Err e =>
      if bool_decide (io_kind e = IoKind.NotFound) then
        created ← cd_try (λ f, create_dir_mode f p 448);
        match created with
        | Ok _ =>
            _ ← cd_do (λ f, set_permissions f p 448);
            m ← cd_ask (λ f, symlink_metadata f p);
            check_directory m
        | Err e' =>
            if bool_decide (io_kind e' = IoKind.AlreadyExists) then
              m ← cd_ask (λ f, symlink_metadata f p);
              check_directory m
            else sm_err (CacheError.Io e')
        end
      else sm_err (CacheError.Io e)
  end.

(** The lock is held as long as the returned file is open. *)
Definition acquire_namespace_lock (p : Path) : CM unit :=
  f ← sm_gets disk;
  _ ← match symlink_metadata f p with Ok m => check_file m | Err _ => mret tt end;
  m ← cd_do (λ f, open_or_create f p 384);
  _ ← check_file m;
  locked ← cd_try (λ f, try_flock f p);
  sm_lift (map_err (λ _, CacheError.CacheInUse) locked).

(** The metadata of the opened file. *)
Definition open_private_file (p : Path) : CM FileMeta :=
  before ← cd_ask (λ f, symlink_metadata f p);
  _ ← check_file before;
  after ← cd_ask (λ f, open_metadata f p);
  _ ← check_file after;
  f ← sm_gets disk;
  if negb (same_identity f p) then sm_err CacheError.UnsafeStorage else mret after.

Definition sync_directory (dir : Path) : CM unit := cd_do (λ f, sync_directory_file f dir).

(** [TEMPORARY_FILE_COUNTER.fetch_add(1)]. *)
Definition next_sequence : CM Z := λ s,
  (Ok (counter s), MkStore (disk s) ((counter s + 1) mod 2 ^ 64) (state s) (deferred s) (manifest_writes s)).

Definition cache_temporary (dir : Path) (sequence : Z) : Path :=
  dir ++ [lit ".tmp-" ++ temporary_suffix sequence].

(** The body of the loop of [write_private_atomic], once a file is created. *)
Definition finish_write (dir p temporary : Path) (b : list Z) : CM unit :=
  result ← sm_try (_ ← cd_do (λ f, st_write_all f temporary b);
                   _ ← cd_do (λ f, sync_all f temporary);
                   m ← cd_ask (λ f, open_metadata f temporary);
                   _ ← check_file m;
                   _ ← cd_do (λ f, st_rename f temporary p);
                   sync_directory dir);
  match result with
  | Ok _ => mret tt
  | Err e => _ ← cd_ignore (λ f, remove_file f temporary); sm_err e
  end.

(** The attempts of [write_private_atomic]. *)
Fixpoint write_attempts (n : nat) (last_collision : option IoError) (dir p : Path) (b : list Z) : CM unit :=
  match n with
  | O => sm_err (CacheError.Io (default (IoError.Custom IoKind.AlreadyExists
                   (lit "could not allocate a cache temporary file")) last_collision))
  | S n' =>
      sequence ← next_sequence;
      let temporary := cache_temporary dir sequence in
      created ← cd_try (λ f, create_new f temporary 384);
      match created with
      | Err e =>
          if bool_decide (io_kind e = IoKind.AlreadyExists) then write_attempts n' (Some e) dir p b
          else sm_err (CacheError.Io e)
      | Ok _ => finish_write dir p temporary b
      end
  end.

Definition write_private_atomic (p : Path) (b : list Z) : CM unit :=
  dir ← sm_lift (ok_or (parent p) CacheError.UnsafeStorage);
  write_attempts 32 None dir p b.

Definition remove_cache_file (p : Path) : CM unit :=
  f ← sm_gets disk;
  match symlink_metadata f p with
  | Ok m => _ ← check_file m; cd_do (λ f, remove_file f p)
  | Err e => if bool_decide (io_kind e = IoKind.NotFound) then mret tt else sm_err (CacheError.Io e)
  end.

(** * The manifest *)

(** The loop of [load_manifest]. *)
Fixpoint load_entries (l : list DiskEntry) (payload_bytes : Z) (m : gmap EntryKey DiskEntry)
    : result CacheError (Z * gmap EntryKey DiskEntry) :=
  match l with
  | [] => Ok (payload_bytes, m)
  | e :: l' =>
      if negb (valid_cache_file_name (DiskEntry.file_name e)) then Err CacheError.InvalidManifest
      else
        b ← ok_or (u64_checked_add payload_bytes (DiskEntry.stored_length e)) CacheError.InvalidManifest;
        match m !! DiskEntry.key e with
        | Some _ => Err CacheError.InvalidManifest
        | None => load_entries l' b (<[DiskEntry.key e := e]> m)
        end
  end.

(** The checks on the bytes of the manifest. *)
Definition parse_manifest (b : list Z) (namespace : CacheNamespace) : result CacheError PersistentState :=
  if zlen b >? MAX_MANIFEST_SIZE then Err CacheError.InvalidManifest
  else
    m ← ok_or (manifest_from_json b) CacheError.InvalidManifest;
    if negb (Manifest.format_version m =? CACHE_FORMAT_VERSION) ||
       (zlen (Manifest.entries m) >? MAX_MANIFEST_ENTRIES) then Err CacheError.InvalidManifest
    else if negb (bool_decide (Manifest.namespace m = namespace)) then Err CacheError.NamespaceMismatch
    else
      loaded ← load_entries (Manifest.entries m) 0 ∅;
      Ok (PersistentState.Mk (Manifest.clock m) loaded.1 loaded.2).

Definition load_manifest (dir : Path) (namespace : CacheNamespace) : CM PersistentState :=
  let p := dir ++ [MANIFEST_FILE] in
  opened ← sm_try (open_private_file p);
  match opened with
  | Err (CacheError.Io e) =>
      if bool_decide (io_kind e = IoKind.NotFound) then mret PersistentState.default
      else sm_err (CacheError.Io e)
  | Err e => sm_err e
  | Ok m =>
      if FileMeta.len m >? MAX_MANIFEST_SIZE then sm_err CacheError.InvalidManifest
      else
        b ← cd_ask (λ f, read_limited f p (MAX_MANIFEST_SIZE + 1));
        sm_lift (parse_manifest b namespace)
  end.

Definition manifest_of (namespace : CacheNamespace) (p : PersistentState) : Manifest :=
  Manifest.Mk CACHE_FORMAT_VERSION namespace (PersistentState.clock p)
    (sort_by (λ l r, lex_leb (DiskEntry.file_name l) (DiskEntry.file_name r))
       (map snd (entry_order (PersistentState.entries p)))).

(** [self.manifest_writes.fetch_add(1)]. *)
Definition count_manifest_write : CM unit :=
  sm_modify (λ s, MkStore (disk s) (counter s) (state s) (deferred s) ((manifest_writes s + 1) mod 2 ^ 64)).

Definition write_manifest (cfg : CacheConfig) (p : PersistentState) : CM unit :=
  b ← sm_lift (map_err CacheError.Serialization
        (manifest_to_json (manifest_of (CacheConfig.namespace cfg) p)));
  if zlen b >? MAX_MANIFEST_SIZE then sm_err CacheError.InvalidManifest
  else
    _ ← write_private_atomic (CacheConfig.directory cfg ++ [MANIFEST_FILE]) b;
    count_manifest_write.

(** * Commits *)

Definition references (p : PersistentState) (file_name : list Z) : bool :=
  existsb (λ ke, bool_decide (DiskEntry.file_name ke.2 = file_name)) (entry_order (PersistentState.entries p)).

Fixpoint remove_unreferenced_files (cfg : CacheConfig) (p : PersistentState) (names : list (list Z)) : CM unit :=
  match names with
  | [] => mret tt
  | name :: names' =>
      _ ← (if references p name then mret tt
           else remove_cache_file (CacheConfig.directory cfg ++ [name]));
      remove_unreferenced_files cfg p names'
  end.

(** The payload files of the old state that the new one does not retain. *)
Definition obsolete_files (old new : PersistentState) : list (list Z) :=
  List.filter (λ name, negb (references new name))
    (map (λ ke, DiskEntry.file_name ke.2) (entry_order (PersistentState.entries old))).

Definition commit_state (cfg : CacheConfig) (proposed : PersistentState) : CM unit :=
  old ← sm_gets state;
  let obsolete := obsolete_files old proposed in
  d ← sm_gets deferred;
  if DeferredCommits.active d then
    _ ← sm_modify (set_state proposed);
    sm_modify (set_deferred (DeferredCommits.Mk true true (DeferredCommits.pending_removals d ++ obsolete)))
  else
    _ ← write_manifest cfg proposed;
    _ ← sm_modify (set_state proposed);
    _ ← sm_modify (set_deferred (DeferredCommits.Mk (DeferredCommits.active d) false []));
    _ ← remove_unreferenced_files cfg proposed (DeferredCommits.pending_removals d ++ obsolete);
    sync_directory (CacheConfig.directory cfg).

Definition begin_deferred_commits : CM unit :=
  d ← sm_gets deferred;
  sm_modify (set_deferred (DeferredCommits.Mk true (DeferredCommits.dirty d)
    (DeferredCommits.pending_removals d))).

Definition flush_deferred_commits (cfg : CacheConfig) : CM unit :=
  p ← sm_gets state;
  d ← sm_gets deferred;
  _ ← sm_modify (set_deferred (DeferredCommits.Mk false (DeferredCommits.dirty d)
        (DeferredCommits.pending_removals d)));
  if negb (DeferredCommits.dirty d) then mret tt
  else
    _ ← write_manifest cfg p;
    _ ← sm_modify (set_deferred (DeferredCommits.Mk false false []));
    _ ← remove_unreferenced_files cfg p (DeferredCommits.pending_removals d);
    sync_directory (CacheConfig.directory cfg).

Definition remove_keys_locked (cfg : CacheConfig) (keys : list EntryKey) : CM unit :=
  match keys with
  | [] => mret tt
  | _ =>
      p ← sm_gets state;
      proposed ← sm_lift (remove_entries p keys);
      commit_state cfg proposed
  end.

Definition remove_matching (cfg : CacheConfig) (predicate : EntryKey → bool) : CM unit :=
  p ← sm_gets state;
  remove_keys_locked cfg (List.filter predicate (map fst (entry_order (PersistentState.entries p)))).

Definition enforce_budget (cfg : CacheConfig) : CM unit :=
  p ← sm_gets state;
  if PersistentState.payload_bytes p <=? CacheConfig.maximum_payload_bytes cfg then mret tt
  else
    proposed ← sm_lift (evict_to_budget entry_order p (CacheConfig.maximum_payload_bytes cfg));
    commit_state cfg proposed.

(** * Reading *)

Definition read_disk_entry (cfg : CacheConfig) (e : DiskEntry) : CM (list Z) :=
  if negb (valid_cache_file_name (DiskEntry.file_name e)) then sm_err CacheError.InvalidManifest
  else
    let p := CacheConfig.directory cfg ++ [DiskEntry.file_name e] in
    opened ← sm_try (open_private_file p);
    match opened with
    | Err (CacheError.Io x) =>
        if bool_decide (io_kind x = IoKind.NotFound) then sm_err CacheError.CorruptEntry
        else sm_err (CacheError.Io x)
    | Err x => sm_err x
    | Ok m =>
        if negb (FileMeta.len m =? DiskEntry.stored_length e) ||
           (DiskEntry.stored_length e >? CacheConfig.maximum_payload_bytes cfg) then
          sm_err CacheError.CorruptEntry
        else
          b ← cd_ask (λ f, read_limited f p (u64_saturating_add (DiskEntry.stored_length e) 1));
          if negb (zlen b =? DiskEntry.stored_length e) ||
             negb (bool_decide (sha256 b = DiskEntry.sha256 e)) then sm_err CacheError.CorruptEntry
          else mret b
    end.

Definition is_corrupt {A} (r : result CacheError A) : bool :=
  match r with Err CacheError.CorruptEntry => true | _ => false end.

Definition touch (keys : list EntryKey) : CM unit :=
  sm_modify (λ s, set_state (touch_entries (state s) keys) s).

(** Drop a corrupt entry and report it. *)
Definition drop_corrupt {A} (cfg : CacheConfig) (key : EntryKey) : CM A :=
  _ ← remove_keys_locked cfg [key]; sm_err CacheError.CorruptEntry.

Definition read_key (cfg : CacheConfig) (key : EntryKey) : CM (option (list Z)) :=
  p ← sm_gets state;
  match PersistentState.entries p !! key with
  | None => mret None
  | Some e =>
      r ← sm_try (read_disk_entry cfg e);
      match r with
      | Ok b => _ ← touch [key]; mret (Some b)
      | Err CacheError.CorruptEntry => drop_corrupt cfg key
      | Err x => sm_err x
      end
  end.

(** [serde_json::from_slice] is [from_json]. *)
Definition decode_value {T} (cfg : CacheConfig) (from_json : list Z → option T) (key : EntryKey)
    (b : list Z) : CM T :=
  match from_json b with
  | Some v => mret v
  | None => drop_corrupt cfg key
  end.

Definition get_metadata_value (cfg : CacheConfig) (node : NodeId) : CM (option Metadata) :=
  let key := EntryKey.Metadata node in
  b ← read_key cfg key;
  match b with
  | None => mret None
  | Some b =>
      value ← decode_value cfg metadata_from_json key b;
      if negb (bool_decide (Metadata.node value = node)) then drop_corrupt cfg key
      else mret (Some value)
  end.

Definition get_directory_value (cfg : CacheConfig) (key : RevisionKey) : CM (option (list DirectoryEntry)) :=
  b ← read_key cfg (EntryKey.Directory key);
  match b with
  | None => mret None
  | Some b => value ← decode_value cfg directory_from_json (EntryKey.Directory key) b; mret (Some value)
  end.

Definition get_filesystem_stats_value (cfg : CacheConfig) : CM (option FilesystemStats) :=
  b ← read_key cfg EntryKey.FilesystemStats;
  match b with
  | None => mret None
  | Some b => value ← decode_value cfg stats_from_json EntryKey.FilesystemStats b; mret (Some value)
  end.

(** The candidates of [get_range_value]. *)
Definition range_candidates (key : RangeKey) (p : PersistentState) : list (RangeKey * DiskEntry) :=
  omap (λ ke, match ke.1 with
              | EntryKey.Range candidate =>
                  if bool_decide (RangeKey.file candidate = RangeKey.file key) && ranges_overlap candidate key
                  then Some (candidate, ke.2) else None
              | _ => None
              end) (entry_order (PersistentState.entries p)).

(** Read and check the payload of a range, dropping it when it is corrupt. *)
Definition read_range_entry (cfg : CacheConfig) (range : RangeKey) (e : DiskEntry) : CM (list Z) :=
  r ← sm_try (read_disk_entry cfg e);
  match r with
  | Ok data => if valid_range_payload range data then mret data else drop_corrupt cfg (EntryKey.Range range)
  | Err CacheError.CorruptEntry => drop_corrupt cfg (EntryKey.Range range)
  | Err x => sm_err x
  end.

Fixpoint read_segments (cfg : CacheConfig) (candidates : list (RangeKey * DiskEntry))
    : CM (list (Segment EntryKey)) :=
  match candidates with
  | [] => mret []
  | (range, e) :: candidates' =>
      data ← read_range_entry cfg range e;
      rest ← read_segments cfg candidates';
      mret (Segment.Mk (EntryKey.Range range) (RangeKey.offset range) data :: rest)
  end.

Definition get_range_value (cfg : CacheConfig) (key : RangeKey) : CM (option (list Z)) :=
  match range_end key with
  | None => sm_err CacheError.InvalidRange
  | Some _ =>
      if RangeKey.length key =? 0 then mret (Some [])
      else if RangeKey.length key >? CacheConfig.maximum_payload_bytes cfg then mret None
      else
        p ← sm_gets state;
        segments ← read_segments cfg (range_candidates key p);
        match assemble_range key segments with
        | None => mret None
        | Some (data, used) => _ ← touch used; mret (Some data)
        end
  end.

(** The candidates of [get_covering_range_value]. *)
Definition covering_candidates (key : RangeKey) (request_end : Z) (p : PersistentState)
    : list (RangeKey * DiskEntry) :=
  omap (λ ke, match ke.1 with
              | EntryKey.Range range =>
                  e ← range_end range;
                  if bool_decide (RangeKey.file range = RangeKey.file key) &&
                     (RangeKey.offset range <=? RangeKey.offset key) && (request_end <=? e)
                  then Some (range, ke.2) else None
              | _ => None
              end) (entry_order (PersistentState.entries p)).

Definition get_covering_range_value (cfg : CacheConfig) (key : RangeKey) : CM (option (RangeKey * list Z)) :=
  match range_end key with
  | None => sm_err CacheError.InvalidRange
  | Some request_end =>
      if RangeKey.length key =? 0 then mret (Some (key, []))
      else if RangeKey.length key >? CacheConfig.maximum_payload_bytes cfg then mret None
      else
        p ← sm_gets state;
        match min_by_key (λ c, RangeKey.length c.1) (covering_candidates key request_end p) with
        | None => mret None
        | Some (range, e) =>
            data ← read_range_entry cfg range e;
            _ ← touch [EntryKey.Range range];
            mret (Some (range, data))
        end
  end.

Definition cache_stats (cfg : CacheConfig) : CM CacheStats :=
  p ← sm_gets state;
  mret (CacheStats.Mk (Z.of_nat (size (PersistentState.entries p))) (PersistentState.payload_bytes p)
          (CacheConfig.maximum_payload_bytes cfg)).

(** * Insertion *)

(** The name of a payload file. *)
Definition payload_name (key_bytes b : list Z) : list Z := hex_encode (sha256 (key_bytes ++ b)) ++ lit ".bin".

Fixpoint prepare_entries (maximum : Z) (l : list (EntryKey * list Z)) : result CacheError (list PreparedEntry) :=
  match l with
  | [] => Ok []
  | (key, b) :: l' =>
      if zlen b >? maximum then Err CacheError.EntryTooLarge
      else
        key_bytes ← map_err CacheError.Serialization (key_to_json key);
        rest ← prepare_entries maximum l';
        Ok (PreparedEntry.Mk key b (payload_name key_bytes b) (sha256 b) (zlen b) :: rest)
  end.

(** The manifest entry is current. *)
Definition already_stored (p : PersistentState) (e : PreparedEntry) : bool :=
  match PersistentState.entries p !! PreparedEntry.key e with
  | None => false
  | Some existing =>
      bool_decide (DiskEntry.file_name existing = PreparedEntry.file_name e) &&
      (DiskEntry.stored_length existing =? PreparedEntry.stored_length e) &&
      bool_decide (DiskEntry.sha256 existing = PreparedEntry.digest e)
  end.

Fixpoint write_payloads (cfg : CacheConfig) (l : list PreparedEntry) (written : list (list Z)) : CM (list (list Z)) :=
  match l with
  | [] => mret written
  | e :: l' =>
      r ← sm_try (write_private_atomic (CacheConfig.directory cfg ++ [PreparedEntry.file_name e])
                    (PreparedEntry.bytes e));
      match r with
      | Ok _ => write_payloads cfg l' (written ++ [PreparedEntry.file_name e])
      | Err x =>
          p ← sm_gets state;
          _ ← sm_try (remove_unreferenced_files cfg p written);
          sm_err x
      end
  end.

Definition splice_entry (p : PersistentState) (e : PreparedEntry) : result CacheError PersistentState :=
  let '(last_access, p) := next_clock p in
  p ← remove_entry p (PreparedEntry.key e);
  b ← ok_or (u64_checked_add (PersistentState.payload_bytes p) (PreparedEntry.stored_length e))
        CacheError.EntryTooLarge;
  Ok (PersistentState.Mk (PersistentState.clock p) b
        (<[PreparedEntry.key e := DiskEntry.Mk (PreparedEntry.key e) (PreparedEntry.file_name e)
             (PreparedEntry.stored_length e) (PreparedEntry.digest e) last_access]>
           (PersistentState.entries p))).

Fixpoint splice_entries (p : PersistentState) (l : list PreparedEntry) : result CacheError PersistentState :=
  match l with
  | [] => Ok p
  | e :: l' => p' ← splice_entry p e; splice_entries p' l'
  end.

(** The state that an insertion proposes. *)
Definition propose_insert (cfg : CacheConfig) (p : PersistentState) (l : list PreparedEntry)
    : result CacheError PersistentState :=
  proposed ← splice_entries p l;
  if Z.of_nat (size (PersistentState.entries proposed)) >? MAX_MANIFEST_ENTRIES
  then Err CacheError.InvalidManifest
  else evict_to_budget entry_order proposed (CacheConfig.maximum_payload_bytes cfg).

(** [result.and(cleanup)]. *)
Definition result_and {A} (r : result CacheError unit) (cleanup : result CacheError A) : result CacheError A :=
  match r with Ok _ => cleanup | Err e => Err e end.

Definition insert_entries (cfg : CacheConfig) (l : list (EntryKey * list Z)) : CM unit :=
  prepared ← sm_lift (prepare_entries (CacheConfig.maximum_payload_bytes cfg) l);
  p ← sm_gets state;
  let prepared := List.filter (λ e, negb (already_stored p e)) prepared in
  match prepared with
  | [] => mret tt
  | _ =>
      written ← write_payloads cfg prepared [];
      p ← sm_gets state;
      result ← sm_try (proposed ← sm_lift (propose_insert cfg p prepared); commit_state cfg proposed);
      p ← sm_gets state;
      cleanup ← sm_try (remove_unreferenced_files cfg p written);
      sm_lift (result_and result cleanup)
  end.

Definition insert_entry (cfg : CacheConfig) (key : EntryKey) (b : list Z) : CM unit :=
  insert_entries cfg [(key, b)].

Definition to_json {T} (f : T → result (list Z) (list Z)) (v : T) : CM (list Z) :=
  sm_lift (map_err CacheError.Serialization (f v)).

Definition insert_metadata_value (cfg : CacheConfig) (value : Metadata) : CM unit :=
  b ← to_json metadata_to_json value;
  insert_entry cfg (EntryKey.Metadata (Metadata.node value)) b.

Definition insert_directory_value (cfg : CacheConfig) (key : RevisionKey) (value : list DirectoryEntry) : CM unit :=
  b ← to_json directory_to_json value;
  insert_entry cfg (EntryKey.Directory key) b.

(** The metadata entries of a snapshot. *)
Fixpoint snapshot_metadata (value : list DirectoryEntry) : CM (list (EntryKey * list Z)) :=
  match value with
  | [] => mret []
  | e :: value' =>
      b ← to_json metadata_to_json (DirectoryEntry.metadata e);
      rest ← snapshot_metadata value';
      mret ((EntryKey.Metadata (DirectoryEntry.node e), b) :: rest)
  end.

Definition insert_directory_snapshot_value (cfg : CacheConfig) (key : RevisionKey)
    (value : list DirectoryEntry) : CM unit :=
  b ← to_json directory_to_json value;
  children ← snapshot_metadata value;
  insert_entries cfg ((EntryKey.Directory key, b) :: children).

Definition insert_range_value (cfg : CacheConfig) (key : RangeKey) (value : list Z) : CM unit :=
  if negb (valid_range_payload key value) then sm_err CacheError.InvalidRange
  else if bool_decide (value = []) then mret tt
  else insert_entry cfg (EntryKey.Range key) value.

Definition insert_filesystem_stats_value (cfg : CacheConfig) (value : FilesystemStats) : CM unit :=
  b ← to_json stats_to_json value;
  insert_entry cfg EntryKey.FilesystemStats b.

(** * Invalidation *)

(** The directory entries whose snapshot is unreadable or mentions the node. *)
Fixpoint snapshots_mentioning (cfg : CacheConfig) (node : NodeId) (l : list (EntryKey * DiskEntry))
    : CM (list EntryKey) :=
  match l with
  | [] => mret []
  | (key, e) :: l' =>
      r ← sm_try (read_disk_entry cfg e);
      match r with
      | Err CacheError.CorruptEntry => rest ← snapshots_mentioning cfg node l'; mret (key :: rest)
      | Err x => sm_err x
      | Ok b =>
          rest ← snapshots_mentioning cfg node l';
          mret (match directory_from_json b with
                | None => key :: rest
                | Some entries => if mentions node entries then key :: rest else rest
                end)
      end
  end.

Definition is_directory (k : EntryKey) : bool :=
  match k with EntryKey.Directory _ => true | _ => false end.

Definition invalidate_node (cfg : CacheConfig) (node : NodeId) : CM unit :=
  p ← sm_gets state;
  let all := entry_order (PersistentState.entries p) in
  let owned (k : EntryKey) := bool_decide (entry_node k = Some node) in
  containing ← snapshots_mentioning cfg node
    (List.filter (λ ke, is_directory ke.1 && negb (owned ke.1)) all);
  remove_keys_locked cfg (List.filter owned (map fst all) ++ containing).

Definition invalidate_metadata (cfg : CacheConfig) (node : NodeId) : CM unit :=
  remove_matching cfg (λ k, bool_decide (k = EntryKey.Metadata node)).

Definition invalidate_directories (cfg : CacheConfig) (node : NodeId) : CM unit :=
  remove_matching cfg (λ k, match k with
                            | EntryKey.Directory c => bool_decide (RevisionKey.node c = node)
                            | _ => false
                            end).

Definition invalidate_directories_containing (cfg : CacheConfig) (node : NodeId) : CM unit :=
  p ← sm_gets state;
  removed ← snapshots_mentioning cfg node
    (List.filter (λ ke, is_directory ke.1) (entry_order (PersistentState.entries p)));
  remove_keys_locked cfg removed.

Definition invalidate_ranges (cfg : CacheConfig) (node : NodeId) : CM unit :=
  remove_matching cfg (λ k, match k with
                            | EntryKey.Range c => bool_decide (RevisionKey.node (RangeKey.file c) = node)
                            | _ => false
                            end).

(** * Opening *)

Fixpoint remove_orphans (cfg : CacheConfig) (p : PersistentState) (l : list (result IoError Name)) : CM unit :=
  match l with
  | [] => mret tt
  | entry :: l' =>
      name ← sm_lift (map_err CacheError.Io entry);
      _ ← (if negb (utf8_valid name) then mret tt
           else
             let temporary := starts_with (lit ".tmp-") name in
             let orphaned_payload := valid_cache_file_name name && negb (references p name) in
             if temporary || orphaned_payload then remove_cache_file (CacheConfig.directory cfg ++ [name])
             else mret tt);
      remove_orphans cfg p l'
  end.

Definition remove_orphaned_files (cfg : CacheConfig) : CM unit :=
  p ← sm_gets state;
  l ← cd_ask (λ f, st_read_dir f (CacheConfig.directory cfg));
  _ ← remove_orphans cfg p l;
  sync_directory (CacheConfig.directory cfg).

Definition directory_name (n : CacheNamespace) : CM (list Z) :=
  b ← to_json namespace_to_json n;
  mret (hex_encode (sha256 b)).

(** [PersistentCache::open] on a store that holds only the disk. *)
Definition open (root : Path) (namespace : CacheNamespace) (maximum_payload_bytes : Z) : CM CacheConfig :=
  _ ← sm_lift (validate_namespace namespace);
  if maximum_payload_bytes =? 0 then sm_err CacheError.InvalidSizeLimit
  else
    _ ← ensure_private_directory root;
    let namespaces := root ++ [lit "namespaces"] in
    _ ← ensure_private_directory namespaces;
    name ← directory_name namespace;
    let directory := namespaces ++ [name] in
    _ ← ensure_private_directory directory;
    _ ← acquire_namespace_lock (directory ++ [LOCK_FILE]);
    loaded ← load_manifest directory namespace;
    _ ← sm_modify (λ s, MkStore (disk s) (counter s) loaded DeferredCommits.default 0);
    let cfg := CacheConfig.Mk namespace directory maximum_payload_bytes in
    _ ← enforce_budget cfg;
    _ ← remove_orphaned_files cfg;
    mret cfg.

(** * The traits of [PersistentCache] *)

Definition persist_update (cfg : CacheConfig) (u : CacheUpdate) : CM unit :=
  match u with
  | UpMetadata _ v => insert_metadata_value cfg v
  | UpDirectory false k v => insert_directory_value cfg k v
  | UpDirectory true k v => insert_directory_snapshot_value cfg k v
  | UpRange _ k v => insert_range_value cfg k v
  | UpStats _ v => insert_filesystem_stats_value cfg v
  | UpForgetMetadata n => invalidate_metadata cfg n
  | UpForgetDirectory n => invalidate_directories cfg n
  | UpForgetContaining n => invalidate_directories_containing cfg n
  | UpForgetRanges n => invalidate_ranges cfg n
  | UpForgetNode _ n => invalidate_node cfg n
  end.

(** [.ok().flatten()]. *)
Definition ok_flatten {A} (m : CM (option A)) (s : Store F) : option A * Store F :=
  let '(r, s') := m s in (match r with Ok o => o | Err _ => None end, s').
(** [let _ = ..]. *)
Definition ignored (m : CM unit) (s : Store F) : Store F := (m s).2.

Definition persistent_cache (cfg : CacheConfig) : FilesystemCache (Store F) := {|
  metadata_get n := ok_flatten (get_metadata_value cfg n);
  metadata_insert v := ignored (insert_metadata_value cfg v);
  metadata_store_readthrough v := ignored (insert_metadata_value cfg v);
  metadata_invalidate n := ignored (invalidate_metadata cfg n);
  directory_get k := ok_flatten (get_directory_value cfg k);
  directory_insert k v := ignored (insert_directory_value cfg k v);
  directory_store_readthrough k v := ignored (insert_directory_snapshot_value cfg k v);
  directory_invalidate n := ignored (invalidate_directories cfg n);
  directory_invalidate_containing n := ignored (invalidate_directories_containing cfg n);
  range_get k := ok_flatten (get_range_value cfg k);
  range_insert k v := ignored (insert_range_value cfg k v);
  range_store_readthrough k v := ignored (insert_range_value cfg k v);
  range_invalidate n := ignored (invalidate_ranges cfg n);
  stats_get := ok_flatten (get_filesystem_stats_value cfg);
  stats_insert v := ignored (insert_filesystem_stats_value cfg v);
  stats_store_readthrough v := ignored (insert_filesystem_stats_value cfg v);
  invalidate_node_state n := ignored (invalidate_node cfg n);
  invalidate_node_memory n := ignored (invalidate_node cfg n)
|}.
End store.
