(* ===== verification/CacheStoreFacts.v ===== *)
(** The persistent cache is bounded, answers only what was stored, and can be
    reopened after a crash at any point of any operation. *)

From S2P Require Import Prelude Protocol Common StateFiles CacheRanges FsCache CacheStore.

Abbreviation PS := PersistentState.PersistentState.
Abbreviation ps_entries := PersistentState.entries.
Abbreviation ps_bytes := PersistentState.payload_bytes.

(** What the documentation promises of the calls of [CacheFs]. *)
Class CacheFsLaws (F : Type) `{StateFsLaws F} `{!CacheFs F} := {
  law_create_dir_mode : ∀ f p m, st_view (create_dir_mode f p m).2 = st_view f;
  law_open_or_create : ∀ f p m,
    st_view (open_or_create f p m).2 = st_view f ∨ st_view (open_or_create f p m).2 = <[p := []]> (st_view f);
  law_try_flock : ∀ f p, st_view (try_flock f p).2 = st_view f;
  law_open_regular : ∀ f p m, open_metadata f p = Ok m → FileMeta.kind m = FKind.Regular →
    ∃ d, st_view f !! p = Some d ∧ FileMeta.len m = zlen d;
  law_not_found : ∀ f p e, symlink_metadata f p = Err e ∨ open_metadata f p = Err e →
    io_kind e = IoKind.NotFound → st_view f !! p = None
}.

(** What the libraries promise. *)
Class CacheCodecLaws `{CacheCodec} := {
  law_metadata_json : ∀ v b, metadata_to_json v = Ok b → metadata_from_json b = Some v;
  law_directory_json : ∀ v b, directory_to_json v = Ok b → directory_from_json b = Some v;
  law_stats_json : ∀ v b, stats_to_json v = Ok b → stats_from_json b = Some v;
  law_manifest_json : ∀ m b, manifest_to_json m = Ok b → manifest_from_json b = Some m;
  (** 32 bytes as 64 hexadecimal digits *)
  law_hex_digits : ∀ b, forallb is_ascii_hexdigit (hex_encode (sha256 b)) = true;
  law_hex_length : ∀ b, length (hex_encode (sha256 b)) = 64%nat
}.

Lemma payload_name_valid `{CacheCodecLaws} kb b : valid_cache_file_name (payload_name kb b) = true.
Proof.
  unfold valid_cache_file_name, payload_name.
  rewrite zlen_app. unfold zlen. rewrite law_hex_length.
  rewrite drop_app_length', take_app_length', law_hex_digits, bool_decide_true by (done || by rewrite law_hex_length).
  done.
Qed.

(** * True entries *)

Section truth.
Context `{CC : CacheCodec} (T : Truth).

(** [b] is the serialized form of a true value for the key. *)
Definition true_payload (k : EntryKey) (b : list Z) : Prop :=
  match k with
  | EntryKey.Metadata n => ∃ v, Truth.metadata T v ∧ Metadata.node v = n ∧ metadata_to_json v = Ok b
  | EntryKey.Directory r => ∃ v, Truth.directory T r v ∧ directory_to_json v = Ok b
  | EntryKey.Range r =>
      wf_range r ∧ valid_range_payload r b = true ∧ b = range_content (Truth.content T) r
  | EntryKey.FilesystemStats => ∃ v, Truth.statistics T v ∧ stats_to_json v = Ok b
  end.

(** An entry describes a true payload of its key. *)
Record entry_ok (k : EntryKey) (e : DiskEntry) : Prop := {
  eo_key : DiskEntry.key e = k;
  eo_name : valid_cache_file_name (DiskEntry.file_name e) = true;
  eo_payload : ∃ b, true_payload k b ∧ DiskEntry.sha256 e = sha256 b ∧ DiskEntry.stored_length e = zlen b
}.

Record state_ok (p : PS) : Prop := {
  st_entries : ∀ k e, ps_entries p !! k = Some e → entry_ok k e;
  st_bytes : ps_bytes p = map_sum DiskEntry.stored_length (ps_entries p);
  st_fits : ps_bytes p ≤ u64_max
}.

Lemma entry_ok_length k e : entry_ok k e → 0 ≤ DiskEntry.stored_length e.
Proof. intros [_ _ (b & _ & _ & ->)]. apply zlen_nonneg. Qed.

Lemma state_ok_nonneg p : state_ok p → 0 ≤ ps_bytes p.
Proof.
  intros Hp. rewrite (st_bytes p Hp). apply map_sum_nonneg. intros k e Hk.
  eapply entry_ok_length, (st_entries p Hp), Hk.
Qed.

Lemma state_ok_default : state_ok PersistentState.default.
Proof. split; simpl; [intros k e; by rewrite lookup_empty|by rewrite map_sum_empty|done]. Qed.

(** ** Removal *)

Lemma remove_entry_spec p k :
  state_ok p →
  ∃ p', remove_entry p k = Ok p' ∧ state_ok p' ∧ ps_entries p' = delete k (ps_entries p) ∧
    ps_bytes p' ≤ ps_bytes p ∧ PersistentState.clock p' = PersistentState.clock p.
Proof.
  intros Hp. unfold remove_entry. destruct (ps_entries p !! k) as [e|] eqn:E.
  - pose proof (entry_ok_length k e (st_entries p Hp k e E)) as He.
    pose proof (map_sum_delete_lookup DiskEntry.stored_length (ps_entries p) k) as Hd. rewrite E in Hd.
    assert (0 ≤ map_sum DiskEntry.stored_length (delete k (ps_entries p))) as Hn.
    { apply map_sum_nonneg. intros k' e' [_ Hk']%lookup_delete_Some.
      eapply entry_ok_length, (st_entries p Hp), Hk'. }
    rewrite (st_bytes p Hp). destruct (u64_checked_sub _ _) as [b|] eqn:Eb; simpl.
    2: { apply u64_checked_sub_None in Eb. lia. }
    apply u64_checked_sub_Some in Eb as [-> _]. pose proof (st_bytes p Hp). pose proof (st_fits p Hp).
    eexists. split; [done|]. split; [|simpl; split; [done|lia]]. split; simpl; [|lia|lia].
    intros k' e' [_ Hk']%lookup_delete_Some. by apply (st_entries p Hp).
  - exists p. rewrite delete_id by done. auto with lia.
Qed.

Lemma remove_entries_spec keys p :
  state_ok p →
  ∃ p', remove_entries p keys = Ok p' ∧ state_ok p' ∧ ps_bytes p' ≤ ps_bytes p ∧
    ∀ k, ps_entries p' !! k = if bool_decide (k ∈ keys) then None else ps_entries p !! k.
Proof.
  revert p. induction keys as [|k keys IH]; intros p Hp; cbn [remove_entries].
  { exists p. split; [done|]. split; [done|]. split; [lia|]. intros k. case_bool_decide; set_solver. }
  destruct (remove_entry_spec p k Hp) as (p1 & -> & Hp1 & He1 & Hb1 & _).
  change (mbind _ (Ok p1)) with (remove_entries p1 keys).
  destruct (IH p1 Hp1) as (p2 & -> & Hp2 & Hb2 & He2). exists p2.
  split; [done|]. split; [done|]. split; [lia|]. intros k'. rewrite He2, He1.
  destruct (decide (k = k')) as [->|].
  - rewrite lookup_delete_eq. repeat case_bool_decide; set_solver.
  - rewrite lookup_delete_ne by done. repeat case_bool_decide; set_solver.
Qed.

(** ** Access times *)

Lemma touch_entry_ok p k : state_ok p → state_ok (touch_entry p k) ∧ ps_bytes (touch_entry p k) = ps_bytes p.
Proof.
  intros Hp. unfold touch_entry. simpl. split; [|done].
  set (tick := u64_saturating_add _ _).
  split; simpl.
  - intros k' e'. destruct (decide (k = k')) as [->|].
    + rewrite lookup_alter_eq. destruct (ps_entries p !! k') as [e|] eqn:E; simpl; intros; simplify_eq.
      destruct (st_entries p Hp k' e E) as [? ? ?]. by split.
    + rewrite lookup_alter_ne by done. apply (st_entries p Hp).
  - rewrite (st_bytes p Hp). destruct (ps_entries p !! k) as [e|] eqn:E.
    + assert (alter (set_access tick) k (ps_entries p) = <[k := set_access tick e]> (ps_entries p)) as ->.
      { apply map_eq. intros k'. destruct (decide (k = k')) as [->|].
        - by rewrite lookup_alter_eq, lookup_insert_eq, E.
        - by rewrite lookup_alter_ne, lookup_insert_ne. }
      rewrite map_sum_overwrite, E. simpl. lia.
    + by rewrite alter_id'.
  - apply (st_fits p Hp).
Qed.

Lemma touch_entry_dom p k : dom (ps_entries (touch_entry p k)) = dom (ps_entries p).
Proof. unfold touch_entry. simpl. apply dom_alter_L. Qed.

Lemma touch_entries_ok keys p :
  state_ok p → state_ok (touch_entries p keys) ∧ ps_bytes (touch_entries p keys) = ps_bytes p ∧
  dom (ps_entries (touch_entries p keys)) = dom (ps_entries p).
Proof.
  unfold touch_entries. revert p. induction keys as [|k keys IH]; intros p Hp; simpl; [done|].
  destruct (touch_entry_ok p k Hp) as [Hp1 Hb1]. destruct (IH _ Hp1) as (? & Hb & Hd).
  split; [done|]. split; [by rewrite Hb|]. by rewrite Hd, touch_entry_dom.
Qed.

(** ** Eviction *)

Context (entry_order : gmap EntryKey DiskEntry → list (EntryKey * DiskEntry)).
Context (entry_order_perm : ∀ m, entry_order m ≡ₚ map_to_list m).

Lemma elem_of_order m k e : (k, e) ∈ entry_order m ↔ m !! k = Some e.
Proof. by rewrite entry_order_perm, elem_of_map_to_list. Qed.

Lemma older_total l r : older l r = true ∨ older r l = true.
Proof.
  unfold older. rewrite (Z.compare_antisym (DiskEntry.last_access l.2)).
  destruct (_ ?= _); simpl; auto using lex_leb_total.
Qed.

Lemma older_trans a b c : older a b = true → older b c = true → older a c = true.
Proof.
  unfold older. destruct (Z.compare_spec (DiskEntry.last_access a.2) (DiskEntry.last_access b.2)),
    (Z.compare_spec (DiskEntry.last_access b.2) (DiskEntry.last_access c.2)),
    (Z.compare_spec (DiskEntry.last_access a.2) (DiskEntry.last_access c.2)); try done; try lia.
  apply lex_leb_trans.
Qed.

Lemma min_by_None {A} (leb : A → A → bool) l : min_by leb l = None → l = [].
Proof. destruct l; simpl; [done|]. destruct (min_by leb l); [by destruct (leb _ _)|done]. Qed.

Lemma min_by_older l x :
  min_by older l = Some x → x ∈ l ∧ ∀ y, y ∈ l → older x y = true.
Proof.
  revert x. induction l as [|a l IH]; intros x; simpl; [done|].
  destruct (min_by older l) as [y|] eqn:E.
  - destruct (IH y eq_refl) as [Hy Hmin]. destruct (older a y) eqn:Ea; intros; simplify_eq.
    + split; [set_solver|]. intros z [->|Hz]%elem_of_cons; [by destruct (older_total x x)|].
      eapply older_trans; [done|]. by apply Hmin.
    + split; [set_solver|]. intros z Hz. apply elem_of_cons in Hz as [Hz|Hz]; [|by apply Hmin].
      rewrite Hz. by destruct (older_total x a); [|congruence].
  - apply min_by_None in E as ->. intros; simplify_eq. split; [set_solver|].
    intros z ->%list_elem_of_singleton. by destruct (older_total x x).
Qed.

Lemma evict_loop_spec fuel p maximum :
  state_ok p → 0 ≤ maximum → (size (ps_entries p) ≤ fuel)%nat →
  ∃ p', evict_loop entry_order fuel p maximum = Ok p' ∧ state_ok p' ∧ ps_bytes p' ≤ maximum ∧
    PersistentState.clock p' = PersistentState.clock p ∧ ps_entries p' ⊆ ps_entries p ∧
    ∀ k e k' e', ps_entries p !! k = Some e → ps_entries p' !! k = None →
      ps_entries p' !! k' = Some e' → older (k, e) (k', e') = true.
Proof.
  revert p. induction fuel as [|fuel IH]; intros p Hp Hm Hf; simpl;
    destruct (ps_bytes p <=? maximum) eqn:Eb; bool_simpl.
  1, 3: exists p; split; [done|]; split; [done|]; split; [done|]; split; [done|]; split; [done|]; congruence.
  - exfalso. assert (ps_entries p = ∅) as He by (apply map_size_empty_inv; lia).
    rewrite (st_bytes p Hp), He, map_sum_empty in Eb. lia.
  - destruct (min_by older _) as [[k e]|] eqn:Emin; simpl.
    2: { exfalso. apply min_by_None in Emin.
         assert (ps_entries p = ∅) as He.
         { apply map_to_list_empty_iff. rewrite <- Permutation_nil_r. by rewrite <- entry_order_perm, Emin. }
         rewrite (st_bytes p Hp), He, map_sum_empty in Eb. lia. }
    apply min_by_older in Emin as [Hin Hmin]. apply elem_of_order in Hin. rewrite Hin. simpl.
    destruct (remove_entry_spec p k Hp) as (p1 & -> & Hp1 & He1 & Hb1 & Hc1). simpl.
    destruct (IH p1 Hp1 Hm) as (p2 & -> & Hp2 & Hb2 & Hc2 & Hs2 & Ho2).
    { rewrite He1, map_size_delete, Hin. simpl. lia. }
    exists p2. split; [done|]. split; [done|]. split; [done|]. split; [congruence|]. split.
    + etrans; [done|]. rewrite He1. apply delete_subseteq.
    + intros k1 e1 k2 e2 Hk1 Hk1' Hk2. destruct (decide (k = k1)) as [->|].
      * rewrite Hin in Hk1. simplify_eq. apply Hmin, elem_of_order.
        eapply lookup_weaken; [done|]. etrans; [done|]. rewrite He1. apply delete_subseteq.
      * eapply Ho2; [|done|done]. rewrite He1, lookup_delete_ne; done.
Qed.

(** An entry that fits and is newer than all others stays. *)
Lemma evict_keeps_newest fuel p p' maximum k e :
  state_ok p → ps_entries p !! k = Some e → DiskEntry.stored_length e ≤ maximum →
  (∀ k' e', k' ≠ k → ps_entries p !! k' = Some e' → older (k, e) (k', e') = false) →
  evict_loop entry_order fuel p maximum = Ok p' → ps_entries p' !! k = Some e.
Proof.
  revert p. induction fuel as [|fuel IH]; intros p Hp Hk Hl Ho; simpl;
    destruct (ps_bytes p <=? maximum) eqn:Eb; bool_simpl; try (by intros [= <-]); try done.
  destruct (min_by older _) as [[k0 e0]|] eqn:Emin; simpl; [|done].
  apply min_by_older in Emin as [Hin Hmin]. apply elem_of_order in Hin. rewrite Hin. simpl.
  destruct (remove_entry_spec p k0 Hp) as (p1 & -> & Hp1 & He1 & _ & _). simpl.
  destruct (decide (k0 = k)) as [->|Hne].
  - exfalso. rewrite Hin in Hk. simplify_eq.
    assert (delete k (ps_entries p) = ∅) as Hd.
    { apply map_empty. intros k'. apply eq_None_not_Some. intros [e' [Hne Hk']%lookup_delete_Some].
      specialize (Hmin (k', e') ltac:(by apply elem_of_order)). by rewrite Ho in Hmin. }
    rewrite (st_bytes p Hp), (map_sum_delete _ _ _ _ Hin), Hd, map_sum_empty in Eb. lia.
  - intros Hrun. eapply (IH p1); [done| |done| |done].
    + rewrite He1, lookup_delete_ne; done.
    + intros k' e' Hk'. rewrite He1. intros [_ ?]%lookup_delete_Some. by apply Ho.
Qed.

Lemma evict_to_budget_spec p maximum :
  state_ok p → 0 ≤ maximum →
  ∃ p', evict_to_budget entry_order p maximum = Ok p' ∧ state_ok p' ∧ ps_bytes p' ≤ maximum ∧
    PersistentState.clock p' = PersistentState.clock p ∧ ps_entries p' ⊆ ps_entries p ∧
    ∀ k e k' e', ps_entries p !! k = Some e → ps_entries p' !! k = None →
      ps_entries p' !! k' = Some e' → older (k, e) (k', e') = true.
Proof. intros. by apply evict_loop_spec. Qed.

(** ** Insertion *)

Context `{!CacheCodecLaws}.

Record prepared_ok (e : PreparedEntry) : Prop := {
  po_payload : true_payload (PreparedEntry.key e) (PreparedEntry.bytes e);
  po_name : ∃ kb, key_to_json (PreparedEntry.key e) = Ok kb ∧
    PreparedEntry.file_name e = payload_name kb (PreparedEntry.bytes e);
  po_digest : PreparedEntry.digest e = sha256 (PreparedEntry.bytes e);
  po_length : PreparedEntry.stored_length e = zlen (PreparedEntry.bytes e)
}.

Lemma po_valid e : prepared_ok e → valid_cache_file_name (PreparedEntry.file_name e) = true.
Proof. intros [_ (kb & _ & ->) _ _]. apply payload_name_valid. Qed.

Lemma prepare_entries_ok maximum l prepared :
  Forall (λ kb, true_payload kb.1 kb.2) l → prepare_entries maximum l = Ok prepared →
  Forall prepared_ok prepared ∧ map (λ e, (PreparedEntry.key e, PreparedEntry.bytes e)) prepared = l.
Proof.
  intros Hl. revert prepared. induction Hl as [|[k b] l Hk _ IH]; intros prepared; simpl.
  { intros [= <-]. done. }
  destruct (zlen b >? maximum); [done|]. destruct (key_to_json k) as [kb|] eqn:Ek; simpl; [|done].
  destruct (prepare_entries maximum l) as [rest|]; simpl; [|done]. intros [= <-].
  destruct (IH rest eq_refl) as [Hr <-]. split; [|done]. constructor; [|done]. split; simpl; eauto.
Qed.

(** The disk entry of a prepared one. *)
Definition disk_entry (e : PreparedEntry) (tick : Z) : DiskEntry :=
  DiskEntry.Mk (PreparedEntry.key e) (PreparedEntry.file_name e) (PreparedEntry.stored_length e)
    (PreparedEntry.digest e) tick.

Lemma splice_entry_spec p e p' :
  state_ok p → prepared_ok e → splice_entry p e = Ok p' →
  state_ok p' ∧ ps_entries p' =
    <[PreparedEntry.key e := disk_entry e (u64_saturating_add (PersistentState.clock p) 1)]> (ps_entries p).
Proof.
  intros Hp He. unfold splice_entry. simpl.
  set (p0 := PersistentState.Mk _ _ _). assert (state_ok p0) as Hp0 by (by destruct Hp; split).
  destruct (remove_entry_spec p0 (PreparedEntry.key e) Hp0) as (p1 & -> & Hp1 & He1 & _ & _). simpl.
  destruct (u64_checked_add _ _) as [b|] eqn:Eb; simpl; [|done]. intros [= <-].
  apply u64_checked_add_Some in Eb as [-> Hb].
  assert (ps_entries p1 !! PreparedEntry.key e = None) as Hnone by (rewrite He1; apply lookup_delete_eq).
  split; [split; simpl|].
  - intros k d [[<- <-]|[_ Hk]]%lookup_insert_Some; [|by apply (st_entries p1 Hp1)].
    split; simpl; [done|by apply po_valid|]. exists (PreparedEntry.bytes e). by destruct He.
  - rewrite map_sum_insert by done. simpl. rewrite (st_bytes p1 Hp1). lia.
  - done.
  - simpl. rewrite He1, insert_delete_eq. done.
Qed.

Lemma splice_entries_ok l p p' :
  state_ok p → Forall prepared_ok l → splice_entries p l = Ok p' → state_ok p'.
Proof.
  intros Hp Hl. revert p Hp. induction Hl as [|e l He _ IH]; intros p Hp; simpl.
  { by intros [= <-]. }
  destruct (splice_entry p e) as [p1|] eqn:E; simpl; [|done].
  apply splice_entry_spec in E as [Hp1 _]; [|done|done]. by apply IH.
Qed.

Lemma subseteq_size (m m' : gmap EntryKey DiskEntry) : m ⊆ m' → (size m ≤ size m')%nat.
Proof. intros. rewrite <- !size_dom. by apply subseteq_size, subseteq_dom. Qed.

(** A state that may be written as the manifest of a cache with this budget. *)
Definition bounded_ok (maximum : Z) (p : PS) : Prop :=
  state_ok p ∧ ps_bytes p ≤ maximum ∧ Z.of_nat (size (ps_entries p)) ≤ MAX_MANIFEST_ENTRIES.

Lemma propose_insert_ok cfg p l p' :
  0 ≤ CacheConfig.maximum_payload_bytes cfg → state_ok p → Forall prepared_ok l →
  propose_insert entry_order cfg p l = Ok p' → bounded_ok (CacheConfig.maximum_payload_bytes cfg) p'.
Proof.
  intros Hm Hp Hl. unfold propose_insert. destruct (splice_entries p l) as [p1|] eqn:E; simpl; [|done].
  apply splice_entries_ok in E; [|done|done]. destruct (_ >? _) eqn:Ec; [done|]. bool_simpl.
  destruct (evict_to_budget_spec p1 _ E Hm) as (p2 & -> & Hp2 & Hb & _ & Hs & _). intros [= <-].
  split; [done|]. split; [done|]. apply subseteq_size in Hs. lia.
Qed.

Lemma remove_entries_bounded maximum keys p :
  bounded_ok maximum p → ∃ p', remove_entries p keys = Ok p' ∧ bounded_ok maximum p'.
Proof.
  intros (Hp & Hb & Hc). destruct (remove_entries_spec keys p Hp) as (p' & -> & Hp' & Hb' & He).
  exists p'. split; [done|]. split; [done|]. split; [lia|].
  assert (ps_entries p' ⊆ ps_entries p) as Hs%subseteq_size; [|lia].
  apply map_subseteq_spec. intros k e. rewrite He. by case_bool_decide.
Qed.

Lemma touch_entries_bounded maximum keys p :
  bounded_ok maximum p → bounded_ok maximum (touch_entries p keys).
Proof.
  intros (Hp & Hb & Hc). destruct (touch_entries_ok keys p Hp) as (? & Hb' & Hd).
  split; [done|]. split; [lia|]. by rewrite <- size_dom, Hd, size_dom.
Qed.

(** ** The manifest *)

Lemma load_entries_spec l acc m :
  NoDup (map DiskEntry.key l) → Forall (λ e, valid_cache_file_name (DiskEntry.file_name e) = true) l →
  Forall (λ e, 0 ≤ DiskEntry.stored_length e) l → (∀ e, e ∈ l → m !! DiskEntry.key e = None) →
  acc + list_sum DiskEntry.stored_length l ≤ u64_max →
  ∃ m', load_entries l acc m = Ok (acc + list_sum DiskEntry.stored_length l, m') ∧
    ∀ k e, m' !! k = Some e ↔ m !! k = Some e ∨ (e ∈ l ∧ DiskEntry.key e = k).
Proof.
  revert acc m. induction l as [|e l IH]; intros acc m Hn Hv Hp Hd Hs; simpl.
  { exists m. split; [by rewrite Z.add_0_r|]. set_solver. }
  apply NoDup_cons in Hn as [Hk Hn]. apply Forall_cons in Hv as [Hv1 Hv]. apply Forall_cons in Hp as [Hp1 Hp].
  simpl in Hs. assert (0 ≤ list_sum DiskEntry.stored_length l) as Hl.
  { clear -Hp. induction Hp; simpl; lia. }
  rewrite Hv1. simpl. unfold u64_checked_add. rewrite (proj2 (Z.leb_le _ _)) by lia. simpl.
  rewrite Hd by set_solver.
  destruct (IH (acc + DiskEntry.stored_length e) (<[DiskEntry.key e := e]> m)) as (m' & -> & Hm'); try done.
  - intros e' He'. rewrite lookup_insert_ne; [set_solver|]. intros Heq. apply Hk. rewrite Heq.
    apply list_elem_of_fmap. eauto.
  - lia.
  - exists m'. split; [do 2 f_equal; lia|]. intros k e'. rewrite Hm', lookup_insert_Some, elem_of_cons.
    specialize (Hd e ltac:(set_solver)). naive_solver congruence.
Qed.

Lemma manifest_roundtrip cfg p b :
  state_ok p → Z.of_nat (size (ps_entries p)) ≤ MAX_MANIFEST_ENTRIES →
  manifest_to_json (manifest_of entry_order (CacheConfig.namespace cfg) p) = Ok b →
  zlen b ≤ MAX_MANIFEST_SIZE → parse_manifest b (CacheConfig.namespace cfg) = Ok p.
Proof.
  intros Hp Hc Hj Hb. unfold parse_manifest. rewrite Z.gtb_ltb, (proj2 (Z.ltb_ge _ _) Hb).
  rewrite (law_manifest_json _ _ Hj). simpl. unfold manifest_of. simpl.
  set (l := sort_by _ _). assert (l ≡ₚ (map_to_list (ps_entries p)).*2) as Hl.
  { unfold l. rewrite sort_by_perm. apply Permutation_map, entry_order_perm. }
  assert (∀ e, e ∈ l ↔ ∃ k, ps_entries p !! k = Some e) as Hin.
  { intros e. rewrite Hl, list_elem_of_fmap. setoid_rewrite <- elem_of_map_to_list.
    split; [intros ([k e'] & -> & ?); eauto|intros (k & ?); by exists (k, e)]. }
  assert (∀ e k, ps_entries p !! k = Some e → DiskEntry.key e = k) as Hkey.
  { intros e k Hk. apply (st_entries p Hp k e Hk). }
  rewrite Z.gtb_ltb, (proj2 (Z.ltb_ge _ _)); simpl.
  2: { unfold zlen. rewrite Hl, length_fmap, length_map_to_list. done. }
  rewrite bool_decide_true by done. simpl.
  assert (list_sum DiskEntry.stored_length l = ps_bytes p) as Hsum.
  { rewrite (list_sum_perm _ _ _ Hl), <- map_sum_list. symmetry. apply (st_bytes p Hp). }
  destruct (load_entries_spec l 0 ∅) as (m' & Hload & Hm').
  - change (NoDup (DiskEntry.key <$> l)). rewrite Hl, <- list_fmap_compose.
    replace (DiskEntry.key ∘ snd <$> map_to_list (ps_entries p)) with (map_to_list (ps_entries p)).*1.
    { apply NoDup_fst_map_to_list. }
    apply list_fmap_ext. intros i [k e] Hi. simpl. symmetry. apply Hkey.
    apply elem_of_map_to_list. by eapply list_elem_of_lookup_2.
  - apply Forall_forall. intros e (k & Hk)%Hin. apply (st_entries p Hp k e Hk).
  - apply Forall_forall. intros e (k & Hk)%Hin. apply (entry_ok_length k), (st_entries p Hp k e Hk).
  - intros e _. apply lookup_empty.
  - rewrite Hsum. apply (st_fits p Hp).
  - rewrite Hload. simpl. rewrite Hsum. destruct p as [c n es]. simpl in *. f_equal. f_equal.
    apply map_eq. intros k. apply option_eq. intros e. rewrite Hm', lookup_empty, Hin. naive_solver.
Qed.
End truth.

(** * The disk *)

(** The paths of temporary files. *)
Definition is_temporary (dir q : Path) : Prop := ∃ x, q = dir ++ [lit ".tmp-" ++ x].

Lemma temporary_not_payload x : valid_cache_file_name (lit ".tmp-" ++ x) = false.
Proof.
  unfold valid_cache_file_name. rewrite andb_false_iff. right.
  replace (take 64 (lit ".tmp-" ++ x)) with (46 :: take 63 (lit "tmp-" ++ x)) by done. done.
Qed.

Section disk.
Context {F : Type} `{CL : CacheFsLaws F} `{CC : CacheCodec} `{!CacheCodecLaws}.
Context (entry_order : gmap EntryKey DiskEntry → list (EntryKey * DiskEntry)).
Context (entry_order_perm : ∀ m, entry_order m ≡ₚ map_to_list m).
Context (T : Truth) (cfg : CacheConfig).
Context (maximum_ok : is_u64 (CacheConfig.maximum_payload_bytes cfg)).
Abbreviation dir := (CacheConfig.directory cfg).
Abbreviation namespace := (CacheConfig.namespace cfg).
Abbreviation maximum := (CacheConfig.maximum_payload_bytes cfg).

(** What every moment of the disk satisfies: payload files hold true payloads,
    and the manifest, when there is one, can be loaded. *)
Record disk_ok (v : gmap Path (list Z)) : Prop := {
  do_payload : ∀ name data, valid_cache_file_name name = true → v !! (dir ++ [name]) = Some data →
    ∃ k, true_payload T k data;
  do_manifest : ∀ b, v !! (dir ++ [MANIFEST_FILE]) = Some b →
    ∃ p, parse_manifest b namespace = Ok p ∧ state_ok T p
}.

(** A file that may be put in place. *)
Definition good_file (p : Path) (b : list Z) : Prop :=
  (∃ name k, p = dir ++ [name] ∧ valid_cache_file_name name = true ∧ true_payload T k b) ∨
  (p = dir ++ [MANIFEST_FILE] ∧ ∃ s, parse_manifest b namespace = Ok s ∧ state_ok T s).

Lemma disk_ok_delete v p : disk_ok v → disk_ok (delete p v).
Proof.
  intros [Hp Hm]. split.
  - intros name data Hv [_ Hd]%lookup_delete_Some. eauto.
  - intros b [_ Hd]%lookup_delete_Some. eauto.
Qed.

Lemma disk_ok_temporary v q x : is_temporary dir q → disk_ok v → disk_ok (<[q := x]> v).
Proof.
  intros [y ->] [Hp Hm]. split.
  - intros name data Hv [[Heq _]|[_ Hd]]%lookup_insert_Some; [|eauto].
    apply app_inj_tail in Heq as [_ <-]. by rewrite temporary_not_payload in Hv.
  - intros b [[Heq _]|[_ Hd]]%lookup_insert_Some; [|eauto].
    apply app_inj_tail in Heq as [_ Heq]. vm_compute in Heq. discriminate.
Qed.

Lemma disk_ok_good v p b : good_file p b → disk_ok v → disk_ok (<[p := b]> v).
Proof.
  intros Hg [Hp Hm]. split.
  - intros name data Hv [[Heq <-]|[_ Hd]]%lookup_insert_Some; [|eauto].
    destruct Hg as [(name' & k & _ & _ & Hk)|[-> _]]; [eauto|].
    apply app_inj_tail in Heq as [_ <-]. by vm_compute in Hv.
  - intros b' [[Heq <-]|[_ Hd]]%lookup_insert_Some; [|eauto].
    destruct Hg as [(name' & k & -> & Hv & _)|[_ Hk]]; [|done].
    apply app_inj_tail in Heq as [_ ->]. by vm_compute in Hv.
Qed.

Lemma good_not_temporary p b : good_file p b → ¬ is_temporary dir p.
Proof.
  intros [(name & k & -> & Hv & _)|[-> _]] [x Heq]; apply app_inj_tail in Heq as [_ Heq].
  - subst name. by rewrite temporary_not_payload in Hv.
  - vm_compute in Heq. discriminate.
Qed.

(** ** Every moment of the disk *)

(** One call of the file system that can change it. *)
Inductive disk_call (f : F) : F → Prop :=
  | dc_create_new p m : disk_call f (create_new f p m).2
  | dc_write_all p b : disk_call f (st_write_all f p b).2
  | dc_sync_all p : disk_call f (sync_all f p).2
  | dc_sync_directory p : disk_call f (sync_directory_file f p).2
  | dc_rename p q : disk_call f (st_rename f p q).2
  | dc_remove_file p : disk_call f (remove_file f p).2
  | dc_set_permissions p m : disk_call f (set_permissions f p m).2
  | dc_create_dir p m : disk_call f (create_dir_mode f p m).2
  | dc_open_or_create p m : disk_call f (open_or_create f p m).2
  | dc_flock p : disk_call f (try_flock f p).2.

(** [K] says that every moment so far was good. *)
Context (K : F → Prop).
Context (K_ok : ∀ f, K f → disk_ok (st_view f)).
Context (K_call : ∀ f f', K f → disk_call f f' → disk_ok (st_view f') → K f').

Lemma K_same f f' : K f → disk_call f f' → st_view f' = st_view f → K f'.
Proof. intros Hk Hc Hv. eapply K_call; [done|done|]. rewrite Hv. by apply K_ok. Qed.

Lemma K_create f q m : K f → is_temporary dir q → K (create_new f q m).2.
Proof.
  intros Hk Hq. eapply K_call; [done|constructor|]. destruct (create_new f q m) as [r f'] eqn:E.
  apply law_create_new in E. simpl. destruct r as [u|e]; [destruct E as [_ ->]|rewrite E].
  - apply disk_ok_temporary; auto.
  - auto.
Qed.

Lemma K_write f q b : K f → is_temporary dir q → st_view f !! q = Some [] → K (st_write_all f q b).2.
Proof.
  intros Hk Hq Hv. eapply K_call; [done|constructor|]. destruct (st_write_all f q b) as [r f'] eqn:E.
  apply law_write_all in E; [|done]. simpl. destruct r as [u|e]; [rewrite E|destruct E as [b' ->]];
    apply disk_ok_temporary; auto.
Qed.

Lemma K_rename f q p b : K f → st_view f !! q = Some b → good_file p b → K (st_rename f q p).2.
Proof.
  intros Hk Hv Hg. eapply K_call; [done|constructor|]. destruct (st_rename f q p) as [r f'] eqn:E.
  eapply law_rename in E; [|done]. simpl. destruct r as [u|e]; rewrite E; [|auto].
  apply disk_ok_good; [done|]. apply disk_ok_delete; auto.
Qed.

Lemma K_remove f p : K f → K (remove_file f p).2.
Proof.
  intros Hk. eapply K_call; [done|constructor|]. destruct (remove_file f p) as [r f'] eqn:E.
  apply law_remove_file in E. simpl. destruct r as [u|e]; [destruct E as [-> _]|rewrite E]; auto using disk_ok_delete.
Qed.

(** ** Replacing a file *)

(** The cache beside the disk. *)
Definition same_cache (s s' : Store F) : Prop :=
  state s' = state s ∧ deferred s' = deferred s ∧ manifest_writes s' = manifest_writes s.

(** The file is replaced as a whole or not at all, and no other file but
    temporary ones is touched. *)
Definition replaced (p : Path) (b : list Z) (ok : bool) (v v' : gmap Path (list Z)) : Prop :=
  (v' !! p = Some b ∨ ok = false ∧ v' !! p = v !! p) ∧
  ∀ q, q ≠ p → ¬ is_temporary dir q → v' !! q = v !! q.

Lemma remove_frame f q p : p ≠ q → st_view (remove_file f q).2 !! p = st_view f !! p.
Proof.
  intros Hne. destruct (remove_file f q) as [r f'] eqn:E. apply law_remove_file in E. simpl.
  destruct r as [u|e]; [destruct E as [-> _]|by rewrite E]. by apply lookup_delete_ne.
Qed.

(** The outcome of a replacement. *)
Definition write_outcome (p : Path) (b : list Z) (s : Store F) (out : result CacheError unit * Store F) : Prop :=
  K (disk out.2) ∧ same_cache s out.2 ∧
  replaced p b (is_ok out.1) (st_view (disk s)) (st_view (disk out.2)).

(** Giving up leaves the target as it was. *)
Lemma write_abandoned p b q e (s : Store F) f :
  good_file p b → is_temporary dir q → K f →
  (∀ x, ¬ is_temporary dir x → st_view f !! x = st_view (disk s) !! x) →
  write_outcome p b s ((_ ← cd_ignore (λ f, remove_file f q); sm_err e) (set_disk f s)).
Proof.
  intros Hg Hq Hk Hf. unfold cd_ignore, cd_try. sm_unfold. simpl.
  pose proof (K_remove f q Hk) as Hk'. pose proof (remove_frame f q) as Hr.
  destruct (remove_file f q) as [r f'] eqn:E. simpl in *.
  assert (∀ x, ¬ is_temporary dir x → st_view f' !! x = st_view (disk s) !! x) as Hfr.
  { intros x Hx. rewrite Hr by congruence. auto. }
  split; [done|]. split; [done|]. split; simpl; [right; split; [done|]|auto].
  apply Hfr. eapply good_not_temporary, Hg.
Qed.

Lemma finish_write_spec p q b (s : Store F) :
  good_file p b → is_temporary dir q → K (disk s) → st_view (disk s) !! q = Some [] →
  write_outcome p b s (finish_write dir p q b s).
Proof.
  intros Hg Hq Hk Hv. pose proof (good_not_temporary p b Hg) as Hp. unfold finish_write.
  assert (∀ e f, K f → (∀ x, ¬ is_temporary dir x → st_view f !! x = st_view (disk s) !! x) →
    write_outcome p b s ((_ ← cd_ignore (λ f, remove_file f q); sm_err e) (set_disk f s))) as Hab.
  { intros. by apply write_abandoned. }
  unfold cd_do, cd_try, cd_ask, check_file, sync_directory, cd_do, cd_try. sm_unfold. simpl.
  pose proof (K_write (disk s) q b Hk Hq Hv) as Hk1. pose proof (law_write_all (disk s) q b) as Hw.
  destruct (st_write_all (disk s) q b) as [r1 f1]. specialize (Hw r1 f1 Hv eq_refl). simpl in *.
  assert (∀ x, ¬ is_temporary dir x → st_view f1 !! x = st_view (disk s) !! x) as Hf1.
  { intros x Hx. destruct r1; [rewrite Hw|destruct Hw as [? ->]]; apply lookup_insert_ne; congruence. }
  destruct r1 as [u1|e1]; simpl; [|by apply Hab].
  pose proof (K_same f1 _ Hk1 (dc_sync_all f1 q) (law_sync_all f1 q)) as Hk2.
  pose proof (law_sync_all f1 q) as Hs2. destruct (sync_all f1 q) as [r2 f2]; simpl in *.
  rewrite <- Hs2 in Hf1, Hw. destruct r2 as [u2|e2]; simpl; [|by apply Hab].
  destruct (open_metadata f2 q) as [m|e3]; simpl; [|by apply Hab].
  destruct (validate_private_file_metadata _ m) as [u4|e4]; simpl; [|by apply Hab].
  assert (st_view f2 !! q = Some b) as Hq2 by (rewrite Hs2, <- Hs2, Hw; apply lookup_insert_eq).
  pose proof (K_rename f2 q p b Hk2 Hq2 Hg) as Hk5. pose proof (law_rename f2 q p b) as Hr.
  destruct (st_rename f2 q p) as [r5 f5]. specialize (Hr r5 f5 Hq2 eq_refl). simpl in *.
  destruct r5 as [u5|e5]; simpl; [|apply Hab; [done|by rewrite Hr]].
  assert (replaced p b true (st_view (disk s)) (st_view f5)) as Hrep.
  { split; [left; rewrite Hr; apply lookup_insert_eq|]. intros x Hx Ht.
    rewrite Hr, lookup_insert_ne, lookup_delete_ne by congruence. auto. }
  pose proof (K_same f5 _ Hk5 (dc_sync_directory f5 dir) (law_sync_directory f5 dir)) as Hk6.
  pose proof (law_sync_directory f5 dir) as Hs6. destruct (sync_directory_file f5 dir) as [r6 f6]; simpl in *.
  destruct r6 as [u6|e6]; simpl.
  { split; [done|]. split; [done|]. simpl. by rewrite Hs6. }
  unfold cd_ignore, cd_try. sm_unfold. simpl.
  pose proof (K_remove f6 q Hk6) as Hk7. pose proof (remove_frame f6 q) as Hrf.
  destruct (remove_file f6 q) as [r7 f7]; simpl in *. split; [done|]. split; [done|]. simpl.
  rewrite <- Hs6 in Hrep. destruct Hrep as [[Hr1|[? _]] Hr2]; [|done]. split.
  - left. rewrite Hrf by congruence. done.
  - intros x Hx Ht. rewrite Hrf by congruence. auto.
Qed.

Lemma write_attempts_spec n last p b (s : Store F) :
  good_file p b → K (disk s) → write_outcome p b s (write_attempts n last dir p b s).
Proof.
  intros Hg. revert last s. induction n as [|n IH]; intros last s Hk; cbn [write_attempts].
  { split; [done|]. split; [done|]. split; simpl; auto. }
  set (q := cache_temporary dir (counter s)).
  assert (is_temporary dir q) as Hq by (by eexists).
  unfold next_sequence, cd_try. sm_unfold. cbn [disk counter state deferred manifest_writes]. fold q.
  pose proof (K_create (disk s) q 384 Hk Hq) as Hk1. pose proof (law_create_new (disk s) q 384) as Hc.
  destruct (create_new (disk s) q 384) as [r1 f1]. specialize (Hc r1 f1 eq_refl).
  cbn [fst snd] in *. 
  assert (∀ s1, state s1 = state s → deferred s1 = deferred s → manifest_writes s1 = manifest_writes s →
    disk s1 = f1 → (∀ x, ¬ is_temporary dir x → st_view f1 !! x = st_view (disk s) !! x) →
    ∀ out, write_outcome p b s1 out → write_outcome p b s out) as Hmono.
  { intros s1 E1 E2 E3 E4 Hf out (? & (? & ? & ?) & Hrep). split; [done|].
    split; [by repeat split; congruence|]. rewrite E4 in Hrep. destruct Hrep as [Hr1 Hr2]. split.
    - rewrite <- (Hf p); [done|]. eapply good_not_temporary, Hg.
    - intros x Hx Ht. rewrite <- Hf by done. auto. }
  destruct r1 as [u1|e1].
  - destruct Hc as [_ Hc]. eapply Hmono; [..|apply finish_write_spec]; simpl; try done.
    + intros x Hx. rewrite Hc. apply lookup_insert_ne. congruence.
    + rewrite Hc. apply lookup_insert_eq.
  - destruct (bool_decide _).
    + eapply Hmono; [..|apply IH]; simpl; try done. intros x _. by rewrite Hc.
    + eapply (Hmono (set_disk f1 s)); simpl; try done; [intros x _; by rewrite Hc|].
      split; [done|]. split; [done|]. split; simpl; auto.
Qed.

Lemma write_private_atomic_spec p b (s : Store F) :
  good_file p b → K (disk s) → write_outcome p b s (write_private_atomic p b s).
Proof.
  intros Hg Hk. unfold write_private_atomic. assert (parent p = Some dir) as ->.
  { destruct Hg as [(name & k & -> & _)|[-> _]]; unfold parent;
      rewrite removelast_last; by destruct dir. }
  by apply write_attempts_spec.
Qed.

(** ** The invariant of the cache *)

Record store_ok (s : Store F) : Prop := {
  so_disk : K (disk s);
  so_state : bounded_ok T maximum (state s)
}.

Lemma store_ok_same (s s' : Store F) : store_ok s → K (disk s') → state s' = state s → store_ok s'.
Proof. intros [_ Hst] Hk Hs. split; [done|by rewrite Hs]. Qed.

(** Calls that leave every file as it is. *)
Lemma y_try_same {A} (call : F → result IoError A * F) :
  (∀ f, disk_call f (call f).2) → (∀ f, st_view (call f).2 = st_view f) →
  yields store_ok (cd_try call) (λ _, True).
Proof.
  intros Hc Hv s Hs. unfold cd_try. pose proof (K_same (disk s) _ (so_disk s Hs) (Hc _) (Hv _)) as Hk.
  destruct (call (disk s)) as [r f]. simpl in *. split; [|done]. by apply (store_ok_same s).
Qed.

Lemma y_do_same {A} (call : F → result IoError A * F) :
  (∀ f, disk_call f (call f).2) → (∀ f, st_view (call f).2 = st_view f) →
  yields store_ok (cd_do call) (λ _, True).
Proof. intros Hc Hv. eapply yields_bind; [by apply y_try_same|]. intros r _. by apply yields_lift. Qed.

Lemma y_sync : yields store_ok (sync_directory dir) (λ _, True).
Proof. apply y_do_same; intros f; [exact (dc_sync_directory f dir)|apply law_sync_directory]. Qed.

Lemma y_ask_disk {A} (call : F → result IoError A) (R : A → Prop) :
  (∀ f a, K f → call f = Ok a → R a) → yields store_ok (cd_ask call) R.
Proof.
  intros HR s Hs. unfold cd_ask. simpl. split; [done|].
  destruct (call (disk s)) eqn:E; simpl; [|done]. eapply HR; [apply (so_disk s Hs)|done].
Qed.

Lemma y_check_file m : yields store_ok (check_file m) (λ _, True).
Proof. intros s Hs. unfold check_file. simpl. split; [done|]. by destruct (validate_private_file_metadata _ _). Qed.

Lemma y_check_directory m : yields store_ok (check_directory m) (λ _, True).
Proof. intros s Hs. unfold check_directory. simpl. split; [done|]. by destruct (validate_private_directory_metadata _ _). Qed.

Lemma y_state : yields store_ok (sm_gets state : CM PS) (bounded_ok T maximum).
Proof. apply yields_gets. intros s Hs. apply (so_state s Hs). Qed.

Lemma y_remove_cache_file p : yields store_ok (remove_cache_file p) (λ _, True).
Proof.
  unfold remove_cache_file. eapply (yields_bind _ _ _ (λ _, True)); [by apply yields_gets|]. intros f _.
  destruct (symlink_metadata f p) as [m|e].
  - eapply yields_bind; [apply y_check_file|]. intros _ _. unfold cd_do.
    eapply (yields_bind _ _ _ (λ _, True)); [|intros r _; by apply yields_lift].
    intros s Hs. unfold cd_try. pose proof (K_remove (disk s) p (so_disk s Hs)) as Hk.
    destruct (remove_file (disk s) p) as [r f']. simpl in *. split; [|done]. by apply (store_ok_same s).
  - destruct (bool_decide _); [by apply yields_ret|apply yields_err].
Qed.

Lemma y_remove_unreferenced p names :
  yields store_ok (remove_unreferenced_files entry_order cfg p names) (λ _, True).
Proof.
  induction names as [|name names IH]; simpl; [by apply yields_ret|].
  eapply (yields_bind _ _ _ (λ _, True)); [|intros _ _; apply IH].
  destruct (references _ _ _); [by apply yields_ret|apply y_remove_cache_file].
Qed.

Lemma y_write_private p b :
  good_file p b → yields store_ok (write_private_atomic p b) (λ _, True).
Proof.
  intros Hg s Hs. destruct (write_private_atomic_spec p b s Hg (so_disk s Hs)) as (Hk & (Hst & _) & _).
  split; [by apply (store_ok_same s)|]. by destruct (write_private_atomic p b s).1.
Qed.

Lemma y_write_manifest p : bounded_ok T maximum p → yields store_ok (write_manifest entry_order cfg p) (λ _, True).
Proof.
  intros (Hp & _ & Hc). unfold write_manifest.
  eapply (yields_bind _ _ _ (λ b, manifest_to_json (manifest_of entry_order namespace p) = Ok b)).
  { apply yields_lift. destruct (manifest_to_json _) as [b|]; simpl; [by intros ? [= ->]|done]. }
  intros b Hb. destruct (zlen b >? MAX_MANIFEST_SIZE) eqn:E; [apply yields_err|]. bool_simpl.
  eapply yields_bind.
  { apply y_write_private. right. split; [done|]. exists p. split; [|done].
    by eapply (manifest_roundtrip T entry_order entry_order_perm). }
  intros _ _. unfold count_manifest_write. apply yields_modify. intros s Hs. by apply (store_ok_same s); [|apply (so_disk s Hs)|].
Qed.

Lemma y_set_deferred d : yields store_ok (sm_modify (set_deferred d) : CM unit) (λ _, True).
Proof. apply yields_modify. intros s Hs. by apply (store_ok_same s); [|apply (so_disk s Hs)|]. Qed.

Lemma y_set_state p : bounded_ok T maximum p → yields store_ok (sm_modify (set_state p) : CM unit) (λ _, True).
Proof. intros Hp. apply yields_modify. intros s Hs. split; [apply (so_disk s Hs)|done]. Qed.

Lemma y_commit p : bounded_ok T maximum p → yields store_ok (commit_state entry_order cfg p) (λ _, True).
Proof.
  intros Hp. unfold commit_state. eapply yields_bind; [apply y_state|]. intros old _.
  eapply (yields_bind _ _ _ (λ _, True)); [by apply yields_gets|]. intros d _.
  destruct (DeferredCommits.active d).
  - eapply yields_bind; [by apply y_set_state|]. intros _ _. apply y_set_deferred.
  - eapply yields_bind; [by apply y_write_manifest|]. intros _ _.
    eapply yields_bind; [by apply y_set_state|]. intros _ _.
    eapply yields_bind; [apply y_set_deferred|]. intros _ _.
    eapply yields_bind; [apply y_remove_unreferenced|]. intros _ _. apply y_sync.
Qed.

Lemma y_begin : yields store_ok begin_deferred_commits (λ _, True).
Proof.
  eapply (yields_bind _ _ _ (λ _, True)); [by apply yields_gets|]. intros d _. apply y_set_deferred.
Qed.

Lemma y_flush : yields store_ok (flush_deferred_commits entry_order cfg) (λ _, True).
Proof.
  unfold flush_deferred_commits. eapply yields_bind; [apply y_state|]. intros p Hp.
  eapply (yields_bind _ _ _ (λ _, True)); [by apply yields_gets|]. intros d _.
  eapply yields_bind; [apply y_set_deferred|]. intros _ _.
  destruct (negb _); [by apply yields_ret|].
  eapply yields_bind; [by apply y_write_manifest|]. intros _ _.
  eapply yields_bind; [apply y_set_deferred|]. intros _ _.
  eapply yields_bind; [apply y_remove_unreferenced|]. intros _ _. apply y_sync.
Qed.

Lemma y_remove_keys keys : yields store_ok (remove_keys_locked entry_order cfg keys) (λ _, True).
Proof.
  unfold remove_keys_locked. destruct keys as [|k keys]; [by apply yields_ret|].
  eapply yields_bind; [apply y_state|]. intros p Hp.
  eapply (yields_bind _ _ _ (bounded_ok T maximum)); [|apply y_commit].
  apply yields_lift. intros p' Hp'. destruct (remove_entries_bounded T maximum (k :: keys) p Hp) as (p1 & E & ?).
  rewrite E in Hp'. by simplify_eq.
Qed.

Lemma y_remove_matching f : yields store_ok (remove_matching entry_order cfg f) (λ _, True).
Proof. eapply yields_bind; [apply y_state|]. intros p _. apply y_remove_keys. Qed.

Lemma y_enforce : yields store_ok (enforce_budget entry_order cfg) (λ _, True).
Proof.
  unfold enforce_budget. eapply yields_bind; [apply y_state|]. intros p (Hp & Hb & Hc).
  destruct (_ <=? _); [by apply yields_ret|].
  eapply (yields_bind _ _ _ (bounded_ok T maximum)); [|apply y_commit].
  apply yields_lift. intros p' Hp'.
  destruct (evict_to_budget_spec T entry_order entry_order_perm p maximum Hp (proj1 maximum_ok))
    as (p1 & E & ? & ? & _ & Hs & _). rewrite E in Hp'. simplify_eq.
  split; [done|]. split; [done|]. apply subseteq_size in Hs. lia.
Qed.

(** ** Reading *)

(** No two true payloads have the same digest. *)
Context (no_collision : ∀ k k' b b', true_payload T k b → true_payload T k' b' → sha256 b = sha256 b' → b = b').

Lemma validate_file_regular euid m u :
  validate_private_file_metadata euid m = Ok u → FileMeta.kind m = FKind.Regular.
Proof. unfold validate_private_file_metadata. destruct (bool_decide _) eqn:E; simpl; [|done]. by bool_simpl. Qed.

(** Opening a file changes nothing, and finds the file. *)
Lemma open_private_same p (s : Store F) :
  (open_private_file p s).2 = s ∧
  ∀ m, (open_private_file p s).1 = Ok m →
    ∃ d, st_view (disk s) !! p = Some d ∧ FileMeta.len m = zlen d.
Proof.
  unfold open_private_file, cd_ask, check_file. sm_unfold.
  destruct (symlink_metadata (disk s) p); simpl; [|done].
  destruct (validate_private_file_metadata _ _); simpl; [|done].
  destruct (open_metadata (disk s) p) as [m|] eqn:Em; simpl; [|done].
  destruct (validate_private_file_metadata _ m) eqn:Ev; simpl; [|done].
  destruct (negb _); simpl; [done|]. split; [done|]. intros ? [= ->].
  eapply law_open_regular; [done|]. by eapply validate_file_regular.
Qed.

Lemma read_disk_entry_spec k e (s : Store F) :
  K (disk s) → entry_ok T k e →
  (read_disk_entry cfg e s).2 = s ∧ ∀ b, (read_disk_entry cfg e s).1 = Ok b → true_payload T k b.
Proof.
  intros Hs [_ Hname (b0 & Hb0 & Hsha & Hlen)]. unfold read_disk_entry. rewrite Hname. simpl.
  set (p := dir ++ [DiskEntry.file_name e]). unfold sm_try, mbind, sm_bind.
  destruct (open_private_same p s) as [Hst Hm]. destruct (open_private_file p s) as [r s1]. simpl in Hst, Hm. subst s1.
  destruct r as [m|x]; [|destruct x as [x| | | | | | | | | | |]; try done; by destruct (bool_decide _)].
  destruct (Hm m eq_refl) as (d & Hd0 & Hl). destruct (_ || _) eqn:E; [done|]. bool_simpl. unfold cd_ask.
  destruct (read_limited (disk s) p _) as [b|] eqn:Er; simpl; [|done].
  destruct (negb _ || _) eqn:E2; [done|]. bool_simpl. split; [done|]. simpl. intros ? [= <-].
  apply law_read_limited in Er as (data & Hd & ->).
  rewrite Hd0 in Hd. injection Hd as ->.
  assert (take (Z.to_nat (u64_saturating_add (DiskEntry.stored_length e) 1)) data = data) as Ht.
  { apply take_ge. destruct maximum_ok as [_ Hmax]. unfold zlen in *. unfold u64_saturating_add. lia. }
  rewrite Ht in *. destruct (do_payload _ (K_ok _ Hs) _ data Hname Hd0) as [k' Hk'].
  rewrite (no_collision k' k data b0); [done|done|done|congruence].
Qed.

Lemma y_read_disk_entry k e :
  entry_ok T k e → yields store_ok (read_disk_entry cfg e) (true_payload T k).
Proof.
  intros He s Hs. destruct (read_disk_entry_spec k e s (so_disk s Hs) He) as [-> Hb]. split; [done|].
  destruct (read_disk_entry cfg e s).1; auto.
Qed.

Lemma y_touch keys : yields store_ok (touch keys : CM unit) (λ _, True).
Proof.
  apply yields_modify. intros s Hs. split; [apply (so_disk s Hs)|]. apply touch_entries_bounded, (so_state s Hs).
Qed.

Lemma y_drop_corrupt {A} k (R : A → Prop) : yields store_ok (drop_corrupt entry_order cfg k) R.
Proof. eapply yields_bind; [apply y_remove_keys|]. intros _ _. apply yields_err. Qed.

(** The outcome of a fallible read, with the corrupt entry dropped. *)
Lemma y_read_or_drop {A B} (m : CM A) (R : A → Prop) (R' : B → Prop) k (f : A → CM B) :
  yields store_ok m R → (∀ a, R a → yields store_ok (f a) R') →
  yields store_ok (r ← sm_try m;
                   match r with
                   | Ok a => f a
                   | Err CacheError.CorruptEntry => drop_corrupt entry_order cfg k
                   | Err x => sm_err x
                   end) R'.
Proof.
  intros Hm Hf. eapply yields_bind; [by apply yields_try|]. intros [a|x] Ha; [by apply Hf|].
  destruct x; try apply yields_err. apply y_drop_corrupt.
Qed.

(** The answer, if there is one, satisfies [R]. *)
Definition answers {A} (R : A → Prop) (o : option A) : Prop := ∀ a, o = Some a → R a.

Lemma answers_None {A} (R : A → Prop) : answers R None.
Proof. by intros a. Qed.

Lemma answers_Some {A} (R : A → Prop) a : R a → answers R (Some a).
Proof. by intros Ha ? [= <-]. Qed.

Lemma y_read_key k : yields store_ok (read_key entry_order cfg k) (answers (true_payload T k)).
Proof.
  unfold read_key. eapply yields_bind; [apply y_state|]. intros p (Hp & _).
  destruct (ps_entries p !! k) as [e|] eqn:E; [|apply yields_ret, answers_None].
  eapply y_read_or_drop; [apply y_read_disk_entry, (st_entries T p Hp k e E)|]. intros b Hb.
  eapply yields_bind; [apply y_touch|]. intros _ _. by apply yields_ret, answers_Some.
Qed.

Lemma read_key_true k b (s : Store F) :
  K (disk s) → state_ok T (state s) → (read_key entry_order cfg k s).1 = Ok (Some b) → true_payload T k b.
Proof.
  intros Hk Hp. unfold read_key. sm_unfold. destruct (ps_entries (state s) !! k) as [e|] eqn:E; [|done].
  destruct (read_disk_entry_spec k e s Hk (st_entries T _ Hp k e E)) as [Hs Hb].
  destruct (read_disk_entry cfg e s) as [r s1]. simpl in *. subst s1.
  destruct r as [b'|x]; simpl; [intros [= ->]; auto|].
  destruct x; try done. unfold drop_corrupt. sm_unfold.
  by destruct (remove_keys_locked entry_order cfg [k] s) as [[]].
Qed.

Lemma y_decode {V} (from_json : list Z → option V) k b v :
  from_json b = Some v → yields store_ok (decode_value entry_order cfg from_json k b) (λ v', v' = v).
Proof. intros Hj. unfold decode_value. rewrite Hj. by apply yields_ret. Qed.

Lemma y_get_metadata n :
  yields store_ok (get_metadata_value entry_order cfg n)
    (answers (λ v, Truth.metadata T v ∧ Metadata.node v = n)).
Proof.
  unfold get_metadata_value. eapply yields_bind; [apply y_read_key|].
  intros [b|] Hb; [|apply yields_ret, answers_None]. destruct (Hb b eq_refl) as (v & Hv & Hn & Hj).
  eapply yields_bind; [by eapply y_decode, law_metadata_json|]. intros ? ->.
  rewrite bool_decide_true by done. by apply yields_ret, answers_Some.
Qed.

Lemma y_get_directory k :
  yields store_ok (get_directory_value entry_order cfg k) (answers (Truth.directory T k)).
Proof.
  unfold get_directory_value. eapply yields_bind; [apply y_read_key|].
  intros [b|] Hb; [|apply yields_ret, answers_None]. destruct (Hb b eq_refl) as (v & Hv & Hj).
  eapply yields_bind; [by eapply y_decode, law_directory_json|]. intros ? ->. by apply yields_ret, answers_Some.
Qed.

Lemma y_get_stats :
  yields store_ok (get_filesystem_stats_value entry_order cfg) (answers (Truth.statistics T)).
Proof.
  unfold get_filesystem_stats_value. eapply yields_bind; [apply y_read_key|].
  intros [b|] Hb; [|apply yields_ret, answers_None]. destruct (Hb b eq_refl) as (v & Hv & Hj).
  eapply yields_bind; [by eapply y_decode, law_stats_json|]. intros ? ->. by apply yields_ret, answers_Some.
Qed.

(** ** Ranges *)

Lemma elem_of_range_candidates key p r e :
  (r, e) ∈ range_candidates entry_order key p →
  ps_entries p !! EntryKey.Range r = Some e ∧ RangeKey.file r = RangeKey.file key.
Proof.
  unfold range_candidates. intros ([k e'] & Hin & Hc)%list_elem_of_omap. simpl in Hc.
  destruct k as [| |c|]; try done. destruct (_ && _) eqn:E; [|done]. bool_simpl. simplify_eq.
  by apply (elem_of_order entry_order entry_order_perm) in Hin.
Qed.

Lemma y_read_range r e :
  entry_ok T (EntryKey.Range r) e →
  yields store_ok (read_range_entry entry_order cfg r e) (true_payload T (EntryKey.Range r)).
Proof.
  intros He. eapply y_read_or_drop; [by apply y_read_disk_entry|]. intros b Hb.
  destruct (valid_range_payload r b); [by apply yields_ret|apply y_drop_corrupt].
Qed.

Lemma range_segment_ok file r b :
  RangeKey.file r = file → true_payload T (EntryKey.Range r) b →
  segment_ok (Truth.content T file) (Segment.Mk (EntryKey.Range r) (RangeKey.offset r) b).
Proof.
  intros <- ([[Ho _] _] & Hv & Hb). apply valid_payload_inv in Hv as [Hl He].
  unfold range_end in He. apply u64_checked_add_Some in He as [_ He].
  split; simpl; [|lia|lia]. by rewrite <- Hl.
Qed.

Lemma y_read_segments file l :
  Forall (λ re, entry_ok T (EntryKey.Range re.1) re.2 ∧ RangeKey.file re.1 = file) l →
  yields store_ok (read_segments entry_order cfg l) (Forall (segment_ok (Truth.content T file))).
Proof.
  induction 1 as [|[r e] l [He Hf] _ IH]; simpl; [by apply yields_ret|].
  eapply yields_bind; [by apply y_read_range|]. intros b Hb.
  eapply yields_bind; [apply IH|]. intros rest Hr. apply yields_ret. constructor; [|done].
  by apply range_segment_ok.
Qed.

Lemma y_get_range key :
  wf_range key →
  yields store_ok (get_range_value entry_order cfg key)
    (answers (λ d, d = range_content (Truth.content T) key)).
Proof.
  intros Hwf. unfold get_range_value. destruct (range_end key) as [re|] eqn:Ee; [|apply yields_err].
  destruct (RangeKey.length key =? 0) eqn:El; bool_simpl.
  { apply yields_ret, answers_Some. unfold range_content. by rewrite El. }
  destruct (_ >? _); [apply yields_ret, answers_None|].
  eapply yields_bind; [apply y_state|]. intros p (Hp & _).
  eapply yields_bind.
  { apply (y_read_segments (RangeKey.file key)), Forall_forall. intros [r e] Hin.
    apply elem_of_range_candidates in Hin as [Hin Hf]. split; [|done]. by apply (st_entries T p Hp). }
  intros segs Hsegs. pose proof Hwf as [_ [Hl0 _]].
  pose proof (assemble_range_spec _ key re segs Hwf ltac:(lia) Ee Hsegs) as Ha.
  destruct (assemble_range key segs) as [[d u]|]; [|apply yields_ret, answers_None].
  destruct Ha as [-> _]. eapply yields_bind; [apply y_touch|]. intros _ _. by apply yields_ret, answers_Some.
Qed.

Lemma y_get_covering key :
  wf_range key →
  yields store_ok (get_covering_range_value entry_order cfg key)
    (answers (λ rd, wf_range rd.1 ∧ rd.2 = range_content (Truth.content T) rd.1)).
Proof.
  intros Hwf. unfold get_covering_range_value. destruct (range_end key) as [re|] eqn:Ee; [|apply yields_err].
  destruct (RangeKey.length key =? 0) eqn:El; bool_simpl.
  { apply yields_ret, answers_Some. unfold range_content. simpl. by rewrite El. }
  destruct (_ >? _); [apply yields_ret, answers_None|].
  eapply yields_bind; [apply y_state|]. intros p (Hp & _).
  destruct (min_by_key _ _) as [[r e]|] eqn:Em; [|apply yields_ret, answers_None].
  apply min_by_key_Some in Em as [Hin _]. unfold covering_candidates in Hin.
  apply list_elem_of_omap in Hin as ([k e'] & Hin & Hc). simpl in Hc.
  destruct k as [| |c|]; try done. destruct (range_end c); simpl in Hc; [|done].
  destruct (_ && _); [|done]. simplify_eq.
  apply (elem_of_order entry_order entry_order_perm) in Hin.
  eapply yields_bind; [apply y_read_range, (st_entries T p Hp _ _ Hin)|]. intros b (Hwr & _ & Hb).
  eapply yields_bind; [apply y_touch|]. intros _ _. by apply yields_ret, answers_Some.
Qed.

(** ** Insertion *)

Lemma y_try_any {A} (m : CM A) : yields store_ok m (λ _, True) → yields store_ok (sm_try m) (λ _, True).
Proof. intros Hm. eapply yields_weaken; [by apply yields_try|done]. Qed.

Lemma y_write_payloads l written :
  Forall (prepared_ok T) l → yields store_ok (write_payloads entry_order cfg l written) (λ _, True).
Proof.
  intros Hl. revert written. induction Hl as [|e l He _ IH]; intros written; simpl; [by apply yields_ret|].
  eapply yields_bind.
  { apply y_try_any, y_write_private. left. exists (PreparedEntry.file_name e), (PreparedEntry.key e).
    split; [done|]. split; [by apply (po_valid T)|apply He]. }
  intros [u|x] _; [apply IH|]. eapply yields_bind; [apply y_state|]. intros p _.
  eapply yields_bind; [apply y_try_any, y_remove_unreferenced|]. intros _ _. apply yields_err.
Qed.

Lemma y_insert_entries l :
  Forall (λ kb, true_payload T kb.1 kb.2) l → yields store_ok (insert_entries entry_order cfg l) (λ _, True).
Proof.
  intros Hl. unfold insert_entries.
  eapply (yields_bind _ _ _ (Forall (prepared_ok T))).
  { apply yields_lift. intros a Ha. by eapply prepare_entries_ok. }
  intros prepared Hprep. eapply yields_bind; [apply y_state|]. intros p _.
  set (kept := List.filter _ _). assert (Forall (prepared_ok T) kept) as Hkept.
  { apply Forall_forall. intros e [He _]%elem_of_filter_list. rewrite Forall_forall in Hprep. auto. }
  clearbody kept. destruct kept as [|e kept']; [by apply yields_ret|].
  set (kept := e :: kept') in *. clearbody kept.
  eapply yields_bind; [by apply y_write_payloads|]. intros written _.
  eapply yields_bind; [apply y_state|]. intros p1 (Hp1 & _).
  eapply yields_bind.
  { apply y_try_any. eapply (yields_bind _ _ _ (bounded_ok T maximum)); [|intros p2 Hp2; by apply y_commit].
    apply yields_lift. intros p2 Hp2.
    eapply (propose_insert_ok T entry_order entry_order_perm); [apply maximum_ok|done|done|done]. }
  intros result _. eapply yields_bind; [apply y_state|]. intros p3 _.
  eapply yields_bind; [apply y_try_any, y_remove_unreferenced|]. intros cleanup _. by apply yields_lift.
Qed.

Lemma y_to_json {V} (f : V → result (list Z) (list Z)) v : yields store_ok (to_json f v) (λ b, f v = Ok b).
Proof. apply yields_lift. destruct (f v); simpl; [by intros ? [= ->]|done]. Qed.

Lemma y_insert_metadata v : Truth.metadata T v → yields store_ok (insert_metadata_value entry_order cfg v) (λ _, True).
Proof.
  intros Hv. eapply yields_bind; [apply y_to_json|]. intros b Hb. apply y_insert_entries.
  constructor; [|done]. exists v. done.
Qed.

Lemma y_insert_directory k v :
  Truth.directory T k v → yields store_ok (insert_directory_value entry_order cfg k v) (λ _, True).
Proof.
  intros Hv. eapply yields_bind; [apply y_to_json|]. intros b Hb. apply y_insert_entries.
  constructor; [|done]. exists v. done.
Qed.

Lemma y_snapshot_metadata v :
  Forall (λ e, Truth.metadata T (DirectoryEntry.metadata e) ∧
               Metadata.node (DirectoryEntry.metadata e) = DirectoryEntry.node e) v →
  yields store_ok (snapshot_metadata v) (Forall (λ kb, true_payload T kb.1 kb.2)).
Proof.
  induction 1 as [|e v [He Hn] _ IH]; simpl; [by apply yields_ret|].
  eapply yields_bind; [apply y_to_json|]. intros b Hb. eapply yields_bind; [apply IH|]. intros rest Hr.
  apply yields_ret. constructor; [|done]. exists (DirectoryEntry.metadata e). done.
Qed.

Lemma y_insert_snapshot k v :
  truth_ok T → Truth.directory T k v →
  yields store_ok (insert_directory_snapshot_value entry_order cfg k v) (λ _, True).
Proof.
  intros Hok Hv. eapply yields_bind; [apply y_to_json|]. intros b Hb.
  eapply yields_bind.
  { apply y_snapshot_metadata, Forall_forall. intros e He. by apply (Hok k v). }
  intros children Hc. apply y_insert_entries. constructor; [|done]. exists v. done.
Qed.

Lemma y_insert_range k v :
  true_range T k v → yields store_ok (insert_range_value entry_order cfg k v) (λ _, True).
Proof.
  intros [Hwf Hv]. unfold insert_range_value. destruct (valid_range_payload k v) eqn:E; simpl; [|apply yields_err].
  destruct (bool_decide _); [by apply yields_ret|]. apply y_insert_entries.
  constructor; [|done]. split; [done|]. split; [done|]. auto.
Qed.

Lemma y_insert_stats v :
  Truth.statistics T v → yields store_ok (insert_filesystem_stats_value entry_order cfg v) (λ _, True).
Proof.
  intros Hv. eapply yields_bind; [apply y_to_json|]. intros b Hb. apply y_insert_entries.
  constructor; [|done]. exists v. done.
Qed.

(** ** Invalidation *)

Lemma y_snapshots n l :
  Forall (λ ke, entry_ok T ke.1 ke.2) l → yields store_ok (snapshots_mentioning cfg n l) (λ _, True).
Proof.
  induction 1 as [|[k e] l He _ IH]; simpl; [by apply yields_ret|].
  eapply yields_bind; [by apply yields_try, y_read_disk_entry|]. intros [b|x] _.
  - eapply yields_bind; [apply IH|]. intros rest _. by apply yields_ret.
  - destruct x; try apply yields_err. eapply yields_bind; [apply IH|]. intros rest _. by apply yields_ret.
Qed.

Lemma order_entries_ok p f :
  state_ok T p → Forall (λ ke, entry_ok T ke.1 ke.2) (List.filter f (entry_order (ps_entries p))).
Proof.
  intros Hp. apply Forall_forall. intros [k e] [Hin _]%elem_of_filter_list.
  apply (elem_of_order entry_order entry_order_perm) in Hin. by apply (st_entries T p Hp).
Qed.

Lemma y_update u :
  truth_ok T → true_update T u → yields store_ok (persist_update entry_order cfg u) (λ _, True).
Proof.
  intros Hok Hu. destruct u as [rt v|[] k v|rt k v|rt v|n|n|n|n|mem n]; simpl in *;
    auto using y_insert_metadata, y_insert_directory, y_insert_snapshot, y_insert_range, y_insert_stats;
    try apply y_remove_matching.
  - eapply yields_bind; [apply y_state|]. intros p (Hp & _).
    eapply yields_bind; [by apply y_snapshots, order_entries_ok|]. intros keys _. apply y_remove_keys.
  - eapply yields_bind; [apply y_state|]. intros p (Hp & _).
    eapply yields_bind; [by apply y_snapshots, order_entries_ok|]. intros keys _. apply y_remove_keys.
Qed.

(** ** Sequences of operations *)

Inductive StoreOp :=
  | OpUpdate (u : CacheUpdate)
  | OpGetMetadata (n : NodeId)
  | OpGetDirectory (k : RevisionKey)
  | OpGetRange (k : RangeKey)
  | OpGetCovering (k : RangeKey)
  | OpGetStats
  | OpBegin
  | OpFlush.

Definition store_op (op : StoreOp) : CM unit :=
  match op with
  | OpUpdate u => persist_update entry_order cfg u
  | OpGetMetadata n => _ ← get_metadata_value entry_order cfg n; mret tt
  | OpGetDirectory k => _ ← get_directory_value entry_order cfg k; mret tt
  | OpGetRange k => _ ← get_range_value entry_order cfg k; mret tt
  | OpGetCovering k => _ ← get_covering_range_value entry_order cfg k; mret tt
  | OpGetStats => _ ← get_filesystem_stats_value entry_order cfg; mret tt
  | OpBegin => begin_deferred_commits
  | OpFlush => flush_deferred_commits entry_order cfg
  end.

Definition run_store (ops : list StoreOp) (s : Store F) : Store F :=
  fold_left (λ s op, (store_op op s).2) ops s.

Definition store_op_ok (op : StoreOp) : Prop :=
  match op with
  | OpUpdate u => true_update T u
  | OpGetRange k | OpGetCovering k => wf_range k
  | _ => True
  end.

Lemma y_store_op op : truth_ok T → store_op_ok op → yields store_ok (store_op op) (λ _, True).
Proof.
  intros Hok Hop. destruct op; simpl in *; auto using y_update, y_begin, y_flush.
  all: eapply yields_bind; [|intros ? _; by apply yields_ret].
  - apply y_get_metadata.
  - apply y_get_directory.
  - by apply y_get_range.
  - by apply y_get_covering.
  - apply y_get_stats.
Qed.

Lemma run_store_ok ops s : truth_ok T → Forall store_op_ok ops → store_ok s → store_ok (run_store ops s).
Proof.
  intros Hok Hops. revert s. induction Hops as [|op ops Hop _ IH]; intros s Hs; simpl; [done|].
  apply IH. by apply (y_store_op op Hok Hop s Hs).
Qed.
End disk.
