(* ===== verification/CacheCrash.v ===== *)
(** The promises of the persistent cache: its answers are true and bounded, it
    implements the interface the client relies on, and a crash at any moment of
    any operation leaves a disk from which it can be opened again. *)

From S2P Require Import Prelude Protocol Common StateFiles CacheRanges FsCache CacheStore CacheStoreFacts.

(** * Reopening *)

Section reopen.
Context {F : Type} `{CL : CacheFsLaws F} `{CC : CacheCodec}.
Context (T : Truth) (cfg : CacheConfig).

(** The errors a readable disk excludes. *)
Definition manifest_error (e : CacheError) : Prop :=
  match e with CacheError.Io _ | CacheError.UnsafeStorage => False | _ => True end.

(** A store that holds only the disk, as before [open]. *)
Definition closed (f : F) : Store F := MkStore f 0 PersistentState.default DeferredCommits.default 0.

Lemma open_private_errors p (s : Store F) e : (open_private_file p s).1 = Err e → ¬ manifest_error e.
Proof.
  unfold open_private_file, cd_ask, check_file. sm_unfold.
  assert (∀ euid m x, validate_private_file_metadata euid m = Err x → x = CacheError.UnsafeStorage) as Hv.
  { intros euid m x. unfold validate_private_file_metadata, validate_private_ownership_and_mode.
    destruct (negb _); [by intros [= <-]|]. destruct (_ || _); [by intros [= <-]|done]. }
  destruct (symlink_metadata (disk s) p) as [m|]; simpl; [|by intros [= <-] []].
  destruct (validate_private_file_metadata _ m) eqn:E1; simpl; [|intros [= <-]; apply Hv in E1 as ->; by intros []].
  destruct (open_metadata (disk s) p) as [m'|]; simpl; [|by intros [= <-] []].
  destruct (validate_private_file_metadata _ m') eqn:E2; simpl; [|intros [= <-]; apply Hv in E2 as ->; by intros []].
  destruct (negb _); simpl; [|done]. by intros [= <-] [].
Qed.

Lemma parse_manifest_size b p : parse_manifest b (CacheConfig.namespace cfg) = Ok p → zlen b ≤ MAX_MANIFEST_SIZE.
Proof. unfold parse_manifest. destruct (_ >? _) eqn:E; [done|]. by bool_simpl. Qed.

(** Loading the manifest of a good disk gives a good state, or fails because the
    disk cannot be read. *)
Lemma load_manifest_ok (s : Store F) :
  disk_ok T cfg (st_view (disk s)) →
  match (load_manifest (CacheConfig.directory cfg) (CacheConfig.namespace cfg) s).1 with
  | Ok p => state_ok T p
  | Err e => ¬ manifest_error e
  end.
Proof.
  intros Hd. unfold load_manifest. set (p := CacheConfig.directory cfg ++ [MANIFEST_FILE]).
  unfold sm_try, mbind, sm_bind.
  destruct (open_private_same p s) as [Hst Hm]. pose proof (open_private_errors p s) as He.
  destruct (open_private_file p s) as [r s1]. simpl in Hst, Hm, He. subst s1.
  destruct r as [m|x].
  2: { specialize (He x eq_refl). destruct x; simpl in *; try done; auto.
       destruct (bool_decide _); simpl; [apply state_ok_default|auto]. }
  destruct (Hm m eq_refl) as (d & Hv & Hl).
  destruct (do_manifest _ _ _ Hd d Hv) as (st & Hp & Hok). pose proof (parse_manifest_size d st Hp) as Hsize.
  rewrite Z.gtb_ltb, (proj2 (Z.ltb_ge _ _)) by lia. unfold cd_ask. simpl.
  destruct (read_limited (disk s) p (MAX_MANIFEST_SIZE + 1)) as [b|] eqn:Er; simpl; [|auto].
  apply law_read_limited in Er as (d' & Hd' & ->). rewrite Hv in Hd'. injection Hd' as <-.
  rewrite take_ge by (unfold zlen in *; lia). by rewrite Hp.
Qed.
End reopen.

(** * Every moment of a run *)

(** A file system that remembers all its past states. *)
Record Traced (F : Type) := MkTraced { now : F; past : list F }.
Arguments MkTraced {F} _ _.
Arguments now {F} _.
Arguments past {F} _.

Section traced.
Context {F : Type}.

Definition advance {A} (t : Traced F) (out : result IoError A * F) : result IoError A * Traced F :=
  (out.1, MkTraced out.2 (now t :: past t)).

(** There is nothing at the path, so that no call changes it. *)
Definition nothing_at `{StateFs F} (f : F) (p : Path) : bool :=
  match symlink_metadata f p with
  | Err e => bool_decide (e = IoError.Os Errno.NOENT)
  | Ok _ => false
  end.

#[export] Instance traced_fs `{StateFs F} : StateFs (Traced F) := {|
  st_view t := st_view (now t);
  symlink_metadata t := symlink_metadata (now t);
  open_metadata t := open_metadata (now t);
  read_limited t := read_limited (now t);
  st_read_dir t := st_read_dir (now t);
  geteuid t := geteuid (now t);
  open_nofollow_metadata t := open_nofollow_metadata (now t);
  create_new t p m := advance t (create_new (now t) p m);
  st_write_all t p b := advance t (st_write_all (now t) p b);
  sync_all t p := advance t (sync_all (now t) p);
  sync_directory_file t p := advance t (sync_directory_file (now t) p);
  st_rename t p q := advance t (st_rename (now t) p q);
  remove_file t p := if nothing_at (now t) p then ((remove_file (now t) p).1, t)
                     else advance t (remove_file (now t) p);
  create_dir_all t p := advance t (create_dir_all (now t) p);
  create_dir t p := advance t (create_dir (now t) p);
  remove_dir t p := advance t (remove_dir (now t) p);
  set_permissions t p m := advance t (set_permissions (now t) p m)
|}.

#[export] Instance traced_cache_fs `{CacheFs F} : CacheFs (Traced F) := {|
  same_identity t := same_identity (now t);
  create_dir_mode t p m := advance t (create_dir_mode (now t) p m);
  open_or_create t p m := advance t (open_or_create (now t) p m);
  try_flock t p := advance t (try_flock (now t) p)
|}.

Context `{CL : CacheFsLaws F}.

Lemma nothing_at_missing f p : nothing_at f p = true ↔ missing f p.
Proof.
  unfold nothing_at, missing. destruct (symlink_metadata f p); [naive_solver|].
  rewrite bool_decide_eq_true. naive_solver.
Qed.

Lemma advance_inv {A} (t : Traced F) (out : result IoError A * F) r t' :
  advance t out = (r, t') → out = (r, now t').
Proof. destruct out as [r0 f]. unfold advance. simpl. by intros [= <- <-]. Qed.

#[export] Instance traced_laws : StateFsLaws (Traced F).
Proof.
  split; simpl.
  - intros t p n b. apply law_read_limited.
  - intros t p m r t' E%advance_inv. by eapply law_create_new.
  - intros t p b r t' Hv E%advance_inv. by eapply law_write_all.
  - intros t p. apply law_sync_all.
  - intros t p. apply law_sync_directory.
  - intros t p q b r t' Hv E%advance_inv. by eapply law_rename.
  - intros t p r t'. destruct (nothing_at (now t) p) eqn:En.
    + apply nothing_at_missing in En. rewrite law_remove_missing by done. simpl. by intros [= <- <-].
    + intros E%advance_inv. by eapply law_remove_file in E.
  - intros t p Hm. pose proof Hm as Hm'. apply (proj2 (nothing_at_missing (now t) p)) in Hm as ->.
    by rewrite law_remove_missing.
  - intros t p. apply (law_open_missing (now t)).
  - intros t p. apply law_create_dir_all.
  - intros t p. apply law_create_dir.
  - intros t p. apply law_remove_dir.
  - intros t p m. apply law_set_permissions.
Qed.

#[export] Instance traced_cache_laws : CacheFsLaws (Traced F).
Proof.
  split; simpl.
  - intros t p m. apply law_create_dir_mode.
  - intros t p m. apply law_open_or_create.
  - intros t p. apply law_try_flock.
  - intros t p m. apply law_open_regular.
  - intros t p e. apply law_not_found.
Qed.

(** All moments of a run. *)
Definition moments (t : Traced F) : list F := now t :: past t.

Lemma disk_call_moments (t t' : Traced F) : disk_call t t' → moments t' = moments t ∨ moments t' = now t' :: moments t.
Proof. intros []; simpl; auto. destruct (nothing_at (now t) p); auto. Qed.
End traced.

Section crash.
Context {F : Type} `{CL : CacheFsLaws F} `{CC : CacheCodec} `{!CacheCodecLaws}.
Context (entry_order : gmap EntryKey DiskEntry → list (EntryKey * DiskEntry)).

(** No two true payloads have the same SHA-256 digest. *)
Definition no_collision (T : Truth) : Prop :=
  ∀ k k' b b', true_payload T k b → true_payload T k' b' → sha256 b = sha256 b' → b = b'.

(** C20: A crash cannot damage the persistent cache.  Run any sequence of
    lookups, stores of true values, invalidations and batches on a good cache,
    with any input-output error at any call, and stop after any single call of
    the file system: the manifest on that disk loads, unless the disk itself
    cannot be read, and whatever the reopened cache then answers is true. *)
Theorem cache_crash_safe T cfg ops f0 p0 d0 n w :
  (∀ m, entry_order m ≡ₚ map_to_list m) → is_u64 (CacheConfig.maximum_payload_bytes cfg) →
  no_collision T → truth_ok T → Forall (store_op_ok T) ops →
  disk_ok T cfg (st_view f0) → bounded_ok T (CacheConfig.maximum_payload_bytes cfg) p0 →
  ∀ f, f ∈ moments (disk (run_store entry_order cfg ops (MkStore (MkTraced f0 []) n p0 d0 w))) →
  match (load_manifest (CacheConfig.directory cfg) (CacheConfig.namespace cfg) (closed f)).1 with
  | Ok p => ∀ k b, (read_key entry_order cfg k (MkStore f 0 p DeferredCommits.default 0)).1 = Ok (Some b) →
      true_payload T k b
  | Err e => ¬ manifest_error e
  end.
Proof.
  intros Hperm Hmax Hcol Hok Hops Hdisk Hp f Hf.
  assert (Forall (λ f, disk_ok T cfg (st_view f))
    (moments (disk (run_store entry_order cfg ops (MkStore (MkTraced f0 []) n p0 d0 w))))) as Hall.
  { apply (run_store_ok entry_order Hperm T cfg Hmax
      (λ t, Forall (λ f, disk_ok T cfg (st_view f)) (moments t))); try done.
    - intros t Ht. by apply Forall_cons in Ht as [Ht _].
    - intros t t' Ht Hc Hd. destruct (disk_call_moments t t' Hc) as [->| ->]; [done|by constructor].
    - split; [|done]. unfold moments. simpl. by apply Forall_singleton. }
  rewrite Forall_forall in Hall. specialize (Hall f Hf).
  pose proof (load_manifest_ok T cfg (closed f) Hall) as Hload.
  destruct (load_manifest _ _ (closed f)).1 as [p|e]; [|done]. intros k b Hread.
  by eapply (read_key_true entry_order T cfg Hmax (λ f, disk_ok T cfg (st_view f))) in Hread.
Qed.

(** * The interface *)

Context (entry_order_perm : ∀ m, entry_order m ≡ₚ map_to_list m).
Context (cfg : CacheConfig) (maximum_ok : is_u64 (CacheConfig.maximum_payload_bytes cfg)).

(** A good cache, as the interface sees it. *)
Definition persistent_true (T : Truth) (s : Store F) : Prop :=
  no_collision T ∧ store_ok T cfg (λ f, disk_ok T cfg (st_view f)) s.

Lemma ok_flatten_answers {A} T (m : CM (option A)) R s :
  yields (store_ok T cfg (λ f, disk_ok T cfg (st_view f))) m (answers R) → persistent_true T s →
  persistent_true T (ok_flatten m s).2 ∧ ∀ a, (ok_flatten m s).1 = Some a → R a.
Proof.
  intros Hm [Hc Hs]. destruct (Hm s Hs) as [Hs' HR]. unfold ok_flatten.
  destruct (m s) as [[o|e] s']; simpl in *; (split; [by split|]); [done|done].
Qed.

Lemma persist_update_true T u s :
  truth_ok T → true_update T u → persistent_true T s →
  persistent_true T (cache_update (H:=persistent_cache entry_order cfg) u s).
Proof.
  intros Hok Hu [Hc Hs]. split; [done|].
  assert (cache_update (H:=persistent_cache entry_order cfg) u s = (persist_update entry_order cfg u s).2) as ->.
  { by destruct u as [[]|[]|[]|[]| | | | |[]]. }
  eapply y_update; try done; intros; auto.
Qed.

#[refine] Instance persistent_cache_laws : FilesystemCacheLaws (Store F) (H:=persistent_cache entry_order cfg) := {|
  cache_true := persistent_true
|}.
Proof.
  - intros T s n Hok Hs. apply (ok_flatten_answers T); [|done].
    destruct Hs as [Hc _]. apply y_get_metadata; auto.
  - intros T s k Hok Hs. apply (ok_flatten_answers T); [|done].
    destruct Hs as [Hc _]. apply y_get_directory; auto.
  - intros T s k Hok Hwf Hs. apply (ok_flatten_answers T); [|done].
    destruct Hs as [Hc _]. apply y_get_range; auto.
  - intros T s Hok Hs. apply (ok_flatten_answers T); [|done].
    destruct Hs as [Hc _]. apply y_get_stats; auto.
  - intros T s u Hok Hs Hu. by apply persist_update_true.
Defined.
End crash.

(** * What is stored can be read *)

Section stored.
Context {F : Type} `{CL : CacheFsLaws F} `{CC : CacheCodec} `{!CacheCodecLaws}.
Context (entry_order : gmap EntryKey DiskEntry → list (EntryKey * DiskEntry)).
Context (entry_order_perm : ∀ m, entry_order m ≡ₚ map_to_list m).
Context (T : Truth) (cfg : CacheConfig) (maximum_ok : is_u64 (CacheConfig.maximum_payload_bytes cfg)).
Abbreviation K := (λ f : F, disk_ok T cfg (st_view f)).
Abbreviation dir := (CacheConfig.directory cfg).

(** A payload file is in place, and [p] is the state in memory. *)
Definition holds (name x : list Z) (p : PS) (s : Store F) : Prop :=
  K (disk s) ∧ st_view (disk s) !! (dir ++ [name]) = Some x ∧ state s = p.

Lemma references_iff p name :
  references entry_order p name = true ↔ ∃ k e, ps_entries p !! k = Some e ∧ DiskEntry.file_name e = name.
Proof.
  unfold references. rewrite existsb_exists. setoid_rewrite bool_decide_eq_true. split.
  - intros ([k e] & Hin%list_elem_of_In & Hn). exists k, e. split; [|done].
    by apply (elem_of_order entry_order entry_order_perm).
  - intros (k & e & Hk & Hn). exists (k, e). split; [|done].
    apply list_elem_of_In. by apply (elem_of_order entry_order entry_order_perm).
Qed.

Lemma h_remove_file name x p q :
  dir ++ [name] ≠ q → hoare (holds name x p) (remove_cache_file q) (λ _, holds name x p).
Proof.
  intros Hne s (Hk & Hv & Hs). unfold remove_cache_file, check_file, cd_do, cd_try. sm_unfold.
  destruct (symlink_metadata (disk s) q) as [m|e]; [|by destruct (bool_decide _)].
  destruct (validate_private_file_metadata _ m); simpl; [|done].
  pose proof (remove_frame (disk s) q (dir ++ [name]) Hne) as Hf.
  pose proof (K_remove T cfg K (λ f H, H) (λ f f' _ _ H, H) (disk s) q Hk) as Hk'.
  destruct (remove_file (disk s) q) as [r f]. simpl in *.
  split; [done|]. split; [by etrans|done].
Qed.

Lemma h_remove_unreferenced name x p p' names :
  references entry_order p' name = true →
  hoare (holds name x p) (remove_unreferenced_files entry_order cfg p' names) (λ _, holds name x p).
Proof.
  intros Hr. induction names as [|n names IH]; simpl; [by apply hoare_ret|].
  eapply (hoare_bind _ (λ _, holds name x p)); [|intros _; apply IH].
  destruct (references entry_order p' n) eqn:E; [by apply hoare_ret|].
  eapply hoare_conseq; [apply (h_remove_file name x p); intros Hd; apply app_inj_tail in Hd as [_ ->]; congruence|done|].
  by intros [].
Qed.

Lemma h_sync name x p : hoare (holds name x p) (sync_directory dir) (λ _, holds name x p).
Proof.
  intros s (Hk & Hv & Hs). unfold sync_directory, cd_do, cd_try. sm_unfold.
  pose proof (law_sync_directory (disk s) dir) as Hl.
  destruct (sync_directory_file (disk s) dir) as [r f]. simpl in *.
  split; simpl; [by rewrite Hl|]. split; [by rewrite Hl|done].
Qed.

Lemma payload_not_manifest name : valid_cache_file_name name = true → dir ++ [name] ≠ dir ++ [MANIFEST_FILE].
Proof. intros Hv Heq. apply app_inj_tail in Heq as [_ ->]. by vm_compute in Hv. Qed.

Lemma payload_not_temporary name : valid_cache_file_name name = true → ¬ is_temporary dir (dir ++ [name]).
Proof. intros Hv [y Heq]. apply app_inj_tail in Heq as [_ ->]. by rewrite temporary_not_payload in Hv. Qed.

(** Writing a good file leaves the other payloads alone. *)
Lemma h_write name x p q b :
  good_file T cfg q b → valid_cache_file_name name = true → dir ++ [name] ≠ q →
  hoare (holds name x p) (write_private_atomic q b) (λ _, holds name x p).
Proof.
  intros Hg Hv Hne s (Hk & Hx & Hs).
  destruct (write_private_atomic_spec T cfg K (λ f H, H) (λ f f' _ _ H, H) q b s Hg Hk)
    as (Hk' & (Hst & _) & [_ Hf]).
  split; [done|]. split; [|congruence]. rewrite Hf; [done|done|by apply payload_not_temporary].
Qed.

Lemma h_write_manifest name x p p' :
  bounded_ok T (CacheConfig.maximum_payload_bytes cfg) p' → valid_cache_file_name name = true →
  hoare (holds name x p) (write_manifest entry_order cfg p') (λ _, holds name x p).
Proof.
  intros (Hp' & _ & Hc) Hv. unfold write_manifest.
  eapply (hoare_bind _ (λ b s, holds name x p s ∧
    manifest_to_json (manifest_of entry_order (CacheConfig.namespace cfg) p') = Ok b)).
  { intros s Hs. sm_unfold. by destruct (manifest_to_json _). }
  intros b. destruct (zlen b >? MAX_MANIFEST_SIZE) eqn:E; [apply hoare_err; by intros s [? _]|]. bool_simpl.
  apply hoare_pure. intros Hb. apply (hoare_bind _ (λ _, holds name x p)).
  - eapply hoare_conseq; [apply (h_write name x p)|done|by intros []].
    + right. split; [done|]. exists p'. split; [|done]. by eapply (manifest_roundtrip T entry_order entry_order_perm).
    + done.
    + by apply payload_not_manifest.
  - intros _. by apply hoare_modify.
Qed.

(** A commit keeps the payloads of the new state. *)
Lemma h_commit name x p p' :
  bounded_ok T (CacheConfig.maximum_payload_bytes cfg) p' → valid_cache_file_name name = true →
  references entry_order p' name = true →
  hoare (holds name x p) (commit_state entry_order cfg p')
    (λ r s, match r with Ok _ => holds name x p' s | Err _ => True end).
Proof.
  intros Hp' Hv Hr. unfold commit_state. apply hoare_gets. intros old. apply hoare_gets. intros d.
  destruct (DeferredCommits.active d).
  - intros s [[(Hk & Hx & _) _] _]. done.
  - eapply (hoare_bind _ (λ _, holds name x p)).
    { eapply hoare_conseq; [by apply (h_write_manifest name x p p')|by intros s [[? _] _]|by intros []]. }
    intros _. eapply (hoare_bind _ (λ _, holds name x p')); [apply hoare_modify; by intros s (? & ? & _)|].
    intros _. eapply (hoare_bind _ (λ _, holds name x p')); [by apply hoare_modify|].
    intros _. eapply (hoare_bind _ (λ _, holds name x p')).
    { eapply hoare_conseq; [by apply (h_remove_unreferenced name x p' p')|done|by intros []]. }
    intros _. eapply hoare_conseq; [apply (h_sync name x p')|done|by intros []].
Qed.

(** ** Insertion *)

(** Every entry was used at or before the current tick, and ticks are left. *)
Definition clock_ahead (p : PS) : Prop :=
  PersistentState.clock p < u64_max ∧
  ∀ k e, ps_entries p !! k = Some e → DiskEntry.last_access e ≤ PersistentState.clock p.

(** The payload file of the entry of [k], if there is one, is intact. *)
Definition intact (k : EntryKey) (s : Store F) : Prop :=
  ∀ e, ps_entries (state s) !! k = Some e →
    ∃ b, st_view (disk s) !! (dir ++ [DiskEntry.file_name e]) = Some b ∧
      sha256 b = DiskEntry.sha256 e ∧ zlen b = DiskEntry.stored_length e.

Lemma propose_keeps_new p e p' :
  state_ok T p → clock_ahead p → prepared_ok T e →
  zlen (PreparedEntry.bytes e) ≤ CacheConfig.maximum_payload_bytes cfg →
  propose_insert entry_order cfg p [e] = Ok p' →
  ∃ tick, ps_entries p' !! PreparedEntry.key e = Some (disk_entry e tick).
Proof.
  intros Hp [Hc Hall] He Hl. unfold propose_insert. simpl.
  destruct (splice_entry p e) as [p1|] eqn:E1; simpl; [|done].
  apply (splice_entry_spec T) in E1 as [Hp1 He1]; [|done|done].
  destruct (_ >? _); [done|]. intros Hev. eexists.
  eapply (evict_keeps_newest T entry_order entry_order_perm); [exact Hp1| | | |exact Hev].
  - rewrite He1. apply lookup_insert_eq.
  - simpl. by rewrite (po_length T e He).
  - intros k' e' Hne. rewrite He1, lookup_insert_ne by done. intros Hk'. unfold older. simpl.
    specialize (Hall k' e' Hk'). unfold u64_saturating_add. rewrite Z.min_l by lia.
    by rewrite (proj2 (Z.compare_gt_iff _ _)) by lia.
Qed.

(** Reading an entry whose file is in place. *)
Lemma read_key_in_place k e b (s : Store F) :
  ps_entries (state s) !! k = Some e → valid_cache_file_name (DiskEntry.file_name e) = true →
  DiskEntry.stored_length e = zlen b → DiskEntry.sha256 e = sha256 b →
  zlen b ≤ CacheConfig.maximum_payload_bytes cfg →
  st_view (disk s) !! (dir ++ [DiskEntry.file_name e]) = Some b →
  match (read_key entry_order cfg k s).1 with Ok o => o = Some b | Err x => ¬ manifest_error x end.
Proof.
  intros Hk Hn Hl Hd Hm Hv. unfold read_key. sm_unfold. rewrite Hk. unfold read_disk_entry. rewrite Hn. simpl.
  unfold sm_try, mbind, sm_bind. set (q := dir ++ [DiskEntry.file_name e]) in *.
  destruct (open_private_same q s) as [Hst Hmeta]. pose proof (open_private_errors q s) as Herr.
  assert (∀ x, (open_private_file q s).1 = Err (CacheError.Io x) → io_kind x ≠ IoKind.NotFound) as Hnf.
  { intros x. unfold open_private_file, cd_ask, check_file. sm_unfold. intros Hx Hkind.
    destruct (symlink_metadata (disk s) q) as [m|y] eqn:E1; simpl in Hx.
    - unfold validate_private_file_metadata, validate_private_ownership_and_mode in Hx.
      destruct (negb (bool_decide _)); [done|]. destruct (_ || _); [done|].
      destruct (open_metadata (disk s) q) as [m'|y] eqn:E2; simpl in Hx.
      + destruct (negb (bool_decide _)); [done|]. destruct (_ || _); [done|]. by destruct (negb _).
      + simplify_eq. rewrite (law_not_found _ _ _ (or_intror E2) Hkind) in Hv. done.
    - simplify_eq. rewrite (law_not_found _ _ _ (or_introl E1) Hkind) in Hv. done. }
  destruct (open_private_file q s) as [r s1]. simpl in Hst, Hmeta, Herr, Hnf. subst s1.
  destruct r as [m|x].
  2: { specialize (Herr x eq_refl). destruct x as [x| | | | | | | | | | |]; simpl in *; try (by destruct Herr); [|done].
       rewrite bool_decide_false by auto. done. }
  destruct (Hmeta m eq_refl) as (d & Hd' & Hlen). rewrite Hv in Hd'. injection Hd' as <-.
  rewrite Hlen, Hl, Z.eqb_refl. simpl. rewrite Z.gtb_ltb, (proj2 (Z.ltb_ge _ _) Hm). unfold cd_ask. simpl.
  destruct (read_limited (disk s) q _) as [b'|y] eqn:Er; simpl; [|auto].
  apply law_read_limited in Er as (d & Hd' & ->). rewrite Hv in Hd'. injection Hd' as <-.
  rewrite take_ge, Z.eqb_refl, bool_decide_true; simpl; [done|done|].
  destruct maximum_ok. unfold zlen, u64_saturating_add in *. lia.
Qed.

Lemma prepare_one k b prepared :
  prepare_entries (CacheConfig.maximum_payload_bytes cfg) [(k, b)] = Ok prepared → true_payload T k b →
  ∃ e, prepared = [e] ∧ prepared_ok T e ∧ PreparedEntry.key e = k ∧ PreparedEntry.bytes e = b ∧
    zlen b ≤ CacheConfig.maximum_payload_bytes cfg.
Proof.
  intros Hprep Hb. assert (zlen b ≤ CacheConfig.maximum_payload_bytes cfg) as Hm.
  { simpl in Hprep. destruct (zlen b >? _) eqn:E; [done|]. by bool_simpl. }
  eapply (prepare_entries_ok T) in Hprep as [Hok Hmap]; [|by constructor].
  destruct prepared as [|e [|]]; try done. simpl in Hmap. injection Hmap as <- <-.
  apply Forall_cons in Hok as [He _]. by exists e.
Qed.

(** The write of the payload of an entry. *)
Lemma write_one_payload e (s s1 : Store F) written :
  K (disk s) → prepared_ok T e → write_payloads entry_order cfg [e] [] s = (Ok written, s1) →
  holds (PreparedEntry.file_name e) (PreparedEntry.bytes e) (state s) s1 ∧ written = [PreparedEntry.file_name e].
Proof.
  intros Hk He. cbn [write_payloads]. unfold sm_try, mbind, sm_bind.
  assert (good_file T cfg (dir ++ [PreparedEntry.file_name e]) (PreparedEntry.bytes e)) as Hg.
  { left. eexists _, _. split; [done|]. split; [by apply (po_valid T)|apply He]. }
  destruct (write_private_atomic_spec T cfg K (λ f H, H) (λ f f' _ _ H, H) _ _ s Hg Hk) as (Hk1 & (Hst & _) & [Hv _]).
  destruct (write_private_atomic _ _ s) as [[u|x] s2]; simpl in *.
  - intros [= <- <-]. split; [|done]. split; [done|]. split; [|done]. by destruct Hv as [Hv|[? _]].
  - done.
Qed.

(** A value stored in the persistent cache can be read back.  When an
    insertion succeeds, the next lookup of its key gives exactly the bytes that
    were inserted, or fails because the disk cannot be read: it is neither lost
    to the eviction that made room for it nor reported as corrupt, also when the
    same content had been stored before. *)
Theorem stored_value_readable k b (s s' : Store F) :
  no_collision T → store_ok T cfg K s → clock_ahead (state s) → intact k s → true_payload T k b →
  insert_entry entry_order cfg k b s = (Ok tt, s') →
  match (read_key entry_order cfg k s').1 with Ok o => o = Some b | Err x => ¬ manifest_error x end.
Proof.
  intros Hcol [Hk (Hst & Hb1 & _)] Hclock Hint Hb. unfold insert_entry, insert_entries.
  unfold sm_lift, mbind, sm_bind, sm_gets at 1.
  destruct (prepare_entries _ [(k, b)]) as [prepared|] eqn:Ep; [|done].
  destruct (prepare_one k b prepared Ep Hb) as (e & -> & He & Hek & Heb & Hm). cbn [List.filter].
  destruct (already_stored (state s) e) eqn:Ea; cbn [negb].
  - intros [= <-]. unfold already_stored in Ea. rewrite Hek in Ea.
    destruct (ps_entries (state s) !! k) as [d|] eqn:Ed; [|done]. bool_simpl.
    destruct (Hint d Ed) as (x & Hx & Hsha & Hlen).
    destruct (st_entries T _ Hst k d Ed) as [_ Hn _].
    destruct (do_payload T cfg _ Hk _ x Hn Hx) as [k' Hx'].
    assert (x = b) as ->.
    { eapply Hcol; [done|done|]. rewrite Hsha. destruct He as [_ _ Hdig _]. congruence. }
    eapply read_key_in_place; [done|done| |congruence|done|done]. by rewrite Hlen.
  - unfold sm_gets, sm_try. destruct (write_payloads entry_order cfg [e] [] s) as [[written|x] s1] eqn:Ew; [|discriminate].
    apply write_one_payload in Ew as [Hh ->]; [|done|done]. pose proof Hh as (_ & _ & Hs1). rewrite Hs1.
    destruct (propose_insert entry_order cfg (state s) [e]) as [p2|x] eqn:Eprop.
    2: { destruct (remove_unreferenced_files _ _ _ _ _). by intros [= ]. }
    destruct (propose_keeps_new _ _ _ Hst Hclock He ltac:(by rewrite Heb) Eprop) as (tick & Hnew).
    rewrite Hek in Hnew.
    assert (bounded_ok T (CacheConfig.maximum_payload_bytes cfg) p2) as Hp2.
    { eapply (propose_insert_ok T entry_order entry_order_perm); [apply maximum_ok|exact Hst| |exact Eprop]. by constructor. }
    assert (references entry_order p2 (PreparedEntry.file_name e) = true) as Href.
    { apply references_iff. eexists k, _. split; [exact Hnew|done]. }
    pose proof (h_commit (PreparedEntry.file_name e) b (state s) p2 Hp2 (po_valid T e He) Href s1
      ltac:(by rewrite <- Heb)) as Hc.
    destruct (commit_state entry_order cfg p2 s1) as [[u|x] s2]; simpl in Hc.
    2: { destruct (remove_unreferenced_files _ _ _ _ _). by intros [= ]. }
    pose proof Hc as (_ & _ & Hs2). rewrite Hs2.
    pose proof (h_remove_unreferenced (PreparedEntry.file_name e) b p2 p2 [PreparedEntry.file_name e] Href s2 Hc) as Hc3.
    destruct (remove_unreferenced_files _ _ _ _ s2) as [r s3]. simpl in Hc3. intros [= _ <-].
    destruct Hc3 as (_ & Hv3 & Hs3).
    eapply read_key_in_place; [by rewrite Hs3|by apply (po_valid T)|..]; simpl; try done.
    + rewrite (po_length T e He). congruence.
    + rewrite (po_digest T e He). congruence.
Qed.
End stored.
