(* ===== verification/CacheExample.v ===== *)
(** The persistent cache on a concrete file system with concrete codecs: a
    disk in memory, values as the bits of their numbers, and runs that store,
    batch, evict and invalidate. *)

From S2P Require Import Prelude Protocol Common StateFiles CacheRanges FsCache CacheStore CacheStoreFacts CacheCrash ViewStream.

Module CacheExample.
Import MemState ViewExample.

(** * The disk *)

#[global] Instance mem_cache_fs : CacheFs Mem := {|
  same_identity _ _ := true;
  create_dir_mode m p _ := create_dir m p;
  open_or_create m p _ :=
    match files m !! p with
    | Some b => (Ok (FileMeta.Mk FKind.Regular 384 0 (zlen b)), m)
    | None => (Ok (FileMeta.Mk FKind.Regular 384 0 0), MemState.Mk (<[p := []]> (files m)) (dirs m))
    end;
  try_flock m _ := (Ok tt, m)
|}.

#[global] Instance mem_cache_laws : CacheFsLaws Mem.
Proof.
  split; simpl.
  - intros m p _. by case_match.
  - intros m p _. destruct (files m !! p); simpl; auto.
  - done.
  - intros m p x. unfold stat. destruct (files m !! p) as [b|]; [by intros [= <-]; eauto|].
    case_bool_decide; intros [= <-]; done.
  - intros m p e. unfold stat. destruct (files m !! p) as [b|]; [|done]. by intros [].
Qed.

(** * The codecs *)

(** A number as bytes, one for each bit below the highest. *)
Fixpoint to_bits (p : positive) : list Z :=
  match p with xH => [] | xO p => 0 :: to_bits p | xI p => 1 :: to_bits p end.
Fixpoint of_bits (l : list Z) : positive :=
  match l with [] => xH | b :: l => if b =? 0 then xO (of_bits l) else xI (of_bits l) end.

Lemma of_to_bits p : of_bits (to_bits p) = p.
Proof. induction p as [p IH|p IH|]; simpl; congruence. Qed.

Definition write {A} `{Countable A} (a : A) : result (list Z) (list Z) := Ok (to_bits (countable.encode a)).
Definition read {A} `{Countable A} (b : list Z) : option A := countable.decode (of_bits b).

Lemma read_write {A} `{Countable A} (a : A) b : write a = Ok b → read b = Some a.
Proof. intros [= <-]. unfold read. by rewrite of_to_bits, countable.decode_encode. Qed.

Definition hex_digit (d : Z) : Z := if d <? 10 then 48 + d else 87 + d.
Fixpoint hex_digits (n : nat) (z : Z) : list Z :=
  match n with O => [] | S n => hex_digit (z mod 16) :: hex_digits n (z / 16) end.

Lemma hex_digits_ok n z : forallb is_ascii_hexdigit (hex_digits n z) = true.
Proof.
  revert z. induction n as [|n IH]; intros z; cbn [hex_digits forallb]; [done|]. rewrite IH, andb_true_r.
  pose proof (Z.mod_pos_bound z 16). unfold hex_digit, is_ascii_hexdigit.
  destruct (z mod 16 <? 10) eqn:E; bool_simpl.
  - by rewrite !(proj2 (Z.leb_le _ _)) by lia.
  - rewrite (proj2 (Z.leb_le 97 _)), (proj2 (Z.leb_le _ 102)) by lia. simpl. by rewrite orb_true_r.
Qed.

Lemma hex_digits_length n z : length (hex_digits n z) = n.
Proof. revert z. induction n as [|n IH]; intros z; simpl; [done|]. by rewrite IH. Qed.

Definition DirectoryT : Type := Z * Name * Z * MetaT.
Definition directory_tuple (e : DirectoryEntry) : DirectoryT :=
  (node_uuid (DirectoryEntry.node e), DirectoryEntry.name e, kind_code (DirectoryEntry.kind e),
   meta_tuple (DirectoryEntry.metadata e)).
Definition tuple_directory (t : DirectoryT) : DirectoryEntry :=
  let '(n, name, k, m) := t in DirectoryEntry.Mk (MkNodeId n) name (code_kind k) (tuple_meta m).

Definition stats_tuple (v : FilesystemStats) : list Z :=
  [FilesystemStats.blocks v; FilesystemStats.blocks_free v; FilesystemStats.blocks_available v;
   FilesystemStats.files v; FilesystemStats.files_free v; FilesystemStats.block_size v;
   FilesystemStats.name_length v; FilesystemStats.fragment_size v].
Definition tuple_stats (l : list Z) : FilesystemStats :=
  FilesystemStats.Mk (nth 0 l 0) (nth 1 l 0) (nth 2 l 0) (nth 3 l 0) (nth 4 l 0) (nth 5 l 0) (nth 6 l 0) (nth 7 l 0).

Definition NamespaceT : Type := list Z * list Z * list Z.
Definition namespace_tuple (n : CacheNamespace) : NamespaceT :=
  (CacheNamespace.server_identity_sha256 n, CacheNamespace.export_id n, CacheNamespace.authorization_scope n).
Definition tuple_namespace (t : NamespaceT) : CacheNamespace :=
  let '(a, b, c) := t in CacheNamespace.Mk a b c.

Definition DiskT : Type := EntryKey * list Z * Z * list Z * Z.
Definition disk_tuple (e : DiskEntry) : DiskT :=
  (DiskEntry.key e, DiskEntry.file_name e, DiskEntry.stored_length e, DiskEntry.sha256 e, DiskEntry.last_access e).
Definition tuple_disk (t : DiskT) : DiskEntry :=
  let '(k, n, l, h, a) := t in DiskEntry.Mk k n l h a.

Definition ManifestT : Type := Z * NamespaceT * Z * list DiskT.
Definition manifest_tuple (m : Manifest) : ManifestT :=
  (Manifest.format_version m, namespace_tuple (Manifest.namespace m), Manifest.clock m,
   map disk_tuple (Manifest.entries m)).
Definition tuple_manifest (t : ManifestT) : Manifest :=
  let '(v, n, c, l) := t in Manifest.Mk v (tuple_namespace n) c (map tuple_disk l).

Lemma directory_inverse e : tuple_directory (directory_tuple e) = e.
Proof.
  destruct e as [[] ? k m]. unfold tuple_directory, directory_tuple.
  cbn [DirectoryEntry.metadata DirectoryEntry.node DirectoryEntry.kind DirectoryEntry.name].
  rewrite meta_inverse. by destruct k.
Qed.

Lemma manifest_inverse m : tuple_manifest (manifest_tuple m) = m.
Proof.
  destruct m as [v [] c l]. unfold tuple_manifest, manifest_tuple.
  cbn [Manifest.entries Manifest.namespace Manifest.clock Manifest.format_version].
  f_equal. rewrite map_map. rewrite <- (map_id l) at 2. apply map_ext. by intros [].
Qed.

#[global] Instance bits_codec : CacheCodec := {|
  sha256 b := b;
  hex_encode b := hex_digits 64 (Z.pos (of_bits b));
  key_to_json := write;
  namespace_to_json n := write (namespace_tuple n);
  metadata_to_json v := write (meta_tuple v);
  metadata_from_json b := tuple_meta <$> read b;
  directory_to_json v := write (map directory_tuple v);
  directory_from_json b := map tuple_directory <$> read b;
  stats_to_json v := write (stats_tuple v);
  stats_from_json b := tuple_stats <$> read b;
  manifest_to_json m := write (manifest_tuple m);
  manifest_from_json b := tuple_manifest <$> read b;
  temporary_suffix n := [n]
|}.

#[global] Instance bits_codec_laws : CacheCodecLaws.
Proof.
  split; cbn [metadata_to_json metadata_from_json directory_to_json directory_from_json stats_to_json
    stats_from_json manifest_to_json manifest_from_json sha256 hex_encode bits_codec].
  - intros v b ->%read_write. cbn [fmap option_fmap option_map]. by rewrite meta_inverse.
  - intros v b ->%read_write. cbn [fmap option_fmap option_map]. f_equal. rewrite map_map.
    rewrite <- (map_id v) at 2. apply map_ext, directory_inverse.
  - intros v b ->%read_write. by destruct v.
  - intros v b ->%read_write. cbn [fmap option_fmap option_map]. by rewrite manifest_inverse.
  - intros b. apply hex_digits_ok.
  - intros b. apply hex_digits_length.
Qed.

(** * A run *)

(** Byte [p] of every revision is [p], and one file has metadata. *)
Definition notes : Metadata := Metadata.Mk (MkNodeId 1) NodeKind.File 8 420 1 7 10 20 (Some 5) None 1 0 0.
Definition facts : Truth := Truth.Mk (λ _ p, p) (λ m, m = notes) (λ _ _, False) (λ _, False).

Definition place : CacheConfig :=
  CacheConfig.Mk (CacheNamespace.Mk [1] (lit "docs") (lit "alice")) [lit "cache"] 4096.
Definition blank : Mem := MemState.Mk ∅ {[ [lit "cache"] ]}.
Definition chunk (o : Z) : RangeKey := RangeKey.Mk (RevisionKey.Mk (MkNodeId 1) 7) o 8.
Definition chunk_bytes (o : Z) : list Z := map (λ i, Z.of_nat i + o) (seq 0 8).

(** Metadata, then two ranges in one batch, a lookup across both, an invalidation. *)
Definition session : list StoreOp :=
  [OpUpdate (UpMetadata true notes); OpBegin; OpUpdate (UpRange true (chunk 0) (chunk_bytes 0));
   OpUpdate (UpRange true (chunk 8) (chunk_bytes 8)); OpFlush; OpGetRange (RangeKey.Mk (RevisionKey.Mk (MkNodeId 1) 7) 4 8);
   OpGetMetadata (MkNodeId 1); OpUpdate (UpForgetMetadata (MkNodeId 1))].

Definition started : Store (Traced Mem) :=
  MkStore (MkTraced blank []) 0 PersistentState.default DeferredCommits.default 0.
Definition elements_order (m : gmap EntryKey DiskEntry) : list (EntryKey * DiskEntry) := map_to_list m.

Lemma blank_ok : disk_ok facts place (files blank).
Proof. by split. Qed.

Lemma default_bounded T n : 0 ≤ n → bounded_ok T n PersistentState.default.
Proof. intros Hn. split; [apply state_ok_default|]. done. Qed.

Lemma no_collision_facts : no_collision facts.
Proof. by intros k k' b b' _ _. Qed.

Lemma place_maximum : is_u64 (CacheConfig.maximum_payload_bytes place).
Proof. split; vm_compute; congruence. Qed.

Lemma true_chunk o : 0 ≤ o < 1000 → true_range facts (chunk o) (chunk_bytes o).
Proof.
  intros Ho. split; [split; simpl; unfold is_u64, u64_max; lia|]. intros _.
  unfold chunk_bytes, range_content. simpl. repeat (f_equal; try lia).
Qed.
End CacheExample.

(** Every disk of the run can be opened again. *)
Lemma cache_crash_safe_witness :
  let run := run_store CacheExample.elements_order CacheExample.place CacheExample.session CacheExample.started in
  length (moments (disk run)) = 35%nat ∧
  ∀ f, f ∈ moments (disk run) →
  match (load_manifest (CacheConfig.directory CacheExample.place) (CacheConfig.namespace CacheExample.place) (closed f)).1 with
  | Ok p => ∀ k b, (read_key CacheExample.elements_order CacheExample.place k (MkStore f 0 p DeferredCommits.default 0)).1 = Ok (Some b) →
      true_payload CacheExample.facts k b
  | Err e => ¬ manifest_error e
  end.
Proof.
  intros run. split; [by vm_compute|]. unfold run, CacheExample.started. clear run.
  apply (cache_crash_safe CacheExample.elements_order CacheExample.facts CacheExample.place CacheExample.session
    CacheExample.blank PersistentState.default DeferredCommits.default 0 0).
  - done.
  - apply CacheExample.place_maximum.
  - apply CacheExample.no_collision_facts.
  - by intros ? ? ? [].
  - repeat constructor; simpl; try done; by apply CacheExample.true_chunk.
  - apply CacheExample.blank_ok.
  - by apply CacheExample.default_bounded.
Defined.

(** The metadata of the example is stored in the empty cache and read back. *)
Lemma stored_value_readable_witness :
  let s := MkStore CacheExample.blank 0 PersistentState.default DeferredCommits.default 0 in
  ∃ b s', metadata_to_json CacheExample.notes = Ok b ∧
  insert_entry CacheExample.elements_order CacheExample.place (EntryKey.Metadata (MkNodeId 1)) b s = (Ok tt, s') ∧
  match (read_key CacheExample.elements_order CacheExample.place (EntryKey.Metadata (MkNodeId 1)) s').1 with
  | Ok o => o = Some b
  | Err x => ¬ manifest_error x
  end.
Proof.
  intros s.
  set (b := match metadata_to_json CacheExample.notes with Ok b => b | Err _ => [] end).
  set (out := insert_entry CacheExample.elements_order CacheExample.place (EntryKey.Metadata (MkNodeId 1)) b s).
  assert (out = (Ok tt, out.2)) as Hout.
  { assert (out.1 = Ok tt) as E by by vm_compute. rewrite <- E. apply surjective_pairing. }
  exists b, out.2. split; [done|]. split; [exact Hout|].
  apply (stored_value_readable CacheExample.elements_order (λ m, reflexivity _) CacheExample.facts CacheExample.place
    CacheExample.place_maximum (EntryKey.Metadata (MkNodeId 1)) b s).
  - apply CacheExample.no_collision_facts.
  - split; [apply CacheExample.blank_ok|]. by apply CacheExample.default_bounded.
  - split; [by vm_compute|]. by intros k e.
  - by intros e.
  - exists CacheExample.notes. split_and!; reflexivity.
  - exact Hout.
Defined.
