(* ===== verification/CacheWriter.v ===== *)
(** The cache the client uses ([crates/cache/src/lib.rs],
    [NonBlockingPersistentCache]): lookups from memory, the hot ranges and the
    persistent cache, and a writer thread that runs queued updates in batches
    with one manifest write per batch.

    The writer is a state machine whose steps interleave with the operations of
    the client; an operation that waits runs the writer until its completion is
    sent.  An operation is one step, although the two counters and the caches
    are separate atomics and locks in the code. *)

From S2P Require Import Prelude Protocol Common StateFiles CacheRanges FsCache CacheStore CacheStoreFacts CacheCrash.

(** * Data *)

Definition WRITER_BATCH_MAX : Z := 256.
Definition MAX_PENDING_STORE_JOBS : Z := 1024.
Definition MAX_PENDING_STORE_BYTES : Z := 128 * 1024 * 1024.

(** A queued job is an update of the persistent cache.  A range payload that was
    read through also gives its bytes back to the counter; a job that is waited
    for has the number of its completion channel. *)
Module PersistentWrite.
Record PersistentWrite := Mk { job : CacheUpdate; bytes : option Z; done : option Z }.
End PersistentWrite.
Abbreviation PersistentWrite := PersistentWrite.PersistentWrite.

(** The position of the writer thread: in [recv], or in a batch with the jobs
    that are left and the completions to send. *)
Inductive Writer :=
  | Waiting
  | Running (batch : list PersistentWrite) (completions : list Z).

Module NonBlocking.
Record NonBlocking (F : Type) := Mk {
  inner : Store F;
  queue : list PersistentWrite;
  writer : Writer;
  writer_alive : bool;
  memory : MemoryCache;
  hot_ranges : HotRangeState;
  pending_jobs : Z;
  pending_store_bytes : Z;
  next_channel : Z;
  completed : list Z
}.
Arguments Mk {F} _ _ _ _ _ _ _ _ _ _.
Arguments inner {F} _.
Arguments queue {F} _.
Arguments writer {F} _.
Arguments writer_alive {F} _.
Arguments memory {F} _.
Arguments hot_ranges {F} _.
Arguments pending_jobs {F} _.
Arguments pending_store_bytes {F} _.
Arguments next_channel {F} _.
Arguments completed {F} _.
End NonBlocking.
Abbreviation NonBlocking := NonBlocking.NonBlocking.

(** [fetch_add] and [fetch_sub] of the counters. *)
Definition wrap64 (x : Z) : Z := x mod 2 ^ 64.

Section writer.
Context {F : Type} `{SF : StateFs F} `{!CacheFs F} `{CC : CacheCodec}.
Context (entry_order : gmap EntryKey DiskEntry → list (EntryKey * DiskEntry)).
Context (map_order : gset RangeKey → list RangeKey).
Context (cfg : CacheConfig).

Abbreviation NB := (NonBlocking F).

(** [maximum_payload_bytes.min(DEFAULT_HOT_RANGE_BYTES)]. *)
Definition hot_range_bytes : Z := Z.min (CacheConfig.maximum_payload_bytes cfg) DEFAULT_HOT_RANGE_BYTES.

Definition set_inner (i : Store F) (c : NB) : NB :=
  NonBlocking.Mk i (NonBlocking.queue c) (NonBlocking.writer c) (NonBlocking.writer_alive c)
    (NonBlocking.memory c) (NonBlocking.hot_ranges c) (NonBlocking.pending_jobs c)
    (NonBlocking.pending_store_bytes c) (NonBlocking.next_channel c) (NonBlocking.completed c).
Definition set_memory (m : MemoryCache) (c : NB) : NB :=
  NonBlocking.Mk (NonBlocking.inner c) (NonBlocking.queue c) (NonBlocking.writer c) (NonBlocking.writer_alive c)
    m (NonBlocking.hot_ranges c) (NonBlocking.pending_jobs c)
    (NonBlocking.pending_store_bytes c) (NonBlocking.next_channel c) (NonBlocking.completed c).
Definition set_hot (h : HotRangeState) (c : NB) : NB :=
  NonBlocking.Mk (NonBlocking.inner c) (NonBlocking.queue c) (NonBlocking.writer c) (NonBlocking.writer_alive c)
    (NonBlocking.memory c) h (NonBlocking.pending_jobs c)
    (NonBlocking.pending_store_bytes c) (NonBlocking.next_channel c) (NonBlocking.completed c).

(** [NonBlockingPersistentCache::open] after [PersistentCache::open]. *)
Definition nonblocking_open (i : Store F) : NB :=
  NonBlocking.Mk i [] Waiting true MemoryCache.default hot_default 0 0 0 [].

(** * The writer thread *)

(** A job of the batch and the counter of pending jobs. *)
Definition run_job (w : PersistentWrite) (c : NB) : NB :=
  NonBlocking.Mk (ignored (persist_update entry_order cfg (PersistentWrite.job w)) (NonBlocking.inner c))
    (NonBlocking.queue c) (NonBlocking.writer c) (NonBlocking.writer_alive c) (NonBlocking.memory c)
    (NonBlocking.hot_ranges c) (wrap64 (NonBlocking.pending_jobs c - 1))
    (match PersistentWrite.bytes w with
     | Some b => wrap64 (NonBlocking.pending_store_bytes c - b)
     | None => NonBlocking.pending_store_bytes c
     end)
    (NonBlocking.next_channel c) (NonBlocking.completed c).

(** One step of the thread: receive a batch, run a job, or flush and notify.  A
    thread waiting on an empty channel stays there. *)
Definition writer_step (c : NB) : NB :=
  match NonBlocking.writer c with
  | Waiting =>
      match NonBlocking.queue c with
      | [] => c
      | _ =>
          NonBlocking.Mk (ignored begin_deferred_commits (NonBlocking.inner c))
            (drop (Z.to_nat WRITER_BATCH_MAX) (NonBlocking.queue c))
            (Running (take (Z.to_nat WRITER_BATCH_MAX) (NonBlocking.queue c)) [])
            (NonBlocking.writer_alive c) (NonBlocking.memory c) (NonBlocking.hot_ranges c)
            (NonBlocking.pending_jobs c) (NonBlocking.pending_store_bytes c)
            (NonBlocking.next_channel c) (NonBlocking.completed c)
      end
  | Running (w :: batch) completions =>
      let c' := run_job w c in
      NonBlocking.Mk (NonBlocking.inner c') (NonBlocking.queue c')
        (Running batch (match PersistentWrite.done w with
                        | Some d => completions ++ [d]
                        | None => completions
                        end))
        (NonBlocking.writer_alive c') (NonBlocking.memory c') (NonBlocking.hot_ranges c')
        (NonBlocking.pending_jobs c') (NonBlocking.pending_store_bytes c')
        (NonBlocking.next_channel c') (NonBlocking.completed c')
  | Running [] completions =>
      NonBlocking.Mk (ignored (flush_deferred_commits entry_order cfg) (NonBlocking.inner c))
        (NonBlocking.queue c) Waiting (NonBlocking.writer_alive c) (NonBlocking.memory c)
        (NonBlocking.hot_ranges c) (NonBlocking.pending_jobs c) (NonBlocking.pending_store_bytes c)
        (NonBlocking.next_channel c) (NonBlocking.completed c ++ completions)
  end.

(** * Queueing *)

(** [pending_jobs.fetch_add], [writer.send] and, when the receiver is gone,
    [pending_jobs.fetch_sub]. *)
Definition send (w : PersistentWrite) (c : NB) : NB :=
  if NonBlocking.writer_alive c then
    NonBlocking.Mk (NonBlocking.inner c) (NonBlocking.queue c ++ [w]) (NonBlocking.writer c) true
      (NonBlocking.memory c) (NonBlocking.hot_ranges c) (wrap64 (NonBlocking.pending_jobs c + 1))
      (NonBlocking.pending_store_bytes c) (NonBlocking.next_channel c) (NonBlocking.completed c)
  else
    NonBlocking.Mk (NonBlocking.inner c) (NonBlocking.queue c) (NonBlocking.writer c) false
      (NonBlocking.memory c) (NonBlocking.hot_ranges c)
      (wrap64 (wrap64 (NonBlocking.pending_jobs c + 1) - 1))
      (NonBlocking.pending_store_bytes c) (NonBlocking.next_channel c) (NonBlocking.completed c).

Definition enqueue (u : CacheUpdate) (c : NB) : NB := send (PersistentWrite.Mk u None None) c.

Definition enqueue_store_behind (u : CacheUpdate) (c : NB) : NB :=
  if NonBlocking.pending_jobs c >? MAX_PENDING_STORE_JOBS then c else enqueue u c.

(** Wait for a completion: the writer runs until it is sent. *)
Fixpoint wait_for (fuel : nat) (channel : Z) (c : NB) : NB :=
  if bool_decide (channel ∈ NonBlocking.completed c) then c
  else match fuel with O => c | S fuel' => wait_for fuel' channel (writer_step c) end.

(** The steps the writer needs to finish all its work: each job runs once, and
    each batch is received and flushed. *)
Definition writer_work (c : NB) : nat :=
  match NonBlocking.writer c with
  | Waiting => 0
  | Running batch _ => S (length batch)
  end + 3 * length (NonBlocking.queue c).

Definition new_channel (c : NB) : NB :=
  NonBlocking.Mk (NonBlocking.inner c) (NonBlocking.queue c) (NonBlocking.writer c) (NonBlocking.writer_alive c)
    (NonBlocking.memory c) (NonBlocking.hot_ranges c) (NonBlocking.pending_jobs c)
    (NonBlocking.pending_store_bytes c) (NonBlocking.next_channel c + 1) (NonBlocking.completed c).

Definition enqueue_and_wait (u : CacheUpdate) (c : NB) : NB :=
  let channel := NonBlocking.next_channel c in
  let c' := send (PersistentWrite.Mk u None (Some channel)) (new_channel c) in
  if NonBlocking.writer_alive c then wait_for (writer_work c') channel c' else c'.

(** * Operations *)

(** A lookup of the persistent cache. *)
Definition ask_inner {A} (m : SM (Store F) CacheError (option A)) (c : NB) : option A * NB :=
  let '(r, i) := ok_flatten m (NonBlocking.inner c) in (r, set_inner i c).

Definition on_memory (f : MemoryCache → MemoryCache) (c : NB) : NB := set_memory (f (NonBlocking.memory c)) c.
Definition on_hot (f : HotRangeState → HotRangeState) (c : NB) : NB := set_hot (f (NonBlocking.hot_ranges c)) c.

Definition nb_metadata_get (node : NodeId) (c : NB) : option Metadata * NB :=
  match memory_metadata_get node (NonBlocking.memory c) with
  | Some value => (Some value, c)
  | None =>
      let '(value, c) := ask_inner (get_metadata_value entry_order cfg node) c in
      (value, match value with Some v => on_memory (memory_metadata_insert v) c | None => c end)
  end.

Definition nb_metadata_insert (value : Metadata) (c : NB) : NB :=
  enqueue_and_wait (UpMetadata false value) (on_memory (memory_metadata_insert value) c).

Definition nb_metadata_store_readthrough (value : Metadata) (c : NB) : NB :=
  enqueue_store_behind (UpMetadata true value) (on_memory (memory_metadata_insert value) c).

Definition nb_metadata_invalidate (node : NodeId) (c : NB) : NB :=
  enqueue_and_wait (UpForgetMetadata node) (on_memory (memory_metadata_invalidate node) c).

Definition nb_directory_get (key : RevisionKey) (c : NB) : option (list DirectoryEntry) * NB :=
  match memory_directory_get key (NonBlocking.memory c) with
  | Some value => (Some value, c)
  | None =>
      let '(value, c) := ask_inner (get_directory_value entry_order cfg key) c in
      (value, match value with Some v => on_memory (memory_store_snapshot key v) c | None => c end)
  end.

Definition nb_directory_insert (key : RevisionKey) (value : list DirectoryEntry) (c : NB) : NB :=
  enqueue_and_wait (UpDirectory false key value) (on_memory (memory_directory_insert key value) c).

Definition nb_directory_store_readthrough (key : RevisionKey) (value : list DirectoryEntry) (c : NB) : NB :=
  enqueue_store_behind (UpDirectory true key value) (on_memory (memory_store_snapshot key value) c).

Definition nb_directory_invalidate (node : NodeId) (c : NB) : NB :=
  enqueue_and_wait (UpForgetDirectory node) (on_memory (memory_directory_invalidate node) c).

Definition nb_directory_invalidate_containing (node : NodeId) (c : NB) : NB :=
  enqueue_and_wait (UpForgetContaining node) (on_memory (memory_invalidate_containing node) c).

Definition hot_lookup (key : RangeKey) (c : NB) : option (list Z) * NB :=
  let '(r, h) := hot_get map_order key (NonBlocking.hot_ranges c) in (r, set_hot h c).

(** The blocking part of the range lookup. *)
Definition load_range (key : RangeKey) : SM (Store F) CacheError (option (RangeKey * list Z)) :=
  covering ← sm_try (get_covering_range_value entry_order cfg key);
  match covering with
  | Ok (Some value) => mret (Some value)
  | Ok None =>
      value ← sm_try (get_range_value entry_order cfg key);
      match value with
      | Ok (Some value) => mret (Some (key, value))
      | _ => mret None
      end
  | Err _ => mret None
  end.

Definition nb_range_get (key : RangeKey) (c : NB) : option (list Z) * NB :=
  let '(value, c) := hot_lookup key c in
  match value with
  | Some value => (Some value, c)
  | None =>
      let '(loaded, c) := ask_inner (load_range key) c in
      match loaded with
      | None => (None, c)
      | Some (loaded_key, value) => hot_lookup key (on_hot (hot_insert hot_range_bytes loaded_key value) c)
      end
  end.

Definition nb_range_insert (key : RangeKey) (value : list Z) (c : NB) : NB :=
  enqueue_and_wait (UpRange false key value) (on_hot (hot_insert hot_range_bytes key value) c).

Definition add_store_bytes (b : Z) (c : NB) : NB :=
  NonBlocking.Mk (NonBlocking.inner c) (NonBlocking.queue c) (NonBlocking.writer c) (NonBlocking.writer_alive c)
    (NonBlocking.memory c) (NonBlocking.hot_ranges c) (NonBlocking.pending_jobs c)
    (wrap64 (NonBlocking.pending_store_bytes c + b)) (NonBlocking.next_channel c) (NonBlocking.completed c).

Definition nb_range_store_readthrough (key : RangeKey) (value : list Z) (c : NB) : NB :=
  let c := on_hot (hot_insert hot_range_bytes key value) c in
  let b := zlen value in
  if (NonBlocking.pending_jobs c >? MAX_PENDING_STORE_JOBS) ||
     (u64_saturating_add (NonBlocking.pending_store_bytes c) b >? MAX_PENDING_STORE_BYTES)
  then c
  else send (PersistentWrite.Mk (UpRange true key value) (Some b) None) (add_store_bytes b c).

Definition nb_range_invalidate (node : NodeId) (c : NB) : NB :=
  enqueue_and_wait (UpForgetRanges node) (on_hot (hot_invalidate node) c).

Definition nb_stats_get (c : NB) : option FilesystemStats * NB :=
  match MemoryCache.statistics (NonBlocking.memory c) with
  | Some value => (Some value, c)
  | None =>
      let '(value, c) := ask_inner (get_filesystem_stats_value entry_order cfg) c in
      (value, match value with Some v => on_memory (memory_stats_insert v) c | None => c end)
  end.

Definition nb_stats_insert (value : FilesystemStats) (c : NB) : NB :=
  enqueue_and_wait (UpStats false value) (on_memory (memory_stats_insert value) c).

Definition nb_stats_store_readthrough (value : FilesystemStats) (c : NB) : NB :=
  enqueue_store_behind (UpStats true value) (on_memory (memory_stats_insert value) c).

Definition nb_invalidate_node_memory (node : NodeId) (c : NB) : NB :=
  on_hot (hot_invalidate node) (on_memory (memory_invalidate_node node) c).

Definition nb_invalidate_node_state (node : NodeId) (c : NB) : NB :=
  enqueue (UpForgetNode false node) (nb_invalidate_node_memory node c).

Definition nonblocking_cache : FilesystemCache NB := {|
  metadata_get := nb_metadata_get;
  metadata_insert := nb_metadata_insert;
  metadata_store_readthrough := nb_metadata_store_readthrough;
  metadata_invalidate := nb_metadata_invalidate;
  directory_get := nb_directory_get;
  directory_insert := nb_directory_insert;
  directory_store_readthrough := nb_directory_store_readthrough;
  directory_invalidate := nb_directory_invalidate;
  directory_invalidate_containing := nb_directory_invalidate_containing;
  range_get := nb_range_get;
  range_insert := nb_range_insert;
  range_store_readthrough := nb_range_store_readthrough;
  range_invalidate := nb_range_invalidate;
  stats_get := nb_stats_get;
  stats_insert := nb_stats_insert;
  stats_store_readthrough := nb_stats_store_readthrough;
  invalidate_node_state := nb_invalidate_node_state;
  invalidate_node_memory := nb_invalidate_node_memory
|}.
End writer.

(** * What an invalidation leaves behind *)

Section stale.
Context {F : Type} `{SF : StateFs F} `{!CacheFs F} `{CC : CacheCodec}.
Context (entry_order : gmap EntryKey DiskEntry → list (EntryKey * DiskEntry)).
Context (cfg : CacheConfig).

Lemma inner_invalidate_state n (c : NonBlocking F) :
  NonBlocking.inner (nb_invalidate_node_state n c) = NonBlocking.inner c.
Proof. unfold nb_invalidate_node_state, enqueue, send. simpl. by destruct (NonBlocking.writer_alive c). Qed.

Lemma memory_invalidate_state n (c : NonBlocking F) :
  NonBlocking.memory (nb_invalidate_node_state n c) = memory_invalidate_node n (NonBlocking.memory c).
Proof. unfold nb_invalidate_node_state, enqueue, send. simpl. by destruct (NonBlocking.writer_alive c). Qed.

Lemma memory_directory_invalidated n revision (c : MemoryCache) :
  memory_directory_get (RevisionKey.Mk n revision) (memory_invalidate_node n c) = None.
Proof.
  unfold memory_directory_get, memory_invalidate_node. simpl. apply map_lookup_filter_None. right.
  intros entries _. simpl. by rewrite bool_decide_true.
Qed.

(** Invalidating a node does not hide what the persistent cache holds of it.
    Whatever the state of the client's cache, right after [invalidate_node_state]
    (whose eviction is queued) and after [invalidate_node_memory], the next lookup
    of the node's metadata, and of its listing in any revision, answers what the
    persistent cache held before, and puts it back into memory: an old value is
    found again, although the comments say that reads after a mutation never
    observe stale data. *)
Theorem invalidated_node_reloaded n revision (c : NonBlocking F) :
  let key := RevisionKey.Mk n revision in
  let disk_metadata := (ok_flatten (get_metadata_value entry_order cfg n) (NonBlocking.inner c)).1 in
  let disk_listing := (ok_flatten (get_directory_value entry_order cfg key) (NonBlocking.inner c)).1 in
  Forall (λ c',
    let '(m, c1) := nb_metadata_get entry_order cfg n c' in
    let '(l, c2) := nb_directory_get entry_order cfg key c' in
    m = disk_metadata ∧ l = disk_listing ∧
    (∀ value, m = Some value → MemoryCache.metadata (NonBlocking.memory c1) !! Metadata.node value = Some value) ∧
    (∀ value, l = Some value → memory_directory_get key (NonBlocking.memory c2) = Some value))
    [nb_invalidate_node_state n c; nb_invalidate_node_memory n c].
Proof.
  intros key disk_metadata disk_listing.
  assert (∀ c' : NonBlocking F, NonBlocking.inner c' = NonBlocking.inner c →
    NonBlocking.memory c' = memory_invalidate_node n (NonBlocking.memory c) →
    let '(m, c1) := nb_metadata_get entry_order cfg n c' in
    let '(l, c2) := nb_directory_get entry_order cfg key c' in
    m = disk_metadata ∧ l = disk_listing ∧
    (∀ value, m = Some value → MemoryCache.metadata (NonBlocking.memory c1) !! Metadata.node value = Some value) ∧
    (∀ value, l = Some value → memory_directory_get key (NonBlocking.memory c2) = Some value)) as Hget.
  { intros c' Hi Hm. unfold nb_metadata_get, memory_metadata_get, nb_directory_get, ask_inner, disk_metadata, disk_listing, key.
    rewrite Hm, Hi, memory_directory_invalidated. simpl. rewrite lookup_delete_eq.
    destruct (ok_flatten (get_metadata_value _ _ _) _) as [m i1]. destruct (ok_flatten (get_directory_value _ _ _) _) as [l i2].
    split_and!; [done|done|..]; intros value ->; simpl.
    - apply lookup_insert_eq.
    - apply lookup_insert_eq. }
  repeat constructor; apply Hget; [apply inner_invalidate_state|apply memory_invalidate_state|done|done].
Qed.
End stale.
