(* ===== verification/CacheWriterFacts.v ===== *)
(** The promises of the client's cache: its answers are true, its queue is
    bounded, waited updates complete in order, and a batch writes at most one
    manifest. *)

From S2P Require Import Prelude Protocol Common StateFiles CacheRanges FsCache CacheStore CacheStoreFacts CacheCrash CacheWriter.

(** The jobs that have not run. *)
Definition outstanding {F} (c : NonBlocking F) : list PersistentWrite :=
  match NonBlocking.writer c with Waiting => [] | Running batch _ => batch end ++ NonBlocking.queue c.

(** ** Runs *)

(** What may happen to the cache: an operation of the client, or a step of the
    writer thread. *)
Inductive NbOp :=
  | NbUpdate (u : CacheUpdate)
  | NbMetadata (node : NodeId)
  | NbDirectory (key : RevisionKey)
  | NbRange (key : RangeKey)
  | NbStats
  | NbWriter.

Section run.
Context {F : Type} `{SF : StateFs F} `{!CacheFs F} `{CC : CacheCodec}.
Context (entry_order : gmap EntryKey DiskEntry → list (EntryKey * DiskEntry)).
Context (map_order : gset RangeKey → list RangeKey).
Context (cfg : CacheConfig).

Definition nb_op (op : NbOp) (c : NonBlocking F) : NonBlocking F :=
  match op with
  | NbUpdate u => cache_update (H:=nonblocking_cache entry_order map_order cfg) u c
  | NbMetadata n => (nb_metadata_get entry_order cfg n c).2
  | NbDirectory k => (nb_directory_get entry_order cfg k c).2
  | NbRange k => (nb_range_get entry_order map_order cfg k c).2
  | NbStats => (nb_stats_get entry_order cfg c).2
  | NbWriter => writer_step entry_order cfg c
  end.

Definition run_nb (ops : list NbOp) (c : NonBlocking F) : NonBlocking F :=
  fold_left (λ c op, nb_op op c) ops c.
End run.

Definition nb_op_ok (T : Truth) (op : NbOp) : Prop :=
  match op with NbUpdate u => true_update T u | NbRange k => wf_range k | _ => True end.

(** * True answers *)

Section answers.
Context {F : Type} `{CL : CacheFsLaws F} `{CC : CacheCodec} `{!CacheCodecLaws}.
Context (entry_order : gmap EntryKey DiskEntry → list (EntryKey * DiskEntry)).
Context (entry_order_perm : ∀ m, entry_order m ≡ₚ map_to_list m).
Context (map_order : gset RangeKey → list RangeKey).
Context (map_order_perm : ∀ s, map_order s ≡ₚ elements s).
Context (cfg : CacheConfig) (maximum_ok : is_u64 (CacheConfig.maximum_payload_bytes cfg)).

Abbreviation NB := (NonBlocking F).

Record nonblocking_true (T : Truth) (c : NB) : Prop := {
  nt_inner : persistent_true cfg T (NonBlocking.inner c);
  nt_memory : memory_true T (NonBlocking.memory c);
  nt_hot : hot_inv (hot_range_bytes cfg) (NonBlocking.hot_ranges c);
  nt_hot_true : hot_true (Truth.content T) (NonBlocking.hot_ranges c);
  nt_jobs : Forall (λ w, true_update T (PersistentWrite.job w)) (outstanding c)
}.

Lemma hot_bytes_ok : 0 ≤ hot_range_bytes cfg ≤ DEFAULT_HOT_RANGE_BYTES.
Proof. destruct maximum_ok. unfold hot_range_bytes, DEFAULT_HOT_RANGE_BYTES. lia. Qed.

(** ** The writer *)

Lemma persistent_step T {A} (m : SM (Store F) CacheError A) i :
  (no_collision T → yields (store_ok T cfg (λ f, disk_ok T cfg (st_view f))) m (λ _, True)) →
  persistent_true cfg T i → persistent_true cfg T (m i).2.
Proof. intros Hm [Hc Hs]. split; [done|]. by apply (Hm Hc i Hs). Qed.

Lemma job_true T u i :
  truth_ok T → true_update T u → persistent_true cfg T i →
  persistent_true cfg T (ignored (persist_update entry_order cfg u) i).
Proof. intros Hok Hu. apply persistent_step. intros Hc. apply y_update; auto. Qed.

Lemma writer_step_true T c :
  truth_ok T → nonblocking_true T c → nonblocking_true T (writer_step entry_order cfg c).
Proof.
  intros Hok Hc. pose proof Hc as [Hi Hm Hh Ht Hj]. unfold writer_step, outstanding in *.
  destruct (NonBlocking.writer c) as [|[|w batch] completions].
  - destruct (NonBlocking.queue c) as [|w q] eqn:Eq; [done|].
    split; try done.
    + apply persistent_step; [|done]. intros _. apply y_begin.
    + unfold outstanding. cbn [NonBlocking.writer NonBlocking.queue]. by rewrite take_drop.
  - split; simpl; try done. apply persistent_step; [|done]. intros _. apply y_flush; auto.
  - apply Forall_cons in Hj as [Hw Hj]. split; simpl; try done. by apply job_true.
Qed.

Lemma wait_for_true T fuel channel c :
  truth_ok T → nonblocking_true T c → nonblocking_true T (wait_for entry_order cfg fuel channel c).
Proof.
  intros Hok. revert c. induction fuel as [|fuel IH]; intros c Hc; simpl; destruct (bool_decide _); try done.
  by apply IH, writer_step_true.
Qed.

(** ** Queueing *)

Lemma send_true T w c :
  true_update T (PersistentWrite.job w) → nonblocking_true T c → nonblocking_true T (send w c).
Proof.
  intros Hw [Hi Hm Hh Ht Hj]. unfold send. destruct (NonBlocking.writer_alive c); split; simpl; try done.
  unfold outstanding in *. simpl. rewrite app_assoc. apply Forall_app. split; [done|]. by constructor.
Qed.

Lemma enqueue_and_wait_true T u c :
  truth_ok T → true_update T u → nonblocking_true T c → nonblocking_true T (enqueue_and_wait entry_order cfg u c).
Proof.
  intros Hok Hu Hc. unfold enqueue_and_wait.
  assert (nonblocking_true T (send (PersistentWrite.Mk u None (Some (NonBlocking.next_channel c))) (new_channel c))) as Hs.
  { apply send_true; [done|]. by destruct Hc. }
  destruct (NonBlocking.writer_alive c); [|done]. by apply wait_for_true.
Qed.

Lemma enqueue_store_behind_true T u c :
  true_update T u → nonblocking_true T c → nonblocking_true T (enqueue_store_behind u c).
Proof. intros Hu Hc. unfold enqueue_store_behind. destruct (_ >? _); [done|]. by apply send_true. Qed.

(** ** Lookups *)

Lemma on_memory_true T f c :
  (memory_true T (NonBlocking.memory c) → memory_true T (f (NonBlocking.memory c))) →
  nonblocking_true T c → nonblocking_true T (on_memory f c).
Proof. intros Hf [Hi Hm Hh Ht Hj]. split; try done. by apply Hf. Qed.

Lemma on_hot_true T op c :
  hot_op_ok (Truth.content T) op → nonblocking_true T c →
  nonblocking_true T (on_hot (λ h, hot_step map_order (hot_range_bytes cfg) h op) c).
Proof.
  intros Hop [Hi Hm Hh Ht Hj].
  destruct (hot_step_inv map_order map_order_perm (hot_range_bytes cfg) hot_bytes_ok (Truth.content T)
    (NonBlocking.hot_ranges c) op Hh Ht Hop). by split.
Qed.

Lemma ask_inner_true {A} T (m : SM (Store F) CacheError (option A)) (R : A → Prop) c :
  (no_collision T → yields (store_ok T cfg (λ f, disk_ok T cfg (st_view f))) m (answers R)) →
  nonblocking_true T c →
  nonblocking_true T (ask_inner m c).2 ∧ ∀ a, (ask_inner m c).1 = Some a → R a.
Proof.
  intros Hm [Hi Hme Hh Ht Hj]. unfold ask_inner.
  destruct (ok_flatten_answers cfg T m R (NonBlocking.inner c) (Hm (proj1 Hi)) Hi) as [Hi' Ha].
  destruct (ok_flatten m (NonBlocking.inner c)) as [r i]. simpl in *. by split; [split|].
Qed.

Lemma load_range_true T key :
  no_collision T → wf_range key →
  yields (store_ok T cfg (λ f, disk_ok T cfg (st_view f))) (load_range entry_order cfg key)
    (answers (λ rd, wf_range rd.1 ∧ rd.2 = range_content (Truth.content T) rd.1)).
Proof.
  intros Hc Hwf. unfold load_range.
  eapply yields_bind; [by apply yields_try, y_get_covering; auto|]. intros [[rd|]|e] Hr.
  - apply yields_ret. done.
  - eapply yields_bind; [by apply yields_try, y_get_range; auto|]. intros [[d|]|e] Hd; apply yields_ret; [|done|done].
    intros ? [= <-]. split; [done|]. by apply Hd.
  - by apply yields_ret.
Qed.

Lemma hot_lookup_true T key c :
  wf_range key → nonblocking_true T c →
  nonblocking_true T (hot_lookup map_order key c).2 ∧
  ∀ d, (hot_lookup map_order key c).1 = Some d → d = range_content (Truth.content T) key.
Proof.
  intros Hwf [Hi Hm Hh Ht Hj]. unfold hot_lookup.
  destruct (hot_get_spec map_order map_order_perm (hot_range_bytes cfg) hot_bytes_ok (Truth.content T) key
    (NonBlocking.hot_ranges c) Hh Ht Hwf) as (Hd & Hh' & He).
  destruct (hot_get map_order key (NonBlocking.hot_ranges c)) as [r h]. simpl in *. split.
  - split; try done. unfold hot_true. simpl. by rewrite He.
  - intros d Hr. by apply Hd.
Qed.

(** A lookup that first tries the memory, and remembers what the disk gave. *)
Lemma fallback_true {A} T (o : option A) (m : SM (Store F) CacheError (option A)) (R : A → Prop) (keep : A → NB → NB) c :
  (∀ a, o = Some a → R a) →
  (no_collision T → yields (store_ok T cfg (λ f, disk_ok T cfg (st_view f))) m (answers R)) →
  (∀ a c, R a → nonblocking_true T c → nonblocking_true T (keep a c)) →
  nonblocking_true T c →
  let out := match o with
             | Some a => (Some a, c)
             | None => let '(v, c) := ask_inner m c in (v, match v with Some a => keep a c | None => c end)
             end in
  nonblocking_true T out.2 ∧ ∀ a, out.1 = Some a → R a.
Proof.
  intros Ho Hm Hk Hc out. unfold out. destruct o as [a|]; simpl; [by split; [|intros ? [= <-]; apply Ho]|].
  destruct (ask_inner_true T m R c Hm Hc) as [Hc' Ha]. destruct (ask_inner m c) as [[a|] c']; simpl in *; [|done].
  split; [|done]. apply Hk; auto.
Qed.

Lemma metadata_get_true T node c :
  nonblocking_true T c →
  nonblocking_true T (nb_metadata_get entry_order cfg node c).2 ∧
  ∀ m, (nb_metadata_get entry_order cfg node c).1 = Some m → Truth.metadata T m ∧ Metadata.node m = node.
Proof.
  intros Hc. apply (fallback_true T _ _ _ (λ v, on_memory (memory_metadata_insert v))); [| |intros v c' [Hv _] Hc'|done].
  - apply (mt_metadata _ _ (nt_memory _ _ Hc)).
  - intros Hcol. apply y_get_metadata; auto.
  - apply on_memory_true; [|done]. intros Hm. split; simpl; [|apply Hm..].
    intros n m [[<- <-]|[_ Hl]]%lookup_insert_Some; [done|]. by apply (mt_metadata _ _ Hm).
Qed.

Lemma directory_get_true T key c :
  truth_ok T → nonblocking_true T c →
  nonblocking_true T (nb_directory_get entry_order cfg key c).2 ∧
  ∀ d, (nb_directory_get entry_order cfg key c).1 = Some d → Truth.directory T key d.
Proof.
  intros Hok Hc. apply (fallback_true T _ _ _ (λ v, on_memory (memory_store_snapshot key v))); [| |intros v c' Hv Hc'|done].
  - apply (mt_directory _ _ (nt_memory _ _ Hc)).
  - intros Hcol. apply y_get_directory; auto.
  - apply on_memory_true; [|done]. intros Hm. by apply (memory_snapshot_true map_order).
Qed.

Lemma stats_get_true T c :
  nonblocking_true T c →
  nonblocking_true T (nb_stats_get entry_order cfg c).2 ∧
  ∀ v, (nb_stats_get entry_order cfg c).1 = Some v → Truth.statistics T v.
Proof.
  intros Hc. apply (fallback_true T _ _ _ (λ v, on_memory (memory_stats_insert v))); [| |intros v c' Hv Hc'|done].
  - apply (mt_stats _ _ (nt_memory _ _ Hc)).
  - intros Hcol. apply y_get_stats; auto.
  - apply on_memory_true; [|done]. intros Hm. split; simpl; try apply Hm. by intros ? [= <-].
Qed.

Lemma range_get_true T key c :
  wf_range key → nonblocking_true T c →
  nonblocking_true T (nb_range_get entry_order map_order cfg key c).2 ∧
  ∀ d, (nb_range_get entry_order map_order cfg key c).1 = Some d → d = range_content (Truth.content T) key.
Proof.
  intros Hwf Hc. unfold nb_range_get. destruct (hot_lookup_true T key c Hwf Hc) as [Hc1 Hd1].
  destruct (hot_lookup map_order key c) as [[d|] c1]; simpl in *; [by split|].
  destruct (ask_inner_true T (load_range entry_order cfg key) _ c1 (λ Hcol, load_range_true T key Hcol Hwf) Hc1)
    as [Hc2 Hd2].
  destruct (ask_inner _ c1) as [[[k v]|] c2]; simpl in *; [|done].
  destruct (Hd2 _ eq_refl) as [Hk Hv]. simpl in Hk, Hv. apply hot_lookup_true; [done|].
  by apply (on_hot_true T (HotInsert k v)).
Qed.

(** ** Updates *)

Lemma range_update_true T key value c :
  true_range T key value → nonblocking_true T c →
  nonblocking_true T (on_hot (hot_insert (hot_range_bytes cfg) key value) c).
Proof. intros Hv. apply (on_hot_true T (HotInsert key value)). done. Qed.

Lemma memory_op_true T u c :
  truth_ok T → true_update T u → nonblocking_true T c →
  nonblocking_true T (on_memory (cache_update (H:=memory_cache map_order) u) c).
Proof. intros Hok Hu. apply on_memory_true. intros Hm. by apply memory_update_true. Qed.

Lemma update_true T u c :
  truth_ok T → true_update T u → nonblocking_true T c →
  nonblocking_true T (cache_update (H:=nonblocking_cache entry_order map_order cfg) u c).
Proof.
  intros Hok Hu Hc.
  destruct u as [[] v|[] k v|[] k v|[] v|n|n|n|n|[] n]; simpl.
  1: apply enqueue_store_behind_true; [done|]; by apply (memory_op_true T (UpMetadata true v)).
  1: apply enqueue_and_wait_true; [done..|]; by apply (memory_op_true T (UpMetadata false v)).
  1: apply enqueue_store_behind_true; [done|]; by apply (memory_op_true T (UpDirectory true k v)).
  1: apply enqueue_and_wait_true; [done..|]; by apply (memory_op_true T (UpDirectory false k v)).
  - pose proof (range_update_true T k v c Hu Hc) as Hc'. unfold nb_range_store_readthrough.
    destruct (_ || _); [done|]. apply send_true; [done|]. by destruct Hc'.
  - by apply enqueue_and_wait_true, range_update_true.
  - apply enqueue_store_behind_true; [done|]. by apply (memory_op_true T (UpStats true v)).
  - apply enqueue_and_wait_true; [done..|]. by apply (memory_op_true T (UpStats false v)).
  - apply enqueue_and_wait_true; [done..|]. by apply (memory_op_true T (UpForgetMetadata n)).
  - apply enqueue_and_wait_true; [done..|]. by apply (memory_op_true T (UpForgetDirectory n)).
  - apply enqueue_and_wait_true; [done..|]. by apply (memory_op_true T (UpForgetContaining n)).
  - apply enqueue_and_wait_true; [done..|]. by apply (on_hot_true T (HotInvalidate n)).
  - apply (on_hot_true T (HotInvalidate n)); [done|]. by apply (memory_op_true T (UpForgetNode true n)).
  - apply send_true; [done|]. apply (on_hot_true T (HotInvalidate n)); [done|].
    by apply (memory_op_true T (UpForgetNode false n)).
Qed.

#[refine] Instance nonblocking_cache_laws :
  FilesystemCacheLaws NB (H:=nonblocking_cache entry_order map_order cfg) := {| cache_true := nonblocking_true |}.
Proof.
  - intros T c n _. apply metadata_get_true.
  - intros T c k Hok. by apply directory_get_true.
  - intros T c k _. apply range_get_true.
  - intros T c _. apply stats_get_true.
  - intros T c u Hok Hc Hu. by apply update_true.
Defined.

Lemma nb_op_true T op c :
  truth_ok T → nb_op_ok T op → nonblocking_true T c → nonblocking_true T (nb_op entry_order map_order cfg op c).
Proof.
  intros Hok Hop Hc. destruct op as [u|n|k|k| |]; simpl in *.
  - by apply update_true.
  - by apply metadata_get_true.
  - by apply directory_get_true.
  - by apply range_get_true.
  - by apply stats_get_true.
  - by apply writer_step_true.
Qed.

Lemma run_nb_true T ops c :
  truth_ok T → Forall (nb_op_ok T) ops → nonblocking_true T c →
  nonblocking_true T (run_nb entry_order map_order cfg ops c).
Proof.
  intros Hok Hops. revert c. induction Hops as [|op ops Hop _ IH]; intros c Hc; simpl; [done|].
  by apply IH, nb_op_true.
Qed.

Lemma open_true T i : persistent_true cfg T i → nonblocking_true T (nonblocking_open i).
Proof.
  intros Hi. split; simpl; [done|apply memory_true_default|apply hot_inv_default, hot_bytes_ok|done|constructor].
Qed.

(** C35: The cache of the client never lies.  Open it on a good persistent cache
    and let lookups, stores of true values, invalidations and steps of the
    writer thread happen in any order: a lookup answers with true metadata of
    the node, a true listing, the bytes of exactly that range of that revision,
    or true statistics, whether they come from memory, from the hot ranges or
    from the disk; and a range that was just read is answered at once, whether
    or not the writer accepted it. *)
Theorem client_cache_answers_true T ops i :
  truth_ok T → persistent_true cfg T i → Forall (nb_op_ok T) ops →
  let c := run_nb entry_order map_order cfg ops (nonblocking_open i) in
  (∀ n m, (nb_metadata_get entry_order cfg n c).1 = Some m → Truth.metadata T m ∧ Metadata.node m = n) ∧
  (∀ k d, (nb_directory_get entry_order cfg k c).1 = Some d → Truth.directory T k d) ∧
  (∀ k d, wf_range k → (nb_range_get entry_order map_order cfg k c).1 = Some d →
     d = range_content (Truth.content T) k) ∧
  (∀ v, (nb_stats_get entry_order cfg c).1 = Some v → Truth.statistics T v) ∧
  (∀ k d, true_range T k d → hot_accepts (hot_range_bytes cfg) k d →
     (nb_range_get entry_order map_order cfg k (nb_range_store_readthrough cfg k d c)).1 = Some d).
Proof.
  intros Hok Hi Hops c. assert (nonblocking_true T c) as Hc by (by apply run_nb_true, open_true).
  split_and!.
  - intros n m. by apply metadata_get_true.
  - intros k d. by apply directory_get_true.
  - intros k d Hwf. by apply range_get_true.
  - intros v. by apply stats_get_true.
  - intros k d [Hwf Hd] Ha. destruct Hc as [_ _ Hh Ht _].
    pose proof (hot_insert_then_get map_order map_order_perm _ hot_bytes_ok (Truth.content T) k d
      (NonBlocking.hot_ranges c) Hh Ht Hwf Ha (Hd (proj1 Ha))) as Hget.
    assert (NonBlocking.hot_ranges (nb_range_store_readthrough cfg k d c) =
      hot_insert (hot_range_bytes cfg) k d (NonBlocking.hot_ranges c)) as He.
    { unfold nb_range_store_readthrough. destruct (_ || _); [done|]. unfold send.
      by destruct (NonBlocking.writer_alive _). }
    unfold nb_range_get, hot_lookup. rewrite He.
    destruct (hot_get map_order k _) as [r h]. simpl in Hget. by subst r.
Qed.
End answers.

(** * What the lookups leave alone *)

Section lookups.
Context {F : Type} `{SF : StateFs F} `{!CacheFs F} `{CC : CacheCodec}.
Context (entry_order : gmap EntryKey DiskEntry → list (EntryKey * DiskEntry)).
Context (map_order : gset RangeKey → list RangeKey).
Context (cfg : CacheConfig).

(** The queue, the writer and the counters are the same. *)
Definition same_work (c c' : NonBlocking F) : Prop :=
  NonBlocking.queue c' = NonBlocking.queue c ∧ NonBlocking.writer c' = NonBlocking.writer c ∧
  NonBlocking.writer_alive c' = NonBlocking.writer_alive c ∧
  NonBlocking.pending_jobs c' = NonBlocking.pending_jobs c ∧
  NonBlocking.pending_store_bytes c' = NonBlocking.pending_store_bytes c ∧
  NonBlocking.next_channel c' = NonBlocking.next_channel c ∧
  NonBlocking.completed c' = NonBlocking.completed c.

Lemma ask_inner_same {A} (m : SM (Store F) CacheError (option A)) c : same_work c (ask_inner m c).2.
Proof. unfold ask_inner. by destruct (ok_flatten m _). Qed.

Lemma hot_lookup_same key c : same_work c (hot_lookup map_order key c).2.
Proof. unfold hot_lookup. by destruct (hot_get _ _ _). Qed.

Lemma same_work_trans c1 c2 c3 : same_work c1 c2 → same_work c2 c3 → same_work c1 c3.
Proof. unfold same_work. intuition congruence. Qed.

Lemma lookup_same op c :
  match op with NbUpdate _ | NbWriter => False | _ => True end →
  same_work c (nb_op entry_order map_order cfg op c).
Proof.
  destruct op as [u|n|k|k| |]; intros H; try destruct H; simpl.
  - unfold nb_metadata_get. destruct (memory_metadata_get _ _); [done|].
    pose proof (ask_inner_same (get_metadata_value entry_order cfg n) c) as Hs.
    destruct (ask_inner _ c) as [[v|] c']; [|done]. by eapply same_work_trans.
  - unfold nb_directory_get. destruct (memory_directory_get _ _); [done|].
    pose proof (ask_inner_same (get_directory_value entry_order cfg k) c) as Hs.
    destruct (ask_inner _ c) as [[v|] c']; [|done]. by eapply same_work_trans.
  - unfold nb_range_get. pose proof (hot_lookup_same k c) as H1.
    destruct (hot_lookup map_order k c) as [[d|] c1]; [done|].
    pose proof (ask_inner_same (load_range entry_order cfg k) c1) as H2.
    destruct (ask_inner _ c1) as [[[k' v]|] c2]; simpl in *.
    + eapply same_work_trans; [exact H1|]. eapply same_work_trans; [exact H2|].
      eapply same_work_trans; [|apply hot_lookup_same]. done.
    + by eapply same_work_trans.
  - unfold nb_stats_get. destruct (MemoryCache.statistics _); [done|].
    pose proof (ask_inner_same (get_filesystem_stats_value entry_order cfg) c) as Hs.
    destruct (ask_inner _ c) as [[v|] c']; [|done]. by eapply same_work_trans.
Qed.
End lookups.

(** * Accounting *)

(** A store that only saves a later fetch, and may be dropped. *)
Definition opportunistic (w : PersistentWrite) : bool :=
  match PersistentWrite.job w with
  | UpMetadata b _ | UpDirectory b _ _ | UpRange b _ _ | UpStats b _ => b
  | _ => false
  end.

(** The payload of a range that was read through. *)
Definition payload (w : PersistentWrite) : Z :=
  match PersistentWrite.job w with UpRange true _ v => zlen v | _ => 0 end.

Fixpoint payloads (l : list PersistentWrite) : Z :=
  match l with [] => 0 | w :: l' => payload w + payloads l' end.
Definition opportunists (l : list PersistentWrite) : Z := zlen (List.filter opportunistic l).

Lemma payloads_app l l' : payloads (l ++ l') = payloads l + payloads l'.
Proof. induction l; simpl; lia. Qed.

Lemma opportunists_app l l' : opportunists (l ++ l') = opportunists l + opportunists l'.
Proof. unfold opportunists. by rewrite List.filter_app, zlen_app. Qed.

Lemma payload_nonneg w : 0 ≤ payload w.
Proof. unfold payload. destruct (PersistentWrite.job w) as [| |[]| | | | | |]; try lia. apply zlen_nonneg. Qed.

Lemma payloads_nonneg l : 0 ≤ payloads l.
Proof. induction l as [|w l IH]; simpl; [lia|]. pose proof (payload_nonneg w). lia. Qed.

Lemma opportunists_le l : opportunists l ≤ zlen l.
Proof. unfold opportunists, zlen. pose proof (List.filter_length_le opportunistic l). lia. Qed.

Section accounting.
Context {F : Type} `{SF : StateFs F} `{!CacheFs F} `{CC : CacheCodec}.
Context (entry_order : gmap EntryKey DiskEntry → list (EntryKey * DiskEntry)).
Context (map_order : gset RangeKey → list RangeKey).
Context (cfg : CacheConfig).
Abbreviation NB := (NonBlocking F).

(** The counters count what has not run, at most [n] jobs, and the bounds of
    opportunistic stores hold. *)
Record accounted (n : Z) (c : NB) : Prop := {
  ac_alive : NonBlocking.writer_alive c = true;
  ac_jobs : NonBlocking.pending_jobs c = zlen (outstanding c);
  ac_most : zlen (outstanding c) ≤ n;
  ac_bytes : NonBlocking.pending_store_bytes c = payloads (outstanding c);
  ac_byte_limit : payloads (outstanding c) ≤ MAX_PENDING_STORE_BYTES;
  ac_job_limit : opportunists (outstanding c) ≤ MAX_PENDING_STORE_JOBS + 1;
  ac_given_back : Forall (λ w, default 0 (PersistentWrite.bytes w) = payload w) (outstanding c)
}.

(** What an operation on the caches leaves alone. *)
Definition same_queue (c c' : NB) : Prop :=
  outstanding c' = outstanding c ∧ NonBlocking.writer_alive c' = NonBlocking.writer_alive c ∧
  NonBlocking.pending_jobs c' = NonBlocking.pending_jobs c ∧
  NonBlocking.pending_store_bytes c' = NonBlocking.pending_store_bytes c.

Lemma accounted_same n c c' : same_queue c c' → accounted n c → accounted n c'.
Proof. intros (E1 & E2 & E3 & E4) []. split; rewrite ?E1, ?E2, ?E3, ?E4; done. Qed.

Lemma accounted_same_work n c c' : same_work c c' → accounted n c → accounted n c'.
Proof.
  intros (E1 & E2 & E3 & E4 & E5 & _). apply accounted_same. unfold same_queue, outstanding. by rewrite E1, E2, E3, E4, E5.
Qed.

Lemma accounted_weaken n m c : accounted n c → n ≤ m → accounted m c.
Proof. intros [] ?. split; try done. lia. Qed.

Lemma wrap64_small x : 0 ≤ x < 2 ^ 64 → wrap64 x = x.
Proof. intros. by apply Z.mod_small. Qed.

Lemma writer_step_accounted n c : n < 2 ^ 64 → accounted n c → accounted n (writer_step entry_order cfg c).
Proof.
  intros Hn Hc. pose proof Hc as [Ha Hj Hm Hb Hbl Hjl Hg]. unfold writer_step, outstanding in *.
  destruct (NonBlocking.writer c) as [|[|w batch] completions] eqn:Ew.
  - destruct (NonBlocking.queue c) as [|w q] eqn:Eq; [done|].
    eapply accounted_same; [|exact Hc]. split; [|done].
    unfold outstanding. cbn [NonBlocking.writer NonBlocking.queue]. by rewrite Ew, Eq, take_drop.
  - eapply accounted_same; [|exact Hc]. split; [|done]. unfold outstanding. simpl. by rewrite Ew.
  - apply Forall_cons in Hg as [Hw Hg]. unfold zlen in *. simpl in *.
    pose proof (payload_nonneg w). pose proof (payloads_nonneg (batch ++ NonBlocking.queue c)).
    unfold MAX_PENDING_STORE_BYTES in *.
    split; unfold outstanding, MAX_PENDING_STORE_BYTES; simpl; unfold zlen; try done; try lia.
    + rewrite Hj, wrap64_small; lia.
    + rewrite Hb, <- Hw. destruct (PersistentWrite.bytes w); simpl in *; [|lia]. rewrite wrap64_small; lia.
    + unfold opportunists, zlen in *. simpl in Hjl. destruct (opportunistic w); simpl in Hjl; lia.
Qed.

Lemma wait_for_accounted n fuel channel c :
  n < 2 ^ 64 → accounted n c → accounted n (wait_for entry_order cfg fuel channel c).
Proof.
  intros Hn. revert c. induction fuel as [|fuel IH]; intros c Hc; simpl; destruct (bool_decide _); try done.
  by apply IH, writer_step_accounted.
Qed.

Lemma outstanding_send w (c : NB) :
  NonBlocking.writer_alive c = true → outstanding (send w c) = outstanding c ++ [w].
Proof. unfold send, outstanding. intros ->. simpl. by rewrite app_assoc. Qed.

(** A job is sent within the limits, its payload already counted. *)
Lemma send_accounted n w c c0 :
  n + 1 < 2 ^ 64 → accounted n c →
  outstanding c0 = outstanding c → NonBlocking.writer_alive c0 = NonBlocking.writer_alive c →
  NonBlocking.pending_jobs c0 = NonBlocking.pending_jobs c →
  NonBlocking.pending_store_bytes c0 = payloads (outstanding c) + payload w →
  payloads (outstanding c) + payload w ≤ MAX_PENDING_STORE_BYTES →
  default 0 (PersistentWrite.bytes w) = payload w →
  (opportunistic w = true → NonBlocking.pending_jobs c ≤ MAX_PENDING_STORE_JOBS) →
  accounted (n + 1) (send w c0).
Proof.
  intros Hn [Ha Hj Hm Hb Hbl Hjl Hg] Ho Ha0 Hj0 Hb0 Hl Hw Hopp. rewrite Ha in Ha0.
  assert (0 ≤ zlen (outstanding c)) as Hz by apply zlen_nonneg.
  split; rewrite ?outstanding_send, ?Ho, ?zlen_app, ?payloads_app, ?opportunists_app by done;
    change (zlen [w]) with 1; cbn [payloads]; rewrite ?Z.add_0_r; [| |lia| |done| |].
  - unfold send. by rewrite Ha0.
  - unfold send. rewrite Ha0. simpl. rewrite Hj0, Hj, wrap64_small; lia.
  - unfold send. by rewrite Ha0.
  - pose proof (opportunists_le (outstanding c)). unfold opportunists at 2, zlen at 1. simpl.
    destruct (opportunistic w); simpl; [|lia]. specialize (Hopp eq_refl). lia.
  - apply Forall_app. split; [done|]. by constructor.
Qed.

Lemma send_plain_accounted n w c :
  n + 1 < 2 ^ 64 → accounted n c → payload w = 0 → PersistentWrite.bytes w = None →
  (opportunistic w = true → NonBlocking.pending_jobs c ≤ MAX_PENDING_STORE_JOBS) →
  accounted (n + 1) (send w c).
Proof.
  intros Hn Hc Hp Hb Ho. eapply send_accounted; try done; rewrite ?Hp, ?Z.add_0_r; [apply Hc|apply Hc|].
  by rewrite Hb.
Qed.

Lemma enqueue_and_wait_accounted n u c :
  n + 1 < 2 ^ 64 → accounted n c → payload (PersistentWrite.Mk u None None) = 0 →
  opportunistic (PersistentWrite.Mk u None None) = false →
  accounted (n + 1) (enqueue_and_wait entry_order cfg u c).
Proof.
  intros Hn Hc Hp Ho. unfold enqueue_and_wait. rewrite (ac_alive n c Hc). apply wait_for_accounted; [done|].
  apply send_plain_accounted; [done| |done|done|].
  - by apply (accounted_same n c).
  - unfold opportunistic in *. simpl in *. by rewrite Ho.
Qed.

Lemma store_behind_accounted n u c :
  n + 1 < 2 ^ 64 → accounted n c → payload (PersistentWrite.Mk u None None) = 0 →
  accounted (n + 1) (enqueue_store_behind u c).
Proof.
  intros Hn Hc Hp. unfold enqueue_store_behind. destruct (_ >? _) eqn:E; [apply (accounted_weaken n); [done|lia]|].
  bool_simpl. by apply send_plain_accounted.
Qed.

Lemma range_store_accounted n k v c :
  n + 1 < 2 ^ 64 → accounted n c → accounted (n + 1) (nb_range_store_readthrough cfg k v c).
Proof.
  intros Hn Hc. unfold nb_range_store_readthrough.
  set (c1 := on_hot _ c). assert (accounted n c1) as Hc1 by (by apply (accounted_same n c)).
  clearbody c1. destruct (_ || _) eqn:E; [apply (accounted_weaken n); [done|lia]|]. bool_simpl.
  pose proof (ac_bytes n c1 Hc1) as Hb. pose proof (ac_byte_limit n c1 Hc1). pose proof (payloads_nonneg (outstanding c1)).
  pose proof (zlen_nonneg v). unfold u64_saturating_add, u64_max, MAX_PENDING_STORE_BYTES in *.
  eapply send_accounted; [done|exact Hc1|done..| | |done|]; simpl; unfold payload, MAX_PENDING_STORE_BYTES; simpl.
  - rewrite Hb, wrap64_small; lia.
  - lia.
  - done.
Qed.

Lemma nb_op_accounted n op c :
  n + 1 < 2 ^ 64 → accounted n c → accounted (n + 1) (nb_op entry_order map_order cfg op c).
Proof.
  intros Hn Hc. assert (∀ op, match op with NbUpdate _ | NbWriter => False | _ => True end →
    accounted (n + 1) (nb_op entry_order map_order cfg op c)) as Hl.
  { intros op' Hop. apply (accounted_weaken n); [|lia]. by eapply accounted_same_work; [apply lookup_same|]. }
  destruct op as [u|m|k|k| |]; try by apply Hl.
  - destruct u as [[] v|[] k v|[] k v|[] v|m|m|m|m|[] m]; simpl;
      try (apply enqueue_and_wait_accounted; [done|by apply (accounted_same n c)|done|done]);
      try (apply store_behind_accounted; [done|by apply (accounted_same n c)|done]).
    + by apply range_store_accounted.
    + apply (accounted_weaken n); [|lia]. by apply (accounted_same n c).
    + apply send_plain_accounted; [done|by apply (accounted_same n c)|done..].
  - apply (accounted_weaken n); [|lia]. apply writer_step_accounted; [lia|done].
Qed.

Lemma run_accounted n ops c :
  n + zlen ops < 2 ^ 64 → accounted n c → accounted (n + zlen ops) (run_nb entry_order map_order cfg ops c).
Proof.
  revert n c. induction ops as [|op ops IH]; intros n c Hn Hc; simpl.
  - by replace (n + zlen []) with n by (unfold zlen; simpl; lia).
  - pose proof (zlen_nonneg ops). assert (zlen (op :: ops) = 1 + zlen ops) as E by (unfold zlen; simpl; lia).
    rewrite E in *. replace (n + (1 + zlen ops)) with (n + 1 + zlen ops) by lia.
    apply IH; [lia|]. apply nb_op_accounted; [lia|done].
Qed.

(** The queue of the writer is bounded and its counters are exact.  After any
    sequence of lookups, updates and steps of the writer, the pending jobs are
    the jobs that have not run; the pending bytes are the bytes of the range
    payloads among them, at most 128 MiB; and at most 1025 of the jobs are
    opportunistic stores, however many blocks were read ahead. *)
Theorem writer_queue_bounded ops i :
  zlen ops < 2 ^ 64 →
  let c := run_nb entry_order map_order cfg ops (nonblocking_open i) in
  NonBlocking.pending_jobs c = zlen (outstanding c) ∧
  NonBlocking.pending_store_bytes c = payloads (outstanding c) ∧
  payloads (outstanding c) ≤ MAX_PENDING_STORE_BYTES ∧
  opportunists (outstanding c) ≤ MAX_PENDING_STORE_JOBS + 1.
Proof.
  intros Hn c. assert (accounted (0 + zlen ops) c) as []; [|done].
  apply run_accounted; [done|]. split; try done.
Qed.
End accounting.

(** * Batches *)

Section batches.
Context {F : Type} `{SF : StateFs F} `{!CacheFs F} `{CC : CacheCodec}.
Context (entry_order : gmap EntryKey DiskEntry → list (EntryKey * DiskEntry)).
Context (map_order : gset RangeKey → list RangeKey).
Context (cfg : CacheConfig).
Abbreviation NB := (NonBlocking F).

(** ** The reference: jobs in the order of the queue, a commit per batch *)

Definition run_jobs (l : list PersistentWrite) (i : Store F) : Store F :=
  fold_left (λ i w, ignored (persist_update entry_order cfg (PersistentWrite.job w)) i) l i.
Definition flush (i : Store F) : Store F := ignored (flush_deferred_commits entry_order cfg) i.
Definition run_batch (l : list PersistentWrite) (i : Store F) : Store F :=
  flush (run_jobs l (ignored begin_deferred_commits i)).

(** At most [fuel] batches; there are no more than jobs. *)
Fixpoint run_batches (fuel : nat) (l : list PersistentWrite) (i : Store F) : Store F :=
  match fuel, l with
  | S fuel', _ :: _ =>
      run_batches fuel' (drop (Z.to_nat WRITER_BATCH_MAX) l) (run_batch (take (Z.to_nat WRITER_BATCH_MAX) l) i)
  | _, _ => i
  end.

(** The persistent cache once the writer has done all its work. *)
Definition drained (c : NB) : Store F :=
  match NonBlocking.writer c with
  | Waiting => run_batches (length (NonBlocking.queue c)) (NonBlocking.queue c) (NonBlocking.inner c)
  | Running batch _ =>
      run_batches (length (NonBlocking.queue c)) (NonBlocking.queue c) (flush (run_jobs batch (NonBlocking.inner c)))
  end.

Lemma batch_max_pos : (0 < Z.to_nat WRITER_BATCH_MAX)%nat.
Proof. unfold WRITER_BATCH_MAX. lia. Qed.

Lemma run_batches_fuel fuel fuel' l i :
  (length l ≤ fuel)%nat → (length l ≤ fuel')%nat → run_batches fuel l i = run_batches fuel' l i.
Proof.
  pose proof batch_max_pos.
  revert fuel' l i. induction fuel as [|fuel IH]; intros fuel' l i Hl Hl'.
  - destruct l; simpl in *; [by destruct fuel'|lia].
  - destruct l as [|w l]; [by destruct fuel'|]. destruct fuel' as [|fuel']; simpl in Hl'; [lia|].
    cbn [run_batches]. apply IH; rewrite length_drop; simpl in *; lia.
Qed.

Lemma writer_step_drained c : drained (writer_step entry_order cfg c) = drained c.
Proof.
  unfold writer_step. destruct (NonBlocking.writer c) as [|[|w batch] completions] eqn:Ew.
  - destruct (NonBlocking.queue c) as [|w q] eqn:Eq; [done|]. unfold drained.
    rewrite Ew, Eq. cbn [NonBlocking.writer NonBlocking.queue NonBlocking.inner length run_batches].
    apply run_batches_fuel; [done|]. pose proof batch_max_pos. rewrite length_drop. simpl. lia.
  - unfold drained. by rewrite Ew.
  - unfold drained. by rewrite Ew.
Qed.

(** ** Waiting *)

(** The job with this completion is the last one that has not run, or its batch
    is about to be flushed. *)
Definition awaited (channel : Z) (c : NB) : Prop :=
  channel ∉ NonBlocking.completed c ∧
  ((∃ l w, outstanding c = l ++ [w] ∧ PersistentWrite.done w = Some channel ∧
      Forall (λ w, PersistentWrite.done w ≠ Some channel) l ∧
      ∀ batch completions, NonBlocking.writer c = Running batch completions → channel ∉ completions) ∨
   (NonBlocking.queue c = [] ∧
      ∃ completions, NonBlocking.writer c = Running [] completions ∧ channel ∈ completions)).

(** Nothing is left to do. *)
Definition idle (c : NB) : Prop := NonBlocking.writer c = Waiting ∧ NonBlocking.queue c = [].

Lemma writer_step_awaited channel c :
  awaited channel c →
  (writer_work (writer_step entry_order cfg c) < writer_work c)%nat ∧
  (awaited channel (writer_step entry_order cfg c) ∨
   idle (writer_step entry_order cfg c) ∧ channel ∈ NonBlocking.completed (writer_step entry_order cfg c)).
Proof.
  intros [Hnew Hc]. unfold writer_step, writer_work, awaited, outstanding, idle in *.
  destruct (NonBlocking.writer c) as [|[|w batch] completions] eqn:Ew.
  - destruct Hc as [(l & w & Hout & Hd & Hl & Hcomp)|(_ & ? & [=] & _)]. cbn [app] in Hout.
    destruct (NonBlocking.queue c) as [|w0 q] eqn:Eq; [by destruct l|].
    cbn [NonBlocking.writer NonBlocking.queue NonBlocking.completed]. split.
    + pose proof batch_max_pos. rewrite length_drop, length_take. cbn [length]. lia.
    + left. split; [done|]. left. exists l, w. rewrite take_drop. split_and!; try done.
      intros ? ? [= <- <-]. apply not_elem_of_nil.
  - cbn [NonBlocking.writer NonBlocking.queue NonBlocking.completed]. split; [simpl; lia|].
    destruct Hc as [(l & w & Hout & Hd & Hl & Hcomp)|(Hq & ? & [= <-] & Hin)].
    + left. split; [|left; by exists l, w]. apply not_elem_of_app. split; [done|]. by eapply Hcomp.
    + right. split; [done|]. set_solver.
  - cbn [NonBlocking.writer NonBlocking.queue NonBlocking.completed run_job]. split; [simpl; lia|]. left.
    split; [done|]. destruct Hc as [(l & w' & Hout & Hd & Hl & Hcomp)|(_ & ? & [=] & _)].
    specialize (Hcomp _ _ eq_refl).
    destruct l as [|w1 l]; simpl in Hout; injection Hout as -> Hout.
    + right. apply app_eq_nil in Hout as [-> ->]. split; [done|]. eexists. split; [done|]. rewrite Hd. set_solver.
    + left. exists l, w'. apply Forall_cons in Hl as [Hw1 Hl]. split_and!; try done.
      intros ? ? [= <- <-]. destruct (PersistentWrite.done w1); [|done]. set_solver.
Qed.

Lemma wait_for_finishes fuel channel c :
  awaited channel c → (writer_work c ≤ fuel)%nat →
  idle (wait_for entry_order cfg fuel channel c) ∧
  channel ∈ NonBlocking.completed (wait_for entry_order cfg fuel channel c) ∧
  NonBlocking.inner (wait_for entry_order cfg fuel channel c) = drained c.
Proof.
  revert c. induction fuel as [|fuel IH]; intros c Hc Hf; destruct (writer_step_awaited channel c Hc) as [Hw Hs]; [lia|].
  simpl. rewrite bool_decide_false by apply Hc. destruct Hs as [Hs|[Hidle Hin]].
  - destruct (IH _ Hs ltac:(lia)) as (? & ? & ->). split_and!; try done. apply writer_step_drained.
  - assert (wait_for entry_order cfg fuel channel (writer_step entry_order cfg c) = writer_step entry_order cfg c) as ->.
    { by destruct fuel; simpl; rewrite bool_decide_true. }
    split_and!; try done. rewrite <- writer_step_drained. unfold drained.
    destruct Hidle as [-> ->]. done.
Qed.

(** ** Completion channels *)

Definition channels (c : NB) : list Z :=
  NonBlocking.completed c ++
  match NonBlocking.writer c with Waiting => [] | Running _ completions => completions end ++
  omap PersistentWrite.done (outstanding c).

(** Every channel in use was given out, and the thread runs. *)
Definition channels_ok (c : NB) : Prop :=
  NonBlocking.writer_alive c = true ∧ Forall (λ d, d < NonBlocking.next_channel c) (channels c).

Lemma writer_step_channels c : channels_ok c → channels_ok (writer_step entry_order cfg c).
Proof.
  intros [Ha Hc]. unfold writer_step, channels_ok, channels, outstanding in *.
  destruct (NonBlocking.writer c) as [|[|w batch] completions] eqn:Ew.
  - destruct (NonBlocking.queue c) as [|w q] eqn:Eq; [by rewrite Ew, Eq|].
    cbn [NonBlocking.writer NonBlocking.queue NonBlocking.completed NonBlocking.next_channel NonBlocking.writer_alive].
    by rewrite take_drop.
  - cbn [NonBlocking.writer NonBlocking.queue NonBlocking.completed NonBlocking.next_channel NonBlocking.writer_alive].
    by rewrite <- app_assoc.
  - cbn [NonBlocking.writer NonBlocking.queue NonBlocking.completed NonBlocking.next_channel NonBlocking.writer_alive run_job].
    split; [done|]. simpl in Hc. destruct (PersistentWrite.done w); [|done]. by rewrite <- (app_assoc completions).
Qed.

Lemma wait_for_channels fuel channel c : channels_ok c → channels_ok (wait_for entry_order cfg fuel channel c).
Proof.
  revert c. induction fuel as [|fuel IH]; intros c Hc; simpl; destruct (bool_decide _); try done.
  by apply IH, writer_step_channels.
Qed.

Lemma send_channels w c :
  channels_ok c → (∀ d, PersistentWrite.done w = Some d → d < NonBlocking.next_channel c) → channels_ok (send w c).
Proof.
  intros [Ha Hc] Hw. unfold channels_ok, channels. rewrite outstanding_send by done. unfold send. rewrite Ha. simpl.
  split; [done|]. rewrite omap_app, !app_assoc. apply Forall_app. rewrite <- !app_assoc. split; [exact Hc|].
  simpl. destruct (PersistentWrite.done w); constructor; [by apply Hw|constructor].
Qed.

Lemma new_channel_ok c : channels_ok c → channels_ok (new_channel c).
Proof. intros [Ha Hc]. split; [done|]. eapply Forall_impl; [exact Hc|]. simpl. intros. lia. Qed.

Lemma channels_same_work c c' : same_work c c' → channels_ok c → channels_ok c'.
Proof.
  intros (E1 & E2 & E3 & _ & _ & E6 & E7) Hc. unfold channels_ok, channels, outstanding in *.
  by rewrite E1, E2, E3, E6, E7.
Qed.

Lemma enqueue_and_wait_channels u c : channels_ok c → channels_ok (enqueue_and_wait entry_order cfg u c).
Proof.
  intros Hc. unfold enqueue_and_wait. rewrite (proj1 Hc). apply wait_for_channels, send_channels.
  - by apply new_channel_ok.
  - simpl. intros d [= <-]. lia.
Qed.

Lemma nb_op_channels op c : channels_ok c → channels_ok (nb_op entry_order map_order cfg op c).
Proof.
  intros Hc. assert (∀ u c', same_work c c' → channels_ok (enqueue_and_wait entry_order cfg u c')) as Hwait.
  { intros u c' Hs. by apply enqueue_and_wait_channels, (channels_same_work c). }
  assert (∀ u c', same_work c c' → channels_ok (enqueue_store_behind u c')) as Hbehind.
  { intros u c' Hs. apply (channels_same_work c c') in Hc; [|done]. unfold enqueue_store_behind.
    destruct (_ >? _); [done|]. by apply send_channels. }
  assert (∀ op, match op with NbUpdate _ | NbWriter => False | _ => True end →
    channels_ok (nb_op entry_order map_order cfg op c)) as Hl.
  { intros op' Hop. eapply channels_same_work; [by apply lookup_same|done]. }
  destruct op as [u|m|k|k| |]; try by apply Hl.
  - destruct u as [[] v|[] k v|[] k v|[] v|m|m|m|m|[] m]; simpl; try (by apply Hwait); try (by apply Hbehind).
    + unfold nb_range_store_readthrough. destruct (_ || _); [by eapply channels_same_work|].
      apply send_channels; [|done]. destruct Hc. done.
    + by eapply channels_same_work.
    + apply send_channels; [|done]. by eapply channels_same_work.
  - by apply writer_step_channels.
Qed.

Lemma run_channels ops c : channels_ok c → channels_ok (run_nb entry_order map_order cfg ops c).
Proof. revert c. induction ops as [|op ops IH]; intros c Hc; simpl; [done|]. by apply IH, nb_op_channels. Qed.

Lemma awaited_send u c :
  channels_ok c →
  awaited (NonBlocking.next_channel c)
    (send (PersistentWrite.Mk u None (Some (NonBlocking.next_channel c))) (new_channel c)).
Proof.
  intros [Ha Hc]. unfold channels in Hc. rewrite !Forall_app in Hc. destruct Hc as (Hc1 & Hc2 & Hc3).
  set (w := PersistentWrite.Mk _ _ _).
  assert (∀ l, Forall (λ d, d < NonBlocking.next_channel c) l → NonBlocking.next_channel c ∉ l) as Hfresh.
  { intros l Hl Hin. rewrite Forall_forall in Hl. specialize (Hl _ Hin). lia. }
  split.
  { unfold send. simpl. rewrite Ha. by apply Hfresh. }
  left. exists (outstanding c), w. split_and!.
  - by rewrite outstanding_send.
  - done.
  - apply Forall_forall. intros w' Hw' Hd. eapply Hfresh; [exact Hc3|]. apply list_elem_of_omap. by exists w'.
  - intros batch completions. unfold send. simpl. rewrite Ha. simpl. intros E. rewrite E in Hc2. by apply Hfresh.
Qed.

(** A waited update always completes, and everything queued runs in order.
    Whatever was queued before and whatever the writer was doing, an update that
    waits returns with its completion sent, the queue empty and the writer idle;
    and the persistent cache is then what running all queued jobs in the order
    of the queue gives, in batches of at most 256 with a flush after each. *)
Theorem waited_updates_complete ops i u :
  let c := run_nb entry_order map_order cfg ops (nonblocking_open i) in
  let c' := enqueue_and_wait entry_order cfg u c in
  let w := PersistentWrite.Mk u None (Some (NonBlocking.next_channel c)) in
  NonBlocking.next_channel c ∈ NonBlocking.completed c' ∧ idle c' ∧
  NonBlocking.inner c' =
    match NonBlocking.writer c with
    | Waiting => run_batches (S (length (NonBlocking.queue c))) (NonBlocking.queue c ++ [w]) (NonBlocking.inner c)
    | Running batch _ => run_batches (S (length (NonBlocking.queue c))) (NonBlocking.queue c ++ [w])
        (flush (run_jobs batch (NonBlocking.inner c)))
    end.
Proof.
  intros c c' w. assert (channels_ok c) as Hc by (by apply run_channels).
  destruct (wait_for_finishes _ _ _ (awaited_send u c Hc) (le_n _)) as (Hi & Hin & Hd).
  unfold c', enqueue_and_wait. rewrite (proj1 Hc). split_and!; [done|done|]. rewrite Hd.
  unfold drained, send. simpl. rewrite (proj1 Hc). simpl. rewrite length_app, Nat.add_comm. simpl. done.
Qed.
End batches.
