(* ===== verification/CacheBatches.v ===== *)
(** Group commits of the cache writer: inside a batch no job writes the manifest,
    and a flush writes it at most once. *)

From S2P Require Import Prelude Protocol Common StateFiles CacheRanges FsCache CacheStore CacheWriter CacheWriterFacts.

Section batch_writes.
Context {F : Type} `{SF : StateFs F} `{!CacheFs F} `{CC : CacheCodec}.
Context (entry_order : gmap EntryKey DiskEntry → list (EntryKey * DiskEntry)).
Context (map_order : gset RangeKey → list RangeKey).
Context (cfg : CacheConfig).

(** [n] manifests have been written, and commits are deferred or not. *)
Definition written (b : bool) (n : Z) (s : Store F) : Prop :=
  DeferredCommits.active (deferred s) = b ∧ manifest_writes s = n.

(** ** Calls that leave both alone *)

Ltac quiet_step := first [solve [auto with sm] | apply sm_keeps_bind; [|intros ?] | apply sm_keeps_try | case_match].
Ltac quiet_tac := repeat quiet_step.

Section quiet.
Context (b : bool) (n : Z).
Abbreviation quiet m := (sm_keeps (written b n) m).

Lemma q_try {A} (call : F → result IoError A * F) : quiet (cd_try call).
Proof. intros s Hs. unfold cd_try. by destruct (call (disk s)). Qed.

Lemma q_ask {A} (call : F → result IoError A) : quiet (cd_ask call).
Proof. by intros s. Qed.

Lemma q_check_file m : quiet (check_file m).
Proof. by intros s. Qed.

Lemma q_sequence : quiet next_sequence.
Proof. by intros s. Qed.

Lemma q_touch keys : quiet (touch keys).
Proof. by intros s. Qed.

#[local] Hint Resolve q_try q_ask q_check_file q_sequence q_touch : sm.

Lemma q_do {A} (call : F → result IoError A * F) : quiet (cd_do call).
Proof. unfold cd_do. auto with sm. Qed.

Lemma q_ignore {A} (call : F → result IoError A * F) : quiet (cd_ignore call).
Proof. unfold cd_ignore. auto with sm. Qed.
#[local] Hint Resolve q_do q_ignore : sm.

Lemma q_open_private p : quiet (open_private_file p).
Proof. unfold open_private_file. quiet_tac. Qed.

Lemma q_finish_write dir p q x : quiet (finish_write dir p q x).
Proof. unfold finish_write, sync_directory. quiet_tac. Qed.

Lemma q_write_attempts m last dir p x : quiet (write_attempts m last dir p x).
Proof.
  revert last. induction m as [|m IH]; intros last; cbn [write_attempts]; [auto with sm|].
  quiet_tac.
Qed.

Lemma q_write_private p x : quiet (write_private_atomic p x).
Proof. unfold write_private_atomic. apply sm_keeps_bind; [auto with sm|]. intros dir. apply q_write_attempts. Qed.

Lemma q_remove_cache_file p : quiet (remove_cache_file p).
Proof. unfold remove_cache_file. quiet_tac. Qed.

Lemma q_remove_unreferenced p names : quiet (remove_unreferenced_files entry_order cfg p names).
Proof.
  induction names as [|name names IH]; cbn [remove_unreferenced_files]; [auto with sm|].
  apply sm_keeps_bind; [|intros _; apply IH]. case_match; [auto with sm|apply q_remove_cache_file].
Qed.

Lemma q_read_disk_entry e : quiet (read_disk_entry cfg e).
Proof. unfold read_disk_entry. quiet_tac; apply q_open_private. Qed.
End quiet.

#[local] Hint Resolve q_write_private q_remove_unreferenced q_read_disk_entry q_touch : sm.

(** ** Jobs of a batch *)

Section deferring.
Context (n : Z).
Abbreviation quiet m := (sm_keeps (written true n) m).

Lemma q_commit p : quiet (commit_state entry_order cfg p).
Proof. intros s [Ha Hn]. unfold commit_state. sm_unfold. rewrite Ha. by split. Qed.
#[local] Hint Resolve q_commit : sm.

Lemma q_remove_keys keys : quiet (remove_keys_locked entry_order cfg keys).
Proof. destruct keys; unfold remove_keys_locked; quiet_tac. Qed.

Lemma q_remove_matching f : quiet (remove_matching entry_order cfg f).
Proof. unfold remove_matching. apply sm_keeps_bind; [auto with sm|]. intros p. apply q_remove_keys. Qed.

Lemma q_snapshots node l : quiet (snapshots_mentioning cfg node l).
Proof. induction l as [|[k e] l IH]; cbn [snapshots_mentioning]; [auto with sm|]. quiet_tac; apply IH. Qed.

Lemma q_write_payloads l names : quiet (write_payloads entry_order cfg l names).
Proof. revert names. induction l as [|e l IH]; intros names; cbn [write_payloads]; [auto with sm|]. quiet_tac; apply IH. Qed.

Lemma q_insert_entries l : quiet (insert_entries entry_order cfg l).
Proof. unfold insert_entries. quiet_tac; auto using q_write_payloads, q_commit with sm. Qed.

Lemma q_snapshot_metadata (l : list DirectoryEntry) : quiet (snapshot_metadata l).
Proof. induction l as [|e l IH]; cbn [snapshot_metadata]; unfold to_json; [auto with sm|]. quiet_tac; apply IH. Qed.

#[local] Hint Resolve q_remove_matching q_insert_entries q_snapshot_metadata q_snapshots q_remove_keys : sm.

Lemma q_update u : quiet (persist_update entry_order cfg u).
Proof.
  destruct u as [rt v|[] k v|rt k v|rt v|m|m|m|m|mem m]; cbn [persist_update];
    unfold insert_metadata_value, insert_directory_value, insert_directory_snapshot_value, insert_range_value,
      insert_filesystem_stats_value, invalidate_metadata, invalidate_directories, invalidate_ranges,
      invalidate_directories_containing, invalidate_node, insert_entry, to_json; quiet_tac.
Qed.

Lemma q_jobs l i : written true n i → written true n (run_jobs entry_order cfg l i).
Proof. revert i. induction l as [|w l IH]; intros i Hi; simpl; [done|]. by apply IH, q_update. Qed.
End deferring.

(** ** Flushes *)

(** A manifest write counts, when it succeeds. *)
Lemma write_manifest_counts b n p s :
  written b n s → 0 ≤ n < u64_max →
  ∃ m, written b m (write_manifest entry_order cfg p s).2 ∧ n ≤ m ≤ n + 1.
Proof.
  intros Hs Hn. unfold write_manifest, sm_lift, mbind, sm_bind, map_err.
  destruct (manifest_to_json _) as [x|]; [|exists n; split; [done|lia]].
  destruct (_ >? _); [exists n; split; [done|lia]|].
  pose proof (q_write_private b n (CacheConfig.directory cfg ++ [MANIFEST_FILE]) x s Hs) as Hw.
  destruct (write_private_atomic _ _ s) as [[u|e] s']; simpl in *; [|exists n; split; [done|lia]].
  destruct Hw as [Ha Hm]. exists (n + 1). split; [|lia]. split; simpl; [done|].
  rewrite Hm, Z.mod_small; unfold u64_max in *; lia.
Qed.

Lemma flush_counts n s :
  written true n s → 0 ≤ n < u64_max → ∃ m, written false m (flush entry_order cfg s) ∧ n ≤ m ≤ n + 1.
Proof.
  intros [Ha Hw] Hn. unfold flush, ignored, flush_deferred_commits. sm_unfold.
  destruct (negb _); [by exists n; split; [|lia]|].
  set (s1 := set_deferred _ s). destruct (write_manifest_counts false n (state s) s1 ltac:(done) Hn) as (m & Hm & Hle).
  destruct (write_manifest entry_order cfg (state s) s1) as [[u|e] s2]; simpl in *; [|by exists m].
  exists m. split; [|done]. set (s3 := set_deferred _ s2).
  assert (written false m s3) as H3 by (by destruct Hm).
  pose proof (q_remove_unreferenced false m (state s) (DeferredCommits.pending_removals (deferred s)) s3 H3) as H4.
  destruct (remove_unreferenced_files entry_order cfg _ _ s3) as [[v|e] s4]; simpl in *; [|done].
  by apply (q_do false m (λ f, sync_directory_file f (CacheConfig.directory cfg)) s4).
Qed.

(** The number of batches of [k] jobs. *)
Definition batch_count (k : Z) : Z := (k + WRITER_BATCH_MAX - 1) / WRITER_BATCH_MAX.

Lemma batch_count_drop (l : list PersistentWrite) :
  l ≠ [] → batch_count (zlen (drop (Z.to_nat WRITER_BATCH_MAX) l)) + 1 ≤ batch_count (zlen l).
Proof.
  intros Hl. unfold batch_count, zlen. rewrite length_drop. unfold WRITER_BATCH_MAX.
  assert (0 < length l)%nat by (destruct l; [done|simpl; lia]).
  destruct (Nat.le_gt_cases (length l) (Z.to_nat 256)).
  - replace (length l - Z.to_nat 256)%nat with 0%nat by lia. rewrite Z.div_small by lia.
    apply Z.div_le_lower_bound; lia.
  - rewrite Nat2Z.inj_sub, Z2Nat.id by lia. rewrite <- Z.div_add by lia. apply Z.div_le_mono; lia.
Qed.

Lemma batches_count fuel l i n :
  written false n i → 0 ≤ n → n + batch_count (zlen l) ≤ u64_max →
  ∃ m, written false m (run_batches entry_order cfg fuel l i) ∧ n ≤ m ≤ n + batch_count (zlen l).
Proof.
  revert l i n. induction fuel as [|fuel IH]; intros l i n Hi Hn Hmax;
    (assert (0 ≤ batch_count (zlen l)) by (unfold batch_count, WRITER_BATCH_MAX; pose proof (zlen_nonneg l);
       apply Z.div_pos; lia)).
  { exists n. split; [done|lia]. }
  destruct l as [|w l]; [exists n; split; [done|lia]|].
  pose proof (batch_count_drop (w :: l) ltac:(done)) as Hd.
  assert (0 ≤ batch_count (zlen (drop (Z.to_nat WRITER_BATCH_MAX) (w :: l)))) as H0.
  { unfold batch_count, WRITER_BATCH_MAX. pose proof (zlen_nonneg (drop (Z.to_nat 256) (w :: l))). apply Z.div_pos; lia. }
  cbn [run_batches].
  destruct (flush_counts n (run_jobs entry_order cfg (take (Z.to_nat WRITER_BATCH_MAX) (w :: l))
    (ignored begin_deferred_commits i))) as (m & Hm & Hle).
  { apply q_jobs. by destruct Hi. }
  { lia. }
  destruct (IH (drop (Z.to_nat WRITER_BATCH_MAX) (w :: l)) _ m Hm ltac:(lia) ltac:(lia)) as (m' & Hm' & Hle').
  exists m'. split; [exact Hm'|lia].
Qed.

(** The backlog of the writer costs one manifest write per batch.  From an
    idle writer with [k - 1] queued updates, an update that waits leaves the
    count of written manifests at most one higher for every 256 of the [k]
    updates, whatever the updates do and whichever calls of the disk fail. *)
Theorem one_manifest_per_batch ops i u n :
  let c := run_nb entry_order map_order cfg ops (nonblocking_open i) in
  NonBlocking.writer c = Waiting → written false n (NonBlocking.inner c) → 0 ≤ n →
  let k := zlen (NonBlocking.queue c) + 1 in
  n + batch_count k ≤ u64_max →
  ∃ m, written false m (NonBlocking.inner (enqueue_and_wait entry_order cfg u c)) ∧ n ≤ m ≤ n + batch_count k.
Proof.
  intros c Hw Hi Hn k Hk.
  assert (channels_ok c) as Hc by (by apply run_channels).
  destruct (wait_for_finishes entry_order cfg _ _ _ (awaited_send u c Hc) (le_n _)) as (_ & _ & Hd).
  unfold enqueue_and_wait. rewrite (proj1 Hc), Hd. unfold drained, send. simpl. rewrite (proj1 Hc), Hw. simpl.
  set (w := PersistentWrite.Mk _ _ _). set (l := NonBlocking.queue c ++ [w]).
  assert (zlen l = k) as Hl by (unfold l, k; by rewrite zlen_app).
  rewrite <- Hl in *. by apply batches_count.
Qed.
End batch_writes.
