(* ===== verification/CacheWriterExample.v ===== *)
(** Concrete runs of the client's cache on the disk of [CacheExample]. *)

From S2P Require Import Prelude Protocol Common StateFiles CacheRanges FsCache CacheStore CacheStoreFacts CacheCrash CacheExample CacheWriter CacheWriterFacts CacheBatches.

Module WriterExample.
Import CacheExample.

Definition fresh : Store MemState.Mem :=
  MkStore blank 0 PersistentState.default DeferredCommits.default 0.

(** A read-through range, a waited metadata store, an invalidation whose job is
    still queued, and a second range. *)
Definition ops : list NbOp :=
  [NbUpdate (UpRange true (chunk 0) (chunk_bytes 0)); NbUpdate (UpMetadata false notes); NbMetadata (MkNodeId 1);
   NbUpdate (UpForgetNode false (MkNodeId 1)); NbUpdate (UpRange true (chunk 8) (chunk_bytes 8))].

Definition reached : NonBlocking MemState.Mem := run_nb elements_order elements place ops (nonblocking_open fresh).

Lemma fresh_true : persistent_true place facts fresh.
Proof.
  split; [apply no_collision_facts|]. split; [apply blank_ok|]. by apply default_bounded.
Qed.

Lemma facts_ok : truth_ok facts.
Proof. by intros ? ? ? []. Qed.

Lemma ops_ok : Forall (nb_op_ok facts) ops.
Proof. repeat constructor; simpl; try done; by apply true_chunk. Qed.
End WriterExample.

(** The range that was just read through comes from the hot ranges. *)
Lemma client_cache_answers_true_witness :
  (nb_range_get CacheExample.elements_order elements CacheExample.place (CacheExample.chunk 16)
    (nb_range_store_readthrough CacheExample.place (CacheExample.chunk 16) (CacheExample.chunk_bytes 16)
       WriterExample.reached)).1 = Some (CacheExample.chunk_bytes 16).
Proof.
  unfold WriterExample.reached.
  apply (client_cache_answers_true CacheExample.elements_order (λ m, reflexivity _) elements (λ s, reflexivity _)
    CacheExample.place CacheExample.place_maximum CacheExample.facts WriterExample.ops WriterExample.fresh).
  - apply WriterExample.facts_ok.
  - apply WriterExample.fresh_true.
  - apply WriterExample.ops_ok.
  - by apply CacheExample.true_chunk.
  - by vm_compute.
Defined.

Lemma writer_queue_bounded_witness :
  NonBlocking.pending_jobs WriterExample.reached = 2 ∧
  NonBlocking.pending_store_bytes WriterExample.reached = 8 ∧
  NonBlocking.pending_jobs WriterExample.reached = zlen (outstanding WriterExample.reached).
Proof.
  split; [by vm_compute|]. split; [by vm_compute|]. unfold WriterExample.reached.
  refine (proj1 (writer_queue_bounded CacheExample.elements_order elements CacheExample.place WriterExample.ops
    WriterExample.fresh _)). by vm_compute.
Defined.

(** Three updates, one of them queued by an invalidation, in one batch. *)
Lemma one_manifest_per_batch_witness :
  ∃ n, written false n (NonBlocking.inner
      (enqueue_and_wait CacheExample.elements_order CacheExample.place (UpMetadata false CacheExample.notes)
         WriterExample.reached)) ∧ 1 ≤ n ≤ 2.
Proof.
  unfold WriterExample.reached.
  refine (one_manifest_per_batch CacheExample.elements_order elements CacheExample.place WriterExample.ops
    WriterExample.fresh (UpMetadata false CacheExample.notes) 1 _ _ _ _); by vm_compute.
Defined.
