(* ===== verification/Prefetch.v ===== *)
(** Read-ahead of the cached client ([crates/client-core/src/cached.rs]): the
    per-handle controller that follows sequential streams and sizes their
    windows, and the pools that bound speculative fetches of the whole mount.

    Durations are nanoseconds; debug output is left out. *)

From S2P Require Import Prelude Protocol CacheRanges.

(** * Constants *)

Definition SMALL_READ_AHEAD_BLOCK_SIZE : Z := 1024 * 1024.
Definition SMALL_READ_THRESHOLD : Z := 1024 * 1024.
Definition DEFAULT_READ_AHEAD_MAX_BYTES : Z := 64 * 1024 * 1024.
Definition SEQUENTIAL_TRIGGER : Z := 2.
Definition PRIME_WINDOW_BLOCKS : Z := 2.
Definition INITIAL_ACTIVE_WINDOW_BLOCKS : Z := 4.
Definition SEQUENTIAL_SLACK_BLOCKS : Z := 1.
Definition MAX_PREFETCH_STREAMS : Z := 4.
Definition DEMAND_STALL_FLOOR : Z := 10 * 1000 * 1000.
Definition PREFETCH_PERMIT_UNIT : Z := 64 * 1024.
Definition SCHEDULE_BURST_BLOCKS : Z := 8.
Definition PREFETCH_MAX_INFLIGHT_BYTES : Z := 32 * 1024 * 1024.
Definition PREFETCH_MAX_CONCURRENT_FETCHES : Z := 8.
Definition MAX_CLIENT_READ_SIZE : Z := 16 * 1024 * 1024.

Module CachePolicy.
Record CachePolicy := Mk { block_size : Z; read_ahead_max_bytes : Z }.
Definition default : CachePolicy := Mk MAX_CLIENT_READ_SIZE DEFAULT_READ_AHEAD_MAX_BYTES.
End CachePolicy.
Abbreviation CachePolicy := CachePolicy.CachePolicy.

(** * The controller of a handle *)

Module PrefetchStream.
Record PrefetchStream := Mk {
  id : Z;
  last_touch : Z;
  active : bool;
  next_expected : Z;
  run : Z;
  cursor : Z;
  window_blocks : Z;
  inflight : Z;
  bytes_since_growth : Z
}.
End PrefetchStream.
Abbreviation PrefetchStream := PrefetchStream.PrefetchStream.

Module SequentialPrefetcher.
Record SequentialPrefetcher := Mk {
  revision : Z;
  next_stream_id : Z;
  touch_counter : Z;
  streams : list PrefetchStream
}.
Definition default : SequentialPrefetcher := Mk 0 0 0 [].
End SequentialPrefetcher.
Abbreviation SequentialPrefetcher := SequentialPrefetcher.SequentialPrefetcher.

Definition wrapping_add (a b : Z) : Z := (a + b) mod 2 ^ 64.
Definition abs_diff (a b : Z) : Z := Z.abs (a - b).
(** [u64::div_ceil]. *)
Definition div_ceil (a b : Z) : Z := (a + b - 1) / b.

(** [Vec::swap_remove]: the last element takes the place of the removed one. *)
Definition swap_remove {A} (i : nat) (l : list A) : list A :=
  match last l with
  | None => l
  | Some x => if bool_decide (S i = length l) then removelast l else removelast (<[i := x]> l)
  end.

(** [Iterator::enumerate]. *)
Definition enumerate {A} (l : list A) : list (nat * A) := zip (seq 0 (length l)) l.

(** The loop of [schedule]; each iteration spends one unit of the budget. *)
Fixpoint schedule_loop (budget : nat) (file : RevisionKey) (size block_size target cursor : Z)
    : list RangeKey * Z :=
  match budget with
  | O => ([], cursor)
  | S budget' =>
      if cursor <? target then
        let length := Z.min block_size (size - cursor) in
        if length =? 0 then ([], cursor)
        else
          let '(blocks, cursor') :=
            schedule_loop budget' file size block_size target (u64_saturating_add cursor block_size) in
          (RangeKey.Mk file cursor length :: blocks, cursor')
      else ([], cursor)
  end.

Definition set_cursor (s : PrefetchStream) (cursor inflight : Z) : PrefetchStream :=
  PrefetchStream.Mk (PrefetchStream.id s) (PrefetchStream.last_touch s) (PrefetchStream.active s)
    (PrefetchStream.next_expected s) (PrefetchStream.run s) cursor (PrefetchStream.window_blocks s) inflight
    (PrefetchStream.bytes_since_growth s).

Definition set_window (s : PrefetchStream) (window : Z) : PrefetchStream :=
  PrefetchStream.Mk (PrefetchStream.id s) (PrefetchStream.last_touch s) (PrefetchStream.active s)
    (PrefetchStream.next_expected s) (PrefetchStream.run s) (PrefetchStream.cursor s) window
    (PrefetchStream.inflight s) (PrefetchStream.bytes_since_growth s).

(** The end of the block in which the read ends, within the file. *)
Definition demand_block_end (read_end size block_size : Z) : Z :=
  Z.min (u64_saturating_mul (div_ceil read_end block_size) block_size) size.

Definition schedule (s : PrefetchStream) (node : NodeId) (revision read_end size block_size cap_blocks : Z)
    : list RangeKey * PrefetchStream :=
  let window := Z.min (PrefetchStream.window_blocks s) cap_blocks in
  if (window =? 0) || (size =? 0) then ([], s)
  else
    let demand_end := demand_block_end read_end size block_size in
    let cursor := Z.max (PrefetchStream.cursor s) demand_end in
    let target := Z.min (u64_saturating_add demand_end (u64_saturating_mul window block_size)) size in
    let budget := Z.min (u64_saturating_sub window (PrefetchStream.inflight s)) SCHEDULE_BURST_BLOCKS in
    let '(blocks, cursor) :=
      schedule_loop (Z.to_nat budget) (RevisionKey.Mk node revision) size block_size target cursor in
    (blocks, set_cursor s cursor (u64_saturating_add (PrefetchStream.inflight s) (zlen blocks))).

(** The stream a read continues: the nearest one within the slack. *)
Definition matched_stream (offset slack : Z) (streams : list PrefetchStream) : option nat :=
  fst <$> min_by_key (λ p, abs_diff (PrefetchStream.next_expected p.2) offset)
    (List.filter (λ p, (offset <=? u64_saturating_add (PrefetchStream.next_expected p.2) slack) &&
                       (PrefetchStream.next_expected p.2 <=? u64_saturating_add offset slack))
       (enumerate streams)).

(** Make room for a stream. *)
Definition recycle (streams : list PrefetchStream) : list PrefetchStream :=
  if MAX_PREFETCH_STREAMS <=? zlen streams then
    match min_by_key (λ p, PrefetchStream.last_touch p.2) (enumerate streams) with
    | Some (oldest, _) => swap_remove oldest streams
    | None => streams
    end
  else streams.

(** A matched read: the stream with its run, window and pacing updated. *)
Definition continue_stream (s : PrefetchStream) (touch read_end returned elapsed block_size cap_blocks : Z)
    : PrefetchStream :=
  let active := PrefetchStream.active s in
  let window := if active then PrefetchStream.window_blocks s else Z.min INITIAL_ACTIVE_WINDOW_BLOCKS cap_blocks in
  let cursor := if active then PrefetchStream.cursor s else Z.max (PrefetchStream.cursor s) read_end in
  let delivered := u64_saturating_add (if active then PrefetchStream.bytes_since_growth s else 0) returned in
  let grow := (DEMAND_STALL_FLOOR <=? elapsed) && (window <? cap_blocks) &&
              (u64_saturating_mul (Z.max window 1) block_size / 2 <=? delivered) in
  PrefetchStream.Mk (PrefetchStream.id s) touch true
    (Z.max (PrefetchStream.next_expected s) read_end) (u64_saturating_add (PrefetchStream.run s) 1) cursor
    (if grow then Z.min (u64_saturating_mul window 2) cap_blocks else window)
    (PrefetchStream.inflight s) (if grow then 0 else delivered).

(** The same read while the run is too short. *)
Definition lengthen_run (s : PrefetchStream) (touch read_end : Z) : PrefetchStream :=
  PrefetchStream.Mk (PrefetchStream.id s) touch (PrefetchStream.active s)
    (Z.max (PrefetchStream.next_expected s) read_end) (u64_saturating_add (PrefetchStream.run s) 1)
    (PrefetchStream.cursor s) (PrefetchStream.window_blocks s) (PrefetchStream.inflight s)
    (PrefetchStream.bytes_since_growth s).

Definition observe (c : SequentialPrefetcher) (node : NodeId)
    (offset returned revision size elapsed block_size cap_blocks : Z) : (Z * list RangeKey) * SequentialPrefetcher :=
  if (block_size =? 0) || (cap_blocks =? 0) then ((0, []), c)
  else
    let c := if revision =? SequentialPrefetcher.revision c then c
             else SequentialPrefetcher.Mk revision 0 0 [] in
    let read_end := u64_saturating_add offset returned in
    let slack := u64_saturating_mul block_size SEQUENTIAL_SLACK_BLOCKS in
    let touch := wrapping_add (SequentialPrefetcher.touch_counter c) 1 in
    let streams := SequentialPrefetcher.streams c in
    match matched_stream offset slack streams with
    | None =>
        let prime_cold_start := bool_decide (streams = []) in
        let id := wrapping_add (SequentialPrefetcher.next_stream_id c) 1 in
        let stream := PrefetchStream.Mk id touch false read_end 1 read_end 0 0 0 in
        let '(prime, stream) :=
          if prime_cold_start then
            let '(scheduled, stream) :=
              schedule (set_window stream (Z.min PRIME_WINDOW_BLOCKS cap_blocks)) node revision read_end size
                block_size cap_blocks in
            (scheduled, set_window stream 0)
          else ([], stream) in
        ((id, prime), SequentialPrefetcher.Mk (SequentialPrefetcher.revision c) id touch (recycle streams ++ [stream]))
    | Some index =>
        match streams !! index with
        | None => ((0, []), c)
        | Some stream =>
            if u64_saturating_add (PrefetchStream.run stream) 1 <? SEQUENTIAL_TRIGGER then
              ((PrefetchStream.id stream, []),
               SequentialPrefetcher.Mk (SequentialPrefetcher.revision c) (SequentialPrefetcher.next_stream_id c) touch
                 (<[index := lengthen_run stream touch read_end]> streams))
            else
              let '(blocks, stream') :=
                schedule (continue_stream stream touch read_end returned elapsed block_size cap_blocks) node
                  (SequentialPrefetcher.revision c) read_end size block_size cap_blocks in
              ((PrefetchStream.id stream', blocks),
               SequentialPrefetcher.Mk (SequentialPrefetcher.revision c) (SequentialPrefetcher.next_stream_id c) touch
                 (<[index := stream']> streams))
        end
    end.

(** Change the first stream with the identifier. *)
Fixpoint update_stream (id : Z) (f : PrefetchStream → PrefetchStream) (l : list PrefetchStream) : list PrefetchStream :=
  match l with
  | [] => []
  | s :: l' => if PrefetchStream.id s =? id then f s :: l' else s :: update_stream id f l'
  end.

Definition update_streams (id : Z) (f : PrefetchStream → PrefetchStream) (c : SequentialPrefetcher)
    : SequentialPrefetcher :=
  SequentialPrefetcher.Mk (SequentialPrefetcher.revision c) (SequentialPrefetcher.next_stream_id c)
    (SequentialPrefetcher.touch_counter c) (update_stream id f (SequentialPrefetcher.streams c)).

Definition unschedule (c : SequentialPrefetcher) (stream_id : Z) (blocks : list RangeKey) : SequentialPrefetcher :=
  match blocks with
  | [] => c
  | first :: _ =>
      update_streams stream_id
        (λ s, set_cursor s (Z.min (PrefetchStream.cursor s) (RangeKey.offset first))
                (u64_saturating_sub (PrefetchStream.inflight s) (zlen blocks))) c
  end.

(** A stream whose fetch failed is paused. *)
Definition finish_fetch (ok : bool) (s : PrefetchStream) : PrefetchStream :=
  let inflight := u64_saturating_sub (PrefetchStream.inflight s) 1 in
  if ok then set_cursor s (PrefetchStream.cursor s) inflight
  else PrefetchStream.Mk (PrefetchStream.id s) (PrefetchStream.last_touch s) false (PrefetchStream.next_expected s)
         (PrefetchStream.run s) (PrefetchStream.cursor s) 0 inflight 0.

Definition complete (c : SequentialPrefetcher) (stream_id : Z) (ok : bool) : SequentialPrefetcher :=
  update_streams stream_id (finish_fetch ok) c.

(** * The pools of the mount *)

Definition clamp (x low high : Z) : Z := Z.min (Z.max x low) high.

(** [u32::try_from(..).unwrap_or(u32::MAX)] is the smaller of the two. *)
Definition prefetch_permits_for (length total : Z) : Z :=
  clamp (Z.min (div_ceil length PREFETCH_PERMIT_UNIT) u32_max) 1 (Z.max total 1).

Definition prefetch_inflight_budget (policy : CachePolicy) : Z :=
  Z.min (CachePolicy.read_ahead_max_bytes policy) PREFETCH_MAX_INFLIGHT_BYTES.
Definition prefetch_permit_total (policy : CachePolicy) : Z :=
  clamp (prefetch_inflight_budget policy / PREFETCH_PERMIT_UNIT) 1 (2 ^ 20).

Definition demand_block_size (policy : CachePolicy) (length : Z) : Z :=
  if length <=? SMALL_READ_THRESHOLD then Z.min (CachePolicy.block_size policy) SMALL_READ_AHEAD_BLOCK_SIZE
  else CachePolicy.block_size policy.

(** A speculative fetch with the permits it holds, for the controller of a
    handle and a stream of it, on the remote handle. *)
Module PrefetchTask.
Record PrefetchTask := Mk { controller : FileHandle; stream_id : Z; inner_handle : FileHandle; block : RangeKey; units : Z }.
End PrefetchTask.
Abbreviation PrefetchTask := PrefetchTask.PrefetchTask.

(** The controllers of the open handles, the two semaphores, and the fetches
    that run. *)
Record Prefetch := MkPrefetch {
  controllers : gmap FileHandle SequentialPrefetcher;
  prefetch_fetch_slots : Z;
  prefetch_permits : Z;
  tasks : list PrefetchTask
}.

Definition prefetch_new (policy : CachePolicy) : Prefetch :=
  MkPrefetch ∅ PREFETCH_MAX_CONCURRENT_FETCHES (prefetch_permit_total policy) [].

(** The loop that reserves a slot and permits for each block: the granted blocks
    with their permits, what is left in the semaphores, and the denied blocks. *)
Fixpoint grant (total : Z) (scheduled : list RangeKey) (slots permits : Z)
    : list (RangeKey * Z) * (Z * Z) * list RangeKey :=
  match scheduled with
  | [] => ([], (slots, permits), [])
  | block :: scheduled' =>
      let units := prefetch_permits_for (RangeKey.length block) total in
      if slots <? 1 then ([], (slots, permits), scheduled)
      else if permits <? units then ([], (slots, permits), scheduled)
      else
        let '(granted, rest, denied) := grant total scheduled' (slots - 1) (permits - units) in
        ((block, units) :: granted, rest, denied)
  end.

(** What a demand read tells [maybe_prefetch]. *)
Record Demand := MkDemand {
  demand_handle : FileHandle;
  demand_inner : FileHandle;
  demand_node : NodeId;
  demand_revision : Z;
  demand_size : Z;
  demand_offset : Z;
  demand_returned : Z;
  demand_elapsed : Z
}.

Definition maybe_prefetch (policy : CachePolicy) (d : Demand) (granularity : Z) (p : Prefetch) : Prefetch :=
  if granularity =? 0 then p
  else
    let cap_blocks := CachePolicy.read_ahead_max_bytes policy / granularity in
    if cap_blocks =? 0 then p
    else
      let controller := default SequentialPrefetcher.default (controllers p !! demand_handle d) in
      let '((stream_id, scheduled), controller) :=
        observe controller (demand_node d) (demand_offset d) (demand_returned d) (demand_revision d)
          (demand_size d) (demand_elapsed d) granularity cap_blocks in
      let '(granted, (slots, permits), denied) :=
        grant (prefetch_permit_total policy) scheduled (prefetch_fetch_slots p) (prefetch_permits p) in
      MkPrefetch (<[demand_handle d := unschedule controller stream_id denied]> (controllers p)) slots permits
        (tasks p ++ map (λ g, PrefetchTask.Mk (demand_handle d) stream_id (demand_inner d) g.1 g.2) granted).

(** A fetch ends: its permits are dropped and its stream is told. *)
Definition finish_task (i : nat) (ok : bool) (p : Prefetch) : Prefetch :=
  match tasks p !! i with
  | None => p
  | Some t =>
      MkPrefetch (alter (λ c, complete c (PrefetchTask.stream_id t) ok) (PrefetchTask.controller t) (controllers p))
        (prefetch_fetch_slots p + 1) (prefetch_permits p + PrefetchTask.units t) (delete i (tasks p))
  end.
