(* ===== verification/PrefetchFacts.v ===== *)
(** Read-ahead stays inside the file and inside its bounds. *)

From S2P Require Import Prelude Protocol CacheRanges Prefetch.

(** * Scheduled blocks *)

(** Consecutive blocks from [start] on, below [target], clipped to the file. *)
Record blocks_sound (file : RevisionKey) (size block_size start target : Z) (blocks : list RangeKey) : Prop := {
  bs_block : ∀ i b, blocks !! i = Some b →
    b = RangeKey.Mk file (start + Z.of_nat i * block_size)
          (Z.min block_size (size - (start + Z.of_nat i * block_size))) ∧
    start + Z.of_nat i * block_size < target
}.

Lemma schedule_loop_spec budget file size block_size target cursor :
  0 < block_size → target ≤ size → size ≤ u64_max → 0 ≤ cursor ≤ u64_max →
  let out := schedule_loop budget file size block_size target cursor in
  blocks_sound file size block_size cursor target out.1 ∧ (length out.1 ≤ budget)%nat ∧ cursor ≤ out.2 ≤ u64_max.
Proof.
  intros Hb Ht Hs. revert cursor. induction budget as [|budget IH]; intros cursor Hc; simpl.
  { split; [by split|]. split; [lia|lia]. }
  destruct (cursor <? target) eqn:E; bool_simpl; simpl; [|by split; [split|lia]].
  destruct (Z.min block_size (size - cursor) =? 0) eqn:E0; bool_simpl; [lia|].
  destruct (IH (u64_saturating_add cursor block_size)) as ([Hi] & Hl & Hcur);
    [unfold u64_saturating_add; lia|].
  destruct (schedule_loop budget file size block_size target _) as [l c'] eqn:El. simpl in *.
  split; [|split; [lia|unfold u64_saturating_add in *; lia]].
  split. intros [|i] b; simpl.
  - intros [= <-]. rewrite Z.add_0_r. by split.
  - intros Hl'. destruct (Hi i b Hl') as [-> Hlt].
    assert (u64_saturating_add cursor block_size = cursor + block_size) as Heq.
    { unfold u64_saturating_add in *. lia. }
    rewrite Heq in *. replace (cursor + block_size + Z.of_nat i * block_size)
      with (cursor + Z.of_nat (S i) * block_size) in * by lia. done.
Qed.

(** ** Streams *)

(** A stream within a window of [most] blocks. *)
Record stream_ok (most : Z) (s : PrefetchStream) : Prop := {
  so_window : 0 ≤ PrefetchStream.window_blocks s ≤ most;
  so_inflight : 0 ≤ PrefetchStream.inflight s ≤ most;
  so_cursor : is_u64 (PrefetchStream.cursor s);
  so_run : 1 ≤ PrefetchStream.run s
}.

(** What a read schedules. *)
Definition schedule_sound (node : NodeId) (revision read_end size block_size cap : Z) (blocks : list RangeKey) : Prop :=
  zlen blocks ≤ Z.min cap SCHEDULE_BURST_BLOCKS ∧
  ∃ start, demand_block_end read_end size block_size ≤ start ∧
    blocks_sound (RevisionKey.Mk node revision) size block_size start
      (Z.min size (demand_block_end read_end size block_size + cap * block_size)) blocks.

Lemma schedule_sound_nil node revision read_end size block_size cap :
  0 ≤ cap → schedule_sound node revision read_end size block_size cap [].
Proof.
  intros Hc. split; [unfold zlen, SCHEDULE_BURST_BLOCKS; simpl; lia|].
  eexists. split; [reflexivity|]. by split.
Qed.

Lemma demand_block_end_range read_end size block_size :
  0 ≤ read_end → 0 < block_size → is_u64 size → 0 ≤ demand_block_end read_end size block_size ≤ size.
Proof.
  intros Hr Hb [Hs _]. unfold demand_block_end, u64_saturating_mul, div_ceil, u64_max.
  assert (0 ≤ (read_end + block_size - 1) / block_size) by (apply Z.div_pos; lia). nia.
Qed.

Lemma schedule_spec most s node revision read_end size block_size cap :
  stream_ok most s → 0 ≤ read_end → 0 < block_size → is_u64 size → 0 < cap ≤ most → most ≤ u64_max →
  let out := schedule s node revision read_end size block_size cap in
  schedule_sound node revision read_end size block_size cap out.1 ∧ stream_ok most out.2 ∧
  PrefetchStream.inflight out.2 = PrefetchStream.inflight s + zlen out.1 ∧
  PrefetchStream.id out.2 = PrefetchStream.id s.
Proof.
  intros [Hw Hi Hc Hr] He Hb Hs Hcap Hmost. pose proof (demand_block_end_range read_end size block_size He Hb Hs) as Hd.
  unfold schedule. set (window := Z.min (PrefetchStream.window_blocks s) cap).
  destruct ((window =? 0) || (size =? 0)) eqn:E.
  { simpl. split; [apply schedule_sound_nil; lia|]. split; [by split|]. split; [unfold zlen; simpl; lia|done]. }
  bool_simpl. set (demand_end := demand_block_end read_end size block_size) in *.
  set (target := Z.min _ size). destruct Hs as [Hs0 Hs1]. destruct Hc as [Hc0 Hc1].
  set (budget := Z.min _ SCHEDULE_BURST_BLOCKS).
  destruct (schedule_loop_spec (Z.to_nat budget) (RevisionKey.Mk node revision) size block_size target
    (Z.max (PrefetchStream.cursor s) demand_end)) as ([Hbs] & Hl & Hcur); [done|unfold target; lia|done|lia|].
  destruct (schedule_loop _ _ _ _ _ _) as [blocks cursor]. simpl in *.
  assert (zlen blocks ≤ budget) as Hlb.
  { unfold zlen. destruct (decide (0 ≤ budget)); [lia|]. unfold budget, u64_saturating_sub, SCHEDULE_BURST_BLOCKS in *. lia. }
  pose proof (zlen_nonneg blocks). unfold budget, u64_saturating_sub in Hlb.
  split; [|split].
  - split; [unfold window in *; lia|]. exists (Z.max (PrefetchStream.cursor s) demand_end). split; [lia|].
    split. intros i b Hb'. destruct (Hbs i b Hb') as [-> Ht]. split; [done|].
    assert (window * block_size ≤ cap * block_size) by (apply Z.mul_le_mono_nonneg_r; unfold window; lia).
    clearbody window. unfold target, u64_saturating_add, u64_saturating_mul in Ht. lia.
  - split; simpl; try done; unfold u64_saturating_add, window in *; [lia|]. split; lia.
  - unfold u64_saturating_add. split; [|done]. unfold window in *. lia.
Qed.

(** ** The controller *)

Record controller_ok (most : Z) (c : SequentialPrefetcher) : Prop := {
  co_streams : zlen (SequentialPrefetcher.streams c) ≤ MAX_PREFETCH_STREAMS;
  co_each : Forall (stream_ok most) (SequentialPrefetcher.streams c)
}.

Lemma swap_remove_spec {A} (P : A → Prop) i (l : list A) :
  (i < length l)%nat → Forall P l → Forall P (swap_remove i l) ∧ S (length (swap_remove i l)) = length l.
Proof.
  intros Hi Hl. unfold swap_remove. destruct (last l) as [x|] eqn:El.
  2: { apply last_None in El as ->. simpl in Hi. lia. }
  assert (∀ m : list A, m ≠ [] → Forall P m → Forall P (removelast m) ∧ S (length (removelast m)) = length m) as Hr.
  { intros m Hm HP. destruct (exists_last Hm) as (m' & y & ->). rewrite removelast_last, length_app. simpl.
    apply Forall_app in HP as [? _]. split; [done|lia]. }
  assert (P x) as Hx.
  { rewrite Forall_forall in Hl. apply Hl. apply last_Some in El as [l' ->]. set_solver. }
  destruct (bool_decide _); [apply Hr; [by destruct l; simpl in *; [lia|]|done]|].
  destruct (Hr (<[i:=x]> l)) as [HP Hlen].
  - intros Hn. apply (f_equal length) in Hn. rewrite length_insert in Hn. simpl in Hn. lia.
  - by apply Forall_insert.
  - split; [done|]. by rewrite length_insert in Hlen.
Qed.

Lemma elem_of_enumerate {A} (l : list A) i x : (i, x) ∈ enumerate l → l !! i = Some x.
Proof.
  unfold enumerate. intros [j Hj]%list_elem_of_lookup.
  apply lookup_zip_with_Some in Hj as (a & b & [= <- <-] & Ha & Hb).
  apply lookup_seq in Ha as [-> _]. done.
Qed.

Lemma recycle_spec (P : PrefetchStream → Prop) l :
  Forall P l → zlen l ≤ MAX_PREFETCH_STREAMS →
  Forall P (recycle l) ∧ zlen (recycle l) ≤ MAX_PREFETCH_STREAMS - 1.
Proof.
  intros HP Hl. unfold recycle. destruct (_ <=? _) eqn:E; bool_simpl; [|split; [done|lia]].
  destruct (min_by_key _ (enumerate l)) as [[i s]|] eqn:Em.
  - apply min_by_key_Some in Em as [Hin _]. apply elem_of_enumerate, lookup_lt_Some in Hin.
    destruct (swap_remove_spec P i l Hin HP) as [HP' Hlen]. split; [done|]. unfold zlen in *. lia.
  - apply min_by_key_None in Em. apply (f_equal length) in Em. unfold enumerate in Em.
    rewrite length_zip_with, length_seq, Nat.min_id in Em. simpl in Em.
    unfold zlen, MAX_PREFETCH_STREAMS in *. lia.
Qed.

Lemma matched_stream_Some offset slack l i : matched_stream offset slack l = Some i → ∃ s, l !! i = Some s.
Proof.
  unfold matched_stream. destruct (min_by_key _ _) as [[j s]|] eqn:Em; simpl; [|done]. intros [= ->].
  apply min_by_key_Some in Em as [Hin _]. apply elem_of_filter_list in Hin as [Hin _].
  exists s. by apply elem_of_enumerate.
Qed.

Lemma continue_stream_ok most s touch read_end returned elapsed block_size cap :
  stream_ok most s → is_u64 read_end → 0 ≤ returned → 0 < cap ≤ most → 0 < block_size →
  stream_ok most (continue_stream s touch read_end returned elapsed block_size cap).
Proof.
  intros [Hw Hi Hc Hr] He Hret Hcap Hb. split; simpl.
  - unfold INITIAL_ACTIVE_WINDOW_BLOCKS, u64_saturating_mul, u64_max. destruct (PrefetchStream.active s), (_ && _); lia.
  - done.
  - unfold is_u64 in *. destruct (PrefetchStream.active s); lia.
  - unfold u64_saturating_add, u64_max. lia.
Qed.

Lemma observe_spec most c node offset returned revision size elapsed block_size cap :
  controller_ok most c → is_u64 offset → 0 ≤ returned → is_u64 size → 0 < block_size → 0 < cap ≤ most → most ≤ u64_max →
  let out := observe c node offset returned revision size elapsed block_size cap in
  schedule_sound node revision (u64_saturating_add offset returned) size block_size cap out.1.2 ∧
  controller_ok most out.2.
Proof.
  intros Hc Ho Hret Hs Hb Hcap Hmost. unfold observe.
  destruct (_ || _) eqn:E0; bool_simpl; [lia|].
  set (c1 := if revision =? _ then c else _).
  assert (controller_ok most c1 ∧ SequentialPrefetcher.revision c1 = revision) as [[Hn Hf] Hrev].
  { unfold c1. destruct (revision =? _) eqn:E; bool_simpl; [by split|]. split; [|done]. by split. }
  clearbody c1. set (read_end := u64_saturating_add offset returned).
  assert (is_u64 read_end) as He by (destruct Ho; unfold read_end, is_u64, u64_saturating_add in *; lia).
  destruct (matched_stream _ _ _) as [i|] eqn:Em.
  - apply matched_stream_Some in Em as [s Hi]. rewrite Hi.
    assert (stream_ok most s) as Hso by (rewrite Forall_lookup in Hf; by eapply Hf).
    destruct (_ <? _) eqn:Et; bool_simpl; simpl.
    { destruct Hso as [_ _ _ Hr]. unfold u64_saturating_add, SEQUENTIAL_TRIGGER, u64_max in Et. lia. }
    rewrite Hrev.
    set (s' := continue_stream _ _ _ _ _ _ _).
    assert (stream_ok most s') as Hs' by by apply continue_stream_ok.
    destruct (schedule_spec most s' node revision read_end size block_size cap) as (Hsound & Hout & _); try done.
    { apply He. }
    destruct (schedule s' _ _ _ _ _ _) as [blocks s'']. simpl in *. split; [done|]. split; simpl.
    + unfold zlen in *. by rewrite length_insert.
    + by apply Forall_insert.
  - destruct (recycle_spec (stream_ok most) _ Hf Hn) as [Hf' Hn'].
    assert (∀ l s, Forall (stream_ok most) l → zlen l ≤ MAX_PREFETCH_STREAMS - 1 → stream_ok most s →
      controller_ok most (SequentialPrefetcher.Mk (SequentialPrefetcher.revision c1)
        (wrapping_add (SequentialPrefetcher.next_stream_id c1) 1)
        (wrapping_add (SequentialPrefetcher.touch_counter c1) 1) (l ++ [s]))) as Hadd.
    { intros l s Hl Hlen Hso. split; simpl; [rewrite zlen_app; unfold zlen at 2; simpl; lia|].
      apply Forall_app. split; [done|]. by constructor. }
    set (s := PrefetchStream.Mk _ _ false read_end 1 read_end 0 0 0).
    assert (stream_ok most s) as Hs0 by (split; simpl; try lia; done).
    destruct (bool_decide _).
    + assert (stream_ok most (set_window s (Z.min PRIME_WINDOW_BLOCKS cap))) as Hs1.
      { destruct Hs0. split; simpl; try done. unfold PRIME_WINDOW_BLOCKS. lia. }
      destruct (schedule_spec most _ node revision read_end size block_size cap Hs1) as (Hsound & Hout & _); try done.
      { apply He. }
      destruct (schedule _ _ _ _ _ _ _) as [blocks s2]. simpl in *. split; [done|]. apply Hadd; [done|done|].
      destruct Hout. split; simpl; try done. lia.
    + simpl. split; [apply schedule_sound_nil; lia|]. by apply Hadd.
Qed.

Lemma update_streams_ok most id f c :
  (∀ s, stream_ok most s → stream_ok most (f s)) → controller_ok most c → controller_ok most (update_streams id f c).
Proof.
  intros Hfun [Hn Hf]. unfold update_streams.
  assert (Forall (stream_ok most) (update_stream id f (SequentialPrefetcher.streams c)) ∧
    length (update_stream id f (SequentialPrefetcher.streams c)) = length (SequentialPrefetcher.streams c)) as [H1 H2].
  { clear Hn. induction Hf as [|s l Hs Hl [IH1 IH2]]; simpl; [done|].
    destruct (_ =? _); simpl; rewrite ?IH2; split; auto. }
  split; simpl; [unfold zlen in *; by rewrite H2|done].
Qed.

Lemma unschedule_ok most c id blocks :
  Forall (λ b, 0 ≤ RangeKey.offset b) blocks → controller_ok most c → controller_ok most (unschedule c id blocks).
Proof.
  intros Hpos Hc. unfold unschedule. destruct blocks as [|b l]; [done|]. apply Forall_cons in Hpos as [Hb _].
  apply update_streams_ok; [|done].
  intros s [Hw Hi Hcur Hr]. pose proof (zlen_nonneg (b :: l)).
  split; simpl; try done; unfold u64_saturating_sub, is_u64 in *; lia.
Qed.

Lemma complete_ok most c id ok : controller_ok most c → controller_ok most (complete c id ok).
Proof.
  apply update_streams_ok. intros s [Hw Hi Hcur Hr]. unfold finish_fetch.
  destruct ok; split; simpl; try done; unfold u64_saturating_sub; lia.
Qed.

Lemma schedule_sound_each node revision read_end size block_size cap blocks b :
  schedule_sound node revision read_end size block_size cap blocks → 0 ≤ read_end → 0 < block_size → is_u64 size →
  b ∈ blocks → 0 ≤ RangeKey.offset b ∧ 0 < RangeKey.length b ≤ block_size.
Proof.
  intros (_ & start & Hstart & [Hb]) He Hbs Hs [i Hi]%list_elem_of_lookup.
  pose proof (demand_block_end_range read_end size block_size He Hbs Hs).
  destruct (Hb i b Hi) as [-> Hlt]. simpl. lia.
Qed.

(** * The pools *)

Definition total_units (l : list PrefetchTask) : Z := list_sum PrefetchTask.units l.
Definition total_bytes (l : list PrefetchTask) : Z := list_sum (λ t, RangeKey.length (PrefetchTask.block t)) l.

Lemma list_sum_app {A} (f : A → Z) l l' : list_sum f (l ++ l') = list_sum f l + list_sum f l'.
Proof. unfold list_sum. induction l; simpl; lia. Qed.

Lemma list_sum_delete {A} (f : A → Z) l i x : l !! i = Some x → list_sum f l = f x + list_sum f (delete i l).
Proof.
  revert i. unfold list_sum. induction l as [|y l IH]; intros [|i] Hi; simpl in *; simplify_eq; [done|].
  rewrite (IH i Hi). lia.
Qed.

(** A policy that [CachedFilesystem::new] accepts. *)
Definition policy_ok (policy : CachePolicy) : Prop :=
  0 < CachePolicy.block_size policy ≤ MAX_CLIENT_READ_SIZE ∧ is_u64 (CachePolicy.read_ahead_max_bytes policy).

Section pools.
Context (policy : CachePolicy) (policy_good : policy_ok policy).
Abbreviation total := (prefetch_permit_total policy).
Abbreviation budget := (prefetch_inflight_budget policy).

(** A fetch within the budget that holds its permits. *)
Definition task_ok (t : PrefetchTask) : Prop :=
  0 < RangeKey.length (PrefetchTask.block t) ≤ budget ∧
  PrefetchTask.units t = prefetch_permits_for (RangeKey.length (PrefetchTask.block t)) total.

Record pools_ok (p : Prefetch) : Prop := {
  pk_slots : prefetch_fetch_slots p + zlen (tasks p) = PREFETCH_MAX_CONCURRENT_FETCHES;
  pk_slots_left : 0 ≤ prefetch_fetch_slots p;
  pk_permits : prefetch_permits p + total_units (tasks p) = total;
  pk_permits_left : 0 ≤ prefetch_permits p;
  pk_tasks : Forall task_ok (tasks p);
  pk_controllers : map_Forall (λ _ c, controller_ok (CachePolicy.read_ahead_max_bytes policy) c) (controllers p)
}.

Lemma total_range : 1 ≤ total ≤ 2 ^ 20.
Proof. unfold prefetch_permit_total, clamp. lia. Qed.

Lemma permits_range len : 0 < len → 1 ≤ prefetch_permits_for len total ≤ total.
Proof. intros. pose proof total_range. unfold prefetch_permits_for, clamp. lia. Qed.

(** A fetch holds permits for its bytes, unless it alone takes the whole pool. *)
Lemma permits_cover len :
  0 < len → len ≤ prefetch_permits_for len total * PREFETCH_PERMIT_UNIT ∨ prefetch_permits_for len total = total.
Proof.
  intros Hl. pose proof total_range. unfold prefetch_permits_for, clamp, div_ceil, PREFETCH_PERMIT_UNIT, u32_max in *.
  pose proof (Z.div_mod (len + 65536 - 1) 65536 ltac:(lia)). pose proof (Z.mod_pos_bound (len + 65536 - 1) 65536 ltac:(lia)).
  change (64 * 1024) with 65536. destruct (decide ((len + 65536 - 1) / 65536 ≤ total)); [left|right]; lia.
Qed.

Lemma total_units_length l : Forall task_ok l → zlen l ≤ total_units l.
Proof.
  unfold zlen, total_units, list_sum. induction 1 as [|t l [Hl Hu] _ IH]; simpl; [lia|].
  pose proof (permits_range (RangeKey.length (PrefetchTask.block t)) ltac:(lia)). rewrite Hu. lia.
Qed.

Lemma unit_budget : total * PREFETCH_PERMIT_UNIT ≤ budget ∨ total = 1.
Proof.
  unfold prefetch_permit_total, clamp, PREFETCH_PERMIT_UNIT. change (64 * 1024) with 65536.
  pose proof (Z.mul_div_le budget 65536 ltac:(lia)).
  destruct (decide (1 ≤ budget / 65536)); [left|right]; lia.
Qed.

(** The bytes in flight are within the budget. *)
Lemma bytes_within l : Forall task_ok l → total_units l ≤ total → total_bytes l ≤ budget.
Proof.
  intros Hl Hu. pose proof total_range as Ht. pose proof (total_units_length l Hl) as Hlen.
  destruct l as [|t [|t' l]].
  - unfold total_bytes, list_sum. simpl. destruct policy_good as [_ [? _]].
    unfold prefetch_inflight_budget, PREFETCH_MAX_INFLIGHT_BYTES. lia.
  - apply Forall_cons in Hl as [[Hb _] _]. unfold total_bytes, list_sum. simpl. lia.
  - assert (2 ≤ total) by (unfold zlen in Hlen; cbn [length] in Hlen; lia).
    destruct unit_budget as [Hub|?]; [|lia].
    assert (∀ m, Forall task_ok m → Forall (λ x, PrefetchTask.units x < total) m →
      total_bytes m ≤ total_units m * PREFETCH_PERMIT_UNIT) as Hsum.
    { unfold total_bytes, total_units, list_sum. induction 1 as [|x m [Hx Hxu] _ IH]; intros Hlt; simpl; [lia|].
      apply Forall_cons in Hlt as [Hlt Hlts]. specialize (IH Hlts).
      destruct (permits_cover (RangeKey.length (PrefetchTask.block x)) ltac:(lia)) as [Hc|Hc]; rewrite <- Hxu in Hc; lia. }
    assert (Forall (λ x, PrefetchTask.units x < total) (t :: t' :: l)) as Hlt.
    { apply Forall_forall. intros x [i Hi]%list_elem_of_lookup.
      unfold total_units in *. pose proof (list_sum_delete PrefetchTask.units _ i x Hi) as Hd.
      assert (Forall task_ok (delete i (t :: t' :: l))) as Hdel by by apply Forall_delete.
      pose proof (total_units_length _ Hdel) as Hlen'. unfold zlen, total_units in Hlen'.
      assert (length (delete i (t :: t' :: l)) = S (length l)) as Heq by (by rewrite length_delete by eauto).
      rewrite Heq in Hlen'. lia. }
    specialize (Hsum _ Hl Hlt). unfold PREFETCH_PERMIT_UNIT in *. nia.
Qed.

(** ** Operations *)

Lemma grant_spec l slots permits :
  0 ≤ slots → 0 ≤ permits → Forall (λ b, 0 < RangeKey.length b) l →
  let '(granted, (slots', permits'), denied) := grant total l slots permits in
  l = map fst granted ++ denied ∧ slots' = slots - zlen granted ∧ 0 ≤ slots' ∧
  permits' = permits - list_sum snd granted ∧ 0 ≤ permits' ∧
  Forall (λ g, g.2 = prefetch_permits_for (RangeKey.length g.1) total) granted.
Proof.
  intros Hs Hp Hl. revert slots permits Hs Hp. induction Hl as [|b l Hb _ IH]; intros slots permits Hs Hp; simpl.
  { unfold zlen, list_sum. simpl. split_and!; try done; lia. }
  destruct (slots <? 1) eqn:E1; bool_simpl.
  { unfold zlen, list_sum. simpl. split_and!; try done; lia. }
  destruct (permits <? _) eqn:E2; bool_simpl.
  { unfold zlen, list_sum. simpl. split_and!; try done; lia. }
  specialize (IH (slots - 1) (permits - prefetch_permits_for (RangeKey.length b) total) ltac:(lia) ltac:(lia)).
  destruct (grant _ _ _ _) as [[granted [slots' permits']] denied]. destruct IH as (-> & -> & ? & -> & ? & ?).
  rewrite zlen_cons. unfold list_sum in *. simpl. split_and!; try done; try lia. by constructor.
Qed.

(** What a handle reports: a [u64] position in a file of [u64] size. *)
Definition demand_ok (d : Demand) : Prop :=
  is_u64 (demand_offset d) ∧ is_u64 (demand_size d) ∧ 0 ≤ demand_returned d.

Lemma demand_block_size_range length : 0 < demand_block_size policy length ≤ CachePolicy.block_size policy.
Proof.
  destruct policy_good as [Hb _]. unfold demand_block_size, SMALL_READ_AHEAD_BLOCK_SIZE. destruct (_ <=? _); lia.
Qed.

Lemma block_size_budget g : 0 < g ≤ CachePolicy.block_size policy → g ≤ CachePolicy.read_ahead_max_bytes policy → g ≤ budget.
Proof.
  destruct policy_good as [Hb _]. unfold prefetch_inflight_budget, MAX_CLIENT_READ_SIZE, PREFETCH_MAX_INFLIGHT_BYTES in *. lia.
Qed.

Lemma maybe_prefetch_ok d length p :
  demand_ok d → pools_ok p → pools_ok (maybe_prefetch policy d (demand_block_size policy length) p).
Proof.
  intros (Ho & Hs & Hr) Hp. pose proof Hp as [Hslots Hsl Hperm Hpl Htasks Hctl].
  pose proof (demand_block_size_range length) as Hg. set (g := demand_block_size policy length) in *.
  unfold maybe_prefetch. destruct (g =? 0) eqn:E0; bool_simpl; [done|].
  set (most := CachePolicy.read_ahead_max_bytes policy) in *. destruct policy_good as [_ Hmost]. fold most in Hmost.
  destruct (most / g =? 0) eqn:E1; bool_simpl; [done|].
  assert (0 ≤ most / g ≤ most) as Hcap.
  { split; [apply Z.div_pos; [apply Hmost|lia]|]. apply Z.div_le_upper_bound; [lia|]. destruct Hmost. nia. }
  assert (g ≤ most) as Hgm.
  { destruct (decide (g ≤ most)) as [|Hn]; [done|]. rewrite Z.div_small in E1 by (destruct Hmost; lia). lia. }
  set (c := default _ _).
  assert (controller_ok most c) as Hc.
  { unfold c. destruct (controllers p !! demand_handle d) as [c0|] eqn:El; simpl; [by eapply Hctl|]. split; [done|constructor]. }
  destruct (observe_spec most c (demand_node d) (demand_offset d) (demand_returned d) (demand_revision d)
    (demand_size d) (demand_elapsed d) g (most / g)) as [Hsound Hc']; try done; [lia|lia|apply Hmost|].
  destruct (observe c _ _ _ _ _ _ _ _) as [[id scheduled] c']. simpl in Hsound, Hc'.
  assert (Forall (λ b, 0 ≤ RangeKey.offset b ∧ 0 < RangeKey.length b ≤ g) scheduled) as Hblocks.
  { apply Forall_forall. intros b Hb. eapply schedule_sound_each; [exact Hsound| |lia|done|done].
    destruct Ho. unfold u64_saturating_add, u64_max. lia. }
  pose proof (grant_spec scheduled (prefetch_fetch_slots p) (prefetch_permits p) Hsl Hpl
    ltac:(eapply Forall_impl; [exact Hblocks|]; simpl; intros; lia)) as Hgrant.
  destruct (grant _ _ _ _) as [[granted [slots permits]] denied].
  destruct Hgrant as (-> & -> & ? & -> & ? & Hunits). apply Forall_app in Hblocks as [Hbg Hbd].
  assert (∀ f : PrefetchTask → Z, list_sum f (map (λ x, PrefetchTask.Mk (demand_handle d) id (demand_inner d) x.1 x.2) granted) =
    list_sum (λ x, f (PrefetchTask.Mk (demand_handle d) id (demand_inner d) x.1 x.2)) granted) as Hmap.
  { intros f. unfold list_sum. clear. induction granted as [|x granted IH]; simpl; [done|]. by rewrite IH. }
  split; simpl.
  - rewrite zlen_app. unfold zlen in *. rewrite length_map. lia.
  - done.
  - unfold total_units in *. rewrite list_sum_app, Hmap. simpl.
    change (list_sum (λ x : RangeKey * Z, x.2) granted) with (list_sum snd granted). lia.
  - done.
  - apply Forall_app. split; [done|]. apply Forall_map. rewrite Forall_forall in Hunits |- *. intros x Hx.
    rewrite Forall_map, Forall_forall in Hbg. destruct (Hbg x Hx) as [_ Hlen].
    split; simpl; [|by apply Hunits]. pose proof (block_size_budget g Hg Hgm). simpl in Hlen. lia.
  - apply map_Forall_insert_2; [|done]. apply unschedule_ok; [|done].
    eapply Forall_impl; [exact Hbd|]. by intros b [? _].
Qed.

Lemma finish_task_ok i ok p : pools_ok p → pools_ok (finish_task i ok p).
Proof.
  intros Hp. pose proof Hp as [Hslots Hsl Hperm Hpl Htasks Hctl]. unfold finish_task.
  destruct (tasks p !! i) as [t|] eqn:Ei; [|done].
  assert (task_ok t) as [Hlen Hu] by (rewrite Forall_lookup in Htasks; by eapply Htasks).
  pose proof (permits_range (RangeKey.length (PrefetchTask.block t)) ltac:(lia)).
  split; simpl.
  - unfold zlen in *. rewrite length_delete by eauto. apply lookup_lt_Some in Ei. lia.
  - lia.
  - unfold total_units in *. rewrite (list_sum_delete _ _ i t Ei) in Hperm. lia.
  - lia.
  - by apply Forall_delete.
  - intros h c Hh. apply lookup_alter_Some in Hh as [(_ & c0 & Hc0 & ->)|[_ Hc]]; [|by eapply Hctl].
    apply complete_ok. by eapply Hctl.
Qed.

(** A demand read of some length, or the end of a fetch. *)
Inductive PrefetchOp :=
  | Demanded (d : Demand) (length : Z)
  | Finished (i : nat) (ok : bool).

Definition prefetch_step (p : Prefetch) (op : PrefetchOp) : Prefetch :=
  match op with
  | Demanded d length => maybe_prefetch policy d (demand_block_size policy length) p
  | Finished i ok => finish_task i ok p
  end.

Definition prefetch_op_ok (op : PrefetchOp) : Prop :=
  match op with Demanded d _ => demand_ok d | Finished _ _ => True end.

Lemma prefetch_run_ok ops p : Forall prefetch_op_ok ops → pools_ok p → pools_ok (fold_left prefetch_step ops p).
Proof.
  intros Hops. revert p. induction Hops as [|op ops Hop _ IH]; intros p Hp; simpl; [done|]. apply IH.
  destruct op as [d length|i ok]; simpl; [by apply maybe_prefetch_ok|by apply finish_task_ok].
Qed.

Lemma prefetch_new_ok : pools_ok (prefetch_new policy).
Proof.
  pose proof total_range. split; simpl; try done; unfold zlen, total_units, list_sum; simpl; try lia.
Qed.

End pools.

(** What a demand read schedules is sound: at most 8 blocks and at most the
    window, consecutive, inside the file and inside the window that starts at
    the end of the block the read ended in, of the revision that was read, each
    of the block size except where the file ends; and the controller keeps its
    bounds. *)
Theorem scheduled_blocks_sound most c node offset returned revision size elapsed block_size cap :
  controller_ok most c → is_u64 offset → is_u64 size → 0 ≤ returned → 0 < block_size → 0 < cap ≤ most → most ≤ u64_max →
  let '((_, blocks), c') := observe c node offset returned revision size elapsed block_size cap in
  let demand_end := demand_block_end (u64_saturating_add offset returned) size block_size in
  controller_ok most c' ∧ zlen blocks ≤ Z.min cap SCHEDULE_BURST_BLOCKS ∧
  (∀ b, b ∈ blocks → RangeKey.file b = RevisionKey.Mk node revision ∧ demand_end ≤ RangeKey.offset b ∧
     RangeKey.offset b < demand_end + cap * block_size ∧ RangeKey.offset b + RangeKey.length b ≤ size ∧
     0 < RangeKey.length b ∧ RangeKey.length b = Z.min block_size (size - RangeKey.offset b)) ∧
  (∀ i b b', blocks !! i = Some b → blocks !! S i = Some b' → RangeKey.offset b' = RangeKey.offset b + block_size).
Proof.
  intros Hc Ho Hs Hr Hb Hcap Hmost.
  destruct (observe_spec most c node offset returned revision size elapsed block_size cap) as [Hsound Hc']; try done.
  destruct (observe c _ _ _ _ _ _ _ _) as [[id blocks] c']. simpl in *.
  destruct Hsound as (Hlen & start & Hstart & [Hbl]). split_and!; [done|lia| |].
  - intros b [i Hi]%list_elem_of_lookup. destruct (Hbl i b Hi) as [-> Ht]. simpl. split_and!; try done; try lia.
    all: destruct Hs; destruct Ho; unfold u64_saturating_add in *; nia.
  - intros i b b' Hi Hi'. destruct (Hbl i b Hi) as [-> _], (Hbl (S i) b' Hi') as [-> _]. simpl. lia.
Qed.

(** * Concrete reads *)

Module PrefetchExample.
(** Blocks of 1 MiB and 64 MiB of read-ahead, on a file of 100 MiB. *)
Definition MiB : Z := 1024 * 1024.
Definition policy : CachePolicy := CachePolicy.default.
Definition demand (revision offset returned : Z) : Demand :=
  MkDemand (MkFileHandle 1) (MkFileHandle 9) (MkNodeId 5) revision (100 * MiB) offset returned 0.

Lemma policy_good : policy_ok policy.
Proof. unfold policy_ok, is_u64, u64_max. simpl. unfold MAX_CLIENT_READ_SIZE, DEFAULT_READ_AHEAD_MAX_BYTES. lia. Qed.

(** A cold open and the next read of the stream. *)
Definition ops : list PrefetchOp := [Demanded (demand 7 0 MiB) MiB; Demanded (demand 7 MiB MiB) MiB].

Definition after (ops : list PrefetchOp) : Prefetch := fold_left (prefetch_step policy) ops (prefetch_new policy).

(** The window and the activity of the first stream of the handle. *)
Definition first_stream (p : Prefetch) : option (Z * bool * Z) :=
  c ← controllers p !! MkFileHandle 1;
  s ← head (SequentialPrefetcher.streams c);
  Some (PrefetchStream.window_blocks s, PrefetchStream.active s, PrefetchStream.inflight s).
End PrefetchExample.


Lemma scheduled_blocks_sound_witness :
  let out := observe SequentialPrefetcher.default (MkNodeId 5) 0 10 7 25 0 10 6 in
  map RangeKey.offset out.1.2 = [10; 20] ∧ map RangeKey.length out.1.2 = [10; 5] ∧ controller_ok 6 out.2.
Proof.
  intros out. split; [by vm_compute|]. split; [by vm_compute|].
  pose proof (scheduled_blocks_sound 6 SequentialPrefetcher.default (MkNodeId 5) 0 10 7 25 0 10 6) as H.
  apply H; [by split|unfold is_u64, u64_max; lia..|unfold u64_max; lia].
Defined.

(** A revision change confuses the streams of a handle.  The controller
    starts its identifiers again, although completions find their stream by the
    identifier: a fetch for the old revision that fails because it is stale
    pauses the new stream of the same number, closes its window and takes one of
    its blocks out of the account, while the fetches of the new stream still
    run. *)
Theorem stale_completion_pauses_new_stream :
  let before := PrefetchExample.after
    [Demanded (PrefetchExample.demand 7 0 PrefetchExample.MiB) PrefetchExample.MiB;
     Demanded (PrefetchExample.demand 8 0 PrefetchExample.MiB) PrefetchExample.MiB;
     Demanded (PrefetchExample.demand 8 PrefetchExample.MiB PrefetchExample.MiB) PrefetchExample.MiB] in
  (RevisionKey.revision ∘ RangeKey.file ∘ PrefetchTask.block <$> tasks before !! 0%nat) = Some 7 ∧
  PrefetchExample.first_stream before = Some (4, true, 4) ∧
  PrefetchExample.first_stream (finish_task 0 false before) = Some (0, false, 3) ∧
  length (List.filter (λ t, RevisionKey.revision (RangeKey.file (PrefetchTask.block t)) =? 8)
    (tasks (finish_task 0 false before))) = 4%nat.
Proof. by vm_compute. Qed.

(** Speculative blocks need not be those that a demand read asks for: after a
    stream began inside a block and a read before that point continued it, the
    blocks start at the old read end, not at a block boundary, so that they
    overlap the blocks of demand reads instead of coinciding with them. *)
Theorem speculative_blocks_unaligned :
  let c1 := (observe SequentialPrefetcher.default (MkNodeId 5) 0 10 7 1000 0 10 6).2 in
  let c2 := (observe c1 (MkNodeId 5) 300 15 7 1000 0 10 6).2 in
  map RangeKey.offset (observe c2 (MkNodeId 5) 305 3 7 1000 0 10 6).1.2 = [315; 325; 335; 345].
Proof. by vm_compute. Qed.
