(* ===== verification/Remote.v ===== *)
(** The interface of the client's layers ([crates/client-core/src/lib.rs],
    trait [RemoteFilesystem]): the calls as a family indexed by the type of
    their answer, a class that performs them on a layer's state, and the promise
    that a layer's answers are true. *)

From S2P Require Import Prelude Protocol Common CacheRanges FsCache ViewStream.

(** The largest write of a client. *)
Definition MAX_CLIENT_WRITE_SIZE : Z := 8 * 1024 * 1024.

(** * Answers *)

Module DirectorySnapshot.
Record DirectorySnapshot := Mk { revision : Z; entries : list DirectoryEntry }.
End DirectorySnapshot.
Abbreviation DirectorySnapshot := DirectorySnapshot.DirectorySnapshot.

Module OpenedFile.
Record OpenedFile := Mk { handle : FileHandle; revision : Z; size : Z }.
End OpenedFile.
Abbreviation OpenedFile := OpenedFile.OpenedFile.

Module RangeRead.
Record RangeRead := Mk { revision : Z; data : list Z }.
End RangeRead.
Abbreviation RangeRead := RangeRead.RangeRead.

Module XattrRead.
Record XattrRead := Mk { total_size : Z; data : list Z }.
End XattrRead.
Abbreviation XattrRead := XattrRead.XattrRead.

Module WriteResult.
Record WriteResult := Mk { written : Z; revision : Z; size : Z }.
End WriteResult.
Abbreviation WriteResult := WriteResult.WriteResult.

Module CreatedFile.
Record CreatedFile := Mk { metadata : Metadata; opened : OpenedFile }.
End CreatedFile.
Abbreviation CreatedFile := CreatedFile.CreatedFile.

(** * Calls *)

(** The required methods and those with a default; [open_file], [read_range]
    and [list_directory] are their general forms with part of the answer. *)
Inductive remote_call : Type → Type :=
  | Ping (nonce : Z) : remote_call Z
  | Capabilities : remote_call FilesystemCapabilities
  | StatFilesystem : remote_call FilesystemStats
  | GetMetadata (node : NodeId) : remote_call Metadata
  | ListDirectorySnapshot (node : NodeId) : remote_call DirectorySnapshot
  | ListDirectoryView (node : NodeId) (options : DirectoryViewOptions) : remote_call DirectoryView
  | OpenFileWithOptions (node : NodeId) (options : FileOpenOptions) : remote_call OpenedFile
  | CreateFile (parent : NodeId) (name : Name) (mode : Z) (options : FileOpenOptions) : remote_call CreatedFile
  | CreateDirectory (parent : NodeId) (name : Name) (mode : Z) : remote_call Metadata
  | CreateSymlink (parent : NodeId) (name : Name) (target : list Z) : remote_call Metadata
  | CreateHardLink (node new_parent : NodeId) (new_name : Name) : remote_call Metadata
  | CreateSpecialNode (parent : NodeId) (name : Name) (kind : SpecialNodeKind) (mode major minor : Z)
      : remote_call Metadata
  | RemoveNode (parent : NodeId) (name : Name) (directory : bool) : remote_call unit
  | RenameNode (parent : NodeId) (name : Name) (new_parent : NodeId) (new_name : Name) (mode : RenameMode)
      : remote_call unit
  | ReadLink (node : NodeId) : remote_call (list Z)
  | SetAttributes (node : NodeId) (handle : option FileHandle) (changes : AttributeChanges) : remote_call Metadata
  | ReadRangeVersioned (handle : FileHandle) (offset length : Z) : remote_call RangeRead
  | WriteRange (handle : FileHandle) (offset : Z) (data : list Z) : remote_call WriteResult
  | FlushFile (handle : FileHandle) (lock_owner : option Z) : remote_call unit
  | SyncFile (handle : FileHandle) (data_only : bool) : remote_call unit
  | SyncDirectory (node : NodeId) : remote_call unit
  | AllocateFile (handle : FileHandle) (offset length : Z) : remote_call WriteResult
  | GetXattr (node : NodeId) (name : Name) (offset length : Z) : remote_call XattrRead
  | SetXattr (node : NodeId) (name : Name) (value : list Z) (mode : XattrSetMode) (position : Z) : remote_call unit
  | ListXattrs (node : NodeId) : remote_call (list Name)
  | RemoveXattr (node : NodeId) (name : Name) : remote_call unit
  | CopyFileRange (input : FileHandle) (input_offset : Z) (output : FileHandle) (output_offset length : Z)
      : remote_call WriteResult
  | SeekFile (handle : FileHandle) (offset : Z) (whence : SeekWhence) : remote_call Z
  | SafeIoctlCall (handle : FileHandle) (operation : SafeIoctl) : remote_call Z
  | MapBlock (node : NodeId) (block_size block : Z) : remote_call Z
  | ExchangeData (parent : NodeId) (name : Name) (new_parent : NodeId) (new_name : Name) (options : Z)
      : remote_call unit
  | SetVolumeName (name : Name) : remote_call unit
  | ForgetNodes (nodes : list NodeId) : remote_call unit
  | GetLock (handle : FileHandle) (lock : FileLock) : remote_call (option FileLock)
  | SetLock (handle : FileHandle) (lock : FileLock) (wait : bool) : remote_call unit
  | CloseFile (handle : FileHandle) : remote_call unit.

Class RemoteFilesystem (R : Type) := {
  perform {A} : remote_call A → SM R ClientError A
}.

(** * The promise *)

(** The caller's side: arguments are within the widths of their types, and only
    a symbolic link is read as one. *)
Definition call_ok {A} (T : Truth) (c : remote_call A) : Prop :=
  match c with
  | ReadRangeVersioned _ offset length => is_u64 offset ∧ is_u64 length
  | ReadLink n => ∀ m, Truth.metadata T m → Metadata.node m = n → Metadata.kind m = NodeKind.Symlink
  | _ => True
  end.

(** The bytes of a symbolic link do not change with its revision. *)
Definition links_fixed (T : Truth) : Prop :=
  ∀ m m' p, Truth.metadata T m → Truth.metadata T m' → Metadata.node m = Metadata.node m' →
    Metadata.kind m = NodeKind.Symlink → Metadata.kind m' = NodeKind.Symlink → 0 ≤ p < Metadata.size m →
    Truth.content T (RevisionKey.Mk (Metadata.node m) (Metadata.revision m)) p =
    Truth.content T (RevisionKey.Mk (Metadata.node m) (Metadata.revision m')) p.

(** Facts of an actual server: snapshots agree with the metadata they contain,
    sizes are [u64], and links are fixed. *)
Definition facts_ok (T : Truth) : Prop :=
  truth_ok T ∧ (∀ m, Truth.metadata T m → is_u64 (Metadata.size m)) ∧ links_fixed T.

(** The range of a file that a read returned. *)
Definition read_key (node : NodeId) (revision offset : Z) (data : list Z) : RangeKey :=
  RangeKey.Mk (RevisionKey.Mk node revision) offset (zlen data).

(** The bytes of a symbolic link, cached as a file of that revision. *)
Definition link_content (T : Truth) (m : Metadata) (target : list Z) : Prop :=
  zlen target = Metadata.size m →
  target = range_content (Truth.content T) (read_key (Metadata.node m) (Metadata.revision m) 0 target).

(** What a true answer says; [before] and [after] are the nodes of the handles
    that were given out. *)
Definition answer_true {A} (T : Truth) (before after : FileHandle → NodeId → Prop) (c : remote_call A) : A → Prop :=
  match c in remote_call A return A → Prop with
  | StatFilesystem => λ v, Truth.statistics T v
  | GetMetadata n => λ m, Truth.metadata T m ∧ Metadata.node m = n
  | ListDirectorySnapshot n => λ s,
      Truth.directory T (RevisionKey.Mk n (DirectorySnapshot.revision s)) (DirectorySnapshot.entries s)
  | ListDirectoryView n _ => λ v,
      Truth.directory T (RevisionKey.Mk n (DirectoryView.revision v))
        (map DirectoryViewEntry.entry (DirectoryView.entries v)) ∧
      Truth.metadata T (DirectoryView.directory v) ∧ Truth.metadata T (DirectoryView.parent v)
  | OpenFileWithOptions n _ => λ o, after (OpenedFile.handle o) n ∧ is_u64 (OpenedFile.size o)
  | CreateFile _ _ _ _ => λ f,
      Truth.metadata T (CreatedFile.metadata f) ∧
      after (OpenedFile.handle (CreatedFile.opened f)) (Metadata.node (CreatedFile.metadata f)) ∧
      is_u64 (OpenedFile.size (CreatedFile.opened f))
  | CreateSymlink _ _ target => λ m, Truth.metadata T m ∧ link_content T m target
  | CreateDirectory _ _ _ | CreateHardLink _ _ _ | CreateSpecialNode _ _ _ _ _ _ | SetAttributes _ _ _ =>
      λ m, Truth.metadata T m
  | ReadLink n => λ target, ∀ m, Truth.metadata T m → Metadata.node m = n → link_content T m target
  | ReadRangeVersioned h offset length => λ r,
      zlen (RangeRead.data r) ≤ length ∧
      ∀ n, before h n →
        RangeRead.data r = range_content (Truth.content T) (read_key n (RangeRead.revision r) offset (RangeRead.data r))
  | WriteRange _ _ _ | AllocateFile _ _ _ | CopyFileRange _ _ _ _ _ => λ w, is_u64 (WriteResult.size w)
  | _ => λ _, True
  end.

Class RemoteLaws (R : Type) `{RemoteFilesystem R} := {
  remote_true : Truth → R → Prop;
  handle_node : R → FileHandle → NodeId → Prop;
  law_perform : ∀ T A (c : remote_call A) r, facts_ok T → call_ok T c → remote_true T r →
    remote_true T (perform c r).2 ∧
    ∀ a, (perform c r).1 = Ok a → answer_true T (handle_node r) (handle_node (perform c r).2) c a;
  law_handles : ∀ T A (c : remote_call A) r h n, facts_ok T → call_ok T c → remote_true T r →
    handle_node r h n → handle_node (perform c r).2 h n
}.
