(* ===== verification/Network.v ===== *)
(** The network file system ([crates/client-core/src/lib.rs],
    [NetworkFilesystem], [verify_pairing], [resolve_path] and
    [DelayedFilesystem]): every call of the remote interface as one request on a
    stream of its own, with the checks of its answer.

    The connection is any implementation of [Quic].  The identifiers of the
    requests are drawn from a source of UUIDs; a source is a function of the
    number of identifiers drawn before. *)

From S2P Require Import Prelude Protocol Common StateFiles Transport Auth ViewStream CacheRanges FsCache Remote Prefetch.

Module NetworkFilesystem.
Record NetworkFilesystem (Q : Type) := Mk { transport : QuicClient Q; drawn : nat }.
Arguments Mk {Q} _ _.
Arguments transport {Q} _.
Arguments drawn {Q} _.
End NetworkFilesystem.
Abbreviation NetworkFilesystem := NetworkFilesystem.NetworkFilesystem.

Section network.
Context {Q : Type} `{Quic Q}.
Context (new_v4 : nat → RequestId)
  (request_to : Envelope Request → option (list Z))
  (response_from : list Z → option (Envelope Response))
  (zstd_compress zstd_decompress : list Z → Z → option (list Z)).

Definition NM : Type → Type := SM (NetworkFilesystem Q) ClientError.

Definition on_transport {A} (m : CM (Q:=Q) A) : NM A := λ n,
  let '(r, t) := m (NetworkFilesystem.transport n) in
  (map_err ClientError.Transport r, NetworkFilesystem.Mk t (NetworkFilesystem.drawn n)).
Definition update_transport (f : QuicClient Q → QuicClient Q) : NM unit :=
  sm_modify (λ n, NetworkFilesystem.Mk (f (NetworkFilesystem.transport n)) (NetworkFilesystem.drawn n)).

(** [Envelope::new]. *)
Definition new_envelope (message : Request) : NM (Envelope Request) := λ n,
  (Ok (envelope_new (new_v4 (NetworkFilesystem.drawn n)) message),
   NetworkFilesystem.Mk (NetworkFilesystem.transport n) (S (NetworkFilesystem.drawn n))).

(** A read from what arrived on the stream. *)
Definition on_stream {A} (i : Incoming) (m : SM Incoming ClientError A) : NM (A * Incoming) :=
  let '(r, i') := m i in sm_lift (a ← r; Ok (a, i')).

(** ** Requests *)

(** The response and the rest of its stream. *)
Definition request (message : Request) : NM (Response * option Incoming) :=
  request ← new_envelope message;
  s ← on_transport stream;
  _ ← on_transport (send_frame zstd_compress request_to s request);
  _ ← on_transport (finish_stream s);
  i ← on_transport (receive s);
  response ← on_stream i (receive_frame response_from zstd_decompress);
  if negb (expected_envelope (Envelope.request_id request) response.1)
  then sm_err ClientError.UnexpectedResponse
  else mret (Envelope.message response.1, Some response.2).

Definition request_with_data (message : Request) (data : list Z) : NM (Response * option Incoming) :=
  request ← new_envelope message;
  s ← on_transport stream;
  _ ← on_transport (send_frame zstd_compress request_to s request);
  _ ← on_transport (send_all s data);
  _ ← on_transport (finish_stream s);
  i ← on_transport (receive s);
  response ← on_stream i (receive_frame response_from zstd_decompress);
  if negb (expected_envelope (Envelope.request_id request) response.1)
  then sm_err ClientError.UnexpectedResponse
  else mret (Envelope.message response.1, Some response.2).

Definition list_directory_view_streamed (node : NodeId) (options : DirectoryViewOptions) : NM DirectoryView :=
  request ← new_envelope (Request.ListDirectoryView node options);
  s ← on_transport stream;
  _ ← on_transport (send_frame zstd_compress request_to s request);
  _ ← on_transport (finish_stream s);
  i ← on_transport (receive s);
  view ← on_stream i (receive_directory_view response_from zstd_decompress (Envelope.request_id request));
  mret view.1.

(** [match self.request(message).await?.0 { pattern => Ok(value), r =>
    Err(response_error(r)) }]; [accept] is the pattern with its value. *)
Definition expect {A} (accept : Response → option A) (response : Response) : NM A :=
  match accept response with
  | Some a => mret a
  | None => sm_err (response_error response)
  end.
Definition call {A} (message : Request) (accept : Response → option A) : NM A :=
  r ← request message;
  expect accept r.1.

(** ** Construction *)

Definition negotiate : NM unit :=
  r ← request (Request.Hello (lit "quickfs-client"));
  match r.1 with
  | Response.HelloAck version =>
      _ ← update_transport (set_server_version version);
      update_transport (set_compression (peer_supports_frame_compression version))
  | r => sm_err (response_error r)
  end.

(** The state after success is the [NetworkFilesystem] that is returned. *)
Definition authenticate (username password : list Z) : NM unit :=
  _ ← negotiate;
  call (Request.Authenticate username (MkSecretString password))
    (λ r, match r with Response.AuthenticateAck => Some tt | _ => None end).

(** ** The calls *)

Definition metadata_of (r : Response) : option Metadata :=
  match r with Response.Metadata m => Some m | _ => None end.
Definition created_node (r : Response) : option Metadata :=
  match r with Response.NodeCreated m => Some m | _ => None end.

Definition ping (nonce : Z) : NM Z :=
  call (Request.Ping nonce) (λ r, match r with Response.Pong nonce => Some nonce | _ => None end).
Definition capabilities : NM FilesystemCapabilities :=
  call Request.GetCapabilities (λ r, match r with Response.Capabilities c => Some c | _ => None end).
Definition stat_filesystem : NM FilesystemStats :=
  call Request.StatFilesystem (λ r, match r with Response.FilesystemStats s => Some s | _ => None end).
Definition get_metadata (node : NodeId) : NM Metadata := call (Request.GetMetadata node) metadata_of.

Definition list_directory_snapshot (node : NodeId) : NM DirectorySnapshot :=
  call (Request.ListDirectory node)
    (λ r, match r with
          | Response.DirectoryListing revision entries => Some (DirectorySnapshot.Mk revision entries)
          | _ => None
          end).
Definition list_directory (node : NodeId) : NM (list DirectoryEntry) :=
  s ← list_directory_snapshot node;
  mret (DirectorySnapshot.entries s).
Definition list_directory_view (node : NodeId) (options : DirectoryViewOptions) : NM DirectoryView :=
  list_directory_view_streamed node options.

Definition open_file_with_options (node : NodeId) (options : FileOpenOptions) : NM OpenedFile :=
  call (Request.OpenFile node options)
    (λ r, match r with
          | Response.FileOpened handle revision size => Some (OpenedFile.Mk handle revision size)
          | _ => None
          end).
Definition open_file (node : NodeId) : NM (FileHandle * Z * Z) :=
  opened ← open_file_with_options node FileOpenOptions.READ_ONLY;
  mret (OpenedFile.handle opened, OpenedFile.revision opened, OpenedFile.size opened).
Definition create_file (parent : NodeId) (name : Name) (mode : Z) (options : FileOpenOptions) : NM CreatedFile :=
  call (Request.CreateFile parent name mode options)
    (λ r, match r with
          | Response.FileCreated metadata handle revision size =>
              Some (CreatedFile.Mk metadata (OpenedFile.Mk handle revision size))
          | _ => None
          end).
Definition create_directory (parent : NodeId) (name : Name) (mode : Z) : NM Metadata :=
  call (Request.CreateDirectory parent name mode) created_node.
Definition create_symlink (parent : NodeId) (name : Name) (target : list Z) : NM Metadata :=
  call (Request.CreateSymlink parent name target) created_node.
Definition remove_node (parent : NodeId) (name : Name) (directory : bool) : NM unit :=
  call (Request.RemoveNode parent name directory)
    (λ r, match r with Response.NodeRemoved => Some tt | _ => None end).
Definition rename_node (parent : NodeId) (name : Name) (new_parent : NodeId) (new_name : Name)
    (mode : RenameMode) : NM unit :=
  call (Request.RenameNode parent name new_parent new_name mode)
    (λ r, match r with Response.NodeRenamed => Some tt | _ => None end).
Definition read_link (node : NodeId) : NM (list Z) :=
  call (Request.ReadLink node) (λ r, match r with Response.LinkTarget target => Some target | _ => None end).
Definition create_hard_link (node new_parent : NodeId) (new_name : Name) : NM Metadata :=
  call (Request.CreateHardLink node new_parent new_name)
    (λ r, match r with Response.HardLinkCreated m => Some m | _ => None end).
Definition create_special_node (parent : NodeId) (name : Name) (kind : SpecialNodeKind)
    (mode device_major device_minor : Z) : NM Metadata :=
  call (Request.CreateSpecialNode parent name kind mode device_major device_minor) created_node.
Definition set_attributes (node : NodeId) (handle : option FileHandle) (changes : AttributeChanges) : NM Metadata :=
  call (Request.SetAttributes node handle changes)
    (λ r, match r with Response.AttributesChanged m => Some m | _ => None end).

(** The raw data after a response. *)
Definition receive_exact (recv : option Incoming) (size : Z) : NM (list Z) :=
  i ← sm_lift (ok_or recv ClientError.UnexpectedResponse);
  data ← on_stream i (from_transport (read_exact size));
  mret data.1.

Definition read_range_versioned (handle : FileHandle) (offset length : Z) : NM RangeRead :=
  if length >? MAX_CLIENT_READ_SIZE then sm_err (ClientError.ReadTooLarge MAX_CLIENT_READ_SIZE)
  else
    r ← request (Request.ReadRange handle offset length);
    match r.1 with
    | Response.ReadData revision response_length =>
        if (response_length >? length) || (response_length >? MAX_CLIENT_READ_SIZE)
        then sm_err ClientError.UnexpectedResponse
        else
          data ← receive_exact r.2 response_length;
          mret (RangeRead.Mk revision data)
    | response => sm_err (response_error response)
    end.
Definition read_range (handle : FileHandle) (offset length : Z) : NM (list Z) :=
  r ← read_range_versioned handle offset length;
  mret (RangeRead.data r).

Definition write_range (handle : FileHandle) (offset : Z) (data : list Z) : NM WriteResult :=
  let length := zlen data in
  if (length >? MAX_CLIENT_WRITE_SIZE) || bool_decide (u64_checked_add offset length = None)
  then sm_err (ClientError.WriteTooLarge MAX_CLIENT_WRITE_SIZE)
  else
    r ← request_with_data (Request.WriteRange handle offset length) data;
    match r.1 with
    | Response.WriteComplete written revision size =>
        if written <=? length then mret (WriteResult.Mk written revision size)
        else sm_err ClientError.UnexpectedResponse
    | response => sm_err (response_error response)
    end.

Definition flush_file (handle : FileHandle) (lock_owner : option Z) : NM unit :=
  call (Request.FlushFile handle lock_owner)
    (λ r, match r with Response.FileFlushed => Some tt | _ => None end).
Definition sync_file (handle : FileHandle) (data_only : bool) : NM unit :=
  call (Request.SyncFile handle data_only)
    (λ r, match r with Response.FileSynced => Some tt | _ => None end).
Definition sync_directory (node : NodeId) : NM unit :=
  call (Request.SyncDirectory node)
    (λ r, match r with Response.DirectorySynced => Some tt | _ => None end).
Definition allocate_file (handle : FileHandle) (offset length : Z) : NM WriteResult :=
  call (Request.AllocateFile handle offset length)
    (λ r, match r with
          | Response.FileAllocated revision size => Some (WriteResult.Mk 0 revision size)
          | _ => None
          end).

(** The announced length is not compared with the length that was asked for. *)
Definition get_xattr (node : NodeId) (name : Name) (offset length : Z) : NM XattrRead :=
  if length >? MAX_CLIENT_READ_SIZE then sm_err (ClientError.ReadTooLarge length)
  else
    r ← request (Request.GetXattr node name offset length);
    match r.1 with
    | Response.XattrData length total_size =>
        data ← receive_exact r.2 length;
        mret (XattrRead.Mk total_size data)
    | response => sm_err (response_error response)
    end.
Definition set_xattr (node : NodeId) (name : Name) (value : list Z) (mode : XattrSetMode) (position : Z)
    : NM unit :=
  let length := zlen value in
  if length >? MAX_CLIENT_WRITE_SIZE then sm_err (ClientError.WriteTooLarge length)
  else
    r ← request_with_data (Request.SetXattr node name mode position length) value;
    expect (λ r, match r with Response.XattrSet => Some tt | _ => None end) r.1.
Definition list_xattrs (node : NodeId) : NM (list Name) :=
  call (Request.ListXattrs node) (λ r, match r with Response.XattrNames names => Some names | _ => None end).
Definition remove_xattr (node : NodeId) (name : Name) : NM unit :=
  call (Request.RemoveXattr node name)
    (λ r, match r with Response.XattrRemoved => Some tt | _ => None end).

Definition copy_file_range (input : FileHandle) (input_offset : Z) (output : FileHandle)
    (output_offset length : Z) : NM WriteResult :=
  call (Request.CopyFileRange input input_offset output output_offset length)
    (λ r, match r with
          | Response.RangeCopied copied revision size => Some (WriteResult.Mk copied revision size)
          | _ => None
          end).
Definition seek_file (handle : FileHandle) (offset : Z) (whence : SeekWhence) : NM Z :=
  call (Request.SeekFile handle offset whence)
    (λ r, match r with Response.FileSeeked offset => Some offset | _ => None end).
Definition safe_ioctl (handle : FileHandle) (operation : SafeIoctl) : NM Z :=
  call (Request.SafeIoctl handle operation)
    (λ r, match r with Response.IoctlResult value => Some value | _ => None end).
Definition map_block (node : NodeId) (block_size block : Z) : NM Z :=
  call (Request.MapBlock node block_size block)
    (λ r, match r with Response.BlockMapped block => Some block | _ => None end).
Definition exchange_data (parent : NodeId) (name : Name) (new_parent : NodeId) (new_name : Name)
    (options : Z) : NM unit :=
  call (Request.ExchangeData parent name new_parent new_name options)
    (λ r, match r with Response.DataExchanged => Some tt | _ => None end).
Definition set_volume_name (name : Name) : NM unit :=
  call (Request.SetVolumeName name) (λ r, match r with Response.VolumeNameSet => Some tt | _ => None end).
Definition forget_nodes (nodes : list NodeId) : NM unit :=
  call (Request.ForgetNodes nodes) (λ r, match r with Response.NodesForgotten => Some tt | _ => None end).
Definition get_lock (handle : FileHandle) (lock : FileLock) : NM (option FileLock) :=
  call (Request.GetLock handle lock)
    (λ r, match r with Response.LockStatus conflict => Some conflict | _ => None end).
Definition set_lock (handle : FileHandle) (lock : FileLock) (wait : bool) : NM unit :=
  call (Request.SetLock handle lock wait)
    (λ r, match r with Response.LockUpdated => Some tt | _ => None end).
Definition close_file (handle : FileHandle) : NM unit :=
  call (Request.CloseFile handle) (λ r, match r with Response.FileClosed => Some tt | _ => None end).

(** ** Metadata of several nodes *)

(** One request per node; a failure takes its own slot. *)
Fixpoint get_each (nodes : list NodeId) : NM (list (result ClientError Metadata)) :=
  match nodes with
  | [] => mret []
  | node :: nodes' =>
      r ← sm_try (get_metadata node);
      rest ← get_each nodes';
      mret (r :: rest)
  end.

Definition batched (entry : BatchedMetadata) : result ClientError Metadata :=
  match entry with
  | BatchedMetadata.Found metadata => Ok metadata
  | BatchedMetadata.Failed code => Err (ClientError.Server code (lit "metadata unavailable"))
  end.

(** One chunk of the batch; anything but a reply of the right length falls back
    to one request per node. *)
Definition batch_chunk (chunk : list NodeId) : NM (list (result ClientError Metadata)) :=
  r ← sm_try (request (Request.GetMetadataBatch chunk));
  match r with
  | Ok (Response.MetadataBatch batch, _) =>
      if zlen batch =? zlen chunk then mret (map batched batch) else get_each chunk
  | _ => get_each chunk
  end.

(** [nodes.chunks(MAX_METADATA_BATCH)]; every iteration takes at least one node. *)
Fixpoint batch_loop (fuel : nat) (nodes : list NodeId) : NM (list (result ClientError Metadata)) :=
  match fuel, nodes with
  | S fuel', _ :: _ =>
      let n := Z.to_nat MAX_METADATA_BATCH in
      results ← batch_chunk (take n nodes);
      rest ← batch_loop fuel' (drop n nodes);
      mret (results ++ rest)
  | _, _ => mret []
  end.

Definition get_metadata_batch (nodes : list NodeId) : NM (list (result ClientError Metadata)) :=
  if bool_decide (nodes = []) then mret []
  else
    n ← sm_get;
    if negb (peer_supports_metadata_batch (QuicClient.server_version (NetworkFilesystem.transport n)))
    then get_each nodes
    else batch_loop (length nodes) nodes.
End network.
Arguments batch_loop : simpl never.

(** * The interface *)

(** What a client of the network is given at compile time. *)
Class Wire := {
  wire_uuid : nat → RequestId;
  wire_request : Envelope Request → option (list Z);
  wire_response : list Z → option (Envelope Response);
  wire_compress : list Z → Z → option (list Z);
  wire_decompress : list Z → Z → option (list Z)
}.

#[global] Instance network_remote `{Quic Q, Wire} : RemoteFilesystem (NetworkFilesystem Q) := {|
  perform A c :=
    let u := wire_uuid in let q := wire_request in let p := wire_response in
    let z := wire_compress in let d := wire_decompress in
    match c in remote_call A return SM (NetworkFilesystem Q) ClientError A with
    | Ping nonce => ping u q p z d nonce
    | Capabilities => capabilities u q p z d
    | StatFilesystem => stat_filesystem u q p z d
    | GetMetadata node => get_metadata u q p z d node
    | ListDirectorySnapshot node => list_directory_snapshot u q p z d node
    | ListDirectoryView node options => list_directory_view u q p z d node options
    | OpenFileWithOptions node options => open_file_with_options u q p z d node options
    | CreateFile parent name mode options => create_file u q p z d parent name mode options
    | CreateDirectory parent name mode => create_directory u q p z d parent name mode
    | CreateSymlink parent name target => create_symlink u q p z d parent name target
    | CreateHardLink node new_parent new_name => create_hard_link u q p z d node new_parent new_name
    | CreateSpecialNode parent name kind mode major minor =>
        create_special_node u q p z d parent name kind mode major minor
    | RemoveNode parent name directory => remove_node u q p z d parent name directory
    | RenameNode parent name new_parent new_name mode => rename_node u q p z d parent name new_parent new_name mode
    | ReadLink node => read_link u q p z d node
    | SetAttributes node handle changes => set_attributes u q p z d node handle changes
    | ReadRangeVersioned handle offset length => read_range_versioned u q p z d handle offset length
    | WriteRange handle offset data => write_range u q p z d handle offset data
    | FlushFile handle lock_owner => flush_file u q p z d handle lock_owner
    | SyncFile handle data_only => sync_file u q p z d handle data_only
    | SyncDirectory node => sync_directory u q p z d node
    | AllocateFile handle offset length => allocate_file u q p z d handle offset length
    | GetXattr node name offset length => get_xattr u q p z d node name offset length
    | SetXattr node name value mode position => set_xattr u q p z d node name value mode position
    | ListXattrs node => list_xattrs u q p z d node
    | RemoveXattr node name => remove_xattr u q p z d node name
    | CopyFileRange input input_offset output output_offset length =>
        copy_file_range u q p z d input input_offset output output_offset length
    | SeekFile handle offset whence => seek_file u q p z d handle offset whence
    | SafeIoctlCall handle operation => safe_ioctl u q p z d handle operation
    | MapBlock node block_size block => map_block u q p z d node block_size block
    | ExchangeData parent name new_parent new_name options =>
        exchange_data u q p z d parent name new_parent new_name options
    | SetVolumeName name => set_volume_name u q p z d name
    | ForgetNodes nodes => forget_nodes u q p z d nodes
    | GetLock handle lock => get_lock u q p z d handle lock
    | SetLock handle lock wait => set_lock u q p z d handle lock wait
    | CloseFile handle => close_file u q p z d handle
    end
|}.

(** * Pairing *)

Section pairing.
Context {Q : Type} `{Quic Q, Wire, Base64Url}.
Context (sha256 : list Z → list Z) (hmac_sha256 : list Z → list Z → option (list Z))
  (uuid_bytes : Z → list Z) (auth_text : AuthError → list Z) (decimal : Z → list Z).

(** [random] is what [getrandom] gives; the state is the [PairingClient]. *)
Definition verify_pairing (fresh : RequestId) (random : option (list Z)) (pairing_id : Z)
    (pairing_code : list Z) : SM (QuicClient Q) ClientError (list Z) :=
  secret ← sm_lift (map_err (λ e, ClientError.Server ErrorCode.Unauthenticated (auth_text e))
                      (parse_pairing_code pairing_code));
  transport ← sm_get;
  presented ← sm_lift (map_err ClientError.Transport (peer_certificate_fingerprint sha256 transport));
  nonce ← sm_lift (ok_or random ClientError.UnexpectedResponse);
  proof ← sm_lift (map_err (λ _, ClientError.UnexpectedResponse)
                     (client_proof hmac_sha256 uuid_bytes secret pairing_id presented nonce));
  response ← from_transport (pair wire_request wire_response wire_compress wire_decompress decimal
                               fresh pairing_id nonce proof);
  match response with
  | Response.PairingProof certificate_fingerprint proof =>
      if negb (bool_decide (presented = certificate_fingerprint)) then
        sm_err ClientError.UnexpectedResponse
      else if negb (verify_server_proof hmac_sha256 uuid_bytes secret pairing_id certificate_fingerprint
                      nonce (proof_bytes proof)) then
        sm_err (ClientError.Server ErrorCode.Unauthenticated
                  (lit "pairing code did not authenticate this server"))
      else mret certificate_fingerprint
  | other => sm_err (response_error other)
  end.
End pairing.

(** * Helpers over any layer *)

Section layers.
Context {R : Type} `{RemoteFilesystem R}.

Fixpoint resolve_parts (node : NodeId) (parts : list (list Z)) : SM R ClientError NodeId :=
  match parts with
  | [] => mret node
  | part :: parts' =>
      listing ← perform (ListDirectorySnapshot node);
      match List.find (λ e, bool_decide (DirectoryEntry.name e = part)) (DirectorySnapshot.entries listing) with
      | Some entry => resolve_parts (DirectoryEntry.node entry) parts'
      | None => sm_err (ClientError.Server ErrorCode.NotFound part)
      end
  end.

(** The path is a string of UTF-8 bytes. *)
Definition resolve_path (path : list Z) : SM R ClientError NodeId :=
  resolve_parts ROOT_NODE (List.filter (λ part, negb (bool_decide (part = []))) (split_on 47 path)).

(** The view of a layer that has no view of its own: a listing and the metadata
    of the directory, which [try_join] asks for in this order. *)
Definition list_directory_view_default (node : NodeId) : SM R ClientError DirectoryView :=
  snapshot ← perform (ListDirectorySnapshot node);
  directory ← perform (GetMetadata node);
  mret (DirectoryView.Mk (DirectorySnapshot.revision snapshot) directory directory None
          (map (λ entry, DirectoryViewEntry.Mk entry None) (DirectorySnapshot.entries snapshot))).
End layers.

Module DelayedFilesystem.
(** [waits] counts the sleeps of [delay]. *)
Record DelayedFilesystem (R : Type) := Mk { inner : R; waits : Z }.
Arguments Mk {R} _ _.
Arguments inner {R} _.
Arguments waits {R} _.
End DelayedFilesystem.
Abbreviation DelayedFilesystem := DelayedFilesystem.DelayedFilesystem.

Section delayed.
Context {R : Type} `{RemoteFilesystem R}.
Abbreviation D := (DelayedFilesystem R).

Definition delayed_wait : SM D ClientError unit :=
  sm_modify (λ d, DelayedFilesystem.Mk (DelayedFilesystem.inner d) (DelayedFilesystem.waits d + 1)).
Definition on_inner {A} (m : SM R ClientError A) : SM D ClientError A := λ d,
  let '(r, i) := m (DelayedFilesystem.inner d) in (r, DelayedFilesystem.Mk i (DelayedFilesystem.waits d)).
Definition delayed_call {A} (c : remote_call A) : SM D ClientError A :=
  _ ← delayed_wait;
  on_inner (perform c).

(** Views use the default of the interface on the delayed calls. *)
#[global] Instance delayed_remote : RemoteFilesystem D := {|
  perform A c :=
    match c in remote_call A return SM D ClientError A with
    | ListDirectoryView node _ =>
        snapshot ← delayed_call (ListDirectorySnapshot node);
        directory ← delayed_call (GetMetadata node);
        mret (DirectoryView.Mk (DirectorySnapshot.revision snapshot) directory directory None
                (map (λ entry, DirectoryViewEntry.Mk entry None) (DirectorySnapshot.entries snapshot)))
    | c => delayed_call c
    end
|}.
End delayed.
