(* ===== verification/NetworkFacts.v ===== *)
(** What the client may rely on whatever the other side sends: bounds on the
    answers of the network file system over any connection. *)

From S2P Require Import Prelude Protocol Common StateFiles Transport ViewStream CacheRanges FsCache Remote Prefetch Network.

(** * Frames *)

(** However large a peer announces a frame, no more than its limit is read. *)
Lemma read_frame_bounded {T} (from : list Z → option T) decompress i v i' :
  is_bytes (Incoming.arrived i) → read_frame from decompress i = (Ok v, i') →
  zlen (Incoming.arrived i) ≤ zlen (Incoming.arrived i') + 4 + MAX_FRAME_SIZE.
Proof.
  intros Hb. unfold read_frame. sm_unfold. destruct (read_exact 4 i) as [[prefix|] i1] eqn:E1; [|done].
  destruct (parse_frame_header _) as [[c n]|] eqn:Eh; simpl; [|done].
  destruct (read_exact n i1) as [[body|] i2] eqn:E2; [|done].
  destruct (decode_frame _ _ _ _); simpl; [|done]. intros [= -> <-].
  apply read_exact_spec in E1 as (Hp & Ha1 & _); [|lia].
  apply parse_frame_header_bounded in Eh.
  2: { unfold from_be_bytes. rewrite Ha1 in Hb. apply Forall_app in Hb as [Hb _].
       apply Forall_rev in Hb. induction Hb as [|x l Hx _ IH]; simpl; [done|]. destruct Hx. lia. }
  apply read_exact_spec in E2 as (Hn & Ha2 & _); [|lia]. rewrite Ha1, Ha2, !zlen_app. lia.
Qed.

(** * Views *)

Section view.
Context (from : list Z → option (Envelope Response)) (decompress : list Z → Z → option (list Z)).

Lemma collect_chunks_bounded fuel id acc i entries i' :
  zlen acc ≤ MAX_DIRECTORY_ENTRIES →
  collect_chunks from decompress fuel id acc i = (Ok entries, i') → zlen entries ≤ MAX_DIRECTORY_ENTRIES.
Proof.
  revert acc i. induction fuel as [|fuel IH]; intros acc i Hacc; cbn [collect_chunks]; [done|]. sm_unfold.
  destruct (receive_frame _ _ i) as [[frame|] i1]; [|done]. destruct (negb _); [done|].
  destruct (Envelope.message frame); try done; [|by intros [= <- _]].
  destruct (_ >? _) eqn:E; [done|]. bool_simpl. apply IH. rewrite zlen_app.
  unfold u64_saturating_add, MAX_DIRECTORY_ENTRIES, u64_max in *. lia.
Qed.

(** A view that arrived is one frame of the peer, or has a bounded number of
    entries. *)
Lemma receive_view_bounded id i v i' :
  receive_directory_view from decompress id i = (Ok v, i') →
  (∃ version id', (receive_frame from decompress i).1 = Ok (Envelope.Mk version id' (Response.DirectoryView v))) ∨
  zlen (DirectoryView.entries v) ≤ MAX_DIRECTORY_ENTRIES.
Proof.
  unfold receive_directory_view. sm_unfold. destruct (receive_frame _ _ i) as [[[version rid m]|] i1]; [|done].
  destruct (negb _) eqn:Ee; [done|]. cbn [Envelope.message Envelope.version Envelope.request_id fst snd]. clear Ee.
  intros Hrun. destruct m; try done; [injection Hrun as <- _; left; by eexists _, _|]. right.
  destruct (collect_chunks _ _ _ _ _ _) as [[l|] i2] eqn:Ec in Hrun; [|done]. injection Hrun as <- _.
  by eapply collect_chunks_bounded; [|exact Ec].
Qed.
End view.

(** A view came in one frame of the peer, whose size is bounded, or in chunks
    with a bounded number of entries. *)
Definition view_bounded (from : list Z → option (Envelope Response))
    (decompress : list Z → Z → option (list Z)) (v : DirectoryView) : Prop :=
  zlen (DirectoryView.entries v) ≤ MAX_DIRECTORY_ENTRIES ∨
  ∃ version id i, (receive_frame from decompress i).1 = Ok (Envelope.Mk version id (Response.DirectoryView v)).

(** * Calls *)

Section calls.
Context {Q : Type} `{Quic Q}.
Context (uuid : nat → RequestId) (to : Envelope Request → option (list Z))
  (from : list Z → option (Envelope Response)) (compress decompress : list Z → Z → option (list Z)).

Lemma receive_exact_length i size (n n' : NetworkFilesystem Q) data :
  receive_exact i size n = (Ok data, n') → zlen data = Z.max 0 size.
Proof.
  unfold receive_exact, on_stream, from_transport. sm_unfold. destruct i as [i|]; [|done]. simpl.
  destruct (read_exact size i) as [[d|] i'] eqn:E; [|done]. simpl. intros [= <- _].
  destruct (decide (0 ≤ size)).
  - apply read_exact_spec in E as (-> & _); lia.
  - unfold read_exact in E. case_match; [|done]. simplify_eq. rewrite Z2Nat.nonpos by lia. unfold zlen. simpl. lia.
Qed.

Lemma get_each_length nodes (n : NetworkFilesystem Q) :
  ∃ rs n', get_each uuid to from compress decompress nodes n = (Ok rs, n') ∧ length rs = length nodes.
Proof.
  revert n. induction nodes as [|node nodes IH]; intros n; cbn [get_each]; [by exists [], n|].
  sm_unfold. destruct (get_metadata _ _ _ _ _ node n) as [r n1].
  destruct (IH n1) as (rs & n2 & -> & Hl). exists (r :: rs), n2. split; [done|]. simpl. lia.
Qed.

Lemma batch_chunk_length nodes (n : NetworkFilesystem Q) :
  ∃ rs n', batch_chunk uuid to from compress decompress nodes n = (Ok rs, n') ∧ length rs = length nodes.
Proof.
  unfold batch_chunk. sm_unfold. destruct (request _ _ _ _ _ _ n) as [[[r raw]|e] n1]; [|apply get_each_length].
  destruct r; try apply get_each_length. destruct (_ =? _) eqn:E; [|apply get_each_length].
  bool_simpl. exists (map batched results), n1. split; [done|]. rewrite length_map. unfold zlen in E. lia.
Qed.

Lemma batch_loop_length fuel nodes (n : NetworkFilesystem Q) :
  (length nodes ≤ fuel)%nat →
  ∃ rs n', batch_loop uuid to from compress decompress fuel nodes n = (Ok rs, n') ∧ length rs = length nodes.
Proof.
  revert nodes n. induction fuel as [|fuel IH]; intros nodes n Hl; destruct nodes as [|node nodes];
    try (simpl in Hl; lia).
  1-2: by exists [], n.
  set (k := Z.to_nat MAX_METADATA_BATCH). assert (0 < k)%nat by (unfold k, MAX_METADATA_BATCH; lia).
  destruct (batch_chunk_length (take k (node :: nodes)) n) as (r1 & n1 & E1 & H1).
  destruct (IH (drop k (node :: nodes)) n1) as (r2 & n2 & E2 & H2); [rewrite length_drop; simpl in *; lia|].
  assert (∀ l, batch_loop uuid to from compress decompress (S fuel) (node :: nodes) l =
    (results ← batch_chunk uuid to from compress decompress (take k (node :: nodes));
     rest ← batch_loop uuid to from compress decompress fuel (drop k (node :: nodes));
     mret (results ++ rest)) l) as -> by done.
  sm_unfold. rewrite E1, E2. exists (r1 ++ r2), n2. split; [done|].
  rewrite length_app, H1, H2, length_take, length_drop. lia.
Qed.

(** C11: No peer makes the client accept more than it asked for.
    Over every connection, whatever arrives on it: a read returns at most the
    bytes that were asked for and at most the client's limit, a write never
    reports more bytes than were sent, a batch of metadata ends with exactly one
    result for every node, and a view has a bounded number of entries unless it
    came in a single frame. *)
Theorem answers_bounded (n : NetworkFilesystem Q) handle offset length data nodes node options :
  0 ≤ length →
  (∀ r n', read_range_versioned uuid to from compress decompress handle offset length n = (Ok r, n') →
     zlen (RangeRead.data r) ≤ length ≤ MAX_CLIENT_READ_SIZE) ∧
  (∀ w n', write_range uuid to from compress decompress handle offset data n = (Ok w, n') →
     WriteResult.written w ≤ zlen data ≤ MAX_CLIENT_WRITE_SIZE) ∧
  (∃ rs n', get_metadata_batch uuid to from compress decompress nodes n = (Ok rs, n') ∧
     List.length rs = List.length nodes) ∧
  (∀ v n', list_directory_view uuid to from compress decompress node options n = (Ok v, n') →
     view_bounded from decompress v).
Proof.
  intros Hl. split_and!.
  - intros r n'. unfold read_range_versioned. destruct (length >? _) eqn:E; [done|]. bool_simpl. sm_unfold.
    destruct (request _ _ _ _ _ _ n) as [[[resp raw]|] n1]; [|done]. destruct resp; try done. simpl.
    destruct (_ || _) eqn:E2; [done|]. bool_simpl.
    destruct (receive_exact _ _ _) as [[d|] n2] eqn:Er; [|done]. intros [= <- _]. simpl.
    apply receive_exact_length in Er. lia.
  - intros w n'. unfold write_range. destruct (_ || _) eqn:E; [done|]. bool_simpl. sm_unfold.
    destruct (request_with_data _ _ _ _ _ _ _ n) as [[[resp raw]|] n1]; [|done]. destruct resp; try done. simpl.
    destruct (_ <=? _) eqn:E2; [|done]. bool_simpl. intros [= <- _]. simpl. lia.
  - unfold get_metadata_batch. case_bool_decide; [subst; by exists [], n|]. sm_unfold.
    destruct (negb _); [apply get_each_length|]. by apply batch_loop_length.
  - intros v n'. unfold list_directory_view, list_directory_view_streamed. unfold mbind, sm_bind.
    destruct (new_envelope _ _ n) as [[e|] n1]; [|done].
    destruct (on_transport stream n1) as [[s|] n2]; [|done].
    destruct (on_transport (send_frame _ _ _ _) n2) as [[[]|] n3]; [|done].
    destruct (on_transport (finish_stream _) n3) as [[[]|] n4]; [|done].
    destruct (on_transport (receive _) n4) as [[i|] n5]; [|done].
    unfold on_stream. destruct (receive_directory_view _ _ _ _) as [[v'|] i'] eqn:Ev; [|done].
    sm_unfold. simpl. intros [= <- _]. apply receive_view_bounded in Ev as [(version & id & Hv)|Hv]; [|by left].
    right. by exists version, id, i.
Qed.
End calls.
