(* ===== verification/EndToEnd.v ===== *)
(** The client and the daemon joined: the network file system over a connection
    that carries its bytes, unchanged and in order, to the daemon's request
    handler ([servers/linux/server-daemon/src/main.rs], [handle]) and the
    handler's bytes back.  A call of the client is then the operation of the
    export session that it stands for. *)

From S2P Require Import Prelude Protocol Common StateFiles Transport Auth AuthFacts RateLimiter ViewStream Locks Registry XattrNames FileIO Attributes HostDirs Forks Session ExportState Daemon CacheRanges FsCache Remote Prefetch Network.

(** * The request of a call *)

Definition request_of {A} (c : remote_call A) : Request :=
  match c with
  | Ping nonce => Request.Ping nonce
  | Capabilities => Request.GetCapabilities
  | StatFilesystem => Request.StatFilesystem
  | GetMetadata node => Request.GetMetadata node
  | ListDirectorySnapshot node => Request.ListDirectory node
  | ListDirectoryView node options => Request.ListDirectoryView node options
  | OpenFileWithOptions node options => Request.OpenFile node options
  | CreateFile parent name mode options => Request.CreateFile parent name mode options
  | CreateDirectory parent name mode => Request.CreateDirectory parent name mode
  | CreateSymlink parent name target => Request.CreateSymlink parent name target
  | CreateHardLink node new_parent new_name => Request.CreateHardLink node new_parent new_name
  | CreateSpecialNode parent name kind mode major minor =>
      Request.CreateSpecialNode parent name kind mode major minor
  | RemoveNode parent name directory => Request.RemoveNode parent name directory
  | RenameNode parent name new_parent new_name mode => Request.RenameNode parent name new_parent new_name mode
  | ReadLink node => Request.ReadLink node
  | SetAttributes node handle changes => Request.SetAttributes node handle changes
  | ReadRangeVersioned handle offset length => Request.ReadRange handle offset length
  | WriteRange handle offset data => Request.WriteRange handle offset (zlen data)
  | FlushFile handle lock_owner => Request.FlushFile handle lock_owner
  | SyncFile handle data_only => Request.SyncFile handle data_only
  | SyncDirectory node => Request.SyncDirectory node
  | AllocateFile handle offset length => Request.AllocateFile handle offset length
  | GetXattr node name offset length => Request.GetXattr node name offset length
  | SetXattr node name value mode position => Request.SetXattr node name mode position (zlen value)
  | ListXattrs node => Request.ListXattrs node
  | RemoveXattr node name => Request.RemoveXattr node name
  | CopyFileRange input input_offset output output_offset length =>
      Request.CopyFileRange input input_offset output output_offset length
  | SeekFile handle offset whence => Request.SeekFile handle offset whence
  | SafeIoctlCall handle operation => Request.SafeIoctl handle operation
  | MapBlock node block_size block => Request.MapBlock node block_size block
  | ExchangeData parent name new_parent new_name options =>
      Request.ExchangeData parent name new_parent new_name options
  | SetVolumeName name => Request.SetVolumeName name
  | ForgetNodes nodes => Request.ForgetNodes nodes
  | GetLock handle lock => Request.GetLock handle lock
  | SetLock handle lock wait => Request.SetLock handle lock wait
  | CloseFile handle => Request.CloseFile handle
  end.

(** The raw data after the request. *)
Definition body_of {A} (c : remote_call A) : list Z :=
  match c with
  | WriteRange _ _ data => data
  | SetXattr _ _ value _ _ => value
  | _ => []
  end.

Section joined.
Context {H : Type} `{HF : HostFiles H} `{HD : HostDirs H}.
Context {F : Type} `{SF : StateFs F} `{AR : Argon2} `{B64 : Base64Url}.
Context (sha256 : list Z → list Z) (b64_encode : list Z → list Z)
  (b64_decode : list Z → option (list Z)) (major minor : Z → Z)
  (stable_node_id : FileIdentity → NodeId)
  (hash_order : gset NodeId → list NodeId) (fresh_handle : gset FileHandle → FileHandle).
Context (cfg : ExportConfig).
Context (users_from_json : list Z → result (list Z) UserDatabase)
  (pairing_from_json : list Z → result (list Z) PairingRecord)
  (hmac_sha256 : list Z → list Z → option (list Z)) (uuid_bytes uuid_text : Z → list Z)
  (hex_encode : list Z → list Z) (record_to_json : PersistentExportRecord → option (list Z))
  (node_key : list Z) (persistence : option PersistentExportState)
  (root : Path) (fingerprint : list Z) (peer_ip : IpAddr).
Context (response_to : Envelope Response → option (list Z))
  (request_from : list Z → option (Envelope Request))
  (entry_to : DirectoryViewEntry → option (list Z)) (decimal : Z → list Z).
Context `{W : Wire}.
(** What the requests draw from the environment of the daemon. *)
Context (draws : nat → Draws) (certificates : list (list Z)).

Abbreviation dispatch := (dispatch sha256 b64_encode b64_decode major minor stable_node_id hash_order
  fresh_handle cfg users_from_json pairing_from_json hmac_sha256 uuid_bytes uuid_text hex_encode
  record_to_json node_key persistence root fingerprint peer_ip response_to decimal).
Abbreviation handle := (handle sha256 b64_encode b64_decode major minor stable_node_id hash_order
  fresh_handle cfg users_from_json pairing_from_json hmac_sha256 uuid_bytes uuid_text hex_encode
  record_to_json node_key persistence root fingerprint peer_ip response_to entry_to wire_compress
  decimal).
Abbreviation Ctx := (RequestContext H F).

(** * The connection *)

(** [handle] with the bytes of its stream: the frame of the request, then the
    body.  Without an answer the stream ends empty. *)
Definition serve_stream (d : Draws) (sent : list Z) (c : Ctx) : list Z * Ctx :=
  match read_frame request_from wire_decompress (Incoming.Mk sent TransportError.Read) with
  | (Ok request, rest) =>
      match handle d request (Incoming.arrived rest) c with
      | (Ok (frames, raw), c') => (wire frames ++ raw, c')
      | (Err _, c') => ([], c')
      end
  | (Err _, _) => ([], c)
  end.

(** The context of the daemon, the bytes on every stream in both directions, and
    the numbers of streams opened and of requests served. *)
Record Direct := MkDirect {
  server : Ctx;
  sent : gmap Z (list Z);
  replies : gmap Z (list Z);
  opened : Z;
  served : nat
}.

#[local] Instance direct_quic : Quic Direct := {|
  open_bi q :=
    (Ok (opened q), MkDirect (server q) (<[opened q := []]> (sent q)) (replies q) (opened q + 1) (served q));
  write_all s b q :=
    (Ok tt, MkDirect (server q) (<[s := default [] (sent q !! s) ++ b]> (sent q)) (replies q)
              (opened q) (served q));
  finish s q :=
    let '(reply, c) := serve_stream (draws (served q)) (default [] (sent q !! s)) (server q) in
    (Ok tt, MkDirect c (sent q) (<[s := reply]> (replies q)) (opened q) (S (served q)));
  incoming q s := (Incoming.Mk (default [] (replies q !! s)) TransportError.Read, q);
  peer_identity _ := Some (Some certificates);
  close_connection q := q
|}.

Abbreviation Client := (NetworkFilesystem Direct).
Definition link (n : Client) : Direct := QuicClient.connection (NetworkFilesystem.transport n).
Definition context (n : Client) : Ctx := server (link n).

(** The client after an exchange of [out] for [back] that left the daemon in [c]. *)
Definition exchanged (n : Client) (out back : list Z) (c : Ctx) : Client :=
  let q := link n in
  NetworkFilesystem.Mk
    (with_connection
       (MkDirect c (<[opened q := out]> (sent q)) (<[opened q := back]> (replies q)) (opened q + 1)
          (S (served q))) (NetworkFilesystem.transport n))
    (S (NetworkFilesystem.drawn n)).

(** * What a call is worth on the session *)

(** A result as the client reports it. *)
Definition reported {A} (r : result ServerError A) : result ClientError A :=
  map_err (λ e, let p := server_error_protocol e in
    ClientError.Server (ProtocolError.code p) (ProtocolError.message p)) r.

Definition exported {A B} (m : SS (H:=H) A) (f : A → B) (c : Ctx) : result ClientError B * Ctx :=
  let '(r, s) := m (export c) in (f <$> reported r, set_export s c).

(** The answer that the client misses when the handler waits or fails: its
    stream ends without a frame. *)
Definition no_answer {A} : result ClientError A := Err (ClientError.Transport TransportError.Read).

(** The operation of the session that a call stands for.  Only three calls are
    more: a listing must fit a frame, a lock that has to wait waits until its
    request times out, and the name of the volume is also stored. *)
Definition session_call {A} (d : Draws) (id : RequestId) (call : remote_call A) : Ctx → result ClientError A * Ctx :=
  match call in remote_call A return Ctx → result ClientError A * Ctx with
  | Ping nonce => λ c, (Ok nonce, c)
  | Capabilities => λ c, (Ok (Session.capabilities cfg (export c)), c)
  | StatFilesystem => exported (Session.stat_filesystem cfg) (λ s, s)
  | GetMetadata node => exported (metadata sha256 major minor stable_node_id hash_order cfg node) (λ m, m)
  | ListDirectorySnapshot node => λ c,
      let '(r, s) := list_with_revision sha256 b64_encode b64_decode major minor stable_node_id hash_order
                       cfg node (export c) in
      (l ← reported r;
       if is_ok (encode response_to (Envelope.Mk PROTOCOL_VERSION id (Response.DirectoryListing l.1 l.2)))
       then Ok (DirectorySnapshot.Mk l.1 l.2)
       else Err (ClientError.Server ErrorCode.TooLarge (lit "directory listing exceeds the control-frame limit")),
       set_export s c)
  | ListDirectoryView node options =>
      exported (directory_view sha256 b64_encode b64_decode major minor stable_node_id hash_order cfg node
                  options) (λ v, v)
  | OpenFileWithOptions node options =>
      exported (open sha256 stable_node_id hash_order fresh_handle cfg node options)
        (λ r, OpenedFile.Mk r.1.1 r.1.2 r.2)
  | CreateFile parent name mode options =>
      exported (Session.create_file sha256 major minor stable_node_id hash_order fresh_handle cfg parent name
                  mode options) (λ r, CreatedFile.Mk r.1.1.1 (OpenedFile.Mk r.1.1.2 r.1.2 r.2))
  | CreateDirectory parent name mode =>
      exported (Session.create_directory sha256 major minor stable_node_id hash_order cfg parent name mode)
        (λ m, m)
  | CreateSymlink parent name target =>
      exported (Session.create_symlink sha256 major minor stable_node_id hash_order cfg parent name target)
        (λ m, m)
  | CreateHardLink node new_parent new_name =>
      exported (Session.create_hard_link sha256 major minor stable_node_id hash_order cfg node new_parent
                  new_name) (λ m, m)
  | CreateSpecialNode parent name kind mode dmajor dminor =>
      exported (Session.create_special_node sha256 major minor stable_node_id hash_order cfg parent name kind
                  mode dmajor dminor) (λ m, m)
  | RemoveNode parent name directory =>
      exported (Session.remove_node stable_node_id hash_order cfg parent name directory) (λ _, tt)
  | RenameNode parent name new_parent new_name mode =>
      exported (Session.rename_node stable_node_id hash_order cfg parent name new_parent new_name mode)
        (λ _, tt)
  | ReadLink node => exported (Session.read_link stable_node_id hash_order cfg node) (λ t, t)
  | SetAttributes node handle changes =>
      exported (Session.set_attributes sha256 major minor stable_node_id hash_order cfg node handle changes)
        (λ m, m)
  | ReadRangeVersioned handle offset length =>
      exported (read sha256 cfg handle offset length) (λ r, RangeRead.Mk r.1 r.2)
  | WriteRange handle offset data =>
      exported (write_owned sha256 cfg handle offset data) (λ r, WriteResult.Mk r.1.1 r.1.2 r.2)
  | FlushFile handle lock_owner => exported (flush cfg handle lock_owner) (λ _, tt)
  | SyncFile handle data_only => exported (sync handle data_only) (λ _, tt)
  | SyncDirectory node => exported (Session.sync_directory stable_node_id hash_order cfg node) (λ _, tt)
  | AllocateFile handle offset length =>
      exported (allocate sha256 cfg handle offset length) (λ r, WriteResult.Mk 0 r.1 r.2)
  | GetXattr node name offset length =>
      exported (Session.get_xattr b64_encode stable_node_id hash_order cfg node name offset length)
        (λ r, XattrRead.Mk r.1 r.2)
  | SetXattr node name value mode position =>
      exported (Session.set_xattr b64_encode stable_node_id hash_order cfg node name value mode position)
        (λ _, tt)
  | ListXattrs node => exported (Session.list_xattrs b64_decode stable_node_id hash_order cfg node) (λ l, l)
  | RemoveXattr node name =>
      exported (Session.remove_xattr b64_encode stable_node_id hash_order cfg node name) (λ _, tt)
  | CopyFileRange input input_offset output output_offset length =>
      exported (Session.copy_file_range sha256 cfg input input_offset output output_offset length)
        (λ r, WriteResult.Mk r.1.1 r.1.2 r.2)
  | SeekFile handle offset whence => exported (Session.seek_file handle offset whence) (λ z, z)
  | SafeIoctlCall handle operation => exported (Session.safe_ioctl handle operation) (λ z, z)
  | MapBlock node block_size block =>
      exported (Session.map_block stable_node_id hash_order cfg node block_size block) (λ z, z)
  | ExchangeData parent name new_parent new_name options =>
      exported (Session.exchange_data sha256 b64_encode b64_decode major minor stable_node_id hash_order cfg
                  (Draws.exchange_name d) parent name new_parent new_name options) (λ _, tt)
  | SetVolumeName name => λ c,
      let '(r, sf) := ExportState.set_volume_name hex_encode record_to_json cfg node_key persistence
                        (Draws.temporary d) name (export c, auth_root c) in
      ((λ _, tt) <$> reported r, set_root sf.2 (set_export sf.1 c))
  | ForgetNodes nodes => exported (reg (Registry.forget_nodes hash_order nodes)) (λ _, tt)
  | GetLock handle lock => exported (Session.get_lock cfg handle lock) (λ l, l)
  | SetLock handle lock wait => λ c,
      let '(r, s) := Session.set_lock cfg handle lock wait (export c) in
      (granted ← reported r; if (granted : bool) then Ok tt else no_answer, set_export s c)
  | CloseFile handle => exported (Session.close cfg handle) (λ _, tt)
  end.

(** ** Conditions *)

(** Reads and writes within the limits of both sides, with capacity free. *)
Definition admitted {A} (call : remote_call A) (c : Ctx) : Prop :=
  match call with
  | ReadRangeVersioned _ offset length | GetXattr _ _ offset length =>
      0 ≤ offset ∧ 0 ≤ length ≤ MAX_CLIENT_READ_SIZE ∧ length ≤ Limits.max_read_size (limits cfg) ∧
      offset + length ≤ u64_max ∧ length ≤ read_permits c
  | WriteRange _ offset data =>
      zlen data ≤ MAX_CLIENT_WRITE_SIZE ∧ zlen data ≤ Limits.max_write_size (limits cfg) ∧
      offset + zlen data ≤ u64_max ∧ can_write cfg (export c) = true ∧
      zlen data ≤ write_permits c ∧ zlen data ≤ connection_write_permits c
  | SetXattr _ _ value _ _ =>
      zlen value ≤ MAX_CLIENT_WRITE_SIZE ∧ zlen value ≤ Limits.max_write_size (limits cfg) ∧
      can_write cfg (export c) = true ∧
      zlen value ≤ write_permits c ∧ zlen value ≤ connection_write_permits c
  | _ => True
  end.

(** The two sides use one codec, whatever they compress. *)
Record codec_agrees : Prop := {
  ca_request : ∀ v b, wire_request v = Some b → request_from b = Some v;
  ca_response : ∀ v b, response_to v = Some b → wire_response b = Some v;
  ca_zstd : ∀ p level c bound, wire_compress p level = Some c → zlen p ≤ bound →
    wire_decompress c bound = Some p
}.

Definition request_fits (id : RequestId) (m : Request) : Prop :=
  ∃ b, wire_request (envelope_new id m) = Some b ∧ zlen b ≤ MAX_FRAME_SIZE.

Definition response_fits (id : RequestId) (r : Response) : Prop :=
  ∃ b, response_to (Envelope.Mk PROTOCOL_VERSION id r) = Some b ∧ zlen b ≤ MAX_FRAME_SIZE.

(** The answer can be sent: a response fits a frame, a view can be streamed. *)
Definition sendable (id : RequestId) (a : Answer) : Prop :=
  match a with
  | Reply r _ => response_fits id r
  | StreamView v =>
      view_codec response_to wire_response entry_to wire_compress wire_decompress id ∧
      response_fits id (Response.DirectoryViewStart (DirectoryView.revision v) (DirectoryView.directory v)
        (DirectoryView.parent v) (DirectoryView.xattrs v) (zlen (DirectoryView.entries v))) ∧
      Forall (λ e, entry_len entry_to (without_xattrs e) ≤ DIRECTORY_VIEW_CHUNK_BUDGET)
        (DirectoryView.entries v) ∧
      zlen (DirectoryView.entries v) ≤ MAX_DIRECTORY_ENTRIES
  end.

(** What arrives of an answer: all of it, except that an entry of a view that is
    too large for a chunk loses attribute values. *)
Definition arrives {A} (call : remote_call A) : A → A → Prop :=
  match call in remote_call A return A → A → Prop with
  | ListDirectoryView _ _ => λ v v',
      ∃ l, v' = with_entries v l ∧ Forall2 (delivered entry_to) (DirectoryView.entries v) l
  | _ => eq
  end.

Definition result_arrives {A} (call : remote_call A) (r r' : result ClientError A) : Prop :=
  match r, r' with
  | Ok a, Ok a' => arrives call a a'
  | Err e, Err e' => e = e'
  | _, _ => False
  end.

(** * The exchange of a request *)

Lemma encode_fits_request compress id m :
  request_fits id m → ∃ f, encode_frame wire_request wire_compress (envelope_new id m) compress = Ok f.
Proof.
  intros (b & Hb & Hl). unfold encode_frame, encode. rewrite Hb. simpl.
  destruct (_ >? _) eqn:E; [bool_simpl; lia|]. simpl. destruct compress; eauto.
Qed.

Abbreviation request_ := (request wire_uuid wire_request wire_response wire_compress wire_decompress).
Abbreviation next_id n := (wire_uuid (NetworkFilesystem.drawn n)).
Abbreviation compresses n := (QuicClient.compression (NetworkFilesystem.transport n)).

(** The state of the client after the identifier of a request was drawn. *)
Definition with_id (n : Client) : Client :=
  NetworkFilesystem.Mk (NetworkFilesystem.transport n) (S (NetworkFilesystem.drawn n)).

Lemma exchange_direct {A} (n : Client) (e : Envelope Request) f (k : Incoming → NM (Q:=Direct) A) :
  encode_frame wire_request wire_compress e (compresses n) = Ok f →
  (s ← on_transport stream;
   _ ← on_transport (send_frame wire_compress wire_request s e);
   _ ← on_transport (finish_stream s);
   i ← on_transport (receive s);
   k i) (with_id n) =
  (let '(back, c) := serve_stream (draws (served (link n))) (frame_bytes f) (context n) in
   k (Incoming.Mk back TransportError.Read) (exchanged n (frame_bytes f) back c)).
Proof.
  intros Hf. destruct n as [[q compress v] drawn]. unfold link, context, exchanged, with_id in *. simpl in *.
  unfold on_transport, stream, send_frame, finish_stream, receive, on_connection, write_frame. sm_unfold. simpl.
  rewrite Hf. simpl. repeat (rewrite ?insert_insert_eq, lookup_insert_eq; simpl).
  rewrite ?insert_insert_eq.
  change (to_be_bytes 4 f.1 ++ f.2) with (frame_bytes f).
  destruct (serve_stream _ _ _) as [back c]. simpl. by rewrite lookup_insert_eq.
Qed.

Lemma exchange_data_direct {A} (n : Client) (e : Envelope Request) f data (k : Incoming → NM (Q:=Direct) A) :
  encode_frame wire_request wire_compress e (compresses n) = Ok f →
  (s ← on_transport stream;
   _ ← on_transport (send_frame wire_compress wire_request s e);
   _ ← on_transport (send_all s data);
   _ ← on_transport (finish_stream s);
   i ← on_transport (receive s);
   k i) (with_id n) =
  (let '(back, c) := serve_stream (draws (served (link n))) (frame_bytes f ++ data) (context n) in
   k (Incoming.Mk back TransportError.Read) (exchanged n (frame_bytes f ++ data) back c)).
Proof.
  intros Hf. destruct n as [[q compress v] drawn]. unfold link, context, exchanged, with_id in *. simpl in *.
  unfold on_transport, stream, send_frame, send_all, finish_stream, receive, on_connection, write_frame.
  sm_unfold. simpl.
  rewrite Hf. simpl. repeat (rewrite ?insert_insert_eq, lookup_insert_eq; simpl).
  rewrite ?insert_insert_eq.
  change (to_be_bytes 4 f.1 ++ f.2) with (frame_bytes f).
  destruct (serve_stream _ _ _) as [back c]. simpl. by rewrite lookup_insert_eq.
Qed.

(** * The answer *)

Abbreviation compress_answers := (peer_supports_frame_compression PROTOCOL_VERSION).
Abbreviation send_answer_ := (send_answer (H:=H) (F:=F) response_to entry_to wire_compress).

Lemma serve_request d id m data f compress (c : Ctx) :
  codec_agrees → encode_frame wire_request wire_compress (envelope_new id m) compress = Ok f →
  ConnectionAuth.authenticated (auth_state c) = true →
  serve_stream d (frame_bytes f ++ data) c =
    match (a ← dispatch d id m data; send_answer_ id compress_answers a) c with
    | (Ok (frames, raw), c') => (wire frames ++ raw, c')
    | (Err _, c') => ([], c')
    end.
Proof.
  intros [Hreq _ Hz] Hf Ha. unfold serve_stream.
  rewrite (read_frame_written _ _ _ _ Hreq Hz _ _ _ data TransportError.Read Hf).
  unfold Daemon.handle. sm_unfold. cbn [envelope_new Envelope.version Envelope.request_id Envelope.message].
  change (negb (version_major PROTOCOL_VERSION =? PROTOCOL_MAJOR)) with false. cbv beta iota.
  rewrite Ha, orb_true_r. done.
Qed.

Lemma reply_sent id r raw (c : Ctx) :
  codec_agrees → response_fits id r →
  ∃ frame, send_answer_ id compress_answers (Reply r raw) c = (Ok ([frame], default [] raw), c) ∧
    ∀ rest, receive_frame wire_response wire_decompress
        (Incoming.Mk (wire [frame] ++ rest) TransportError.Read) =
      (Ok (Envelope.Mk PROTOCOL_VERSION id r), Incoming.Mk rest TransportError.Read).
Proof.
  intros [_ Hres Hz] (b & Hb & Hl).
  destruct (encode_frame response_to wire_compress (Envelope.Mk PROTOCOL_VERSION id r) compress_answers)
    as [frame|] eqn:Hf.
  2: { revert Hf. unfold encode_frame, encode. rewrite Hb. simpl.
       destruct (_ >? _) eqn:E; [bool_simpl; lia|done]. }
  exists frame. split.
  - unfold send_answer, write_response. sm_unfold. by rewrite Hf.
  - intros rest. rewrite wire_one. unfold receive_frame, from_transport.
    by rewrite (read_frame_written _ _ _ _ Hres Hz _ _ _ rest _ Hf).
Qed.

(** What the client keeps from one call to the next. *)
Record follows (n n' : Client) : Prop := {
  fo_served : served (link n') = S (served (link n));
  fo_drawn : NetworkFilesystem.drawn n' = S (NetworkFilesystem.drawn n);
  fo_compression : compresses n' = compresses n;
  fo_version : QuicClient.server_version (NetworkFilesystem.transport n') =
    QuicClient.server_version (NetworkFilesystem.transport n)
}.

Lemma exchanged_follows n out back c : follows n (exchanged n out back c).
Proof. by destruct n as [[[]]]. Qed.

Lemma context_exchanged n out back c : context (exchanged n out back c) = c.
Proof. done. Qed.

(** The next request of the client, as the daemon sees it. *)
Abbreviation dispatched n m data := (dispatch (draws (served (link n))) (next_id n) m data (context n)).

(** The response with its raw data, for answers that are one response. *)
Definition received_reply (r : result HandleError Answer) : result ClientError (Response * option Incoming) :=
  match r with
  | Ok (Reply r raw) => Ok (r, Some (Incoming.Mk (default [] raw) TransportError.Read))
  | _ => no_answer
  end.

Definition one_response (r : result HandleError Answer) : Prop :=
  ∀ v, r ≠ Ok (StreamView v).

Definition all_sendable (id : RequestId) (r : result HandleError Answer) : Prop :=
  ∀ a, r = Ok a → sendable id a.

(** What the client makes of the bytes that come back. *)
Lemma received_back n m data f :
  codec_agrees → encode_frame wire_request wire_compress (envelope_new (next_id n) m) (compresses n) = Ok f →
  ConnectionAuth.authenticated (auth_state (context n)) = true →
  one_response (dispatched n m data).1 → all_sendable (next_id n) (dispatched n m data).1 →
  ∃ back,
    serve_stream (draws (served (link n))) (frame_bytes f ++ data) (context n) = (back, (dispatched n m data).2) ∧
    ∀ n', (response ← on_stream (Q:=Direct) (Incoming.Mk back TransportError.Read)
             (receive_frame wire_response wire_decompress);
           if negb (expected_envelope (next_id n) response.1) then sm_err ClientError.UnexpectedResponse
           else mret (Envelope.message response.1, Some response.2)) n' =
      (received_reply (dispatched n m data).1, n').
Proof.
  intros HC Hf Ha H1 Hs.
  rewrite (serve_request _ (next_id n) m data f _ _ HC Hf Ha). sm_unfold.
  destruct (dispatched n m data) as [[[r raw|v]|e] c'] eqn:Ed; cbn [fst snd] in *; cbv beta iota.
  - specialize (Hs _ eq_refl). destruct (reply_sent _ _ raw c' HC Hs) as (frame & -> & Hr).
    eexists. split; [done|]. intros n'. unfold on_stream. rewrite Hr. sm_unfold. simpl.
    by rewrite expected_ours.
  - by edestruct H1.
  - exists []. split; [done|]. intros n'. done.
Qed.

Lemma request_direct n m :
  codec_agrees → request_fits (next_id n) m → ConnectionAuth.authenticated (auth_state (context n)) = true →
  one_response (dispatched n m []).1 → all_sendable (next_id n) (dispatched n m []).1 →
  ∃ n', request_ m n = (received_reply (dispatched n m []).1, n') ∧
    context n' = (dispatched n m []).2 ∧ follows n n'.
Proof.
  intros HC Hfit Ha H1 Hs. destruct (encode_fits_request (compresses n) _ _ Hfit) as [f Hf].
  destruct (received_back n m [] f HC Hf Ha H1 Hs) as (back & Hb & Hk). rewrite app_nil_r in Hb.
  exists (exchanged n (frame_bytes f) back (dispatched n m []).2).
  split; [|split; [apply context_exchanged|apply exchanged_follows]].
  etrans; [apply (exchange_direct n (envelope_new (next_id n) m) f)|]; [done|]. by rewrite Hb, Hk.
Qed.

Lemma request_with_data_direct n m data :
  codec_agrees → request_fits (next_id n) m → ConnectionAuth.authenticated (auth_state (context n)) = true →
  one_response (dispatched n m data).1 → all_sendable (next_id n) (dispatched n m data).1 →
  ∃ n', request_with_data wire_uuid wire_request wire_response wire_compress wire_decompress m data n =
      (received_reply (dispatched n m data).1, n') ∧
    context n' = (dispatched n m data).2 ∧ follows n n'.
Proof.
  intros HC Hfit Ha H1 Hs. destruct (encode_fits_request (compresses n) _ _ Hfit) as [f Hf].
  destruct (received_back n m data f HC Hf Ha H1 Hs) as (back & Hb & Hk).
  exists (exchanged n (frame_bytes f ++ data) back (dispatched n m data).2).
  split; [|split; [apply context_exchanged|apply exchanged_follows]].
  etrans; [apply (exchange_data_direct n (envelope_new (next_id n) m) f data)|]; [done|]. by rewrite Hb, Hk.
Qed.

(** * Calls *)

Abbreviation call_ := (call wire_uuid wire_request wire_response wire_compress wire_decompress).
Abbreviation spec_of c n := (session_call (draws (served (link n))) (next_id n) c (context n)).

(** A call of the client is the session's operation, for the price of one
    request. *)
Definition reaches {A} (c : remote_call A) (n : Client) : Prop :=
  ∃ r n', perform c n = (r, n') ∧ follows n n' ∧
    result_arrives c (spec_of c n).1 r ∧ context n' = (spec_of c n).2.

(** The client is authenticated and the messages of the call fit their frames. *)
Record ready {A} (c : remote_call A) (n : Client) : Prop := {
  rd_codec : codec_agrees;
  rd_request : request_fits (next_id n) (request_of c);
  rd_authenticated : ConnectionAuth.authenticated (auth_state (context n)) = true;
  rd_answer : all_sendable (next_id n) (dispatched n (request_of c) (body_of c)).1
}.

Lemma result_arrives_refl {A} (c : remote_call A) r : (∀ a, arrives c a a) → result_arrives c r r.
Proof. intros Ha. destruct r; simpl; auto. Qed.

Lemma answer_one_response {A} (m : SS (H:=H) A) f (c : Ctx) : one_response (answer m f c).1.
Proof. intros v. unfold answer, on_export, reply. sm_unfold. by destruct (m (export c)) as [[]]. Qed.

Lemma answer_result {A} (m : SS (H:=H) A) f (c : Ctx) :
  answer m f c = (Ok (Reply (match (m (export c)).1 with
    | Ok a => f a | Err e => Response.Error (server_error_protocol e) end) None),
    set_export (m (export c)).2 c).
Proof. unfold answer, on_export, reply. sm_unfold. by destruct (m (export c)) as [[]]. Qed.

(** A call that is one request for one response. *)
Lemma call_direct {A} n m (accept : Response → option A) :
  codec_agrees → request_fits (next_id n) m → ConnectionAuth.authenticated (auth_state (context n)) = true →
  one_response (dispatched n m []).1 → all_sendable (next_id n) (dispatched n m []).1 →
  ∃ n', call_ m accept n =
      (r ← received_reply (dispatched n m []).1; ok_or (accept r.1) (response_error r.1), n') ∧
    context n' = (dispatched n m []).2 ∧ follows n n'.
Proof.
  intros HC Hfit Ha H1 Hs. destruct (request_direct n m HC Hfit Ha H1 Hs) as (n' & E & Hc & Hf).
  exists n'. split; [|done]. unfold call. sm_unfold. rewrite E.
  destruct (received_reply _) as [[resp raw]|e]; [|done]. unfold expect. cbv [mbind result_bind]. cbn [fst].
  by destruct (accept resp).
Qed.

Lemma reached {B} (c : remote_call B) n (accept : Response → option B) :
  ready c n → body_of c = [] → perform c = call_ (request_of c) accept → (∀ a, arrives c a a) →
  one_response (dispatched n (request_of c) []).1 →
  spec_of c n = (r ← received_reply (dispatched n (request_of c) []).1; ok_or (accept r.1) (response_error r.1),
                 (dispatched n (request_of c) []).2) →
  reaches c n.
Proof.
  intros [HC Hfit Ha Hs] Hbody Hp Harr H1 Hspec. rewrite Hbody in Hs.
  destruct (call_direct n (request_of c) accept HC Hfit Ha H1 Hs) as (n' & E & Hc & Hf).
  rewrite <- Hp in E. eexists _, n'. split; [exact E|]. split; [done|].
  rewrite Hspec. split; [|done]. by apply result_arrives_refl.
Qed.

Lemma answered {A B} (c : remote_call B) n (op : SS (H:=H) A) (f : A → Response) (accept : Response → option B)
    (g : A → B) :
  ready c n → body_of c = [] → perform c = call_ (request_of c) accept →
  dispatched n (request_of c) [] = answer op f (context n) →
  spec_of c n = exported op g (context n) →
  (∀ a, accept (f a) = Some (g a)) → (∀ e, accept (Response.Error e) = None) → (∀ a, arrives c a a) →
  reaches c n.
Proof.
  intros Hr Hbody Hp Hd Hspec Hok Herr Harr. apply (reached c n accept); try done; rewrite Hd.
  - apply answer_one_response.
  - rewrite Hspec, answer_result. unfold exported. cbn [fst snd received_reply].
    destruct (op (export (context n))) as [[a|e] s]; cbv [mbind result_bind]; cbn [fst snd].
    + by rewrite Hok.
    + by rewrite Herr.
Qed.

(** ** Reads and writes *)

Lemma bounded_read_admitted {A} offset length long wide (m : SS (H:=H) A) f (c : Ctx) :
  0 ≤ length ≤ MAX_CLIENT_READ_SIZE → length ≤ Limits.max_read_size (limits cfg) →
  offset + length ≤ u64_max → length ≤ read_permits c →
  bounded_read cfg offset length long wide m f c =
    (Ok (match (m (export c)).1 with
         | Ok a => Reply (f a).1 (Some (f a).2)
         | Err e => Reply (Response.Error (server_error_protocol e)) None
         end), set_export (m (export c)).2 c).
Proof.
  unfold MAX_CLIENT_READ_SIZE. intros Hl Hm Ho Hp. unfold bounded_read.
  destruct (Limits.max_read_size (limits cfg) <? length) eqn:E1; bool_simpl; [lia|]. simpl.
  rewrite bool_decide_false by (rewrite u64_checked_add_None; lia).
  destruct (length >? Prelude.u32_max) eqn:E2; bool_simpl; [unfold Prelude.u32_max in *; lia|]. sm_unfold.
  destruct (read_permits c <? length) eqn:E3; bool_simpl; [lia|]. unfold on_export, reply. sm_unfold.
  by destruct (m (export c)) as [[]].
Qed.

Lemma bounded_write_admitted {A} in_range data long wide (m : list Z → SS (H:=H) A) f (c : Ctx) :
  zlen data ≤ MAX_CLIENT_WRITE_SIZE → zlen data ≤ Limits.max_write_size (limits cfg) → in_range = true →
  can_write cfg (export c) = true → zlen data ≤ write_permits c → zlen data ≤ connection_write_permits c →
  bounded_write cfg in_range (zlen data) data long wide m f c = answer (m data) f c.
Proof.
  unfold MAX_CLIENT_WRITE_SIZE. intros Hl Hm -> Hw Hp Hq. unfold bounded_write. sm_unfold. rewrite Hw. simpl.
  destruct (Limits.max_write_size (limits cfg) <? zlen data) eqn:E1; bool_simpl; [lia|]. simpl.
  destruct (zlen data >? Prelude.u32_max) eqn:E2; bool_simpl; [unfold Prelude.u32_max in *; lia|].
  destruct (write_permits c <? zlen data) eqn:E3; bool_simpl; [lia|].
  destruct (connection_write_permits c <? zlen data) eqn:E4; bool_simpl; [lia|].
  rewrite Z.ltb_irrefl. unfold zlen. by rewrite Nat2Z.id, take_ge.
Qed.

(** The raw data of an answer is received completely. *)
Lemma receive_raw data n :
  receive_exact (Q:=Direct) (Some (Incoming.Mk data TransportError.Read)) (zlen data) n = (Ok data, n).
Proof.
  unfold receive_exact, on_stream, from_transport. sm_unfold.
  pose proof (read_exact_app data [] TransportError.Read _ eq_refl) as E. rewrite app_nil_r in E.
  simpl. by rewrite E.
Qed.

(** [pread] fills at most its buffer. *)
Definition pread_bounded : Prop := ∀ (h : H) f offset count b,
  0 ≤ offset → 0 ≤ count → pread h f offset count = Ok b → zlen b ≤ count.

(** A read of the session gives at most what was asked for. *)
Lemma consistent_loop_length (timeline : nat → H) file fuel offset size data k :
  pread_bounded → 0 ≤ offset → zlen data ≤ size →
  match (consistent_loop timeline file fuel offset size data k).1 with Ok d => zlen d ≤ size | Err _ => True end.
Proof.
  intros HP Ho. revert data k. induction fuel as [|fuel IH]; intros data k Hd; simpl.
  all: destruct (Z.ltb_spec (zlen data) size); [|done]. 1: done.
  unfold at_time. sm_unfold. destruct (pread _ _ _ _) as [b|] eqn:E; simpl; [|done].
  case_bool_decide; [done|]. apply IH. pose proof (zlen_nonneg data).
  apply HP in E; [|unfold u64_saturating_add, u64_max; lia|lia].
  rewrite zlen_app. lia.
Qed.

Lemma read_length handle offset length s :
  pread_bounded → 0 ≤ offset → 0 ≤ length →
  match (read sha256 cfg handle offset length s).1 with Ok r => zlen r.2 ≤ length | Err _ => True end.
Proof.
  intros HP Ho Hl. unfold read. sm_unfold. destruct (validate_request_range _ _ _); [|done].
  destruct (open_handle handle s) as [[o|] s1]; [|done]. destruct (negb _); [done|]. simpl.
  unfold read_consistent. sm_unfold. unfold at_time at 1. destruct (fstat _ _) as [st|]; [|done]. simpl.
  set (amount := Z.min _ _).
  pose proof (consistent_loop_length (λ _, host s1) (OpenFile.file o) (Z.to_nat amount) offset amount [] 1 HP Ho) as Hc.
  ospecialize (Hc _); [rewrite zlen_nil; subst amount; unfold u64_saturating_sub; lia|].
  destruct (consistent_loop _ _ _ _ _ _ _) as [[d|] k]; [|done]. simpl in Hc.
  unfold at_time. destruct (fstat _ _); [|done]. simpl. destruct (negb _); [done|]. simpl. lia.
Qed.

Lemma reaches_read n handle offset length :
  pread_bounded → ready (ReadRangeVersioned handle offset length) n →
  admitted (ReadRangeVersioned handle offset length) (context n) →
  reaches (ReadRangeVersioned handle offset length) n.
Proof.
  intros HP [HC Hfit Ha Hs] (Hoff & Hl & Hm & Ho & Hp). simpl in Hfit, Hs.
  set (op := read sha256 cfg handle offset length) in *.
  assert (dispatched n (Request.ReadRange handle offset length) [] =
    (Ok (match (op (export (context n))).1 with
         | Ok a => Reply (Response.ReadData a.1 (zlen a.2)) (Some a.2)
         | Err e => Reply (Response.Error (server_error_protocol e)) None
         end), set_export (op (export (context n))).2 (context n))) as Hd
    by (simpl; by rewrite bounded_read_admitted).
  destruct (request_direct n _ HC Hfit Ha) as (n' & E & Hc & Hf);
    [rewrite Hd; intros v; cbn [fst]; by destruct (op _).1|done|].
  rewrite Hd in E, Hc. cbn [fst snd] in E, Hc.
  unfold reaches. cbn [perform network_remote session_call]. unfold read_range_versioned.
  destruct (length >? MAX_CLIENT_READ_SIZE) eqn:El; bool_simpl; [lia|]. unfold mbind at 1, sm_bind at 1.
  rewrite E. unfold exported. fold op.
  pose proof (read_length handle offset length (export (context n)) HP Hoff ltac:(lia)) as Hlen. fold op in Hlen.
  destruct (op (export (context n))) as [[[revision data]|e] s]; cbn [fst snd received_reply] in *.
  - destruct (zlen data >? length) eqn:E1; bool_simpl; [lia|].
    destruct (zlen data >? MAX_CLIENT_READ_SIZE) eqn:E2; bool_simpl; [lia|]. cbn [orb default].
    eexists _, n'. unfold mbind at 1, sm_bind at 1. rewrite receive_raw. split_and!; done.
  - by eexists _, n'.
Qed.

Lemma reaches_get_xattr n node name offset length :
  ready (GetXattr node name offset length) n → admitted (GetXattr node name offset length) (context n) →
  reaches (GetXattr node name offset length) n.
Proof.
  intros [HC Hfit Ha Hs] (_ & Hl & Hm & Ho & Hp). simpl in Hfit, Hs.
  set (op := Session.get_xattr b64_encode stable_node_id hash_order cfg node name offset length) in *.
  assert (dispatched n (Request.GetXattr node name offset length) [] =
    (Ok (match (op (export (context n))).1 with
         | Ok a => Reply (Response.XattrData (zlen a.2) a.1) (Some a.2)
         | Err e => Reply (Response.Error (server_error_protocol e)) None
         end), set_export (op (export (context n))).2 (context n))) as Hd
    by (simpl; by rewrite bounded_read_admitted).
  destruct (request_direct n _ HC Hfit Ha) as (n' & E & Hc & Hf);
    [rewrite Hd; intros v; cbn [fst]; by destruct (op _).1|done|].
  rewrite Hd in E, Hc. cbn [fst snd] in E, Hc.
  unfold reaches. cbn [perform network_remote session_call]. unfold get_xattr.
  destruct (length >? MAX_CLIENT_READ_SIZE) eqn:El; bool_simpl; [lia|]. unfold mbind at 1, sm_bind at 1.
  rewrite E. unfold exported. fold op.
  destruct (op (export (context n))) as [[[total data]|e] s]; cbn [fst snd received_reply default] in *.
  - eexists _, n'. unfold mbind at 1, sm_bind at 1. rewrite receive_raw. split_and!; done.
  - by eexists _, n'.
Qed.

Lemma reaches_write n handle offset data :
  ready (WriteRange handle offset data) n → admitted (WriteRange handle offset data) (context n) →
  reaches (WriteRange handle offset data) n.
Proof.
  intros [HC Hfit Ha Hs] (Hl & Hm & Ho & Hw & Hp & Hq). simpl in Hfit, Hs.
  assert (bool_decide (u64_checked_add offset (zlen data) ≠ None) = true) as Hr.
  { apply bool_decide_true. rewrite u64_checked_add_None. lia. }
  assert (dispatched n (Request.WriteRange handle offset (zlen data)) data =
    answer (write_owned sha256 cfg handle offset data) (λ r, Response.WriteComplete r.1.1 r.1.2 r.2)
      (context n)) as Hd by (simpl; by rewrite bounded_write_admitted).
  destruct (request_with_data_direct n _ data HC Hfit Ha) as (n' & E & Hc & Hf);
    [rewrite Hd; apply answer_one_response|done|].
  rewrite Hd, answer_result in E, Hc. cbn [fst snd received_reply] in E, Hc.
  unfold reaches. cbn [perform network_remote session_call]. unfold write_range.
  destruct (zlen data >? MAX_CLIENT_WRITE_SIZE) eqn:El; bool_simpl; [lia|]. cbn [orb].
  rewrite bool_decide_false by (rewrite u64_checked_add_None; lia). unfold mbind at 1, sm_bind at 1.
  rewrite E. unfold exported.
  assert (match (write_owned sha256 cfg handle offset data (export (context n))).1 with
    | Ok r => r.1.1 = zlen data | Err _ => True end) as Hlen.
  { unfold write_owned. sm_unfold. repeat (case_match; simplify_eq/=; try done). }
  destruct (write_owned _ _ _ _ _ _) as [[[[w revision] size]|e] s]; cbn [fst snd] in *.
  - subst w. rewrite Z.leb_refl. by eexists _, n'.
  - by eexists _, n'.
Qed.

Lemma reaches_set_xattr n node name value mode position :
  ready (SetXattr node name value mode position) n →
  admitted (SetXattr node name value mode position) (context n) →
  reaches (SetXattr node name value mode position) n.
Proof.
  intros [HC Hfit Ha Hs] (Hl & Hm & Hw & Hp & Hq). simpl in Hfit, Hs.
  assert (dispatched n (Request.SetXattr node name mode position (zlen value)) value =
    answer (Session.set_xattr b64_encode stable_node_id hash_order cfg node name value mode position)
      (λ _, Response.XattrSet) (context n)) as Hd
    by (simpl; by rewrite (bounded_write_admitted _ _ _ _ (λ data, Session.set_xattr _ _ _ _ _ _ data _ _))).
  destruct (request_with_data_direct n _ value HC Hfit Ha) as (n' & E & Hc & Hf);
    [rewrite Hd; apply answer_one_response|done|].
  rewrite Hd, answer_result in E, Hc. cbn [fst snd received_reply] in E, Hc.
  unfold reaches. cbn [perform network_remote session_call]. unfold set_xattr.
  destruct (zlen value >? MAX_CLIENT_WRITE_SIZE) eqn:El; bool_simpl; [lia|]. unfold mbind at 1, sm_bind at 1.
  rewrite E. unfold exported.
  by destruct (Session.set_xattr _ _ _ _ _ _ _ _ _ _) as [[[]|e] s]; eexists _, n'.
Qed.

(** ** Views *)

Lemma view_answer_sent id v (c : Ctx) :
  codec_agrees → sendable id (StreamView v) →
  ∃ frames entries,
    send_answer_ id compress_answers (StreamView v) c = (Ok (frames, []), c) ∧
    Forall2 (delivered entry_to) (DirectoryView.entries v) entries ∧
    receive_directory_view wire_response wire_decompress id (Incoming.Mk (wire frames) TransportError.Read) =
      (Ok (with_entries v entries), Incoming.Mk [] TransportError.Read).
Proof.
  intros _ (HV & (b & Hb & Hl) & Hbare & Hcount).
  destruct (view_sent _ _ _ _ _ _ HV v compress_answers b) as (frames & entries & Hw & Hf & Hd); [done..|].
  exists frames, entries. split_and!.
  - unfold send_answer. by rewrite Hw.
  - destruct (one_frame_view _ _ _).
    + subst entries. apply Forall_Forall2_diag, Forall_true. by left.
    + eapply Forall2_impl; [exact Hd|]. intros x y ?. by right.
  - pose proof (view_received wire_response wire_decompress id v frames entries [] TransportError.Read Hf) as E.
    by rewrite app_nil_r in E.
Qed.

(** An error answer ends the assembly of a view with that error. *)
Lemma reply_ends_view id r raw :
  match r with
  | Response.DirectoryView _ | Response.DirectoryViewStart _ _ _ _ _ => False
  | _ => True
  end →
  receive_frame wire_response wire_decompress (Incoming.Mk raw TransportError.Read) =
    (Ok (Envelope.Mk PROTOCOL_VERSION id r), Incoming.Mk [] TransportError.Read) →
  (receive_directory_view wire_response wire_decompress id (Incoming.Mk raw TransportError.Read)).1 =
    Err (response_error r).
Proof.
  intros Hr E. unfold receive_directory_view. unfold mbind, sm_bind. rewrite E, expected_ours. by destruct r.
Qed.

Lemma reaches_view n node options :
  ready (ListDirectoryView node options) n → reaches (ListDirectoryView node options) n.
Proof.
  intros [HC Hfit Ha Hs]. simpl in Hfit, Hs.
  set (op := directory_view sha256 b64_encode b64_decode major minor stable_node_id hash_order cfg node options) in *.
  destruct (encode_fits_request (compresses n) _ _ Hfit) as [f Hf].
  pose proof (serve_request (draws (served (link n))) (next_id n) _ [] f _ (context n) HC Hf Ha) as Hserve.
  rewrite app_nil_r in Hserve. unfold reaches. cbn [perform network_remote session_call].
  unfold list_directory_view, list_directory_view_streamed, exported. fold op.
  change (new_envelope wire_uuid (Request.ListDirectoryView node options)) with
    (λ m : Client, (Ok (E:=ClientError) (envelope_new (next_id m) (Request.ListDirectoryView node options)), with_id m)).
  unfold mbind at 1, sm_bind at 1.
  rewrite (exchange_direct n (envelope_new (next_id n) (Request.ListDirectoryView node options)) f _ Hf), Hserve.
  clear Hserve. unfold mbind, sm_bind. cbn [Daemon.dispatch Daemon.node_request]. unfold mbind, sm_bind, on_export, mret, sm_ret. fold op.
  cbn [Daemon.dispatch Daemon.node_request] in Hs. unfold mbind, sm_bind, on_export in Hs. fold op in Hs.
  destruct (op (export (context n))) as [[view|e] s]; cbn [fst snd] in *; cbv beta iota zeta in Hs |- *.
  - destruct (view_answer_sent (next_id n) view (set_export s (context n)) HC (Hs _ eq_refl))
      as (frames & entries & -> & Hd & Hr).
    rewrite app_nil_r. unfold on_stream. cbn [Envelope.request_id envelope_new]. rewrite Hr. eexists _, _. split; [reflexivity|].
    split; [apply exchanged_follows|]. split; [|apply context_exchanged]. simpl. by exists entries.
  - unfold reply in *. unfold mret, sm_ret in *. cbn [fst snd] in *.
    destruct (reply_sent (next_id n) _ None (set_export s (context n)) HC (Hs _ eq_refl)) as (frame & -> & Hr).
    specialize (Hr []). cbn [default]. unfold on_stream. rewrite app_nil_r in Hr |- *.
    pose proof (reply_ends_view (next_id n) (Response.Error (server_error_protocol e)) _ I Hr) as Hend.
    destruct (receive_directory_view _ _ _ _) as [r i]. simpl in Hend. subst r.
    eexists _, _. split; [reflexivity|]. split; [apply exchanged_follows|]. split; [done|apply context_exchanged].
Qed.

(** ** All calls *)

Lemma reaches_listing n node : ready (ListDirectorySnapshot node) n → reaches (ListDirectorySnapshot node) n.
Proof.
  intros Hr. eapply reached; [exact Hr|reflexivity|reflexivity|done| |]; cbn [request_of Daemon.dispatch Daemon.node_request Daemon.file_request session_call].
  - apply answer_one_response.
  - rewrite answer_result. cbn [fst snd received_reply].
    destruct (list_with_revision _ _ _ _ _ _ _ _ _ _) as [[[revision entries]|e] s]; cbn [fst snd]; [|done].
    unfold directory_listing_response. cbv [mbind result_bind reported map_err]. cbn [fst snd].
    by destruct (is_ok _).
Qed.

Lemma reaches_volume_name n name : ready (SetVolumeName name) n → reaches (SetVolumeName name) n.
Proof.
  intros Hr. eapply reached; [exact Hr|reflexivity|reflexivity|done| |];
    cbn [request_of Daemon.dispatch Daemon.node_request Daemon.file_request session_call]; unfold on_both, reply; sm_unfold;
    destruct (ExportState.set_volume_name _ _ _ _ _ _ _ _) as [[[]|e] [s f]]; by try intros v.
Qed.

Lemma reaches_set_lock n handle lock wait : ready (SetLock handle lock wait) n → reaches (SetLock handle lock wait) n.
Proof.
  intros Hr. eapply reached; [exact Hr|reflexivity|reflexivity|done| |];
    cbn [request_of Daemon.dispatch Daemon.node_request Daemon.file_request session_call]; unfold on_export, reply; sm_unfold;
    destruct (Session.set_lock _ _ _ _ _) as [[[]|e] s]; by try intros v.
Qed.

(** C3: A call over the network is the operation of the session that it
    stands for.  For an authenticated connection and every call of the remote
    interface whose messages fit their frames and whose data is within the
    limits and the free capacity of the daemon, the client sends one request,
    the daemon's session is left as the operation leaves it, and the caller gets
    its result: the same value, or the same error code and message.  Of a
    directory view an entry too large for a chunk may lose attribute values. *)
Theorem calls_reach_session {A} (c : remote_call A) n :
  pread_bounded → ready c n → admitted c (context n) → reaches c n.
Proof.
  intros HP. destruct c; intros Hr Had;
    try (eapply answered; [exact Hr|reflexivity|reflexivity|reflexivity|reflexivity|done|done|done]).
  - eapply reached; [exact Hr|reflexivity|reflexivity|done|by intros v|done].
  - eapply reached; [exact Hr|reflexivity|reflexivity|done|by intros v|done].
  - by apply reaches_listing.
  - by apply reaches_view.
  - by apply reaches_read.
  - by apply reaches_write.
  - by apply reaches_get_xattr.
  - by apply reaches_set_xattr.
  - by apply reaches_volume_name.
  - by apply reaches_set_lock.
Qed.

(** * Batches of metadata *)

(** The lookups of a session one after the other. *)
Fixpoint session_each (nodes : list NodeId) (c : Ctx) : list (result ServerError Metadata) * Ctx :=
  match nodes with
  | [] => ([], c)
  | node :: nodes' =>
      let '(r, s) := metadata sha256 major minor stable_node_id hash_order cfg node (export c) in
      let '(rest, c') := session_each nodes' (set_export s c) in
      (r :: rest, c')
  end.

(** The response to one lookup, and its entry in the response to a batch. *)
Definition metadata_response (r : result ServerError Metadata) : Response :=
  match r with
  | Ok m => Response.Metadata m
  | Err e => Response.Error (server_error_protocol e)
  end.
Definition batch_entry (r : result ServerError Metadata) : BatchedMetadata :=
  match r with
  | Ok m => BatchedMetadata.Found m
  | Err e => BatchedMetadata.Failed (ProtocolError.code (server_error_protocol e))
  end.

(** [l] is a contiguous part of [k]. *)
Definition part {A} (l k : list A) : Prop := ∃ before after, k = before ++ l ++ after.

(** The messages of these lookups fit their frames: the requests for single
    nodes and for parts of the list, and the answers that the session gives. *)
Record batch_fits (nodes : list NodeId) (c : Ctx) : Prop := {
  bf_request : ∀ k node, node ∈ nodes → request_fits (wire_uuid k) (Request.GetMetadata node);
  bf_answer : ∀ k r, r ∈ (session_each nodes c).1 → response_fits (wire_uuid k) (metadata_response r);
  bf_batch : ∀ k l, part l nodes → zlen l ≤ MAX_METADATA_BATCH →
    request_fits (wire_uuid k) (Request.GetMetadataBatch l);
  bf_results : ∀ k l, part l (session_each nodes c).1 → zlen l ≤ MAX_METADATA_BATCH →
    response_fits (wire_uuid k) (Response.MetadataBatch (map batch_entry l))
}.

(** The outcome of a lookup, apart from the text of its error. *)
Definition same_outcome (r r' : result ClientError Metadata) : Prop :=
  match r, r' with
  | Ok m, Ok m' => m = m'
  | Err (ClientError.Server code _), Err (ClientError.Server code' _) => code = code'
  | _, _ => False
  end.

(** [n'] is [n] after [k] requests. *)
Record after_requests (k : nat) (n n' : Client) : Prop := {
  ar_served : served (link n') = (served (link n) + k)%nat;
  ar_version : QuicClient.server_version (NetworkFilesystem.transport n') =
    QuicClient.server_version (NetworkFilesystem.transport n);
  ar_authenticated : ConnectionAuth.authenticated (auth_state (context n')) =
    ConnectionAuth.authenticated (auth_state (context n))
}.

Lemma after_one n n' s : follows n n' → context n' = set_export s (context n) → after_requests 1 n n'.
Proof. intros [Hs _ _ Hv] Hc. split; [lia|done|by rewrite Hc]. Qed.

Lemma after_more n n1 n2 j k : after_requests j n n1 → after_requests k n1 n2 → after_requests (j + k) n n2.
Proof. intros [] []. split; [lia|congruence|congruence]. Qed.

Lemma session_each_length nodes c : length (session_each nodes c).1 = length nodes.
Proof.
  revert c. induction nodes as [|node nodes IH]; intros c; simpl; [done|].
  destruct (metadata _ _ _ _ _ _ _ _) as [r s]. specialize (IH (set_export s c)).
  destruct (session_each _ _) as [rest c']. simpl in *. lia.
Qed.

Lemma session_each_app l k c :
  session_each (l ++ k) c =
    let '(r, c1) := session_each l c in let '(r', c2) := session_each k c1 in (r ++ r', c2).
Proof.
  revert c. induction l as [|node l IH]; intros c; simpl.
  { by destruct (session_each k c). }
  destruct (metadata _ _ _ _ _ _ _ _) as [r s]. rewrite IH.
  destruct (session_each l _) as [r1 c1]. by destruct (session_each k c1).
Qed.

(** What holds of the lookups of a list holds of its first ones and of the ones
    after them. *)
Lemma batch_fits_app l k c :
  batch_fits (l ++ k) c → batch_fits l c ∧ batch_fits k (session_each l c).2.
Proof.
  intros [Hq Ha Hb Hr]. pose proof (session_each_app l k c) as E.
  destruct (session_each l c) as [r1 c1] eqn:E1. cbn [snd]. destruct (session_each k c1) as [r2 c2] eqn:E2.
  rewrite E in Ha, Hr. cbn [fst] in Ha, Hr. split; split; rewrite ?E1, ?E2; cbn [fst].
  - intros i node ?. apply Hq. set_solver.
  - intros i r ?. apply Ha. set_solver.
  - intros i l' (x & y & ->). apply Hb. exists x, (y ++ k). by rewrite <- !app_assoc.
  - intros i l' (x & y & ->). apply Hr. exists x, (y ++ r2). by rewrite <- !app_assoc.
  - intros i node ?. apply Hq. set_solver.
  - intros i r ?. apply Ha. set_solver.
  - intros i l' (x & y & ->). apply Hb. exists (l ++ x), y. by rewrite <- !app_assoc.
  - intros i l' (x & y & ->). apply Hr. exists (r1 ++ x), y. by rewrite <- !app_assoc.
Qed.

Lemma part_self {A} (l : list A) : part l l.
Proof. exists [], []. by rewrite app_nil_r. Qed.

Section batches.
Context (HC : codec_agrees).

Abbreviation get_each_ := (get_each wire_uuid wire_request wire_response wire_compress wire_decompress).
Abbreviation batch_chunk_ := (batch_chunk wire_uuid wire_request wire_response wire_compress wire_decompress).
Abbreviation batch_loop_ := (batch_loop wire_uuid wire_request wire_response wire_compress wire_decompress).

Lemma get_each_direct nodes n :
  batch_fits nodes (context n) → ConnectionAuth.authenticated (auth_state (context n)) = true →
  ∃ n', get_each_ nodes n = (Ok (map reported (session_each nodes (context n)).1), n') ∧
    context n' = (session_each nodes (context n)).2 ∧ after_requests (length nodes) n n'.
Proof.
  revert n. induction nodes as [|node nodes IH]; intros n HM Ha; cbn [get_each session_each map length].
  { exists n. split_and!; [done|done|]. split; [lia|done|done]. }
  assert (reaches (GetMetadata node) n) as (r & n1 & E & Hf & Hr & Hc).
  { eapply answered; [|reflexivity|reflexivity|reflexivity|reflexivity|done|done|done].
    split; [done|apply HM; left|done|]. simpl. rewrite answer_result. intros a [= <-]. simpl.
    apply (bf_answer _ _ HM). cbn [session_each]. destruct (metadata _ _ _ _ _ _ _ _) as [r s].
    destruct (session_each nodes _). left. }
  apply (batch_fits_app [node] nodes) in HM as [_ HM]. cbn [session_each] in HM.
  change (perform (GetMetadata node)) with
    (get_metadata wire_uuid wire_request wire_response wire_compress wire_decompress node (Q:=Direct)) in E.
  cbn [session_call] in Hr, Hc. unfold exported in Hr, Hc.
  destruct (metadata _ _ _ _ _ _ _ _) as [m s]. cbn [fst snd] in Hr, Hc, HM.
  destruct (IH n1) as (n2 & E2 & Hc2 & Hf2); [by rewrite Hc|by rewrite Hc|]. rewrite Hc in E2, Hc2.
  exists n2. unfold sm_try. sm_unfold. rewrite E, E2.
  destruct (session_each nodes _) as [rest c']. cbn [fst snd] in *. split_and!; [|done|].
  - assert (r = reported m) as ->; [|done].
    destruct m, r; cbn [reported map_err] in *; simpl in Hr; by subst.
  - change (S (length nodes)) with (1 + length nodes)%nat. eapply after_more; [by eapply after_one|done].
Qed.

Lemma metadata_batch_session nodes (c : Ctx) :
  metadata_batch sha256 major minor stable_node_id hash_order cfg nodes c =
    (Ok (map batch_entry (session_each nodes c).1), (session_each nodes c).2).
Proof.
  revert c. induction nodes as [|node nodes IH]; intros c; cbn [metadata_batch session_each]; [done|].
  sm_unfold. unfold on_export. destruct (metadata _ _ _ _ _ _ _ _) as [r s]. rewrite IH.
  destruct (session_each nodes _) as [rest c']. by destruct r.
Qed.

Lemma session_each_auth nodes c : auth_state (session_each nodes c).2 = auth_state c.
Proof.
  revert c. induction nodes as [|node nodes IH]; intros c; cbn [session_each]; [done|].
  destruct (metadata _ _ _ _ _ _ _ _) as [r s]. specialize (IH (set_export s c)).
  by destruct (session_each nodes _).
Qed.

Lemma batch_chunk_direct nodes n :
  batch_fits nodes (context n) →
  ConnectionAuth.authenticated (auth_state (context n)) = true → zlen nodes ≤ MAX_METADATA_BATCH →
  ∃ n', batch_chunk_ nodes n =
      (Ok (map (λ r, batched (batch_entry r)) (session_each nodes (context n)).1), n') ∧
    context n' = (session_each nodes (context n)).2 ∧ after_requests 1 n n'.
Proof.
  intros HM Ha Hl.
  assert (dispatched n (Request.GetMetadataBatch nodes) [] =
    (Ok (Reply (Response.MetadataBatch (map batch_entry (session_each nodes (context n)).1)) None),
     (session_each nodes (context n)).2)) as Hd.
  { simpl. destruct (_ >? _) eqn:E; bool_simpl; [lia|]. sm_unfold. rewrite metadata_batch_session. done. }
  assert (zlen (map batch_entry (session_each nodes (context n)).1) = zlen nodes) as Hz.
  { unfold zlen. by rewrite length_map, session_each_length. }
  destruct (request_direct n (Request.GetMetadataBatch nodes) HC) as (n' & E & Hc & Hf);
    [by apply HM; [apply part_self|]|done|by rewrite Hd; intros v| |].
  { rewrite Hd. intros a [= <-]. apply HM; [apply part_self|].
    unfold zlen in *. rewrite session_each_length. lia. }
  rewrite Hd in E, Hc. cbn [fst snd received_reply] in E, Hc. exists n'. split_and!; [|done|].
  - unfold batch_chunk, sm_try. sm_unfold. rewrite E, Hz, Z.eqb_refl. by rewrite map_map.
  - destruct Hf as [Hs _ _ Hv]. split; [lia|done|]. by rewrite Hc, session_each_auth.
Qed.

(** The number of batches for [k] nodes. *)
Definition batches (k : nat) : nat := Z.to_nat ((Z.of_nat k + MAX_METADATA_BATCH - 1) / MAX_METADATA_BATCH).

Lemma batches_step k : (0 < k)%nat → batches k = S (batches (k - Z.to_nat MAX_METADATA_BATCH)).
Proof.
  intros Hk. unfold batches, MAX_METADATA_BATCH. destruct (decide (k ≤ 4096)%nat).
  - replace (k - Z.to_nat 4096)%nat with 0%nat by lia.
    replace ((Z.of_nat k + 4096 - 1) / 4096) with 1; [done|]. apply Z.div_unique with (Z.of_nat k - 1); lia.
  - replace (Z.of_nat k + 4096 - 1) with (Z.of_nat (k - Z.to_nat 4096) + 4096 - 1 + 1 * 4096) by lia.
    rewrite Z.div_add, Z2Nat.inj_add by (try lia; apply Z.div_pos; lia). lia.
Qed.

Lemma batch_loop_direct fuel nodes n :
  batch_fits nodes (context n) →
  ConnectionAuth.authenticated (auth_state (context n)) = true → (length nodes ≤ fuel)%nat →
  ∃ n', batch_loop_ fuel nodes n =
      (Ok (map (λ r, batched (batch_entry r)) (session_each nodes (context n)).1), n') ∧
    context n' = (session_each nodes (context n)).2 ∧ after_requests (batches (length nodes)) n n'.
Proof.
  revert nodes n. induction fuel as [|fuel IH]; intros nodes n HM Ha Hl; destruct nodes as [|node nodes];
    try (simpl in Hl; lia).
  1-2: exists n; split_and!; [done|done|]; split; [|done|done]; symmetry; apply Nat.add_0_r.
  set (k := Z.to_nat MAX_METADATA_BATCH).
  assert (0 < k)%nat as Hk by (unfold k, MAX_METADATA_BATCH; lia).
  rewrite <- (take_drop k (node :: nodes)) in HM. apply batch_fits_app in HM as [HM1 HM2].
  destruct (batch_chunk_direct (take k (node :: nodes)) n HM1 Ha) as (n1 & E & Hc & Hf).
  { unfold zlen. rewrite length_take. unfold k. lia. }
  destruct (IH (drop k (node :: nodes)) n1) as (n2 & E2 & Hc2 & Hf2).
  { by rewrite Hc. }
  { by rewrite (ar_authenticated _ _ _ Hf). }
  { rewrite length_drop. simpl in *. lia. }
  assert (∀ l, batch_loop_ (S fuel) (node :: nodes) l =
    (results ← batch_chunk_ (take k (node :: nodes));
     rest ← batch_loop_ fuel (drop k (node :: nodes));
     mret (results ++ rest)) l) as -> by done.
  rewrite Hc in E2, Hc2. exists n2. sm_unfold. rewrite E, E2.
  pose proof (session_each_app (take k (node :: nodes)) (drop k (node :: nodes)) (context n)) as Happ.
  rewrite take_drop in Happ.
  destruct (session_each (take _ _) _) as [r1 c1]. cbn [fst snd] in *.
  destruct (session_each (drop _ _) _) as [r2 c2]. cbn [fst snd] in *. rewrite Happ. cbn [fst snd].
  split_and!; [by rewrite map_app|done|].
  rewrite batches_step by (simpl; lia). fold k.
  replace (length (node :: nodes) - k)%nat with (length (drop k (node :: nodes))) by (by rewrite length_drop).
  change (S ?x) with (1 + x)%nat. by eapply after_more.
Qed.

(** A chunk keeps the outcome of every lookup. *)
Lemma batch_outcome r : same_outcome (batched (batch_entry r)) (reported r).
Proof. by destruct r. Qed.

Lemma same_outcome_reported r : same_outcome (reported r) (reported r).
Proof. by destruct r. Qed.
End batches.

(** C23: Looking up the metadata of many nodes in batches is looking them up one by
    one.  For a list of nodes whose requests and whose answers from this session
    fit their frames, the batched call and one request per node give, node by
    node and in order, the same metadata or the same error code, and leave the
    session in the same state; with a server that knows batches it takes one
    request for every 4096 nodes. *)
Theorem metadata_batch_agrees nodes n :
  codec_agrees → batch_fits nodes (context n) →
  ConnectionAuth.authenticated (auth_state (context n)) = true →
  ∃ rs rs' n1 n2,
    get_metadata_batch wire_uuid wire_request wire_response wire_compress wire_decompress nodes n = (Ok rs, n1) ∧
    get_each wire_uuid wire_request wire_response wire_compress wire_decompress nodes n = (Ok rs', n2) ∧
    length rs = length nodes ∧ Forall2 same_outcome rs rs' ∧ context n1 = context n2 ∧
    served (link n2) = (served (link n) + length nodes)%nat ∧
    served (link n1) = (served (link n) +
      if peer_supports_metadata_batch (QuicClient.server_version (NetworkFilesystem.transport n))
      then batches (length nodes) else length nodes)%nat.
Proof.
  intros HC HM Ha. destruct (get_each_direct HC nodes n HM Ha) as (n2 & E2 & Hc2 & Hr2).
  pose proof (session_each_length nodes (context n)) as Hlen. pose proof (ar_served _ _ _ Hr2) as Hs2.
  unfold get_metadata_batch. case_bool_decide as Hn.
  { subst nodes. exists [], [], n, n2. split_and!; try done.
    simpl. destruct (peer_supports_metadata_batch _); symmetry; apply Nat.add_0_r. }
  sm_unfold. destruct (peer_supports_metadata_batch _) eqn:Es; simpl.
  - destruct (batch_loop_direct HC (length nodes) nodes n HM Ha ltac:(lia)) as (n1 & E1 & Hc1 & Hr1).
    eexists _, _, n1, n2. split; [exact E1|]. split; [exact E2|]. rewrite Hc1, Hc2, length_map.
    split_and!; [done| |done|done|by apply Hr1].
    apply Forall2_fmap, Forall_Forall2_diag, Forall_true, batch_outcome.
  - eexists _, _, n2, n2. split; [exact E2|]. split; [exact E2|]. rewrite length_map.
    split_and!; [done| |done|done|done].
    apply Forall2_fmap, Forall_Forall2_diag, Forall_true, same_outcome_reported.
Qed.
End joined.
