(* ===== verification/NetworkExample.v ===== *)
(** A codec for some messages, a client of the example daemon, and a peer that
    answers what it likes. *)

From S2P Require Import Prelude Protocol Common StateFiles Transport Auth AuthFacts RateLimiter ViewStream Locks Registry XattrNames FileIO Attributes HostDirs Forks Session RegistryPaths HostFacts SessionFacts SessionSafety ExportState Daemon DaemonFacts CacheRanges FsCache Remote Prefetch Network NetworkFacts EndToEnd.
Import DaemonExample.

(** * A codec *)

Module ToyWire.
Definition code_index (c : ErrorCode) : Z :=
  match c with
  | ErrorCode.Unauthenticated => 0 | ErrorCode.NotFound => 1 | ErrorCode.PermissionDenied => 2
  | ErrorCode.AlreadyExists => 3 | ErrorCode.NotDirectory => 4 | ErrorCode.IsDirectory => 5
  | ErrorCode.NotEmpty => 6 | ErrorCode.NoAttribute => 7 | ErrorCode.NoData => 8 | ErrorCode.NotTty => 9
  | ErrorCode.ReadOnly => 10 | ErrorCode.Conflict => 11 | ErrorCode.WouldBlock => 12
  | ErrorCode.NoSpace => 13 | ErrorCode.Busy => 14 | ErrorCode.NotSupported => 15
  | ErrorCode.Offline => 16 | ErrorCode.InvalidNode => 17 | ErrorCode.InvalidHandle => 18
  | ErrorCode.InvalidRequest => 19 | ErrorCode.UnsupportedVersion => 20 | ErrorCode.TooLarge => 21
  | ErrorCode.Timeout => 22 | ErrorCode.Internal => 23
  end.
Definition index_code (z : Z) : ErrorCode :=
  nth (Z.to_nat z)
    [ErrorCode.Unauthenticated; ErrorCode.NotFound; ErrorCode.PermissionDenied; ErrorCode.AlreadyExists;
     ErrorCode.NotDirectory; ErrorCode.IsDirectory; ErrorCode.NotEmpty; ErrorCode.NoAttribute;
     ErrorCode.NoData; ErrorCode.NotTty; ErrorCode.ReadOnly; ErrorCode.Conflict; ErrorCode.WouldBlock;
     ErrorCode.NoSpace; ErrorCode.Busy; ErrorCode.NotSupported; ErrorCode.Offline; ErrorCode.InvalidNode;
     ErrorCode.InvalidHandle; ErrorCode.InvalidRequest; ErrorCode.UnsupportedVersion; ErrorCode.TooLarge;
     ErrorCode.Timeout] ErrorCode.Internal.

Lemma code_inverse c : index_code (code_index c) = c.
Proof. by destruct c. Qed.

(** A self-delimiting code of bytes: what is put in front of other bytes is read
    back and leaves them. *)
Record Code (A : Type) := MkCode {
  put : A → list Z;
  get : list Z → option (A * list Z);
  get_put : ∀ a rest, get (put a ++ rest) = Some (a, rest)
}.
#[global] Arguments MkCode {A}.
#[global] Arguments put {A}.
#[global] Arguments get {A}.
#[global] Arguments get_put {A}.

(** Numbers by their binary digits, a byte each. *)
Fixpoint put_pos (p : positive) : list Z :=
  match p with
  | xH => [0]
  | xO p => 1 :: put_pos p
  | xI p => 2 :: put_pos p
  end.
Fixpoint get_pos (b : list Z) : option (positive * list Z) :=
  match b with
  | 0 :: b => Some (xH, b)
  | 1 :: b => r ← get_pos b; Some (xO r.1, r.2)
  | 2 :: b => r ← get_pos b; Some (xI r.1, r.2)
  | _ => None
  end.
Definition put_z (z : Z) : list Z :=
  match z with Z0 => [0] | Z.pos p => 1 :: put_pos p | Z.neg p => 2 :: put_pos p end.
Definition get_z (b : list Z) : option (Z * list Z) :=
  match b with
  | 0 :: b => Some (0, b)
  | 1 :: b => r ← get_pos b; Some (Z.pos r.1, r.2)
  | 2 :: b => r ← get_pos b; Some (Z.neg r.1, r.2)
  | _ => None
  end.
Lemma get_put_pos p rest : get_pos (put_pos p ++ rest) = Some (p, rest).
Proof. induction p as [p IH|p IH|]; cbn; by rewrite ?IH. Qed.
Lemma get_put_z z rest : get_z (put_z z ++ rest) = Some (z, rest).
Proof. destruct z; cbn; by rewrite ?get_put_pos. Qed.
Definition code_z : Code Z := MkCode put_z get_z get_put_z.

(** Lists by a byte before every element. *)
Fixpoint put_list {A} (c : Code A) (l : list A) : list Z :=
  match l with [] => [0] | a :: l => 1 :: put c a ++ put_list c l end.
Fixpoint get_list {A} (c : Code A) (fuel : nat) (b : list Z) : option (list A * list Z) :=
  match fuel, b with
  | S _, 0 :: b => Some ([], b)
  | S fuel, 1 :: b => x ← get c b; l ← get_list c fuel x.2; Some (x.1 :: l.1, l.2)
  | _, _ => None
  end.
Lemma get_put_list {A} (c : Code A) l fuel rest :
  (length (put_list c l) ≤ fuel)%nat → get_list c fuel (put_list c l ++ rest) = Some (l, rest).
Proof.
  revert fuel. induction l as [|a l IH]; intros [|fuel] Hf; cbn [put_list length app get_list] in *;
    [lia|done|lia|].
  rewrite <- app_assoc, get_put. cbn [mbind option_bind fst snd].
  rewrite IH; [done|]. rewrite length_app in Hf. lia.
Qed.
Lemma get_put_list_long {A} (c : Code A) l rest :
  get_list c (length (put_list c l ++ rest)) (put_list c l ++ rest) = Some (l, rest).
Proof. apply get_put_list. rewrite length_app. lia. Qed.
Definition code_list {A} (c : Code A) : Code (list A) :=
  MkCode (put_list c) (λ b, get_list c (length b) b) (get_put_list_long c).

Lemma get_put_pair {A B} (c : Code A) (d : Code B) ab rest :
  (x ← get c ((put c ab.1 ++ put d ab.2) ++ rest); y ← get d x.2; Some ((x.1, y.1), y.2)) = Some (ab, rest).
Proof. rewrite <- app_assoc, get_put. cbn. rewrite get_put. by destruct ab. Qed.
Definition code_pair {A B} (c : Code A) (d : Code B) : Code (A * B) :=
  MkCode (λ ab, put c ab.1 ++ put d ab.2)
    (λ b, x ← get c b; y ← get d x.2; Some ((x.1, y.1), y.2)) (get_put_pair c d).

Lemma get_put_sum {A B} (c : Code A) (d : Code B) (ab : A + B) rest :
  match match ab with inl a => 0 :: put c a | inr b => 1 :: put d b end ++ rest with
  | 0 :: b => x ← get c b; Some (inl x.1, x.2)
  | 1 :: b => x ← get d b; Some (inr x.1, x.2)
  | _ => None
  end = Some (ab, rest).
Proof. destruct ab; cbn; by rewrite get_put. Qed.
Definition code_sum {A B} (c : Code A) (d : Code B) : Code (A + B) :=
  MkCode (λ ab, match ab with inl a => 0 :: put c a | inr b => 1 :: put d b end)
    (λ b, match b with
          | 0 :: b => x ← get c b; Some (inl x.1, x.2)
          | 1 :: b => x ← get d b; Some (inr x.1, x.2)
          | _ => None
          end) (get_put_sum c d).

Lemma get_put_iso {A B} (c : Code A) (f : B → A) (g : A → B) (Hgf : ∀ b, g (f b) = b) b rest :
  (x ← get c (put c (f b) ++ rest); Some (g x.1, x.2)) = Some (b, rest).
Proof. rewrite get_put. cbn. by rewrite Hgf. Qed.
Definition code_iso {A B} (c : Code A) (f : B → A) (g : A → B) (Hgf : ∀ b, g (f b) = b) : Code B :=
  MkCode (λ b, put c (f b)) (λ b, x ← get c b; Some (g x.1, x.2)) (get_put_iso c f g Hgf).

Definition code_error : Code ErrorCode := code_iso code_z code_index index_code code_inverse.

Definition to_list (o : option Z) : list Z := match o with Some z => [z] | None => [] end.
Definition of_list (l : list Z) : option Z := head l.
Lemma list_inverse o : of_list (to_list o) = o.
Proof. by destruct o. Qed.
Definition code_time : Code (option Z) := code_iso (code_list code_z) to_list of_list list_inverse.
Definition code_metadata : Code Metadata :=
  code_iso (code_pair (code_pair (code_pair (code_pair code_z code_z) (code_list code_z)) code_time) code_time)
    ViewExample.meta_tuple ViewExample.tuple_meta ViewExample.meta_inverse.

Definition entry_sum (b : BatchedMetadata) : Metadata + ErrorCode :=
  match b with BatchedMetadata.Found m => inl m | BatchedMetadata.Failed c => inr c end.
Definition sum_entry (s : Metadata + ErrorCode) : BatchedMetadata :=
  match s with inl m => BatchedMetadata.Found m | inr c => BatchedMetadata.Failed c end.
Lemma toy_entry_inverse b : sum_entry (entry_sum b) = b.
Proof. by destruct b. Qed.
Definition code_entry : Code BatchedMetadata :=
  code_iso (code_sum code_metadata code_error) entry_sum sum_entry toy_entry_inverse.

Definition protocol_pair (e : ProtocolError) : ErrorCode * list Z := (ProtocolError.code e, ProtocolError.message e).
Definition pair_protocol (p : ErrorCode * list Z) : ProtocolError := ProtocolError.Mk p.1 p.2.
Lemma pair_inverse e : pair_protocol (protocol_pair e) = e.
Proof. by destruct e. Qed.
Definition code_protocol : Code ProtocolError :=
  code_iso (code_pair code_error (code_list code_z)) protocol_pair pair_protocol pair_inverse.

Lemma node_inverse n : MkNodeId (node_uuid n) = n.
Proof. by destruct n. Qed.
Definition code_node : Code NodeId := code_iso code_z node_uuid MkNodeId node_inverse.

(** The messages of the example: one lookup, a batch, an attribute. *)
Definition request_sum (m : Request) : option (NodeId + list NodeId) :=
  match m with
  | Request.GetMetadata node => Some (inl node)
  | Request.GetMetadataBatch nodes => Some (inr nodes)
  | _ => None
  end.
Definition sum_request (s : NodeId + list NodeId) : Request :=
  match s with inl node => Request.GetMetadata node | inr nodes => Request.GetMetadataBatch nodes end.
Definition Answers : Type := (ProtocolError + Metadata) + (list BatchedMetadata + Z * Z).
Definition response_sum (r : Response) : option Answers :=
  match r with
  | Response.Error e => Some (inl (inl e))
  | Response.Metadata m => Some (inl (inr m))
  | Response.MetadataBatch l => Some (inr (inl l))
  | Response.XattrData length total_size => Some (inr (inr (length, total_size)))
  | _ => None
  end.
Definition sum_response (s : Answers) : Response :=
  match s with
  | inl (inl e) => Response.Error e
  | inl (inr m) => Response.Metadata m
  | inr (inl l) => Response.MetadataBatch l
  | inr (inr (length, total_size)) => Response.XattrData length total_size
  end.

Definition code_request : Code (Z * Z * (NodeId + list NodeId)) :=
  code_pair (code_pair code_z code_z) (code_sum code_node (code_list code_node)).
Definition code_response : Code (Z * Z * Answers) :=
  code_pair (code_pair code_z code_z)
    (code_sum (code_sum code_protocol code_metadata)
              (code_sum (code_list code_entry) (code_pair code_z code_z))).

Section envelopes.
Context {M S : Type} (c : Code (Z * Z * S)) (to : M → option S) (from : S → M)
  (from_to : ∀ m s, to m = Some s → from s = m).

Definition put_envelope (e : Envelope M) : option (list Z) :=
  s ← to (Envelope.message e);
  Some (put c (Envelope.version e, request_uuid (Envelope.request_id e), s)).
Definition get_envelope (b : list Z) : option (Envelope M) :=
  x ← get c b;
  match x with
  | (v, i, s, []) => Some (Envelope.Mk v (MkRequestId i) (from s))
  | _ => None
  end.

Lemma envelope_inverse e b : put_envelope e = Some b → get_envelope b = Some e.
Proof using from_to.
  destruct e as [v [i] m]. unfold put_envelope, get_envelope. cbn [Envelope.message Envelope.version Envelope.request_id].
  destruct (to m) as [s|] eqn:E; [|done]. cbn [mbind option_bind]. intros [= <-].
  rewrite <- (app_nil_r (put c _)), get_put. cbn [mbind option_bind]. by rewrite (from_to m s).
Qed.
End envelopes.

Definition request_to : Envelope Request → option (list Z) := put_envelope code_request request_sum.
Definition request_from : list Z → option (Envelope Request) := get_envelope code_request sum_request.
Definition response_to : Envelope Response → option (list Z) := put_envelope code_response response_sum.
Definition response_from : list Z → option (Envelope Response) := get_envelope code_response sum_response.

#[global] Instance wire : Wire := {|
  wire_uuid n := MkRequestId (Z.of_nat n mod 2 ^ 128);
  wire_request := request_to;
  wire_response := response_from;
  wire_compress _ _ := None;
  wire_decompress _ _ := None
|}.

Lemma toy_codec : codec_agrees response_to request_from.
Proof.
  split; [| |done].
  - intros v b. apply envelope_inverse. by intros [] ? [= <-].
  - intros v b. apply envelope_inverse. by intros [] ? [= <-].
Qed.

(** ** Lengths *)

Lemma put_pos_length p n : Z.pos p < 2 ^ Z.of_nat n → (length (put_pos p) ≤ n)%nat.
Proof.
  revert n. induction p as [p IH|p IH|]; intros [|n] Hp; cbn [put_pos length];
    try lia; try (change (2 ^ Z.of_nat 0) with 1 in Hp; lia).
  all: rewrite Nat2Z.inj_succ, Z.pow_succ_r in Hp by lia; apply le_n_S, IH; lia.
Qed.

(** An identifier takes 129 bytes at most. *)
Lemma uuid_length k : (length (put_z (request_uuid (wire_uuid k))) ≤ 129)%nat.
Proof.
  cbn [request_uuid wire_uuid wire]. pose proof (Z.mod_pos_bound (Z.of_nat k) (2 ^ 128) eq_refl) as Hk.
  destruct (Z.of_nat k mod 2 ^ 128) as [|p|p]; cbn [put_z length]; [lia| |lia].
  apply le_n_S, put_pos_length. change (Z.of_nat 128) with 128. lia.
Qed.

Lemma envelope_fits {M S} (c : Code S) (to : M → option S) k m s :
  to m = Some s → zlen (put c s) ≤ 500000 →
  ∃ b, put_envelope (code_pair (code_pair code_z code_z) c) to (Envelope.Mk PROTOCOL_VERSION (wire_uuid k) m)
    = Some b ∧ zlen b ≤ MAX_FRAME_SIZE.
Proof.
  intros Hs Hl. unfold put_envelope. cbn [Envelope.message Envelope.version Envelope.request_id].
  rewrite Hs. cbn [mbind option_bind]. eexists. split; [reflexivity|].
  cbn [put code_pair code_z fst snd]. rewrite !zlen_app. pose proof (uuid_length k) as Hk.
  assert (zlen (put_z PROTOCOL_VERSION) ≤ 100) by (vm_compute; discriminate).
  unfold MAX_FRAME_SIZE. unfold zlen in *. lia.
Qed.

Lemma put_list_part {A} (c : Code A) l k : part l k → zlen (put_list c l) ≤ zlen (put_list c k).
Proof.
  intros (before & after & ->). induction before as [|a before IH]; cbn [app put_list].
  - induction l as [|a l IH]; cbn [app put_list]; rewrite ?zlen_cons, ?zlen_app; [|lia].
    destruct after as [|a after]; cbn [put_list]; rewrite !zlen_cons, ?zlen_nil; [lia|].
    pose proof (zlen_nonneg (put c a ++ put_list c after)). lia.
  - rewrite zlen_cons, zlen_app. pose proof (zlen_nonneg (put c a)). lia.
Qed.

(** ** The messages of a list of lookups *)

Definition short (n : Z) : bool := n <=? 499000.

Lemma response_of_fits k r :
  match r with
  | Ok m => short (zlen (put code_metadata m))
  | Err e => short (zlen (put code_protocol (server_error_protocol e)))
  end = true →
  response_fits response_to (wire_uuid k) (metadata_response r).
Proof.
  unfold short. intros Hr. destruct r as [m|e]; eapply envelope_fits; try reflexivity;
    cbn [put code_sum]; rewrite !zlen_cons; lia.
Qed.

(** Whether the requests for the nodes and the answers to them are short. *)
Definition short_lookups (nodes : list NodeId) (answers : list (result ServerError Metadata)) : bool :=
  forallb (λ node, short (zlen (put code_node node))) nodes &&
  short (zlen (put_list code_node nodes)) &&
  forallb (λ r, match r with
                | Ok m => short (zlen (put code_metadata m))
                | Err e => short (zlen (put code_protocol (server_error_protocol e)))
                end) answers &&
  short (zlen (put_list code_entry (map batch_entry answers))).

Lemma part_map {A B} (f : A → B) l k : part l k → part (map f l) (map f k).
Proof. intros (x & y & ->). exists (map f x), (map f y). by rewrite !map_app. Qed.

Lemma lookups_fit {H} `{HostFiles H, HostDirs H} {F} sha256 major minor stable_node_id hash_order cfg
    nodes (c : RequestContext H F) :
  short_lookups nodes (session_each sha256 major minor stable_node_id hash_order cfg nodes c).1 = true →
  batch_fits sha256 major minor stable_node_id hash_order cfg response_to nodes c.
Proof.
  unfold short_lookups. intros [[[Hn Hl]%andb_true_iff Ha]%andb_true_iff Hr]%andb_true_iff.
  rewrite forallb_forall in Hn, Ha. unfold short in Hl, Hr. split.
  - intros k node Hin%list_elem_of_In%Hn. unfold short in Hin.
    eapply envelope_fits; [reflexivity|]. cbn [put code_sum]. rewrite zlen_cons. lia.
  - intros k r Hin%list_elem_of_In%Ha. by apply response_of_fits.
  - intros k l Hp _. apply (put_list_part code_node) in Hp.
    eapply envelope_fits; [reflexivity|]. cbn [put code_sum code_list]. rewrite zlen_cons. lia.
  - intros k l Hp _. apply (part_map batch_entry), (put_list_part code_entry) in Hp.
    eapply envelope_fits; [reflexivity|]. cbn [put code_sum code_list]. rewrite !zlen_cons. lia.
Qed.
End ToyWire.

(** * A client of the example daemon *)

Module ToyClient.
#[export] Existing Instance AuthExample.argon.
#[export] Existing Instance DaemonExample.base64.

Definition draws_of (n : nat) : Draws := draws.

#[export] Instance joined : Quic Direct :=
  direct_quic (λ b, b) (λ b, b) Some (λ d, d) (λ d, d) ex_stable ex_order LogHost.fresh LogHost.cfg
    AuthExample.from_json (λ _, Err []) (λ k m, Some (k ++ m)) (λ u, [u]) AuthExample.uuid_text
    (λ b, b) (λ _, None) [] None AuthExample.root (lit "fp") (V4 1) ToyWire.response_to ToyWire.request_from
    (λ _, None) (λ n, [n]) draws_of [].

(** A client after its authentication. *)
Definition client (version : Z) : NetworkFilesystem (Direct (H:=LogHost.Log) (F:=MemState.Mem)) :=
  NetworkFilesystem.Mk (QuicClient.Mk (MkDirect (run [login]) ∅ ∅ 0 0) true version) 0.

Lemma log_pread : pread_bounded (H:=LogHost.Log).
Proof. intros h f offset count b _ Hc [= <-]. by rewrite zlen_nil. Qed.
End ToyClient.
Import ToyClient.

Lemma calls_reach_session_witness :
  ∃ m n', perform (GetMetadata ROOT_NODE) (client PROTOCOL_VERSION) = (Ok m, n') ∧
    Metadata.node m = ROOT_NODE ∧ served (link n') = 1%nat.
Proof.
  destruct (calls_reach_session (λ b, b) (λ b, b) Some (λ d, d) (λ d, d) ex_stable ex_order LogHost.fresh LogHost.cfg
    AuthExample.from_json (λ _, Err []) (λ k m, Some (k ++ m)) (λ u, [u]) AuthExample.uuid_text
    (λ b, b) (λ _, None) [] None AuthExample.root (lit "fp") (V4 1) ToyWire.response_to ToyWire.request_from
    (λ _, None) (λ n, [n]) draws_of [] (GetMetadata ROOT_NODE) (client PROTOCOL_VERSION) log_pread)
    as (r & n' & E & [Hs _ _ _] & Hr & _).
  - split; [exact ToyWire.toy_codec| |vm_compute; reflexivity|].
    { eapply ToyWire.envelope_fits; [reflexivity|vm_compute; discriminate]. }
    cbn [request_of Daemon.dispatch Daemon.node_request Daemon.file_request body_of]. rewrite answer_result. intros a Ea. injection Ea as <-. cbn [sendable].
    apply (ToyWire.response_of_fits _ (metadata (λ b, b) (λ d, d) (λ d, d) ex_stable ex_order LogHost.cfg
      ROOT_NODE (export (run [login]))).1). vm_compute. reflexivity.
  - exact I.
  - match type of Hr with result_arrives _ _ ?spec _ => set (s := spec) in Hr end.
    assert (match s with Ok m => Metadata.node m = ROOT_NODE | Err _ => False end) as Hm.
    { subst s. vm_compute. reflexivity. }
    clearbody s. destruct s as [m|]; [|destruct Hm].
    destruct r as [m'|]; [|destruct Hr]. cbn in Hr. subst m'. exists m, n'. split; [exact E|]. split; [exact Hm|exact Hs].
Defined.

Lemma metadata_batch_agrees_witness :
  ∃ rs n1, get_metadata_batch wire_uuid wire_request wire_response wire_compress wire_decompress
      [ROOT_NODE; MkNodeId 9; ROOT_NODE] (client PROTOCOL_VERSION) = (Ok rs, n1) ∧
    length rs = 3%nat ∧ served (link n1) = 1%nat.
Proof.
  destruct (metadata_batch_agrees (λ b, b) (λ b, b) Some (λ d, d) (λ d, d) ex_stable ex_order LogHost.fresh LogHost.cfg
    AuthExample.from_json (λ _, Err []) (λ k m, Some (k ++ m)) (λ u, [u]) AuthExample.uuid_text
    (λ b, b) (λ _, None) [] None AuthExample.root (lit "fp") (V4 1) ToyWire.response_to ToyWire.request_from
    (λ _, None) (λ n, [n]) draws_of [] [ROOT_NODE; MkNodeId 9; ROOT_NODE] (client PROTOCOL_VERSION)
    ToyWire.toy_codec) as (rs & rs' & n1 & n2 & E & _ & Hl & _ & _ & _ & Hs).
  - apply ToyWire.lookups_fit; vm_compute; reflexivity.
  - vm_compute. reflexivity.
  - exists rs, n1. split; [exact E|]. split; [exact Hl|exact Hs].
Defined.

(** * A peer that answers what it likes *)

Module Hostile.
(** Every stream brings the same bytes. *)
Record Peer := MkPeer { says : list Z }.

#[export] Instance peer_quic : Quic Peer := {|
  open_bi q := (Ok 0, q);
  write_all _ _ q := (Ok tt, q);
  finish _ q := (Ok tt, q);
  incoming q _ := (Incoming.Mk (says q) TransportError.Read, q);
  peer_identity _ := None;
  close_connection q := q
|}.

Definition answer_with (r : Response) (raw : list Z) : list Z :=
  match encode_frame ToyWire.response_to (λ _ _, None) (Envelope.Mk PROTOCOL_VERSION (MkRequestId 0) r) false with
  | Ok frame => frame_bytes frame ++ raw
  | Err _ => []
  end.
Definition victim (bytes : list Z) : NetworkFilesystem Peer :=
  NetworkFilesystem.Mk (QuicClient.Mk (MkPeer bytes) false PROTOCOL_VERSION) 0.

(** The codec of the victim sends every request as nothing. *)
Definition silent (_ : Envelope Request) : option (list Z) := Some [].

Abbreviation attacked call :=
  (call (λ n, MkRequestId (Z.of_nat n)) silent ToyWire.response_from (λ _ _, None) (λ _ _, None)).

Definition stubborn : list Z :=
  answer_with (Response.MetadataBatch [BatchedMetadata.Failed ErrorCode.NotFound]) [].
End Hostile.
Import Hostile.

(** A peer that sends one result for two nodes. *)
Lemma answers_bounded_witness :
  0 ≤ 2 ∧ ∃ rs n', attacked get_metadata_batch [ROOT_NODE; ROOT_NODE] (victim stubborn) = (Ok rs, n') ∧
    length rs = 2%nat.
Proof.
  split; [discriminate|].
  destruct (answers_bounded (λ n, MkRequestId (Z.of_nat n)) silent ToyWire.response_from (λ _ _, None) (λ _ _, None)
    (victim stubborn) (MkFileHandle 0) 0 2 [] [ROOT_NODE; ROOT_NODE] ROOT_NODE DirectoryViewOptions.NATIVE)
    as (_ & _ & (rs & n' & E & Hl) & _); [discriminate|]. exists rs, n'. exact (conj E Hl).
Defined.

(** An extended attribute is not bounded in this way: the client takes as many
    bytes as the peer announces, five here for a request of two. *)
Example xattr_longer_than_asked :
  (attacked get_xattr ROOT_NODE (lit "user.a") 0 2 (victim (answer_with (Response.XattrData 5 5) [1; 2; 3; 4; 5]))).1 =
  Ok (XattrRead.Mk 5 [1; 2; 3; 4; 5]).
Proof. vm_compute. reflexivity. Qed.
