(* ===== verification/CachedClient.v ===== *)
(** The cached client ([crates/client-core/src/cached.rs],
    [CachedFilesystem]): a layer over a remote file system and a cache, with
    logical handles that survive going offline, block-aligned reads of one
    revision, read-ahead, and background refreshes of listings.

    Spawned tasks are pending work that runs as steps of its own.  The calls of
    a layer do not interleave with each other: the single-flight map of running
    block fetches is then empty between calls, and the mutation locks are free. *)

From S2P Require Import Prelude Protocol Common CacheRanges FsCache ViewStream Remote Prefetch.

Definition STALE_REVISION_RETRIES : nat := 3.

(** * Shared fetch errors *)

Module SharedFetchError.
Inductive SharedFetchError :=
  | Server (code : ErrorCode) (message : list Z)
  | UnexpectedResponse
  | ReadTooLarge (limit : Z)
  | WriteTooLarge (limit : Z)
  | StaleRevision
  | Offline
  | OfflineCacheMiss
  | AmbiguousMutation.
End SharedFetchError.
Abbreviation SharedFetchError := SharedFetchError.SharedFetchError.

Definition shared_from_client (e : ClientError) : SharedFetchError :=
  match e with
  | ClientError.Transport _ | ClientError.Offline => SharedFetchError.Offline
  | ClientError.Server code message => SharedFetchError.Server code message
  | ClientError.UnexpectedResponse => SharedFetchError.UnexpectedResponse
  | ClientError.ReadTooLarge limit => SharedFetchError.ReadTooLarge limit
  | ClientError.WriteTooLarge limit => SharedFetchError.WriteTooLarge limit
  | ClientError.StaleRevision => SharedFetchError.StaleRevision
  | ClientError.OfflineCacheMiss => SharedFetchError.OfflineCacheMiss
  | ClientError.AmbiguousMutation => SharedFetchError.AmbiguousMutation
  end.

Definition client_from_shared (e : SharedFetchError) : ClientError :=
  match e with
  | SharedFetchError.Server code message => ClientError.Server code message
  | SharedFetchError.UnexpectedResponse => ClientError.UnexpectedResponse
  | SharedFetchError.ReadTooLarge limit => ClientError.ReadTooLarge limit
  | SharedFetchError.WriteTooLarge limit => ClientError.WriteTooLarge limit
  | SharedFetchError.StaleRevision => ClientError.StaleRevision
  | SharedFetchError.Offline => ClientError.Offline
  | SharedFetchError.OfflineCacheMiss => ClientError.OfflineCacheMiss
  | SharedFetchError.AmbiguousMutation => ClientError.AmbiguousMutation
  end.

Definition is_offline (e : ClientError) : bool :=
  match e with ClientError.Transport _ | ClientError.Offline => true | _ => false end.

(** * State *)

Module CachedHandle.
Record CachedHandle := Mk { node : NodeId; inner : option FileHandle; revision : Z; size : Z }.
End CachedHandle.
Abbreviation CachedHandle := CachedHandle.CachedHandle.

(** [uuids] and [reads] count what was drawn from the random number generator
    and the clock. *)
Record Cached (C R : Type) := MkCached {
  cache : C;
  remote : R;
  handles : gmap FileHandle CachedHandle;
  capabilities : option FilesystemCapabilities;
  refreshing_directories : gset NodeId;
  prefetch : Prefetch;
  directory_parents : gmap NodeId NodeId;
  uuids : Z;
  reads : Z
}.
Arguments MkCached {C R} _ _ _ _ _ _ _ _ _.
Arguments cache {C R} _.
Arguments remote {C R} _.
Arguments handles {C R} _.
Arguments capabilities {C R} _.
Arguments refreshing_directories {C R} _.
Arguments prefetch {C R} _.
Arguments directory_parents {C R} _.
Arguments uuids {C R} _.
Arguments reads {C R} _.

Section client.
Context {C R : Type} `{FC : FilesystemCache C} `{RF : RemoteFilesystem R}.
(** [Uuid::new_v4], [Instant::elapsed] and the iteration order of the maps. *)
Context (new_v4 : Z → FileHandle) (elapsed : Z → Z) (map_order : gset RangeKey → list RangeKey).
Context (policy : CachePolicy).

Abbreviation KS := (Cached C R).
Definition KM : Type → Type := SM KS ClientError.

Definition with_cache (x : C) (s : KS) : KS :=
  MkCached x (remote s) (handles s) (capabilities s) (refreshing_directories s) (prefetch s) (directory_parents s)
    (uuids s) (reads s).
Definition with_remote (x : R) (s : KS) : KS :=
  MkCached (cache s) x (handles s) (capabilities s) (refreshing_directories s) (prefetch s) (directory_parents s)
    (uuids s) (reads s).
Definition with_handles (x : gmap FileHandle CachedHandle) (s : KS) : KS :=
  MkCached (cache s) (remote s) x (capabilities s) (refreshing_directories s) (prefetch s) (directory_parents s)
    (uuids s) (reads s).
Definition with_capabilities (x : option FilesystemCapabilities) (s : KS) : KS :=
  MkCached (cache s) (remote s) (handles s) x (refreshing_directories s) (prefetch s) (directory_parents s)
    (uuids s) (reads s).
Definition with_refreshing (x : gset NodeId) (s : KS) : KS :=
  MkCached (cache s) (remote s) (handles s) (capabilities s) x (prefetch s) (directory_parents s) (uuids s) (reads s).
Definition with_prefetch (x : Prefetch) (s : KS) : KS :=
  MkCached (cache s) (remote s) (handles s) (capabilities s) (refreshing_directories s) x (directory_parents s)
    (uuids s) (reads s).
Definition with_parents (x : gmap NodeId NodeId) (s : KS) : KS :=
  MkCached (cache s) (remote s) (handles s) (capabilities s) (refreshing_directories s) (prefetch s) x (uuids s) (reads s).

(** [CachedFilesystem::new]. *)
Definition cached_new (c : C) (r : R) : result ClientError KS :=
  if (CachePolicy.block_size policy =? 0) || (CachePolicy.block_size policy >? MAX_CLIENT_READ_SIZE)
  then Err (ClientError.Server ErrorCode.InvalidRequest (lit "cache block size must be within the client read limit"))
  else Ok (MkCached c r ∅ None ∅ (prefetch_new policy) {[ROOT_NODE := ROOT_NODE]} 0 0).

(** A call of the remote layer with [?], one whose error is inspected, a lookup
    and an update of the cache. *)
Definition on_remote {A} (c : remote_call A) : KM A := λ s,
  let '(r, x) := perform c (remote s) in (r, with_remote x s).
Definition try_remote {A} (c : remote_call A) : KM (result ClientError A) := sm_try (on_remote c).
Definition on_cache {A} (f : C → A * C) : KM A := λ s,
  let '(a, x) := f (cache s) in (Ok a, with_cache x s).
Definition store (u : CacheUpdate) : KM unit := sm_modify (λ s, with_cache (cache_update u (cache s)) s).

(** * Metadata and handles *)

Definition cache_metadata (m : Metadata) : KM Metadata :=
  _ ← store (UpMetadata true m); mret m.

Definition cached_metadata (node : NodeId) : KM Metadata :=
  m ← on_cache (metadata_get node);
  sm_lift (ok_or m ClientError.OfflineCacheMiss).

Definition remember_handle (node : NodeId) (inner : option FileHandle) (revision size : Z) : KM OpenedFile := λ s,
  let logical := new_v4 (uuids s) in
  (Ok (OpenedFile.Mk logical revision size),
   MkCached (cache s) (remote s) (<[logical := CachedHandle.Mk node inner revision size]> (handles s))
     (capabilities s) (refreshing_directories s) (prefetch s) (directory_parents s) (uuids s + 1) (reads s)).

Definition handle_error : ClientError := ClientError.Server ErrorCode.InvalidHandle (lit "unknown cached handle").

Definition handle (logical : FileHandle) : KM CachedHandle :=
  h ← sm_gets (λ s, handles s !! logical);
  sm_lift (ok_or h handle_error).

Definition require_online_handle (h : CachedHandle) : KM FileHandle :=
  sm_lift (ok_or (CachedHandle.inner h) ClientError.Offline).

Definition invalidate_node (node : NodeId) : KM unit := store (UpForgetNode false node).
Definition invalidate_node_memory (node : NodeId) : KM unit := store (UpForgetNode true node).

(** The revision and size of a handle, if it is still open. *)
Definition set_handle (logical : FileHandle) (revision size : Z) : KM unit :=
  sm_modify (λ s, with_handles (alter (λ h, CachedHandle.Mk (CachedHandle.node h) (CachedHandle.inner h) revision size)
                                  logical (handles s)) s).

Definition update_handle (logical : FileHandle) (r : WriteResult) : KM unit :=
  set_handle logical (WriteResult.revision r) (WriteResult.size r).

(** * Listings *)

Definition offline_directory (node : NodeId) : KM DirectorySnapshot :=
  m ← cached_metadata node;
  d ← on_cache (directory_get (RevisionKey.Mk node (Metadata.revision m)));
  sm_lift (ok_or (DirectorySnapshot.Mk (Metadata.revision m) <$> d) ClientError.OfflineCacheMiss).

(** The spawned task is pending while the node is in the set. *)
Definition refresh_directory_in_background (node : NodeId) : KM unit :=
  sm_modify (λ s, with_refreshing (refreshing_directories s ∪ {[node]}) s).

(** The task. *)
Definition run_refresh (node : NodeId) : KM unit :=
  listed ← try_remote (ListDirectorySnapshot node);
  _ ← match listed with
      | Ok snapshot =>
          _ ← store (UpDirectory true (RevisionKey.Mk node (DirectorySnapshot.revision snapshot))
                       (DirectorySnapshot.entries snapshot));
          m ← try_remote (GetMetadata node);
          match m with
          | Ok m => if Metadata.revision m =? DirectorySnapshot.revision snapshot then store (UpMetadata true m) else mret tt
          | Err _ => mret tt
          end
      | Err _ => mret tt
      end;
  sm_modify (λ s, with_refreshing (refreshing_directories s ∖ {[node]}) s).

Definition list_directory_snapshot (node : NodeId) : KM DirectorySnapshot :=
  offline ← sm_try (offline_directory node);
  match offline with
  | Ok snapshot => _ ← refresh_directory_in_background node; mret snapshot
  | Err _ =>
      listed ← try_remote (ListDirectorySnapshot node);
      match listed with
      | Ok snapshot =>
          _ ← store (UpDirectory true (RevisionKey.Mk node (DirectorySnapshot.revision snapshot))
                       (DirectorySnapshot.entries snapshot));
          mret snapshot
      | Err e => if is_offline e then offline_directory node else sm_err e
      end
  end.

Definition list_directory_view (node : NodeId) (options : DirectoryViewOptions) : KM DirectoryView :=
  listed ← try_remote (ListDirectoryView node options);
  match listed with
  | Ok view =>
      _ ← store (UpDirectory true (RevisionKey.Mk node (DirectoryView.revision view))
                   (map DirectoryViewEntry.entry (DirectoryView.entries view)));
      _ ← cache_metadata (DirectoryView.directory view);
      _ ← cache_metadata (DirectoryView.parent view);
      _ ← sm_modify (λ s, with_parents (<[node := Metadata.node (DirectoryView.parent view)]> (directory_parents s)) s);
      mret view
  | Err e =>
      if is_offline e then
        snapshot ← offline_directory node;
        directory ← cached_metadata node;
        parent_node ← sm_gets (λ s, directory_parents s !! node);
        parent_node ← sm_lift (ok_or parent_node ClientError.OfflineCacheMiss);
        parent ← cached_metadata parent_node;
        mret (DirectoryView.Mk (DirectorySnapshot.revision snapshot) directory parent None
                (map (λ e, DirectoryViewEntry.Mk e None) (DirectorySnapshot.entries snapshot)))
      else sm_err e
  end.

(** The node of a name in a cached listing. *)
Definition cached_child (parent : NodeId) (name : Name) : KM (option NodeId) :=
  listed ← sm_try (offline_directory parent);
  mret (match listed with
        | Ok snapshot =>
            DirectoryEntry.node <$> find (λ e, bool_decide (DirectoryEntry.name e = name)) (DirectorySnapshot.entries snapshot)
        | Err _ => None
        end).

(** * Reading *)

(** [Fetcher::fetch_block], alone on its block. *)
Definition load_block (inner_handle : FileHandle) (expected_revision : Z) (block : RangeKey) : KM (list Z) :=
  cached ← on_cache (range_get block);
  match cached with
  | Some data => mret data
  | None =>
      r ← on_remote (ReadRangeVersioned inner_handle (RangeKey.offset block) (RangeKey.length block));
      if negb (RangeRead.revision r =? expected_revision) then sm_err ClientError.StaleRevision
      else
        let actual := zlen (RangeRead.data r) in
        if actual >? RangeKey.length block then sm_err ClientError.UnexpectedResponse
        else
          _ ← (if actual >? 0 then
                 store (UpRange true (RangeKey.Mk (RangeKey.file block) (RangeKey.offset block) actual) (RangeRead.data r))
               else mret tt);
          mret (RangeRead.data r)
  end.

Definition fetch_block (inner_handle : FileHandle) (expected_revision : Z) (block : RangeKey) : KM (list Z) :=
  r ← sm_try (load_block inner_handle expected_revision block);
  sm_lift (map_err client_from_shared (map_err shared_from_client r)).

Definition cached_range (h : CachedHandle) (offset length : Z) : KM (option (list Z)) :=
  let length := Z.min length (u64_saturating_sub (CachedHandle.size h) offset) in
  on_cache (range_get (RangeKey.Mk (RevisionKey.Mk (CachedHandle.node h) (CachedHandle.revision h)) offset length)).

(** The loop of [blocks_for]; each iteration takes a block. *)
Fixpoint block_loop (fuel : nat) (h : CachedHandle) (block_size requested_end block_offset : Z)
    : result ClientError (list RangeKey) :=
  if requested_end <=? block_offset then Ok []
  else
    match fuel with
    | O => Err ClientError.UnexpectedResponse
    | S fuel' =>
        let length := Z.min (Z.min (CachePolicy.block_size policy) block_size)
                        (u64_saturating_sub (CachedHandle.size h) block_offset) in
        next ← ok_or (u64_checked_add block_offset block_size) ClientError.UnexpectedResponse;
        rest ← block_loop fuel' h block_size requested_end next;
        Ok (RangeKey.Mk (RevisionKey.Mk (CachedHandle.node h) (CachedHandle.revision h)) block_offset length :: rest)
    end.

Definition overflow_error : ClientError := ClientError.Server ErrorCode.InvalidRequest (lit "read range overflows").

Definition blocks_for (h : CachedHandle) (offset length : Z) : result ClientError (list RangeKey) :=
  match u64_checked_add offset length with
  | None => Err overflow_error
  | Some _ =>
      let requested := Z.min length (u64_saturating_sub (CachedHandle.size h) offset) in
      if requested =? 0 then Ok []
      else
        requested_end ← ok_or (u64_checked_add offset requested) ClientError.UnexpectedResponse;
        let block_size := demand_block_size policy length in
        block_loop (S (Z.to_nat requested)) h block_size requested_end (offset / block_size * block_size)
  end.

(** [join_all]: every fetch runs. *)
Fixpoint fetch_all (inner_handle : FileHandle) (revision : Z) (blocks : list RangeKey)
    : KM (list (RangeKey * result ClientError (list Z))) :=
  match blocks with
  | [] => mret []
  | block :: blocks' =>
      r ← sm_try (fetch_block inner_handle revision block);
      rest ← fetch_all inner_handle revision blocks';
      mret ((block, r) :: rest)
  end.

(** The loop over the results: the blocks that arrived, and whether one failed
    because the server is away. *)
Fixpoint collect (results : list (RangeKey * result ClientError (list Z))) (assembled : MemoryCache) (offline : bool)
    : result ClientError (MemoryCache * bool) :=
  match results with
  | [] => Ok (assembled, offline)
  | (block, Ok data) :: results' =>
      let actual := zlen data in
      if actual >? RangeKey.length block then Err ClientError.UnexpectedResponse
      else
        let key := RangeKey.Mk (RangeKey.file block) (RangeKey.offset block) actual in
        collect results' (if actual >? 0 then memory_range_insert key data assembled else assembled) offline
  | (_, Err e) :: results' => if is_offline e then collect results' assembled true else Err e
  end.

(** Tell the read-ahead about a demand read. *)
Definition demand_read (logical : FileHandle) (h : CachedHandle) (inner_handle : FileHandle)
    (offset length returned : Z) : KM unit :=
  sm_modify (λ s,
    let d := MkDemand logical inner_handle (CachedHandle.node h) (CachedHandle.revision h) (CachedHandle.size h)
               offset returned (elapsed (reads s)) in
    MkCached (cache s) (remote s) (handles s) (capabilities s) (refreshing_directories s)
      (maybe_prefetch policy d (demand_block_size policy length) (prefetch s))
      (directory_parents s) (uuids s) (reads s + 1)).

Definition read_online (logical : FileHandle) (h : CachedHandle) (inner_handle : FileHandle) (offset length : Z)
    : KM RangeRead :=
  blocks ← sm_lift (blocks_for h offset length);
  match blocks with
  | [] => mret (RangeRead.Mk (CachedHandle.revision h) [])
  | _ =>
      results ← fetch_all inner_handle (CachedHandle.revision h) blocks;
      collected ← sm_lift (collect results MemoryCache.default false);
      let '(assembled, offline_error) := collected : MemoryCache * bool in
      let requested := RangeKey.Mk (RevisionKey.Mk (CachedHandle.node h) (CachedHandle.revision h)) offset
                         (Z.min length (u64_saturating_sub (CachedHandle.size h) offset)) in
      match memory_range_get map_order requested assembled with
      | Some data =>
          _ ← demand_read logical h inner_handle offset length (zlen data);
          mret (RangeRead.Mk (CachedHandle.revision h) data)
      | None =>
          cached ← cached_range h offset length;
          match cached with
          | Some data => mret (RangeRead.Mk (CachedHandle.revision h) data)
          | None => sm_err (if offline_error then ClientError.OfflineCacheMiss else ClientError.UnexpectedResponse)
          end
      end
  end.

(** The retry loop of [read_range_versioned]. *)
Fixpoint read_attempts (retries : nat) (logical : FileHandle) (h : CachedHandle) (inner_handle : FileHandle)
    (offset length : Z) : KM RangeRead :=
  r ← sm_try (read_online logical h inner_handle offset length);
  match r, retries with
  | Err ClientError.StaleRevision, S retries' =>
      m ← on_remote (GetMetadata (CachedHandle.node h));
      _ ← store (UpMetadata true m);
      _ ← set_handle logical (Metadata.revision m) (Metadata.size m);
      read_attempts retries' logical
        (CachedHandle.Mk (CachedHandle.node h) (CachedHandle.inner h) (Metadata.revision m) (Metadata.size m))
        inner_handle offset length
  | r, _ => sm_lift r
  end.

Definition read_range_versioned (logical : FileHandle) (offset length : Z) : KM RangeRead :=
  h ← handle logical;
  match u64_checked_add offset length with
  | None => sm_err overflow_error
  | Some _ =>
      match CachedHandle.inner h with
      | None =>
          cached ← cached_range h offset length;
          sm_lift (ok_or (RangeRead.Mk (CachedHandle.revision h) <$> cached) ClientError.OfflineCacheMiss)
      | Some inner_handle => read_attempts STALE_REVISION_RETRIES logical h inner_handle offset length
      end
  end.

(** A speculative fetch runs, or is dropped at its deadline. *)
Definition run_prefetch (i : nat) (timeout : bool) : KM unit :=
  t ← sm_gets (λ s : KS, tasks (prefetch s) !! i);
  match t with
  | None => mret tt
  | Some t =>
      r ← (if timeout then mret (Err ClientError.Offline : result ClientError (list Z))
           else sm_try (fetch_block (PrefetchTask.inner_handle t)
                          (RevisionKey.revision (RangeKey.file (PrefetchTask.block t))) (PrefetchTask.block t)));
      sm_modify (λ s, with_prefetch (finish_task i (match r with Ok _ => true | Err _ => false end) (prefetch s)) s)
  end.

(** * Opening and creating *)

Definition open_file_with_options (node : NodeId) (options : FileOpenOptions) : KM OpenedFile :=
  opened ← try_remote (OpenFileWithOptions node options);
  match opened with
  | Ok o => remember_handle node (Some (OpenedFile.handle o)) (OpenedFile.revision o) (OpenedFile.size o)
  | Err e =>
      if is_offline e && bool_decide (FileOpenOptions.access options = FileAccess.ReadOnly) &&
         negb (FileOpenOptions.truncate options) && negb (FileOpenOptions.append options) then
        m ← cached_metadata node;
        remember_handle node None (Metadata.revision m) (Metadata.size m)
      else sm_err e
  end.

Definition create_file (parent : NodeId) (name : Name) (mode : Z) (options : FileOpenOptions) : KM CreatedFile :=
  created ← on_remote (CreateFile parent name mode options);
  let m := CreatedFile.metadata created in
  let o := CreatedFile.opened created in
  _ ← invalidate_node parent;
  _ ← store (UpMetadata true m);
  opened ← remember_handle (Metadata.node m) (Some (OpenedFile.handle o)) (OpenedFile.revision o) (OpenedFile.size o);
  mret (CreatedFile.Mk m opened).

(** The bytes of a link, under the revision of its metadata. *)
Definition store_link (node : NodeId) (m : Metadata) (target : list Z) : KM unit :=
  if zlen target =? Metadata.size m then
    store (UpRange true (RangeKey.Mk (RevisionKey.Mk node (Metadata.revision m)) 0 (Metadata.size m)) target)
  else mret tt.

(** A node was created below [parent]. *)
Definition created_node (parent : NodeId) (m : Metadata) : KM unit :=
  _ ← invalidate_node parent; store (UpMetadata true m).

Definition create_directory (parent : NodeId) (name : Name) (mode : Z) : KM Metadata :=
  m ← on_remote (CreateDirectory parent name mode);
  _ ← created_node parent m;
  _ ← sm_modify (λ s, with_parents (<[Metadata.node m := parent]> (directory_parents s)) s);
  mret m.

Definition create_symlink (parent : NodeId) (name : Name) (target : list Z) : KM Metadata :=
  m ← on_remote (CreateSymlink parent name target);
  _ ← created_node parent m;
  _ ← store_link (Metadata.node m) m target;
  mret m.

Definition create_hard_link (node new_parent : NodeId) (new_name : Name) : KM Metadata :=
  m ← on_remote (CreateHardLink node new_parent new_name);
  _ ← invalidate_node node;
  _ ← created_node new_parent m;
  mret m.

Definition create_special_node (parent : NodeId) (name : Name) (kind : SpecialNodeKind) (mode major minor : Z)
    : KM Metadata :=
  m ← on_remote (CreateSpecialNode parent name kind mode major minor);
  _ ← created_node parent m;
  mret m.

(** * Removing and renaming *)

Definition remove_node (parent : NodeId) (name : Name) (directory : bool) : KM unit :=
  child ← cached_child parent name;
  _ ← on_remote (RemoveNode parent name directory);
  _ ← invalidate_node parent;
  match child with
  | Some node =>
      _ ← invalidate_node node;
      sm_modify (λ s, with_parents (delete node (directory_parents s)) s)
  | None => mret tt
  end.

(** What a rename does to the known parents. *)
Definition renamed_parents (source destination : option NodeId) (parent new_parent : NodeId) (mode : RenameMode)
    (m : gmap NodeId NodeId) : gmap NodeId NodeId :=
  let m := match source with Some n => <[n := new_parent]> m | None => m end in
  match destination with
  | Some n => if bool_decide (mode = RenameMode.Exchange) then <[n := parent]> m else delete n m
  | None => m
  end.

Definition rename_node (parent : NodeId) (name : Name) (new_parent : NodeId) (new_name : Name) (mode : RenameMode)
    : KM unit :=
  source ← cached_child parent name;
  destination ← cached_child new_parent new_name;
  _ ← on_remote (RenameNode parent name new_parent new_name mode);
  _ ← invalidate_node parent;
  _ ← invalidate_node new_parent;
  sm_modify (λ s, with_parents (renamed_parents source destination parent new_parent mode (directory_parents s)) s).

Definition exchange_data (parent : NodeId) (name : Name) (new_parent : NodeId) (new_name : Name) (options : Z) : KM unit :=
  _ ← on_remote (ExchangeData parent name new_parent new_name options);
  _ ← invalidate_node parent;
  invalidate_node new_parent.

Definition read_link (node : NodeId) : KM (list Z) :=
  linked ← try_remote (ReadLink node);
  match linked with
  | Ok target =>
      m ← try_remote (GetMetadata node);
      match m with
      | Ok m => _ ← cache_metadata m; _ ← store_link node m target; mret target
      | Err _ => mret target
      end
  | Err e =>
      if is_offline e then
        m ← cached_metadata node;
        data ← on_cache (range_get (RangeKey.Mk (RevisionKey.Mk node (Metadata.revision m)) 0 (Metadata.size m)));
        sm_lift (ok_or data ClientError.OfflineCacheMiss)
      else sm_err e
  end.

(** * Changing files *)

Definition set_attributes (node : NodeId) (logical : option FileHandle) (changes : AttributeChanges) : KM Metadata :=
  mapped ← match logical with
           | Some l => h ← handle l; i ← require_online_handle h; mret (Some i)
           | None => mret None
           end;
  m ← on_remote (SetAttributes node mapped changes);
  _ ← invalidate_node node;
  _ ← store (UpMetadata true m);
  _ ← match logical with Some l => set_handle l (Metadata.revision m) (Metadata.size m) | None => mret tt end;
  mret m.

Definition write_range (logical : FileHandle) (offset : Z) (data : list Z) : KM WriteResult :=
  h ← handle logical;
  i ← require_online_handle h;
  r ← on_remote (WriteRange i offset data);
  _ ← invalidate_node_memory (CachedHandle.node h);
  _ ← update_handle logical r;
  mret r.

Definition allocate_file (logical : FileHandle) (offset length : Z) : KM WriteResult :=
  h ← handle logical;
  i ← require_online_handle h;
  r ← on_remote (AllocateFile i offset length);
  _ ← invalidate_node (CachedHandle.node h);
  _ ← update_handle logical r;
  mret r.

Definition copy_file_range (input : FileHandle) (input_offset : Z) (output : FileHandle) (output_offset length : Z)
    : KM WriteResult :=
  hi ← handle input;
  ho ← handle output;
  i ← require_online_handle hi;
  o ← require_online_handle ho;
  r ← on_remote (CopyFileRange i input_offset o output_offset length);
  _ ← invalidate_node (CachedHandle.node ho);
  _ ← update_handle output r;
  mret r.

(** [flush_file] and [sync_file]: an offline handle has nothing to write. *)
Definition online_or_done (logical : FileHandle) (c : FileHandle → remote_call unit) : KM unit :=
  h ← handle logical;
  match CachedHandle.inner h with Some i => on_remote (c i) | None => mret tt end.

Definition set_xattr (node : NodeId) (name : Name) (value : list Z) (mode : XattrSetMode) (position : Z) : KM unit :=
  _ ← on_remote (SetXattr node name value mode position); invalidate_node node.

Definition remove_xattr (node : NodeId) (name : Name) : KM unit :=
  _ ← on_remote (RemoveXattr node name); invalidate_node node.

(** The calls on a handle that only pass it on. *)
Definition pass_handle {A} (logical : FileHandle) (c : FileHandle → remote_call A) : KM A :=
  h ← handle logical;
  i ← require_online_handle h;
  on_remote (c i).

Definition close_file (logical : FileHandle) : KM unit :=
  h ← handle logical;
  _ ← sm_modify (λ s, with_handles (delete logical (handles s)) s);
  match CachedHandle.inner h with Some i => on_remote (CloseFile i) | None => mret tt end.

(** * State of the mount *)

Definition get_capabilities : KM FilesystemCapabilities :=
  r ← try_remote Capabilities;
  match r with
  | Ok c => _ ← sm_modify (with_capabilities (Some c)); mret c
  | Err e =>
      if is_offline e then
        c ← sm_gets capabilities;
        sm_lift (ok_or c ClientError.Offline)
      else sm_err e
  end.

Definition stat_filesystem : KM FilesystemStats :=
  r ← try_remote StatFilesystem;
  match r with
  | Ok v => _ ← store (UpStats true v); mret v
  | Err e =>
      if is_offline e then
        v ← on_cache stats_get;
        sm_lift (ok_or v ClientError.OfflineCacheMiss)
      else sm_err e
  end.

Definition get_metadata (node : NodeId) : KM Metadata :=
  r ← try_remote (GetMetadata node);
  match r with
  | Ok m => cache_metadata m
  | Err e => if is_offline e then cached_metadata node else sm_err e
  end.

(** * The layer *)

Definition cached_perform {A} (c : remote_call A) : KM A :=
  match c in remote_call A return KM A with
  | Capabilities => get_capabilities
  | StatFilesystem => stat_filesystem
  | GetMetadata n => get_metadata n
  | ListDirectorySnapshot n => list_directory_snapshot n
  | ListDirectoryView n o => list_directory_view n o
  | OpenFileWithOptions n o => open_file_with_options n o
  | CreateFile p n m o => create_file p n m o
  | CreateDirectory p n m => create_directory p n m
  | CreateSymlink p n t => create_symlink p n t
  | CreateHardLink n p m => create_hard_link n p m
  | CreateSpecialNode p n k m a b => create_special_node p n k m a b
  | RemoveNode p n d => remove_node p n d
  | RenameNode p n q m k => rename_node p n q m k
  | ReadLink n => read_link n
  | SetAttributes n h x => set_attributes n h x
  | ReadRangeVersioned h o l => read_range_versioned h o l
  | WriteRange h o d => write_range h o d
  | FlushFile h owner => online_or_done h (λ i, FlushFile i owner)
  | SyncFile h d => online_or_done h (λ i, SyncFile i d)
  | AllocateFile h o l => allocate_file h o l
  | SetXattr n a v m p => set_xattr n a v m p
  | RemoveXattr n a => remove_xattr n a
  | CopyFileRange i io o oo l => copy_file_range i io o oo l
  | SeekFile h o w => pass_handle h (λ i, SeekFile i o w)
  | SafeIoctlCall h o => pass_handle h (λ i, SafeIoctlCall i o)
  | ExchangeData p n q m o => exchange_data p n q m o
  | GetLock h l => pass_handle h (λ i, GetLock i l)
  | SetLock h l w => pass_handle h (λ i, SetLock i l w)
  | CloseFile h => close_file h
  | Ping n => on_remote (Ping n)
  | SyncDirectory n => on_remote (SyncDirectory n)
  | GetXattr n a o l => on_remote (GetXattr n a o l)
  | ListXattrs n => on_remote (ListXattrs n)
  | MapBlock n s b => on_remote (MapBlock n s b)
  | SetVolumeName n => on_remote (SetVolumeName n)
  | ForgetNodes l => on_remote (ForgetNodes l)
  end.

Definition cached_filesystem : RemoteFilesystem KS := {| perform := @cached_perform |}.
End client.
