(* ===== verification/CachedFacts.v ===== *)
(** The cached client keeps the promise of the layer below it: online or
    offline, with read-ahead and background refreshes, its answers are true. *)

From S2P Require Import Prelude Protocol Common CacheRanges FsCache ViewStream Remote Prefetch PrefetchFacts CachedClient.

(** * New fetches *)

(** The fetches that a demand read adds are for its file and handle. *)
Lemma maybe_prefetch_tasks policy d length p t :
  policy_ok policy → demand_ok d → pools_ok policy p →
  t ∈ tasks (maybe_prefetch policy d (demand_block_size policy length) p) →
  t ∈ tasks p ∨
  (PrefetchTask.inner_handle t = demand_inner d ∧
   RangeKey.file (PrefetchTask.block t) = RevisionKey.Mk (demand_node d) (demand_revision d) ∧
   wf_range (PrefetchTask.block t)).
Proof.
  intros Hpol (Ho & Hs & Hr) [_ Hsl _ Hpl _ Hctl].
  pose proof (demand_block_size_range policy Hpol length) as Hg. set (g := demand_block_size policy length) in *.
  unfold maybe_prefetch. destruct (g =? 0) eqn:E0; bool_simpl; [by left|].
  set (most := CachePolicy.read_ahead_max_bytes policy) in *. destruct Hpol as [_ Hmost]. fold most in Hmost.
  destruct (most / g =? 0) eqn:E1; bool_simpl; [by left|].
  assert (0 ≤ most / g ≤ most) as Hcap.
  { split; [apply Z.div_pos; [apply Hmost|lia]|]. apply Z.div_le_upper_bound; [lia|]. destruct Hmost. nia. }
  set (c := default _ _).
  assert (controller_ok most c) as Hc.
  { unfold c. destruct (controllers p !! demand_handle d) as [c0|] eqn:El; simpl; [by eapply Hctl|]. split; [done|constructor]. }
  destruct (observe_spec most c (demand_node d) (demand_offset d) (demand_returned d) (demand_revision d)
    (demand_size d) (demand_elapsed d) g (most / g)) as [Hsound Hc']; try done; [lia|lia|apply Hmost|].
  destruct (observe c _ _ _ _ _ _ _ _) as [[id scheduled] c']. simpl in Hsound.
  assert (0 ≤ u64_saturating_add (demand_offset d) (demand_returned d)) as He.
  { destruct Ho. unfold u64_saturating_add, u64_max. lia. }
  assert (∀ b, b ∈ scheduled → RangeKey.file b = RevisionKey.Mk (demand_node d) (demand_revision d) ∧ wf_range b) as Hb.
  { destruct Hsound as (_ & start & Hstart & [Hb]). intros b [i Hi]%list_elem_of_lookup.
    pose proof (demand_block_end_range _ (demand_size d) g He ltac:(lia) Hs).
    destruct (Hb i b Hi) as [-> Hlt]. split; [done|]. destruct Hs. unfold wf_range, is_u64. simpl. lia. }
  pose proof (grant_spec policy scheduled (prefetch_fetch_slots p) (prefetch_permits p) Hsl Hpl) as Hgrant.
  destruct (grant _ _ _ _) as [[granted [slots permits]] denied]. simpl.
  intros [Ht|Ht]%elem_of_app; [by left|]. right. apply list_elem_of_fmap in Ht as ([b u] & -> & Hin). simpl.
  destruct Hgrant as (-> & _).
  { apply Forall_forall. intros x Hx. eapply schedule_sound_each in Hsound; [|done|lia|done|exact Hx]. lia. }
  split; [done|]. apply Hb, elem_of_app. left. apply list_elem_of_fmap. by exists (b, u).
Qed.

Section facts.
Context {C R : Type} `{CL : FilesystemCacheLaws C} `{RL : RemoteLaws R}.
Context (new_v4 : Z → FileHandle) (new_v4_inj : ∀ j k, 0 ≤ j → 0 ≤ k → new_v4 j = new_v4 k → j = k).
Context (elapsed : Z → Z) (map_order : gset RangeKey → list RangeKey).
Context (map_order_perm : ∀ s, map_order s ≡ₚ elements s).
Context (policy : CachePolicy) (policy_good : policy_ok policy).
Context (T : Truth) (facts : facts_ok T).

Abbreviation KS := (Cached C R).

(** * The invariant *)

Record client_true (s : KS) : Prop := {
  ct_cache : cache_true T (cache s);
  ct_remote : remote_true T (remote s);
  ct_handles : ∀ h ch, handles s !! h = Some ch →
    is_u64 (CachedHandle.size ch) ∧
    (∀ i, CachedHandle.inner ch = Some i → handle_node (remote s) i (CachedHandle.node ch)) ∧
    ∃ k, 0 ≤ k < uuids s ∧ h = new_v4 k;
  ct_pools : pools_ok policy (prefetch s);
  ct_tasks : Forall (λ t, wf_range (PrefetchTask.block t) ∧
    handle_node (remote s) (PrefetchTask.inner_handle t) (RevisionKey.node (RangeKey.file (PrefetchTask.block t))))
    (tasks (prefetch s));
  ct_uuids : 0 ≤ uuids s
}.

(** The node of a handle that was given out, whether it is still open or not. *)
Definition logical_node (s : KS) (h : FileHandle) (n : NodeId) : Prop :=
  (∃ k, 0 ≤ k < uuids s ∧ h = new_v4 k) ∧
  ∀ ch, handles s !! h = Some ch → CachedHandle.node ch = n.

(** Every open handle is new since [s], or was open with the same node. *)
Definition kept (s s' : KS) : Prop :=
  uuids s ≤ uuids s' ∧
  ∀ h ch', handles s' !! h = Some ch' →
    (∃ k, uuids s ≤ k ∧ h = new_v4 k) ∨
    ∃ ch, handles s !! h = Some ch ∧ CachedHandle.node ch = CachedHandle.node ch'.

Lemma kept_node s s' h n : 0 ≤ uuids s → kept s s' → logical_node s h n → logical_node s' h n.
Proof.
  intros Hu [Hle Hk] [(k & Hlt & ->) Hn]. split; [exists k; split; [lia|done]|].
  intros ch' Hl. destruct (Hk _ _ Hl) as [(k' & Hk' & E)|(ch & Hl' & <-)]; [|by apply Hn].
  apply new_v4_inj in E; lia.
Qed.

Context (origin : KS) (origin_uuids : 0 ≤ uuids origin).

(** The invariant since [origin], and the nodes of some remote handles. *)
Definition knowing (K : list (FileHandle * NodeId)) (s : KS) : Prop :=
  client_true s ∧ kept origin s ∧ Forall (λ hn, handle_node (remote s) hn.1 hn.2) K.

Abbreviation tells K m R := (yields (knowing K) m R).

(** ** The layers *)

Lemma remote_step K s s' {A} (c : remote_call A) :
  call_ok T c → knowing K s → s' = with_remote (perform c (remote s)).2 s → knowing K s'.
Proof.
  intros Hok [[Hc Hr Hh Hp Ht Hu] HK] ->.
  assert (∀ h n, handle_node (remote s) h n → handle_node (perform c (remote s)).2 h n) as Hn.
  { intros h n. by apply (law_handles T). }
  split; [split; simpl; try done|].
  - by apply law_perform.
  - intros h ch Hl. destruct (Hh h ch Hl) as (? & Hi & ?). split_and!; auto.
  - eapply Forall_impl; [exact Ht|]. intros t [? ?]. auto.
  - destruct HK as [Hkept HK]. split; [done|]. eapply Forall_impl; [exact HK|]. auto.
Qed.

Lemma t_remote K {A} (c : remote_call A) :
  call_ok T c → tells K (on_remote c) (answer_true T (λ h n, (h, n) ∈ K) (λ _ _, True) c).
Proof.
  intros Hok s Hs. unfold on_remote. destruct (perform c (remote s)) as [r x] eqn:E. simpl. split.
  { eapply remote_step; [exact Hok|exact Hs|]. by rewrite E. }
  destruct r as [a|e]; [|done]. destruct Hs as (Hs & _ & HK). rewrite Forall_forall in HK.
  destruct (law_perform T A c (remote s) facts Hok (ct_remote s Hs)) as [_ Ha].
  rewrite E in Ha. specialize (Ha a eq_refl). simpl in Ha.
  destruct c; simpl in *; try done; try tauto.
  destruct Ha as [Hl Hd]. split; [done|]. intros n Hin. apply Hd. by apply (HK (handle, n)).
Qed.

Lemma t_try_remote K {A} (c : remote_call A) :
  call_ok T c → tells K (try_remote c)
    (λ r, match r with Ok a => answer_true T (λ h n, (h, n) ∈ K) (λ _ _, True) c a | Err _ => True end).
Proof. intros Hok. by apply yields_try, t_remote. Qed.

Lemma cache_step K s x : cache_true T x → knowing K s → knowing K (with_cache x s).
Proof. intros Hx [[Hc Hr Hh Hp Ht Hu] HK]. by split. Qed.

Lemma t_store K u : true_update T u → tells K (store u) (λ _, True).
Proof.
  intros Hu. apply yields_modify. intros s Hs. apply cache_step; [|done].
  apply law_update; [apply facts|apply Hs|done].
Qed.

Lemma t_cache K {A} (f : C → A * C) (P : A → Prop) :
  (∀ c, cache_true T c → cache_true T (f c).2 ∧ P (f c).1) → tells K (on_cache f) P.
Proof.
  intros Hf s Hs. unfold on_cache. destruct (Hf (cache s) (ct_cache s (proj1 Hs))) as [Hc HP].
  destruct (f (cache s)) as [a x]. simpl in *. split; [by apply cache_step|done].
Qed.

Lemma t_lift K {A} (r : result ClientError A) (P : A → Prop) :
  (∀ a, r = Ok a → P a) → tells K (sm_lift r) P.
Proof. apply yields_lift. Qed.

(** ** Metadata and listings *)

Lemma t_cached_metadata K n : tells K (cached_metadata n) (λ m, Truth.metadata T m ∧ Metadata.node m = n).
Proof.
  unfold cached_metadata. eapply yields_bind.
  { apply (t_cache K _ (λ o, ∀ m, o = Some m → Truth.metadata T m ∧ Metadata.node m = n)). intros c Hc.
    apply law_metadata_get; [apply facts|done]. }
  intros o Ho. apply t_lift. destruct o as [m|]; simpl; [|done]. intros ? [= <-]. by apply Ho.
Qed.

Lemma t_cache_metadata K m : Truth.metadata T m → tells K (cache_metadata m) (λ m', m' = m).
Proof. intros Hm. eapply yields_bind; [by apply t_store|]. intros _ _. by apply yields_ret. Qed.

Lemma t_offline_directory K n :
  tells K (offline_directory n) (λ d, Truth.directory T (RevisionKey.Mk n (DirectorySnapshot.revision d)) (DirectorySnapshot.entries d)).
Proof.
  unfold offline_directory. eapply yields_bind; [apply t_cached_metadata|]. intros m _. eapply yields_bind.
  { apply (t_cache K _ (λ o, ∀ d, o = Some d → Truth.directory T (RevisionKey.Mk n (Metadata.revision m)) d)). intros c Hc.
    apply law_directory_get; [apply facts|done]. }
  intros o Ho. apply t_lift. destruct o as [d|]; simpl; [|done]. intros ? [= <-]. by apply Ho.
Qed.

Lemma t_refresh K n : tells K (refresh_directory_in_background n) (λ _, True).
Proof. apply yields_modify. by intros s [[] ?]. Qed.

Lemma t_run_refresh K n : tells K (run_refresh n) (λ _, True).
Proof.
  unfold run_refresh. eapply yields_bind; [by apply t_try_remote|]. intros [d|e] Hd.
  - eapply (yields_bind _ _ _ (λ _, True)); [|intros _ _; apply yields_modify; by intros s [[] ?]].
    eapply yields_bind; [by apply t_store|]. intros _ _. eapply yields_bind; [by apply t_try_remote|].
    intros [m|e] Hm; [|by apply yields_ret]. destruct (_ =? _); [|by apply yields_ret]. by apply t_store, Hm.
  - eapply (yields_bind _ _ _ (λ _, True)); [by apply yields_ret|]. intros _ _. apply yields_modify. by intros s [[] ?].
Qed.

Lemma t_list_snapshot K n :
  tells K (list_directory_snapshot n)
    (λ d, Truth.directory T (RevisionKey.Mk n (DirectorySnapshot.revision d)) (DirectorySnapshot.entries d)).
Proof.
  unfold list_directory_snapshot. eapply yields_bind; [apply yields_try, t_offline_directory|]. intros [d|e] Hd.
  { eapply yields_bind; [apply t_refresh|]. intros _ _. by apply yields_ret. }
  eapply yields_bind; [by apply t_try_remote|]. intros [d|e'] Hd'.
  - eapply yields_bind; [by apply t_store|]. intros _ _. by apply yields_ret.
  - destruct (is_offline e'); [apply t_offline_directory|apply yields_err].
Qed.

Lemma t_parents K f : tells K (sm_modify (λ s, with_parents (f s) s) : KM unit) (λ _, True).
Proof. apply yields_modify. by intros s [[] ?]. Qed.

Lemma map_view_entries (l : list DirectoryEntry) :
  map DirectoryViewEntry.entry (map (λ e, DirectoryViewEntry.Mk e None) l) = l.
Proof. rewrite map_map. apply map_id. Qed.

Lemma t_list_view K n o :
  tells K (list_directory_view n o) (answer_true T (λ h n, (h, n) ∈ K) (λ _ _, True) (ListDirectoryView n o)).
Proof.
  unfold list_directory_view. eapply yields_bind; [by apply t_try_remote|]. intros [v|e] Hv.
  - destruct Hv as (Hd & Hm & Hp). eapply yields_bind; [by apply t_store|]. intros _ _.
    eapply yields_bind; [by apply t_cache_metadata|]. intros _ _.
    eapply yields_bind; [by apply t_cache_metadata|]. intros _ _.
    eapply yields_bind; [apply t_parents|]. intros _ _. by apply yields_ret.
  - destruct (is_offline e); [|apply yields_err].
    eapply yields_bind; [apply t_offline_directory|]. intros d Hd.
    eapply yields_bind; [apply t_cached_metadata|]. intros m [Hm _].
    eapply yields_bind; [by apply (yields_gets _ _ (λ _, True))|]. intros p _.
    eapply yields_bind; [by apply (t_lift K _ (λ _, True))|]. intros p' _.
    eapply yields_bind; [apply t_cached_metadata|]. intros pm [Hpm _].
    apply yields_ret. simpl. by rewrite map_view_entries.
Qed.

Lemma t_cached_child K p n : tells K (cached_child p n) (λ _, True).
Proof.
  unfold cached_child. eapply yields_bind; [apply yields_try, t_offline_directory|]. intros r _. by apply yields_ret.
Qed.

(** ** Reading blocks *)

(** Bytes of a range of a revision, perhaps fewer than asked for. *)
Definition block_bytes (b : RangeKey) (data : list Z) : Prop :=
  zlen data ≤ RangeKey.length b ∧
  data = range_content (Truth.content T) (RangeKey.Mk (RangeKey.file b) (RangeKey.offset b) (zlen data)).

Lemma zlen_range_content b : 0 ≤ RangeKey.length b → zlen (range_content (Truth.content T) b) = RangeKey.length b.
Proof. intros. unfold range_content. by rewrite zlen_content_range. Qed.

Lemma t_range_get K b :
  wf_range b → tells K (on_cache (range_get b)) (λ o, ∀ d, o = Some d → d = range_content (Truth.content T) b).
Proof. intros Hb. apply t_cache. intros c Hc. apply law_range_get; [apply facts|done|done]. Qed.

Lemma t_load_block K ih b :
  wf_range b → (ih, RevisionKey.node (RangeKey.file b)) ∈ K →
  tells K (load_block ih (RevisionKey.revision (RangeKey.file b)) b) (block_bytes b).
Proof.
  intros Hb Hin. unfold load_block. eapply yields_bind; [by apply t_range_get|]. intros [d|] Hd.
  { apply yields_ret. specialize (Hd d eq_refl). subst d. destruct Hb as [_ [Hl _]]. unfold block_bytes.
    rewrite zlen_range_content by lia. by destruct b. }
  eapply yields_bind; [by apply t_remote; destruct Hb|]. intros r [Hl Hdata]. specialize (Hdata _ Hin).
  destruct (negb _) eqn:E; [apply yields_err|]. bool_simpl.
  destruct (_ >? _); [apply yields_err|].
  assert (block_bytes b (RangeRead.data r)) as Hbytes.
  { split; [done|]. rewrite Hdata at 1. unfold read_key. rewrite E. by destruct b as [[] ? ?]. }
  eapply (yields_bind _ _ _ (λ _, True)); [|intros _ _; by apply yields_ret].
  destruct (_ >? 0) eqn:E0; [|by apply yields_ret]. apply t_store. destruct Hbytes as [Hle Hc]. split; [|by intros _].
  pose proof (zlen_nonneg (RangeRead.data r)). destruct Hb as [Ho [_ Hlen]]. split; [done|]. unfold is_u64. simpl. lia.
Qed.

Lemma t_fetch_block K ih b :
  wf_range b → (ih, RevisionKey.node (RangeKey.file b)) ∈ K →
  tells K (fetch_block ih (RevisionKey.revision (RangeKey.file b)) b) (block_bytes b).
Proof.
  intros Hb Hin. unfold fetch_block. eapply yields_bind; [by apply yields_try, t_load_block|].
  intros [d|e] Hd; apply t_lift; simpl; [by intros ? [= <-]|done].
Qed.

Lemma t_fetch_all K ih rev blocks :
  Forall (λ b, wf_range b ∧ (ih, RevisionKey.node (RangeKey.file b)) ∈ K ∧ RevisionKey.revision (RangeKey.file b) = rev) blocks →
  tells K (fetch_all ih rev blocks)
    (Forall (λ br, wf_range br.1 ∧ ∀ d, br.2 = Ok d → block_bytes br.1 d)).
Proof.
  induction 1 as [|b blocks (Hb & Hin & <-) _ IH]; simpl; [by apply yields_ret|].
  eapply yields_bind; [by apply yields_try, t_fetch_block|]. intros r Hr.
  eapply yields_bind; [exact IH|]. intros rest Hrest. apply yields_ret. constructor; [|done]. split; [done|].
  simpl. intros d ->. done.
Qed.

Lemma collect_true results assembled offline m off :
  Forall (λ br, wf_range br.1 ∧ ∀ d, br.2 = Ok d → block_bytes br.1 d) results →
  memory_true T assembled → collect results assembled offline = Ok (m, off) → memory_true T m.
Proof.
  intros Hr. revert assembled offline. induction Hr as [|[b [d|e]] results [Hwf Hb] _ IH]; intros assembled offline Ha; simpl.
  - by intros [= <- _].
  - destruct (_ >? RangeKey.length b); [done|]. apply IH. destruct (Hb d eq_refl) as [Hl Hd].
    destruct (_ >? 0); [|done].
    apply (memory_update_true map_order map_order_perm T assembled
      (UpRange false (RangeKey.Mk (RangeKey.file b) (RangeKey.offset b) (zlen d)) d)); [apply facts|done|].
    split; [|done]. pose proof (zlen_nonneg d). destruct Hwf as [Ho [_ Hlen]]. split; [done|]. unfold is_u64. simpl in *. lia.
  - destruct (is_offline e); [by apply IH|done].
Qed.

(** ** The blocks of a read *)

Lemma block_loop_spec fuel h bs re bo l :
  0 < bs → 0 ≤ bo → is_u64 (CachedHandle.size h) → re ≤ CachedHandle.size h →
  block_loop policy fuel h bs re bo = Ok l →
  Forall (λ b, wf_range b ∧ RangeKey.file b = RevisionKey.Mk (CachedHandle.node h) (CachedHandle.revision h)) l.
Proof.
  intros Hbs Hbo Hs Hre. revert bo l Hbo. induction fuel as [|fuel IH]; intros bo l Hbo; simpl.
  { destruct (re <=? bo); [by intros [= <-]|done]. }
  destruct (re <=? bo) eqn:E; bool_simpl; [by intros [= <-]|].
  destruct (u64_checked_add bo bs) as [next|] eqn:En; simpl; [|done].
  apply u64_checked_add_Some in En as [-> Hn].
  destruct (block_loop policy fuel h bs re (bo + bs)) as [rest|] eqn:El; simpl; [|done]. intros [= <-].
  constructor; [|by eapply IH; [|exact El]; lia]. split; [|done].
  destruct policy_good as [Hp _]. destruct Hs. unfold wf_range, is_u64, u64_saturating_sub in *. simpl. lia.
Qed.

Lemma blocks_for_wf h offset length l :
  is_u64 offset → is_u64 length → is_u64 (CachedHandle.size h) → blocks_for policy h offset length = Ok l →
  Forall (λ b, wf_range b ∧ RangeKey.file b = RevisionKey.Mk (CachedHandle.node h) (CachedHandle.revision h)) l.
Proof.
  intros Ho Hl Hs. unfold blocks_for. destruct (u64_checked_add offset length); [|done].
  destruct (_ =? 0) eqn:E; [by intros [= <-]|]. bool_simpl.
  match goal with |- context [block_loop _ ?f] => generalize f end. intros fuel.
  destruct (u64_checked_add offset (Z.min _ _)) as [re|] eqn:En; simpl; [|done].
  apply u64_checked_add_Some in En as [-> Hn].
  pose proof (demand_block_size_range policy policy_good length) as Hg.
  apply block_loop_spec; [lia| |done|].
  - destruct Ho. assert (0 ≤ offset / demand_block_size policy length) by (apply Z.div_pos; lia). nia.
  - unfold u64_saturating_sub in *. destruct Hl. lia.
Qed.

Lemma block_loop_nil fuel h bs re bo : block_loop policy fuel h bs re bo = Ok [] → re ≤ bo.
Proof.
  destruct fuel as [|fuel]; cbn [block_loop]; destruct (re <=? bo) eqn:E; bool_simpl; try done.
  destruct (u64_checked_add bo bs); simpl; [|done]. by destruct (block_loop policy fuel h bs re _).
Qed.

(** Only an empty read has no blocks. *)
Lemma blocks_for_nil h offset length :
  is_u64 offset → is_u64 length → blocks_for policy h offset length = Ok [] →
  Z.min length (u64_saturating_sub (CachedHandle.size h) offset) = 0.
Proof.
  intros [Ho _] [Hl _]. unfold blocks_for. destruct (u64_checked_add offset length); [|done].
  destruct (_ =? 0) eqn:E; bool_simpl; [done|].
  destruct (u64_checked_add offset _) as [re|] eqn:En; [|done]. apply u64_checked_add_Some in En as [-> Hn].
  match goal with |- context [block_loop _ ?f] => generalize f end. intros fuel. cbn [ok_or mbind].
  intros Hb%block_loop_nil. exfalso.
  pose proof (demand_block_size_range policy policy_good length) as Hg.
  pose proof (Z.mul_div_le offset (demand_block_size policy length) ltac:(lia)).
  unfold u64_saturating_sub in *. lia.
Qed.

(** ** Handles *)

Definition extend (ch : CachedHandle) (K : list (FileHandle * NodeId)) : list (FileHandle * NodeId) :=
  match CachedHandle.inner ch with Some i => (i, CachedHandle.node ch) :: K | None => K end.

Lemma knowing_extend K s h ch :
  knowing K s → handles s !! h = Some ch → knowing (extend ch K) s.
Proof.
  intros (Hs & Hkept & HK) Hl. split_and!; try done. unfold extend. destruct (CachedHandle.inner ch) as [i|] eqn:Ei; [|done].
  constructor; [|done]. simpl. by apply (ct_handles s Hs h ch Hl).
Qed.

Lemma knowing_forget K ch s : knowing (extend ch K) s → knowing K s.
Proof.
  intros (Hs & Hkept & HK). split_and!; try done. unfold extend in HK. destruct (CachedHandle.inner ch); [|done]. by apply Forall_cons in HK as [_ ?].
Qed.

(** An operation on an open handle; its node is the one it was given out for. *)
Lemma t_handle K logical {A} (k : CachedHandle → KM A) (P : A → Prop) :
  (∀ ch, is_u64 (CachedHandle.size ch) → (∀ n, logical_node origin logical n → CachedHandle.node ch = n) →
     tells (extend ch K) (k ch) P) →
  tells K (handle logical ≫= k) P.
Proof.
  intros Hk s Hs. unfold handle. sm_unfold. destruct (handles s !! logical) as [ch|] eqn:El; simpl; [|done].
  assert (is_u64 (CachedHandle.size ch)) as Hsize by by apply (ct_handles s (proj1 Hs) logical).
  destruct (Hk ch Hsize) with s as [Hs' HP]; [|by apply (knowing_extend K s logical)|].
  { intros n Hn. destruct Hs as (_ & Hkept & _). apply (kept_node origin s) in Hn as [_ Hn]; auto. }
  split; [by eapply knowing_forget|done].
Qed.

Lemma t_require K ch : tells K (require_online_handle ch) (λ _, True).
Proof. by apply t_lift. Qed.

Lemma t_set_handle K logical revision size : is_u64 size → tells K (set_handle logical revision size) (λ _, True).
Proof.
  intros Hsz. apply yields_modify. intros s ([Hc Hr Hh Hp Ht Hu] & [Hle Hkept] & HK).
  split; [|split; [split; [done|]|done]].
  - split; simpl; try done. intros h ch Hl.
    apply lookup_alter_Some in Hl as [(-> & ch0 & Hl & ->)|[_ Hl]]; [|by apply Hh].
    destruct (Hh h ch0 Hl) as (_ & Hi & Hk). by split.
  - simpl. intros h ch Hl. apply lookup_alter_Some in Hl as [(-> & ch0 & Hl & ->)|[_ Hl]]; exact (Hkept _ _ Hl).
Qed.

(** ** Reads *)

Lemma t_demand_read K logical ch ih offset length returned :
  is_u64 (CachedHandle.size ch) → is_u64 offset → 0 ≤ returned → (ih, CachedHandle.node ch) ∈ K →
  tells K (demand_read elapsed policy logical ch ih offset length returned) (λ _, True).
Proof.
  intros Hsz Ho Hret Hin. apply yields_modify. intros s ([Hc Hr Hh Hp Ht Hu] & Hkept & HK). split; [|done].
  set (d := MkDemand _ _ _ _ _ _ _ _). assert (demand_ok d) as Hd by done.
  split; simpl; try done; [by apply maybe_prefetch_ok|].
  apply Forall_forall. intros t Htask.
  destruct (maybe_prefetch_tasks policy d length (prefetch s) t policy_good Hd Hp Htask) as [Hold|(Hi & Hf & Hwf)].
  - rewrite Forall_forall in Ht. by apply Ht.
  - split; [done|]. rewrite Hi, Hf. simpl. rewrite Forall_forall in HK. by apply (HK (ih, CachedHandle.node ch)).
Qed.

(** The range that a read of a handle asks for. *)
Definition requested (node : NodeId) (revision size offset length : Z) : RangeKey :=
  RangeKey.Mk (RevisionKey.Mk node revision) offset (Z.min length (u64_saturating_sub size offset)).

Lemma requested_wf node revision size offset length :
  is_u64 offset → is_u64 length → is_u64 size → wf_range (requested node revision size offset length).
Proof. intros [] [] []. unfold requested, wf_range, is_u64, u64_saturating_sub, u64_max in *. simpl. lia. Qed.

Lemma t_cached_range K ch offset length :
  is_u64 offset → is_u64 length → is_u64 (CachedHandle.size ch) →
  tells K (cached_range ch offset length) (λ o, ∀ d, o = Some d →
    d = range_content (Truth.content T)
          (requested (CachedHandle.node ch) (CachedHandle.revision ch) (CachedHandle.size ch) offset length)).
Proof. intros Ho Hl Hs. apply t_range_get, requested_wf; done. Qed.

Lemma t_read_online K logical ch ih offset length :
  is_u64 offset → is_u64 length → is_u64 (CachedHandle.size ch) → (ih, CachedHandle.node ch) ∈ K →
  tells K (read_online elapsed map_order policy logical ch ih offset length) (λ r,
    RangeRead.revision r = CachedHandle.revision ch ∧
    RangeRead.data r = range_content (Truth.content T)
      (requested (CachedHandle.node ch) (CachedHandle.revision ch) (CachedHandle.size ch) offset length)).
Proof.
  intros Ho Hl Hsz Hin. unfold read_online. eapply yields_bind; [by apply (t_lift K _ (λ l, blocks_for policy ch offset length = Ok l))|].
  intros blocks Hb. pose proof (blocks_for_wf ch offset length blocks Ho Hl Hsz Hb) as Hwf.
  destruct blocks as [|b0 blocks].
  { apply yields_ret. split; [done|]. apply blocks_for_nil in Hb; [|done|done]. unfold requested. by rewrite Hb. }
  eapply yields_bind.
  { apply (t_fetch_all K ih (CachedHandle.revision ch)). eapply Forall_impl; [exact Hwf|].
    intros b [Hbw Hf]. rewrite Hf. by split_and!. }
  intros results Hres.
  eapply yields_bind; [by apply (t_lift K _ (λ m, collect results MemoryCache.default false = Ok m))|].
  intros [assembled off] Hcol.
  assert (memory_true T assembled) as Hm by (by eapply collect_true; [exact Hres|apply memory_true_default|exact Hcol]).
  destruct (memory_range_get map_order _ assembled) as [data|] eqn:Eg.
  - apply (memory_range_spec map_order map_order_perm T) in Eg as (Hd & _); [|done|by apply requested_wf].
    eapply yields_bind; [by apply t_demand_read; try done; apply zlen_nonneg|]. intros _ _. by apply yields_ret.
  - eapply yields_bind; [by apply t_cached_range|]. intros [d|] Hd; [|apply yields_err].
    apply yields_ret. split; [done|]. by apply Hd.
Qed.
(** A revision and size of the file of a handle: those of the handle, or ones
    the remote reported. *)
Definition version_of (ch : CachedHandle) (revision size : Z) : Prop :=
  is_u64 size ∧
  ((revision = CachedHandle.revision ch ∧ size = CachedHandle.size ch) ∨
   ∃ m, Truth.metadata T m ∧ Metadata.node m = CachedHandle.node ch ∧
        Metadata.revision m = revision ∧ Metadata.size m = size).

(** All the bytes of the range that exist in one revision. *)
Definition reads_version (ch : CachedHandle) (offset length : Z) (r : RangeRead) : Prop :=
  ∃ size, version_of ch (RangeRead.revision r) size ∧
    RangeRead.data r = range_content (Truth.content T)
      (requested (CachedHandle.node ch) (RangeRead.revision r) size offset length).

Lemma reads_handle ch offset length r :
  is_u64 (CachedHandle.size ch) →
  RangeRead.revision r = CachedHandle.revision ch ∧
    RangeRead.data r = range_content (Truth.content T)
      (requested (CachedHandle.node ch) (CachedHandle.revision ch) (CachedHandle.size ch) offset length) →
  reads_version ch offset length r.
Proof. intros Hsz [Hrev Hd]. exists (CachedHandle.size ch). rewrite Hrev. split; [split; [done|by left]|done]. Qed.

Lemma t_read_attempts retries K logical ch ih offset length :
  is_u64 offset → is_u64 length → is_u64 (CachedHandle.size ch) → (ih, CachedHandle.node ch) ∈ K →
  tells K (read_attempts elapsed map_order policy retries logical ch ih offset length) (reads_version ch offset length).
Proof.
  intros Ho Hl. revert ch. induction retries as [|retries IH]; intros ch Hsz Hin; cbn [read_attempts];
    (eapply yields_bind; [by apply yields_try, t_read_online|]); intros r Hr;
    (destruct r as [a|[]]; try (by apply t_lift); try (apply t_lift; intros ? [= <-]; by apply reads_handle)).
  eapply yields_bind; [by apply t_remote|]. intros m [Hm Hnode].
  eapply yields_bind; [by apply t_store|]. intros _ _.
  assert (is_u64 (Metadata.size m)) by by apply facts.
  eapply yields_bind; [by apply t_set_handle|]. intros _ _.
  eapply yields_weaken; [by apply IH|]. intros a (size & [Hs Hv] & Hd). exists size. split; [|done].
  split; [done|]. right. destruct Hv as [[-> ->]|Hv]; [by exists m|done].
Qed.

Lemma t_read_range K logical offset length :
  is_u64 offset → is_u64 length →
  tells K (read_range_versioned elapsed map_order policy logical offset length) (λ r, ∃ ch,
    (∀ n, logical_node origin logical n → CachedHandle.node ch = n) ∧ reads_version ch offset length r).
Proof.
  intros Ho Hl. apply t_handle. intros ch Hsz Hn.
  destruct (u64_checked_add offset length); [|apply yields_err].
  destruct (CachedHandle.inner ch) as [i|] eqn:Ei.
  - eapply yields_weaken; [apply t_read_attempts; try done|by eauto].
    unfold extend. rewrite Ei. by left.
  - eapply yields_bind; [by apply t_cached_range|]. intros [d|] Hd; apply t_lift; simpl; [|done].
    intros ? [= <-]. exists ch. split; [done|]. apply reads_handle; [done|]. split; [done|]. by apply Hd.
Qed.

(** ** Opening and creating *)

(** A remote handle that a call gave out. *)
Lemma remote_gives K {A} (c : remote_call A) (h : FileHandle) (n : NodeId) (a : A) s :
  call_ok T c → knowing K s → (perform c (remote s)).1 = Ok a →
  (∀ before after, answer_true T before after c a → after h n) →
  knowing ((h, n) :: K) (with_remote (perform c (remote s)).2 s).
Proof.
  intros Hok Hs Ha Hgives. destruct (remote_step K s _ c Hok Hs eq_refl) as (Hct & Hkept & HK).
  split_and!; [done|done|]. constructor; [|done]. simpl.
  eapply Hgives. apply (law_perform T A c (remote s)); [done|done|apply Hs|done].
Qed.

Lemma knowing_cons K hn s : knowing (hn :: K) s → knowing K s.
Proof. intros (Hs & Hkept & [_ HK]%Forall_cons). by split. Qed.

(** [m] answers the call [c] truly. *)
Definition answers K {A} (c : remote_call A) (m : KM A) : Prop :=
  hoare (knowing K) m (λ r s, knowing K s ∧
    ∀ a, r = Ok a → answer_true T (logical_node origin) (logical_node s) c a).

Lemma answers_yields K {A} (c : remote_call A) (m : KM A) (P : A → Prop) :
  tells K m P → (∀ a s, P a → answer_true T (logical_node origin) (logical_node s) c a) → answers K c m.
Proof.
  intros Hm HP s Hs. destruct (Hm s Hs) as [Hs' Ha]. split; [done|]. intros a E. rewrite E in Ha. by apply HP.
Qed.

(** A new handle for [node]. *)
Definition gives_handle K (node : NodeId) (m : KM OpenedFile) : Prop :=
  hoare (knowing K) m (λ r s, knowing K s ∧
    ∀ o, r = Ok o → logical_node s (OpenedFile.handle o) node ∧ is_u64 (OpenedFile.size o)).

Lemma remember_gives K node inner revision size :
  is_u64 size → (∀ i, inner = Some i → (i, node) ∈ K) → gives_handle K node (remember_handle new_v4 node inner revision size).
Proof.
  intros Hsz Hin s ([Hc Hr Hh Hp Ht Hu] & [Hle Hkept] & HK).
  assert (∀ h ch, handles (remember_handle new_v4 node inner revision size s).2 !! h = Some ch →
    (h = new_v4 (uuids s) ∧ ch = CachedHandle.Mk node inner revision size) ∨ handles s !! h = Some ch) as Hnew.
  { simpl. intros h ch [[<- <-]|[_ Hl]]%lookup_insert_Some; auto. }
  split; [split_and!|].
  - split; simpl in *; try done; [|lia]. intros h ch [[-> ->]|Hl]%Hnew.
    + simpl. split; [done|]. rewrite Forall_forall in HK. split; [intros i Hi; by apply (HK (i, node)), Hin|].
      exists (uuids s). split; [lia|done].
    + destruct (Hh h ch Hl) as (? & ? & k & ? & ->). split_and!; try done. exists k. split; [lia|done].
  - split; simpl in *; [lia|]. intros h ch [[-> ->]|Hl]%Hnew; [left; exists (uuids s); split; [lia|done]|by apply Hkept].
  - done.
  - simpl. intros o [= <-]. simpl. split; [|done]. split; [exists (uuids s); split; [simpl; lia|done]|].
    simpl. rewrite lookup_insert_eq. by intros ch [= <-].
Qed.

Lemma open_answers K node options :
  answers K (OpenFileWithOptions node options) (open_file_with_options new_v4 node options).
Proof.
  intros s Hs. unfold open_file_with_options, try_remote, on_remote. sm_unfold.
  pose proof (remote_step K s _ (OpenFileWithOptions node options) I Hs eq_refl) as Hs'.
  pose proof (t_remote K (OpenFileWithOptions node options) I s Hs) as [_ Ha]. unfold on_remote in Ha.
  pose proof (λ a, remote_gives K (OpenFileWithOptions node options) (OpenedFile.handle a) node a s I Hs) as Hg.
  destruct (perform (OpenFileWithOptions node options) (remote s)) as [[o|e] x]; simpl in *.
  - destruct Ha as [_ Hsz]. specialize (Hg o eq_refl ltac:(by intros ?? [? _])).
    destruct (remember_gives _ node (Some (OpenedFile.handle o)) (OpenedFile.revision o) (OpenedFile.size o)
      Hsz ltac:(intros i [= <-]; by left) _ Hg) as [Hk Ho]. split; [by eapply knowing_cons|done].
  - destruct (_ && _); [|done].
    destruct (t_cached_metadata K node _ Hs') as [Hk Hm].
    destruct (cached_metadata node (with_remote x s)) as [[m|e'] s'']; simpl in *; [|done].
    apply (remember_gives K node None); [apply facts, Hm|done|done].
Qed.

Lemma create_answers K parent name mode options :
  answers K (CreateFile parent name mode options) (create_file new_v4 parent name mode options).
Proof.
  intros s Hs. unfold create_file, on_remote. sm_unfold.
  pose proof (remote_step K s _ (CreateFile parent name mode options) I Hs eq_refl) as Hs'.
  pose proof (t_remote K (CreateFile parent name mode options) I s Hs) as [_ Ha]. unfold on_remote in Ha.
  pose proof (λ a, remote_gives K (CreateFile parent name mode options) (OpenedFile.handle (CreatedFile.opened a))
    (Metadata.node (CreatedFile.metadata a)) a s I Hs) as Hg.
  destruct (perform (CreateFile parent name mode options) (remote s)) as [[f|e] x]; simpl in *; [|done].
  destruct Ha as (Hm & _ & Hsz). specialize (Hg f eq_refl ltac:(by intros ?? (_ & ? & _))).
  set (K' := (_, _) :: K) in Hg.
  assert (tells K' (_ ← invalidate_node parent; store (UpMetadata true (CreatedFile.metadata f)) : KM unit) (λ _, True)) as Ht.
  { eapply yields_bind; [by apply t_store|]. intros _ _. by apply t_store. }
  destruct (Ht _ Hg) as [Hk _].
  destruct (remember_gives K' (Metadata.node (CreatedFile.metadata f)) (Some (OpenedFile.handle (CreatedFile.opened f)))
    (OpenedFile.revision (CreatedFile.opened f)) (OpenedFile.size (CreatedFile.opened f))
    Hsz ltac:(intros i [= <-]; by left) _ Hk) as [Hk' Ho].
  specialize (Ho _ eq_refl). split; [by eapply knowing_cons|]. intros a [= <-]. split; [done|]. exact Ho.
Qed.

(** ** The other operations *)

Ltac tell_store := eapply yields_bind; [by apply t_store|intros _ _].

Lemma t_created K parent m : Truth.metadata T m → tells K (created_node parent m) (λ _, True).
Proof. intros Hm. unfold created_node. tell_store. by apply t_store. Qed.

Lemma link_true_range m target :
  Truth.metadata T m → link_content T m target → zlen target = Metadata.size m →
  true_range T (RangeKey.Mk (RevisionKey.Mk (Metadata.node m) (Metadata.revision m)) 0 (Metadata.size m)) target.
Proof.
  intros Hm Hl Hz. assert (is_u64 (Metadata.size m)) by by apply facts. split; [by split|].
  intros _. specialize (Hl Hz). unfold read_key in Hl. by rewrite Hz in Hl.
Qed.

Lemma t_store_link K m target :
  Truth.metadata T m → link_content T m target → tells K (store_link (Metadata.node m) m target) (λ _, True).
Proof.
  intros Hm Hl. unfold store_link. destruct (_ =? _) eqn:E; [|by apply yields_ret]. bool_simpl.
  by apply t_store, link_true_range.
Qed.

Lemma create_directory_tells K parent name mode : tells K (create_directory parent name mode) (Truth.metadata T).
Proof.
  eapply yields_bind; [by apply t_remote|]. intros m Hm. eapply yields_bind; [by apply t_created|]. intros _ _.
  eapply yields_bind; [apply t_parents|]. intros _ _. by apply yields_ret.
Qed.

Lemma create_symlink_tells K parent name target :
  tells K (create_symlink parent name target) (λ m, Truth.metadata T m ∧ link_content T m target).
Proof.
  eapply yields_bind; [by apply t_remote|]. intros m [Hm Hl]. eapply yields_bind; [by apply t_created|]. intros _ _.
  eapply yields_bind; [by apply t_store_link|]. intros _ _. by apply yields_ret.
Qed.

Lemma create_hard_link_tells K node new_parent new_name :
  tells K (create_hard_link node new_parent new_name) (Truth.metadata T).
Proof.
  eapply yields_bind; [by apply t_remote|]. intros m Hm. tell_store.
  eapply yields_bind; [by apply t_created|]. intros _ _. by apply yields_ret.
Qed.

Lemma create_special_tells K parent name kind mode major minor :
  tells K (create_special_node parent name kind mode major minor) (Truth.metadata T).
Proof.
  eapply yields_bind; [by apply t_remote|]. intros m Hm.
  eapply yields_bind; [by apply t_created|]. intros _ _. by apply yields_ret.
Qed.

Lemma remove_tells K parent name directory : tells K (remove_node parent name directory) (λ _, True).
Proof.
  eapply yields_bind; [apply t_cached_child|]. intros child _. eapply yields_bind; [by apply t_remote|]. intros _ _.
  tell_store. destruct child as [n|]; [|by apply yields_ret]. tell_store. apply t_parents.
Qed.

Lemma rename_tells K parent name new_parent new_name mode :
  tells K (rename_node parent name new_parent new_name mode) (λ _, True).
Proof.
  eapply yields_bind; [apply t_cached_child|]. intros ? _. eapply yields_bind; [apply t_cached_child|]. intros ? _.
  eapply yields_bind; [by apply t_remote|]. intros _ _. tell_store. tell_store. apply t_parents.
Qed.

Lemma exchange_tells K parent name new_parent new_name options :
  tells K (exchange_data parent name new_parent new_name options) (λ _, True).
Proof. eapply yields_bind; [by apply t_remote|]. intros _ _. tell_store. by apply t_store. Qed.

(** The bytes of a link are those of every revision of it. *)
Lemma link_content_any m m' :
  Truth.metadata T m → Truth.metadata T m' → Metadata.node m = Metadata.node m' →
  Metadata.kind m = NodeKind.Symlink → Metadata.kind m' = NodeKind.Symlink →
  link_content T m' (range_content (Truth.content T)
    (RangeKey.Mk (RevisionKey.Mk (Metadata.node m) (Metadata.revision m)) 0 (Metadata.size m))).
Proof.
  intros Hm Hm' Hn Hk Hk' Hz. assert (is_u64 (Metadata.size m)) as [Hs _] by by apply facts.
  unfold read_key. rewrite zlen_range_content in * by done. simpl in *. rewrite <- Hn.
  unfold range_content, content_range. simpl. apply list_fmap_ext. intros i p Hi.
  apply lookup_seqZ in Hi as [-> Hi]. destruct facts as (_ & _ & Hfixed). apply Hfixed; try done. lia.
Qed.

Lemma read_link_tells K node :
  call_ok T (ReadLink node) → tells K (read_link node)
    (λ target, ∀ m, Truth.metadata T m → Metadata.node m = node → link_content T m target).
Proof.
  intros Hlink. unfold read_link. eapply yields_bind; [by apply t_try_remote|]. intros [target|e] Ht.
  - eapply yields_bind; [by apply t_try_remote|]. intros [m|e] Hm; [|by apply yields_ret].
    destruct Hm as [Hm <-]. eapply yields_bind; [by apply t_cache_metadata|]. intros _ _.
    eapply yields_bind; [apply t_store_link; auto|]. intros _ _. by apply yields_ret.
  - destruct (is_offline e); [|apply yields_err]. eapply yields_bind; [apply t_cached_metadata|]. intros m [Hm <-].
    assert (is_u64 (Metadata.size m)) by by apply facts.
    eapply yields_bind; [by apply t_range_get|]. intros [d|] Hd; apply t_lift; simpl; [|done].
    intros ? [= <-] m' Hm' Hn. rewrite (Hd d eq_refl). apply link_content_any; auto.
Qed.

Lemma set_attributes_tells K node logical changes : tells K (set_attributes node logical changes) (Truth.metadata T).
Proof.
  eapply (yields_bind _ _ _ (λ _, True)).
  { destruct logical as [l|]; [|by apply yields_ret]. apply t_handle. intros ch _ _.
    eapply yields_bind; [apply t_require|]. intros i _. by apply yields_ret. }
  intros mapped _. eapply yields_bind; [by apply t_remote|]. intros m Hm. tell_store. tell_store.
  eapply (yields_bind _ _ _ (λ _, True)); [|intros _ _; by apply yields_ret].
  destruct logical as [l|]; [|by apply yields_ret]. by apply t_set_handle, facts.
Qed.

(** A call that changes the file of a handle, whose answer has the new size. *)
Lemma t_changed K (c : remote_call WriteResult) u logical :
  call_ok T c → true_update T u →
  (∀ w, answer_true T (λ h n, (h, n) ∈ K) (λ _ _, True) c w → is_u64 (WriteResult.size w)) →
  tells K (r ← on_remote c; _ ← store u; _ ← update_handle logical r; mret r) (λ w, is_u64 (WriteResult.size w)).
Proof.
  intros Hok Hu Hc. eapply yields_bind; [by apply t_remote|]. intros w Hw%Hc. tell_store.
  eapply yields_bind; [by apply t_set_handle|]. intros _ _. by apply yields_ret.
Qed.

Lemma write_tells K logical offset data :
  tells K (write_range logical offset data) (λ w, is_u64 (WriteResult.size w)).
Proof.
  apply t_handle. intros ch _ _. eapply yields_bind; [apply t_require|]. intros i _. by apply t_changed.
Qed.

Lemma allocate_tells K logical offset length :
  tells K (allocate_file logical offset length) (λ w, is_u64 (WriteResult.size w)).
Proof.
  apply t_handle. intros ch _ _. eapply yields_bind; [apply t_require|]. intros i _. by apply t_changed.
Qed.

Lemma copy_tells K input input_offset output output_offset length :
  tells K (copy_file_range input input_offset output output_offset length) (λ w, is_u64 (WriteResult.size w)).
Proof.
  apply t_handle. intros hi _ _. apply t_handle. intros ho _ _.
  eapply yields_bind; [apply t_require|]. intros i _. eapply yields_bind; [apply t_require|]. intros o _.
  by apply t_changed.
Qed.

Lemma online_or_done_tells K logical (c : FileHandle → remote_call unit) :
  (∀ i, call_ok T (c i)) → tells K (online_or_done logical c) (λ _, True).
Proof.
  intros Hok. apply t_handle. intros ch _ _. destruct (CachedHandle.inner ch) as [i|]; [|by apply yields_ret].
  eapply yields_weaken; [by apply t_remote|done].
Qed.

Lemma pass_handle_tells K logical {A} (c : FileHandle → remote_call A) :
  (∀ i, call_ok T (c i)) → tells K (pass_handle logical c) (λ _, True).
Proof.
  intros Hok. apply t_handle. intros ch _ _. eapply yields_bind; [apply t_require|]. intros i _.
  eapply yields_weaken; [by apply t_remote|done].
Qed.

Lemma xattr_tells K (c : remote_call unit) node :
  call_ok T c → tells K (_ ← on_remote c; invalidate_node node) (λ _, True).
Proof. intros Hok. eapply yields_bind; [by apply t_remote|]. intros _ _. by apply t_store. Qed.

Lemma close_tells K logical : tells K (close_file logical) (λ _, True).
Proof.
  apply t_handle. intros ch _ _. eapply (yields_bind _ _ _ (λ _, True)).
  - apply yields_modify. intros s ([Hc Hr Hh Hp Ht Hu] & [Hle Hkept] & HK).
    split; [|split; [split; [done|]|done]].
    + split; simpl; try done. intros h ch' [_ Hl]%lookup_delete_Some. by apply Hh.
    + simpl. intros h ch' [_ Hl]%lookup_delete_Some. by apply Hkept.
  - intros _ _. destruct (CachedHandle.inner ch) as [i|]; [by apply t_remote|by apply yields_ret].
Qed.

Lemma capabilities_tells K : tells K get_capabilities (λ _, True).
Proof.
  eapply yields_bind; [by apply t_try_remote|]. intros [c|e] _.
  - eapply yields_bind; [apply yields_modify; by intros s [[] ?]|]. intros _ _. by apply yields_ret.
  - destruct (is_offline e); [|apply yields_err].
    eapply yields_bind; [by apply (yields_gets _ _ (λ _, True))|]. intros c _. by apply t_lift.
Qed.

Lemma stats_tells K : tells K stat_filesystem (Truth.statistics T).
Proof.
  eapply yields_bind; [by apply t_try_remote|]. intros [v|e] Hv.
  - tell_store. by apply yields_ret.
  - destruct (is_offline e); [|apply yields_err]. eapply yields_bind.
    { apply (t_cache K _ (λ o, ∀ v, o = Some v → Truth.statistics T v)). intros c Hc. apply law_stats_get; [apply facts|done]. }
    intros [v|] Ho; apply t_lift; simpl; [|done]. intros ? [= <-]. by apply Ho.
Qed.

Lemma metadata_tells K node : tells K (get_metadata node) (λ m, Truth.metadata T m ∧ Metadata.node m = node).
Proof.
  eapply yields_bind; [by apply t_try_remote|]. intros [m|e] Hm.
  - eapply yields_weaken; [apply t_cache_metadata, Hm|]. by intros ? ->.
  - destruct (is_offline e); [apply t_cached_metadata|apply yields_err].
Qed.

(** ** Background work *)

Lemma finish_true K i ok s : knowing K s → knowing K (with_prefetch (finish_task i ok (prefetch s)) s).
Proof.
  intros ([Hc Hr Hh Hp Ht Hu] & HK). split; [|done]. split; simpl; try done; [by apply finish_task_ok|].
  unfold finish_task. destruct (tasks (prefetch s) !! i); [|done]. simpl. by apply Forall_delete.
Qed.

Lemma prefetch_keeps K i timeout : tells K (run_prefetch i timeout) (λ _, True).
Proof.
  intros s Hs. unfold run_prefetch. sm_unfold. destruct (tasks (prefetch s) !! i) as [t|] eqn:Et; [|done].
  destruct timeout; [split; [by apply finish_true|done]|].
  pose proof (ct_tasks s (proj1 Hs)) as Ht. rewrite Forall_lookup in Ht. destruct (Ht i t Et) as [Hwf Hn].
  set (K' := (PrefetchTask.inner_handle t, RevisionKey.node (RangeKey.file (PrefetchTask.block t))) :: K).
  assert (knowing K' s) as Hs'. { destruct Hs as (? & ? & ?). split_and!; try done. by constructor. }
  destruct (t_fetch_block K' _ _ Hwf (list_elem_of_here _ _) s Hs') as [Hk _].
  destruct (fetch_block _ _ _ s) as [r s']. simpl in *. split; [|done].
  apply knowing_cons in Hk. by apply finish_true.
Qed.

(** ** Every call *)

Lemma perform_answers K {A} (c : remote_call A) :
  call_ok T c → answers K c (cached_perform new_v4 elapsed map_order policy c).
Proof.
  intros Hok. destruct c; cbn [cached_perform];
    try (by eapply answers_yields; [by apply t_remote|]);
    try (by eapply answers_yields; [by apply online_or_done_tells|]);
    try (by eapply answers_yields; [by apply pass_handle_tells|]);
    try (by eapply answers_yields; [by apply xattr_tells|]).
  - by eapply answers_yields; [apply capabilities_tells|].
  - by eapply answers_yields; [apply stats_tells|].
  - by eapply answers_yields; [apply metadata_tells|].
  - by eapply answers_yields; [apply t_list_snapshot|].
  - by eapply answers_yields; [apply t_list_view|].
  - apply open_answers.
  - apply create_answers.
  - by eapply answers_yields; [apply create_directory_tells|].
  - by eapply answers_yields; [apply create_symlink_tells|].
  - by eapply answers_yields; [apply create_hard_link_tells|].
  - by eapply answers_yields; [apply create_special_tells|].
  - by eapply answers_yields; [apply remove_tells|].
  - by eapply answers_yields; [apply rename_tells|].
  - by eapply answers_yields; [by apply read_link_tells|].
  - by eapply answers_yields; [apply set_attributes_tells|].
  - destruct Hok as [Ho Hl]. eapply answers_yields; [by apply t_read_range|]. intros r s (ch & Hn & size & Hv & Hd).
    assert (zlen (RangeRead.data r) = Z.min length (u64_saturating_sub size offset)) as Hz.
    { rewrite Hd. apply zlen_range_content. destruct Hl. simpl. unfold u64_saturating_sub. lia. }
    split; [rewrite Hz; lia|]. intros n <-%Hn. unfold read_key. rewrite Hz. exact Hd.
  - by eapply answers_yields; [apply write_tells|].
  - by eapply answers_yields; [apply allocate_tells|].
  - by eapply answers_yields; [apply copy_tells|].
  - by eapply answers_yields; [apply exchange_tells|].
  - by eapply answers_yields; [apply close_tells|].
Qed.
End facts.

(** * The layer *)

Section layer.
Context {C R : Type} `{CL : FilesystemCacheLaws C} `{RL : RemoteLaws R}.
Context (new_v4 : Z → FileHandle) (new_v4_inj : ∀ j k, 0 ≤ j → 0 ≤ k → new_v4 j = new_v4 k → j = k).
Context (elapsed : Z → Z) (map_order : gset RangeKey → list RangeKey).
Context (map_order_perm : ∀ s, map_order s ≡ₚ elements s).
Context (policy : CachePolicy) (policy_good : policy_ok policy).

Abbreviation KS := (Cached C R).
Abbreviation call c := (cached_perform new_v4 elapsed map_order policy c).

Lemma knowing_start T (s : KS) : client_true new_v4 policy T s → knowing new_v4 policy T s [] s.
Proof.
  intros Hs. split_and!; [done| |constructor]. split; [lia|]. intros h ch Hl. right. by exists ch.
Qed.

(** One call: the invariant holds after it, its answer is true, and the nodes of
    the handles do not change. *)
Lemma call_spec T {A} (c : remote_call A) (s : KS) :
  facts_ok T → call_ok T c → client_true new_v4 policy T s →
  client_true new_v4 policy T (call c s).2 ∧
  (∀ a, (call c s).1 = Ok a → answer_true T (logical_node new_v4 s) (logical_node new_v4 (call c s).2) c a) ∧
  ∀ h n, logical_node new_v4 s h n → logical_node new_v4 (call c s).2 h n.
Proof.
  intros Hf Hok Hs. pose proof (ct_uuids _ _ _ _ Hs) as Hu.
  destruct (perform_answers new_v4 new_v4_inj elapsed map_order map_order_perm policy policy_good T Hf s Hu [] c Hok s
    (knowing_start T s Hs)) as [(Hs' & Hk & _) Ha].
  split_and!; [done|done|]. intros h n. by apply (kept_node new_v4 new_v4_inj).
Qed.

(** The layer offers what it relies on: layers of clients compose. *)
#[refine] Instance cached_filesystem_laws :
  RemoteLaws KS (H:=cached_filesystem new_v4 elapsed map_order policy) := {|
  remote_true T s := client_true new_v4 policy T s;
  handle_node := logical_node new_v4
|}.
Proof.
  - intros T A c s Hf Hok Hs. destruct (call_spec T c s Hf Hok Hs) as (? & ? & _). by split.
  - intros T A c s h n Hf Hok Hs. by apply (call_spec T c s Hf Hok Hs).
Defined.

(** ** Runs *)

(** Calls, the background tasks, and changes of the remote that the client does
    not make: other clients, and the connection. *)
Inductive ClientStep :=
  | Calls {A} (c : remote_call A)
  | Prefetched (i : nat) (timeout : bool)
  | Refreshed (node : NodeId)
  | Elsewhere (f : R → R).

Definition client_step (s : KS) (step : ClientStep) : KS :=
  match step with
  | Calls c => (call c s).2
  | Prefetched i timeout => (run_prefetch i timeout s).2
  | Refreshed node => (run_refresh node s).2
  | Elsewhere f => with_remote (f (remote s)) s
  end.

Definition step_ok (T : Truth) (step : ClientStep) : Prop :=
  match step with
  | Calls c => call_ok T c
  | Elsewhere f => ∀ r, remote_true T r → remote_true T (f r) ∧ ∀ h n, handle_node r h n → handle_node (f r) h n
  | _ => True
  end.

Lemma client_step_true T s step :
  facts_ok T → step_ok T step → client_true new_v4 policy T s → client_true new_v4 policy T (client_step s step).
Proof.
  intros Hf Hok Hs. pose proof (ct_uuids _ _ _ _ Hs) as Hu. destruct step as [A c|i timeout|node|f]; simpl in *.
  - by apply call_spec.
  - by apply (prefetch_keeps new_v4 elapsed policy T Hf s [] i timeout s), knowing_start.
  - by apply (t_run_refresh new_v4 elapsed policy T Hf s [] node s), knowing_start.
  - destruct Hs as [Hc Hr Hh Hp Ht _]. destruct (Hok _ Hr) as [Hr' Hn]. split; simpl; try done.
    + intros h ch Hl. destruct (Hh h ch Hl) as (? & Hi & ?). split_and!; auto.
    + eapply Forall_impl; [exact Ht|]. intros t [? ?]. auto.
Qed.

Lemma run_true T steps s :
  facts_ok T → Forall (step_ok T) steps → client_true new_v4 policy T s →
  client_true new_v4 policy T (fold_left client_step steps s).
Proof.
  intros Hf Hok. revert s. induction Hok as [|step steps Hstep _ IH]; intros s Hs; simpl; [done|].
  by apply IH, client_step_true.
Qed.

Abbreviation run := (fold_left client_step).

Lemma cached_new_true T c r s :
  cache_true T c → remote_true T r → cached_new policy c r = Ok s → client_true new_v4 policy T s.
Proof.
  intros Hc Hr. unfold cached_new. destruct (_ || _); [done|]. intros [= <-].
  split; simpl; try done. by apply prefetch_new_ok.
Qed.

(** C10: Every answer of the cached client is true: after any sequence of calls,
    speculative fetches that complete or time out, background refreshes and
    changes of the remote that keep its promise, from a new client over a true
    cache and a true remote, a call that succeeds answers metadata, listings,
    statistics and link targets that the remote has reported, and bytes of the
    revision it names of the file that the handle was opened for. *)
Theorem cached_client_true T ca r s steps {A} (c : remote_call A) a :
  facts_ok T → cache_true T ca → remote_true T r → cached_new policy ca r = Ok s →
  Forall (step_ok T) steps → call_ok T c →
  let before := run steps s in
  (call c before).1 = Ok a →
  answer_true T (logical_node new_v4 before) (logical_node new_v4 (call c before).2) c a.
Proof.
  intros Hf Hc Hr Hnew Hsteps Hok before Ha. apply call_spec; try done.
  apply run_true; [done|done|]. by eapply cached_new_true.
Qed.

(** C21: A read of an open handle that succeeds returns all the bytes of the range
    that exist in one revision of the handle's file, never a mixture of two:
    the bytes are assembled from blocks of several sources, and the revision is
    the handle's or, after a change was noticed, one the remote reported. *)
Theorem cached_reads_one_revision T ca r s steps h ch offset length read :
  facts_ok T → cache_true T ca → remote_true T r → cached_new policy ca r = Ok s →
  Forall (step_ok T) steps → is_u64 offset → is_u64 length →
  handles (run steps s) !! h = Some ch →
  (call (ReadRangeVersioned h offset length) (run steps s)).1 = Ok read →
  reads_version T ch offset length read.
Proof.
  intros Hf Hc Hr Hnew Hsteps Ho Hl Hch.
  assert (client_true new_v4 policy T (run steps s)) as Hs by (apply run_true; [done|done|by eapply cached_new_true]).
  set (s' := run steps s) in *.
  assert (is_u64 (CachedHandle.size ch)) as Hsz by apply (ct_handles _ _ _ _ Hs h ch Hch).
  pose proof (knowing_extend new_v4 policy T s' [] s' h ch (knowing_start T s' Hs) Hch) as Hk.
  cbn [cached_perform]. unfold read_range_versioned, handle. generalize STALE_REVISION_RETRIES as retries. intros retries.
  sm_unfold. rewrite Hch. simpl.
  destruct (u64_checked_add offset length); [|done]. destruct (CachedHandle.inner ch) as [i|] eqn:Ei.
  - intros E. destruct (t_read_attempts new_v4 elapsed map_order map_order_perm policy policy_good T Hf s'
      retries (extend ch []) h ch i offset length Ho Hl Hsz) with s' as [_ Hr'];
      [unfold extend; rewrite Ei; by left|done|]. by rewrite E in Hr'.
  - destruct (t_cached_range new_v4 policy T Hf s' (extend ch []) ch offset length Ho Hl Hsz s' Hk) as [_ Hd].
    destruct (cached_range ch offset length s') as [[[d|]|] s'']; simpl in *; try done.
    intros [= <-]. apply reads_handle; [done|]. split; [done|]. by apply Hd.
Qed.
End layer.
