(* ===== verification/CachedReads.v ===== *)
(** A read through the cache completes: while the remote serves the handle's
    revision, the blocks of a read cover it, every block arrives, and the read
    returns all of its bytes. *)

From S2P Require Import Prelude Protocol Common CacheRanges FsCache ViewStream Remote Prefetch PrefetchFacts CachedClient CachedFacts.

Section reads.
Context {C R : Type} `{CL : FilesystemCacheLaws C} `{RL : RemoteLaws R}.
Context (new_v4 : Z → FileHandle) (elapsed : Z → Z) (map_order : gset RangeKey → list RangeKey).
Context (map_order_perm : ∀ s, map_order s ≡ₚ elements s).
Context (policy : CachePolicy) (policy_good : policy_ok policy).
Context (T : Truth) (facts : facts_ok T).

Abbreviation KS := (Cached C R).

(** * The blocks *)

(** A block of the file, within it. *)
Definition block_in (h : CachedHandle) (b : RangeKey) : Prop :=
  RangeKey.file b = RevisionKey.Mk (CachedHandle.node h) (CachedHandle.revision h) ∧
  0 ≤ RangeKey.offset b ∧ 0 < RangeKey.length b ∧ RangeKey.offset b + RangeKey.length b ≤ CachedHandle.size h.

Definition covered (blocks : list RangeKey) (p : Z) : Prop :=
  ∃ b, b ∈ blocks ∧ RangeKey.offset b ≤ p < RangeKey.offset b + RangeKey.length b.

Lemma block_loop_covers fuel h g re bo :
  0 < g ≤ CachePolicy.block_size policy → 0 ≤ bo → re ≤ CachedHandle.size h → re + g ≤ u64_max →
  re - bo ≤ Z.of_nat fuel * g →
  ∃ l, block_loop policy fuel h g re bo = Ok l ∧ Forall (block_in h) l ∧ ∀ p, bo ≤ p < re → covered l p.
Proof.
  intros Hg Hbo Hre Hmax. revert bo Hbo. induction fuel as [|fuel IH]; intros bo Hbo Hf; cbn [block_loop].
  { destruct (re <=? bo) eqn:E; bool_simpl; [|lia]. exists []. split_and!; [done|done|]. intros p Hp. lia. }
  destruct (re <=? bo) eqn:E; bool_simpl.
  { exists []. split_and!; [done|done|]. intros p Hp. lia. }
  destruct (u64_checked_add bo g) as [next|] eqn:En; [|apply u64_checked_add_None in En; lia].
  apply u64_checked_add_Some in En as [-> _].
  destruct (IH (bo + g) ltac:(lia) ltac:(lia)) as (l & El & Hin & Hcov). simpl. rewrite El. simpl.
  eexists. split; [done|]. unfold u64_saturating_sub. split.
  - constructor; [|done]. split; [done|]. simpl. lia.
  - intros p Hp. destruct (decide (p < bo + g)) as [Hlt|Hge].
    + eexists. split; [by left|]. simpl. lia.
    + destruct (Hcov p ltac:(lia)) as (b & Hb & ?). exists b. split; [by right|done].
Qed.

(** The bytes that exist of a read. *)
Abbreviation available h offset length := (Z.min length (u64_saturating_sub (CachedHandle.size h) offset)).

Lemma blocks_for_covers h offset length :
  is_u64 offset → is_u64 length → is_u64 (CachedHandle.size h) → offset + length ≤ u64_max →
  CachedHandle.size h + CachePolicy.block_size policy ≤ u64_max →
  ∃ l, blocks_for policy h offset length = Ok l ∧ Forall (block_in h) l ∧
    ∀ p, offset ≤ p < offset + available h offset length → covered l p.
Proof.
  intros [Ho _] [Hl _] [Hs _] Hend Hsize. unfold blocks_for.
  destruct (u64_checked_add offset length) as [e|] eqn:En; [|apply u64_checked_add_None in En; lia].
  destruct (_ =? 0) eqn:E; bool_simpl.
  { exists []. split_and!; [done|done|]. intros p Hp. lia. }
  set (n := available h offset length) in *.
  assert (0 < n ∧ offset + n ≤ CachedHandle.size h ∧ n ≤ length) as (Hn & Hn' & Hn'').
  { unfold n, u64_saturating_sub in *. lia. }
  destruct (u64_checked_add offset n) as [re|] eqn:Er; [|apply u64_checked_add_None in Er; lia].
  apply u64_checked_add_Some in Er as [-> _]. cbn [ok_or mbind].
  pose proof (demand_block_size_range policy policy_good length) as Hg.
  set (g := demand_block_size policy length) in *.
  pose proof (Z.mul_div_le offset g ltac:(lia)). pose proof (Z.mod_pos_bound offset g ltac:(lia)).
  pose proof (Z.div_mod offset g ltac:(lia)).
  assert (0 ≤ offset / g) by (apply Z.div_pos; lia).
  destruct (block_loop_covers (S (Z.to_nat n)) h g (offset + n) (offset / g * g)) as (l & El & Hin & Hcov);
    [lia|nia|lia|lia|nia|].
  change (result_bind _ _ ?f (Ok ?x)) with (f x). exists l. split_and!; [exact El|done|]. intros p Hp. apply Hcov. lia.
Qed.

(** * The fetches *)

Context (ch : CachedHandle) (i : FileHandle) (size_ok : is_u64 (CachedHandle.size ch)).
(** States of the remote in which it serves the revision of the handle. *)
Context (serving : R → Prop).

Definition serves : Prop :=
  ∀ r offset length, serving r → 0 ≤ offset → 0 < length → offset + length ≤ CachedHandle.size ch →
    (perform (ReadRangeVersioned i offset length) r).1 =
      Ok (RangeRead.Mk (CachedHandle.revision ch) (range_content (Truth.content T)
        (RangeKey.Mk (RevisionKey.Mk (CachedHandle.node ch) (CachedHandle.revision ch)) offset length))) ∧
    serving (perform (ReadRangeVersioned i offset length) r).2.

Context (served : serves) (origin : KS).

Definition ready (s : KS) : Prop :=
  knowing new_v4 policy T origin [(i, CachedHandle.node ch)] s ∧ serving (remote s).

Abbreviation bytes_of b := (range_content (Truth.content T) b).

(** A cache does not touch the remote. *)
Lemma remote_store u s : remote (store u s : result ClientError unit * KS).2 = remote s.
Proof. done. Qed.

Lemma block_in_wf b : block_in ch b → wf_range b ∧ RevisionKey.node (RangeKey.file b) = CachedHandle.node ch.
Proof. intros (Hf & ? & ? & ?). rewrite Hf. destruct size_ok. unfold wf_range, is_u64. split; [lia|done]. Qed.

Lemma load_block_ready b s :
  block_in ch b → ready s →
  (load_block i (CachedHandle.revision ch) b s).1 = Ok (bytes_of b) ∧ ready (load_block i (CachedHandle.revision ch) b s).2.
Proof.
  intros Hb [Hk Hs]. destruct (block_in_wf b Hb) as [Hwf Hn]. pose proof Hb as (Hf & Ho & Hl & Hend).
  destruct (t_load_block new_v4 elapsed policy T facts origin [(i, CachedHandle.node ch)] i b) with s as [Hk' _];
    [done|rewrite Hn; by left|done|]. rewrite Hf in Hk'. simpl in Hk'.
  revert Hk'. unfold load_block, on_cache, on_remote. sm_unfold.
  destruct (law_range_get T (cache s) b) as [_ Hget]; [apply facts|done|apply Hk|].
  destruct (range_get b (cache s)) as [[d|] x]; simpl in *; [rewrite (Hget d eq_refl); done|].
  destruct (served (remote s) (RangeKey.offset b) (RangeKey.length b)) as [Ha Hs']; [done|done|done|done|].
  rewrite <- Hf in Ha. replace (RangeKey.Mk _ _ _) with b in Ha by by destruct b.
  destruct (perform _ (remote s)) as [r y]. simpl in Ha, Hs'. subst r. simpl.
  rewrite Z.eqb_refl, (zlen_range_content T b) by lia. simpl.
  destruct (_ >? RangeKey.length b) eqn:E; bool_simpl; [lia|].
  destruct (_ >? 0) eqn:E0; simpl; done.
Qed.

Lemma fetch_all_ready blocks s :
  Forall (block_in ch) blocks → ready s →
  (fetch_all i (CachedHandle.revision ch) blocks s).1 = Ok (map (λ b, (b, Ok (bytes_of b))) blocks) ∧
  ready (fetch_all i (CachedHandle.revision ch) blocks s).2.
Proof.
  intros Hb. revert s. induction Hb as [|b blocks Hb _ IH]; intros s Hs; [done|].
  cbn [fetch_all]. unfold fetch_block. sm_unfold.
  destruct (load_block_ready b s Hb Hs) as [El Hs']. destruct (load_block _ _ b s) as [r s']. simpl in *. subst r. simpl.
  destruct (IH _ Hs') as [El' Hs'']. destruct (fetch_all _ _ blocks _) as [r s'']. simpl in *. by subst r.
Qed.

(** Blocks that all arrived are all in the assembled ranges. *)
Lemma collect_all blocks m :
  Forall (block_in ch) blocks →
  ∃ m', collect (map (λ b, (b, Ok (bytes_of b))) blocks) m false = Ok (m', false) ∧
    (∀ k, is_Some (MemoryCache.ranges m !! k) → is_Some (MemoryCache.ranges m' !! k)) ∧
    ∀ b, b ∈ blocks → is_Some (MemoryCache.ranges m' !! b).
Proof.
  intros Hb. revert m. induction Hb as [|b blocks Hb _ IH]; intros m; simpl.
  { exists m. split_and!; [done|done|]. by intros b Hin%elem_of_nil. }
  destruct (block_in_wf b Hb) as [Hwf _]. destruct Hb as (_ & Ho & Hl & Hend).
  rewrite (zlen_range_content T b) by lia.
  destruct (_ >? _) eqn:E; bool_simpl; [lia|]. destruct (RangeKey.length b >? 0) eqn:E0; bool_simpl; [|lia].
  replace (RangeKey.Mk _ _ _) with b by by destruct b.
  assert (memory_range_insert b (bytes_of b) m =
    MemoryCache.Mk (MemoryCache.metadata m) (MemoryCache.directories m) (<[b := bytes_of b]> (MemoryCache.ranges m))
      (MemoryCache.statistics m)) as ->.
  { unfold memory_range_insert. destruct (_ && _) eqn:Ev; [done|exfalso]. bool_simpl. destruct Ev as [Ev|Ev].
    - unfold valid_range_payload in Ev. rewrite (zlen_range_content T b), Z.eqb_refl, andb_true_r in Ev by lia.
      bool_simpl. destruct Ev. unfold range_end. destruct (u64_checked_add _ _) eqn:En; [eauto|].
      apply u64_checked_add_None in En. destruct size_ok. lia.
    - bool_simpl. pose proof (zlen_range_content T b ltac:(lia)) as Hz. rewrite Ev in Hz. unfold zlen in Hz. simpl in Hz. lia. }
  match goal with |- context [collect _ ?x false] => destruct (IH x) as (m' & Em & Hkeep & Hin) end.
  exists m'. split; [exact Em|]. split.
  - intros k [v Hk]. apply Hkeep. simpl. rewrite lookup_insert_is_Some. destruct (decide (b = k)); eauto.
  - intros b' [->|Hb']%elem_of_cons; [|by apply Hin]. apply Hkeep. simpl. rewrite lookup_insert_eq. eauto.
Qed.

(** * The read *)

Lemma assembled_covers blocks m offset length :
  Forall (block_in ch) blocks → (∀ p, offset ≤ p < offset + length → covered blocks p) →
  (∀ b, b ∈ blocks → is_Some (MemoryCache.ranges m !! b)) →
  ∀ p, offset ≤ p < offset + length →
    memory_covers m (RevisionKey.Mk (CachedHandle.node ch) (CachedHandle.revision ch)) p.
Proof.
  intros Hb Hcov Hin p Hp. destruct (Hcov p Hp) as (b & Hbin & Hoff). destruct (Hin b Hbin) as [v Hv].
  exists b, v. split; [done|]. split; [|done]. rewrite Forall_forall in Hb. by apply Hb.
Qed.

Lemma read_online_ready logical offset length s :
  is_u64 offset → is_u64 length → offset + length ≤ u64_max →
  CachedHandle.size ch + CachePolicy.block_size policy ≤ u64_max → ready s →
  (read_online elapsed map_order policy logical ch i offset length s).1 =
    Ok (RangeRead.Mk (CachedHandle.revision ch) (bytes_of
      (requested (CachedHandle.node ch) (CachedHandle.revision ch) (CachedHandle.size ch) offset length))).
Proof.
  intros Ho Hl Hend Hmax Hs.
  destruct (blocks_for_covers ch offset length Ho Hl size_ok Hend Hmax) as (blocks & Eb & Hb & Hcov).
  pose proof (t_read_online new_v4 elapsed map_order map_order_perm policy policy_good T facts origin
    [(i, CachedHandle.node ch)] logical ch i offset length Ho Hl size_ok ltac:(by left) s (proj1 Hs)) as [_ Hsound].
  enough (∃ r, (read_online elapsed map_order policy logical ch i offset length s).1 = Ok r) as [r E].
  { rewrite E in *. destruct Hsound as [Hrev Hd]. destruct r as [rev d]. simpl in *. by subst. }
  clear Hsound. unfold read_online. sm_unfold. rewrite Eb. destruct blocks as [|b0 blocks']; [eauto|].
  set (blocks := b0 :: blocks') in *. destruct (fetch_all_ready blocks s Hb Hs) as [Ef [Hk _]].
  destruct (fetch_all _ _ blocks s) as [r s']. cbn [fst snd] in Ef, Hk. subst r.
  destruct (collect_all blocks MemoryCache.default Hb) as (m & Em & _ & Hin). cbn beta iota. rewrite Em. cbn beta iota.
  assert (memory_true T m) as Hm.
  { eapply (collect_true map_order map_order_perm T facts); [|apply memory_true_default|exact Em].
    apply Forall_fmap. eapply Forall_impl; [exact Hb|]. intros b Hbin. destruct (block_in_wf b Hbin) as [Hwf _].
    split; [done|]. intros d [= <-]. destruct Hwf as [_ [? _]]. split; rewrite zlen_range_content by done; simpl; [lia|].
    by destruct b. }
  set (key := requested (CachedHandle.node ch) (CachedHandle.revision ch) (CachedHandle.size ch) offset length).
  change (RangeKey.Mk _ offset _) with key.
  assert (memory_range_get map_order key m = Some (bytes_of key)) as Eg.
  { apply (memory_range_spec map_order map_order_perm T); [done|by apply requested_wf|]. split_and!; [done| |].
    - unfold key, requested, range_end. simpl. destruct (u64_checked_add _ _) eqn:En; [eauto|].
      apply u64_checked_add_None in En. unfold u64_saturating_sub in En. lia.
    - by apply (assembled_covers blocks). }
  rewrite Eg. simpl. eauto.
Qed.
End reads.

(** C22: While the remote serves the revision of an open handle, a read of the
    handle completes, whatever happened before and whatever part of the range is
    cached: the aligned blocks cover the range, each block comes from the cache
    or the remote, and the read returns exactly the bytes of the revision from
    the offset to the end of the range or of the file. *)
Theorem cached_read_completes {C R : Type} `{CL : FilesystemCacheLaws C} `{RL : RemoteLaws R}
    new_v4 elapsed map_order policy T (ca : C) (r : R) s steps h ch i serving offset length :
  (∀ j k, 0 ≤ j → 0 ≤ k → new_v4 j = new_v4 k → j = k) → (∀ s, map_order s ≡ₚ elements s) → policy_ok policy →
  facts_ok T → cache_true T ca → remote_true T r → cached_new policy ca r = Ok s → Forall (step_ok T) steps →
  let before := fold_left (client_step new_v4 elapsed map_order policy) steps s in
  handles before !! h = Some ch → CachedHandle.inner ch = Some i → serves T ch i serving → serving (remote before) →
  is_u64 offset → is_u64 length → offset + length ≤ u64_max →
  CachedHandle.size ch + CachePolicy.block_size policy ≤ u64_max →
  (cached_perform new_v4 elapsed map_order policy (ReadRangeVersioned h offset length) before).1 =
    Ok (RangeRead.Mk (CachedHandle.revision ch) (range_content (Truth.content T)
      (requested (CachedHandle.node ch) (CachedHandle.revision ch) (CachedHandle.size ch) offset length))).
Proof.
  intros Hinj Hperm Hpol Hf Hc Hr Hnew Hsteps before Hch Hi Hserves Hserving Ho Hl Hend Hmax.
  assert (client_true new_v4 policy T before) as Hs.
  { apply run_true; try done. by eapply cached_new_true. }
  assert (is_u64 (CachedHandle.size ch)) as Hsz by apply (ct_handles _ _ _ _ Hs h ch Hch).
  pose proof (knowing_extend new_v4 policy T before [] before h ch (knowing_start _ _ T before Hs) Hch) as Hk.
  unfold extend in Hk. rewrite Hi in Hk.
  cbn [cached_perform]. unfold read_range_versioned, handle. unfold STALE_REVISION_RETRIES. generalize 2%nat as retries. intros retries.
  sm_unfold. rewrite Hch. cbn [ok_or]. destruct (u64_checked_add offset length) eqn:En;
    [|apply u64_checked_add_None in En; lia].
  rewrite Hi. cbn [read_attempts]. sm_unfold.
  pose proof (read_online_ready new_v4 elapsed map_order Hperm policy Hpol T Hf ch i Hsz serving Hserves before h offset length
    before Ho Hl Hend Hmax (conj Hk Hserving)) as E.
  destruct (read_online elapsed map_order policy h ch i offset length before) as [r' s']. simpl in E. by subst r'.
Qed.
