(* ===== verification/CachedExample.v ===== *)
(** Concrete runs of the cached client over a small server, and a listing that
    is stale right after a change. *)

From S2P Require Import Prelude Protocol Common StateFiles CacheRanges FsCache CacheStore CacheStoreFacts CacheCrash CacheExample CacheWriter CacheWriterFacts ViewStream Remote Prefetch PrefetchFacts CachedClient CachedFacts CachedReads.

(** * A server with one file, and room for another *)

Module ToyServer.
Definition file (n : Z) (size revision : Z) : Metadata :=
  Metadata.Mk (MkNodeId n) NodeKind.File size 420 1 revision 10 20 None None 1 0 0.
Definition notes : Metadata := file 1 10 3.
Definition draft : Metadata := file 2 0 1.
Definition root (revision : Z) : Metadata :=
  Metadata.Mk ROOT_NODE NodeKind.Directory 0 493 1 revision 10 20 None None 2 0 0.
Definition entry (m : Metadata) (name : Name) : DirectoryEntry :=
  DirectoryEntry.Mk (Metadata.node m) name NodeKind.File m.
Definition listing (created : bool) : list DirectoryEntry :=
  entry notes (lit "notes") :: (if created then [entry draft (lit "draft")] else []).
Definition root_revision (created : bool) : Z := if created then 2 else 1.

(** Byte [p] of every revision is [p]. *)
Definition facts : Truth := Truth.Mk (λ _ p, p)
  (λ m, m = notes ∨ m = draft ∨ ∃ created, m = root (root_revision created))
  (λ k d, ∃ created, k = RevisionKey.Mk ROOT_NODE (root_revision created) ∧ d = listing created)
  (λ _, False).

Lemma facts_good : facts_ok facts.
Proof.
  split_and!.
  - intros k d e (created & -> & ->). unfold listing. destruct created; simpl; rewrite ?elem_of_cons, ?elem_of_nil;
      intros He; destruct_or!; subst; naive_solver.
  - intros m [->|[->|[created ->]]]; split; done.
  - intros m m' p _ _ _ _ _ _. done.
Qed.

Record Server := MkServer { online : bool; created : bool }.

Definition not_found : ClientError := ClientError.Server ErrorCode.NotFound [].
Definition notes_handle : FileHandle := MkFileHandle 7.
Definition draft_handle : FileHandle := MkFileHandle 8.

Definition answer {A} (c : remote_call A) (s : Server) : result ClientError A * Server :=
  match c in remote_call A return result ClientError A * Server with
  | GetMetadata n =>
      (if bool_decide (n = ROOT_NODE) then Ok (root (root_revision (created s)))
       else if bool_decide (n = MkNodeId 1) then Ok notes else Err not_found, s)
  | ListDirectorySnapshot n =>
      (if bool_decide (n = ROOT_NODE) then Ok (DirectorySnapshot.Mk (root_revision (created s)) (listing (created s)))
       else Err not_found, s)
  | OpenFileWithOptions n _ =>
      (if bool_decide (n = MkNodeId 1) then Ok (OpenedFile.Mk notes_handle 3 10) else Err not_found, s)
  | CreateFile p name _ _ =>
      if bool_decide (p = ROOT_NODE ∧ name = lit "draft") && negb (created s)
      then (Ok (CreatedFile.Mk draft (OpenedFile.Mk draft_handle 1 0)), MkServer (online s) true)
      else (Err not_found, s)
  | ReadRangeVersioned h offset length =>
      (if bool_decide (h = notes_handle)
       then Ok (RangeRead.Mk 3 (content_range (λ p, p) offset (Z.min length (u64_saturating_sub 10 offset))))
       else Err not_found, s)
  | _ => (Err not_found, s)
  end.

#[global] Instance toy_server : RemoteFilesystem Server := {|
  perform A c s := if online s then answer c s else (Err ClientError.Offline, s)
|}.

#[refine, global] Instance toy_laws : RemoteLaws Server := {|
  remote_true T _ := T = facts;
  handle_node _ h n := (h = notes_handle → n = MkNodeId 1)
|}.
Proof.
  - intros T A c s _ Hok ->. split; [done|]. intros a. unfold perform, toy_server.
    destruct (online s); [|done]. destruct c; simpl; try done.
    all: repeat case_bool_decide; subst; simpl; try done.
    all: try (intros [= <-]; simpl; eauto 6).
    + by split.
    + destruct (created s); simpl; [done|]. intros [= <-]. simpl. split; [by right; left|]. split; done.
    + destruct Hok as [[Ho _] [Hl _]]. unfold u64_saturating_sub.
      rewrite zlen_content_range by lia. split; [lia|]. intros n _. unfold range_content, read_key. simpl.
      by rewrite zlen_content_range by lia.
  - intros T A c s h n _ _ _. done.
Defined.

(** * Runs over the cache in memory *)

Definition new_v4 (k : Z) : FileHandle := MkFileHandle (100 + k).
Definition policy : CachePolicy := CachePolicy.Mk 4 16.

Definition opened : FileHandle := new_v4 0.
Definition fresh : Cached MemoryCache Server :=
  MkCached MemoryCache.default (MkServer true false) ∅ None ∅ (prefetch_new policy) {[ROOT_NODE := ROOT_NODE]} 0 0.

(** Open, list, read a part, let a speculative fetch complete. *)
Definition online_steps : list (ClientStep (R:=Server)) :=
  [Calls (OpenFileWithOptions (MkNodeId 1) FileOpenOptions.READ_ONLY); Calls (GetMetadata ROOT_NODE);
   Calls (ListDirectorySnapshot ROOT_NODE); Refreshed ROOT_NODE; Calls (ReadRangeVersioned opened 0 6); Prefetched 0 false].
(** Then the connection is lost. *)
Definition steps : list (ClientStep (R:=Server)) := online_steps ++ [Elsewhere (λ s, MkServer false (created s))].

Lemma new_v4_inj j k : 0 ≤ j → 0 ≤ k → new_v4 j = new_v4 k → j = k.
Proof. unfold new_v4. intros _ _ [= E]. lia. Qed.

Lemma toy_policy_good : policy_ok policy.
Proof. split; done. Qed.

Lemma online_steps_ok : Forall (step_ok facts) online_steps.
Proof. repeat constructor; simpl; done. Qed.

Lemma steps_ok : Forall (step_ok facts) steps.
Proof. apply Forall_app. split; [apply online_steps_ok|]. repeat constructor; simpl; done. Qed.
End ToyServer.

Section witnesses.
#[local] Existing Instance memory_cache_laws.

Definition toy_run (steps : list (ClientStep (R:=ToyServer.Server))) : Cached MemoryCache ToyServer.Server :=
  fold_left (client_step (H:=memory_cache elements) ToyServer.new_v4 (λ _, 0) elements ToyServer.policy) steps ToyServer.fresh.

(** Offline, a read inside the blocks that were read is answered. *)
Lemma cached_client_true_witness :
  answer_true ToyServer.facts
    (logical_node ToyServer.new_v4 (toy_run ToyServer.steps))
    (logical_node ToyServer.new_v4
      (cached_perform (FC:=memory_cache elements) ToyServer.new_v4 (λ _, 0) elements ToyServer.policy
         (ReadRangeVersioned ToyServer.opened 1 6) (toy_run ToyServer.steps)).2)
    (ReadRangeVersioned ToyServer.opened 1 6) (RangeRead.Mk 3 [1; 2; 3; 4; 5; 6]).
Proof.
  unfold toy_run.
  refine (cached_client_true (CL:=memory_cache_laws elements (λ s, reflexivity _)) ToyServer.new_v4 ToyServer.new_v4_inj (λ _, 0) elements (λ s, reflexivity _)
    ToyServer.policy ToyServer.toy_policy_good ToyServer.facts MemoryCache.default (ToyServer.MkServer true false) _ _ _ _ _ _ _ _ _ _ _).
  - apply ToyServer.facts_good.
  - apply memory_true_default.
  - reflexivity.
  - reflexivity.
  - apply ToyServer.steps_ok.
  - by split.
  - by vm_compute.
Defined.

Definition toy_handle : CachedHandle := CachedHandle.Mk (MkNodeId 1) (Some ToyServer.notes_handle) 3 10.

(** A read past the end, offline, has the bytes that exist. *)
Lemma cached_reads_one_revision_witness :
  reads_version ToyServer.facts toy_handle 4 100 (RangeRead.Mk 3 [4; 5; 6; 7; 8; 9]).
Proof.
  refine (cached_reads_one_revision (CL:=memory_cache_laws elements (λ s, reflexivity _)) ToyServer.new_v4
    ToyServer.new_v4_inj (λ _, 0) elements (λ s, reflexivity _) ToyServer.policy ToyServer.toy_policy_good ToyServer.facts
    MemoryCache.default (ToyServer.MkServer true false) ToyServer.fresh
    (ToyServer.online_steps ++ [Calls (ReadRangeVersioned ToyServer.opened 6 10)]) ToyServer.opened toy_handle 4 100 _ _ _ _ _ _ _ _ _ _).
  - apply ToyServer.facts_good.
  - apply memory_true_default.
  - reflexivity.
  - reflexivity.
  - apply Forall_app. split; [apply ToyServer.online_steps_ok|]. repeat constructor; simpl; done.
  - done.
  - done.
  - by vm_compute.
  - by vm_compute.
Defined.

Lemma cached_read_completes_witness :
  (cached_perform (FC:=memory_cache elements) ToyServer.new_v4 (λ _, 0) elements ToyServer.policy
     (ReadRangeVersioned ToyServer.opened 3 4) (toy_run ToyServer.online_steps)).1 = Ok (RangeRead.Mk 3 [3; 4; 5; 6]).
Proof.
  unfold toy_run.
  refine (cached_read_completes (CL:=memory_cache_laws elements (λ s, reflexivity _)) ToyServer.new_v4 (λ _, 0) elements
    ToyServer.policy ToyServer.facts MemoryCache.default (ToyServer.MkServer true false) ToyServer.fresh
    ToyServer.online_steps ToyServer.opened toy_handle ToyServer.notes_handle (λ s, ToyServer.online s = true) 3 4
    ToyServer.new_v4_inj (λ s, reflexivity _) ToyServer.toy_policy_good ToyServer.facts_good _ _ _ _ _ _ _ _ _ _ _ _).
  - apply memory_true_default.
  - reflexivity.
  - reflexivity.
  - apply ToyServer.online_steps_ok.
  - by vm_compute.
  - reflexivity.
  - intros r offset length Hr Ho Hl Hend. unfold perform, ToyServer.toy_server. rewrite Hr. simpl in *. split; [|done].
    unfold u64_saturating_sub, range_content. simpl. do 4 f_equal. lia.
  - by vm_compute.
  - done.
  - done.
  - by vm_compute.
  - by vm_compute.
Defined.
End witnesses.

(** * A stale listing *)

Module StaleListing.
Import CacheExample.

Definition config : CacheConfig :=
  CacheConfig.Mk (CacheConfig.namespace place) (CacheConfig.directory place) 1048576.
Abbreviation ClientState := (Cached (NonBlocking MemState.Mem) ToyServer.Server).
Definition client : ClientState :=
  MkCached (nonblocking_open (MkStore blank 0 PersistentState.default DeferredCommits.default 0))
    (ToyServer.MkServer true false) ∅ None ∅ (prefetch_new ToyServer.policy) {[ROOT_NODE := ROOT_NODE]} 0 0.
Definition call {A} (c : remote_call A) : ClientState → result ClientError A * ClientState :=
  cached_perform (FC:=nonblocking_cache elements_order elements config) ToyServer.new_v4 (λ _, 0) elements ToyServer.policy c.

(** The writer thread empties its queue. *)
Definition settle (s : ClientState) : ClientState :=
  with_cache (Nat.iter (writer_work (cache s)) (writer_step elements_order config) (cache s)) s.

(** The root was looked at, and the writer has caught up. *)
Definition looked : ClientState := settle (call (ListDirectorySnapshot ROOT_NODE) (call (GetMetadata ROOT_NODE) client).2).2.
Definition create : remote_call CreatedFile :=
  CreateFile ROOT_NODE (lit "draft") 420 FileOpenOptions.READ_ONLY.
End StaleListing.

(** A listing right after a change can be stale although the client is online:
    the root was listed, its writer thread caught up, and a file was created in
    it through this client, successfully.  The next listing comes from the
    persistent cache and does not show the file, which the server lists; the
    invalidation of the parent is still queued. *)
Example listing_stale_after_create :
  is_ok (StaleListing.call StaleListing.create StaleListing.looked).1 = true ∧
  let s := (StaleListing.call StaleListing.create StaleListing.looked).2 in
  (StaleListing.call (ListDirectorySnapshot ROOT_NODE) s).1 = Ok (DirectorySnapshot.Mk 1 (ToyServer.listing false)) ∧
  (perform (ListDirectorySnapshot ROOT_NODE) (remote s)).1 = Ok (DirectorySnapshot.Mk 2 (ToyServer.listing true)).
Proof. split_and!; by vm_compute. Qed.
