(* ===== verification/Tasks.v ===== *)
(** Concurrent tasks: programs of atomic steps on a shared state and of requests
    that the outside answers, their runs alone and interleaved, and a
    rely-guarantee rule for invariants.

    A step of a task may block ([None]): that is how a held lock is modelled.
    Every [.await] of the Rust code is a point between two steps. *)

From S2P Require Import Prelude.

Section tasks.
Context {S : Type} {Ev : Type → Type}.

(** An atomic step knows the task that makes it. *)
Inductive prog (A : Type) : Type :=
  | Ret (a : A)
  | Internal {X : Type} (f : nat → S → option (X * S)) (k : X → prog A)
  | External {X : Type} (e : Ev X) (k : X → prog A).
Arguments Ret {A} a.
Arguments Internal {A X} f k.
Arguments External {A X} e k.

Fixpoint prog_bind {A B} (p : prog A) (k : A → prog B) : prog B :=
  match p with
  | Ret a => k a
  | Internal f j => Internal f (λ x, prog_bind (j x) k)
  | External e j => External e (λ x, prog_bind (j x) k)
  end.

(** ** A task alone, and what it may ask *)

Context (answer : ∀ X, Ev X → S → X * S).

Fixpoint run {A} (me : nat) (p : prog A) (s : S) : option (A * S) :=
  match p with
  | Ret a => Some (a, s)
  | Internal f k => match f me s with Some (x, s') => run me (k x) s' | None => None end
  | External e k => let '(x, s') := answer _ e s in run me (k x) s'
  end.

(** A request with its answer. *)
Inductive sent :=
  | Sent {X : Type} (e : Ev X) (x : X).

(** The requests of an execution of the task, whatever other tasks do to the
    state between its steps and whatever the outside answers. *)
Fixpoint path {A} (p : prog A) (t : list sent) (a : A) : Prop :=
  match p with
  | Ret b => t = [] ∧ a = b
  | Internal f k => ∃ me s x s', f me s = Some (x, s') ∧ path (k x) t a
  | External e k => ∃ x t', t = Sent e x :: t' ∧ path (k x) t' a
  end.

Lemma path_bind {A B} (p : prog A) (k : A → prog B) t b :
  path (prog_bind p k) t b → ∃ t1 t2 a, t = t1 ++ t2 ∧ path p t1 a ∧ path (k a) t2 b.
Proof.
  revert t. induction p as [a|X f j IH|X e j IH]; intros t; simpl.
  - intros Hp. by exists [], t, a.
  - intros (me & s & x & s' & Hf & (t1 & t2 & a & -> & H1 & H2)%IH). exists t1, t2, a. split_and!; [done|eauto 8|done].
  - intros (x & t' & -> & (t1 & t2 & a & -> & H1 & H2)%IH). exists (Sent e x :: t1), t2, a. split_and!; [done|eauto|done].
Qed.

(** An execution with its requests. *)
Fixpoint trace {A} (me : nat) (p : prog A) (s : S) : option (list sent * A * S) :=
  match p with
  | Ret a => Some ([], a, s)
  | Internal f k => match f me s with Some (x, s') => trace me (k x) s' | None => None end
  | External e k =>
      let '(x, s') := answer _ e s in
      match trace me (k x) s' with Some (t, a, s'') => Some (Sent e x :: t, a, s'') | None => None end
  end.

Lemma trace_path {A} me (p : prog A) s t a s' : trace me p s = Some (t, a, s') → path p t a.
Proof.
  revert s t. induction p as [b|X f k IH|X e k IH]; intros s t; simpl.
  - by intros [= <- -> _].
  - destruct (f me s) as [[x s1]|] eqn:E; [|done]. intros Ht. exists me, s, x, s1. split; [done|]. by eapply IH.
  - destruct (answer X e s) as [x s1]. destruct (trace me (k x) s1) as [[[t' b] s2]|] eqn:E; [|done].
    intros [= <- -> ->]. exists x, t'. split; [done|]. by eapply IH.
Qed.

(** ** Interleaving *)

(** Task [me] makes a step. *)
Inductive task_step {A} (me : nat) : S → prog A → S → prog A → Prop :=
  | step_internal X (f : nat → S → option (X * S)) (k : X → prog A) s x s' :
      f me s = Some (x, s') → task_step me s (Internal f k) s' (k x)
  | step_external X (e : Ev X) (k : X → prog A) s :
      task_step me s (External e k) (answer X e s).2 (k (answer X e s).1).

Inductive pool_step {A} : S * list (prog A) → S * list (prog A) → Prop :=
  | step_pool me p p' s s' ps :
      ps !! me = Some p → task_step me s p s' p' → pool_step (s, ps) (s', <[me := p']> ps).

(** The pool after a step of task [me], and after steps in an order; a step that
    is blocked is left out. *)
Definition pool_next {A} (me : nat) (c : S * list (prog A)) : option (S * list (prog A)) :=
  match c.2 !! me with
  | Some (Internal f k) =>
      match f me c.1 with Some (x, s') => Some (s', <[me := k x]> c.2) | None => None end
  | Some (External e k) => let '(x, s') := answer _ e c.1 in Some (s', <[me := k x]> c.2)
  | _ => None
  end.

Fixpoint pool_run {A} (order : list nat) (c : S * list (prog A)) : S * list (prog A) :=
  match order with
  | [] => c
  | me :: order' => pool_run order' (default c (pool_next me c))
  end.

Lemma pool_next_step {A} me (c c' : S * list (prog A)) : pool_next me c = Some c' → pool_step c c'.
Proof.
  destruct c as [s ps]. unfold pool_next. simpl. destruct (ps !! me) as [[a|X f k|X e k]|] eqn:Ep; try done.
  - destruct (f me s) as [[x s']|] eqn:Ef; [|done]. intros [= <-]. by eapply step_pool, step_internal.
  - pose proof (step_external me X e k s) as Hstep. destruct (answer X e s) as [x s']. intros [= <-]. by eapply step_pool.
Qed.

Lemma pool_run_steps {A} order (c : S * list (prog A)) : rtc pool_step c (pool_run order c).
Proof.
  revert c. induction order as [|me order IH]; intros c; cbn [pool_run]; [done|].
  destruct (pool_next me c) as [c'|] eqn:E; simpl; [|apply IH]. eapply rtc_l; [by eapply pool_next_step|apply IH].
Qed.

(** ** Rely and guarantee *)

(** [inv] holds between steps; [changes me s s'] is what a step of [me] does. *)
Context (inv : S → Prop) (changes : nat → S → S → Prop).

Definition stable (me : nat) (P : S → Prop) : Prop :=
  ∀ other s s', other ≠ me → inv s → inv s' → changes other s s' → P s → P s'.

(** From [P] the task keeps the invariant and its guarantee, makes requests that
    [asks] allows, and ends with [Q], whatever the others do. *)
Fixpoint safe {A} (me : nat) (asks : ∀ X, Ev X → S → Prop) (P : S → Prop) (p : prog A) (Q : A → S → Prop) : Prop :=
  match p with
  | Ret a => ∀ s, inv s → P s → Q a s
  | @Internal _ X f k => ∃ R : X → S → Prop,
      (∀ x, stable me (R x)) ∧
      (∀ s x s', inv s → P s → f me s = Some (x, s') → inv s' ∧ changes me s s' ∧ R x s') ∧
      ∀ x, safe me asks (R x) (k x) Q
  | @External _ X e k => ∃ R : X → S → Prop,
      (∀ x, stable me (R x)) ∧
      (∀ s, inv s → P s →
         asks X e s ∧ inv (answer X e s).2 ∧ changes me s (answer X e s).2 ∧ R (answer X e s).1 (answer X e s).2) ∧
      ∀ x, safe me asks (R x) (k x) Q
  end.

Lemma safe_weaken {A} me asks (P P' : S → Prop) (p : prog A) (Q Q' : A → S → Prop) :
  safe me asks P p Q → (∀ s, inv s → P' s → P s) → (∀ a s, inv s → Q a s → Q' a s) → safe me asks P' p Q'.
Proof.
  revert P P'. induction p as [a|X f k IH|X e k IH]; intros P P' Hp HP HQ; simpl in *.
  - intros s Hi Hs. auto.
  - destruct Hp as (R & Hst & Hf & Hk). exists R. split_and!; [done|eauto|]. intros x. eapply IH; eauto.
  - destruct Hp as (R & Hst & Hf & Hk). exists R. split_and!; [done|eauto|]. intros x. eapply IH; eauto.
Qed.

Lemma safe_bind {A B} me asks (P : S → Prop) (p : prog A) (k : A → prog B) (R : A → S → Prop) (Q : B → S → Prop) :
  safe me asks P p R → (∀ a, safe me asks (R a) (k a) Q) → safe me asks P (prog_bind p k) Q.
Proof.
  revert P. induction p as [a|X f j IH|X e j IH]; intros P Hp Hk; simpl in *.
  - eapply safe_weaken; [apply (Hk a)|auto|auto].
  - destruct Hp as (R' & Hst & Hf & Hj). exists R'. split_and!; auto.
  - destruct Hp as (R' & Hst & Hf & Hj). exists R'. split_and!; auto.
Qed.

(** A fact that no step destroys. *)
Definition persistent (F : S → Prop) : Prop := ∀ i s s', inv s → inv s' → changes i s s' → F s → F s'.

Lemma persistent_stable me F : persistent F → stable me F.
Proof. intros HF i s s' _ ? ? ?. by apply (HF i). Qed.

Lemma persistent_and F G : persistent F → persistent G → persistent (λ s, F s ∧ G s).
Proof. intros HF HG i s s' ? ? ? [? ?]. split; [by eapply (HF i s s')|by eapply (HG i s s')]. Qed.

Lemma persistent_pure (X : Prop) : persistent (λ _, X).
Proof. by intros i s s' _ _ _ ?. Qed.

Lemma safe_frame {A} me asks (P F : S → Prop) (p : prog A) (Q : A → S → Prop) :
  persistent F → safe me asks P p Q → safe me asks (λ s, P s ∧ F s) p (λ a s, Q a s ∧ F s).
Proof.
  intros HF. revert P. induction p as [a|X f k IH|X e k IH]; intros P Hp; simpl in *.
  - intros s Hi [HP Hs]. auto.
  - destruct Hp as (R & Hst & Hf & Hk). exists (λ x s, R x s ∧ F s). split_and!.
    + intros x i s s' Hne Hi Hi' Hch [HR Hs]. split; [by eapply (Hst x i s s')|by eapply (HF i s s')].
    + intros s x s' Hi [HP Hs] Hfs. destruct (Hf s x s' Hi HP Hfs) as (? & ? & ?). split_and!; try done. by eapply (HF me s s').
    + intros x. by apply IH.
  - destruct Hp as (R & Hst & Hf & Hk). exists (λ x s, R x s ∧ F s). split_and!.
    + intros x i s s' Hne Hi Hi' Hch [HR Hs]. split; [by eapply (Hst x i s s')|by eapply (HF i s s')].
    + intros s Hi [HP Hs]. destruct (Hf s Hi HP) as (? & ? & ? & ?). split_and!; try done. by eapply (HF me s).
    + intros x. by apply IH.
Qed.

(** A task alone. *)
Lemma run_safe {A} me asks (P : S → Prop) (p : prog A) (Q : A → S → Prop) s a s' :
  safe me asks P p Q → inv s → P s → run me p s = Some (a, s') → inv s' ∧ Q a s' ∧ rtc (changes me) s s'.
Proof.
  revert P s. induction p as [b|X f k IH|X e k IH]; intros P s Hp Hi HP; simpl in *.
  - intros [= -> ->]. split_and!; [done|by apply Hp|done].
  - destruct Hp as (R & Hst & Hf & Hk). destruct (f me s) as [[x s1]|] eqn:Ef; [|done]. intros Hr.
    destruct (Hf s x s1 Hi HP Ef) as (Hi1 & Hch & HR). destruct (IH x (R x) s1 (Hk x) Hi1 HR Hr) as (? & ? & ?).
    split_and!; [done|done|by eapply rtc_l].
  - destruct Hp as (R & Hst & Hf & Hk). destruct (Hf s Hi HP) as (_ & Hi1 & Hch & HR).
    destruct (answer X e s) as [x s1]. simpl in *. intros Hr.
    destruct (IH x (R x) s1 (Hk x) Hi1 HR Hr) as (? & ? & ?). split_and!; [done|done|by eapply rtc_l].
Qed.

(** Tasks in the middle of their runs. *)
Definition pool_safe {A} (asks : nat → ∀ X, Ev X → S → Prop) (Q : nat → A → S → Prop) (c : S * list (prog A)) : Prop :=
  inv c.1 ∧ ∀ i p, c.2 !! i = Some p → ∃ P, stable i P ∧ P c.1 ∧ safe i (asks i) P p (Q i).

Lemma task_step_safe {A} asks me P s (p : prog A) s' p' Q :
  inv s → P s → safe me asks P p Q → task_step me s p s' p' →
  inv s' ∧ changes me s s' ∧ ∃ P', stable me P' ∧ P' s' ∧ safe me asks P' p' Q.
Proof.
  intros Hi HP Hp Hstep. destruct Hstep as [X f k s x s' Hf|X e k s]; simpl in Hp.
  - destruct Hp as (R & Hst & Hact & Hk). destruct (Hact s x s' Hi HP Hf) as (? & ? & ?).
    split_and!; [done|done|]. by exists (R x).
  - destruct Hp as (R & Hst & Hact & Hk). destruct (Hact s Hi HP) as (_ & ? & ? & ?).
    split_and!; [done|done|]. by eexists.
Qed.

Lemma pool_step_safe {A} asks Q (c c' : S * list (prog A)) : pool_safe asks Q c → pool_step c c' → pool_safe asks Q c'.
Proof.
  intros [Hi Hps] Hstep. destruct Hstep as [me p p' s s' ps Hp Hstep]. simpl in *.
  destruct (Hps me p Hp) as (P & _ & HP & Hsafe).
  destruct (task_step_safe (asks me) me P s p s' p' (Q me) Hi HP Hsafe Hstep) as (Hi' & Hch & Hp').
  split; [done|]. simpl. intros i p1 [(<- & <- & _)|[Hne Hl]]%list_lookup_insert_Some; [done|].
  destruct (Hps i p1 Hl) as (P1 & Hst & HP1 & Hsafe1).
  exists P1. split_and!; [done| |done]. by eapply (Hst me s s').
Qed.

(** In any interleaving the invariant holds, requests are allowed where they are
    made, and a finished task has its postcondition. *)
Lemma pool_steps_safe {A} asks Q (c c' : S * list (prog A)) :
  pool_safe asks Q c → rtc pool_step c c' → pool_safe asks Q c'.
Proof. intros Hc Hsteps. induction Hsteps as [|c c1 c2 Hs _ IH]; [done|]. eauto using pool_step_safe. Qed.

Lemma pool_finished {A} asks Q (c : S * list (prog A)) i a :
  pool_safe asks Q c → c.2 !! i = Some (Ret a) → Q i a c.1.
Proof. intros [Hi Hps] Hl. destruct (Hps i _ Hl) as (P & _ & HP & Hs). by apply Hs. Qed.

Lemma pool_asks {A} asks Q (c : S * list (prog A)) i X (e : Ev X) k :
  pool_safe asks Q c → c.2 !! i = Some (External e k) → asks i X e c.1.
Proof. intros [Hi Hps] Hl. destruct (Hps i _ Hl) as (P & _ & HP & R & _ & Hact & _). by apply Hact. Qed.
End tasks.

Arguments prog S Ev A : clear implicits.
Arguments Ret {S Ev A} a.
Arguments Internal {S Ev A X} f k.
Arguments External {S Ev A X} e k.
Arguments sent Ev : clear implicits.

(** ** Programs that can fail *)

Section fallible.
Context {S : Type} {Ev : Type → Type} {E : Type}.

Definition PM (A : Type) : Type := prog S Ev (result E A).

#[global] Instance pm_ret : MRet PM := λ A a, Ret (Ok a).
#[global] Instance pm_bind : MBind PM := λ A B k p,
  prog_bind p (λ r, match r with Ok a => k a | Err e => Ret (Err e) end).

Definition pm_err {A} (e : E) : PM A := Ret (Err e).
Definition pm_lift {A} (r : result E A) : PM A := Ret r.
Definition pm_try {A} (p : PM A) : PM (result E A) := prog_bind p (λ r, Ret (Ok r)).
(** A step, one that changes the state, one that reads it. *)
Definition pm_step {X} (f : nat → S → option (X * S)) : PM X := Internal f (λ x, Ret (Ok x)).
Definition pm_update {X} (f : S → X * S) : PM X := pm_step (λ _ s, Some (f s)).
Definition pm_gets {X} (f : S → X) : PM X := pm_update (λ s, (f s, s)).
Definition pm_ask {X} (e : Ev X) : PM X := External e (λ x, Ret (Ok x)).
End fallible.
Arguments PM S Ev E A : clear implicits.
