(* ===== verification/Deadlock.v ===== *)
(** Locks of tasks: a task that waits only for locks above those it holds, and
    gives back what it took, can neither deadlock with others of its kind nor
    block when it is alone; and every execution of tasks ends. *)

From S2P Require Import Prelude Tasks.

Section locks.
Context {S : Type} {Ev : Type → Type} (answer : ∀ X, Ev X → S → X * S).
Context {L : Type} `{EqDecision L} (owner : L → S → option nat) (level : L → nat) (top : nat).
Context (level_top : ∀ l, (level l ≤ top)%nat).
Context (answer_owner : ∀ X (e : Ev X) s l, owner l (answer X e s).2 = owner l s).

(** What a step does with the locks: nothing, pass while a lock is free, take
    it, give it back. *)
Inductive use :=
  | Plain
  | Awaits (l : L)
  | Takes (l : L)
  | Gives (l : L).

(** The lock that must be free for the step. *)
Definition wanted (u : use) : option L :=
  match u with Awaits l | Takes l => Some l | Plain | Gives _ => None end.

Definition owner_after (me : nat) (u : use) (l : L) (before : option nat) : option nat :=
  match u with
  | Takes l' => if decide (l = l') then Some me else before
  | Gives l' => if decide (l = l') then None else before
  | Plain | Awaits _ => before
  end.

Definition obeys {X} (me : nat) (u : use) (f : nat → S → option (X * S)) : Prop :=
  (∀ s, (∀ l, wanted u = Some l → owner l s = None) → is_Some (f me s)) ∧
  (∀ s x s', f me s = Some (x, s') →
     (∀ l, u = Takes l → owner l s = None) ∧ ∀ l, owner l s' = owner_after me u l (owner l s)).

(** From the locks [held], innermost first, to those of the result. *)
Fixpoint orderly {A} (me : nat) (held : list L) (p : prog S Ev A) (Q : A → list L) : Prop :=
  match p with
  | Ret a => held = Q a
  | @Internal _ _ _ X f k => ∃ u held',
      obeys me u f ∧
      (∀ l, wanted u = Some l → Forall (λ l', (level l' < level l)%nat) held) ∧
      match u with
      | Takes l => held' = l :: held
      | Gives l => held = l :: held'
      | Plain | Awaits _ => held' = held
      end ∧
      ∀ x, orderly me held' (k x) Q
  | @External _ _ _ X e k => ∀ x, orderly me held (k x) Q
  end.

Lemma orderly_weaken {A} me held (p : prog S Ev A) Q Q' :
  orderly me held p Q → (∀ a, Q a = Q' a) → orderly me held p Q'.
Proof.
  revert held. induction p as [a|X f k IH|X e k IH]; intros held Hp HQ; simpl in *.
  - by rewrite <- HQ.
  - destruct Hp as (u & held' & ? & ? & ? & Hk). exists u, held'. split_and!; auto.
  - auto.
Qed.

Lemma orderly_bind {A B} me held (p : prog S Ev A) (k : A → prog S Ev B) R Q :
  orderly me held p R → (∀ a, orderly me (R a) (k a) Q) → orderly me held (prog_bind p k) Q.
Proof.
  revert held. induction p as [a|X f j IH|X e j IH]; intros held Hp Hk; simpl in *.
  - by subst.
  - destruct Hp as (u & held' & ? & ? & ? & Hj). exists u, held'. split_and!; auto.
  - auto.
Qed.

(** What the task owns. *)
Definition owns (me : nat) (held : list L) (s : S) : Prop :=
  NoDup held ∧ ∀ l, owner l s = Some me ↔ l ∈ held.

Lemma owns_step {X} me u held held' (f : nat → S → option (X * S)) s x s' :
  obeys me u f → owns me held s →
  match u with
  | Takes l => held' = l :: held
  | Gives l => held = l :: held'
  | Plain | Awaits _ => held' = held
  end → f me s = Some (x, s') → owns me held' s'.
Proof.
  intros [_ Hu] [Hnd Ho] Hheld Hf. destruct (Hu s x s' Hf) as [Hfree Hafter].
  destruct u as [|l|l|l]; simpl in *; subst; (split; [|intros l']).
  - done.
  - by rewrite Hafter.
  - done.
  - by rewrite Hafter.
  - constructor; [|done]. intros Hl. apply Ho in Hl. by rewrite (Hfree l eq_refl) in Hl.
  - rewrite Hafter, elem_of_cons. destruct (decide (l' = l)); naive_solver.
  - by apply NoDup_cons in Hnd as [_ ?].
  - apply NoDup_cons in Hnd as [Hn _]. rewrite Hafter. pose proof (Ho l') as Hl. rewrite elem_of_cons in Hl.
    destruct (decide (l' = l)) as [->|]; naive_solver.
Qed.

(** ** Alone *)

(** A task alone never blocks, and ends with the locks it should have. *)
Lemma run_orderly {A} me held (p : prog S Ev A) Q s :
  orderly me held p Q → owns me held s → (∀ l i, owner l s = Some i → i = me) →
  ∃ a s', run answer me p s = Some (a, s') ∧ owns me (Q a) s' ∧ ∀ l i, owner l s' = Some i → i = me.
Proof.
  revert held s. induction p as [a|X f k IH|X e k IH]; intros held s Hp Ho Hme; simpl in *.
  - exists a, s. by subst.
  - destruct Hp as (u & held' & Hu & Hw & Hheld & Hk).
    destruct (proj1 Hu s) as [[x s1] Hf].
    { intros l Hl. destruct (owner l s) as [i|] eqn:Ei; [|done]. pose proof (Hme l i Ei) as ->.
      apply Ho in Ei. specialize (Hw l Hl). rewrite Forall_forall in Hw. specialize (Hw l Ei). lia. }
    rewrite Hf. apply (IH x held'); [done|by eapply owns_step|]. intros l i.
    destruct (proj2 Hu s x s1 Hf) as [_ ->]. destruct u; simpl; try apply Hme; destruct (decide _); naive_solver.
  - pose proof (answer_owner X e s) as Hs. destruct (answer X e s) as [x s1]. simpl in *.
    apply (IH x held); [done| |].
    + split; [apply Ho|]. intros l. rewrite Hs. apply Ho.
    + intros l i. rewrite Hs. apply Hme.
Qed.

(** ** Together *)

Abbreviation step := (pool_step answer).

Definition disciplined {A} (c : S * list (prog S Ev A)) : Prop :=
  (∀ i p, c.2 !! i = Some p → ∃ held, orderly i held p (λ _, []) ∧ owns i held c.1) ∧
  ∀ l i, owner l c.1 = Some i → is_Some (c.2 !! i).

Lemma disciplined_step {A} (c c' : S * list (prog S Ev A)) : disciplined c → step c c' → disciplined c'.
Proof.
  intros [Hps Hin] Hstep. destruct Hstep as [me p p' s s' ps Hp Hstep]. simpl in *.
  destruct (Hps me p Hp) as (held & Hord & Ho).
  assert (∃ held', orderly me held' p' (λ _, []) ∧ owns me held' s' ∧
    (∀ l i, i ≠ me → owner l s' = Some i ↔ owner l s = Some i)) as (held' & Hord' & Ho' & Hother).
  { destruct Hstep as [X f k s x s' Hf|X e k s]; simpl in Hord.
    - destruct Hord as (u & held' & Hu & Hw & Hheld & Hk). exists held'. split_and!; [done|by eapply owns_step|].
      intros l i Hne. destruct (proj2 Hu s x s' Hf) as [Hfree ->]. destruct u as [|l'|l'|l']; simpl; try done;
        (destruct (decide (l = l')) as [->|]; [|done]).
      + rewrite (Hfree l' eq_refl). naive_solver.
      + assert (owner l' s = Some me) as -> by (apply Ho; subst; apply elem_of_cons; by left). naive_solver.
    - exists held. pose proof (answer_owner X e s) as Hs. split_and!; [done| |by intros l i _; rewrite Hs].
      split; [apply Ho|]. intros l. rewrite Hs. apply Ho. }
  split; simpl.
  - intros i q [(<- & <- & _)|[Hne Hl]]%list_lookup_insert_Some; [by exists held'|].
    destruct (Hps i q Hl) as (hq & Hq & Hnd & Hoq). exists hq. split; [done|]. split; [done|]. intros l.
    rewrite Hother by done. apply Hoq.
  - intros l i Hi. destruct (decide (i = me)) as [->|Hne].
    + rewrite list_lookup_insert_eq; [by eexists|]. by eapply lookup_lt_Some.
    + rewrite list_lookup_insert_ne by done. apply (Hin l). by apply Hother.
Qed.

Lemma disciplined_steps {A} (c c' : S * list (prog S Ev A)) : disciplined c → rtc step c c' → disciplined c'.
Proof. intros Hc Hsteps. induction Hsteps as [|c c1 c2 Hs _ IH]; [done|]. eauto using disciplined_step. Qed.

Definition finished {A} (p : prog S Ev A) : Prop := ∃ a, p = Ret a.

#[global] Instance finished_dec {A} (p : prog S Ev A) : Decision (finished p).
Proof. destruct p as [a|X f k|X e k]; [left; by exists a|right|right]; by intros [a ?]. Defined.

(** An unfinished task steps, or waits for a lock above all it holds. *)
Lemma step_or_wait {A} (c : S * list (prog S Ev A)) i p held :
  c.2 !! i = Some p → orderly i held p (λ _, []) →
  finished p ∧ held = [] ∨ (∃ c', step c c') ∨
  ∃ l j, owner l c.1 = Some j ∧ Forall (λ l', (level l' < level l)%nat) held.
Proof.
  destruct c as [s ps]. simpl. intros Hp Hord. destruct p as [a|X f k|X e k]; simpl in Hord.
  - left. split; [by exists a|done].
  - destruct Hord as (u & held' & [Hu _] & Hw & _ & _). right.
    assert (is_Some (f i s) → ∃ c', step (s, ps) c') as Hgo.
    { intros [[x s'] Hf]. eexists. by eapply step_pool, step_internal. }
    destruct (wanted u) as [l|] eqn:Ew; [|left; by apply Hgo, Hu].
    destruct (owner l s) as [j|] eqn:Ej; [right; by eauto|].
    left. apply Hgo, Hu. by intros l' [= <-].
  - right. left. eexists. by eapply step_pool, step_external.
Qed.

Lemma holder_steps {A} (c : S * list (prog S Ev A)) n l i :
  disciplined c → owner l c.1 = Some i → (top - level l ≤ n)%nat → ∃ c', step c c'.
Proof.
  intros Hc. revert l i. induction n as [|n IH]; intros l i Hi Hn.
  all: destruct (proj2 Hc l i Hi) as [p Hp]; destruct (proj1 Hc i p Hp) as (held & Hord & _ & Ho);
    apply Ho in Hi; destruct (step_or_wait c i p held Hp Hord) as [[_ ->]|[?|(l' & j & Hj & Hall)]];
    [by apply elem_of_nil in Hi|done|].
  all: rewrite Forall_forall in Hall; specialize (Hall l Hi); pose proof (level_top l').
  - lia.
  - apply (IH l' j); [done|lia].
Qed.

(** Nothing deadlocks: some task can go on until all are finished. *)
Lemma disciplined_progress {A} (c : S * list (prog S Ev A)) i p :
  disciplined c → c.2 !! i = Some p → finished p ∨ ∃ c', step c c'.
Proof.
  intros Hc Hp. destruct (proj1 Hc i p Hp) as (held & Hord & _).
  destruct (step_or_wait c i p held Hp Hord) as [[? _]|[?|(l & j & Hj & _)]]; [by left|by right|right].
  by eapply holder_steps.
Qed.

(** ** Ends *)

(** A task after one of its steps. *)
Definition continues {A} (p q : prog S Ev A) : Prop :=
  match p with
  | Ret _ => False
  | Internal _ k => ∃ x, q = k x
  | External _ k => ∃ x, q = k x
  end.

Lemma continues_sn {A} (p : prog S Ev A) : sn continues p.
Proof. induction p as [a|X f k IH|X e k IH]; constructor; intros q Hq; destruct Hq as [x ->] || done; apply IH. Qed.

Definition one_continues {A} (ps qs : list (prog S Ev A)) : Prop :=
  ∃ i p q, ps !! i = Some p ∧ continues p q ∧ qs = <[i := q]> ps.

Lemma one_continues_sn {A} (ps : list (prog S Ev A)) : sn one_continues ps.
Proof.
  induction ps as [|p ps IH].
  { constructor. intros qs (i & p & q & Hp & _). by rewrite lookup_nil in Hp. }
  revert ps IH. induction (continues_sn p) as [p _ IHp]. intros ps IH.
  induction IH as [ps Hps IHps]. constructor. intros qs ([|i] & r & q & Hr & Hq & ->); simpl in *.
  - simplify_eq. apply IHp; [done|]. by constructor.
  - apply IHps. by exists i, r, q.
Qed.

(** Every execution ends, whatever the order of the steps. *)
Lemma pool_sn {A} (c : S * list (prog S Ev A)) : sn step c.
Proof.
  destruct c as [s ps]. revert s. induction (one_continues_sn ps) as [ps _ IH]. intros s. constructor.
  intros [s' ps'] Hstep. unfold flip in *. inversion Hstep as [me p p' s0 s1 ps0 Hp Hts]; subst. apply IH.
  exists me, p, p'. split_and!; [done| |done]. destruct Hts; by eexists.
Qed.

(** Tasks that start without locks all finish. *)
Lemma all_finish {A} (c c' : S * list (prog S Ev A)) :
  disciplined c → rtc step c c' → nf step c' → Forall finished c'.2.
Proof.
  intros Hc Hsteps Hnf. apply Forall_lookup. intros i p Hp.
  destruct (disciplined_progress c' i p) as [?|[c2 Hstep]]; [by eapply disciplined_steps|done|done|].
  destruct Hnf. by exists c2.
Qed.
End locks.

Arguments use : clear implicits.
