(* ===== verification/Resilient.v ===== *)
(** The resilient client ([crates/client-core/src/resilient.rs]): one
    authenticated connection that is replaced when it fails, logical handles that
    are reopened on the new connection, and mutations that are sent once.

    An operation is a task ([Tasks.prog]): its steps between two [.await] points
    are atomic, the locks are owned by tasks, and the requests go to a
    connection of the network.  Dropping a task in the middle is not modelled. *)

From S2P Require Import Prelude Protocol Common ViewStream Remote Tasks.

(** * Policy and state *)

(** Durations are in nanoseconds. *)
Module ReconnectPolicy.
Record ReconnectPolicy := Mk { attempts : nat; initial_backoff : Z; maximum_backoff : Z }.
Definition default : ReconnectPolicy := Mk 3 (100 * 1000000) (2 * 1000000000).
End ReconnectPolicy.
Abbreviation ReconnectPolicy := ReconnectPolicy.ReconnectPolicy.

(** [Duration::MAX]. *)
Definition duration_max : Z := u64_max * 1000000000 + 999999999.
Definition duration_checked_mul (d n : Z) : option Z := if d * n <=? duration_max then Some (d * n) else None.

(** A connection of the network. *)
Definition Conn : Type := Z.

Module ConnectionSlot.
Record ConnectionSlot := Mk { generation : Z; filesystem : Conn }.
End ConnectionSlot.
Abbreviation ConnectionSlot := ConnectionSlot.ConnectionSlot.

Module HandleState.
Record HandleState := Mk {
  node : NodeId;
  options : FileOpenOptions;
  remote : FileHandle;
  revision : Z;
  size : Z;
  generation : Z;
  lock_history : list FileLock
}.
End HandleState.
Abbreviation HandleState := HandleState.HandleState.

(** What a task asks of the outside; [Sleep] is [tokio::time::sleep]. *)
Inductive network : Type → Type :=
  | Connect : network (result ClientError Conn)
  | Request (conn : Conn) {A : Type} (c : remote_call A) : network (result ClientError A)
  | Sleep (duration : Z) : network unit.

(** The network: a connector, and the server behind each connection. *)
Class Network (W : Type) := {
  connect : W → result ClientError Conn * W;
  request {A} : Conn → remote_call A → W → result ClientError A * W;
  pass_time : Z → W → W
}.

(** [reconnect_owner], [handles_owner] and [mutation_owners] are the holders of
    the mutexes and of the write lock of the handles; [uuids] and [ticks] count
    what was drawn from the random number generator and the clock.  [history] is
    auxiliary: the connections so far, of which the code keeps the last. *)
Record Resilient (W : Type) := MkResilient {
  world : W;
  connection : ConnectionSlot;
  reconnect_owner : option nat;
  last_failure : option (Z * Z);
  failed_generation : Z;
  server_epoch : option Z;
  handles : gmap FileHandle HandleState;
  handles_owner : option nat;
  mutation_owners : gmap FileHandle nat;
  uuids : Z;
  ticks : Z;
  history : list Conn
}.
Arguments MkResilient {W} _ _ _ _ _ _ _ _ _ _ _ _.
Arguments world {W} _.
Arguments connection {W} _.
Arguments reconnect_owner {W} _.
Arguments last_failure {W} _.
Arguments failed_generation {W} _.
Arguments server_epoch {W} _.
Arguments handles {W} _.
Arguments handles_owner {W} _.
Arguments mutation_owners {W} _.
Arguments uuids {W} _.
Arguments ticks {W} _.
Arguments history {W} _.

Section resilient.
Context {W : Type} `{NW : Network W}.
(** [Uuid::new_v4] and [Instant::now]. *)
Context (new_v4 : Z → FileHandle) (clock : Z → Z).
Context (policy : ReconnectPolicy).

Abbreviation RS := (Resilient W).
Definition RM : Type → Type := PM RS network ClientError.

Definition with_world (x : W) (s : RS) : RS :=
  MkResilient x (connection s) (reconnect_owner s) (last_failure s) (failed_generation s) (server_epoch s) (handles s)
    (handles_owner s) (mutation_owners s) (uuids s) (ticks s) (history s).
Definition with_connection (x : ConnectionSlot) (s : RS) : RS :=
  MkResilient (world s) x (reconnect_owner s) (last_failure s) (failed_generation s) (server_epoch s) (handles s)
    (handles_owner s) (mutation_owners s) (uuids s) (ticks s) (history s ++ [ConnectionSlot.filesystem x]).
Definition with_reconnect_owner (x : option nat) (s : RS) : RS :=
  MkResilient (world s) (connection s) x (last_failure s) (failed_generation s) (server_epoch s) (handles s)
    (handles_owner s) (mutation_owners s) (uuids s) (ticks s) (history s).
Definition with_last_failure (x : option (Z * Z)) (n : Z) (s : RS) : RS :=
  MkResilient (world s) (connection s) (reconnect_owner s) x (failed_generation s) (server_epoch s) (handles s)
    (handles_owner s) (mutation_owners s) (uuids s) n (history s).
Definition with_failed (x : Z) (s : RS) : RS :=
  MkResilient (world s) (connection s) (reconnect_owner s) (last_failure s) x (server_epoch s) (handles s)
    (handles_owner s) (mutation_owners s) (uuids s) (ticks s) (history s).
Definition with_handles (x : gmap FileHandle HandleState) (n : Z) (s : RS) : RS :=
  MkResilient (world s) (connection s) (reconnect_owner s) (last_failure s) (failed_generation s) (server_epoch s) x
    (handles_owner s) (mutation_owners s) n (ticks s) (history s).
Definition with_handles_owner (x : option nat) (s : RS) : RS :=
  MkResilient (world s) (connection s) (reconnect_owner s) (last_failure s) (failed_generation s) (server_epoch s)
    (handles s) x (mutation_owners s) (uuids s) (ticks s) (history s).
Definition with_mutations (x : gmap FileHandle nat) (s : RS) : RS :=
  MkResilient (world s) (connection s) (reconnect_owner s) (last_failure s) (failed_generation s) (server_epoch s)
    (handles s) (handles_owner s) x (uuids s) (ticks s) (history s).

(** How the outside answers. *)
Definition outside (X : Type) (e : network X) : RS → X * RS :=
  match e in network X return RS → X * RS with
  | Connect => λ s, let '(r, w) := connect (world s) in (r, with_world w s)
  | Request conn c => λ s, let '(r, w) := request conn c (world s) in (r, with_world w s)
  | Sleep d => λ s, (tt, with_world (pass_time d (world s)) s)
  end.

(** * Locks *)

Definition lock_reconnect : RM unit := pm_step (λ me s,
  match reconnect_owner s with None => Some (tt, with_reconnect_owner (Some me) s) | Some _ => None end).
Definition unlock_reconnect : RM unit := pm_update (λ s, (tt, with_reconnect_owner None s)).

Definition lock_handles : RM unit := pm_step (λ me s,
  match handles_owner s with None => Some (tt, with_handles_owner (Some me) s) | Some _ => None end).
Definition unlock_handles : RM unit := pm_update (λ s, (tt, with_handles_owner None s)).

Definition lock_mutation (logical : FileHandle) : RM unit := pm_step (λ me s,
  match mutation_owners s !! logical with
  | None => Some (tt, with_mutations (<[logical := me]> (mutation_owners s)) s)
  | Some _ => None
  end).
Definition unlock_mutation (logical : FileHandle) : RM unit :=
  pm_update (λ s, (tt, with_mutations (delete logical (mutation_owners s)) s)).

(** A short section under the lock of the handles. *)
Definition on_handles {X} (f : RS → X * RS) : RM X := pm_step (λ _ s,
  match handles_owner s with None => Some (f s) | Some _ => None end).

Definition alter_handle (logical : FileHandle) (f : HandleState → HandleState) (s : RS) : unit * RS :=
  (tt, with_handles (alter f logical (handles s)) (uuids s) s).

(** * Connections *)

Definition capability_epoch (filesystem : Conn) : RM (option Z) :=
  r ← pm_ask (Request filesystem Capabilities);
  match r with
  | Ok c => mret (Some (FilesystemCapabilities.server_epoch c))
  | Err (ClientError.Server ErrorCode.NotSupported _) => mret None
  | Err e => pm_err e
  end.

Definition mark_failed (generation : Z) : RM unit := pm_update (λ s, (tt, with_failed generation s)).

Definition epoch_error : ClientError :=
  ClientError.Server ErrorCode.Conflict (lit "server epoch changed; existing inode and cache state is stale").

(** A new connection takes its place. *)
Definition install (failed : Z) (filesystem : Conn) : RM ConnectionSlot :=
  let slot := ConnectionSlot.Mk (u64_saturating_add failed 1) filesystem in
  _ ← pm_update (λ s, (tt, with_connection slot s));
  _ ← pm_update (λ s, (tt, with_failed 0 s));
  _ ← pm_update (λ s, (tt, with_last_failure None (ticks s) s));
  mret slot.

(** The loop over the attempts. *)
Fixpoint connect_attempts (left : nat) (failed backoff : Z) : RM ConnectionSlot :=
  match left with
  | O => pm_err ClientError.Offline
  | S left' =>
      r ← pm_ask Connect;
      match r with
      | Ok filesystem =>
          epoch ← capability_epoch filesystem;
          known ← pm_gets server_epoch;
          if bool_decide (is_Some known) && negb (bool_decide (epoch = known)) then pm_err epoch_error
          else install failed filesystem
      | Err _ =>
          match left' with
          | O =>
              _ ← pm_update (λ s, (tt, with_last_failure (Some (failed, clock (ticks s))) (ticks s + 1) s));
              pm_err ClientError.Offline
          | _ =>
              _ ← pm_ask (Sleep backoff);
              connect_attempts left' failed
                (Z.min (default (ReconnectPolicy.maximum_backoff policy) (duration_checked_mul backoff 2))
                   (ReconnectPolicy.maximum_backoff policy))
          end
      end
  end.

(** Whether a batch for this generation failed a short time ago. *)
Definition cooling (failed : Z) : RM bool := pm_update (λ s,
  match last_failure s with
  | Some (generation, failed_at) =>
      if generation =? failed
      then (Z.max (clock (ticks s) - failed_at) 0 <? ReconnectPolicy.maximum_backoff policy,
            with_last_failure (last_failure s) (ticks s + 1) s)
      else (false, s)
  | None => (false, s)
  end).

(** The part of [reconnect_after] under the mutex. *)
Definition reconnect_locked (failed : Z) : RM ConnectionSlot :=
  current ← pm_gets connection;
  flag ← pm_gets failed_generation;
  if negb (ConnectionSlot.generation current =? failed) || negb (flag =? failed) then mret current
  else
    cool ← cooling failed;
    if (cool : bool) then pm_err ClientError.Offline
    else connect_attempts (ReconnectPolicy.attempts policy) failed (ReconnectPolicy.initial_backoff policy).

Definition reconnect_after (failed : Z) : RM ConnectionSlot :=
  _ ← lock_reconnect;
  r ← pm_try (reconnect_locked failed);
  _ ← unlock_reconnect;
  pm_lift r.

Definition healthy_connection : RM ConnectionSlot :=
  current ← pm_gets connection;
  flag ← pm_gets failed_generation;
  if flag =? ConnectionSlot.generation current then reconnect_after (ConnectionSlot.generation current)
  else mret current.

(** [ResilientFilesystem::new]. *)
Definition new (w : W) (initial : Conn) : result ClientError RS * W :=
  if (ReconnectPolicy.attempts policy =? 0)%nat
  then (Err (ClientError.Server ErrorCode.InvalidRequest (lit "reconnect attempts must be greater than zero")), w)
  else
    let '(r, w) := request initial Capabilities w in
    let built epoch := Ok (MkResilient w (ConnectionSlot.Mk 1 initial) None None 0 epoch ∅ None ∅ 0 0 [initial]) in
    (match r with
     | Ok c => built (Some (FilesystemCapabilities.server_epoch c))
     | Err (ClientError.Server ErrorCode.NotSupported _) => built None
     | Err e => Err e
     end, w).

(** * Calls *)

Definition is_transport (e : ClientError) : bool :=
  match e with ClientError.Transport _ => true | _ => false end.

(** Every operation of the layer is one request. *)
Definition safe_call {A} (operation : remote_call A) : RM A :=
  first ← healthy_connection;
  r ← pm_ask (Request (ConnectionSlot.filesystem first) operation);
  match r with
  | Err (ClientError.Transport _) =>
      _ ← mark_failed (ConnectionSlot.generation first);
      replacement ← reconnect_after (ConnectionSlot.generation first);
      result ← pm_ask (Request (ConnectionSlot.filesystem replacement) operation);
      _ ← match result with
          | Err (ClientError.Transport _) => mark_failed (ConnectionSlot.generation replacement)
          | _ => mret tt
          end;
      pm_lift result
  | result => pm_lift result
  end.

Definition mutation_call {A} (operation : remote_call A) : RM A :=
  slot ← healthy_connection;
  r ← pm_ask (Request (ConnectionSlot.filesystem slot) operation);
  match r with
  | Err (ClientError.Transport _) =>
      _ ← mark_failed (ConnectionSlot.generation slot);
      pm_err ClientError.AmbiguousMutation
  | result => pm_lift result
  end.

Definition open_remote (node : NodeId) (options : FileOpenOptions) : RM (ConnectionSlot * OpenedFile) :=
  slot ← healthy_connection;
  r ← pm_ask (Request (ConnectionSlot.filesystem slot) (OpenFileWithOptions node options));
  match r with
  | Ok opened => mret (slot, opened)
  | Err (ClientError.Transport _) =>
      if negb (FileOpenOptions.truncate options) then
        _ ← mark_failed (ConnectionSlot.generation slot);
        replacement ← reconnect_after (ConnectionSlot.generation slot);
        r ← pm_ask (Request (ConnectionSlot.filesystem replacement) (OpenFileWithOptions node options));
        opened ← pm_lift r;
        mret (replacement, opened)
      else
        _ ← mark_failed (ConnectionSlot.generation slot);
        pm_err ClientError.AmbiguousMutation
  | Err e => pm_err e
  end.

(** * Handles *)

Definition invalid_handle : ClientError :=
  ClientError.Server ErrorCode.InvalidHandle (lit "unknown logical file handle").

Definition remember_open (node : NodeId) (options : FileOpenOptions) (slot : ConnectionSlot) (opened : OpenedFile)
    : RM OpenedFile :=
  logical ← on_handles (λ s,
    let logical := new_v4 (uuids s) in
    (logical, with_handles (<[logical := HandleState.Mk node options (OpenedFile.handle opened)
                                (OpenedFile.revision opened) (OpenedFile.size opened)
                                (ConnectionSlot.generation slot) []]> (handles s)) (uuids s + 1) s));
  mret (OpenedFile.Mk logical (OpenedFile.revision opened) (OpenedFile.size opened)).

Definition set_revision (revision : Z) (h : HandleState) : HandleState :=
  HandleState.Mk (HandleState.node h) (HandleState.options h) (HandleState.remote h) revision (HandleState.size h)
    (HandleState.generation h) (HandleState.lock_history h).
Definition set_version (revision size : Z) (h : HandleState) : HandleState :=
  HandleState.Mk (HandleState.node h) (HandleState.options h) (HandleState.remote h) revision size
    (HandleState.generation h) (HandleState.lock_history h).
Definition set_remote (remote : FileHandle) (size generation : Z) (h : HandleState) : HandleState :=
  HandleState.Mk (HandleState.node h) (HandleState.options h) remote (HandleState.revision h) size generation
    (HandleState.lock_history h).
Definition set_history (l : list FileLock) (h : HandleState) : HandleState :=
  HandleState.Mk (HandleState.node h) (HandleState.options h) (HandleState.remote h) (HandleState.revision h)
    (HandleState.size h) (HandleState.generation h) l.

(** The locks of the handle are set again, in order. *)
Fixpoint replay_locks (filesystem : Conn) (remote : FileHandle) (locks : list FileLock) : RM unit :=
  match locks with
  | [] => mret tt
  | lock :: locks' =>
      r ← pm_ask (Request filesystem (SetLock remote lock false));
      _ ← pm_lift r;
      replay_locks filesystem remote locks'
  end.

(** The same file after a reconnection, as far as the handle may see it. *)
Definition accept_revision (logical : FileHandle) (filesystem : Conn) (reopened : OpenedFile) (state : HandleState)
    : RM HandleState :=
  if OpenedFile.revision reopened =? HandleState.revision state then mret state
  else if bool_decide (FileOpenOptions.access (HandleState.options state) = FileAccess.ReadOnly) &&
          bool_decide (HandleState.lock_history state = []) then
    _ ← pm_update (alter_handle logical (set_revision (OpenedFile.revision reopened)));
    mret (set_revision (OpenedFile.revision reopened) state)
  else
    _ ← pm_ask (Request filesystem (CloseFile (OpenedFile.handle reopened)));
    pm_err ClientError.StaleRevision.

(** The part of [remote_handle] under the write lock. *)
Definition reopen_locked (logical : FileHandle) : RM (ConnectionSlot * HandleState) :=
  found ← pm_gets (λ s, handles s !! logical);
  state ← pm_lift (ok_or found invalid_handle);
  current ← healthy_connection;
  if HandleState.generation state =? ConnectionSlot.generation current then mret (current, state)
  else
    let options := HandleState.options state in
    r ← pm_ask (Request (ConnectionSlot.filesystem current)
                  (OpenFileWithOptions (HandleState.node state)
                     (FileOpenOptions.Mk (FileOpenOptions.access options) false (FileOpenOptions.append options))));
    reopened ← pm_lift r;
    state ← accept_revision logical (ConnectionSlot.filesystem current) reopened state;
    _ ← replay_locks (ConnectionSlot.filesystem current) (OpenedFile.handle reopened) (HandleState.lock_history state);
    let update := set_remote (OpenedFile.handle reopened) (OpenedFile.size reopened) (ConnectionSlot.generation current) in
    _ ← pm_update (alter_handle logical update);
    mret (current, update state).

Definition remote_handle (logical : FileHandle) : RM (ConnectionSlot * HandleState) :=
  slot ← healthy_connection;
  found ← on_handles (λ s, (handles s !! logical, s));
  existing ← pm_lift (ok_or found invalid_handle);
  if HandleState.generation existing =? ConnectionSlot.generation slot then mret (slot, existing)
  else
    _ ← lock_handles;
    r ← pm_try (reopen_locked logical);
    _ ← unlock_handles;
    pm_lift r.

Definition adopt_revision (logical : FileHandle) (revision : Z) : RM unit :=
  on_handles (alter_handle logical (λ h, if revision >? HandleState.revision h then set_revision revision h else h)).

Definition update_written_handle (logical remote : FileHandle) (generation : Z) (result : WriteResult) : RM unit :=
  on_handles (alter_handle logical (λ h,
    if bool_decide (HandleState.remote h = remote) && (HandleState.generation h =? generation)
    then set_version (WriteResult.revision result) (WriteResult.size result) h else h)).

(** * Operations on handles *)

Definition open_file_with_options (node : NodeId) (options : FileOpenOptions) : RM OpenedFile :=
  opened ← open_remote node options;
  let '(slot, opened) := opened : ConnectionSlot * OpenedFile in
  remember_open node options slot opened.

Definition create_file (parent : NodeId) (name : Name) (mode : Z) (options : FileOpenOptions) : RM CreatedFile :=
  slot ← healthy_connection;
  r ← pm_ask (Request (ConnectionSlot.filesystem slot) (CreateFile parent name mode options));
  match r with
  | Ok created =>
      opened ← remember_open (Metadata.node (CreatedFile.metadata created)) options slot (CreatedFile.opened created);
      mret (CreatedFile.Mk (CreatedFile.metadata created) opened)
  | Err (ClientError.Transport _) =>
      _ ← mark_failed (ConnectionSlot.generation slot);
      pm_err ClientError.AmbiguousMutation
  | Err e => pm_err e
  end.

(** A request whose outcome is unknown when the transport fails. *)
Definition once {A} (slot : ConnectionSlot) (operation : remote_call A) : RM (result ClientError A) :=
  r ← pm_ask (Request (ConnectionSlot.filesystem slot) operation);
  match r with
  | Err (ClientError.Transport _) =>
      _ ← mark_failed (ConnectionSlot.generation slot);
      mret (Err ClientError.AmbiguousMutation)
  | r => mret r
  end.

Definition set_attributes (node : NodeId) (logical : option FileHandle) (changes : AttributeChanges) : RM Metadata :=
  mapped ← match logical with
           | Some l =>
               found ← remote_handle l;
               let '(_, state) := found : ConnectionSlot * HandleState in
               mret (Some (HandleState.remote state))
           | None => mret None
           end;
  _ ← match logical with Some l => lock_mutation l | None => mret tt end;
  r ← pm_try (mutation_call (SetAttributes node mapped changes));
  _ ← match r, logical with
      | Ok m, Some l => on_handles (alter_handle l (set_version (Metadata.revision m) (Metadata.size m)))
      | _, _ => mret tt
      end;
  _ ← match logical with Some l => unlock_mutation l | None => mret tt end;
  pm_lift r.

Definition read_range_versioned (logical : FileHandle) (offset length : Z) : RM RangeRead :=
  found ← remote_handle logical;
  let '(slot, state) := found : ConnectionSlot * HandleState in
  r ← pm_ask (Request (ConnectionSlot.filesystem slot) (ReadRangeVersioned (HandleState.remote state) offset length));
  match r with
  | Ok read =>
      _ ← (if RangeRead.revision read =? HandleState.revision state then mret tt
           else adopt_revision logical (RangeRead.revision read));
      mret read
  | Err (ClientError.Transport _) =>
      _ ← mark_failed (ConnectionSlot.generation slot);
      again ← remote_handle logical;
      let '(_, reopened) := again : ConnectionSlot * HandleState in
      replacement ← healthy_connection;
      r ← pm_ask (Request (ConnectionSlot.filesystem replacement)
                    (ReadRangeVersioned (HandleState.remote reopened) offset length));
      read ← pm_lift r;
      _ ← (if RangeRead.revision read =? HandleState.revision reopened then mret tt
           else adopt_revision logical (RangeRead.revision read));
      mret read
  | Err e => pm_err e
  end.

(** [write_range] and [allocate_file]. *)
Definition write_call (logical : FileHandle) (operation : FileHandle → remote_call WriteResult) : RM WriteResult :=
  found ← remote_handle logical;
  let '(slot, state) := found : ConnectionSlot * HandleState in
  _ ← lock_mutation logical;
  r ← once slot (operation (HandleState.remote state));
  _ ← match r with
      | Ok result => update_written_handle logical (HandleState.remote state) (ConnectionSlot.generation slot) result
      | Err _ => mret tt
      end;
  _ ← unlock_mutation logical;
  pm_lift r.

(** [flush_file] and [sync_file]. *)
Definition sync_call (logical : FileHandle) (operation : FileHandle → remote_call unit) : RM unit :=
  found ← remote_handle logical;
  let '(slot, state) := found : ConnectionSlot * HandleState in
  _ ← lock_mutation logical;
  r ← once slot (operation (HandleState.remote state));
  _ ← unlock_mutation logical;
  pm_lift r.

Definition copy_file_range (input : FileHandle) (input_offset : Z) (output : FileHandle) (output_offset length : Z)
    : RM WriteResult :=
  from ← remote_handle input;
  let '(input_slot, input_state) := from : ConnectionSlot * HandleState in
  to ← remote_handle output;
  let '(output_slot, output_state) := to : ConnectionSlot * HandleState in
  if negb (ConnectionSlot.generation input_slot =? ConnectionSlot.generation output_slot)
  then pm_err ClientError.StaleRevision
  else
    _ ← lock_mutation output;
    r ← pm_ask (Request (ConnectionSlot.filesystem input_slot)
                  (CopyFileRange (HandleState.remote input_state) input_offset (HandleState.remote output_state)
                     output_offset length));
    r ← match r with
        | Ok written =>
            _ ← update_written_handle output (HandleState.remote output_state)
                  (ConnectionSlot.generation output_slot) written;
            mret (Ok written : result ClientError WriteResult)
        | Err (ClientError.Transport _) =>
            _ ← mark_failed (ConnectionSlot.generation output_slot);
            mret (Err ClientError.AmbiguousMutation)
        | Err e => mret (Err e)
        end;
    _ ← unlock_mutation output;
    pm_lift r.

(** [seek_file], [safe_ioctl] and [get_lock]. *)
Definition retry_call {A} (logical : FileHandle) (operation : FileHandle → remote_call A) : RM A :=
  found ← remote_handle logical;
  let '(slot, state) := found : ConnectionSlot * HandleState in
  r ← pm_ask (Request (ConnectionSlot.filesystem slot) (operation (HandleState.remote state)));
  match r with
  | Err (ClientError.Transport _) =>
      _ ← mark_failed (ConnectionSlot.generation slot);
      again ← remote_handle logical;
      let '(_, reopened) := again : ConnectionSlot * HandleState in
      replacement ← healthy_connection;
      r ← pm_ask (Request (ConnectionSlot.filesystem replacement) (operation (HandleState.remote reopened)));
      pm_lift r
  | r => pm_lift r
  end.

Definition LOCK_HISTORY_LIMIT : Z := 4096.

(** The history of a handle after a lock was set. *)
Definition record_lock (lock : FileLock) (h : HandleState) : HandleState :=
  let l := HandleState.lock_history h ++ [lock] in
  if bool_decide (FileLock.kind lock = LockKind.Unlock) && (zlen l >? LOCK_HISTORY_LIMIT)
  then set_history [] h else set_history l h.

Definition set_lock (logical : FileHandle) (lock : FileLock) (wait : bool) : RM unit :=
  found ← remote_handle logical;
  let '(slot, state) := found : ConnectionSlot * HandleState in
  r ← once slot (SetLock (HandleState.remote state) lock wait);
  _ ← match r with
      | Ok _ => on_handles (alter_handle logical (record_lock lock))
      | Err _ => mret tt
      end;
  pm_lift r.

Definition close_file (logical : FileHandle) : RM unit :=
  found ← on_handles (λ s, (handles s !! logical, s));
  _ ← pm_lift (ok_or found invalid_handle);
  _ ← lock_mutation logical;
  found ← on_handles (λ s, (handles s !! logical, with_handles (delete logical (handles s)) (uuids s) s));
  r ← match found with
      | None => mret (Err invalid_handle)
      | Some state =>
          slot ← pm_gets connection;
          if negb (HandleState.generation state =? ConnectionSlot.generation slot)
          then mret (Ok tt : result ClientError unit)
          else
            r ← pm_ask (Request (ConnectionSlot.filesystem slot) (CloseFile (HandleState.remote state)));
            match r with
            | Err (ClientError.Transport _) => _ ← mark_failed (ConnectionSlot.generation slot); mret (Ok tt)
            | r => mret r
            end
      end;
  _ ← unlock_mutation logical;
  pm_lift r.

(** * The layer *)

(** Names and nodes: [create_directory] to [read_link]. *)
Definition namespace_call {A} (c : remote_call A) : option (RM A) :=
  match c in remote_call A return option (RM A) with
  | CreateDirectory p n m => Some (mutation_call (CreateDirectory p n m))
  | CreateSymlink p n t => Some (mutation_call (CreateSymlink p n t))
  | CreateHardLink n p m => Some (mutation_call (CreateHardLink n p m))
  | CreateSpecialNode p n k m a b => Some (mutation_call (CreateSpecialNode p n k m a b))
  | RemoveNode p n d => Some (mutation_call (RemoveNode p n d))
  | RenameNode p n q m k => Some (mutation_call (RenameNode p n q m k))
  | ReadLink n => Some (safe_call (ReadLink n))
  | _ => None
  end.

(** What is stored: [write_range] to [remove_xattr]. *)
Definition storage_call {A} (c : remote_call A) : option (RM A) :=
  match c in remote_call A return option (RM A) with
  | WriteRange h o d => Some (write_call h (λ i, WriteRange i o d))
  | FlushFile h owner => Some (sync_call h (λ i, FlushFile i owner))
  | SyncFile h d => Some (sync_call h (λ i, SyncFile i d))
  | SyncDirectory n => Some (mutation_call (SyncDirectory n))
  | AllocateFile h o l => Some (write_call h (λ i, AllocateFile i o l))
  | GetXattr n a o l => Some (safe_call (GetXattr n a o l))
  | SetXattr n a v m p => Some (mutation_call (SetXattr n a v m p))
  | ListXattrs n => Some (safe_call (ListXattrs n))
  | RemoveXattr n a => Some (mutation_call (RemoveXattr n a))
  | _ => None
  end.

(** [seek_file] to [get_lock]. *)
Definition special_call {A} (c : remote_call A) : option (RM A) :=
  match c in remote_call A return option (RM A) with
  | SeekFile h o w => Some (retry_call h (λ i, SeekFile i o w))
  | SafeIoctlCall h o => Some (retry_call h (λ i, SafeIoctlCall i o))
  | MapBlock n b i => Some (safe_call (MapBlock n b i))
  | ExchangeData p n q m o => Some (mutation_call (ExchangeData p n q m o))
  | SetVolumeName n => Some (mutation_call (SetVolumeName n))
  | ForgetNodes l => Some (safe_call (ForgetNodes l))
  | GetLock h l => Some (retry_call h (λ i, GetLock i l))
  | _ => None
  end.

(** The implementation of [RemoteFilesystem]: these, the calls with a definition
    of their own, and the queries from [ping] to [list_directory_view]. *)
Definition resilient_call {A} (c : remote_call A) : RM A :=
  match namespace_call c, storage_call c, special_call c with
  | Some p, _, _ | None, Some p, _ | None, None, Some p => p
  | None, None, None =>
      match c in remote_call A return RM A with
      | OpenFileWithOptions n o => open_file_with_options n o
      | CreateFile p n m o => create_file p n m o
      | SetAttributes n h x => set_attributes n h x
      | ReadRangeVersioned h o l => read_range_versioned h o l
      | CopyFileRange i io o oo l => copy_file_range i io o oo l
      | SetLock h l w => set_lock h l w
      | CloseFile h => close_file h
      | query => safe_call query
      end
  end.
End resilient.
