(* ===== verification/ResilientOnce.v ===== *)
(** Mutations are sent at most once: what an operation of the resilient client
    asks of the network, whatever the other tasks and the network do. *)

From S2P Require Import Prelude Protocol Common ViewStream Remote Tasks Resilient.

(** * Mutating requests *)

(** The requests that change files; opening changes one when it truncates. *)
Definition mutates {A} (c : remote_call A) : bool :=
  match c with
  | OpenFileWithOptions _ o => FileOpenOptions.truncate o
  | CreateFile _ _ _ _ | CreateDirectory _ _ _ | CreateSymlink _ _ _ | CreateHardLink _ _ _
  | CreateSpecialNode _ _ _ _ _ _ | RemoveNode _ _ _ | RenameNode _ _ _ _ _ | SetAttributes _ _ _
  | WriteRange _ _ _ | AllocateFile _ _ _ | SetXattr _ _ _ _ _ | RemoveXattr _ _ | CopyFileRange _ _ _ _ _
  | ExchangeData _ _ _ _ _ | SetVolumeName _ => true
  | _ => false
  end.

(** The error of an answer. *)
Definition failure {A} (r : result ClientError A) : option ClientError :=
  match r with Ok _ => None | Err e => Some e end.

Definition mutation_of {X} (e : network X) : X → option (option ClientError) :=
  match e in network X return X → option (option ClientError) with
  | Request _ c => λ r, if mutates c then Some (failure r) else None
  | _ => λ _, None
  end.

(** The outcomes of the mutating requests of an execution. *)
Definition mutations (t : list (sent network)) : list (option ClientError) :=
  omap (λ x, match x with Sent e x => mutation_of e x end) t.

(** What the caller is told. *)
Definition reported (o : option ClientError) : option ClientError :=
  match o with
  | Some (ClientError.Transport _) => Some ClientError.AmbiguousMutation
  | o => o
  end.

Lemma mutations_app t1 t2 : mutations (t1 ++ t2) = mutations t1 ++ mutations t2.
Proof. apply omap_app. Qed.

Section once.
Context {W : Type} `{NW : Network W}.
Context (new_v4 : Z → FileHandle) (clock : Z → Z) (policy : ReconnectPolicy).

Abbreviation M A := (PM (Resilient W) network ClientError A).

(** No mutating request. *)
Definition quiet {A} (p : prog (Resilient W) network A) : Prop := ∀ t a, path p t a → mutations t = [].
(** No mutating request, and this result. *)
Definition quietly {A} (p : prog (Resilient W) network A) (b : A) : Prop := ∀ t a, path p t a → mutations t = [] ∧ a = b.
(** One mutating request whose outcome is reported, or none and an error. *)
Definition single {A} (p : M A) : Prop := ∀ t r, path p t r →
  (∃ o, mutations t = [o] ∧ failure r = reported o) ∨ (mutations t = [] ∧ failure r ≠ None).

Lemma quiet_ret {A} (a : A) : quiet (Ret a).
Proof. by intros t b [-> _]. Qed.

Lemma quiet_step {X} (f : nat → Resilient W → option (X * Resilient W)) : quiet (pm_step f : M X).
Proof. by intros t a (me & s & x & s' & _ & -> & _). Qed.

Lemma quiet_request {A} conn (c : remote_call A) : mutates c = false → quiet (pm_ask (Request conn c) : M (result ClientError A)).
Proof. intros Hc t a (x & t' & -> & -> & _). unfold mutations. simpl. by rewrite Hc. Qed.

Lemma quiet_connect : quiet (pm_ask Connect : M (result ClientError Conn)).
Proof. by intros t a (x & t' & -> & -> & _). Qed.

Lemma quiet_sleep d : quiet (pm_ask (Sleep d) : M unit).
Proof. by intros t a (x & t' & -> & -> & _). Qed.

Lemma quiet_prog_bind {A B} (p : prog (Resilient W) network A) (k : A → prog (Resilient W) network B) :
  quiet p → (∀ a, quiet (k a)) → quiet (prog_bind p k).
Proof.
  intros Hp Hk t b (t1 & t2 & a & -> & H1 & H2)%path_bind. by rewrite mutations_app, (Hp t1 a H1), (Hk a t2 b H2).
Qed.

Lemma quiet_bind {A B} (p : M A) (k : A → M B) : quiet p → (∀ a, quiet (k a)) → quiet (mbind k p).
Proof. intros Hp Hk. apply quiet_prog_bind; [done|]. intros [a|e]; [apply Hk|apply quiet_ret]. Qed.

Lemma quiet_try {A} (p : M A) : quiet p → quiet (pm_try p).
Proof. intros Hp. apply quiet_prog_bind; [done|]. intros r. apply quiet_ret. Qed.

Lemma quiet_if {A} (b : bool) (p q : M A) : quiet p → quiet q → quiet (if b then p else q).
Proof. by destruct b. Qed.

(** Quiet programs are built of quiet parts. *)
Ltac quiet :=
  repeat match goal with
  | |- quiet (mbind _ _) => apply quiet_bind; [|intros ?]
  | |- quiet (pm_try _) => apply quiet_try
  | |- quiet (if _ then _ else _) => apply quiet_if
  | |- quiet (let '(_, _) := ?x in _) => destruct x
  | |- quiet (match ?x with _ => _ end) => destruct x
  | |- quiet (pm_ask (Request _ _)) => by apply quiet_request
  | |- quiet (pm_ask _) => first [apply quiet_connect|apply quiet_sleep]
  | |- quiet (pm_step _) => apply quiet_step
  | |- quiet (pm_update _) => apply quiet_step
  | |- quiet (pm_gets _) => apply quiet_step
  | |- quiet (pm_lift _) => apply quiet_ret
  | |- quiet (pm_err _) => apply quiet_ret
  | |- quiet (mret _) => apply quiet_ret
  | |- quiet (Ret _) => apply quiet_ret
  | H : _ |- quiet _ => by apply H
  end.

Lemma quiet_epoch fs : quiet (capability_epoch fs : M _).
Proof. unfold capability_epoch. quiet. Qed.

Lemma quiet_attempts left failed backoff : quiet (connect_attempts clock policy left failed backoff : M _).
Proof.
  revert backoff. induction left as [|left IH]; intros backoff; cbn [connect_attempts]; [quiet|].
  pose proof quiet_epoch. unfold install. quiet.
Qed.

Lemma quiet_reconnect failed : quiet (reconnect_after clock policy failed : M _).
Proof.
  pose proof quiet_attempts. unfold reconnect_after, reconnect_locked, lock_reconnect, unlock_reconnect, cooling. quiet.
Qed.

Lemma quiet_healthy : quiet (healthy_connection clock policy : M _).
Proof. pose proof quiet_reconnect. unfold healthy_connection. quiet. Qed.

Lemma quiet_mark g : quiet (mark_failed g : M unit).
Proof. unfold mark_failed. quiet. Qed.

Lemma quiet_replay fs remote locks : quiet (replay_locks fs remote locks : M unit).
Proof. induction locks as [|l locks IH]; cbn [replay_locks]; quiet. Qed.

Lemma quiet_remote_handle logical : quiet (remote_handle clock policy logical : M _).
Proof.
  pose proof quiet_healthy. pose proof quiet_replay.
  unfold remote_handle, reopen_locked, accept_revision, on_handles, lock_handles, unlock_handles. quiet.
Qed.

Lemma quiet_safe_call {A} (c : remote_call A) : mutates c = false → quiet (safe_call clock policy c : M A).
Proof.
  intros Hc. pose proof quiet_healthy. pose proof quiet_reconnect. pose proof quiet_mark. unfold safe_call. quiet.
Qed.

Lemma quiet_mutation_call {A} (c : remote_call A) : mutates c = false → quiet (mutation_call clock policy c : M A).
Proof. intros Hc. pose proof quiet_healthy. pose proof quiet_mark. unfold mutation_call. quiet. Qed.

(** * One request *)

Lemma single_bind {A B} (p : M A) (k : A → M B) : quiet p → (∀ a, single (k a)) → single (mbind k p).
Proof.
  intros Hp Hk t r (t1 & t2 & x & -> & H1 & H2)%path_bind. rewrite mutations_app, (Hp t1 x H1). simpl.
  destruct x as [a|e]; [by apply (Hk a)|]. destruct H2 as [-> ->]. by right.
Qed.

Lemma single_err {A} e : single (pm_err e : M A).
Proof. intros t r [-> ->]. by right. Qed.

(** The request and what follows it. *)
Lemma single_request {A B} conn (c : remote_call A) (k : result ClientError A → M B) :
  mutates c = true →
  (∀ r t b, path (k r) t b → mutations t = [] ∧ failure b = reported (failure r)) →
  single (mbind k (pm_ask (Request conn c))).
Proof.
  intros Hc Hk t r (t1 & t2 & x & -> & (y & t' & -> & -> & ->) & H2)%path_bind. simpl in H2.
  destruct (Hk y t2 r H2) as [Hm Hr]. left. exists (failure y). rewrite mutations_app, Hm.
  unfold mutations. simpl. by rewrite Hc.
Qed.

Lemma quietly_ret {A} (a : A) : quietly (Ret a) a.
Proof. by intros t b [-> ->]. Qed.

(** A quiet part that cannot fail. *)
Definition effect {A} (p : M A) : Prop := ∀ t r, path p t r → mutations t = [] ∧ failure r = None.

Lemma effect_step {X} (f : nat → Resilient W → option (X * Resilient W)) : effect (pm_step f : M X).
Proof. by intros t a (me & s & x & s' & _ & -> & ->). Qed.

Lemma effect_ret {A} (a : A) : effect (mret a : M A).
Proof. by intros t b [-> ->]. Qed.

Lemma quietly_bind {A B} (p : M A) (k : A → M B) b : effect p → (∀ a, quietly (k a) b) → quietly (mbind k p) b.
Proof.
  intros Hp Hk t r (t1 & t2 & x & -> & H1 & H2)%path_bind. destruct (Hp t1 x H1) as [Hm Hx].
  destruct x as [a|e]; [|done]. destruct (Hk a t2 r H2) as [Hm' ->]. by rewrite mutations_app, Hm, Hm'.
Qed.

Ltac quietly :=
  repeat match goal with
  | |- quietly (mbind _ _) _ => apply quietly_bind; [|intros ?]
  | |- quietly (pm_lift _) _ => apply quietly_ret
  | |- quietly (pm_err _) _ => apply quietly_ret
  | |- quietly (mret _) _ => apply quietly_ret
  | |- effect (match ?x with _ => _ end) => destruct x
  | |- effect (pm_step _) => apply effect_step
  | |- effect (pm_update _) => apply effect_step
  | |- effect (mret _) => apply effect_ret
  | |- effect (unlock_mutation _) => apply effect_step
  | |- effect (mark_failed _) => apply effect_step
  | |- effect (on_handles _) => apply effect_step
  | |- effect (update_written_handle _ _ _ _) => apply effect_step
  end.

(** The result that a transport failure becomes. *)
Definition settled {A} (r : result ClientError A) : result ClientError A :=
  match r with Err (ClientError.Transport _) => Err ClientError.AmbiguousMutation | r => r end.

Lemma failure_settled {A} (r : result ClientError A) : failure (settled r) = reported (failure r).
Proof. by destruct r as [|[]]. Qed.

Lemma settled_ends {A} (r : result ClientError A) (p : M A) :
  quietly p (settled r) → ∀ t b, path p t b → mutations t = [] ∧ failure b = reported (failure r).
Proof. intros Hp t b Ht. destruct (Hp t b Ht) as [Hm ->]. by rewrite failure_settled. Qed.

Lemma single_mutation_call {A} (c : remote_call A) : mutates c = true → single (mutation_call clock policy c : M A).
Proof.
  intros Hc. apply single_bind; [apply quiet_healthy|]. intros slot. apply single_request; [done|].
  intros r. apply settled_ends. destruct r as [a|[]]; quietly.
Qed.

(** [once] and the rest of a write. *)
Lemma single_once {A B} slot (c : remote_call A) (k : result ClientError A → M B) :
  mutates c = true →
  (∀ r t b, path (k (settled r)) t b → mutations t = [] ∧ failure b = reported (failure r)) →
  single (mbind k (once slot c)).
Proof.
  intros Hc Hk t r (t1 & t2 & x & -> & H1 & H2)%path_bind.
  apply path_bind in H1 as (t3 & t4 & y & -> & (z & t' & -> & -> & ->) & H3). simpl in H3.
  assert (quietly (match z with
    | Err (ClientError.Transport _) => _ ← mark_failed (ConnectionSlot.generation slot); mret (Err ClientError.AmbiguousMutation)
    | r => mret r end : M (result ClientError A)) (Ok (settled z))) as Hq.
  { destruct z as [a|[]]; quietly. }
  destruct (Hq t4 x H3) as [Hm ->]. destruct (Hk z t2 r H2) as [Hm' Hr].
  left. exists (failure z). rewrite !mutations_app, Hm, Hm'. unfold mutations. simpl. by rewrite Hc.
Qed.

(** * The operations *)

Lemma single_write logical (c : FileHandle → remote_call WriteResult) :
  (∀ h, mutates (c h) = true) → single (write_call clock policy logical c : M _).
Proof.
  intros Hc. apply single_bind; [apply quiet_remote_handle|]. intros [slot state].
  apply single_bind; [apply quiet_step|]. intros _. apply single_once; [apply Hc|].
  intros r. apply settled_ends. quietly.
Qed.

Lemma single_copy input io output oo length : single (copy_file_range clock policy input io output oo length : M _).
Proof.
  apply single_bind; [apply quiet_remote_handle|]. intros [islot istate].
  apply single_bind; [apply quiet_remote_handle|]. intros [oslot ostate].
  destruct (negb _); [apply single_err|].
  apply single_bind; [apply quiet_step|]. intros _. apply single_request; [done|].
  intros r t b (t1 & t2 & x & -> & H1 & H2)%path_bind.
  match type of H1 with path ?p _ _ => assert (quietly p (Ok (settled r))) as Hq by (destruct r as [a|[]]; quietly) end.
  destruct (Hq t1 x H1) as [Hm ->]. rewrite mutations_app, Hm. revert t2 b H2. apply settled_ends. quietly.
Qed.

Lemma single_set_attributes node logical changes : single (set_attributes clock policy node logical changes : M _).
Proof.
  apply single_bind; [pose proof quiet_remote_handle; quiet|]. intros mapped.
  apply single_bind; [unfold lock_mutation; quiet|]. intros _ t r (t1 & t2 & x & -> & H1 & H2)%path_bind.
  apply path_bind in H1 as (t3 & t4 & y & -> & H3 & H4). destruct H4 as [-> ->].
  assert (single (mutation_call clock policy (SetAttributes node mapped changes) : M _)) as Hs by by apply single_mutation_call.
  match type of H2 with path ?p _ _ => assert (quietly p y) as Hq by (unfold unlock_mutation, on_handles; quietly) end.
  destruct (Hq t2 r H2) as [Hm ->]. rewrite !mutations_app, Hm, !app_nil_r. by apply Hs.
Qed.

Lemma single_create parent name mode options : single (create_file new_v4 clock policy parent name mode options : M _).
Proof.
  apply single_bind; [apply quiet_healthy|]. intros slot. apply single_request; [done|].
  intros [f|e] t b Hp.
  - apply path_bind in Hp as (t1 & t2 & x & -> & H1 & H2).
    apply path_bind in H1 as (t3 & t4 & y & -> & (me & s' & z & s'' & _ & -> & ->) & H4).
    simpl in H4. destruct H4 as [-> ->]. simpl in H2. by destruct H2 as [-> ->].
  - revert t b Hp. apply (settled_ends (Err e)). destruct e; quietly.
Qed.

Lemma single_open node options :
  FileOpenOptions.truncate options = true → single (open_file_with_options new_v4 clock policy node options : M _).
Proof.
  intros Ht t r (t1 & t2 & x & -> & H1 & H2)%path_bind.
  assert (single (open_remote clock policy node options : M _)) as Hs.
  { apply single_bind; [apply quiet_healthy|]. intros slot. apply single_request; [done|].
    intros [o|e] t' b Hp; [by destruct Hp as [-> ->]|].
    revert t' b Hp. refine (settled_ends (A:=ConnectionSlot * OpenedFile) (Err e) _ _). rewrite Ht. cbn [negb]. destruct e; quietly. }
  destruct (Hs t1 x H1) as [(o & Hm & Hx)|[Hm Hx]].
  - destruct x as [[slot opened]|e].
    + apply path_bind in H2 as (t3 & t4 & y & -> & (me & s' & z & s'' & _ & -> & ->) & H4). simpl in H4.
      destruct H4 as [-> ->]. left. exists o. by rewrite app_nil_r.
    + destruct H2 as [-> ->]. left. exists o. by rewrite app_nil_r.
  - destruct x as [?|e]; [done|]. destruct H2 as [-> ->]. right. by rewrite app_nil_r.
Qed.

Lemma quiet_open node options :
  FileOpenOptions.truncate options = false → quiet (open_file_with_options new_v4 clock policy node options : M _).
Proof.
  intros Ht. pose proof quiet_healthy. pose proof quiet_reconnect. pose proof quiet_mark.
  unfold open_file_with_options, open_remote, remember_open, on_handles. quiet.
Qed.

Lemma quiet_others logical :
  (∀ c : FileHandle → remote_call unit, (∀ h, mutates (c h) = false) → quiet (sync_call clock policy logical c : M _)) ∧
  (∀ A (c : FileHandle → remote_call A), (∀ h, mutates (c h) = false) → quiet (retry_call clock policy logical c : M _)) ∧
  (∀ lock wait, quiet (set_lock clock policy logical lock wait : M _)) ∧
  (∀ offset length, quiet (read_range_versioned clock policy logical offset length : M _)) ∧
  quiet (close_file logical : M _).
Proof.
  pose proof quiet_remote_handle. pose proof quiet_healthy. pose proof quiet_mark. split_and!.
  - intros c Hc. unfold sync_call, once, lock_mutation, unlock_mutation. quiet.
  - intros A c Hc. unfold retry_call. quiet.
  - intros lock wait. unfold set_lock, once, on_handles. quiet.
  - intros offset length. unfold read_range_versioned, adopt_revision, on_handles. quiet.
  - unfold close_file, lock_mutation, unlock_mutation, on_handles. quiet.
Qed.
End once.

(** C14: A mutation is sent at most once, whatever the network answers and
    whatever other operations do in between, with any number of reconnections:
    either the call sent no mutating request and failed, or it sent one, and it
    reports that request's outcome, where a transport failure is reported as an
    ambiguous mutation.  Calls that are retried send none. *)
Theorem mutations_sent_once {W : Type} `{Network W} new_v4 clock policy {A} (c : remote_call A) t r :
  path (resilient_call (W:=W) new_v4 clock policy c) t r →
  if mutates c
  then (∃ o, mutations t = [o] ∧ failure r = reported o) ∨ (mutations t = [] ∧ failure r ≠ None)
  else mutations t = [].
Proof.
  destruct (mutates c) eqn:Hc; revert t r.
  - change (single (resilient_call (W:=W) new_v4 clock policy c)).
    destruct c; try discriminate; cbn [resilient_call namespace_call storage_call special_call];
      lazymatch goal with
      | |- single (mutation_call _ _ _) => by apply single_mutation_call
      | |- single (write_call _ _ _ _) => by apply single_write
      | |- single (open_file_with_options _ _ _ _ _) => by apply single_open
      | |- single (create_file _ _ _ _ _ _ _) => apply single_create
      | |- single (set_attributes _ _ _ _ _) => apply single_set_attributes
      | |- single (copy_file_range _ _ _ _ _ _ _) => apply single_copy
      end.
  - change (quiet (resilient_call (W:=W) new_v4 clock policy c)).
    destruct c; try discriminate; cbn [resilient_call namespace_call storage_call special_call];
      lazymatch goal with
      | |- quiet (safe_call _ _ _) => by apply quiet_safe_call
      | |- quiet (mutation_call _ _ _) => by apply quiet_mutation_call
      | |- quiet (open_file_with_options _ _ _ _ _) => by apply quiet_open
      | |- quiet (sync_call _ _ _ _) => by apply (quiet_others clock policy)
      | |- quiet (retry_call _ _ ?h _) => by apply (proj1 (proj2 (quiet_others clock policy h)))
      | |- quiet (set_lock _ _ ?h _ _) => apply (quiet_others clock policy h)
      | |- quiet (read_range_versioned _ _ ?h _ _) => apply (quiet_others clock policy h)
      | |- quiet (close_file ?h) => apply (quiet_others clock policy h)
      end.
Qed.
