(* ===== verification/ResilientLocks.v ===== *)
(** The locks of the resilient client: the mutation locks of handles come first,
    then the lock of the handles, then the mutex of [reconnect_after].  So its
    operations cannot deadlock, and all of them finish. *)

From S2P Require Import Prelude Protocol Common CacheRanges FsCache ViewStream Remote Tasks Deadlock Resilient.

Module Lock.
Inductive Lock :=
  | Mutation (logical : FileHandle)
  | Handles
  | Reconnect.

#[global] Instance lock_eq_dec : EqDecision Lock.
Proof. solve_decision. Defined.

Definition level (l : Lock) : nat := match l with Mutation _ => 0 | Handles => 1 | Reconnect => 2 end.

Lemma level_top l : (level l ≤ 2)%nat.
Proof. destruct l; simpl; lia. Qed.

Definition owner {W} (l : Lock) (s : Resilient W) : option nat :=
  match l with
  | Mutation h => mutation_owners s !! h
  | Handles => handles_owner s
  | Reconnect => reconnect_owner s
  end.
End Lock.
Abbreviation Lock := Lock.Lock.

Section locks.
Context {W : Type} `{NW : Network W}.
Context (new_v4 : Z → FileHandle) (clock : Z → Z) (policy : ReconnectPolicy).

Abbreviation RS := (Resilient W).
Abbreviation RM := (PM RS network ClientError).

Lemma outside_owner X (e : network X) (s : RS) l : Lock.owner l (outside X e s).2 = Lock.owner l s.
Proof.
  destruct e; unfold outside; [destruct (connect (world s))|destruct (request conn c (world s))|]; by destruct l.
Qed.

Context (me : nat).

(** From the locks [held] to those after an error and after a success. *)
Definition orders {A} (held : list Lock) (p : RM A) (err_held ok_held : list Lock) : Prop :=
  orderly Lock.owner Lock.level me held p (λ r, match r with Ok _ => ok_held | Err _ => err_held end).

Abbreviation keeps held p := (orders held p held held).

Lemma o_bind {A B} held (p : RM A) (k : A → RM B) he h1 h2 :
  orders held p he h1 → (∀ a, orders h1 (k a) he h2) → orders held (mbind k p) he h2.
Proof. intros Hp Hk. eapply orderly_bind; [exact Hp|]. intros [a|e]; [apply Hk|done]. Qed.

Lemma o_ret {A} held (a : A) he : orders held (mret a) he held.
Proof. done. Qed.

Lemma o_lift {A} held (r : result ClientError A) : keeps held (pm_lift r).
Proof. by destruct r. Qed.

Lemma o_try {A} held (p : RM A) he h : orders held p h h → orders held (pm_try p) he h.
Proof. intros Hp. eapply orderly_bind; [exact Hp|]. by intros [a|e]. Qed.

Lemma o_ask {X} held (e : network X) he : orders held (pm_ask e) he held.
Proof. by intros x. Qed.

Lemma o_plain {X} held (f : nat → RS → option (X * RS)) he :
  (∀ s, is_Some (f me s)) → (∀ s x s', f me s = Some (x, s') → ∀ l, Lock.owner l s' = Lock.owner l s) →
  orders held (pm_step f) he held.
Proof. intros Hf Ho. exists Plain, held. split_and!; [split; [auto|]|done|done|done]. intros s x s' Hs. split; [done|by apply (Ho s x)]. Qed.

Lemma o_update {X} held (f : RS → X * RS) he :
  (∀ s l, Lock.owner l (f s).2 = Lock.owner l s) → orders held (pm_update f) he held.
Proof. intros Hf. apply o_plain; [by eexists|]. intros s x s' [= E] l. by rewrite <- (Hf s l), E. Qed.

(** A short section under the lock of the handles. *)
Lemma o_on_handles {X} held (f : RS → X * RS) he :
  Forall (λ l, (Lock.level l < 1)%nat) held → (∀ s l, Lock.owner l (f s).2 = Lock.owner l s) →
  orders held (on_handles f) he held.
Proof.
  intros Hheld Hf. exists (Awaits Lock.Handles), held. split_and!; [split| |done|done].
  - intros s Hs. specialize (Hs _ eq_refl). simpl in *. rewrite Hs. by eexists.
  - intros s x s'. destruct (handles_owner s) eqn:Eh; [done|]. intros [= E]. split; [done|]. intros l.
    simpl. by rewrite <- (Hf s l), E.
  - intros l [= <-]. exact Hheld.
Qed.

Lemma o_take held l (f : nat → RS → option (unit * RS)) he :
  (∀ s, Lock.owner l s = None → is_Some (f me s)) →
  (∀ s x s', f me s = Some (x, s') → Lock.owner l s = None ∧
     ∀ l', Lock.owner l' s' = if decide (l' = l) then Some me else Lock.owner l' s) →
  Forall (λ l', (Lock.level l' < Lock.level l)%nat) held → orders held (pm_step f) he (l :: held).
Proof.
  intros Hf Hs Hheld. exists (Takes l), (l :: held). split_and!; [split|by intros l' [= <-]|done|done].
  - intros s Hn. by apply Hf, Hn.
  - intros s x s' E. destruct (Hs s x s' E). split; [by intros l' [= <-]|done].
Qed.

Lemma o_give held l (f : RS → unit * RS) he :
  (∀ s l', Lock.owner l' (f s).2 = if decide (l' = l) then None else Lock.owner l' s) →
  orders (l :: held) (pm_update f) he held.
Proof.
  intros Hf. exists (Gives l), held. split_and!; [split|done|done|done].
  - by eexists.
  - intros s x s' [= E]. split; [done|]. intros l'. simpl. by rewrite <- Hf, E.
Qed.

Lemma lock_reconnect_orders held he :
  Forall (λ l', (Lock.level l' < 2)%nat) held → orders held lock_reconnect he (Lock.Reconnect :: held).
Proof.
  intros Hheld. apply o_take; [| |done]; simpl.
  - intros s ->. by eexists.
  - intros s x s'. destruct (reconnect_owner s); [done|]. intros [= <- <-]. split; [done|]. by intros [].
Qed.

Lemma unlock_reconnect_orders held he : orders (Lock.Reconnect :: held) unlock_reconnect he held.
Proof. apply o_give. by intros s []. Qed.

Lemma lock_handles_orders held he :
  Forall (λ l', (Lock.level l' < 1)%nat) held → orders held lock_handles he (Lock.Handles :: held).
Proof.
  intros Hheld. apply o_take; [| |done]; simpl.
  - intros s ->. by eexists.
  - intros s x s'. destruct (handles_owner s); [done|]. intros [= <- <-]. split; [done|]. by intros [].
Qed.

Lemma unlock_handles_orders held he : orders (Lock.Handles :: held) unlock_handles he held.
Proof. apply o_give. by intros s []. Qed.

Lemma lock_mutation_orders h he : orders [] (lock_mutation h) he [Lock.Mutation h].
Proof.
  apply o_take; [| |done]; simpl.
  - intros s ->. by eexists.
  - intros s x s'. destruct (mutation_owners s !! h) eqn:Eh; [done|]. intros [= <- <-]. split; [done|].
    intros [h'| |]; simpl; [|done|done]. destruct (decide _) as [E|Hne]; [injection E as ->; apply lookup_insert_eq|].
    apply lookup_insert_ne. congruence.
Qed.

Lemma unlock_mutation_orders h he : orders [Lock.Mutation h] (unlock_mutation h) he [].
Proof.
  apply o_give. intros s [h'| |]; simpl; [|done|done].
  destruct (decide _) as [E|Hne]; [injection E as ->; apply lookup_delete_eq|]. apply lookup_delete_ne. congruence.
Qed.

(** Follow the program, by the rule of its first step. *)
Ltac orders_step :=
  lazymatch goal with
  | |- orders _ (mbind _ _) _ _ => eapply o_bind; [|intros ?]
  | |- orders _ (mret _) _ _ => apply o_ret
  | |- orders _ (pm_err _) _ _ => reflexivity
  | |- orders _ (pm_lift _) _ _ => apply o_lift
  | |- orders _ (pm_ask _) _ _ => apply o_ask
  | |- orders _ (pm_gets _) _ _ => apply o_update; by intros s l
  | |- orders _ (pm_update _) _ _ => apply o_update; by intros s []
  | |- orders _ (mark_failed _) _ _ => apply o_update; by intros s []
  | |- orders _ (on_handles _) _ _ => apply o_on_handles; [by repeat constructor|by intros s []]
  | |- orders _ (pm_try _) _ _ => eapply o_try
  | |- orders _ (lock_mutation _) _ _ => apply lock_mutation_orders
  | |- orders _ (unlock_mutation _) _ _ => apply unlock_mutation_orders
  | |- orders _ (adopt_revision _ _) _ _ => apply o_on_handles; [by repeat constructor|by intros s []]
  | |- orders _ (update_written_handle _ _ _ _) _ _ => apply o_on_handles; [by repeat constructor|by intros s []]
  | |- orders _ (let '(_, _) := ?x in _) _ _ => destruct x
  | |- orders _ (if ?b then _ else _) _ _ => destruct b
  | |- orders _ (match ?r with _ => _ end) _ _ => destruct r
  end.
Ltac orders_steps := repeat orders_step.

Lemma epoch_orders held fs : keeps held (capability_epoch fs).
Proof. unfold capability_epoch. orders_steps. Qed.

Lemma attempts_orders held left failed backoff : keeps held (connect_attempts clock policy left failed backoff).
Proof.
  revert backoff. induction left as [|left IH]; intros backoff; cbn [connect_attempts]; [done|].
  orders_step; [apply o_ask|]. destruct a as [fs|e].
  - orders_step; [apply epoch_orders|]. unfold install. orders_steps.
  - destruct left; orders_steps. apply IH.
Qed.

Lemma reconnect_orders held failed :
  Forall (λ l', (Lock.level l' < 2)%nat) held → keeps held (reconnect_after clock policy failed).
Proof.
  intros Hheld. unfold reconnect_after. orders_step; [by apply lock_reconnect_orders|].
  orders_step; [orders_step|].
  - unfold reconnect_locked. orders_steps.
    + unfold cooling. apply o_update. intros s l. repeat case_match; by destruct l.
    + apply attempts_orders.
  - orders_step; [apply unlock_reconnect_orders|]. apply o_lift.
Qed.

Lemma healthy_orders held :
  Forall (λ l', (Lock.level l' < 2)%nat) held → keeps held (healthy_connection clock policy).
Proof. intros Hheld. unfold healthy_connection. orders_steps. by apply reconnect_orders. Qed.

Ltac low_locks := repeat (constructor; simpl; [lia|]); by constructor.
Ltac orders_call :=
  lazymatch goal with
  | |- orders _ (healthy_connection _ _) _ _ => apply healthy_orders; low_locks
  | |- orders _ (reconnect_after _ _ _) _ _ => apply reconnect_orders; low_locks
  | _ => orders_step
  end.
Ltac orders_calls := repeat orders_call.

Lemma safe_call_orders {A} (c : remote_call A) : keeps [] (safe_call clock policy c).
Proof. unfold safe_call. orders_calls. Qed.

(** Also under the lock of a handle. *)
Lemma mutation_call_orders {A} held (c : remote_call A) :
  Forall (λ l', (Lock.level l' < 2)%nat) held → keeps held (mutation_call clock policy c).
Proof. intros Hheld. unfold mutation_call. orders_step; [by apply healthy_orders|]. orders_calls. Qed.

Lemma open_remote_orders node options : keeps [] (open_remote clock policy node options).
Proof. unfold open_remote. orders_calls. Qed.

Lemma replay_orders held conn remote locks : keeps held (replay_locks conn remote locks).
Proof. induction locks as [|lock locks IH]; cbn [replay_locks]; orders_calls. exact IH. Qed.

Lemma reopen_orders logical : keeps [Lock.Handles] (reopen_locked clock policy logical).
Proof.
  unfold reopen_locked. do 3 (orders_step; [by orders_calls|]). orders_step; [orders_step|].
  do 2 (orders_step; [by orders_calls|]). orders_step; [unfold accept_revision; by orders_calls|].
  orders_step; [apply replay_orders|]. orders_calls.
Qed.

Lemma remote_handle_orders logical : keeps [] (remote_handle clock policy logical).
Proof.
  unfold remote_handle. do 3 (orders_step; [by orders_calls|]). orders_step; [orders_step|].
  orders_step; [apply lock_handles_orders; by constructor|]. orders_step; [orders_step; apply reopen_orders|].
  orders_step; [apply unlock_handles_orders|]. orders_calls.
Qed.

Lemma once_orders {A} held slot (c : remote_call A) he : orders held (once slot c) he held.
Proof. unfold once. orders_calls. Qed.

Ltac orders_all := repeat
  lazymatch goal with
  | |- orders _ (remote_handle _ _ _) _ _ => apply remote_handle_orders
  | |- orders _ (once _ _) _ _ => apply once_orders
  | |- orders _ (remember_open _ _ _ _ _) _ _ => unfold remember_open
  | |- orders _ (mutation_call _ _ _) _ _ => apply mutation_call_orders; low_locks
  | _ => orders_call
  end.

Lemma open_file_orders node options : keeps [] (open_file_with_options new_v4 clock policy node options).
Proof. unfold open_file_with_options. orders_step; [apply open_remote_orders|]. orders_all. Qed.

Lemma create_file_orders parent name mode options :
  keeps [] (create_file new_v4 clock policy parent name mode options).
Proof. unfold create_file. orders_all. Qed.

Lemma set_attributes_orders node logical x : keeps [] (set_attributes clock policy node logical x).
Proof. unfold set_attributes. destruct logical as [l|]; orders_all. Qed.

Lemma read_range_orders logical offset length : keeps [] (read_range_versioned clock policy logical offset length).
Proof. unfold read_range_versioned. orders_all. Qed.

Lemma write_call_orders logical operation : keeps [] (write_call clock policy logical operation).
Proof. unfold write_call. orders_all. Qed.

Lemma sync_call_orders logical operation : keeps [] (sync_call clock policy logical operation).
Proof. unfold sync_call. orders_all. Qed.

Lemma copy_file_range_orders input i output o length :
  keeps [] (copy_file_range clock policy input i output o length).
Proof. unfold copy_file_range. orders_all. Qed.

Lemma retry_call_orders {A} logical (operation : FileHandle → remote_call A) :
  keeps [] (retry_call clock policy logical operation).
Proof. unfold retry_call. orders_all. Qed.

Lemma set_lock_orders logical lock wait : keeps [] (set_lock clock policy logical lock wait).
Proof. unfold set_lock. orders_all. Qed.

Lemma close_file_orders logical : keeps [] (close_file logical).
Proof. unfold close_file. orders_all. Qed.

Lemma resilient_call_orders {A} (c : remote_call A) : keeps [] (resilient_call new_v4 clock policy c).
Proof.
  destruct c; cbn [resilient_call namespace_call storage_call special_call];
    lazymatch goal with
    | |- orders _ (safe_call _ _ _) _ _ => apply safe_call_orders
    | |- orders _ (mutation_call _ _ _) _ _ => apply mutation_call_orders; by constructor
    | |- orders _ (write_call _ _ _ _) _ _ => apply write_call_orders
    | |- orders _ (sync_call _ _ _ _) _ _ => apply sync_call_orders
    | |- orders _ (retry_call _ _ _ _) _ _ => apply retry_call_orders
    | _ => idtac
    end.
  - apply open_file_orders.
  - apply create_file_orders.
  - apply set_attributes_orders.
  - apply read_range_orders.
  - apply copy_file_range_orders.
  - apply set_lock_orders.
  - apply close_file_orders.
Qed.
End locks.
