(* ===== verification/ResilientFacts.v ===== *)
(** The resilient client keeps the promise of its connections: under every
    interleaving of its operations the handles belong to the file they were
    opened for, and requests go to the connection that opened the handle. *)

From S2P Require Import Prelude Protocol Common CacheRanges FsCache ViewStream Remote Tasks Resilient.

(** What the client relies on: a connection answers truly, a handle means the
    same file on every connection that knows it, and a server reports one epoch. *)
Class NetworkLaws (W : Type) `{Network W} := {
  world_true : Truth → W → Prop;
  opened_on : W → Conn → FileHandle → NodeId → Prop;
  epoch_of : Conn → Z;
  law_connect : ∀ T w, world_true T w → world_true T (connect w).2;
  law_time : ∀ T d w, world_true T w → world_true T (pass_time d w);
  law_request : ∀ T A conn (c : remote_call A) w, facts_ok T → call_ok T c → world_true T w →
    world_true T (request conn c w).2 ∧
    ∀ a, (request conn c w).1 = Ok a →
      answer_true T (λ h n, ∃ other, opened_on w other h n) (opened_on (request conn c w).2 conn) c a;
  law_opened_connect : ∀ w conn h n, opened_on w conn h n → opened_on (connect w).2 conn h n;
  law_opened_time : ∀ d w conn h n, opened_on w conn h n → opened_on (pass_time d w) conn h n;
  law_opened_request : ∀ A other (c : remote_call A) w conn h n,
    opened_on w conn h n → opened_on (request other c w).2 conn h n;
  law_epoch : ∀ conn w c, (request conn Capabilities w).1 = Ok c → FilesystemCapabilities.server_epoch c = epoch_of conn
}.

(** The handles that a request names. *)
Definition request_handles {A} (c : remote_call A) : list FileHandle :=
  match c with
  | SetAttributes _ (Some h) _ => [h]
  | ReadRangeVersioned h _ _ | WriteRange h _ _ | FlushFile h _ | SyncFile h _ | AllocateFile h _ _
  | SeekFile h _ _ | SafeIoctlCall h _ | GetLock h _ | SetLock h _ _ | CloseFile h => [h]
  | CopyFileRange h _ h' _ _ => [h; h']
  | _ => []
  end.

Section facts.
Context {W : Type} `{NL : NetworkLaws W}.
Context (new_v4 : Z → FileHandle) (new_v4_inj : ∀ j k, 0 ≤ j → 0 ≤ k → new_v4 j = new_v4 k → j = k).
Context (clock : Z → Z) (policy : ReconnectPolicy) (T : Truth) (facts : facts_ok T).

Abbreviation RS := (Resilient W).

(** * The invariant *)

(** The generation counter has not saturated. *)
Definition few (s : RS) : Prop := zlen (history s) < u64_max.

(** The connection of a generation. *)
Definition at_generation (s : RS) (generation : Z) (conn : Conn) : Prop :=
  1 ≤ generation ∧ history s !! Z.to_nat (generation - 1) = Some conn.

Definition slot_ok (slot : ConnectionSlot) (s : RS) : Prop :=
  few s → at_generation s (ConnectionSlot.generation slot) (ConnectionSlot.filesystem slot).

(** A handle that the connection of its generation gave out for a node. *)
Definition opened_at (generation : Z) (h : FileHandle) (n : NodeId) (s : RS) : Prop :=
  (∃ conn, opened_on (world s) conn h n) ∧
  (few s → ∃ conn, at_generation s generation conn ∧ opened_on (world s) conn h n).

Definition handle_ok (hs : HandleState) (s : RS) : Prop :=
  opened_at (HandleState.generation hs) (HandleState.remote hs) (HandleState.node hs) s.

Record resilient_ok (s : RS) : Prop := {
  ro_world : world_true T (world s);
  ro_slot : few s → ConnectionSlot.generation (connection s) = zlen (history s) ∧
              last (history s) = Some (ConnectionSlot.filesystem (connection s));
  ro_handles : ∀ h hs, handles s !! h = Some hs → handle_ok hs s ∧ ∃ k, 0 ≤ k < uuids s ∧ h = new_v4 k;
  ro_epoch : ∀ e, server_epoch s = Some e → Forall (λ conn, epoch_of conn = e) (history s);
  ro_uuids : 0 ≤ uuids s
}.

(** The node of a logical handle that was given out. *)
Definition logical_node (h : FileHandle) (n : NodeId) (s : RS) : Prop :=
  (∃ k, 0 ≤ k < uuids s ∧ h = new_v4 k) ∧ ∀ hs, handles s !! h = Some hs → HandleState.node hs = n.

(** What a step of a task may change. *)
Record changes (me : nat) (s s' : RS) : Prop := {
  ch_history : history s `prefix_of` history s';
  ch_opened : ∀ conn h n, opened_on (world s) conn h n → opened_on (world s') conn h n;
  ch_epoch : server_epoch s' = server_epoch s;
  ch_slot : reconnect_owner s ≠ Some me → connection s' = connection s ∧ history s' = history s;
  ch_owner : ∀ i, i ≠ me → reconnect_owner s = Some i → reconnect_owner s' = Some i;
  ch_uuids : uuids s ≤ uuids s';
  ch_handles : ∀ h hs', handles s' !! h = Some hs' →
    (∃ k, uuids s ≤ k ∧ h = new_v4 k) ∨
    ∃ hs, handles s !! h = Some hs ∧ HandleState.node hs = HandleState.node hs'
}.

Abbreviation lasting F := (persistent resilient_ok changes F).

Lemma few_prefix s s' : history s `prefix_of` history s' → few s' → few s.
Proof. intros [l Hl]. unfold few. rewrite Hl, zlen_app. pose proof (zlen_nonneg l). lia. Qed.

Lemma at_generation_prefix s s' g conn : history s `prefix_of` history s' → at_generation s g conn → at_generation s' g conn.
Proof. intros Hp [Hg Hl]. split; [done|]. by eapply prefix_lookup_Some. Qed.

Lemma slot_ok_lasting slot : lasting (slot_ok slot).
Proof.
  intros i s s' _ _ Hch Hs Hfew. eapply at_generation_prefix; [apply Hch|]. apply Hs. by eapply few_prefix; [apply Hch|].
Qed.

Lemma opened_at_lasting g h n : lasting (opened_at g h n).
Proof.
  intros i s s' _ _ Hch [(conn & Ho) Hg]. split; [exists conn; by apply Hch|]. intros Hfew.
  destruct Hg as (conn' & Hat & Ho'); [by eapply few_prefix; [apply Hch|]|].
  exists conn'. split; [by eapply at_generation_prefix; [apply Hch|]|by apply Hch].
Qed.

Lemma opened_on_lasting conn h n : lasting (λ s, opened_on (world s) conn h n).
Proof. intros i s s' _ _ Hch. by apply Hch. Qed.

Lemma logical_node_lasting h n : lasting (logical_node h n).
Proof.
  intros i s s' Hs _ Hch [(k & Hk & ->) Hn]. pose proof (ch_uuids _ _ _ Hch). split; [exists k; split; [lia|done]|].
  intros hs' Hl. destruct (ch_handles _ _ _ Hch _ _ Hl) as [(k' & Hk' & E)|(hs & Hl' & <-)]; [|by apply Hn].
  apply new_v4_inj in E; [lia|lia|]. pose proof (ro_uuids _ Hs). lia.
Qed.

Lemma current_slot_ok s : resilient_ok s → slot_ok (connection s) s.
Proof.
  intros Hs Hfew. destruct (ro_slot s Hs Hfew) as [Hg Hl]. rewrite last_lookup in Hl.
  assert (1 ≤ zlen (history s)) as H1.
  { destruct (history s); [done|]. unfold zlen. simpl. lia. }
  split; [lia|]. rewrite Hg. rewrite <- Hl. f_equal. unfold zlen. lia.
Qed.

(** Matching generations belong to the same connection. *)
Lemma same_connection s slot g h n :
  slot_ok slot s → opened_at g h n s → g = ConnectionSlot.generation slot →
  few s → opened_on (world s) (ConnectionSlot.filesystem slot) h n.
Proof.
  intros Hslot [_ Hat] -> Hfew. destruct (Hslot Hfew) as [_ Hl]. destruct (Hat Hfew) as (conn & [_ Hl'] & Ho).
  congruence.
Qed.

(** * Rules *)

Context (me : nat) (strict : bool).

(** In a strict task a request goes to the connection that opened its handles. *)
Definition asks (X : Type) (e : network X) (s : RS) : Prop :=
  match e with
  | Request conn c => strict = true → few s → ∀ h, h ∈ request_handles c → ∃ n, opened_on (world s) conn h n
  | _ => True
  end.

(** From [P] the program ends with [Q] of its value, or with [E]. *)
Definition ends {A} (P : RS → Prop) (p : PM RS network ClientError A) (E : RS → Prop) (Q : A → RS → Prop) : Prop :=
  safe outside resilient_ok changes me asks P p (λ r s, match r with Ok a => Q a s | Err _ => E s end).

Abbreviation tells P p Q := (ends P p (λ _, True) Q).

Lemma r_weaken {A} (P P' : RS → Prop) (p : PM RS network ClientError A) (E : RS → Prop) (Q Q' : A → RS → Prop) :
  ends P p E Q → (∀ s, resilient_ok s → P' s → P s) → (∀ a s, resilient_ok s → Q a s → Q' a s) → ends P' p E Q'.
Proof. intros Hp HP HQ. eapply safe_weaken; [exact Hp|exact HP|]. intros [a|e] s Hs Hr; auto. Qed.

Lemma r_pre {A} (P P' : RS → Prop) (p : PM RS network ClientError A) E (Q : A → RS → Prop) :
  ends P p E Q → (∀ s, resilient_ok s → P' s → P s) → ends P' p E Q.
Proof. intros Hp HP. by eapply r_weaken. Qed.

Lemma r_bind {A B} (P : RS → Prop) (p : PM RS network ClientError A) (k : A → PM RS network ClientError B) E R Q :
  ends P p E R → (∀ a, ends (R a) (k a) E Q) → ends P (mbind k p) E Q.
Proof. intros Hp Hk. eapply safe_bind; [exact Hp|]. intros [a|e]; [apply Hk|by intros s _ ?]. Qed.

Lemma r_keep {A} (F : RS → Prop) (p : PM RS network ClientError A) R :
  lasting F → tells F p R → tells F p (λ a s, F s ∧ R a s).
Proof.
  intros HF Hp. eapply safe_weaken; [apply (safe_frame _ _ _ _ _ F F _ _ HF Hp)|done|].
  intros [a|e] s _ [Hr Hs]; done.
Qed.

(** What is known lasts while the next part adds to it. *)
Lemma r_seq {A B} (F : RS → Prop) (p : PM RS network ClientError A) (k : A → PM RS network ClientError B) R Q :
  lasting F → tells F p R → (∀ a, tells (λ s, F s ∧ R a s) (k a) Q) → tells F (mbind k p) Q.
Proof. intros HF Hp Hk. eapply r_bind; [by apply r_keep|exact Hk]. Qed.

Lemma r_ret {A} (P : RS → Prop) (a : A) E (Q : A → RS → Prop) :
  (∀ s, resilient_ok s → P s → Q a s) → ends P (mret a) E Q.
Proof. intros HQ s Hs HP. by apply HQ. Qed.

Lemma r_err {A} (P : RS → Prop) e (E : RS → Prop) (Q : A → RS → Prop) : (∀ s, P s → E s) → ends P (pm_err e) E Q.
Proof. intros HE s _ HP. by apply HE. Qed.

Lemma r_lift {A} (P : RS → Prop) (r : result ClientError A) (E : RS → Prop) (Q : A → RS → Prop) :
  (∀ s, P s → E s) → (∀ a s, r = Ok a → resilient_ok s → P s → Q a s) → ends P (pm_lift r) E Q.
Proof. intros HE HQ s Hs HP. destruct r; auto. Qed.

Lemma r_try {A} (P : RS → Prop) (p : PM RS network ClientError A) (E E' : RS → Prop) (Q : A → RS → Prop) :
  ends P p E Q → ends P (pm_try p) E' (λ r s, match r with Ok a => Q a s | Err _ => E s end).
Proof. intros Hp. eapply safe_bind; [exact Hp|]. by intros r s _ Hr. Qed.

Lemma r_step {X} (P : RS → Prop) (f : nat → RS → option (X * RS)) E (R : X → RS → Prop) :
  (∀ x, stable resilient_ok changes me (R x)) →
  (∀ s x s', resilient_ok s → P s → f me s = Some (x, s') → resilient_ok s' ∧ changes me s s' ∧ R x s') →
  ends P (pm_step f) E R.
Proof. intros Hst Hf. exists R. split_and!; [done|done|]. by intros x s Hs HR. Qed.

(** The invariant does not see this change. *)
Definition alike (s s' : RS) : Prop :=
  world s' = world s ∧ connection s' = connection s ∧ reconnect_owner s' = reconnect_owner s ∧
  server_epoch s' = server_epoch s ∧ handles s' = handles s ∧ uuids s' = uuids s ∧ history s' = history s.

Lemma alike_ok s s' : alike s s' → resilient_ok s → resilient_ok s' ∧ changes me s s'.
Proof.
  destruct s, s'. intros (?&?&?&?&?&?&?) [Hw Hs Hh He Hu]. simpl in *. subst. split; split; simpl in *; try done.
  intros h hs Hl. right. by exists hs.
Qed.

(** A step that leaves the connection and the mutex of [reconnect_after] alone. *)
Definition calm (s s' : RS) : Prop :=
  changes me s s' ∧ connection s' = connection s ∧ history s' = history s ∧ reconnect_owner s' = reconnect_owner s.

(** A fact that other tasks and calm steps of this one do not destroy. *)
Definition enduring (P : RS → Prop) : Prop :=
  stable resilient_ok changes me P ∧ ∀ s s', resilient_ok s → resilient_ok s' → calm s s' → P s → P s'.

Lemma lasting_enduring P : lasting P → enduring P.
Proof. intros HP. split; [by apply persistent_stable|]. intros s s' ? ? [? _]. by apply (HP me). Qed.

Lemma enduring_and P Q : enduring P → enduring Q → enduring (λ s, P s ∧ Q s).
Proof.
  intros [HP HP'] [HQ HQ']. split.
  - intros i s s' ? ? ? ? [? ?]. split; [by apply (HP i s)|by apply (HQ i s)].
  - intros s s' ? ? ? [? ?]. split; [by apply (HP' s)|by apply (HQ' s)].
Qed.

Lemma alike_calm s s' : alike s s' → resilient_ok s → calm s s'.
Proof. intros Ha Hs. split; [by apply alike_ok|]. by destruct Ha as (_ & ? & ? & _ & _ & _ & ?). Qed.

Lemma r_alike {X} (P : RS → Prop) (f : nat → RS → option (X * RS)) E :
  enduring P → (∀ s x s', f me s = Some (x, s') → alike s s') → ends P (pm_step f) E (λ _, P).
Proof.
  intros [Hst HP] Hf. apply r_step; [done|]. intros s x s' Hs HPs Hfs.
  pose proof (Hf s x s' Hfs) as Ha. destruct (alike_ok s s' Ha Hs). split_and!; [done|done|].
  apply (HP s); auto using alike_calm.
Qed.

Lemma r_gets {X} (P : RS → Prop) (f : RS → X) E (R : X → RS → Prop) :
  (∀ x, stable resilient_ok changes me (R x)) → (∀ s, resilient_ok s → P s → R (f s) s) → ends P (pm_gets f) E R.
Proof.
  intros Hst HR. apply r_step; [done|].
  intros s x s' Hs HP [= <- <-]. destruct (alike_ok s s) as [? ?]; [by split_and!|done|]. split_and!; auto.
Qed.

Lemma mutation_alike s m : alike s (with_mutations m s).
Proof. by split_and!. Qed.

Lemma answer_true_mono {A} before (after after' : FileHandle → NodeId → Prop) (c : remote_call A) a :
  (∀ h n, after h n → after' h n) → answer_true T before after c a → answer_true T before after' c a.
Proof. intros Hmono. destruct c; simpl; naive_solver. Qed.

(** The network moves on. *)
Lemma world_step s w :
  resilient_ok s → world_true T w → (∀ conn h n, opened_on (world s) conn h n → opened_on w conn h n) →
  resilient_ok (with_world w s) ∧ calm s (with_world w s).
Proof.
  intros [_ Hsl Hh He Hu] Hw Hmono. split.
  - split; simpl; try done. intros h hs Hl. destruct (Hh h hs Hl) as [[(c' & Ho) Hg] Hk].
    split; [|done]. split; [eexists; by apply Hmono|]. intros Hfew. destruct (Hg Hfew) as (c'' & Hat & Ho'').
    exists c''. split; [done|by apply Hmono].
  - split; [|done]. split; simpl; try done. intros h hs Hl. right. by exists hs.
Qed.

(** A request whose handles are known; the answer is true, and what always holds
    of an answer of the connection is known. *)
Lemma r_request_fact {A} (P : RS → Prop) conn (c : remote_call A) (known : FileHandle → NodeId → Prop) (X : A → Prop) E :
  call_ok T c → enduring P →
  (∀ s h n, P s → known h n → ∃ other, opened_on (world s) other h n) →
  (strict = true → ∀ s h, P s → few s → h ∈ request_handles c → ∃ n, opened_on (world s) conn h n) →
  (∀ w a, (request conn c w).1 = Ok a → X a) →
  ends P (pm_ask (Request conn c)) E (λ r s, P s ∧ ∀ a, r = Ok a →
    answer_true T known (opened_on (world s) conn) c a ∧ X a).
Proof.
  intros Hok HP Hknown Hstrict HX.
  exists (λ r s, P s ∧ ∀ a, r = Ok a → answer_true T known (opened_on (world s) conn) c a ∧ X a). split_and!.
  - intros r. apply enduring_and; [done|]. apply lasting_enduring. intros i s s' _ _ Hch Ha a Ea.
    destruct (Ha a Ea) as [Ht Hx]. split; [|done]. eapply answer_true_mono; [|exact Ht]. intros h n. apply Hch.
  - intros s Hs HPs. split; [intros Hst Hfew h Hh; by apply (Hstrict Hst s h)|].
    destruct (law_request T A conn c (world s) facts Hok (ro_world s Hs)) as [Hw Ha].
    pose proof (law_opened_request A conn c (world s)) as Hmono. pose proof (HX (world s)) as HXs. unfold outside.
    destruct (request conn c (world s)) as [r w]. simpl in *.
    destruct (world_step s w Hs Hw Hmono) as [Hs' Hcalm].
    split_and!; [done|apply Hcalm|by apply (proj2 HP s)|]. intros a ->. split; [|by apply HXs]. specialize (Ha a eq_refl).
    revert Ha. clear -Hknown HPs. destruct c; simpl; try done. intros [Hl Hd]. split; [done|].
    intros n Hn. apply Hd. by apply (Hknown s).
  - by intros r s Hs HR.
Qed.

Lemma r_request {A} (P : RS → Prop) conn (c : remote_call A) (known : FileHandle → NodeId → Prop) E :
  call_ok T c → enduring P →
  (∀ s h n, P s → known h n → ∃ other, opened_on (world s) other h n) →
  (strict = true → ∀ s h, P s → few s → h ∈ request_handles c → ∃ n, opened_on (world s) conn h n) →
  ends P (pm_ask (Request conn c)) E
    (λ r s, P s ∧ ∀ a, r = Ok a → answer_true T known (opened_on (world s) conn) c a).
Proof.
  intros Hok HP Hknown Hstrict. eapply r_weaken; [by apply (r_request_fact P conn c known (λ _, True))|done|].
  intros r s _ [HPs Ha]. split; [done|]. intros a Ea. by apply Ha.
Qed.

(** A request without handles. *)
Lemma r_request_plain {A} (P : RS → Prop) conn (c : remote_call A) E :
  call_ok T c → enduring P → request_handles c = [] →
  ends P (pm_ask (Request conn c)) E
    (λ r s, P s ∧ ∀ a, r = Ok a → answer_true T (λ _ _, False) (opened_on (world s) conn) c a).
Proof. intros Hok HP Hno. apply r_request; [done|done|done|]. rewrite Hno. by intros _ s h _ _ ?%elem_of_nil. Qed.

Lemma r_connect (P : RS → Prop) E : enduring P → ends P (pm_ask Connect) E (λ _, P).
Proof.
  intros HP. exists (λ _, P). split_and!.
  - intros _. apply HP.
  - intros s Hs HPs. split; [done|]. unfold outside.
    pose proof (law_connect T (world s) (ro_world s Hs)) as Hw. pose proof (law_opened_connect (world s)) as Hmono.
    destruct (connect (world s)) as [r w]. simpl in *. destruct (world_step s w Hs Hw Hmono) as [Hs' Hcalm].
    split_and!; [done|apply Hcalm|by apply (proj2 HP s)].
  - by intros x s Hs HR.
Qed.

Lemma r_sleep (P : RS → Prop) d E : enduring P → ends P (pm_ask (Sleep d)) E (λ _, P).
Proof.
  intros HP. exists (λ _, P). split_and!.
  - intros _. apply HP.
  - intros s Hs HPs. split; [done|]. simpl.
    pose proof (law_time T d (world s) (ro_world s Hs)) as Hw. pose proof (law_opened_time d (world s)) as Hmono.
    destruct (world_step s _ Hs Hw Hmono) as [Hs' Hcalm]. split_and!; [done|apply Hcalm|by apply (proj2 HP s)].
  - by intros x s Hs HR.
Qed.

(** * Connections *)

Lemma true_lasting : lasting (λ _, True).
Proof. done. Qed.

(** This task holds the mutex of [reconnect_after]. *)
Definition mine (s : RS) : Prop := reconnect_owner s = Some me.
Definition holding (failed : Z) (s : RS) : Prop := mine s ∧ ConnectionSlot.generation (connection s) = failed.

Lemma mine_enduring : enduring mine.
Proof.
  split.
  - intros i s s' Hne _ _ Hch Hm. by apply (ch_owner _ _ _ Hch me).
  - intros s s' _ _ (_ & _ & _ & E) Hm. unfold mine. by rewrite E.
Qed.

Lemma holding_enduring failed : enduring (holding failed).
Proof.
  split.
  - intros i s s' Hne Hs Hs' Hch [Hm Hg]. split; [by apply (proj1 mine_enduring i s)|].
    destruct (ch_slot _ _ _ Hch) as [-> _]; [|done]. rewrite Hm. congruence.
  - intros s s' _ _ (_ & Ec & _ & E) [Hm Hg]. unfold holding, mine. by rewrite Ec, E.
Qed.

Lemma lock_reconnect_tells : tells (λ _, True) lock_reconnect (λ _, mine).
Proof.
  apply r_step; [intros _; apply mine_enduring|]. intros s x s' Hs _. destruct (reconnect_owner s) eqn:E; [done|].
  intros [= <- <-]. split_and!; [by destruct Hs|split; simpl; try done|done].
  - by rewrite E.
  - intros h hs Hl. right. by exists hs.
Qed.

Lemma unlock_reconnect_ends (P : RS → Prop) E : lasting P → ends (λ s, P s ∧ mine s) unlock_reconnect E (λ _, P).
Proof.
  intros HP. apply r_step; [intros _; by apply persistent_stable|]. intros s x s' Hs [HPs Hm] [= <- <-].
  assert (resilient_ok (with_reconnect_owner None s)) as Hs' by by destruct Hs.
  assert (changes me s (with_reconnect_owner None s)) as Hch.
  { split; simpl; try done; [intros i Hne Hi; unfold mine in Hm; congruence|]. intros h hs Hl. right. by exists hs. }
  split_and!; [done|done|by apply (HP me s)].
Qed.

Lemma epoch_ends (P : RS → Prop) fs :
  enduring P → (∀ s, P s → mine s) →
  ends P (capability_epoch fs) mine (λ e s, P s ∧ ∀ x, e = Some x → x = epoch_of fs).
Proof.
  intros HP Hm. eapply r_bind.
  { apply (r_request_fact P fs Capabilities (λ _ _, False) (λ c, FilesystemCapabilities.server_epoch c = epoch_of fs));
      [done|done|done|by intros _ s h _ _ ?%elem_of_nil|]. intros w a. apply law_epoch. }
  intros [c|e].
  - apply r_ret. intros s _ [HPs Hc]. split; [done|]. intros x [= <-]. by apply Hc.
  - assert (ends (λ s, P s ∧ ∀ a : FilesystemCapabilities, (Err e : result ClientError _) = Ok a →
      answer_true T (λ _ _, False) (opened_on (world s) fs) Capabilities a ∧
      FilesystemCapabilities.server_epoch a = epoch_of fs)
      (mret None : PM RS network ClientError (option Z)) mine (λ e s, P s ∧ ∀ x, e = Some x → x = epoch_of fs)) as Hnone.
    { apply r_ret. intros s _ [HPs _]. by split. }
    destruct e as [| [] | | | | | | |]; try exact Hnone; apply r_err; intros s [HPs _]; auto.
Qed.

Lemma install_ends failed fs :
  ends (λ s, holding failed s ∧ ∀ e, server_epoch s = Some e → epoch_of fs = e) (install failed fs) mine
    (λ slot s, slot_ok slot s ∧ mine s).
Proof.
  unfold install. set (slot := ConnectionSlot.Mk _ fs). set (Post := λ s : RS, slot_ok slot s ∧ mine s).
  assert (enduring Post) as HPost.
  { apply enduring_and; [apply lasting_enduring, slot_ok_lasting|apply mine_enduring]. }
  apply r_bind with (λ _, Post).
  { apply r_step; [intros _; apply HPost|]. intros s x s' Hs [[Hm Hg] He] [= <- <-]. destruct Hs as [Hw Hsl Hh Hep Hu].
    assert (resilient_ok (with_connection slot s)) as Hs'.
    { assert (history s `prefix_of` history (with_connection slot s)) as Hpre by (by eexists).
      split; simpl; try done.
      - intros Hfew. destruct (Hsl (few_prefix s _ Hpre Hfew)) as [Hgen _]. unfold few in Hfew. simpl in Hfew.
        rewrite zlen_app, zlen_cons, zlen_nil in *. rewrite <- Hg, Hgen, last_snoc. unfold u64_saturating_add. split; [lia|done].
      - intros h hs Hl. destruct (Hh h hs Hl) as [[Ho Hat] Hk]. split; [|done]. split; [done|]. intros Hfew.
        destruct Hat as (conn & Hat & Hoc); [by eapply few_prefix|]. exists conn.
        split; [by eapply at_generation_prefix|done].
      - intros e Ee. apply Forall_app. split; [by apply Hep|]. repeat constructor. by apply He. }
    split; [done|]. split.
    - split; simpl; try done; [by eexists|]. intros h hs Hl. right. by exists hs.
    - split; [|done]. by apply (current_slot_ok (with_connection slot s)). }
  intros _. eapply r_bind; [apply r_alike; [exact HPost|]; by intros s x s' [= <- <-]|].
  intros ?. eapply r_bind; [apply r_alike; [exact HPost|]; by intros s x s' [= <- <-]|].
  intros ?. by apply r_ret.
Qed.

Lemma attempts_ends left failed backoff :
  ends (holding failed) (connect_attempts clock policy left failed backoff) mine (λ slot s, slot_ok slot s ∧ mine s).
Proof.
  revert backoff. induction left as [|left IH]; intros backoff; cbn [connect_attempts].
  { apply r_err. by intros s [? _]. }
  eapply r_bind; [apply r_connect, holding_enduring|]. intros [fs|e].
  - eapply r_bind; [apply epoch_ends; [apply holding_enduring|by intros s [? _]]|]. intros epoch.
    eapply r_bind.
    { apply (r_gets _ _ _ (λ known s, holding failed s ∧ (∀ x, epoch = Some x → x = epoch_of fs) ∧ server_epoch s = known)).
      - intros known. apply enduring_and; [apply holding_enduring|]. apply lasting_enduring, persistent_and; [apply persistent_pure|].
        intros i s s' _ _ Hch <-. apply Hch.
      - intros s _ [Hh He]. done. }
    intros known. destruct (_ && _) eqn:E.
    { apply r_err. by intros s ([? _] & _). }
    eapply r_weaken; [apply install_ends| |done]. intros s _ (Hh & He & Ek). split; [done|].
    intros e Ee. rewrite <- Ek, Ee in E. bool_simpl. destruct E as [E|E]; bool_simpl; [by destruct E|]. symmetry. by apply He.
  - destruct left as [|left].
    + eapply r_bind; [apply r_alike; [apply holding_enduring|]; by intros s x s' [= <- <-]|]. intros ?.
      apply r_err. by intros s [? _].
    + eapply r_bind; [apply r_sleep, holding_enduring|]. intros ?. apply IH.
Qed.

Lemma reconnect_locked_ends failed :
  ends mine (reconnect_locked clock policy failed) mine (λ slot s, slot_ok slot s ∧ mine s).
Proof.
  unfold reconnect_locked.
  set (K := λ (current : ConnectionSlot) (s : RS), holding (ConnectionSlot.generation current) s ∧ slot_ok current s).
  assert (∀ current, enduring (K current)) as HK.
  { intros current. apply enduring_and; [apply holding_enduring|]. apply lasting_enduring, slot_ok_lasting. }
  eapply r_bind; [apply (r_gets _ _ _ K); [intros c; apply HK|]|].
  { intros s Hs Hm. split; [by split|by apply current_slot_ok]. }
  intros current. eapply r_bind; [apply r_gets with (R := λ _, K current); [intros _; apply HK|done]|]. intros flag.
  destruct (_ || _) eqn:E.
  { apply r_ret. by intros s _ [[? _] ?]. }
  bool_simpl. eapply r_bind.
  { apply r_alike; [apply HK|]. intros s x s'. destruct (last_failure s) as [[g at_]|] eqn:El; [destruct (g =? failed)|];
      intros [= <- <-]; by split_and!. }
  intros [|].
  - apply r_err. by intros s [[? _] _].
  - eapply r_weaken; [apply attempts_ends| |done]. intros s _ [Hh _]. by subst.
Qed.

Lemma reconnect_tells failed : tells (λ _, True) (reconnect_after clock policy failed) slot_ok.
Proof.
  unfold reconnect_after. eapply r_bind; [apply lock_reconnect_tells|]. intros ?.
  eapply r_bind; [eapply r_try, reconnect_locked_ends|]. intros r.
  set (F := λ s : RS, match r with Ok slot => slot_ok slot s | Err _ => True end).
  assert (lasting F) as HF by (unfold F; destruct r; [apply slot_ok_lasting|done]).
  apply r_bind with (λ _, F).
  { eapply r_weaken; [by apply (unlock_reconnect_ends F)| |done]. intros s _ Hr. unfold F. destruct r; [done|by split]. }
  intros ?. apply r_lift; [done|]. intros slot s Er _ Hs. unfold F in Hs. by subst r.
Qed.

Lemma healthy_tells : tells (λ _, True) (healthy_connection clock policy) slot_ok.
Proof.
  unfold healthy_connection. eapply r_bind.
  { apply (r_gets _ _ _ slot_ok); [intros slot; apply persistent_stable, slot_ok_lasting|]. intros s Hs _. by apply current_slot_ok. }
  intros current. eapply r_bind.
  { apply r_gets with (R := λ _, slot_ok current); [intros _; apply persistent_stable, slot_ok_lasting|done]. }
  intros flag. destruct (_ =? _); [|by apply r_ret].
  eapply r_weaken; [apply reconnect_tells|done|done].
Qed.

Lemma mark_ends (P : RS → Prop) g E : lasting P → ends P (mark_failed g) E (λ _, P).
Proof. intros HP. apply r_alike; [by apply lasting_enduring|]. by intros s x s' [= <- <-]. Qed.

(** With what is known. *)
Lemma r_true {A} (F : RS → Prop) (p : PM RS network ClientError A) R :
  lasting F → tells (λ _, True) p R → tells F p (λ a s, F s ∧ R a s).
Proof. intros HF Hp. apply r_keep; [done|]. by eapply r_weaken. Qed.

Lemma healthy_knows (F : RS → Prop) : lasting F → tells F (healthy_connection clock policy) (λ slot s, F s ∧ slot_ok slot s).
Proof. intros HF. apply r_true, healthy_tells. done. Qed.

Lemma reconnect_knows (F : RS → Prop) failed :
  lasting F → tells F (reconnect_after clock policy failed) (λ slot s, F s ∧ slot_ok slot s).
Proof. intros HF. apply r_true, reconnect_tells. done. Qed.

(** * Calls without handles *)

(** The answer says nothing about handles. *)
Abbreviation plain_answer c conn a := (λ s, answer_true T (λ _ _, False) (opened_on (world s) conn) c a).

Lemma plain_lasting {A} (c : remote_call A) conn a : lasting (plain_answer c conn a).
Proof. intros i s s' _ _ Hch. apply answer_true_mono. intros h n. apply Hch. Qed.

Lemma safe_call_tells {A} (c : remote_call A) :
  call_ok T c → request_handles c = [] →
  tells (λ _, True) (safe_call clock policy c) (λ a s, ∃ conn, plain_answer c conn a s).
Proof.
  intros Hok Hno. unfold safe_call. eapply r_bind; [apply healthy_tells|]. intros first.
  eapply r_bind; [apply r_request_plain; [done|apply lasting_enduring, slot_ok_lasting|done]|]. intros r.
  assert (∀ conn (r : result ClientError A) (F : RS → Prop), tells (λ s, F s ∧ ∀ a, r = Ok a → plain_answer c conn a s) (pm_lift r)
    (λ a s, ∃ conn, plain_answer c conn a s)) as Hend.
  { intros conn r' F. apply r_lift; [done|]. intros a s Ea _ [_ Ha]. exists conn. by apply Ha. }
  destruct r as [a|[]]; try apply Hend.
  apply (r_pre (λ _, True)); [|done].
  eapply r_bind; [by apply mark_ends|]. intros ?. eapply r_bind; [apply reconnect_tells|]. intros replacement.
  eapply r_bind; [apply r_request_plain; [done|apply lasting_enduring, slot_ok_lasting|done]|]. intros r.
  set (F := λ s, slot_ok replacement s ∧ ∀ a, r = Ok a → plain_answer c (ConnectionSlot.filesystem replacement) a s).
  assert (lasting F) as HF.
  { apply persistent_and; [apply slot_ok_lasting|]. intros i s s' Hs Hs' Hch Ha x Ex. exact (plain_lasting c _ x i s s' Hs Hs' Hch (Ha x Ex)). }
  eapply r_bind; [|intros ?; apply Hend].
  destruct r as [x|[]]; try (by apply r_ret). by apply mark_ends.
Qed.

Lemma mutation_call_tells {A} (P : RS → Prop) (c : remote_call A) :
  lasting P → call_ok T c → (∀ s, P s → strict = false ∨ request_handles c = []) →
  tells P (mutation_call clock policy c) (λ a s, ∃ conn, plain_answer c conn a s).
Proof.
  intros HP Hok Hno. unfold mutation_call. eapply r_bind; [by apply healthy_knows|]. intros slot.
  eapply r_bind.
  { apply (r_request _ _ c (λ _ _, False)); [done|apply lasting_enduring, persistent_and; [done|apply slot_ok_lasting]|done|].
    intros Hst s h [HPs _] _ Hh. destruct (Hno s HPs) as [->|Hno']; [done|]. rewrite Hno' in Hh. by apply elem_of_nil in Hh. }
  intros r. assert (tells (λ s, (P s ∧ slot_ok slot s) ∧ ∀ a, r = Ok a → plain_answer c (ConnectionSlot.filesystem slot) a s)
    (pm_lift r) (λ a s, ∃ conn, plain_answer c conn a s)) as Hend.
  { apply r_lift; [done|]. intros a s Ea _ [_ Ha]. eexists. by apply Ha. }
  destruct r as [a|[]]; try exact Hend.
  apply (r_pre (λ _, True)); [|done].
  eapply r_bind; [by apply mark_ends|]. intros ?. by apply r_err.
Qed.

(** * Handles *)

Lemma open_remote_tells node options :
  tells (λ _, True) (open_remote clock policy node options) (λ so s, slot_ok so.1 s ∧
    opened_on (world s) (ConnectionSlot.filesystem so.1) (OpenedFile.handle so.2) node ∧ is_u64 (OpenedFile.size so.2)).
Proof.
  unfold open_remote. eapply r_bind; [apply healthy_tells|]. intros slot.
  eapply r_bind; [apply r_request_plain; [done|apply lasting_enduring, slot_ok_lasting|done]|]. intros [o|e].
  { apply r_ret. intros s _ [Hs Ha]. split; [done|]. by apply Ha. }
  apply (r_pre (λ _, True)); [|done]. destruct e; try by apply r_err.
  destruct (negb _).
  - eapply r_bind; [by apply mark_ends|]. intros ?. eapply r_bind; [apply reconnect_tells|]. intros replacement.
    eapply r_bind; [apply r_request_plain; [done|apply lasting_enduring, slot_ok_lasting|done]|]. intros r.
    eapply r_bind.
    { apply (r_lift _ r _ (λ o s, slot_ok replacement s ∧
        opened_on (world s) (ConnectionSlot.filesystem replacement) (OpenedFile.handle o) node ∧ is_u64 (OpenedFile.size o))); [done|].
      intros o s Er _ [Hs Ha]. split; [done|]. by apply Ha. }
    intros o. by apply r_ret.
  - eapply r_bind; [by apply mark_ends|]. intros ?. by apply r_err.
Qed.

Lemma new_handle_ok s h n slot options opened :
  slot_ok slot s → opened_on (world s) (ConnectionSlot.filesystem slot) (OpenedFile.handle opened) n →
  h = OpenedFile.handle opened →
  handle_ok (HandleState.Mk n options h (OpenedFile.revision opened) (OpenedFile.size opened)
    (ConnectionSlot.generation slot) []) s.
Proof. intros Hs Ho ->. split; [by eexists|]. intros Hfew. eexists. split; [by apply Hs|done]. Qed.

Lemma remember_open_tells node options slot opened :
  tells (λ s, slot_ok slot s ∧ opened_on (world s) (ConnectionSlot.filesystem slot) (OpenedFile.handle opened) node)
    (remember_open new_v4 node options slot opened)
    (λ o s, logical_node (OpenedFile.handle o) node s ∧ OpenedFile.size o = OpenedFile.size opened).
Proof.
  unfold remember_open. eapply r_bind; [|intros logical; by apply (r_ret (λ s, logical_node logical node s))].
  apply r_step; [intros x; by apply persistent_stable, logical_node_lasting|].
  intros s x s' Hs [Hslot Ho]. destruct (handles_owner s); [done|]. intros [= <- <-].
  set (hs := HandleState.Mk _ _ _ _ _ _ _).
  assert (handle_ok hs s) as Hok by (by eapply new_handle_ok).
  pose proof Hs as [Hw Hsl Hh He Hu]. split_and!.
  - split; simpl; try done; [|lia]. intros h hs' [[<- <-]|[_ Hl]]%lookup_insert_Some.
    + split; [done|]. exists (uuids s). split; [lia|done].
    + destruct (Hh h hs' Hl) as [? (k & ? & ->)]. split; [done|]. exists k. split; [lia|done].
  - split; simpl; try done; [lia|]. intros h hs' [[<- <-]|[_ Hl]]%lookup_insert_Some; [left|right; by exists hs'].
    by exists (uuids s).
  - split; simpl.
    + exists (uuids s). split; [lia|done].
    + intros hs'. rewrite lookup_insert_eq. by intros [= <-].
Qed.

(** A change of one handle that leaves its file alone. *)
Lemma alter_ok P logical f s :
  resilient_ok s → P s →
  (∀ hs, HandleState.node (f hs) = HandleState.node hs) →
  (∀ hs s, P s → handles s !! logical = Some hs → handle_ok hs s → handle_ok (f hs) s) →
  resilient_ok (alter_handle logical f s).2 ∧ calm s (alter_handle logical f s).2.
Proof.
  intros [Hw Hsl Hh He Hu] HP Hnode Hf. split.
  - split; simpl; try done. intros h hs Hl.
    apply lookup_alter_Some in Hl as [(-> & hs0 & Hl & ->)|[_ Hl]]; [|by apply Hh].
    destruct (Hh h hs0 Hl) as [Hok Hk]. split; [by apply (Hf hs0 s)|done].
  - split; [|done]. split; simpl; try done. intros h hs Hl. right.
    apply lookup_alter_Some in Hl as [(-> & hs0 & Hl & ->)|[_ Hl]]; [exists hs0|exists hs]; split; [done| |done|done].
    by rewrite Hnode.
Qed.

Lemma alter_ends P logical f E (b : bool) :
  enduring P → (∀ hs, HandleState.node (f hs) = HandleState.node hs) →
  (∀ hs s, P s → handles s !! logical = Some hs → handle_ok hs s → handle_ok (f hs) s) →
  ends P (if b then on_handles (alter_handle logical f) else pm_update (alter_handle logical f)) E (λ _, P).
Proof.
  intros [Hst HP] Hnode Hf. destruct b; (apply r_step; [done|]); intros s x s' Hs HPs; simpl.
  - destruct (handles_owner s); [done|]. intros [= <- <-].
    destruct (alter_ok P logical f s Hs HPs Hnode Hf) as [Hs' Hcalm]. split_and!; [done|apply Hcalm|by apply (HP s)].
  - intros [= <- <-].
    destruct (alter_ok P logical f s Hs HPs Hnode Hf) as [Hs' Hcalm]. split_and!; [done|apply Hcalm|by apply (HP s)].
Qed.

(** Changes that keep the remote handle. *)
Lemma version_ends P logical f E :
  lasting P → (∀ hs, HandleState.node (f hs) = HandleState.node hs ∧ HandleState.remote (f hs) = HandleState.remote hs ∧
    HandleState.generation (f hs) = HandleState.generation hs) →
  ends P (on_handles (alter_handle logical f)) E (λ _, P) ∧ ends P (pm_update (alter_handle logical f)) E (λ _, P).
Proof.
  intros HP Hf.
  assert (∀ hs s, P s → handles s !! logical = Some hs → handle_ok hs s → handle_ok (f hs) s) as Hok.
  { intros hs s _ _. unfold handle_ok. by destruct (Hf hs) as (-> & -> & ->). }
  split; [apply (alter_ends P logical f E true)|apply (alter_ends P logical f E false)]; try done;
    try (by apply lasting_enduring); intros hs; by destruct (Hf hs).
Qed.

(** ** Finding a handle *)

(** The nodes of the logical handles that the caller knows. *)
Context (starts : FileHandle → NodeId → Prop).

Definition begun (s : RS) : Prop := ∀ h n, starts h n → logical_node h n s.

Lemma begun_lasting : lasting begun.
Proof. intros i s s' Hs Hs' Hch Hb h n Hn. eapply (logical_node_lasting h n i s s'); eauto. Qed.

(** The state of a logical handle. *)
Definition found (logical : FileHandle) (hs : HandleState) (s : RS) : Prop :=
  handle_ok hs s ∧ logical_node logical (HandleState.node hs) s ∧ ∀ n, starts logical n → HandleState.node hs = n.

Lemma found_lasting logical hs : lasting (found logical hs).
Proof.
  apply persistent_and; [apply opened_at_lasting|]. apply persistent_and; [apply logical_node_lasting|apply persistent_pure].
Qed.

Lemma lookup_found s logical hs : resilient_ok s → begun s → handles s !! logical = Some hs → found logical hs s.
Proof.
  intros Hs Hb Hl. destruct (ro_handles s Hs logical hs Hl) as [Hok Hk]. split_and!; [done| |].
  - split; [done|]. intros hs' Hl'. congruence.
  - intros n Hn. by apply (Hb logical n Hn).
Qed.

(** A handle with its connection. *)
Definition on_slot (logical : FileHandle) (sh : ConnectionSlot * HandleState) (s : RS) : Prop :=
  slot_ok sh.1 s ∧ found logical sh.2 s ∧ HandleState.generation sh.2 = ConnectionSlot.generation sh.1.

Lemma on_slot_lasting logical sh : lasting (on_slot logical sh).
Proof.
  apply persistent_and; [apply slot_ok_lasting|]. apply persistent_and; [apply found_lasting|apply persistent_pure].
Qed.

(** The connection of the slot opened the remote handle. *)
Lemma on_slot_opened logical sh s :
  on_slot logical sh s → few s →
  opened_on (world s) (ConnectionSlot.filesystem sh.1) (HandleState.remote sh.2) (HandleState.node sh.2).
Proof. intros (Hs & [Hf _] & Hg). by apply (same_connection s sh.1 _ _ _ Hs Hf Hg). Qed.

Lemma replay_ends (P : RS → Prop) conn remote n locks :
  enduring P → (∀ s, P s → opened_on (world s) conn remote n) →
  tells P (replay_locks conn remote locks) (λ _, P).
Proof.
  intros HP Ho. induction locks as [|lock locks IH]; cbn [replay_locks]; [by apply r_ret|].
  eapply r_bind.
  { apply (r_request P conn (SetLock remote lock false) (λ _ _, False)); [done|done|done|].
    intros _ s h Hs _ ->%list_elem_of_singleton. exists n. by apply Ho. }
  intros r. eapply r_bind; [apply (r_lift _ r _ (λ _, P)); [done|by intros a s _ _ [? _]]|]. intros ?. apply IH.
Qed.

(** What is known while a handle is reopened on the current connection. *)
Definition reopening (logical : FileHandle) (slot : ConnectionSlot) (h : FileHandle) (hs : HandleState) (s : RS) : Prop :=
  (slot_ok slot s ∧ opened_on (world s) (ConnectionSlot.filesystem slot) h (HandleState.node hs)) ∧
  found logical hs s.

Lemma reopening_lasting logical slot h hs : lasting (reopening logical slot h hs).
Proof.
  apply persistent_and; [apply persistent_and; [apply slot_ok_lasting|apply opened_on_lasting]|apply found_lasting].
Qed.

Lemma accept_tells logical slot reopened hs :
  tells (reopening logical slot (OpenedFile.handle reopened) hs)
    (accept_revision logical (ConnectionSlot.filesystem slot) reopened hs)
    (λ hs' s, reopening logical slot (OpenedFile.handle reopened) hs' s).
Proof.
  pose proof (reopening_lasting logical slot (OpenedFile.handle reopened) hs) as HL.
  unfold accept_revision. destruct (_ =? _); [by apply r_ret|]. destruct (_ && _).
  - eapply r_bind; [by apply (version_ends _ logical (set_revision (OpenedFile.revision reopened)))|]. intros ?.
    apply r_ret. intros s _ [Hs [Ho Hn]]. split; [done|]. split; [exact Ho|exact Hn].
  - eapply r_bind.
    { apply (r_request _ _ (CloseFile (OpenedFile.handle reopened)) (λ _ _, False)); [done|by apply lasting_enduring|done|].
      intros _ s h [[_ Ho] _] _ ->%list_elem_of_singleton. by eexists. }
    intros ?. by apply r_err.
Qed.

Lemma reopen_tells logical : tells begun (reopen_locked clock policy logical) (on_slot logical).
Proof.
  unfold reopen_locked. eapply r_bind.
  { apply (r_gets _ _ _ (λ o s, ∀ hs, o = Some hs → found logical hs s)).
    - intros o. apply persistent_stable. intros i s s' Hs Hs' Hch Ho hs E.
      eapply (found_lasting logical hs i s s'); eauto.
    - intros s Hs Hb hs E. by apply lookup_found. }
  intros o. eapply r_bind.
  { apply (r_lift _ _ _ (found logical)); [done|]. intros hs s E _ Ho. apply Ho. by destruct o; simplify_eq/=. }
  intros hs. eapply r_bind; [apply healthy_knows, found_lasting|]. intros slot.
  destruct (_ =? _) eqn:E; bool_simpl.
  { apply r_ret. by intros s _ [Hf Hs]. }
  eapply r_bind.
  { apply r_request_plain; [done| |done]. apply lasting_enduring, persistent_and; [apply found_lasting|apply slot_ok_lasting]. }
  intros r. eapply r_bind.
  { apply (r_lift _ r _ (λ reopened, reopening logical slot (OpenedFile.handle reopened) hs)); [done|].
    intros reopened s Er _ [[Hf Hs] Ha]. destruct (Ha _ Er) as [Ho _]. done. }
  intros reopened. eapply r_bind; [apply accept_tells|]. intros hs'.
  pose proof (reopening_lasting logical slot (OpenedFile.handle reopened) hs') as HL.
  eapply r_bind.
  { apply (replay_ends _ _ _ (HandleState.node hs')); [by apply lasting_enduring|]. by intros s [[_ Ho] _]. }
  intros ?. set (update := set_remote _ _ _).
  eapply r_bind.
  { apply (alter_ends _ logical update _ false); [by apply lasting_enduring|done|].
    intros hs0 s [[Hs Ho] (_ & [_ Hn] & _)] Hl _. split; [eexists; by rewrite <- (Hn hs0 Hl) in Ho|]. intros Hfew. eexists.
    split; [by apply Hs|]. by rewrite <- (Hn hs0 Hl) in Ho. }
  intros ?. apply r_ret. intros s _ [[Hs Ho] (_ & Hn)]. split_and!; [done| |done]. split; [|exact Hn].
  split; [by eexists|]. intros Hfew. eexists. by split; [apply Hs|].
Qed.
(** A step that only takes or gives back another lock. *)
Ltac lock_step := apply r_alike; [|intros s x s'; repeat case_match; try done; intros [= <- <-]; by split_and!].

Lemma remote_handle_tells logical : tells begun (remote_handle clock policy logical) (on_slot logical).
Proof.
  unfold remote_handle. eapply r_bind; [apply healthy_knows, begun_lasting|]. intros slot.
  set (K := λ o s, (begun s ∧ slot_ok slot s) ∧ ∀ hs, o = Some hs → found logical hs s).
  assert (∀ o, lasting (K o)) as HK.
  { intros o. apply persistent_and; [apply persistent_and; [apply begun_lasting|apply slot_ok_lasting]|].
    intros i s s' Hs Hs' Hch Ho hs E. eapply (found_lasting logical hs i s s'); eauto. }
  eapply r_bind.
  { apply (r_step _ _ _ K); [intros o; by apply persistent_stable|]. intros s x s' Hs [Hb Hsl].
    destruct (handles_owner s); [done|]. intros [= <- <-]. destruct (alike_ok s s) as [? ?]; [by split_and!|done|].
    split_and!; [done|done|]. split; [done|]. intros hs E. by apply lookup_found. }
  intros o. eapply r_bind.
  { apply (r_lift _ _ _ (λ hs s, (begun s ∧ slot_ok slot s) ∧ found logical hs s)); [done|].
    intros hs s E _ [Hb Ho]. split; [done|]. apply Ho. by destruct o; simplify_eq/=. }
  intros hs. destruct (_ =? _) eqn:E; bool_simpl.
  { apply r_ret. by intros s _ [[_ Hs] Hf]. }
  apply (r_pre begun); [|by intros s _ [[? _] _]].
  apply r_bind with (λ _, begun); [lock_step; apply lasting_enduring, begun_lasting|]. intros ?.
  eapply r_bind; [eapply r_try, reopen_tells|]. intros r.
  set (F := λ s : RS, match r with Ok sh => on_slot logical sh s | Err _ => True end).
  assert (lasting F) as HF by (unfold F; destruct r; [apply on_slot_lasting|done]).
  apply r_bind with (λ _, F).
  { apply (r_pre F); [lock_step; by apply lasting_enduring|]. intros s _ Hr. unfold F. by destruct r. }
  intros ?. apply r_lift; [done|]. intros sh s Er _ Hs. unfold F in Hs. by subst r.
Qed.

Lemma remote_handle_knows (F : RS → Prop) logical :
  lasting F → (∀ s, F s → begun s) → tells F (remote_handle clock policy logical) (λ sh s, F s ∧ on_slot logical sh s).
Proof. intros HF Hb. apply r_keep; [done|]. eapply r_pre; [apply remote_handle_tells|]. auto. Qed.
(** * Operations *)

(** The answer of the layer, for the nodes that the caller knows. *)
Abbreviation tells_true c p := (tells begun p (λ a s, answer_true T starts (λ h n, logical_node h n s) c a)).

Lemma mono_true {A} (c : remote_call A) known conn s a :
  (∀ h n, starts h n → known h n) → match c with OpenFileWithOptions _ _ | CreateFile _ _ _ _ => False | _ => True end →
  answer_true T known (opened_on (world s) conn) c a → answer_true T starts (λ h n, logical_node h n s) c a.
Proof. intros Hk Hc. destruct c; simpl; naive_solver. Qed.

(** An operation on one handle, whose answer is about the handle's file. *)
Record on_file {A} (operation : FileHandle → remote_call A) : Prop := {
  of_handles : ∀ h, request_handles (operation h) = [h];
  of_ok : ∀ h, call_ok T (operation h);
  of_carries : ∀ (known : FileHandle → NodeId → Prop) after after' h h' a,
    (∀ n, starts h' n → known h n) → answer_true T known after (operation h) a →
    answer_true T starts after' (operation h') a
}.

(** A request on the connection that opened the handle. *)
Lemma on_slot_request {A} (F : RS → Prop) logical (sh : ConnectionSlot * HandleState) (operation : FileHandle → remote_call A) :
  lasting F → on_file operation →
  tells (λ s, F s ∧ on_slot logical sh s)
    (pm_ask (Request (ConnectionSlot.filesystem sh.1) (operation (HandleState.remote sh.2))))
    (λ r s, (F s ∧ on_slot logical sh s) ∧
       ∀ a, r = Ok a → ∀ after, answer_true T starts after (operation logical) a).
Proof.
  intros HF Hop. eapply r_weaken.
  { apply (r_request _ _ _ (λ h n, h = HandleState.remote sh.2 ∧ n = HandleState.node sh.2) _ (of_ok _ Hop _)).
    - apply lasting_enduring, persistent_and; [done|apply on_slot_lasting].
    - intros s h n [_ (_ & [[Ho _] _] & _)] [-> ->]. done.
    - intros _ s h [_ Hs] Hfew. rewrite (of_handles _ Hop). intros ->%list_elem_of_singleton.
      eexists. by apply (on_slot_opened logical). }
  { done. }
  intros r s _ [[HFs Hs] Ha]. split; [done|]. intros a Ea after. eapply (of_carries _ Hop); [|by apply (Ha a)].
  intros n Hn. destruct Hs as (_ & (_ & _ & Hf) & _). split; [done|]. symmetry. by apply Hf.
Qed.

Lemma open_file_tells node options :
  tells_true (OpenFileWithOptions node options) (open_file_with_options new_v4 clock policy node options).
Proof.
  unfold open_file_with_options. apply (r_pre (λ _, True)); [|done].
  eapply r_bind; [apply open_remote_tells|]. intros [slot opened]; simpl.
  eapply r_weaken; [apply (r_keep (λ s, (slot_ok slot s ∧
    opened_on (world s) (ConnectionSlot.filesystem slot) (OpenedFile.handle opened) node) ∧ is_u64 (OpenedFile.size opened)))| |].
  - apply persistent_and; [apply persistent_and; [apply slot_ok_lasting|apply opened_on_lasting]|apply persistent_pure].
  - eapply r_pre; [apply remember_open_tells|]. by intros s _ [? _].
  - by intros s _ (? & ? & ?).
  - intros o s _ ([_ Hsz] & Hn & E). by rewrite E.
Qed.
Lemma create_file_tells parent name mode options :
  tells_true (CreateFile parent name mode options) (create_file new_v4 clock policy parent name mode options).
Proof.
  unfold create_file. apply (r_pre (λ _, True)); [|done].
  eapply r_bind; [apply healthy_tells|]. intros slot.
  eapply r_bind; [apply r_request_plain; [done|apply lasting_enduring, slot_ok_lasting|done]|]. intros [f|e].
  - set (n := Metadata.node (CreatedFile.metadata f)). set (o := CreatedFile.opened f).
    set (F := λ s, (slot_ok slot s ∧ opened_on (world s) (ConnectionSlot.filesystem slot) (OpenedFile.handle o) n) ∧
      Truth.metadata T (CreatedFile.metadata f) ∧ is_u64 (OpenedFile.size o)).
    apply (r_pre F); [|intros s _ [Hs Ha]; by destruct (Ha f eq_refl) as (? & ? & ?)].
    apply (r_seq F) with (R := λ o' s, logical_node (OpenedFile.handle o') n s ∧ OpenedFile.size o' = OpenedFile.size o).
    + apply persistent_and; [apply persistent_and; [apply slot_ok_lasting|apply opened_on_lasting]|apply persistent_pure].
    + eapply r_pre; [apply remember_open_tells|]. by intros s _ [? _].
    + intros o'. apply r_ret. intros s _ ((_ & Hm & Hsz) & Hn & E). simpl. by rewrite E.
  - apply (r_pre (λ _, True)); [|done]. destruct e; try by apply r_err.
    eapply r_bind; [by apply mark_ends|]. intros ?. by apply r_err.
Qed.

Lemma once_tells {A} (F : RS → Prop) logical (sh : ConnectionSlot * HandleState) (operation : FileHandle → remote_call A) :
  lasting F → on_file operation →
  tells (λ s, F s ∧ on_slot logical sh s) (once sh.1 (operation (HandleState.remote sh.2)))
    (λ r s, (F s ∧ on_slot logical sh s) ∧ ∀ a, r = Ok a → ∀ after, answer_true T starts after (operation logical) a).
Proof.
  intros HF Hop. eapply r_bind; [by apply on_slot_request|]. intros r.
  assert (lasting (λ s, F s ∧ on_slot logical sh s)) as HFs by (apply persistent_and; [done|apply on_slot_lasting]).
  destruct r as [a|[]]; try by apply r_ret.
  apply (r_pre (λ s, F s ∧ on_slot logical sh s)); [|by intros s _ [? _]].
  eapply r_bind; [by apply mark_ends|]. intros ?. by apply r_ret.
Qed.
Lemma read_on_file offset length : is_u64 offset → is_u64 length → on_file (λ h, ReadRangeVersioned h offset length).
Proof. intros ? ?. split; [done|done|]. intros known after after' h h' a Hk [Hl Hd]. split; [done|]. auto. Qed.

(** The revision that was read is remembered. *)
Lemma adopt_tells (F : RS → Prop) logical revision (b : bool) E :
  lasting F → ends F (if b then mret tt else adopt_revision logical revision) E (λ _, F).
Proof.
  intros HF. destruct b; [by apply r_ret|]. apply version_ends; [done|]. intros hs. by destruct (_ >? _).
Qed.

Lemma read_range_tells logical offset length :
  strict = false → is_u64 offset → is_u64 length →
  tells_true (ReadRangeVersioned logical offset length) (read_range_versioned clock policy logical offset length).
Proof.
  intros Hst Ho Hl. pose proof (read_on_file offset length Ho Hl) as Hop.
  unfold read_range_versioned. eapply r_bind; [apply (remote_handle_knows begun); [apply begun_lasting|done]|].
  intros [slot state]. eapply r_bind.
  { apply (on_slot_request begun logical (slot, state) (λ h, ReadRangeVersioned h offset length)); [apply begun_lasting|done]. }
  intros [read|e]; cbv beta iota.
  - apply (r_pre (λ _, ∀ after, answer_true T starts after (ReadRangeVersioned logical offset length) read)); [|by intros s _ [_ Ha] after; apply Ha].
    eapply r_bind; [apply adopt_tells, persistent_pure|]. intros ?. apply r_ret. auto.
  - apply (r_pre begun); [|by intros s _ [[? _] _]]. destruct e; try by apply r_err.
    eapply r_bind; [apply mark_ends, begun_lasting|]. intros ?.
    eapply r_bind; [apply remote_handle_tells|]. intros [slot' reopened].
    eapply r_bind; [apply healthy_knows, on_slot_lasting|]. intros replacement.
    eapply r_bind.
    { apply (r_request _ _ _ (λ h n, h = HandleState.remote reopened ∧ n = HandleState.node reopened)); [done| | |by rewrite Hst].
      - apply lasting_enduring, persistent_and; [apply on_slot_lasting|apply slot_ok_lasting].
      - intros s h n [(_ & [[Hopen _] _] & _) _] [-> ->]. done. }
    intros r. eapply r_bind.
    { apply (r_lift _ r _ (λ read _, ∀ after, answer_true T starts after (ReadRangeVersioned logical offset length) read)); [done|].
      intros read s -> _ [[(_ & (_ & _ & Hf) & _) _] Ha] after. eapply (of_carries _ Hop); [|by apply (Ha read)].
      intros n Hn. split; [done|]. symmetry. by apply Hf. }
    intros read. eapply r_bind; [apply adopt_tells, persistent_pure|]. intros ?. apply r_ret. auto.
Qed.
(** What was answered is known to the end, past the release of the lock. *)
Abbreviation known_answer r c := (λ s : RS, ∀ a, r = Ok a → ∀ after, answer_true T starts after c a).

Lemma known_lasting {A} (r : result ClientError A) (c : remote_call A) : lasting (known_answer r c).
Proof. exact (persistent_pure _ _ _). Qed.

Lemma known_lift {A} (r : result ClientError A) (c : remote_call A) :
  tells (known_answer r c) (pm_lift r) (λ a s, answer_true T starts (λ h n, logical_node h n s) c a).
Proof. apply r_lift; [done|]. intros a s Ea _ Ha. by apply Ha. Qed.

Lemma unlock_mutation_ends (F : RS → Prop) logical E : lasting F → ends F (unlock_mutation logical) E (λ _, F).
Proof. intros HF. lock_step. by apply lasting_enduring. Qed.

Lemma lock_mutation_ends (F : RS → Prop) logical E : lasting F → ends F (lock_mutation logical) E (λ _, F).
Proof. intros HF. lock_step. by apply lasting_enduring. Qed.

Lemma written_ends (F : RS → Prop) logical remote g w E : lasting F → ends F (update_written_handle logical remote g w) E (λ _, F).
Proof. intros HF. apply version_ends; [done|]. intros hs. by destruct (_ && _). Qed.

Lemma write_call_tells logical (operation : FileHandle → remote_call WriteResult) :
  on_file operation → tells_true (operation logical) (write_call clock policy logical operation).
Proof.
  intros Hop. unfold write_call. eapply r_bind; [apply remote_handle_tells|]. intros [slot state].
  eapply r_bind; [apply lock_mutation_ends, on_slot_lasting|]. intros ?.
  eapply r_bind; [eapply r_pre; [apply (once_tells (λ _, True) logical (slot, state) operation); [done|done]|by intros s _ ?]|]. intros r.
  apply (r_pre (known_answer r (operation logical))); [|by intros s _ [_ Ha]].
  apply r_bind with (λ _, known_answer r (operation logical)).
  { destruct r as [w|e]; [apply written_ends, known_lasting|by apply r_ret]. }
  intros ?. eapply r_bind; [apply unlock_mutation_ends, known_lasting|]. intros ?. apply known_lift.
Qed.

Lemma sync_call_tells logical (operation : FileHandle → remote_call unit) :
  on_file operation → tells_true (operation logical) (sync_call clock policy logical operation).
Proof.
  intros Hop. unfold sync_call. eapply r_bind; [apply remote_handle_tells|]. intros [slot state].
  eapply r_bind; [apply lock_mutation_ends, on_slot_lasting|]. intros ?.
  eapply r_bind; [eapply r_pre; [apply (once_tells (λ _, True) logical (slot, state) operation); [done|done]|by intros s _ ?]|]. intros r.
  apply (r_pre (known_answer r (operation logical))); [|by intros s _ [_ Ha]].
  eapply r_bind; [apply unlock_mutation_ends, known_lasting|]. intros ?. apply known_lift.
Qed.
(** A retry goes to whatever connection is current by then. *)
Lemma retry_call_tells {A} logical (operation : FileHandle → remote_call A) :
  strict = false → on_file operation → tells_true (operation logical) (retry_call clock policy logical operation).
Proof.
  intros Hst Hop. unfold retry_call. eapply r_bind; [apply (remote_handle_knows begun); [apply begun_lasting|done]|].
  intros [slot state]. eapply r_bind; [apply (on_slot_request begun logical (slot, state)); [apply begun_lasting|done]|].
  intros r. cbv beta iota.
  assert (tells (λ s, (begun s ∧ on_slot logical (slot, state) s) ∧ known_answer r (operation logical) s) (pm_lift r)
    (λ a s, answer_true T starts (λ h n, logical_node h n s) (operation logical) a)) as Hend.
  { eapply r_pre; [apply known_lift|]. by intros s _ [_ Ha]. }
  destruct r as [a|[]]; try exact Hend.
  apply (r_pre begun); [|by intros s _ [[? _] _]]. clear Hend.
  eapply r_bind; [apply mark_ends, begun_lasting|]. intros ?.
  eapply r_bind; [apply remote_handle_tells|]. intros [slot' reopened].
  eapply r_bind; [apply healthy_knows, on_slot_lasting|]. intros replacement.
  eapply r_bind.
  { apply (r_request _ _ _ (λ h n, h = HandleState.remote reopened ∧ n = HandleState.node reopened) _ (of_ok _ Hop _)); [| |by rewrite Hst].
    - apply lasting_enduring, persistent_and; [apply on_slot_lasting|apply slot_ok_lasting].
    - intros s h n [(_ & [[Hopen _] _] & _) _] [-> ->]. done. }
  intros r. eapply r_pre; [apply known_lift|].
  intros s _ [[(_ & (_ & _ & Hf) & _) _] Ha] x Ex after. eapply (of_carries _ Hop); [|by apply (Ha x)].
  intros n Hn. split; [done|]. symmetry. by apply Hf.
Qed.

Lemma set_lock_tells logical lock wait :
  tells_true (SetLock logical lock wait) (set_lock clock policy logical lock wait).
Proof.
  assert (on_file (λ h, SetLock h lock wait)) as Hop by by split.
  unfold set_lock. eapply r_bind; [apply remote_handle_tells|]. intros [slot state].
  eapply r_bind.
  { eapply r_pre; [apply (once_tells (λ _, True) logical (slot, state) (λ h, SetLock h lock wait)); [done|done]|by intros s _ ?]. }
  intros r. apply (r_pre (known_answer r (SetLock logical lock wait))); [|by intros s _ [_ Ha]].
  apply r_bind with (λ _, known_answer r (SetLock logical lock wait)).
  { destruct r as [w|e]; [|by apply r_ret]. apply version_ends; [apply known_lasting|]. intros hs. unfold record_lock. by destruct (_ && _). }
  intros ?. apply known_lift.
Qed.

Lemma close_file_tells logical : tells_true (CloseFile logical) (close_file logical).
Proof.
  unfold close_file. apply r_bind with (λ _, begun).
  { apply r_alike; [apply lasting_enduring, begun_lasting|]. intros s x s'. destruct (handles_owner s); [done|].
    intros [= <- <-]. by split_and!. }
  intros o. eapply r_bind; [apply (r_lift _ _ _ (λ _, begun)); [done|by intros]|]. intros ?.
  eapply r_bind; [apply lock_mutation_ends, begun_lasting|]. intros ?.
  eapply r_bind.
  { apply (r_step _ _ _ (λ o s, ∀ hs, o = Some hs → found logical hs s)).
    - intros x. apply persistent_stable. intros i s s' Hs Hs' Hch Hf hs E. eapply (found_lasting logical hs i s s'); eauto.
    - intros s x s' Hs Hb. destruct (handles_owner s); [done|]. intros [= <- <-].
      assert (resilient_ok (with_handles (delete logical (handles s)) (uuids s) s) ∧
        changes me s (with_handles (delete logical (handles s)) (uuids s) s)) as [Hs' Hch].
      { destruct Hs as [Hw Hsl Hh He Hu]. split; split; simpl; try done.
        - intros h hs [_ Hl]%lookup_delete_Some. by apply Hh.
        - intros h hs [_ Hl]%lookup_delete_Some. right. by exists hs. }
      split_and!; [done|done|]. intros hs E.
      apply (found_lasting logical hs me s); [done|done|done|]. by apply lookup_found. }
  intros o'. apply r_bind with (λ _ _, True); [|intros r; eapply r_bind; [by apply unlock_mutation_ends|]; intros ?; by apply r_lift].
  destruct o' as [hs|]; [|by apply r_ret].
  eapply r_bind.
  { apply (r_gets _ _ _ (λ slot s, found logical hs s ∧ slot_ok slot s)).
    - intros slot. apply persistent_stable, persistent_and; [apply found_lasting|apply slot_ok_lasting].
    - intros s Hs Hf. split; [by apply Hf|by apply current_slot_ok]. }
  intros slot. destruct (negb _) eqn:E; [by apply r_ret|]. bool_simpl.
  eapply r_bind.
  { eapply r_pre; [apply (on_slot_request (λ _, True) logical (slot, hs) CloseFile); [done|by split]|].
    intros s _ [Hf Hs]. by split_and!. }
  intros r. apply (r_pre (λ _, True)); [|done]. destruct r as [?|[]]; try by apply r_ret.
  eapply r_bind; [by apply mark_ends|]. intros ?. by apply r_ret.
Qed.
Lemma copy_file_range_tells input input_offset output output_offset length :
  tells_true (CopyFileRange input input_offset output output_offset length)
    (copy_file_range clock policy input input_offset output output_offset length).
Proof.
  unfold copy_file_range. eapply r_bind; [apply (remote_handle_knows begun); [apply begun_lasting|done]|].
  intros [slot from]. eapply r_bind.
  { apply (remote_handle_knows (λ s, begun s ∧ on_slot input (slot, from) s)).
    - apply persistent_and; [apply begun_lasting|apply on_slot_lasting].
    - by intros s [? _]. }
  intros [slot' to]. cbn [fst snd]. destruct (negb _) eqn:E; [by apply r_err|]. bool_simpl.
  set (F := λ s, on_slot input (slot, from) s ∧ on_slot output (slot', to) s).
  assert (lasting F) as HF by (apply persistent_and; apply on_slot_lasting).
  apply (r_pre F); [|by intros s _ [[_ ?] ?]].
  eapply r_bind; [by apply lock_mutation_ends|]. intros ?.
  set (c := CopyFileRange input input_offset output output_offset length).
  eapply r_bind.
  { apply (r_request F _ _ (λ _ _, False)); [done|by apply lasting_enduring|done|].
    intros _ s h [Hi Ho] Hfew [->| ->%list_elem_of_singleton]%elem_of_cons; eexists.
    - by apply (on_slot_opened input (slot, from)).
    - destruct Ho as (_ & [Ho _] & Hg). apply (same_connection s slot (HandleState.generation to)); [apply Hi|done| |done].
      simpl in Hg. by rewrite Hg. }
  intros r. apply (r_pre (known_answer r c)); [|intros s _ [_ Ha] w Ew after; exact (Ha w Ew)].
  apply r_bind with (λ r, known_answer r c).
  { destruct r as [w|[]]; try by apply r_ret.
    - eapply r_bind; [apply written_ends, known_lasting|]. intros ?. by apply r_ret.
    - eapply r_bind; [apply mark_ends, known_lasting|]. intros ?. by apply r_ret. }
  intros r'. eapply r_bind; [apply unlock_mutation_ends, known_lasting|]. intros ?. apply known_lift.
Qed.

Lemma attributes_tells node logical attributes :
  strict = false ∨ logical = None →
  tells_true (SetAttributes node logical attributes) (set_attributes clock policy node logical attributes).
Proof.
  intros Hst. unfold set_attributes. apply r_bind with (λ mapped _, strict = false ∨ mapped = None).
  { destruct logical as [l|]; [|apply r_ret; by right]. destruct Hst as [Hst|]; [|done].
    eapply r_bind; [apply remote_handle_tells|]. intros [slot state]. apply r_ret. by left. }
  intros mapped. set (F := λ _ : RS, strict = false ∨ mapped = None).
  assert (lasting F) as HF by exact (persistent_pure _ _ _).
  apply r_bind with (λ _, F). { destruct logical; [by apply lock_mutation_ends|by apply r_ret]. }
  intros ?. set (c := SetAttributes node logical attributes).
  apply r_bind with (λ r, known_answer r c).
  { eapply r_weaken; [eapply r_try, (mutation_call_tells F (SetAttributes node mapped attributes))|done|]; [done|done| |].
    - intros s [?| ->]; [by left|by right].
    - intros r s _ Hr x -> after. by destruct Hr as [conn Hm]. }
  intros r. apply r_bind with (λ _, known_answer r c).
  { destruct r as [m|e], logical as [l|]; try by apply r_ret. apply version_ends; [apply known_lasting|]. by intros hs. }
  intros ?. apply r_bind with (λ _, known_answer r c).
  { destruct logical; [apply unlock_mutation_ends, known_lasting|by apply r_ret]. }
  intros ?. apply known_lift.
Qed.
(** * The layer *)

(** The requests of these calls that name a handle are bound to the connection
    that gave the handle out; the others are repeated on the connection of the
    moment, or sent to it in the first place. *)
Definition bound_call {A} (c : remote_call A) : bool :=
  match c with
  | SetAttributes _ (Some _) _ | ReadRangeVersioned _ _ _ | SeekFile _ _ _ | SafeIoctlCall _ _ | GetLock _ _ => false
  | _ => true
  end.

Lemma simple_call_tells {A} (c : remote_call A) (p : PM RS network ClientError A) :
  match c with OpenFileWithOptions _ _ | CreateFile _ _ _ _ => False | _ => True end →
  tells (λ _, True) p (λ a s, ∃ conn, answer_true T (λ _ _, False) (opened_on (world s) conn) c a) →
  request_handles c = [] → tells_true c p.
Proof.
  intros Hc Hp Hno. eapply r_weaken; [exact Hp|done|]. intros a s _ [conn Ha].
  destruct c; simpl in *; try done; destruct h; naive_solver.
Qed.

Lemma resilient_call_tells {A} (c : remote_call A) :
  call_ok T c → (strict = true → bound_call c = true) → tells_true c (resilient_call new_v4 clock policy c).
Proof.
  intros Hok Hst.
  assert (bound_call c = false → strict = false) as Hloose by (destruct strict; [|done]; rewrite Hst; done).
  destruct c; cbn [resilient_call namespace_call storage_call special_call];
    lazymatch goal with
    | |- ends _ (safe_call _ _ _) _ _ => apply simple_call_tells; [done|by apply safe_call_tells|done]
    | |- ends _ (mutation_call _ _ _) _ _ =>
        apply simple_call_tells; [done|apply mutation_call_tells; [done|done|by right]|done]
    | _ => idtac
    end.
  - apply open_file_tells.
  - apply create_file_tells.
  - apply attributes_tells. destruct handle; [left; by apply Hloose|by right].
  - apply read_range_tells; [by apply Hloose|apply Hok|apply Hok].
  - apply (write_call_tells handle (λ i, WriteRange i offset data)). by split.
  - apply (sync_call_tells handle (λ i, FlushFile i lock_owner)). by split.
  - apply (sync_call_tells handle (λ i, SyncFile i data_only)). by split.
  - apply (write_call_tells handle (λ i, AllocateFile i offset length)). by split.
  - apply copy_file_range_tells.
  - apply (retry_call_tells handle (λ i, SeekFile i offset whence)); [by apply Hloose|by split].
  - apply (retry_call_tells handle (λ i, SafeIoctlCall i operation)); [by apply Hloose|by split].
  - apply (retry_call_tells handle (λ i, GetLock i lock)); [by apply Hloose|by split].
  - apply set_lock_tells.
  - apply close_file_tells.
Qed.
End facts.
