(* ===== verification/ResilientPool.v ===== *)
(** Operations of the resilient client at the same time: what they answer and
    where their requests go, in every interleaving. *)

From S2P Require Import Prelude Protocol Common CacheRanges FsCache ViewStream Remote Tasks Deadlock Resilient ResilientLocks ResilientFacts.

(** A call of the layer, and its outcome. *)
Inductive call :=
  | Call {A : Type} (c : remote_call A).

Inductive reply :=
  | Reply {A : Type} (c : remote_call A) (r : result ClientError A).

(** The request that a task is about to make. *)
Inductive asked :=
  | Asked {A : Type} (conn : Conn) (c : remote_call A).

Definition pending {S B} (p : prog S network B) : option asked :=
  match p with
  | External e _ => match e with Request conn c => Some (Asked conn c) | _ => None end
  | _ => None
  end.

Section tasks.
Context {W : Type} `{NW : Network W}.
Context (new_v4 : Z → FileHandle) (clock : Z → Z) (policy : ReconnectPolicy).

(** The task of a call. *)
Definition task (x : call) : prog (Resilient W) network reply :=
  match x with Call c => prog_bind (resilient_call new_v4 clock policy c) (λ r, Ret (Reply c r)) end.

Definition unlocked (s : Resilient W) : Prop := ∀ l, Lock.owner l s = None.

Lemma task_orderly me x : orderly Lock.owner Lock.level me [] (task x) (λ _, []).
Proof.
  destruct x as [A c]. eapply orderly_bind; [apply (resilient_call_orders new_v4 clock policy me c)|]. by intros [a|e].
Qed.

Lemma tasks_disciplined calls s : unlocked s → disciplined Lock.owner Lock.level (s, map task calls).
Proof.
  intros Hs. split; simpl.
  - intros i p Hp. apply list_lookup_fmap_Some in Hp as (x & -> & Hx). exists []. split; [apply task_orderly|].
    split; [constructor|]. intros l. rewrite Hs, elem_of_nil. naive_solver.
  - intros l i. by rewrite Hs.
Qed.

(** C16: Operations of the resilient client at the same time never deadlock and all
    finish: from a client whose locks are free every execution, in whatever
    order the steps are taken and whatever the network answers, is finite; until
    all operations are finished one of them can step; and then no lock is held. *)
Theorem operations_finish calls s :
  unlocked s →
  sn (pool_step outside) (s, map task calls) ∧
  ∀ c', rtc (pool_step outside) (s, map task calls) c' →
    (∃ c'', pool_step outside c' c'') ∨ (Forall finished c'.2 ∧ unlocked c'.1).
Proof.
  intros Hs. pose proof (tasks_disciplined calls s Hs) as Hd. split; [apply pool_sn|]. intros c' Hsteps.
  pose proof (disciplined_steps outside Lock.owner Lock.level outside_owner _ _ Hd Hsteps) as Hd'.
  destruct (decide (Forall finished c'.2)) as [Hf|Hf].
  - right. split; [done|]. intros l. destruct (Lock.owner l c'.1) as [i|] eqn:Ei; [|done].
    destruct Hd' as [Hps Hin]. destruct (Hin l i Ei) as [p Hp]. destruct (Hps i p Hp) as (held & Hord & _ & Ho).
    rewrite Forall_lookup in Hf. destruct (Hf i p Hp) as [a ->]. simpl in Hord. subst.
    apply Ho, elem_of_nil in Ei. done.
  - left. apply not_Forall_Exists, Exists_exists in Hf as (p & [i Hp]%list_elem_of_lookup & Hp'); [|apply _].
    by destruct (disciplined_progress outside Lock.owner Lock.level 2 Lock.level_top c' i p Hd' Hp).
Qed.
End tasks.

Section pool.
Context {W : Type} `{NL : NetworkLaws W}.
Context (new_v4 : Z → FileHandle) (clock : Z → Z) (policy : ReconnectPolicy).

(** A new client. *)
Lemma new_ok T w initial s w' :
  facts_ok T → world_true T w → new policy w initial = (Ok s, w') →
  resilient_ok new_v4 T s ∧ unlocked s ∧ handles s = ∅ ∧ world s = w'.
Proof.
  intros Hfacts Hw. unfold new. destruct (_ =? _)%nat; [done|].
  pose proof (law_request T _ initial Capabilities w Hfacts I Hw) as [Hw' _].
  pose proof (law_epoch initial w) as Hepoch.
  destruct (request initial Capabilities w) as [r w1]. simpl in *.
  assert (∀ epoch, (∀ e, epoch = Some e → epoch_of initial = e) →
    resilient_ok new_v4 T (MkResilient w1 (ConnectionSlot.Mk 1 initial) None None 0 epoch ∅ None ∅ 0 0 [initial])) as Hok.
  { intros epoch He. split; simpl; try done. intros e Ee. repeat constructor. by apply He. }
  destruct r as [c|[| [] | | | | | | |]]; try done; intros [= <- <-]; (split_and!; [apply Hok|by intros []|done|done]).
  - intros e [= <-]. symmetry. by apply Hepoch.
  - done.
Qed.

Context (new_v4_inj : ∀ j k, 0 ≤ j → 0 ≤ k → new_v4 j = new_v4 k → j = k).
Context (T : Truth) (facts : facts_ok T).
Context (starts : FileHandle → NodeId → Prop).

Abbreviation task := (task new_v4 clock policy).
Abbreviation ok := (resilient_ok new_v4 T).
Abbreviation node_of := (logical_node new_v4).

Definition strict_of (x : call) : bool := match x with Call c => bound_call c end.
Definition ok_of (x : call) : Prop := match x with Call c => call_ok T c end.

(** What the outcome of the call says at the end. *)
Definition outcome (x : call) (y : reply) (s : Resilient W) : Prop :=
  match y with
  | Reply c r => x = Call c ∧ ∀ a, r = Ok a → answer_true T starts (λ h n, node_of h n s) c a
  end.

Lemma task_safe me x :
  ok_of x → safe outside ok (changes new_v4) me (asks (strict_of x)) (begun new_v4 starts) (task x) (outcome x).
Proof.
  destruct x as [A c]. intros Hok. eapply safe_bind.
  - by apply (resilient_call_tells new_v4 new_v4_inj clock policy T facts me (bound_call c) starts c Hok).
  - intros r s _ Hr. split; [done|]. intros a ->. exact Hr.
Qed.

Lemma tasks_safe calls s :
  ok s → begun new_v4 starts s → Forall ok_of calls →
  pool_safe outside ok (changes new_v4) (λ i, asks (default true (strict_of <$> calls !! i)))
    (λ i y s', ∃ x, calls !! i = Some x ∧ outcome x y s') (s, map task calls).
Proof.
  intros Hs Hb Hcalls. split; [done|]. simpl. intros i p Hp. apply list_lookup_fmap_Some in Hp as (x & -> & Hx).
  exists (begun new_v4 starts). split_and!; [by apply persistent_stable, begun_lasting|done|]. rewrite Hx. simpl.
  eapply safe_weaken; [apply task_safe; by eapply Forall_lookup_1|done|]. intros y s' _ Hy. by exists x.
Qed.

(** C15: Operations of the resilient client at the same time: in every interleaving
    of their steps, whatever connections fail and are replaced meanwhile, the
    invariant holds, and an operation that succeeds has a true answer for the
    handles that were known when they started; a handle that it gives out
    belongs to the node that was opened. *)
Theorem interleaved_answers_true calls s c' :
  ok s → begun new_v4 starts s → Forall ok_of calls → rtc (pool_step outside) (s, map task calls) c' →
  ok c'.1 ∧ ∀ i A (c : remote_call A) a, c'.2 !! i = Some (Ret (Reply c (Ok a))) →
    calls !! i = Some (Call c) ∧ answer_true T starts (λ h n, node_of h n c'.1) c a.
Proof.
  intros Hs Hb Hcalls Hsteps. pose proof (tasks_safe calls s Hs Hb Hcalls) as Hpool.
  eapply pool_steps_safe in Hpool; [|exact Hsteps]. split; [apply Hpool|]. intros i A c a Hi.
  destruct (pool_finished _ _ _ _ _ _ _ _ Hpool Hi) as (x & Hx & -> & Ha). split; [done|]. by apply Ha.
Qed.

(** A request of a write, a flush, a lock, a copy or a close that names a handle
    of the server is only made on the connection that gave the handle out, in
    every interleaving: a reconnection by another operation in the middle does
    not send it elsewhere. *)
Theorem handles_stay_on_their_connection calls s c' i x A conn (c : remote_call A) h :
  ok s → begun new_v4 starts s → Forall ok_of calls → rtc (pool_step outside) (s, map task calls) c' →
  calls !! i = Some x → strict_of x = true → c'.2 !! i ≫= pending = Some (Asked conn c) → few c'.1 →
  h ∈ request_handles c → ∃ n, opened_on (world c'.1) conn h n.
Proof.
  intros Hs Hb Hcalls Hsteps Hx Hst Hi Hfew Hh. pose proof (tasks_safe calls s Hs Hb Hcalls) as Hpool.
  eapply pool_steps_safe in Hpool; [|exact Hsteps].
  destruct (c'.2 !! i) as [[| |X e k]|] eqn:Ei; try done. simpl in Hi. destruct e as [|conn' X c''|]; try done. apply (inj Some) in Hi.
  pose proof (pool_asks _ _ _ _ _ _ _ _ _ _ Hpool Ei) as Hask. simpl in Hask. rewrite Hx in Hask. specialize (Hask Hst Hfew).
  set (P := λ x, match x with Asked conn c => ∀ h, h ∈ request_handles c → ∃ n, opened_on (world c'.1) conn h n end).
  assert (P (Asked conn c)) as HP by (rewrite <- Hi; exact Hask). by apply HP.
Qed.
End pool.
