(* ===== verification/ResilientStack.v ===== *)
(** The resilient client as a layer: a call alone completes, and keeps the
    promise of [RemoteFilesystem], so the cached client can stand on it. *)

From S2P Require Import Prelude Protocol Common CacheRanges FsCache ViewStream Remote Prefetch PrefetchFacts CachedClient CachedFacts Tasks Deadlock Resilient ResilientLocks ResilientFacts ResilientPool.

Section alone.
Context {W : Type} `{NW : Network W}.
Context (new_v4 : Z → FileHandle) (clock : Z → Z) (policy : ReconnectPolicy).

Lemma run_unlocked {A} (c : remote_call A) s :
  unlocked s → ∃ r s', run outside 0 (resilient_call new_v4 clock policy c) s = Some (r, s') ∧ unlocked s'.
Proof.
  intros Hs.
  destruct (run_orderly outside Lock.owner Lock.level outside_owner 0 [] (resilient_call new_v4 clock policy c)
    (λ r, match r with Ok _ => [] | Err _ => [] end) s) as (r & s' & Hrun & [_ Ho] & Hme).
  - apply resilient_call_orders.
  - split; [constructor|]. intros l. rewrite Hs, elem_of_nil. naive_solver.
  - intros l i. by rewrite Hs.
  - exists r, s'. split; [done|]. intros l. destruct (Lock.owner l s') as [i|] eqn:Ei; [|done].
    pose proof (Hme l i Ei) as ->. apply Ho in Ei. destruct r; by apply elem_of_nil in Ei.
Qed.

(** The layer, one call at a time: a call on an unlocked client completes. *)
#[local] Instance resilient_filesystem : RemoteFilesystem (Resilient W) := {|
  perform A c s := match run outside 0 (resilient_call new_v4 clock policy c) s with
                   | Some rs => rs
                   | None => (Err ClientError.Offline, s)
                   end
|}.

Context (NL : NetworkLaws W) (new_v4_inj : ∀ j k, 0 ≤ j → 0 ≤ k → new_v4 j = new_v4 k → j = k).

Lemma alone_true T {A} (c : remote_call A) s r s' :
  facts_ok T → call_ok T c → resilient_ok new_v4 T s →
  run outside 0 (resilient_call new_v4 clock policy c) s = Some (r, s') →
  resilient_ok new_v4 T s' ∧
  (∀ a, r = Ok a → answer_true T (λ h n, logical_node new_v4 h n s) (λ h n, logical_node new_v4 h n s') c a) ∧
  ∀ h n, logical_node new_v4 h n s → logical_node new_v4 h n s'.
Proof.
  intros Hf Hok Hs Hrun. set (starts := λ h n, logical_node new_v4 h n s).
  assert (persistent (resilient_ok new_v4 T) (changes new_v4) (begun new_v4 starts)) as HF by by apply begun_lasting.
  destruct (run_safe outside (resilient_ok new_v4 T) (changes new_v4) 0 _ _ _ _ s r s'
    (safe_frame _ _ _ _ _ _ (begun new_v4 starts) _ _ HF
      (resilient_call_tells new_v4 new_v4_inj clock policy T Hf 0 false starts c Hok ltac:(done))))
    as (Hs' & [Ha Hb] & _); [done|by split; intros h n|done|].
  split_and!; [done| |done]. intros a ->. exact Ha.
Qed.

(** What the layer promises rests on what the connections promise. *)
#[refine] Instance resilient_laws : RemoteLaws (Resilient W) := {|
  remote_true T s := resilient_ok new_v4 T s ∧ unlocked s;
  handle_node s h n := logical_node new_v4 h n s
|}.
Proof.
  all: intros T A c s; simpl.
  - intros Hf Hok [Hs Hu]. destruct (run_unlocked c s Hu) as (r & s' & Hrun & Hu'). rewrite Hrun. simpl.
    destruct (alone_true T c s r s' Hf Hok Hs Hrun) as (? & ? & _). done.
  - intros h n Hf Hok [Hs Hu] Hn. destruct (run_unlocked c s Hu) as (r & s' & Hrun & Hu'). rewrite Hrun. simpl.
    by apply (alone_true T c s r s' Hf Hok Hs Hrun).
Defined.

(** A call of the resilient client alone, when no lock is held, completes and
    gives back its locks, whatever the network does; the invariant still holds,
    a success is a true answer for the handles of before, and these still stand
    for the same nodes. *)
Theorem call_completes T {A} (c : remote_call A) s :
  facts_ok T → call_ok T c → resilient_ok new_v4 T s → unlocked s →
  ∃ r s', run outside 0 (resilient_call new_v4 clock policy c) s = Some (r, s') ∧
    unlocked s' ∧ resilient_ok new_v4 T s' ∧
    (∀ a, r = Ok a → answer_true T (λ h n, logical_node new_v4 h n s) (λ h n, logical_node new_v4 h n s') c a) ∧
    ∀ h n, logical_node new_v4 h n s → logical_node new_v4 h n s'.
Proof.
  intros Hf Hok Hs Hu. destruct (run_unlocked c s Hu) as (r & s' & Hrun & Hu'). exists r, s'.
  split_and!; try done; by apply (alone_true T c s r s' Hf Hok Hs Hrun).
Qed.
End alone.

(** * The stack of the client *)

Section stack.
Context {W C : Type} `{NL : NetworkLaws W} `{CL : FilesystemCacheLaws C}.
Context (new_v4 inner_v4 : Z → FileHandle) (clock elapsed : Z → Z) (map_order : gset RangeKey → list RangeKey).
Context (map_order_perm : ∀ s, map_order s ≡ₚ elements s).
Context (new_v4_inj : ∀ j k, 0 ≤ j → 0 ≤ k → new_v4 j = new_v4 k → j = k).
Context (inner_v4_inj : ∀ j k, 0 ≤ j → 0 ≤ k → inner_v4 j = inner_v4 k → j = k).
Context (reconnect : ReconnectPolicy) (policy : CachePolicy) (policy_good : policy_ok policy).

#[local] Instance stack_filesystem : RemoteFilesystem (Resilient W) := resilient_filesystem inner_v4 clock reconnect.
#[local] Instance stack_laws : RemoteLaws (Resilient W) := resilient_laws inner_v4 clock reconnect NL inner_v4_inj.

(** The cached client over the resilient one: a run, and a call. *)
Definition stack_run (steps : list (ClientStep (R:=Resilient W))) (s : Cached C (Resilient W)) : Cached C (Resilient W) :=
  fold_left (client_step new_v4 elapsed map_order policy) steps s.
Definition stack_call {A} (c : remote_call A) (s : Cached C (Resilient W)) : result ClientError A * Cached C (Resilient W) :=
  cached_perform new_v4 elapsed map_order policy c s.

(** C17: The cached client over the resilient client answers truly: connections that
    fail between the calls and are replaced, speculative reads and refreshes do
    not make it answer metadata, listings or bytes that no connection reported. *)
Theorem client_stack_true T ca w initial r w' s steps {A} (c : remote_call A) a :
  facts_ok T → cache_true T ca → world_true T w → new reconnect w initial = (Ok r, w') →
  cached_new policy ca r = Ok s → Forall (step_ok T) steps → call_ok T c →
  let before := stack_run steps s in
  let after := stack_call c before in
  after.1 = Ok a →
  answer_true T (CachedFacts.logical_node new_v4 before) (CachedFacts.logical_node new_v4 after.2) c a.
Proof.
  intros Hf Hc Hw Hnew Hs Hsteps Hok before after Ha.
  destruct (new_ok inner_v4 reconnect T w initial r w' Hf Hw Hnew) as (Hr & Hu & _ & _).
  by apply (cached_client_true new_v4 new_v4_inj elapsed map_order map_order_perm policy policy_good T ca r s steps).
Qed.
End stack.
