(* ===== verification/ResilientBounds.v ===== *)
(** What the executions of the resilient client's operations ask of the network:
    how often they connect and how long they wait, and how a file is reopened. *)

From S2P Require Import Prelude Protocol Common CacheRanges FsCache ViewStream Remote Tasks Resilient.

(** * Connection attempts *)

(** The connections that an execution asked for, and the time it slept. *)
Definition connects (t : list (sent network)) : Z :=
  list_sum (λ x, match x with Sent e _ => match e with Connect => 1 | _ => 0 end end) t.
Definition slept (t : list (sent network)) : Z :=
  list_sum (λ x, match x with Sent e _ => match e with Sleep d => d | _ => 0 end end) t.

Lemma connects_app t1 t2 : connects (t1 ++ t2) = connects t1 + connects t2.
Proof. unfold connects. induction t1 as [|x t1 IH]; simpl; [done|]. rewrite IH. lia. Qed.
Lemma slept_app t1 t2 : slept (t1 ++ t2) = slept t1 + slept t2.
Proof. unfold slept. induction t1 as [|x t1 IH]; simpl; [done|]. rewrite IH. lia. Qed.

Section bounds.
Context {W : Type} `{NW : Network W}.
Context (new_v4 : Z → FileHandle) (clock : Z → Z) (policy : ReconnectPolicy).
Context (backoffs : 0 ≤ ReconnectPolicy.initial_backoff policy ∧ 0 ≤ ReconnectPolicy.maximum_backoff policy).

Abbreviation M A := (PM (Resilient W) network ClientError A).

Definition longest : Z := Z.max (ReconnectPolicy.initial_backoff policy) (ReconnectPolicy.maximum_backoff policy).

(** At most this many connections and this many pauses. *)
Definition within {A} (p : prog (Resilient W) network A) (n pauses : Z) : Prop :=
  ∀ t a, path p t a → connects t ≤ n ∧ slept t ≤ pauses * longest.

(** At most [k] batches of connection attempts. *)
Definition batches {A} (k : nat) (p : prog (Resilient W) network A) : Prop :=
  within p (Z.of_nat k * Z.of_nat (ReconnectPolicy.attempts policy))
    (Z.of_nat k * Z.max 0 (Z.of_nat (ReconnectPolicy.attempts policy) - 1)).

Lemma longest_nonneg : 0 ≤ longest.
Proof. unfold longest. lia. Qed.

Lemma within_bind {A B} (p : prog (Resilient W) network A) (k : A → prog (Resilient W) network B) n n' m m' :
  within p n m → (∀ a, within (k a) n' m') → within (prog_bind p k) (n + n') (m + m').
Proof.
  intros Hp Hk t b (t1 & t2 & a & -> & H1 & H2)%path_bind. rewrite connects_app, slept_app.
  destruct (Hp t1 a H1), (Hk a t2 b H2). lia.
Qed.

Lemma within_weaken {A} (p : prog (Resilient W) network A) n m n' m' :
  within p n m → n ≤ n' → m ≤ m' → within p n' m'.
Proof. intros Hp Hn Hm t a Ht. destruct (Hp t a Ht). pose proof longest_nonneg. nia. Qed.

Lemma within_ret {A} (a : A) : within (Ret a) 0 0.
Proof. intros t b [-> _]. split; done. Qed.

Lemma within_ask {X} (e : network X) n : match e with Connect => 1 | _ => 0 end ≤ n →
  match e with Sleep d => d | _ => 0 end ≤ 0 → within (pm_ask e : M X) n 0.
Proof. intros Hn Hm t a (x & t' & -> & -> & _). unfold connects, slept. destruct e; simpl in *; lia. Qed.

Lemma within_sleep d : d ≤ longest → within (pm_ask (Sleep d) : M unit) 0 1.
Proof. intros Hd t a (x & t' & -> & -> & _). unfold connects, slept. simpl. lia. Qed.

Lemma within_step {X} (f : nat → Resilient W → option (X * Resilient W)) : within (pm_step f : M X) 0 0.
Proof. intros t a (me & s & x & s' & _ & -> & _). split; done. Qed.

Lemma batches_bind {A B} j k (p : M A) (f : A → M B) :
  batches j p → (∀ a, batches k (f a)) → batches (j + k) (mbind f p).
Proof.
  intros Hp Hf. unfold batches. rewrite Nat2Z.inj_add, !Z.mul_add_distr_r. apply within_bind; [exact Hp|].
  intros [a|e]; [apply Hf|]. eapply within_weaken; [apply within_ret|nia|nia].
Qed.

Lemma batches_0 {A} k (p : prog (Resilient W) network A) : within p 0 0 → batches k p.
Proof. intros Hp. eapply within_weaken; [exact Hp|nia|nia]. Qed.

Lemma batches_next {A B} k (p : M A) (f : A → M B) : batches 0 p → (∀ a, batches k (f a)) → batches k (mbind f p).
Proof. apply (batches_bind 0). Qed.

Lemma batches_try {A} k (p : M A) : batches k p → batches k (pm_try p).
Proof.
  intros Hp. eapply within_weaken; [apply (within_bind _ _ _ 0 _ 0 Hp)|lia|lia]. intros r. apply within_ret.
Qed.

(** Follow the program; the calls that connect are given separately. *)
Ltac batches_step call :=
  lazymatch goal with
  | |- batches _ (mbind _ _) => first [call; lazymatch goal with |- ∀ _, _ => intros ? | _ => idtac end|apply batches_next; [|intros ?]]
  | |- batches _ (mret _) => apply batches_0, within_ret
  | |- batches _ (pm_err _) => apply batches_0, within_ret
  | |- batches _ (pm_lift _) => apply batches_0, within_ret
  | |- batches _ (Ret _) => apply batches_0, within_ret
  | |- batches _ (pm_ask _) => apply batches_0, within_ask; simpl; lia
  | |- batches _ (pm_try _) => apply batches_try
  | |- batches _ (let '(_, _) := ?x in _) => destruct x
  | |- batches _ (if ?b then _ else _) => destruct b
  | |- batches _ (match ?r with _ => _ end) => destruct r
  | |- batches _ _ => apply batches_0, within_step
  end.

Lemma epoch_batches fs : within (capability_epoch fs : M (option Z)) 0 0.
Proof.
  assert (batches 0 (capability_epoch fs : M (option Z))) as H; [|done].
  unfold capability_epoch. repeat batches_step fail.
Qed.

Lemma attempts_within left failed backoff :
  backoff ≤ longest →
  within (connect_attempts clock policy left failed backoff : M ConnectionSlot) (Z.of_nat left) (Z.max 0 (Z.of_nat left - 1)).
Proof.
  revert backoff. induction left as [|left IH]; intros backoff Hb; cbn [connect_attempts]; [apply within_ret|].
  assert (within (connect_attempts clock policy (S left) failed backoff : M ConnectionSlot)
    (1 + Z.of_nat left) (0 + Z.of_nat left)) as H; [|eapply within_weaken; [exact H|lia|lia]].
  eapply within_bind; [by apply (within_ask Connect 1)|].
  assert (∀ m (p : M ConnectionSlot), within p 0 0 → 0 ≤ m → within p m m) as Hfree.
  { intros m p Hp Hm. eapply within_weaken; [exact Hp|lia|lia]. }
  intros [[fs|e]|e].
  - apply Hfree; [|lia]. apply (within_bind _ _ 0 0 0 0); [apply epoch_batches|].
    intros [epoch|e]; [|apply within_ret].
    assert (batches 0 (known ← pm_gets server_epoch; if bool_decide (is_Some known) && negb (bool_decide (epoch = known))
      then pm_err epoch_error else install failed fs : M ConnectionSlot)) as H; [|done].
    unfold install. repeat batches_step fail.
  - destruct left as [|left].
    + apply Hfree; [|lia]. apply (within_bind _ _ 0 0 0 0); [apply within_step|]. intros [?|?]; apply within_ret.
    + eapply within_weaken; [apply (within_bind _ _ 0 (Z.of_nat (S left)) 1 (Z.of_nat left)); [by apply within_sleep|]|lia|lia].
      intros [?|?]; [|eapply within_weaken; [apply within_ret|lia|lia]].
      eapply within_weaken; [apply IH|lia|lia]. unfold longest. destruct (duration_checked_mul _ _); simpl; lia.
  - apply Hfree; [apply within_ret|lia].
Qed.

Lemma reconnect_batches failed : batches 1 (reconnect_after clock policy failed : M ConnectionSlot).
Proof.
  unfold reconnect_after. batches_step fail; [batches_step fail|]. batches_step ltac:(apply (batches_bind 1 0)).
  - apply batches_try. unfold reconnect_locked. repeat batches_step fail.
    eapply within_weaken; [apply attempts_within|lia|lia]. unfold longest. lia.
  - repeat batches_step fail.
Qed.

Lemma healthy_batches : batches 1 (healthy_connection clock policy : M ConnectionSlot).
Proof. unfold healthy_connection. do 2 (batches_step fail; [batches_step fail|]). destruct (_ =? _); [apply reconnect_batches|batches_step fail]. Qed.

Lemma batches_more {A} j k (p : prog (Resilient W) network A) : batches j p → (j ≤ k)%nat → batches k p.
Proof. intros Hp Hk. eapply within_weaken; [exact Hp|nia|nia]. Qed.

Lemma batches_replay conn remote locks : batches 0 (replay_locks conn remote locks : M unit).
Proof. induction locks as [|lock locks IH]; cbn [replay_locks]; repeat batches_step fail. exact IH. Qed.

Ltac one_batch :=
  lazymatch goal with
  | |- batches (S ?k) (mbind _ (healthy_connection _ _)) => apply (batches_bind 1 k); [apply healthy_batches|]
  | |- batches (S ?k) (mbind _ (reconnect_after _ _ _)) => apply (batches_bind 1 k); [apply reconnect_batches|]
  | |- batches _ (mbind _ (replay_locks _ _ _)) => apply batches_next; [apply batches_replay|]
  | |- batches _ (mbind _ (accept_revision _ _ _ _)) => apply batches_next; [unfold accept_revision|]
  | |- batches _ (mbind _ (capability_epoch _)) => apply batches_next; [apply epoch_batches|]
  end.

Lemma reopen_batches logical : batches 1 (reopen_locked clock policy logical : M _).
Proof. unfold reopen_locked. repeat batches_step ltac:(idtac; one_batch). Qed.

Lemma remote_handle_batches logical : batches 2 (remote_handle clock policy logical : M _).
Proof.
  unfold remote_handle. repeat batches_step ltac:(idtac; first [one_batch|lazymatch goal with
    | |- batches _ (mbind _ (pm_try (reopen_locked _ _ _))) => apply (batches_bind 1 0); [apply batches_try, reopen_batches|] end]).
Qed.

Lemma safe_call_batches {A} (c : remote_call A) : batches 2 (safe_call clock policy c : M A).
Proof. unfold safe_call. repeat batches_step ltac:(idtac; one_batch). Qed.

Lemma mutation_call_batches {A} (c : remote_call A) : batches 1 (mutation_call clock policy c : M A).
Proof. unfold mutation_call. repeat batches_step ltac:(idtac; one_batch). Qed.

Lemma open_remote_batches node options : batches 2 (open_remote clock policy node options : M _).
Proof. unfold open_remote. repeat batches_step ltac:(idtac; one_batch). Qed.

Lemma once_batches {A} slot (c : remote_call A) : batches 0 (once slot c : M _).
Proof. unfold once. repeat batches_step fail. Qed.

Ltac some_batches :=
  lazymatch goal with
  | |- batches (S (S ?k)) (mbind _ (remote_handle _ _ _)) => apply (batches_bind 2 k); [apply remote_handle_batches|]
  | |- batches (S (S ?k)) (mbind _ (open_remote _ _ _ _)) => apply (batches_bind 2 k); [apply open_remote_batches|]
  | |- batches (S ?k) (mbind _ (pm_try (mutation_call _ _ _))) =>
      apply (batches_bind 1 k); [apply batches_try, mutation_call_batches|]
  | |- batches _ (mbind _ (once _ _)) => apply batches_next; [apply once_batches|]
  | |- batches _ (mbind _ (remember_open _ _ _ _ _)) => apply batches_next; [unfold remember_open|]
  | _ => one_batch
  end.
Ltac count_batches := repeat first [progress unfold remember_open|batches_step ltac:(idtac; some_batches)].

Lemma set_attributes_batches node logical x : batches 3 (set_attributes clock policy node logical x : M _).
Proof.
  unfold set_attributes. destruct logical as [l|].
  - apply (batches_bind 2 1); [|intros mapped; count_batches].
    apply (batches_bind 2 0); [apply remote_handle_batches|]. intros [slot state]. count_batches.
  - apply (batches_bind 0 3); [|intros mapped]; count_batches.
Qed.

Lemma call_batches {A} (c : remote_call A) : batches 5 (resilient_call new_v4 clock policy c : M A).
Proof.
  destruct c; cbn [resilient_call namespace_call storage_call special_call];
    lazymatch goal with
    | |- batches _ (safe_call _ _ _) => apply (batches_more 2); [apply safe_call_batches|lia]
    | |- batches _ (mutation_call _ _ _) => apply (batches_more 1); [apply mutation_call_batches|lia]
    | |- batches _ (set_attributes _ _ _ _ _) => apply (batches_more 3); [apply set_attributes_batches|lia]
    | |- batches _ (retry_call _ _ _ _) => unfold retry_call; count_batches
    | |- batches _ (write_call _ _ _ _) => unfold write_call; count_batches
    | |- batches _ (sync_call _ _ _ _) => unfold sync_call; count_batches
    | _ => idtac
    end.
  - unfold open_file_with_options. count_batches.
  - unfold create_file. count_batches.
  - unfold read_range_versioned. count_batches.
  - unfold copy_file_range. count_batches.
  - unfold set_lock. count_batches.
  - unfold close_file. count_batches.
Qed.

(** Reconnection is bounded: an operation makes at most five batches of
    connection attempts, and sleeps only between the attempts of a batch, never
    longer than the longest backoff, in every execution, whatever the network
    answers and other operations do meanwhile. *)
Theorem reconnection_bounded {A} (c : remote_call A) t r :
  path (resilient_call (W:=W) new_v4 clock policy c) t r →
  connects t ≤ 5 * Z.of_nat (ReconnectPolicy.attempts policy) ∧
  slept t ≤ 5 * Z.max 0 (Z.of_nat (ReconnectPolicy.attempts policy) - 1) * longest.
Proof. intros Ht. by apply (call_batches c t r). Qed.
End bounds.

(** * Reopening a file *)

(** What is sent to find a working connection. *)
Definition connecting (x : sent network) : Prop :=
  match x with
  | Sent e _ => match e with Request _ c => match c with Capabilities => True | _ => False end | _ => True end
  end.

(** The file is opened again, without truncation, and its locks are set. *)
Definition reopen_request (st : HandleState) : remote_call OpenedFile :=
  OpenFileWithOptions (HandleState.node st)
    (FileOpenOptions.Mk (FileOpenOptions.access (HandleState.options st)) false (FileOpenOptions.append (HandleState.options st))).
Definition reopening_trace (fs : Conn) (st : HandleState) (reopened : OpenedFile) : list (sent network) :=
  Sent (Request fs (reopen_request st)) (Ok reopened) ::
  map (λ l, Sent (Request fs (SetLock (OpenedFile.handle reopened) l false)) (Ok tt)) (HandleState.lock_history st).

Section reopening.
Context {W : Type} `{NW : Network W}.
Context (clock : Z → Z) (policy : ReconnectPolicy).

Abbreviation M A := (PM (Resilient W) network ClientError A).

Definition only_connects {A} (p : prog (Resilient W) network A) : Prop := ∀ t a, path p t a → Forall connecting t.

Lemma oc_bind {A B} (p : M A) (k : A → M B) : only_connects p → (∀ a, only_connects (k a)) → only_connects (mbind k p).
Proof.
  intros Hp Hk t b (t1 & t2 & [a|e] & -> & H1 & H2)%path_bind; apply Forall_app; (split; [by eapply Hp|]); [by eapply Hk|].
  by destruct H2 as [-> _].
Qed.

Lemma oc_ret {A} (a : A) : only_connects (Ret a).
Proof. by intros t b [-> _]. Qed.

Lemma oc_step {X} (f : nat → Resilient W → option (X * Resilient W)) : only_connects (pm_step f : M X).
Proof. by intros t a (me & s & x & s' & _ & -> & _). Qed.

Lemma oc_ask {X} (e : network X) : (∀ x, connecting (Sent e x)) → only_connects (pm_ask e : M X).
Proof. intros He t a (x & t' & -> & -> & _). by repeat constructor. Qed.

Lemma oc_try {A} (p : M A) : only_connects p → only_connects (pm_try p).
Proof. intros Hp t r (t1 & t2 & a & -> & H1 & H2)%path_bind. destruct H2 as [-> _]. rewrite app_nil_r. by eapply Hp. Qed.

Ltac oc_step_tac :=
  lazymatch goal with
  | |- only_connects (mbind _ _) => apply oc_bind; [|intros ?]
  | |- only_connects (mret _) => apply oc_ret
  | |- only_connects (pm_err _) => apply oc_ret
  | |- only_connects (pm_lift _) => apply oc_ret
  | |- only_connects (pm_ask _) => by apply oc_ask
  | |- only_connects (pm_try _) => apply oc_try
  | |- only_connects (if ?b then _ else _) => destruct b
  | |- only_connects (match ?r with _ => _ end) => destruct r
  | |- only_connects (capability_epoch _) => unfold capability_epoch
  | |- only_connects (install _ _) => unfold install
  | |- only_connects (reconnect_locked _ _ _) => unfold reconnect_locked
  | |- only_connects (reconnect_after _ _ _) => unfold reconnect_after
  | |- only_connects (connect_attempts _ _ _ _ _) => idtac
  | |- only_connects _ => apply oc_step
  end.

Lemma attempts_connect left failed backoff : only_connects (connect_attempts clock policy left failed backoff : M ConnectionSlot).
Proof.
  revert backoff. induction left as [|left IH]; intros backoff; cbn [connect_attempts]; repeat first [apply IH|progress oc_step_tac].
Qed.

Lemma healthy_connects : only_connects (healthy_connection clock policy : M ConnectionSlot).
Proof. unfold healthy_connection. repeat first [apply attempts_connect|progress oc_step_tac]. Qed.

Lemma path_mbind_ok {A B} (p : M A) (k : A → M B) t b :
  path (mbind k p) t (Ok b) → ∃ t1 t2 a, t = t1 ++ t2 ∧ path p t1 (Ok a) ∧ path (k a) t2 (Ok b).
Proof.
  intros (t1 & t2 & [a|e] & -> & H1 & H2)%path_bind; [by exists t1, t2, a|]. by destruct H2 as [_ ?].
Qed.

Lemma path_ask {X} (e : network X) t x : path (pm_ask e : M X) t (Ok x) → t = [Sent e x].
Proof. by intros (y & t' & -> & -> & [= ->]). Qed.

Lemma path_step {X} (f : nat → Resilient W → option (X * Resilient W)) t x : path (pm_step f : M X) t (Ok x) → t = [].
Proof. by intros (me & s & y & s' & _ & -> & _). Qed.

Lemma path_lift {A} (r : result ClientError A) t a : path (pm_lift r : M A) t (Ok a) → t = [] ∧ r = Ok a.
Proof. by intros [-> <-]. Qed.

Lemma replay_path fs remote locks t u :
  path (replay_locks fs remote locks : M unit) t (Ok u) →
  t = map (λ l, Sent (Request fs (SetLock remote l false)) (Ok tt)) locks.
Proof.
  revert t. induction locks as [|l locks IH]; intros t; cbn [replay_locks]; [by intros [-> _]|].
  intros (t1 & t2 & r & -> & ->%path_ask & (t3 & t4 & [] & -> & [-> ->]%path_lift & H)%path_mbind_ok)%path_mbind_ok.
  simpl. f_equal. by apply IH.
Qed.

Lemma accept_path logical fs reopened st t st' :
  path (accept_revision logical fs reopened st : M HandleState) t (Ok st') →
  t = [] ∧ HandleState.node st' = HandleState.node st ∧ HandleState.options st' = HandleState.options st ∧
  HandleState.lock_history st' = HandleState.lock_history st.
Proof.
  unfold accept_revision. destruct (_ =? _); [by intros [-> [= ->]]|]. destruct (_ && _).
  - by intros (t1 & t2 & a & -> & ->%path_step & [-> [= ->]])%path_mbind_ok.
  - by intros (t1 & t2 & a & -> & _ & [_ ?])%path_mbind_ok.
Qed.

(** The requests of a lookup that found the handle usable on a connection. *)
Definition found_by (t : list (sent network)) (slot : ConnectionSlot) (st : HandleState) : Prop :=
  HandleState.generation st = ConnectionSlot.generation slot ∧
  ∃ t0, Forall connecting t0 ∧
    (t = t0 ∨ ∃ reopened, t = t0 ++ reopening_trace (ConnectionSlot.filesystem slot) st reopened ∧
       HandleState.remote st = OpenedFile.handle reopened).

Lemma reopen_path logical t slot st :
  path (reopen_locked clock policy logical : M _) t (Ok (slot, st)) → found_by t slot st.
Proof.
  unfold reopen_locked.
  intros (t1 & t2 & o & -> & ->%path_step & (t3 & t4 & st0 & -> & [-> _]%path_lift & Hp)%path_mbind_ok)%path_mbind_ok.
  apply path_mbind_ok in Hp as (t5 & t6 & current & -> & Hconn%healthy_connects & Hp). simpl.
  destruct (_ =? _) eqn:E; bool_simpl.
  { destruct Hp as [-> [= -> ->]]. split; [done|]. exists t5. rewrite app_nil_r. split; [done|by left]. }
  apply path_mbind_ok in Hp as (t7 & t8 & r & -> & ->%path_ask & Hp).
  apply path_mbind_ok in Hp as (t9 & t10 & reopened & -> & [-> ->]%path_lift & Hp).
  apply path_mbind_ok in Hp as (t11 & t12 & st1 & -> & (-> & Hn & Ho & Hl)%accept_path & Hp).
  apply path_mbind_ok in Hp as (t13 & t14 & u & -> & ->%replay_path & Hp).
  apply path_mbind_ok in Hp as (t15 & t16 & u' & -> & ->%path_step & [-> [= -> ->]]).
  split; [done|]. exists t5. split; [done|]. right. exists reopened. split; [|done].
  unfold reopening_trace, reopen_request. simpl. by rewrite app_nil_r, Hn, Ho.
Qed.

(** The operations find a handle on a connection of the handle's generation:
    either without any request but those of reconnecting, or, on a new
    connection, by opening the handle's node again with its access and append
    mode but without truncating, and then setting every lock of its history
    again, in the order they were set, before anything else is sent. *)
Theorem reopening_replays_locks logical t slot st :
  path (remote_handle clock policy logical : M _) t (Ok (slot, st)) → found_by t slot st.
Proof.
  unfold remote_handle. intros (t1 & t2 & slot0 & -> & H1%healthy_connects & Hp)%path_mbind_ok.
  apply path_mbind_ok in Hp as (t3 & t4 & o & -> & ->%path_step & Hp).
  apply path_mbind_ok in Hp as (t5 & t6 & st0 & -> & [-> _]%path_lift & Hp). simpl.
  destruct (_ =? _) eqn:E; bool_simpl.
  { destruct Hp as [-> [= -> ->]]. split; [done|]. exists t1. rewrite app_nil_r. split; [done|by left]. }
  apply path_mbind_ok in Hp as (t7 & t8 & u & -> & ->%path_step & Hp).
  apply path_mbind_ok in Hp as (t9 & t10 & r & -> & Htry & Hp).
  apply path_mbind_ok in Hp as (t11 & t12 & u' & -> & ->%path_step & [-> ->]%path_lift).
  apply path_bind in Htry as (t13 & t14 & r' & -> & Hr & [-> [= <-]]).
  destruct (reopen_path _ _ _ _ Hr) as (Hg & t0 & H0 & Ht). split; [done|]. exists (t1 ++ t0).
  split; [by apply Forall_app|]. simpl. rewrite !app_nil_r.
  destruct Ht as [->|(reopened & -> & Hrem)]; [by left|right]. exists reopened. by rewrite app_assoc.
Qed.
End reopening.
