(* ===== verification/LockReplay.v ===== *)
(** The lock history of the resilient client against the lock table of the
    server: what replaying it restores, and what is forgotten. *)

From S2P Require Import Prelude Protocol Common CacheRanges FsCache Locks ViewStream Remote Tasks Resilient ResilientBounds.

(** The lock that a request for the handle on the connection set, if it is one
    that the server answered with success. *)
Definition lock_granted (filesystem : Conn) (remote : FileHandle) (x : sent network) : option FileLock :=
  match x with
  | Sent e r =>
      match e in network X return X → option FileLock with
      | Request conn call =>
          match call in remote_call A return result ClientError A → option FileLock with
          | SetLock handle lock _ => λ r,
              if bool_decide (conn = filesystem ∧ handle = remote) && is_ok r then Some lock else None
          | _ => λ _, None
          end
      | _ => λ _, None
      end r
  end.

(** The locks that an execution set, in order. *)
Definition locks_granted (filesystem : Conn) (remote : FileHandle) : list (sent network) → list FileLock :=
  omap (lock_granted filesystem remote).

Lemma replay_grants {W} `{Network W} filesystem remote locks sends :
  path (replay_locks filesystem remote locks : PM (Resilient W) network ClientError unit) sends (Ok tt) →
  locks_granted filesystem remote sends = locks.
Proof.
  intros ->%replay_path. induction locks as [|lock locks IH]; [done|].
  unfold locks_granted in *. cbn. by rewrite bool_decide_true, IH.
Qed.

Section replay.
Context (id : FileIdentity).

(** The table changes while a session sets these locks, in order; meanwhile the
    others change what is theirs. *)
Inductive evolves (session : Z) : list FileLock → list LockRecord → list LockRecord → Prop :=
  | evolves_done t : evolves session [] t t
  | evolves_others h t t' t'' :
      lock_inv t' → (∀ owner b, lock_at t' (id, session, owner) b = lock_at t (id, session, owner) b) →
      evolves session h t' t'' → evolves session h t t''
  | evolves_set l h t t' t'' :
      set_lock_attempt t id session l = Updated t' → evolves session h t' t'' → evolves session (l :: h) t t''.

(** What the locks of a session amount to, per owner and byte. *)
Definition lock_effect (h : list FileLock) (f : Z → Z → option (LockKind * Z)) : Z → Z → option (LockKind * Z) :=
  fold_left (λ f l owner b,
    if decide (owner = FileLock.owner l ∧ FileLock.start l ≤ b ≤ FileLock.end_ l)
    then (if decide (FileLock.kind l = LockKind.Unlock) then None else Some (FileLock.kind l, FileLock.pid l))
    else f owner b) h f.

Lemma lock_effect_ext h f g : (∀ owner b, f owner b = g owner b) → ∀ owner b, lock_effect h f owner b = lock_effect h g owner b.
Proof.
  revert f g. induction h as [|l h IH]; intros f g Hfg owner b; [apply Hfg|]. simpl. apply IH.
  intros o c. by destruct (decide _).
Qed.

Lemma set_lock_effect t session l t' :
  lock_inv t → wf_lock l → set_lock_attempt t id session l = Updated t' →
  lock_inv t' ∧ ∀ owner b, lock_at t' (id, session, owner) b = lock_effect [l] (λ o c, lock_at t (id, session, o) c) owner b.
Proof.
  intros Ht Hl Hset. split; [by eapply set_lock_attempt_inv|]. intros owner b. simpl.
  destruct Ht as [Hwf _ Hu _].
  assert (∀ insert, insert = negb (bool_decide (FileLock.kind l = LockKind.Unlock)) → replace_owner_range t id session l insert = Ok t') as Hrep.
  { intros insert ->. unfold set_lock_attempt in Hset. destruct (bool_decide _); simpl in *.
    - by destruct (replace_owner_range t id session l false); simplify_eq.
    - destruct (first_conflict t id session l); [done|]. by destruct (replace_owner_range t id session l true); simplify_eq. }
  assert (negb (bool_decide (FileLock.kind l = LockKind.Unlock)) = true → FileLock.kind l ≠ LockKind.Unlock) as Hk
    by by intros E; bool_simpl.
  rewrite (replace_owner_range_lock_at t id session l _ t' Hwf Hu Hl Hk (Hrep _ eq_refl)).
  unfold abs_set, req_key. destruct (bool_decide (FileLock.kind l = LockKind.Unlock)) eqn:E; bool_simpl;
    repeat case_decide; naive_solver.
Qed.

Lemma evolves_effect session h t t' :
  evolves session h t t' → lock_inv t → Forall wf_lock h →
  ∀ owner b, lock_at t' (id, session, owner) b = lock_effect h (λ o c, lock_at t (id, session, o) c) owner b.
Proof.
  induction 1 as [t|h t t1 t2 Hinv Hsame _ IH|l h t t1 t2 Hset _ IH]; intros Ht Hh owner b; [done| |].
  - rewrite IH by done. by apply lock_effect_ext.
  - apply Forall_cons in Hh as [Hl Hh]. destruct (set_lock_effect t session l t1 Ht Hl Hset) as [Ht1 Heq].
    rewrite IH by done. by apply (lock_effect_ext h).
Qed.

(** The client's history of a handle after these locks were set. *)
Definition recorded (hs : HandleState) (h : list FileLock) : HandleState := fold_left (λ hs l, record_lock l hs) h hs.

Lemma recorded_short hs h :
  zlen (HandleState.lock_history hs) + zlen h ≤ LOCK_HISTORY_LIMIT →
  HandleState.lock_history (recorded hs h) = HandleState.lock_history hs ++ h.
Proof.
  revert hs. induction h as [|l h IH]; intros hs Hlen; [by rewrite app_nil_r|].
  rewrite zlen_cons in Hlen. pose proof (zlen_nonneg h).
  assert (HandleState.lock_history (record_lock l hs) = HandleState.lock_history hs ++ [l]) as E.
  { unfold record_lock. destruct (_ && _) eqn:Eb; [|done]. bool_simpl. rewrite zlen_app, zlen_cons, zlen_nil in *. lia. }
  change (recorded hs (l :: h)) with (recorded (record_lock l hs) h). rewrite IH.
  - by rewrite E, <- app_assoc.
  - rewrite E, zlen_app, zlen_cons, zlen_nil. lia.
Qed.

(** C19: Replaying the history restores the locks.  Take a file whose locks in a
    session all come from one handle and are changed by its lock requests only
    (not by a flush that names a lock owner, which the client does not record),
    and let these requests be at most 4096, the length at which the client may
    clear the history.  When the replay on a new connection succeeds, in any
    execution and whatever other tasks do, and the server sets, in the order of
    the requests it answered with success, the locks they ask for, then every
    owner has exactly the locks in the new session that it had in the old one,
    byte for byte, whatever other sessions did to the table meanwhile. *)
Theorem replay_restores_locks {W} `{Network W} hs locks session session' filesystem remote sends t t' u u' :
  HandleState.lock_history hs = [] → zlen locks ≤ LOCK_HISTORY_LIMIT → Forall wf_lock locks →
  lock_inv t → (∀ owner b, lock_at t (id, session, owner) b = None) → evolves session locks t t' →
  lock_inv u → (∀ owner b, lock_at u (id, session', owner) b = None) →
  path (replay_locks filesystem remote (HandleState.lock_history (recorded hs locks))
        : PM (Resilient W) network ClientError unit) sends (Ok tt) →
  evolves session' (locks_granted filesystem remote sends) u u' →
  ∀ owner b, lock_at u' (id, session', owner) b = lock_at t' (id, session, owner) b.
Proof.
  intros Hnew Hlen Hwf Ht Hnone Hev Hu Hnone' Hpath Hev' owner b.
  apply replay_grants in Hpath as E. rewrite E, recorded_short in Hev' by (by rewrite Hnew).
  rewrite Hnew in Hev'. simpl in Hev'.
  rewrite (evolves_effect _ _ _ _ Hev Ht Hwf), (evolves_effect _ _ _ _ Hev' Hu Hwf). apply lock_effect_ext.
  intros o c. by rewrite Hnone, Hnone'.
Qed.

(** C37: A long history is forgotten too early: when it holds 4096 locks and one more
    unlock succeeds, the client clears it, although the server only cleared the
    range of that unlock and the handle still holds all its other locks; a
    reconnection then replays nothing. *)
Theorem long_history_forgets_locks hs unlock session t t' owner b v :
  LOCK_HISTORY_LIMIT ≤ zlen (HandleState.lock_history hs) → FileLock.kind unlock = LockKind.Unlock → wf_lock unlock →
  lock_inv t → set_lock_attempt t id session unlock = Updated t' →
  lock_at t (id, session, owner) b = Some v → ¬ (owner = FileLock.owner unlock ∧ FileLock.start unlock ≤ b ≤ FileLock.end_ unlock) →
  lock_at t' (id, session, owner) b = Some v ∧ HandleState.lock_history (recorded hs [unlock]) = [].
Proof.
  intros Hlen Hk Hwf Ht Hset Hheld Hout. destruct (set_lock_effect t session unlock t' Ht Hwf Hset) as [_ ->]. simpl.
  rewrite decide_False by done. split; [done|]. unfold recorded, record_lock. simpl. rewrite bool_decide_true by done. simpl.
  rewrite zlen_app, zlen_cons, zlen_nil. destruct (_ >? _) eqn:E; [done|]. bool_simpl. lia.
Qed.
(** The records that a flush with a lock owner removes. *)
Definition released_by_flush (session owner : Z) (record : LockRecord) : bool :=
  (LockRecord.session record =? session) && bool_decide (LockRecord.identity record = id) &&
  (FileLock.owner (LockRecord.lock record) =? owner).

Lemma flush_releases t session owner b :
  lock_at (remove_locks t (released_by_flush session owner)).2 (id, session, owner) b = None.
Proof.
  unfold remove_locks. cbn [snd]. induction t as [|r t IH]; [done|]. cbn [List.filter].
  destruct (negb _) eqn:Er; [|exact IH]. cbn [lock_at]. rewrite decide_False; [exact IH|].
  intros [Hk _]. unfold lock_key in Hk. injection Hk as Hi Hs Ho. unfold released_by_flush in Er.
  rewrite Hi, Hs, Ho, !Z.eqb_refl, bool_decide_true in Er by done. done.
Qed.
End replay.

(** * What a flush does to the histories *)

Section histories.
Context {W : Type} `{NW : Network W}.
Context (clock : Z → Z) (policy : ReconnectPolicy).
Abbreviation RS := (Resilient W).
Abbreviation M A := (PM RS network ClientError A).

(** The lock histories of all handles. *)
Definition histories (s : RS) : gmap FileHandle (list FileLock) := HandleState.lock_history <$> handles s.

(** No step of the task changes them. *)
Fixpoint keeps_histories {A} (p : prog RS network A) : Prop :=
  match p with
  | Ret _ => True
  | Internal f k => (∀ me s x s', f me s = Some (x, s') → histories s' = histories s) ∧ ∀ x, keeps_histories (k x)
  | External _ k => ∀ x, keeps_histories (k x)
  end.

Lemma run_histories {A} me (p : prog RS network A) s a s' :
  keeps_histories p → run outside me p s = Some (a, s') → histories s' = histories s.
Proof.
  revert s. induction p as [b|X f k IH|X e k IH]; intros s; cbn [keeps_histories run].
  - by intros _ [= _ ->].
  - intros [Hf Hk]. destruct (f me s) as [[x s1]|] eqn:E; [|done]. intros Hr.
    rewrite (IH x s1 (Hk x) Hr). by eapply Hf.
  - intros Hk. assert (histories (outside X e s).2 = histories s) as E.
    { destruct e; cbn [outside]; [by destruct (connect _)|by destruct (request _ _ _)|done]. }
    destruct (outside X e s) as [x s1]. intros Hr. by rewrite (IH x s1 (Hk x) Hr).
Qed.

Lemma kh_prog_bind {A B} (p : prog RS network A) (k : A → prog RS network B) :
  keeps_histories p → (∀ a, keeps_histories (k a)) → keeps_histories (prog_bind p k).
Proof. induction p as [a|X f j IH|X e j IH]; cbn; intuition auto. Qed.

Lemma kh_bind {A B} (p : M A) (k : A → M B) :
  keeps_histories p → (∀ a, keeps_histories (k a)) → keeps_histories (mbind k p).
Proof. intros Hp Hk. apply kh_prog_bind; [done|]. intros [a|e]; [apply Hk|done]. Qed.

Lemma kh_try {A} (p : M A) : keeps_histories p → keeps_histories (pm_try p).
Proof. intros Hp. by apply kh_prog_bind. Qed.

Lemma kh_step {X} (f : nat → RS → option (X * RS)) :
  (∀ me s x s', f me s = Some (x, s') → histories s' = histories s) → keeps_histories (pm_step f : M X).
Proof. by intros Hf. Qed.

Lemma kh_update {X} (f : RS → X * RS) :
  (∀ s, histories (f s).2 = histories s) → keeps_histories (pm_update f : M X).
Proof. intros Hf. apply kh_step. intros _ s x s' [= E]. rewrite <- (Hf s). by rewrite E. Qed.

(** A change of a handle that is not one of its history. *)
Lemma alter_histories logical f (s : RS) :
  (∀ h, HandleState.lock_history (f h) = HandleState.lock_history h) →
  histories (alter_handle logical f s).2 = histories s.
Proof.
  intros Hf. unfold histories, alter_handle. cbn. apply map_eq. intros l. rewrite !lookup_fmap.
  destruct (decide (l = logical)) as [->|]; [|by rewrite lookup_alter_ne].
  rewrite lookup_alter_eq. destruct (handles s !! logical) as [h|]; cbn; [by rewrite Hf|done].
Qed.

Ltac kh :=
  lazymatch goal with
  | |- keeps_histories (mbind _ _) => apply kh_bind; [|intros ?]
  | |- keeps_histories (mret _) => done
  | |- keeps_histories (pm_err _) => done
  | |- keeps_histories (pm_lift _) => done
  | |- keeps_histories (pm_ask _) => done
  | |- keeps_histories (pm_try _) => apply kh_try
  | |- keeps_histories (pm_update (alter_handle _ _)) => apply kh_update; intros ?; by apply alter_histories
  | |- keeps_histories (let '(_, _) := ?x in _) => destruct x
  | |- keeps_histories (if ?b then _ else _) => destruct b
  | |- keeps_histories (match ?r with _ => _ end) => destruct r
  | |- keeps_histories (pm_update _) => apply kh_update; intros ?; repeat case_match; done
  | |- keeps_histories (pm_step _) => apply kh_step; intros ????; repeat case_match; by intros [= _ <-]
  end.

Lemma kh_epoch fs : keeps_histories (capability_epoch fs : M (option Z)).
Proof. unfold capability_epoch. repeat kh. Qed.

Lemma kh_attempts left failed backoff : keeps_histories (connect_attempts clock policy left failed backoff : M ConnectionSlot).
Proof.
  revert backoff. induction left as [|left IH]; intros backoff; cbn [connect_attempts];
    repeat first [progress unfold install, pm_gets|apply kh_epoch|kh|apply IH].
Qed.

Lemma kh_healthy : keeps_histories (healthy_connection clock policy : M ConnectionSlot).
Proof.
  unfold healthy_connection, reconnect_after, reconnect_locked, cooling, lock_reconnect, unlock_reconnect, pm_gets.
  repeat first [apply kh_attempts|kh].
Qed.

Lemma kh_replay fs remote locks : keeps_histories (replay_locks fs remote locks : M unit).
Proof. induction locks as [|l locks IH]; cbn [replay_locks]; repeat first [exact IH|kh]. Qed.

Lemma kh_remote_handle logical : keeps_histories (remote_handle clock policy logical : M (ConnectionSlot * HandleState)).
Proof.
  unfold remote_handle, reopen_locked, accept_revision, on_handles, lock_handles, unlock_handles, pm_gets.
  repeat first [apply kh_healthy|apply kh_replay|kh].
Qed.

Lemma kh_sync_call logical operation : keeps_histories (sync_call clock policy logical operation : M unit).
Proof.
  unfold sync_call, once, mark_failed, lock_mutation, unlock_mutation.
  repeat first [apply kh_remote_handle|kh].
Qed.
End histories.

(** Locks that a flush released come back.  When a process closes a file, the
    flush names it as the owner of locks and the server removes all its locks
    on the file; the client leaves them in the history of the handle.  So after
    a reconnection whose replay succeeds, every byte that this owner had locked
    before the flush is locked for it again, although it had none left. *)
Theorem flushed_locks_return {W} `{Network W} clock policy id me logical hs locks s s' hs' session session' owner
    filesystem remote sends t t' u u' :
  HandleState.lock_history hs = [] → zlen locks ≤ LOCK_HISTORY_LIMIT → Forall wf_lock locks →
  lock_inv t → (∀ o b, lock_at t (id, session, o) b = None) → evolves id session locks t t' →
  handles s !! logical = Some (recorded hs locks) →
  run outside me (sync_call clock policy logical (λ h, FlushFile h (Some owner))) s = Some (Ok tt, s') →
  handles s' !! logical = Some hs' →
  lock_inv u → (∀ o b, lock_at u (id, session', o) b = None) →
  path (replay_locks filesystem remote (HandleState.lock_history hs') : PM (Resilient W) network ClientError unit)
    sends (Ok tt) →
  evolves id session' (locks_granted filesystem remote sends) u u' →
  ∀ b, lock_at (remove_locks t' (released_by_flush id session owner)).2 (id, session, owner) b = None ∧
    lock_at u' (id, session', owner) b = lock_at t' (id, session, owner) b.
Proof.
  intros Hnew Hlen Hwf Ht Hnone Hev Hs Hrun Hs' Hu Hnone' Hpath Hev' b.
  split; [apply flush_releases|].
  apply (run_histories _ _ _ _ _ (kh_sync_call clock policy logical _)) in Hrun.
  apply (f_equal (.!! logical)) in Hrun. unfold histories in Hrun.
  rewrite !lookup_fmap, Hs, Hs' in Hrun. injection Hrun as E.
  apply replay_grants in Hpath as Eg. rewrite Eg, E, recorded_short in Hev' by (by rewrite Hnew).
  rewrite Hnew in Hev'. simpl in Hev'.
  rewrite (evolves_effect _ _ _ _ _ Hev Ht Hwf), (evolves_effect _ _ _ _ _ Hev' Hu Hwf). apply lock_effect_ext.
  intros o c. by rewrite Hnone, Hnone'.
Qed.

(** * Examples *)

Definition ex_handle (h : list FileLock) : HandleState :=
  HandleState.Mk (MkNodeId 1) FileOpenOptions.READ_ONLY (MkFileHandle 7) 3 10 1 h.

Lemma ex_locks_wf : Forall wf_lock [ex_write; ex_unlock].
Proof. repeat constructor; simpl; unfold u64_max; lia. Qed.

Lemma ex_evolves session t : set_lock_attempt [] ex_id session ex_write = Updated t →
  ∀ t', set_lock_attempt t ex_id session ex_unlock = Updated t' → evolves ex_id session [ex_write; ex_unlock] [] t'.
Proof. intros H t' H'. eapply evolves_set; [exact H|]. eapply evolves_set; [exact H'|]. constructor. Qed.

(** A network that answers a flush. *)
#[local] Instance ex_network : Network unit := {|
  connect w := (Err ClientError.Offline, w);
  request A _ c w :=
    (match c in remote_call A return result ClientError A with
     | FlushFile _ _ => Ok tt
     | _ => Err ClientError.Offline
     end, w);
  pass_time _ w := w
|}.

Definition ex_replay : list (sent network) :=
  [Sent (Request 2 (SetLock (MkFileHandle 8) ex_write false)) (Ok tt);
   Sent (Request 2 (SetLock (MkFileHandle 8) ex_unlock false)) (Ok tt)].
Definition ex_again : list LockRecord :=
  [LockRecord.Mk ex_id 9 (FileLock.Mk 1 0 9 LockKind.Write 40);
   LockRecord.Mk ex_id 9 (FileLock.Mk 1 21 100 LockKind.Write 40)].
Definition ex_open : Resilient unit :=
  MkResilient tt (ConnectionSlot.Mk 1 2) None None 0 None
    {[ MkFileHandle 5 := recorded (ex_handle []) [ex_write; ex_unlock] ]} None ∅ 0 0 [2].

(** A write lock with a hole, set again on connection 2 in session 9. *)
Lemma replay_restores_locks_witness :
  lock_at ex_again (ex_id, 9, 1) 50 = lock_at ex_split (ex_id, 7, 1) 50.
Proof.
  refine (replay_restores_locks (W:=unit) ex_id (ex_handle []) [ex_write; ex_unlock] 7 9 2 (MkFileHandle 8)
    ex_replay [] ex_split [] ex_again _ _ _ lock_inv_nil _ _ lock_inv_nil _ _ _ 1 50).
  - done.
  - done.
  - apply ex_locks_wf.
  - done.
  - apply (ex_evolves 7 ex_table); [by vm_compute|by vm_compute].
  - done.
  - cbn. do 2 (eexists _, _; split; [reflexivity|]; cbn). done.
  - apply (ex_evolves 9 [LockRecord.Mk ex_id 9 ex_write]); [by vm_compute|by vm_compute].
Defined.

(** The process with owner 1 closes the file and has its lock again. *)
Lemma flushed_locks_return_witness :
  lock_at (remove_locks ex_split (released_by_flush ex_id 7 1)).2 (ex_id, 7, 1) 50 = None ∧
  lock_at ex_again (ex_id, 9, 1) 50 = Some (LockKind.Write, 40).
Proof.
  refine (flushed_locks_return (W:=unit) (λ _, 0) ReconnectPolicy.default ex_id 0 (MkFileHandle 5) (ex_handle [])
    [ex_write; ex_unlock] ex_open ex_open (recorded (ex_handle []) [ex_write; ex_unlock]) 7 9 1 2 (MkFileHandle 8)
    ex_replay [] ex_split [] ex_again _ _ _ lock_inv_nil _ _ _ _ _ lock_inv_nil _ _ _ 50).
  - done.
  - done.
  - apply ex_locks_wf.
  - done.
  - apply (ex_evolves 7 ex_table); [by vm_compute|by vm_compute].
  - done.
  - vm_compute. reflexivity.
  - done.
  - done.
  - cbn. do 2 (eexists _, _; split; [reflexivity|]; cbn). done.
  - apply (ex_evolves 9 [LockRecord.Mk ex_id 9 ex_write]); [by vm_compute|by vm_compute].
Defined.

Lemma long_history_forgets_locks_witness :
  lock_at ex_split (ex_id, 7, 1) 50 = Some (LockKind.Write, 40) ∧
  HandleState.lock_history (recorded (ex_handle (replicate 4096 ex_write)) [ex_unlock]) = [].
Proof.
  refine (long_history_forgets_locks ex_id (ex_handle (replicate 4096 ex_write)) ex_unlock 7 ex_table ex_split 1 50 _ _ _ _ ex_table_inv _ _ _).
  - by vm_compute.
  - done.
  - pose proof ex_locks_wf as H. inversion_clear H as [|? ? _ H']. by inversion_clear H'.
  - by vm_compute.
  - by vm_compute.
  - by intros [_ [_ ?]].
Defined.
