(* ===== verification/ResilientExample.v ===== *)
(** A small network for the resilient client, and runs over it. *)

From S2P Require Import Prelude Protocol Common CacheRanges FsCache Transport ViewStream Remote Prefetch CachedClient CachedExample Tasks Resilient ResilientOnce.

Module ToyNetwork.
(** The server of [CachedExample], the connections that still work, how many were
    made, and how many requests were answered. *)
Record Net := MkNet { server : ToyServer.Server; alive : list Conn; made : Conn; requests : Z }.

Definition capabilities : FilesystemCapabilities :=
  FilesystemCapabilities.Mk 9 true true true true true true true true true true true true true true true true true true
    true true [] 100 100.

Definition closed : ClientError := ClientError.Transport TransportError.Closed.

Definition serve {A} (c : remote_call A) (s : ToyServer.Server) : result ClientError A * ToyServer.Server :=
  match c in remote_call A return result ClientError A * ToyServer.Server with
  | Capabilities => (Ok capabilities, s)
  | SetLock _ _ _ => (Ok tt, s)
  | RemoveNode _ _ _ => (Ok tt, s)
  | CloseFile _ => (Ok tt, s)
  | c => ToyServer.answer c s
  end.

#[global] Instance toy_network : Network Net := {|
  connect w :=
    if ToyServer.online (server w)
    then (Ok (made w + 1), MkNet (server w) (made w + 1 :: alive w) (made w + 1) (requests w))
    else (Err closed, w);
  request A conn c w :=
    if bool_decide (conn ∈ alive w) then
      let '(r, s) := serve c (server w) in (r, MkNet s (alive w) (made w) (requests w + 1))
    else (Err closed, w);
  pass_time _ w := w
|}.

Definition new_v4 (k : Z) : FileHandle := MkFileHandle (200 + k).
Definition policy : ReconnectPolicy := ReconnectPolicy.Mk 2 100 1000.

(** Connected, and the connection is gone. *)
Definition cut_off : Resilient Net :=
  MkResilient (MkNet (ToyServer.MkServer true false) [] 1 0) (ConnectionSlot.Mk 1 1) None None 0 (Some 9) ∅ None ∅ 0 0 [1].

Definition removal : remote_call unit := RemoveNode ROOT_NODE (lit "notes") false.

(** The trace of a call, and its result. *)
Definition trace_of {A} (c : remote_call A) (s : Resilient Net) : list (sent network) * result ClientError A :=
  match trace outside 0 (resilient_call new_v4 (λ _, 0) policy c) s with
  | Some (t, r, _) => (t, r)
  | None => ([], Err ClientError.Offline)
  end.
End ToyNetwork.

(** A removal on a connection that is gone is sent once and ambiguous. *)
Lemma mutations_sent_once_witness :
  (∃ o, mutations [Sent (Request 1 ToyNetwork.removal) (Err ToyNetwork.closed)] = [o] ∧
     failure (Err ClientError.AmbiguousMutation : result ClientError unit) = reported o) ∨
  (mutations [Sent (Request 1 ToyNetwork.removal) (Err ToyNetwork.closed)] = [] ∧
     failure (Err ClientError.AmbiguousMutation : result ClientError unit) ≠ None).
Proof.
  refine (mutations_sent_once (W:=ToyNetwork.Net) ToyNetwork.new_v4 (λ _, 0) ToyNetwork.policy ToyNetwork.removal _ _ _).
  eapply (trace_path outside 0 _ ToyNetwork.cut_off). reflexivity.
Defined.
