(* ===== verification/ResilientRuns.v ===== *)
(** The resilient client over the network of [ResilientExample]: the network
    keeps the promise of [NetworkLaws], and operations run interleaved on it. *)

From S2P Require Import Prelude Protocol Common StateFiles CacheRanges FsCache CacheStore CacheStoreFacts ViewStream Remote Prefetch PrefetchFacts CachedClient CachedFacts CachedExample Tasks Deadlock Resilient ResilientLocks ResilientFacts ResilientPool ResilientStack ResilientBounds ResilientExample.

Module ToyLaws.
Import ToyNetwork.

Definition opened_toy (h : FileHandle) (n : NodeId) : Prop :=
  (h = ToyServer.notes_handle ∧ n = MkNodeId 1) ∨ (h = ToyServer.draft_handle ∧ n = MkNodeId 2).

Lemma serve_true A (c : remote_call A) s a before :
  call_ok ToyServer.facts c → (serve c s).1 = Ok a →
  answer_true ToyServer.facts before opened_toy c a.
Proof.
  intros Hok. destruct c; simpl; try done.
  all: repeat case_bool_decide; subst; simpl; try done.
  all: try (intros [= <-]; simpl; unfold opened_toy; eauto 6).
  - split; [by left|done].
  - destruct (ToyServer.created s); simpl; [done|]. intros [= <-]. simpl. split_and!; [by right; left|by right|done].
  - destruct Hok as [[Ho _] [Hl _]]. unfold u64_saturating_sub.
    rewrite zlen_content_range by lia. split; [lia|]. intros n _. unfold range_content, read_key. simpl.
    by rewrite zlen_content_range by lia.
Qed.

#[refine, global] Instance toy_network_laws : NetworkLaws Net := {|
  world_true T _ := T = ToyServer.facts;
  opened_on _ _ := opened_toy;
  epoch_of _ := 9
|}.
Proof.
  - done.
  - done.
  - intros T A conn c w _ Hok ->. split; [done|]. intros a. unfold request, toy_network.
    destruct (bool_decide _); [|done]. pose proof (serve_true A c (server w) a (λ h n, ∃ other : Conn, opened_toy h n) Hok) as Hs.
    destruct (serve c (server w)) as [r s]. simpl in *. intros ->. by apply Hs.
  - done.
  - done.
  - done.
  - intros conn w c. unfold request, toy_network. destruct (bool_decide _); [|done]. by intros [= <-].
Defined.

Lemma toy_v4_inj j k : 0 ≤ j → 0 ≤ k → new_v4 j = new_v4 k → j = k.
Proof. unfold new_v4. intros _ _ [= E]. lia. Qed.

(** The connection is gone, but the client does not know it yet. *)
Lemma cut_off_ok : resilient_ok new_v4 ToyServer.facts cut_off.
Proof. split; simpl; try done. intros e [= <-]. by repeat constructor. Qed.

Lemma cut_off_unlocked : unlocked cut_off.
Proof. by intros []. Qed.

(** Two operations notice it at the same time. *)
Definition calls : list call :=
  [Call (OpenFileWithOptions (MkNodeId 1) FileOpenOptions.READ_ONLY); Call (GetMetadata ROOT_NODE)].
Definition tasks (l : list call) : list (prog (Resilient Net) network reply) := map (task new_v4 (λ _, 0) policy) l.
Definition in_turn (n : nat) : list nat := concat (replicate n [0; 1]%nat).
Definition after_both : Resilient Net * list (prog (Resilient Net) network reply) :=
  pool_run outside (in_turn 40) (cut_off, tasks calls).

(** One file is open, and two operations start. *)
Definition opened : Resilient Net := (pool_run outside (replicate 40 0%nat) (cut_off, tasks calls)).1.
Definition logical : FileHandle := new_v4 0.
Definition writes : list call := [Call (WriteRange logical 2 [1; 2]); Call (GetMetadata ROOT_NODE)].
Definition write_pending : Resilient Net * list (prog (Resilient Net) network reply) :=
  pool_run outside (in_turn 4) (opened, tasks writes).

Lemma calls_ok : Forall (ok_of ToyServer.facts) calls.
Proof. by repeat constructor. Qed.
Lemma writes_ok : Forall (ok_of ToyServer.facts) writes.
Proof. by repeat constructor. Qed.
Definition none : FileHandle → NodeId → Prop := λ _ _, False.
End ToyLaws.

Import ToyLaws.

(** Both succeed over the one new connection. *)
Example one_reconnection :
  ToyNetwork.made (world after_both.1) = 2 ∧ connection after_both.1 = ConnectionSlot.Mk 2 2 ∧
  Forall (λ p, bool_decide (finished p) = true) after_both.2.
Proof. vm_compute. by repeat constructor. Qed.

Lemma none_begun (s : Resilient ToyNetwork.Net) : begun ToyNetwork.new_v4 none s.
Proof. by intros h n. Qed.

(** The file that one of two operations opened belongs to the node that was asked for. *)
Lemma interleaved_answers_true_witness :
  resilient_ok ToyNetwork.new_v4 ToyServer.facts after_both.1 ∧
  calls !! 0%nat = Some (Call (OpenFileWithOptions (MkNodeId 1) FileOpenOptions.READ_ONLY)) ∧
  answer_true ToyServer.facts none (λ h n, logical_node ToyNetwork.new_v4 h n after_both.1)
    (OpenFileWithOptions (MkNodeId 1) FileOpenOptions.READ_ONLY) (OpenedFile.Mk logical 3 10).
Proof.
  unfold after_both, tasks.
  refine (let H := interleaved_answers_true ToyNetwork.new_v4 (λ _, 0) ToyNetwork.policy toy_v4_inj ToyServer.facts
    ToyServer.facts_good none calls ToyNetwork.cut_off _ cut_off_ok (none_begun _) calls_ok (pool_run_steps outside (in_turn 40) _)
    in conj (proj1 H) (proj2 H 0%nat _ _ _ _)).
  by vm_compute.
Defined.

Lemma opened_ok : resilient_ok ToyNetwork.new_v4 ToyServer.facts opened.
Proof.
  pose proof (tasks_safe ToyNetwork.new_v4 (λ _, 0) ToyNetwork.policy toy_v4_inj ToyServer.facts ToyServer.facts_good none
    calls ToyNetwork.cut_off cut_off_ok (none_begun _) calls_ok) as Hp.
  eapply pool_steps_safe in Hp; [|apply (pool_run_steps outside (replicate 40 0%nat))]. apply Hp.
Qed.

(** The write goes to the connection that opened the file. *)
Lemma handles_stay_on_their_connection_witness :
  ∃ n, opened_on (world write_pending.1) 2 ToyServer.notes_handle n.
Proof.
  unfold write_pending, tasks.
  refine (handles_stay_on_their_connection ToyNetwork.new_v4 (λ _, 0) ToyNetwork.policy toy_v4_inj ToyServer.facts
    ToyServer.facts_good none writes opened _ 0%nat (Call (WriteRange logical 2 [1; 2])) _ 2
    (WriteRange ToyServer.notes_handle 2 [1; 2]) _ opened_ok (none_begun _) writes_ok (pool_run_steps outside (in_turn 4) _) _ _ _ _ _).
  - reflexivity.
  - reflexivity.
  - by vm_compute.
  - by vm_compute.
  - by left.
Defined.

Lemma operations_finish_witness :
  sn (pool_step outside) (ToyNetwork.cut_off, tasks calls) ∧
  ∀ c', rtc (pool_step outside) (ToyNetwork.cut_off, tasks calls) c' →
    (∃ c'', pool_step outside c' c'') ∨ (Forall finished c'.2 ∧ unlocked c'.1).
Proof. exact (operations_finish ToyNetwork.new_v4 (λ _, 0) ToyNetwork.policy calls ToyNetwork.cut_off cut_off_unlocked). Defined.

Lemma call_completes_witness :
  ∃ r s', run outside 0 (resilient_call ToyNetwork.new_v4 (λ _, 0) ToyNetwork.policy (GetMetadata ROOT_NODE)) ToyNetwork.cut_off =
      Some (r, s') ∧
    unlocked s' ∧ resilient_ok ToyNetwork.new_v4 ToyServer.facts s' ∧
    (∀ a, r = Ok a → answer_true ToyServer.facts (λ h n, logical_node ToyNetwork.new_v4 h n ToyNetwork.cut_off)
       (λ h n, logical_node ToyNetwork.new_v4 h n s') (GetMetadata ROOT_NODE) a) ∧
    ∀ h n, logical_node ToyNetwork.new_v4 h n ToyNetwork.cut_off → logical_node ToyNetwork.new_v4 h n s'.
Proof.
  exact (call_completes ToyNetwork.new_v4 (λ _, 0) ToyNetwork.policy toy_network_laws toy_v4_inj ToyServer.facts
    (GetMetadata ROOT_NODE) ToyNetwork.cut_off ToyServer.facts_good I cut_off_ok cut_off_unlocked).
Defined.

(** * The cached client over the resilient client *)

Module ToyStack.
Definition start : ToyNetwork.Net := ToyNetwork.MkNet (ToyServer.MkServer true false) [1] 1 0.
Definition resilient : Resilient ToyNetwork.Net :=
  MkResilient (ToyNetwork.MkNet (ToyServer.MkServer true false) [1] 1 1) (ConnectionSlot.Mk 1 1) None None 0 (Some 9) ∅ None ∅ 0 0 [1].
Definition cached : Cached MemoryCache (Resilient ToyNetwork.Net) :=
  MkCached MemoryCache.default resilient ∅ None ∅ (prefetch_new ToyServer.policy) {[ROOT_NODE := ROOT_NODE]} 0 0.

(** All connections end. *)
Definition cut (s : Resilient ToyNetwork.Net) : Resilient ToyNetwork.Net :=
  with_world (ToyNetwork.MkNet (ToyNetwork.server (world s)) [] (ToyNetwork.made (world s)) (ToyNetwork.requests (world s))) s.

#[global] Instance toy_layer : RemoteFilesystem (Resilient ToyNetwork.Net) :=
  resilient_filesystem ToyNetwork.new_v4 (λ _, 0) ToyNetwork.policy.
#[global] Instance toy_layer_laws : RemoteLaws (Resilient ToyNetwork.Net) :=
  resilient_laws ToyNetwork.new_v4 (λ _, 0) ToyNetwork.policy toy_network_laws toy_v4_inj.

Definition steps : list (ClientStep (R:=Resilient ToyNetwork.Net)) :=
  [Calls (OpenFileWithOptions (MkNodeId 1) FileOpenOptions.READ_ONLY); Elsewhere cut].

Lemma cut_keeps T (s : Resilient ToyNetwork.Net) : remote_true T s →
  remote_true T (cut s) ∧ ∀ h n, handle_node s h n → handle_node (cut s) h n.
Proof.
  intros [Hs Hu]. split; [|done]. split; [|by intros l; specialize (Hu l); destruct l].
  apply (world_step ToyNetwork.new_v4 T 0 s); [done|apply Hs|done].
Qed.

Lemma cut_steps_ok : Forall (step_ok ToyServer.facts) steps.
Proof. constructor; [done|]. constructor; [|constructor]. intros s. apply cut_keeps. Qed.
End ToyStack.

#[local] Existing Instance memory_cache_laws.

(** A read over a connection that was lost since the file was opened: the file is
    opened again and the bytes are right. *)
Lemma client_stack_true_witness :
  let before := fold_left (client_step (H:=memory_cache elements) (H0:=ToyStack.toy_layer) ToyServer.new_v4 (λ _, 0) elements ToyServer.policy)
    ToyStack.steps ToyStack.cached in
  answer_true ToyServer.facts (CachedFacts.logical_node ToyServer.new_v4 before)
    (CachedFacts.logical_node ToyServer.new_v4
      (cached_perform (FC:=memory_cache elements) (RF:=ToyStack.toy_layer) ToyServer.new_v4 (λ _, 0) elements ToyServer.policy
         (ReadRangeVersioned ToyServer.opened 1 6) before).2)
    (ReadRangeVersioned ToyServer.opened 1 6) (RangeRead.Mk 3 [1; 2; 3; 4; 5; 6]).
Proof.
  refine (client_stack_true (CL:=memory_cache_laws elements (λ s, reflexivity _)) ToyServer.new_v4 ToyNetwork.new_v4 (λ _, 0) (λ _, 0) elements
    (λ s, reflexivity _) ToyServer.new_v4_inj toy_v4_inj ToyNetwork.policy ToyServer.policy ToyServer.toy_policy_good
    ToyServer.facts MemoryCache.default ToyStack.start 1 ToyStack.resilient _ ToyStack.cached
    ToyStack.steps (ReadRangeVersioned ToyServer.opened 1 6) (RangeRead.Mk 3 [1; 2; 3; 4; 5; 6]) _ _ _ _ _ _ _ _).
  - apply ToyServer.facts_good.
  - apply memory_true_default.
  - reflexivity.
  - reflexivity.
  - reflexivity.
  - apply ToyStack.cut_steps_ok.
  - by split.
  - by vm_compute.
Defined.

(** * Bounds and reopening *)

(** Offline: one request fails, and one batch of attempts. *)
Definition offline : Resilient ToyNetwork.Net :=
  MkResilient (ToyNetwork.MkNet (ToyServer.MkServer false false) [] 1 0) (ConnectionSlot.Mk 1 1) None None 0 (Some 9) ∅ None ∅ 0 0 [1].
Definition offline_trace : list (sent network) :=
  [Sent (Request 1 (GetMetadata ROOT_NODE)) (Err ToyNetwork.closed); Sent Connect (Err ToyNetwork.closed);
   Sent (Sleep 100) tt; Sent Connect (Err ToyNetwork.closed)].

Lemma reconnection_bounded_witness :
  connects offline_trace ≤ 5 * 2 ∧ slept offline_trace ≤ 5 * Z.max 0 (2 - 1) * longest ToyNetwork.policy.
Proof.
  refine (reconnection_bounded (W:=ToyNetwork.Net) ToyNetwork.new_v4 (λ _, 0) ToyNetwork.policy _ (GetMetadata ROOT_NODE) offline_trace
    (Err ClientError.Offline) _).
  - by split.
  - eapply (trace_path outside 0 _ offline). reflexivity.
Defined.

(** A locked file was opened on a connection that was replaced. *)
Definition region : FileLock := FileLock.Mk 4 0 7 LockKind.Read 77.
Definition locked : HandleState :=
  HandleState.Mk (MkNodeId 1) FileOpenOptions.READ_ONLY ToyServer.notes_handle 3 10 1 [region].
Definition replaced : Resilient ToyNetwork.Net :=
  MkResilient (ToyNetwork.MkNet (ToyServer.MkServer true false) [2] 2 0) (ConnectionSlot.Mk 2 2) None None 0 (Some 9)
    {[logical := locked]} None ∅ 1 0 [1; 2].

Lemma reopening_replays_locks_witness :
  found_by [Sent (Request 2 (OpenFileWithOptions (MkNodeId 1) FileOpenOptions.READ_ONLY)) (Ok (OpenedFile.Mk ToyServer.notes_handle 3 10));
            Sent (Request 2 (SetLock ToyServer.notes_handle region false)) (Ok tt)]
    (ConnectionSlot.Mk 2 2) (set_remote ToyServer.notes_handle 10 2 locked).
Proof.
  refine (reopening_replays_locks (W:=ToyNetwork.Net) (λ _, 0) ToyNetwork.policy logical _ _ _ _).
  eapply (trace_path outside 0 _ replaced). reflexivity.
Defined.
