(* ===== verification/MacFuse.v ===== *)
(** The macFUSE adapter ([clients/macos/filesystem-macfuse/src/lib.rs]): its
    tables of inodes and handles, the caches of what was discovered, and the
    monad of its callbacks.

    A callback runs alone.  [execute] drops the callback's future when the
    deadline passes, which can only happen while it waits for the remote layer:
    [fate] says for every request whether its answer is in time and, when it is
    not, whether the request was performed.  Spawned tasks are kept in
    [background] and run between callbacks.  A poisoned mutex is not modelled. *)

From S2P Require Import Prelude Protocol Common StateFiles ViewStream Prefetch Remote.

Definition ROOT_INODE : Z := 1.
Definition FILESYSTEM_STATS_TTL : Z := 1000000000.
Definition MAX_FUSE_IO_SIZE : Z := 16 * 1024 * 1024.
Definition MAX_FUSE_XATTR_SIZE : Z := 64 * 1024 * 1024.
Definition DISCOVERED_METADATA_TTL : Z := 30 * 1000000000.
Definition DISCOVERED_DIRECTORY_TTL : Z := 30 * 1000000000.
Definition RELEASED_DIRECTORY_ENTRY_RETENTION : Z := 5 * 1000000000.

(** * Data *)

Abbreviation RemoteDirectoryEntry := Protocol.DirectoryEntry.

Module LookupResult.
Record LookupResult := Mk { inode : Z; metadata : Metadata }.
End LookupResult.
Abbreviation LookupResult := LookupResult.LookupResult.

Module DirectoryEntry.
Record DirectoryEntry := Mk { inode : Z; name : Name; kind : NodeKind; metadata : Metadata }.
End DirectoryEntry.
Abbreviation DirectoryEntry := DirectoryEntry.DirectoryEntry.

Module DirectoryListing.
Record DirectoryListing := Mk { parent_inode : Z; revision : Z; entries : list DirectoryEntry }.
End DirectoryListing.
Abbreviation DirectoryListing := DirectoryListing.DirectoryListing.

Module CreatedNode.
Record CreatedNode := Mk { inode : Z; metadata : Metadata }.
End CreatedNode.
Abbreviation CreatedNode := CreatedNode.CreatedNode.

Module CreatedAndOpenedFile.
Record CreatedAndOpenedFile := Mk { inode : Z; metadata : Metadata; handle : Z }.
End CreatedAndOpenedFile.
Abbreviation CreatedAndOpenedFile := CreatedAndOpenedFile.CreatedAndOpenedFile.

Module AdapterError.
Inductive AdapterError :=
  | Runtime
  | CallbackTimedOut
  | UnknownInode
  | UnknownHandle
  | UnknownDirectoryHandle
  | HandleInodeMismatch
  | NotFound
  | InvalidName
  | InvalidRemoteName
  | AmbiguousName
  | InodeSpaceExhausted
  | HandleSpaceExhausted
  | StateUnavailable
  | UnexpectedMetadata
  | UnexpectedReadLength
  | UnexpectedWriteLength
  | StaleRevision
  | RequestTooLarge (limit : Z)
  | InvalidCapabilities
  | ReadOnly
  | Unsupported
  | InvalidAccess
  | InvalidRange
  | Client (e : ClientError).
End AdapterError.
Abbreviation AdapterError := AdapterError.AdapterError.

Module InodeRecord.
Record InodeRecord := Mk { node : NodeId; parent_inode : Z }.
End InodeRecord.
Abbreviation InodeRecord := InodeRecord.InodeRecord.

Module InodeTable.
Record InodeTable := Mk {
  by_inode : gmap Z InodeRecord;
  by_node : gmap NodeId Z;
  by_entry : gmap (Z * Name) Z;
  lookups : gmap Z Z
}.
End InodeTable.
Abbreviation InodeTable := InodeTable.InodeTable.

Module FileHandleRecord.
Record FileHandleRecord := Mk {
  remote : FileHandle;
  inode : Z;
  access : FileAccess;
  revision : Z;
  size : Z;
  used_locks : bool
}.
End FileHandleRecord.
Abbreviation FileHandleRecord := FileHandleRecord.FileHandleRecord.

Module PendingWrite.
Record PendingWrite := Mk { inode : Z; start : Z; buffer : list Z }.
Definition end_ (p : PendingWrite) : Z := u64_saturating_add (start p) (zlen (buffer p)).
End PendingWrite.
Abbreviation PendingWrite := PendingWrite.PendingWrite.

Module DirectoryHandleRecord.
Record DirectoryHandleRecord := Mk {
  inode : Z;
  listing : DirectoryListing;
  current : Metadata;
  parent : Metadata
}.
End DirectoryHandleRecord.
Abbreviation DirectoryHandleRecord := DirectoryHandleRecord.DirectoryHandleRecord.

Module CachedMetadata.
Record CachedMetadata := Mk { value : Metadata; discovered_at : Z }.
End CachedMetadata.
Abbreviation CachedMetadata := CachedMetadata.CachedMetadata.

Module CachedDirectory.
Record CachedDirectory := Mk { listing : DirectoryListing; discovered_at : Z }.
End CachedDirectory.
Abbreviation CachedDirectory := CachedDirectory.CachedDirectory.

Module CachedXattrs.
Record CachedXattrs := Mk {
  revision : Z;
  names : list Name;
  sizes : gmap Name Z;
  values : gmap Name (list Z);
  discovered_at : Z
}.
End CachedXattrs.
Abbreviation CachedXattrs := CachedXattrs.CachedXattrs.

(** Spawned tasks: the refresh of the statistics, the closing of a handle, the
    forgetting of nodes, and the delayed release of a directory's entries. *)
Inductive Background :=
  | RefreshStats
  | CloseRemote (handle : FileHandle)
  | ForgetRemote (nodes : list NodeId)
  | ReleaseEntries (inodes : list Z) (due : Z).

(** * State *)

Record Adapter (R : Type) := MkAdapter {
  remote : R;
  asked : Z;
  now : Z;
  capabilities : option FilesystemCapabilities;
  filesystem_stats : option (Z * FilesystemStats);
  filesystem_stats_refreshing : bool;
  inodes : InodeTable;
  handles : gmap Z FileHandleRecord;
  pending_writes : gmap Z PendingWrite;
  handle_operations : gset Z;
  directory_operations : gset NodeId;
  directory_handles : gmap Z DirectoryHandleRecord;
  discovered_metadata : gmap NodeId CachedMetadata;
  discovered_directories : gmap Z CachedDirectory;
  discovered_xattrs : gmap NodeId CachedXattrs;
  next_inode : Z;
  next_handle : Z;
  background : list Background
}.
Arguments MkAdapter {R} _ _ _ _ _ _ _ _ _ _ _ _ _ _ _ _ _ _.
Arguments remote {R} _.
Arguments asked {R} _.
Arguments now {R} _.
Arguments capabilities {R} _.
Arguments filesystem_stats {R} _.
Arguments filesystem_stats_refreshing {R} _.
Arguments inodes {R} _.
Arguments handles {R} _.
Arguments pending_writes {R} _.
Arguments handle_operations {R} _.
Arguments directory_operations {R} _.
Arguments directory_handles {R} _.
Arguments discovered_metadata {R} _.
Arguments discovered_directories {R} _.
Arguments discovered_xattrs {R} _.
Arguments next_inode {R} _.
Arguments next_handle {R} _.
Arguments background {R} _.

Section updates.
Context {R : Type}.
Definition with_remote (x : R) (s : Adapter R) : Adapter R :=
  MkAdapter x (asked s) (now s) (capabilities s) (filesystem_stats s) (filesystem_stats_refreshing s) (inodes s)
    (handles s) (pending_writes s) (handle_operations s) (directory_operations s) (directory_handles s)
    (discovered_metadata s) (discovered_directories s) (discovered_xattrs s) (next_inode s) (next_handle s)
    (background s).
Definition with_capabilities (x : option FilesystemCapabilities) (s : Adapter R) : Adapter R :=
  MkAdapter (remote s) (asked s) (now s) x (filesystem_stats s) (filesystem_stats_refreshing s) (inodes s) (handles
    s) (pending_writes s) (handle_operations s) (directory_operations s) (directory_handles s) (discovered_metadata
    s) (discovered_directories s) (discovered_xattrs s) (next_inode s) (next_handle s) (background s).
Definition with_filesystem_stats (x : option (Z * FilesystemStats)) (s : Adapter R) : Adapter R :=
  MkAdapter (remote s) (asked s) (now s) (capabilities s) x (filesystem_stats_refreshing s) (inodes s) (handles s)
    (pending_writes s) (handle_operations s) (directory_operations s) (directory_handles s) (discovered_metadata s)
    (discovered_directories s) (discovered_xattrs s) (next_inode s) (next_handle s) (background s).
Definition with_filesystem_stats_refreshing (x : bool) (s : Adapter R) : Adapter R :=
  MkAdapter (remote s) (asked s) (now s) (capabilities s) (filesystem_stats s) x (inodes s) (handles s)
    (pending_writes s) (handle_operations s) (directory_operations s) (directory_handles s) (discovered_metadata s)
    (discovered_directories s) (discovered_xattrs s) (next_inode s) (next_handle s) (background s).
Definition with_inodes (x : InodeTable) (s : Adapter R) : Adapter R :=
  MkAdapter (remote s) (asked s) (now s) (capabilities s) (filesystem_stats s) (filesystem_stats_refreshing s) x
    (handles s) (pending_writes s) (handle_operations s) (directory_operations s) (directory_handles s)
    (discovered_metadata s) (discovered_directories s) (discovered_xattrs s) (next_inode s) (next_handle s)
    (background s).
Definition with_handles (x : gmap Z FileHandleRecord) (s : Adapter R) : Adapter R :=
  MkAdapter (remote s) (asked s) (now s) (capabilities s) (filesystem_stats s) (filesystem_stats_refreshing s)
    (inodes s) x (pending_writes s) (handle_operations s) (directory_operations s) (directory_handles s)
    (discovered_metadata s) (discovered_directories s) (discovered_xattrs s) (next_inode s) (next_handle s)
    (background s).
Definition with_pending_writes (x : gmap Z PendingWrite) (s : Adapter R) : Adapter R :=
  MkAdapter (remote s) (asked s) (now s) (capabilities s) (filesystem_stats s) (filesystem_stats_refreshing s)
    (inodes s) (handles s) x (handle_operations s) (directory_operations s) (directory_handles s)
    (discovered_metadata s) (discovered_directories s) (discovered_xattrs s) (next_inode s) (next_handle s)
    (background s).
Definition with_handle_operations (x : gset Z) (s : Adapter R) : Adapter R :=
  MkAdapter (remote s) (asked s) (now s) (capabilities s) (filesystem_stats s) (filesystem_stats_refreshing s)
    (inodes s) (handles s) (pending_writes s) x (directory_operations s) (directory_handles s) (discovered_metadata
    s) (discovered_directories s) (discovered_xattrs s) (next_inode s) (next_handle s) (background s).
Definition with_directory_operations (x : gset NodeId) (s : Adapter R) : Adapter R :=
  MkAdapter (remote s) (asked s) (now s) (capabilities s) (filesystem_stats s) (filesystem_stats_refreshing s)
    (inodes s) (handles s) (pending_writes s) (handle_operations s) x (directory_handles s) (discovered_metadata s)
    (discovered_directories s) (discovered_xattrs s) (next_inode s) (next_handle s) (background s).
Definition with_directory_handles (x : gmap Z DirectoryHandleRecord) (s : Adapter R) : Adapter R :=
  MkAdapter (remote s) (asked s) (now s) (capabilities s) (filesystem_stats s) (filesystem_stats_refreshing s)
    (inodes s) (handles s) (pending_writes s) (handle_operations s) (directory_operations s) x (discovered_metadata
    s) (discovered_directories s) (discovered_xattrs s) (next_inode s) (next_handle s) (background s).
Definition with_discovered_metadata (x : gmap NodeId CachedMetadata) (s : Adapter R) : Adapter R :=
  MkAdapter (remote s) (asked s) (now s) (capabilities s) (filesystem_stats s) (filesystem_stats_refreshing s)
    (inodes s) (handles s) (pending_writes s) (handle_operations s) (directory_operations s) (directory_handles s) x
    (discovered_directories s) (discovered_xattrs s) (next_inode s) (next_handle s) (background s).
Definition with_discovered_directories (x : gmap Z CachedDirectory) (s : Adapter R) : Adapter R :=
  MkAdapter (remote s) (asked s) (now s) (capabilities s) (filesystem_stats s) (filesystem_stats_refreshing s)
    (inodes s) (handles s) (pending_writes s) (handle_operations s) (directory_operations s) (directory_handles s)
    (discovered_metadata s) x (discovered_xattrs s) (next_inode s) (next_handle s) (background s).
Definition with_discovered_xattrs (x : gmap NodeId CachedXattrs) (s : Adapter R) : Adapter R :=
  MkAdapter (remote s) (asked s) (now s) (capabilities s) (filesystem_stats s) (filesystem_stats_refreshing s)
    (inodes s) (handles s) (pending_writes s) (handle_operations s) (directory_operations s) (directory_handles s)
    (discovered_metadata s) (discovered_directories s) x (next_inode s) (next_handle s) (background s).
Definition with_next_inode (x : Z) (s : Adapter R) : Adapter R :=
  MkAdapter (remote s) (asked s) (now s) (capabilities s) (filesystem_stats s) (filesystem_stats_refreshing s)
    (inodes s) (handles s) (pending_writes s) (handle_operations s) (directory_operations s) (directory_handles s)
    (discovered_metadata s) (discovered_directories s) (discovered_xattrs s) x (next_handle s) (background s).
Definition with_next_handle (x : Z) (s : Adapter R) : Adapter R :=
  MkAdapter (remote s) (asked s) (now s) (capabilities s) (filesystem_stats s) (filesystem_stats_refreshing s)
    (inodes s) (handles s) (pending_writes s) (handle_operations s) (directory_operations s) (directory_handles s)
    (discovered_metadata s) (discovered_directories s) (discovered_xattrs s) (next_inode s) x (background s).
Definition with_background (x : list Background) (s : Adapter R) : Adapter R :=
  MkAdapter (remote s) (asked s) (now s) (capabilities s) (filesystem_stats s) (filesystem_stats_refreshing s)
    (inodes s) (handles s) (pending_writes s) (handle_operations s) (directory_operations s) (directory_handles s)
    (discovered_metadata s) (discovered_directories s) (discovered_xattrs s) (next_inode s) (next_handle s) x.
Definition with_asked (x : R) (s : Adapter R) : Adapter R :=
  MkAdapter x (asked s + 1) (now s) (capabilities s) (filesystem_stats s) (filesystem_stats_refreshing s) (inodes s)
    (handles s) (pending_writes s) (handle_operations s) (directory_operations s) (directory_handles s)
    (discovered_metadata s) (discovered_directories s) (discovered_xattrs s) (next_inode s) (next_handle s)
    (background s).
Definition later (x : Z) (s : Adapter R) : Adapter R :=
  MkAdapter (remote s) (asked s) (now s + x) (capabilities s) (filesystem_stats s) (filesystem_stats_refreshing s)
    (inodes s) (handles s) (pending_writes s) (handle_operations s) (directory_operations s) (directory_handles s)
    (discovered_metadata s) (discovered_directories s) (discovered_xattrs s) (next_inode s) (next_handle s)
    (background s).
End updates.

(** * Names and ranges *)

Definition validate_range (offset length : Z) : result AdapterError unit :=
  match u64_checked_add offset length with Some _ => Ok tt | None => Err AdapterError.InvalidRange end.
Definition validate_io_range (offset length : Z) : result AdapterError unit :=
  if length >? MAX_FUSE_IO_SIZE then Err (AdapterError.RequestTooLarge MAX_FUSE_IO_SIZE) else validate_range offset length.
Definition validate_allocation_range (offset length : Z) : result AdapterError unit :=
  if length =? 0 then Err AdapterError.InvalidRange else validate_range offset length.

Definition no_attribute_error : AdapterError :=
  AdapterError.Client (ClientError.Server ErrorCode.NoAttribute (lit "extended attribute does not exist")).

Definition validate_name (name : Name) : bool :=
  negb (bool_decide (name = []) || bool_decide (name = lit ".") || bool_decide (name = lit "..") ||
        bool_decide (47 ∈ name) || bool_decide (0 ∈ name)).

Definition validate_remote_name (entry : RemoteDirectoryEntry) : result AdapterError unit :=
  if validate_name (Protocol.DirectoryEntry.name entry) then Ok tt else Err AdapterError.InvalidRemoteName.

Definition validate_metadata (node : NodeId) (m : Metadata) : result AdapterError unit :=
  if bool_decide (Metadata.node m = node) then Ok tt else Err AdapterError.UnexpectedMetadata.

Section names.
(** [normalized_case_name]: the canonical decomposition is that of the
    unicode-normalization crate. *)
Context (normalized_case_name : Name → Name).

(** The indices of the elements, by a condition. *)
Definition indices {A} (p : A → bool) (l : list A) : list Z :=
  map fst (List.filter (λ x, p x.2) (zip (seqZ 0 (zlen l)) l)).

Definition same_name (a b : Name) : bool := utf8_valid a && bool_decide (normalized_case_name a = normalized_case_name b).

Definition select_entry_index {A} (entries : list A) (name_of : A → Name) (requested : Name) : result AdapterError Z :=
  match indices (λ e, bool_decide (name_of e = requested)) entries with
  | [index] => Ok index
  | _ :: _ :: _ => Err AdapterError.AmbiguousName
  | [] =>
      if negb (utf8_valid requested) then Err AdapterError.NotFound
      else match indices (λ e, same_name (name_of e) requested) entries with
           | [index] => Ok index
           | _ :: _ :: _ => Err AdapterError.AmbiguousName
           | [] => Err AdapterError.NotFound
           end
  end.

Fixpoint check_names (entries : list RemoteDirectoryEntry) (names : gset Name) : result AdapterError unit :=
  match entries with
  | [] => Ok tt
  | entry :: entries' =>
      match validate_remote_name entry with
      | Err e => Err e
      | Ok _ =>
          let name := Protocol.DirectoryEntry.name entry in
          if utf8_valid name then
            if bool_decide (normalized_case_name name ∈ names) then Err AdapterError.AmbiguousName
            else check_names entries' ({[normalized_case_name name]} ∪ names)
          else check_names entries' names
      end
  end.
Definition validate_case_insensitive_directory (entries : list RemoteDirectoryEntry) : result AdapterError unit :=
  check_names entries ∅.
End names.

(** * The monad of callbacks *)

(** Whether a request is answered before the deadline of its callback. *)
Inductive Fate := InTime | NotSent | NotAnswered.

Section adapter.
Context {R : Type} `{RF : RemoteFilesystem R}.
Context (fate : Z → Fate) (normalized_case_name : Name → Name).

Definition AM : Type → Type := SM (Adapter R) AdapterError.

(** A request inside [execute]. *)
Definition ask {A} (c : remote_call A) : AM A := λ s,
  match fate (asked s) with
  | InTime => let '(r, x) := perform c (remote s) in (map_err AdapterError.Client r, with_asked x s)
  | NotSent => (Err AdapterError.CallbackTimedOut, with_asked (remote s) s)
  | NotAnswered => (Err AdapterError.CallbackTimedOut, with_asked (perform c (remote s)).2 s)
  end.

Definition spawn (b : Background) : AM unit := sm_modify (λ s, with_background (background s ++ [b]) s).

(** * Inodes *)

Definition inode_record (inode : Z) : AM InodeRecord :=
  r ← sm_gets (λ s, InodeTable.by_inode (inodes s) !! inode);
  sm_lift (ok_or r AdapterError.UnknownInode).

Definition on_table (f : InodeTable → InodeTable) : AM unit := sm_modify (λ s, with_inodes (f (inodes s)) s).

Definition set_by_entry (m : gmap (Z * Name) Z) (t : InodeTable) : InodeTable :=
  InodeTable.Mk (InodeTable.by_inode t) (InodeTable.by_node t) m (InodeTable.lookups t).
Definition set_lookups (m : gmap Z Z) (t : InodeTable) : InodeTable :=
  InodeTable.Mk (InodeTable.by_inode t) (InodeTable.by_node t) (InodeTable.by_entry t) m.

(** A new inode for the node. *)
Definition assign_inode (node : NodeId) (parent_inode : Z) : AM Z :=
  inode ← sm_gets next_inode;
  if inode =? u64_max then sm_err AdapterError.InodeSpaceExhausted
  else
    _ ← sm_modify (with_next_inode (inode + 1));
    _ ← on_table (λ t, InodeTable.Mk (<[inode := InodeRecord.Mk node parent_inode]> (InodeTable.by_inode t))
                         (<[node := inode]> (InodeTable.by_node t)) (InodeTable.by_entry t) (InodeTable.lookups t));
    mret inode.

Definition remember_entry (node : NodeId) (parent_inode : Z) (name : Name) : AM Z :=
  known ← sm_gets (λ s, InodeTable.by_node (inodes s) !! node);
  inode ← match known with Some inode => mret inode | None => assign_inode node parent_inode end;
  _ ← on_table (λ t, set_by_entry (<[(parent_inode, name) := inode]> (InodeTable.by_entry t)) t);
  mret inode.

Definition add_lookup (inode amount : Z) : AM unit :=
  on_table (λ t, set_lookups (<[inode := u64_saturating_add (default 0 (InodeTable.lookups t !! inode)) amount]>
                                (InodeTable.lookups t)) t).

Definition inode_in_use (inode : Z) (s : Adapter R) : bool :=
  bool_decide (map_Exists (λ _ h, FileHandleRecord.inode h = inode) (handles s)) ||
  bool_decide (map_Exists (λ _ h, DirectoryHandleRecord.inode h = inode) (directory_handles s)).

(** The tables without the inode. *)
Definition drop_inode (inode : Z) (t : InodeTable) : option NodeId * InodeTable :=
  let record := InodeTable.by_inode t !! inode in
  (InodeRecord.node <$> record,
   InodeTable.Mk (delete inode (InodeTable.by_inode t))
     (match record with Some r => delete (InodeRecord.node r) (InodeTable.by_node t) | None => InodeTable.by_node t end)
     (filter (λ e, e.2 ≠ inode) (InodeTable.by_entry t)) (delete inode (InodeTable.lookups t))).

Definition evict_inode (inode amount : Z) : AM (option NodeId) :=
  if inode =? ROOT_INODE then mret None
  else
    in_use ← sm_gets (inode_in_use inode);
    count ← sm_gets (λ s, u64_saturating_sub (default 0 (InodeTable.lookups (inodes s) !! inode)) amount);
    _ ← on_table (λ t, set_lookups (<[inode := count]> (InodeTable.lookups t)) t);
    if negb (count =? 0) || in_use then mret None
    else λ s, let '(forgotten, t) := drop_inode inode (inodes s) in (Ok forgotten, with_inodes t s).

Fixpoint evict_each (requests : list (Z * Z)) (forgotten : list NodeId) : AM (list NodeId) :=
  match requests with
  | [] => mret forgotten
  | (inode, amount) :: requests' =>
      evicted ← evict_inode inode amount;
      match evicted with
      | Some node =>
          _ ← sm_modify (λ s, with_discovered_directories (delete inode (discovered_directories s)) s);
          _ ← sm_modify (λ s, with_directory_operations (directory_operations s ∖ {[node]}) s);
          evict_each requests' (forgotten ++ [node])
      | None => evict_each requests' forgotten
      end
  end.

Definition forget_inodes (requests : list (Z * Z)) : AM unit :=
  forgotten ← evict_each requests [];
  if bool_decide (forgotten = []) then mret tt else spawn (ForgetRemote forgotten).

Definition forget_inode (inode amount : Z) : AM unit := forget_inodes [(inode, amount)].

Definition forget_entry (parent_inode : Z) (name : Name) : AM unit :=
  on_table (λ t, set_by_entry (delete (parent_inode, name) (InodeTable.by_entry t)) t).

(** An entry under its new name. *)
Definition place_entry (key : Z * Name) (inode : Z) (t : InodeTable) : InodeTable :=
  InodeTable.Mk (alter (λ r, InodeRecord.Mk (InodeRecord.node r) key.1) inode (InodeTable.by_inode t))
    (InodeTable.by_node t) (<[key := inode]> (InodeTable.by_entry t)) (InodeTable.lookups t).

Definition move_entry (parent_inode : Z) (name : Name) (new_parent_inode : Z) (new_name : Name) (mode : RenameMode)
    : AM unit :=
  on_table (λ t,
    let source_key := (parent_inode, name) in
    let destination_key := (new_parent_inode, new_name) in
    let source := InodeTable.by_entry t !! source_key in
    let t := set_by_entry (delete source_key (InodeTable.by_entry t)) t in
    let destination := InodeTable.by_entry t !! destination_key in
    let t := set_by_entry (delete destination_key (InodeTable.by_entry t)) t in
    let t := match destination with
             | Some d => if bool_decide (mode = RenameMode.Exchange) then place_entry source_key d t else t
             | None => t
             end in
    match source with Some i => place_entry destination_key i t | None => t end).

Definition reconcile_directory_entries (parent_inode : Z) (current_names : gset Name) : AM unit :=
  on_table (λ t, set_by_entry (filter (λ e, e.1.1 ≠ parent_inode ∨ e.1.2 ∈ current_names) (InodeTable.by_entry t)) t).

Definition entry_node (parent_inode : Z) (name : Name) : AM (option NodeId) :=
  sm_gets (λ s,
    inode ← InodeTable.by_entry (inodes s) !! (parent_inode, name);
    InodeRecord.node <$> InodeTable.by_inode (inodes s) !! inode).

Definition find_entry_inode (parent_inode : Z) (requested : Name) : AM (option Z) :=
  entries ← sm_gets (λ s, InodeTable.by_entry (inodes s));
  match entries !! (parent_inode, requested) with
  | Some inode => mret (Some inode)
  | None =>
      if negb (utf8_valid requested) then mret None
      else
        match (map_to_list (filter (λ e, e.1.1 = parent_inode ∧
                                         same_name normalized_case_name e.1.2 requested = true) entries)).*2 with
        | [inode] => mret (Some inode)
        | [] => mret None
        | _ => sm_err AdapterError.AmbiguousName
        end
  end.

(** * What was discovered *)

Definition cached_metadata (node : NodeId) : AM (option Metadata) := λ s,
  match discovered_metadata s !! node with
  | Some entry =>
      if now s - CachedMetadata.discovered_at entry <=? DISCOVERED_METADATA_TTL then (Ok (Some (CachedMetadata.value entry)), s)
      else (Ok None, with_discovered_metadata (delete node (discovered_metadata s)) s)
  | None => (Ok None, s)
  end.

Definition remember_metadata (m : Metadata) : AM unit :=
  sm_modify (λ s, with_discovered_metadata (<[Metadata.node m := CachedMetadata.Mk m (now s)]> (discovered_metadata s)) s).

Definition known_metadata_revision (node : NodeId) (s : Adapter R) : option Z :=
  (λ entry, Metadata.revision (CachedMetadata.value entry)) <$> discovered_metadata s !! node.

Definition cached_directory (inode : Z) : AM (option DirectoryListing) := λ s,
  match discovered_directories s !! inode with
  | Some entry =>
      if now s - CachedDirectory.discovered_at entry <=? DISCOVERED_DIRECTORY_TTL
      then (Ok (Some (CachedDirectory.listing entry)), s)
      else (Ok None, with_discovered_directories (delete inode (discovered_directories s)) s)
  | None => (Ok None, s)
  end.

(** The lock of a directory's listing. *)
Definition directory_operation (node : NodeId) : AM unit :=
  sm_modify (λ s, with_directory_operations ({[node]} ∪ directory_operations s) s).

Definition invalidate_node_views (node : NodeId) : AM unit :=
  inode ← sm_gets (λ s, InodeTable.by_node (inodes s) !! node);
  _ ← sm_modify (λ s, with_discovered_metadata (delete node (discovered_metadata s)) s);
  _ ← sm_modify (λ s, with_discovered_xattrs (delete node (discovered_xattrs s)) s);
  sm_modify (λ s, with_discovered_directories
    (filter (λ e, Some e.1 ≠ inode ∧
                  Forall (λ d, Metadata.node (DirectoryEntry.metadata d) ≠ node)
                    (DirectoryListing.entries (CachedDirectory.listing e.2))) (discovered_directories s)) s).

Definition invalidate_directory (inode : Z) : AM unit :=
  record ← inode_record inode;
  invalidate_node_views (InodeRecord.node record).

Definition cached_xattrs (node : NodeId) : AM (option CachedXattrs) := λ s,
  match discovered_xattrs s !! node with
  | Some entry =>
      if match known_metadata_revision node s with Some r => r =? CachedXattrs.revision entry | None => true end &&
         (now s - CachedXattrs.discovered_at entry <=? DISCOVERED_DIRECTORY_TTL)
      then (Ok (Some entry), s)
      else (Ok None, with_discovered_xattrs (delete node (discovered_xattrs s)) s)
  | None => (Ok None, s)
  end.

(** The values that came with the names. *)
Fixpoint collect_inline (names : list Name) (inline : list InlineXattr) (sizes : gmap Name Z) (values : gmap Name (list Z))
    : result AdapterError (gmap Name Z * gmap Name (list Z)) :=
  match inline with
  | [] => Ok (sizes, values)
  | v :: inline' =>
      let name := InlineXattr.name v in
      if negb (bool_decide (name ∈ names)) || bool_decide (is_Some (values !! name))
      then Err AdapterError.UnexpectedMetadata
      else collect_inline names inline' (<[name := zlen (InlineXattr.value v)]> sizes) (<[name := InlineXattr.value v]> values)
  end.

Definition remember_xattr_snapshot (node : NodeId) (revision : Z) (snapshot : XattrSnapshot) : AM unit :=
  let names := XattrSnapshot.names snapshot in
  if negb (bool_decide (NoDup names)) then sm_err AdapterError.UnexpectedMetadata
  else
    collected ← sm_lift (collect_inline names (XattrSnapshot.inline_values snapshot) ∅ ∅);
    let '(sizes, values) := collected : gmap Name Z * gmap Name (list Z) in
    sm_modify (λ s, with_discovered_xattrs
      (<[node := CachedXattrs.Mk revision names sizes values (now s)]> (discovered_xattrs s)) s).

(** A change of the attributes of this revision. *)
Definition update_xattrs (node : NodeId) (revision : Z) (name : Name)
    (f : CachedXattrs → gmap Name Z * gmap Name (list Z)) : AM unit :=
  sm_modify (λ s, with_discovered_xattrs (alter (λ c,
    if (CachedXattrs.revision c =? revision) && bool_decide (name ∈ CachedXattrs.names c)
    then let '(sizes, values) := f c in CachedXattrs.Mk (CachedXattrs.revision c) (CachedXattrs.names c) sizes values (now s)
    else c) node (discovered_xattrs s)) s).

Definition remember_xattr_size (node : NodeId) (revision : Z) (name : Name) (size : Z) : AM unit :=
  update_xattrs node revision name (λ c, (<[name := size]> (CachedXattrs.sizes c), CachedXattrs.values c)).

Definition remember_xattr_value (node : NodeId) (revision : Z) (name : Name) (value : list Z) : AM unit :=
  update_xattrs node revision name
    (λ c, (<[name := zlen value]> (CachedXattrs.sizes c), <[name := value]> (CachedXattrs.values c))).

Fixpoint remember_entries (inode : Z) (entries : list RemoteDirectoryEntry) : AM (list DirectoryEntry) :=
  match entries with
  | [] => mret []
  | entry :: entries' =>
      let m := Protocol.DirectoryEntry.metadata entry in
      _ ← sm_lift (validate_remote_name entry);
      _ ← sm_lift (validate_metadata (Protocol.DirectoryEntry.node entry) m);
      if negb (bool_decide (Protocol.DirectoryEntry.kind entry = Metadata.kind m)) then sm_err AdapterError.UnexpectedMetadata
      else
        _ ← remember_metadata m;
        child ← remember_entry (Protocol.DirectoryEntry.node entry) inode (Protocol.DirectoryEntry.name entry);
        rest ← remember_entries inode entries';
        mret (DirectoryEntry.Mk child (Protocol.DirectoryEntry.name entry) (Protocol.DirectoryEntry.kind entry) m :: rest)
  end.

Definition remember_directory_snapshot (inode parent_inode : Z) (snapshot : DirectorySnapshot) : AM DirectoryListing :=
  let remote_entries := DirectorySnapshot.entries snapshot in
  _ ← sm_lift (validate_case_insensitive_directory normalized_case_name remote_entries);
  _ ← reconcile_directory_entries inode (list_to_set (map Protocol.DirectoryEntry.name remote_entries));
  entries ← remember_entries inode remote_entries;
  let listing := DirectoryListing.Mk parent_inode (DirectorySnapshot.revision snapshot) entries in
  _ ← sm_modify (λ s, with_discovered_directories
        (<[inode := CachedDirectory.Mk listing (now s)]> (discovered_directories s)) s);
  mret listing.

Fixpoint remember_view_entries (entries : list DirectoryViewEntry) : AM (list RemoteDirectoryEntry) :=
  match entries with
  | [] => mret []
  | e :: entries' =>
      let entry := DirectoryViewEntry.entry e in
      _ ← match DirectoryViewEntry.xattrs e with
          | Some xattrs => remember_xattr_snapshot (Protocol.DirectoryEntry.node entry)
                             (Metadata.revision (Protocol.DirectoryEntry.metadata entry)) xattrs
          | None => mret tt
          end;
      rest ← remember_view_entries entries';
      mret (entry :: rest)
  end.

Definition remember_directory_view (inode : Z) (record : InodeRecord) (view : DirectoryView) : AM DirectoryListing :=
  let directory := DirectoryView.directory view in
  let parent := DirectoryView.parent view in
  _ ← sm_lift (validate_metadata (InodeRecord.node record) directory);
  if negb (bool_decide (Metadata.kind directory = NodeKind.Directory)) then sm_err AdapterError.UnexpectedMetadata
  else
    parent_record ← inode_record (InodeRecord.parent_inode record);
    _ ← sm_lift (validate_metadata (InodeRecord.node parent_record) parent);
    if negb (bool_decide (Metadata.kind parent = NodeKind.Directory)) then sm_err AdapterError.UnexpectedMetadata
    else
      _ ← remember_metadata directory;
      _ ← remember_metadata parent;
      _ ← match DirectoryView.xattrs view with
          | Some xattrs => remember_xattr_snapshot (InodeRecord.node record) (Metadata.revision directory) xattrs
          | None => mret tt
          end;
      entries ← remember_view_entries (DirectoryView.entries view);
      remember_directory_snapshot inode (InodeRecord.parent_inode record)
        (DirectorySnapshot.Mk (DirectoryView.revision view) entries).

Definition lookup_from_listing (parent_inode : Z) (listing : DirectoryListing) (requested : Name) : AM LookupResult :=
  index ← sm_lift (select_entry_index normalized_case_name (DirectoryListing.entries listing) DirectoryEntry.name requested);
  entry ← sm_lift (ok_or (DirectoryListing.entries listing !! Z.to_nat index) AdapterError.NotFound);
  inode ← remember_entry (Metadata.node (DirectoryEntry.metadata entry)) parent_inode (DirectoryEntry.name entry);
  _ ← add_lookup inode 1;
  _ ← remember_metadata (DirectoryEntry.metadata entry);
  mret (LookupResult.Mk inode (DirectoryEntry.metadata entry)).

(** * Handles *)

Definition take_handle_number : AM Z :=
  handle ← sm_gets next_handle;
  if handle =? u64_max then sm_err AdapterError.HandleSpaceExhausted
  else _ ← sm_modify (with_next_handle (handle + 1)); mret handle.

Definition remember_file_handle (inode : Z) (access : FileAccess) (opened : OpenedFile) : AM Z :=
  handle ← take_handle_number;
  _ ← sm_modify (λ s, with_handles (<[handle := FileHandleRecord.Mk (OpenedFile.handle opened) inode access
                                        (OpenedFile.revision opened) (OpenedFile.size opened) false]> (handles s)) s);
  _ ← sm_modify (λ s, with_handle_operations ({[handle]} ∪ handle_operations s) s);
  mret handle.

Definition file_handle (handle : Z) : AM FileHandleRecord :=
  r ← sm_gets (λ s, handles s !! handle);
  sm_lift (ok_or r AdapterError.UnknownHandle).

Definition update_file_handle (handle revision size : Z) : AM unit :=
  r ← file_handle handle;
  sm_modify (λ s, with_handles (<[handle := FileHandleRecord.Mk (FileHandleRecord.remote r) (FileHandleRecord.inode r)
                                   (FileHandleRecord.access r) revision size (FileHandleRecord.used_locks r)]> (handles s)) s).

(** The lock of the handle's operations. *)
Definition file_operation (handle : Z) : AM unit :=
  known ← sm_gets (λ s, bool_decide (handle ∈ handle_operations s));
  sm_guard known AdapterError.UnknownHandle.

Definition take_file_handle (handle : Z) : AM FileHandleRecord :=
  r ← file_handle handle;
  _ ← sm_modify (λ s, with_handles (delete handle (handles s)) s);
  _ ← sm_modify (λ s, with_handle_operations (handle_operations s ∖ {[handle]}) s);
  _ ← sm_modify (λ s, with_pending_writes (delete handle (pending_writes s)) s);
  mret r.
End adapter.
