(* ===== verification/MacFuseOps.v ===== *)
(** The callbacks of the macFUSE adapter
    ([clients/macos/filesystem-macfuse/src/lib.rs], [impl Adapter]), over any
    remote layer, and the tasks they spawn. *)

From S2P Require Import Prelude Protocol Common StateFiles ViewStream Prefetch Remote MacFuse.

Definition set_volume_name (name : list Z) (c : FilesystemCapabilities) : FilesystemCapabilities :=
  let '(FilesystemCapabilities.Mk e w l a d p sl x h sn cf sd si po bm ex vr bt rp pn rl _ mr mw) := c in
  FilesystemCapabilities.Mk e w l a d p sl x h sn cf sd si po bm ex vr bt rp pn rl name mr mw.

Section callbacks.
Context {R : Type} `{RF : RemoteFilesystem R}.
(** The deadlines, the folding of names, and the iteration order of the maps. *)
Context (fate : Z → Fate) (normalized_case_name : Name → Name) (map_order : gset Z → list Z).

Abbreviation AM := (AM (R:=R)).
Abbreviation ask c := (MacFuse.ask (R:=R) fate c).

(** [let _ = remote.call().await] inside [execute]. *)
Definition ask_anyway {A} (c : remote_call A) : AM unit := λ s,
  match ask c s with
  | (Err AdapterError.CallbackTimedOut, s') => (Err AdapterError.CallbackTimedOut, s')
  | (_, s') => (Ok tt, s')
  end.

Definition check_name (name : Name) : AM unit := sm_guard (validate_name name) AdapterError.InvalidName.
Definition check_supported (b : bool) : AM unit := sm_guard b AdapterError.Unsupported.

Definition capabilities_async : AM FilesystemCapabilities :=
  cached ← sm_gets capabilities;
  match cached with
  | Some c => mret c
  | None =>
      c ← ask Capabilities;
      if (FilesystemCapabilities.max_read_size c =? 0) || (FilesystemCapabilities.max_write_size c =? 0)
      then sm_err AdapterError.InvalidCapabilities
      else _ ← sm_modify (with_capabilities (Some c)); mret c
  end.

Definition require_writable : AM FilesystemCapabilities :=
  c ← capabilities_async;
  if FilesystemCapabilities.writable c then mret c else sm_err AdapterError.ReadOnly.

(** * Coalesced writes *)

Fixpoint write_chunks (fuel : nat) (remote : FileHandle) (chunk_limit : Z) (data : list Z) (written position revision size : Z)
    : AM (Z * Z) :=
  match fuel with
  | O => mret (revision, size)
  | S fuel' =>
      if zlen data <=? written then mret (revision, size)
      else
        let amount := Z.min (zlen data - written) chunk_limit in
        r ← ask (WriteRange remote position (slice data written amount));
        if negb (WriteResult.written r =? amount) then sm_err AdapterError.UnexpectedWriteLength
        else
          next ← sm_lift (ok_or (u64_checked_add position (WriteResult.written r)) AdapterError.InvalidRange);
          write_chunks fuel' remote chunk_limit data (written + WriteResult.written r) next
            (WriteResult.revision r) (WriteResult.size r)
  end.

Definition write_through (handle offset : Z) (data : list Z) : AM unit :=
  if zlen data =? 0 then mret tt
  else
    opened ← file_handle handle;
    c ← capabilities_async;
    let chunk_limit := Z.min (FilesystemCapabilities.max_write_size c) MAX_CLIENT_WRITE_SIZE in
    if chunk_limit =? 0 then sm_err AdapterError.InvalidCapabilities
    else
      r ← write_chunks (length data) (FileHandleRecord.remote opened) chunk_limit data 0 offset
            (FileHandleRecord.revision opened) (FileHandleRecord.size opened);
      let '(revision, size) := r : Z * Z in
      _ ← update_file_handle handle revision size;
      record ← inode_record (FileHandleRecord.inode opened);
      invalidate_node_views (InodeRecord.node record).

Definition flush_pending (handle : Z) : AM unit :=
  pending ← sm_gets (λ s, pending_writes s !! handle);
  _ ← sm_modify (λ s, with_pending_writes (delete handle (pending_writes s)) s);
  match pending with
  | Some p => write_through handle (PendingWrite.start p) (PendingWrite.buffer p)
  | None => mret tt
  end.

Definition has_pending (handle : Z) (s : Adapter R) : bool := bool_decide (is_Some (pending_writes s !! handle)).

Fixpoint flush_each (l : list Z) : AM unit :=
  match l with [] => mret tt | handle :: l' => _ ← flush_pending handle; flush_each l' end.

Definition flush_pending_for_inode (inode : Z) : AM unit :=
  l ← sm_gets (λ s, map_order (dom (filter (λ e, PendingWrite.inode e.2 = inode) (pending_writes s))));
  flush_each l.

Definition pending_end_for_inode (inode : Z) (s : Adapter R) : option Z :=
  map_fold (λ _ p best, if bool_decide (PendingWrite.inode p = inode)
                        then Some (Z.max (PendingWrite.end_ p) (default (PendingWrite.end_ p) best)) else best)
    None (pending_writes s).

(** * Metadata and directories *)

Definition with_size (size : Z) (m : Metadata) : Metadata :=
  let '(Metadata.Mk n k _ mode b r a md c bk l ma mi) := m in Metadata.Mk n k size mode b r a md c bk l ma mi.

Definition getattr_async (inode : Z) : AM Metadata :=
  record ← inode_record inode;
  cached ← cached_metadata (InodeRecord.node record);
  m ← match cached with
      | Some m => mret m
      | None =>
          m ← ask (GetMetadata (InodeRecord.node record));
          _ ← sm_lift (validate_metadata (InodeRecord.node record) m);
          _ ← remember_metadata m;
          mret m
      end;
  pending ← sm_gets (pending_end_for_inode inode);
  match pending with
  | Some e => mret (if e >? Metadata.size m then with_size e m else m)
  | None => mret m
  end.

Definition readdir_async (inode : Z) : AM DirectoryListing :=
  cached ← cached_directory inode;
  match cached with
  | Some listing => mret listing
  | None =>
      record ← inode_record inode;
      _ ← directory_operation (InodeRecord.node record);
      again ← cached_directory inode;
      match again with
      | Some listing => mret listing
      | None =>
          view ← ask (ListDirectoryView (InodeRecord.node record) DirectoryViewOptions.NATIVE);
          remember_directory_view normalized_case_name inode record view
      end
  end.

(** The end of the lookup of a number that was found, after the [await] of its
    metadata: whatever ran meanwhile. *)
Definition lookup_known (inode : Z) (m : Metadata) : AM LookupResult :=
  _ ← add_lookup inode 1;
  mret (LookupResult.Mk inode m).

Definition lookup_async (parent_inode : Z) (name : Name) : AM LookupResult :=
  _ ← check_name name;
  cached ← cached_directory parent_inode;
  match cached with
  | Some listing => lookup_from_listing normalized_case_name parent_inode listing name
  | None =>
      known ← find_entry_inode normalized_case_name parent_inode name;
      match known with
      | Some inode =>
          m ← getattr_async inode;
          lookup_known inode m
      | None =>
          listing ← readdir_async parent_inode;
          lookup_from_listing normalized_case_name parent_inode listing name
      end
  end.

Definition not_directory : AdapterError :=
  AdapterError.Client (ClientError.Server ErrorCode.NotDirectory (lit "node is not a directory")).

Definition opendir_async (inode : Z) : AM Z :=
  cached ← cached_directory inode;
  listing ← match cached with Some listing => mret listing | None => readdir_async inode end;
  m ← getattr_async inode;
  if negb (bool_decide (Metadata.kind m = NodeKind.Directory)) then sm_err not_directory
  else
    parent ← (if DirectoryListing.parent_inode listing =? inode then mret m
              else getattr_async (DirectoryListing.parent_inode listing));
    handle ← take_handle_number;
    _ ← sm_modify (λ s, with_directory_handles
          (<[handle := DirectoryHandleRecord.Mk inode listing m parent]> (directory_handles s)) s);
    mret handle.

Definition directory_handle (handle : Z) : AM DirectoryHandleRecord :=
  r ← sm_gets (λ s, directory_handles s !! handle);
  sm_lift (ok_or r AdapterError.UnknownDirectoryHandle).

Definition directory_listing_with_metadata (handle inode : Z) : AM (DirectoryListing * Metadata * Metadata) :=
  r ← directory_handle handle;
  if negb (DirectoryHandleRecord.inode r =? inode) then sm_err AdapterError.HandleInodeMismatch
  else mret (DirectoryHandleRecord.listing r, DirectoryHandleRecord.current r, DirectoryHandleRecord.parent r).

Definition directory_listing (handle inode : Z) : AM DirectoryListing :=
  r ← directory_handle handle;
  if negb (DirectoryHandleRecord.inode r =? inode) then sm_err AdapterError.HandleInodeMismatch
  else mret (DirectoryHandleRecord.listing r).

Definition releasedir (handle : Z) : AM unit :=
  r ← directory_handle handle;
  _ ← sm_modify (λ s, with_directory_handles (delete handle (directory_handles s)) s);
  due ← sm_gets (λ s, now s + RELEASED_DIRECTORY_ENTRY_RETENTION);
  spawn (ReleaseEntries (map DirectoryEntry.inode (DirectoryListing.entries (DirectoryHandleRecord.listing r))) due).

(** * Opening, creating, naming *)

Definition open_async (inode : Z) (options : FileOpenOptions) : AM Z :=
  _ ← (if can_write_access (FileOpenOptions.access options) then _ ← require_writable; mret tt else mret tt);
  record ← inode_record inode;
  opened ← ask (OpenFileWithOptions (InodeRecord.node record) options);
  r ← sm_try (remember_file_handle inode (FileOpenOptions.access options) opened);
  match r with
  | Ok handle => mret handle
  | Err e => _ ← ask_anyway (CloseFile (OpenedFile.handle opened)); sm_err e
  end.

(** What the creating callbacks do with the metadata of the new node. *)
Definition adopt_created (parent_inode : Z) (name : Name) (m : Metadata) : AM Z :=
  _ ← sm_lift (validate_metadata (Metadata.node m) m);
  _ ← remember_metadata m;
  _ ← invalidate_directory parent_inode;
  inode ← remember_entry (Metadata.node m) parent_inode name;
  _ ← add_lookup inode 1;
  mret inode.

Definition create_file_async (parent_inode : Z) (name : Name) (mode : Z) (options : FileOpenOptions)
    : AM CreatedAndOpenedFile :=
  _ ← require_writable;
  _ ← check_name name;
  parent ← inode_record parent_inode;
  created ← ask (CreateFile (InodeRecord.node parent) name mode options);
  let m := CreatedFile.metadata created in
  let opened := CreatedFile.opened created in
  inode ← adopt_created parent_inode name m;
  r ← sm_try (remember_file_handle inode (FileOpenOptions.access options) opened);
  match r with
  | Ok handle => mret (CreatedAndOpenedFile.Mk inode m handle)
  | Err e => _ ← ask_anyway (CloseFile (OpenedFile.handle opened)); sm_err e
  end.

Definition create_directory_async (parent_inode : Z) (name : Name) (mode : Z) : AM CreatedNode :=
  _ ← require_writable;
  _ ← check_name name;
  parent ← inode_record parent_inode;
  m ← ask (CreateDirectory (InodeRecord.node parent) name mode);
  inode ← adopt_created parent_inode name m;
  mret (CreatedNode.Mk inode m).

Definition create_symlink_async (parent_inode : Z) (name : Name) (target : list Z) : AM CreatedNode :=
  c ← require_writable;
  _ ← check_supported (FilesystemCapabilities.supports_symlinks c);
  _ ← check_name name;
  parent ← inode_record parent_inode;
  m ← ask (CreateSymlink (InodeRecord.node parent) name target);
  inode ← adopt_created parent_inode name m;
  mret (CreatedNode.Mk inode m).

Definition readlink_async (inode : Z) : AM (list Z) :=
  c ← capabilities_async;
  _ ← check_supported (FilesystemCapabilities.supports_symlinks c);
  record ← inode_record inode;
  ask (ReadLink (InodeRecord.node record)).

Definition create_hard_link_async (inode new_parent_inode : Z) (new_name : Name) : AM CreatedNode :=
  c ← require_writable;
  _ ← check_supported (FilesystemCapabilities.supports_hard_links c);
  _ ← check_name new_name;
  record ← inode_record inode;
  let node := InodeRecord.node record in
  new_parent ← inode_record new_parent_inode;
  m ← ask (CreateHardLink node (InodeRecord.node new_parent) new_name);
  _ ← sm_lift (validate_metadata node m);
  _ ← invalidate_node_views node;
  _ ← invalidate_directory new_parent_inode;
  _ ← remember_metadata m;
  linked ← remember_entry node new_parent_inode new_name;
  _ ← add_lookup linked 1;
  mret (CreatedNode.Mk linked m).

Definition create_special_node_async (parent_inode : Z) (name : Name) (kind : SpecialNodeKind) (mode major minor : Z)
    : AM CreatedNode :=
  c ← require_writable;
  _ ← check_supported (FilesystemCapabilities.supports_special_nodes c);
  _ ← check_name name;
  parent ← inode_record parent_inode;
  m ← ask (CreateSpecialNode (InodeRecord.node parent) name kind mode major minor);
  inode ← adopt_created parent_inode name m;
  mret (CreatedNode.Mk inode m).

Definition invalidate_known (node : option NodeId) : AM unit :=
  match node with Some n => invalidate_node_views n | None => mret tt end.

Definition remove_async (parent_inode : Z) (name : Name) (directory : bool) : AM unit :=
  _ ← require_writable;
  _ ← check_name name;
  parent ← inode_record parent_inode;
  removed ← entry_node parent_inode name;
  _ ← ask (RemoveNode (InodeRecord.node parent) name directory);
  _ ← invalidate_directory parent_inode;
  _ ← invalidate_known removed;
  forget_entry parent_inode name.

Definition rename_async (parent_inode : Z) (name : Name) (new_parent_inode : Z) (new_name : Name) (mode : RenameMode)
    : AM unit :=
  c ← require_writable;
  _ ← check_supported (FilesystemCapabilities.supports_atomic_rename c);
  _ ← check_name name;
  _ ← check_name new_name;
  parent ← inode_record parent_inode;
  new_parent ← inode_record new_parent_inode;
  source ← entry_node parent_inode name;
  destination ← entry_node new_parent_inode new_name;
  _ ← ask (RenameNode (InodeRecord.node parent) name (InodeRecord.node new_parent) new_name mode);
  _ ← invalidate_directory parent_inode;
  _ ← invalidate_directory new_parent_inode;
  _ ← invalidate_known source;
  _ ← invalidate_known destination;
  move_entry parent_inode name new_parent_inode new_name mode.

Definition exchange_data_async (parent_inode : Z) (name : Name) (new_parent_inode : Z) (new_name : Name) (options : Z)
    : AM unit :=
  c ← require_writable;
  _ ← check_supported (FilesystemCapabilities.supports_exchange_data c);
  _ ← check_name name;
  _ ← check_name new_name;
  source ← entry_node parent_inode name;
  destination ← entry_node new_parent_inode new_name;
  parent ← inode_record parent_inode;
  new_parent ← inode_record new_parent_inode;
  _ ← ask (ExchangeData (InodeRecord.node parent) name (InodeRecord.node new_parent) new_name options);
  _ ← invalidate_known source;
  invalidate_known destination.

Definition set_volume_name_async (name : Name) : AM unit :=
  c ← require_writable;
  _ ← check_supported (FilesystemCapabilities.supports_volume_rename c);
  _ ← sm_guard (utf8_valid name) AdapterError.InvalidName;
  _ ← ask (SetVolumeName name);
  sm_modify (λ s, with_capabilities (set_volume_name name <$> capabilities s) s).

(** * Attributes and contents *)

Definition setattr_async (inode : Z) (handle : option Z) (changes : AttributeChanges) : AM Metadata :=
  _ ← require_writable;
  record ← inode_record inode;
  _ ← match handle with Some h => file_operation h | None => mret tt end;
  _ ← match handle with
      | Some h => flush_pending h
      | None => if bool_decide (is_Some (AttributeChanges.size changes)) then flush_pending_for_inode inode else mret tt
      end;
  remote_handle ← match handle with
                  | Some h =>
                      opened ← file_handle h;
                      if negb (FileHandleRecord.inode opened =? inode) then sm_err AdapterError.HandleInodeMismatch
                      else mret (Some (FileHandleRecord.remote opened))
                  | None => mret None
                  end;
  m ← ask (SetAttributes (InodeRecord.node record) remote_handle changes);
  _ ← sm_lift (validate_metadata (InodeRecord.node record) m);
  _ ← invalidate_node_views (InodeRecord.node record);
  _ ← remember_metadata m;
  _ ← match handle with
      | Some h => update_file_handle h (Metadata.revision m) (Metadata.size m)
      | None => mret tt
      end;
  mret m.

Fixpoint read_chunks (fuel : nat) (remote : FileHandle) (chunk_limit offset length : Z)
    (data : list Z) (remaining position expected_revision : Z) (restarted : bool) : AM (list Z) :=
  match fuel with
  | O => sm_err AdapterError.StateUnavailable
  | S fuel' =>
      if remaining <=? 0 then mret data
      else
        let requested := Z.min remaining chunk_limit in
        r ← ask (ReadRangeVersioned remote position requested);
        let received := zlen (RangeRead.data r) in
        if received >? requested then sm_err AdapterError.UnexpectedReadLength
        else if negb (RangeRead.revision r =? 0) && negb (expected_revision =? 0) &&
                negb (RangeRead.revision r =? expected_revision) then
          if restarted then sm_err AdapterError.StaleRevision
          else read_chunks fuel' remote chunk_limit offset length [] length offset 0 true
        else
          let expected := if RangeRead.revision r =? 0 then expected_revision else RangeRead.revision r in
          let data := data ++ RangeRead.data r in
          if received <? requested then mret data
          else
            next ← sm_lift (ok_or (u64_checked_add position received) AdapterError.InvalidRange);
            read_chunks fuel' remote chunk_limit offset length data (remaining - received) next expected restarted
  end.

(** Every pass advances by a byte or more, and there are at most two passes. *)
Definition read_fuel (length : Z) : nat := 2 * Z.to_nat length + 2.

Definition read_async (handle offset length : Z) : AM (list Z) :=
  _ ← sm_lift (validate_io_range offset length);
  _ ← file_operation handle;
  pending ← sm_gets (has_pending handle);
  _ ← (if (pending : bool) then flush_pending handle else mret tt);
  opened ← file_handle handle;
  if negb (can_read (FileHandleRecord.access opened)) then sm_err AdapterError.InvalidAccess
  else
    c ← capabilities_async;
    let chunk_limit := Z.min (FilesystemCapabilities.max_read_size c) MAX_CLIENT_READ_SIZE in
    if chunk_limit =? 0 then sm_err AdapterError.InvalidCapabilities
    else read_chunks (read_fuel length) (FileHandleRecord.remote opened) chunk_limit offset length [] length offset 0 false.

(** The bytes join the buffer when they continue it and fit. *)
Definition can_append (threshold offset length : Z) (p : PendingWrite) : bool :=
  (PendingWrite.end_ p =? offset) && (u64_saturating_add (zlen (PendingWrite.buffer p)) length <=? threshold).

Definition write_async (handle offset : Z) (data : list Z) : AM Z :=
  let length := zlen data in
  _ ← sm_lift (validate_io_range offset length);
  _ ← file_operation handle;
  c ← require_writable;
  opened ← file_handle handle;
  if negb (can_write_access (FileHandleRecord.access opened)) then sm_err AdapterError.InvalidAccess
  else
    let threshold := Z.min (FilesystemCapabilities.max_write_size c) MAX_CLIENT_WRITE_SIZE in
    if threshold =? 0 then sm_err AdapterError.InvalidCapabilities
    else
      pending ← sm_gets (λ s, pending_writes s !! handle);
      if match pending with Some p => can_append threshold offset length p | None => false end then
        _ ← sm_modify (λ s, with_pending_writes
              (alter (λ p, PendingWrite.Mk (PendingWrite.inode p) (PendingWrite.start p) (PendingWrite.buffer p ++ data))
                 handle (pending_writes s)) s);
        mret length
      else
        _ ← sm_modify (λ s, with_pending_writes (delete handle (pending_writes s)) s);
        _ ← match pending with
            | Some p => write_through handle (PendingWrite.start p) (PendingWrite.buffer p)
            | None => mret tt
            end;
        _ ← (if length <? threshold
             then sm_modify (λ s, with_pending_writes
                    (<[handle := PendingWrite.Mk (FileHandleRecord.inode opened) offset data]> (pending_writes s)) s)
             else write_through handle offset data);
        mret length.

Definition flush_async (handle : Z) (lock_owner : option Z) : AM unit :=
  _ ← file_operation handle;
  _ ← flush_pending handle;
  opened ← file_handle handle;
  if negb (can_write_access (FileHandleRecord.access opened)) && negb (FileHandleRecord.used_locks opened) then mret tt
  else ask (FlushFile (FileHandleRecord.remote opened) lock_owner).

Definition fsync_async (handle : Z) (data_only : bool) : AM unit :=
  _ ← file_operation handle;
  _ ← flush_pending handle;
  opened ← file_handle handle;
  ask (SyncFile (FileHandleRecord.remote opened) data_only).

Definition fsyncdir_async (inode handle : Z) : AM unit :=
  c ← capabilities_async;
  if negb (FilesystemCapabilities.supports_directory_sync c) then
    if FilesystemCapabilities.writable c then sm_err AdapterError.Unsupported else mret tt
  else
    _ ← directory_listing handle inode;
    record ← inode_record inode;
    ask (SyncDirectory (InodeRecord.node record)).

(** What follows a change of the file by the server. *)
Definition adopt_written (handle inode : Z) (r : WriteResult) : AM unit :=
  _ ← update_file_handle handle (WriteResult.revision r) (WriteResult.size r);
  record ← inode_record inode;
  invalidate_node_views (InodeRecord.node record).

Definition allocate_async (handle offset length : Z) : AM unit :=
  _ ← sm_lift (validate_allocation_range offset length);
  _ ← file_operation handle;
  c ← require_writable;
  _ ← check_supported (FilesystemCapabilities.supports_preallocation c);
  opened ← file_handle handle;
  if negb (can_write_access (FileHandleRecord.access opened)) then sm_err AdapterError.InvalidAccess
  else
    _ ← flush_pending handle;
    opened ← file_handle handle;
    r ← ask (AllocateFile (FileHandleRecord.remote opened) offset length);
    adopt_written handle (FileHandleRecord.inode opened) r.

Definition copy_file_range_async (input_handle input_offset output_handle output_offset length : Z) : AM Z :=
  _ ← sm_lift (validate_range input_offset length);
  _ ← sm_lift (validate_range output_offset length);
  c ← require_writable;
  _ ← check_supported (FilesystemCapabilities.supports_copy_file_range c);
  input ← file_handle input_handle;
  output ← file_handle output_handle;
  if negb (can_read (FileHandleRecord.access input)) || negb (can_write_access (FileHandleRecord.access output))
  then sm_err AdapterError.InvalidAccess
  else
    _ ← file_operation input_handle;
    _ ← file_operation output_handle;
    _ ← flush_pending input_handle;
    _ ← (if input_handle =? output_handle then mret tt else flush_pending output_handle);
    input ← file_handle input_handle;
    output ← file_handle output_handle;
    r ← ask (CopyFileRange (FileHandleRecord.remote input) input_offset (FileHandleRecord.remote output) output_offset length);
    if WriteResult.written r >? length then sm_err AdapterError.UnexpectedWriteLength
    else
      _ ← adopt_written output_handle (FileHandleRecord.inode output) r;
      mret (WriteResult.written r).

Definition lseek_async (handle offset : Z) (whence : SeekWhence) : AM Z :=
  c ← capabilities_async;
  _ ← check_supported (FilesystemCapabilities.supports_seek_data_hole c);
  _ ← file_operation handle;
  _ ← flush_pending handle;
  opened ← file_handle handle;
  ask (SeekFile (FileHandleRecord.remote opened) offset whence).

Definition safe_ioctl_async (handle : Z) (operation : SafeIoctl) : AM Z :=
  c ← capabilities_async;
  _ ← check_supported (FilesystemCapabilities.supports_safe_ioctl c);
  opened ← file_handle handle;
  ask (SafeIoctlCall (FileHandleRecord.remote opened) operation).

Definition map_block_async (inode block_size block : Z) : AM Z :=
  c ← capabilities_async;
  _ ← check_supported (FilesystemCapabilities.supports_bmap c);
  record ← inode_record inode;
  ask (MapBlock (InodeRecord.node record) block_size block).

(** * Locks and statistics *)

Definition get_lock_async (handle : Z) (lock : FileLock) : AM (option FileLock) :=
  c ← capabilities_async;
  _ ← check_supported (FilesystemCapabilities.supports_locks c);
  _ ← file_operation handle;
  opened ← file_handle handle;
  ask (GetLock (FileHandleRecord.remote opened) lock).

Definition set_lock_async (handle : Z) (lock : FileLock) (wait : bool) : AM unit :=
  c ← capabilities_async;
  _ ← check_supported (FilesystemCapabilities.supports_locks c);
  _ ← file_operation handle;
  opened ← file_handle handle;
  _ ← ask (SetLock (FileHandleRecord.remote opened) lock wait);
  sm_modify (λ s, with_handles (alter (λ r, FileHandleRecord.Mk (FileHandleRecord.remote r) (FileHandleRecord.inode r)
    (FileHandleRecord.access r) (FileHandleRecord.revision r) (FileHandleRecord.size r) true) handle (handles s)) s).

Definition statfs_async : AM FilesystemStats :=
  cached ← sm_gets filesystem_stats;
  match cached with
  | Some (fetched_at, statistics) =>
      aged ← sm_gets (λ s, FILESYSTEM_STATS_TTL <=? now s - fetched_at);
      _ ← (if (aged : bool) then
             refreshing ← sm_gets filesystem_stats_refreshing;
             _ ← sm_modify (with_filesystem_stats_refreshing true);
             if (refreshing : bool) then mret tt else spawn RefreshStats
           else mret tt);
      mret statistics
  | None =>
      statistics ← ask StatFilesystem;
      _ ← sm_modify (λ s, with_filesystem_stats (Some (now s, statistics)) s);
      mret statistics
  end.

Definition prewarm_for_mount : AM unit :=
  _ ← readdir_async ROOT_INODE;
  _ ← getattr_async ROOT_INODE;
  _ ← statfs_async;
  mret tt.

(** * Extended attributes *)

(** The node, and the revision that its metadata had. *)
Definition xattr_node (inode : Z) : AM NodeId := record ← inode_record inode; mret (InodeRecord.node record).
Definition xattr_revision (node : NodeId) : AM Z := sm_gets (λ s, default 0 (known_metadata_revision node s)).

Definition xattr_size_async (inode : Z) (name : Name) : AM Z :=
  c ← capabilities_async;
  _ ← check_supported (FilesystemCapabilities.supports_xattrs c);
  node ← xattr_node inode;
  revision ← xattr_revision node;
  cached ← cached_xattrs node;
  known ← match cached with
          | Some x => if negb (bool_decide (name ∈ CachedXattrs.names x)) then sm_err no_attribute_error
                      else mret (CachedXattrs.sizes x !! name)
          | None => mret None
          end;
  match known with
  | Some size => mret size
  | None =>
      read ← ask (GetXattr node name 0 0);
      if XattrRead.total_size read >? MAX_FUSE_XATTR_SIZE then sm_err (AdapterError.RequestTooLarge MAX_FUSE_XATTR_SIZE)
      else
        _ ← remember_xattr_size node revision name (XattrRead.total_size read);
        mret (XattrRead.total_size read)
  end.

Fixpoint xattr_chunks (fuel : nat) (node : NodeId) (name : Name) (chunk total_size : Z) (value : list Z) : AM (list Z) :=
  match fuel with
  | O => sm_err AdapterError.StateUnavailable
  | S fuel' =>
      let offset := zlen value in
      if total_size <=? offset then mret value
      else
        let amount := Z.min (total_size - offset) chunk in
        read ← ask (GetXattr node name offset amount);
        if negb (XattrRead.total_size read =? total_size) || negb (zlen (XattrRead.data read) =? amount)
        then sm_err AdapterError.UnexpectedReadLength
        else xattr_chunks fuel' node name chunk total_size (value ++ XattrRead.data read)
  end.

Definition get_xattr_async (inode : Z) (name : Name) : AM (list Z) :=
  c ← capabilities_async;
  _ ← check_supported (FilesystemCapabilities.supports_xattrs c);
  node ← xattr_node inode;
  let chunk := Z.min (FilesystemCapabilities.max_read_size c) MAX_CLIENT_READ_SIZE in
  if chunk =? 0 then sm_err AdapterError.InvalidCapabilities
  else
    revision ← xattr_revision node;
    cached ← cached_xattrs node;
    known ← match cached with
            | Some x => if negb (bool_decide (name ∈ CachedXattrs.names x)) then sm_err no_attribute_error
                        else mret (CachedXattrs.values x !! name, CachedXattrs.sizes x !! name)
            | None => mret (None, None)
            end;
    match known with
    | (Some value, _) => mret value
    | (None, known_size) =>
        start ← match known_size with
                | Some total_size => mret (total_size, [])
                | None =>
                    first ← ask (GetXattr node name 0 chunk);
                    if negb (zlen (XattrRead.data first) =? Z.min (XattrRead.total_size first) chunk)
                    then sm_err AdapterError.UnexpectedReadLength
                    else mret (XattrRead.total_size first, XattrRead.data first)
                end;
        let '(total_size, value) := start : Z * list Z in
        if total_size >? MAX_FUSE_XATTR_SIZE then sm_err (AdapterError.RequestTooLarge MAX_FUSE_XATTR_SIZE)
        else
          value ← xattr_chunks (Z.to_nat total_size + 1) node name chunk total_size value;
          _ ← remember_xattr_value node revision name value;
          mret value
    end.

Fixpoint set_xattr_chunks (fuel : nat) (node : NodeId) (name : Name) (value : list Z) (mode : XattrSetMode)
    (position chunk consumed : Z) : AM unit :=
  match fuel with
  | O => mret tt
  | S fuel' =>
      if zlen value <=? consumed then mret tt
      else
        let amount := Z.min (zlen value - consumed) chunk in
        chunk_position ← sm_lift (match u64_checked_add position consumed with
                                  | Some p => if p <=? u32_max then Ok p else Err AdapterError.InvalidRange
                                  | None => Err AdapterError.InvalidRange
                                  end);
        _ ← ask (SetXattr node name (slice value consumed amount) (if consumed =? 0 then mode else XattrSetMode.Replace)
                   chunk_position);
        set_xattr_chunks fuel' node name value mode position chunk (consumed + amount)
  end.

Definition set_xattr_async (inode : Z) (name : Name) (value : list Z) (mode : XattrSetMode) (position : Z) : AM unit :=
  c ← require_writable;
  _ ← check_supported (FilesystemCapabilities.supports_xattrs c);
  if zlen value >? MAX_FUSE_XATTR_SIZE then sm_err (AdapterError.RequestTooLarge MAX_FUSE_XATTR_SIZE)
  else
    let chunk := Z.min (FilesystemCapabilities.max_write_size c) MAX_CLIENT_WRITE_SIZE in
    if chunk =? 0 then sm_err AdapterError.InvalidCapabilities
    else
      node ← xattr_node inode;
      _ ← (if bool_decide (value = []) then ask (SetXattr node name [] mode position)
           else set_xattr_chunks (length value) node name value mode position chunk 0);
      invalidate_node_views node.

Definition list_xattrs_async (inode : Z) : AM (list Name) :=
  c ← capabilities_async;
  _ ← check_supported (FilesystemCapabilities.supports_xattrs c);
  node ← xattr_node inode;
  cached ← cached_xattrs node;
  match cached with
  | Some x => mret (CachedXattrs.names x)
  | None =>
      revision ← xattr_revision node;
      names ← ask (ListXattrs node);
      _ ← remember_xattr_snapshot node revision (XattrSnapshot.Mk names []);
      mret names
  end.

Definition remove_xattr_async (inode : Z) (name : Name) : AM unit :=
  c ← require_writable;
  _ ← check_supported (FilesystemCapabilities.supports_xattrs c);
  node ← xattr_node inode;
  _ ← ask (RemoveXattr node name);
  invalidate_node_views node.

(** * Closing *)

(** [Result::and]. *)
Definition result_and (a b : result AdapterError unit) : result AdapterError unit :=
  match a with Ok _ => b | Err e => Err e end.

Definition release_async (handle : Z) (flush : bool) (lock_owner : option Z) : AM unit :=
  _ ← file_operation handle;
  found ← sm_gets (λ s, handles s !! handle);
  if match found with
     | Some h => negb (can_write_access (FileHandleRecord.access h)) && negb (FileHandleRecord.used_locks h)
     | None => false
     end then
    opened ← take_file_handle handle;
    _ ← spawn (CloseRemote (FileHandleRecord.remote opened));
    _ ← sm_try (forget_inode (FileHandleRecord.inode opened) 0);
    mret tt
  else
    pending_result ← sm_try (flush_pending handle);
    opened ← take_file_handle handle;
    flush_result ← (if flush then sm_try (ask (FlushFile (FileHandleRecord.remote opened) lock_owner)) else mret (Ok tt));
    close_result ← sm_try (ask (CloseFile (FileHandleRecord.remote opened)));
    _ ← sm_try (forget_inode (FileHandleRecord.inode opened) 0);
    sm_lift (result_and (result_and pending_result flush_result) close_result).

Definition spawn_closes (l : list FileHandle) : AM unit :=
  sm_modify (λ s, with_background (background s ++ map CloseRemote l) s).

Definition destroy_mount : AM unit :=
  open ← sm_gets (λ s, omap (λ h, FileHandleRecord.remote <$> handles s !! h) (map_order (dom (handles s))));
  _ ← sm_modify (with_handles ∅);
  _ ← sm_modify (with_handle_operations ∅);
  _ ← sm_modify (with_directory_handles ∅);
  _ ← sm_modify (with_discovered_directories ∅);
  _ ← sm_modify (with_discovered_xattrs ∅);
  _ ← sm_modify (with_directory_operations ∅);
  spawn_closes open.

(** * Spawned tasks *)

Definition run_task (b : Background) : AM unit :=
  match b with
  | RefreshStats =>
      refreshed ← sm_try (ask StatFilesystem);
      _ ← match refreshed with
          | Ok statistics => sm_modify (λ s, with_filesystem_stats (Some (now s, statistics)) s)
          | Err _ => mret tt
          end;
      sm_modify (with_filesystem_stats_refreshing false)
  | CloseRemote h => _ ← sm_try (ask (CloseFile h)); mret tt
  | ForgetRemote nodes => _ ← sm_try (ask (ForgetNodes nodes)); mret tt
  | ReleaseEntries l _ => _ ← sm_try (forget_inodes (map (λ i, (i, 0)) l)); mret tt
  end.

(** Task [i] runs, unless it sleeps. *)
Definition run_background (i : nat) : AM unit := λ s,
  match background s !! i with
  | Some b =>
      if match b with ReleaseEntries _ due => due <=? now s | _ => true end
      then run_task b (with_background (take i (background s) ++ drop (S i) (background s)) s)
      else (Ok tt, s)
  | None => (Ok tt, s)
  end.
End callbacks.

(** [with_runtime]. *)
Definition adapter_new {R} (r : R) : Adapter R :=
  MkAdapter r 0 0 None None false
    (InodeTable.Mk {[ROOT_INODE := InodeRecord.Mk ROOT_NODE ROOT_INODE]} {[ROOT_NODE := ROOT_INODE]} ∅ {[ROOT_INODE := u64_max]})
    ∅ ∅ ∅ ∅ ∅ ∅ ∅ ∅ (ROOT_INODE + 1) 1 [].
