(* ===== verification/MacFuseFacts.v ===== *)
(** The tables of the macFUSE adapter: inodes and nodes stay in bijection, no
    inode number ever stands for two nodes, and what the kernel still refers to
    is never evicted. *)

From S2P Require Import Prelude Protocol Common StateFiles ViewStream Prefetch Remote MacFuse MacFuseOps.

Section facts.
Context {R : Type} `{RF : RemoteFilesystem R}.
Context (fate : Z → Fate) (fold : Name → Name) (map_order : gset Z → list Z).

Abbreviation AS := (Adapter R).
Abbreviation AM := (AM (R:=R)).

(** * The invariant *)

(** The node of an inode. *)
Definition node_at (s : AS) (i : Z) : option NodeId := InodeRecord.node <$> InodeTable.by_inode (inodes s) !! i.
Definition known (i : Z) (s : AS) : Prop := is_Some (InodeTable.by_inode (inodes s) !! i).

(** The lookups counted for an inode. *)
Definition looked (i : Z) (s : AS) : Z := default 0 (InodeTable.lookups (inodes s) !! i).

(** Bytes buffered for a handle are for its inode; a destroyed mount leaves some
    of handles that are gone. *)
Definition buffered_for (h : Z) (p : PendingWrite) (s : AS) : Prop :=
  h < next_handle s ∧ ∀ r, handles s !! h = Some r → FileHandleRecord.inode r = PendingWrite.inode p.

Record adapter_ok (s : AS) : Prop := {
  ao_root : node_at s ROOT_INODE = Some ROOT_NODE;
  ao_nodes : ∀ n i, InodeTable.by_node (inodes s) !! n = Some i ↔ node_at s i = Some n;
  ao_entries : ∀ k i, InodeTable.by_entry (inodes s) !! k = Some i → known i s;
  ao_counts : ∀ i c, InodeTable.lookups (inodes s) !! i = Some c → 0 ≤ c ≤ u64_max;
  ao_next : ∀ i, known i s → ROOT_INODE ≤ i < next_inode s;
  ao_handles : ∀ h r, handles s !! h = Some r → known (FileHandleRecord.inode r) s;
  ao_directories : ∀ h r, directory_handles s !! h = Some r → known (DirectoryHandleRecord.inode r) s;
  ao_operations : handle_operations s = dom (handles s);
  ao_pending : ∀ h p, pending_writes s !! h = Some p → buffered_for h p s;
  ao_bounds : ROOT_INODE < next_inode s ≤ u64_max ∧ 1 ≤ next_handle s ≤ u64_max;
  ao_numbers : ∀ h, is_Some (handles s !! h) ∨ is_Some (directory_handles s !! h) → h < next_handle s
}.

(** Nothing that was known is lost. *)
Record extends (s s' : AS) : Prop := {
  ex_nodes : ∀ i n, node_at s i = Some n → node_at s' i = Some n;
  ex_handles : ∀ h r, handles s !! h = Some r →
    ∃ r', handles s' !! h = Some r' ∧ FileHandleRecord.inode r' = FileHandleRecord.inode r;
  ex_new : ∀ i n, node_at s' i = Some n → node_at s i = Some n ∨ next_inode s ≤ i;
  ex_next : next_inode s ≤ next_inode s';
  ex_looked : ∀ i, looked i s ≤ looked i s'
}.

#[global] Instance extends_refl : Reflexive extends.
Proof. intros s. split; eauto; lia. Qed.

#[global] Instance extends_trans : Transitive extends.
Proof.
  intros s1 s2 s3 [Hn Hh Hw Hx Hl] [Hn' Hh' Hw' Hx' Hl']. split; [eauto| | |lia|intros i; specialize (Hl i); specialize (Hl' i); lia].
  - intros h r (r' & Hr & <-)%Hh. by apply Hh'.
  - intros i n [Hi|Hi]%Hw'; [by apply Hw|right; lia].
Qed.

Lemma same_counts (s s' : AS) :
  InodeTable.lookups (inodes s') = InodeTable.lookups (inodes s) → ∀ i, looked i s ≤ looked i s'.
Proof. intros E i. unfold looked. by rewrite E. Qed.

Lemma known_node i s : known i s ↔ ∃ n, node_at s i = Some n.
Proof.
  unfold known, node_at. destruct (InodeTable.by_inode (inodes s) !! i); simpl; split.
  - eauto.
  - by eexists.
  - by intros [? ?].
  - by intros [? ?].
Qed.

Lemma known_extends i s s' : extends s s' → known i s → known i s'.
Proof. intros Hx. rewrite !known_node. intros [n Hn]. exists n. by apply Hx. Qed.

(** A callback that keeps the invariant and loses nothing; what holds before may
    be used, and what its result tells. *)
Definition steady {A} (P : AS → Prop) (m : AM A) (Q : A → AS → Prop) : Prop :=
  ∀ s, adapter_ok s → P s → adapter_ok (m s).2 ∧ extends s (m s).2 ∧ ∀ a, (m s).1 = Ok a → Q a (m s).2.

Definition lasting (P : AS → Prop) : Prop := ∀ s s', extends s s' → P s → P s'.

Abbreviation keeps P m := (steady P m (λ _ _, True)).

Lemma known_inode_lasting i : lasting (known i).
Proof. intros s s' Hx. by apply known_extends. Qed.
Lemma trivially_lasting : lasting (λ _, True).
Proof. by intros s s' ? ?. Qed.
Lemma and_lasting P Q : lasting P → lasting Q → lasting (λ s, P s ∧ Q s).
Proof. intros HP HQ s s' Hx [? ?]. split; [by eapply HP|by eapply HQ]. Qed.
Lemma pure_lasting (X : Prop) : lasting (λ _, X).
Proof. by intros s s' ? ?. Qed.

Lemma s_weaken {A} (P P' : AS → Prop) (m : AM A) (Q Q' : A → AS → Prop) :
  steady P m Q → (∀ s, adapter_ok s → P' s → P s) → (∀ a s, Q a s → Q' a s) → steady P' m Q'.
Proof. intros Hm HP HQ s Hs Hp. destruct (Hm s Hs (HP s Hs Hp)) as (? & ? & ?). split_and!; eauto. Qed.

Lemma s_bind {A B} (P : AS → Prop) (m : AM A) (k : A → AM B) (Q : A → AS → Prop) (Q' : B → AS → Prop) :
  lasting P → steady P m Q → (∀ a, steady (λ s, P s ∧ Q a s) (k a) Q') → steady P (mbind k m) Q'.
Proof.
  intros HP Hm Hk s Hs Hp. destruct (Hm s Hs Hp) as (Hs1 & Hx1 & Ha). unfold mbind, sm_bind.
  destruct (m s) as [[a|e] s1]; simpl in *; [|done].
  destruct (Hk a s1 Hs1) as (Hs2 & Hx2 & Hb); [split; [by eapply HP|by apply Ha]|]. split_and!; [done|by etrans|done].
Qed.

Lemma s_ret {A} (P : AS → Prop) (a : A) (Q : A → AS → Prop) : (∀ s, adapter_ok s → P s → Q a s) → steady P (mret a) Q.
Proof. intros HQ s Hs Hp. split_and!; [done|done|]. intros b [= <-]. auto. Qed.

Lemma s_err {A} (P : AS → Prop) e (Q : A → AS → Prop) : steady P (sm_err e) Q.
Proof. intros s Hs Hp. by split_and!. Qed.

Lemma s_lift {A} (P : AS → Prop) r (Q : A → AS → Prop) : (∀ a s, r = Ok a → adapter_ok s → P s → Q a s) → steady P (sm_lift r) Q.
Proof. intros HQ s Hs Hp. split_and!; [done|done|]. intros a Ea. by apply HQ. Qed.

Lemma s_guard (P : AS → Prop) b e : keeps P (sm_guard b e).
Proof. destruct b; intros s Hs Hp; by split_and!. Qed.

Lemma s_gets {A} (P : AS → Prop) (f : AS → A) (Q : A → AS → Prop) : (∀ s, adapter_ok s → P s → Q (f s) s) → steady P (sm_gets f) Q.
Proof. intros HQ s Hs Hp. split_and!; [done|done|]. intros a [= <-]. auto. Qed.

Lemma s_try {A} (P : AS → Prop) (m : AM A) Q : steady P m Q → steady P (sm_try m) (λ r s, match r with Ok a => Q a s | Err _ => True end).
Proof.
  intros Hm s Hs Hp. destruct (Hm s Hs Hp) as (? & ? & Ha). unfold sm_try. destruct (m s) as [r s']. simpl in *.
  split_and!; [done|done|]. intros r' [= <-]. destruct r; auto.
Qed.

Lemma s_modify (P : AS → Prop) (f : AS → AS) (Q : AS → Prop) :
  (∀ s, adapter_ok s → P s → adapter_ok (f s) ∧ extends s (f s) ∧ Q (f s)) → steady P (sm_modify f) (λ _, Q).
Proof. intros Hf s Hs Hp. destruct (Hf s Hs Hp) as (? & ? & ?). by split_and!. Qed.

(** Changes that the invariant does not see. *)
Definition alike (s s' : AS) : Prop :=
  inodes s' = inodes s ∧ handles s' = handles s ∧ pending_writes s' = pending_writes s ∧
  handle_operations s' = handle_operations s ∧ directory_handles s' = directory_handles s ∧
  next_inode s' = next_inode s ∧ next_handle s' = next_handle s.

Lemma alike_adapter_ok s s' : alike s s' → adapter_ok s → adapter_ok s' ∧ extends s s'.
Proof.
  destruct s, s'. intros (?&?&?&?&?&?&?) Hs. simpl in *. subst. split; [|split; simpl; eauto; (lia || by apply same_counts)].
  destruct Hs. by split.
Qed.

Lemma s_alike {A} (P : AS → Prop) (m : AM A) (Q : A → AS → Prop) :
  (∀ s, alike s (m s).2) → (∀ s a, adapter_ok s → P s → (m s).1 = Ok a → Q a (m s).2) → steady P m Q.
Proof. intros Hm HQ s Hs Hp. destruct (alike_adapter_ok s _ (Hm s) Hs). split_and!; auto. Qed.

Lemma s_ask {A} (P : AS → Prop) (c : remote_call A) : keeps P (ask fate c).
Proof.
  apply s_alike; [|done]. intros s. unfold ask. destruct (fate (asked s)); [destruct (perform c (remote s))| |]; by split_and!.
Qed.

(** ** Tables *)

(** The node of an inode, as something known. *)
Definition stands_for (i : Z) (n : NodeId) (s : AS) : Prop := node_at s i = Some n.

Lemma stands_known i n s : stands_for i n s → known i s.
Proof. intros Hi. apply known_node. by exists n. Qed.
Lemma stands_lasting i n : lasting (stands_for i n).
Proof. intros s s' Hx. apply Hx. Qed.

Lemma inode_record_steady P i : steady P (inode_record i) (λ r, stands_for i (InodeRecord.node r)).
Proof.
  intros s Hs Hp. unfold inode_record, stands_for, node_at. sm_unfold.
  destruct (InodeTable.by_inode (inodes s) !! i) as [r|] eqn:E; simpl; split_and!; try done.
  intros r' [= <-]. by rewrite E.
Qed.

(** Changes of the table that keep the nodes. *)
Lemma table_ok f s :
  adapter_ok s →
  (∀ i, InodeRecord.node <$> InodeTable.by_inode (f (inodes s)) !! i = node_at s i) →
  InodeTable.by_node (f (inodes s)) = InodeTable.by_node (inodes s) →
  (∀ k i, InodeTable.by_entry (f (inodes s)) !! k = Some i → known i s) →
  (∀ i c, InodeTable.lookups (f (inodes s)) !! i = Some c → 0 ≤ c ≤ u64_max) →
  (∀ i, looked i s ≤ looked i (with_inodes (f (inodes s)) s)) →
  adapter_ok (with_inodes (f (inodes s)) s) ∧ extends s (with_inodes (f (inodes s)) s).
Proof.
  intros Hs Hnode Hby He Hl Hgrow. set (s' := with_inodes (f (inodes s)) s).
  assert (∀ i, node_at s' i = node_at s i) as Hn by (intros i; apply Hnode).
  assert (∀ i, known i s ↔ known i s') as Hk by (intros i; by rewrite !known_node, Hn).
  destruct Hs as [Hr Hb _ _ Hx Hh Hd Ho Hp Hbo Hnum]. split.
  - split; simpl.
    + by rewrite Hn.
    + intros n i. rewrite Hn, Hby. apply Hb.
    + intros k i ?%He. by apply Hk.
    + exact Hl.
    + intros i ?%Hk. by apply Hx.
    + intros h r ?%Hh. by apply Hk.
    + intros h r ?%Hd. by apply Hk.
    + done.
    + done.
    + done.
    + done.
  - split; simpl; [by intros i n; rewrite Hn|by eauto|by intros i n; rewrite Hn; left|lia|exact Hgrow].
Qed.

Lemma on_table_steady P f :
  (∀ s, adapter_ok s → P s → 
    (∀ i, InodeRecord.node <$> InodeTable.by_inode (f (inodes s)) !! i = node_at s i) ∧
    InodeTable.by_node (f (inodes s)) = InodeTable.by_node (inodes s) ∧
    (∀ k i, InodeTable.by_entry (f (inodes s)) !! k = Some i → known i s) ∧
    InodeTable.lookups (f (inodes s)) = InodeTable.lookups (inodes s)) →
  keeps P (on_table f).
Proof.
  intros Hf. apply s_modify. intros s Hs Hp. destruct (Hf s Hs Hp) as (H1 & H2 & H3 & H4).
  destruct (table_ok f s Hs H1 H2 H3) as [? ?]; [rewrite H4; apply Hs| |by split_and!].
  intros i. unfold looked. simpl. by rewrite H4.
Qed.

Lemma looked_bounds i s : adapter_ok s → 0 ≤ looked i s ≤ u64_max.
Proof.
  intros Hs. unfold looked. destruct (InodeTable.lookups (inodes s) !! i) as [c|] eqn:E; simpl; [by apply (ao_counts s Hs i)|].
  by vm_compute.
Qed.

(** The count of an inode is at least [k]. *)
Definition counted (i k : Z) (s : AS) : Prop := k ≤ looked i s.

Lemma counted_lasting i k : lasting (counted i k).
Proof. intros s s' Hx. unfold counted. pose proof (ex_looked s s' Hx i). lia. Qed.

Definition ticks (i j : Z) : Z := if decide (i = j) then 1 else 0.

Lemma add_lookup_counts P i j k :
  k < u64_max → steady (λ s, P s ∧ counted j k s) (add_lookup i 1) (λ _, counted j (k + ticks i j)).
Proof.
  intros Hk. apply s_modify. intros s Hs [_ Hc]. pose proof (looked_bounds i s Hs) as Hb.
  set (f := λ t, set_lookups (<[i := u64_saturating_add (default 0 (InodeTable.lookups t !! i)) 1]> (InodeTable.lookups t)) t).
  assert (∀ x, looked x (with_inodes (f (inodes s)) s) = if decide (i = x) then u64_saturating_add (looked i s) 1 else looked x s) as Hl.
  { intros x. unfold looked, f. simpl. destruct (decide (i = x)) as [<-|Hne]; [by rewrite lookup_insert_eq|by rewrite lookup_insert_ne]. }
  destruct (table_ok f s Hs) as [Hs' Hx]; [done|done|apply Hs| | |].
  - intros x c Hxc. unfold f in Hxc. simpl in Hxc. apply lookup_insert_Some in Hxc as [[<- <-]|[_ Hc']]; [|by eapply ao_counts].
    fold (looked i s). unfold u64_saturating_add. lia.
  - intros x. rewrite Hl. destruct (decide (i = x)) as [<-|]; [|lia]. unfold u64_saturating_add. lia.
  - split_and!; [done|done|]. unfold counted, ticks in *. rewrite Hl. destruct (decide (i = j)) as [<-|]; [|lia].
    unfold u64_saturating_add. lia.
Qed.

Lemma add_lookup_steady P i : keeps P (add_lookup i 1).
Proof.
  eapply s_weaken; [by apply (add_lookup_counts (λ _, True) i i 0)| |done]. intros s Hs _. split; [done|].
  apply looked_bounds, Hs.
Qed.

Lemma forget_entry_steady P parent name : keeps P (forget_entry parent name).
Proof.
  apply on_table_steady. intros s Hs _. split_and!; simpl; [done|done| |done].
  intros k i [_ Hk]%lookup_delete_Some. by eapply Hs.
Qed.

Lemma reconcile_steady P parent names : keeps P (reconcile_directory_entries parent names).
Proof.
  apply on_table_steady. intros s Hs _. split_and!; simpl; [done|done| |done].
  intros k i [Hk _]%map_lookup_filter_Some. by eapply Hs.
Qed.

(** A table whose entries are known. *)
Definition entries_known (s : AS) (t : InodeTable) : Prop :=
  (∀ i, InodeRecord.node <$> InodeTable.by_inode t !! i = node_at s i) ∧
  InodeTable.by_node t = InodeTable.by_node (inodes s) ∧
  (∀ k i, InodeTable.by_entry t !! k = Some i → known i s) ∧
  InodeTable.lookups t = InodeTable.lookups (inodes s).

Lemma place_known s t key i : entries_known s t → known i s → entries_known s (place_entry key i t).
Proof.
  intros (H1 & H2 & H3 & H4) Hi. split_and!; simpl; [|done| |done].
  - intros j. rewrite <- H1. destruct (decide (i = j)) as [->|Hne].
    + rewrite lookup_alter_eq. by destruct (InodeTable.by_inode t !! j).
    + by rewrite lookup_alter_ne.
  - intros k j [[<- <-]|[_ ?]]%lookup_insert_Some; [done|by eapply H3].
Qed.

Lemma drop_known s t key : entries_known s t → entries_known s (set_by_entry (delete key (InodeTable.by_entry t)) t).
Proof.
  intros (H1 & H2 & H3 & H4). split_and!; simpl; [done|done| |done].
  intros k j [_ ?]%lookup_delete_Some. by eapply H3.
Qed.

Lemma move_entry_steady P parent name new_parent new_name mode : keeps P (move_entry parent name new_parent new_name mode).
Proof.
  apply on_table_steady. intros s Hs _. set (t' := match _ with Some _ => _ | None => _ end).
  assert (entries_known s t') as (H1 & H2 & H3 & H4).
  { assert (entries_known s (inodes s)) as H0 by (split_and!; [done|done|apply Hs|done]).
    pose proof (drop_known _ _ (parent, name) H0) as Hd1.
    pose proof (drop_known _ _ (new_parent, new_name) Hd1) as Hd2. subst t'.
    set (t1 := set_by_entry (delete (parent, name) _) _) in *.
    set (t2 := set_by_entry (delete (new_parent, new_name) _) _) in *.
    set (t3 := match InodeTable.by_entry t1 !! (new_parent, new_name) with Some _ => _ | None => t2 end).
    assert (entries_known s t3) as Hd3.
    { subst t3. destruct (InodeTable.by_entry t1 !! (new_parent, new_name)) as [d|] eqn:Ed; [|done].
      destruct (bool_decide _); [|done]. apply place_known; [done|]. by eapply Hd1. }
    destruct (InodeTable.by_entry (inodes s) !! (parent, name)) as [i|] eqn:Ei; [|done].
    apply place_known; [done|]. by eapply Hs. }
  by split_and!.
Qed.

Lemma node_fresh s : adapter_ok s → ∀ i n, node_at s i = Some n → i ≠ next_inode s.
Proof. intros Hs i n Hi ->. pose proof (ao_next s Hs (next_inode s) (stands_known _ _ _ Hi)). lia. Qed.

Lemma assign_ok s node parent :
  adapter_ok s → InodeTable.by_node (inodes s) !! node = None → next_inode s ≠ u64_max →
  let t := inodes s in
  let s' := with_inodes (InodeTable.Mk (<[next_inode s := InodeRecord.Mk node parent]> (InodeTable.by_inode t))
              (<[node := next_inode s]> (InodeTable.by_node t)) (InodeTable.by_entry t) (InodeTable.lookups t))
              (with_next_inode (next_inode s + 1) s) in
  adapter_ok s' ∧ extends s s' ∧ node_at s' (next_inode s) = Some node.
Proof.
  intros Hs Hnew Hmax t s'.
  assert (∀ i, node_at s' i = if decide (i = next_inode s) then Some node else node_at s i) as Hn.
  { intros i. unfold node_at, s'. simpl. destruct (decide _) as [->|Hne]; [by rewrite lookup_insert_eq|].
    by rewrite lookup_insert_ne. }
  assert (extends s s') as Hx.
  { split; simpl; [|by eauto| |lia|by apply same_counts].
    - intros i n Hi. rewrite Hn, decide_False by (by eapply node_fresh). done.
    - intros i n. rewrite Hn. destruct (decide _); [right; lia|by left]. }
  split_and!; [|done|by rewrite Hn, decide_True].
  destruct Hs as [Hr Hb He Hl Hxt Hh Hd Ho Hp [Hbo Hbo'] Hnum]. split; simpl.
  - by apply Hx.
  - intros n i. rewrite Hn. destruct (decide (n = node)) as [->|Hne].
    + rewrite lookup_insert_eq. destruct (decide (i = next_inode s)) as [->|Hni]; [done|]. split; [congruence|].
      intros Hi. apply Hb in Hi. congruence.
    + rewrite lookup_insert_ne by done. destruct (decide (i = next_inode s)) as [->|Hni]; [|apply Hb]. split; [|congruence].
      intros Hi%Hb. exfalso. pose proof (Hxt _ (stands_known _ _ _ Hi)). lia.
  - intros k i Hk%He. by eapply known_extends.
  - exact Hl.
  - intros i [n Hi]%known_node. rewrite Hn in Hi. destruct (decide _) as [->|]; [unfold ROOT_INODE in *; lia|].
    pose proof (Hxt _ (stands_known _ _ _ Hi)). lia.
  - intros h r Hr'%Hh. by eapply known_extends.
  - intros h r Hr'%Hd. by eapply known_extends.
  - done.
  - done.
  - lia.
  - done.
Qed.

Lemma assign_steady node parent :
  steady (λ s, InodeTable.by_node (inodes s) !! node = None) (assign_inode node parent) (λ i, stands_for i node).
Proof.
  intros s Hs Hnew. unfold assign_inode. sm_unfold. simpl. destruct (next_inode s =? u64_max) eqn:Em; bool_simpl; simpl.
  - by split_and!.
  - destruct (assign_ok s node parent Hs Hnew Em) as (? & ? & ?). split_and!; [done|done|]. by intros i' [= <-].
Qed.

(** Binding without keeping what was known. *)
Lemma s_seq {A B} (P : AS → Prop) (m : AM A) (k : A → AM B) (Q : A → AS → Prop) (Q' : B → AS → Prop) :
  steady P m Q → (∀ a, steady (Q a) (k a) Q') → steady P (mbind k m) Q'.
Proof.
  intros Hm Hk s Hs Hp. destruct (Hm s Hs Hp) as (Hs1 & Hx1 & Ha). unfold mbind, sm_bind.
  destruct (m s) as [[a|e] s1]; simpl in *; [|done].
  destruct (Hk a s1 Hs1 (Ha a eq_refl)) as (Hs2 & Hx2 & Hb). split_and!; [done|by etrans|done].
Qed.

Lemma remember_entry_steady P node parent name : steady P (remember_entry node parent name) (λ i, stands_for i node).
Proof.
  unfold remember_entry. eapply s_seq; [by apply s_gets with (Q := λ o s, InodeTable.by_node (inodes s) !! node = o)|].
  intros o. eapply s_seq with (Q := λ i, stands_for i node).
  { destruct o as [i|]; [|apply assign_steady]. apply s_ret. intros s Hs Hi. by apply (ao_nodes s Hs). }
  intros i. apply (s_bind _ _ _ (λ _ _, True)); [apply stands_lasting| |].
  - apply on_table_steady. intros s Hs Hi. split_and!; simpl; [done|done| |done].
    intros k j [[<- <-]|[_ ?]]%lookup_insert_Some; [by eapply stands_known|by eapply Hs].
  - intros _. apply s_ret. by intros s _ [? _].
Qed.

(** ** Caches *)

Ltac alike_step :=
  apply s_alike; [intros s; sm_unfold; repeat case_match; by split_and!|by intros].

Lemma cached_metadata_steady P n : keeps P (cached_metadata n).
Proof. unfold cached_metadata. alike_step. Qed.
Lemma remember_metadata_steady P m : keeps P (remember_metadata m).
Proof. unfold remember_metadata. alike_step. Qed.
Lemma cached_directory_steady P i : keeps P (cached_directory i).
Proof. unfold cached_directory. alike_step. Qed.
Lemma directory_operation_steady P n : keeps P (directory_operation n).
Proof. unfold directory_operation. alike_step. Qed.
Lemma invalidate_views_steady P n : keeps P (invalidate_node_views n).
Proof. unfold invalidate_node_views. alike_step. Qed.
Lemma cached_xattrs_steady P n : keeps P (cached_xattrs n).
Proof. unfold cached_xattrs. alike_step. Qed.
Lemma update_xattrs_steady P n r name f : keeps P (update_xattrs n r name f).
Proof. unfold update_xattrs. alike_step. Qed.
Lemma xattr_snapshot_steady P n r x : keeps P (remember_xattr_snapshot n r x).
Proof. unfold remember_xattr_snapshot. alike_step. Qed.
Lemma spawn_steady P b : keeps P (spawn b).
Proof. unfold spawn. alike_step. Qed.
Lemma entry_node_steady P parent name : keeps P (entry_node parent name).
Proof. unfold entry_node. alike_step. Qed.
Lemma xattr_revision_steady P n : keeps P (xattr_revision n).
Proof. unfold xattr_revision. alike_step. Qed.

Lemma find_entry_steady P parent name :
  steady P (find_entry_inode fold parent name) (λ o s, ∀ i, o = Some i → known i s).
Proof.
  apply s_alike; [intros s; unfold find_entry_inode; sm_unfold; repeat case_match; by split_and!|].
  intros s o Hs _. unfold find_entry_inode. sm_unfold. simpl.
  destruct (InodeTable.by_entry (inodes s) !! (parent, name)) as [i|] eqn:Ei.
  { intros [= <-] j [= <-]. by eapply Hs. }
  destruct (negb (utf8_valid name)); [by intros [= <-]|].
  set (l := map_to_list _). destruct l.*2 as [|i [|? ?]] eqn:El; simpl; try done; [by intros [= <-]|].
  intros [= <-] j [= <-].
  assert (i ∈ l.*2) as Hi by (rewrite El; by left).
  apply list_elem_of_fmap in Hi as ([k x] & -> & Hl). apply elem_of_map_to_list in Hl.
  apply map_lookup_filter_Some in Hl as [Hl _]. by eapply Hs.
Qed.

(** Follow the callback by the rule of its first step. *)
Ltac steady_one :=
  lazymatch goal with
  | |- steady _ (mret _) _ => apply s_ret; by eauto
  | |- steady _ (sm_err _) _ => apply s_err
  | |- steady _ (sm_lift _) _ => apply s_lift; by eauto
  | |- steady _ (sm_guard _ _) _ => apply s_guard
  | |- steady _ (ask _ _) _ => apply s_ask
  | |- steady _ (sm_gets _) _ => apply s_gets; by eauto
  | |- steady _ (cached_metadata _) _ => apply cached_metadata_steady
  | |- steady _ (remember_metadata _) _ => apply remember_metadata_steady
  | |- steady _ (cached_directory _) _ => apply cached_directory_steady
  | |- steady _ (directory_operation _) _ => apply directory_operation_steady
  | |- steady _ (invalidate_node_views _) _ => apply invalidate_views_steady
  | |- steady _ (cached_xattrs _) _ => apply cached_xattrs_steady
  | |- steady _ (update_xattrs _ _ _ _) _ => apply update_xattrs_steady
  | |- steady _ (remember_xattr_snapshot _ _ _) _ => apply xattr_snapshot_steady
  | |- steady _ (spawn _) _ => apply spawn_steady
  | |- steady _ (entry_node _ _) _ => apply entry_node_steady
  | |- steady _ (xattr_revision _) _ => apply xattr_revision_steady
  | |- steady _ (inode_record _) _ => eapply s_weaken; [apply inode_record_steady|by auto|by auto]
  | |- steady _ (remember_entry _ _ _) _ => eapply s_weaken; [apply remember_entry_steady|by auto|by auto]
  | |- steady _ (forget_entry _ _) _ => apply forget_entry_steady
  | |- steady _ (move_entry _ _ _ _ _) _ => apply move_entry_steady
  | |- steady _ (reconcile_directory_entries _ _) _ => apply reconcile_steady
  | |- steady _ (let '(_, _) := ?x in _) _ => destruct x
  | |- steady _ (if ?b then _ else _) _ => destruct b
  | |- steady _ (match ?r with _ => _ end) _ => destruct r
  end.
(** What is known is not needed. *)
Ltac steady_plain := repeat first
  [ steady_one
  | lazymatch goal with |- steady _ (mbind _ _) _ => apply (s_seq _ _ _ (λ _ _, True)); [|intros ?] end ].

Lemma invalidate_directory_steady P i : keeps P (invalidate_directory i).
Proof. unfold invalidate_directory. steady_plain. Qed.

Lemma remember_entries_steady P i l : keeps P (remember_entries i l).
Proof.
  revert P. induction l as [|e l IH]; intros P; cbn [remember_entries]; [steady_plain|]. cbv zeta.
  steady_plain. apply IH.
Qed.

Lemma directory_snapshot_steady P i parent x : keeps P (remember_directory_snapshot fold i parent x).
Proof.
  unfold remember_directory_snapshot. cbv zeta. steady_plain.
  - apply remember_entries_steady.
  - alike_step.
Qed.

Lemma view_entries_steady P l : keeps P (remember_view_entries l).
Proof.
  revert P. induction l as [|e l IH]; intros P; cbn [remember_view_entries]; [steady_plain|]. cbv zeta.
  steady_plain. apply IH.
Qed.

Lemma directory_view_steady P i record view : keeps P (remember_directory_view fold i record view).
Proof. unfold remember_directory_view. cbv zeta. steady_plain; [apply view_entries_steady|apply directory_snapshot_steady]. Qed.

Lemma lookup_listing_steady P parent listing name :
  steady P (lookup_from_listing fold parent listing name) (λ r s, known (LookupResult.inode r) s).
Proof.
  unfold lookup_from_listing. do 2 (apply (s_seq _ _ _ (λ _ _, True)); [steady_plain|intros ?]).
  eapply s_seq; [apply (remember_entry_steady (λ _, True))|]. intros i.
  apply (s_bind _ _ _ (λ _ _, True)); [apply stands_lasting|eapply s_weaken; [apply add_lookup_steady|intros s _; apply stands_known|done]|].
  intros _. apply (s_bind _ _ _ (λ _ _, True)); [apply and_lasting; [apply stands_lasting|done]|apply remember_metadata_steady|].
  intros _. apply s_ret. intros s _ [[Hi _] _]. by eapply stands_known.
Qed.

(** ** Handles *)

Lemma take_number_steady P :
  steady P take_handle_number (λ h s, h < next_handle s ∧ handles s !! h = None ∧ directory_handles s !! h = None ∧
    ∀ p, pending_writes s !! h ≠ Some p).
Proof.
  intros s Hs Hp. unfold take_handle_number. sm_unfold. simpl. destruct (next_handle s =? u64_max) eqn:E; bool_simpl; simpl.
  { by split_and!. }
  pose proof (ao_numbers s Hs) as Hnum.
  destruct Hs as [Hr Hb He Hl Hxt Hh Hd Ho Hpd [Hbo [Hbo1 Hbo2]] _]. split_and!.
  - split; simpl; try done.
    + intros h p Hj. destruct (Hpd h p Hj) as [Hn Hi]. split; [simpl; lia|exact Hi].
    + lia.
    + intros h Hh'. specialize (Hnum h Hh'). lia.
  - split; simpl; eauto; (lia || by apply same_counts).
  - intros h [= <-]. simpl. split_and!; [lia| | |intros p Hj; destruct (Hpd _ p Hj); lia].
    + destruct (handles s !! next_handle s) eqn:E2; [|done]. specialize (Hnum (next_handle s)). rewrite E2 in Hnum.
      assert (next_handle s < next_handle s) by (apply Hnum; by left; eexists). lia.
    + destruct (directory_handles s !! next_handle s) eqn:E2; [|done]. specialize (Hnum (next_handle s)). rewrite E2 in Hnum.
      assert (next_handle s < next_handle s) by (apply Hnum; by right; eexists). lia.
Qed.

Lemma insert_handle_ok s h r :
  adapter_ok s → known (FileHandleRecord.inode r) s → h < next_handle s → handles s !! h = None →
  (∀ p, pending_writes s !! h ≠ Some p) →
  let s' := with_handle_operations ({[h]} ∪ handle_operations s) (with_handles (<[h := r]> (handles s)) s) in
  adapter_ok s' ∧ extends s s'.
Proof.
  intros Hs Hr Hh Hnew Hfresh. pose proof (ao_operations s Hs) as Ho. split.
  - destruct Hs. split; simpl; try done.
    + intros j q [[<- <-]|[_ ?]]%lookup_insert_Some; [done|by eapply ao_handles0].
    + by rewrite dom_insert_L, Ho.
    + intros j p Hj. destruct (ao_pending0 j p Hj) as [Hjn Hi]. split; [done|]. simpl. intros q [[-> _]|[_ ?]]%lookup_insert_Some.
      * by apply Hfresh in Hj.
      * by apply Hi.
    + intros j [Hj|Hj]; [|by apply ao_numbers0; right]. destruct (decide (h = j)) as [<-|Hne]; [done|].
      rewrite lookup_insert_ne in Hj by done. apply ao_numbers0. by left.
  - split; simpl; eauto; [|lia|by apply same_counts]. intros j q Hj. exists q. split; [|done]. rewrite lookup_insert_ne; [done|congruence].
Qed.

Lemma remember_file_handle_steady i access opened : keeps (known i) (remember_file_handle i access opened).
Proof.
  unfold remember_file_handle. eapply s_bind; [apply known_inode_lasting|apply take_number_steady|]. intros h.
  intros s Hs (Hi & Hh & Hnew & _ & Hfresh). sm_unfold. simpl.
  destruct (insert_handle_ok s h (FileHandleRecord.Mk (OpenedFile.handle opened) i access (OpenedFile.revision opened)
    (OpenedFile.size opened) false) Hs Hi Hh Hnew Hfresh) as [? ?]. by split_and!.
Qed.

(** The handle is open for the inode. *)
Definition opened_for (h i : Z) (s : AS) : Prop := ∃ r, handles s !! h = Some r ∧ FileHandleRecord.inode r = i.

Lemma opened_lasting h i : lasting (opened_for h i).
Proof. intros s s' Hx (r & Hr & <-). by apply Hx. Qed.

Lemma file_handle_steady P h : steady P (file_handle h) (λ r s, opened_for h (FileHandleRecord.inode r) s ∧ known (FileHandleRecord.inode r) s).
Proof.
  intros s Hs Hp. unfold file_handle. sm_unfold. simpl. destruct (handles s !! h) as [r|] eqn:E; simpl; split_and!; try done.
  intros r' [= <-]. split; [by exists r|]. by apply (ao_handles s Hs h).
Qed.

Lemma update_handle_ok s h r r' :
  adapter_ok s → handles s !! h = Some r → FileHandleRecord.inode r' = FileHandleRecord.inode r →
  adapter_ok (with_handles (<[h := r']> (handles s)) s) ∧ extends s (with_handles (<[h := r']> (handles s)) s).
Proof.
  intros Hs Hr Hi. pose proof (ao_operations s Hs) as Ho. pose proof (ao_handles s Hs h r Hr) as Hk. split.
  - destruct Hs. split; simpl; try done.
    + intros j q [[<- <-]|[_ ?]]%lookup_insert_Some; [by rewrite Hi|by eapply ao_handles0].
    + rewrite dom_insert_lookup_L by done. exact Ho.
    + intros j p Hj. destruct (ao_pending0 j p Hj) as [Hjn Hiq]. split; [done|]. simpl.
      intros q [[<- <-]|[_ ?]]%lookup_insert_Some; [rewrite Hi|]; by apply Hiq.
    + intros j [Hj|Hj]; [|by apply ao_numbers0; right]. apply ao_numbers0. left.
      destruct (decide (h = j)) as [<-|Hne]; [by rewrite Hr|by rewrite lookup_insert_ne in Hj].
  - split; simpl; eauto; [|lia|by apply same_counts]. intros j q Hj. destruct (decide (h = j)) as [<-|Hne].
    + exists r'. rewrite lookup_insert_eq. split; [done|]. simplify_eq. done.
    + exists q. by rewrite lookup_insert_ne.
Qed.

Lemma update_file_handle_steady P h revision size : keeps P (update_file_handle h revision size).
Proof.
  intros s Hs Hp. unfold update_file_handle, file_handle. sm_unfold. simpl.
  destruct (handles s !! h) as [r|] eqn:E; simpl; [|by split_and!].
  destruct (update_handle_ok s h r (FileHandleRecord.Mk (FileHandleRecord.remote r) (FileHandleRecord.inode r)
    (FileHandleRecord.access r) revision size (FileHandleRecord.used_locks r)) Hs E eq_refl). by split_and!.
Qed.

Lemma file_operation_steady P h : keeps P (file_operation h).
Proof. unfold file_operation. steady_plain. Qed.

(** ** Writes *)

Lemma set_pending_ok s m :
  adapter_ok s → (∀ h p, m !! h = Some p → buffered_for h p s) →
  adapter_ok (with_pending_writes m s) ∧ extends s (with_pending_writes m s).
Proof. intros Hs Hm. split; [|split; simpl; eauto; (lia || by apply same_counts)]. destruct Hs. by split. Qed.

Lemma delete_pending_steady P h : keeps P (sm_modify (λ s, with_pending_writes (delete h (pending_writes s)) s)).
Proof.
  apply s_modify. intros s Hs _.
  destruct (set_pending_ok s (delete h (pending_writes s)) Hs) as [? ?]; [|by split_and!].
  intros j p [_ Hj]%lookup_delete_Some. by eapply Hs.
Qed.

Lemma capabilities_steady P : keeps P (capabilities_async fate).
Proof. unfold capabilities_async. steady_plain. alike_step. Qed.

Lemma require_writable_steady P : keeps P (require_writable fate).
Proof. unfold require_writable. apply (s_seq _ _ _ (λ _ _, True)); [apply capabilities_steady|intros c; steady_plain]. Qed.

Lemma write_chunks_steady P fuel remote chunk data written position revision size :
  keeps P (write_chunks fate fuel remote chunk data written position revision size).
Proof.
  revert P written position revision size. induction fuel as [|fuel IH]; intros P written position revision size;
    cbn [write_chunks]; [steady_plain|]. cbv zeta. steady_plain. apply IH.
Qed.

Lemma write_through_steady P h offset data : keeps P (write_through fate h offset data).
Proof.
  unfold write_through. cbv zeta. destruct (_ =? _); [steady_plain|].
  apply (s_seq _ _ _ (λ _ _, True)); [eapply s_weaken; [apply (file_handle_steady (λ _, True))|done|done]|]. intros opened.
  apply (s_seq _ _ _ (λ _ _, True)); [apply capabilities_steady|]. intros c.
  destruct (_ =? _); [steady_plain|].
  apply (s_seq _ _ _ (λ _ _, True)); [apply write_chunks_steady|]. intros [revision size].
  apply (s_seq _ _ _ (λ _ _, True)); [apply update_file_handle_steady|]. intros _. steady_plain.
Qed.

Lemma flush_pending_steady P h : keeps P (flush_pending fate h).
Proof.
  unfold flush_pending. apply (s_seq _ _ _ (λ _ _, True)); [steady_plain|]. intros o.
  apply (s_seq _ _ _ (λ _ _, True)); [apply delete_pending_steady|]. intros _.
  destruct o; [apply write_through_steady|steady_plain].
Qed.

Lemma flush_each_steady P l : keeps P (flush_each fate l).
Proof.
  revert P. induction l as [|h l IH]; intros P; cbn [flush_each]; [steady_plain|].
  apply (s_seq _ _ _ (λ _ _, True)); [apply flush_pending_steady|]. intros _. apply IH.
Qed.

(** * Callbacks *)

Ltac steady_call :=
  lazymatch goal with
  | |- steady _ (capabilities_async _) _ => apply capabilities_steady
  | |- steady _ (require_writable _) _ => apply require_writable_steady
  | |- steady _ (check_name _) _ => apply s_guard
  | |- steady _ (check_supported _) _ => apply s_guard
  | |- steady _ (file_operation _) _ => apply file_operation_steady
  | |- steady _ (file_handle _) _ => eapply s_weaken; [apply (file_handle_steady (λ _, True))|done|done]
  | |- steady _ (update_file_handle _ _ _) _ => apply update_file_handle_steady
  | |- steady _ (flush_pending _ _) _ => apply flush_pending_steady
  | |- steady _ (write_through _ _ _ _) _ => apply write_through_steady
  | |- steady _ (flush_each _ _) _ => apply flush_each_steady
  | |- steady _ (invalidate_directory _) _ => apply invalidate_directory_steady
  | |- steady _ (invalidate_known _) _ => unfold invalidate_known
  | |- steady _ (xattr_node _) _ => unfold xattr_node
  | |- steady _ (adopt_written _ _ _) _ => unfold adopt_written
  | |- steady _ (directory_listing _ _) _ => unfold directory_listing, directory_handle
  | |- steady _ (remember_xattr_size _ _ _ _) _ => unfold remember_xattr_size
  | |- steady _ (remember_xattr_value _ _ _ _) _ => unfold remember_xattr_value
  | |- steady _ (ask_anyway _ _) _ => idtac
  | |- steady _ (mbind _ _) _ => apply (s_seq _ _ _ (λ _ _, True)); [|intros ?]
  | _ => steady_one
  end.
Ltac steady_all := repeat steady_call.

Lemma getattr_steady P i : keeps P (getattr_async fate i).
Proof. unfold getattr_async. steady_all. Qed.

Lemma readdir_steady P i : keeps P (readdir_async fate fold i).
Proof. unfold readdir_async. steady_all. apply directory_view_steady. Qed.

Lemma lookup_steady P parent name :
  steady P (lookup_async fate fold parent name) (λ r s, known (LookupResult.inode r) s).
Proof.
  unfold lookup_async. do 2 (apply (s_seq _ _ _ (λ _ _, True)); [steady_call|intros ?]).
  destruct a0 as [listing|]; [apply lookup_listing_steady|].
  eapply s_seq; [apply (find_entry_steady (λ _, True))|]. intros [i|].
  - eapply s_weaken with (P := known i) (Q := λ r s, known (LookupResult.inode r) s); [|intros s _ Hi; by apply Hi|done].
    apply (s_bind _ _ _ (λ _ _, True)); [apply known_inode_lasting|apply getattr_steady|]. intros m.
    apply (s_bind _ _ _ (λ _ _, True)); [apply and_lasting; [apply known_inode_lasting|done]| |].
    + eapply s_weaken; [apply add_lookup_steady|by intros s _ [? _]|done].
    + intros _. apply s_ret. by intros s _ [[? _] _].
  - apply (s_seq _ _ _ (λ _ _, True)); [apply readdir_steady|]. intros listing. apply lookup_listing_steady.
Qed.

Lemma insert_directory_ok s h r :
  adapter_ok s → known (DirectoryHandleRecord.inode r) s → h < next_handle s →
  let s' := with_directory_handles (<[h := r]> (directory_handles s)) s in adapter_ok s' ∧ extends s s'.
Proof.
  intros Hs Hr Hh. split; [|split; simpl; eauto; (lia || by apply same_counts)]. destruct Hs. split; simpl; try done.
  - intros j q [[<- <-]|[_ ?]]%lookup_insert_Some; [done|by eapply ao_directories0].
  - intros j [Hj|Hj]; [apply ao_numbers0; by left|]. destruct (decide (h = j)) as [<-|Hne]; [done|].
    rewrite lookup_insert_ne in Hj by done. apply ao_numbers0. by right.
Qed.

Lemma opendir_steady P i : keeps P (opendir_async fate fold i).
Proof.
  unfold opendir_async. apply (s_seq _ _ _ (λ _ _, True)); [steady_call|]. intros o.
  apply (s_seq _ _ _ (λ _ _, True)); [destruct o; [steady_all|apply readdir_steady]|]. intros listing.
  apply (s_seq _ _ _ (λ _ s, known i s)).
  { unfold getattr_async. eapply s_seq; [apply (inode_record_steady (λ _, True))|]. intros record.
    eapply s_weaken with (P := known i); [|intros s _; apply stands_known|by intros a s H; exact H].
    apply (s_bind _ _ _ (λ _ _, True)); [apply known_inode_lasting|steady_all|]. intros c.
    apply (s_bind _ _ _ (λ _ _, True)); [apply and_lasting; [apply known_inode_lasting|done]|steady_all|]. intros m.
    apply (s_bind _ _ _ (λ _ _, True)); [repeat apply and_lasting; [apply known_inode_lasting|done|done]|steady_all|]. intros e.
    destruct e; apply s_ret; naive_solver. }
  intros m. destruct (negb _); [apply s_err|].
  apply (s_bind _ _ _ (λ _ _, True)); [apply known_inode_lasting|destruct (_ =? _); [steady_all|apply getattr_steady]|]. intros parent.
  eapply s_bind; [apply and_lasting; [apply known_inode_lasting|done]|apply take_number_steady|]. intros h.
  intros s Hs ((Hi & _) & Hh & _). sm_unfold. simpl.
  destruct (insert_directory_ok s h (DirectoryHandleRecord.Mk i listing m parent) Hs Hi Hh). by split_and!.
Qed.

Lemma releasedir_steady P h : keeps P (releasedir h).
Proof.
  unfold releasedir. apply (s_seq _ _ _ (λ _ _, True)); [unfold directory_handle; steady_all|]. intros r.
  apply (s_seq _ _ _ (λ _ _, True)); [|intros _; steady_all].
  apply s_modify. intros s Hs _. split_and!; [|split; simpl; eauto; (lia || by apply same_counts)|done]. destruct Hs. split; simpl; try done.
  - intros j q [_ ?]%lookup_delete_Some. by eapply ao_directories0.
  - intros j [Hj|Hj]; [apply ao_numbers0; by left|]. apply ao_numbers0. right.
    destruct Hj as [q [_ Hj]%lookup_delete_Some]. by eexists.
Qed.

Lemma ask_anyway_steady {A} P (c : remote_call A) : keeps P (ask_anyway fate c).
Proof.
  intros s Hs Hp. destruct (s_ask P c s Hs Hp) as (? & ? & _). unfold ask_anyway.
  destruct (ask fate c s) as [[a|e] s']; simpl in *; [by split_and!|]. destruct e; by split_and!.
Qed.

(** A handle is made for a known inode, or the remote handle is closed. *)
Lemma keep_or_close_steady {B} i access opened (f : Z → B) :
  keeps (known i) (r ← sm_try (remember_file_handle i access opened);
    match r with Ok h => mret (f h) | Err e => _ ← ask_anyway fate (CloseFile (OpenedFile.handle opened)); sm_err e end).
Proof.
  apply (s_seq _ _ _ (λ _ _, True)); [eapply s_weaken; [eapply s_try, remember_file_handle_steady|done|done]|]. intros [h|e]; steady_all.
  apply ask_anyway_steady.
Qed.

Lemma open_steady P i options : keeps P (open_async fate i options).
Proof.
  unfold open_async. apply (s_seq _ _ _ (λ _ _, True)); [steady_all|]. intros _.
  eapply s_seq; [apply (inode_record_steady (λ _, True))|]. intros record.
  apply s_weaken with (P := known i) (Q := λ _ _, True); [|intros s _; apply stands_known|done].
  apply (s_bind _ _ _ (λ _ _, True)); [apply known_inode_lasting|apply s_ask|]. intros opened.
  eapply s_weaken; [apply (keep_or_close_steady i _ opened id)|by intros s _ [? _]|done].
Qed.

Lemma adopt_created_steady P parent name m : steady P (adopt_created parent name m) known.
Proof.
  unfold adopt_created. do 3 (apply (s_seq _ _ _ (λ _ _, True)); [steady_call|intros _]).
  eapply s_seq; [apply (remember_entry_steady (λ _, True))|]. intros i.
  eapply s_weaken with (P := known i) (Q := known); [|intros s _; apply stands_known|done].
  apply (s_bind _ _ _ (λ _ _, True)); [apply known_inode_lasting|apply add_lookup_steady|]. intros _. apply s_ret. by intros s _ [? _].
Qed.

Lemma create_file_steady P parent name mode options : keeps P (create_file_async fate parent name mode options).
Proof.
  unfold create_file_async. do 4 (apply (s_seq _ _ _ (λ _ _, True)); [steady_call|intros ?]). cbv zeta.
  eapply s_seq; [apply (adopt_created_steady (λ _, True))|]. intros i.
  apply (keep_or_close_steady i _ (CreatedFile.opened a2) (λ h, CreatedAndOpenedFile.Mk i (CreatedFile.metadata a2) h)).
Qed.

Ltac created := eapply s_weaken; [apply (adopt_created_steady (λ _, True))|done|done].

Lemma create_directory_steady P parent name mode : keeps P (create_directory_async fate parent name mode).
Proof. unfold create_directory_async. steady_all. created. Qed.
Lemma create_symlink_steady P parent name target : keeps P (create_symlink_async fate parent name target).
Proof. unfold create_symlink_async. steady_all. created. Qed.
Lemma create_special_steady P parent name kind mode a b : keeps P (create_special_node_async fate parent name kind mode a b).
Proof. unfold create_special_node_async. steady_all. created. Qed.

Lemma create_hard_link_steady P i parent name : keeps P (create_hard_link_async fate i parent name).
Proof.
  unfold create_hard_link_async. do 4 (apply (s_seq _ _ _ (λ _ _, True)); [steady_call|intros ?]). cbv zeta.
  do 6 (apply (s_seq _ _ _ (λ _ _, True)); [steady_call|intros ?]).
  eapply s_seq; [apply (remember_entry_steady (λ _, True))|]. intros j.
  apply (s_seq _ _ _ (λ _ _, True)); [|intros _; steady_all].
  eapply s_weaken; [apply add_lookup_steady|intros s _; apply stands_known|done].
Qed.

Lemma readlink_steady P i : keeps P (readlink_async fate i).
Proof. unfold readlink_async. steady_all. Qed.
Lemma remove_steady P parent name directory : keeps P (remove_async fate parent name directory).
Proof. unfold remove_async. steady_all. Qed.
Lemma rename_steady P parent name new_parent new_name mode : keeps P (rename_async fate parent name new_parent new_name mode).
Proof. unfold rename_async. steady_all. Qed.
Lemma exchange_steady P parent name new_parent new_name options :
  keeps P (exchange_data_async fate parent name new_parent new_name options).
Proof. unfold exchange_data_async. steady_all. Qed.
Lemma volume_name_steady P name : keeps P (set_volume_name_async fate name).
Proof. unfold set_volume_name_async. steady_all. alike_step. Qed.

Lemma setattr_steady P i h x : keeps P (setattr_async fate map_order i h x).
Proof. unfold setattr_async, flush_pending_for_inode. steady_all. Qed.

Lemma read_chunks_steady P fuel remote chunk offset length data remaining position expected restarted :
  keeps P (read_chunks fate fuel remote chunk offset length data remaining position expected restarted).
Proof.
  revert P data remaining position expected restarted. induction fuel as [|fuel IH];
    intros P data remaining position expected restarted; cbn [read_chunks]; [steady_plain|]. cbv zeta. steady_plain; apply IH.
Qed.

Lemma read_steady P h offset length : keeps P (read_async fate h offset length).
Proof. unfold read_async. cbv zeta. steady_all. apply read_chunks_steady. Qed.

Lemma set_pending_steady h i start data :
  keeps (opened_for h i) (sm_modify (λ s, with_pending_writes (<[h := PendingWrite.Mk i start data]> (pending_writes s)) s)).
Proof.
  apply s_modify. intros s Hs Hi.
  destruct (set_pending_ok s (<[h := PendingWrite.Mk i start data]> (pending_writes s)) Hs) as [? ?]; [|by split_and!].
  intros j p [[<- <-]|[_ Hj]]%lookup_insert_Some; [|by apply (ao_pending s Hs)].
  destruct Hi as (r & Hr & Hi). split; [apply (ao_numbers s Hs); left; by eexists|]. intros r' Hr'. simplify_eq. done.
Qed.

Lemma append_pending_steady P h data :
  keeps P (sm_modify (λ s, with_pending_writes
    (alter (λ p, PendingWrite.Mk (PendingWrite.inode p) (PendingWrite.start p) (PendingWrite.buffer p ++ data))
       h (pending_writes s)) s)).
Proof.
  apply s_modify. intros s Hs _.
  match goal with |- context [with_pending_writes ?m s] => destruct (set_pending_ok s m Hs) as [? ?]; [|by split_and!] end.
  intros j p [(-> & q & Hq & ->)|[_ Hj]]%lookup_alter_Some; [exact (ao_pending s Hs j q Hq)|exact (ao_pending s Hs j p Hj)].
Qed.

Lemma write_steady P h offset data : keeps P (write_async fate h offset data).
Proof.
  unfold write_async. cbv zeta. do 3 (apply (s_seq _ _ _ (λ _ _, True)); [steady_call|intros ?]).
  eapply s_seq; [apply (file_handle_steady (λ _, True))|]. intros opened.
  apply s_weaken with (P := opened_for h (FileHandleRecord.inode opened)) (Q := λ _ _, True); [|by intros s _ [? _]|done].
  set (P' := opened_for _ _). assert (lasting P') as HP by apply opened_lasting.
  destruct (negb _); [apply s_err|]. destruct (_ =? _); [apply s_err|].
  apply (s_bind _ _ _ (λ _ _, True)); [done|steady_all|]. intros pending.
  destruct (match pending with Some _ => _ | None => _ end).
  - apply (s_seq _ _ _ (λ _ _, True)); [apply append_pending_steady|]. intros _. steady_all.
  - apply s_weaken with (P := P') (Q := λ _ _, True); [|by intros s _ [? _]|done].
    apply (s_bind _ _ _ (λ _ _, True)); [done|apply delete_pending_steady|]. intros _.
    apply s_weaken with (P := P') (Q := λ _ _, True); [|by intros s _ [? _]|done].
    apply (s_bind _ _ _ (λ _ _, True)); [done|destruct pending; steady_all|]. intros _.
    apply (s_seq _ _ _ (λ _ _, True)); [|intros _; steady_all].
    destruct (_ <? _); [|apply write_through_steady].
    eapply s_weaken; [apply set_pending_steady|by intros s _ [? _]|done].
Qed.

Lemma flush_steady P h owner : keeps P (flush_async fate h owner).
Proof. unfold flush_async. steady_all. Qed.
Lemma fsync_steady P h data_only : keeps P (fsync_async fate h data_only).
Proof. unfold fsync_async. steady_all. Qed.
Lemma fsyncdir_steady P i h : keeps P (fsyncdir_async fate i h).
Proof. unfold fsyncdir_async. steady_all. Qed.
Lemma allocate_steady P h offset length : keeps P (allocate_async fate h offset length).
Proof. unfold allocate_async. steady_all. Qed.
Lemma copy_range_steady P a b c d e : keeps P (copy_file_range_async fate a b c d e).
Proof. unfold copy_file_range_async. steady_all. Qed.
Lemma lseek_steady P h offset w : keeps P (lseek_async fate h offset w).
Proof. unfold lseek_async. steady_all. Qed.
Lemma ioctl_steady P h o : keeps P (safe_ioctl_async fate h o).
Proof. unfold safe_ioctl_async. steady_all. Qed.
Lemma bmap_steady P i a b : keeps P (map_block_async fate i a b).
Proof. unfold map_block_async. steady_all. Qed.
Lemma get_lock_steady P h l : keeps P (get_lock_async fate h l).
Proof. unfold get_lock_async. steady_all. Qed.

Lemma set_lock_steady P h l w : keeps P (set_lock_async fate h l w).
Proof.
  unfold set_lock_async. do 5 (apply (s_seq _ _ _ (λ _ _, True)); [steady_call|intros ?]).
  apply s_modify. intros s Hs _. destruct (handles s !! h) as [r|] eqn:E.
  - set (r' := FileHandleRecord.Mk (FileHandleRecord.remote r) (FileHandleRecord.inode r)
      (FileHandleRecord.access r) (FileHandleRecord.revision r) (FileHandleRecord.size r) true).
    match goal with |- context [alter ?f h (handles s)] => assert (alter f h (handles s) = <[h := r']> (handles s)) as -> end.
    { apply map_eq. intros j. destruct (decide (h = j)) as [<-|Hne].
      - by rewrite lookup_alter_eq, lookup_insert_eq, E.
      - by rewrite lookup_alter_ne, lookup_insert_ne. }
    destruct (update_handle_ok s h r r' Hs E eq_refl). by split_and!.
  - match goal with |- context [alter ?f h (handles s)] => assert (alter f h (handles s) = handles s) as -> end.
    { apply map_eq. intros j. destruct (decide (h = j)) as [<-|Hne]; [by rewrite lookup_alter_eq, E|by rewrite lookup_alter_ne]. }
    destruct (alike_adapter_ok s (with_handles (handles s) s)); [by split_and!|done|]. by split_and!.
Qed.

Lemma statfs_steady P : keeps P (statfs_async fate).
Proof. unfold statfs_async. steady_all; alike_step. Qed.
Lemma xattr_size_steady P i name : keeps P (xattr_size_async fate i name).
Proof. unfold xattr_size_async. steady_all. Qed.

Lemma xattr_chunks_steady P fuel n name chunk total value : keeps P (xattr_chunks fate fuel n name chunk total value).
Proof.
  revert P value. induction fuel as [|fuel IH]; intros P value; cbn [xattr_chunks]; [steady_plain|]. cbv zeta. steady_plain. apply IH.
Qed.

Lemma get_xattr_steady P i name : keeps P (get_xattr_async fate i name).
Proof. unfold get_xattr_async. cbv zeta. steady_all; apply xattr_chunks_steady. Qed.

Lemma set_chunks_steady P fuel n name value mode position chunk consumed :
  keeps P (set_xattr_chunks fate fuel n name value mode position chunk consumed).
Proof.
  revert P consumed. induction fuel as [|fuel IH]; intros P consumed; cbn [set_xattr_chunks]; [steady_plain|]. cbv zeta.
  destruct (_ <=? _); [steady_plain|]. do 2 (apply (s_seq _ _ _ (λ _ _, True)); [steady_one|intros ?]). apply IH.
Qed.

Lemma set_xattr_steady P i name value mode position : keeps P (set_xattr_async fate i name value mode position).
Proof. unfold set_xattr_async. cbv zeta. steady_all. apply set_chunks_steady. Qed.
Lemma list_xattrs_steady P i : keeps P (list_xattrs_async fate i).
Proof. unfold list_xattrs_async. steady_all. Qed.
Lemma remove_xattr_steady P i name : keeps P (remove_xattr_async fate i name).
Proof. unfold remove_xattr_async. steady_all. Qed.

(** * What forgets *)

(** Inodes may be gone, but no number has a new meaning. *)
Record evolves (s s' : AS) : Prop := {
  ev_new : ∀ i n, node_at s' i = Some n → node_at s i = Some n ∨ next_inode s ≤ i;
  ev_next : next_inode s ≤ next_inode s'
}.

#[global] Instance evolves_refl : Reflexive evolves.
Proof. intros s. split; eauto. lia. Qed.
#[global] Instance evolves_trans : Transitive evolves.
Proof.
  intros s1 s2 s3 [Hw Hx] [Hw' Hx']. split; [|lia]. intros i n [Hi|Hi]%Hw'; [by apply Hw|right; lia].
Qed.
Lemma extends_evolves s s' : extends s s' → evolves s s'.
Proof. intros [_ _ ? ?]. by split. Qed.

(** The kernel may count on [k] lookups of the inode. *)
Definition held (j k : Z) (s : AS) : Prop := 0 < k → known j s ∧ counted j k s.

Lemma held_extends j k s s' : extends s s' → held j k s → held j k s'.
Proof. intros Hx Hh Hk. destruct (Hh Hk). split; [by eapply known_extends|by eapply counted_lasting]. Qed.

Lemma held_less j k k' s : k' ≤ k → held j k s → held j k' s.
Proof. intros Hk Hh Hk'. destruct (Hh ltac:(lia)) as [? Hc]. split; [done|]. unfold counted in *. lia. Qed.

(** At most [d j] lookups of [j] are forgotten. *)
Definition moves_by {A} (d : Z → Z) (m : AM A) : Prop :=
  ∀ s, adapter_ok s → adapter_ok (m s).2 ∧ evolves s (m s).2 ∧ ∀ j k, held j k s → held j (k - d j) (m s).2.
Definition nothing (_ : Z) : Z := 0.
Abbreviation moves := (moves_by nothing).

Lemma steady_moves {A} (m : AM A) Q : steady (λ _, True) m Q → moves m.
Proof.
  intros Hm s Hs. destruct (Hm s Hs I) as (? & Hx & _). split_and!; [done|by apply extends_evolves|].
  intros j k Hh. eapply held_less; [|by eapply held_extends]. unfold nothing. lia.
Qed.

Lemma m_still {A} (m : AM A) : (∀ s, (m s).2 = s) → moves m.
Proof. intros Hm s Hs. rewrite Hm. split_and!; [done|done|]. intros j k. apply held_less. unfold nothing. lia. Qed.

Lemma m_bind_by {A B} d d1 d2 (m : AM A) (k : A → AM B) :
  (∀ j, d j = d1 j + d2 j) → (∀ j, 0 ≤ d2 j) → moves_by d1 m → (∀ a, moves_by d2 (k a)) → moves_by d (mbind k m).
Proof.
  intros Hd Hp Hm Hk s Hs. destruct (Hm s Hs) as (Hs1 & Hv & Hh). unfold mbind, sm_bind. destruct (m s) as [[a|e] s1]; simpl in *.
  - destruct (Hk a s1 Hs1) as (? & ? & Hh'). split_and!; [done|by etrans|]. intros j q Hq. apply Hh, Hh' in Hq.
    eapply held_less; [|exact Hq]. rewrite Hd. lia.
  - split_and!; [done|done|]. intros j q Hq. eapply held_less; [|by apply Hh]. specialize (Hp j). rewrite Hd. lia.
Qed.

Lemma m_bind {A B} (m : AM A) (k : A → AM B) : moves m → (∀ a, moves (k a)) → moves (mbind k m).
Proof. by apply m_bind_by. Qed.

Lemma m_try {A} d (m : AM A) : moves_by d m → moves_by d (sm_try m).
Proof. intros Hm s Hs. specialize (Hm s Hs). unfold sm_try. by destruct (m s). Qed.

Lemma not_in_use i (s : AS) : inode_in_use i s = false →
  (∀ h r, handles s !! h = Some r → FileHandleRecord.inode r ≠ i) ∧
  (∀ h r, directory_handles s !! h = Some r → DirectoryHandleRecord.inode r ≠ i).
Proof.
  unfold inode_in_use. intros E. apply orb_false_iff in E as [E1 E2]. bool_simpl. split.
  - intros h r Hr Hi. apply E1. by exists h, r.
  - intros h r Hr Hi. apply E2. by exists h, r.
Qed.

Lemma drop_inode_ok i s :
  adapter_ok s → i ≠ ROOT_INODE → inode_in_use i s = false →
  adapter_ok (with_inodes (drop_inode i (inodes s)).2 s) ∧ evolves s (with_inodes (drop_inode i (inodes s)).2 s) ∧
  ∀ j, known j s → j ≠ i → known j (with_inodes (drop_inode i (inodes s)).2 s).
Proof.
  intros Hs Hroot [Hfree Hfree']%not_in_use. set (s' := with_inodes _ s).
  assert (∀ j, node_at s' j = if decide (j = i) then None else node_at s j) as Hn.
  { intros j. unfold node_at, s'. simpl. destruct (decide _) as [->|]; [by rewrite lookup_delete_eq|]. by rewrite lookup_delete_ne. }
  assert (∀ j, known j s → j ≠ i → known j s') as Hk.
  { intros j [n Hj]%known_node Hne. apply known_node. exists n. by rewrite Hn, decide_False. }
  split_and!; [|split; simpl; [|lia]; intros j n; rewrite Hn; destruct (decide _); [done|by left]|exact Hk].
  assert (∀ n, InodeTable.by_node (inodes s') !! n =
    if decide (node_at s i = Some n) then None else InodeTable.by_node (inodes s) !! n) as Hby.
  { intros n. destruct (decide (node_at s i = Some n)) as [E|E]; unfold node_at in E; unfold s'; simpl;
      destruct (InodeTable.by_inode (inodes s) !! i) as [r|]; simpl in *; try done.
    - injection E as <-. apply lookup_delete_eq.
    - apply lookup_delete_ne. congruence. }
  pose proof Hs as [Hr Hb He Hl Hxt Hh Hd Ho Hp Hbo Hnum]. split.
  - rewrite Hn, decide_False; done.
  - intros n j. rewrite Hby, Hn. destruct (decide (node_at s i = Some n)) as [E|E], (decide (j = i)) as [->|Hne]; try done.
    + split; [done|]. intros Hj%Hb. apply Hb in E. congruence.
    + split; [intros Hj%Hb; congruence|done].
  - intros k j Hkj. unfold s' in Hkj. simpl in Hkj. apply map_lookup_filter_Some in Hkj as [Hkj Hne]. simpl in Hne.
    apply Hk; [by eapply He|done].
  - intros j c Hj. unfold s' in Hj. simpl in Hj. apply lookup_delete_Some in Hj as [_ Hj]. by eapply Hl.
  - intros j [n Hj]%known_node. rewrite Hn in Hj. destruct (decide _); [done|]. apply Hxt. by eapply stands_known.
  - intros h r Hr'. apply Hk; [by eapply Hh|by eapply Hfree].
  - intros h r Hr'. apply Hk; [by eapply Hd|by eapply Hfree'].
  - done.
  - done.
  - done.
  - done.
Qed.

Lemma drop_again i count t : drop_inode i (set_lookups (<[i := count]> (InodeTable.lookups t)) t) = drop_inode i t.
Proof. unfold drop_inode, set_lookups. simpl. by rewrite delete_insert_eq. Qed.

(** An inode goes when its last lookup is forgotten and nothing is open. *)
Lemma evict_moves i amount : 0 ≤ amount → moves_by (λ j, if decide (i = j) then amount else 0) (evict_inode i amount).
Proof.
  intros Hamount s Hs. unfold evict_inode. destruct (i =? ROOT_INODE) eqn:Er; bool_simpl.
  { split_and!; [done|done|]. intros j k. apply held_less. destruct (decide _); lia. }
  pose proof (looked_bounds i s Hs) as Hb. sm_unfold. simpl. unfold looked in Hb.
  set (count := u64_saturating_sub _ _). set (s1 := with_inodes _ s).
  destruct (negb (count =? 0) || inode_in_use i s) eqn:E.
  - assert (0 ≤ count ≤ u64_max) by (unfold count, u64_saturating_sub; lia).
    simpl. split_and!; [|split; [by left|done]|].
    { destruct Hs. split; simpl; try done. intros j c [[<- <-]|[_ Hc]]%lookup_insert_Some; [done|by eapply ao_counts0]. }
    intros j k Hh Hk. destruct (Hh ltac:(destruct (decide _); lia)) as [Hj Hc]. split; [exact Hj|].
    unfold counted, looked, s1 in *. simpl. destruct (decide (i = j)) as [<-|Hne].
    + rewrite lookup_insert_eq. simpl. unfold count, u64_saturating_sub. lia.
    + rewrite lookup_insert_ne by done. lia.
  - apply orb_false_iff in E as [Ez E]. bool_simpl. destruct (drop_inode_ok i s Hs Er E) as (Hs2 & Hv & Hkeep).
    change ((λ s', adapter_ok s' ∧ evolves s s' ∧ ∀ j k, held j k s → held j (k - (if decide (i = j) then amount else 0)) s')
      (with_inodes (drop_inode i (set_lookups (<[i := count]> (InodeTable.lookups (inodes s))) (inodes s))).2 s)).
    rewrite drop_again. split_and!; [done|done|]. intros j k Hh Hk. destruct (decide (i = j)) as [<-|Hne].
    + destruct (Hh ltac:(lia)) as [_ Hc]. unfold counted, looked in Hc. unfold count, u64_saturating_sub in Ez. lia.
    + replace (k - 0) with k in Hk |- * by lia. destruct (Hh Hk) as [Hj Hc]. split; [by apply Hkeep|].
      unfold counted, looked in *. simpl. by rewrite lookup_delete_ne.
Qed.

Lemma m_modify (f : AS → AS) : (∀ s, alike s (f s)) → moves (sm_modify f).
Proof. intros Hf. eapply steady_moves, (s_alike _ _ (λ _ _, True)); [exact Hf|done]. Qed.

(** What a list of requests forgets of an inode. *)
Definition forgets (l : list (Z * Z)) (j : Z) : Z := foldr (λ r n, (if decide (r.1 = j) then r.2 else 0) + n) 0 l.

Lemma forgets_nonneg l j : Forall (λ r, 0 ≤ r.2) l → 0 ≤ forgets l j.
Proof. induction 1 as [|[i a] l Ha _ IH]; simpl in *; [done|]. destruct (decide _); lia. Qed.

Lemma forgets_zero l j : forgets (map (λ i, (i, 0)) l) j = 0.
Proof. induction l as [|i l IH]; simpl; [done|]. rewrite IH. by destruct (decide _). Qed.

Lemma evict_each_moves l acc : Forall (λ r, 0 ≤ r.2) l → moves_by (forgets l) (evict_each l acc).
Proof.
  intros Hl. revert acc. induction Hl as [|[i amount] l Ha Hl IH]; intros acc; cbn [evict_each].
  { by apply m_still. }
  eapply m_bind_by; [| |by apply evict_moves|]; [by intros j| |].
  { intros j. apply forgets_nonneg, Hl. }
  intros [n|]; [|apply IH]. eapply (m_bind_by _ nothing); [done| |by apply m_modify|]; [intros j; apply forgets_nonneg, Hl|].
  intros _. eapply (m_bind_by _ nothing); [done| |by apply m_modify|intros _; apply IH]. intros j. apply forgets_nonneg, Hl.
Qed.

Lemma forget_moves l : Forall (λ r, 0 ≤ r.2) l → moves_by (forgets l) (forget_inodes l).
Proof.
  intros Hl. eapply m_bind_by; [| |by apply evict_each_moves|]; [by intros j; rewrite Z.add_0_r|done|].
  intros acc. destruct (bool_decide _); [by apply m_still|]. eapply steady_moves, spawn_steady.
Qed.

Lemma take_handle_moves h : moves (take_file_handle h).
Proof.
  intros s Hs. unfold take_file_handle, file_handle. sm_unfold. simpl.
  destruct (handles s !! h) as [r|] eqn:E; simpl; [|by apply (m_still (A:=unit) (sm_err AdapterError.UnknownHandle))].
  pose proof (ao_operations s Hs) as Ho. split_and!; [|split; simpl; [by left|lia]|].
  - destruct Hs. split; simpl; try done.
    + intros j q [_ ?]%lookup_delete_Some. by eapply ao_handles0.
    + rewrite dom_delete_L. by rewrite Ho.
    + intros j p [Hne Hj]%lookup_delete_Some. destruct (ao_pending0 j p Hj) as [Hjn Hi]. split; [done|]. simpl.
      intros q [_ Hq]%lookup_delete_Some. by apply Hi.
    + intros j [[q [_ Hj]%lookup_delete_Some]|Hj]; apply ao_numbers0; [left; by eexists|by right].
  - intros j k Hh. eapply held_less; [|exact Hh]. unfold nothing. lia.
Qed.

Lemma forget_open_moves i : moves (sm_try (forget_inode (R:=R) i 0)).
Proof.
  apply m_try. intros s Hs. destruct (forget_moves [(i, 0)] ltac:(by repeat constructor) s Hs) as (? & ? & Hh).
  split_and!; [done|done|]. intros j k Hk. eapply held_less; [|by apply Hh]. simpl. destruct (decide _); unfold nothing; lia.
Qed.

Lemma release_moves h flush owner : moves (release_async fate h flush owner).
Proof.
  unfold release_async. apply m_bind; [eapply steady_moves, file_operation_steady|]. intros _.
  apply m_bind; [by apply m_still|]. intros o. destruct (match o with Some _ => _ | None => _ end).
  - apply m_bind; [apply take_handle_moves|]. intros opened. apply m_bind; [eapply steady_moves, spawn_steady|]. intros _.
    apply m_bind; [apply forget_open_moves|]. intros _. by apply m_still.
  - apply m_bind; [apply m_try; eapply steady_moves, flush_pending_steady|]. intros r.
    apply m_bind; [apply take_handle_moves|]. intros opened.
    apply m_bind; [destruct flush; [apply m_try; eapply steady_moves, s_ask|by apply m_still]|]. intros r1.
    apply m_bind; [apply m_try; eapply steady_moves, s_ask|]. intros r2.
    apply m_bind; [apply forget_open_moves|]. intros _. by apply m_still.
Qed.

Lemma task_moves b : moves (run_task fate b).
Proof.
  destruct b as [|h|l|l due]; cbn [run_task].
  - apply m_bind; [apply m_try; eapply steady_moves, s_ask|]. intros [x|e]; (apply m_bind; [|intros _; by apply m_modify]);
      [by apply m_modify|by apply m_still].
  - apply m_bind; [apply m_try; eapply steady_moves, s_ask|]. intros _. by apply m_still.
  - apply m_bind; [apply m_try; eapply steady_moves, s_ask|]. intros _. by apply m_still.
  - apply m_bind; [apply m_try|intros _; by apply m_still]. intros s Hs.
    destruct (forget_moves (map (λ i, (i, 0)) l)) with (s := s) as (? & ? & Hh); [by apply Forall_fmap, Forall_true|done|].
    split_and!; [done|done|]. intros j k Hk. eapply held_less; [|by apply Hh]. rewrite forgets_zero. unfold nothing. lia.
Qed.

Lemma background_moves i : moves (run_background fate i).
Proof.
  intros s Hs. unfold run_background.
  destruct (background s !! i) as [b|]; [|by apply (m_still (A:=unit) (λ s, (Ok tt, s)))].
  destruct (match b with ReleaseEntries _ _ => _ | _ => _ end); [|by apply (m_still (A:=unit) (λ s, (Ok tt, s)))].
  set (s1 := with_background _ s). destruct (alike_adapter_ok s s1) as [Hs1 Hx]; [by split_and!|done|].
  destruct (task_moves b s1 Hs1) as (Hs2 & Hv & Hh). split_and!; [done|etrans; [by apply extends_evolves|done]|].
  intros j k Hk. by apply Hh, (held_extends _ _ s).
Qed.

(** The tables of inodes outlive the mount. *)
Lemma destroy_moves : moves (destroy_mount (R:=R) map_order).
Proof.
  intros s Hs. unfold destroy_mount, spawn_closes. sm_unfold. cbn [snd]. split_and!; [|split; [by left|done]|].
  - destruct Hs. split; simpl; try done.
    + intros h p Hj. destruct (ao_pending0 h p Hj). by split.
    + by intros h [[? ?]|[? ?]].
  - intros j k Hh. eapply held_less; [|exact Hh]. unfold nothing. lia.
Qed.

(** ** What is handed out *)

Lemma held_lasting j k : lasting (held j k).
Proof. intros s s'. apply held_extends. Qed.

Lemma add_lookup_grants i j k :
  k < u64_max → steady (λ s, known i s ∧ held j k s) (add_lookup i 1) (λ _, held j (k + ticks i j)).
Proof.
  intros Hk s Hs [Hi Hh]. pose proof (looked_bounds j s Hs) as Hb. assert (0 < u64_max) by done.
  destruct (add_lookup_counts (known i) i j (Z.max k 0) ltac:(lia) s Hs) as (Hs' & Hx & Hc).
  { split; [done|]. unfold counted. destruct (decide (0 < k)) as [Hp|]; [|lia]. destruct (Hh Hp) as [_ Hc]. unfold counted in Hc. lia. }
  split_and!; [done|done|]. intros [] E Hp. specialize (Hc tt E). split; [|unfold counted in *; lia].
  eapply known_extends; [done|]. unfold ticks in Hp. destruct (decide (i = j)) as [<-|]; [done|]. apply Hh. lia.
Qed.

(** A callback that gives the kernel a lookup of the inode it returns. *)
Definition grants {A} (inode_of : A → Z) (m : AM A) : Prop :=
  ∀ j k, k < u64_max → steady (held j k) m (λ a, held j (k + ticks (inode_of a) j)).

Lemma grants_before {A B} (inode_of : B → Z) (m : AM A) (k : A → AM B) :
  keeps (λ _, True) m → (∀ a, grants inode_of (k a)) → grants inode_of (mbind k m).
Proof.
  intros Hm Hk j q Hq. apply (s_bind _ _ _ (λ _ _, True)); [apply held_lasting|by eapply s_weaken|].
  intros a. eapply s_weaken; [by apply Hk|by intros s _ [? _]|done].
Qed.

Lemma grants_after {A B} (f : A → Z) (inode_of : B → Z) (m : AM A) (k : A → AM B) :
  grants f m → (∀ a, steady (λ _, True) (k a) (λ b _, inode_of b = f a)) → grants inode_of (mbind k m).
Proof.
  intros Hm Hk j q Hq. eapply s_seq; [by apply Hm|]. intros a s Hs Hh.
  destruct (Hk a s Hs I) as (? & Hx & Hb). split_and!; [done|done|]. intros b Eb. rewrite (Hb b Eb). by eapply held_extends.
Qed.

(** An inode that is known, its lookup, and the rest of the answer. *)
Lemma grants_known {A B} (inode_of : B → Z) (i : A → Z) (m : AM A) (k : A → unit → AM B) :
  steady (λ _, True) m (λ a, known (i a)) →
  (∀ a u, steady (λ _, True) (k a u) (λ b _, inode_of b = i a)) →
  grants inode_of (mbind (λ a, mbind (k a) (add_lookup (i a) 1)) m).
Proof.
  intros Hm Hk j q Hq. eapply s_bind; [apply held_lasting|by eapply s_weaken|]. intros a.
  eapply s_seq; [eapply s_weaken; [by apply add_lookup_grants|intros s _ [? ?]; by split|done]|].
  intros u s Hs Hh. destruct (Hk a u s Hs I) as (? & Hx & Hb). split_and!; [done|done|]. intros b Eb. rewrite (Hb b Eb).
  by eapply held_extends.
Qed.

Lemma remember_entry_known node parent name : steady (λ _, True) (remember_entry node parent name) known.
Proof. eapply s_weaken; [apply remember_entry_steady|done|]. intros i s. apply stands_known. Qed.

Lemma lookup_listing_grants parent listing name : grants LookupResult.inode (lookup_from_listing fold parent listing name).
Proof.
  unfold lookup_from_listing. apply grants_before; [steady_plain|]. intros index. apply grants_before; [steady_plain|]. intros entry.
  apply (grants_known _ (λ i, i)); [apply remember_entry_known|]. intros i _.
  apply (s_seq _ _ _ (λ _ _, True)); [steady_plain|]. intros _. by apply s_ret.
Qed.

Lemma lookup_grants parent name : grants LookupResult.inode (lookup_async fate fold parent name).
Proof.
  unfold lookup_async. apply grants_before; [steady_all|]. intros _. apply grants_before; [steady_all|].
  intros [listing|]; [apply lookup_listing_grants|].
  intros j k Hk. eapply s_bind; [apply held_lasting|eapply s_weaken; [apply (find_entry_steady (λ _, True))|done|done]|].
  intros [i|].
  - apply (s_bind _ _ _ (λ _ _, True)); [apply and_lasting; [apply held_lasting|]| |].
    + intros s s' Hx Hi x Ex. eapply known_extends; [done|by apply Hi].
    + eapply s_weaken; [apply (getattr_steady (λ _, True))|done|done].
    + intros m. unfold lookup_known. eapply s_seq; [eapply s_weaken; [by apply (add_lookup_grants i j)|intros s _ [[? Hi] _]; by split; [apply Hi|]|done]|].
      intros u. by apply s_ret.
  - eapply s_weaken with (P := held j k) (Q := λ a, held j (k + ticks (LookupResult.inode a) j)); [|by intros s _ [? _]|done]. revert j k Hk.
    apply grants_before; [apply readdir_steady|]. intros listing. apply lookup_listing_grants.
Qed.

Lemma adopt_grants parent name m : grants (λ i, i) (adopt_created (R:=R) parent name m).
Proof.
  unfold adopt_created. do 3 (apply grants_before; [steady_all|intros _]).
  apply (grants_known _ (λ i, i)); [apply remember_entry_known|]. intros i _. by apply s_ret.
Qed.

Lemma created_grants parent name m :
  grants CreatedNode.inode (i ← adopt_created (R:=R) parent name m; mret (CreatedNode.Mk i m)).
Proof. apply (grants_after (λ i, i)); [apply adopt_grants|]. intros i. by apply s_ret. Qed.

Ltac grants_all := repeat (apply grants_before; [by steady_all|intros ?]).

Lemma create_directory_grants parent name mode : grants CreatedNode.inode (create_directory_async fate parent name mode).
Proof. unfold create_directory_async. do 4 (apply grants_before; [steady_all|intros ?]). apply created_grants. Qed.

Lemma create_symlink_grants parent name target : grants CreatedNode.inode (create_symlink_async fate parent name target).
Proof. unfold create_symlink_async. do 5 (apply grants_before; [steady_all|intros ?]). apply created_grants. Qed.

Lemma create_special_grants parent name kind mode a b :
  grants CreatedNode.inode (create_special_node_async fate parent name kind mode a b).
Proof. unfold create_special_node_async. do 5 (apply grants_before; [steady_all|intros ?]). apply created_grants. Qed.

Lemma create_hard_link_grants i parent name : grants CreatedNode.inode (create_hard_link_async fate i parent name).
Proof.
  unfold create_hard_link_async. do 10 (apply grants_before; [steady_all|intros ?]).
  apply (grants_known _ (λ i, i)); [apply remember_entry_known|]. intros x _. by apply s_ret.
Qed.

Lemma create_file_grants parent name mode options :
  grants CreatedAndOpenedFile.inode (create_file_async fate parent name mode options).
Proof.
  unfold create_file_async. do 4 (apply grants_before; [steady_all|intros ?]).
  intros j k Hk. apply (s_bind _ _ _ (λ i s, held j (k + ticks i j) s ∧ known i s)); [apply held_lasting| |].
  - intros s Hs Hh. destruct (adopt_grants parent name (CreatedFile.metadata a2) j k Hk s Hs Hh) as (? & ? & H1).
    destruct (adopt_created_steady (λ _, True) parent name (CreatedFile.metadata a2) s Hs I) as (_ & _ & H2).
    split_and!; [done|done|]. intros i Ei. auto.
  - intros i. eapply s_weaken with (P := λ s, held j (k + ticks i j) s ∧ known i s) (Q := _); [|by intros s _ [_ ?]|by intros r s Hr; exact Hr].
    apply (s_bind _ _ _ (λ _ _, True)); [apply and_lasting; [apply held_lasting|apply known_inode_lasting]| |].
    + eapply s_weaken; [eapply s_try, remember_file_handle_steady|by intros s _ [_ ?]|done].
    + intros [handle|e].
      * apply s_ret. by intros s _ [[? _] _].
      * apply (s_seq _ _ _ (λ _ _, True)); [apply ask_anyway_steady|]. intros _. apply s_err.
Qed.
End facts.
