(* ===== verification/MacFuseNative.v ===== *)
(** What the kernel sees of the macFUSE adapter
    ([clients/macos/filesystem-macfuse/src/native.rs]): the requests, their
    arguments' conversions, the replies and the error numbers.

    The constants of the platform's C library and the packing of device numbers
    are parameters ([Libc]).  A time is its nanoseconds since the epoch, and the
    messages on the standard error output are left out. *)

From S2P Require Import Prelude Protocol Common StateFiles ViewStream Prefetch Remote MacFuse MacFuseOps.

Definition ATTRIBUTE_TTL : Z := 1000000000.
Definition BLOCK_SIZE : Z := 4096.
Definition MAX_BACKGROUND_REQUESTS : Z := 64.
Definition CONGESTION_THRESHOLD : Z := 48.
Definition VOLUME_REGISTRATION_ATTEMPTS : nat := 8.
Definition DARWIN_IOCTL_INOUT : Z := 0xc0000000.
Definition darwin_iowr (group number size : Z) : Z :=
  Z.lor (Z.lor (Z.lor DARWIN_IOCTL_INOUT (Z.shiftl (Z.land size 0x1fff) 16)) (Z.shiftl group 8)) number.
Definition FSIOC_FIOSEEKHOLE : Z := darwin_iowr 65 16 8.
Definition FSIOC_FIOSEEKDATA : Z := darwin_iowr 65 17 8.

(** * Platform *)

Record Libc := {
  O_ACCMODE : Z; O_RDONLY : Z; O_WRONLY : Z; O_RDWR : Z; O_TRUNC : Z; O_APPEND : Z; O_SYNC : Z; O_DSYNC : Z;
  S_IFMT : Z; S_IFREG : Z; S_IFIFO : Z; S_IFCHR : Z; S_IFBLK : Z; S_IFSOCK : Z;
  RENAME_SWAP : Z; RENAME_EXCL : Z;
  XATTR_CREATE : Z; XATTR_REPLACE : Z;
  F_RDLCK : Z; F_WRLCK : Z; F_UNLCK : Z;
  SEEK_DATA : Z; SEEK_HOLE : Z; FIONREAD : Z;
  POLLIN : Z; POLLRDNORM : Z; POLLOUT : Z; POLLWRNORM : Z;
  major : Z → Z; minor : Z → Z; makedev : Z → Z → Z
}.

Module Errno.
Inductive Errno :=
  | EACCES | EAGAIN | EBADF | EBUSY | EEXIST | EFBIG | EINVAL | EIO | EISDIR | EMFILE | ENETDOWN | ENFILE | ENOENT
  | ENOSPC | ENOTDIR | ENOTEMPTY | ENOTTY | ENXIO | EOPNOTSUPP | EOVERFLOW | EPROTO | ERANGE | EROFS | ESTALE
  | ETIMEDOUT | E2BIG | NO_XATTR.
End Errno.
Abbreviation Errno := Errno.Errno.
#[global] Instance Errno_eq_dec : EqDecision Errno.
Proof. solve_decision. Defined.

Module FileType.
Inductive FileType := RegularFile | Directory | Symlink | NamedPipe | CharDevice | BlockDevice | Socket.
End FileType.
Abbreviation FileType := FileType.FileType.

Module FileAttr.
Record FileAttr := Mk {
  ino : Z; size : Z; blocks : Z; atime : Z; mtime : Z; ctime : Z; crtime : Z; kind : FileType; perm : Z; nlink : Z;
  uid : Z; gid : Z; rdev : Z; blksize : Z; flags : Z
}.
End FileAttr.
Abbreviation FileAttr := FileAttr.FileAttr.

Module TimeOrNow.
Inductive TimeOrNow := SpecificTime (time : Z) | Now.
End TimeOrNow.
Abbreviation TimeOrNow := TimeOrNow.TimeOrNow.

(** The arguments of [setattr]; [unsupported] says that one of [uid], [gid],
    [ctime], [crtime], [chgtime] and [flags] is given. *)
Module SetAttr.
Record SetAttr := Mk {
  mode : option Z; unsupported : bool; size : option Z; atime : option TimeOrNow; mtime : option TimeOrNow;
  bkuptime : option Z; handle : option Z
}.
End SetAttr.
Abbreviation SetAttr := SetAttr.SetAttr.

Module FuseRequest.
Inductive FuseRequest :=
  | Lookup (parent : Z) (name : Name)
  | Forget (inode nlookup : Z)
  | BatchForget (nodes : list (Z * Z))
  | GetAttr (inode : Z)
  | SetAttr (inode : Z) (changes : SetAttr)
  | ReadLink (inode : Z)
  | MkNod (parent : Z) (name : Name) (mode umask rdev : Z)
  | MkDir (parent : Z) (name : Name) (mode umask : Z)
  | Unlink (parent : Z) (name : Name)
  | RmDir (parent : Z) (name : Name)
  | Symlink (parent : Z) (name : Name) (target : list Z)
  | Link (inode new_parent : Z) (new_name : Name)
  | Rename (parent : Z) (name : Name) (new_parent : Z) (new_name : Name) (flags : Z)
  | Open (inode flags : Z)
  | Create (parent : Z) (name : Name) (mode umask flags : Z)
  | Read (handle offset size : Z)
  | Write (handle offset : Z) (data : list Z) (flags : Z)
  | Flush (handle lock_owner : Z)
  | Release (handle : Z) (lock_owner : option Z) (flush : bool)
  | FSync (handle : Z) (data_only : bool)
  | OpenDir (inode flags : Z)
  | ReadDir (inode handle offset size : Z)
  | ReadDirPlus (inode handle offset size : Z)
  | ReleaseDir (handle : Z)
  | FSyncDir (inode handle : Z)
  | StatFs
  | SetXattr (inode : Z) (name : Name) (value : list Z) (flags position : Z)
  | GetXattr (inode : Z) (name : Name) (size : Z)
  | ListXattr (inode size : Z)
  | RemoveXattr (inode : Z) (name : Name)
  | GetLk (handle lock_owner start end_ typ pid : Z)
  | SetLk (handle lock_owner start end_ typ pid : Z) (sleep : bool)
  | BMap (inode block_size block : Z)
  | IoCtl (handle flags command : Z) (input : list Z) (output_size : Z)
  | Poll (handle events : Z)
  | FAllocate (handle offset length mode : Z)
  | LSeek (handle offset whence : Z)
  | CopyFileRange (input_handle input_offset output_handle output_offset length flags : Z)
  | SetVolName (name : Name)
  | Exchange (parent : Z) (name : Name) (new_parent : Z) (new_name : Name) (options : Z)
  | GetXTimes (inode : Z)
  | Destroy.
End FuseRequest.
Abbreviation FuseRequest := FuseRequest.FuseRequest.

Module DirectoryRow.
Record DirectoryRow := Mk { ino : Z; offset : Z; kind : FileType; name : Name }.
End DirectoryRow.
Abbreviation DirectoryRow := DirectoryRow.DirectoryRow.

Module DirectoryPlusRow.
Record DirectoryPlusRow := Mk { ino : Z; offset : Z; name : Name; attr : FileAttr }.
End DirectoryPlusRow.
Abbreviation DirectoryPlusRow := DirectoryPlusRow.DirectoryPlusRow.

Module FuseReply.
Inductive FuseReply :=
  | Silent
  | Success
  | Error (e : Errno)
  | Entry (attr : FileAttr)
  | Attr (attr : FileAttr)
  | Data (data : list Z)
  | Opened (handle : Z)
  | Created (attr : FileAttr) (handle : Z)
  | Written (count : Z)
  | Directory (rows : list DirectoryRow)
  | DirectoryPlus (rows : list DirectoryPlusRow)
  | StatFs (statistics : FilesystemStats)
  | Size (length : Z)
  | Locked (start end_ typ pid : Z)
  | Mapped (block : Z)
  | Control (output : list Z)
  | Ready (events : Z)
  | Offset (offset : Z)
  | XTimes (backup created : Z).
End FuseReply.
Abbreviation FuseReply := FuseReply.FuseReply.

(** * Error numbers *)

Definition code_errno (code : ErrorCode) : Errno :=
  match code with
  | ErrorCode.Unauthenticated | ErrorCode.PermissionDenied => Errno.EACCES
  | ErrorCode.NotFound => Errno.ENOENT
  | ErrorCode.AlreadyExists => Errno.EEXIST
  | ErrorCode.NotDirectory => Errno.ENOTDIR
  | ErrorCode.IsDirectory => Errno.EISDIR
  | ErrorCode.NotEmpty => Errno.ENOTEMPTY
  | ErrorCode.NoAttribute => Errno.NO_XATTR
  | ErrorCode.NoData => Errno.ENXIO
  | ErrorCode.NotTty => Errno.ENOTTY
  | ErrorCode.ReadOnly => Errno.EROFS
  | ErrorCode.Conflict => Errno.ESTALE
  | ErrorCode.WouldBlock => Errno.EAGAIN
  | ErrorCode.NoSpace => Errno.ENOSPC
  | ErrorCode.Busy => Errno.EBUSY
  | ErrorCode.NotSupported => Errno.EOPNOTSUPP
  | ErrorCode.Offline => Errno.ENETDOWN
  | ErrorCode.InvalidNode => Errno.ESTALE
  | ErrorCode.InvalidHandle => Errno.EBADF
  | ErrorCode.InvalidRequest => Errno.EINVAL
  | ErrorCode.UnsupportedVersion => Errno.EPROTO
  | ErrorCode.TooLarge => Errno.EFBIG
  | ErrorCode.Timeout => Errno.ETIMEDOUT
  | ErrorCode.Internal => Errno.EIO
  end.

Definition client_errno (e : ClientError) : Errno :=
  match e with
  | ClientError.Transport _ => Errno.EIO
  | ClientError.UnexpectedResponse => Errno.EPROTO
  | ClientError.ReadTooLarge _ | ClientError.WriteTooLarge _ => Errno.EFBIG
  | ClientError.StaleRevision => Errno.ESTALE
  | ClientError.Offline | ClientError.OfflineCacheMiss => Errno.ENETDOWN
  | ClientError.AmbiguousMutation => Errno.EIO
  | ClientError.Server code _ => code_errno code
  end.

Definition errno (e : AdapterError) : Errno :=
  match e with
  | AdapterError.CallbackTimedOut => Errno.ETIMEDOUT
  | AdapterError.UnknownInode => Errno.ESTALE
  | AdapterError.UnknownHandle | AdapterError.UnknownDirectoryHandle => Errno.EBADF
  | AdapterError.HandleInodeMismatch => Errno.EBADF
  | AdapterError.NotFound => Errno.ENOENT
  | AdapterError.InvalidName | AdapterError.InvalidRange => Errno.EINVAL
  | AdapterError.InvalidRemoteName | AdapterError.AmbiguousName | AdapterError.Runtime
  | AdapterError.StateUnavailable | AdapterError.InvalidCapabilities => Errno.EIO
  | AdapterError.InodeSpaceExhausted => Errno.ENFILE
  | AdapterError.HandleSpaceExhausted => Errno.EMFILE
  | AdapterError.UnexpectedMetadata | AdapterError.UnexpectedReadLength
  | AdapterError.UnexpectedWriteLength => Errno.EPROTO
  | AdapterError.StaleRevision => Errno.ESTALE
  | AdapterError.RequestTooLarge _ => Errno.EFBIG
  | AdapterError.ReadOnly => Errno.EROFS
  | AdapterError.Unsupported => Errno.EOPNOTSUPP
  | AdapterError.InvalidAccess => Errno.EBADF
  | AdapterError.Client e => client_errno e
  end.

(** * Times *)

Definition NANOSECONDS_PER_MILLISECOND : Z := 1000000.

Definition system_time_millis (time : Z) : result Errno Z :=
  if time <? 0 then Err Errno.EINVAL
  else if time / NANOSECONDS_PER_MILLISECOND <=? u64_max then Ok (time / NANOSECONDS_PER_MILLISECOND) else Err Errno.EOVERFLOW.

(** [clock] is [SystemTime::now()]. *)
Definition time_or_now_millis (clock : Z) (value : TimeOrNow) : result Errno Z :=
  system_time_millis (match value with TimeOrNow.SpecificTime t => t | TimeOrNow.Now => clock end).

(** A [u64] of milliseconds is a representable time. *)
Definition millis_time (milliseconds : Z) : Z := milliseconds * NANOSECONDS_PER_MILLISECOND.
Definition metadata_time (m : Metadata) : Z := millis_time (Metadata.modified_unix_ms m).

(** [Option::map(..).transpose()]. *)
Definition transpose {A B} (f : A → result Errno B) (o : option A) : result Errno (option B) :=
  match o with
  | None => Ok None
  | Some a => match f a with Ok b => Ok (Some b) | Err e => Err e end
  end.

Definition permission_mode (mode umask : Z) : Z := Z.land (Z.land mode (Z.lxor umask u32_max)) 0xfff.

Definition file_type (kind : NodeKind) : FileType :=
  match kind with
  | NodeKind.File => FileType.RegularFile
  | NodeKind.Directory => FileType.Directory
  | NodeKind.Symlink => FileType.Symlink
  | NodeKind.NamedPipe => FileType.NamedPipe
  | NodeKind.CharacterDevice => FileType.CharDevice
  | NodeKind.BlockDevice => FileType.BlockDevice
  | NodeKind.Socket => FileType.Socket
  end.

(** * Directory replies *)

(** A reply buffer: a row takes its header and name, in words of eight bytes. *)
Record RowBuffer (A : Type) := MkRowBuffer { rows : list A; used : Z }.
Arguments MkRowBuffer {A} _ _.
Arguments rows {A} _.
Arguments used {A} _.
Definition empty_rows {A} : RowBuffer A := MkRowBuffer [] 0.

Definition row_size (header : Z) (name : Name) : Z := (header + zlen name + 7) / 8 * 8.

(** The row, if it fits; says whether the buffer is full. *)
Definition push_row {A} (header max_size : Z) (b : RowBuffer A) (name : Name) (row : A) : bool * RowBuffer A :=
  if used b + row_size header name >? max_size then (true, b)
  else (false, MkRowBuffer (rows b ++ [row]) (used b + row_size header name)).

Section native.
Context {R : Type} `{RF : RemoteFilesystem R}.
Context (fate : Z → Fate) (normalized_case_name : Name → Name) (map_order : gset Z → list Z).
Context (libc : Libc) (owner_uid owner_gid : Z).
(** The sizes of a row's header in the two kinds of directory replies. *)
Context (row_header plus_header : Z).

Abbreviation AM := (AM (R:=R)).

(** * Arguments *)

Definition open_options (flags : Z) : FileOpenOptions :=
  let mode := Z.land flags (O_ACCMODE libc) in
  let access := if mode =? O_RDONLY libc then FileAccess.ReadOnly
                else if mode =? O_WRONLY libc then FileAccess.WriteOnly
                else if mode =? O_RDWR libc then FileAccess.ReadWrite
                else FileAccess.ReadOnly in
  FileOpenOptions.Mk access (negb (Z.land flags (O_TRUNC libc) =? 0)) (negb (Z.land flags (O_APPEND libc) =? 0)).

Definition rename_mode (flags : Z) : result Errno RenameMode :=
  if flags =? 0 then Ok RenameMode.Replace
  else if flags =? RENAME_SWAP libc then Ok RenameMode.Exchange
  else if flags =? RENAME_EXCL libc then Ok RenameMode.NoReplace
  else Err Errno.EOPNOTSUPP.

Definition write_sync_mode (flags : Z) : option bool :=
  if negb (Z.land flags (O_SYNC libc) =? 0) then Some false
  else if negb (Z.land flags (O_DSYNC libc) =? 0) then Some true
  else None.

Definition xattr_set_mode (flags : Z) : result Errno XattrSetMode :=
  if flags =? 0 then Ok XattrSetMode.Upsert
  else if flags =? XATTR_CREATE libc then Ok XattrSetMode.Create
  else if flags =? XATTR_REPLACE libc then Ok XattrSetMode.Replace
  else Err Errno.EINVAL.

Definition lock_type (kind : LockKind) : Z :=
  match kind with
  | LockKind.Read => F_RDLCK libc
  | LockKind.Write => F_WRLCK libc
  | LockKind.Unlock => F_UNLCK libc
  end.

Definition protocol_lock (owner start end_ typ pid : Z) : result Errno FileLock :=
  match
    (if typ =? F_RDLCK libc then Ok LockKind.Read
     else if typ =? F_WRLCK libc then Ok LockKind.Write
     else if typ =? F_UNLCK libc then Ok LockKind.Unlock
     else Err Errno.EINVAL)
  with
  | Ok kind => if end_ <? start then Err Errno.EINVAL else Ok (FileLock.Mk owner start end_ kind pid)
  | Err e => Err e
  end.

Definition file_attr (inode : Z) (m : Metadata) : FileAttr :=
  FileAttr.Mk inode (Metadata.size m) (Metadata.allocated_blocks m) (millis_time (Metadata.accessed_unix_ms m))
    (metadata_time m) (metadata_time m) (match Metadata.created_unix_ms m with Some t => millis_time t | None => 0 end)
    (file_type (Metadata.kind m)) (Z.land (Metadata.mode m) 0xfff) (Metadata.link_count m) owner_uid owner_gid
    (as_u32 (makedev libc (Metadata.device_major m) (Metadata.device_minor m))) BLOCK_SIZE 0.

(** A device number, zero when it is negative. *)
Definition device_part (n : Z) : Z := if 0 <=? n then n else 0.

(** The kind of a node to make, [None] for a regular file. *)
Definition special_kind (mode : Z) : result Errno (option SpecialNodeKind) :=
  let kind := Z.land mode (S_IFMT libc) in
  if kind =? S_IFREG libc then Ok None
  else if kind =? S_IFIFO libc then Ok (Some SpecialNodeKind.NamedPipe)
  else if kind =? S_IFCHR libc then Ok (Some SpecialNodeKind.CharacterDevice)
  else if kind =? S_IFBLK libc then Ok (Some SpecialNodeKind.BlockDevice)
  else if kind =? S_IFSOCK libc then Ok (Some SpecialNodeKind.Socket)
  else Err Errno.EINVAL.

Definition poll_events (handle requested : Z) : AM Z :=
  opened ← file_handle handle;
  let input := if can_read (FileHandleRecord.access opened) then Z.lor (POLLIN libc) (POLLRDNORM libc) else 0 in
  let output := if can_write_access (FileHandleRecord.access opened) then Z.lor (POLLOUT libc) (POLLWRNORM libc) else 0 in
  mret (Z.land (Z.lor input output) requested).

(** * Directories *)

Definition add_directory_row (max_size requested_offset index ino : Z) (kind : FileType) (name : Name)
    (b : RowBuffer DirectoryRow) : bool * RowBuffer DirectoryRow :=
  if requested_offset <=? index
  then push_row row_header max_size b name (DirectoryRow.Mk ino (u64_saturating_add index 1) kind name)
  else (false, b).

(** The inode of an entry, the remembered one when there are no more. *)
Definition entry_inode (inode : Z) (entry : DirectoryEntry) : AM Z :=
  r ← sm_try (remember_entry (Metadata.node (DirectoryEntry.metadata entry)) inode (DirectoryEntry.name entry));
  mret (match r with Ok i => i | Err _ => DirectoryEntry.inode entry end).

Fixpoint fill_entries (max_size inode requested_offset index : Z) (entries : list DirectoryEntry)
    (b : RowBuffer DirectoryRow) : AM (RowBuffer DirectoryRow) :=
  match entries with
  | [] => mret b
  | entry :: entries' =>
      i ← entry_inode inode entry;
      let '(full, b) := add_directory_row max_size requested_offset index i (file_type (DirectoryEntry.kind entry))
                          (DirectoryEntry.name entry) b in
      if full then mret b
      else fill_entries max_size inode requested_offset (u64_saturating_add index 1) entries' b
  end.

Definition fill_directory (max_size inode requested_offset : Z) (listing : DirectoryListing) : AM (RowBuffer DirectoryRow) :=
  let '(full, b) := add_directory_row max_size requested_offset 0 inode FileType.Directory (lit ".") empty_rows in
  if full : bool then mret b
  else
    let '(full, b) := add_directory_row max_size requested_offset 1 (DirectoryListing.parent_inode listing)
                        FileType.Directory (lit "..") b in
    if full : bool then mret b
    else fill_entries max_size inode requested_offset 2 (DirectoryListing.entries listing) b.

Definition add_directory_plus_row (max_size requested_offset index ino : Z) (name : Name) (m : Metadata)
    (b : RowBuffer DirectoryPlusRow) : bool * RowBuffer DirectoryPlusRow :=
  if requested_offset <=? index
  then push_row plus_header max_size b name (DirectoryPlusRow.Mk ino (u64_saturating_add index 1) name (file_attr ino m))
  else (false, b).

(** A row that was put counts as a lookup. *)
Definition row_lookup (requested_offset index ino : Z) : AM unit :=
  if requested_offset <=? index then add_lookup ino 1 else mret tt.

Fixpoint fill_entries_plus (max_size inode requested_offset index : Z) (entries : list DirectoryEntry)
    (b : RowBuffer DirectoryPlusRow) : AM (RowBuffer DirectoryPlusRow) :=
  match entries with
  | [] => mret b
  | entry :: entries' =>
      i ← entry_inode inode entry;
      let '(full, b) := add_directory_plus_row max_size requested_offset index i (DirectoryEntry.name entry)
                          (DirectoryEntry.metadata entry) b in
      if full then mret b
      else
        _ ← row_lookup requested_offset index i;
        fill_entries_plus max_size inode requested_offset (u64_saturating_add index 1) entries' b
  end.

Definition fill_directory_plus (max_size inode requested_offset : Z) (listing : DirectoryListing) (current parent : Metadata)
    : AM (RowBuffer DirectoryPlusRow) :=
  let '(full, b) := add_directory_plus_row max_size requested_offset 0 inode (lit ".") current empty_rows in
  if full : bool then mret b
  else
    _ ← row_lookup requested_offset 0 inode;
    let '(full, b) := add_directory_plus_row max_size requested_offset 1 (DirectoryListing.parent_inode listing)
                        (lit "..") parent b in
    if full : bool then mret b
    else
      _ ← row_lookup requested_offset 1 (DirectoryListing.parent_inode listing);
      fill_entries_plus max_size inode requested_offset 2 (DirectoryListing.entries listing) b.

(** * Replies *)

Definition Served : Type := Adapter R → FuseReply * Adapter R.

Definition answer {A} (m : AM A) (f : A → FuseReply) : Served := λ s,
  match m s with
  | (Ok a, s') => (f a, s')
  | (Err e, s') => (FuseReply.Error (errno e), s')
  end.
Definition refuse (e : Errno) : Served := λ s, (FuseReply.Error e, s).
Definition ignore {A} (m : AM A) : Served := λ s, (FuseReply.Silent, (m s).2).
Definition success (_ : unit) : FuseReply := FuseReply.Success.

Definition reply_node (c : CreatedNode) : FuseReply := FuseReply.Entry (file_attr (CreatedNode.inode c) (CreatedNode.metadata c)).

(** [u32::try_from], with the error of a count that is too large. *)
Definition reply_written (count : Z) : FuseReply :=
  if count <=? u32_max then FuseReply.Written count else FuseReply.Error Errno.EOVERFLOW.
Definition reply_size (length : Z) : FuseReply :=
  if length <=? u32_max then FuseReply.Size length else FuseReply.Error Errno.E2BIG.

(** [i64::from_ne_bytes], on a little-endian machine. *)
Definition i64_from_bytes (b : list Z) : Z := let n := from_le_bytes b in if n <=? i64_max then n else n - 2 ^ 64.

(** The names of a node's attributes, each with a terminator. *)
Definition encode_names (names : list Name) : list Z := concat (map (λ name, name ++ [0]) names).

Definition set_attributes (clock inode : Z) (a : SetAttr) : Served :=
  if SetAttr.unsupported a then refuse Errno.EOPNOTSUPP
  else
    match transpose (time_or_now_millis clock) (SetAttr.atime a) with
    | Err e => refuse e
    | Ok accessed =>
        match transpose (time_or_now_millis clock) (SetAttr.mtime a) with
        | Err e => refuse e
        | Ok modified =>
            match transpose system_time_millis (SetAttr.bkuptime a) with
            | Err e => refuse e
            | Ok backup =>
                answer (setattr_async fate map_order inode (SetAttr.handle a)
                          (AttributeChanges.Mk (SetAttr.size a) ((λ m, Z.land m 0xfff) <$> SetAttr.mode a)
                             accessed modified backup))
                  (λ m, FuseReply.Attr (file_attr inode m))
            end
        end
    end.

(** A regular file is created, then closed. *)
Definition make_node (parent : Z) (name : Name) (mode umask rdev : Z) : Served :=
  match special_kind mode with
  | Err e => refuse e
  | Ok (Some kind) =>
      answer (create_special_node_async fate parent name kind (permission_mode mode umask)
                (device_part (major libc rdev)) (device_part (minor libc rdev))) reply_node
  | Ok None =>
      answer (created ← create_file_async fate parent name (permission_mode mode umask)
                          (FileOpenOptions.Mk FileAccess.ReadWrite false false);
              _ ← sm_try (release_async fate (CreatedAndOpenedFile.handle created) false None);
              mret (CreatedNode.Mk (CreatedAndOpenedFile.inode created) (CreatedAndOpenedFile.metadata created))) reply_node
  end.

(** With [O_SYNC] or [O_DSYNC] the write is also synchronised. *)
Definition write_file (handle offset : Z) (data : list Z) (flags : Z) : Served :=
  answer (written ← write_async fate handle offset data;
          _ ← match write_sync_mode flags with
              | Some data_only => fsync_async fate handle data_only
              | None => mret tt
              end;
          mret written) reply_written.

Definition get_xattr (inode : Z) (name : Name) (size : Z) : Served :=
  if size =? 0 then answer (xattr_size_async fate inode name) reply_size
  else answer (get_xattr_async fate inode name)
         (λ value, if zlen value <=? size then FuseReply.Data value else FuseReply.Error Errno.ERANGE).

Definition list_xattr (inode size : Z) : Served :=
  answer (list_xattrs_async fate inode) (λ names,
    let encoded := encode_names names in
    if size =? 0 then reply_size (zlen encoded)
    else if zlen encoded <=? size then FuseReply.Data encoded
    else FuseReply.Error Errno.ERANGE).

Definition with_lock (owner start end_ typ pid : Z) (k : FileLock → Served) : Served :=
  match protocol_lock owner start end_ typ pid with Ok lock => k lock | Err e => refuse e end.

Definition reply_lock (conflict : option FileLock) : FuseReply :=
  match conflict with
  | Some l => FuseReply.Locked (FileLock.start l) (FileLock.end_ l) (lock_type (FileLock.kind l)) (FileLock.pid l)
  | None => FuseReply.Locked 0 0 (F_UNLCK libc) 0
  end.

Definition seek (handle offset : Z) (whence : SeekWhence) (reply : Z → FuseReply) : Served :=
  if offset <? 0 then refuse Errno.EINVAL
  else answer (lseek_async fate handle offset whence)
         (λ found, if found <=? i64_max then reply found else FuseReply.Error Errno.EOVERFLOW).

(** Darwin seeks for data and holes by a control request. *)
Definition io_control (handle flags command : Z) (input : list Z) (output_size : Z) : Served :=
  if (command =? FSIOC_FIOSEEKHOLE) || (command =? FSIOC_FIOSEEKDATA) then
    if negb (flags =? 0) || negb (zlen input =? 8) || (output_size <? 8) then refuse Errno.ENOTTY
    else seek handle (i64_from_bytes input)
           (if command =? FSIOC_FIOSEEKDATA then SeekWhence.Data else SeekWhence.Hole)
           (λ found, FuseReply.Control (to_le_bytes 8 found))
  else if negb (flags =? 0) || negb (bool_decide (input = [])) || negb (command =? FIONREAD libc) || (output_size <? 4)
  then refuse Errno.ENOTTY
  else answer (safe_ioctl_async fate handle SafeIoctl.BytesAvailable)
         (λ value, FuseReply.Control (to_le_bytes 4 (Z.min value (2 ^ 31 - 1)))).

Definition lseek (handle offset whence : Z) : Served :=
  if offset <? 0 then refuse Errno.EINVAL
  else if whence =? SEEK_DATA libc then seek handle offset SeekWhence.Data FuseReply.Offset
  else if whence =? SEEK_HOLE libc then seek handle offset SeekWhence.Hole FuseReply.Offset
  else refuse Errno.EINVAL.

Definition get_times (inode : Z) : Served :=
  answer (getattr_async fate inode) (λ m,
    FuseReply.XTimes
      (match Metadata.backup_unix_ms m with Some t => millis_time t | None => 0 end)
      (match Metadata.created_unix_ms m with Some t => millis_time t | None => metadata_time m end)).

Definition read_directory (inode handle offset size : Z) : Served :=
  answer (listing ← directory_listing handle inode; fill_directory size inode offset listing)
    (λ b, FuseReply.Directory (rows b)).

Definition read_directory_plus (inode handle offset size : Z) : Served :=
  answer (found ← directory_listing_with_metadata handle inode;
          let '(listing, current, parent) := found : DirectoryListing * Metadata * Metadata in
          fill_directory_plus size inode offset listing current parent)
    (λ b, FuseReply.DirectoryPlus (rows b)).

Definition fuse_lookup (parent : Z) (name : Name) : Served :=
  answer (lookup_async fate normalized_case_name parent name)
    (λ r, FuseReply.Entry (file_attr (LookupResult.inode r) (LookupResult.metadata r))).
Definition fuse_forget (inode nlookup : Z) : Served := ignore (forget_inode inode nlookup).
Definition fuse_batchforget (nodes : list (Z * Z)) : Served := ignore (forget_inodes nodes).
Definition fuse_getattr (inode : Z) : Served :=
  answer (getattr_async fate inode) (λ m, FuseReply.Attr (file_attr inode m)).
Definition fuse_readlink (inode : Z) : Served := answer (readlink_async fate inode) FuseReply.Data.
Definition fuse_mkdir (parent : Z) (name : Name) (mode umask : Z) : Served :=
  answer (create_directory_async fate parent name (permission_mode mode umask)) reply_node.
Definition fuse_unlink (parent : Z) (name : Name) : Served := answer (remove_async fate parent name false) success.
Definition fuse_rmdir (parent : Z) (name : Name) : Served := answer (remove_async fate parent name true) success.
Definition fuse_symlink (parent : Z) (name : Name) (target : list Z) : Served :=
  answer (create_symlink_async fate parent name target) reply_node.
Definition fuse_link (inode new_parent : Z) (new_name : Name) : Served :=
  answer (create_hard_link_async fate inode new_parent new_name) reply_node.
Definition fuse_rename (parent : Z) (name : Name) (new_parent : Z) (new_name : Name) (flags : Z) : Served :=
  match rename_mode flags with
  | Ok mode => answer (rename_async fate parent name new_parent new_name mode) success
  | Err e => refuse e
  end.
Definition fuse_open (inode flags : Z) : Served :=
  answer (open_async fate inode (open_options flags)) FuseReply.Opened.
Definition fuse_create (parent : Z) (name : Name) (mode umask flags : Z) : Served :=
  answer (create_file_async fate parent name (permission_mode mode umask) (open_options flags))
    (λ c, FuseReply.Created (file_attr (CreatedAndOpenedFile.inode c) (CreatedAndOpenedFile.metadata c))
            (CreatedAndOpenedFile.handle c)).
Definition fuse_read (handle offset size : Z) : Served := answer (read_async fate handle offset size) FuseReply.Data.
Definition fuse_flush (handle owner : Z) : Served := answer (flush_async fate handle (Some owner)) success.
Definition fuse_release (handle : Z) (owner : option Z) (flush : bool) : Served :=
  answer (release_async fate handle flush owner) success.
Definition fuse_fsync (handle : Z) (data_only : bool) : Served := answer (fsync_async fate handle data_only) success.
Definition fuse_opendir (inode flags : Z) : Served :=
  if bool_decide (FileOpenOptions.access (open_options flags) = FileAccess.ReadOnly)
  then answer (opendir_async fate normalized_case_name inode) FuseReply.Opened
  else refuse Errno.EISDIR.
Definition fuse_releasedir (handle : Z) : Served := answer (releasedir handle) success.
Definition fuse_fsyncdir (inode handle : Z) : Served := answer (fsyncdir_async fate inode handle) success.
Definition fuse_statfs : Served := answer (statfs_async fate) FuseReply.StatFs.
Definition fuse_setxattr (inode : Z) (name : Name) (value : list Z) (flags position : Z) : Served :=
  match xattr_set_mode flags with
  | Ok mode => answer (set_xattr_async fate inode name value mode position) success
  | Err e => refuse e
  end.
Definition fuse_removexattr (inode : Z) (name : Name) : Served := answer (remove_xattr_async fate inode name) success.
Definition fuse_getlk (handle owner start end_ typ pid : Z) : Served :=
  with_lock owner start end_ typ pid (λ lock, answer (get_lock_async fate handle lock) reply_lock).
Definition fuse_setlk (handle owner start end_ typ pid : Z) (sleep : bool) : Served :=
  with_lock owner start end_ typ pid (λ lock, answer (set_lock_async fate handle lock sleep) success).
Definition fuse_bmap (inode block_size block : Z) : Served :=
  answer (map_block_async fate inode block_size block) FuseReply.Mapped.
Definition fuse_poll (handle events : Z) : Served := answer (poll_events handle events) FuseReply.Ready.
Definition fuse_fallocate (handle offset length mode : Z) : Served :=
  if negb (mode =? 0) then refuse Errno.EOPNOTSUPP
  else answer (allocate_async fate handle offset length) success.
Definition fuse_copyfilerange (input input_offset output output_offset length flags : Z) : Served :=
  if negb (flags =? 0) then refuse Errno.EINVAL
  else answer (copy_file_range_async fate input input_offset output output_offset length) reply_written.
Definition fuse_setvolname (name : Name) : Served := answer (set_volume_name_async fate name) success.
Definition fuse_exchange (parent : Z) (name : Name) (new_parent : Z) (new_name : Name) (options : Z) : Served :=
  answer (exchange_data_async fate parent name new_parent new_name options) success.
Definition fuse_destroy : Served := ignore (destroy_mount map_order).

(** [impl Filesystem for Adapter]. *)
Definition serve (clock : Z) (request : FuseRequest) : Served :=
  match request with
  | FuseRequest.Lookup parent name => fuse_lookup parent name
  | FuseRequest.Forget inode nlookup => fuse_forget inode nlookup
  | FuseRequest.BatchForget nodes => fuse_batchforget nodes
  | FuseRequest.GetAttr inode => fuse_getattr inode
  | FuseRequest.SetAttr inode changes => set_attributes clock inode changes
  | FuseRequest.ReadLink inode => fuse_readlink inode
  | FuseRequest.MkNod parent name mode umask rdev => make_node parent name mode umask rdev
  | FuseRequest.MkDir parent name mode umask => fuse_mkdir parent name mode umask
  | FuseRequest.Unlink parent name => fuse_unlink parent name
  | FuseRequest.RmDir parent name => fuse_rmdir parent name
  | FuseRequest.Symlink parent name target => fuse_symlink parent name target
  | FuseRequest.Link inode new_parent new_name => fuse_link inode new_parent new_name
  | FuseRequest.Rename parent name new_parent new_name flags => fuse_rename parent name new_parent new_name flags
  | FuseRequest.Open inode flags => fuse_open inode flags
  | FuseRequest.Create parent name mode umask flags => fuse_create parent name mode umask flags
  | FuseRequest.Read handle offset size => fuse_read handle offset size
  | FuseRequest.Write handle offset data flags => write_file handle offset data flags
  | FuseRequest.Flush handle owner => fuse_flush handle owner
  | FuseRequest.Release handle owner flush => fuse_release handle owner flush
  | FuseRequest.FSync handle data_only => fuse_fsync handle data_only
  | FuseRequest.OpenDir inode flags => fuse_opendir inode flags
  | FuseRequest.ReadDir inode handle offset size => read_directory inode handle offset size
  | FuseRequest.ReadDirPlus inode handle offset size => read_directory_plus inode handle offset size
  | FuseRequest.ReleaseDir handle => fuse_releasedir handle
  | FuseRequest.FSyncDir inode handle => fuse_fsyncdir inode handle
  | FuseRequest.StatFs => fuse_statfs
  | FuseRequest.SetXattr inode name value flags position => fuse_setxattr inode name value flags position
  | FuseRequest.GetXattr inode name size => get_xattr inode name size
  | FuseRequest.ListXattr inode size => list_xattr inode size
  | FuseRequest.RemoveXattr inode name => fuse_removexattr inode name
  | FuseRequest.GetLk handle owner start end_ typ pid => fuse_getlk handle owner start end_ typ pid
  | FuseRequest.SetLk handle owner start end_ typ pid sleep => fuse_setlk handle owner start end_ typ pid sleep
  | FuseRequest.BMap inode block_size block => fuse_bmap inode block_size block
  | FuseRequest.IoCtl handle flags command input output_size => io_control handle flags command input output_size
  | FuseRequest.Poll handle events => fuse_poll handle events
  | FuseRequest.FAllocate handle offset length mode => fuse_fallocate handle offset length mode
  | FuseRequest.LSeek handle offset whence => lseek handle offset whence
  | FuseRequest.CopyFileRange input input_offset output output_offset length flags => fuse_copyfilerange input input_offset output output_offset length flags
  | FuseRequest.SetVolName name => fuse_setvolname name
  | FuseRequest.Exchange parent name new_parent new_name options => fuse_exchange parent name new_parent new_name options
  | FuseRequest.GetXTimes inode => get_times inode
  | FuseRequest.Destroy => fuse_destroy
  end.
End native.

(** * Mounting *)

Module MacFuseBackend.
Inductive MacFuseBackend := Automatic | FsKit.
End MacFuseBackend.
Abbreviation MacFuseBackend := MacFuseBackend.MacFuseBackend.

Module MountConfig.
Record MountConfig := Mk { volume_name : list Z; filesystem_name : list Z; backend : MacFuseBackend }.
Definition default : MountConfig := Mk (lit "quicKFS") (lit "quickfs") MacFuseBackend.Automatic.
End MountConfig.
Abbreviation MountConfig := MountConfig.MountConfig.

(** The custom options keep their arguments apart. *)
Module MountOption.
Inductive MountOption :=
  | RW | RO | DefaultPermissions | NoSuid | NoExec | NoAtime | NoDev
  | FSName (name : list Z) | VolName (name : list Z) | DaemonTimeout (seconds : Z) | CUSTOM (option : list Z).
End MountOption.
Abbreviation MountOption := MountOption.MountOption.

Module InitFlags.
Inductive InitFlags :=
  | FUSE_FILE_OPS | FUSE_AUTO_INVAL_DATA | FUSE_PARALLEL_DIROPS | FUSE_ALLOCATE | FUSE_EXCHANGE_DATA
  | FUSE_EXPLICIT_INVAL_DATA | FUSE_MAP_ALIGNMENT | FUSE_ATOMIC_O_TRUNC | FUSE_BIG_WRITES | FUSE_POSIX_LOCKS
  | FUSE_DO_READDIRPLUS | FUSE_READDIRPLUS_AUTO.
End InitFlags.
Abbreviation InitFlags := InitFlags.InitFlags.

Module KernelConfig.
Record KernelConfig := Mk { requested : list InitFlags; max_readahead : Z; max_write : option Z }.
End KernelConfig.
Abbreviation KernelConfig := KernelConfig.KernelConfig.

Definition valid_mount_name (name : list Z) : bool :=
  negb (bool_decide (name = []) || (zlen name >? 255) || bool_decide (44 ∈ name) || bool_decide (0 ∈ name)).
Definition validate_mount_config (config : MountConfig) : bool :=
  valid_mount_name (MountConfig.volume_name config) && valid_mount_name (MountConfig.filesystem_name config).

(** [callback_timeout] in seconds. *)
Definition macfuse_daemon_timeout_secs (callback_timeout : Z) : Z :=
  Z.min (Z.max (u64_saturating_add callback_timeout 15) 30) 600.

Definition backend_mount_option (backend : MacFuseBackend) : option MountOption :=
  match backend with
  | MacFuseBackend.Automatic => None
  | MacFuseBackend.FsKit => Some (MountOption.CUSTOM (lit "backend=fskit"))
  end.

Definition mount_options (config : MountConfig) (c : FilesystemCapabilities) (callback_timeout : Z) : list MountOption :=
  let volume_name := if bool_decide (MountConfig.volume_name config = MountConfig.volume_name MountConfig.default)
                     then FilesystemCapabilities.volume_name c else MountConfig.volume_name config in
  [if FilesystemCapabilities.writable c then MountOption.RW else MountOption.RO;
   MountOption.DefaultPermissions; MountOption.NoSuid; MountOption.NoExec; MountOption.NoAtime;
   MountOption.FSName (MountConfig.filesystem_name config); MountOption.VolName volume_name;
   MountOption.CUSTOM (lit "auto_xattr"); MountOption.CUSTOM (lit "noreadahead")] ++
  (if FilesystemCapabilities.supports_special_nodes c then [] else [MountOption.NoDev]) ++
  [MountOption.DaemonTimeout (macfuse_daemon_timeout_secs callback_timeout)] ++
  option_list (backend_mount_option (MountConfig.backend config)).

Inductive MountError := InvalidMountNames | ProbeFailed (e : AdapterError) | PrepareFailed (e : AdapterError) | SessionFailed.

Section mounting.
Context {R : Type} `{RF : RemoteFilesystem R}.
Context (fate : Z → Fate) (normalized_case_name : Name → Name) (callback_timeout : Z).

(** What the kernel can do and is asked to. *)
Definition init (supported : InitFlags → bool) (s : Adapter R) : option KernelConfig :=
  match capabilities s with
  | None => None
  | Some c =>
      let wanted :=
        [InitFlags.FUSE_FILE_OPS; InitFlags.FUSE_AUTO_INVAL_DATA; InitFlags.FUSE_PARALLEL_DIROPS] ++
        (if FilesystemCapabilities.supports_preallocation c then [InitFlags.FUSE_ALLOCATE] else []) ++
        (if FilesystemCapabilities.supports_exchange_data c then [InitFlags.FUSE_EXCHANGE_DATA] else []) ++
        (if FilesystemCapabilities.supports_atomic_rename c
         then [InitFlags.FUSE_EXPLICIT_INVAL_DATA; InitFlags.FUSE_MAP_ALIGNMENT] else []) ++
        (if FilesystemCapabilities.writable c then [InitFlags.FUSE_ATOMIC_O_TRUNC; InitFlags.FUSE_BIG_WRITES] else []) ++
        (if FilesystemCapabilities.supports_locks c then [InitFlags.FUSE_POSIX_LOCKS] else []) ++
        (if FilesystemCapabilities.supports_readdirplus c
         then [InitFlags.FUSE_DO_READDIRPLUS; InitFlags.FUSE_READDIRPLUS_AUTO] else []) in
      Some (KernelConfig.Mk (List.filter supported wanted) (Z.min MAX_FUSE_IO_SIZE u32_max)
              (if FilesystemCapabilities.writable c
               then Some (Z.min (Z.min (FilesystemCapabilities.max_write_size c) MAX_FUSE_IO_SIZE) u32_max) else None))
  end.

(** A mounted session: whether it could start, how it ended, and whether the
    volume was found unusable. *)
Context (session : list MountOption → Adapter R → option (bool * result MountError unit) * Adapter R).

(** A volume that macOS registered unusably is mounted again. *)
Fixpoint mount_attempts (left : nat) (options : list MountOption) : SM (Adapter R) MountError unit := λ s,
  match prewarm_for_mount fate normalized_case_name s with
  | (Err e, s) => (Err (PrepareFailed e), s)
  | (Ok _, s) =>
      match session options s with
      | (None, s) => (Err SessionFailed, s)
      | (Some (broken, ended), s) =>
          match left with
          | S (S _ as left') => if (broken : bool) then mount_attempts left' options s else (ended, s)
          | _ => (ended, s)
          end
      end
  end.

Definition mount (config : MountConfig) : SM (Adapter R) MountError unit := λ s,
  if negb (validate_mount_config config) then (Err InvalidMountNames, s)
  else
    match capabilities_async fate s with
    | (Err e, s) => (Err (ProbeFailed e), s)
    | (Ok c, s) => mount_attempts VOLUME_REGISTRATION_ATTEMPTS (mount_options config c callback_timeout) s
    end.
End mounting.
