(* ===== verification/MacFuseKernel.v ===== *)
(** The kernel's side of the macFUSE adapter: what it was told about an inode
    number stays true for as long as it refers to that number, when callbacks do
    not overlap; and what becomes of a lookup that another callback overtakes.

    A run is a sequence of requests, of spawned tasks and of waiting.  The ledger
    holds the references that the kernel has on every number: one for each reply
    with that number, less those it forgot.  The rows of [.] and [..] give none. *)

From S2P Require Import Prelude Protocol Common StateFiles ViewStream Prefetch Remote MacFuse MacFuseOps MacFuseFacts MacFuseNative.

Section kernel.
Context {R : Type} `{RF : RemoteFilesystem R}.
Context (fate : Z → Fate) (fold : Name → Name) (map_order : gset Z → list Z).
Context (libc : Libc) (owner_uid owner_gid row_header plus_header : Z).

Abbreviation AS := (Adapter R).
Abbreviation AM := (AM (R:=R)).
Abbreviation keeps P m := (steady P m (λ _ _, True)).
Abbreviation moves := (moves_by nothing).
Abbreviation serve := (MacFuseNative.serve fate fold map_order libc owner_uid owner_gid row_header plus_header).
Abbreviation file_attr := (MacFuseNative.file_attr libc owner_uid owner_gid).
Abbreviation serve_plus := (fill_entries_plus (R:=R) libc owner_uid owner_gid plus_header).

Definition special_name (name : Name) : bool := bool_decide (name = lit ".") || bool_decide (name = lit "..").

Definition row_references (l : list DirectoryPlusRow) : list Z :=
  map DirectoryPlusRow.ino (List.filter (λ r, negb (special_name (DirectoryPlusRow.name r))) l).

Definition references (reply : FuseReply) : list Z :=
  match reply with
  | FuseReply.Entry attr | FuseReply.Created attr _ => [FileAttr.ino attr]
  | FuseReply.DirectoryPlus l => row_references l
  | _ => []
  end.

Definition forgotten (request : FuseRequest) : list (Z * Z) :=
  match request with
  | FuseRequest.Forget inode nlookup => [(inode, nlookup)]
  | FuseRequest.BatchForget nodes => nodes
  | _ => []
  end.

(** How often a number is in a list. *)
Definition times (j : Z) (l : list Z) : Z := foldr (λ i n, ticks i j + n) 0 l.

Record Mounted := MkMounted { adapter : AS; ledger : Z → Z; given : Z }.

Inductive Event :=
  | Request (clock : Z) (request : FuseRequest)
  | Task (index : nat)
  | Wait (duration : Z).

Definition step (m : Mounted) (e : Event) : Mounted :=
  match e with
  | Request clock request =>
      let '(reply, s) := serve clock request (adapter m) in
      MkMounted s
        (match request with
         | FuseRequest.Destroy => λ _, 0
         | _ => λ j, ledger m j - forgets (forgotten request) j + times j (references reply)
         end)
        (given m + zlen (references reply))
  | Task index => MkMounted (run_background fate index (adapter m)).2 (ledger m) (given m)
  | Wait duration => MkMounted (later duration (adapter m)) (ledger m) (given m)
  end.

Definition run (l : list Event) (m : Mounted) : Mounted := foldl step m l.
Definition mounted (r : R) : Mounted := MkMounted (adapter_new r) (λ _, 0) 0.

(** Counts of lookups are unsigned. *)
Definition event_ok (e : Event) : Prop :=
  match e with Request _ request => Forall (λ f, 0 ≤ f.2) (forgotten request) | _ => True end.

(** * Requests *)

Lemma times_nonneg j l : 0 ≤ times j l ≤ zlen l.
Proof. induction l as [|i l IH]; simpl; [done|]. rewrite zlen_cons. unfold ticks. destruct (decide _); lia. Qed.

Lemma times_app j l1 l2 : times j (l1 ++ l2) = times j l1 + times j l2.
Proof. induction l1 as [|i l IH]; simpl; [done|]. rewrite IH. lia. Qed.

Lemma row_references_app l1 l2 : row_references (l1 ++ l2) = row_references l1 ++ row_references l2.
Proof. unfold row_references. by rewrite List.filter_app, map_app. Qed.

(** The request forgets at most [d], and what the reply refers to is held. *)
Definition serves (d : Z → Z) (c : Served (R:=R)) : Prop := ∀ s, adapter_ok s →
  adapter_ok (c s).2 ∧ evolves s (c s).2 ∧
  ∀ j k, k + times j (references (c s).1) ≤ u64_max → next_inode (c s).2 < u64_max → held j k s →
    held j (k - d j + times j (references (c s).1)) (c s).2.

Lemma serves_moves {A} d (m : AM A) f : moves_by d m → (∀ a, references (f a) = []) → serves d (answer m f).
Proof.
  intros Hm Hf s Hs. destruct (Hm s Hs) as (? & ? & Hh). unfold answer.
  destruct (m s) as [[a|e] s']; simpl in *; rewrite ?Hf; simpl; split_and!; try done;
    intros j k _ _ Hk; rewrite Z.add_0_r; auto.
Qed.

Lemma serves_steady {A} (m : AM A) f : keeps (λ _, True) m → (∀ a, references (f a) = []) → serves nothing (answer m f).
Proof. intros Hm. apply serves_moves. by eapply steady_moves. Qed.

Lemma serves_grants {A} (i : A → Z) (m : AM A) f :
  grants i m → (∀ a, references (f a) = [i a]) → serves nothing (answer m f).
Proof.
  intros Hm Hf s Hs. unfold answer.
  assert (∀ j k, k < u64_max → held j k s → adapter_ok (m s).2 ∧ extends s (m s).2 ∧
    ∀ a, (m s).1 = Ok a → held j (k + ticks (i a) j) (m s).2) as H by (intros j k Hk; by apply Hm).
  destruct (H 0 (-1)) as (? & Hx & _); [by vm_compute|by intros ?|]. pose proof (extends_evolves _ _ Hx) as Hv.
  unfold nothing. destruct (m s) as [[a|e] s'] eqn:Em; simpl in *; split_and!; try done; intros j k Hb _ Hh.
  - rewrite Hf in *. simpl in *. rewrite Z.add_0_r in *. replace (k - 0) with k by lia. unfold ticks in *. destruct (decide (i a = j)) as [<-|].
    + destruct (H (i a) k ltac:(lia) Hh) as (_ & _ & Ha). specialize (Ha a eq_refl). by rewrite decide_True in Ha.
    + rewrite Z.add_0_r. by eapply held_extends.
  - eapply held_less; [|by eapply held_extends]. lia.
Qed.

Lemma serves_refuse e : serves nothing (refuse e).
Proof.
  intros s Hs. split_and!; [done|done|]. intros j k _ _. apply held_less. unfold nothing. simpl. lia.
Qed.

Lemma serves_ignore {A} d (m : AM A) : moves_by d m → serves d (ignore m).
Proof.
  intros Hm s Hs. destruct (Hm s Hs) as (? & ? & Hh). split_and!; [done|done|]. intros j k _ _ Hk. simpl. rewrite Z.add_0_r. auto.
Qed.

(** ** Directory rows *)

Lemma entry_inode_steady i e : steady (λ _, True) (entry_inode (R:=R) i e) (λ x s, next_inode s < u64_max → known x s).
Proof.
  intros s Hs _. unfold entry_inode.
  set (node := Metadata.node _). set (name := DirectoryEntry.name e).
  destruct (remember_entry_known node i name s Hs I) as (Hs' & Hx & Hk).
  destruct (remember_entry node i name s) as [[x|err] s'] eqn:Er; unfold mbind, sm_bind, sm_try; rewrite Er; simpl in *;
    split_and!; try done; intros y [= <-] Hn.
  - by apply Hk.
  - exfalso. revert Er. unfold remember_entry, assign_inode. sm_unfold. simpl.
    destruct (InodeTable.by_node (inodes s) !! node); simpl; [done|]. destruct (next_inode s =? u64_max) eqn:E; bool_simpl; simpl; [|done].
    intros [= _ <-]. simpl in Hn. lia.
Qed.

Lemma row_lookup_steady P offset index i : keeps P (row_lookup (R:=R) offset index i).
Proof. unfold row_lookup. destruct (_ <=? _); [apply add_lookup_steady|by apply s_ret]. Qed.

(** What a listing's rows give, from buffer [b] on. *)
Definition rows_given (b : RowBuffer DirectoryPlusRow) (s : AS) (o : result AdapterError (RowBuffer DirectoryPlusRow) * AS) : Prop :=
  adapter_ok o.2 ∧ extends s o.2 ∧
  ∀ b', o.1 = Ok b' → ∃ new, rows b' = rows b ++ new ∧
    ∀ j k, k + times j (row_references new) ≤ u64_max → next_inode o.2 < u64_max → held j k s →
      held j (k + times j (row_references new)) o.2.

Lemma times_one j row : 0 ≤ times j (row_references [row]) ≤ ticks (DirectoryPlusRow.ino row) j.
Proof. unfold row_references. simpl. destruct (negb _); simpl; unfold ticks; destruct (decide _); lia. Qed.

(** A row that was put, then the rest. *)
Lemma rows_given_after b b1 row s s1 o :
  rows b1 = rows b ++ [row] → extends s s1 →
  (∀ j k, k < u64_max → next_inode s1 < u64_max → held j k s → held j (k + times j (row_references [row])) s1) →
  rows_given b1 s1 o → rows_given b s o.
Proof.
  intros Hb Hx Hrow (Hs & Hx' & Hr). split_and!; [done|by etrans|]. intros b' Eb. destruct (Hr b' Eb) as (new & Hnew & Hg).
  exists (row :: new). split; [rewrite Hnew, Hb; by rewrite <- app_assoc|]. intros j k Hk Hn Hh.
  change (row :: new) with ([row] ++ new) in *. rewrite row_references_app, times_app in *.
  pose proof (times_one j row) as H1. pose proof (times_nonneg j (row_references new)) as H2. pose proof (ex_next _ _ Hx').
  destruct (decide (k < u64_max)) as [Hlt|]; rewrite Z.add_assoc in *.
  - apply Hg; [lia|done|]. apply Hrow; [done|lia|done].
  - assert (times j (row_references [row]) = 0) as Hz by lia. assert (times j (row_references new) = 0) as Hz' by lia.
    rewrite Hz, Hz', !Z.add_0_r. by eapply held_extends, held_extends.
Qed.

Lemma rows_given_still b s : adapter_ok s → rows_given b s (Ok b, s).
Proof.
  intros Hs. split_and!; [done|done|]. intros b' [= <-]. exists []. split; [by rewrite app_nil_r|]. intros j k _ _. simpl.
  by rewrite Z.add_0_r.
Qed.

Lemma rows_given_before b s s1 o : extends s s1 → rows_given b s1 o → rows_given b s o.
Proof.
  intros Hx (Hs & Hx' & Hr). split_and!; [done|by etrans|]. intros b' Eb. destruct (Hr b' Eb) as (new & Hnew & Hg).
  exists new. split; [done|]. intros j k Hk Hn Hh. apply Hg; [done|done|]. by eapply held_extends.
Qed.

Lemma push_cases {A} header size (b : RowBuffer A) name row :
  push_row header size b name row = (true, b) ∨
  ∃ b', push_row header size b name row = (false, b') ∧ rows b' = rows b ++ [row].
Proof. unfold push_row. destruct (_ >? _); [by left|right]. by eexists. Qed.

Lemma fill_entries_given size inode offset index entries b s :
  adapter_ok s → rows_given b s (serve_plus size inode offset index entries b s).
Proof.
  revert index b s. induction entries as [|e entries IH]; intros index b s Hs; cbn [fill_entries_plus]; [by apply rows_given_still|].
  destruct (entry_inode_steady inode e s Hs I) as (Hs1 & Hx1 & Hk1). unfold mbind at 1, sm_bind at 1.
  destruct (entry_inode inode e s) as [[i|err] s1]; simpl in Hs1, Hx1, Hk1; [|split_and!; done].
  eapply rows_given_before; [exact Hx1|]. unfold add_directory_plus_row, row_lookup.
  destruct (offset <=? index); cycle 1.
  { apply IH, Hs1. }
  destruct (push_cases plus_header size b (DirectoryEntry.name e) (DirectoryPlusRow.Mk i (u64_saturating_add index 1)
    (DirectoryEntry.name e) (file_attr i (DirectoryEntry.metadata e)))) as [->|(b1 & -> & Hb1)]; [by apply rows_given_still|].
  destruct (add_lookup_steady (λ _, True) i s1 Hs1 I) as (Hs2 & Hx2 & _).
  eapply rows_given_after; [exact Hb1|exact Hx2| |].
  - intros j k Hk Hn Hh. pose proof (ex_next _ _ Hx2). eapply held_less; [apply Z.add_le_mono_l, times_one|].
    destruct (add_lookup_grants i j k Hk s1 Hs1) as (_ & _ & Hg); [split; [apply Hk1; [done|lia]|done]|]. by apply (Hg tt).
  - apply IH, Hs2.
Qed.

Lemma special_rows i x m name : special_name name = true → row_references [DirectoryPlusRow.Mk i x name m] = [].
Proof. intros E. unfold row_references. simpl. by rewrite E. Qed.

(** The row of [.] or [..]. *)
Lemma special_given size offset index i name m b s (next : RowBuffer DirectoryPlusRow → AM (RowBuffer DirectoryPlusRow)) :
  special_name name = true → adapter_ok s → (∀ b' s', adapter_ok s' → rows_given b' s' (next b' s')) →
  rows_given b s
    ((let '(full, b1) := add_directory_plus_row libc owner_uid owner_gid plus_header size offset index i name m b in
      if full : bool then mret b1 else _ ← row_lookup offset index i; next b1) s).
Proof.
  intros Hspecial Hs Hnext. unfold add_directory_plus_row, row_lookup. destruct (offset <=? index); cycle 1.
  { by apply Hnext. }
  destruct (push_cases plus_header size b name (DirectoryPlusRow.Mk i (u64_saturating_add index 1) name (file_attr i m)))
    as [->|(b1 & -> & Hb1)]; [by apply rows_given_still|].
  destruct (add_lookup_steady (λ _, True) i s Hs I) as (Hs2 & Hx2 & _).
  eapply rows_given_after; [exact Hb1|exact Hx2| |by apply Hnext].
  intros j k _ _ Hh. rewrite special_rows by done. simpl. rewrite Z.add_0_r. by eapply held_extends.
Qed.

Lemma fill_directory_given size inode offset listing current parent s :
  adapter_ok s →
  rows_given empty_rows s (fill_directory_plus libc owner_uid owner_gid plus_header size inode offset listing current parent s).
Proof.
  intros Hs. unfold fill_directory_plus. apply special_given; [done|done|]. intros b1 s1 Hs1.
  apply special_given; [done|done|]. intros b2 s2 Hs2. by apply fill_entries_given.
Qed.

Lemma read_directory_plus_serves inode handle offset size :
  serves nothing (read_directory_plus libc owner_uid owner_gid plus_header inode handle offset size).
Proof.
  intros s Hs. unfold read_directory_plus, answer, directory_listing_with_metadata, directory_handle. unfold nothing.
  pose proof (serves_refuse (Errno.EBADF) s Hs) as Hrefuse. unfold nothing in Hrefuse.
  sm_unfold. destruct (directory_handles s !! handle) as [r|]; simpl; [|exact Hrefuse].
  destruct (negb _); simpl; [exact Hrefuse|].
  destruct (fill_directory_given size inode offset (DirectoryHandleRecord.listing r) (DirectoryHandleRecord.current r)
    (DirectoryHandleRecord.parent r) s Hs) as (Hs' & Hx & Hg).
  destruct (fill_directory_plus _ _ _ _ _ _ _ _ _ _ s) as [[b|e] s']; simpl in *; split_and!; try done; try by apply extends_evolves.
  - intros j k Hk Hn Hh. destruct (Hg b eq_refl) as (new & <- & Hgk). replace (k - 0) with k by lia. by apply Hgk.
  - intros j k _ _ Hh. eapply held_less; [|by eapply held_extends]. lia.
Qed.

Lemma serves_grants_then {A B C} (i : A → Z) (m : AM A) (rest : A → AM B) (g : A → C) f :
  grants i m → (∀ a, moves (rest a)) → (∀ a, references (f (g a)) = [i a]) →
  serves nothing (answer (a ← m; _ ← sm_try (rest a); mret (g a)) f).
Proof.
  intros Hm Hrest Hf s Hs. destruct (serves_grants i m (λ a, f (g a)) Hm Hf s Hs) as (Hs1 & Hv & Hg).
  unfold answer, mbind, sm_bind, sm_try in *. destruct (m s) as [[a|e] s1]; simpl in *; [|done].
  destruct (Hrest a s1 Hs1) as (Hs2 & Hv2 & Hh2). destruct (rest a s1) as [r s2]. simpl in *.
  split_and!; [done|by etrans|]. intros j k Hk Hn Hh. pose proof (ev_next _ _ Hv2).
  eapply held_less; [|apply Hh2, (Hg j k); [done|lia|done]]. unfold nothing. lia.
Qed.

Lemma make_node_serves parent name mode umask rdev :
  serves nothing (make_node fate libc owner_uid owner_gid parent name mode umask rdev).
Proof.
  unfold make_node. destruct (special_kind libc mode) as [[kind|]|e]; [| |apply serves_refuse].
  { apply (serves_grants CreatedNode.inode); [apply create_special_grants|done]. }
  apply (serves_grants_then CreatedAndOpenedFile.inode); [apply create_file_grants|intros c; apply release_moves|done].
Qed.

Lemma serves_times d d' c : (∀ j, d j ≤ d' j) → serves d c → serves d' c.
Proof.
  intros Hd Hc s Hs. destruct (Hc s Hs) as (? & ? & Hh). split_and!; [done|done|]. intros j k Hk Hn Hj.
  eapply held_less; [|by apply Hh]. specialize (Hd j). lia.
Qed.

Lemma poll_steady h events : keeps (λ _, True) (poll_events (R:=R) libc h events).
Proof.
  unfold poll_events. apply (s_seq _ _ _ (λ _ _, True)); [eapply s_weaken; [apply (file_handle_steady (λ _, True))|done|done]|].
  intros o. by apply s_ret.
Qed.

Lemma entry_rows_steady size i offset index l b : keeps (λ _, True) (fill_entries (R:=R) row_header size i offset index l b).
Proof.
  revert index b. induction l as [|e l IH]; intros index b; cbn [fill_entries]; [by apply s_ret|].
  apply (s_seq _ _ _ (λ _ _, True)); [eapply s_weaken; [apply entry_inode_steady|done|done]|]. intros x.
  destruct (add_directory_row _ _ _ _ _ _ _ _) as [[] b']; [by apply s_ret|apply IH].
Qed.

Lemma read_directory_serves inode handle offset size : serves nothing (read_directory (R:=R) row_header inode handle offset size).
Proof.
  apply serves_steady; [|done]. unfold directory_listing, directory_handle.
  apply (s_seq _ _ _ (λ _ _, True)).
  - apply (s_seq _ _ _ (λ _ _, True)); [|intros r; destruct (negb _); [apply s_err|by apply s_ret]].
    apply (s_seq _ _ _ (λ _ _, True)); [by apply s_gets|]. intros r. by apply s_lift.
  - intros listing. unfold fill_directory.
    repeat destruct (add_directory_row _ _ _ _ _ _ _ _) as [[] ?]; try (by apply s_ret). apply entry_rows_steady.
Qed.

Create HintDb steady.
#[local] Hint Resolve getattr_steady readlink_steady remove_steady rename_steady open_steady read_steady flush_steady
  fsync_steady opendir_steady releasedir_steady fsyncdir_steady statfs_steady set_xattr_steady xattr_size_steady
  get_xattr_steady list_xattrs_steady remove_xattr_steady get_lock_steady set_lock_steady bmap_steady poll_steady
  allocate_steady copy_range_steady volume_name_steady exchange_steady lseek_steady ioctl_steady setattr_steady : steady.

(** A reply without an inode. *)
Ltac no_references := intros ?; unfold reply_written, reply_size, reply_lock; simpl; by repeat case_match.
Ltac serves_plain := apply serves_steady; [by eauto with steady|by no_references].

Lemma write_file_serves h offset data flags : serves nothing (write_file (R:=R) fate libc h offset data flags).
Proof.
  apply serves_steady; [|by no_references]. apply (s_seq _ _ _ (λ _ _, True)); [apply write_steady|]. intros n.
  apply (s_seq _ _ _ (λ _ _, True)); [|intros _; by apply s_ret].
  destruct (write_sync_mode _ _); [apply fsync_steady|by apply s_ret].
Qed.

Lemma set_attributes_serves clock inode a : serves nothing (set_attributes (R:=R) fate map_order libc owner_uid owner_gid clock inode a).
Proof. unfold set_attributes. repeat case_match; try apply serves_refuse. serves_plain. Qed.

Lemma seek_serves h offset w f : (∀ n, references (f n) = []) → serves nothing (seek (R:=R) fate h offset w f).
Proof.
  intros Hf. unfold seek. destruct (_ <? _); [apply serves_refuse|]. apply serves_steady; [by eauto with steady|].
  intros n. by destruct (_ <=? _).
Qed.

Lemma io_control_serves h flags command input size : serves nothing (io_control (R:=R) fate libc h flags command input size).
Proof.
  unfold io_control. destruct (_ || _).
  - destruct (_ || _); [apply serves_refuse|]. by apply seek_serves.
  - destruct (_ || _); [apply serves_refuse|]. serves_plain.
Qed.

Lemma with_lock_serves owner start end_ typ pid k :
  (∀ l, serves nothing (k l)) → serves nothing (with_lock (R:=R) libc owner start end_ typ pid k).
Proof. intros Hk. unfold with_lock. destruct (protocol_lock _ _ _ _ _ _); [apply Hk|apply serves_refuse]. Qed.

Lemma serve_serves clock request :
  Forall (λ f, 0 ≤ f.2) (forgotten request) → serves (forgets (forgotten request)) (serve clock request).
Proof.
  intros Hf. assert (∀ c, serves nothing c → forgotten request = [] → serves (forgets (forgotten request)) c) as Hn.
  { intros c Hc E. rewrite E. by eapply serves_times; [|exact Hc]. }
  destruct request; cbn [serve forgotten] in *; unfold fuse_lookup, fuse_forget, fuse_batchforget, fuse_getattr, fuse_readlink, fuse_mkdir, fuse_unlink, fuse_rmdir, fuse_symlink, fuse_link, fuse_rename, fuse_open, fuse_create, fuse_read, fuse_flush, fuse_release, fuse_fsync, fuse_opendir, fuse_releasedir, fuse_fsyncdir, fuse_statfs, fuse_setxattr, fuse_removexattr, fuse_getlk, fuse_setlk, fuse_bmap, fuse_poll, fuse_fallocate, fuse_copyfilerange, fuse_setvolname, fuse_exchange, fuse_destroy; try (apply Hn; [|done]);
    try (serves_plain); try (repeat case_match; first [apply serves_refuse|serves_plain]).
  - apply (serves_grants LookupResult.inode); [apply lookup_grants|done].
  - apply serves_ignore, forget_moves, Hf.
  - apply serves_ignore, forget_moves, Hf.
  - apply set_attributes_serves.
  - apply make_node_serves.
  - apply (serves_grants CreatedNode.inode); [apply create_directory_grants|done].
  - apply (serves_grants CreatedNode.inode); [apply create_symlink_grants|done].
  - apply (serves_grants CreatedNode.inode); [apply create_hard_link_grants|done].
  - apply (serves_grants CreatedAndOpenedFile.inode); [apply create_file_grants|done].
  - apply write_file_serves.
  - apply serves_moves; [apply release_moves|by no_references].
  - apply read_directory_serves.
  - apply read_directory_plus_serves.
  - unfold get_xattr. destruct (_ =? _); [serves_plain|]. apply serves_steady; [by eauto with steady|]. intros v. by destruct (_ <=? _).
  - apply with_lock_serves. intros l. serves_plain.
  - apply with_lock_serves. intros l. serves_plain.
  - apply io_control_serves.
  - unfold lseek. repeat case_match; try apply serves_refuse; by apply seek_serves.
  - apply serves_ignore, destroy_moves.
Qed.

(** * Runs *)

Definition mounted_ok (m : Mounted) : Prop :=
  adapter_ok (adapter m) ∧ 0 ≤ given m ∧ ∀ j, held j (ledger m j) (adapter m) ∧ ledger m j ≤ given m.

Lemma adapter_new_ok (r : R) : adapter_ok (adapter_new r).
Proof.
  split; unfold node_at, known, buffered_for; simpl.
  - by rewrite lookup_singleton_eq.
  - intros n i. rewrite lookup_singleton_Some. destruct (decide (i = ROOT_INODE)) as [->|Hne].
    + rewrite lookup_singleton_eq. simpl. naive_solver.
    + rewrite lookup_singleton_ne by done. simpl. naive_solver.
  - by intros k i ?%lookup_empty_Some.
  - intros i c [<- <-]%lookup_singleton_Some. by vm_compute.
  - intros i [r' [<- _]%lookup_singleton_Some]. by vm_compute.
  - by intros h r' ?%lookup_empty_Some.
  - by intros h r' ?%lookup_empty_Some.
  - by rewrite dom_empty_L.
  - by intros h p ?%lookup_empty_Some.
  - by vm_compute.
  - intros h [[? H]|[? H]]; by apply lookup_empty_Some in H.
Qed.

Lemma mounted_new_ok (r : R) : mounted_ok (mounted r).
Proof. split_and!; [apply adapter_new_ok|done|]. intros j. split; [|done]. intros H. simpl in H. lia. Qed.

(** The bounds hold before a step when they hold after it. *)
Definition bounded (m : Mounted) : Prop := given m ≤ u64_max ∧ next_inode (adapter m) < u64_max.

(** A step never gives a number a second meaning. *)
Record grows (m m' : Mounted) : Prop := {
  gr_ok : adapter_ok (adapter m');
  gr_evolves : evolves (adapter m) (adapter m');
  gr_given : given m ≤ given m'
}.

Lemma step_grows m e : adapter_ok (adapter m) → event_ok e → grows m (step m e).
Proof.
  intros Hs He. destruct e as [clock request|index|duration]; cbn [step event_ok] in *.
  - destruct (serve_serves clock request He (adapter m) Hs) as (Hs' & Hv & _).
    destruct (serve clock request (adapter m)) as [reply s']. simpl in *.
    split; [done|done|]. pose proof (zlen_nonneg (references reply)). simpl. lia.
  - by destruct (background_moves fate index (adapter m) Hs) as (Hs' & Hv & _).
  - destruct (alike_adapter_ok (adapter m) (later duration (adapter m))) as [Hs' Hx]; [by split_and!|done|].
    split; [done|by apply extends_evolves|done].
Qed.

Lemma step_ok m e : mounted_ok m → event_ok e → bounded (step m e) → mounted_ok (step m e).
Proof.
  intros (Hs & H0 & Hl) He [Hg Hn]. destruct (step_grows m e Hs He) as [Hs' _ Hmore]. split_and!; [done|lia|]. clear Hs'.
  destruct e as [clock request|index|duration]; cbn [step event_ok] in *; intros j; destruct (Hl j) as [Hj Hgj].
  - destruct (serve_serves clock request He (adapter m) Hs) as (_ & _ & Hh).
    destruct (serve clock request (adapter m)) as [reply s']. simpl in *.
    pose proof (forgets_nonneg (forgotten request) j He) as Hf. pose proof (times_nonneg j (references reply)) as Ht.
    assert (held j (ledger m j - forgets (forgotten request) j + times j (references reply)) s') as Hj'.
    { apply Hh; [lia|done|done]. }
    destruct request; (split; [exact Hj'|lia]) || (split; [intros ?; lia|lia]).
  - destruct (background_moves fate index (adapter m) Hs) as (_ & _ & Hh). split; [|done].
    simpl. rewrite <- (Z.sub_0_r (ledger m j)). by apply Hh.
  - destruct (alike_adapter_ok (adapter m) (later duration (adapter m))) as [_ Hx]; [by split_and!|done|].
    split; [by eapply held_extends|done].
Qed.

Lemma run_grows l m : adapter_ok (adapter m) → Forall event_ok l → grows m (run l m).
Proof.
  intros Hs Hl. revert m Hs. induction Hl as [|e l He _ IH]; intros m Hs; [by split|].
  destruct (step_grows m e Hs He) as [Hs1 Hv1 Hg1]. destruct (IH (step m e) Hs1) as [Hs2 Hv2 Hg2].
  change (run (e :: l) m) with (run l (step m e)). split; [done|by etrans|lia].
Qed.

Lemma run_ok l m : mounted_ok m → Forall event_ok l → bounded (run l m) → mounted_ok (run l m).
Proof.
  intros Hm Hl. revert m Hm. induction Hl as [|e l He Hl IH]; intros m Hm Hb; [done|].
  change (run (e :: l) m) with (run l (step m e)) in *. apply IH; [|done]. apply step_ok; [done|done|].
  destruct (step_grows m e) as [Hs1 _ _]; [by destruct Hm|done|].
  destruct (run_grows l (step m e) Hs1 Hl) as [_ [_ Hnext] Hg]. destruct Hb as [Hb1 Hb2]. split; lia.
Qed.

Lemma run_app l1 l2 m : run (l1 ++ l2) m = run l2 (run l1 m).
Proof. apply foldl_app. Qed.

(** When every callback ends before the next one begins, a number that the kernel
    refers to is the number of a node, with at least
    as many lookups as the kernel has, and it is the node that the number stood
    for at any earlier time. *)
Theorem serial_references_kept r l1 l2 i :
  let m1 := run l1 (mounted r) in
  let m2 := run l2 m1 in
  Forall event_ok (l1 ++ l2) → bounded m2 → 0 < ledger m2 i →
  ∃ n, node_at (adapter m2) i = Some n ∧ ledger m2 i ≤ looked i (adapter m2) ∧
    ∀ n', node_at (adapter m1) i = Some n' → n' = n.
Proof.
  intros m1 m2 Hl Hb Hi. apply Forall_app in Hl as [Hl1 Hl2].
  destruct (run_grows l1 (mounted r) (adapter_new_ok r) Hl1) as [Hs1 _ _].
  fold m1 in Hs1. destruct (run_grows l2 m1 Hs1 Hl2) as [Hs2 Hv _].
  destruct (run_ok (l1 ++ l2) (mounted r)) as (_ & _ & Hm); [apply mounted_new_ok|by apply Forall_app|by rewrite run_app|].
  rewrite run_app in Hm. destruct (Hm i) as [Hh _]. destruct (Hh Hi) as [[n Hn]%known_node Hc]. exists n. split_and!; [done|done|].
  intros n' Hn'. destruct (ev_new _ _ Hv i n Hn) as [E|E]; [congruence|].
  pose proof (ao_next _ Hs1 i (stands_known _ _ _ Hn')). lia.
Qed.

(** ** Callbacks that overlap *)

Lemma evicted_alone inode amount (s : AS) :
  inode ≠ ROOT_INODE → inode_in_use inode s = false → looked inode s ≤ amount →
  let t := inodes (forget_inodes [(inode, amount)] s).2 in
  InodeTable.by_inode t !! inode = None ∧ InodeTable.lookups t !! inode = None.
Proof.
  intros Hroot Huse Hle. unfold forget_inodes. cbn [evict_each]. unfold evict_inode.
  rewrite (proj2 (Z.eqb_neq _ _) Hroot). sm_unfold. simpl. rewrite Huse.
  assert (u64_saturating_sub (default 0 (InodeTable.lookups (inodes s) !! inode)) amount = 0) as ->
    by (unfold looked, u64_saturating_sub in *; lia).
  simpl. destruct (InodeTable.by_inode (inodes s) !! inode); simpl; by rewrite !lookup_delete_eq.
Qed.

(** [lookup_async] up to the [await] of the metadata of a number it has found. *)
Definition lookup_begun (parent_inode : Z) (name : Name) : AM (option (Z * Metadata)) :=
  _ ← check_name name;
  cached ← cached_directory parent_inode;
  match cached with
  | Some _ => mret None
  | None =>
      known ← find_entry_inode fold parent_inode name;
      match known with
      | Some inode => m ← getattr_async fate inode; mret (Some (inode, m))
      | None => mret None
      end
  end.

Lemma lookup_begun_then parent name s inode m s1 :
  lookup_begun parent name s = (Ok (Some (inode, m)), s1) →
  lookup_async fate fold parent name s = lookup_known inode m s1.
Proof.
  unfold lookup_begun, lookup_async, mbind, sm_bind.
  destruct (check_name name s) as [[[]|] s2]; [|done]. destruct (cached_directory parent s2) as [[[l|]|] s3]; try done.
  destruct (find_entry_inode fold parent name s3) as [[[i|]|] s4]; try done.
  destruct (getattr_async fate i s4) as [[m'|] s5]; [|done]. by intros [= -> -> ->].
Qed.

Lemma lookup_begun_known parent name :
  steady (λ _, True) (lookup_begun parent name) (λ o s, ∀ i m, o = Some (i, m) → known i s).
Proof.
  unfold lookup_begun. apply (s_seq _ _ _ (λ _ _, True)); [apply s_guard|]. intros _.
  apply (s_seq _ _ _ (λ _ _, True)); [apply cached_directory_steady|]. intros [l|]; [by apply s_ret|].
  apply (s_seq _ _ _ (λ o s, ∀ i, o = Some i → known i s)); [apply find_entry_steady|].
  intros [i|]; [|by apply s_ret]. apply (s_bind _ _ _ (λ _ _, True)).
  - intros s s' Hx Hk j Ej. eapply known_extends; [done|by apply Hk].
  - eapply s_weaken; [apply (getattr_steady _ (λ _, True))|done|done].
  - intros m s Hs [Hk _]. split_and!; [done|done|]. intros o [= <-] j m' [= <- <-]. by apply Hk.
Qed.

(** A lookup that a forget overtakes gives the kernel a number of nothing.
    A lookup finds a number and waits for its metadata.  If meanwhile the number
    is evicted (by a [forget] of all its references, or by the task that frees the
    rows of a released directory when there are none), the lookup succeeds all the
    same: it counts a reference to the number and replies with it, but the number
    stands for no node, and whatever requests and tasks follow, it never will
    again: every later request for its attributes fails. *)
Theorem overtaken_lookup_lost parent name s inode m s1 amount :
  adapter_ok s → lookup_begun parent name s = (Ok (Some (inode, m)), s1) →
  inode ≠ ROOT_INODE → inode_in_use inode s1 = false → 0 ≤ amount → looked inode s1 ≤ amount →
  let s2 := (forget_inodes [(inode, amount)] s1).2 in
  ∃ s3, lookup_known inode m s2 = (Ok (LookupResult.Mk inode m), s3) ∧ looked inode s3 = 1 ∧
    ∀ l ledger given, Forall event_ok l →
      let s' := adapter (run l (MkMounted s3 ledger given)) in
      node_at s' inode = None ∧ (getattr_async fate inode s').1 = Err AdapterError.UnknownInode.
Proof.
  intros Hs Hbegun Hroot Huse Hamount Hle s2.
  destruct (lookup_begun_known parent name s Hs I) as (Hs1 & _ & Hknown).
  rewrite Hbegun in Hs1, Hknown. simpl in Hs1, Hknown. specialize (Hknown _ eq_refl inode m eq_refl).
  pose proof (ao_next _ Hs1 _ Hknown) as Hnext.
  assert (Forall (λ r : Z * Z, 0 ≤ r.2) [(inode, amount)]) as Hl by by repeat constructor.
  destruct (forget_moves [(inode, amount)] Hl s1 Hs1) as (Hs2 & [_ Hn2] & _).
  assert (InodeTable.by_inode (inodes s2) !! inode = None ∧ InodeTable.lookups (inodes s2) !! inode = None) as [Hnone Hno].
  { subst s2. clear Hs2 Hn2. unfold forget_inodes. apply evicted_alone; done. }
  destruct (add_lookup_steady (λ _, True) inode s2 Hs2 I) as (Hs3 & Hx3 & _).
  set (s3 := (add_lookup inode 1 s2).2) in *. exists s3. split_and!; [done| |].
  { unfold s3, looked, add_lookup, on_table. sm_unfold. simpl. rewrite lookup_insert_eq, Hno. done. }
  intros l ledger given Hev s'.
  destruct (run_grows l (MkMounted s3 ledger given) Hs3 Hev) as [Hs' [Hnew _] _]. fold s' in Hnew, Hs'.
  assert (InodeTable.by_inode (inodes s') !! inode = None) as Hgone.
  { destruct (InodeTable.by_inode (inodes s') !! inode) as [record|] eqn:E; [|done].
    assert (node_at s' inode = Some (InodeRecord.node record)) as Hat by (unfold node_at; by rewrite E).
    destruct (Hnew _ _ Hat) as [Hold|Hold]; cbn [adapter] in Hold.
    - change (node_at s2 inode = Some (InodeRecord.node record)) in Hold. unfold node_at in Hold. by rewrite Hnone in Hold.
    - fold s2 in Hn2. pose proof (ex_next _ _ Hx3). clearbody s3 s2. lia. }
  split; [unfold node_at; by rewrite Hgone|].
  unfold getattr_async, inode_record. sm_unfold. simpl. by rewrite Hgone.
Qed.
End kernel.
