(* ===== verification/MacFuseBuffer.v ===== *)
(** Coalesced writes of the macFUSE adapter: on one handle, buffered writes,
    reads, sizes and flushes answer as if every write had gone straight to the
    file. *)

From S2P Require Import Prelude Protocol Common FileIO StateFiles ViewStream Prefetch Remote MacFuse MacFuseOps MacFuseFacts.

(** A remote layer that performs positioned reads and writes of one file, in
    time and without errors. *)
Record FileServer (R : Type) `{RemoteFilesystem R} (node : NodeId) (f : FileHandle) (caps : FilesystemCapabilities) := MkFileServer {
  content : R → list Z;
  version : R → Z;
  fs_capabilities r : ∃ r', perform Capabilities r = (Ok caps, r') ∧ content r' = content r;
  fs_write r offset data :
    0 < zlen data ≤ Z.min (FilesystemCapabilities.max_write_size caps) MAX_CLIENT_WRITE_SIZE → 0 ≤ offset →
    ∃ w r', perform (WriteRange f offset data) r = (Ok w, r') ∧ WriteResult.written w = zlen data ∧
      content r' = write_bytes (content r) offset data;
  fs_read r offset length :
    0 < length ≤ Z.min (FilesystemCapabilities.max_read_size caps) MAX_CLIENT_READ_SIZE → 0 ≤ offset →
    ∃ x r', perform (ReadRangeVersioned f offset length) r = (Ok x, r') ∧
      RangeRead.data x = slice (content r) offset length ∧ RangeRead.revision x = version r ∧
      content r' = content r ∧ version r' = version r;
  fs_metadata r : ∃ m r', perform (GetMetadata node) r = (Ok m, r') ∧ Metadata.node m = node ∧
    Metadata.size m = zlen (content r) ∧ content r' = content r;
  fs_flush r owner : ∃ r', perform (FlushFile f owner) r = (Ok tt, r') ∧ content r' = content r;
  fs_sync r data_only : ∃ r', perform (SyncFile f data_only) r = (Ok tt, r') ∧ content r' = content r
}.
Arguments content {R _ node f caps} _ _.
Arguments version {R _ node f caps} _ _.
Arguments fs_capabilities {R _ node f caps} _ _.
Arguments fs_write {R _ node f caps} _ _ _ _ _ _.
Arguments fs_read {R _ node f caps} _ _ _ _ _ _.
Arguments fs_metadata {R _ node f caps} _ _.
Arguments fs_flush {R _ node f caps} _ _ _.
Arguments fs_sync {R _ node f caps} _ _ _.

(** * The specification *)

Inductive FileOp :=
  | WriteAt (offset : Z) (data : list Z)
  | ReadAt (offset length : Z)
  | FlushOp (owner : option Z)
  | SyncOp (data_only : bool)
  | SizeOp.

Inductive FileAnswer := Wrote (count : Z) | Bytes (data : list Z) | Done | SizeIs (size : Z) | Failed (e : AdapterError).

(** Every operation is performed on the file at once. *)
Definition direct (op : FileOp) (c : list Z) : FileAnswer * list Z :=
  match op with
  | WriteAt offset data =>
      match validate_io_range offset (zlen data) with
      | Ok _ => (Wrote (zlen data), write_bytes c offset data)
      | Err e => (Failed e, c)
      end
  | ReadAt offset length =>
      match validate_io_range offset length with
      | Ok _ => (Bytes (slice c offset length), c)
      | Err e => (Failed e, c)
      end
  | FlushOp _ | SyncOp _ => (Done, c)
  | SizeOp => (SizeIs (zlen c), c)
  end.

(** Offsets and lengths are unsigned, and a write has bytes. *)
Definition op_ok (op : FileOp) : Prop :=
  match op with
  | WriteAt offset data => 0 ≤ offset ∧ data ≠ []
  | ReadAt offset length => 0 ≤ offset ∧ 0 ≤ length
  | _ => True
  end.

Fixpoint run_ops {S} (step : FileOp → S → FileAnswer * S) (ops : list FileOp) (s : S) : list FileAnswer * S :=
  match ops with
  | [] => ([], s)
  | op :: ops' =>
      let '(a, s) := step op s in
      let '(l, s) := run_ops step ops' s in
      (a :: l, s)
  end.

Section buffer.
Context {R : Type} `{RF : RemoteFilesystem R}.
Context (fate : Z → Fate) (in_time : ∀ k, fate k = InTime).
Context (node : NodeId) (f : FileHandle) (caps : FilesystemCapabilities) (server : FileServer R node f caps).
Context (caps_writable : FilesystemCapabilities.writable caps = true)
  (caps_read : 0 < FilesystemCapabilities.max_read_size caps) (caps_write : 0 < FilesystemCapabilities.max_write_size caps).
Context (h i : Z).

Abbreviation AS := (Adapter R).
Abbreviation AM := (AM (R:=R)).
Abbreviation ask c := (MacFuse.ask (R:=R) fate c).

(** The operation on the adapter's handle. *)
Definition buffered (op : FileOp) (s : AS) : FileAnswer * AS :=
  let answer {A} (m : AM A) (g : A → FileAnswer) :=
    match m s with (Ok a, s') => (g a, s') | (Err e, s') => (Failed e, s') end in
  match op with
  | WriteAt offset data => answer (write_async fate h offset data) Wrote
  | ReadAt offset length => answer (read_async fate h offset length) Bytes
  | FlushOp owner => answer (flush_async fate h owner) (λ _, Done)
  | SyncOp data_only => answer (fsync_async fate h data_only) (λ _, Done)
  | SizeOp => answer (getattr_async fate i) (λ m, SizeIs (Metadata.size m))
  end.

(** * The state of the handle *)

(** The handle is open for reading and writing, and the file holds [c]. *)
Record opened_on (c : list Z) (s : AS) : Prop := {
  oo_content : content server (remote s) = c;
  oo_node : node_at s i = Some node;
  oo_handle : ∃ r, handles s !! h = Some r ∧ FileHandleRecord.remote r = f ∧ FileHandleRecord.inode r = i ∧
    FileHandleRecord.access r = FileAccess.ReadWrite;
  oo_operation : h ∈ handle_operations s;
  oo_capabilities : capabilities s = None ∨ capabilities s = Some caps
}.

(** What is remembered of the file's size is right. *)
Definition sized (c : list Z) (s : AS) : Prop :=
  ∀ e, discovered_metadata s !! node = Some e → Metadata.size (CachedMetadata.value e) = zlen c.

(** The call answers [a], leaves [c] in the file, and touches neither the
    buffered writes nor the known sizes. *)
Definition goes {A} (m : AM A) (s : AS) (a : A) (c : list Z) : Prop :=
  ∃ s', m s = (Ok a, s') ∧ opened_on c s' ∧ pending_writes s' = pending_writes s ∧
    discovered_metadata s' = discovered_metadata s.

Lemma ask_performs {A} (c : remote_call A) s :
  ask c s = (map_err AdapterError.Client (perform c (remote s)).1, with_asked (perform c (remote s)).2 s).
Proof. unfold MacFuse.ask. rewrite in_time. by destruct (perform c (remote s)). Qed.

(** A change of the remote layer that keeps the content. *)
Lemma asked_ok c s r : opened_on c s → content server r = c → opened_on c (with_asked r s).
Proof. intros [] Hr. by split. Qed.

Lemma goes_ask {A} (x : remote_call A) c s a r :
  opened_on c s → perform x (remote s) = (Ok a, r) → content server r = c → goes (ask x) s a c.
Proof.
  intros Hs Ex Hr. exists (with_asked r s). rewrite ask_performs, Ex. split_and!; [done|by apply asked_ok|done|done].
Qed.

Lemma goes_bind {A B} (m : AM A) (k : A → AM B) s a b c c' :
  goes m s a c → (∀ s', opened_on c s' → goes (k a) s' b c') → goes (mbind k m) s b c'.
Proof.
  intros (s1 & E1 & Hs1 & Hp1 & Hm1) Hk. destruct (Hk s1 Hs1) as (s2 & E2 & Hs2 & Hp2 & Hm2).
  exists s2. unfold mbind, sm_bind. rewrite E1. split_and!; [done|done|congruence|congruence].
Qed.

Lemma goes_ret {A} (a : A) s c : opened_on c s → goes (mret a) s a c.
Proof. by exists s. Qed.

Lemma goes_gets {A} (g : AS → A) s c : opened_on c s → goes (sm_gets g) s (g s) c.
Proof. by exists s. Qed.

Lemma capabilities_goes s c : opened_on c s → goes (capabilities_async fate) s caps c.
Proof.
  intros Hs. unfold capabilities_async. eapply goes_bind; [by apply goes_gets|]. intros s1 Hs1.
  destruct (oo_capabilities _ _ Hs) as [->| ->]; [|by apply goes_ret].
  destruct (fs_capabilities server (remote s1)) as (r & Er & Hr).
  eapply goes_bind; [eapply goes_ask; [done|exact Er|rewrite Hr; apply Hs1]|]. intros s2 Hs2.
  destruct ((_ =? 0) || _) eqn:Ez; [bool_simpl; lia|].
  eapply (goes_bind _ _ _ tt); [|intros; by apply goes_ret].
  exists (with_capabilities (Some caps) s2). split_and!; [done| |done|done]. destruct Hs2. split; simpl; auto.
Qed.

Lemma goes_ok {A} (r : A) e s c : opened_on c s → goes (sm_lift (ok_or (Some r) e)) s r c.
Proof. by exists s. Qed.

Lemma file_handle_goes s c : opened_on c s →
  ∃ r, goes (file_handle h) s r c ∧ FileHandleRecord.remote r = f ∧ FileHandleRecord.inode r = i ∧
    FileHandleRecord.access r = FileAccess.ReadWrite.
Proof.
  intros Hs. destruct (oo_handle _ _ Hs) as (r & Hr & ? & ? & ?). exists r. split_and!; [|done|done|done].
  unfold file_handle. eapply goes_bind; [by apply goes_gets|]. intros s' Hs'. rewrite Hr. by apply goes_ok.
Qed.

Lemma file_operation_goes s c : opened_on c s → goes (file_operation h) s tt c.
Proof.
  intros Hs. unfold file_operation. eapply goes_bind; [by apply goes_gets|]. intros s' Hs'.
  rewrite bool_decide_true by apply Hs. by exists s'.
Qed.

Lemma record_goes s c : opened_on c s → ∃ r, goes (inode_record i) s r c ∧ InodeRecord.node r = node.
Proof.
  intros Hs. pose proof (oo_node _ _ Hs) as Hn. unfold node_at in Hn.
  destruct (InodeTable.by_inode (inodes s) !! i) as [r|] eqn:Er; [|done]. injection Hn as Hn. exists r. split; [|done].
  unfold inode_record. eapply goes_bind; [by apply goes_gets|]. intros s' Hs'. rewrite Er. by apply goes_ok.
Qed.

Lemma update_goes revision size s c : opened_on c s → goes (update_file_handle h revision size) s tt c.
Proof.
  intros Hs. destruct (file_handle_goes s c Hs) as (r & Hg & Hf & Hi & Ha). unfold update_file_handle.
  eapply goes_bind; [exact Hg|]. intros s' Hs'. eexists. split_and!; [done| |done|done]. destruct Hs'. split; simpl; try done.
  rewrite lookup_insert_eq. by eexists.
Qed.

(** ** Writing through *)

Definition chunk_limit : Z := Z.min (FilesystemCapabilities.max_write_size caps) MAX_CLIENT_WRITE_SIZE.

Lemma chunk_positive : 0 < chunk_limit.
Proof. unfold chunk_limit, MAX_CLIENT_WRITE_SIZE. lia. Qed.

Lemma slice_drop {A} (l : list A) n m : 0 ≤ n → 0 ≤ m → slice l n m ++ drop (Z.to_nat (n + m)) l = drop (Z.to_nat n) l.
Proof.
  intros Hn Hm. unfold slice. rewrite Z2Nat.inj_add, <- drop_drop by lia. apply take_drop.
Qed.

Lemma write_chunks_goes fuel data written position revision size s c :
  (length data ≤ Z.to_nat written + fuel)%nat → 0 ≤ written ≤ zlen data → 0 ≤ position →
  position + (zlen data - written) ≤ u64_max → opened_on c s →
  ∃ x, goes (write_chunks fate fuel f chunk_limit data written position revision size) s x
    (write_bytes c position (drop (Z.to_nat written) data)).
Proof.
  revert written position revision size s c. induction fuel as [|fuel IH]; intros written position revision size s c Hf Hw Hp Hu Hs;
    cbn [write_chunks].
  { rewrite drop_ge by (unfold zlen in *; lia). eexists. by apply goes_ret. }
  destruct (zlen data <=? written) eqn:Ed; bool_simpl.
  { rewrite drop_ge by (unfold zlen in *; lia). eexists. by apply goes_ret. }
  pose proof chunk_positive as Hc. set (amount := Z.min (zlen data - written) chunk_limit).
  assert (zlen (slice data written amount) = amount) as Hl by (rewrite length_slice by lia; lia).
  destruct (fs_write server (remote s) position (slice data written amount)) as (w & r & Er & Hwr & Hr);
    [rewrite Hl; fold chunk_limit; lia|done|]. rewrite (oo_content _ _ Hs) in Hr.
  rewrite Hl in Hwr. set (c1 := write_bytes c position (slice data written amount)) in *.
  assert (opened_on c1 (with_asked r s)) as Hs1 by (destruct Hs; by split).
  destruct (IH (written + amount) (position + amount) (WriteResult.revision w) (WriteResult.size w) (with_asked r s) c1)
    as (x & s2 & E2 & Hs2 & Hp2 & Hm2); [lia|lia|lia|lia|done|].
  exists x, s2. split_and!; [|clear E2|done|done].
  - unfold mbind, sm_bind. rewrite ask_performs, Er. simpl. rewrite Hwr, Z.eqb_refl. simpl.
    unfold u64_checked_add. destruct (position + amount <=? u64_max) eqn:Eu; bool_simpl; [exact E2|lia].
  - replace (write_bytes c position (drop (Z.to_nat written) data)) with
      (write_bytes c1 (position + amount) (drop (Z.to_nat (written + amount)) data)); [done|].
    unfold c1. replace (position + amount) with (position + zlen (slice data written amount)) by (by rewrite Hl).
    rewrite write_bytes_app by done. f_equal. apply slice_drop; lia.
Qed.

(** The views of the file go; nothing is known of its size. *)
Lemma invalidate_sized c c' s : opened_on c s →
  ∃ s', invalidate_node_views node s = (Ok tt, s') ∧ opened_on c s' ∧ pending_writes s' = pending_writes s ∧ sized c' s'.
Proof.
  intros Hs. unfold invalidate_node_views. sm_unfold. eexists. split_and!; [done| |done|].
  - destruct Hs. by split.
  - intros e. simpl. by rewrite lookup_delete_eq.
Qed.

Lemma write_through_ok offset data s c :
  0 ≤ offset → offset + zlen data ≤ u64_max → data ≠ [] → opened_on c s →
  ∃ s', write_through fate h offset data s = (Ok tt, s') ∧ opened_on (write_bytes c offset data) s' ∧
    pending_writes s' = pending_writes s ∧ sized (write_bytes c offset data) s'.
Proof.
  intros Ho Hu Hd Hs. unfold write_through. pose proof chunk_positive as Hc.
  assert (0 < zlen data) as Hz by (destruct data; [done|rewrite zlen_cons; pose proof (zlen_nonneg data); lia]).
  destruct (zlen data =? 0) eqn:Ez; bool_simpl; [lia|].
  destruct (file_handle_goes s c Hs) as (r & (s1 & E1 & Hs1 & Hp1 & Hm1) & Hf & Hi & _).
  destruct (capabilities_goes s1 c Hs1) as (s2 & E2 & Hs2 & Hp2 & Hm2).
  destruct (write_chunks_goes (length data) data 0 offset (FileHandleRecord.revision r) (FileHandleRecord.size r) s2 c)
    as ([revision size] & s3 & E3 & Hs3 & Hp3 & Hm3); [lia|lia|done|lia|done|]. rewrite drop_0 in Hs3.
  destruct (update_goes revision size s3 _ Hs3) as (s4 & E4 & Hs4 & Hp4 & Hm4).
  destruct (record_goes s4 _ Hs4) as (rec & (s5 & E5 & Hs5 & Hp5 & Hm5) & Hnode).
  destruct (invalidate_sized _ (write_bytes c offset data) s5 Hs5) as (s6 & E6 & Hs6 & Hp6 & Hm6).
  exists s6. split_and!; [|done|congruence|done].
  unfold mbind, sm_bind. rewrite E1, E2. fold chunk_limit. destruct (chunk_limit =? 0) eqn:Ec; bool_simpl; [lia|].
  rewrite Hf, E3, E4, Hi, E5, Hnode. exact E6.
Qed.

(** ** The file as the handle shows it *)

(** The bytes that wait, over the file. *)
Definition overlaid (c : list Z) (p : option PendingWrite) : list Z :=
  match p with Some p => write_bytes c (PendingWrite.start p) (PendingWrite.buffer p) | None => c end.

Definition pending_ok (p : PendingWrite) : Prop :=
  PendingWrite.inode p = i ∧ 0 ≤ PendingWrite.start p ∧ PendingWrite.buffer p ≠ [] ∧
  PendingWrite.start p + zlen (PendingWrite.buffer p) ≤ u64_max.

(** The handle shows [v]; only it has buffered bytes of the file. *)
Record shows (v : list Z) (s : AS) : Prop := {
  sh_opened : opened_on (content server (remote s)) s;
  sh_sized : sized (content server (remote s)) s;
  sh_overlaid : overlaid (content server (remote s)) (pending_writes s !! h) = v;
  sh_pending : ∀ p, pending_writes s !! h = Some p → pending_ok p;
  sh_alone : ∀ j p, pending_writes s !! j = Some p → PendingWrite.inode p = i → j = h
}.

(** The call answers [a] and leads to [P]. *)
Definition does {A} (m : AM A) (s : AS) (a : A) (P : AS → Prop) : Prop := ∃ s', m s = (Ok a, s') ∧ P s'.

Lemma does_bind {A B} (m : AM A) (k : A → AM B) s a b (P Q : AS → Prop) :
  does m s a P → (∀ s', P s' → does (k a) s' b Q) → does (mbind k m) s b Q.
Proof. intros (s1 & E1 & H1) Hk. destruct (Hk s1 H1) as (s2 & E2 & H2). exists s2. unfold mbind, sm_bind. by rewrite E1. Qed.

Lemma does_ret {A} (a : A) s (P : AS → Prop) : P s → does (mret a) s a P.
Proof. by exists s. Qed.

Lemma does_lift {A} (r : result AdapterError A) a s (P : AS → Prop) : r = Ok a → P s → does (sm_lift r) s a P.
Proof. intros -> ?. by exists s. Qed.

(** Nothing waits. *)
Definition settled (v : list Z) (s : AS) : Prop := shows v s ∧ pending_writes s !! h = None.

Lemma goes_shows {A} (m : AM A) s a v :
  goes m s a (content server (remote s)) → shows v s → does m s a (λ s', shows v s' ∧ pending_writes s' = pending_writes s).
Proof.
  intros (s' & E & Hs' & Hp & Hm) [Ho Hz Hv Hpend Halone]. exists s'. split; [done|]. split; [|done].
  pose proof (oo_content _ _ Hs') as Ec. split; rewrite ?Ec, ?Hp; try done. intros e He. apply Hz. by rewrite <- Hm.
Qed.

Lemma goes_settled {A} (m : AM A) s a v :
  (opened_on (content server (remote s)) s → goes m s a (content server (remote s))) → settled v s → does m s a (settled v).
Proof.
  intros Hg [Hs Hn]. destruct (goes_shows m s a v (Hg (sh_opened _ _ Hs)) Hs) as (s' & E & Hs' & Hp). exists s'.
  split; [done|]. split; [done|]. by rewrite Hp.
Qed.

Lemma settled_content v s : settled v s → content server (remote s) = v.
Proof. intros [Hs Hn]. pose proof (sh_overlaid _ _ Hs) as Hv. by rewrite Hn in Hv. Qed.

Lemma with_pending_opened c s m : opened_on c s → opened_on c (with_pending_writes m s).
Proof. intros []. by split. Qed.

(** After a flush nothing waits. *)
Lemma flush_shows s v : shows v s → does (flush_pending fate h) s tt (settled v).
Proof.
  intros Hs. unfold flush_pending, does, settled. sm_unfold. set (s1 := with_pending_writes (delete h (pending_writes s)) s).
  assert (opened_on (content server (remote s)) s1) as Hs1 by apply with_pending_opened, Hs.
  assert (∀ j p, pending_writes s1 !! j = Some p → PendingWrite.inode p = i → False) as Hnone.
  { unfold s1. simpl. intros j p [Hne Hj]%lookup_delete_Some Hi. apply Hne. symmetry. by eapply Hs. }
  assert (pending_writes s1 !! h = None) as Hgone by apply lookup_delete_eq.
  pose proof (sh_overlaid _ _ Hs) as Hv. pose proof (sh_pending _ _ Hs) as Hp.
  destruct (pending_writes s !! h) as [p|] eqn:Ep; simpl in Hv.
  - destruct (Hp p eq_refl) as (Hi & Hst & Hb & Hu).
    destruct (write_through_ok (PendingWrite.start p) (PendingWrite.buffer p) s1 _ Hst Hu Hb Hs1) as (s2 & E2 & Hs2 & Hp2 & Hz2).
    exists s2. rewrite Hv in *. pose proof (oo_content _ _ Hs2) as Hc2. split_and!; [done| |by rewrite Hp2].
    split; rewrite ?Hc2, ?Hp2; try done; [by rewrite Hgone|by rewrite Hgone|]. intros j q Hj Hq. exfalso. by eapply Hnone.
  - exists s1. split_and!; [done| |done]. split; try done; [apply Hs|by rewrite Hgone|by rewrite Hgone|].
    intros j q Hj Hq. exfalso. by eapply Hnone.
Qed.

(** ** Reads *)

Definition read_limit : Z := Z.min (FilesystemCapabilities.max_read_size caps) MAX_CLIENT_READ_SIZE.

Lemma read_limit_positive : 0 < read_limit.
Proof. unfold read_limit, MAX_CLIENT_READ_SIZE. lia. Qed.

Lemma slice_short {A} (l : list A) s n m : 0 ≤ s → 0 ≤ n ≤ m → zlen (slice l s n) < n → slice l s n = slice l s m.
Proof.
  intros Hs Hn. rewrite length_slice by lia. intros Hl. unfold slice, zlen in *.
  rewrite !take_ge; [done|rewrite length_drop; lia|rewrite length_drop; lia].
Qed.

Lemma read_chunks_goes fuel offset length data remaining position expected s c :
  (Z.to_nat remaining < fuel)%nat → 0 ≤ remaining → 0 ≤ position → position + remaining ≤ u64_max →
  (expected = 0 ∨ expected = version server (remote s)) → opened_on c s →
  goes (read_chunks fate fuel f read_limit offset length data remaining position expected false) s
    (data ++ slice c position remaining) c.
Proof.
  revert data remaining position expected s. induction fuel as [|fuel IH]; intros data remaining position expected s Hf Hr Hp Hu He Hs;
    [lia|]. cbn [read_chunks]. pose proof read_limit_positive as Hc.
  destruct (remaining <=? 0) eqn:Er; bool_simpl.
  { replace remaining with 0 by lia. rewrite slice_nil, app_nil_r. by apply goes_ret. }
  set (requested := Z.min remaining read_limit).
  destruct (fs_read server (remote s) position requested) as (x & r & Ex & Hd & Hv & Hcr & Hvr);
    [fold read_limit; lia|done|]. rewrite (oo_content _ _ Hs) in *.
  assert (opened_on c (with_asked r s)) as Hs1 by (destruct Hs; by split).
  pose proof (length_slice c position requested Hp ltac:(lia)) as Hl. pose proof (zlen_nonneg c).
  unfold goes, mbind, sm_bind. rewrite ask_performs, Ex. cbn [map_err fst snd]. rewrite Hd, Hv.
  destruct (zlen (slice c position requested) >? requested) eqn:E1; bool_simpl; [lia|].
  destruct (negb (version server (remote s) =? 0) && negb (expected =? 0) && negb (version server (remote s) =? expected)) eqn:E2.
  { bool_simpl. destruct He; congruence. }
  destruct (zlen (slice c position requested) <? requested) eqn:E3; bool_simpl.
  { exists (with_asked r s). split_and!; [|done|done|done]. rewrite (slice_short _ _ _ remaining) by lia. done. }
  unfold u64_checked_add. destruct (position + zlen (slice c position requested) <=? u64_max) eqn:E4; bool_simpl; [|lia].
  simpl. replace (zlen (slice c position requested)) with requested in * by lia.
  destruct (IH (data ++ slice c position requested) (remaining - requested) (position + requested)
    (if version server (remote s) =? 0 then expected else version server (remote s)) (with_asked r s))
    as (s2 & E & Hs2 & Hp2 & Hm2); [lia|lia|lia|lia| |done|].
  { simpl. rewrite Hvr. destruct (_ =? 0); [done|by right]. }
  exists s2. split_and!; [|done|done|done]. rewrite E. by rewrite <- app_assoc, slice_app_slice, Zplus_minus by lia.
Qed.

Lemma valid_range offset length x : 0 ≤ length → validate_io_range offset length = Ok x → offset + length ≤ u64_max.
Proof.
  unfold validate_io_range, validate_range, u64_checked_add. intros Hl. destruct (_ >? _); [done|].
  destruct (_ <=? _) eqn:E; bool_simpl; [lia|done].
Qed.

(** Nothing waits any more when the handle is read. *)
Lemma settle_shows s v : shows v s → does (if has_pending h s then flush_pending fate h else mret tt) s tt (settled v).
Proof.
  intros Hs. unfold has_pending. destruct (pending_writes s !! h) as [p|] eqn:Ep.
  - rewrite bool_decide_true by done. by apply flush_shows.
  - rewrite bool_decide_false by (by intros []). by apply does_ret.
Qed.

Lemma operation_shows s v : shows v s → does (file_operation h) s tt (shows v).
Proof.
  intros Hs. destruct (goes_shows _ s tt v (file_operation_goes s _ (sh_opened _ _ Hs)) Hs) as (s' & E & Hs' & _). by exists s'.
Qed.

(** The handle's record, with nothing waiting. *)
Lemma handle_settled s v : settled v s →
  ∃ r, does (file_handle h) s r (settled v) ∧ FileHandleRecord.remote r = f ∧ FileHandleRecord.inode r = i ∧
    FileHandleRecord.access r = FileAccess.ReadWrite.
Proof.
  intros Hs. destruct (file_handle_goes s _ (sh_opened _ _ (proj1 Hs))) as (r & Hg & ?). exists r. split; [|done].
  by apply goes_settled.
Qed.

Lemma read_shows offset length s v : 0 ≤ offset → 0 ≤ length → shows v s → validate_io_range offset length = Ok tt →
  does (read_async fate h offset length) s (slice v offset length) (shows v).
Proof.
  intros Ho Hl Hs Hr. pose proof (valid_range _ _ _ Hl Hr) as Hu. pose proof read_limit_positive as Hc. unfold read_async.
  eapply does_bind; [by apply (does_lift _ _ _ (shows v))|]. intros s1 Hs1.
  eapply does_bind; [by apply operation_shows|]. intros s2 Hs2.
  eapply (does_bind _ _ _ (has_pending h s2) _ (λ s', s' = s2)); [by exists s2|]. intros s' ->.
  eapply does_bind; [by apply settle_shows|]. intros s3 Hs3.
  destruct (handle_settled s3 v Hs3) as (r & Hg & Hf & _ & Ha).
  eapply does_bind; [exact Hg|]. intros s4 Hs4. rewrite Ha. cbn [can_read negb].
  eapply does_bind; [by apply goes_settled; [apply capabilities_goes|]|]. intros s5 Hs5. fold read_limit.
  destruct (read_limit =? 0) eqn:Ez; bool_simpl; [lia|]. rewrite Hf.
  assert (goes (read_chunks fate (read_fuel length) f read_limit offset length [] length offset 0 false) s5 (slice v offset length)
    (content server (remote s5))) as Hg5.
  { rewrite (settled_content v s5 Hs5). apply (read_chunks_goes _ _ _ []); [unfold read_fuel; lia|done|done|done|by left|].
    rewrite <- (settled_content v s5 Hs5). apply Hs5. }
  destruct (goes_shows _ _ _ _ Hg5 (proj1 Hs5)) as (s6 & E6 & Hs6 & _). by exists s6.
Qed.

(** ** Writes *)

Lemma overlaid_append c p offset data :
  pending_ok p → PendingWrite.end_ p = offset →
  overlaid c (Some (PendingWrite.Mk (PendingWrite.inode p) (PendingWrite.start p) (PendingWrite.buffer p ++ data))) =
  write_bytes (overlaid c (Some p)) offset data.
Proof.
  intros (_ & Hst & _ & Hu) <-. simpl. unfold PendingWrite.end_, u64_saturating_add. rewrite Z.min_l by lia.
  by rewrite write_bytes_app.
Qed.

(** The bytes that continue the buffer join it. *)
Lemma append_shows offset data s v p :
  shows v s → pending_writes s !! h = Some p → PendingWrite.end_ p = offset → offset + zlen data ≤ u64_max →
  shows (write_bytes v offset data)
    (with_pending_writes (alter (λ p, PendingWrite.Mk (PendingWrite.inode p) (PendingWrite.start p) (PendingWrite.buffer p ++ data))
       h (pending_writes s)) s).
Proof.
  intros Hs Ep He Hu. pose proof (sh_pending _ _ Hs p Ep) as Hp. pose proof (sh_overlaid _ _ Hs) as Hv. rewrite Ep in Hv.
  split; simpl; [by apply with_pending_opened, Hs|apply Hs| | |].
  - rewrite lookup_alter_eq, Ep. cbn [fmap option_fmap option_map]. rewrite (overlaid_append _ _ offset) by done. by rewrite Hv.
  - intros q. rewrite lookup_alter_eq, Ep. intros [= <-]. destruct Hp as (Hi & Hst & Hb & Hpu). split_and!; simpl; [done|done| |].
    + by destruct (PendingWrite.buffer p).
    + rewrite zlen_app. unfold PendingWrite.end_, u64_saturating_add in He. lia.
  - intros j q [(-> & x & Hx & ->)|[_ Hj]]%lookup_alter_Some Hi; [done|]. by eapply Hs.
Qed.

(** A new buffer. *)
Lemma start_shows offset data s v :
  settled v s → 0 ≤ offset → data ≠ [] → offset + zlen data ≤ u64_max →
  shows (write_bytes v offset data) (with_pending_writes (<[h := PendingWrite.Mk i offset data]> (pending_writes s)) s).
Proof.
  intros Hset Ho Hd Hu. pose proof (settled_content v s Hset) as Hc. destruct Hset as [Hs Hn].
  split; simpl; [by apply with_pending_opened, Hs|apply Hs| | |].
  - by rewrite lookup_insert_eq, Hc.
  - intros p. rewrite lookup_insert_eq. by intros [= <-].
  - intros j p [[<- _]|[_ Hj]]%lookup_insert_Some Hi; [done|]. by eapply Hs.
Qed.

Lemma through_shows offset data s v :
  settled v s → 0 ≤ offset → data ≠ [] → offset + zlen data ≤ u64_max →
  does (write_through fate h offset data) s tt (settled (write_bytes v offset data)).
Proof.
  intros Hset Ho Hd Hu. pose proof (settled_content v s Hset) as Hc. destruct Hset as [Hs Hn].
  destruct (write_through_ok offset data s _ Ho Hu Hd (sh_opened _ _ Hs)) as (s' & E & Hs' & Hp & Hz).
  rewrite Hc in *. pose proof (oo_content _ _ Hs') as Hc'. exists s'. split; [done|]. split; [|by rewrite Hp].
  split; rewrite ?Hc', ?Hp; try done; [by rewrite Hn|by rewrite Hn|]. apply Hs.
Qed.

Lemma can_append_end limit offset length p : can_append limit offset length p = true → PendingWrite.end_ p = offset.
Proof. unfold can_append. intros E. bool_simpl. lia. Qed.

Lemma write_shows offset data s v :
  0 ≤ offset → data ≠ [] → shows v s → validate_io_range offset (zlen data) = Ok tt →
  does (write_async fate h offset data) s (zlen data) (shows (write_bytes v offset data)).
Proof.
  intros Ho Hd Hs Hr. pose proof (valid_range _ _ _ (zlen_nonneg data) Hr) as Hu. pose proof chunk_positive as Hc.
  unfold write_async. cbv zeta.
  eapply does_bind; [by apply (does_lift _ _ _ (shows v))|]. intros s1 Hs1.
  eapply does_bind; [by apply operation_shows|]. intros s2 Hs2.
  eapply (does_bind _ _ _ caps).
  { unfold require_writable. eapply does_bind; [by apply goes_shows; [apply capabilities_goes, Hs2|]|]. intros s3 Hs3.
    rewrite caps_writable. by apply does_ret. }
  intros s3 [Hs3 _]. destruct (file_handle_goes s3 _ (sh_opened _ _ Hs3)) as (r & Hg & _ & Hi & Ha).
  eapply does_bind; [by apply goes_shows; [exact Hg|]|]. intros s4 [Hs4 _]. rewrite Ha, Hi. cbn [can_write_access negb]. fold chunk_limit.
  destruct (chunk_limit =? 0) eqn:Ez; bool_simpl; [lia|].
  eapply (does_bind _ _ _ (pending_writes s4 !! h) _ (λ s', s' = s4)); [by exists s4|]. intros s' ->.
  destruct (match pending_writes s4 !! h with Some p => _ | None => false end) eqn:Ea.
  - destruct (pending_writes s4 !! h) as [p|] eqn:Ep; [|done]. apply can_append_end in Ea.
    eapply does_bind; [|intros s5 Hs5; by apply does_ret]. eexists. split; [done|]. by eapply append_shows.
  - assert (∀ {B} (k : unit → AM B),
      mbind (λ _, mbind k (match pending_writes s4 !! h with
         | Some p => write_through fate h (PendingWrite.start p) (PendingWrite.buffer p) | None => mret tt end))
        (sm_modify (λ s, with_pending_writes (delete h (pending_writes s)) s)) s4 =
      mbind k (flush_pending fate h) s4) as E.
    { intros B k. unfold flush_pending, mbind, sm_bind, sm_gets, sm_modify. done. }
    destruct (flush_shows s4 v Hs4) as (s5 & E5 & Hs5).
    unfold does. rewrite E. apply (does_bind _ _ _ tt _ (settled v)); [by exists s5|]. clear E E5 s5 Hs5. intros s5 Hs5.
    eapply does_bind; [|intros s6 Hs6; by apply does_ret]. destruct (zlen data <? chunk_limit).
    + eexists. split; [done|]. by apply start_shows.
    + destruct (through_shows offset data s5 v Hs5 Ho Hd Hu) as (s6 & E6 & Hs6 & _). by exists s6.
Qed.

(** ** Flushes and sizes *)

Lemma flush_op_shows owner s v : shows v s → does (flush_async fate h owner) s tt (settled v).
Proof.
  intros Hs. unfold flush_async. eapply does_bind; [by apply operation_shows|]. intros s1 Hs1.
  eapply does_bind; [by apply flush_shows|]. intros s2 Hs2. destruct (handle_settled s2 v Hs2) as (r & Hg & Hf & _ & Ha).
  eapply does_bind; [exact Hg|]. intros s3 Hs3. rewrite Ha, Hf. cbn [can_write_access negb andb].
  apply goes_settled; [|done]. intros Ho. destruct (fs_flush server (remote s3) owner) as (r' & Er & Hr). by eapply goes_ask.
Qed.

Lemma sync_op_shows data_only s v : shows v s → does (fsync_async fate h data_only) s tt (settled v).
Proof.
  intros Hs. unfold fsync_async. eapply does_bind; [by apply operation_shows|]. intros s1 Hs1.
  eapply does_bind; [by apply flush_shows|]. intros s2 Hs2. destruct (handle_settled s2 v Hs2) as (r & Hg & Hf & _ & Ha).
  eapply does_bind; [exact Hg|]. intros s3 Hs3. rewrite Hf.
  apply goes_settled; [|done]. intros Ho. destruct (fs_sync server (remote s3) data_only) as (r' & Er & Hr). by eapply goes_ask.
Qed.

(** The largest end of the buffered bytes of the inode. *)
Lemma pending_end_largest (m : gmap Z PendingWrite) :
  match map_fold (λ _ p best, if bool_decide (PendingWrite.inode p = i)
                              then Some (Z.max (PendingWrite.end_ p) (default (PendingWrite.end_ p) best)) else best) None m with
  | Some e => (∃ j p, m !! j = Some p ∧ PendingWrite.inode p = i ∧ PendingWrite.end_ p = e) ∧
              ∀ j p, m !! j = Some p → PendingWrite.inode p = i → PendingWrite.end_ p ≤ e
  | None => ∀ j p, m !! j = Some p → PendingWrite.inode p ≠ i
  end.
Proof.
  apply (map_fold_weak_ind (λ (best : option Z) (m : gmap Z PendingWrite), match best with
    | Some e => (∃ j p, m !! j = Some p ∧ PendingWrite.inode p = i ∧ PendingWrite.end_ p = e) ∧
                ∀ j p, m !! j = Some p → PendingWrite.inode p = i → PendingWrite.end_ p ≤ e
    | None => ∀ j p, m !! j = Some p → PendingWrite.inode p ≠ i end)).
  { by intros j p ?%lookup_empty_Some. }
  intros k p m' best Hk IH. case_bool_decide as Hi.
  - split.
    + destruct best as [e|]; simpl.
      * destruct IH as [(j & q & Hj & Hq & He) _]. destruct (Z.max_spec (PendingWrite.end_ p) e) as [[_ ->]|[_ ->]].
        { exists j, q. rewrite lookup_insert_ne by congruence. done. }
        { exists k, p. by rewrite lookup_insert_eq. }
      * exists k, p. rewrite lookup_insert_eq. split_and!; [done|done|lia].
    + intros j q [[<- <-]|[_ Hj]]%lookup_insert_Some Hq; [lia|]. destruct best as [e|]; simpl.
      * destruct IH as [_ IH]. specialize (IH j q Hj Hq). lia.
      * by destruct (IH j q Hj).
  - destruct best as [e|].
    + destruct IH as [(j & q & Hj & Hq & He) IH]. split.
      * exists j, q. rewrite lookup_insert_ne by congruence. done.
      * intros x y [[<- <-]|[_ Hx]]%lookup_insert_Some Hy; [done|]. by eapply IH.
    + intros x y [[<- <-]|[_ Hx]]%lookup_insert_Some; [done|]. by eapply IH.
Qed.

Lemma pending_end_shows s v : shows v s →
  Z.max (zlen (content server (remote s))) (default 0 (pending_end_for_inode i s)) = zlen v ∧
  ∀ e, pending_end_for_inode i s = Some e → 0 ≤ e.
Proof.
  intros Hs. unfold pending_end_for_inode. pose proof (pending_end_largest (pending_writes s)) as Hl.
  pose proof (sh_overlaid _ _ Hs) as Hv. pose proof (zlen_nonneg (content server (remote s))).
  destruct (map_fold _ _ _) as [e|].
  - destruct Hl as [(j & p & Hj & Hi & He) _]. pose proof (sh_alone _ _ Hs j p Hj Hi) as ->. rewrite Hj in Hv.
    destruct (sh_pending _ _ Hs p Hj) as (_ & Hst & Hb & Hu). unfold PendingWrite.end_, u64_saturating_add in He.
    rewrite Z.min_l in He by lia. pose proof (zlen_nonneg (PendingWrite.buffer p)). split; [|intros ? [= <-]; lia].
    rewrite <- Hv. simpl. rewrite write_bytes_overwrite by done. unfold zlen at 2. rewrite length_overwrite. unfold zlen in *. lia.
  - split; [|done]. destruct (pending_writes s !! h) as [p|] eqn:Ep.
    + by destruct (Hl h p Ep); apply Hs.
    + simpl in *. subst. lia.
Qed.

(** The metadata of the file, asked for. *)
Lemma ask_metadata_shows s v : shows v s →
  ∃ m, does (m ← ask (GetMetadata node); _ ← sm_lift (validate_metadata node m); _ ← remember_metadata m; mret m) s m
         (λ s', shows v s' ∧ content server (remote s') = content server (remote s)) ∧
    Metadata.size m = zlen (content server (remote s)).
Proof.
  intros Hs. destruct (fs_metadata server (remote s)) as (m & r & Er & Hn & Hz & Hr). exists m. split; [|done].
  set (Q := λ s', shows v s' ∧ content server (remote s') = content server (remote s)).
  eapply (does_bind _ _ _ m _ Q).
  { destruct (goes_ask (GetMetadata node) _ s m r (sh_opened _ _ Hs) Er Hr) as (s1 & E1 & Hs1 & Hp1 & Hm1).
    destruct (goes_shows (ask (GetMetadata node)) s m v) as (s1' & E1' & Hs1' & _); [by exists s1|done|].
    assert (s1' = s1) as -> by congruence. exists s1. split; [done|]. split; [done|]. apply Hs1. }
  intros s1 [Hs1 Hc1]. eapply does_bind; [by apply (does_lift _ tt _ Q); [unfold validate_metadata; by rewrite bool_decide_true|]|].
  intros s2 [Hs2 Hc2]. eapply (does_bind _ _ _ tt _ Q); [|intros s3 Hs3; by apply does_ret].
  eexists. split; [done|]. destruct Hs2 as [[] Hzs Hv Hp Ha]. split; [|done]. split; simpl; try done.
  intros e. simpl. rewrite Hn, lookup_insert_eq. intros [= <-]. simpl. by rewrite Hc2.
Qed.

(** What is remembered of a file is of its present size. *)
Lemma metadata_shows s v : shows v s →
  ∃ m, does (cached ← cached_metadata node;
        match cached with
        | Some m => mret m
        | None => m ← ask (GetMetadata node); _ ← sm_lift (validate_metadata node m); _ ← remember_metadata m; mret m
        end) s m (λ s', shows v s' ∧ content server (remote s') = content server (remote s)) ∧
    Metadata.size m = zlen (content server (remote s)).
Proof.
  intros Hs. pose proof (sh_sized _ _ Hs) as Hz. unfold sized in Hz.
  destruct (discovered_metadata s !! node) as [e|] eqn:Ee.
  - destruct (now s - CachedMetadata.discovered_at e <=? DISCOVERED_METADATA_TTL) eqn:Et.
    + exists (CachedMetadata.value e). split; [|by apply Hz].
      exists s. split; [|done]. unfold cached_metadata, mbind, sm_bind. by rewrite Ee, Et.
    + set (s1 := with_discovered_metadata (delete node (discovered_metadata s)) s).
      assert (shows v s1) as Hs1.
      { destruct Hs as [[] Hzs Hv Hp Ha]. split; simpl; try done. intros x. simpl. by rewrite lookup_delete_eq. }
      destruct (ask_metadata_shows s1 v Hs1) as (m & (s2 & E2 & Hs2) & Hm). exists m. split; [|done]. exists s2. split; [|done].
      unfold cached_metadata at 1. unfold mbind at 1, sm_bind at 1. rewrite Ee, Et. exact E2.
  - destruct (ask_metadata_shows s v Hs) as (m & (s2 & E2 & Hs2) & Hm). exists m. split; [|done]. exists s2. split; [|done].
    unfold cached_metadata at 1. unfold mbind at 1, sm_bind at 1. rewrite Ee. exact E2.
Qed.

Lemma does_assoc {A B C} (m : AM A) (g : A → AM B) (k : B → AM C) s c P :
  does (mbind k (mbind g m)) s c P → does (mbind (λ a, mbind k (g a)) m) s c P.
Proof. intros (s' & E & HP). exists s'. split; [|done]. revert E. unfold mbind, sm_bind. by destruct (m s) as [[a|e] s1]. Qed.

Lemma size_op_shows s v : shows v s → ∃ m, does (getattr_async fate i) s m (shows v) ∧ Metadata.size m = zlen v.
Proof.
  intros Hs. destruct (record_goes s _ (sh_opened _ _ Hs)) as (r & Hg & Hr).
  destruct (goes_shows _ s r v Hg Hs) as (s1 & E1 & Hs1 & _).
  destruct (metadata_shows s1 v Hs1) as (m & Hd & Hm). pose proof Hd as (s2 & E2 & Hs2 & Hc2).
  destruct (pending_end_shows s2 v Hs2) as [He Hnonneg]. rewrite Hc2, <- Hm in He.
  set (m' := match pending_end_for_inode i s2 with
             | Some e => if e >? Metadata.size m then with_size e m else m | None => m end).
  exists m'. split.
  - eapply (does_bind _ _ _ r _ (λ s', s' = s1)); [by exists s1|]. intros s' ->. rewrite Hr. apply does_assoc.
    eapply (does_bind _ _ _ m _ (λ s', s' = s2)); [by exists s2|]. intros s' ->.
    eapply (does_bind _ _ _ (pending_end_for_inode i s2) _ (λ s', s' = s2)); [by exists s2|]. intros s' ->.
    unfold m'. by destruct (pending_end_for_inode i s2); apply does_ret.
  - unfold m'. pose proof (zlen_nonneg (content server (remote s1))). destruct (pending_end_for_inode i s2) as [e|]; simpl in He.
    + destruct (e >? Metadata.size m) eqn:Ee; bool_simpl; [destruct m; simpl in *; lia|lia].
    + lia.
Qed.

(** * Refinement *)

Lemma direct_failed op c e : op_ok op →
  match op with WriteAt offset data => validate_io_range offset (zlen data) = Err e
              | ReadAt offset length => validate_io_range offset length = Err e | _ => False end →
  direct op c = (Failed e, c).
Proof. by destruct op; simpl; intros _ E; rewrite ?E. Qed.

(** One operation: the same answer, and the handle still shows the file. *)
Lemma buffered_step op s v : op_ok op → shows v s →
  (buffered op s).1 = (direct op v).1 ∧ shows (direct op v).2 (buffered op s).2.
Proof.
  intros Hop Hs. destruct op as [offset data|offset length|owner|data_only|]; simpl in Hop; unfold buffered.
  - destruct Hop as [Ho Hd]. unfold direct. destruct (validate_io_range offset (zlen data)) as [[]|e] eqn:Er.
    + destruct (write_shows offset data s v Ho Hd Hs Er) as (s' & -> & Hs'). done.
    + unfold write_async. unfold mbind at 1, sm_bind at 1, sm_lift at 1. by rewrite Er.
  - destruct Hop as [Ho Hl]. unfold direct. destruct (validate_io_range offset length) as [[]|e] eqn:Er.
    + destruct (read_shows offset length s v Ho Hl Hs Er) as (s' & -> & Hs'). done.
    + unfold read_async. unfold mbind at 1, sm_bind at 1, sm_lift at 1. by rewrite Er.
  - by destruct (flush_op_shows owner s v Hs) as (s' & -> & [Hs' _]).
  - by destruct (sync_op_shows data_only s v Hs) as (s' & -> & [Hs' _]).
  - destruct (size_op_shows s v Hs) as (m & (s' & -> & Hs') & Hm). simpl. by rewrite Hm.
Qed.

(** C18: A handle with coalesced writes refines the file: whatever is written,
    read, flushed and asked for, the answers are those of a file to which every
    operation is applied at once, what the handle then shows is that file, and
    after a flush it is what the server has. *)
Theorem buffered_handle_refines_file ops s v :
  Forall op_ok ops → shows v s →
  (run_ops buffered ops s).1 = (run_ops direct ops v).1 ∧
  shows (run_ops direct ops v).2 (run_ops buffered ops s).2 ∧
  ∀ owner, content server (remote (run_ops buffered (ops ++ [FlushOp owner]) s).2) = (run_ops direct ops v).2.
Proof.
  intros Hops. revert s v. induction Hops as [|op ops Hop _ IH]; intros s v Hs; cbn [run_ops app].
  - split_and!; [done|done|]. intros owner. destruct (flush_op_shows owner s v Hs) as (s' & E & Hs').
    unfold buffered. rewrite E. by apply settled_content.
  - destruct (buffered_step op s v Hop Hs) as [Ha Hs1]. destruct (buffered op s) as [a s1], (direct op v) as [a' v1]. simpl in *. subst a'.
    destruct (IH s1 v1 Hs1) as (Hl & Hs2 & Hf).
    destruct (run_ops buffered ops s1) as [l s2], (run_ops direct ops v1) as [l' v2]. simpl in *. subst l'.
    split_and!; [done|done|]. intros owner. specialize (Hf owner). by destruct (run_ops buffered (ops ++ [FlushOp owner]) s1).
Qed.
End buffer.
