(* ===== verification/MacFusePages.v ===== *)
(** Reading a directory in pages: whatever the size of the kernel's buffer, the
    pages of one open directory are its entries, each once and in order. *)

From S2P Require Import Prelude Protocol Common StateFiles ViewStream Prefetch Remote MacFuse MacFuseOps MacFuseNative.

Section pages.
Context {R : Type} `{RF : RemoteFilesystem R}.
Context (row_header : Z).

Abbreviation AS := (Adapter R).
Abbreviation AM := (AM (R:=R)).

(** What a row says of an entry: where to go on, its kind and its name. *)
Definition row_key (r : DirectoryRow) : Z * FileType * Name :=
  (DirectoryRow.offset r, DirectoryRow.kind r, DirectoryRow.name r).

Fixpoint numbered (index : Z) (l : list (FileType * Name)) : list (Z * FileType * Name) :=
  match l with
  | [] => []
  | (kind, name) :: l' => (index + 1, kind, name) :: numbered (index + 1) l'
  end.

Definition entry_rows (l : list DirectoryEntry) : list (FileType * Name) :=
  map (λ e, (file_type (DirectoryEntry.kind e), DirectoryEntry.name e)) l.

(** The rows of a directory. *)
Definition listing_rows (listing : DirectoryListing) : list (FileType * Name) :=
  (FileType.Directory, lit ".") :: (FileType.Directory, lit "..") :: entry_rows (DirectoryListing.entries listing).

(** The rows that fit into what is left of a buffer. *)
Fixpoint fitting (max_size used : Z) (l : list (Z * FileType * Name)) : list (Z * FileType * Name) :=
  match l with
  | [] => []
  | k :: l' =>
      let size := used + row_size row_header k.2 in
      if size >? max_size then [] else k :: fitting max_size size l'
  end.

(** Pages until an empty one, each from where the last one ended. *)
Fixpoint read_pages (fuel : nat) (max_size inode offset : Z) (listing : DirectoryListing) : AM (list (Z * FileType * Name)) :=
  match fuel with
  | O => mret []
  | S fuel' =>
      b ← fill_directory row_header max_size inode offset listing;
      match last (rows b) with
      | None => mret []
      | Some row =>
          rest ← read_pages fuel' max_size inode (DirectoryRow.offset row) listing;
          mret (map row_key (rows b) ++ rest)
      end
  end.

(** * One page *)

(** The buffer holds these rows more. *)
Definition fills (max_size : Z) (l : list (Z * FileType * Name)) (b b' : RowBuffer DirectoryRow) : Prop :=
  map row_key (rows b') = map row_key (rows b) ++ fitting max_size (used b) l.

Lemma fills_nothing max_size b : fills max_size [] b b.
Proof. unfold fills. simpl. by rewrite app_nil_r. Qed.

Lemma drop_numbered n i l : drop n (numbered i l) = numbered (i + Z.of_nat n) (drop n l).
Proof.
  revert i l. induction n as [|n IH]; intros i l; [by rewrite Z.add_0_r, !drop_0|].
  destruct l as [|[k m] l]; [done|]. cbn [numbered drop]. rewrite IH. f_equal. lia.
Qed.

(** A row and then more rows. *)
Lemma add_row_fills max_size offset index ino kind name l b :
  0 ≤ index < u64_max → 0 ≤ offset →
  ∃ full b1, add_directory_row row_header max_size offset index ino kind name b = (full, b1) ∧
    (full = true → ∀ b', b' = b1 → fills max_size (drop (Z.to_nat (offset - index)) (numbered index ((kind, name) :: l))) b b') ∧
    (full = false → ∀ b', fills max_size (drop (Z.to_nat (offset - (index + 1))) (numbered (index + 1) l)) b1 b' →
       fills max_size (drop (Z.to_nat (offset - index)) (numbered index ((kind, name) :: l))) b b').
Proof.
  intros Hi Ho. unfold add_directory_row, push_row. destruct (offset <=? index) eqn:E; bool_simpl.
  - replace (Z.to_nat (offset - index)) with 0%nat by lia. replace (Z.to_nat (offset - (index + 1))) with 0%nat by lia.
    rewrite !drop_0. unfold fills. cbn [numbered fitting]. simpl.
    destruct (used b + row_size row_header name >? max_size) eqn:Ef; do 2 eexists; (split; [done|]); split; try done.
    + intros _ b' ->. by rewrite app_nil_r.
    + intros _ b' ->. simpl. rewrite map_app, <- app_assoc. unfold u64_saturating_add. by rewrite Z.min_l by lia.
  - do 2 eexists. split; [done|]. split; [done|]. intros _ b'.
    replace (Z.to_nat (offset - index)) with (S (Z.to_nat (offset - (index + 1)))) by lia. done.
Qed.

Lemma entry_inode_answers inode e (s : AS) : ∃ i s', entry_inode inode e s = (Ok i, s').
Proof.
  unfold entry_inode, mbind, sm_bind, sm_try.
  destruct (remember_entry (Metadata.node (DirectoryEntry.metadata e)) inode (DirectoryEntry.name e) s) as [r s']. by do 2 eexists.
Qed.

Lemma fill_entries_fills max_size inode offset index l b (s : AS) :
  0 ≤ offset → 0 ≤ index → index + zlen l ≤ u64_max →
  ∃ b' s', fill_entries row_header max_size inode offset index l b s = (Ok b', s') ∧
    fills max_size (drop (Z.to_nat (offset - index)) (numbered index (entry_rows l))) b b'.
Proof.
  intros Ho. revert index b s. induction l as [|e l IH]; intros index b s Hi Hl; cbn [fill_entries entry_rows map].
  { exists b, s. split; [done|]. cbn [numbered]. rewrite drop_nil. apply fills_nothing. }
  rewrite zlen_cons in Hl. pose proof (zlen_nonneg l).
  destruct (entry_inode_answers inode e s) as (i & s1 & E). unfold mbind, sm_bind. rewrite E.
  destruct (add_row_fills max_size offset index i (file_type (DirectoryEntry.kind e)) (DirectoryEntry.name e) (entry_rows l) b)
    as (full & b1 & -> & Hfull & Hmore); [lia|done|]. destruct full.
  - exists b1, s1. split; [done|]. by apply Hfull.
  - unfold u64_saturating_add. rewrite Z.min_l by lia. destruct (IH (index + 1) b1 s1) as (b' & s' & -> & Hb); [lia|lia|].
    exists b', s'. split; [done|]. by apply Hmore.
Qed.

(** A page is the rows from the offset on, as many as fit. *)
Lemma page_fills max_size inode offset listing (s : AS) :
  0 ≤ offset → zlen (DirectoryListing.entries listing) + 2 ≤ u64_max →
  ∃ b s', fill_directory row_header max_size inode offset listing s = (Ok b, s') ∧
    map row_key (rows b) = fitting max_size 0 (drop (Z.to_nat offset) (numbered 0 (listing_rows listing))).
Proof.
  intros Ho Hl. pose proof (zlen_nonneg (DirectoryListing.entries listing)). unfold fill_directory.
  destruct (add_row_fills max_size offset 0 inode FileType.Directory (lit ".")
    ((FileType.Directory, lit "..") :: entry_rows (DirectoryListing.entries listing)) empty_rows) as (full & b1 & -> & Hfull & Hmore); [lia|done|].
  replace (Z.to_nat offset) with (Z.to_nat (offset - 0)) by lia. destruct full.
  { exists b1, s. split; [done|]. by apply Hfull. }
  destruct (add_row_fills max_size offset 1 (DirectoryListing.parent_inode listing) FileType.Directory (lit "..")
    (entry_rows (DirectoryListing.entries listing)) b1) as (full & b2 & -> & Hfull' & Hmore'); [lia|done|]. destruct full.
  { exists b2, s. split; [done|]. apply Hmore; [done|]. by apply Hfull'. }
  destruct (fill_entries_fills max_size inode offset 2 (DirectoryListing.entries listing) b2 s) as (b & s' & E & Hb); [done|lia|lia|].
  exists b, s'. split; [done|]. apply Hmore; [done|]. by apply Hmore'.
Qed.

(** * All pages *)

Lemma fitting_prefix max_size l : ∀ used, ∃ rest, l = fitting max_size used l ++ rest.
Proof.
  induction l as [|k l IH]; intros used; cbn [fitting]; [by exists []|]. destruct (_ >? _); [by eexists|].
  destruct (IH (used + row_size row_header k.2)) as [rest E]. exists rest. simpl. by f_equal.
Qed.

Lemma numbered_length i l : length (numbered i l) = length l.
Proof. revert i. induction l as [|[k n] l IH]; intros i; simpl; auto. Qed.

(** The last of the first rows says where the others begin. *)
Lemma last_offset i l k rest x : numbered i l = k ++ rest → last k = Some x → x.1.1 = i + zlen k.
Proof.
  intros E Hx. revert i l E. induction k as [|y k IH]; intros i l E; [done|]. destruct l as [|[a b] l]; [done|].
  injection E as <- E. rewrite zlen_cons. destruct k as [|z k].
  - injection Hx as <-. rewrite zlen_nil. simpl. lia.
  - rewrite (IH Hx (i + 1) l E). lia.
Qed.

Lemma last_map_key l : last (map row_key l) = row_key <$> last l.
Proof. induction l as [|x [|y l] IH]; [done|done|exact IH]. Qed.

(** C30: The pages of a directory are all of its rows, once each and in order, for
    every buffer with room for any one of them. *)
Theorem pages_complete max_size inode listing s :
  zlen (DirectoryListing.entries listing) + 2 ≤ u64_max →
  Forall (λ r, row_size row_header r.2 ≤ max_size) (listing_rows listing) →
  (read_pages (length (listing_rows listing) + 1) max_size inode 0 listing s).1 = Ok (numbered 0 (listing_rows listing)).
Proof.
  intros Hn Hfit. set (all := numbered 0 (listing_rows listing)).
  assert (∀ n offset s, 0 ≤ offset → (length all < n + Z.to_nat offset)%nat →
    (read_pages n max_size inode offset listing s).1 = Ok (drop (Z.to_nat offset) all)) as H; cycle 1.
  { rewrite (H _ 0 s); [by rewrite drop_0|done|]. unfold all. rewrite numbered_length. lia. }
  clear s. induction n as [|n IH]; intros offset s Ho Hlen; cbn [read_pages].
  { rewrite drop_ge by lia. done. }
  destruct (page_fills max_size inode offset listing s Ho Hn) as (b & s1 & E & Hb). fold all in Hb. unfold mbind, sm_bind. rewrite E.
  destruct (fitting_prefix max_size (drop (Z.to_nat offset) all) 0) as [rest Hrest]. rewrite <- Hb in Hrest.
  pose proof (last_map_key (rows b)) as Hlast. destruct (last (rows b)) as [row|] eqn:El.
  - unfold all in Hrest at 1. rewrite drop_numbered in Hrest. pose proof (last_offset _ _ _ _ _ Hrest Hlast) as Hoff.
    simpl in Hoff. rewrite <- drop_numbered in Hrest. fold all in Hrest.
    assert (1 ≤ zlen (map row_key (rows b))) by (destruct (rows b); [done|]; unfold zlen; simpl; lia).
    specialize (IH (DirectoryRow.offset row) s1 ltac:(lia) ltac:(lia)).
    destruct (read_pages n max_size inode (DirectoryRow.offset row) listing s1) as [[l|e] s2]; simpl in IH; [|done].
    injection IH as ->. cbn [fst]. f_equal. rewrite Hrest, Hoff. f_equal.
    replace (Z.to_nat (0 + Z.of_nat (Z.to_nat offset) + zlen (map row_key (rows b)))) with (Z.to_nat offset + length (map row_key (rows b)))%nat
      by (unfold zlen; lia).
    by rewrite <- drop_drop, Hrest, drop_app_length.
  - simpl. f_equal. destruct (drop (Z.to_nat offset) all) as [|k l] eqn:Ed; [done|]. exfalso.
    assert (rows b = []) as Hempty by (destruct (rows b) as [|x l'] using rev_ind; [done|by rewrite last_snoc in El]).
    rewrite Hempty in Hb. cbn [map fitting] in Hb. destruct (0 + row_size row_header k.2 >? max_size) eqn:Ef; [|done]. bool_simpl.
    assert (k ∈ all) as Hk by (apply (list_elem_of_In); rewrite <- (take_drop (Z.to_nat offset) all), Ed; apply in_or_app; right; by left).
    assert (Forall (λ x, row_size row_header x.2 ≤ max_size) all) as Hall.
    { unfold all. clear -Hfit. generalize 0. induction Hfit as [|[a c] l Hx _ IH]; intros i; simpl; constructor; auto. }
    rewrite Forall_forall in Hall. specialize (Hall k Hk). lia.
Qed.
End pages.
