(* ===== verification/MacFuseExample.v ===== *)
(** Concrete runs of the macFUSE adapter over a small server. *)

From S2P Require Import Prelude Protocol Common StateFiles ViewStream Prefetch Remote MacFuse MacFuseOps MacFuseFacts FileIO MacFuseBuffer MacFuseNative MacFuseKernel MacFusePages.

(** * A server with one file *)

Module DiskServer.
Record Disk := MkDisk { data : list Z; edits : Z }.

Definition caps : FilesystemCapabilities :=
  FilesystemCapabilities.Mk 1 true true true true true true true true true true true true true true true true true true
    true true (lit "disk") 4 4.
Definition notes : NodeId := MkNodeId 1.
Definition handle : FileHandle := MkFileHandle 7.
Definition file (d : Disk) : Metadata :=
  Metadata.Mk notes NodeKind.File (zlen (data d)) 420 1 (1 + edits d) 10 20 None None 1 0 0.
Definition root : Metadata := Metadata.Mk ROOT_NODE NodeKind.Directory 0 493 1 1 10 20 None None 2 0 0.
Definition entry (d : Disk) : RemoteDirectoryEntry := Protocol.DirectoryEntry.Mk notes (lit "notes") NodeKind.File (file d).
Definition not_found : ClientError := ClientError.Server ErrorCode.NotFound [].

Definition answer {A} (c : remote_call A) (d : Disk) : result ClientError A * Disk :=
  match c in remote_call A return result ClientError A * Disk with
  | Capabilities => (Ok caps, d)
  | GetMetadata n =>
      (if bool_decide (n = ROOT_NODE) then Ok root else if bool_decide (n = notes) then Ok (file d) else Err not_found, d)
  | ListDirectoryView n _ =>
      (if bool_decide (n = ROOT_NODE)
       then Ok (DirectoryView.Mk 1 root root None [DirectoryViewEntry.Mk (entry d) None])
       else Err not_found, d)
  | OpenFileWithOptions n _ =>
      (if bool_decide (n = notes) then Ok (OpenedFile.Mk handle (1 + edits d) (zlen (data d))) else Err not_found, d)
  | WriteRange _ offset b =>
      let d' := MkDisk (write_bytes (data d) offset b) (edits d + 1) in
      (Ok (WriteResult.Mk (zlen b) (1 + edits d') (zlen (data d'))), d')
  | ReadRangeVersioned _ offset length => (Ok (RangeRead.Mk (1 + edits d) (slice (data d) offset length)), d)
  | SetAttributes _ _ changes =>
      let d' := match AttributeChanges.size changes with
                | Some size => MkDisk (resize (Z.to_nat size) 0 (data d)) (edits d + 1)
                | None => d
                end in
      (Ok (file d'), d')
  | FlushFile _ _ => (Ok tt, d)
  | SyncFile _ _ => (Ok tt, d)
  | CloseFile _ => (Ok tt, d)
  | _ => (Err not_found, d)
  end.

#[global] Instance disk_server : RemoteFilesystem Disk := {| perform A c d := answer c d |}.

(** A request of the server, computed. *)
Ltac disk_answers := intros; eexists; (split; [reflexivity|]); done.

#[refine] Definition disk_file : FileServer Disk notes handle caps :=
  MkFileServer Disk _ notes handle caps data (λ d, 1 + edits d) _ _ _ _ _ _.
Proof.
  - disk_answers.
  - intros. do 2 eexists. split; [reflexivity|]. done.
  - intros. do 2 eexists. split; [reflexivity|]. done.
  - intros. do 2 eexists. split; [reflexivity|]. done.
  - disk_answers.
  - disk_answers.
Defined.
End DiskServer.

Section buffer_witness.
Definition in_time (_ : Z) : Fate := InTime.
Definition same_case (name : Name) : Name := name.

(** The file is looked up and opened, as handle 1 of inode 2. *)
Definition opened_disk : Adapter DiskServer.Disk :=
  (open_async in_time 2 (FileOpenOptions.Mk FileAccess.ReadWrite false false)
    (lookup_async in_time same_case ROOT_INODE (lit "notes") (adapter_new (DiskServer.MkDisk [1; 2; 3] 0))).2).2.

Lemma opened_disk_shows : shows DiskServer.notes DiskServer.handle DiskServer.caps DiskServer.disk_file 1 2 [1; 2; 3] opened_disk.
Proof.
  assert (pending_writes opened_disk = ∅) as Hnone by by vm_compute.
  split; rewrite ?Hnone.
  - split; [by vm_compute|by vm_compute| |by vm_compute|by right; vm_compute].
    eexists. split; [by vm_compute|]. done.
  - intros e. assert (discovered_metadata opened_disk !! DiskServer.notes =
      Some (CachedMetadata.Mk (DiskServer.file (DiskServer.MkDisk [1; 2; 3] 0)) 0)) as -> by by vm_compute.
    by intros [= <-].
  - by vm_compute.
  - by intros p ?%lookup_empty_Some.
  - by intros j p ?%lookup_empty_Some.
Qed.

Definition file_ops : list FileOp :=
  [WriteAt 3 [4; 5]; WriteAt 5 [6]; SizeOp; WriteAt 0 [9; 9; 9; 9; 9]; ReadAt 2 10; WriteAt 8 [7]; SizeOp; ReadAt u64_max 2].

(** The buffered writes are seen by the reads and the sizes. *)
Lemma buffered_handle_refines_file_witness :
  let s := (run_ops (buffered in_time 1 2) file_ops opened_disk).2 in
  (run_ops (buffered in_time 1 2) file_ops opened_disk).1 =
    [Wrote 2; Wrote 1; SizeIs 6; Wrote 5; Bytes [9; 9; 9; 6]; Wrote 1; SizeIs 9; Failed AdapterError.InvalidRange] ∧
  DiskServer.data (remote s) = [9; 9; 9; 9; 9; 6] ∧
  ∀ owner, DiskServer.data (remote (run_ops (buffered in_time 1 2) (file_ops ++ [FlushOp owner]) opened_disk).2) =
    [9; 9; 9; 9; 9; 6; 0; 0; 7].
Proof.
  pose proof (buffered_handle_refines_file in_time (λ _, eq_refl) DiskServer.notes DiskServer.handle DiskServer.caps
    DiskServer.disk_file eq_refl eq_refl eq_refl 1 2 file_ops opened_disk [1; 2; 3]) as H.
  destruct H as (Ha & _ & Hf); [repeat constructor; done|apply opened_disk_shows|].
  split; [exact Ha|split; [by vm_compute|]]. intros owner. exact (Hf owner).
Defined.
End buffer_witness.

(** * Requests of the kernel *)

Section kernel_witness.
(** The constants of macOS. *)
Definition darwin : Libc := {|
  O_ACCMODE := 3; O_RDONLY := 0; O_WRONLY := 1; O_RDWR := 2; O_TRUNC := 0x400; O_APPEND := 8; O_SYNC := 0x80; O_DSYNC := 0x400000;
  S_IFMT := 0xf000; S_IFREG := 0x8000; S_IFIFO := 0x1000; S_IFCHR := 0x2000; S_IFBLK := 0x6000; S_IFSOCK := 0xc000;
  RENAME_SWAP := 2; RENAME_EXCL := 4; XATTR_CREATE := 2; XATTR_REPLACE := 4;
  F_RDLCK := 1; F_WRLCK := 3; F_UNLCK := 2; SEEK_DATA := 4; SEEK_HOLE := 3; FIONREAD := 0x4004667f;
  POLLIN := 1; POLLRDNORM := 0x40; POLLOUT := 4; POLLWRNORM := 4;
  major := λ d, Z.land (Z.shiftr d 24) 0xff; minor := λ d, Z.land d 0xffffff;
  makedev := λ a b, Z.lor (Z.shiftl a 24) b
|}.

Abbreviation run_disk l m := (run in_time same_case elements darwin 501 20 24 152 l m).
Definition new_disk : Mounted (R:=DiskServer.Disk) := mounted (DiskServer.MkDisk [1; 2; 3] 0).

(** The file is looked up, its directory read with attributes, and it is opened;
    then one of the two references is forgotten. *)
Definition first_requests : list Event :=
  [Request 0 (FuseRequest.Lookup ROOT_INODE (lit "notes")); Request 0 (FuseRequest.OpenDir ROOT_INODE 0);
   Request 0 (FuseRequest.ReadDirPlus ROOT_INODE 1 0 4096)].
Definition more_requests : list Event :=
  [Request 0 (FuseRequest.Open 2 0); Request 0 (FuseRequest.Forget 2 1); Request 0 (FuseRequest.Release 2 None false);
   Request 0 (FuseRequest.ReleaseDir 1); Wait RELEASED_DIRECTORY_ENTRY_RETENTION; Task 1; Task 0].

Lemma serial_references_kept_witness :
  ledger (run_disk first_requests new_disk) 2 = 2 ∧ ledger (run_disk more_requests (run_disk first_requests new_disk)) 2 = 1 ∧
  ∃ n, node_at (adapter (run_disk more_requests (run_disk first_requests new_disk))) 2 = Some n ∧
    ∀ n', node_at (adapter (run_disk first_requests new_disk)) 2 = Some n' → n' = n.
Proof.
  pose proof (serial_references_kept in_time same_case elements darwin 501 20 24 152 (DiskServer.MkDisk [1; 2; 3] 0)
    first_requests more_requests 2) as H.
  split; [by vm_compute|]. split; [by vm_compute|]. destruct H as (n & Hn & _ & Hsame).
  - by repeat constructor.
  - by vm_compute.
  - by vm_compute.
  - exists n. split; [exact Hn|exact Hsame].
Defined.

(** The file was looked up, and the listing of the directory is no longer fresh. *)
Definition stale_listing : Adapter DiskServer.Disk :=
  adapter (run_disk [Request 0 (FuseRequest.Lookup ROOT_INODE (lit "notes")); Wait (DISCOVERED_DIRECTORY_TTL + 1)] new_disk).

(** It is looked up again, and its one reference forgotten meanwhile. *)
Lemma overtaken_lookup_lost_witness :
  adapter_ok stale_listing ∧
  ∃ m s1 s3, lookup_begun in_time same_case ROOT_INODE (lit "notes") stale_listing = (Ok (Some (2, m)), s1) ∧
    lookup_known 2 m (forget_inodes [(2, 1)] s1).2 = (Ok (LookupResult.Mk 2 m), s3) ∧ node_at s3 2 = None.
Proof.
  assert (adapter_ok stale_listing) as Hok.
  { destruct (run_grows in_time same_case elements darwin 501 20 24 152
      [Request 0 (FuseRequest.Lookup ROOT_INODE (lit "notes")); Wait (DISCOVERED_DIRECTORY_TTL + 1)] new_disk
      (adapter_new_ok in_time 152 _)) as [Hok _ _]; [by repeat constructor|exact Hok]. }
  split; [exact Hok|].
  assert (∃ m s1, lookup_begun in_time same_case ROOT_INODE (lit "notes") stale_listing = (Ok (Some (2, m)), s1) ∧
    inode_in_use 2 s1 = false ∧ looked 2 s1 = 1) as (m & s1 & Hb & Hu & Hl).
  { eexists _, _. split; [vm_compute; reflexivity|]. split; vm_compute; reflexivity. }
  destruct (overtaken_lookup_lost in_time same_case elements darwin 501 20 24 152 ROOT_INODE (lit "notes") stale_listing 2 m s1 1
    Hok Hb) as (s3 & Hrun & _ & Hgone); [discriminate|exact Hu|discriminate|rewrite Hl; discriminate|].
  exists m, s1, s3. split; [exact Hb|]. split; [exact Hrun|]. exact (proj1 (Hgone [] (λ _, 0) 0 ltac:(constructor))).
Defined.

(** When the last reference is forgotten and nothing is open, the inode goes. *)
Example forgotten_inode_goes :
  node_at (adapter (run_disk (first_requests ++ more_requests ++ [Request 0 (FuseRequest.Forget 2 2)]) new_disk)) 2 = None.
Proof. by vm_compute. Qed.

(** * What the buffers do not cover *)

Abbreviation reply_of l request :=
  (serve in_time same_case elements darwin 501 20 24 152 0 request (adapter (run_disk l new_disk))).1.

(** The file, open as handles 1 and 2. *)
Definition open_twice : list Event :=
  [Request 0 (FuseRequest.Lookup ROOT_INODE (lit "notes")); Request 0 (FuseRequest.Open 2 2); Request 0 (FuseRequest.Open 2 2)].

(** Bytes that one handle has buffered are counted in the size, and not read by
    the other handle. *)
Example second_handle_reads_old_bytes :
  let l := open_twice ++ [Request 0 (FuseRequest.Write 1 3 [4; 5] 0)] in
  FileAttr.size <$> (match reply_of l (FuseRequest.GetAttr 2) with FuseReply.Attr a => Some a | _ => None end) = Some 5 ∧
  reply_of l (FuseRequest.Read 1 0 10) = FuseReply.Data [1; 2; 3; 4; 5] ∧
  reply_of l (FuseRequest.Read 2 0 10) = FuseReply.Data [1; 2; 3].
Proof. by vm_compute. Qed.

(** A write of no bytes past the end grows the size until it is flushed. *)
Example empty_write_grows_size :
  let l := open_twice ++ [Request 0 (FuseRequest.Write 1 9 [] 0)] in
  let size l := FileAttr.size <$> (match reply_of l (FuseRequest.GetAttr 2) with FuseReply.Attr a => Some a | _ => None end) in
  size l = Some 9 ∧ size (l ++ [Request 0 (FuseRequest.Flush 1 0)]) = Some 3.
Proof. by vm_compute. Qed.

(** Truncating the file through one handle leaves the bytes that another has
    buffered, which are written back later. *)
Example truncated_bytes_come_back :
  let l := open_twice ++ [Request 0 (FuseRequest.Write 1 3 [4; 5] 0);
    Request 0 (FuseRequest.SetAttr 2 (SetAttr.Mk None false (Some 0) None None None (Some 2)));
    Request 0 (FuseRequest.Flush 1 0)] in
  reply_of l (FuseRequest.Read 2 0 10) = FuseReply.Data [0; 0; 0; 4; 5].
Proof. by vm_compute. Qed.

(** Buffered bytes outlive a destroyed mount: their handle is gone, and a
    truncation of the file fails. *)
Example destroyed_mount_keeps_buffer :
  let l := open_twice ++ [Request 0 (FuseRequest.Write 1 3 [4] 0); Request 0 FuseRequest.Destroy] in
  reply_of l (FuseRequest.SetAttr 2 (SetAttr.Mk None false (Some 0) None None None None)) = FuseReply.Error Errno.EBADF.
Proof. by vm_compute. Qed.
End kernel_witness.

(** * Pages of a directory *)

Section pages_witness.
Definition row (inode : Z) (name : Name) : DirectoryEntry :=
  DirectoryEntry.Mk inode name NodeKind.File (DiskServer.file (DiskServer.MkDisk [] 0)).
Definition three_rows : DirectoryListing :=
  DirectoryListing.Mk ROOT_INODE 1 [row 2 (lit "notes"); row 3 (lit "draft"); row 4 (lit "a-rather-long-name")].

(** Two rows to a page. *)
Lemma pages_complete_witness :
  (read_pages 24 6 72 ROOT_INODE 0 three_rows (adapter_new (DiskServer.MkDisk [] 0))).1 =
    Ok [(1, FileType.Directory, lit "."); (2, FileType.Directory, lit ".."); (3, FileType.RegularFile, lit "notes");
        (4, FileType.RegularFile, lit "draft"); (5, FileType.RegularFile, lit "a-rather-long-name")].
Proof.
  apply (pages_complete 24 72 ROOT_INODE three_rows (adapter_new (DiskServer.MkDisk [] 0))); [by vm_compute|].
  repeat constructor; by vm_compute.
Defined.
End pages_witness.
